(* ===== verification/_CoqProject ===== *)
-Q . S2P
Prelude.v
BitWord.v
BitSet.v
Task.v
TaskInv.v
TaskRun.v
TaskOps.v
TaskExit.v
TaskSched.v
TaskThms.v
TaskIds.v
Watermark.v
WorkQueue.v
Timer.v
Patricia.v
PatriciaInv.v
PatriciaOps.v
PatriciaThms.v
SandeshClientSM.v
Transport.v
BinaryProtocol.v
Generated.v
GeneratedThms.v
GeneratedBinary.v
GeneratedSafe.v
XmlProtocol.v
XmlText.v
XmlThms.v
XmlObjects.v
SandeshSession.v
TcpReader.v
TcpSession.v
TcpServer.v
SandeshServer.v
SandeshServerThms.v
Uve.v
UveThms.v
OrderedMap.v
ConfigCassandra.v
ConfigCassandraThms.v
ConfigReader.v
ConfigReaderThms.v
TaskTrigger.v
RequestPipeline.v
Allocators.v
Lifetime.v
