(* ===== verification/Prelude.v ===== *)
(** * tf-common: a verification of its core library

    tf-common is the C++ base of the Tungsten Fabric daemons.  The process is a set of
    tasks on a pool of threads; every component hands its work to the task scheduler,
    which decides what may run at the same time, and most of them keep their work in
    work queues, react to timers, and use the containers and allocators of src/base.
    Sandesh, the messaging library under src/sandesh/library/cpp, connects a daemon to
    its collector with a state machine built on these parts and encodes its messages
    with a binary or an XML protocol over a memory buffer; the collector's side is a server
    with a state machine for each connection.  The read and write functions of a message
    are printed by the Sandesh compiler from its schema.

    ** The files and the code they model

    - [Prelude]: the outcome monad ([Abort] is a failed assertion, an access to memory
      that is not there or the use of a destroyed object), machine integers with their
      wrap-around, lemmas on bits and lists.
    - [BitWord], [BitSet] (src/base/bitset.cc, bitset.h): growable bit sets.  The state
      is the vector of 64-bit blocks; the specification is one integer.
    - [Task] (src/base/task.cc, task.h): [TaskScheduler] with its groups, entries and
      tasks, wait queues, deferral queues, policies, disabling, cancellation, exit.
      [TaskInv] holds the invariant, [TaskRun] the loops over deferral queues, [TaskOps]
      enqueue, [TaskExit] cancel and exit, [TaskSched] the transition system, [TaskThms]
      the theorems.  [TaskIds] is the table of task names.
    - [Watermark] (src/base/watermark.cc, watermark.h): the callbacks at high and low
      water marks.
    - [WorkQueue] (src/base/queue_task.h): a work queue and its runner, in the atomic
      pieces between which threads interleave.
    - [Timer] (src/base/timer.cc, timer.h): a timer, its pending waits and its tasks.
    - [Patricia] (src/base/patricia.h): the threaded Patricia tree as a heap of nodes;
      [PatriciaInv] the tree behind the pointers, [PatriciaOps] the operations followed
      through the heap, [PatriciaThms] the walks and the theorems.
    - [SandeshClientSM] (src/sandesh/library/cpp/sandesh_client_sm.cc and its headers,
      parts of sandesh_client.cc): the connection of a client to its collectors.
    - [Transport] (src/sandesh/library/cpp/transport/TBufferTransports.h, .cpp):
      [TMemoryBuffer], and the interface a protocol uses of a transport.
    - [BinaryProtocol] (src/sandesh/library/cpp/protocol/TBinaryProtocol.h, .tcc, [skip]
      of TProtocol.h): the binary encoding, over any transport with that interface.
    - [Generated] (the reader and writer parts of
      src/sandesh/compiler/generate/t_cpp_generator.cc, [skip] of TProtocol.h): what the
      printed functions do, for any schema and over any protocol.  [GeneratedThms] the round
      trip over a protocol with [ProtocolLaws], [GeneratedSafe] what reading arbitrary data
      gives, [GeneratedBinary] the binary protocol as an instance.
    - [XmlProtocol] (src/sandesh/library/cpp/protocol/TXMLProtocol.cpp, .h): the XML
      encoding.  [XmlText] on its text, [XmlThms] that it keeps [ProtocolLaws], [XmlObjects]
      the theorems on objects.
    - [SandeshServer] (src/sandesh/library/cpp/sandesh_state_machine.cc,
      sandesh_connection.cc, sandesh_server.cc): the server, its connections and their state
      machines; [SandeshServerThms] its steps, invariant and theorems.
    - [SandeshSession] (src/sandesh/library/cpp/sandesh_session.cc, .h): the framing of
      messages, [SandeshWriter] and [SandeshReader].
    - [TcpReader] (src/io/tcp_session.cc, [TcpMessageReader]): the reassembly of messages
      from the buffers that a socket delivers.
    - [TcpSession] (src/io/tcp_session.cc, tcp_message_write.cc): the sending side of a
      session, its queue of unsent bytes, its callbacks and its closing.
    - [TcpServer] (src/io/tcp_server.cc, closing in tcp_session.cc): the sessions of a
      server, accepted, connected, closed and deleted by several threads.
    - [Allocators] (src/base/index_allocator.cc, label_block.cc): index and label
      allocation, over any bit set with the interface [Bits].
    - [Lifetime] (src/base/lifetime.cc, dependency.h): deletion of objects that depend on
      each other.
    - [Uve] (src/sandesh/library/cpp/sandesh_uve.h, sandesh_uve.cc, the UVE functions of
      t_cpp_generator.cc): the caches of UVEs; [UveThms] what a collector has merged.
    - [OrderedMap]: [std::map] with string keys, as the list of its pairs in order.
    - [ConfigCassandra] (src/config-client-mgr/config_cassandra_client.cc,
      config_db_client.cc): the cache of configuration objects, the comparison of a row with
      it and what is pushed to the consumer; [ConfigCassandraThms] what the consumer has.
      [ConfigReader] (the rest of config_cassandra_client.cc): requests, the task that
      serves them, and the reading of names; [ConfigReaderThms] their theorems.
    - [TaskTrigger] (src/base/task_trigger.cc, task_trigger.h): triggers, and the one of the
      reader of configuration requests.
    - [RequestPipeline] (src/sandesh/library/cpp/request_pipeline.cc, .h): pipelines of
      stages whose instances run in parallel.

    The names of the definitions are those of the C++ functions and members.  Objects
    that are reached through pointers live in maps from references to records, and the
    operations pass the whole state; where the code takes a lock several times, or none,
    each section that is atomic is a definition and a step relation interleaves them.

    ** How the parts meet

    The guarantees one part gives to another are used as such.  [TaskThms] shows that
    tasks with one task id and instance never run together: this is what makes an event
    of the client state machine one step in [SandeshClientSM].  [WorkQueue] assumes of
    the scheduler the life of one task, and shows that [Task.Cancel] behaves so.  The
    timers of the state machine are those of [Timer] ([CSM.Timer_Start_spec], [CSM.Timer_Cancel_spec]).  The classes [TransportLaws] and
    [BitsLaws] state what the binary protocol and the allocators rely on, and
    [TMemoryBuffer] and [BitSet] are proved to be instances.  The generated code relies on
    [ProtocolLaws] (what is written can be read) and [ReadSafe] (what is read has its type),
    which the binary protocol and, for the first, the XML protocol keep.  The consumer of the
    configuration is the class [ConsumerLaws], what the notes in the code say of it.

    ** What the theorems show

    - The scheduler, with disabling and enabling among its operations: no assertion fails in
      any sequence of operations, but for three misuses of the disable functions
      ([misused] in TaskSched.v); tasks of different task ids or entries that exclude each
      other, and tasks of one instance, never run together; a task that waits is held by a
      running member of its policy, by a stopped scheduler or by its disabled group or
      entry; the tasks of an entry start in the order they came; and the outcome of each
      public operation on every branch.
    - Work queues: an assertion fails only when a queue is shut down a second time, no entry is left in an enabled queue without a task to run it, entries
      are processed once and in order and the counters are exact.  Timers: a cancelled
      timer does not fire, a running one does, nothing is used after it was freed.
    - The Patricia tree refines a finite map of bit strings; longest-prefix match finds
      the longest prefix; walks go through the keys in order.
    - The client state machine neither aborts nor gets stuck in any interleaving of its
      inputs, but for a socket that cannot be opened, whose null session it uses; each message
      is sent or dropped exactly once; the timer of an attempt to connect again is started for
      1, 2, 4, 8, 16 and then 30 seconds; forced closes are spaced.
    - The memory buffer refines a byte queue; what the binary protocol writes it reads
      back; [skip] consumes exactly one value.  Messages that a session's writer frames
      and collects are delivered by the reader of the other side however the stream is
      cut, but for those that still wait in the writer's buffer, and the reader survives arbitrary bytes but for one kind of length.  The
      same holds of the generic reader of TCP sessions, which releases every buffer once.
    - What the generated code writes it reads back, for every schema whose containers have no
      elements of a typedef of a base type, in the binary and (without doubles) in the XML
      encoding; on arbitrary data it fails or gives an object of its type, in which the members
      that came are set, the others are as they were, and the required ones have come; where XML
      data ends too early its reader does not return.  Whether there is memory for a list of the
      size that the data declares is a parameter.
    - The server uses no session or connection that was deleted, in any order of accepts,
      messages, closes, timers and deletions in which no endpoint is used again while its
      connection has no session and no connection is destroyed before it saw its session;
      it fails on a control message that cannot be decoded and when a peer is accepted after
      the shutdown.  A closed session is deleted, and no session or connection is left over.  The session maps of a TCP server agree with its sessions in every
      interleaving, and waiting for them to be empty ends.
    - A TCP session hands the accepted bytes to the socket in order and once, with at most
      one write outstanding, and when writes complete and nobody closes it the queue empties and
      a blocked user is told.
    - Bit sets are sets: every operation against the integer it stands for.  The
      allocators agree with a round-robin search that forgets its place when it finds nothing.
    - Deletion of a dependency graph completes, in every interleaving without aborting.
    - A collector that is told all UVEs when it connects has merged what one that received
      every update has, in histories without periodic rounds; UVEs that are not updated time out.
    - The consumer of the configuration has of every object what its last row said, whatever
      the order of rows, deletions and names that [ops_ok] allows; every request is served, the
      marks of the end of the configuration included, and the names are read
      once each.  While a request waits the task of its reader is enqueued.
    - Pipelines run one after the other, their stages in order and each instance once, and
      when the callbacks return true all of them complete.

    Where the code falls short of what it means to do, a lemma exhibits the run, next to
    the theorem whose hypothesis excludes it (for instance [enable_while_stopped_aborts], [WQ.shutdown_lost], [WQ.second_shutdown_aborts],
    [CSM.null_session_used], [SST.undecodable_control_aborts], [GS.declared_size_aborts],
    [AL.label_zero_ambiguous],
    [TB.grow_wraps], [BP.set_negative_size], [SS.rejected_message_overruns],
    [TR.oversize_message_overflows], [TS.soft_error_aborts], [AL.release_unlocks_deleted],
    [Routes.get_prev_misses_parent], [XO.entity_text_lost], [TSV.connect_undo_does_not_wake],
    [SST.endpoint_reuse_dangles], [UT.sync_of_a_table_hangs], [CRT.end_of_config_first], [TT.unexcluded_request_lost],
    [RP.empty_pipeline_deadlocks]).

    ** Fuel and bounds

    Loops that are not structural take fuel, and running out of it is a result the
    theorems exclude.  The deferral queues are visited at most once per entry and waiting
    task ([TaskRun]); a descent or a walk in the Patricia tree takes at most two rounds per
    node; [skip] needs more fuel than the value has bytes, since
    every part of a value takes at least one byte; the doubling of the memory buffer takes
    at most 32 rounds; [Lifetime.LT.drain] needs [work s] rounds, three for each event
    that is queued or can still be; a read takes a round for each message it completes;
    [TS.flush] needs [effort s] rounds; the generated code needs more fuel than its type is
    deep ([width]), the loops of the XML reader more than the text is long; a machine of the
    server empties its queue in [work k] turns; a buffer size is doubled at most 31 times; the
    walk over the UVEs of a name takes a round for each; reading the names of a type takes a
    round for each failed read and each page, the reader of requests a run for each request;
    the threads of the pipelines take at most [RP.work] steps.
    Bit sets, the memory buffer, the protocol and the
    allocators keep the width of their integers; sequence numbers and statistics of the
    scheduler, the reference counts of timers and actors are unbounded integers.

    ** Not modelled

    Statistics, latency thresholds, logging and time stamps.  The virtual functions of
    users (callbacks, [MayDelete], [Run]) are inputs.  Of boost::asio, tbb, http_parser,
    curl, the Cassandra driver, gRPC and zookeeper there is no source here, and the io,
    http, database and zookeeper directories are mostly calls of them; of config-client-mgr the
    clients of AMQP and etcd and the JSON documents are not modelled.
    Of the Sandesh compiler, which prints text, the code that reads and writes objects and
    updates UVEs is modelled; constructors, logging, derived statistics and requests, the
    other languages and the grammar are not, and neither are sandesh.cc and what works on generated classes, nor the data that the
    instances of a pipeline keep.  The
    Python libraries repeat the C++ ones. *)

From stdpp Require Export prelude.
From Stdlib Require Export ZArith Lia Bool.
From Stdlib Require Import Sorted.
Open Scope Z_scope.

(** ** Outcomes

    The code guards its data structures with [assert].  [Abort] is a failed
    assertion (the process dies); [Ret a] is normal completion. *)

Inductive outcome (A : Type) : Type :=
| Ret (a : A)
| Abort.
Arguments Ret {A} a.
Arguments Abort {A}.

#[export] Instance outcome_mret : MRet outcome := λ A a, Ret a.
#[export] Instance outcome_mbind : MBind outcome :=
  λ A B f m, match m with Ret a => f a | Abort => Abort end.

(** [assert_that b] is the statement [assert(b)]. *)
Definition assert_that (b : bool) : outcome unit := if b then Ret tt else Abort.

Lemma outcome_bind_ret {A B} (m : outcome A) (f : A → outcome B) b :
  m ≫= f = Ret b ↔ ∃ a, m = Ret a ∧ f a = Ret b.
Proof. destruct m; simpl; naive_solver. Qed.

Lemma assert_that_ret b u : assert_that b = Ret u ↔ b = true.
Proof. destruct b, u; simpl; naive_solver. Qed.

Lemma assert_that_true b : b = true → assert_that b = Ret tt.
Proof. by intros ->. Qed.

(** ** Machine integers *)

(** [wrap w z] is the value of [z] stored in an unsigned w-bit integer. *)
Definition wrap (w z : Z) : Z := z mod 2 ^ w.
Abbreviation u64 := (wrap 64).
Abbreviation u32 := (wrap 32).

(** [swrap w z] is the value of [z] stored in a signed w-bit integer (two's
    complement). *)
Definition swrap (w z : Z) : Z := (z + 2 ^ (w - 1)) mod 2 ^ w - 2 ^ (w - 1).
Abbreviation s32 := (swrap 32).
Abbreviation s64 := (swrap 64).

Create Rewrite HintDb bits.

Lemma wrap_range w z : 0 ≤ w → 0 ≤ wrap w z < 2 ^ w.
Proof. intros. apply Z.mod_pos_bound. lia. Qed.

Lemma wrap_small w z : 0 ≤ z < 2 ^ w → wrap w z = z.
Proof. apply Z.mod_small. Qed.

Lemma wrap_testbit w z i :
  0 ≤ w → 0 ≤ i → Z.testbit (wrap w z) i = (i <? w) && Z.testbit z i.
Proof.
  intros. unfold wrap. destruct (Z.ltb_spec i w).
  - by rewrite Z.mod_pow2_bits_low.
  - by rewrite Z.mod_pow2_bits_high by lia.
Qed.

Lemma swrap_mod w z : 0 < w → wrap w (swrap w z) = wrap w z.
Proof.
  intros Hw. unfold wrap, swrap.
  rewrite Zminus_mod_idemp_l. f_equal. lia.
Qed.

Lemma swrap_testbit w z i :
  0 ≤ i < w → Z.testbit (swrap w z) i = Z.testbit z i.
Proof.
  intros Hi. rewrite <-(Z.mod_pow2_bits_low _ w i), <-(Z.mod_pow2_bits_low z w i) by lia.
  f_equal. apply swrap_mod. lia.
Qed.

Lemma testbit_above w z i : 0 ≤ z < 2 ^ w → w ≤ i → Z.testbit z i = false.
Proof.
  intros [? Hz] ?. destruct (Z.lt_decidable w 0).
  - rewrite Z.pow_neg_r in Hz by lia. lia.
  - rewrite <-(Z.mod_small z (2 ^ w)) by lia. apply Z.mod_pow2_bits_high. lia.
Qed.

Lemma bits_bound w z :
  0 ≤ w → 0 ≤ z → (∀ i, w ≤ i → Z.testbit z i = false) → 0 ≤ z < 2 ^ w.
Proof.
  intros ? ? Hb. split; [done|].
  replace z with (wrap w z); [apply wrap_range; lia|].
  apply Z.bits_inj'. intros i ?. rewrite wrap_testbit by lia.
  destruct (Z.ltb_spec i w); simpl; [done|]. by rewrite Hb.
Qed.

Lemma pow2_split n m : 0 ≤ n ≤ m → 2 ^ m = 2 ^ n * 2 ^ (m - n).
Proof. intros. rewrite <-Z.pow_add_r by lia. by rewrite Zplus_minus. Qed.

Lemma lor_add a b : Z.land a b = 0 → Z.lor a b = a + b.
Proof. intros H. by rewrite <-Z.lxor_lor, Z.add_nocarry_lxor by done. Qed.

Lemma testbit_pow2 n i : 0 ≤ n → 0 ≤ i → Z.testbit (2 ^ n) i = (i =? n).
Proof.
  intros. rewrite Z.pow2_bits_eqb by lia. apply Z.eqb_sym.
Qed.

Lemma testbit_shiftl1 n i : 0 ≤ n → 0 ≤ i → Z.testbit (Z.shiftl 1 n) i = (i =? n).
Proof. intros. rewrite Z.shiftl_1_l. by apply testbit_pow2. Qed.

Lemma testbit_pow2_pred n i :
  0 ≤ n → 0 ≤ i → Z.testbit (2 ^ n - 1) i = (i <? n).
Proof.
  intros. replace (2 ^ n - 1) with (Z.ones n) by (rewrite Z.ones_equiv; lia).
  destruct (Z.ltb_spec i n); [by apply Z.ones_spec_low | apply Z.ones_spec_high; lia].
Qed.

#[export] Hint Rewrite Z.land_spec Z.lor_spec Z.lxor_spec Z.ldiff_spec : bits.
#[export] Hint Rewrite wrap_testbit Z.lnot_spec Z.shiftr_spec
  testbit_pow2 testbit_shiftl1 testbit_pow2_pred Z.testbit_0_l using lia : bits.

(** Rewrite every [testbit] of a compound term to the bits of its parts. *)
Ltac bits := autorewrite with bits.

(** A number is zero when its bits are. *)
Lemma zero_bits z : z = 0 ↔ ∀ i, 0 ≤ i → Z.testbit z i = false.
Proof.
  split; [by intros -> ? _; rewrite Z.testbit_0_l|].
  intros Hb. apply Z.bits_inj'. intros i ?. by rewrite Hb, Z.testbit_0_l.
Qed.

Lemma nonzero_bit z : z ≠ 0 → ∃ i, 0 ≤ i ∧ Z.testbit z i = true.
Proof.
  intros Hz. destruct (Z.lt_decidable z 0) as [Hneg|Hpos].
  - exists (Z.log2 (Z.pred (- z)) + 1). pose proof (Z.log2_nonneg (Z.pred (-z))).
    split; [lia|]. apply Z.bits_above_log2_neg; lia.
  - exists (Z.log2 z). split; [apply Z.log2_nonneg|]. apply Z.bit_log2. lia.
Qed.

(** ** Lists *)

Lemma list_filter_ext_in {A} (P Q : A → Prop)
  `{!∀ x, Decision (P x), !∀ x, Decision (Q x)} (l : list A) :
  (∀ x, x ∈ l → P x ↔ Q x) → filter P l = filter Q l.
Proof.
  induction l as [|x l IH]; intros HPQ; [done|]. rewrite !filter_cons.
  pose proof (HPQ x ltac:(set_solver)). rewrite IH by set_solver.
  repeat case_decide; naive_solver.
Qed.

Lemma filter_remove_one {A} (P Q : A → Prop)
  `{!∀ x, Decision (P x), !∀ x, Decision (Q x)} (l : list A) a :
  NoDup l → a ∈ l → P a → (∀ x, x ∈ l → Q x ↔ P x ∧ x ≠ a) →
  length (filter P l) = S (length (filter Q l)).
Proof.
  induction l as [|x l IH]; intros Hnd Ha HPa HQ; [by apply elem_of_nil in Ha|].
  apply NoDup_cons in Hnd as [Hx Hnd]. rewrite !filter_cons.
  pose proof (HQ x ltac:(set_solver)) as HQx. apply elem_of_cons in Ha as [->|Ha].
  - rewrite decide_True, decide_False by naive_solver. simpl. do 2 f_equal.
    apply list_filter_ext_in. set_solver.
  - assert (x ≠ a) by naive_solver. specialize (IH Hnd Ha HPa ltac:(set_solver)).
    repeat case_decide; simpl; naive_solver lia.
Qed.

(** A sorted list is sorted by every relation that agrees on its elements. *)
Lemma ssorted_impl_in {A} (R R' : A → A → Prop) (l : list A) :
  (∀ a b, a ∈ l → b ∈ l → R a b → R' a b) → StronglySorted R l → StronglySorted R' l.
Proof.
  induction l as [|x l IH]; intros HR Hs; [constructor|].
  apply StronglySorted_inv in Hs as [Hs Hx]. constructor.
  - apply IH; [|done]. set_solver.
  - rewrite Forall_forall in Hx |- *. intros b Hb. apply HR; [set_solver..|]. by apply Hx.
Qed.

Lemma ssorted_app {A} (R : A → A → Prop) (l1 l2 : list A) :
  StronglySorted R (l1 ++ l2) ↔
  StronglySorted R l1 ∧ StronglySorted R l2 ∧ ∀ a b, a ∈ l1 → b ∈ l2 → R a b.
Proof.
  induction l1 as [|x l1 IH]; simpl.
  - split; [|naive_solver]. intros. split; [constructor|]. split; [done|]. set_solver.
  - split.
    + intros [Hs Hx]%StronglySorted_inv. apply IH in Hs as (?&?&?). rewrite Forall_app in Hx.
      destruct Hx as [Hx1 Hx2]. split_and!; [by constructor|done|].
      intros a b [->|Ha]%elem_of_cons Hb; [|by auto]. rewrite Forall_forall in Hx2. by auto.
    + intros ([Hs Hx]%StronglySorted_inv&Hs2&Hab). constructor.
      * apply IH. split_and!; [done..|]. intros. apply Hab; set_solver.
      * rewrite Forall_app. split; [done|]. apply Forall_forall. intros. apply Hab; set_solver.
Qed.

Lemma ssorted_nodup {A} (R : A → A → Prop) (l : list A) :
  (∀ a, ¬ R a a) → StronglySorted R l → NoDup l.
Proof.
  intros Hirr. induction 1 as [|x l ? IH Hx]; constructor; [|done].
  rewrite Forall_forall in Hx. intros Hin%Hx. by eapply Hirr.
Qed.

(** [List.remove] on lists without duplicates. *)
Lemma elem_of_list_remove {A} (dec : ∀ x y : A, {x = y} + {x ≠ y}) (x a : A) (l : list A) :
  x ∈ List.remove dec a l ↔ x ∈ l ∧ x ≠ a.
Proof.
  rewrite !list_elem_of_In. split; [apply List.in_remove|]. intros []. by apply List.in_in_remove.
Qed.

Lemma list_remove_fresh {A} (dec : ∀ x y : A, {x = y} + {x ≠ y}) (a : A) (l : list A) :
  a ∉ l → List.remove dec a l = l.
Proof. intros Ha. apply List.notin_remove. by rewrite <-list_elem_of_In. Qed.

Lemma list_remove_mid {A} (dec : ∀ x y : A, {x = y} + {x ≠ y}) (a : A) (l1 l2 : list A) :
  NoDup (l1 ++ a :: l2) → List.remove dec a (l1 ++ a :: l2) = l1 ++ l2.
Proof.
  intros (?&Hd&[??]%NoDup_cons)%NoDup_app.
  rewrite List.remove_app, List.remove_cons, !list_remove_fresh; [done..|].
  intros ?. apply (Hd a); set_solver.
Qed.

Lemma ssorted_remove {A} (dec : ∀ x y : A, {x = y} + {x ≠ y}) (R : A → A → Prop) (a : A) l :
  StronglySorted R l → StronglySorted R (List.remove dec a l).
Proof.
  induction 1 as [|x l ? IH Hx]; simpl; [constructor|]. destruct (dec a x); [done|].
  constructor; [done|]. rewrite Forall_forall in Hx |- *. intros y [??]%elem_of_list_remove. auto.
Qed.
