(* ===== verification/BitWord.v ===== *)
(** * Bit scans on one 64-bit block

    The file-local helpers at the top of src/base/bitset.cc: position of the
    first set, first clear and last set bit of a word (numbered from 1, 0 for
    none) and the number of set bits.  Positions returned by the helpers are
    related to [Z.testbit]. *)

From S2P Require Import Prelude.

(** POSIX [ffs]: 1 + the position of the least significant set bit of an
    [int], 0 when there is none. *)
Fixpoint ffs_from (n : nat) (i value : Z) : Z :=
  match n with
  | O => 0
  | S n' => if Z.testbit value i then i + 1 else ffs_from n' (i + 1) value
  end.
Definition ffs (value : Z) : Z := ffs_from 32 0 value.

Definition find_first_set64 (value : Z) : Z :=
  let lower := s32 value in
  if 0 <? ffs lower then ffs lower
  else
    let upper := s32 (Z.shiftr value 32) in
    if 0 <? ffs upper then 32 + ffs upper else 0.

Definition find_first_clear64 (value : Z) : Z := find_first_set64 (u64 (Z.lnot value)).

(** One step of the binary search of [find_last_set32]: when the top [n] bits
    selected by [mask] are clear, shift the word left by [n]. *)
Definition fls_step (mask n : Z) (st : Z * Z) : Z * Z :=
  let '(value, bit) := st in
  if Z.land value mask =? 0 then (u32 (Z.shiftl value n), bit - n) else (value, bit).

Definition find_last_set32 (value : Z) : Z :=
  if value =? 0 then 0
  else
    let st := (value, 32) in
    let st := fls_step 0xFFFF0000 16 st in
    let st := fls_step 0xFF000000 8 st in
    let st := fls_step 0xF0000000 4 st in
    let st := fls_step 0xC0000000 2 st in
    let st := fls_step 0x80000000 1 st in
    st.2.

Definition find_last_set64 (value : Z) : Z :=
  let upper := s32 (Z.shiftr value 32) in
  let bit := find_last_set32 (u32 upper) in
  if 0 <? bit then 32 + bit
  else
    let lower := s32 value in
    let bit := find_last_set32 (u32 lower) in
    if 0 <? bit then bit else 0.

(** The K&R loop; [None] when [fuel] iterations do not reach 0. *)
Fixpoint num_bits_loop (fuel : nat) (value count : Z) : option Z :=
  if value =? 0 then Some count
  else
    match fuel with
    | O => None
    | S fuel' => num_bits_loop fuel' (Z.land value (u64 (value - 1))) (count + 1)
    end.

(** 64 iterations are enough: each clears one of the 64 bits
    ([num_bits_set_popcount] below). *)
Definition num_bits_set (value : Z) : option Z := num_bits_loop 64 value 0.

(** ** The first set bit *)

Definition word (v : Z) : Prop := 0 ≤ v < 2 ^ 64.

(** [n] is the least position in [[0, 64)] at which [v] has a set bit. *)
Definition lowest_bit (v n : Z) : Prop :=
  0 ≤ n < 64 ∧ Z.testbit v n = true ∧ ∀ i, 0 ≤ i < n → Z.testbit v i = false.

Lemma ffs_from_spec n i v :
  0 ≤ i →
  (ffs_from n i v = 0 ∧ ∀ j, i ≤ j < i + Z.of_nat n → Z.testbit v j = false) ∨
  (∃ p, ffs_from n i v = p + 1 ∧ i ≤ p < i + Z.of_nat n ∧ Z.testbit v p = true ∧
        ∀ j, i ≤ j < p → Z.testbit v j = false).
Proof.
  revert i. induction n as [|n IH]; intros i Hi; cbn [ffs_from].
  { left. split; [done|]. lia. }
  destruct (Z.testbit v i) eqn:E.
  { right. exists i. repeat split; [lia..|done|lia]. }
  destruct (IH (i + 1) ltac:(lia)) as [[-> H]|(p & -> & Hp & Hb & H)].
  - left. split; [done|]. intros j Hj. destruct (decide (j = i)) as [->|]; [done|].
    apply H. lia.
  - right. exists p. repeat split; [lia..|done|].
    intros j Hj. destruct (decide (j = i)) as [->|]; [done|]. apply H. lia.
Qed.

Lemma ffs_spec v :
  (ffs v = 0 ∧ ∀ j, 0 ≤ j < 32 → Z.testbit v j = false) ∨
  (∃ p, ffs v = p + 1 ∧ 0 ≤ p < 32 ∧ Z.testbit v p = true ∧
        ∀ j, 0 ≤ j < p → Z.testbit v j = false).
Proof. exact (ffs_from_spec 32 0 v ltac:(lia)). Qed.

Lemma find_first_set64_spec v :
  (find_first_set64 v = 0 ∧ ∀ j, 0 ≤ j < 64 → Z.testbit v j = false) ∨
  (∃ p, find_first_set64 v = p + 1 ∧ lowest_bit v p).
Proof.
  unfold find_first_set64, lowest_bit.
  assert (∀ j, 0 ≤ j < 32 → Z.testbit (s32 (Z.shiftr v 32)) j = Z.testbit v (j + 32)) as Hup.
  { intros j Hj. rewrite swrap_testbit, Z.shiftr_spec by lia. done. }
  destruct (ffs_spec (s32 v)) as [[-> Hl]|(p & -> & Hp & Hb & Hl)].
  - assert (∀ j, 0 ≤ j < 32 → Z.testbit v j = false) as Hlow.
    { intros j Hj. by rewrite <-(Hl j Hj), swrap_testbit by lia. }
    destruct (ffs_spec (s32 (Z.shiftr v 32))) as [[-> Hu]|(p & -> & Hp & Hb & Hu)]; simpl.
    + left. split; [done|]. intros j Hj. destruct (Z.lt_decidable j 32); [apply Hlow; lia|].
      rewrite <-(Hu (j - 32)), Hup by lia. f_equal; lia.
    + right. rewrite (proj2 (Z.ltb_lt _ _)) by lia. exists (p + 32). repeat split; [lia..| |].
      * by rewrite <-Hup by lia.
      * intros i Hi. destruct (Z.lt_decidable i 32); [apply Hlow; lia|].
        rewrite <-(Hu (i - 32)), Hup by lia. f_equal; lia.
  - rewrite (proj2 (Z.ltb_lt _ _)) by lia. right. exists p. repeat split; [lia..| |].
    + by rewrite <-Hb, swrap_testbit by lia.
    + intros i Hi. by rewrite <-(Hl i Hi), swrap_testbit by lia.
Qed.

Lemma find_first_clear64_spec v :
  (find_first_clear64 v = 0 ∧ ∀ j, 0 ≤ j < 64 → Z.testbit v j = true) ∨
  (∃ p, find_first_clear64 v = p + 1 ∧ 0 ≤ p < 64 ∧ Z.testbit v p = false ∧
        ∀ j, 0 ≤ j < p → Z.testbit v j = true).
Proof.
  unfold find_first_clear64.
  assert (∀ j, 0 ≤ j < 64 → Z.testbit (u64 (Z.lnot v)) j = negb (Z.testbit v j)) as E.
  { intros j Hj. bits. by rewrite (proj2 (Z.ltb_lt _ _)) by lia. }
  destruct (find_first_set64_spec (u64 (Z.lnot v))) as [[-> H]|(p & -> & Hp & Hb & H)].
  - left. split; [done|]. intros j Hj. specialize (H j Hj). rewrite E in H by lia.
    by apply negb_false_iff.
  - right. rewrite E in Hb by lia. exists p. repeat split; [lia..|by apply negb_true_iff|].
    intros j Hj. specialize (H j Hj). rewrite E in H by lia. by apply negb_false_iff.
Qed.

(** ** The last set bit *)

Lemma land_high_mask v n :
  0 ≤ n ≤ 32 → 0 ≤ v < 2 ^ 32 →
  (Z.land v (2 ^ 32 - 2 ^ (32 - n)) =? 0) = (v <? 2 ^ (32 - n)).
Proof.
  intros Hn Hv.
  assert (∀ i, 0 ≤ i → Z.testbit (2 ^ 32 - 2 ^ (32 - n)) i = (32 - n <=? i) && (i <? 32)) as Hm.
  { intros i Hi. replace (2 ^ 32 - 2 ^ (32 - n)) with (Z.shiftl (Z.ones n) (32 - n)).
    - rewrite Z.shiftl_spec by lia. destruct (Z.leb_spec (32 - n) i); simpl.
      + destruct (Z.ltb_spec i 32); [apply Z.ones_spec_low; lia|apply Z.ones_spec_high; lia].
      + apply Z.testbit_neg_r. lia.
    - rewrite Z.shiftl_mul_pow2, Z.ones_equiv by lia.
      replace (2 ^ 32) with (2 ^ n * 2 ^ (32 - n)) by (rewrite <-Z.pow_add_r by lia; f_equal; lia).
      lia. }
  destruct (Z.ltb_spec v (2 ^ (32 - n))) as [Hlt|Hge].
  - apply Z.eqb_eq, zero_bits. intros i Hi. bits. rewrite Hm by lia.
    destruct (Z.leb_spec (32 - n) i); [|by rewrite andb_false_r].
    by rewrite (testbit_above (32 - n)) by lia.
  - apply Z.eqb_neq. intros H0. assert (Z.log2 v < 32) by (apply Z.log2_lt_pow2; lia).
    assert (32 - n ≤ Z.log2 v) by (apply Z.log2_le_pow2; lia).
    pose proof (proj1 (zero_bits _) H0 (Z.log2 v) (Z.log2_nonneg _)) as Hb.
    rewrite Z.land_spec, Z.bit_log2, Hm in Hb by (try apply Z.log2_nonneg; lia).
    rewrite (proj2 (Z.leb_le _ _)), (proj2 (Z.ltb_lt _ _)) in Hb by lia. done.
Qed.

(** The state of the search before the step that looks at the top [k / 2]
    bits: the input shifted left by [32 - bit] places without losing a bit, and
    its highest bit among the top [k]. *)
Definition fls_inv (v k : Z) (st : Z * Z) : Prop :=
  2 ^ (32 - k) ≤ st.1 < 2 ^ 32 ∧ st.2 + Z.log2 st.1 = 32 + Z.log2 v.

Lemma fls_step_inv v n mask st :
  0 < n ≤ 16 → mask = 2 ^ 32 - 2 ^ (32 - n) →
  fls_inv v (2 * n) st → fls_inv v n (fls_step mask n st).
Proof.
  destruct st as [x bit]. intros Hn -> [Hx Hl]; simpl in *.
  assert (0 < 2 ^ (32 - 2 * n)) by lia. rewrite land_high_mask by lia.
  destruct (Z.ltb_spec x (2 ^ (32 - n))) as [Hlt|Hge]; [|split; simpl; lia].
  rewrite Z.shiftl_mul_pow2 by lia.
  pose proof (pow2_split n 32 ltac:(lia)). pose proof (pow2_split n (32 - n) ltac:(lia)).
  replace (32 - n - n) with (32 - 2 * n) in * by lia.
  assert (0 < 2 ^ n) by lia. assert (0 < x * 2 ^ n < 2 ^ 32) by nia.
  rewrite wrap_small by lia. split; simpl; [nia|]. rewrite Z.log2_mul_pow2 by lia. lia.
Qed.

Lemma find_last_set32_log2 v : 0 < v < 2 ^ 32 → find_last_set32 v = Z.log2 v + 1.
Proof.
  intros Hv. unfold find_last_set32. rewrite (proj2 (Z.eqb_neq _ _)) by lia.
  assert (fls_inv v 32 (v, 32)) as H by (split; simpl; lia).
  apply (fls_step_inv v 16 0xFFFF0000) in H; [|done..].
  apply (fls_step_inv v 8 0xFF000000) in H; [|done..].
  apply (fls_step_inv v 4 0xF0000000) in H; [|done..].
  apply (fls_step_inv v 2 0xC0000000) in H; [|done..].
  apply (fls_step_inv v 1 0x80000000) in H; [|done..].
  destruct H as [Hr HL]. rewrite (Z.log2_unique _ 31) in HL by lia. lia.
Qed.

Lemma find_last_set64_log2 v : 0 < v < 2 ^ 64 → find_last_set64 v = Z.log2 v + 1.
Proof.
  intros Hv. unfold find_last_set64. rewrite !swrap_mod by lia.
  assert (u32 (Z.shiftr v 32) = v / 2 ^ 32) as ->.
  { rewrite Z.shiftr_div_pow2 by lia. apply wrap_small.
    split; [apply Z.div_pos; lia|apply Z.div_lt_upper_bound; lia]. }
  destruct (Z.lt_decidable v (2 ^ 32)) as [Hs|Hb].
  - rewrite Z.div_small, wrap_small by lia. simpl.
    rewrite find_last_set32_log2 by lia. pose proof (Z.log2_nonneg v).
    by rewrite (proj2 (Z.ltb_lt _ _)) by lia.
  - assert (0 < v / 2 ^ 32 < 2 ^ 32) by
      (split; [apply Z.div_str_pos; lia|apply Z.div_lt_upper_bound; lia]).
    rewrite find_last_set32_log2 by lia. pose proof (Z.log2_nonneg (v / 2 ^ 32)).
    rewrite (proj2 (Z.ltb_lt _ _)) by lia.
    rewrite <-Z.shiftr_div_pow2, Z.log2_shiftr by lia.
    assert (32 ≤ Z.log2 v) by (apply Z.log2_le_pow2; lia). lia.
Qed.

Lemma find_last_set64_0 : find_last_set64 0 = 0.
Proof. reflexivity. Qed.

(** ** The number of set bits *)

(** The set positions of a word, and their number. *)
Definition positions (v : Z) (n : nat) : list Z :=
  filter (λ i, Z.testbit v i = true) (seqZ 0 (Z.of_nat n)).
Definition popcount (v : Z) : Z := Z.of_nat (length (positions v 64)).

Lemma lowest_bit_ex v : word v → v ≠ 0 → ∃ n, lowest_bit v n.
Proof.
  intros Hv Hnz. destruct (find_first_set64_spec v) as [[_ H]|(p & _ & H)]; [|by exists p].
  destruct (nonzero_bit v Hnz) as (i & Hi & Hb). exfalso.
  destruct (Z.lt_decidable i 64); [by rewrite H in Hb by lia|].
  by rewrite (testbit_above 64) in Hb by (unfold word in Hv; lia).
Qed.

(** [v & (v - 1)] clears the lowest set bit and nothing else. *)
Lemma land_pred_clears v n i :
  word v → lowest_bit v n → 0 ≤ i →
  Z.testbit (Z.land v (v - 1)) i = Z.testbit v i && negb (i =? n).
Proof.
  intros Hv (Hn & Hb & Hl) Hi.
  assert (v = 2 ^ n + 2 ^ (n + 1) * (v / 2 ^ (n + 1))) as Ev.
  { rewrite (Z.div_mod v (2 ^ (n + 1))) at 1 by lia.
    assert (v mod 2 ^ (n + 1) = 2 ^ n) as ->; [|lia].
    apply Z.bits_inj'. intros j Hj.
    fold (wrap (n + 1) v). rewrite wrap_testbit, testbit_pow2 by lia.
    destruct (Z.eqb_spec j n) as [->|Hne]; [by rewrite Hb, (proj2 (Z.ltb_lt _ _)) by lia|].
    destruct (Z.ltb_spec j (n + 1)); simpl; [apply Hl; lia|done]. }
  assert (v - 1 = Z.lor (Z.shiftl (v / 2 ^ (n + 1)) (n + 1)) (2 ^ n - 1)) as Ep.
  { rewrite lor_add, Z.shiftl_mul_pow2 by lia || (apply zero_bits; intros j Hj;
      rewrite Z.land_spec, Z.shiftl_spec, testbit_pow2_pred by lia;
      destruct (Z.ltb_spec j n); [by rewrite Z.testbit_neg_r by lia|by rewrite andb_false_r]).
    rewrite Z.pow_add_r in * by lia. lia. }
  rewrite Z.land_spec, Ep, Z.lor_spec, Z.shiftl_spec, testbit_pow2_pred by lia.
  destruct (Z.lt_trichotomy i n) as [H|[->|H]].
  - by rewrite Hl by lia.
  - rewrite Z.eqb_refl, (Z.testbit_neg_r _ (n - (n + 1))), (proj2 (Z.ltb_ge _ _)) by lia. by rewrite !andb_false_r.
  - rewrite (proj2 (Z.ltb_ge _ _)), (proj2 (Z.eqb_neq _ _)), orb_false_r by lia.
    replace (Z.testbit (v / 2 ^ (n + 1)) (i - (n + 1))) with (Z.testbit v i); [by destruct (Z.testbit v i)|].
    rewrite <-Z.shiftr_div_pow2, Z.shiftr_spec by lia. f_equal; lia.
Qed.

Lemma popcount_clear_lowest v :
  word v → v ≠ 0 → popcount v = popcount (Z.land v (v - 1)) + 1.
Proof.
  intros Hv Hnz. destruct (lowest_bit_ex v Hv Hnz) as [n Hn]. unfold popcount, positions.
  rewrite (filter_remove_one _ (λ i, Z.testbit (Z.land v (v - 1)) i = true) _ n); [lia|..].
  - apply NoDup_seqZ.
  - apply elem_of_seqZ. destruct Hn. lia.
  - apply Hn.
  - intros x Hx%elem_of_seqZ. rewrite (land_pred_clears _ n) by (done || lia).
    rewrite andb_true_iff, negb_true_iff, Z.eqb_neq. done.
Qed.

Lemma popcount_range v : 0 ≤ popcount v ≤ 64.
Proof.
  unfold popcount, positions. pose proof (length_filter (λ i, Z.testbit v i = true) (seqZ 0 (Z.of_nat 64))).
  rewrite length_seqZ in *. lia.
Qed.

Lemma popcount_0 v : word v → popcount v = 0 → v = 0.
Proof.
  intros Hv H. destruct (decide (v = 0)) as [|Hnz]; [done|].
  rewrite popcount_clear_lowest in H by done.
  pose proof (popcount_range (Z.land v (v - 1))). lia.
Qed.

Lemma word_land v x : word v → 0 ≤ x → word (Z.land v x).
Proof.
  intros Hv Hx. apply bits_bound; [lia|by apply Z.land_nonneg; left; apply Hv|].
  intros i Hi. bits. by rewrite (testbit_above 64).
Qed.

Lemma num_bits_loop_popcount fuel v c :
  word v → popcount v ≤ Z.of_nat fuel → num_bits_loop fuel v c = Some (c + popcount v).
Proof.
  revert v c. induction fuel as [|fuel IH]; intros v c Hv Hf; simpl.
  - rewrite (popcount_0 v) by (done || pose proof (popcount_range v); lia). simpl. f_equal. 
    change (popcount 0) with 0. lia.
  - destruct (Z.eqb_spec v 0) as [->|Hnz]; [f_equal; change (popcount 0) with 0; lia|].
    pose proof (popcount_clear_lowest v Hv Hnz). unfold word in Hv.
    rewrite wrap_small by lia. rewrite IH; [f_equal; lia|apply word_land; [done|lia]|lia].
Qed.

(** The loop ends and returns the number of set bits. *)
Lemma num_bits_set_popcount v : word v → num_bits_set v = Some (popcount v).
Proof.
  intros Hv. unfold num_bits_set. rewrite num_bits_loop_popcount; [done..|].
  apply popcount_range.
Qed.
