(* ===== verification/BitSet.v ===== *)
(** * Growable bit sets: src/base/bitset.h and src/base/bitset.cc

    A [BitSet] is a vector of 64-bit blocks.  Positions are [size_t] values,
    kept in [Z]; vector indices are [nat].  Each member function is one
    definition of the same name; a loop over the vector is a fold or a
    recursion over the list of blocks.

    The abstract object is one non-negative integer, [value b]: bit [p] of the
    integer is position [p] of the set.  Under the representation invariant
    [wf] every operation is shown to be the corresponding operation on
    integers. *)

From S2P Require Import Prelude BitWord.
From stdpp Require Import strings.
From Stdlib Require Import Ascii.
Open Scope Z_scope.

Module BS.

(** [BitSet::npos], the largest [size_t]. *)
Definition npos : Z := 2 ^ 64 - 1.

Record BitSet := mkBitSet { blocks_ : list Z }.

(** [blocks.resize(n)]: new blocks are 0. *)
Abbreviation vresize n bl := (resize n 0%Z bl).

(** [blocks[i]] *)
Definition at_ (blocks : list Z) (i : nat) : Z := default 0 (blocks !! i).

Definition block_index (pos : Z) : nat := Z.to_nat (pos / 64).
Definition block_offset (pos : Z) : Z := pos mod 64.
Definition bit_position (idx : nat) (offset : Z) : Z := u64 (Z.of_nat idx * 64 + offset).

(** [1LL << offset] in a signed 64-bit integer. *)
Definition bit_ll (offset : Z) : Z := s64 (Z.shiftl 1 offset).

(** ** Shrinking *)

(** The loop of [compact], entered with [idx = blocks_.size() - 1]. *)
Fixpoint compact_loop (idx : nat) (blocks : list Z) : list Z :=
  match idx with
  | O => if negb (at_ blocks 0 =? 0) then vresize 1 blocks else []
  | S idx' =>
      if negb (at_ blocks idx =? 0) then vresize (idx + 1) blocks
      else compact_loop idx' blocks
  end.

Definition compact (b : BitSet) : BitSet :=
  match length (blocks_ b) with
  | O => b
  | S n => mkBitSet (compact_loop n (blocks_ b))
  end.

(** [check_invariants]: the last block is not 0. *)
Definition check_invariants (b : BitSet) : outcome unit :=
  match length (blocks_ b) with
  | O => Ret tt
  | S n => assert_that (negb (at_ (blocks_ b) n =? 0))
  end.

(** ** Single positions *)

Definition set (b : BitSet) (pos : Z) : BitSet :=
  let idx := block_index pos in
  let blocks :=
    if (length (blocks_ b) <=? idx)%nat then vresize (idx + 1) (blocks_ b)
    else blocks_ b in
  mkBitSet (<[idx := Z.lor (at_ blocks idx) (u64 (bit_ll (block_offset pos)))]> blocks).

Definition reset (b : BitSet) (pos : Z) : BitSet :=
  let idx := block_index pos in
  if (idx <? length (blocks_ b))%nat then
    compact (mkBitSet
      (<[idx := Z.land (at_ (blocks_ b) idx) (u64 (Z.lnot (bit_ll (block_offset pos))))]>
         (blocks_ b)))
  else b.

Definition test (b : BitSet) (pos : Z) : bool :=
  let idx := block_index pos in
  if (idx <? length (blocks_ b))%nat then
    negb (Z.land (at_ (blocks_ b) idx) (u64 (bit_ll (block_offset pos))) =? 0)
  else false.

Definition clear (b : BitSet) : BitSet := mkBitSet (vresize 0 (blocks_ b)).
Definition empty (b : BitSet) : bool := (length (blocks_ b) =? 0)%nat.
Definition none (b : BitSet) : bool := (length (blocks_ b) =? 0)%nat.
Definition any (b : BitSet) : bool := negb (length (blocks_ b) =? 0)%nat.
Definition size (b : BitSet) : Z := u64 (Z.of_nat (length (blocks_ b)) * 64).

(** [count] fails only if [num_bits_set] ran out of iterations. *)
Fixpoint count_loop (count : Z) (blocks : list Z) : option Z :=
  match blocks with
  | [] => Some count
  | x :: rest => n ← num_bits_set x; count_loop (u64 (count + n)) rest
  end.
Definition count (b : BitSet) : option Z := count_loop 0 (blocks_ b).

(** ** Scans *)

(** [for (; idx < size; idx++) { bit = find64(blocks_[idx]); if (bit > 0)
    return bit_position(idx, bit - 1); }], [blocks] being the blocks from
    [idx] on. *)
Fixpoint scan (find64 : Z → Z) (idx : nat) (blocks : list Z) : option Z :=
  match blocks with
  | [] => None
  | x :: rest =>
      let bit := find64 x in
      if 0 <? bit then Some (bit_position idx (bit - 1)) else scan find64 (S idx) rest
  end.

Definition find_first (b : BitSet) : Z :=
  default npos (scan find_first_set64 0 (blocks_ b)).

Definition find_next (b : BitSet) (pos : Z) : Z :=
  let idx := block_index pos in
  if (length (blocks_ b) <=? idx)%nat then npos
  else
    let bit :=
      if block_offset pos <? 63 then
        find_first_set64 (Z.land (at_ (blocks_ b) idx)
          (u64 (Z.lnot (s64 (bit_ll (block_offset pos + 1) - 1)))))
      else 0 in
    if 0 <? bit then bit_position idx (bit - 1)
    else default npos (scan find_first_set64 (S idx) (drop (S idx) (blocks_ b))).

Definition find_last (b : BitSet) : Z :=
  match length (blocks_ b) with
  | O => npos
  | S idx =>
      let bit := find_last_set64 (at_ (blocks_ b) idx) in
      if 0 <? bit then bit_position idx (bit - 1) else npos
  end.

Definition find_first_clear (b : BitSet) : Z :=
  default (size b) (scan find_first_clear64 0 (blocks_ b)).

Definition find_next_clear (b : BitSet) (pos : Z) : Z :=
  let idx := block_index pos in
  if (length (blocks_ b) <=? idx)%nat then u64 (pos + 1)
  else
    let bit :=
      if block_offset pos <? 63 then
        find_first_clear64 (Z.lor (at_ (blocks_ b) idx)
          (u64 (s64 (bit_ll (block_offset pos + 1) - 1))))
      else 0 in
    if 0 <? bit then bit_position idx (bit - 1)
    else default (size b) (scan find_first_clear64 (S idx) (drop (S idx) (blocks_ b))).

(** ** Whole sets *)

(** [for (idx = lo; idx < hi; idx++) blocks[idx] = f(idx, blocks[idx]);] *)
Definition for_blocks (lo hi : nat) (f : nat → Z → Z) (blocks : list Z) : list Z :=
  foldl (λ bl idx, <[idx := f idx (at_ bl idx)]> bl) blocks (seq lo (hi - lo)).

Definition intersects (b rhs : BitSet) : bool :=
  let minsize := Nat.min (length (blocks_ b)) (length (blocks_ rhs)) in
  existsb (λ idx, negb (Z.land (at_ (blocks_ b) idx) (at_ (blocks_ rhs) idx) =? 0))
    (seq 0 minsize).

Definition op_eq (b rhs : BitSet) : bool :=
  if negb (length (blocks_ b) =? length (blocks_ rhs))%nat then false
  else forallb (λ idx, at_ (blocks_ b) idx =? at_ (blocks_ rhs) idx)
         (seq 0 (length (blocks_ b))).

Definition op_ne (b rhs : BitSet) : bool := negb (op_eq b rhs).

Definition BuildComplement (lhs rhs : BitSet) : outcome BitSet :=
  let blocks := vresize (length (blocks_ lhs)) [] in
  let minsize := Nat.min (length blocks) (length (blocks_ rhs)) in
  let blocks := for_blocks 0 minsize
    (λ idx _, Z.land (at_ (blocks_ lhs) idx) (u64 (Z.lnot (at_ (blocks_ rhs) idx)))) blocks in
  let blocks := for_blocks minsize (length (blocks_ lhs))
    (λ idx _, at_ (blocks_ lhs) idx) blocks in
  let b := compact (mkBitSet blocks) in
  check_invariants b ;; mret b.

(** One iteration of the downward loop of [BuildIntersection]. *)
Definition intersect_step (lhs rhs blocks : list Z) (idx : nat) : list Z :=
  if negb (Z.land (at_ lhs idx) (at_ rhs idx) =? 0) then
    let blocks := if (length blocks =? 0)%nat then vresize (idx + 1) blocks else blocks in
    <[idx := Z.land (at_ lhs idx) (at_ rhs idx)]> blocks
  else blocks.

Definition BuildIntersection (lhs rhs : BitSet) : outcome BitSet :=
  let minsize := Nat.min (length (blocks_ lhs)) (length (blocks_ rhs)) in
  if (minsize =? 0)%nat then mret (mkBitSet [])
  else
    let blocks :=
      foldl (intersect_step (blocks_ lhs) (blocks_ rhs)) [] (rev (seq 1 (minsize - 1))) in
    let b := mkBitSet (intersect_step (blocks_ lhs) (blocks_ rhs) blocks 0) in
    check_invariants b ;; mret b.

Definition op_and (b rhs : BitSet) : outcome BitSet :=
  temp ← BuildIntersection b rhs; check_invariants temp ;; mret temp.

Definition op_or (b rhs : BitSet) : outcome BitSet :=
  let minsize := Nat.min (length (blocks_ b)) (length (blocks_ rhs)) in
  let maxsize := Nat.max (length (blocks_ b)) (length (blocks_ rhs)) in
  let temp := vresize maxsize [] in
  let temp := for_blocks 0 minsize
    (λ idx _, Z.lor (at_ (blocks_ b) idx) (at_ (blocks_ rhs) idx)) temp in
  let temp := for_blocks minsize (length (blocks_ b)) (λ idx _, at_ (blocks_ b) idx) temp in
  let temp := for_blocks minsize (length (blocks_ rhs)) (λ idx _, at_ (blocks_ rhs) idx) temp in
  check_invariants (mkBitSet temp) ;; mret (mkBitSet temp).

Definition op_and_assign (b rhs : BitSet) : outcome BitSet :=
  let minsize := Nat.min (length (blocks_ b)) (length (blocks_ rhs)) in
  let blocks := for_blocks 0 minsize (λ idx x, Z.land x (at_ (blocks_ rhs) idx)) (blocks_ b) in
  let blocks := for_blocks minsize (length (blocks_ b)) (λ _ _, 0) blocks in
  let b := compact (mkBitSet blocks) in
  check_invariants b ;; mret b.

Definition op_or_assign (b rhs : BitSet) : outcome BitSet :=
  let blocks :=
    if (length (blocks_ b) <? length (blocks_ rhs))%nat
    then vresize (length (blocks_ rhs)) (blocks_ b) else blocks_ b in
  let blocks := for_blocks 0 (length (blocks_ rhs))
    (λ idx x, Z.lor x (at_ (blocks_ rhs) idx)) blocks in
  check_invariants (mkBitSet blocks) ;; mret (mkBitSet blocks).

Definition Set_ (b rhs : BitSet) : outcome BitSet :=
  b ← op_or_assign b rhs; check_invariants b ;; mret b.

Definition Reset (b rhs : BitSet) : outcome BitSet :=
  let minsize := Nat.min (length (blocks_ b)) (length (blocks_ rhs)) in
  let blocks := for_blocks 0 minsize
    (λ idx x, Z.land x (u64 (Z.lnot (at_ (blocks_ rhs) idx)))) (blocks_ b) in
  let b := compact (mkBitSet blocks) in
  check_invariants b ;; mret b.

Definition Contains (b rhs : BitSet) : bool :=
  if (length (blocks_ b) <? length (blocks_ rhs))%nat then false
  else forallb
    (λ idx, Z.land (at_ (blocks_ rhs) idx) (u64 (Z.lnot (at_ (blocks_ b) idx))) =? 0)
    (seq 0 (length (blocks_ rhs))).

(** ** Strings ([std::string] as a list of characters) *)

(** The loop of [ToString]; [None] when [fuel] iterations do not reach
    [npos]. *)
Fixpoint to_string_loop (fuel : nat) (b : BitSet) (pos : Z) (str : list ascii)
  : option (list ascii) :=
  if pos =? npos then Some str
  else
    match fuel with
    | O => None
    | S fuel' => to_string_loop fuel' b (find_next b pos) (<[Z.to_nat pos := "1"%char]> str)
    end.

(** One iteration per set bit, so [64 * blocks] iterations are enough
    ([ToString_spec]). *)
Definition ToString (b : BitSet) : option (list ascii) :=
  let last_pos := find_last b in
  if last_pos =? npos then Some []
  else
    let str := replicate (Z.to_nat (last_pos + 1)) "0"%char in
    to_string_loop (64 * length (blocks_ b)) b (find_first b) str.

Definition from_string_step (str : list ascii) (b : BitSet) (str_idx : nat) : BitSet :=
  if decide (str !! str_idx = Some "1"%char) then set b (Z.of_nat str_idx) else b.

Definition FromString (str : list ascii) : BitSet :=
  match length str with
  | O => mkBitSet []
  | S n =>
      let b := foldl (from_string_step str) (mkBitSet []) (rev (seq 1 n)) in
      from_string_step str b 0
  end.

(** ** The abstract value *)

(** The integer whose bit [p] is position [p] of the set. *)
Fixpoint value_of (blocks : list Z) : Z :=
  match blocks with
  | [] => 0
  | x :: rest => Z.lor x (Z.shiftl (value_of rest) 64)
  end.
Definition value (b : BitSet) : Z := value_of (blocks_ b).

(** The representation invariant: blocks are 64-bit words, the last one is not
    0, and every position is a [size_t] below [npos]. *)
Definition max_blocks : nat := Z.to_nat (2 ^ 58 - 1).
Definition wf_blocks (blocks : list Z) : Prop := Forall word blocks.
Definition compacted (blocks : list Z) : Prop := last blocks ≠ Some 0.
Record wf (b : BitSet) : Prop := {
  wf_word : Forall word (blocks_ b);
  wf_compact : compacted (blocks_ b);
  wf_size : Z.of_nat (length (blocks_ b)) < 2 ^ 58;
}.

(** A position that can be set without exceeding [size_t]. *)
Definition valid_pos (pos : Z) : Prop := 0 ≤ pos < 2 ^ 64 - 64.

Implicit Types (blocks bl : list Z) (b rhs : BitSet).

Lemma at_ge bl i : (length bl ≤ i)%nat → at_ bl i = 0.
Proof. intros H. unfold at_. by rewrite lookup_ge_None_2. Qed.

Lemma at_lookup bl i : (i < length bl)%nat → bl !! i = Some (at_ bl i).
Proof. intros H. unfold at_. by destruct (lookup_lt_is_Some_2 bl i H) as [x ->]. Qed.

Lemma at_word bl i : Forall word bl → word (at_ bl i).
Proof.
  intros H. unfold at_. destruct (bl !! i) eqn:E; simpl; [|done].
  by eapply Forall_lookup_1.
Qed.

Lemma at_insert bl i j x :
  at_ (<[i := x]> bl) j = if decide (i = j ∧ (j < length bl)%nat) then x else at_ bl j.
Proof.
  unfold at_. rewrite list_lookup_insert. repeat case_decide; naive_solver lia.
Qed.

Lemma at_resize bl n i : at_ (vresize n bl) i = if decide (i < n)%nat then at_ bl i else 0.
Proof.
  unfold at_. case_decide as Hi.
  - destruct (decide (i < length bl)%nat) as [Hl|Hl].
    + by rewrite lookup_resize.
    + rewrite lookup_resize_new by lia. by rewrite lookup_ge_None_2 by lia.
  - by rewrite lookup_resize_old by lia.
Qed.

Lemma blocks_ext l k :
  length l = length k → (∀ i, at_ l i = at_ k i) → l = k.
Proof.
  intros Hl H. apply list_eq_same_length with (length l); [done|done|].
  intros i x y Hi Hx Hy. specialize (H i). unfold at_ in H. rewrite Hx, Hy in H. done.
Qed.

Lemma value_nonneg bl : Forall word bl → 0 ≤ value_of bl.
Proof.
  induction 1 as [|x bl Hx _ IH]; simpl; [done|]. unfold word in Hx.
  apply Z.lor_nonneg. split; [lia|]. by apply Z.shiftl_nonneg.
Qed.

Lemma value_cons_testbit x bl p :
  word x → 0 ≤ p →
  Z.testbit (value_of (x :: bl)) p =
    if p <? 64 then Z.testbit x p else Z.testbit (value_of bl) (p - 64).
Proof.
  intros Hx Hp. simpl. rewrite Z.lor_spec, Z.shiftl_spec by lia.
  destruct (Z.ltb_spec p 64).
  - rewrite (Z.testbit_neg_r _ (p - 64)) by lia. apply orb_false_r.
  - by rewrite (testbit_above 64) by done.
Qed.

Lemma value_testbit_at bl i o :
  Forall word bl → 0 ≤ o < 64 →
  Z.testbit (value_of bl) (Z.of_nat i * 64 + o) = Z.testbit (at_ bl i) o.
Proof.
  intros Hf Ho. revert i. induction Hf as [|x bl Hx _ IH]; intros i.
  { by rewrite !Z.testbit_0_l. }
  rewrite value_cons_testbit by (done || lia). destruct i as [|i].
  - by rewrite (proj2 (Z.ltb_lt _ _)) by lia.
  - rewrite (proj2 (Z.ltb_ge _ _)) by lia. unfold at_; simpl. fold (at_ bl i).
    rewrite <-IH. f_equal. lia.
Qed.

Lemma pos_split p : 0 ≤ p →
  p = Z.of_nat (block_index p) * 64 + block_offset p ∧ 0 ≤ block_offset p < 64.
Proof.
  intros Hp. unfold block_index, block_offset.
  rewrite Z2Nat.id by (apply Z.div_pos; lia).
  pose proof (Z.div_mod p 64). pose proof (Z.mod_pos_bound p 64). lia.
Qed.

Lemma value_testbit bl p :
  Forall word bl → 0 ≤ p →
  Z.testbit (value_of bl) p = Z.testbit (at_ bl (block_index p)) (block_offset p).
Proof.
  intros Hf Hp. destruct (pos_split p Hp) as [E ?].
  rewrite E at 1. by apply value_testbit_at.
Qed.

(** Blocks whose words have the bits of [z] represent [z]. *)
Lemma value_of_bits bl z :
  Forall word bl → 0 ≤ z →
  (∀ i o, 0 ≤ o < 64 → Z.testbit (at_ bl i) o = Z.testbit z (Z.of_nat i * 64 + o)) →
  value_of bl = z.
Proof.
  intros Hf Hz H. apply Z.bits_inj'. intros p Hp.
  rewrite value_testbit by done. destruct (pos_split p Hp) as [E ?].
  rewrite H by done. f_equal. lia.
Qed.

Lemma testbit_at_value bl i o :
  Forall word bl → 0 ≤ o →
  Z.testbit (at_ bl i) o = (o <? 64) && Z.testbit (value_of bl) (Z.of_nat i * 64 + o).
Proof.
  intros Hf Ho. destruct (Z.ltb_spec o 64); simpl.
  - by rewrite value_testbit_at.
  - rewrite (testbit_above 64); [done|by apply at_word|done].
Qed.

Lemma value_above bl p :
  Forall word bl → Z.of_nat (length bl) * 64 ≤ p → Z.testbit (value_of bl) p = false.
Proof.
  intros Hf Hp. rewrite value_testbit by (done || lia).
  rewrite at_ge; [apply Z.testbit_0_l|]. destruct (pos_split p ltac:(lia)). lia.
Qed.

(** Compacted representations are unique. *)
Lemma last_at bl : last bl = Some (at_ bl (pred (length bl))) ∨ bl = [].
Proof.
  destruct bl as [|x bl]; [by right|]. left. rewrite last_lookup. apply at_lookup. simpl; lia.
Qed.

Lemma compacted_length bl k :
  Forall word bl → Forall word k → compacted bl → value_of bl = value_of k →
  (length bl ≤ length k)%nat.
Proof.
  intros Hb Hk Hc E. destruct (decide (length bl ≤ length k)%nat) as [|Hlt]; [done|].
  exfalso. destruct (last_at bl) as [Hl| ->]; [|simpl in *; lia].
  apply Hc. rewrite Hl. f_equal. apply zero_bits. intros o Ho.
  rewrite testbit_at_value, E by done. destruct (Z.ltb_spec o 64); [|done]. simpl.
  apply value_above; [done|lia].
Qed.

Lemma value_inj bl k :
  Forall word bl → Forall word k → compacted bl → compacted k →
  value_of bl = value_of k → bl = k.
Proof.
  intros Hb Hk Cb Ck E. apply blocks_ext.
  - pose proof (compacted_length bl k Hb Hk Cb E).
    pose proof (compacted_length k bl Hk Hb Ck (eq_sym E)). lia.
  - intros i. apply Z.bits_inj'. intros o Ho. by rewrite !testbit_at_value, E by done.
Qed.

Lemma wf_value_inj b1 b2 : wf b1 → wf b2 → value b1 = value b2 → b1 = b2.
Proof.
  destruct b1, b2. intros [] [] E. f_equal. by apply value_inj.
Qed.

(** ** Shrinking and growing keep the value *)

Lemma value_ext bl k :
  Forall word bl → Forall word k → (∀ i, at_ bl i = at_ k i) → value_of bl = value_of k.
Proof.
  intros Hb Hk H. apply value_of_bits; [done|by apply value_nonneg|].
  intros i o Ho. by rewrite value_testbit_at, H by done.
Qed.

Lemma Forall_word_at bl : (∀ i, word (at_ bl i)) → Forall word bl.
Proof.
  intros H. apply Forall_lookup. intros i x Hx. specialize (H i). unfold at_ in H.
  by rewrite Hx in H.
Qed.

Lemma word_0 : word 0.
Proof. done. Qed.

Lemma resize_word bl n : Forall word bl → Forall word (vresize n bl).
Proof.
  intros H. apply Forall_word_at. intros i. rewrite at_resize.
  case_decide; [by apply at_word|apply word_0].
Qed.

(** [compact_loop] drops the trailing zero blocks and only them. *)
Lemma compact_loop_spec idx bl :
  (idx < length bl)%nat → (∀ j, (idx < j)%nat → at_ bl j = 0) →
  compacted (compact_loop idx bl) ∧ (length (compact_loop idx bl) ≤ length bl)%nat ∧
  ∀ i, at_ (compact_loop idx bl) i = at_ bl i.
Proof.
  intros Hidx Hz.
  assert (∀ n, at_ bl n ≠ 0 → (∀ j, (n < j)%nat → at_ bl j = 0) →
    compacted (vresize (n + 1) bl) ∧ (length (vresize (n + 1) bl) ≤ length bl)%nat ∧
    ∀ i, at_ (vresize (n + 1) bl) i = at_ bl i) as Hstop.
  { intros n Hn Hj. assert (n < length bl)%nat.
    { destruct (decide (n < length bl)%nat); [done|]. by rewrite at_ge in Hn by lia. }
    split; [|split].
    - unfold compacted. rewrite last_lookup, length_resize, at_lookup by (rewrite length_resize; lia).
      replace (pred (n + 1)) with n by lia. rewrite at_resize, decide_True by lia. congruence.
    - rewrite length_resize. lia.
    - intros i. rewrite at_resize. case_decide; [done|]. symmetry. apply Hj. lia. }
  induction idx as [|idx IH]; cbn [compact_loop].
  - destruct (Z.eqb_spec (at_ bl 0) 0) as [E|E]; simpl; [|by apply (Hstop 0%nat)].
    split; [done|]. split; [lia|]. intros [|i]; [by rewrite E|]. symmetry. apply Hz. lia.
  - destruct (Z.eqb_spec (at_ bl (S idx)) 0) as [E|E]; simpl negb; cbn match; [|by apply Hstop].
    apply IH; [lia|]. intros j Hj. destruct (decide (j = S idx)) as [->|]; [done|]. apply Hz. lia.
Qed.

Lemma compact_spec b :
  Forall word (blocks_ b) →
  Forall word (blocks_ (compact b)) ∧ compacted (blocks_ (compact b)) ∧
  (length (blocks_ (compact b)) ≤ length (blocks_ b))%nat ∧ value (compact b) = value b.
Proof.
  destruct b as [bl]. simpl. intros Hf. unfold compact, value. simpl.
  destruct bl as [|x bl']; simpl length; [done|]. set (bl := x :: bl') in *.
  destruct (compact_loop_spec (length bl') bl) as (Hc & Hl & Ha).
  { simpl; lia. } { intros j Hj. apply at_ge. simpl; lia. }
  assert (Forall word (compact_loop (length bl') bl)) as Hw.
  { apply Forall_word_at. intros i. rewrite Ha. by apply at_word. }
  simpl blocks_. split_and!; [done..|]. by apply value_ext.
Qed.

Lemma check_invariants_ret b : compacted (blocks_ b) → check_invariants b = Ret tt.
Proof.
  destruct b as [bl]. unfold compacted, check_invariants. simpl. intros Hc.
  destruct (last_at bl) as [Hl| ->]; [|done].
  destruct (length bl) as [|n]; [done|]. simpl in Hl. apply assert_that_true.
  apply negb_true_iff, Z.eqb_neq. congruence.
Qed.

(** ** Single positions *)

Lemma bit_ll_testbit o i : 0 ≤ o < 64 → 0 ≤ i < 64 → Z.testbit (bit_ll o) i = (i =? o).
Proof. intros. unfold bit_ll. rewrite swrap_testbit by lia. by apply testbit_shiftl1; lia. Qed.

Lemma wrap_word z : word (u64 z).
Proof. by apply wrap_range. Qed.

Lemma word_lor x y : word x → word y → word (Z.lor x y).
Proof.
  intros Hx Hy. pose proof Hx as [? _]. pose proof Hy as [? _].
  apply bits_bound; [lia|by apply Z.lor_nonneg|].
  intros i Hi. by rewrite Z.lor_spec, !(testbit_above 64).
Qed.

Lemma insert_word bl i x : Forall word bl → word x → Forall word (<[i := x]> bl).
Proof. intros. by apply Forall_insert. Qed.

#[local] Hint Resolve wrap_word word_lor word_0 insert_word resize_word at_word
  value_nonneg wf_word wf_compact : core.

Lemma word_land_u64 x y : word x → word (Z.land x (u64 y)).
Proof. intros. apply word_land; [done|]. apply wrap_range. lia. Qed.

Lemma word_land_word x y : word x → word y → word (Z.land x y).
Proof. intros ? [? _]. by apply word_land. Qed.

#[local] Hint Resolve word_land_u64 word_land_word : core.

Lemma pos_eqb i o p :
  0 ≤ p → 0 ≤ o < 64 →
  (Z.of_nat i * 64 + o =? p) = (o =? block_offset p) && bool_decide (block_index p = i).
Proof.
  intros Hp Ho. destruct (pos_split p Hp) as [E ?].
  apply eq_true_iff_eq. rewrite andb_true_iff, bool_decide_eq_true, !Z.eqb_eq. split; [|lia].
  intros Heq. assert (Z.of_nat (block_index p) = Z.of_nat i) by nia. lia.
Qed.

Lemma test_spec b pos : Forall word (blocks_ b) → 0 ≤ pos → test b pos = Z.testbit (value b) pos.
Proof.
  intros Hf Hp. unfold test, value. rewrite value_testbit by done.
  destruct (pos_split pos Hp) as [_ Ho].
  destruct (Nat.ltb_spec (block_index pos) (length (blocks_ b))) as [Hi|Hi];
    [|by rewrite at_ge, Z.testbit_0_l].
  set (x := at_ _ _). apply eq_true_iff_eq. rewrite negb_true_iff, Z.eqb_neq. split.
  - intros (i & Hi0 & Hb)%nonzero_bit. revert Hb. bits.
    rewrite !andb_true_iff. intros (Hb & Hlt%Z.ltb_lt & He).
    rewrite bit_ll_testbit in He by lia. by apply Z.eqb_eq in He as ->.
  - intros Hb H0. pose proof (proj1 (zero_bits _) H0 (block_offset pos) ltac:(lia)) as Hz.
    revert Hz. bits. rewrite Hb, bit_ll_testbit, Z.eqb_refl, (proj2 (Z.ltb_lt _ _)) by lia. done.
Qed.

Lemma set_blocks b pos :
  Forall word (blocks_ b) → 0 ≤ pos →
  Forall word (blocks_ (set b pos)) ∧
  length (blocks_ (set b pos)) = Nat.max (length (blocks_ b)) (S (block_index pos)) ∧
  value (set b pos) = Z.setbit (value b) pos.
Proof.
  intros Hf Hp. unfold set. destruct (pos_split pos Hp) as [E Ho].
  set (idx := block_index pos) in *.
  set (bl := if (length (blocks_ b) <=? idx)%nat then _ else _).
  assert (Forall word bl) as Hbl by (unfold bl; destruct (_ <=? _)%nat; auto).
  assert (∀ i, at_ bl i = at_ (blocks_ b) i) as Hat.
  { intros i. unfold bl. destruct (Nat.leb_spec (length (blocks_ b)) idx); [|done].
    rewrite at_resize. case_decide; [done|]. symmetry. apply at_ge. lia. }
  assert (length bl = Nat.max (length (blocks_ b)) (S idx)) as Hlen.
  { unfold bl. destruct (Nat.leb_spec (length (blocks_ b)) idx); [rewrite length_resize|]; lia. }
  simpl. split_and!; [auto|by rewrite length_insert|].
  unfold value; simpl. apply value_of_bits; [auto| |].
  { apply Z.lor_nonneg. split; [by apply value_nonneg|]. by apply Z.shiftl_nonneg. }
  intros i o Hoo. rewrite Z.setbit_eqb, Z.eqb_sym, pos_eqb by lia. fold idx.
  rewrite value_testbit_at, <-Hat by done. rewrite at_insert.
  destruct (decide (idx = i)) as [<-|Hne].
  - rewrite decide_True, bool_decide_eq_true_2, andb_true_r by (done || lia).
    rewrite Z.lor_spec, wrap_testbit, bit_ll_testbit, (proj2 (Z.ltb_lt o 64)) by lia.
    simpl. apply orb_comm.
  - rewrite decide_False, bool_decide_eq_false_2, andb_false_r by naive_solver. done.
Qed.

Lemma block_index_valid pos : valid_pos pos → Z.of_nat (block_index pos) < 2 ^ 58 - 1.
Proof. intros Hp. unfold valid_pos in Hp. destruct (pos_split pos ltac:(lia)). lia. Qed.

Lemma compacted_testbit bl :
  Forall word bl →
  compacted bl ↔ bl = [] ∨ ∃ o, 0 ≤ o < 64 ∧
    Z.testbit (value_of bl) (Z.of_nat (pred (length bl)) * 64 + o) = true.
Proof.
  intros Hf. unfold compacted. destruct (last_at bl) as [Hl| ->]; [|naive_solver].
  rewrite Hl. split.
  - intros Hne. right. destruct (nonzero_bit (at_ bl (pred (length bl)))) as (o & Ho & Hb); [congruence|].
    rewrite testbit_at_value, andb_true_iff, Z.ltb_lt in Hb by done. exists o. naive_solver lia.
  - intros [->|(o & Ho & Hb)]; [done|]. intros [= H0].
    by rewrite value_testbit_at, H0, Z.testbit_0_l in Hb by done.
Qed.

Lemma set_wf b pos : wf b → valid_pos pos → wf (set b pos).
Proof.
  intros Hw Hv. pose proof (block_index_valid pos Hv). destruct Hv as [Hp _].
  pose proof (wf_size _ Hw). destruct (set_blocks b pos) as (Hf & Hl & Hval); [auto..|].
  split; [done| |lia]. apply compacted_testbit; [done|]. right. unfold value in Hval.
  destruct (pos_split pos Hp) as [E Ho]. rewrite Hval, Hl.
  destruct (decide (length (blocks_ b) ≤ block_index pos)%nat) as [Hle|Hgt].
  - exists (block_offset pos). split; [done|].
    rewrite Z.setbit_eqb by lia. apply orb_true_iff. left. apply Z.eqb_eq. rewrite E at 1. lia.
  - pose proof (wf_compact _ Hw) as Hc. apply compacted_testbit in Hc; [|auto].
    destruct Hc as [He|(o & Hoo & Hb)]; [rewrite He in Hgt; simpl in *; lia|].
    exists o. split; [done|]. rewrite Z.setbit_eqb by lia. apply orb_true_iff. right.
    rewrite <-Hb. do 2 f_equal. lia.
Qed.

Lemma reset_spec b pos :
  wf b → 0 ≤ pos → wf (reset b pos) ∧ value (reset b pos) = Z.clearbit (value b) pos.
Proof.
  intros Hw Hp. unfold reset. destruct (pos_split pos Hp) as [E Ho].
  destruct (Nat.ltb_spec (block_index pos) (length (blocks_ b))) as [Hi|Hi].
  - set (x := Z.land _ _). set (b' := mkBitSet _).
    assert (Forall word (blocks_ b')) as Hf' by (simpl; unfold x; auto).
    destruct (compact_spec b' Hf') as (Hf & Hc & Hl & ->).
    split; [split; [done..|]|].
    + pose proof (wf_size _ Hw). simpl in Hl. rewrite length_insert in Hl. lia.
    + unfold value at 1. apply value_of_bits; [done| |].
      { apply Z.ldiff_nonneg. left. apply value_nonneg. auto. }
      intros i o Hoo. rewrite Z.clearbit_eqb, Z.eqb_sym, pos_eqb by lia.
      unfold value. rewrite value_testbit_at by auto. simpl. rewrite at_insert.
      destruct (decide (block_index pos = i)) as [<-|Hne].
      * rewrite decide_True, bool_decide_eq_true_2, andb_true_r by (done || lia). unfold x.
        rewrite Z.land_spec, wrap_testbit, Z.lnot_spec, bit_ll_testbit, (proj2 (Z.ltb_lt o 64)) by lia.
        done.
      * rewrite decide_False, bool_decide_eq_false_2, andb_false_r by naive_solver. by rewrite andb_true_r.
  - split; [done|]. apply Z.bits_inj'. intros i Hi0. rewrite Z.clearbit_eqb by lia.
    destruct (Z.eqb_spec pos i) as [<-|]; [|by rewrite andb_true_r].
    rewrite andb_false_r. unfold value. apply value_above; [auto|lia].
Qed.

Lemma wf_empty : wf (mkBitSet []).
Proof. by split. Qed.

Lemma value_0_nil b : wf b → value b = 0 ↔ blocks_ b = [].
Proof.
  intros Hw. split; [|by destruct b as [bl]; simpl; intros ->].
  intros H0. assert (b = mkBitSet []) as -> by (apply wf_value_inj; [done|apply wf_empty|done]). done.
Qed.

(** ** Scans *)

#[local] Arguments value_of : simpl never.

(** What a block scan promises: the first position whose bit is [want]. *)
Definition block_scan (want : bool) (find64 : Z → Z) : Prop :=
  ∀ v, word v →
    (find64 v = 0 ∧ ∀ j, 0 ≤ j < 64 → Z.testbit v j = negb want) ∨
    (∃ p, find64 v = p + 1 ∧ 0 ≤ p < 64 ∧ Z.testbit v p = want ∧
          ∀ j, 0 ≤ j < p → Z.testbit v j = negb want).

Lemma block_scan_set : block_scan true find_first_set64.
Proof.
  intros v _. destruct (find_first_set64_spec v) as [?|(p & ? & [? ?])]; [by left|right].
  exists p. naive_solver.
Qed.

Lemma block_scan_clear : block_scan false find_first_clear64.
Proof. intros v _. exact (find_first_clear64_spec v). Qed.

Lemma bit_position_small idx o :
  Z.of_nat idx < 2 ^ 58 → 0 ≤ o < 64 → bit_position idx o = Z.of_nat idx * 64 + o.
Proof. intros. apply wrap_small. lia. Qed.

Lemma scan_spec want find64 idx bl :
  block_scan want find64 → Forall word bl → Z.of_nat (idx + length bl) ≤ 2 ^ 58 →
  (scan find64 idx bl = None ∧
     ∀ j, 0 ≤ j < Z.of_nat (length bl) * 64 → Z.testbit (value_of bl) j = negb want) ∨
  (∃ p, scan find64 idx bl = Some (Z.of_nat idx * 64 + p) ∧
     0 ≤ p < Z.of_nat (length bl) * 64 ∧ Z.testbit (value_of bl) p = want ∧
     ∀ j, 0 ≤ j < p → Z.testbit (value_of bl) j = negb want).
Proof.
  intros Hs Hf. revert idx. induction Hf as [|x bl Hx Hbl IH]; intros idx Hsz; cbn [scan].
  { left. split; [done|]. simpl. lia. }
  simpl length in *.
  destruct (Hs x Hx) as [[-> Hj]|(p & -> & Hp & Hb & Hj)]; simpl.
  - destruct (IH (S idx) ltac:(lia)) as [[-> Hr]|(p & -> & Hp & Hb & Hr)].
    + left. split; [done|]. intros j Hjj. rewrite value_cons_testbit by (done || lia).
      destruct (Z.ltb_spec j 64); [apply Hj; lia|apply Hr; lia].
    + right. exists (p + 64). split_and!; [f_equal; lia|lia|lia| |].
      * rewrite value_cons_testbit, (proj2 (Z.ltb_ge _ _)) by (done || lia).
        rewrite <-Hb. f_equal; lia.
      * intros j Hjj. rewrite value_cons_testbit by (done || lia).
        destruct (Z.ltb_spec j 64); [apply Hj; lia|apply Hr; lia].
  - rewrite (proj2 (Z.ltb_lt _ _)) by lia. right. exists p.
    rewrite bit_position_small by lia. split_and!; [f_equal; lia|lia|lia| |].
    + by rewrite value_cons_testbit, (proj2 (Z.ltb_lt _ _)) by (done || lia).
    + intros j Hjj. rewrite value_cons_testbit, (proj2 (Z.ltb_lt _ _)) by (done || lia). by apply Hj.
Qed.

Lemma value_drop bl n p :
  Forall word bl → 0 ≤ p →
  Z.testbit (value_of (drop n bl)) p = Z.testbit (value_of bl) (Z.of_nat n * 64 + p).
Proof.
  intros Hf Hp. destruct (pos_split p Hp) as [E Ho].
  rewrite value_testbit by (done || by apply Forall_drop).
  replace (Z.of_nat n * 64 + p) with (Z.of_nat (n + block_index p) * 64 + block_offset p) by lia.
  rewrite value_testbit_at by done. unfold at_. by rewrite lookup_drop.
Qed.

(** [r] is the first set position after [pos], or [npos] when there is none. *)
Definition next_set (v pos r : Z) : Prop :=
  (r = npos ∧ ∀ j, pos < j → Z.testbit v j = false) ∨
  (pos < r < npos ∧ Z.testbit v r = true ∧ ∀ j, pos < j < r → Z.testbit v j = false).

(** [r] is the first clear position after [pos]. *)
Definition next_clear (v pos r : Z) : Prop :=
  pos < r ∧ Z.testbit v r = false ∧ ∀ j, pos < j < r → Z.testbit v j = true.

Lemma size_spec b : wf b → size b = Z.of_nat (length (blocks_ b)) * 64.
Proof. intros Hw. pose proof (wf_size _ Hw). apply wrap_small. lia. Qed.

Lemma testbit_neg v j : j < 0 → Z.testbit v j = false.
Proof. apply Z.testbit_neg_r. Qed.

Lemma find_first_next b : wf b → next_set (value b) (-1) (find_first b).
Proof.
  intros Hw. pose proof (wf_size _ Hw). unfold find_first, next_set, npos.
  destruct (scan_spec true find_first_set64 0 (blocks_ b) block_scan_set) as
    [[-> H0]|(p & -> & Hp & Hb & Hj)]; [auto|simpl; lia|left|right]; simpl.
  - split; [done|]. intros j Hj.
    destruct (Z.lt_decidable j (Z.of_nat (length (blocks_ b)) * 64)); [apply H0; lia|].
    apply value_above; [auto|lia].
  - split_and!; [lia..|done|]. intros j ?. apply Hj. lia.
Qed.

Lemma find_first_clear_next b : wf b → next_clear (value b) (-1) (find_first_clear b).
Proof.
  intros Hw. pose proof (wf_size _ Hw). unfold find_first_clear, next_clear. rewrite size_spec by done.
  destruct (scan_spec false find_first_clear64 0 (blocks_ b) block_scan_clear) as
    [[-> H0]|(p & -> & Hp & Hb & Hj)]; [auto|simpl; lia|..]; simpl.
  - split_and!; [lia|apply value_above; [auto|lia]|]. intros j Hj. apply H0. lia.
  - split_and!; [lia|done|]. intros j ?. apply Hj. lia.
Qed.

(** The low mask [(1LL << (offset + 1)) - 1] that the two resumed scans use. *)
Lemma low_mask_testbit o i :
  0 ≤ o < 63 → 0 ≤ i < 64 → Z.testbit (s64 (bit_ll (o + 1) - 1)) i = (i <=? o).
Proof.
  intros Ho Hi. rewrite swrap_testbit by lia.
  assert (u64 (bit_ll (o + 1) - 1) = 2 ^ (o + 1) - 1) as E.
  { unfold wrap. rewrite <-Zminus_mod_idemp_l. fold (u64 (bit_ll (o + 1))). unfold bit_ll.
    rewrite swrap_mod, Z.shiftl_1_l by lia. unfold wrap. rewrite Zminus_mod_idemp_l.
    apply Z.mod_small. assert (2 ^ (o + 1) ≤ 2 ^ 63) by (apply Z.pow_le_mono_r; lia). lia. }
  pose proof (wrap_testbit 64 (bit_ll (o + 1) - 1) i) as Hw.
  rewrite E, testbit_pow2_pred, (proj2 (Z.ltb_lt i 64)) in Hw by lia.
  simpl in Hw. rewrite <-Hw by lia. apply eq_true_iff_eq. rewrite Z.ltb_lt, Z.leb_le. lia.
Qed.

(** Both resumed scans look at the block of [pos] with its bits up to [pos]
    masked, then at the blocks behind it. *)
Lemma resumed_scan want find64 b pos x :
  wf b → 0 ≤ pos → block_scan want find64 → (block_index pos < length (blocks_ b))%nat → word x →
  (∀ i, 0 ≤ i < 64 → Z.testbit x i =
     if i <=? block_offset pos then negb want else Z.testbit (at_ (blocks_ b) (block_index pos)) i) →
  let idx := block_index pos in
  let r := if 0 <? find64 x then Some (bit_position idx (find64 x - 1))
           else scan find64 (S idx) (drop (S idx) (blocks_ b)) in
  (r = None ∧ ∀ j, pos < j < Z.of_nat (length (blocks_ b)) * 64 → Z.testbit (value b) j = negb want) ∨
  (∃ p, r = Some p ∧ pos < p < Z.of_nat (length (blocks_ b)) * 64 ∧ Z.testbit (value b) p = want ∧
        ∀ j, pos < j < p → Z.testbit (value b) j = negb want).
Proof.
  intros Hw Hp Hs Hidx Hx Hbits idx r. pose proof (wf_size _ Hw).
  destruct (pos_split pos Hp) as [E Ho]. fold idx in E, Hidx, Hbits.
  assert (length (drop (S idx) (blocks_ b)) = length (blocks_ b) - S idx)%nat as Hld by apply length_drop.
  assert (r = scan find64 idx (x :: drop (S idx) (blocks_ b))) as -> by done.
  assert (Forall word (drop (S idx) (blocks_ b))) as Hfd by (apply Forall_drop; auto).
  assert (∀ j, 0 ≤ j → Z.testbit (value_of (x :: drop (S idx) (blocks_ b))) j =
    if j <=? block_offset pos then negb want else Z.testbit (value b) (Z.of_nat idx * 64 + j)) as Hv.
  { intros j Hj. rewrite value_cons_testbit by done. destruct (Z.ltb_spec j 64).
    - rewrite Hbits by lia. destruct (j <=? block_offset pos); [done|].
      unfold value. by rewrite value_testbit_at by auto.
    - rewrite (proj2 (Z.leb_gt _ _)) by lia. rewrite value_drop by (auto; lia).
      unfold value. f_equal. lia. }
  destruct (scan_spec want find64 idx (x :: drop (S idx) (blocks_ b)) Hs) as
    [[Hr H0]|(p & Hr & Hpr & Hb & Hj)]; [by constructor|simpl; lia|left|right]; simpl length in *.
  - split; [done|]. intros j Hj. specialize (H0 (j - Z.of_nat idx * 64) ltac:(lia)).
    rewrite Hv, (proj2 (Z.leb_gt _ _)) in H0 by lia. rewrite <-H0. f_equal. lia.
  - rewrite Hv in Hb by lia. destruct (Z.leb_spec p (block_offset pos)) as [Hle|Hgt].
    { by destruct want. }
    exists (Z.of_nat idx * 64 + p). split_and!; [done|lia|lia|done|].
    intros j Hjj. specialize (Hj (j - Z.of_nat idx * 64) ltac:(lia)).
    rewrite Hv, (proj2 (Z.leb_gt _ _)) in Hj by lia. rewrite <-Hj. f_equal. lia.
Qed.

Lemma find_next_next b pos : wf b → 0 ≤ pos → next_set (value b) pos (find_next b pos).
Proof.
  intros Hw Hp. pose proof (wf_size _ Hw). destruct (pos_split pos Hp) as [E Ho].
  unfold find_next. destruct (Nat.leb_spec (length (blocks_ b)) (block_index pos)) as [Hge|Hlt].
  { left. split; [done|]. intros j Hj. apply value_above; [auto|lia]. }
  set (x := if block_offset pos <? 63 then Z.land (at_ (blocks_ b) (block_index pos))
          (u64 (Z.lnot (s64 (bit_ll (block_offset pos + 1) - 1)))) else 0).
  replace (if block_offset pos <? 63 then find_first_set64 _ else 0) with (find_first_set64 x)
    by (unfold x; by destruct (block_offset pos <? 63)).
  destruct (resumed_scan true find_first_set64 b pos x) as
    [[Hr H0]|(p & Hr & Hpr & Hb & Hj)]; [done..|apply block_scan_set|done| | | |].
  - unfold x. destruct (_ <? _); auto.
  - intros i Hi. unfold x. destruct (Z.ltb_spec (block_offset pos) 63).
    + bits. rewrite low_mask_testbit, (proj2 (Z.ltb_lt i 64)) by lia.
      destruct (i <=? block_offset pos); [by rewrite andb_false_r|by rewrite andb_true_r].
    + by rewrite (proj2 (Z.leb_le _ _)), Z.testbit_0_l by lia.
  - left. destruct (0 <? find_first_set64 x); [done|]. rewrite Hr. split; [done|]. intros j Hj.
    destruct (Z.lt_decidable j (Z.of_nat (length (blocks_ b)) * 64)); [apply H0; lia|].
    apply value_above; [auto|lia].
  - right. assert (∀ d, default d (Some p) = p) as Hd by done. unfold npos.
    destruct (0 <? find_first_set64 x); [injection Hr as ->|rewrite Hr; simpl];
      (split_and!; [lia|lia|done|done]).
Qed.

Lemma find_next_clear_next b pos :
  wf b → 0 ≤ pos < npos → next_clear (value b) pos (find_next_clear b pos).
Proof.
  intros Hw [Hp Hn]. pose proof (wf_size _ Hw). destruct (pos_split pos Hp) as [E Ho].
  unfold find_next_clear, next_clear, npos in *.
  destruct (Nat.leb_spec (length (blocks_ b)) (block_index pos)) as [Hge|Hlt].
  { rewrite wrap_small by lia. split_and!; [lia|apply value_above; [auto|lia]|lia]. }
  set (x := if block_offset pos <? 63 then Z.lor (at_ (blocks_ b) (block_index pos))
          (u64 (s64 (bit_ll (block_offset pos + 1) - 1))) else u64 (-1)).
  replace (if block_offset pos <? 63 then find_first_clear64 _ else 0) with (find_first_clear64 x)
    by (unfold x; by destruct (block_offset pos <? 63)).
  destruct (resumed_scan false find_first_clear64 b pos x) as
    [[Hr H0]|(p & Hr & Hpr & Hb & Hj)]; [done..|apply block_scan_clear|done| | | |].
  - unfold x. destruct (_ <? _); auto.
  - intros i Hi. unfold x. destruct (Z.ltb_spec (block_offset pos) 63).
    + bits. rewrite low_mask_testbit, (proj2 (Z.ltb_lt i 64)) by lia.
      destruct (i <=? block_offset pos); [by rewrite orb_true_r|by rewrite orb_false_r].
    + rewrite wrap_testbit, (proj2 (Z.leb_le i _)), Z.bits_m1 by lia.
      by rewrite (proj2 (Z.ltb_lt i 64)) by lia.
  - destruct (0 <? find_first_clear64 x); [done|]. rewrite Hr, size_spec by done. simpl.
    split_and!; [lia|apply value_above; [auto|lia]|done].
  - destruct (0 <? find_first_clear64 x); [injection Hr as ->|rewrite Hr; simpl];
      (split_and!; [lia|done|done]).
Qed.

Lemma value_log2 b : wf b → value b ≠ 0 →
  (0 < length (blocks_ b))%nat ∧
  Z.log2 (value b) = Z.of_nat (pred (length (blocks_ b))) * 64 +
                     Z.log2 (at_ (blocks_ b) (pred (length (blocks_ b)))).
Proof.
  intros Hw Hnz. rewrite value_0_nil in Hnz by done. pose proof (wf_compact _ Hw) as Hc.
  destruct (last_at (blocks_ b)) as [Hl|]; [|done]. unfold compacted in Hc. rewrite Hl in Hc.
  set (n := pred (length (blocks_ b))) in *. set (x := at_ (blocks_ b) n) in *.
  assert (word x) as [? Hx2] by (unfold x; auto). assert (0 < x) by (assert (x ≠ 0) by congruence; lia).
  assert (0 < length (blocks_ b))%nat as Hlen by (destruct (blocks_ b); [done|simpl; lia]).
  split; [done|]. assert (Z.log2 x < 64) by (apply Z.log2_lt_pow2; lia).
  pose proof (Z.log2_nonneg x). apply Z.log2_bits_unique.
  - unfold value. rewrite value_testbit_at by auto. fold x. apply Z.bit_log2. lia.
  - intros m Hm. destruct (Z.lt_decidable m (Z.of_nat (length (blocks_ b)) * 64)).
    + replace m with (Z.of_nat n * 64 + (m - Z.of_nat n * 64)) by lia. unfold value.
      rewrite value_testbit_at by (auto; lia). fold x. apply Z.bits_above_log2; lia.
    + apply value_above; [auto|lia].
Qed.

(** The last set position is the integer logarithm of the value. *)
Lemma find_last_log2 b :
  wf b → find_last b = if value b =? 0 then npos else Z.log2 (value b).
Proof.
  intros Hw. pose proof (wf_size _ Hw). destruct (Z.eqb_spec (value b) 0) as [H0|Hnz].
  { apply value_0_nil in H0; [|done]. unfold find_last. by rewrite H0. }
  destruct (value_log2 b Hw Hnz) as [Hlen Hlog].
  assert (at_ (blocks_ b) (pred (length (blocks_ b))) ≠ 0) as Hx.
  { intros H0. pose proof (wf_compact _ Hw) as Hc. unfold compacted in Hc.
    destruct (last_at (blocks_ b)) as [Hl|He]; [congruence|]. by rewrite value_0_nil, He in Hnz by done. }
  assert (word (at_ (blocks_ b) (pred (length (blocks_ b))))) as [? Hx2] by auto.
  unfold find_last. destruct (length (blocks_ b)) as [|n]; [lia|]. simpl pred in *.
  rewrite find_last_set64_log2 by lia.
  assert (Z.log2 (at_ (blocks_ b) n) < 64) by (apply Z.log2_lt_pow2; lia).
  pose proof (Z.log2_nonneg (at_ (blocks_ b) n)).
  rewrite (proj2 (Z.ltb_lt _ _)), Z.add_simpl_r, bit_position_small by lia. lia.
Qed.

(** ** Counting *)

Lemma length_filter_shift (P : Z → Prop) `{!∀ x, Decision (P x)} (k m : Z) (n : nat) :
  length (filter P (seqZ (k + m) (Z.of_nat n))) =
  length (filter (λ i, P (k + i)) (seqZ m (Z.of_nat n))).
Proof.
  revert m. induction n as [|n IH]; intros m; [done|].
  rewrite (seqZ_cons (k + m)), (seqZ_cons m), !filter_cons by lia. replace (Z.pred (Z.of_nat (S n))) with (Z.of_nat n) by lia.
  rewrite <-Z.add_succ_r. specialize (IH (Z.succ m)). repeat case_decide; simpl; lia.
Qed.

Lemma positions_cons x bl n :
  word x →
  length (positions (value_of (x :: bl)) (64 + n)) =
  (length (positions x 64) + length (positions (value_of bl) n))%nat.
Proof.
  intros Hx. unfold positions.
  rewrite Nat2Z.inj_add, seqZ_app, filter_app, length_app by lia. f_equal.
  - f_equal. apply list_filter_ext_in. intros j Hj%elem_of_seqZ.
    by rewrite value_cons_testbit, (proj2 (Z.ltb_lt _ _)) by (done || lia).
  - replace (0 + Z.of_nat 64) with (64 + 0) by lia. rewrite length_filter_shift. f_equal.
    apply list_filter_ext_in. intros j Hj%elem_of_seqZ.
    rewrite value_cons_testbit, (proj2 (Z.ltb_ge _ _)) by (done || lia).
    replace (64 + j - 64) with j by lia. done.
Qed.

Lemma length_positions_le v n : (length (positions v n) ≤ n)%nat.
Proof.
  unfold positions. pose proof (length_filter (λ i, Z.testbit v i = true) (seqZ 0 (Z.of_nat n))).
  rewrite length_seqZ in *. lia.
Qed.

Lemma count_loop_positions bl c :
  Forall word bl → 0 ≤ c → c + 64 * Z.of_nat (length bl) < 2 ^ 64 →
  count_loop c bl = Some (c + Z.of_nat (length (positions (value_of bl) (64 * length bl)))).
Proof.
  intros Hf. revert c. induction Hf as [|x bl Hx _ IH]; intros c Hc Hsz; cbn [count_loop].
  { by rewrite Nat.mul_0_r, Z.add_0_r. }
  pose proof (popcount_range x) as Hr. rewrite num_bits_set_popcount by done.
  rewrite length_cons in *. rewrite Nat.mul_succ_r, Nat.add_comm, positions_cons by done.
  unfold popcount in *. revert Hr. generalize (length (positions x 64)). intros m Hm.
  cbn [mbind option_bind]. rewrite wrap_small, IH by lia. f_equal. lia.
Qed.

Lemma count_positions b :
  wf b → count b = Some (Z.of_nat (length (positions (value b) (64 * length (blocks_ b))))).
Proof.
  intros Hw. pose proof (wf_size _ Hw). unfold count.
  rewrite count_loop_positions; [done|auto|lia|lia].
Qed.

(** ** Whole sets *)

Lemma for_blocks_at lo n f bl i :
  at_ (foldl (λ bl idx, <[idx := f idx (at_ bl idx)]> bl) bl (seq lo n)) i =
    if decide ((lo ≤ i < lo + n)%nat ∧ (i < length bl)%nat) then f i (at_ bl i) else at_ bl i.
Proof.
  revert lo bl. induction n as [|n IH]; intros lo bl; simpl.
  { rewrite decide_False by lia. done. }
  rewrite IH, length_insert, at_insert. repeat case_decide; naive_solver lia.
Qed.

Lemma for_blocks_length lo hi f bl : length (for_blocks lo hi f bl) = length bl.
Proof.
  unfold for_blocks. generalize (hi - lo)%nat. intros n. revert lo bl.
  induction n as [|n IH]; intros lo bl; simpl; [done|]. by rewrite IH, length_insert.
Qed.

Lemma at_for_blocks lo hi f bl i :
  at_ (for_blocks lo hi f bl) i =
    if decide ((lo ≤ i < hi)%nat ∧ (i < length bl)%nat) then f i (at_ bl i) else at_ bl i.
Proof. unfold for_blocks. rewrite for_blocks_at. repeat case_decide; done || lia. Qed.

Lemma at_nil i : at_ [] i = 0.
Proof. done. Qed.

(** Blocks whose words are the bits of [z] make, once compacted, a
    well-formed set of value [z]; [check_invariants] passes. *)
Lemma finish_compact bl z :
  0 ≤ z → Z.of_nat (length bl) < 2 ^ 58 →
  (∀ i, word (at_ bl i)) →
  (∀ i o, 0 ≤ o < 64 → Z.testbit (at_ bl i) o = Z.testbit z (Z.of_nat i * 64 + o)) →
  ∃ r, (let b := compact (mkBitSet bl) in check_invariants b ;; mret b) = Ret r ∧
       wf r ∧ value r = z.
Proof.
  intros Hz Hl Hw%Forall_word_at Hb. destruct (compact_spec (mkBitSet bl) Hw) as (Hf & Hc & Hle & Hv).
  exists (compact (mkBitSet bl)). simpl. rewrite check_invariants_ret by done. split_and!; [done|split; [done..|simpl in *; lia]|].
  rewrite Hv. by apply value_of_bits.
Qed.

(** The same for blocks that need no compaction. *)
Lemma finish_check bl z :
  0 ≤ z → Z.of_nat (length bl) < 2 ^ 58 → compacted bl →
  (∀ i, word (at_ bl i)) →
  (∀ i o, 0 ≤ o < 64 → Z.testbit (at_ bl i) o = Z.testbit z (Z.of_nat i * 64 + o)) →
  (check_invariants (mkBitSet bl) ;; mret (mkBitSet bl)) = Ret (mkBitSet bl) ∧
  wf (mkBitSet bl) ∧ value (mkBitSet bl) = z.
Proof.
  intros Hz Hl Hc Hw%Forall_word_at Hb. rewrite check_invariants_ret by done.
  split_and!; [done|by split|by apply value_of_bits].
Qed.

Lemma value_at b i o : wf b → 0 ≤ o < 64 →
  Z.testbit (value b) (Z.of_nat i * 64 + o) = Z.testbit (at_ (blocks_ b) i) o.
Proof. intros Hw Ho. unfold value. apply value_testbit_at; auto. Qed.

Lemma value_ge0 b : wf b → 0 ≤ value b.
Proof. intros Hw. apply value_nonneg. auto. Qed.

#[local] Hint Resolve value_ge0 wf_size : core.

Lemma testbit_u64_lnot x o : 0 ≤ o < 64 → Z.testbit (u64 (Z.lnot x)) o = negb (Z.testbit x o).
Proof. intros. bits. by rewrite (proj2 (Z.ltb_lt o 64)) by lia. Qed.

(** Case analysis on the position of an index relative to the two vectors;
    blocks behind the end of a vector are 0. *)
Ltac blocks_cases b1 b2 :=
  repeat case_decide; try lia;
  try (rewrite (at_ge (blocks_ b1)) by lia); try (rewrite (at_ge (blocks_ b2)) by lia);
  rewrite ?Z.land_spec, ?testbit_u64_lnot by done;
  rewrite ?Z.testbit_0_l, ?andb_true_r, ?andb_false_r, ?Z.lor_0_l, ?Z.lor_0_r; auto.

Lemma BuildComplement_spec b1 b2 :
  wf b1 → wf b2 → ∃ r, BuildComplement b1 b2 = Ret r ∧ wf r ∧ value r = Z.ldiff (value b1) (value b2).
Proof.
  intros H1 H2. unfold BuildComplement. apply finish_compact.
  - apply Z.ldiff_nonneg. auto.
  - rewrite !for_blocks_length, length_resize. auto.
  - intros i. rewrite !at_for_blocks, at_resize, !for_blocks_length, !length_resize, at_nil.
    repeat case_decide; auto.
  - intros i o Ho. rewrite Z.ldiff_spec, !value_at by done.
    rewrite !at_for_blocks, at_resize, !for_blocks_length, !length_resize, at_nil.
    blocks_cases b1 b2.
Qed.

Lemma Reset_spec b1 b2 :
  wf b1 → wf b2 → ∃ r, Reset b1 b2 = Ret r ∧ wf r ∧ value r = Z.ldiff (value b1) (value b2).
Proof.
  intros H1 H2. unfold Reset. apply finish_compact.
  - apply Z.ldiff_nonneg. auto.
  - rewrite !for_blocks_length. auto.
  - intros i. rewrite !at_for_blocks. repeat case_decide; auto.
  - intros i o Ho. rewrite Z.ldiff_spec, !value_at, !at_for_blocks by done.
    destruct (decide (i < length (blocks_ b1))%nat); blocks_cases b1 b2.
Qed.

Lemma op_and_assign_spec b1 b2 :
  wf b1 → wf b2 → ∃ r, op_and_assign b1 b2 = Ret r ∧ wf r ∧ value r = Z.land (value b1) (value b2).
Proof.
  intros H1 H2. unfold op_and_assign. apply finish_compact.
  - apply Z.land_nonneg. auto.
  - rewrite !for_blocks_length. auto.
  - intros i. rewrite !at_for_blocks, !for_blocks_length. repeat case_decide; auto.
  - intros i o Ho. rewrite Z.land_spec, !value_at by done.
    rewrite !at_for_blocks, !for_blocks_length. blocks_cases b1 b2.
Qed.

(** The union of two compacted sets needs no compaction: the last block of
    the longer one is kept. *)
Lemma compacted_lor bl b1 b2 :
  wf b1 → wf b2 → length bl = Nat.max (length (blocks_ b1)) (length (blocks_ b2)) →
  (∀ i, at_ bl i = Z.lor (at_ (blocks_ b1) i) (at_ (blocks_ b2) i)) → compacted bl.
Proof.
  intros H1 H2 Hl Ha Hlast. destruct (last_at bl) as [E| ->]; [|done].
  assert (0 < length bl)%nat as Hpos by (destruct bl; [done|simpl; lia]).
  rewrite E, Ha in Hlast. injection Hlast as [Ex Ey]%Z.lor_eq_0_iff.
  assert (∀ b, wf b → length (blocks_ b) = length bl → at_ (blocks_ b) (pred (length bl)) ≠ 0) as Hne.
  { intros b Hb Hlen H0. pose proof (wf_compact _ Hb) as Hc. unfold compacted in Hc.
    destruct (last_at (blocks_ b)) as [E'|E']; [congruence|]. rewrite E' in Hlen. simpl in *. lia. }
  destruct (decide (length (blocks_ b2) ≤ length (blocks_ b1))%nat).
  - apply (Hne b1); [done|lia|done].
  - apply (Hne b2); [done|lia|done].
Qed.

Lemma op_or_spec b1 b2 :
  wf b1 → wf b2 → ∃ r, op_or b1 b2 = Ret r ∧ wf r ∧ value r = Z.lor (value b1) (value b2).
Proof.
  intros H1 H2. unfold op_or. set (temp := for_blocks _ _ _ (for_blocks _ _ _ (for_blocks _ _ _ _))).
  assert (length temp = Nat.max (length (blocks_ b1)) (length (blocks_ b2))) as Hl.
  { unfold temp. by rewrite !for_blocks_length, length_resize. }
  assert (∀ i, at_ temp i = Z.lor (at_ (blocks_ b1) i) (at_ (blocks_ b2) i)) as Ha.
  { intros i. unfold temp. rewrite !at_for_blocks, at_resize, !for_blocks_length, !length_resize, at_nil.
    blocks_cases b1 b2. }
  eexists. apply finish_check.
  - apply Z.lor_nonneg. auto.
  - rewrite Hl. pose proof (wf_size _ H1). pose proof (wf_size _ H2). lia.
  - exact (compacted_lor _ _ _ H1 H2 Hl Ha).
  - intros i. rewrite Ha. auto.
  - intros i o Ho. by rewrite Ha, !Z.lor_spec, !value_at by done.
Qed.

Lemma op_or_assign_spec b1 b2 :
  wf b1 → wf b2 → ∃ r, op_or_assign b1 b2 = Ret r ∧ wf r ∧ value r = Z.lor (value b1) (value b2).
Proof.
  intros H1 H2. unfold op_or_assign. set (temp := for_blocks _ _ _ _).
  assert (length temp = Nat.max (length (blocks_ b1)) (length (blocks_ b2))) as Hl.
  { unfold temp. rewrite for_blocks_length.
    destruct (Nat.ltb_spec (length (blocks_ b1)) (length (blocks_ b2))); [rewrite length_resize|]; lia. }
  assert (∀ i, at_ temp i = Z.lor (at_ (blocks_ b1) i) (at_ (blocks_ b2) i)) as Ha.
  { intros i. unfold temp. rewrite at_for_blocks.
    destruct (Nat.ltb_spec (length (blocks_ b1)) (length (blocks_ b2)));
      rewrite ?length_resize, ?at_resize; blocks_cases b1 b2. }
  eexists. apply finish_check.
  - apply Z.lor_nonneg. auto.
  - rewrite Hl. pose proof (wf_size _ H1). pose proof (wf_size _ H2). lia.
  - exact (compacted_lor _ _ _ H1 H2 Hl Ha).
  - intros i. rewrite Ha. auto.
  - intros i o Ho. by rewrite Ha, !Z.lor_spec, !value_at by done.
Qed.

Lemma Set_spec b1 b2 :
  wf b1 → wf b2 → ∃ r, Set_ b1 b2 = Ret r ∧ wf r ∧ value r = Z.lor (value b1) (value b2).
Proof.
  intros H1 H2. destruct (op_or_assign_spec b1 b2 H1 H2) as (r & E & Hr & Hv).
  exists r. unfold Set_. rewrite E. simpl. by rewrite check_invariants_ret by auto.
Qed.

(** The downward loop of [BuildIntersection] before index [k] is looked at:
    nothing was built yet and the blocks from [k] on do not meet, or the built
    blocks end in a non-zero one and hold the meets from [k] on. *)
Definition isect_inv (l r : list Z) (n k : nat) (s : list Z) : Prop :=
  (s = [] ∧ ∀ j, (k ≤ j)%nat → Z.land (at_ l j) (at_ r j) = 0) ∨
  (s ≠ [] ∧ compacted s ∧ (k < length s ≤ n)%nat ∧
   ∀ j, at_ s j = if decide (k ≤ j)%nat then Z.land (at_ l j) (at_ r j) else 0).

Lemma last_insert_same bl i x : (S i < length bl)%nat → last (<[i := x]> bl) = last bl.
Proof. intros H. rewrite !last_lookup, length_insert, list_lookup_insert_ne by lia. done. Qed.

Lemma intersect_step_inv l r n k s :
  (k < n)%nat → isect_inv l r n (S k) s → isect_inv l r n k (intersect_step l r s k).
Proof.
  intros Hk Hs. unfold intersect_step. destruct (Z.eqb_spec (Z.land (at_ l k) (at_ r k)) 0) as [E|E]; simpl.
  - destruct Hs as [[-> Hs]|(Hne & Hc & Hlen & Ha)]; [left|right].
    + split; [done|]. intros j Hj. destruct (decide (j = k)) as [->|]; [done|]. apply Hs. lia.
    + split_and!; [done|done|lia|lia|]. intros j. rewrite Ha.
      destruct (decide (j = k)) as [->|]; [rewrite decide_False, decide_True by lia; done|].
      repeat case_decide; done || lia.
  - right. destruct Hs as [[-> Hs]|(Hne & Hc & Hlen & Ha)].
    + simpl length. cbn [Nat.eqb]. set (s := <[k := Z.land (at_ l k) (at_ r k)]> (vresize (k + 1) [])).
      assert (length s = S k) as Hls by (unfold s; rewrite length_insert, length_resize; lia).
      assert (∀ j, at_ s j = if decide (k ≤ j)%nat then Z.land (at_ l j) (at_ r j) else 0) as Hat.
      { intros j. unfold s. rewrite at_insert, length_resize, at_resize, at_nil.
        destruct (decide (j = k)) as [->|]; [by rewrite !decide_True by lia|].
        rewrite decide_False by naive_solver.
        repeat case_decide; done || lia || (rewrite Hs by lia; done). }
      split_and!; [by destruct s|..]; try lia.
      * unfold compacted. rewrite last_lookup, Hls, at_lookup by lia. simpl.
        rewrite Hat, decide_True by lia. congruence.
      * done.
    + destruct (Nat.eqb_spec (length s) 0); [lia|].
      split_and!; rewrite ?length_insert; [by destruct s, k| |lia|lia|].
      * unfold compacted in *. by rewrite last_insert_same by lia.
      * intros j. rewrite at_insert, Ha. repeat case_decide; naive_solver lia.
Qed.

Lemma intersect_loop_inv l r n m s :
  (m < n)%nat → isect_inv l r n (S m) s →
  isect_inv l r n 1 (foldl (intersect_step l r) s (rev (seq 1 m))).
Proof.
  revert s. induction m as [|m IH]; intros s Hm Hs; [done|].
  rewrite seq_S, rev_app_distr. simpl. apply IH; [lia|]. by apply intersect_step_inv.
Qed.

Lemma BuildIntersection_spec b1 b2 :
  wf b1 → wf b2 →
  ∃ r, BuildIntersection b1 b2 = Ret r ∧ wf r ∧ value r = Z.land (value b1) (value b2).
Proof.
  intros H1 H2. unfold BuildIntersection. set (n := Nat.min _ _).
  assert (∀ j, (n ≤ j)%nat → Z.land (at_ (blocks_ b1) j) (at_ (blocks_ b2) j) = 0) as Hhi.
  { intros j Hj. destruct (decide (length (blocks_ b1) ≤ j)%nat).
    - by rewrite (at_ge (blocks_ b1)) by done.
    - by rewrite (at_ge (blocks_ b2)), Z.land_0_r by lia. }
  assert (0 ≤ Z.land (value b1) (value b2)) by (apply Z.land_nonneg; auto).
  pose proof (wf_size _ H1).
  assert (∀ s, isect_inv (blocks_ b1) (blocks_ b2) n 0 s →
    (check_invariants (mkBitSet s) ;; mret (mkBitSet s)) = Ret (mkBitSet s) ∧
    wf (mkBitSet s) ∧ value (mkBitSet s) = Z.land (value b1) (value b2)) as Hfin.
  { intros s Hs. assert (∀ j, at_ s j = Z.land (at_ (blocks_ b1) j) (at_ (blocks_ b2) j)) as Ha.
    { intros j. destruct Hs as [[-> Hs]|(_ & _ & _ & Ha)]; [by rewrite Hs by lia|]. by rewrite Ha, decide_True by lia. }
    apply finish_check; [done| | | |].
    - destruct Hs as [[-> _]|(_ & _ & ? & _)]; [done|]. lia.
    - by destruct Hs as [[-> _]|(_ & ? & _ & _)].
    - intros i. rewrite Ha. auto.
    - intros i o Ho. by rewrite Ha, !Z.land_spec, !value_at by done. }
  destruct (Nat.eqb_spec n 0) as [E|E].
  - exists (mkBitSet []). split; [done|]. apply Hfin. left. split; [done|]. intros j _. apply Hhi. lia.
  - eexists. apply Hfin. apply intersect_step_inv; [lia|]. apply intersect_loop_inv; [lia|].
    left. split; [done|]. intros j Hj. apply Hhi. lia.
Qed.

Lemma op_and_spec b1 b2 :
  wf b1 → wf b2 → ∃ r, op_and b1 b2 = Ret r ∧ wf r ∧ value r = Z.land (value b1) (value b2).
Proof.
  intros H1 H2. destruct (BuildIntersection_spec b1 b2 H1 H2) as (r & E & Hr & Hv).
  exists r. unfold op_and. rewrite E. simpl. by rewrite check_invariants_ret by auto.
Qed.

(** ** Comparisons *)

Lemma forallb_seq (f : nat → bool) n : forallb f (seq 0 n) = true ↔ ∀ i, (i < n)%nat → f i = true.
Proof.
  rewrite forallb_forall. split; intros H i Hi.
  - apply H, in_seq. lia.
  - apply H. apply in_seq in Hi. lia.
Qed.

Lemma op_eq_spec b1 b2 : wf b1 → wf b2 → op_eq b1 b2 = true ↔ value b1 = value b2.
Proof.
  intros H1 H2. split.
  - unfold op_eq. destruct (Nat.eqb_spec (length (blocks_ b1)) (length (blocks_ b2))) as [Hl|]; [|done].
    simpl. rewrite forallb_seq. intros H. unfold value. f_equal. apply blocks_ext; [done|].
    intros i. destruct (decide (i < length (blocks_ b1))%nat) as [Hi|Hi]; [by apply Z.eqb_eq, H|].
    by rewrite !at_ge by lia.
  - intros E. apply (wf_value_inj b1 b2) in E as ->; [|done..]. unfold op_eq.
    rewrite Nat.eqb_refl. simpl. apply forallb_seq. intros i _. apply Z.eqb_refl.
Qed.

Lemma intersects_spec b1 b2 :
  wf b1 → wf b2 → intersects b1 b2 = true ↔ Z.land (value b1) (value b2) ≠ 0.
Proof.
  intros H1 H2. unfold intersects. rewrite existsb_exists. split.
  - intros (i & _ & H%negb_true_iff%Z.eqb_neq) H0. apply H, zero_bits. intros o Ho.
    rewrite Z.land_spec, !testbit_at_value by auto. destruct (o <? 64); [|done]. simpl.
    unfold value in H0. by rewrite <-Z.land_spec, H0, Z.testbit_0_l.
  - intros (p & Hp & Hb)%nonzero_bit. rewrite Z.land_spec, andb_true_iff in Hb.
    destruct Hb as [Hb1 Hb2]. unfold value in *. rewrite value_testbit in Hb1, Hb2 by auto.
    exists (block_index p). assert (∀ b, Z.testbit (at_ (blocks_ b) (block_index p)) (block_offset p) = true →
      (block_index p < length (blocks_ b))%nat) as Hin.
    { intros b Hb. destruct (decide (block_index p < length (blocks_ b))%nat); [done|].
      by rewrite at_ge, Z.testbit_0_l in Hb by lia. }
    split; [apply in_seq; pose proof (Hin b1 Hb1); pose proof (Hin b2 Hb2); lia|].
    apply negb_true_iff, Z.eqb_neq. intros H0.
    assert (Z.testbit (Z.land (at_ (blocks_ b1) (block_index p)) (at_ (blocks_ b2) (block_index p)))
      (block_offset p) = false) as Hf by (rewrite H0; apply Z.testbit_0_l).
    by rewrite Z.land_spec, Hb1, Hb2 in Hf.
Qed.

(** [Contains] decides inclusion. *)
Lemma Contains_spec b1 b2 :
  wf b1 → wf b2 → Contains b1 b2 = true ↔ Z.ldiff (value b2) (value b1) = 0.
Proof.
  intros H1 H2. unfold Contains. rewrite zero_bits.
  destruct (Nat.ltb_spec (length (blocks_ b1)) (length (blocks_ b2))) as [Hlt|Hge].
  - split; [done|]. intros H. exfalso. pose proof (wf_compact _ H2) as Hc.
    apply compacted_testbit in Hc; [|auto]. destruct Hc as [He|(o & Ho & Hb)]; [rewrite He in Hlt; simpl in *; lia|].
    specialize (H (Z.of_nat (pred (length (blocks_ b2))) * 64 + o) ltac:(lia)).
    rewrite Z.ldiff_spec, !value_at in H by done. rewrite value_testbit_at in Hb by auto.
    rewrite Hb, at_ge, Z.testbit_0_l in H by lia. done.
  - rewrite forallb_seq. split.
    + intros H p Hp. rewrite Z.ldiff_spec. unfold value. rewrite !value_testbit by auto.
      destruct (pos_split p Hp) as [_ Ho].
      destruct (decide (block_index p < length (blocks_ b2))%nat) as [Hi|Hi];
        [|by rewrite (at_ge (blocks_ b2)), Z.testbit_0_l by lia].
      apply H, Z.eqb_eq in Hi. rewrite <-testbit_u64_lnot, <-Z.land_spec, Hi by done. apply Z.testbit_0_l.
    + intros H i _. apply Z.eqb_eq, zero_bits. intros o Ho. destruct (Z.lt_decidable o 64).
      * rewrite Z.land_spec, testbit_u64_lnot by lia. rewrite <-(value_at b1), <-(value_at b2), <-Z.ldiff_spec by done.
        apply H. lia.
      * rewrite Z.land_spec, (testbit_above 64); [done|apply at_word; auto|lia].
Qed.

(** ** Strings *)

(** The characters of [v]'s bits, lowest position first. *)
Definition digits (v : Z) (n : nat) : list ascii :=
  (λ i : nat, if Z.testbit v (Z.of_nat i) then "1" else "0")%char <$> seq 0 n.

Lemma digits_lookup v n i :
  digits v n !! i = if decide (i < n)%nat then Some (if Z.testbit v (Z.of_nat i) then "1" else "0")%char else None.
Proof.
  unfold digits. rewrite list_lookup_fmap. case_decide.
  - by rewrite lookup_seq_lt.
  - by rewrite lookup_seq_ge by lia.
Qed.

(** The characters when the bits below [pos] have been written. *)
Definition digits_below (v pos : Z) (n : nat) : list ascii := digits (wrap pos v) n.

Lemma next_set_digits v pos r n :
  0 ≤ pos < npos → Z.testbit v pos = true → next_set v pos r →
  <[Z.to_nat pos := "1"%char]> (digits_below v pos n) = digits_below v r n.
Proof.
  intros Hp Hb Hr. assert (pos < r ∧ ∀ j, pos < j < r → Z.testbit v j = false) as [Hlt Hj].
  { destruct Hr as [[-> H]|(H & _ & Hj)]; naive_solver lia. }
  unfold digits_below. apply list_eq. intros i. rewrite list_lookup_insert, !digits_lookup.
  unfold digits. rewrite length_fmap, length_seq, !wrap_testbit by lia.
  case_decide as Hd.
  - destruct Hd as [<- Hn]. rewrite decide_True, Z2Nat.id, Hb, (proj2 (Z.ltb_lt _ _)) by lia. done.
  - case_decide; [|done]. destruct (Z.ltb_spec (Z.of_nat i) pos) as [Hl|Hge].
    + by rewrite (proj2 (Z.ltb_lt _ _)) by lia.
    + destruct (Z.ltb_spec (Z.of_nat i) r); [|done]. simpl.
      rewrite Hj; [done|]. assert (Z.of_nat i ≠ pos) by (intros <-; apply Hd; lia). lia.
Qed.

Lemma digits_below_all v pos n : Z.of_nat n ≤ pos → digits_below v pos n = digits v n.
Proof.
  intros Hn. unfold digits_below. apply list_eq. intros i. rewrite !digits_lookup.
  case_decide; [|done]. rewrite wrap_testbit, (proj2 (Z.ltb_lt _ _)) by lia. done.
Qed.

Lemma to_string_loop_spec fuel b pos n :
  wf b → Z.of_nat n ≤ npos → pos = npos ∨ (0 ≤ pos < npos ∧ Z.testbit (value b) pos = true) →
  Z.of_nat (length (blocks_ b)) * 64 - pos ≤ Z.of_nat fuel →
  to_string_loop fuel b pos (digits_below (value b) pos n) = Some (digits (value b) n).
Proof.
  intros Hw Hn. revert pos. induction fuel as [|fuel IH]; intros pos Hpos Hf; cbn [to_string_loop].
  - destruct (Z.eqb_spec pos npos) as [->|Hne]; [by rewrite digits_below_all|].
    destruct Hpos as [|[? Hb]]; [done|]. unfold value in Hb. by rewrite value_above in Hb by (auto; lia).
  - destruct (Z.eqb_spec pos npos) as [->|Hne]; [by rewrite digits_below_all|].
    destruct Hpos as [|[Hr Hb]]; [done|].
    pose proof (find_next_next b pos Hw ltac:(lia)) as Hnext.
    rewrite (next_set_digits _ _ (find_next b pos)) by done.
    apply IH; destruct Hnext as [[-> H0]|(Hlt & Hb' & _)]; [by left|right; split; [lia|done]| |lia].
    pose proof (wf_size _ Hw). unfold npos. lia.
Qed.

Lemma ToString_spec b :
  wf b → ToString b = Some (if value b =? 0 then [] else digits (value b) (S (Z.to_nat (Z.log2 (value b))))).
Proof.
  intros Hw. unfold ToString. rewrite find_last_log2 by done.
  destruct (Z.eqb_spec (value b) 0) as [H0|Hnz]; [done|].
  pose proof (Z.log2_nonneg (value b)). pose proof (wf_size _ Hw). pose proof (value_ge0 b Hw).
  assert (Z.log2 (value b) < Z.of_nat (length (blocks_ b)) * 64) as Hlog.
  { destruct (Z.lt_decidable (Z.log2 (value b)) (Z.of_nat (length (blocks_ b)) * 64)); [done|].
    pose proof (Z.bit_log2 (value b) ltac:(lia)) as Hb. unfold value in Hb at 1.
    by rewrite value_above in Hb by (auto; lia). }
  destruct (Z.eqb_spec (Z.log2 (value b)) npos) as [E|E]; [unfold npos in *; lia|].
  replace (Z.to_nat (Z.log2 (value b) + 1)) with (S (Z.to_nat (Z.log2 (value b)))) by lia.
  set (n := S (Z.to_nat (Z.log2 (value b)))).
  pose proof (find_first_next b Hw) as Hf.
  assert (replicate n "0"%char = digits_below (value b) (find_first b) n) as ->.
  { apply list_eq. intros i. unfold digits_below. rewrite digits_lookup. case_decide as Hi.
    - rewrite lookup_replicate_2 by done. f_equal.
      assert (0 ≤ find_first b) by (destruct Hf as [[-> _]|(? & _)]; [done|lia]).
      rewrite wrap_testbit by lia. destruct (Z.ltb_spec (Z.of_nat i) (find_first b)); [|done]. simpl.
      destruct Hf as [[_ Hf]|(_ & _ & Hf)]; rewrite Hf by lia; done.
    - apply lookup_ge_None_2. rewrite length_replicate. lia. }
  apply to_string_loop_spec; [done|unfold n, npos; lia| |].
  - destruct Hf as [[-> _]|(? & ? & _)]; [by left|right; split; [lia|done]].
  - destruct Hf as [[-> _]|(? & ? & _)]; unfold npos; lia.
Qed.

(** [FromString] sets exactly the positions of the '1' characters. *)
Definition ones (str : list ascii) (lo : nat) (p : Z) : bool :=
  (Z.of_nat lo <=? p) && bool_decide (str !! Z.to_nat p = Some "1"%char).

Lemma from_string_step_spec str b k :
  wf b → Z.of_nat (length str) ≤ 2 ^ 64 - 64 →
  (∀ p, 0 ≤ p → Z.testbit (value b) p = ones str (S k) p) →
  wf (from_string_step str b k) ∧
  ∀ p, 0 ≤ p → Z.testbit (value (from_string_step str b k)) p = ones str k p.
Proof.
  intros Hw Hl Hb. unfold from_string_step. case_decide as Hk.
  - apply lookup_lt_Some in Hk as Hlt. split; [apply set_wf; [done|unfold valid_pos; lia]|].
    intros p Hp. destruct (set_blocks b (Z.of_nat k)) as (_ & _ & ->); [auto|lia|].
    rewrite Z.setbit_eqb, Hb by lia. unfold ones.
    destruct (Z.eqb_spec (Z.of_nat k) p) as [<-|Hne].
    + cbn [orb]. by rewrite Nat2Z.id, bool_decide_eq_true_2, Z.leb_refl.
    + simpl. f_equal. apply eq_true_iff_eq. rewrite !Z.leb_le. lia.
  - split; [done|]. intros p Hp. rewrite Hb by done. unfold ones.
    destruct (decide (p = Z.of_nat k)) as [->|Hne].
    + by rewrite Nat2Z.id, bool_decide_eq_false_2, !andb_false_r by done.
    + f_equal. apply eq_true_iff_eq. rewrite !Z.leb_le. lia.
Qed.

Lemma FromString_spec str :
  Z.of_nat (length str) ≤ 2 ^ 64 - 64 →
  wf (FromString str) ∧ ∀ p, 0 ≤ p → Z.testbit (value (FromString str)) p = ones str 0 p.
Proof.
  intros Hl. assert (∀ n b, wf b → (∀ p, 0 ≤ p → Z.testbit (value b) p = ones str (S n) p) →
    let b' := foldl (from_string_step str) b (rev (seq 1 n)) in
    wf b' ∧ ∀ p, 0 ≤ p → Z.testbit (value b') p = ones str 1 p) as Hloop.
  { intros n. induction n as [|n IH]; intros b Hw Hb; [done|].
    rewrite seq_S, rev_app_distr. simpl. destruct (from_string_step_spec str b (S n) Hw Hl Hb). by apply IH. }
  assert (∀ p, 0 ≤ p → ones str (length str) p = false) as Hend.
  { intros p Hp. unfold ones. destruct (Z.leb_spec (Z.of_nat (length str)) p); [|done].
    rewrite lookup_ge_None_2 by lia. done. }
  unfold FromString. destruct (length str) as [|n] eqn:E.
  - split; [apply wf_empty|]. intros p Hp. by rewrite Hend, Z.testbit_0_l.
  - destruct (Hloop n (mkBitSet []) wf_empty) as [Hw Hb].
    { intros p Hp. by rewrite Hend, Z.testbit_0_l. }
    by apply from_string_step_spec; [|lia|].
Qed.

(** ** Properties *)

(** C36: [set], [reset] and [test] act on single positions: after [set(pos)]
    (respectively [reset(pos)]) on a well-formed set every position tests as
    before except [pos], which is set (clear), and the set is well-formed again
    (blocks are 64-bit words and the last block is not 0). *)
Theorem set_reset_test b pos q :
  wf b → valid_pos pos → 0 ≤ q →
  wf (set b pos) ∧ test (set b pos) q = (q =? pos) || test b q ∧
  wf (reset b pos) ∧ test (reset b pos) q = negb (q =? pos) && test b q.
Proof.
  intros Hw Hv Hq. pose proof (set_wf b pos Hw Hv). destruct Hv as [Hp _].
  destruct (set_blocks b pos) as (Hf & _ & Hs); [auto..|].
  destruct (reset_spec b pos Hw Hp) as [Hwr Hr].
  rewrite !test_spec by auto. rewrite Hs, Hr, Z.setbit_eqb, Z.clearbit_eqb, (Z.eqb_sym pos q) by done.
  split_and!; [done..|apply andb_comm].
Qed.

(** The binary operations are the set operations: on well-formed sets each
    of [operator&], [operator&=], [BuildIntersection], [operator|],
    [operator|=], [Set], [Reset] and [BuildComplement] passes its
    [check_invariants] assertion, returns a well-formed set, and that set is
    the intersection, union or difference of its arguments. *)
Theorem set_algebra b1 b2 :
  wf b1 → wf b2 →
  (∀ op, op ∈ [op_and; op_and_assign; BuildIntersection] →
     ∃ r, op b1 b2 = Ret r ∧ wf r ∧ value r = Z.land (value b1) (value b2)) ∧
  (∀ op, op ∈ [op_or; op_or_assign; Set_] →
     ∃ r, op b1 b2 = Ret r ∧ wf r ∧ value r = Z.lor (value b1) (value b2)) ∧
  (∀ op, op ∈ [Reset; BuildComplement] →
     ∃ r, op b1 b2 = Ret r ∧ wf r ∧ value r = Z.ldiff (value b1) (value b2)).
Proof.
  intros H1 H2. repeat setoid_rewrite elem_of_cons. setoid_rewrite elem_of_nil.
  split_and!; intros op Hop; destruct_or?; try done; subst op;
    auto using op_and_spec, op_and_assign_spec, BuildIntersection_spec, op_or_spec,
      op_or_assign_spec, Set_spec, Reset_spec, BuildComplement_spec.
Qed.

(** the predicates decide the set relations on well-formed sets:
    [operator==] extensional equality (although it compares block vectors),
    [operator!=] its negation, [intersects] a common position, [Contains]
    inclusion, and [empty], [none], [any] emptiness. *)
Theorem set_predicates b1 b2 :
  wf b1 → wf b2 →
  (op_eq b1 b2 = true ↔ ∀ p, 0 ≤ p → test b1 p = test b2 p) ∧
  op_ne b1 b2 = negb (op_eq b1 b2) ∧
  (intersects b1 b2 = true ↔ ∃ p, 0 ≤ p ∧ test b1 p = true ∧ test b2 p = true) ∧
  (Contains b1 b2 = true ↔ ∀ p, 0 ≤ p → test b2 p = true → test b1 p = true) ∧
  (empty b1 = true ↔ ∀ p, 0 ≤ p → test b1 p = false) ∧
  none b1 = empty b1 ∧ any b1 = negb (empty b1).
Proof.
  intros H1 H2. assert (∀ b p, wf b → 0 ≤ p → test b p = Z.testbit (value b) p) as Ht.
  { intros. apply test_spec; auto. }
  split_and!; [|done| | | |done..].
  - rewrite op_eq_spec by done. split.
    + intros E p Hp. by rewrite !Ht, E.
    + intros H. apply Z.bits_inj'. intros p Hp. specialize (H p Hp). by rewrite !Ht in H.
  - rewrite intersects_spec by done. split.
    + intros (p & Hp & Hb)%nonzero_bit. rewrite Z.land_spec, andb_true_iff in Hb.
      exists p. by rewrite !Ht.
    + intros (p & Hp & Hb1 & Hb2). rewrite !Ht in Hb1, Hb2 by done. rewrite zero_bits. intros H.
      specialize (H p Hp). by rewrite Z.land_spec, Hb1, Hb2 in H.
  - rewrite Contains_spec, zero_bits by done. split; intros H p Hp; specialize (H p Hp); revert H.
    + rewrite Z.ldiff_spec, !Ht by done. by destruct (Z.testbit (value b1) p), (Z.testbit (value b2) p).
    + rewrite Z.ldiff_spec, !Ht by done. destruct (Z.testbit (value b1) p), (Z.testbit (value b2) p); naive_solver.
  - unfold empty. rewrite Nat.eqb_eq, length_zero_iff_nil, <-value_0_nil, zero_bits by done.
    split; intros H p Hp; specialize (H p Hp); by rewrite !Ht in *.
Qed.

(** Iteration over the set positions is exact: [find_first] is the least
    set position, [find_next(pos)] the least one after [pos], [find_last] the
    greatest one, and each returns [npos] exactly when there is none.  So is the
    search for a free position: [find_first_clear] is the least clear position
    and [find_next_clear(pos)] the least one after [pos], also when it lies
    beyond the stored blocks. *)
Theorem find_positions b pos :
  wf b → 0 ≤ pos →
  next_set (value b) (-1) (find_first b) ∧
  next_set (value b) pos (find_next b pos) ∧
  (find_last b = npos ↔ ∀ q, 0 ≤ q → test b q = false) ∧
  (find_last b ≠ npos → test b (find_last b) = true ∧
     ∀ q, find_last b < q → test b q = false) ∧
  next_clear (value b) (-1) (find_first_clear b) ∧
  (pos < npos → next_clear (value b) pos (find_next_clear b pos)).
Proof.
  intros Hw Hp. pose proof (find_first_next b Hw). pose proof (find_next_next b pos Hw Hp).
  split_and!; [done..| | |by apply find_first_clear_next|intros; by apply find_next_clear_next];
    rewrite find_last_log2 by done;
    pose proof (value_ge0 b Hw); pose proof (Z.log2_nonneg (value b));
    destruct (Z.eqb_spec (value b) 0) as [Hz|Hnz].
  - split; [|done]. intros _ q Hq. by rewrite test_spec, Hz, Z.testbit_0_l by auto.
  - split.
    + intros E. exfalso. pose proof (Z.bit_log2 (value b) ltac:(lia)) as Hb.
      rewrite E in Hb. unfold value in Hb. rewrite value_above in Hb; [done|auto|].
      pose proof (wf_size _ Hw). unfold npos. lia.
    + intros H'. specialize (H' (Z.log2 (value b)) ltac:(lia)).
      by rewrite test_spec, Z.bit_log2 in H' by (auto; lia).
  - done.
  - intros _. split; [rewrite test_spec by auto; apply Z.bit_log2; lia|].
    intros q Hq. rewrite test_spec by (auto; lia). apply Z.bits_above_log2; lia.
Qed.

(** [count] terminates and returns the number of set positions: the
    Kernighan loop runs at most 64 times per block, and the total is the length
    of the list of set positions below [size()], which are all set
    positions. *)
Theorem count_set_positions b :
  wf b →
  count b = Some (Z.of_nat (length (filter (λ p, test b p = true) (seqZ 0 (size b))))) ∧
  ∀ p, size b ≤ p → test b p = false.
Proof.
  intros Hw. rewrite count_positions, size_spec by done. split.
  - do 2 f_equal. unfold positions. replace (Z.of_nat (64 * _)) with (Z.of_nat (length (blocks_ b)) * 64) by lia.
    f_equal. apply list_filter_ext_in. intros p Hp%elem_of_seqZ. by rewrite test_spec by (auto; lia).
  - intros p Hp. rewrite test_spec by (auto; lia). unfold value. apply value_above; [auto|lia].
Qed.

(** The string form round-trips: [ToString] terminates on every
    well-formed set and [FromString] of the result is the same set, block for
    block. *)
Theorem string_roundtrip b :
  wf b → ∃ str, ToString b = Some str ∧ FromString str = b.
Proof.
  intros Hw. rewrite ToString_spec by done. eexists. split; [done|].
  pose proof (wf_size _ Hw). pose proof (value_ge0 b Hw). pose proof (Z.log2_nonneg (value b)).
  destruct (Z.eqb_spec (value b) 0) as [Hz|Hnz].
  { symmetry. apply wf_value_inj; [done|apply wf_empty|done]. }
  destruct (value_log2 b Hw Hnz) as [Hlen Hlog].
  assert (Z.log2 (at_ (blocks_ b) (pred (length (blocks_ b)))) < 64) as Hl64.
  { assert (word (at_ (blocks_ b) (pred (length (blocks_ b))))) as [? Hx] by auto.
    destruct (decide (at_ (blocks_ b) (pred (length (blocks_ b))) = 0)) as [->|]; [done|].
    apply Z.log2_lt_pow2; lia. }
  set (n := S (Z.to_nat (Z.log2 (value b)))).
  assert (length (digits (value b) n) = n) as Hld by (unfold digits; by rewrite length_fmap, length_seq).
  destruct (FromString_spec (digits (value b) n)) as [Hwf Hb]; [rewrite Hld; unfold n; lia|].
  apply wf_value_inj; [done..|]. apply Z.bits_inj'. intros p Hp. rewrite Hb by done.
  unfold ones. rewrite digits_lookup, (proj2 (Z.leb_le _ _)) by lia. simpl.
  case_decide as Hlt.
  - rewrite Z2Nat.id by done. by destruct (Z.testbit (value b) p).
  - rewrite bool_decide_eq_false_2 by done. symmetry. apply Z.bits_above_log2; [done|unfold n in Hlt; lia].
Qed.

(** ** Witnesses *)

(** Positions 0, 2 and 127. *)
Definition sample : BitSet := mkBitSet [5; 2 ^ 63].

Lemma sample_wf : wf sample.
Proof. by split; [repeat constructor; unfold word; lia|..]. Qed.

Lemma sample_positions : find_first sample = 0 ∧ find_next sample 0 = 2 ∧
  find_next sample 2 = 127 ∧ find_next sample 127 = npos ∧ count sample = Some 3.
Proof. by vm_compute. Qed.

Lemma set_reset_test_witness :
  test (set sample 70) 70 = true ∧ test (reset sample 127) 127 = false.
Proof.
  split.
  - destruct (set_reset_test sample 70 70 sample_wf) as (_ & -> & _); done.
  - destruct (set_reset_test sample 127 127 sample_wf) as (_ & _ & _ & ->); done.
Defined.

Lemma set_algebra_witness :
  ∃ r, BuildComplement sample (mkBitSet [4]) = Ret r ∧ value r = Z.ldiff (value sample) 4.
Proof.
  assert (wf (mkBitSet [4])) as H by (by split; [repeat constructor; unfold word; lia|..]).
  destruct (set_algebra sample (mkBitSet [4]) sample_wf H) as (_ & _ & Hd).
  destruct (Hd BuildComplement ltac:(set_solver)) as (r & ? & _ & ?). by exists r.
Defined.

Lemma set_predicates_witness : Contains sample sample = true.
Proof. destruct (set_predicates sample sample sample_wf sample_wf) as (_ & _ & _ & H & _). by apply H. Defined.

Lemma find_positions_witness : find_last sample = 127 ∧ test sample (find_last sample) = true ∧
  next_clear (value sample) 126 (find_next_clear sample 126).
Proof.
  split; [done|]. destruct (find_positions sample 126 sample_wf) as (_ & _ & _ & H & _ & Hc); [done|].
  split; [by apply H|by apply Hc].
Defined.

Lemma count_set_positions_witness : count sample = Some 3 ∧ test sample 128 = false.
Proof. split; [done|]. by apply (count_set_positions sample sample_wf). Defined.

Lemma string_roundtrip_witness : ∃ str, ToString sample = Some str ∧ FromString str = sample.
Proof. exact (string_roundtrip sample sample_wf). Defined.

End BS.
