(* ===== verification/Task.v ===== *)
(** * The task scheduler: src/base/task.h and src/base/task.cc

    [Sched] is the state of [TaskScheduler] together with every [TaskGroup],
    [TaskEntry] and [Task] object it points to.  Pointers are references: a
    group is named by its task id, an entry by an [EntryRef], a task by a
    number.  Each member function is one definition that passes the state
    explicitly; [Abort] is a failed [assert] (or an exception of
    [vector::at]).  The scheduler mutex makes each public operation atomic, so
    an execution is a sequence of operations.

    Time stamps, latency thresholds and logging do not take part in scheduling
    decisions and are left out. *)

From S2P Require Import Prelude.
From stdpp Require Import gmap strings.
From Stdlib Require Import Sorted.
Open Scope Z_scope.

(** What a comparison object has to satisfy. *)
Definition strict_weak_order {A} (lt : A → A → bool) : Prop :=
  (∀ a, lt a a = false) ∧
  (∀ a b c, lt a b = true → lt b c = true → lt a c = true) ∧
  (∀ a b c, lt a b = false → lt b c = false → lt a c = false).

(** [boost::intrusive::set] with a comparison object.  The set is represented
    by the sequence of its elements in iteration order; [iset_insert lt x l] is
    [insert(x)].  The laws are the documented behaviour of [insert]: the set
    stays ordered, and nothing is inserted when an equivalent element is
    present. *)
Class IntrusiveSet (A : Type) := {
  iset_insert : (A → A → bool) → A → list A → list A;
  iset_insert_fresh (lt : A → A → bool) x l :
    strict_weak_order lt → StronglySorted (λ a b, lt a b = true) l →
    (∀ y, y ∈ l → lt x y = true ∨ lt y x = true) →
    ∃ l1 l2, l = l1 ++ l2 ∧ iset_insert lt x l = l1 ++ x :: l2 ∧
      Forall (λ y, lt y x = true) l1 ∧ Forall (λ y, lt x y = true) l2;
  iset_insert_dup (lt : A → A → bool) x l :
    strict_weak_order lt → StronglySorted (λ a b, lt a b = true) l →
    (∃ y, y ∈ l ∧ lt x y = false ∧ lt y x = false) →
    iset_insert lt x l = l;
}.

(** References to [TaskEntry] objects: the entry of instance -1 of a group
    ([task_entry_]), the entry of an instance ([task_entry_db_]), the disable
    entry of a group and the scheduler's stop entry. *)
Inductive EntryRef : Set :=
| EGroup (task_id : Z)
| EInst (task_id instance : Z)
| EDisable (task_id : Z)
| EStop.

#[export] Instance EntryRef_eq_dec : EqDecision EntryRef.
Proof. solve_decision. Defined.
#[export] Instance EntryRef_countable : Countable EntryRef.
Proof.
  refine (inj_countable'
    (λ e, match e with
          | EGroup t => inl (inl t) | EInst t i => inl (inr (t, i))
          | EDisable t => inr (inl t) | EStop => inr (inr tt) end)
    (λ x, match x with
          | inl (inl t) => EGroup t | inl (inr (t, i)) => EInst t i
          | inr (inl t) => EDisable t | inr (inr _) => EStop end) _).
  by intros [].
Defined.

Inductive State : Set := INIT | WAIT | RUN.
Inductive TbbState : Set := TBB_INIT | TBB_ENQUEUED | TBB_EXEC | TBB_DONE.
#[export] Instance State_eq_dec : EqDecision State.
Proof. solve_decision. Defined.

Record Task := mkTask {
  task_id_ : Z;
  task_instance_ : Z;
  task_impl_ : bool;       (* [task_impl_ != NULL] *)
  state_ : State;
  tbb_state_ : TbbState;
  seqno_ : Z;
  task_recycle_ : bool;
  task_cancel_ : bool;
}.

(** [Task::Task(task_id, task_instance)] *)
Definition new_task (task_id task_instance : Z) : Task :=
  mkTask task_id task_instance false INIT TBB_INIT 0 false false.

Record TaskStats := mkStats {
  wait_count_ : Z;
  stats_run_count_ : Z;
  defer_count_ : Z;
  enqueue_count_ : Z;
  total_tasks_completed_ : Z;
}.
Definition zero_stats : TaskStats := mkStats 0 0 0 0 0.

Record TaskEntry := mkEntry {
  e_task_id : Z;
  e_task_instance : Z;
  e_run_count : Z;
  run_task_ : option nat;
  waitq_ : list nat;
  policyq_ : list EntryRef;
  deferq_ : list EntryRef;
  deferq_task_entry_ : option EntryRef;
  deferq_task_group_ : option Z;
  e_disable : bool;
  e_stats : TaskStats;
}.

(** [TaskEntry::TaskEntry(task_id, task_instance)]: an instance entry gets the
    implicit rule that it excludes itself. *)
Definition new_TaskEntry (task_id task_instance : Z) : TaskEntry :=
  mkEntry task_id task_instance 0 None []
    (if task_instance =? -1 then [] else [EInst task_id task_instance])
    [] None None false zero_stats.

Record TaskGroup := mkGroup {
  policy_set_ : bool;
  g_run_count : Z;
  policy_ : list Z;
  g_deferq : list EntryRef;
  entry_db_size : Z;       (* [task_entry_db_.size()] *)
  g_disable : bool;
  g_stats : TaskStats;
}.

Definition kVectorGrowSize : Z := 16.

(** [TaskGroup::TaskGroup(task_id)]; its two entries are made by
    [GetTaskGroup]. *)
Definition new_TaskGroup : TaskGroup :=
  mkGroup false 0 [] [] kVectorGrowSize false zero_stats.

Record Sched := mkSched {
  running_ : bool;
  sched_seqno : Z;
  group_db_size : Z;       (* [task_group_db_.size()] *)
  groups : gmap Z TaskGroup;
  entries : gmap EntryRef TaskEntry;
  tasks : gmap nat Task;
  sched_enqueue_count : Z;
  done_count_ : Z;
  cancel_count_ : Z;
}.

(** [TaskScheduler::TaskScheduler] *)
Definition new_TaskScheduler : Sched :=
  mkSched true 0 kVectorGrowSize ∅ {[ EStop := new_TaskEntry (-1) (-1) ]} ∅ 0 0 0.

(** ** Object access *)

(** Dereferencing: [ent s e], [grp s g], [tsk s t] are the objects.  A
    reference that was never allocated reads as a fresh object. *)
Definition ent (s : Sched) (e : EntryRef) : TaskEntry :=
  default (new_TaskEntry (-1) (-1)) (entries s !! e).
Definition grp (s : Sched) (g : Z) : TaskGroup := default new_TaskGroup (groups s !! g).
Definition tsk (s : Sched) (t : nat) : Task := default (new_task (-1) (-1)) (tasks s !! t).

Definition put_ent (e : EntryRef) (E : TaskEntry) (s : Sched) : Sched :=
  mkSched (running_ s) (sched_seqno s) (group_db_size s) (groups s) (<[e := E]> (entries s))
    (tasks s) (sched_enqueue_count s) (done_count_ s) (cancel_count_ s).
Definition put_grp (g : Z) (G : TaskGroup) (s : Sched) : Sched :=
  mkSched (running_ s) (sched_seqno s) (group_db_size s) (<[g := G]> (groups s)) (entries s)
    (tasks s) (sched_enqueue_count s) (done_count_ s) (cancel_count_ s).
Definition put_tasks (m : gmap nat Task) (s : Sched) : Sched :=
  mkSched (running_ s) (sched_seqno s) (group_db_size s) (groups s) (entries s)
    m (sched_enqueue_count s) (done_count_ s) (cancel_count_ s).
Definition put_tsk (t : nat) (T : Task) (s : Sched) : Sched :=
  put_tasks (<[t := T]> (tasks s)) s.
Definition delete_tsk (t : nat) (s : Sched) : Sched := put_tasks (delete t (tasks s)) s.

Definition upd_ent (e : EntryRef) (f : TaskEntry → TaskEntry) (s : Sched) : Sched :=
  put_ent e (f (ent s e)) s.
Definition upd_grp (g : Z) (f : TaskGroup → TaskGroup) (s : Sched) : Sched :=
  put_grp g (f (grp s g)) s.
Definition upd_tsk (t : nat) (f : Task → Task) (s : Sched) : Sched :=
  put_tsk t (f (tsk s t)) s.

(** Assignments to single members. *)
Definition set_e_run (n : Z) (E : TaskEntry) : TaskEntry :=
  mkEntry (e_task_id E) (e_task_instance E) n (run_task_ E) (waitq_ E) (policyq_ E) (deferq_ E)
    (deferq_task_entry_ E) (deferq_task_group_ E) (e_disable E) (e_stats E).
Definition set_run_task (t : option nat) (E : TaskEntry) : TaskEntry :=
  mkEntry (e_task_id E) (e_task_instance E) (e_run_count E) t (waitq_ E) (policyq_ E) (deferq_ E)
    (deferq_task_entry_ E) (deferq_task_group_ E) (e_disable E) (e_stats E).
Definition set_waitq (l : list nat) (E : TaskEntry) : TaskEntry :=
  mkEntry (e_task_id E) (e_task_instance E) (e_run_count E) (run_task_ E) l (policyq_ E) (deferq_ E)
    (deferq_task_entry_ E) (deferq_task_group_ E) (e_disable E) (e_stats E).
Definition set_policyq (l : list EntryRef) (E : TaskEntry) : TaskEntry :=
  mkEntry (e_task_id E) (e_task_instance E) (e_run_count E) (run_task_ E) (waitq_ E) l (deferq_ E)
    (deferq_task_entry_ E) (deferq_task_group_ E) (e_disable E) (e_stats E).
Definition set_deferq (l : list EntryRef) (E : TaskEntry) : TaskEntry :=
  mkEntry (e_task_id E) (e_task_instance E) (e_run_count E) (run_task_ E) (waitq_ E) (policyq_ E) l
    (deferq_task_entry_ E) (deferq_task_group_ E) (e_disable E) (e_stats E).
Definition set_deferq_task_entry (f : option EntryRef) (E : TaskEntry) : TaskEntry :=
  mkEntry (e_task_id E) (e_task_instance E) (e_run_count E) (run_task_ E) (waitq_ E) (policyq_ E)
    (deferq_ E) f (deferq_task_group_ E) (e_disable E) (e_stats E).
Definition set_deferq_task_group (g : option Z) (E : TaskEntry) : TaskEntry :=
  mkEntry (e_task_id E) (e_task_instance E) (e_run_count E) (run_task_ E) (waitq_ E) (policyq_ E)
    (deferq_ E) (deferq_task_entry_ E) g (e_disable E) (e_stats E).
Definition set_e_disable (b : bool) (E : TaskEntry) : TaskEntry :=
  mkEntry (e_task_id E) (e_task_instance E) (e_run_count E) (run_task_ E) (waitq_ E) (policyq_ E)
    (deferq_ E) (deferq_task_entry_ E) (deferq_task_group_ E) b (e_stats E).
Definition upd_e_stats (f : TaskStats → TaskStats) (E : TaskEntry) : TaskEntry :=
  mkEntry (e_task_id E) (e_task_instance E) (e_run_count E) (run_task_ E) (waitq_ E) (policyq_ E)
    (deferq_ E) (deferq_task_entry_ E) (deferq_task_group_ E) (e_disable E) (f (e_stats E)).

Definition set_policy_set (b : bool) (G : TaskGroup) : TaskGroup :=
  mkGroup b (g_run_count G) (policy_ G) (g_deferq G) (entry_db_size G) (g_disable G) (g_stats G).
Definition set_g_run (n : Z) (G : TaskGroup) : TaskGroup :=
  mkGroup (policy_set_ G) n (policy_ G) (g_deferq G) (entry_db_size G) (g_disable G) (g_stats G).
Definition set_policy (l : list Z) (G : TaskGroup) : TaskGroup :=
  mkGroup (policy_set_ G) (g_run_count G) l (g_deferq G) (entry_db_size G) (g_disable G) (g_stats G).
Definition set_g_deferq (l : list EntryRef) (G : TaskGroup) : TaskGroup :=
  mkGroup (policy_set_ G) (g_run_count G) (policy_ G) l (entry_db_size G) (g_disable G) (g_stats G).
Definition set_entry_db_size (n : Z) (G : TaskGroup) : TaskGroup :=
  mkGroup (policy_set_ G) (g_run_count G) (policy_ G) (g_deferq G) n (g_disable G) (g_stats G).
Definition set_g_disable (b : bool) (G : TaskGroup) : TaskGroup :=
  mkGroup (policy_set_ G) (g_run_count G) (policy_ G) (g_deferq G) (entry_db_size G) b (g_stats G).
Definition upd_g_stats (f : TaskStats → TaskStats) (G : TaskGroup) : TaskGroup :=
  mkGroup (policy_set_ G) (g_run_count G) (policy_ G) (g_deferq G) (entry_db_size G) (g_disable G)
    (f (g_stats G)).

Definition inc_wait (st : TaskStats) : TaskStats :=
  mkStats (wait_count_ st + 1) (stats_run_count_ st) (defer_count_ st) (enqueue_count_ st)
    (total_tasks_completed_ st).
Definition inc_run (st : TaskStats) : TaskStats :=
  mkStats (wait_count_ st) (stats_run_count_ st + 1) (defer_count_ st) (enqueue_count_ st)
    (total_tasks_completed_ st).
Definition inc_defer (st : TaskStats) : TaskStats :=
  mkStats (wait_count_ st) (stats_run_count_ st) (defer_count_ st + 1) (enqueue_count_ st)
    (total_tasks_completed_ st).
Definition inc_enqueue (st : TaskStats) : TaskStats :=
  mkStats (wait_count_ st) (stats_run_count_ st) (defer_count_ st) (enqueue_count_ st + 1)
    (total_tasks_completed_ st).
Definition inc_completed (st : TaskStats) : TaskStats :=
  mkStats (wait_count_ st) (stats_run_count_ st) (defer_count_ st) (enqueue_count_ st)
    (total_tasks_completed_ st + 1).

Definition set_state (st : State) (T : Task) : Task :=
  mkTask (task_id_ T) (task_instance_ T) (task_impl_ T) st (tbb_state_ T) (seqno_ T)
    (task_recycle_ T) (task_cancel_ T).
Definition set_tbb_state (st : TbbState) (T : Task) : Task :=
  mkTask (task_id_ T) (task_instance_ T) (task_impl_ T) (state_ T) st (seqno_ T)
    (task_recycle_ T) (task_cancel_ T).
Definition set_task_impl (b : bool) (T : Task) : Task :=
  mkTask (task_id_ T) (task_instance_ T) b (state_ T) (tbb_state_ T) (seqno_ T)
    (task_recycle_ T) (task_cancel_ T).
Definition set_seqno (n : Z) (T : Task) : Task :=
  mkTask (task_id_ T) (task_instance_ T) (task_impl_ T) (state_ T) (tbb_state_ T) n
    (task_recycle_ T) (task_cancel_ T).
Definition set_recycle (b : bool) (T : Task) : Task :=
  mkTask (task_id_ T) (task_instance_ T) (task_impl_ T) (state_ T) (tbb_state_ T) (seqno_ T)
    b (task_cancel_ T).
Definition set_cancel (b : bool) (T : Task) : Task :=
  mkTask (task_id_ T) (task_instance_ T) (task_impl_ T) (state_ T) (tbb_state_ T) (seqno_ T)
    (task_recycle_ T) b.

Definition set_running (b : bool) (s : Sched) : Sched :=
  mkSched b (sched_seqno s) (group_db_size s) (groups s) (entries s) (tasks s)
    (sched_enqueue_count s) (done_count_ s) (cancel_count_ s).
Definition set_sched_seqno (n : Z) (s : Sched) : Sched :=
  mkSched (running_ s) n (group_db_size s) (groups s) (entries s) (tasks s)
    (sched_enqueue_count s) (done_count_ s) (cancel_count_ s).
Definition set_group_db_size (n : Z) (s : Sched) : Sched :=
  mkSched (running_ s) (sched_seqno s) n (groups s) (entries s) (tasks s)
    (sched_enqueue_count s) (done_count_ s) (cancel_count_ s).
Definition set_counts (enq don can : Z) (s : Sched) : Sched :=
  mkSched (running_ s) (sched_seqno s) (group_db_size s) (groups s) (entries s) (tasks s)
    enq don can.

(** ** TaskScheduler: groups and entries *)

(** The entry a task belongs to. *)
Definition entry_of (T : Task) : EntryRef :=
  if task_instance_ T =? -1 then EGroup (task_id_ T) else EInst (task_id_ T) (task_instance_ T).

(** [TaskScheduler::GetTaskGroup] *)
Definition GetTaskGroup (task_id : Z) (s : Sched) : outcome Sched :=
  assert_that (0 <=? task_id);;
  let s := if group_db_size s <=? task_id
           then set_group_db_size (task_id + kVectorGrowSize) s else s in
  match groups s !! task_id with
  | Some _ => Ret s
  | None => Ret (put_ent (EDisable task_id) (new_TaskEntry task_id (-1))
                  (put_ent (EGroup task_id) (new_TaskEntry task_id (-1))
                    (put_grp task_id new_TaskGroup s)))
  end.

(** [TaskScheduler::QueryTaskGroup]; an index outside the vector is undefined
    behaviour. *)
Definition QueryTaskGroup (task_id : Z) (s : Sched) : outcome (option Z) :=
  assert_that ((0 <=? task_id) && (task_id <? group_db_size s));;
  Ret (if groups s !! task_id is Some _ then Some task_id else None).

(** [TaskGroup::GetTaskEntry]; [vector::at] throws on a bad index. *)
Definition GroupGetTaskEntry (g task_instance : Z) (s : Sched) : outcome (EntryRef * Sched) :=
  if task_instance =? -1 then Ret (EGroup g, s) else
  let s := if entry_db_size (grp s g) <=? task_instance
           then upd_grp g (set_entry_db_size (task_instance + kVectorGrowSize)) s else s in
  assert_that (0 <=? task_instance);;
  match entries s !! EInst g task_instance with
  | Some _ => Ret (EInst g task_instance, s)
  | None => Ret (EInst g task_instance,
                 put_ent (EInst g task_instance) (new_TaskEntry g task_instance) s)
  end.

(** [TaskGroup::QueryTaskEntry] *)
Definition GroupQueryTaskEntry (g task_instance : Z) (s : Sched) : outcome (option EntryRef) :=
  if task_instance =? -1 then Ret (Some (EGroup g)) else
  if entry_db_size (grp s g) <=? task_instance then Ret None else
  assert_that (0 <=? task_instance);;
  Ret (if entries s !! EInst g task_instance is Some _ then Some (EInst g task_instance) else None).

(** [TaskScheduler::GetTaskEntry] *)
Definition GetTaskEntry (task_id task_instance : Z) (s : Sched) : outcome (EntryRef * Sched) :=
  s ← GetTaskGroup task_id s;
  GroupGetTaskEntry task_id task_instance s.

(** [TaskScheduler::QueryTaskEntry] *)
Definition QueryTaskEntry (task_id task_instance : Z) (s : Sched) : outcome (option EntryRef) :=
  g ← QueryTaskGroup task_id s;
  match g with
  | None => Ret None
  | Some g => GroupQueryTaskEntry g task_instance s
  end.

(** Using a pointer as an object: NULL is undefined behaviour. *)
Definition deref {A} (p : option A) : outcome A :=
  match p with Some a => Ret a | None => Abort end.

(** ** Policies *)

(** [TaskGroup::AddPolicy], [TaskEntry::AddPolicy] *)
Definition GroupAddPolicy (g h : Z) (s : Sched) : Sched :=
  upd_grp g (λ G, set_policy (policy_ G ++ [h]) G) s.
Definition EntryAddPolicy (e f : EntryRef) (s : Sched) : Sched :=
  upd_ent e (λ E, set_policyq (policyq_ E ++ [f]) E) s.

(** [TaskGroup::ActiveGroupInPolicy], [TaskEntry::ActiveEntryInPolicy]: the
    first member of the policy with a running task. *)
Definition ActiveGroupInPolicy (g : Z) (s : Sched) : option Z :=
  List.find (λ h, negb (g_run_count (grp s h) =? 0)) (policy_ (grp s g)).
Definition ActiveEntryInPolicy (e : EntryRef) (s : Sched) : option EntryRef :=
  List.find (λ f, negb (e_run_count (ent s f) =? 0)) (policyq_ (ent s e)).

(** [TaskGroup::PolicySet] *)
Definition PolicySet (g : Z) (s : Sched) : outcome Sched :=
  assert_that (negb (policy_set_ (grp s g)));;
  Ret (upd_grp g (set_policy_set true) s).

Record TaskExclusion := mkExclusion { match_id : Z; match_instance : Z }.

(** The body of the loop of [TaskScheduler::SetPolicy]. *)
Definition SetPolicy_step (task_id : Z) (s : outcome Sched) (x : TaskExclusion) : outcome Sched :=
  s ← s;
  if match_instance x =? -1 then
    s ← GetTaskGroup (match_id x) s;
    Ret (GroupAddPolicy (match_id x) task_id (GroupAddPolicy task_id (match_id x) s))
  else
    '(entry, s) ← GetTaskEntry task_id (match_instance x) s;
    '(policy_entry, s) ← GetTaskEntry (match_id x) (match_instance x) s;
    let s := EntryAddPolicy policy_entry entry (EntryAddPolicy entry policy_entry s) in
    Ret (EntryAddPolicy policy_entry (EGroup task_id)
          (EntryAddPolicy (EGroup task_id) policy_entry s)).

(** [TaskScheduler::SetPolicy] *)
Definition SetPolicy (task_id : Z) (policy : list TaskExclusion) (s : Sched) : outcome Sched :=
  s ← GetTaskGroup task_id s;
  '(_, s) ← GroupGetTaskEntry task_id (-1) s;
  s ← PolicySet task_id s;
  foldl (SetPolicy_step task_id) (Ret s) policy.

(** ** Wait queues and deferral queues *)

(** [TaskEntry::AddToWaitQ] *)
Definition AddToWaitQ (e : EntryRef) (t : nat) (s : Sched) : outcome Sched :=
  let s := upd_tsk t (set_state WAIT) s in
  let s := upd_ent e (λ E, set_waitq (waitq_ E ++ [t]) (upd_e_stats inc_wait E)) s in
  s ← GetTaskGroup (e_task_id (ent s e)) s;
  Ret (upd_grp (e_task_id (ent s e)) (upd_g_stats inc_wait) s).

(** [TaskEntry::DeleteFromWaitQ]; a task that is not linked has no iterator. *)
Definition DeleteFromWaitQ (e : EntryRef) (t : nat) (s : Sched) : outcome Sched :=
  assert_that (bool_decide (t ∈ waitq_ (ent s e)));;
  Ret (upd_ent e (λ E, set_waitq (List.remove eq_nat_dec t (waitq_ E)) E) s).

(** [TaskEntry::GetTaskDeferEntrySeqno] *)
Definition GetTaskDeferEntrySeqno (s : Sched) (e : EntryRef) : option Z :=
  match waitq_ (ent s e) with
  | [] => None
  | t :: _ => Some (seqno_ (tsk s t))
  end.

(** [TaskDeferEntryCmp]: [boost::optional] orders [none] before any value. *)
Definition TaskDeferEntryCmp (s : Sched) (lhs rhs : EntryRef) : bool :=
  match GetTaskDeferEntrySeqno s lhs, GetTaskDeferEntrySeqno s rhs with
  | _, None => false
  | None, Some _ => true
  | Some a, Some b => a <? b
  end.

(** The hook of an entry is linked when the entry is in a deferral queue; the
    hook is in the default safe-link mode, whose insertion asserts that the
    hook is not linked. *)
Definition linked (s : Sched) (e : EntryRef) : bool :=
  match deferq_task_entry_ (ent s e), deferq_task_group_ (ent s e) with
  | None, None => false
  | _, _ => true
  end.

Section DeferQ.
Context `{!IntrusiveSet EntryRef}.

(** [TaskEntry::AddToDeferQ]: [e] waits on [o]. *)
Definition EntryAddToDeferQ (o e : EntryRef) (s : Sched) : outcome Sched :=
  assert_that (negb (linked s e));;
  let q := iset_insert (TaskDeferEntryCmp s) e (deferq_ (ent s o)) in
  let s := upd_ent o (λ E, set_deferq q (upd_e_stats inc_defer E)) s in
  assert_that (bool_decide (deferq_task_entry_ (ent s e) = None));;
  Ret (upd_ent e (set_deferq_task_entry (Some o)) s).

(** [TaskEntry::DeleteFromDeferQ] *)
Definition EntryDeleteFromDeferQ (o e : EntryRef) (s : Sched) : outcome Sched :=
  assert_that (bool_decide (deferq_task_entry_ (ent s e) = Some o));;
  let s := upd_ent o (λ E, set_deferq (List.remove EntryRef_eq_dec e (deferq_ E)) E) s in
  Ret (upd_ent e (set_deferq_task_entry None) s).

(** [TaskGroup::AddToDeferQ] *)
Definition GroupAddToDeferQ (g : Z) (e : EntryRef) (s : Sched) : outcome Sched :=
  assert_that (negb (linked s e));;
  let q := iset_insert (TaskDeferEntryCmp s) e (g_deferq (grp s g)) in
  let s := upd_grp g (λ G, set_g_deferq q (upd_g_stats inc_defer G)) s in
  assert_that (bool_decide (deferq_task_group_ (ent s e) = None));;
  Ret (upd_ent e (set_deferq_task_group (Some g)) s).

(** [TaskGroup::DeleteFromDeferQ] *)
Definition GroupDeleteFromDeferQ (g : Z) (e : EntryRef) (s : Sched) : outcome Sched :=
  assert_that (bool_decide (deferq_task_group_ (ent s e) = Some g));;
  let s := upd_grp g (λ G, set_g_deferq (List.remove EntryRef_eq_dec e (g_deferq G)) G) s in
  Ret (upd_ent e (set_deferq_task_group None) s).

(** [TaskGroup::DeferOnPolicyFail] *)
Definition GroupDeferOnPolicyFail (g : Z) (e : EntryRef) (t : nat) (s : Sched) :
    outcome (bool * Sched) :=
  match ActiveGroupInPolicy g s with
  | Some h =>
      s ← (match waitq_ (ent s e) with [] => AddToWaitQ e t s | _ => Ret s end);
      s ← GroupAddToDeferQ h e s;
      Ret (true, s)
  | None => Ret (false, s)
  end.

(** [TaskEntry::DeferOnPolicyFail] *)
Definition EntryDeferOnPolicyFail (e : EntryRef) (t : nat) (s : Sched) :
    outcome (bool * Sched) :=
  match ActiveEntryInPolicy e s with
  | Some f =>
      s ← (match waitq_ (ent s e) with [] => AddToWaitQ e t s | _ => Ret s end);
      s ← EntryAddToDeferQ f e s;
      Ret (true, s)
  | None => Ret (false, s)
  end.

(** ** Running tasks *)

(** [Task::StartTask] *)
Definition StartTask (t : nat) (s : Sched) : outcome Sched :=
  assert_that (negb (task_impl_ (tsk s t)));;
  Ret (upd_tsk t (λ T, set_task_impl true (set_tbb_state TBB_ENQUEUED (set_state RUN T))) s).

(** [TaskEntry::RunTask] *)
Definition RunTask (e : EntryRef) (t : nat) (s : Sched) : outcome Sched :=
  let s := upd_ent e (upd_e_stats inc_run) s in
  s ← (if task_instance_ (tsk s t) =? -1 then Ret s else
       assert_that (bool_decide (run_task_ (ent s e) = None));;
       assert_that (e_run_count (ent s e) =? 0);;
       Ret (upd_ent e (set_run_task (Some t)) s));
  let s := upd_ent e (λ E, set_e_run (e_run_count E + 1) E) s in
  p ← QueryTaskGroup (task_id_ (tsk s t)) s;
  g ← deref p;
  let s := upd_grp g (λ G, set_g_run (g_run_count G + 1) G) s in
  StartTask t s.

(** The loop of [TaskEntry::RunWaitQ] for instance -1; the fuel is the length
    of [waitq_], and each iteration removes one task. *)
Fixpoint RunWaitQ_loop (fuel : nat) (e : EntryRef) (s : Sched) : outcome Sched :=
  match waitq_ (ent s e), fuel with
  | [], _ => Ret s
  | _ :: _, O => Abort
  | t :: _, S fuel =>
      s ← DeleteFromWaitQ e t s;
      s ← RunTask e t s;
      RunWaitQ_loop fuel e s
  end.

(** [TaskEntry::RunWaitQ] *)
Definition RunWaitQ (e : EntryRef) (s : Sched) : outcome Sched :=
  match waitq_ (ent s e) with
  | [] => Ret s
  | t :: q =>
      if e_task_instance (ent s e) =? -1 then RunWaitQ_loop (S (length q)) e s
      else
        s ← DeleteFromWaitQ e t s;
        s ← RunTask e t s;
        match waitq_ (ent s e) with
        | [] => Ret s
        | _ => EntryAddToDeferQ e e s
        end
  end.

(** [TaskEntry::RunDeferEntry] *)
Definition RunDeferEntry (e : EntryRef) (s : Sched) : outcome Sched :=
  let g := e_task_id (ent s e) in
  s ← GetTaskGroup g s;
  match waitq_ (ent s e) with
  | [] => Abort
  | task :: _ =>
      '(deferred, s) ← GroupDeferOnPolicyFail g e task s;
      if deferred : bool then Ret s else
      '(deferred, s) ← EntryDeferOnPolicyFail e task s;
      if deferred : bool then Ret s else
      RunWaitQ e s
  end.

(** The successor of [e] in an iteration order: [++it]; [None] is [end()]. *)
Fixpoint next_in (e : EntryRef) (l : list EntryRef) : option EntryRef :=
  match l with
  | [] => None
  | x :: l => if decide (x = e) then head l else next_in e l
  end.

(** The owner of a deferral queue. *)
Inductive Owner : Set := OE (e : EntryRef) | OG (g : Z).

Definition dq (s : Sched) (o : Owner) : list EntryRef :=
  match o with OE e => deferq_ (ent s e) | OG g => g_deferq (grp s g) end.
Definition AddToDeferQ (o : Owner) : EntryRef → Sched → outcome Sched :=
  match o with OE f => EntryAddToDeferQ f | OG g => GroupAddToDeferQ g end.
Definition DeleteFromDeferQ (o : Owner) : EntryRef → Sched → outcome Sched :=
  match o with OE f => EntryDeleteFromDeferQ f | OG g => GroupDeleteFromDeferQ g end.

(** The loop of [RunDeferQ] (the same text in both classes). *)
Fixpoint RunDeferQ_loop (fuel : nat) (o : Owner) (it : option EntryRef) (s : Sched) :
    outcome Sched :=
  match it, fuel with
  | None, _ => Ret s
  | Some _, O => Abort
  | Some e, S fuel =>
      let it := next_in e (dq s o) in
      s ← DeleteFromDeferQ o e s;
      s ← RunDeferEntry e s;
      RunDeferQ_loop fuel o it s
  end.

(** An entry that is visited again has started a task since: the visits are
    bounded by the entries and the tasks. *)
Definition deferq_fuel (s : Sched) (l : list EntryRef) : nat := length l + size (tasks s).

(** [TaskGroup::RunDeferQ], [TaskEntry::RunDeferQ] *)
Definition GroupRunDeferQ (g : Z) (s : Sched) : outcome Sched :=
  RunDeferQ_loop (deferq_fuel s (dq s (OG g))) (OG g) (head (dq s (OG g))) s.
Definition EntryRunDeferQ (e : EntryRef) (s : Sched) : outcome Sched :=
  RunDeferQ_loop (deferq_fuel s (dq s (OE e))) (OE e) (head (dq s (OE e))) s.

(** [TaskEntry::RunDeferQForGroupEnable] *)
Fixpoint RunDeferQForGroupEnable_loop (fuel : nat) (o : EntryRef) (it : option EntryRef)
    (s : Sched) : outcome Sched :=
  match it, fuel with
  | None, _ => Ret s
  | Some _, O => Abort
  | Some e, S fuel =>
      let it := next_in e (deferq_ (ent s o)) in
      s ← EntryDeleteFromDeferQ o e s;
      s ← (if e_disable (ent s e) then Ret s else RunDeferEntry e s);
      RunDeferQForGroupEnable_loop fuel o it s
  end.
Definition RunDeferQForGroupEnable (o : EntryRef) (s : Sched) : outcome Sched :=
  RunDeferQForGroupEnable_loop (deferq_fuel s (deferq_ (ent s o))) o (head (deferq_ (ent s o))) s.

(** The first loop of [TaskEntry::RunCombinedDeferQ]; returns the iterators at
    its exit. *)
Fixpoint RunCombinedDeferQ_loop (fuel : nat) (e : EntryRef) (g : Z)
    (group_it entry_it : option EntryRef) (s : Sched) :
    outcome (option EntryRef * option EntryRef * Sched) :=
  match group_it, entry_it, fuel with
  | None, _, _ | _, None, _ => Ret (group_it, entry_it, s)
  | Some _, Some _, O => Abort
  | Some g_entry, Some t_entry, S fuel =>
      if TaskDeferEntryCmp s g_entry t_entry then
        let group_it := next_in g_entry (dq s (OG g)) in
        s ← GroupDeleteFromDeferQ g g_entry s;
        s ← RunDeferEntry g_entry s;
        RunCombinedDeferQ_loop fuel e g group_it entry_it s
      else
        let entry_it := next_in t_entry (dq s (OE e)) in
        s ← EntryDeleteFromDeferQ e t_entry s;
        s ← RunDeferEntry t_entry s;
        RunCombinedDeferQ_loop fuel e g group_it entry_it s
  end.

(** [TaskEntry::RunCombinedDeferQ] *)
Definition RunCombinedDeferQ (e : EntryRef) (s : Sched) : outcome Sched :=
  p ← QueryTaskGroup (e_task_id (ent s e)) s;
  g ← deref p;
  '(group_it, entry_it, s) ←
    RunCombinedDeferQ_loop (deferq_fuel s (dq s (OG g) ++ dq s (OE e))) e g
      (head (dq s (OG g))) (head (dq s (OE e))) s;
  match group_it, entry_it with
  | Some _, _ => GroupRunDeferQ g s
  | None, Some _ => EntryRunDeferQ e s
  | None, None => Ret s
  end.

(** [TaskGroup::TaskExited] *)
Definition GroupTaskExited (g : Z) (s : Sched) : Sched :=
  upd_grp g (λ G, upd_g_stats inc_completed (set_g_run (g_run_count G - 1) G)) s.

(** [TaskEntry::TaskExited] *)
Definition EntryTaskExited (e : EntryRef) (t : nat) (g : Z) (s : Sched) : outcome Sched :=
  s ← (if e_task_instance (ent s e) =? -1 then Ret s else
       assert_that (bool_decide (run_task_ (ent s e) = Some t));;
       let s := upd_ent e (set_run_task None) s in
       assert_that (e_run_count (ent s e) =? 1);;
       Ret s);
  let s := upd_ent e (λ E, upd_e_stats inc_completed (set_e_run (e_run_count E - 1) E)) s in
  let s := GroupTaskExited g s in
  if (g_run_count (grp s g) =? 0) && (e_run_count (ent s e) =? 0) then RunCombinedDeferQ e s
  else if g_run_count (grp s g) =? 0 then GroupRunDeferQ g s
  else if e_run_count (ent s e) =? 0 then EntryRunDeferQ e s
  else Ret s.

(** ** TaskScheduler: the public operations *)

(** [TaskGroup::AddToDisableQ] *)
Definition AddToDisableQ (g : Z) (e : EntryRef) (s : Sched) : outcome Sched :=
  EntryAddToDeferQ (EDisable g) e s.

(** The decision part of [TaskScheduler::EnqueueUnLocked]: queue the task,
    defer its entry, or run it. *)
Definition Enqueue_dispatch (t : nat) (group : Z) (entry : EntryRef) (s : Sched) : outcome Sched :=
  if g_disable (grp s group) || e_disable (ent s entry) then
    s ← AddToWaitQ entry t s;
    if g_disable (grp s group) then AddToDisableQ group entry s else Ret s
  else if negb (length (waitq_ (ent s entry)) =? 0)%nat then AddToWaitQ entry t s
  else if negb (running_ s) then
    s ← AddToWaitQ entry t s;
    EntryAddToDeferQ EStop entry s
  else
    '(deferred, s) ← GroupDeferOnPolicyFail group entry t s;
    if deferred : bool then Ret s else
    '(deferred, s) ← EntryDeferOnPolicyFail entry t s;
    if deferred : bool then Ret s else
    RunTask entry t s.

(** [TaskScheduler::EnqueueUnLocked] (and [Enqueue], which takes the lock) *)
Definition EnqueueUnLocked (t : nat) (s : Sched) : outcome Sched :=
  assert_that (seqno_ (tsk s t) =? 0);;
  let s := set_counts (u64 (sched_enqueue_count s + 1)) (done_count_ s) (cancel_count_ s) s in
  let s := set_sched_seqno (u64 (sched_seqno s + 1)) s in
  let s := upd_tsk t (set_seqno (sched_seqno s)) s in
  let group := task_id_ (tsk s t) in
  s ← GetTaskGroup group s;
  let s := upd_grp group (upd_g_stats inc_enqueue) s in
  '(entry, s) ← GetTaskEntry (task_id_ (tsk s t)) (task_instance_ (tsk s t)) s;
  Enqueue_dispatch t group entry (upd_ent entry (upd_e_stats inc_enqueue) s).

Inductive CancelReturnCode : Set := CANCELLED | FAILED | QUEUED.

(** The two dequeue branches of [TaskScheduler::Cancel]: the entry has no task
    left, or has lost the task that gives its position. *)
Definition Cancel_remove (g : Z) (e : EntryRef) (s : Sched) : outcome Sched :=
  match deferq_task_group_ (ent s e), deferq_task_entry_ (ent s e) with
  | Some h, f => assert_that (bool_decide (f = None));; GroupDeleteFromDeferQ h e s
  | None, Some f => EntryDeleteFromDeferQ f e s
  | None, None =>
      if g_disable (grp s g) then EntryDeleteFromDeferQ (EDisable g) e s
      else assert_that (e_disable (ent s e));; Ret s
  end.
Definition Cancel_requeue (g : Z) (e : EntryRef) (s : Sched) : outcome Sched :=
  match deferq_task_group_ (ent s e), deferq_task_entry_ (ent s e) with
  | Some h, f =>
      assert_that (bool_decide (f = None));;
      s ← GroupDeleteFromDeferQ h e s;
      GroupAddToDeferQ h e s
  | None, Some f =>
      s ← EntryDeleteFromDeferQ f e s;
      EntryAddToDeferQ f e s
  | None, None =>
      if g_disable (grp s g) then
        s ← EntryDeleteFromDeferQ (EDisable g) e s;
        EntryAddToDeferQ (EDisable g) e s
      else assert_that (e_disable (ent s e));; Ret s
  end.

(** [TaskScheduler::Cancel] *)
Definition Cancel (t : nat) (s : Sched) : outcome (CancelReturnCode * Sched) :=
  match state_ (tsk s t) with
  | RUN => Ret (QUEUED, upd_tsk t (set_cancel true) s)
  | WAIT =>
      p ← QueryTaskEntry (task_id_ (tsk s t)) (task_instance_ (tsk s t)) s;
      q ← QueryTaskGroup (task_id_ (tsk s t)) s;
      entry ← deref p;
      group ← deref q;
      match waitq_ (ent s entry) with
      | [] => Abort
      | first_wait_task :: _ =>
          s ← DeleteFromWaitQ entry t s;
          s ← (if (length (waitq_ (ent s entry)) =? 0)%nat then Cancel_remove group entry s
               else if decide (t = first_wait_task) then Cancel_requeue group entry s
               else Ret s);
          let s := delete_tsk t s in
          Ret (CANCELLED,
               set_counts (sched_enqueue_count s) (done_count_ s) (u64 (cancel_count_ s + 1)) s)
      end
  | INIT => Ret (FAILED, s)
  end.

(** [TaskImpl::execute]: up to the call of [Run], and after it returns. *)
Definition execute_enter (t : nat) (s : Sched) : Sched := upd_tsk t (set_tbb_state TBB_EXEC) s.
Definition execute_leave (t : nat) (is_complete : bool) (s : Sched) : Sched :=
  upd_tsk t (set_recycle (negb is_complete)) s.

(** [TaskScheduler::OnTaskExit], called by [TaskImpl::~TaskImpl] *)
Definition OnTaskExit (t : nat) (s : Sched) : outcome Sched :=
  let s := set_counts (sched_enqueue_count s) (u64 (done_count_ s + 1)) (cancel_count_ s) s in
  let s := upd_tsk t (set_tbb_state TBB_DONE) s in
  p ← QueryTaskEntry (task_id_ (tsk s t)) (task_instance_ (tsk s t)) s;
  s ← GetTaskGroup (task_id_ (tsk s t)) s;
  entry ← deref p;
  s ← EntryTaskExited entry t (task_id_ (tsk s t)) s;
  if negb (task_recycle_ (tsk s t)) || task_cancel_ (tsk s t) then Ret (delete_tsk t s)
  else
    EnqueueUnLocked t
      (upd_tsk t (λ T, set_tbb_state TBB_INIT (set_state INIT (set_seqno 0 (set_task_impl false T)))) s).

(** [TaskScheduler::Stop], [TaskScheduler::Start] *)
Definition Stop (s : Sched) : Sched := set_running false s.
Definition Start (s : Sched) : outcome Sched := EntryRunDeferQ EStop (set_running true s).

(** [TaskGroup::IsWaitQEmpty] *)
Definition IsWaitQEmpty (g : Z) (s : Sched) : bool :=
  (length (waitq_ (ent s (EGroup g))) =? 0)%nat &&
  forallb (λ i, match entries s !! EInst g i with
                | None => true
                | Some E => e_disable E || (length (waitq_ E) =? 0)%nat
                end) (seqZ 0 (entry_db_size (grp s g))).

(** [TaskScheduler::IsEmpty] *)
Definition IsEmpty (running_only : bool) (s : Sched) : bool :=
  forallb (λ g, match groups s !! g with
                | None => true
                | Some G =>
                    (g_run_count G =? 0) &&
                    (g_disable G || running_only || IsWaitQEmpty g s)
                end) (seqZ 0 (group_db_size s)).

(** [TaskScheduler::IsTaskGroupEmpty] *)
Definition IsTaskGroupEmpty (task_id : Z) (s : Sched) : outcome bool :=
  p ← QueryTaskGroup task_id s;
  group ← deref p;
  assert_that (g_run_count (grp s group) =? 0);;
  Ret (IsWaitQEmpty group s).

(** [TaskGroup::AddEntriesToDisableQ] *)
Definition AddEntriesToDisableQ (g : Z) (s : Sched) : outcome Sched :=
  s ← (if (length (waitq_ (ent s (EGroup g))) =? 0)%nat then Ret s
       else AddToDisableQ g (EGroup g) s);
  foldl (λ r i,
    s ← r;
    match entries s !! EInst g i with
    | None => Ret s
    | Some E => if (length (waitq_ E) =? 0)%nat then Ret s else AddToDisableQ g (EInst g i) s
    end) (Ret s) (seqZ 0 (entry_db_size (grp s g))).

(** [TaskScheduler::DisableTaskGroup], [EnableTaskGroup], [DisableTaskEntry],
    [EnableTaskEntry] *)
Definition DisableTaskGroup (task_id : Z) (s : Sched) : outcome Sched :=
  s ← GetTaskGroup task_id s;
  if g_disable (grp s task_id) then Ret s
  else AddEntriesToDisableQ task_id (upd_grp task_id (set_g_disable true) s).
Definition EnableTaskGroup (task_id : Z) (s : Sched) : outcome Sched :=
  s ← GetTaskGroup task_id s;
  RunDeferQForGroupEnable (EDisable task_id) (upd_grp task_id (set_g_disable false) s).
Definition DisableTaskEntry (task_id instance_id : Z) (s : Sched) : outcome Sched :=
  '(entry, s) ← GetTaskEntry task_id instance_id s;
  Ret (upd_ent entry (set_e_disable true) s).
Definition EnableTaskEntry (task_id instance_id : Z) (s : Sched) : outcome Sched :=
  '(entry, s) ← GetTaskEntry task_id instance_id s;
  let s := upd_ent entry (set_e_disable false) s in
  s ← GetTaskGroup task_id s;
  if g_disable (grp s task_id) then Ret s
  else if (length (waitq_ (ent s entry)) =? 0)%nat then Ret s
  else RunDeferEntry entry s.

(** ** Executions *)

(** One atomic step of the system: a call of a public operation by any thread,
    or a transition of the thread pool.  The guards are what the callers
    guarantee: a task object is enqueued once, [SetPolicy] is called before
    tasks run, the 64-bit sequence counter does not wrap, and [EnableTaskEntry]
    is not called for an entry that waits because the scheduler is stopped (see
    [enable_while_stopped_aborts] in TaskThms.v).  The four functions that
    disable and enable take no lock: a step assumes that no other operation
    overlaps the call. *)
Definition quiet (s : Sched) : Prop := ∀ t, state_ (tsk s t) ≠ RUN.
Definition seqno_ok (s : Sched) : Prop := sched_seqno s + 1 < 2 ^ 64.

Inductive label :=
| LNew (t : nat) (id inst : Z) | LPolicy (id : Z) (p : list TaskExclusion)
| LEnqueue (t : nat) | LCancel (t : nat) (r : CancelReturnCode)
| LEnter (t : nat) | LLeave (t : nat) (c : bool) | LExit (t : nat)
| LStop | LStart
| LDisableGroup (id : Z) | LEnableGroup (id : Z)
| LDisableEntry (id inst : Z) | LEnableEntry (id inst : Z).

Inductive step : Sched → label → outcome Sched → Prop :=
| step_new s t id inst :
    tasks s !! t = None → 0 ≤ id → -1 ≤ inst →
    step s (LNew t id inst) (Ret (put_tsk t (new_task id inst) s))
| step_policy s id p :
    quiet s → 0 ≤ id → policy_set_ (grp s id) = false →
    Forall (λ x, 0 ≤ match_id x ∧ -1 ≤ match_instance x) p →
    step s (LPolicy id p) (SetPolicy id p s)
| step_enqueue s t :
    is_Some (tasks s !! t) → state_ (tsk s t) = INIT → seqno_ok s →
    step s (LEnqueue t) (EnqueueUnLocked t s)
| step_cancel s t r s' :
    is_Some (tasks s !! t) → Cancel t s = Ret (r, s') → step s (LCancel t r) (Ret s')
| step_cancel_abort s t r :
    is_Some (tasks s !! t) → Cancel t s = Abort → step s (LCancel t r) Abort
| step_enter s t :
    state_ (tsk s t) = RUN → tbb_state_ (tsk s t) = TBB_ENQUEUED →
    step s (LEnter t) (Ret (execute_enter t s))
| step_leave s t c :
    state_ (tsk s t) = RUN → tbb_state_ (tsk s t) = TBB_EXEC →
    step s (LLeave t c) (Ret (execute_leave t c s))
| step_exit s t :
    state_ (tsk s t) = RUN → tbb_state_ (tsk s t) = TBB_EXEC → seqno_ok s →
    step s (LExit t) (OnTaskExit t s)
| step_stop s : step s LStop (Ret (Stop s))
| step_start s : step s LStart (Start s)
| step_disable_group s id : 0 ≤ id → step s (LDisableGroup id) (DisableTaskGroup id s)
| step_enable_group s id : 0 ≤ id → step s (LEnableGroup id) (EnableTaskGroup id s)
| step_disable_entry s id inst :
    0 ≤ id → -1 ≤ inst → step s (LDisableEntry id inst) (DisableTaskEntry id inst s)
| step_enable_entry s id inst :
    0 ≤ id → -1 ≤ inst →
    deferq_task_entry_ (ent s (entry_of (new_task id inst))) ≠ Some EStop →
    step s (LEnableEntry id inst) (EnableTaskEntry id inst s).

Inductive reachable : Sched → Prop :=
| reach_init : reachable new_TaskScheduler
| reach_step s l s' : reachable s → step s l (Ret s') → reachable s'.

End DeferQ.
