(* ===== verification/TaskInv.v ===== *)
(** * The invariant of the task scheduler

    The scheduler's state invariant, in five parts that depend on different
    members ([TaskOk], [CountOk], [PolicyOk], [AllocOk], [DeferOk]), and the
    proof that each member function keeps it.  The operations of [Task] are
    described by what they do to a few observations ([wq], [dq], [ptr], ...),
    so that each part of the invariant is carried over by the observations it
    depends on. *)

From stdpp Require Import gmap sorting.
From Stdlib Require Import Sorted.
From S2P Require Import Prelude Task.
Open Scope Z_scope.

(** ** Observations *)

Definition wq (s : Sched) (e : EntryRef) : list nat := waitq_ (ent s e).
Definition erc (s : Sched) (e : EntryRef) : Z := e_run_count (ent s e).
Definition grc (s : Sched) (g : Z) : Z := g_run_count (grp s g).
Definition rtask (s : Sched) (e : EntryRef) : option nat := run_task_ (ent s e).
Definition pol (s : Sched) (g : Z) : list Z := policy_ (grp s g).
Definition epol (s : Sched) (e : EntryRef) : list EntryRef := policyq_ (ent s e).
Definition pE (s : Sched) (e : EntryRef) : option EntryRef := deferq_task_entry_ (ent s e).
Definition pG (s : Sched) (e : EntryRef) : option Z := deferq_task_group_ (ent s e).

(** The deferral queue an entry is in. *)
Definition ptr (s : Sched) (e : EntryRef) : option Owner :=
  match pG s e, pE s e with
  | Some g, _ => Some (OG g)
  | None, Some f => Some (OE f)
  | None, None => None
  end.

Definition id_of (e : EntryRef) : Z :=
  match e with EGroup g | EInst g _ | EDisable g => g | EStop => -1 end.
Definition inst_of (e : EntryRef) : Z := match e with EInst _ i => i | _ => -1 end.

(** A task between [RunTask] and its exit. *)
Definition is_run (T : Task) : Prop := state_ T = RUN ∧ tbb_state_ T ≠ TBB_DONE.
#[export] Instance TbbState_eq_dec : EqDecision TbbState.
Proof. solve_decision. Defined.
#[export] Instance Owner_eq_dec : EqDecision Owner.
Proof. solve_decision. Defined.
#[export] Instance is_run_dec T : Decision (is_run T).
Proof. apply _. Defined.

Definition count (P : Task → Prop) `{!∀ T, Decision (P T)} (s : Sched) : nat :=
  size (filter (λ p : nat * Task, P p.2) (tasks s)).
Definition nwait (s : Sched) : nat := count (λ T, state_ T = WAIT) s.
Definition nrun_e (s : Sched) (e : EntryRef) : nat := count (λ T, is_run T ∧ entry_of T = e) s.
Definition nrun_g (s : Sched) (g : Z) : nat := count (λ T, is_run T ∧ task_id_ T = g) s.

(** The owner of a queue will run the queue again. *)
Definition active (s : Sched) (o : Owner) : Prop :=
  match o with
  | OE f => erc s f ≠ 0 ∨ (f = EStop ∧ running_ s = false) ∨
      (∃ g, f = EDisable g ∧ g_disable (grp s g) = true)
  | OG g => grc s g ≠ 0
  end.

(** The reason why [e] may wait on [o]: its policy, a stopped scheduler or the
    disabling of its group. *)
Definition blocks (s : Sched) (o : Owner) (e : EntryRef) : Prop :=
  match o with
  | OG h => h ∈ pol s (id_of e)
  | OE EStop => True
  | OE (EDisable g) => g = id_of e
  | OE f => f ∈ epol s e
  end.

(** The entry is disabled and its group is not: its tasks wait in no deferral
    queue. *)
Definition parked (s : Sched) (e : EntryRef) : Prop :=
  e_disable (ent s e) = true ∧ g_disable (grp s (id_of e)) = false.

(** ** The invariant *)

Record TaskOk (s : Sched) : Prop := {
  t_wait e t : t ∈ wq s e ↔ state_ (tsk s t) = WAIT ∧ entry_of (tsk s t) = e;
  t_sorted e : StronglySorted (λ a b, seqno_ (tsk s a) < seqno_ (tsk s b)) (wq s e);
  t_seqno t : state_ (tsk s t) ≠ INIT → 0 < seqno_ (tsk s t) ≤ sched_seqno s;
  t_impl t : state_ (tsk s t) ≠ RUN → task_impl_ (tsk s t) = false;
  t_uniq a b : state_ (tsk s a) = WAIT → state_ (tsk s b) = WAIT →
    seqno_ (tsk s a) = seqno_ (tsk s b) → a = b;
  t_range : 0 ≤ sched_seqno s < 2 ^ 64;
}.

Record CountOk (s : Sched) : Prop := {
  c_erc e : erc s e = Z.of_nat (nrun_e s e);
  c_grc g : grc s g = Z.of_nat (nrun_g s g);
  c_inst e : inst_of e ≠ -1 → erc s e ≤ 1;
  c_rtask e t : inst_of e ≠ -1 →
    rtask s e = Some t ↔ is_run (tsk s t) ∧ entry_of (tsk s t) = e;
}.

Record PolicyOk (s : Sched) : Prop := {
  p_gsym g h : h ∈ pol s g → g ∈ pol s h;
  p_esym e f : f ∈ epol s e → e ∈ epol s f;
  p_gmutex g h : g ≠ h → h ∈ pol s g → grc s g = 0 ∨ grc s h = 0;
  p_emutex e f : e ≠ f → f ∈ epol s e → erc s e = 0 ∨ erc s f = 0;
}.

Record AllocOk (s : Sched) : Prop := {
  a_group g : is_Some (groups s !! g) → 0 ≤ g < group_db_size s;
  a_gentry g : is_Some (groups s !! g) ↔ is_Some (entries s !! EGroup g);
  a_dentry g : is_Some (groups s !! g) ↔ is_Some (entries s !! EDisable g);
  a_inst g i : is_Some (entries s !! EInst g i) →
    0 ≤ i < entry_db_size (grp s g) ∧ is_Some (groups s !! g);
  a_fields e : is_Some (entries s !! e) →
    e_task_id (ent s e) = id_of e ∧ e_task_instance (ent s e) = inst_of e;
  a_self e : is_Some (entries s !! e) → inst_of e ≠ -1 → e ∈ epol s e;
  a_task t : state_ (tsk s t) ≠ INIT → is_Some (entries s !! entry_of (tsk s t));
  a_ids t T : tasks s !! t = Some T → 0 ≤ task_id_ T ∧ -1 ≤ task_instance_ T;
  a_db : 0 ≤ group_db_size s;
  a_stop : is_Some (entries s !! EStop);
}.

(** [hand] is an entry taken out of its queue and not yet put back; [X o e]
    tells that [e] may be in the queue of [o] although [o] has become idle. *)
Record DeferOk (hand : option EntryRef) (X : Owner → EntryRef → Prop) (s : Sched) : Prop := {
  d_ptr o e : e ∈ dq s o ↔ ptr s e = Some o;
  d_ok e : pG s e = None ∨ pE s e = None;
  d_wait e : is_Some (ptr s e) → wq s e ≠ [];
  d_hand e : wq s e ≠ [] → is_Some (ptr s e) ∨ hand = Some e ∨ parked s e;
  d_handptr e : hand = Some e → ptr s e = None;
  d_sorted o : StronglySorted (λ a b, TaskDeferEntryCmp s a b = true) (dq s o);
  d_active o e : e ∈ dq s o → active s o ∨ X o e;
  d_block o e : e ∈ dq s o → blocks s o e;
}.

Record Inv (hand : option EntryRef) (X : Owner → EntryRef → Prop) (s : Sched) : Prop := {
  i_task : TaskOk s;
  i_count : CountOk s;
  i_policy : PolicyOk s;
  i_alloc : AllocOk s;
  i_defer : DeferOk hand X s;
}.

Definition none_exempt : Owner → EntryRef → Prop := λ _ _, False.

(** A task that is not enqueued has no sequence number. *)
Definition InitOk (s : Sched) : Prop :=
  ∀ t, state_ (tsk s t) = INIT → seqno_ (tsk s t) = 0.

(** A running task has not exited (its exit is not in progress). *)
Definition NoneDone (s : Sched) : Prop := ∀ t, tbb_state_ (tsk s t) ≠ TBB_DONE.

(** The invariant between two operations. *)
Definition SchedOk (s : Sched) : Prop := Inv None none_exempt s ∧ InitOk s ∧ NoneDone s.

(** ** Reading an updated state *)

Lemma ent_put_ent e E s x : ent (put_ent e E s) x = if decide (x = e) then E else ent s x.
Proof.
  unfold ent, put_ent; simpl. case_decide; subst; [by rewrite lookup_insert_eq|].
  by rewrite lookup_insert_ne.
Qed.
Lemma grp_put_grp g G s x : grp (put_grp g G s) x = if decide (x = g) then G else grp s x.
Proof.
  unfold grp, put_grp; simpl. case_decide; subst; [by rewrite lookup_insert_eq|].
  by rewrite lookup_insert_ne.
Qed.
Lemma tsk_put_tsk t T s x : tsk (put_tsk t T s) x = if decide (x = t) then T else tsk s x.
Proof.
  unfold tsk, put_tsk, put_tasks; simpl. case_decide; subst; [by rewrite lookup_insert_eq|].
  by rewrite lookup_insert_ne.
Qed.
Lemma tsk_delete_tsk t s x :
  tsk (delete_tsk t s) x = if decide (x = t) then new_task (-1) (-1) else tsk s x.
Proof.
  unfold tsk, delete_tsk, put_tasks; simpl. case_decide; subst; [by rewrite lookup_delete_eq|].
  by rewrite lookup_delete_ne.
Qed.
Lemma ent_put_grp g G s x : ent (put_grp g G s) x = ent s x. Proof. done. Qed.
Lemma ent_put_tasks m s x : ent (put_tasks m s) x = ent s x. Proof. done. Qed.
Lemma ent_put_tsk t T s x : ent (put_tsk t T s) x = ent s x. Proof. done. Qed.
Lemma grp_put_tsk t T s x : grp (put_tsk t T s) x = grp s x. Proof. done. Qed.
Lemma ent_delete_tsk t s x : ent (delete_tsk t s) x = ent s x. Proof. done. Qed.
Lemma grp_delete_tsk t s x : grp (delete_tsk t s) x = grp s x. Proof. done. Qed.
Lemma grp_put_ent e E s x : grp (put_ent e E s) x = grp s x. Proof. done. Qed.
Lemma grp_put_tasks m s x : grp (put_tasks m s) x = grp s x. Proof. done. Qed.
Lemma tsk_put_ent e E s x : tsk (put_ent e E s) x = tsk s x. Proof. done. Qed.
Lemma tsk_put_grp g G s x : tsk (put_grp g G s) x = tsk s x. Proof. done. Qed.
Lemma ent_set_running b s x : ent (set_running b s) x = ent s x. Proof. done. Qed.
Lemma ent_set_sched_seqno n s x : ent (set_sched_seqno n s) x = ent s x. Proof. done. Qed.
Lemma ent_set_group_db_size n s x : ent (set_group_db_size n s) x = ent s x. Proof. done. Qed.
Lemma ent_set_counts a b c s x : ent (set_counts a b c s) x = ent s x. Proof. done. Qed.
Lemma grp_set_running b s x : grp (set_running b s) x = grp s x. Proof. done. Qed.
Lemma grp_set_sched_seqno n s x : grp (set_sched_seqno n s) x = grp s x. Proof. done. Qed.
Lemma grp_set_group_db_size n s x : grp (set_group_db_size n s) x = grp s x. Proof. done. Qed.
Lemma grp_set_counts a b c s x : grp (set_counts a b c s) x = grp s x. Proof. done. Qed.
Lemma tsk_set_running b s x : tsk (set_running b s) x = tsk s x. Proof. done. Qed.
Lemma tsk_set_sched_seqno n s x : tsk (set_sched_seqno n s) x = tsk s x. Proof. done. Qed.
Lemma tsk_set_group_db_size n s x : tsk (set_group_db_size n s) x = tsk s x. Proof. done. Qed.
Lemma tsk_set_counts a b c s x : tsk (set_counts a b c s) x = tsk s x. Proof. done. Qed.

Create Rewrite HintDb sched.
#[export] Hint Rewrite ent_put_ent grp_put_grp tsk_put_tsk tsk_delete_tsk ent_put_grp
  ent_put_tasks grp_put_ent grp_put_tasks tsk_put_ent tsk_put_grp ent_set_running
  ent_set_sched_seqno ent_set_group_db_size ent_set_counts grp_set_running
  grp_set_sched_seqno grp_set_group_db_size grp_set_counts tsk_set_running
  tsk_set_sched_seqno tsk_set_group_db_size tsk_set_counts ent_put_tsk grp_put_tsk
  ent_delete_tsk grp_delete_tsk : sched.

(** [acc] evaluates observations of updated states. *)
Ltac acc_unfold := unfold ptr, wq, erc, grc, rtask, pol, epol, pE, pG, dq, upd_ent, upd_grp, upd_tsk in *.
Ltac goal_decide := match goal with |- context [decide ?P] => destruct (decide P) end.
Ltac acc :=
  acc_unfold; autorewrite with sched; repeat (goal_decide; subst; simpl); try done.

(** ** Observations that two states share *)

Record sameT (s s' : Sched) : Prop := {
  sT_tasks : tasks s' = tasks s;
  sT_running : running_ s' = running_ s;
  sT_seqno : sched_seqno s' = sched_seqno s;
}.
Record sameR (s s' : Sched) : Prop := {
  sR_erc e : erc s' e = erc s e;
  sR_grc g : grc s' g = grc s g;
  sR_rtask e : rtask s' e = rtask s e;
}.
Record sameP (s s' : Sched) : Prop := {
  sP_pol g : pol s' g = pol s g;
  sP_epol e : epol s' e = epol s e;
}.
Record sameA (s s' : Sched) : Prop := {
  sA_size : group_db_size s' = group_db_size s;
  sA_groups g : is_Some (groups s' !! g) ↔ is_Some (groups s !! g);
  sA_entries e : is_Some (entries s' !! e) ↔ is_Some (entries s !! e);
  sA_id e : e_task_id (ent s' e) = e_task_id (ent s e);
  sA_inst e : e_task_instance (ent s' e) = e_task_instance (ent s e);
  sA_esize g : entry_db_size (grp s' g) = entry_db_size (grp s g);
  sA_gdis g : g_disable (grp s' g) = g_disable (grp s g);
  sA_edis e : e_disable (ent s' e) = e_disable (ent s e);
}.
Record sameD (s s' : Sched) : Prop := {
  sD_dq o : dq s' o = dq s o;
  sD_pE e : pE s' e = pE s e;
  sD_pG e : pG s' e = pG s e;
}.
Definition sameW (s s' : Sched) : Prop := ∀ e, wq s' e = wq s e.
Record sameF (s s' : Sched) : Prop := {
  sF_g g : g_disable (grp s' g) = g_disable (grp s g);
  sF_e e : e_disable (ent s' e) = e_disable (ent s e);
}.

Lemma sameT_tsk s s' t : sameT s s' → tsk s' t = tsk s t.
Proof. intros [E _ _]. unfold tsk. by rewrite E. Qed.
Lemma sameD_ptr s s' e : sameD s s' → ptr s' e = ptr s e.
Proof. intros [_ E G]. unfold ptr. by rewrite E, G. Qed.

Lemma TaskOk_same s s' : sameT s s' → sameW s s' → TaskOk s → TaskOk s'.
Proof.
  intros HT HW [H1 H2 H3 H4 H5 H6]. pose proof (λ t, sameT_tsk s s' t HT) as Ht.
  destruct HT as [_ _ Hs].
  split; intros; rewrite ?HW, ?Ht, ?Hs in *; eauto.
  eapply ssorted_impl_in, H2. intros a b _ _. by rewrite !Ht.
Qed.

Lemma CountOk_same s s' : sameT s s' → sameR s s' → CountOk s → CountOk s'.
Proof.
  intros HT [R1 R2 R3] [H1 H2 H3 H4]. pose proof (λ t, sameT_tsk s s' t HT) as Ht.
  destruct HT as [HT _ _].
  split; intros; rewrite ?R1, ?R2, ?R3, ?Ht; eauto.
  - unfold nrun_e, count. rewrite HT. apply H1.
  - unfold nrun_g, count. rewrite HT. apply H2.
Qed.

Lemma PolicyOk_same s s' : sameR s s' → sameP s s' → PolicyOk s → PolicyOk s'.
Proof.
  intros [R1 R2 _] [P1 P2] [H1 H2 H3 H4].
  split; intros *; rewrite ?R1, ?R2, ?P1, ?P2; eauto.
Qed.

Lemma AllocOk_same s s' : sameT s s' → sameP s s' → sameA s s' → AllocOk s → AllocOk s'.
Proof.
  intros HT [_ P2] [A1 A2 A3 A4 A5 A6 A7 A8] [H1 H2 H3 H4 H5 H6 H7 H8 H9 H10].
  pose proof (λ t, sameT_tsk s s' t HT) as Ht. destruct HT as [HT _ _].
  split; intros *; rewrite ?A1, ?A2, ?A3, ?A4, ?A5, ?A6, ?A7, ?A8, ?P2, ?Ht, ?HT; eauto.
Qed.

(** The position of an entry depends on its first waiting task only. *)
Lemma key_ext s s' x :
  (∀ t, seqno_ (tsk s' t) = seqno_ (tsk s t)) → wq s' x = wq s x →
  GetTaskDeferEntrySeqno s' x = GetTaskDeferEntrySeqno s x.
Proof.
  unfold GetTaskDeferEntrySeqno, wq. intros Ht ->. destruct (waitq_ (ent s x)); by rewrite ?Ht.
Qed.

Lemma cmp_key s s' a b :
  GetTaskDeferEntrySeqno s' a = GetTaskDeferEntrySeqno s a →
  GetTaskDeferEntrySeqno s' b = GetTaskDeferEntrySeqno s b →
  TaskDeferEntryCmp s' a b = TaskDeferEntryCmp s a b.
Proof. unfold TaskDeferEntryCmp. by intros -> ->. Qed.

Lemma cmp_ext s s' a b :
  (∀ t, seqno_ (tsk s' t) = seqno_ (tsk s t)) → wq s' a = wq s a → wq s' b = wq s b →
  TaskDeferEntryCmp s' a b = TaskDeferEntryCmp s a b.
Proof. intros. by apply cmp_key; apply key_ext. Qed.

(** The position of an entry in a deferral queue is its key; keys are ordered. *)
Lemma cmp_order s : strict_weak_order (TaskDeferEntryCmp s).
Proof.
  unfold TaskDeferEntryCmp. split_and!.
  - intros a. destruct (GetTaskDeferEntrySeqno s a); [apply Z.ltb_irrefl|done].
  - intros a b c. destruct (GetTaskDeferEntrySeqno s a), (GetTaskDeferEntrySeqno s b),
      (GetTaskDeferEntrySeqno s c); rewrite ?Z.ltb_lt; try done. lia.
  - intros a b c. destruct (GetTaskDeferEntrySeqno s a), (GetTaskDeferEntrySeqno s b),
      (GetTaskDeferEntrySeqno s c); rewrite ?Z.ltb_ge; try done. lia.
Qed.

Lemma cmp_trans s a b c :
  TaskDeferEntryCmp s a b = true → TaskDeferEntryCmp s b c = true → TaskDeferEntryCmp s a c = true.
Proof. apply (cmp_order s). Qed.

Lemma cmp_asym s a b : TaskDeferEntryCmp s a b = true → TaskDeferEntryCmp s b a = true → False.
Proof. intros H1 H2. pose proof (cmp_trans s a b a H1 H2) as H. by rewrite (proj1 (cmp_order s)) in H. Qed.

(** Everything but the deferral queues is the same. *)
Record frame (s s' : Sched) : Prop := {
  f_T : sameT s s';
  f_W : sameW s s';
  f_R : sameR s s';
  f_P : sameP s s';
  f_A : sameA s s';
}.

Lemma Inv_frame h h' X X' s s' : frame s s' → Inv h X s → DeferOk h' X' s' → Inv h' X' s'.
Proof.
  intros [HT HW HR HP HA] [?????] ?. split; [| | | |done].
  - by eapply TaskOk_same.
  - by eapply CountOk_same.
  - by eapply PolicyOk_same.
  - by eapply AllocOk_same.
Qed.

Lemma sameA_F s s' : sameA s s' → sameF s s'.
Proof. intros HA. split; apply HA. Qed.
#[export] Hint Resolve sameA_F : core.
Lemma sameF_parked s s' e : sameF s s' → parked s' e ↔ parked s e.
Proof. intros [F1 F2]. unfold parked. by rewrite F1, F2. Qed.

Lemma active_mono s s' o :
  running_ s' = running_ s → (∀ e, erc s e ≠ 0 → erc s' e ≠ 0) → (∀ g, grc s g ≠ 0 → grc s' g ≠ 0) →
  (∀ g, g_disable (grp s' g) = g_disable (grp s g)) → active s o → active s' o.
Proof.
  intros Hr He Hg Hd. destruct o as [f|g]; simpl; [|apply Hg].
  intros [H|[[-> H]|(g&->&H)]]; [left; by apply He|right; left; by rewrite Hr|].
  right; right. exists g. by rewrite Hd.
Qed.

Lemma active_same s s' o : sameT s s' → sameR s s' → sameF s s' → active s' o ↔ active s o.
Proof.
  intros [_ HT _] [R1 R2 _] [F _].
  split; apply active_mono; intros *; by rewrite ?R1, ?R2, ?F.
Qed.

Lemma blocks_mono s s' o e :
  (∀ g h, h ∈ pol s g → h ∈ pol s' g) → (∀ e f, f ∈ epol s e → f ∈ epol s' e) →
  blocks s o e → blocks s' o e.
Proof. intros H1 H2. destruct o as [[]|]; simpl; auto. Qed.
Lemma blocks_same s s' o e : sameP s s' → blocks s o e → blocks s' o e.
Proof. intros [P1 P2]. apply blocks_mono; intros *; by rewrite ?P1, ?P2. Qed.

Lemma cmp_frame s s' a b :
  sameT s s' → sameW s s' → TaskDeferEntryCmp s' a b = TaskDeferEntryCmp s a b.
Proof. intros HT HW. apply cmp_ext; [|done..]. intros t. by rewrite (sameT_tsk s s'). Qed.

(** ** Existence of the objects that queues refer to *)

Lemma count_pos (P : Task → Prop) `{!∀ T, Decision (P T)} s :
  count P s ≠ 0%nat → ∃ t, is_Some (tasks s !! t) ∧ P (tsk s t).
Proof.
  intros [t [T [Ht HP]%map_lookup_filter_Some]]%map_size_ne_0_lookup_1.
  exists t. unfold tsk. rewrite Ht. eauto.
Qed.

Lemma count_zero (P : Task → Prop) `{!∀ T, Decision (P T)} s t :
  count P s = 0%nat → is_Some (tasks s !! t) → ¬ P (tsk s t).
Proof.
  unfold count, tsk. intros Hn%map_size_empty_inv [T HT] HP. rewrite HT in HP.
  assert (Hf : filter (λ p : nat * Task, P p.2) (tasks s) !! t = Some T)
    by (by apply map_lookup_filter_Some).
  by rewrite Hn in Hf.
Qed.

Lemma task_exists s t : AllocOk s → state_ (tsk s t) ≠ INIT → is_Some (tasks s !! t).
Proof. intros _. unfold tsk. destruct (tasks s !! t); [by eexists|]. by intros []. Qed.

Lemma entry_of_id T : id_of (entry_of T) = task_id_ T.
Proof. unfold entry_of. by destruct (_ =? _). Qed.
Lemma entry_of_inst T : inst_of (entry_of T) = task_instance_ T.
Proof. unfold entry_of. by destruct (Z.eqb_spec (task_instance_ T) (-1)). Qed.

Lemma entry_group s e : AllocOk s → id_of e ≠ -1 → is_Some (entries s !! e) →
  (∀ g, e ≠ EDisable g) → is_Some (groups s !! id_of e).
Proof.
  intros HA Hid He Hd. destruct e as [g|g i|g|]; simpl in *; [| |by destruct (Hd g)|done].
  - by apply a_gentry.
  - by apply (a_inst s HA g i).
Qed.

Lemma task_group s t :
  AllocOk s → state_ (tsk s t) ≠ INIT →
  is_Some (entries s !! entry_of (tsk s t)) ∧ is_Some (groups s !! task_id_ (tsk s t)).
Proof.
  intros HA Ht. pose proof (a_task s HA t Ht) as He. split; [done|].
  rewrite <-entry_of_id. apply entry_group; [done| |done|].
  - rewrite entry_of_id. destruct (task_exists s t HA Ht) as [T HT].
    pose proof (a_ids s HA t T HT). unfold tsk. rewrite HT. simpl. lia.
  - unfold entry_of. intros g. by destruct (_ =? _).
Qed.

Lemma erc_pos s e : CountOk s → erc s e ≠ 0 → ∃ t, is_run (tsk s t) ∧ entry_of (tsk s t) = e.
Proof.
  intros HC. rewrite c_erc by done. intros Hn.
  destruct (count_pos (λ T, is_run T ∧ entry_of T = e) s) as (t&_&?); [|by exists t].
  unfold nrun_e in Hn. lia.
Qed.
Lemma grc_pos s g : CountOk s → grc s g ≠ 0 → ∃ t, is_run (tsk s t) ∧ task_id_ (tsk s t) = g.
Proof.
  intros HC. rewrite c_grc by done. intros Hn.
  destruct (count_pos (λ T, is_run T ∧ task_id_ T = g) s) as (t&_&?); [|by exists t].
  unfold nrun_g in Hn. lia.
Qed.

Definition owner_exists (s : Sched) (o : Owner) : Prop :=
  match o with OE f => is_Some (entries s !! f) | OG g => is_Some (groups s !! g) end.

Lemma active_exists s o : CountOk s → AllocOk s → active s o → owner_exists s o.
Proof.
  intros HC HA. destruct o as [f|g]; simpl.
  - intros [Hn|[[-> _]|(g&->&Hd)]]; [|by apply a_stop|].
    2: { apply (a_dentry s HA). unfold grp in Hd. by destruct (groups s !! g); [eexists|]. }
    destruct (erc_pos s f HC Hn) as (t&[Ht _]&<-). apply a_task; [done|congruence].
  - intros Hn. destruct (grc_pos s g HC Hn) as (t&[Ht _]&<-).
    apply task_group; [done|congruence].
Qed.

Lemma waiting_task s e t : TaskOk s → t ∈ wq s e → state_ (tsk s t) = WAIT ∧ entry_of (tsk s t) = e.
Proof. intros HT. by apply (t_wait s HT). Qed.

Lemma waiting_exists s e : TaskOk s → AllocOk s → wq s e ≠ [] →
  is_Some (entries s !! e) ∧ is_Some (groups s !! id_of e).
Proof.
  intros HT HA. destruct (wq s e) as [|t q] eqn:Hq; [done|intros _].
  destruct (waiting_task s e t HT) as [Ht <-]; [rewrite Hq; set_solver|].
  rewrite entry_of_id. apply task_group; [done|congruence].
Qed.

Lemma wq_nodup s e : TaskOk s → NoDup (wq s e).
Proof. intros HT. eapply ssorted_nodup, (t_sorted s HT e). simpl. intros ??. lia. Qed.

Lemma dq_nodup h X s o : DeferOk h X s → NoDup (dq s o).
Proof.
  intros HD. eapply ssorted_nodup, (d_sorted _ _ s HD o). simpl. intros a.
  by rewrite (proj1 (cmp_order s)).
Qed.

(** Entries with waiting tasks are comparable. *)
Lemma cmp_total s a b :
  TaskOk s → wq s a ≠ [] → wq s b ≠ [] → a ≠ b →
  TaskDeferEntryCmp s a b = true ∨ TaskDeferEntryCmp s b a = true.
Proof.
  intros HT. unfold TaskDeferEntryCmp, GetTaskDeferEntrySeqno.
  fold (wq s a) (wq s b).
  destruct (wq s a) as [|x p] eqn:Ha; [done|]. destruct (wq s b) as [|y q] eqn:Hb; [done|].
  intros _ _ Hab.
  destruct (waiting_task s a x HT) as [Hx <-]; [rewrite Ha; set_solver|].
  destruct (waiting_task s b y HT) as [Hy <-]; [rewrite Hb; set_solver|].
  destruct (Z.lt_trichotomy (seqno_ (tsk s x)) (seqno_ (tsk s y))) as [|[Heq|]];
    rewrite ?Z.ltb_lt; [by left| |by right].
  destruct Hab. by rewrite (t_uniq s HT x y).
Qed.

(** ** Deferral queues *)

(** An entry with a running task, in the policy of [e], is a reason to wait. *)
Lemma blocks_entry s f e : CountOk s → f ∈ epol s e → erc s f ≠ 0 → blocks s (OE f) e.
Proof.
  intros HC Hf Hn. destruct (erc_pos s f HC Hn) as (t&_&<-). unfold entry_of in *.
  by destruct (_ =? _).
Qed.
Lemma blocks_self s e : inst_of e ≠ -1 → e ∈ epol s e → blocks s (OE e) e.
Proof. by destruct e. Qed.

(** What changes when [e] is linked into, or unlinked from, the queue of [o]. *)
Record relink (o : Owner) (e : EntryRef) (l : list EntryRef) (p : option Owner)
    (s s' : Sched) : Prop := {
  l_frame : frame s s';
  l_dq : dq s' o = l;
  l_dq_ne o' : o' ≠ o → dq s' o' = dq s o';
  l_ptr : ptr s' e = p;
  l_ok : pG s' e = None ∨ pE s' e = None;
  l_ne e' : e' ≠ e → pG s' e' = pG s e' ∧ pE s' e' = pE s e';
}.

Lemma relink_ptr_ne o e l p s s' e' : relink o e l p s s' → e' ≠ e → ptr s' e' = ptr s e'.
Proof. intros HL Hne. unfold ptr. destruct (l_ne _ _ _ _ _ _ HL e' Hne) as [-> ->]. done. Qed.

Lemma sameA_upd_ent e f s :
  is_Some (entries s !! e) →
  (∀ E, e_task_id (f E) = e_task_id E ∧ e_task_instance (f E) = e_task_instance E ∧
        e_disable (f E) = e_disable E) →
  sameA s (upd_ent e f s).
Proof.
  intros He Hf. split; intros; acc; try apply Hf.
  simpl. destruct (decide (e = e0)) as [->|]; [rewrite lookup_insert_eq; naive_solver|].
  by rewrite lookup_insert_ne.
Qed.
Lemma sameA_upd_grp g f s :
  is_Some (groups s !! g) →
  (∀ G, entry_db_size (f G) = entry_db_size G ∧ g_disable (f G) = g_disable G) →
  sameA s (upd_grp g f s).
Proof.
  intros Hg Hf. split; intros; acc; try apply Hf.
  simpl. destruct (decide (g = g0)) as [->|]; [rewrite lookup_insert_eq; naive_solver|].
  by rewrite lookup_insert_ne.
Qed.
#[export] Instance sameA_trans : Transitive sameA.
Proof.
  intros s1 s2 s3 [] []. split; intros; etrans; eauto.
Qed.
Lemma entries_upd_ent e f s x :
  is_Some (entries (upd_ent e f s) !! x) ↔ is_Some (entries s !! x) ∨ x = e.
Proof. unfold upd_ent, put_ent; simpl. rewrite lookup_insert_is_Some. destruct (decide (e = x)); naive_solver. Qed.

(** Discharge [sameA] for a chain of member assignments on existing objects. *)
Ltac same_alloc :=
  repeat match goal with
  | |- sameA ?s (upd_ent _ _ ?s) => apply sameA_upd_ent; [done|done]
  | |- sameA ?s (upd_grp _ _ ?s) => apply sameA_upd_grp; [done|done]
  | |- sameA _ (upd_ent _ _ _) => etrans; [|apply sameA_upd_ent; [|done]]
  | |- sameA _ (upd_grp _ _ _) => etrans; [|apply sameA_upd_grp; [|done]]
  end.

(** [relink] for a chain of member assignments. *)
Ltac relink_acc :=
  split;
  [ split; [split; acc | intros ?; acc | split; intros; acc | split; intros; acc | same_alloc]
  | acc | intros [?|?] ?; acc | acc | acc; auto | intros; acc ];
  try (apply entries_upd_ent; by left);
  repeat match goal with H : _ = None |- _ => rewrite H | H : _ = Some _ |- _ => rewrite H end;
  auto.

Section Sched.
Context `{!IntrusiveSet EntryRef}.

Lemma AddToDeferQ_relink o e s :
  ptr s e = None → is_Some (entries s !! e) → owner_exists s o →
  ∃ s', AddToDeferQ o e s = Ret s' ∧
    relink o e (iset_insert (TaskDeferEntryCmp s) e (dq s o)) (Some o) s s'.
Proof.
  intros Hp He Ho. assert (HpG : pG s e = None) by (unfold ptr in Hp; by destruct (pG s e)).
  assert (HpE : pE s e = None) by (unfold ptr in Hp; by destruct (pG s e), (pE s e)).
  assert (Hl : linked s e = false) by (unfold linked; fold (pG s e) (pE s e); by rewrite HpG, HpE).
  destruct o as [f|g]; simpl in *.
  - eexists. unfold EntryAddToDeferQ. rewrite Hl. simpl.
    rewrite assert_that_true by (apply bool_decide_eq_true; acc). simpl. split; [done|].
    relink_acc.
  - eexists. unfold GroupAddToDeferQ. rewrite Hl. simpl.
    rewrite assert_that_true by (apply bool_decide_eq_true; acc). simpl. split; [done|].
    relink_acc.
Qed.

Lemma linked_ptr s e : linked s e = true ↔ is_Some (ptr s e).
Proof.
  unfold linked, ptr. fold (pE s e) (pG s e).
  destruct (pG s e), (pE s e); split; try done; by intros [].
Qed.

(** The hook of an entry in a queue is linked already. *)
Lemma AddToDeferQ_linked o e s : is_Some (ptr s e) → AddToDeferQ o e s = Abort.
Proof.
  intros Hl%linked_ptr. destruct o; simpl; unfold EntryAddToDeferQ, GroupAddToDeferQ; by rewrite Hl.
Qed.

Lemma DeleteFromDeferQ_relink o e s :
  ptr s e = Some o → pG s e = None ∨ pE s e = None →
  is_Some (entries s !! e) → owner_exists s o →
  ∃ s', DeleteFromDeferQ o e s = Ret s' ∧
    relink o e (List.remove EntryRef_eq_dec e (dq s o)) None s s'.
Proof.
  intros Hp Hok He Ho. destruct o as [f|g]; simpl in *.
  - assert (pG s e = None ∧ pE s e = Some f) as [HpG HpE].
    { unfold ptr in Hp. destruct (pG s e), (pE s e); naive_solver. }
    eexists. unfold EntryDeleteFromDeferQ.
    rewrite assert_that_true by (by apply bool_decide_eq_true). simpl. split; [done|].
    relink_acc.
  - assert (pG s e = Some g ∧ pE s e = None) as [HpG HpE].
    { unfold ptr in Hp. destruct (pG s e), (pE s e); naive_solver. }
    eexists. unfold GroupDeleteFromDeferQ.
    rewrite assert_that_true by (by apply bool_decide_eq_true). simpl. split; [done|].
    relink_acc.
Qed.

(** Two entries with waiting tasks can be ordered. *)
Definition ordered (s : Sched) : Prop :=
  ∀ a b, wq s a ≠ [] → wq s b ≠ [] → a ≠ b →
    TaskDeferEntryCmp s a b = true ∨ TaskDeferEntryCmp s b a = true.

Section AddDefer.
Context (X : Owner → EntryRef → Prop) (o : Owner) (e : EntryRef) (s s' : Sched) (l1 l2 : list EntryRef).
Context (HD : DeferOk (Some e) X s) (HL : relink o e (l1 ++ e :: l2) (Some o) s s').
Context (Hq : dq s o = l1 ++ l2).

Lemma add_defer_elem o' x : x ∈ dq s' o' ↔ x ∈ dq s o' ∨ x = e ∧ o' = o.
Proof.
  destruct (decide (o' = o)) as [->|Hne].
  - rewrite (l_dq _ _ _ _ _ _ HL), Hq. set_solver.
  - rewrite (l_dq_ne _ _ _ _ _ _ HL o' Hne). naive_solver.
Qed.

Lemma add_defer_sorted o' :
  Forall (λ y, TaskDeferEntryCmp s y e = true) l1 → Forall (λ y, TaskDeferEntryCmp s e y = true) l2 →
  StronglySorted (λ a b, TaskDeferEntryCmp s' a b = true) (dq s' o').
Proof.
  intros Hl1 Hl2. destruct (l_frame _ _ _ _ _ _ HL) as [FT FW _ _ _].
  eapply (ssorted_impl_in (λ a b, TaskDeferEntryCmp s a b = true)).
  { intros a b _ _. by rewrite (cmp_frame s s'). }
  destruct (decide (o' = o)) as [->|Hne]; [|rewrite (l_dq_ne _ _ _ _ _ _ HL o' Hne); apply HD].
  rewrite (l_dq _ _ _ _ _ _ HL). pose proof (d_sorted _ _ _ HD o) as Hs. rewrite Hq in Hs.
  apply ssorted_app in Hs as (Hs1&Hs2&Hs12). rewrite Forall_forall in Hl1.
  apply ssorted_app. split_and!; [done|by constructor|].
  intros a b Ha' [->|Hb']%elem_of_cons; auto.
Qed.

Lemma add_defer_ok :
  wq s e ≠ [] → active s o ∨ X o e → blocks s o e →
  Forall (λ y, TaskDeferEntryCmp s y e = true) l1 → Forall (λ y, TaskDeferEntryCmp s e y = true) l2 →
  DeferOk None X s'.
Proof.
  intros Hw Ha Hb Hl1 Hl2. destruct (l_frame _ _ _ _ _ _ HL) as [FT FW FR FP FA].
  pose proof (d_handptr _ _ _ HD e eq_refl) as Hp.
  assert (Hne : ∀ x, x ≠ e → ptr s' x = ptr s x) by (intros; by eapply relink_ptr_ne).
  pose proof (l_ptr _ _ _ _ _ _ HL) as Hpe.
  split; [..|done| | |].
  - intros o' x. rewrite add_defer_elem, (d_ptr _ _ _ HD).
    destruct (decide (x = e)) as [->|]; [rewrite Hpe|rewrite Hne by done]; naive_solver.
  - intros x. destruct (decide (x = e)) as [->|Hx]; [by apply HL|].
    destruct (l_ne _ _ _ _ _ _ HL x Hx) as [-> ->]. by apply HD.
  - intros x. rewrite FW. destruct (decide (x = e)) as [->|]; [done|]. rewrite Hne by done. apply HD.
  - intros x. rewrite FW. intros Hx. destruct (decide (x = e)) as [->|]; [left; by rewrite Hpe|].
    rewrite Hne, (sameF_parked s s') by auto.
    destruct (d_hand _ _ _ HD x Hx) as [|[|]]; [by left|congruence|by right; right].
  - intros o'. by apply add_defer_sorted.
  - intros o' x [Hx|[-> ->]]%add_defer_elem; rewrite (active_same s s') by auto; [by apply HD|done].
  - intros o' x [Hx|[-> ->]]%add_defer_elem; (eapply blocks_same; [exact FP|]); [by apply HD|done].
Qed.
End AddDefer.

Lemma AddToDeferQ_defer X o e s :
  DeferOk (Some e) X s → ordered s → is_Some (entries s !! e) → owner_exists s o →
  wq s e ≠ [] → active s o ∨ X o e → blocks s o e →
  ∃ s' l1 l2, AddToDeferQ o e s = Ret s' ∧ DeferOk None X s' ∧ frame s s' ∧
    dq s o = l1 ++ l2 ∧ dq s' o = l1 ++ e :: l2 ∧ (∀ o', o' ≠ o → dq s' o' = dq s o').
Proof.
  intros HD Hord He Ho Hw Ha Hb. pose proof (d_handptr _ _ _ HD e eq_refl) as Hp.
  destruct (AddToDeferQ_relink o e s Hp He Ho) as (s'&Hrun&HL).
  destruct (iset_insert_fresh (TaskDeferEntryCmp s) e (dq s o)) as (l1&l2&Hq&Hins&Hl1&Hl2).
  { apply cmp_order. }
  { by apply HD. }
  { intros y Hy%(d_ptr _ _ _ HD). apply Hord; [done| |congruence]. apply (d_wait _ _ _ HD). by eexists. }
  rewrite Hins in HL. exists s', l1, l2. split_and!; try done; try apply HL.
  by eapply add_defer_ok.
Qed.

Lemma TaskOk_ordered s : TaskOk s → ordered s.
Proof. intros HT a b. by apply cmp_total. Qed.

(** Linking the entry in hand into the queue of an owner that is active or
    exempt. *)
Lemma AddToDeferQ_exempt X o e s :
  Inv (Some e) X s → wq s e ≠ [] → owner_exists s o → active s o ∨ X o e → blocks s o e →
  ∃ s' l1 l2, AddToDeferQ o e s = Ret s' ∧ Inv None X s' ∧ frame s s' ∧
    dq s o = l1 ++ l2 ∧ dq s' o = l1 ++ e :: l2 ∧ (∀ o', o' ≠ o → dq s' o' = dq s o').
Proof.
  intros HI Hw Ho Ha Hb. pose proof HI as [HT HC HP HA HD].
  destruct (AddToDeferQ_defer X o e s) as (s'&l1&l2&?&?&?&?&?&?); try done.
  - by apply TaskOk_ordered.
  - by apply waiting_exists.
  - exists s', l1, l2. split_and!; try done. by eapply Inv_frame.
Qed.

Lemma AddToDeferQ_spec X o e s :
  Inv (Some e) X s → wq s e ≠ [] → active s o → blocks s o e →
  ∃ s' l1 l2, AddToDeferQ o e s = Ret s' ∧ Inv None X s' ∧ frame s s' ∧
    dq s o = l1 ++ l2 ∧ dq s' o = l1 ++ e :: l2 ∧ (∀ o', o' ≠ o → dq s' o' = dq s o').
Proof.
  intros HI Hw Ha Hb. apply AddToDeferQ_exempt; try done; [|by left].
  apply active_exists; [apply HI..|done].
Qed.

Lemma dq_exists s o e : e ∈ dq s o → owner_exists s o.
Proof.
  destruct o as [f|g]; simpl; unfold ent, grp.
  - destruct (entries s !! f); [by eexists|]. set_solver.
  - destruct (groups s !! g); [by eexists|]. set_solver.
Qed.

(** The entry [e] is in no queue in [s'], and its wait queue may have changed. *)
Lemma DeferOk_drop h h' X e s s' :
  DeferOk h X s → (∀ o, dq s' o = List.remove EntryRef_eq_dec e (dq s o)) →
  (∀ x, x ≠ e → pG s' x = pG s x ∧ pE s' x = pE s x ∧ wq s' x = wq s x) →
  pG s' e = None → pE s' e = None → (∀ t, seqno_ (tsk s' t) = seqno_ (tsk s t) ∨ ∀ x, t ∉ wq s' x) →
  (∀ o, active s o → active s' o) → sameP s s' → sameF s s' →
  (∀ x, h = Some x → x = e) → (wq s' e ≠ [] → h' = Some e) → (h' = None ∨ h' = Some e) →
  DeferOk h' X s'.
Proof.
  intros HD Hdq Hne HG HE Hsq Hact HP HF Hh Hw Hh'.
  assert (Hptr : ∀ x, x ≠ e → ptr s' x = ptr s x).
  { intros x Hx. unfold ptr. by destruct (Hne x Hx) as (->&->&_). }
  assert (Hpe : ptr s' e = None) by (unfold ptr; by rewrite HG, HE).
  assert (Hin : ∀ o x, x ∈ dq s' o ↔ x ∈ dq s o ∧ x ≠ e).
  { intros o x. rewrite Hdq. apply elem_of_list_remove. }
  assert (Hkey : ∀ x, x ≠ e → GetTaskDeferEntrySeqno s' x = GetTaskDeferEntrySeqno s x).
  { intros x Hx. destruct (Hne x Hx) as (_&_&Hwx). unfold GetTaskDeferEntrySeqno.
    fold (wq s' x) (wq s x). destruct (wq s' x) as [|t q] eqn:Hq; rewrite <-Hwx; [done|].
    destruct (Hsq t) as [->|Hn]; [done|]. destruct (Hn x). rewrite Hq. set_solver. }
  split.
  - intros o x. rewrite Hin. destruct (decide (x = e)) as [->|Hx].
    + rewrite Hpe. naive_solver.
    + rewrite Hptr, (d_ptr _ _ _ HD) by done. naive_solver.
  - intros x. destruct (decide (x = e)) as [->|Hx]; [by left|].
    destruct (Hne x Hx) as (->&->&_). apply HD.
  - intros x. destruct (decide (x = e)) as [->|Hx]; [rewrite Hpe; by intros []|].
    destruct (Hne x Hx) as (_&_&->). rewrite Hptr by done. apply HD.
  - intros x. destruct (decide (x = e)) as [->|Hx]; [by right; left; auto|].
    destruct (Hne x Hx) as (_&_&->). rewrite Hptr, (sameF_parked s s') by done. intros Hx'.
    destruct (d_hand _ _ _ HD x Hx') as [|[Hx''|]]; [by left| |by right; right].
    by destruct Hx; apply Hh.
  - intros x Hx. destruct Hh'; congruence.
  - intros o. rewrite Hdq. eapply ssorted_impl_in, ssorted_remove, (d_sorted _ _ _ HD o).
    intros a b [_ Ha]%elem_of_list_remove [_ Hb]%elem_of_list_remove.
    rewrite (cmp_key s s'); auto.
  - intros o x [Hx _]%Hin. destruct (d_active _ _ _ HD o x Hx); [left|right]; auto.
  - intros o x [Hx _]%Hin. eapply blocks_same; [done|]. by apply HD.
Qed.

(** An entry in hand that is parked needs no queue; an entry with waiting tasks
    that is in no queue can be taken in hand. *)
Lemma DeferOk_release X e s : DeferOk (Some e) X s → parked s e → DeferOk None X s.
Proof.
  intros HD Hp. split; try apply HD; [|done]. intros x Hx.
  destruct (d_hand _ _ _ HD x Hx) as [|[[= <-]|]]; [by left|by right; right..].
Qed.
Lemma Inv_release X e s : Inv (Some e) X s → parked s e → Inv None X s.
Proof. intros [HT HC HP HA HD] Hp. split; [done..|]. by eapply DeferOk_release. Qed.
Lemma Inv_take X e s : Inv None X s → ptr s e = None → Inv (Some e) X s.
Proof.
  intros [HT HC HP HA HD] Hp. split; [done..|]. split; try apply HD.
  - intros x Hx. destruct (d_hand _ _ _ HD x Hx) as [|[|]]; [by left|done|by right; right].
  - by intros x [= <-].
Qed.

(** Taking an entry out of the queue it is in. *)
Lemma DeleteFromDeferQ_spec X o e s :
  Inv None X s → e ∈ dq s o →
  ∃ s', DeleteFromDeferQ o e s = Ret s' ∧ Inv (Some e) X s' ∧ frame s s' ∧
    dq s' o = List.remove EntryRef_eq_dec e (dq s o) ∧ (∀ o', o' ≠ o → dq s' o' = dq s o').
Proof.
  intros HI Hin. pose proof HI as [HT HC HP HA HD].
  pose proof (proj1 (d_ptr _ _ _ HD o e) Hin) as Hp.
  assert (Hw : wq s e ≠ []) by (apply HD; by eexists).
  destruct (waiting_exists s e HT HA Hw) as [He _].
  destruct (DeleteFromDeferQ_relink o e s Hp (d_ok _ _ _ HD e) He (dq_exists s o e Hin))
    as (s'&Hrun&HL).
  exists s'. pose proof (l_frame _ _ _ _ _ _ HL) as HF. split; [done|].
  split; [|split_and!; [done|apply HL..]]. eapply Inv_frame; [done..|].
  destruct HF as [FT FW FR FP FA].
  assert (Hnone : pG s' e = None ∧ pE s' e = None).
  { pose proof (l_ptr _ _ _ _ _ _ HL) as Hpe. unfold ptr in Hpe. by destruct (pG s' e), (pE s' e). }
  apply (DeferOk_drop None (Some e) X e s); try done; try apply Hnone.
  - intros o'. destruct (decide (o' = o)) as [->|Hne]; [apply HL|].
    rewrite (l_dq_ne _ _ _ _ _ _ HL o' Hne), list_remove_fresh; [done|].
    rewrite (d_ptr _ _ _ HD). congruence.
  - intros x Hx. rewrite FW. by destruct (l_ne _ _ _ _ _ _ HL x Hx) as [-> ->].
  - intros t. left. by rewrite (sameT_tsk s s').
  - intros o'. by apply active_same; auto.
  - by apply sameA_F.
  - by right.
Qed.

Lemma Inv_exempt h X X' s :
  (∀ o e, e ∈ dq s o → X o e → active s o ∨ X' o e) → Inv h X s → Inv h X' s.
Proof.
  intros HX [????[]]. split; [done..|]. split; [done..| |done].
  intros o e He. destruct (d_active0 o e He); naive_solver.
Qed.

(** ** Starting a task *)

Definition b2n (P : Prop) `{!Decision P} : nat := if decide P then 1 else 0.

Lemma count_insert (P : Task → Prop) `{!∀ T, Decision (P T)} s s' t T :
  tasks s' = <[t := T]> (tasks s) → is_Some (tasks s !! t) →
  (count P s' + b2n (P (tsk s t)) = count P s + b2n (P T))%nat.
Proof.
  intros Hs [T0 HT0]. unfold count, b2n, tsk. rewrite Hs, HT0. simpl.
  pose proof (map_filter_delete (λ p : nat * Task, P p.2) (tasks s) t) as Hdel.
  assert (Hsz : ∀ U, size (filter (λ p : nat * Task, P p.2) (<[t := U]> (delete t (tasks s)))) =
    (size (filter (λ p : nat * Task, P p.2) (delete t (tasks s))) + if decide (P U) then 1 else 0)%nat).
  { intros U. rewrite map_filter_insert. simpl. case_decide.
    - rewrite map_size_insert_None; [lia|]. apply map_lookup_filter_None. left.
      by rewrite lookup_delete_eq.
    - rewrite delete_delete_eq. lia. }
  pose proof (Hsz T0) as H0. rewrite insert_delete_eq, insert_id in H0 by done.
  pose proof (Hsz T) as H1. rewrite insert_delete_eq in H1. lia.
Qed.

Definition started_task (T : Task) : Task :=
  set_task_impl true (set_tbb_state TBB_ENQUEUED (set_state RUN T)).

Record started (e : EntryRef) (t : nat) (s s' : Sched) : Prop := {
  st_tasks : tasks s' = <[t := started_task (tsk s t)]> (tasks s);
  st_running : running_ s' = running_ s;
  st_seqno : sched_seqno s' = sched_seqno s;
  st_wq x : wq s' x = List.remove eq_nat_dec t (wq s x);
  st_erc x : erc s' x = erc s x + (if decide (x = e) then 1 else 0);
  st_grc g : grc s' g = grc s g + (if decide (g = id_of e) then 1 else 0);
  st_rtask x : rtask s' x = if decide (x = e ∧ inst_of e ≠ -1) then Some t else rtask s x;
  st_P : sameP s s';
  st_A : sameA s s';
  st_D : sameD s s';
}.

Lemma started_tsk e t s s' x :
  started e t s s' → tsk s' x = if decide (x = t) then started_task (tsk s t) else tsk s x.
Proof.
  intros Hst. unfold tsk at 1. rewrite (st_tasks _ _ _ _ Hst).
  case_decide; subst; [by rewrite lookup_insert_eq|by rewrite lookup_insert_ne].
Qed.

(** No other member of a policy of [e] runs. *)
Record runnable (s : Sched) (e : EntryRef) : Prop := {
  r_group h : h ∈ pol s (id_of e) → h ≠ id_of e → grc s h = 0;
  r_entry f : f ∈ epol s e → f ≠ e → erc s f = 0;
  r_inst : inst_of e ≠ -1 → erc s e = 0;
}.

Lemma rtask_none s e : CountOk s → inst_of e ≠ -1 → erc s e = 0 → rtask s e = None.
Proof.
  intros HC Hi He. destruct (rtask s e) as [t|] eqn:Ht; [|done].
  apply (c_rtask s HC e t Hi) in Ht. rewrite (c_erc s HC e) in He.
  destruct (count_zero (λ T, is_run T ∧ entry_of T = e) s t); [unfold nrun_e in He; lia| |done].
  destruct Ht as [[Ht _] _]. unfold tsk in Ht. by destruct (tasks s !! t).
Qed.

Section Started.
Context (h : option EntryRef) (X : Owner → EntryRef → Prop) (e : EntryRef) (t : nat) (s s' : Sched).
Context (HI : Inv h X s) (Hst : started e t s s').
Context (Hex : is_Some (tasks s !! t)) (Hnr : state_ (tsk s t) ≠ RUN).
Context (He : entry_of (tsk s t) = e) (Hee : is_Some (entries s !! e)) (Hp : ptr s e = None).
Context (Hseq : 0 < seqno_ (tsk s t) ≤ sched_seqno s) (Hrun : runnable s e).
Context (Hothers : ∀ x, h = Some x → x = e).

Lemma started_TaskOk : TaskOk s'.
Proof.
  pose proof (i_task _ _ _ HI) as HT. pose proof (λ x, started_tsk e t s s' x Hst) as Ht.
  assert (Hsq : ∀ x, seqno_ (tsk s' x) = seqno_ (tsk s x)).
  { intros x. rewrite Ht. by case_decide; subst. }
  split.
  - intros x y. rewrite (st_wq _ _ _ _ Hst), elem_of_list_remove, (t_wait s HT), Ht.
    case_decide; subst; naive_solver.
  - intros x. rewrite (st_wq _ _ _ _ Hst). apply ssorted_remove.
    eapply ssorted_impl_in, (t_sorted s HT x). intros a b _ _. by rewrite !Hsq.
  - intros x. rewrite Hsq, (st_seqno _ _ _ _ Hst), Ht. case_decide; subst; [done|]. by apply HT.
  - intros x. rewrite Ht. case_decide; [done|]. by apply HT.
  - intros a b. rewrite !Hsq, !Ht. do 2 case_decide; subst; try done. by apply HT.
  - rewrite (st_seqno _ _ _ _ Hst). by apply HT.
Qed.

Lemma started_CountOk : CountOk s'.
Proof.
  pose proof (i_count _ _ _ HI) as HC. pose proof (λ x, started_tsk e t s s' x Hst) as Ht.
  assert (Hr : is_run (started_task (tsk s t))) by (split; done).
  assert (Hn : ¬ is_run (tsk s t)) by (unfold is_run; naive_solver).
  split.
  - intros x. rewrite (st_erc _ _ _ _ Hst), (c_erc s HC x). unfold nrun_e.
    pose proof (count_insert (λ T, is_run T ∧ entry_of T = x) s s' t _ (st_tasks _ _ _ _ Hst) Hex) as Hc.
    unfold b2n in Hc. change (entry_of (started_task (tsk s t))) with (entry_of (tsk s t)) in Hc.
    rewrite He in Hc. rewrite (decide_False (P := is_run (tsk s t) ∧ _)) in Hc by (by intros []).
    destruct (decide (x = e)) as [->|Hx].
    + rewrite decide_True in Hc by done. lia.
    + rewrite decide_False in Hc by (intros []; congruence). lia.
  - intros g. rewrite (st_grc _ _ _ _ Hst), (c_grc s HC g). unfold nrun_g.
    pose proof (count_insert (λ T, is_run T ∧ task_id_ T = g) s s' t _ (st_tasks _ _ _ _ Hst) Hex) as Hc.
    unfold b2n in Hc. change (task_id_ (started_task (tsk s t))) with (task_id_ (tsk s t)) in Hc.
    rewrite <-entry_of_id, He in Hc.
    rewrite (decide_False (P := is_run (tsk s t) ∧ _)) in Hc by (by intros []).
    destruct (decide (g = id_of e)) as [->|Hx].
    + rewrite decide_True in Hc by done. lia.
    + rewrite decide_False in Hc by (intros []; congruence). lia.
  - intros x Hx. rewrite (st_erc _ _ _ _ Hst). case_decide as Hd.
    + subst x. rewrite (r_inst s e Hrun Hx). lia.
    + pose proof (c_inst s HC x Hx). lia.
  - intros x y Hx. rewrite (st_rtask _ _ _ _ Hst), Ht. destruct (decide (x = e)) as [->|Hxe].
    + rewrite decide_True by done.
      pose proof (rtask_none s e HC Hx (r_inst s e Hrun Hx)) as Hnone.
      pose proof (c_rtask s HC e y Hx) as Hy. rewrite Hnone in Hy.
      case_decide; subst; [naive_solver|]. split; [congruence|]. intros Hc. by apply Hy in Hc.
    + rewrite decide_False by naive_solver. rewrite (c_rtask s HC x y Hx).
      case_decide; subst; [|done]. split; [naive_solver|]. by intros [_ ?].
Qed.

Lemma started_PolicyOk : PolicyOk s'.
Proof.
  pose proof (i_policy _ _ _ HI) as [G1 G2 G3 G4]. destruct (st_P _ _ _ _ Hst) as [P1 P2].
  split; intros *; rewrite ?P1, ?P2; [apply G1|apply G2|..]; intros Hne Hin.
  - rewrite !(st_grc _ _ _ _ Hst). pose proof (r_group s e Hrun). repeat case_decide; subst; try done.
    + right. rewrite (H h0); [lia|done|congruence].
    + left. rewrite (H g); [lia|by apply G1|congruence].
    + destruct (G3 g h0); [done..|left|right]; lia.
  - rewrite !(st_erc _ _ _ _ Hst). pose proof (r_entry s e Hrun). repeat case_decide; try congruence; subst.
    + right. rewrite (H f); [lia|done|congruence].
    + left. rewrite (H e0); [lia|by apply G2|congruence].
    + destruct (G4 e0 f); [done..|left|right]; lia.
Qed.

Lemma started_AllocOk : AllocOk s'.
Proof.
  pose proof (i_alloc _ _ _ HI) as HA. destruct (st_P _ _ _ _ Hst) as [P1 P2].
  destruct (st_A _ _ _ _ Hst) as [A1 A2 A3 A4 A5 A6 A7 A8].
  split; intros *; rewrite ?A1, ?A2, ?A3, ?A4, ?A5, ?A6, ?A7, ?A8, ?P2; try by apply HA.
  - rewrite (started_tsk e t s s') by done. case_decide; subst; [done|]. apply HA.
  - rewrite (st_tasks _ _ _ _ Hst). rewrite lookup_insert_Some. intros [[<- <-]|[_ ?]]; [|by eapply HA].
    destruct Hex as [T HT]. pose proof (a_ids s HA t T HT). unfold tsk. by rewrite HT.
  - apply (a_db s HA).
Qed.

Lemma started_wq_ne x : x ≠ e → wq s' x = wq s x.
Proof.
  intros Hx. rewrite (st_wq _ _ _ _ Hst). apply list_remove_fresh.
  rewrite (t_wait s (i_task _ _ _ HI)). intros [_ Hx']. clear -Hx Hx' He. congruence.
Qed.

Lemma started_seqno_ x : seqno_ (tsk s' x) = seqno_ (tsk s x).
Proof. rewrite (started_tsk e t s s') by done. by case_decide; subst. Qed.

Lemma started_active o : active s o → active s' o.
Proof.
  pose proof (i_count _ _ _ HI) as HC. apply active_mono.
  - apply Hst.
  - intros f. rewrite (st_erc _ _ _ _ Hst), (c_erc s HC). case_decide; lia.
  - intros g. rewrite (st_grc _ _ _ _ Hst), (c_grc s HC). case_decide; lia.
  - apply (st_A _ _ _ _ Hst).
Qed.

Lemma started_DeferOk h' :
  (wq s' e ≠ [] → h' = Some e) → (h' = None ∨ h' = Some e) → DeferOk h' X s'.
Proof.
  intros Hh Hh'. pose proof (i_defer _ _ _ HI) as HD. destruct (st_D _ _ _ _ Hst) as [D1 D2 D3].
  assert (Hnone : pG s e = None ∧ pE s e = None).
  { unfold ptr in Hp. by destruct (pG s e), (pE s e). }
  apply (DeferOk_drop h h' X e s); try done.
  - intros o. rewrite D1, list_remove_fresh; [done|]. rewrite (d_ptr _ _ _ HD). congruence.
  - intros x Hx. by rewrite D2, D3, started_wq_ne.
  - rewrite D3. apply Hnone.
  - rewrite D2. apply Hnone.
  - intros x. left. apply started_seqno_.
  - apply started_active.
  - apply Hst.
  - apply sameA_F, Hst.
Qed.

Lemma started_Inv h' :
  (wq s' e ≠ [] → h' = Some e) → (h' = None ∨ h' = Some e) → Inv h' X s'.
Proof.
  intros. split; [apply started_TaskOk|apply started_CountOk|apply started_PolicyOk|
    apply started_AllocOk|by apply started_DeferOk].
Qed.
End Started.

(** [s] is [s0] with [t] taken out of the wait queues. *)
Record unqueued (t : nat) (s0 s : Sched) : Prop := {
  uq_T : sameT s0 s;
  uq_wq x : wq s x = List.remove eq_nat_dec t (wq s0 x);
  uq_R : sameR s0 s;
  uq_P : sameP s0 s;
  uq_A : sameA s0 s;
  uq_D : sameD s0 s;
}.

Lemma unqueued_refl t s : (∀ x, t ∉ wq s x) → unqueued t s s.
Proof. intros Ht. split; try by split. intros x. by rewrite list_remove_fresh. Qed.

Lemma DeleteFromWaitQ_unqueued e t s :
  TaskOk s → AllocOk s → t ∈ wq s e →
  ∃ s', DeleteFromWaitQ e t s = Ret s' ∧ unqueued t s s'.
Proof.
  intros HT HA Hin. destruct (waiting_exists s e HT HA) as [He _]; [by intros H; rewrite H in Hin; set_solver|].
  assert (Hne : ∀ x, x ≠ e → t ∉ wq s x).
  { intros x Hx. apply (t_wait s HT) in Hin. rewrite (t_wait s HT). naive_solver. }
  unfold DeleteFromWaitQ. rewrite bool_decide_true by done. simpl. eexists. split; [done|].
  split; [split; acc| |split; intros; acc|split; intros; acc|same_alloc|split; intros; acc].
  - intros x. acc. by rewrite list_remove_fresh by auto.
  - destruct o; acc.
Qed.

(** [RunTask] starts the task when its preconditions hold. *)
(** The counts of [RunTask] in the entry. *)
Definition counted (e : EntryRef) (t : nat) (s : Sched) : Sched :=
  let s1 := upd_ent e (upd_e_stats inc_run) s in
  let s2 := if task_instance_ (tsk s t) =? -1 then s1 else upd_ent e (set_run_task (Some t)) s1 in
  upd_ent e (λ E, set_e_run (e_run_count E + 1) E) s2.

Lemma counted_same e t s : is_Some (entries s !! e) →
  (sameT s (counted e t s) ∧ sameW s (counted e t s) ∧ sameP s (counted e t s) ∧ sameD s (counted e t s) ∧
    (∀ g, grc (counted e t s) g = grc s g)) ∧ sameA s (counted e t s) ∧
  (∀ x, erc (counted e t s) x = erc s x + (if decide (x = e) then 1 else 0)) ∧
  (∀ x, rtask (counted e t s) x = if decide (x = e ∧ task_instance_ (tsk s t) ≠ -1) then Some t else rtask s x).
Proof.
  intros He. unfold counted. split; [|split; [|split]].
  - destruct (_ =? _); (split_and!; [split; acc|intros ?; acc|split; intros; acc|
      split; intros; [destruct o|..]; acc|intros; acc]).
  - destruct (_ =? _); same_alloc; repeat (apply entries_upd_ent; left); done.
  - intros x. destruct (_ =? _); acc; lia.
  - intros x. destruct (Z.eqb_spec (task_instance_ (tsk s t)) (-1)); acc; naive_solver.
Qed.

(** [RunTask] passes its assertions. *)
Lemma RunTask_eq e t s : is_Some (groups s !! id_of e) → 0 ≤ id_of e < group_db_size s →
  id_of e = task_id_ (tsk s t) → task_impl_ (tsk s t) = false →
  (task_instance_ (tsk s t) ≠ -1 → erc s e = 0 ∧ rtask s e = None) →
  RunTask e t s =
    StartTask t (upd_grp (id_of e) (λ G, set_g_run (g_run_count G + 1) G) (counted e t s)).
Proof.
  intros Hg Hrange Hid Himpl Hi. set (s1 := upd_ent e (upd_e_stats inc_run) s).
  set (s2 := if task_instance_ (tsk s t) =? -1 then s1 else upd_ent e (set_run_task (Some t)) s1).
  assert (Hs2 : (if task_instance_ (tsk s1 t) =? -1 then Ret s1 else
       assert_that (bool_decide (run_task_ (ent s1 e) = None));;
       assert_that (e_run_count (ent s1 e) =? 0);;
       Ret (upd_ent e (set_run_task (Some t)) s1)) = Ret s2).
  { subst s2. change (tsk s1 t) with (tsk s t). destruct (Z.eqb_spec (task_instance_ (tsk s t)) (-1)); [done|].
    destruct Hi as [Hi1 Hi2]; [done|]. subst s1. rewrite !assert_that_true; [done|..].
    - apply bool_decide_eq_true. acc.
    - apply Z.eqb_eq. acc. }
  unfold RunTask. fold s1. rewrite Hs2. simpl. change (upd_ent e (λ E, set_e_run (e_run_count E + 1) E) s2) with (counted e t s).
  assert (Hq : tsk (counted e t s) t = tsk s t ∧ groups (counted e t s) = groups s ∧ group_db_size (counted e t s) = group_db_size s).
  { unfold counted. by destruct (_ =? _). }
  destruct Hq as (Ht3&Hg3&Hsz3). unfold QueryTaskGroup. rewrite Ht3, <-Hid, Hg3, Hsz3.
  rewrite assert_that_true by (apply andb_true_intro; split; [apply Z.leb_le|apply Z.ltb_lt]; lia).
  by destruct (groups s !! id_of e) as [G|] eqn:HG; [|by destruct Hg].
Qed.

Lemma RunTask_ok e t s0 s :
  unqueued t s0 s → AllocOk s0 → is_Some (entries s0 !! e) → is_Some (groups s0 !! id_of e) →
  id_of e = task_id_ (tsk s0 t) → inst_of e = task_instance_ (tsk s0 t) →
  task_impl_ (tsk s0 t) = false → (inst_of e ≠ -1 → erc s0 e = 0 ∧ rtask s0 e = None) →
  ∃ s', RunTask e t s = Ret s' ∧ started e t s0 s'.
Proof.
  intros [UT UW UR UP UA UD] HA He Hg Hid Hinst Himpl Hi.
  pose proof (sameT_tsk s0 s t UT) as Ht.
  assert (Hrange : 0 ≤ id_of e < group_db_size s).
  { rewrite (sA_size _ _ UA). by apply HA. }
  rewrite <-(sA_entries _ _ UA) in He. rewrite <-(sA_groups _ _ UA) in Hg.
  rewrite RunTask_eq; [|done|done|by rewrite Ht|by rewrite Ht|].
  2:{ rewrite Ht, <-Hinst. intros H. rewrite (sR_erc _ _ UR), (sR_rtask _ _ UR). by apply Hi. }
  destruct (counted_same e t s He) as (Ho&HA3&Herc&Hrt). rewrite Ht, <-Hinst in Hrt.
  set (s3 := counted e t s) in *.
  assert (Hq : tsk s3 t = tsk s t ∧ groups s3 = groups s) by (unfold s3, counted; by destruct (_ =? _)).
  destruct Hq as (Ht3&Hg3). set (s4 := upd_grp (id_of e) (λ G, set_g_run (g_run_count G + 1) G) s3).
  unfold StartTask. change (tsk s4 t) with (tsk s3 t). rewrite Ht3, Ht, Himpl. simpl.
  eexists. split; [done|].
  destruct Ho as ([OT1 OT2 OT3]&OW&[OP1 OP2]&[OD1 OD2 OD3]&OG).
  destruct UT as [UT1 UT2 UT3]. destruct UR as [UR1 UR2 UR3].
  split.
  - change (<[t := started_task (tsk s3 t)]> (tasks s3) = <[t := started_task (tsk s0 t)]> (tasks s0)).
    by rewrite Ht3, OT1, Ht, UT1.
  - change (running_ s3 = running_ s0). congruence.
  - change (sched_seqno s3 = sched_seqno s0). congruence.
  - intros x. change (wq s3 x = List.remove eq_nat_dec t (wq s0 x)). by rewrite OW, UW.
  - intros x. change (erc s3 x = erc s0 x + (if decide (x = e) then 1 else 0)). by rewrite Herc, UR1.
  - intros g. change (grc s4 g = grc s0 g + (if decide (g = id_of e) then 1 else 0)).
    rewrite <-UR2, <-OG. unfold s4, grc, upd_grp. rewrite grp_put_grp. destruct (decide (g = id_of e)) as [->|]; simpl; lia.
  - intros x. change (rtask s3 x = if decide (x = e ∧ inst_of e ≠ -1) then Some t else rtask s0 x).
    by rewrite Hrt, UR3.
  - destruct UP as [UP1 UP2]. split; [intros g; rewrite <-UP1, <-OP1; subst s4; acc|].
    intros x. change (epol s3 x = epol s0 x). by rewrite OP2, UP2.
  - etrans; [exact UA|]. etrans; [exact HA3|].
    transitivity s4; [subst s4; apply sameA_upd_grp; [by rewrite Hg3|done]|by split].
  - destruct UD as [UD1 UD2 UD3]. split; [intros o; rewrite <-UD1, <-OD1; subst s4; destruct o; acc|..].
    + intros x. change (pE s3 x = pE s0 x). by rewrite OD2, UD2.
    + intros x. change (pG s3 x = pG s0 x). by rewrite OD3, UD3.
Qed.

(** ** What running the queues does: tasks start, in the order of their wait
    queue *)

Record adv (s s' : Sched) : Prop := {
  v_running : running_ s' = running_ s;
  v_seqno : sched_seqno s' = sched_seqno s;
  v_erc x : erc s x ≤ erc s' x;
  v_grc g : grc s g ≤ grc s' g;
  v_wq x : wq s' x `suffix_of` wq s x;
  v_P : sameP s s';
  v_A : sameA s s';
  v_tsk t : tsk s' t = tsk s t ∨ (state_ (tsk s t) = WAIT ∧ tsk s' t = started_task (tsk s t));
  v_dom t : is_Some (tasks s' !! t) ↔ is_Some (tasks s !! t);
  v_nwait : (nwait s' ≤ nwait s)%nat;
}.

Lemma frame_adv s s' : frame s s' → adv s s'.
Proof.
  intros [HT HW [R1 R2 _] HP HA]. split; try done; try apply HT.
  - intros x. by rewrite R1.
  - intros g. by rewrite R2.
  - intros x. by rewrite HW.
  - intros t. left. by apply sameT_tsk.
  - intros t. by rewrite (sT_tasks _ _ HT).
  - unfold nwait, count. by rewrite (sT_tasks _ _ HT).
Qed.

#[export] Instance sameP_trans : Transitive sameP.
Proof. intros s1 s2 s3 [] []. split; intros; etrans; eauto. Qed.
#[export] Instance adv_trans : Transitive adv.
Proof.
  intros s1 s2 s3 H1 H2. destruct H1, H2. split; intros; try (etrans; by eauto).
  destruct (v_tsk0 t) as [E1|[W1 E1]], (v_tsk1 t) as [E2|[W2 E2]].
  - left. congruence.
  - right. rewrite <-E1. done.
  - right. split; [done|]. congruence.
  - rewrite E1 in W2. done.
Qed.
#[export] Instance adv_refl : Reflexive adv.
Proof. intros s. apply frame_adv. by repeat split. Qed.

Lemma started_adv h X e t q s s' :
  Inv h X s → started e t s s' → wq s e = t :: q →
  adv s s' ∧ wq s' e = q ∧ (nwait s' < nwait s)%nat.
Proof.
  intros HI Hst Hq. pose proof (i_task _ _ _ HI) as HT.
  destruct (waiting_task s e t HT) as [Hw He]; [rewrite Hq; set_solver|].
  pose proof (wq_nodup s e HT) as Hnd. rewrite Hq in Hnd.
  assert (Hq' : wq s' e = q).
  { rewrite (st_wq _ _ _ _ Hst), Hq. apply (list_remove_mid eq_nat_dec t [] q Hnd). }
  assert (Hex : is_Some (tasks s !! t)) by (apply (task_exists s); [apply HI|congruence]).
  assert (Hn : (nwait s' < nwait s)%nat).
  { unfold nwait. pose proof (count_insert (λ T, state_ T = WAIT) s s' t _ (st_tasks _ _ _ _ Hst) Hex) as Hc.
    unfold b2n in Hc. rewrite decide_True in Hc by done. rewrite decide_False in Hc by done. lia. }
  split; [|done]. split; try apply Hst.
  - intros x. rewrite (st_erc _ _ _ _ Hst). case_decide; lia.
  - intros g. rewrite (st_grc _ _ _ _ Hst). case_decide; lia.
  - intros x. destruct (decide (x = e)) as [->|Hx]; [|rewrite (started_wq_ne h X e t s s' HI Hst He x Hx); by exists []].
    rewrite Hq', Hq. by exists [t].
  - intros x. rewrite (started_tsk e t s s' x Hst). case_decide; subst; [right|left]; done.
  - intros x. rewrite (st_tasks _ _ _ _ Hst), lookup_insert_is_Some. destruct (decide (t = x)); naive_solver.
  - lia.
Qed.

(** The task at the head of a wait queue is started. *)
Lemma RunHead_spec X e t q s :
  Inv (Some e) X s → wq s e = t :: q → runnable s e →
  ∃ s1 s', DeleteFromWaitQ e t s = Ret s1 ∧ RunTask e t s1 = Ret s' ∧
    (∀ h, (q ≠ [] → h = Some e) → h = None ∨ h = Some e → Inv h X s') ∧
    started e t s s' ∧ adv s s' ∧ wq s' e = q ∧ (nwait s' < nwait s)%nat.
Proof.
  intros HI Hq Hr. pose proof HI as [HT HC HP HA HD].
  assert (Hin : t ∈ wq s e) by (rewrite Hq; set_solver).
  destruct (waiting_task s e t HT Hin) as [Hw He].
  destruct (waiting_exists s e HT HA) as [Hee Heg]; [by rewrite Hq|].
  destruct (DeleteFromWaitQ_unqueued e t s HT HA Hin) as (s1&Hdel&Huq).
  destruct (RunTask_ok e t s s1 Huq HA Hee Heg) as (s'&Hrun&Hst).
  - by rewrite <-He, entry_of_id.
  - by rewrite <-He, entry_of_inst.
  - apply HT. congruence.
  - intros Hi. pose proof (r_inst s e Hr Hi). split; [done|]. by apply rtask_none.
  - destruct (started_adv _ _ e t q s s' HI Hst Hq) as (Hadv&Hq'&Hn).
    exists s1, s'. split_and!; try done. intros h Hh Hh'. rewrite <-Hq' in Hh.
    eapply started_Inv; eauto.
    + apply (task_exists s); [done|congruence].
    + congruence.
    + by apply HD.
    + apply HT. congruence.
    + by intros x [= ->].
Qed.

Lemma runnable_started X e t s s' :
  Inv (Some e) X s → started e t s s' → inst_of e = -1 → runnable s e → runnable s' e.
Proof.
  intros HI Hst Hi [H1 H2 _]. destruct (st_P _ _ _ _ Hst) as [P1 P2]. split.
  - intros k. rewrite P1, (st_grc _ _ _ _ Hst). intros Hk Hne. rewrite decide_False by done.
    rewrite H1 by done. lia.
  - intros f. rewrite P2, (st_erc _ _ _ _ Hst). intros Hk Hne. rewrite decide_False by done.
    rewrite H2 by done. lia.
  - done.
Qed.

(** What happens to the queues when the entry in hand is dealt with. *)
Record requeued (e : EntryRef) (s s' : Sched) : Prop := {
  q_dq : (∀ o, dq s' o = dq s o) ∨
    ∃ o l1 l2, dq s o = l1 ++ l2 ∧ dq s' o = l1 ++ e :: l2 ∧ ∀ o', o' ≠ o → dq s' o' = dq s o';
  q_wq x : x ≠ e → wq s' x = wq s x;
  q_key : wq s' e = wq s e ∨ (nwait s' < nwait s)%nat;
}.

Lemma RunWaitQ_loop_spec X e fuel s :
  Inv (Some e) X s → inst_of e = -1 → runnable s e → wq s e ≠ [] → (length (wq s e) ≤ fuel)%nat →
  ∃ s', RunWaitQ_loop fuel e s = Ret s' ∧ Inv None X s' ∧ adv s s' ∧ (∀ o, dq s' o = dq s o) ∧
    (∀ x, x ≠ e → wq s' x = wq s x) ∧ (nwait s' < nwait s)%nat ∧ wq s' e = [].
Proof.
  revert s. induction fuel as [|fuel IH]; intros s HI Hi Hr Hne Hlen.
  { destruct (wq s e); simpl in *; [done|lia]. }
  destruct (wq s e) as [|t q] eqn:Hq; [done|]. simpl in Hlen.
  destruct (RunHead_spec X e t q s HI Hq Hr) as (s1&s2&Hdel&Hrun&HI2&Hst&Hadv&Hq2&Hn).
  assert (Hsame : ∀ o, dq s2 o = dq s o) by apply Hst.
  assert (Hwq : ∀ x, x ≠ e → wq s2 x = wq s x).
  { intros x Hx. eapply started_wq_ne; eauto. destruct (i_task _ _ _ HI).
    apply (t_wait0 e t). rewrite Hq. set_solver. }
  simpl. fold (wq s e). rewrite Hq, Hdel. simpl. rewrite Hrun. simpl.
  destruct (decide (q = [])) as [->|Hqne].
  - exists s2. split.
    { destruct fuel; simpl; fold (wq s2 e); by rewrite Hq2. }
    split_and!; try done. by apply HI2; [|left].
  - destruct (IH s2) as (s'&Hl&HI'&Hadv'&Hdq'&Hwq'&Hn'&Hq').
    + apply HI2; [done|by right].
    + done.
    + eapply runnable_started; eauto.
    + by rewrite Hq2.
    + rewrite Hq2. lia.
    + exists s'. split_and!; try done.
      * by etrans.
      * intros o. by rewrite Hdq'.
      * intros x Hx. by rewrite Hwq', Hwq.
      * lia.
Qed.

Lemma requeued_trans_add e s s1 s' o l1 l2 :
  requeued e s s1 → (∀ o, dq s1 o = dq s o) → sameW s1 s' → tasks s' = tasks s1 →
  dq s1 o = l1 ++ l2 → dq s' o = l1 ++ e :: l2 → (∀ o', o' ≠ o → dq s' o' = dq s1 o') →
  requeued e s s'.
Proof.
  intros [_ Q2 Q3] Hdq HW HT H1 H2 H3. split.
  - right. exists o, l1, l2. rewrite <-Hdq. split_and!; [done..|]. intros o' Ho. by rewrite H3.
  - intros x Hx. by rewrite HW, Q2.
  - rewrite HW. unfold nwait, count in *. by rewrite HT.
Qed.

Lemma requeued_refl e s : requeued e s s.
Proof. split; [by left|done|by left]. Qed.

Lemma RunWaitQ_spec X e s :
  Inv (Some e) X s → wq s e ≠ [] → runnable s e →
  ∃ s', RunWaitQ e s = Ret s' ∧ Inv None X s' ∧ adv s s' ∧ requeued e s s'.
Proof.
  intros HI Hne Hr. pose proof HI as [HT HC HP HA HD].
  destruct (waiting_exists s e HT HA Hne) as [Hee _].
  destruct (wq s e) as [|t q] eqn:Hq; [done|]. unfold RunWaitQ. fold (wq s e). rewrite Hq.
  destruct (a_fields s HA e Hee) as [_ ->]. destruct (Z.eqb_spec (inst_of e) (-1)) as [Hi|Hi].
  { destruct (RunWaitQ_loop_spec X e (S (length q)) s HI Hi Hr) as (s'&?&?&?&?&?&?&?);
      [by rewrite Hq..|]. exists s'. split_and!; [done..|]. split; [by left|done|by right]. }
  destruct (RunHead_spec X e t q s HI Hq Hr) as (s1&s2&Hdel&Hrun&HI2&Hst&Hadv&Hq2&Hn).
  rewrite Hdel. simpl. rewrite Hrun. simpl. fold (wq s2 e). rewrite Hq2.
  assert (HQ : requeued e s s2).
  { split; [left; apply Hst| |by right]. intros x Hx. eapply started_wq_ne; eauto.
    apply (t_wait s HT e t). rewrite Hq. set_solver. }
  destruct q as [|u q]; [exists s2; split_and!; [done|by apply HI2; [|left]|done|done]|].
  destruct (AddToDeferQ_spec X (OE e) e s2) as (s'&l1&l2&Hadd&HI'&HF&Hd1&Hd2&Hd3).
  - apply HI2; [done|by right].
  - by rewrite Hq2.
  - left. rewrite (st_erc _ _ _ _ Hst), decide_True by done. rewrite (r_inst s e Hr Hi). lia.
  - apply blocks_self; [done|]. rewrite (sP_epol _ _ (st_P _ _ _ _ Hst)). by apply HA.
  - exists s'. split_and!; [done..| |].
    + etrans; [done|]. by apply frame_adv.
    + eapply requeued_trans_add; [done|apply Hst|apply HF|apply HF|done..].
Qed.

Lemma GetTaskGroup_id g s : AllocOk s → is_Some (groups s !! g) → GetTaskGroup g s = Ret s.
Proof.
  intros HA Hg. pose proof (a_group s HA g Hg). unfold GetTaskGroup.
  rewrite assert_that_true by (apply Z.leb_le; lia). simpl.
  destruct (Z.leb_spec (group_db_size s) g); [lia|]. by destruct (groups s !! g); [|destruct Hg].
Qed.

Lemma ActiveGroup_Some g s h : ActiveGroupInPolicy g s = Some h → h ∈ pol s g ∧ grc s h ≠ 0.
Proof.
  intros [Hin Hn]%List.find_some. split; [by apply list_elem_of_In|].
  by destruct (Z.eqb_spec (g_run_count (grp s h)) 0).
Qed.
Lemma ActiveGroup_None g s : ActiveGroupInPolicy g s = None → ∀ h, h ∈ pol s g → grc s h = 0.
Proof.
  intros Hn h Hh%list_elem_of_In. pose proof (List.find_none _ _ Hn h Hh) as Hf. simpl in Hf.
  unfold grc. by destruct (Z.eqb_spec (g_run_count (grp s h)) 0).
Qed.
Lemma ActiveEntry_Some e s f : ActiveEntryInPolicy e s = Some f → f ∈ epol s e ∧ erc s f ≠ 0.
Proof.
  intros [Hin Hn]%List.find_some. split; [by apply list_elem_of_In|].
  by destruct (Z.eqb_spec (e_run_count (ent s f)) 0).
Qed.
Lemma ActiveEntry_None e s : ActiveEntryInPolicy e s = None → ∀ f, f ∈ epol s e → erc s f = 0.
Proof.
  intros Hn f Hf%list_elem_of_In. pose proof (List.find_none _ _ Hn f Hf) as Hg. simpl in Hg.
  unfold erc. by destruct (Z.eqb_spec (e_run_count (ent s f)) 0).
Qed.

Lemma policies_runnable s e :
  AllocOk s → is_Some (entries s !! e) →
  ActiveGroupInPolicy (id_of e) s = None → ActiveEntryInPolicy e s = None → runnable s e.
Proof.
  intros HA He HG HE. split.
  - intros h Hh _. by apply (ActiveGroup_None _ _ HG).
  - intros f Hf _. by apply (ActiveEntry_None _ _ HE).
  - intros Hi. apply (ActiveEntry_None _ _ HE). by apply HA.
Qed.

Lemma RunDeferEntry_spec X e s :
  Inv (Some e) X s → wq s e ≠ [] →
  ∃ s', RunDeferEntry e s = Ret s' ∧ Inv None X s' ∧ adv s s' ∧ requeued e s s'.
Proof.
  intros HI Hne. pose proof HI as [HT HC HP HA HD].
  destruct (waiting_exists s e HT HA Hne) as [Hee Heg].
  assert (Hdefer : ∀ o, active s o → blocks s o e → ∃ s', AddToDeferQ o e s = Ret s' ∧
    Inv None X s' ∧ adv s s' ∧ requeued e s s').
  { intros o Ho Hb. destruct (AddToDeferQ_spec X o e s HI Hne Ho Hb)
      as (s'&l1&l2&Hadd&HI'&HF&Hd1&Hd2&Hd3).
    exists s'. split_and!; [done..|by apply frame_adv|].
    eapply requeued_trans_add; [apply requeued_refl|done|apply HF|apply HF|done..]. }
  unfold RunDeferEntry. destruct (a_fields s HA e Hee) as [-> _].
  rewrite (GetTaskGroup_id (id_of e) s) by done. simpl.
  fold (wq s e). destruct (wq s e) as [|t q] eqn:Hq; [done|].
  unfold GroupDeferOnPolicyFail, EntryDeferOnPolicyFail. fold (wq s e). rewrite Hq.
  destruct (ActiveGroupInPolicy (id_of e) s) as [g|] eqn:HG; simpl.
  { apply ActiveGroup_Some in HG as [HG1 HG2].
    destruct (Hdefer (OG g)) as (s'&Hadd&?); [done..|]. simpl in Hadd. rewrite Hadd. simpl. eauto. }
  fold (wq s e). rewrite Hq.
  destruct (ActiveEntryInPolicy e s) as [f|] eqn:HE; simpl.
  { apply ActiveEntry_Some in HE as [HE1 HE2].
    destruct (Hdefer (OE f)) as (s'&Hadd&?); [by left|by apply blocks_entry|]. simpl in Hadd. rewrite Hadd. simpl. eauto. }
  apply RunWaitQ_spec; [done|by rewrite Hq|]. by apply policies_runnable.
Qed.
End Sched.
