(* ===== verification/TaskRun.v ===== *)
(** * Running deferral queues: termination and invariant

    The loops of [RunDeferQ] and [RunCombinedDeferQ] iterate over an ordered
    set while [RunDeferEntry] inserts into it.  An entry that is put back with
    the same first task lands before the iterator; an entry that is put back
    after it has started a task.  So the length of the rest of the queue plus
    the number of waiting tasks decreases with each visit. *)

From stdpp Require Import gmap.
From Stdlib Require Import Sorted.
From S2P Require Import Prelude Task TaskInv.
Open Scope Z_scope.

Section Run.
Context `{!IntrusiveSet EntryRef}.

Lemma next_in_mid e pre suf : NoDup (pre ++ e :: suf) → next_in e (pre ++ e :: suf) = head suf.
Proof.
  induction pre as [|x pre IH]; simpl; intros Hnd; apply NoDup_cons in Hnd as [Hx Hnd].
  - by rewrite decide_True.
  - rewrite decide_False by set_solver. by apply IH.
Qed.

Lemma nwait_size s : (nwait s ≤ size (tasks s))%nat.
Proof. apply map_subseteq_size, map_filter_subseteq. Qed.

(** The rest of a queue after an entry before it was dealt with. *)
Lemma requeued_suffix X e s1 s2 o pre suf :
  requeued e s1 s2 → adv s1 s2 → Inv None X s2 → dq s1 o = pre ++ suf →
  (∀ x, x ∈ suf → x ≠ e ∧ TaskDeferEntryCmp s1 e x = true) →
  ∃ pre' suf', dq s2 o = pre' ++ suf' ∧ head suf' = head suf ∧ (∀ x, x ∈ suf → x ∈ suf') ∧
    (suf' = suf ∨
     dq s2 o ≠ dq s1 o ∧ length suf' = S (length suf) ∧ (nwait s2 < nwait s1)%nat ∧
     (∀ x, x ∈ suf' → x ∈ suf ∨ x = e)).
Proof.
  intros [Qd Qw Qk] Hadv HI2 Hq Hlt.
  assert (Hsame : dq s2 o = dq s1 o → ∃ pre' suf', dq s2 o = pre' ++ suf' ∧ head suf' = head suf ∧
    (∀ x, x ∈ suf → x ∈ suf') ∧ (suf' = suf ∨
     dq s2 o ≠ dq s1 o ∧ length suf' = S (length suf) ∧ (nwait s2 < nwait s1)%nat ∧
     (∀ x, x ∈ suf' → x ∈ suf ∨ x = e))).
  { intros ->. exists pre, suf. naive_solver. }
  destruct Qd as [Hd|(o2&l1&l2&Hd1&Hd2&Hd3)]; [by apply Hsame|].
  destruct (decide (o = o2)) as [<-|]; [|by auto].
  rewrite Hq in Hd1. apply app_eq_inv in Hd1 as [(m&->&->)|(m&->&->)].
  - exists (l1 ++ e :: m), suf. rewrite Hd2, <-app_assoc. naive_solver.
  - destruct m as [|x m]; simpl in *.
    + exists (pre ++ [e]), l2. rewrite Hd2, app_nil_r, <-app_assoc. naive_solver.
    + exists pre, (x :: m ++ e :: l2). rewrite Hd2, <-app_assoc. simpl.
      split_and!; [done..|set_solver|]. right.
      destruct (Hlt x) as [Hxe Hex]; [set_solver|]. split_and!.
      * rewrite Hq. intros Heq%(f_equal length). repeat rewrite length_app in Heq; simpl in Heq.
        repeat rewrite length_app in Heq; simpl in Heq. lia.
      * rewrite !length_app. simpl. lia.
      * destruct Qk as [Hk|]; [|done]. exfalso. apply (cmp_asym s2 e x).
        { rewrite (cmp_ext s1 s2); [done| |done|by apply Qw].
          intros t. destruct (v_tsk _ _ Hadv t) as [->|[_ ->]]; done. }
        pose proof (d_sorted _ _ _ (i_defer _ _ _ HI2) o) as Hs. rewrite Hd2, <-app_assoc in Hs.
        apply ssorted_app in Hs as (_&Hs&_). apply StronglySorted_inv in Hs as [_ Hs].
        rewrite Forall_forall in Hs. apply Hs. set_solver.
      * set_solver.
Qed.

(** One iteration of a loop over the queue of [o]. *)
Lemma visit_spec X o pre e suf s :
  Inv None X s → dq s o = pre ++ e :: suf →
  ∃ s1 s2, DeleteFromDeferQ o e s = Ret s1 ∧ RunDeferEntry e s1 = Ret s2 ∧
    Inv None (λ o' x, X o' x ∧ ¬ (o' = o ∧ x = e)) s2 ∧ adv s s2 ∧ adv s1 s2 ∧ requeued e s1 s2 ∧
    frame s s1 ∧ dq s1 o = pre ++ suf ∧ (∀ o', o' ≠ o → dq s1 o' = dq s o').
Proof.
  intros HI Hq. pose proof (dq_nodup _ _ s o (i_defer _ _ _ HI)) as Hnd. rewrite Hq in Hnd.
  assert (Hin : e ∈ dq s o) by (rewrite Hq; set_solver).
  destruct (DeleteFromDeferQ_spec X o e s HI Hin) as (s1&Hdel&HI1&HF&Hd1&Hd2).
  rewrite Hq, list_remove_mid in Hd1 by done.
  assert (Hw : wq s1 e ≠ []).
  { rewrite (f_W _ _ HF). apply HI. apply (d_ptr _ _ _ (i_defer _ _ _ HI)) in Hin. by eexists. }
  destruct (RunDeferEntry_spec (λ o' x, X o' x ∧ ¬ (o' = o ∧ x = e)) e s1)
    as (s2&Hrun&HI2&Hadv&HQ); [|done|].
  - eapply Inv_exempt, HI1. intros o' x Hx HX. right. split; [done|]. intros [-> ->].
    apply (d_ptr _ _ _ (i_defer _ _ _ HI1)) in Hx.
    by rewrite (d_handptr _ _ _ (i_defer _ _ _ HI1) e eq_refl) in Hx.
  - exists s1, s2. split_and!; try done. etrans; [by apply frame_adv|done].
Qed.

Lemma rest_after X s o e pre suf x :
  Inv None X s → dq s o = pre ++ e :: suf → x ∈ suf → x ≠ e ∧ TaskDeferEntryCmp s e x = true.
Proof.
  intros HI Hq Hx. pose proof (d_sorted _ _ _ (i_defer _ _ _ HI) o) as Hs. rewrite Hq in Hs.
  apply ssorted_app in Hs as (_&Hs&_). apply StronglySorted_inv in Hs as [_ Hs].
  rewrite Forall_forall in Hs. split; [|by apply Hs]. intros ->.
  specialize (Hs e Hx). by apply (cmp_asym s e e).
Qed.

Lemma RunDeferQ_loop_spec o X fuel s pre suf :
  Inv None (λ o' x, X o' x ∨ o' = o ∧ x ∈ suf) s → dq s o = pre ++ suf →
  (length suf + nwait s ≤ fuel)%nat →
  ∃ s', RunDeferQ_loop fuel o (head suf) s = Ret s' ∧ Inv None X s' ∧ adv s s'.
Proof.
  revert s pre suf. induction fuel as [|fuel IH]; intros s pre suf HI Hq Hfuel;
    (destruct suf as [|e suf]; [exists s; split; [done|]; split; [|reflexivity];
       eapply Inv_exempt, HI; set_solver|]); simpl in Hfuel; [lia|].
  pose proof (dq_nodup _ _ s o (i_defer _ _ _ HI)) as Hnd. rewrite Hq in Hnd.
  destruct (visit_spec _ o pre e suf s HI Hq) as (s1&s2&Hdel&Hrun&HI2&Hadv&Hadv1&HQ&HF&Hd1&Hd2).
  destruct (requeued_suffix _ e s1 s2 o pre suf HQ Hadv1 HI2 Hd1)
    as (pre'&suf'&Hq'&Hhd&Hsub&Hsuf).
  { intros x Hx. rewrite (cmp_frame s s1) by apply HF. by eapply rest_after. }
  destruct (IH s2 pre' suf') as (s'&Hloop&HI'&Hadv').
  - eapply Inv_exempt, HI2. simpl. intros o' x _ [[?|[-> ?]] Hne]; right; [by left|right]. set_solver.
  - done.
  - assert (nwait s1 = nwait s) by (unfold nwait, count; by rewrite (sT_tasks _ _ (f_T _ _ HF))).
    pose proof (v_nwait _ _ Hadv). destruct Hsuf as [->|(_&->&?&_)]; lia.
  - exists s'. simpl. rewrite Hq, next_in_mid by done. rewrite Hdel. simpl. rewrite Hrun. simpl.
    rewrite <-Hhd. split_and!; [done..|]. by etrans.
Qed.

Lemma RunDeferQ_loop_all o s :
  Inv None (λ o' _, o' = o) s →
  ∃ s', RunDeferQ_loop (deferq_fuel s (dq s o)) o (head (dq s o)) s = Ret s' ∧
    Inv None none_exempt s' ∧ adv s s'.
Proof.
  intros HI. apply (RunDeferQ_loop_spec o none_exempt _ s [] (dq s o)); [|done|].
  - eapply Inv_exempt, HI. simpl. intros o' x Hx ->. right. by right.
  - unfold deferq_fuel. pose proof (nwait_size s). lia.
Qed.

(** ** The loop of a group that is enabled *)

(** A disabled entry leaves the queue and is parked. *)
Lemma skip_spec X g pre e suf s :
  Inv None X s → dq s (OE (EDisable g)) = pre ++ e :: suf → g_disable (grp s g) = false →
  e_disable (ent s e) = true →
  ∃ s1, EntryDeleteFromDeferQ (EDisable g) e s = Ret s1 ∧ frame s s1 ∧
    Inv None (λ o' x, X o' x ∧ ¬ (o' = OE (EDisable g) ∧ x = e)) s1 ∧
    dq s1 (OE (EDisable g)) = pre ++ suf.
Proof.
  intros HI Hq Hg He. set (o := OE (EDisable g)) in *.
  pose proof (dq_nodup _ _ s o (i_defer _ _ _ HI)) as Hnd. rewrite Hq in Hnd.
  assert (Hin : e ∈ dq s o) by (rewrite Hq; set_solver).
  destruct (DeleteFromDeferQ_spec X o e s HI Hin) as (s1&Hdel&HI1&HF&Hd1&_).
  rewrite Hq, list_remove_mid in Hd1 by done. pose proof (f_A _ _ HF) as HA.
  exists s1. split_and!; [done|done| |done]. eapply Inv_release.
  - eapply Inv_exempt, HI1. intros o' x Hx HX. right. split; [done|]. intros [-> ->].
    apply (d_ptr _ _ _ (i_defer _ _ _ HI1)) in Hx.
    by rewrite (d_handptr _ _ _ (i_defer _ _ _ HI1) e eq_refl) in Hx.
  - pose proof (d_block _ _ _ (i_defer _ _ _ HI) o e Hin) as Hid. simpl in Hid.
    split; [by rewrite (sA_edis _ _ HA)|]. by rewrite (sA_gdis _ _ HA), <-Hid.
Qed.

Lemma RunDeferQForGroupEnable_loop_spec g X fuel s pre suf :
  let o := OE (EDisable g) in
  Inv None (λ o' x, X o' x ∨ o' = o ∧ x ∈ suf) s → dq s o = pre ++ suf →
  g_disable (grp s g) = false → (length suf + nwait s ≤ fuel)%nat →
  ∃ s', RunDeferQForGroupEnable_loop fuel (EDisable g) (head suf) s = Ret s' ∧ Inv None X s' ∧ adv s s'.
Proof.
  intros o. revert s pre suf. induction fuel as [|fuel IH]; intros s pre suf HI Hq Hg Hfuel;
    (destruct suf as [|e suf]; [exists s; split; [done|]; split; [|reflexivity];
       eapply Inv_exempt, HI; set_solver|]); simpl in Hfuel; [lia|].
  pose proof (dq_nodup _ _ s o (i_defer _ _ _ HI)) as Hnd. rewrite Hq in Hnd. simpl.
  change (deferq_ (ent s (EDisable g))) with (dq s o). rewrite Hq, next_in_mid by done.
  assert (Hedis : ∀ s1, sameA s s1 → e_disable (ent s1 e) = e_disable (ent s e)) by (intros ? HA; apply HA).
  destruct (e_disable (ent s e)) eqn:He.
  - destruct (skip_spec _ g pre e suf s HI Hq Hg He) as (s1&->&HF&HI1&Hd1). simpl.
    rewrite (Hedis s1 (f_A _ _ HF)). simpl.
    destruct (IH s1 pre suf) as (s'&Hloop&HI'&Hadv'); [|done|by rewrite (sA_gdis _ _ (f_A _ _ HF))|..].
    + eapply Inv_exempt, HI1. simpl. intros o' x _ [[?|[-> ?]] Hne]; right; [by left|right]. set_solver.
    + assert (nwait s1 = nwait s) by (unfold nwait, count; by rewrite (sT_tasks _ _ (f_T _ _ HF))). lia.
    + exists s'. split_and!; [done..|]. etrans; [by apply frame_adv|done].
  - destruct (visit_spec _ o pre e suf s HI Hq) as (s1&s2&Hdel&Hrun&HI2&Hadv&Hadv1&HQ&HF&Hd1&Hd2).
    destruct (requeued_suffix _ e s1 s2 o pre suf HQ Hadv1 HI2 Hd1)
      as (pre'&suf'&Hq'&Hhd&Hsub&Hsuf).
    { intros x Hx. rewrite (cmp_frame s s1) by apply HF. by eapply rest_after. }
    destruct (IH s2 pre' suf') as (s'&Hloop&HI'&Hadv').
    + eapply Inv_exempt, HI2. simpl. intros o' x _ [[?|[-> ?]] Hne]; right; [by left|right]. set_solver.
    + done.
    + by rewrite (sA_gdis _ _ (v_A _ _ Hadv)).
    + assert (nwait s1 = nwait s) by (unfold nwait, count; by rewrite (sT_tasks _ _ (f_T _ _ HF))).
      pose proof (v_nwait _ _ Hadv). destruct Hsuf as [->|(_&->&?&_)]; lia.
    + exists s'. simpl in Hdel. rewrite Hdel. simpl. rewrite (Hedis s1 (f_A _ _ HF)), Hrun. simpl.
      rewrite <-Hhd. split_and!; [done..|]. by etrans.
Qed.

Lemma RunDeferQForGroupEnable_spec g s :
  Inv None (λ o' _, o' = OE (EDisable g)) s → g_disable (grp s g) = false →
  ∃ s', RunDeferQForGroupEnable (EDisable g) s = Ret s' ∧ Inv None none_exempt s' ∧ adv s s'.
Proof.
  intros HI Hg.
  apply (RunDeferQForGroupEnable_loop_spec g none_exempt _ s [] (deferq_ (ent s (EDisable g))));
    [|done|done|].
  - eapply Inv_exempt, HI. simpl. intros o' x Hx ->. right. by right.
  - unfold deferq_fuel. pose proof (nwait_size s). lia.
Qed.

(** ** The combined loop *)

(** Two queues are being run: the rests of both are exempt. *)
Definition two (o1 o2 : Owner) (l1 l2 : list EntryRef) (o : Owner) (x : EntryRef) : Prop :=
  o = o1 ∧ x ∈ l1 ∨ o = o2 ∧ x ∈ l2.

Lemma combined_visit o o2 pre e suf pre2 suf2 s :
  o ≠ o2 → Inv None (two o o2 (e :: suf) suf2) s →
  dq s o = pre ++ e :: suf → dq s o2 = pre2 ++ suf2 →
  (∀ x, x ∈ suf2 → TaskDeferEntryCmp s e x = true) →
  ∃ s1 s2 pre' suf' pre2' suf2',
    DeleteFromDeferQ o e s = Ret s1 ∧ RunDeferEntry e s1 = Ret s2 ∧
    Inv None (two o o2 suf' suf2') s2 ∧ adv s s2 ∧
    dq s2 o = pre' ++ suf' ∧ dq s2 o2 = pre2' ++ suf2' ∧
    head suf' = head suf ∧ head suf2' = head suf2 ∧
    (length suf' + length suf2' + nwait s2 < length (e :: suf) + length suf2 + nwait s)%nat.
Proof.
  intros Hne HI Hq Hq2 Hlt2.
  destruct (visit_spec _ o pre e suf s HI Hq) as (s1&s2&Hdel&Hrun&HI2&Hadv&Hadv1&HQ&HF&Hd1&Hd2).
  destruct (requeued_suffix _ e s1 s2 o pre suf HQ Hadv1 HI2 Hd1) as (pre'&suf'&Hq'&Hhd&Hsub&Hsuf).
  { intros x Hx. rewrite (cmp_frame s s1) by apply HF. by eapply rest_after. }
  destruct (requeued_suffix _ e s1 s2 o2 pre2 suf2 HQ Hadv1 HI2) as (pre2'&suf2'&Hq2'&Hhd2&Hsub2&Hsuf2).
  { by rewrite Hd2. }
  { intros x Hx. rewrite (cmp_frame s s1) by apply HF. split; [|by auto]. intros ->.
    by apply (cmp_asym s e e); auto. }
  exists s1, s2, pre', suf', pre2', suf2'. split_and!; try done.
  - eapply Inv_exempt, HI2. unfold two. simpl. intros o' x _ [[[-> Hx]|[-> Hx]] Hxe]; right; set_solver.
  - assert (nwait s1 = nwait s) by (unfold nwait, count; by rewrite (sT_tasks _ _ (f_T _ _ HF))).
    pose proof (v_nwait _ _ Hadv). simpl.
    destruct Hsuf as [->|(Hc&->&?&_)], Hsuf2 as [->|(Hc2&->&?&_)]; try lia.
    destruct (q_dq _ _ _ HQ) as [Hall|(o3&l1&l2&_&_&Hoth)]; [by destruct Hc|].
    destruct (decide (o = o3)) as [->|]; [|by destruct Hc; auto].
    destruct Hc2. by apply Hoth.
Qed.

Lemma RunCombinedDeferQ_loop_spec e g fuel s pg sg pe se :
  Inv None (two (OG g) (OE e) sg se) s → dq s (OG g) = pg ++ sg → dq s (OE e) = pe ++ se →
  (length sg + length se + nwait s ≤ fuel)%nat →
  ∃ s' sg' se', RunCombinedDeferQ_loop fuel e g (head sg) (head se) s = Ret (head sg', head se', s') ∧
    Inv None (two (OG g) (OE e) sg' se') s' ∧ adv s s' ∧ (sg' = [] ∨ se' = []).
Proof.
  assert (Hnil : ∀ s sg se f, sg = [] ∨ se = [] →
    RunCombinedDeferQ_loop f e g (head sg) (head se) s = Ret (head sg, head se, s)).
  { intros s0 l1 l2 f [->| ->]; destruct f; simpl; try done; by destruct l1. }
  revert s pg sg pe se. induction fuel as [|fuel IH]; intros s pg sg pe se HI Hg He Hfuel;
    (destruct sg as [|ge sg]; [exists s, [], se; split_and!; [by apply Hnil; left|done|done|by left]|]);
    (destruct se as [|te se]; [exists s, (ge :: sg), []; split_and!; [by apply Hnil; right|done|done|by right]|]);
    [simpl in Hfuel; lia|].
  pose proof (i_defer _ _ _ HI) as HD.
  pose proof (dq_nodup _ _ s (OG g) HD) as Hndg. pose proof (dq_nodup _ _ s (OE e) HD) as Hnde.
  assert (Hgin : ptr s ge = Some (OG g)) by (apply HD; rewrite Hg; set_solver).
  assert (Hein : ptr s te = Some (OE e)) by (apply HD; rewrite He; set_solver).
  simpl. destruct (TaskDeferEntryCmp s ge te) eqn:Hcmp.
  - destruct (combined_visit (OG g) (OE e) pg ge sg pe (te :: se) s)
      as (s1&s2&pg'&sg'&pe'&se'&Hdel&Hrun&HI2&Hadv&Hg'&He'&Hhg&Hhe&Hm); [done..| |].
    { intros x [->|Hx]%elem_of_cons; [done|]. eapply cmp_trans; [done|]. by eapply rest_after. }
    destruct (IH s2 pg' sg' pe' se' HI2 Hg' He') as (s'&sg''&se''&Hloop&?&?&?); [simpl in *; lia|].
    exists s', sg'', se''. change (g_deferq (grp s g)) with (dq s (OG g)).
    simpl in Hdel. rewrite Hg, next_in_mid by (by rewrite <-Hg). rewrite Hdel. simpl. rewrite Hrun. simpl.
    simpl in Hhe. rewrite <-Hhg, <-Hhe. split_and!; [done..|by etrans|done].
  - assert (Hcmp' : TaskDeferEntryCmp s te ge = true).
    { destruct (cmp_total s ge te) as [|]; [apply HI|..]; try congruence; apply HD; by eexists. }
    destruct (combined_visit (OE e) (OG g) pe te se pg (ge :: sg) s)
      as (s1&s2&pe'&se'&pg'&sg'&Hdel&Hrun&HI2&Hadv&He'&Hg'&Hhe&Hhg&Hm); [done| |done|done| |].
    { eapply Inv_exempt, HI. unfold two. naive_solver. }
    { intros x [->|Hx]%elem_of_cons; [done|]. eapply cmp_trans; [done|]. by eapply rest_after. }
    destruct (IH s2 pg' sg' pe' se') as (s'&sg''&se''&Hloop&?&?&?); [|done|done|simpl in *; lia|].
    { eapply Inv_exempt, HI2. unfold two. naive_solver. }
    exists s', sg'', se''. change (deferq_ (ent s e)) with (dq s (OE e)).
    simpl in Hdel. rewrite He, next_in_mid by (by rewrite <-He). rewrite Hdel. simpl. rewrite Hrun. simpl.
    simpl in Hhg. rewrite <-Hhg, <-Hhe. split_and!; [done..|by etrans|done].
Qed.

Lemma QueryTaskGroup_Some g s :
  AllocOk s → is_Some (groups s !! g) → QueryTaskGroup g s = Ret (Some g).
Proof.
  intros HA Hg. pose proof (a_group s HA g Hg). unfold QueryTaskGroup.
  rewrite assert_that_true by (apply andb_true_intro; split; [apply Z.leb_le|apply Z.ltb_lt]; lia).
  by destruct (groups s !! g); [|destruct Hg].
Qed.

Lemma RunCombinedDeferQ_spec e s :
  is_Some (entries s !! e) → is_Some (groups s !! id_of e) →
  Inv None (λ o _, o = OG (id_of e) ∨ o = OE e) s →
  ∃ s', RunCombinedDeferQ e s = Ret s' ∧ Inv None none_exempt s' ∧ adv s s'.
Proof.
  intros He Hg HI. pose proof (i_alloc _ _ _ HI) as HA. unfold RunCombinedDeferQ.
  destruct (a_fields s HA e He) as [-> _]. rewrite QueryTaskGroup_Some by done. simpl.
  set (g := id_of e) in *.
  destruct (RunCombinedDeferQ_loop_spec e g (deferq_fuel s (dq s (OG g) ++ dq s (OE e))) s
    [] (dq s (OG g)) [] (dq s (OE e))) as (s1&sg&se&Hloop&HI1&Hadv&Hemp); [|done|done|..].
  { eapply Inv_exempt, HI. unfold two. naive_solver. }
  { unfold deferq_fuel. rewrite length_app. pose proof (nwait_size s). lia. }
  change (g_deferq (grp s g)) with (dq s (OG g)). change (deferq_ (ent s e)) with (dq s (OE e)).
  rewrite Hloop. simpl.
  assert (Hone : ∀ o, Inv None (λ o' _, o' = o) s1 →
    ∃ s', RunDeferQ_loop (deferq_fuel s1 (dq s1 o)) o (head (dq s1 o)) s1 = Ret s' ∧
      Inv None none_exempt s' ∧ adv s s').
  { intros o Ho. destruct (RunDeferQ_loop_all o s1 Ho) as (s'&?&?&?). exists s'.
    split_and!; [done..|by etrans]. }
  destruct sg as [|x sg]; simpl.
  - destruct se as [|y se]; simpl.
    + exists s1. split_and!; [done| |done]. eapply Inv_exempt, HI1. unfold two. set_solver.
    + apply (Hone (OE e)). eapply Inv_exempt, HI1. unfold two. set_solver.
  - destruct Hemp as [?| ->]; [done|].
    apply (Hone (OG g)). eapply Inv_exempt, HI1. unfold two. set_solver.
Qed.
End Run.
