(* ===== verification/TaskOps.v ===== *)
(** * The public operations of the task scheduler keep its invariant

    The allocation of groups and entries, changes of one task object, and
    [EnqueueUnLocked]: it keeps the invariant of [TaskInv] and fails exactly when
    the group is disabled and the entry has a waiting task already ([crowded]). *)

From stdpp Require Import gmap.
From Stdlib Require Import Sorted.
From S2P Require Import Prelude Task TaskInv TaskRun.
Open Scope Z_scope.

(** ** Changing one task object *)

(** [s'] differs from [s] in the object of task [t] (and in the counter). *)
Record retask (t : nat) (s s' : Sched) : Prop := {
  rt_ne x : x ≠ t → tasks s' !! x = tasks s !! x;
  rt_running : running_ s' = running_ s;
  rt_seqno : sched_seqno s ≤ sched_seqno s' < 2 ^ 64;
  rt_W : sameW s s';
  rt_R : sameR s s';
  rt_P : sameP s s';
  rt_A : sameA s s';
  rt_D : sameD s s';
}.

Lemma retask_tsk t s s' x : retask t s s' → x ≠ t → tsk s' x = tsk s x.
Proof. intros HR Hx. unfold tsk. by rewrite (rt_ne _ _ _ HR x Hx). Qed.

Lemma tsk_lookup s t T : tasks s !! t = Some T → tsk s t = T.
Proof. unfold tsk. by intros ->. Qed.

(** Counts see a change of [t] only through [t]. *)
Lemma count_retask (P : Task → Prop) `{!∀ T, Decision (P T)} t s s' :
  ¬ P (new_task (-1) (-1)) → (∀ x, x ≠ t → tasks s' !! x = tasks s !! x) →
  (P (tsk s' t) ↔ P (tsk s t)) → count P s' = count P s.
Proof.
  intros Hdef Hne HP. unfold count.
  assert (Hdom : dom (filter (λ p : nat * Task, P p.2) (tasks s')) =
                 dom (filter (λ p : nat * Task, P p.2) (tasks s))).
  { apply set_eq. intros x. rewrite !elem_of_dom.
    assert (Hx : ∀ s0, is_Some (filter (λ p : nat * Task, P p.2) (tasks s0) !! x) ↔ P (tsk s0 x)).
    { intros s0. unfold tsk. split.
      - intros [T [HT HPT]%map_lookup_filter_Some]. by rewrite HT.
      - destruct (tasks s0 !! x) as [T|] eqn:HT; simpl; [|done]. intros HPT. exists T.
        by apply map_lookup_filter_Some. }
    rewrite !Hx. destruct (decide (x = t)) as [->|Hxt]; [done|].
    unfold tsk. by rewrite Hne. }
  by rewrite <-!size_dom, Hdom.
Qed.

(** The observable content of a task object for the scheduler. *)
Record same_role (T T' : Task) : Prop := {
  sr_wait : state_ T' = WAIT ↔ state_ T = WAIT;
  sr_run : is_run T' ↔ is_run T;
  sr_entry : state_ T = WAIT ∨ is_run T → entry_of T' = entry_of T;
  sr_seqno : state_ T = WAIT → seqno_ T' = seqno_ T;
}.

Section Retask.
Context (h : option EntryRef) (X : Owner → EntryRef → Prop) (t : nat) (s s' : Sched).
Context (HI : Inv h X s) (HR : retask t s s') (Hrole : same_role (tsk s t) (tsk s' t)).
Context (Hseq : state_ (tsk s' t) ≠ INIT →
  0 < seqno_ (tsk s' t) ≤ sched_seqno s' ∧ is_Some (entries s !! entry_of (tsk s' t))).
Context (Himpl : state_ (tsk s' t) ≠ RUN → task_impl_ (tsk s' t) = false).
Context (Hids : ∀ T, tasks s' !! t = Some T → 0 ≤ task_id_ T ∧ -1 ≤ task_instance_ T).

Lemma retask_wait x : state_ (tsk s' x) = WAIT ↔ state_ (tsk s x) = WAIT.
Proof.
  destruct (decide (x = t)) as [->|Hx]; [apply Hrole|]. by rewrite (retask_tsk t s s').
Qed.

Lemma retask_seqno x : state_ (tsk s x) = WAIT → seqno_ (tsk s' x) = seqno_ (tsk s x).
Proof.
  destruct (decide (x = t)) as [->|Hx]; [apply Hrole|]. by rewrite (retask_tsk t s s').
Qed.

Lemma retask_TaskOk : TaskOk s'.
Proof.
  pose proof (i_task _ _ _ HI) as HT.
  assert (Hw : ∀ e x, x ∈ wq s e → seqno_ (tsk s' x) = seqno_ (tsk s x)).
  { intros e x Hx%(t_wait s HT). by apply retask_seqno, Hx. }
  split.
  - intros e x. rewrite (rt_W _ _ _ HR), (t_wait s HT). rewrite retask_wait.
    destruct (decide (x = t)) as [->|Hx]; [|by rewrite (retask_tsk t s s')].
    pose proof (sr_entry _ _ Hrole). naive_solver.
  - intros e. rewrite (rt_W _ _ _ HR). eapply ssorted_impl_in, (t_sorted s HT e).
    intros a b Ha Hb. by rewrite (Hw e a), (Hw e b).
  - intros x. destruct (decide (x = t)) as [->|Hx]; [apply Hseq|].
    rewrite (retask_tsk t s s') by done. intros Hx'. pose proof (t_seqno s HT x Hx').
    pose proof (rt_seqno _ _ _ HR). lia.
  - intros x. destruct (decide (x = t)) as [->|Hx]; [done|].
    rewrite (retask_tsk t s s') by done. apply HT.
  - intros a b. rewrite !retask_wait. intros Ha Hb. rewrite !retask_seqno by done. by apply HT.
  - pose proof (rt_seqno _ _ _ HR). pose proof (t_range s HT). lia.
Qed.

Lemma retask_CountOk : CountOk s'.
Proof.
  pose proof (i_count _ _ _ HI) as HC. destruct (rt_R _ _ _ HR) as [R1 R2 R3].
  assert (Hnd : ¬ is_run (new_task (-1) (-1))) by (by intros [? _]).
  split.
  - intros e. rewrite R1, (c_erc s HC). unfold nrun_e. f_equal. symmetry.
    apply (count_retask _ t); [naive_solver|apply HR|].
    pose proof (sr_entry _ _ Hrole). pose proof (sr_run _ _ Hrole). naive_solver.
  - intros g. rewrite R2, (c_grc s HC). unfold nrun_g. f_equal. symmetry.
    apply (count_retask _ t); [naive_solver|apply HR|].
    pose proof (sr_entry _ _ Hrole) as He. rewrite (sr_run _ _ Hrole), <-!entry_of_id.
    split; intros [Hr <-]; (split; [done|]); by rewrite He by auto.
  - intros e He. rewrite R1. by apply HC.
  - intros e x He. rewrite R3, (c_rtask s HC e x He). destruct (decide (x = t)) as [->|Hx].
    + pose proof (sr_entry _ _ Hrole). pose proof (sr_run _ _ Hrole). naive_solver.
    + by rewrite (retask_tsk t s s').
Qed.

Lemma retask_AllocOk : AllocOk s'.
Proof.
  pose proof (i_alloc _ _ _ HI) as HA. destruct (rt_P _ _ _ HR) as [_ P2].
  destruct (rt_A _ _ _ HR) as [A1 A2 A3 A4 A5 A6 A7 A8].
  split; intros *; rewrite ?A1, ?A2, ?A3, ?A4, ?A5, ?A6, ?A7, ?A8, ?P2; try by apply HA.
  - destruct (decide (t0 = t)) as [->|Hx]; [naive_solver|].
    rewrite (retask_tsk t s s') by done. apply HA.
  - destruct (decide (t0 = t)) as [->|Hx]; [apply Hids|].
    rewrite (rt_ne _ _ _ HR) by done. apply HA.
  - apply (a_db s HA).
Qed.

Lemma retask_DeferOk : DeferOk h X s'.
Proof.
  pose proof (i_defer _ _ _ HI) as HD.
  destruct (rt_D _ _ _ HR) as [D1 D2 D3]. destruct (rt_R _ _ _ HR) as [R1 R2 _].
  assert (Hkey : ∀ x, GetTaskDeferEntrySeqno s' x = GetTaskDeferEntrySeqno s x).
  { intros x. unfold GetTaskDeferEntrySeqno. fold (wq s' x) (wq s x). rewrite (rt_W _ _ _ HR).
    destruct (wq s x) as [|y q] eqn:Hq; [done|]. f_equal. apply retask_seqno.
    apply (t_wait s (i_task _ _ _ HI) x). rewrite Hq. set_solver. }
  assert (Hptr : ∀ x, ptr s' x = ptr s x) by (intros; apply sameD_ptr, HR).
  assert (Hpark : ∀ x, parked s' x ↔ parked s x) by (intros; apply sameF_parked, sameA_F, HR).
  split; intros *; rewrite ?D1, ?D2, ?D3, ?Hptr, ?Hpark, ?(rt_W _ _ _ HR); try apply HD.
  - eapply ssorted_impl_in, (d_sorted _ _ _ HD). intros a b _ _. by rewrite (cmp_key s s').
  - intros [Ha|?]%(d_active _ _ _ HD); [left|by right].
    eapply active_mono, Ha; intros *; by rewrite ?R1, ?R2, ?(rt_running _ _ _ HR), ?(sA_gdis _ _ (rt_A _ _ _ HR)).
  - intros Hb%(d_block _ _ _ HD). eapply blocks_same; [apply HR|done].
Qed.

Lemma retask_Inv : Inv h X s'.
Proof.
  split; [apply retask_TaskOk|apply retask_CountOk| |apply retask_AllocOk|apply retask_DeferOk].
  eapply PolicyOk_same, (i_policy _ _ _ HI); apply HR.
Qed.
End Retask.

(** ** Allocation of groups and entries *)

(** [s'] has more objects than [s]; the new ones are idle. *)
Record ext (s s' : Sched) : Prop := {
  x_T : sameT s s';
  x_W : sameW s s';
  x_R : sameR s s';
  x_D : sameD s s';
  x_F : sameF s s';
  x_pol g : pol s' g = pol s g;
  x_epol e : epol s' e = epol s e ∨ entries s !! e = None ∧ epol s' e = [e];
  x_groups g : is_Some (groups s !! g) → is_Some (groups s' !! g);
  x_entries e : is_Some (entries s !! e) → is_Some (entries s' !! e);
}.

Lemma ext_refl s : ext s s.
Proof. split; try done. intros e. by left. Qed.

Lemma ext_epol s s' e f : ext s s' → f ∈ epol s e → epol s' e = epol s e.
Proof.
  intros HX Hf. destruct (x_epol _ _ HX e) as [|[Hn _]]; [done|].
  unfold epol, ent in Hf. rewrite Hn in Hf. set_solver.
Qed.

Lemma Inv_ext h X s s' : Inv h X s → ext s s' → AllocOk s' → Inv h X s'.
Proof.
  intros [HT HC HP HA HD] HX HA'. pose proof HX as [XT XW XR XD XF Xp Xe _ _].
  pose proof XR as XR0. destruct XR as [R1 R2 R3]. split; [by eapply TaskOk_same|by eapply CountOk_same| |done|].
  - destruct HP as [H1 H2 H3 H4]. split; intros *; rewrite ?R1, ?R2, ?Xp; try by auto.
    + intros Hf. destruct (Xe e) as [E|[_ E]]; rewrite E in Hf.
      * apply H2 in Hf as Hf'. by rewrite (ext_epol s s' f e).
      * apply list_elem_of_singleton in Hf as ->. rewrite E. set_solver.
    + intros Hne Hf. destruct (Xe e) as [E|[_ E]]; rewrite E in Hf; [by apply H4|set_solver].
  - destruct XD as [D1 D2 D3].
    assert (Hptr : ∀ x, ptr s' x = ptr s x) by (intros; by apply sameD_ptr).
    assert (Hpark : ∀ x, parked s' x ↔ parked s x) by (intros; by apply sameF_parked).
    split; intros *; rewrite ?D1, ?D2, ?D3, ?Hptr, ?Hpark, ?XW; try apply HD.
    + eapply ssorted_impl_in, (d_sorted _ _ _ HD). intros a b _ _. by rewrite (cmp_frame s s').
    + intros Hin. rewrite (active_same s s') by done. by apply HD.
    + intros Hb%(d_block _ _ _ HD). eapply blocks_mono, Hb; [intros ??; by rewrite Xp|].
      intros x f Hf. by rewrite (ext_epol s s' x f).
Qed.

Lemma ext_trans s1 s2 s3 : ext s1 s2 → ext s2 s3 → ext s1 s3.
Proof.
  intros [[] XW1 [] [] [] ? E1 ? N1] [[] XW2 [] [] [] ? E2 ??].
  split; [split; etrans; eauto| |split; intros; etrans; eauto|split; intros; etrans; eauto|
    split; intros; etrans; eauto|intros; etrans; eauto| |eauto|eauto].
  - intros x. by rewrite XW2, XW1.
  - intros e. destruct (E1 e) as [F1|[F1 F1']], (E2 e) as [F2|[F2 F2']].
    + left. congruence.
    + right. split; [|done]. apply eq_None_not_Some. intros Hs%N1. rewrite F2 in Hs. by destruct Hs.
    + right. split; congruence.
    + by right.
Qed.

Lemma new_entry_ext s e :
  entries s !! e = None → ext s (put_ent e (new_TaskEntry (id_of e) (inst_of e)) s).
Proof.
  intros He. assert (Hent : ent s e = new_TaskEntry (-1) (-1)) by (unfold ent; by rewrite He).
  split.
  - split; acc.
  - intros x. acc. by rewrite Hent.
  - split; intros; acc; by rewrite Hent.
  - split; intros; try destruct o; acc; by rewrite Hent.
  - split; intros; acc; by rewrite Hent.
  - intros g. acc.
  - intros x. unfold epol. rewrite ent_put_ent. case_decide; subst; [|by left]. rewrite Hent. simpl.
    destruct (Z.eqb_spec (inst_of e) (-1)); [by left|right]. by destruct e.
  - done.
  - intros x. unfold put_ent; simpl. rewrite lookup_insert_is_Some. destruct (decide (e = x)); naive_solver.
Qed.

Lemma new_group_ext s g : groups s !! g = None → ext s (put_grp g new_TaskGroup s).
Proof.
  intros Hg. assert (Hgrp : grp s g = new_TaskGroup) by (unfold grp; by rewrite Hg).
  split; [split; acc|intros x; acc|split; intros; acc; by rewrite Hgrp|..].
  - split; intros; try destruct o; acc; by rewrite Hgrp.
  - split; intros; acc; by rewrite Hgrp.
  - intros x. acc. by rewrite Hgrp.
  - by left.
  - intros x. unfold put_grp; simpl. rewrite lookup_insert_is_Some. destruct (decide (g = x)); naive_solver.
  - done.
Qed.

Lemma insert_is_Some {K A} `{Countable K} (m : gmap K A) i x j :
  is_Some (<[i := x]> m !! j) ↔ j = i ∨ is_Some (m !! j).
Proof. rewrite lookup_insert_is_Some. destruct (decide (i = j)); naive_solver. Qed.

Definition with_group (g : Z) (s : Sched) : Sched :=
  put_ent (EDisable g) (new_TaskEntry g (-1))
    (put_ent (EGroup g) (new_TaskEntry g (-1)) (put_grp g new_TaskGroup s)).

Lemma with_group_AllocOk g s :
  AllocOk s → groups s !! g = None → 0 ≤ g < group_db_size s → AllocOk (with_group g s).
Proof.
  intros HA HG Hg. unfold with_group.
  split; intros *; simpl; rewrite ?insert_is_Some; try by apply HA.
  - intros [->|Hs]; [lia|]. by apply HA.
  - pose proof (a_gentry s HA g0). naive_solver.
  - pose proof (a_dentry s HA g0). naive_solver.
  - intros [?|[?|Hs]]; [done..|]. destruct (a_inst s HA g0 i Hs) as [Hi Hs'].
    assert (g0 ≠ g) by (intros ->; rewrite HG in Hs'; by destruct Hs').
    autorewrite with sched. rewrite decide_False by done. auto.
  - autorewrite with sched. intros Hs. repeat goal_decide; subst; try done.
    destruct Hs as [?|[?|Hs]]; [done..|]. by apply HA.
  - unfold epol. autorewrite with sched. intros Hs Hi. repeat goal_decide; subst; try done.
    destruct Hs as [?|[?|Hs]]; [done..|]. by apply (a_self s HA).
  - intros Hs. right; right. by apply HA.
  - apply (a_db s HA).
  - right; right. apply HA.
Qed.

Lemma group_db_AllocOk n s : AllocOk s → group_db_size s ≤ n → AllocOk (set_group_db_size n s).
Proof.
  intros HA Hn. pose proof (a_db s HA). split; try by apply HA.
  - intros g Hg. pose proof (a_group s HA g Hg). simpl. lia.
  - simpl. lia.
Qed.

Lemma GetTaskGroup_ext g s :
  AllocOk s → 0 ≤ g →
  ∃ s', GetTaskGroup g s = Ret s' ∧ ext s s' ∧ AllocOk s' ∧ is_Some (groups s' !! g) ∧
    (∀ x, grp s' x = grp s x).
Proof.
  intros HA Hg. unfold GetTaskGroup. rewrite assert_that_true by (by apply Z.leb_le). simpl.
  set (s1 := if group_db_size s <=? g then set_group_db_size (g + kVectorGrowSize) s else s).
  assert (H1 : AllocOk s1 ∧ g < group_db_size s1 ∧ groups s1 = groups s ∧ ext s s1).
  { subst s1. destruct (Z.leb_spec (group_db_size s) g); [|by pose proof (ext_refl s)].
    unfold kVectorGrowSize. split_and!; [apply group_db_AllocOk; [done|lia]|simpl; lia|done|].
    split; try done; try by split. intros ?. by left. }
  destruct H1 as (HA1&Hsz&Hgr&Hx). clearbody s1.
  assert (Hgs : ∀ x, grp s1 x = grp s x) by (intros; unfold grp; by rewrite Hgr).
  rewrite Hgr. destruct (groups s !! g) as [G|] eqn:HG.
  - exists s1. by rewrite Hgr, HG.
  - assert (Hg1 : groups s1 !! g = None) by (by rewrite Hgr).
    assert (Hge : entries s1 !! EGroup g = None).
    { apply eq_None_not_Some. rewrite <-(a_gentry s1 HA1), Hg1. by intros []. }
    assert (Hde : entries s1 !! EDisable g = None).
    { apply eq_None_not_Some. rewrite <-(a_dentry s1 HA1), Hg1. by intros []. }
    exists (with_group g s1). split; [done|]. split_and!; [|by apply with_group_AllocOk| |].
    + eapply ext_trans; [exact Hx|].
      eapply ext_trans; [apply (new_group_ext s1 g); by rewrite Hgr|].
      eapply ext_trans; [apply (new_entry_ext _ (EGroup g)); by simpl|].
      apply (new_entry_ext _ (EDisable g)). simpl. by rewrite lookup_insert_ne.
    + simpl. by rewrite lookup_insert_eq.
    + intros x. unfold with_group. acc. unfold grp. by rewrite HG.
Qed.

(** The entry of an instance of a group. *)
Definition entry_for (g i : Z) : EntryRef := if i =? -1 then EGroup g else EInst g i.

Lemma entry_db_AllocOk g n s :
  AllocOk s → is_Some (groups s !! g) → entry_db_size (grp s g) ≤ n →
  AllocOk (upd_grp g (set_entry_db_size n) s).
Proof.
  intros HA Hg Hn. assert (Hs : ∀ x, is_Some (groups (upd_grp g (set_entry_db_size n) s) !! x) ↔
    is_Some (groups s !! x)).
  { intros x. simpl. rewrite insert_is_Some. naive_solver. }
  split; intros *; rewrite ?Hs; try by apply HA.
  - intros Hi. destruct (a_inst s HA g0 i Hi). split; [|done]. acc; simpl; lia.
  - apply (a_db s HA).
Qed.

Lemma with_entry_AllocOk g i s :
  AllocOk s → is_Some (groups s !! g) → 0 ≤ i < entry_db_size (grp s g) →
  AllocOk (put_ent (EInst g i) (new_TaskEntry g i) s).
Proof.
  intros HA Hg Hi.
  split; intros *; simpl; rewrite ?insert_is_Some; try by apply HA.
  - pose proof (a_gentry s HA g0). naive_solver.
  - pose proof (a_dentry s HA g0). naive_solver.
  - intros [[= -> ->]|Hs]; [done|]. by apply HA.
  - intros Hs. acc. destruct Hs as [?|Hs]; [done|]. by apply HA.
  - intros Hs Hn. acc; simpl.
    + destruct (Z.eqb_spec i (-1)); [lia|set_solver].
    + destruct Hs as [?|Hs]; [done|]. by apply (a_self s HA).
  - intros Hs. right. by apply HA.
  - apply (a_db s HA).
  - right. apply HA.
Qed.

Lemma GroupGetTaskEntry_ext g i s :
  AllocOk s → is_Some (groups s !! g) → -1 ≤ i →
  ∃ s', GroupGetTaskEntry g i s = Ret (entry_for g i, s') ∧ ext s s' ∧ AllocOk s' ∧
    is_Some (entries s' !! entry_for g i) ∧ (∀ x, is_Some (groups s' !! x) ↔ is_Some (groups s !! x)) ∧
    (∀ x, policy_set_ (grp s' x) = policy_set_ (grp s x)).
Proof.
  intros HA Hg Hi. unfold GroupGetTaskEntry, entry_for. destruct (Z.eqb_spec i (-1)) as [->|Hi1].
  { exists s. split_and!; try done; [apply ext_refl|]. by apply HA. }
  set (s1 := if entry_db_size (grp s g) <=? i
             then upd_grp g (set_entry_db_size (i + kVectorGrowSize)) s else s).
  assert (H1 : AllocOk s1 ∧ ext s s1 ∧ i < entry_db_size (grp s1 g) ∧
    (∀ x, is_Some (groups s1 !! x) ↔ is_Some (groups s !! x)) ∧
    (∀ x, policy_set_ (grp s1 x) = policy_set_ (grp s x))).
  { subst s1. destruct (Z.leb_spec (entry_db_size (grp s g)) i); [|by pose proof (ext_refl s)].
    unfold kVectorGrowSize. split_and!.
    - by apply entry_db_AllocOk; [..|lia].
    - split; [split; acc|intros x; acc|split; intros; acc|split; intros; try destruct o; acc|
        split; intros; acc|intros; acc|by left| |done].
      intros x. simpl. rewrite insert_is_Some. by right.
    - acc. lia.
    - intros x. simpl. rewrite insert_is_Some. naive_solver.
    - intros x. acc. }
  destruct H1 as (HA1&Hx&Hsz&Hgr&Hps). clearbody s1.
  rewrite assert_that_true by (apply Z.leb_le; lia). simpl.
  destruct (entries s1 !! EInst g i) as [E|] eqn:HE.
  - exists s1. by rewrite HE.
  - eexists. split; [done|]. split_and!; [| | |done|done].
    + eapply ext_trans; [exact Hx|]. by apply (new_entry_ext s1 (EInst g i)).
    + apply with_entry_AllocOk; [done|by apply Hgr|lia].
    + simpl. by rewrite lookup_insert_eq.
Qed.

Lemma GetTaskEntry_ext g i s :
  AllocOk s → 0 ≤ g → -1 ≤ i →
  ∃ s', GetTaskEntry g i s = Ret (entry_for g i, s') ∧ ext s s' ∧ AllocOk s' ∧
    is_Some (entries s' !! entry_for g i) ∧ is_Some (groups s' !! g) ∧
    (∀ x, policy_set_ (grp s' x) = policy_set_ (grp s x)).
Proof.
  intros HA Hg Hi. destruct (GetTaskGroup_ext g s HA Hg) as (s1&H1&X1&A1&G1&P1).
  destruct (GroupGetTaskEntry_ext g i s1 A1 G1 Hi) as (s2&H2&X2&A2&E2&G2&P2).
  exists s2. unfold GetTaskEntry. rewrite H1. simpl. split_and!; try done.
  - by eapply ext_trans.
  - by apply G2.
  - intros x. by rewrite P2, P1.
Qed.

(** Only statistics differ. *)
Record idle (s s' : Sched) : Prop := { id_frame : frame s s'; id_D : sameD s s' }.

Lemma idle_ext s s' : idle s s' → ext s s'.
Proof.
  intros [[T W R P A] D]. split; try done; [by apply sameA_F|apply P|left; apply P|..]; intros ?; apply A.
Qed.
Lemma Inv_idle h X s s' : Inv h X s → idle s s' → Inv h X s'.
Proof.
  intros HI HD. eapply Inv_ext; [done|by apply idle_ext|].
  destruct HD as [[T W R P A] _]. eapply AllocOk_same; [done..|]. apply HI.
Qed.

Lemma idle_grp_stats g f s : is_Some (groups s !! g) → idle s (upd_grp g (upd_g_stats f) s).
Proof.
  intros Hg. split; [split; [split; acc|intros x; acc|split; intros; acc|split; intros; acc|same_alloc]|].
  split; intros; try destruct o; acc.
Qed.
Lemma idle_ent_stats e f s : is_Some (entries s !! e) → idle s (upd_ent e (upd_e_stats f) s).
Proof.
  intros He. split; [split; [split; acc|intros x; acc|split; intros; acc|split; intros; acc|same_alloc]|].
  split; intros; try destruct o; acc.
Qed.

(** ** Wait queues *)

Record queued (e : EntryRef) (t : nat) (s s' : Sched) : Prop := {
  qd_tasks : tasks s' = <[t := set_state WAIT (tsk s t)]> (tasks s);
  qd_running : running_ s' = running_ s;
  qd_seqno : sched_seqno s' = sched_seqno s;
  qd_wq : wq s' e = wq s e ++ [t];
  qd_wq_ne x : x ≠ e → wq s' x = wq s x;
  qd_R : sameR s s';
  qd_P : sameP s s';
  qd_A : sameA s s';
  qd_D : sameD s s';
}.

Lemma AddToWaitQ_spec e t s :
  AllocOk s → is_Some (entries s !! e) → is_Some (groups s !! id_of e) →
  ∃ s', AddToWaitQ e t s = Ret s' ∧ queued e t s s'.
Proof.
  intros HA He Hg. unfold AddToWaitQ.
  set (s1 := upd_tsk t (set_state WAIT) s).
  set (s2 := upd_ent e (λ E, set_waitq (waitq_ E ++ [t]) (upd_e_stats inc_wait E)) s1).
  assert (Hid : e_task_id (ent s2 e) = id_of e).
  { subst s2 s1. acc. by apply HA. }
  assert (Hgr : groups s2 = groups s) by done.
  assert (HG : GetTaskGroup (id_of e) s2 = Ret s2).
  { pose proof (a_group s HA _ Hg). unfold GetTaskGroup.
    rewrite assert_that_true by (apply Z.leb_le; lia). simpl.
    destruct (Z.leb_spec (group_db_size s) (id_of e)); [lia|].
    rewrite Hgr. by destruct (groups s !! id_of e); [|destruct Hg]. }
  rewrite Hid, HG. simpl. rewrite Hid. eexists. split; [done|].
  assert (HA2 : sameA s s2).
  { subst s2 s1. etrans; [|apply sameA_upd_ent; done]. by split. }
  split; try done.
  - subst s2 s1. acc.
  - intros x Hx. subst s2 s1. acc.
  - split; intros; subst s2 s1; acc.
  - split; intros; subst s2 s1; acc.
  - etrans; [exact HA2|]. apply sameA_upd_grp; [by rewrite Hgr|done].
  - split; intros; try destruct o; subst s2 s1; acc.
Qed.

Section Queued.
Context (X : Owner → EntryRef → Prop) (e : EntryRef) (t : nat) (s s' : Sched).
Context (HI : Inv None X s) (HQ : queued e t s s').
Context (Hex : is_Some (tasks s !! t)) (Hinit : state_ (tsk s t) = INIT).
Context (He : entry_of (tsk s t) = e) (Hee : is_Some (entries s !! e)).
Context (Hseq : 0 < seqno_ (tsk s t) ≤ sched_seqno s).
Context (Hlast : ∀ x, state_ (tsk s x) ≠ INIT → seqno_ (tsk s x) < seqno_ (tsk s t)).

Lemma queued_tsk x : tsk s' x = if decide (x = t) then set_state WAIT (tsk s t) else tsk s x.
Proof.
  unfold tsk at 1. rewrite (qd_tasks _ _ _ _ HQ).
  destruct (decide (x = t)) as [->|Hx]; [by rewrite lookup_insert_eq|by rewrite lookup_insert_ne].
Qed.
Lemma queued_seqno x : seqno_ (tsk s' x) = seqno_ (tsk s x).
Proof. rewrite queued_tsk. by destruct (decide (x = t)) as [->|]. Qed.

Lemma queued_TaskOk : TaskOk s'.
Proof.
  pose proof (i_task _ _ _ HI) as HT.
  assert (Hnot : ∀ x, t ∉ wq s x).
  { intros x Hx%(t_wait s HT). destruct Hx. congruence. }
  split.
  - intros x y. rewrite queued_tsk. destruct (decide (x = e)) as [->|Hx].
    + rewrite (qd_wq _ _ _ _ HQ), elem_of_app, list_elem_of_singleton, (t_wait s HT).
      case_decide; subst; simpl; [split; [done|by right]|]. naive_solver.
    + rewrite (qd_wq_ne _ _ _ _ HQ) by done. rewrite (t_wait s HT).
      case_decide; subst; [|done]. split; [naive_solver congruence|]. by intros [_ ?].
  - intros x. eapply (ssorted_impl_in (λ a b, seqno_ (tsk s a) < seqno_ (tsk s b))).
    { intros a b _ _. by rewrite !queued_seqno. }
    destruct (decide (x = e)) as [->|Hx]; [|rewrite (qd_wq_ne _ _ _ _ HQ) by done; apply HT].
    rewrite (qd_wq _ _ _ _ HQ). apply ssorted_app. split_and!; [apply HT|repeat constructor|].
    intros a b Ha ->%list_elem_of_singleton. apply Hlast.
    apply (t_wait s HT) in Ha as [-> _]. done.
  - intros x. rewrite queued_seqno, (qd_seqno _ _ _ _ HQ), queued_tsk.
    case_decide; subst; [done|]. apply HT.
  - intros x. rewrite queued_tsk. case_decide; subst; [|apply HT]. intros _. apply HT. congruence.
  - intros a b. rewrite !queued_seqno, !queued_tsk.
    repeat case_decide; subst; try done; [| |apply HT]; intros Hw1 Hw2 Hs; exfalso.
    + assert (state_ (tsk s b) ≠ INIT) as Hb by congruence. specialize (Hlast b Hb). lia.
    + assert (state_ (tsk s a) ≠ INIT) as Ha by congruence. specialize (Hlast a Ha). lia.
  - rewrite (qd_seqno _ _ _ _ HQ). apply HT.
Qed.

Lemma queued_CountOk : CountOk s'.
Proof.
  pose proof (i_count _ _ _ HI) as HC. destruct (qd_R _ _ _ _ HQ) as [R1 R2 R3].
  assert (Hn : ¬ is_run (new_task (-1) (-1))) by (by intros [? _]).
  assert (Hn1 : ¬ is_run (tsk s t)) by (intros [? _]; congruence).
  assert (Hn2 : ¬ is_run (tsk s' t)) by (rewrite queued_tsk, decide_True by done; by intros [? _]).
  assert (Hlk : ∀ x, x ≠ t → tasks s' !! x = tasks s !! x).
  { intros x Hx. rewrite (qd_tasks _ _ _ _ HQ). by rewrite lookup_insert_ne. }
  split.
  - intros x. rewrite R1, (c_erc s HC). unfold nrun_e. f_equal. symmetry.
    apply (count_retask _ t); [naive_solver|done|naive_solver].
  - intros x. rewrite R2, (c_grc s HC). unfold nrun_g. f_equal. symmetry.
    apply (count_retask _ t); [naive_solver|done|naive_solver].
  - intros x Hx. rewrite R1. by apply HC.
  - intros x y Hx. rewrite R3, (c_rtask s HC x y Hx).
    destruct (decide (y = t)) as [->|Hy]; [naive_solver|]. rewrite queued_tsk.
    by rewrite decide_False.
Qed.

Lemma queued_AllocOk : AllocOk s'.
Proof.
  pose proof (i_alloc _ _ _ HI) as HA. destruct (qd_P _ _ _ _ HQ) as [_ P2].
  destruct (qd_A _ _ _ _ HQ) as [A1 A2 A3 A4 A5 A6 A7 A8].
  split; intros *; rewrite ?A1, ?A2, ?A3, ?A4, ?A5, ?A6, ?A7, ?A8, ?P2; try by apply HA.
  - rewrite queued_tsk. case_decide; subst; [done|]. apply HA.
  - rewrite (qd_tasks _ _ _ _ HQ), lookup_insert_Some. intros [[<- <-]|[_ ?]]; [|by eapply HA].
    destruct Hex as [T HT]. pose proof (a_ids s HA t T HT). unfold tsk. by rewrite HT.
  - apply (a_db s HA).
Qed.

Lemma queued_DeferOk_first : wq s e = [] → DeferOk (Some e) X s'.
Proof.
  intros Hq. pose proof (i_defer _ _ _ HI) as HD. destruct (qd_D _ _ _ _ HQ) as [D1 D2 D3].
  destruct (qd_R _ _ _ _ HQ) as [R1 R2 _].
  assert (Hp : ptr s e = None).
  { destruct (ptr s e) eqn:Hp; [|done]. destruct (d_wait _ _ _ HD e); [by eexists|done]. }
  assert (Hnone : pG s e = None ∧ pE s e = None).
  { unfold ptr in Hp. by destruct (pG s e), (pE s e). }
  apply (DeferOk_drop None (Some e) X e s); try done; [..|by right].
  - intros o. rewrite D1, list_remove_fresh; [done|]. rewrite (d_ptr _ _ _ HD). congruence.
  - intros x Hx. by rewrite D2, D3, (qd_wq_ne _ _ _ _ HQ).
  - rewrite D3. apply Hnone.
  - rewrite D2. apply Hnone.
  - intros x. left. apply queued_seqno.
  - intros o. apply active_mono; intros *;
      by rewrite ?R1, ?R2, ?(qd_running _ _ _ _ HQ), ?(sA_gdis _ _ (qd_A _ _ _ _ HQ)).
  - apply HQ.
  - apply sameA_F, HQ.
Qed.

Lemma queued_DeferOk_more : wq s e ≠ [] → DeferOk None X s'.
Proof.
  intros Hq. pose proof (i_defer _ _ _ HI) as HD. destruct (qd_D _ _ _ _ HQ) as [D1 D2 D3].
  destruct (qd_R _ _ _ _ HQ) as [R1 R2 _].
  assert (Hw : ∀ x, wq s' x ≠ [] ↔ wq s x ≠ []).
  { intros x. destruct (decide (x = e)) as [->|Hx]; [|by rewrite (qd_wq_ne _ _ _ _ HQ)].
    rewrite (qd_wq _ _ _ _ HQ). split; [done|]. intros _. by destruct (wq s e). }
  assert (Hkey : ∀ x, GetTaskDeferEntrySeqno s' x = GetTaskDeferEntrySeqno s x).
  { intros x. unfold GetTaskDeferEntrySeqno. fold (wq s' x) (wq s x).
    destruct (decide (x = e)) as [->|Hx].
    - rewrite (qd_wq _ _ _ _ HQ). destruct (wq s e); [done|]. simpl. by rewrite queued_seqno.
    - rewrite (qd_wq_ne _ _ _ _ HQ) by done. destruct (wq s x); by rewrite ?queued_seqno. }
  assert (Hptr : ∀ x, ptr s' x = ptr s x) by (intros; apply sameD_ptr, HQ).
  assert (Hpark : ∀ x, parked s' x ↔ parked s x) by (intros; apply sameF_parked, sameA_F, HQ).
  split; intros *; rewrite ?D1, ?D2, ?D3, ?Hptr, ?Hpark, ?Hw; try apply HD.
  - eapply ssorted_impl_in, (d_sorted _ _ _ HD). intros a b _ _. by rewrite (cmp_key s s').
  - intros [Ha|?]%(d_active _ _ _ HD); [left|by right].
    eapply active_mono, Ha; intros *;
      by rewrite ?R1, ?R2, ?(qd_running _ _ _ _ HQ), ?(sA_gdis _ _ (qd_A _ _ _ _ HQ)).
  - intros Hb%(d_block _ _ _ HD). eapply blocks_same; [apply HQ|done].
Qed.

Lemma queued_Inv :
  (wq s e = [] → Inv (Some e) X s') ∧ (wq s e ≠ [] → Inv None X s').
Proof.
  assert (PolicyOk s') by (eapply PolicyOk_same, (i_policy _ _ _ HI); apply HQ).
  split; intros Hq; (split; [apply queued_TaskOk|apply queued_CountOk|done|apply queued_AllocOk|]).
  - by apply queued_DeferOk_first.
  - by apply queued_DeferOk_more.
Qed.
End Queued.

(** ** Enqueue *)

(** A task may start at once. *)
Definition admissible (s : Sched) (T : Task) : Prop :=
  running_ s = true ∧ wq s (entry_of T) = [] ∧
  g_disable (grp s (task_id_ T)) = false ∧ e_disable (ent s (entry_of T)) = false ∧
  (∀ h, h ∈ pol s (task_id_ T) → grc s h = 0) ∧
  (∀ f, f ∈ epol s (entry_of T) → erc s f = 0).

(** The group of an entry is disabled and a task of the entry waits already:
    the entry is linked, and a further task would have it linked again. *)
Definition crowded (s : Sched) (e : EntryRef) : Prop :=
  g_disable (grp s (id_of e)) = true ∧ wq s e ≠ [].

(** What an enqueue does to the task objects. *)
Record enqueued (t : nat) (s s' : Sched) : Prop := {
  en_ne x : x ≠ t → tasks s' !! x = tasks s !! x;
  en_seqno : sched_seqno s' = sched_seqno s + 1;
  en_running : running_ s' = running_ s;
  en_tseqno : seqno_ (tsk s' t) = sched_seqno s';
  en_start : admissible s (tsk s t) →
    tsk s' t = started_task (set_seqno (sched_seqno s') (tsk s t)) ∧ (∀ x, wq s' x = wq s x);
  en_wait : ¬ admissible s (tsk s t) →
    tsk s' t = set_state WAIT (set_seqno (sched_seqno s') (tsk s t)) ∧
    wq s' (entry_of (tsk s t)) = wq s (entry_of (tsk s t)) ++ [t] ∧
    ∀ x, x ≠ entry_of (tsk s t) → wq s' x = wq s x;
}.

Section Enqueue.
Context `{!IntrusiveSet EntryRef}.

Lemma entry_for_of T : entry_for (task_id_ T) (task_instance_ T) = entry_of T.
Proof. done. Qed.

(** The state in which the policies are checked. *)
Record prepared (t : nat) (s sp : Sched) : Prop := {
  pr_inv : Inv None none_exempt sp;
  pr_ne x : x ≠ t → tasks sp !! x = tasks s !! x;
  pr_tsk : tasks sp !! t = Some (set_seqno (sched_seqno sp) (tsk s t));
  pr_seqno : sched_seqno sp = sched_seqno s + 1;
  pr_running : running_ sp = running_ s;
  pr_wq x : wq sp x = wq s x;
  pr_grc g : grc sp g = grc s g;
  pr_erc e : erc sp e = erc s e;
  pr_F : sameF s sp;
  pr_pol g : pol sp g = pol s g;
  pr_epol e : epol sp e = epol s e ∨ entries s !! e = None ∧ epol sp e = [e];
  pr_entries e : is_Some (entries s !! e) → is_Some (entries sp !! e);
}.

Lemma ext_prepared t s sp sp' :
  prepared t s sp → ext sp sp' → AllocOk sp' → prepared t s sp'.
Proof.
  intros [] HX HA. pose proof HX as [[T1 T2 T3] XW [R1 R2 _] _ [F1 F2] XP XE XG XN].
  split; intros; rewrite ?T1, ?T2, ?T3, ?XW, ?R1, ?R2, ?XP; eauto using Inv_ext.
  { destruct pr_F0. split; intros; congruence. }
  destruct (XE e) as [->|[H1 ->]]; [done|]. right. split; [|done].
  apply eq_None_not_Some. intros Hs%pr_entries0. rewrite H1 in Hs. by destruct Hs.
Qed.

Lemma prepared_first t s :
  Inv None none_exempt s → is_Some (tasks s !! t) → state_ (tsk s t) = INIT → seqno_ok s →
  prepared t s (upd_tsk t (set_seqno (u64 (sched_seqno s + 1))) (set_sched_seqno (u64 (sched_seqno s + 1))
    (set_counts (u64 (sched_enqueue_count s + 1)) (done_count_ s) (cancel_count_ s) s))).
Proof.
  intros HI Hex Hinit Hok. pose proof (t_range s (i_task _ _ _ HI)) as Hr. unfold seqno_ok in Hok.
  assert (Hu : u64 (sched_seqno s + 1) = sched_seqno s + 1) by (apply wrap_small; lia).
  rewrite Hu. set (sp := upd_tsk _ _ _).
  assert (Ht : tsk sp t = set_seqno (sched_seqno s + 1) (tsk s t)) by (subst sp; acc).
  assert (HR : retask t s sp).
  { split; try done; try by split.
    - intros x Hx. simpl. by rewrite lookup_insert_ne.
    - simpl. lia. }
  split; try done; [|apply HR|simpl; by rewrite lookup_insert_eq|by left].
  eapply (retask_Inv None none_exempt t s); [done|done|..]; rewrite ?Ht; simpl; rewrite ?Hinit.
  - split; simpl; unfold is_run; simpl; rewrite ?Hinit; naive_solver.
  - done.
  - intros _. apply HI. congruence.
  - intros T. simpl. rewrite lookup_insert_eq. intros [= <-]. simpl. destruct Hex as [T0 HT0].
    autorewrite with sched. rewrite (tsk_lookup s t T0 HT0). by apply (a_ids s (i_alloc _ _ _ HI) t T0).
Qed.

Lemma Enqueue_prepared t s :
  Inv None none_exempt s → is_Some (tasks s !! t) → state_ (tsk s t) = INIT → seqno_ (tsk s t) = 0 →
  seqno_ok s →
  ∃ sp, EnqueueUnLocked t s = Enqueue_dispatch t (task_id_ (tsk s t)) (entry_of (tsk s t)) sp ∧
    prepared t s sp ∧ is_Some (entries sp !! entry_of (tsk s t)) ∧
    is_Some (groups sp !! task_id_ (tsk s t)).
Proof.
  intros HI Hex Hinit H0 Hok. pose proof (prepared_first t s HI Hex Hinit Hok) as HP0.
  assert (Hids : 0 ≤ task_id_ (tsk s t) ∧ -1 ≤ task_instance_ (tsk s t)).
  { destruct Hex as [T HT]. rewrite (tsk_lookup s t T HT). by apply (a_ids s (i_alloc _ _ _ HI) t T). }
  unfold EnqueueUnLocked. rewrite assert_that_true by (by apply Z.eqb_eq). simpl.
  change (sched_seqno (set_counts _ _ _ s)) with (sched_seqno s).
  set (sp0 := upd_tsk t _ _) in *.
  assert (Hrole : ∀ sp, prepared t s sp → task_id_ (tsk sp t) = task_id_ (tsk s t) ∧
    task_instance_ (tsk sp t) = task_instance_ (tsk s t)).
  { intros sp Hp. by rewrite (tsk_lookup sp t _ (pr_tsk _ _ _ Hp)). }
  destruct (Hrole sp0 HP0) as [-> _].
  destruct (GetTaskGroup_ext (task_id_ (tsk s t)) sp0) as (s1&H1&X1&A1&G1&_); [apply HP0|lia|].
  rewrite H1. simpl. pose proof (ext_prepared t s sp0 s1 HP0 X1 A1) as HP1.
  set (s2 := upd_grp _ _ s1).
  assert (HI2 : idle s1 s2) by (by apply idle_grp_stats).
  assert (HP2 : prepared t s s2).
  { eapply ext_prepared; [done|by apply idle_ext|]. eapply Inv_idle in HI2; [apply HI2|apply HP1]. }
  destruct (Hrole s2 HP2) as [-> ->].
  destruct (GetTaskEntry_ext (task_id_ (tsk s t)) (task_instance_ (tsk s t)) s2)
    as (s3&H3&X3&A3&E3&G3&_); [apply HP2|lia|lia|].
  rewrite H3. simpl. rewrite entry_for_of in *.
  pose proof (ext_prepared t s s2 s3 HP2 X3 A3) as HP3.
  assert (HI4 : idle s3 (upd_ent (entry_of (tsk s t)) (upd_e_stats inc_enqueue) s3))
    by (by apply idle_ent_stats).
  eexists. split; [done|]. split_and!.
  - eapply ext_prepared; [done|by apply idle_ext|]. eapply Inv_idle in HI4; [apply HI4|apply HP3].
  - apply entries_upd_ent. by left.
  - done.
Qed.

Section Dispatch.
Context (t : nat) (s sp : Sched).
Context (HI : Inv None none_exempt s) (Hp : prepared t s sp).
Context (Hex : is_Some (tasks s !! t)) (Hinit : state_ (tsk s t) = INIT).
Context (Hee : is_Some (entries sp !! entry_of (tsk s t))).
Context (Heg : is_Some (groups sp !! task_id_ (tsk s t))).

Local Abbreviation e := (entry_of (tsk s t)).

Lemma prep_tsk : tsk sp t = set_seqno (sched_seqno sp) (tsk s t).
Proof. apply tsk_lookup, Hp. Qed.

Lemma prep_last x : state_ (tsk sp x) ≠ INIT → seqno_ (tsk sp x) < seqno_ (tsk sp t).
Proof.
  intros Hx. rewrite prep_tsk. simpl. rewrite (pr_seqno _ _ _ Hp).
  destruct (decide (x = t)) as [->|Hxt]; [by rewrite prep_tsk in Hx|].
  assert (Hsame : tsk sp x = tsk s x) by (unfold tsk; by rewrite (pr_ne _ _ _ Hp)).
  rewrite Hsame in *. pose proof (t_seqno s (i_task _ _ _ HI) x Hx). lia.
Qed.

Lemma prep_seqno : 0 < seqno_ (tsk sp t) ≤ sched_seqno sp.
Proof.
  rewrite prep_tsk. simpl. rewrite (pr_seqno _ _ _ Hp).
  pose proof (t_range s (i_task _ _ _ HI)). lia.
Qed.

(** The admission test made by the two [DeferOnPolicyFail]. *)
Lemma prep_admissible :
  admissible s (tsk s t) ↔ running_ sp = true ∧ wq sp e = [] ∧
    g_disable (grp sp (task_id_ (tsk s t))) = false ∧ e_disable (ent sp e) = false ∧
    ActiveGroupInPolicy (task_id_ (tsk s t)) sp = None ∧ ActiveEntryInPolicy e sp = None.
Proof.
  unfold admissible.
  rewrite (pr_running _ _ _ Hp), (pr_wq _ _ _ Hp), (sF_g _ _ (pr_F _ _ _ Hp)), (sF_e _ _ (pr_F _ _ _ Hp)).
  assert (HG : (∀ h, h ∈ pol s (task_id_ (tsk s t)) → grc s h = 0) ↔
    ActiveGroupInPolicy (task_id_ (tsk s t)) sp = None).
  { split.
    - intros Hall. destruct (ActiveGroupInPolicy _ sp) as [h|] eqn:Hh; [|done].
      apply ActiveGroup_Some in Hh as [Hin Hn]. rewrite (pr_pol _ _ _ Hp) in Hin.
      rewrite (pr_grc _ _ _ Hp) in Hn. by destruct Hn; apply Hall.
    - intros Hn h Hh. rewrite <-(pr_grc _ _ _ Hp). apply (ActiveGroup_None _ _ Hn).
      by rewrite (pr_pol _ _ _ Hp). }
  assert (HE : (∀ f, f ∈ epol s e → erc s f = 0) ↔ ActiveEntryInPolicy e sp = None).
  { split.
    - intros Hall. destruct (ActiveEntryInPolicy _ sp) as [f|] eqn:Hf; [|done].
      apply ActiveEntry_Some in Hf as [Hin Hn]. rewrite (pr_erc _ _ _ Hp) in Hn.
      destruct (pr_epol _ _ _ Hp e) as [E|[Hnone E]]; rewrite E in Hin.
      + by destruct Hn; apply Hall.
      + apply list_elem_of_singleton in Hin as ->. unfold erc, ent in Hn. by rewrite Hnone in Hn.
    - intros Hn f Hf. rewrite <-(pr_erc _ _ _ Hp). apply (ActiveEntry_None _ _ Hn).
      destruct (pr_epol _ _ _ Hp e) as [->|[Hnone _]]; [done|].
      unfold epol, ent in Hf. rewrite Hnone in Hf. set_solver. }
  naive_solver.
Qed.

Lemma enqueue_wait s' :
  queued e t sp s' → ¬ admissible s (tsk s t) →
  ∀ s'', sameT s' s'' → sameW s' s'' → enqueued t s s''.
Proof.
  intros HQ Hna s'' HT HW.
  assert (Ht'' : tsk s'' t = set_state WAIT (set_seqno (sched_seqno s'') (tsk s t))).
  { rewrite (sameT_tsk s' s'' t HT), (queued_tsk e t sp s' HQ), decide_True by done.
    by rewrite prep_tsk, (sT_seqno _ _ HT), (qd_seqno _ _ _ _ HQ). }
  split.
  - intros x Hx. rewrite (sT_tasks _ _ HT), (qd_tasks _ _ _ _ HQ), lookup_insert_ne by done.
    by apply Hp.
  - rewrite (sT_seqno _ _ HT), (qd_seqno _ _ _ _ HQ). apply Hp.
  - rewrite (sT_running _ _ HT), (qd_running _ _ _ _ HQ). apply Hp.
  - by rewrite Ht''.
  - done.
  - intros _. split_and!; [done|..].
    + by rewrite HW, (qd_wq _ _ _ _ HQ), (pr_wq _ _ _ Hp).
    + intros x Hx. by rewrite HW, (qd_wq_ne _ _ _ _ HQ), (pr_wq _ _ _ Hp).
Qed.

Lemma prep_queued :
  ∃ s', AddToWaitQ e t sp = Ret s' ∧ queued e t sp s' ∧
    (wq sp e = [] → Inv (Some e) none_exempt s') ∧ (wq sp e ≠ [] → Inv None none_exempt s').
Proof.
  destruct (AddToWaitQ_spec e t sp) as (s'&Hadd&HQ); [apply Hp|done|by rewrite entry_of_id|].
  exists s'. split; [done|]. split; [done|].
  apply (queued_Inv none_exempt e t sp s'); try done; [apply Hp|..].
  - rewrite (pr_tsk _ _ _ Hp). by eexists.
  - by rewrite prep_tsk.
  - by rewrite prep_tsk.
  - apply prep_seqno.
  - apply prep_last.
Qed.

(** The entry is queued and waits on [o]. *)
Lemma enqueue_defer o :
  wq sp e = [] → active sp o → blocks sp o e → ¬ admissible s (tsk s t) →
  ∃ s1 s', AddToWaitQ e t sp = Ret s1 ∧ AddToDeferQ o e s1 = Ret s' ∧
    Inv None none_exempt s' ∧ enqueued t s s'.
Proof.
  intros Hq Ha Hb Hna. destruct prep_queued as (s1&Hadd&HQ&HI1&_). specialize (HI1 Hq).
  destruct (qd_R _ _ _ _ HQ) as [R1 R2 _].
  destruct (AddToDeferQ_spec none_exempt o e s1 HI1) as (s'&l1&l2&Hd&HI'&HF&_).
  - by rewrite (qd_wq _ _ _ _ HQ), Hq.
  - eapply active_mono, Ha; intros *;
      by rewrite ?R1, ?R2, ?(qd_running _ _ _ _ HQ), ?(sA_gdis _ _ (qd_A _ _ _ _ HQ)).
  - eapply blocks_same; [apply HQ|done].
  - exists s1, s'. split_and!; try done. eapply enqueue_wait; [done..|apply HF|apply HF].
Qed.

Lemma enqueue_run :
  admissible s (tsk s t) →
  ∃ s', RunTask e t sp = Ret s' ∧ Inv None none_exempt s' ∧ enqueued t s s'.
Proof.
  intros Had. pose proof Had as (_&Hq&_&_&HG&HE)%prep_admissible.
  pose proof (pr_inv _ _ _ Hp) as HIp. pose proof HIp as [HT HC HP HA HD].
  assert (Hr : runnable sp e) by (apply policies_runnable; rewrite ?entry_of_id; done).
  assert (Hnot : ∀ x, t ∉ wq sp x).
  { intros x Hx%(t_wait sp HT). rewrite prep_tsk in Hx. simpl in Hx. naive_solver congruence. }
  destruct (RunTask_ok e t sp sp) as (s'&Hrun&Hst); try done.
  - by apply unqueued_refl.
  - by rewrite entry_of_id.
  - by rewrite entry_of_id, prep_tsk.
  - by rewrite entry_of_inst, prep_tsk.
  - apply HT. rewrite prep_tsk. simpl. congruence.
  - intros Hi. pose proof (r_inst sp e Hr Hi). split; [done|]. by apply rtask_none.
  - exists s'. split; [done|].
    assert (Hw : ∀ x, wq s' x = wq sp x)
      by (intros; by rewrite (st_wq _ _ _ _ Hst), list_remove_fresh).
    split.
    + eapply (started_Inv None none_exempt e t sp s'); try done.
      * rewrite (pr_tsk _ _ _ Hp). by eexists.
      * rewrite prep_tsk. simpl. congruence.
      * by rewrite prep_tsk.
      * destruct (ptr sp e) eqn:Hptr; [|done]. by destruct (d_wait _ _ _ HD e); [eexists|].
      * apply prep_seqno.
      * by rewrite Hw, Hq.
      * by left.
    + assert (Ht' : tsk s' t = started_task (set_seqno (sched_seqno s') (tsk s t))).
      { rewrite (started_tsk e t sp s' t Hst), decide_True by done.
        by rewrite prep_tsk, (st_seqno _ _ _ _ Hst). }
      split; [| | |by rewrite Ht'| |by intros []].
      * intros x Hx. rewrite (st_tasks _ _ _ _ Hst), lookup_insert_ne by done. by apply Hp.
      * rewrite (st_seqno _ _ _ _ Hst). apply Hp.
      * rewrite (st_running _ _ _ _ Hst). apply Hp.
      * intros _. split; [done|]. intros x. by rewrite Hw, (pr_wq _ _ _ Hp).
Qed.

(** The group or the entry is disabled: the task waits. *)
Lemma dispatch_disabled :
  g_disable (grp sp (task_id_ (tsk s t))) = true ∨ e_disable (ent sp e) = true → ¬ crowded s e →
  ∃ s', Enqueue_dispatch t (task_id_ (tsk s t)) e sp = Ret s' ∧
    Inv None none_exempt s' ∧ enqueued t s s'.
Proof.
  intros Hdis Hcr. pose proof prep_admissible as Had. unfold Enqueue_dispatch.
  rewrite (proj2 (orb_true_iff _ _) Hdis).
  assert (Hna : ¬ admissible s (tsk s t)) by (rewrite Had; intros (_&_&H1&H2&_); destruct Hdis; congruence).
  destruct (g_disable (grp sp (task_id_ (tsk s t)))) eqn:Hg.
  - assert (Hq : wq sp e = []).
    { destruct (wq sp e) eqn:Hq; [done|]. destruct Hcr. unfold crowded.
      by rewrite entry_of_id, <-(sF_g _ _ (pr_F _ _ _ Hp)), <-(pr_wq _ _ _ Hp), Hq. }
    destruct (enqueue_defer (OE (EDisable (task_id_ (tsk s t))))) as (s1&s'&Hadd&Hd&?); try done.
    + right; right. by eexists.
    + simpl. by rewrite entry_of_id.
    + simpl in *. assert (Hg1 : g_disable (grp s1 (task_id_ (tsk s t))) = true).
      { destruct prep_queued as (s0&Hadd'&HQ&_). rewrite Hadd in Hadd'. injection Hadd' as <-.
        by rewrite (sA_gdis _ _ (qd_A _ _ _ _ HQ)). }
      rewrite Hadd. simpl. rewrite Hg1. unfold AddToDisableQ. rewrite Hd. eauto.
  - destruct Hdis as [|He]; [done|]. destruct prep_queued as (s1&->&HQ&HI1&HI2). simpl.
    destruct (qd_A _ _ _ _ HQ) as [_ _ _ _ _ _ A7 A8]. rewrite A7, Hg. exists s1. split; [done|].
    split; [|by eapply enqueue_wait].
    destruct (decide (wq sp e = [])) as [Hq|Hq]; [|by auto].
    eapply Inv_release; [by apply HI1|]. split; [by rewrite A8|by rewrite A7, entry_of_id].
Qed.

(** The group is disabled and the entry is in its queue already. *)
Lemma dispatch_crowded :
  crowded s e → Enqueue_dispatch t (task_id_ (tsk s t)) e sp = Abort.
Proof.
  intros [Hg Hq]. rewrite entry_of_id, <-(sF_g _ _ (pr_F _ _ _ Hp)) in Hg. rewrite <-(pr_wq _ _ _ Hp) in Hq.
  unfold Enqueue_dispatch. rewrite Hg. simpl. destruct prep_queued as (s1&->&HQ&_). simpl.
  destruct (qd_A _ _ _ _ HQ) as [_ _ _ _ _ _ A7 A8]. rewrite A7, Hg.
  pose proof (i_defer _ _ _ (pr_inv _ _ _ Hp)) as HD.
  destruct (d_hand _ _ _ HD e Hq) as [Hl|[|[_ Hn]]]; [|done|rewrite entry_of_id in Hn; congruence].
  rewrite <-(sameD_ptr sp s1 e (qd_D _ _ _ _ HQ)) in Hl.
  by apply (AddToDeferQ_linked (OE (EDisable (task_id_ (tsk s t))))).
Qed.

Lemma Enqueue_dispatch_spec :
  ¬ crowded s e →
  ∃ s', Enqueue_dispatch t (task_id_ (tsk s t)) e sp = Ret s' ∧
    Inv None none_exempt s' ∧ enqueued t s s'.
Proof.
  intros Hcr. pose proof (pr_inv _ _ _ Hp) as HIp. pose proof HIp as [HT HC HP HA HD].
  destruct (g_disable (grp sp (task_id_ (tsk s t)))) eqn:Hgd; [apply dispatch_disabled; auto|].
  destruct (e_disable (ent sp e)) eqn:Hed; [apply dispatch_disabled; auto|].
  pose proof prep_admissible as Had. unfold Enqueue_dispatch.
  rewrite Hgd, Hed in *. simpl. fold (wq sp e).
  destruct (wq sp e) as [|u q] eqn:Hq; simpl.
  2: { destruct prep_queued as (s'&Hadd&HQ&_&HI'). rewrite Hadd. exists s'.
       split_and!; [done|by apply HI'; rewrite Hq|]. eapply enqueue_wait; try done; naive_solver. }
  destruct (running_ sp) eqn:Hrun; simpl.
  2: { destruct (enqueue_defer (OE EStop)) as (s1&s'&Hadd&Hd&?); try done.
       - by right; left.
       - naive_solver.
       - rewrite Hadd. simpl in *. rewrite Hd. eauto. }
  unfold GroupDeferOnPolicyFail, EntryDeferOnPolicyFail. fold (wq sp e). rewrite Hq.
  destruct (ActiveGroupInPolicy (task_id_ (tsk s t)) sp) as [h|] eqn:HG; simpl.
  { apply ActiveGroup_Some in HG as [HG1 HG2].
    destruct (enqueue_defer (OG h)) as (s1&s'&Hadd&Hd&?); try done.
    - simpl. by rewrite entry_of_id.
    - naive_solver.
    - rewrite Hadd. simpl in *. rewrite Hd. simpl. eauto. }
  fold (wq sp e). rewrite Hq.
  destruct (ActiveEntryInPolicy e sp) as [f|] eqn:HE; simpl.
  { apply ActiveEntry_Some in HE as [HE1 HE2].
    destruct (enqueue_defer (OE f)) as (s1&s'&Hadd&Hd&?); try done.
    - by left.
    - by apply blocks_entry.
    - naive_solver.
    - rewrite Hadd. simpl in *. rewrite Hd. simpl. eauto. }
  apply enqueue_run. by apply Had.
Qed.
End Dispatch.

Section EnqueueUnLocked.
Context (t : nat) (s : Sched) (HI : Inv None none_exempt s) (Hex : is_Some (tasks s !! t)).
Context (Hinit : state_ (tsk s t) = INIT) (H0 : seqno_ (tsk s t) = 0) (Hok : seqno_ok s).

Lemma EnqueueUnLocked_spec :
  ¬ crowded s (entry_of (tsk s t)) →
  ∃ s', EnqueueUnLocked t s = Ret s' ∧ Inv None none_exempt s' ∧ enqueued t s s'.
Proof.
  destruct (Enqueue_prepared t s HI Hex Hinit H0 Hok) as (sp&->&Hp&He&Hg).
  by apply Enqueue_dispatch_spec.
Qed.

Lemma EnqueueUnLocked_crowded : crowded s (entry_of (tsk s t)) → EnqueueUnLocked t s = Abort.
Proof.
  destruct (Enqueue_prepared t s HI Hex Hinit H0 Hok) as (sp&->&Hp&He&Hg).
  by apply dispatch_crowded.
Qed.
End EnqueueUnLocked.

#[export] Instance crowded_dec s e : Decision (crowded s e).
Proof. apply _. Defined.
End Enqueue.
