(* ===== verification/TaskExit.v ===== *)
(** * Task exit and cancellation

    [OnTaskExit] and [Cancel] pass their assertions and keep the invariant; an
    exit fails only when its task is enqueued again to a crowded entry. *)

From stdpp Require Import gmap.
From Stdlib Require Import Sorted.
From S2P Require Import Prelude Task TaskInv TaskRun TaskOps.
Open Scope Z_scope.

(** ** The bookkeeping of an exit *)

Record exited (e : EntryRef) (t : nat) (s s' : Sched) : Prop := {
  ex_tasks : tasks s' = <[t := set_tbb_state TBB_DONE (tsk s t)]> (tasks s);
  ex_running : running_ s' = running_ s;
  ex_seqno : sched_seqno s' = sched_seqno s;
  ex_W : sameW s s';
  ex_erc x : erc s' x = erc s x - (if decide (x = e) then 1 else 0);
  ex_grc g : grc s' g = grc s g - (if decide (g = id_of e) then 1 else 0);
  ex_rtask x : rtask s' x = if decide (x = e ∧ inst_of e ≠ -1) then None else rtask s x;
  ex_P : sameP s s';
  ex_A : sameA s s';
  ex_D : sameD s s';
}.

Section Exited.
Context (e : EntryRef) (t : nat) (s s' : Sched).
Context (HI : Inv None none_exempt s) (HE : exited e t s s').
Context (Hex : is_Some (tasks s !! t)) (Hrun : is_run (tsk s t)) (He : entry_of (tsk s t) = e).

Lemma exited_tsk x : tsk s' x = if decide (x = t) then set_tbb_state TBB_DONE (tsk s t) else tsk s x.
Proof.
  unfold tsk at 1. rewrite (ex_tasks _ _ _ _ HE).
  destruct (decide (x = t)) as [->|Hx]; [by rewrite lookup_insert_eq|by rewrite lookup_insert_ne].
Qed.

(** Every member but the pool state of [t] reads the same. *)
Lemma exited_reads x :
  state_ (tsk s' x) = state_ (tsk s x) ∧ seqno_ (tsk s' x) = seqno_ (tsk s x) ∧
  task_impl_ (tsk s' x) = task_impl_ (tsk s x) ∧ entry_of (tsk s' x) = entry_of (tsk s x).
Proof. rewrite exited_tsk. by destruct (decide (x = t)) as [->|]. Qed.

Lemma exited_TaskOk : TaskOk s'.
Proof.
  pose proof (i_task _ _ _ HI) as HT.
  assert (Hst : ∀ x, state_ (tsk s' x) = state_ (tsk s x)) by apply exited_reads.
  assert (Hsq : ∀ x, seqno_ (tsk s' x) = seqno_ (tsk s x)) by apply exited_reads.
  assert (Him : ∀ x, task_impl_ (tsk s' x) = task_impl_ (tsk s x)) by apply exited_reads.
  assert (Hen : ∀ x, entry_of (tsk s' x) = entry_of (tsk s x)) by apply exited_reads.
  split; intros *; rewrite ?(ex_W _ _ _ _ HE), ?(ex_seqno _ _ _ _ HE), ?Hst, ?Hsq, ?Him, ?Hen;
    try apply HT.
  eapply ssorted_impl_in, (t_sorted s HT). intros a b _ _. by rewrite !Hsq.
Qed.

Lemma exited_not_run : ¬ is_run (tsk s' t).
Proof. rewrite exited_tsk, decide_True by done. by intros [_ ?]. Qed.

Lemma exited_CountOk : CountOk s'.
Proof.
  pose proof (i_count _ _ _ HI) as HC. pose proof exited_not_run as Hnr.
  assert (Hnew : ¬ is_run (set_tbb_state TBB_DONE (tsk s t))) by (by intros [_ ?]).
  split.
  - intros x. rewrite (ex_erc _ _ _ _ HE), (c_erc s HC x). unfold nrun_e.
    pose proof (count_insert (λ T, is_run T ∧ entry_of T = x) s s' t _ (ex_tasks _ _ _ _ HE) Hex) as Hc.
    unfold b2n in Hc. rewrite He in Hc.
    rewrite (decide_False (P := is_run (set_tbb_state TBB_DONE (tsk s t)) ∧ _)) in Hc by (by intros []).
    destruct (decide (x = e)) as [->|Hx].
    + rewrite decide_True in Hc by done. lia.
    + rewrite decide_False in Hc by (intros []; congruence). lia.
  - intros g. rewrite (ex_grc _ _ _ _ HE), (c_grc s HC g). unfold nrun_g.
    pose proof (count_insert (λ T, is_run T ∧ task_id_ T = g) s s' t _ (ex_tasks _ _ _ _ HE) Hex) as Hc.
    unfold b2n in Hc. rewrite <-(entry_of_id (tsk s t)), He in Hc.
    rewrite (decide_False (P := is_run (set_tbb_state TBB_DONE (tsk s t)) ∧ _)) in Hc by (by intros []).
    destruct (decide (g = id_of e)) as [->|Hx].
    + rewrite decide_True in Hc by done. lia.
    + rewrite decide_False in Hc by (intros []; congruence). lia.
  - intros x Hx. rewrite (ex_erc _ _ _ _ HE). pose proof (c_inst s HC x Hx). case_decide; lia.
  - intros x y Hx. rewrite (ex_rtask _ _ _ _ HE). destruct (decide (y = t)) as [->|Hy].
    + split; [|by intros []]. case_decide as Hd; [done|]. intros Hr%(c_rtask s HC x t Hx).
      destruct Hd, Hr. split; congruence.
    + rewrite exited_tsk, (decide_False (P := y = t)) by done. destruct (decide (x = e)) as [->|Hxe].
      * rewrite decide_True by done. split; [done|]. intros Hr%(c_rtask s HC e y Hx).
        assert (Ht : rtask s e = Some t) by (by apply c_rtask). congruence.
      * rewrite decide_False by naive_solver. by apply HC.
Qed.

Lemma exited_PolicyOk : PolicyOk s'.
Proof.
  pose proof (i_policy _ _ _ HI) as [G1 G2 G3 G4]. destruct (ex_P _ _ _ _ HE) as [P1 P2].
  pose proof exited_CountOk as HC'. pose proof (i_count _ _ _ HI) as HC.
  assert (Hg : ∀ g, 0 ≤ grc s' g ≤ grc s g).
  { intros g. rewrite (c_grc s' HC') at 1. rewrite (ex_grc _ _ _ _ HE). case_decide; lia. }
  assert (Hf : ∀ f, 0 ≤ erc s' f ≤ erc s f).
  { intros f. rewrite (c_erc s' HC') at 1. rewrite (ex_erc _ _ _ _ HE). case_decide; lia. }
  split; intros *; rewrite ?P1, ?P2; [apply G1|apply G2|..]; intros Hne Hin.
  - pose proof (Hg g). pose proof (Hg h). destruct (G3 g h Hne Hin); [left|right]; lia.
  - pose proof (Hf e0). pose proof (Hf f). destruct (G4 e0 f Hne Hin); [left|right]; lia.
Qed.

Lemma exited_AllocOk : AllocOk s'.
Proof.
  pose proof (i_alloc _ _ _ HI) as HA. destruct (ex_P _ _ _ _ HE) as [_ P2].
  destruct (ex_A _ _ _ _ HE) as [A1 A2 A3 A4 A5 A6 A7 A8].
  split; intros *; rewrite ?A1, ?A2, ?A3, ?A4, ?A5, ?A6, ?A7, ?A8, ?P2; try by apply HA.
  - destruct (exited_reads t0) as (->&_&_&->). apply HA.
  - rewrite (ex_tasks _ _ _ _ HE), lookup_insert_Some. intros [[<- <-]|[_ ?]]; [|by eapply HA].
    destruct Hex as [T HT]. pose proof (a_ids s HA t T HT). unfold tsk. by rewrite HT.
  - apply (a_db s HA).
Qed.

Lemma exited_DeferOk : DeferOk None (λ o _, o = OG (id_of e) ∨ o = OE e) s'.
Proof.
  pose proof (i_defer _ _ _ HI) as HD.
  destruct (ex_D _ _ _ _ HE) as [D1 D2 D3].
  assert (Hptr : ∀ x, ptr s' x = ptr s x) by (intros; apply sameD_ptr, HE).
  assert (Hpark : ∀ x, parked s' x ↔ parked s x) by (intros; apply sameF_parked, sameA_F, HE).
  split; intros *; rewrite ?D1, ?D2, ?D3, ?Hptr, ?Hpark, ?(ex_W _ _ _ _ HE); try apply HD.
  - eapply ssorted_impl_in, (d_sorted _ _ _ HD). intros a b _ _. rewrite (cmp_ext s s'); [done|..].
    + intros x. apply exited_reads.
    + apply HE.
    + apply HE.
  - intros [Ha|[]]%(d_active _ _ _ HD). destruct o as [f|g]; simpl in *.
    + destruct (decide (f = e)) as [->|Hf]; [by right; right|left].
      rewrite (ex_erc _ _ _ _ HE), (ex_running _ _ _ _ HE), decide_False, Z.sub_0_r by done.
      destruct Ha as [Ha|[Ha|(g&->&Ha)]]; [by left|by right; left|].
      right; right. exists g. by rewrite (sA_gdis _ _ (ex_A _ _ _ _ HE)).
    + rewrite (ex_grc _ _ _ _ HE). destruct (decide (g = id_of e)); [naive_solver|].
      left. by rewrite Z.sub_0_r.
  - intros Hb%(d_block _ _ _ HD). eapply blocks_same; [apply HE|done].
Qed.

Lemma exited_Inv : Inv None (λ o _, o = OG (id_of e) ∨ o = OE e) s'.
Proof.
  split; [apply exited_TaskOk|apply exited_CountOk|apply exited_PolicyOk|apply exited_AllocOk|
    apply exited_DeferOk].
Qed.
End Exited.

Lemma QueryTaskEntry_Some g i s :
  AllocOk s → is_Some (groups s !! g) → -1 ≤ i → is_Some (entries s !! entry_for g i) →
  QueryTaskEntry g i s = Ret (Some (entry_for g i)).
Proof.
  intros HA Hg Hi He. unfold QueryTaskEntry. rewrite QueryTaskGroup_Some by done. simpl.
  unfold GroupQueryTaskEntry, entry_for in *. destruct (Z.eqb_spec i (-1)); [done|].
  destruct (a_inst s HA g i He) as [Hr _].
  destruct (Z.leb_spec (entry_db_size (grp s g)) i); [lia|].
  rewrite assert_that_true by (apply Z.leb_le; lia). simpl.
  by destruct (entries s !! EInst g i); [|destruct He].
Qed.

Section Exit.
Context `{!IntrusiveSet EntryRef}.

(** The part of [TaskEntry::TaskExited] before the deferral queues are run. *)
Lemma exit_bookkeeping e t s s1 :
  Inv None none_exempt s → is_run (tsk s t) → entry_of (tsk s t) = e →
  is_Some (entries s !! e) → is_Some (groups s !! id_of e) →
  tasks s1 = <[t := set_tbb_state TBB_DONE (tsk s t)]> (tasks s) → running_ s1 = running_ s →
  sched_seqno s1 = sched_seqno s → sameW s s1 → sameR s s1 → sameP s s1 → sameA s s1 → sameD s s1 →
  ∃ s2, exited e t s s2 ∧ EntryTaskExited e t (id_of e) s1 =
    (if (grc s2 (id_of e) =? 0) && (erc s2 e =? 0) then RunCombinedDeferQ e s2
     else if grc s2 (id_of e) =? 0 then GroupRunDeferQ (id_of e) s2
     else if erc s2 e =? 0 then EntryRunDeferQ e s2
     else Ret s2).
Proof.
  intros HI Hrun Hent Hee Heg HT Hru Hsq HW HR HP HA HD.
  pose proof (i_count _ _ _ HI) as HC. pose proof (i_alloc _ _ _ HI) as HAl.
  set (s1' := if inst_of e =? -1 then s1 else upd_ent e (set_run_task None) s1).
  set (s2' := upd_ent e (λ E, upd_e_stats inc_completed (set_e_run (e_run_count E - 1) E)) s1').
  set (s2 := GroupTaskExited (id_of e) s2').
  rewrite <-(sA_entries _ _ HA) in Hee. rewrite <-(sA_groups _ _ HA) in Heg.
  assert (Hinst : e_task_instance (ent s1 e) = inst_of e).
  { rewrite (sA_inst _ _ HA). apply HAl. by apply HA. }
  assert (Hcall : EntryTaskExited e t (id_of e) s1 =
    (if (grc s2 (id_of e) =? 0) && (erc s2 e =? 0) then RunCombinedDeferQ e s2
     else if grc s2 (id_of e) =? 0 then GroupRunDeferQ (id_of e) s2
     else if erc s2 e =? 0 then EntryRunDeferQ e s2
     else Ret s2)).
  { unfold EntryTaskExited. rewrite Hinst. subst s2 s2' s1'.
    destruct (Z.eqb_spec (inst_of e) (-1)) as [|Hi]; [done|].
    assert (Hr : rtask s1 e = Some t).
    { rewrite (sR_rtask _ _ HR). by apply c_rtask. }
    assert (H1 : erc s1 e = 1).
    { rewrite (sR_erc _ _ HR). pose proof (c_inst s HC e Hi). rewrite (c_erc s HC e) in *.
      destruct (decide (nrun_e s e = 0%nat)) as [Hz|]; [|lia].
      destruct (count_zero (λ T, is_run T ∧ entry_of T = e) s t Hz); [|done].
      apply (task_exists s); [done|]. destruct Hrun. congruence. }
    rewrite (assert_that_true (_ =? _)) by (apply Z.eqb_eq; acc).
    rewrite assert_that_true by (apply bool_decide_eq_true; exact Hr). done. }
  exists s2. split; [|done]. clear Hcall.
  assert (H1' : sameT s1 s1' ∧ sameW s1 s1' ∧ sameP s1 s1' ∧ sameD s1 s1' ∧ sameA s1 s1' ∧
    (∀ x, erc s1' x = erc s1 x) ∧ (∀ g, grc s1' g = grc s1 g) ∧
    ∀ x, rtask s1' x = if decide (x = e ∧ inst_of e ≠ -1) then None else rtask s1 x).
  { subst s1'. destruct (Z.eqb_spec (inst_of e) (-1)) as [Hi|Hi].
    - split_and!; try by split. intros x. rewrite decide_False by naive_solver. done.
    - split_and!; [split; acc|intros x; acc|split; intros; acc|split; intros; try destruct o; acc|
        same_alloc|intros; acc|intros; acc|]. intros x. clear -Hi. acc; naive_solver. }
  clearbody s1'. destruct H1' as ([T1 T2 T3]&W1&[P1 P2]&[D1 D2 D3]&A1&E1&G1&R1).
  destruct HP as [HP1 HP2]. destruct HD as [HD1 HD2 HD3]. destruct HR as [HR1 HR2 HR3].
  assert (He1 : is_Some (entries s1' !! e)) by (by apply A1).
  assert (Hg2 : is_Some (groups s2' !! id_of e)) by (by apply A1).
  split.
  - change (tasks s2) with (tasks s1'). congruence.
  - change (running_ s2) with (running_ s1'). congruence.
  - change (sched_seqno s2) with (sched_seqno s1'). congruence.
  - intros x. rewrite <-HW, <-W1. subst s2 s2'. unfold GroupTaskExited. acc.
  - intros x. rewrite <-HR1, <-E1. subst s2 s2'. unfold GroupTaskExited. acc; simpl; lia.
  - intros x. rewrite <-HR2, <-G1. subst s2 s2'. unfold GroupTaskExited. acc; simpl; lia.
  - intros x. rewrite <-HR3, <-R1. subst s2 s2'. unfold GroupTaskExited. acc.
  - split; intros x; rewrite <-?HP1, <-?HP2, <-?P1, <-?P2; subst s2 s2'; unfold GroupTaskExited; acc.
  - etrans; [exact HA|]. etrans; [exact A1|]. subst s2. unfold GroupTaskExited.
    etrans; [|apply sameA_upd_grp; [done|done]]. subst s2'. by apply sameA_upd_ent.
  - clear Hent. split; [intros [x|x]|intros x|intros x];
      rewrite <-?HD1, <-?HD2, <-?HD3, <-?D1, <-?D2, <-?D3; subst s2 s2'; unfold GroupTaskExited; acc.
Qed.

(** An exit runs the queues of the entry and the group that became idle. *)
Lemma exit_run e t s s2 :
  Inv None none_exempt s → exited e t s s2 → is_run (tsk s t) → entry_of (tsk s t) = e →
  is_Some (entries s !! e) → is_Some (groups s !! id_of e) →
  ∃ s3, (if (grc s2 (id_of e) =? 0) && (erc s2 e =? 0) then RunCombinedDeferQ e s2
     else if grc s2 (id_of e) =? 0 then GroupRunDeferQ (id_of e) s2
     else if erc s2 e =? 0 then EntryRunDeferQ e s2
     else Ret s2) = Ret s3 ∧ Inv None none_exempt s3 ∧ adv s2 s3.
Proof.
  intros HI HE Hrun He Hee Heg.
  assert (Hex : is_Some (tasks s !! t)).
  { apply (task_exists s); [apply HI|]. destruct Hrun. congruence. }
  pose proof (exited_Inv e t s s2 HI HE Hex Hrun He) as HI2.
  rewrite <-(sA_entries _ _ (ex_A _ _ _ _ HE)) in Hee.
  rewrite <-(sA_groups _ _ (ex_A _ _ _ _ HE)) in Heg.
  destruct (Z.eqb_spec (grc s2 (id_of e)) 0) as [Hg|Hg], (Z.eqb_spec (erc s2 e) 0) as [Hr|Hr]; simpl.
  - by apply RunCombinedDeferQ_spec.
  - unfold GroupRunDeferQ. apply (RunDeferQ_loop_all (OG (id_of e))). eapply Inv_exempt, HI2. simpl.
    intros o x _ [->| ->]; [by right|left; by left].
  - unfold EntryRunDeferQ. apply (RunDeferQ_loop_all (OE e)). eapply Inv_exempt, HI2. simpl.
    intros o x _ [->| ->]; [by left|by right].
  - exists s2. split_and!; [done| |reflexivity]. eapply Inv_exempt, HI2. simpl.
    intros o x _ [->| ->]; left; [done|by left].
Qed.

(** The task object when it is enqueued again. *)
Definition recycled (T : Task) : Task :=
  set_tbb_state TBB_INIT (set_state INIT (set_seqno 0 (set_task_impl false T))).

Record exit_effect (t : nat) (s s2 s3 s' : Sched) : Prop := {
  ee_exited : exited (entry_of (tsk s t)) t s s2;
  ee_adv : adv s2 s3;
  ee_inv : Inv None none_exempt s3;
  ee_delete : task_recycle_ (tsk s t) = false ∨ task_cancel_ (tsk s t) = true → s' = delete_tsk t s3;
  ee_again : task_recycle_ (tsk s t) = true → task_cancel_ (tsk s t) = false →
    enqueued t (upd_tsk t recycled s3) s';
}.

(** A finished task is as good as no task. *)
Lemma finished_role T T' :
  state_ T = RUN → tbb_state_ T = TBB_DONE → state_ T' = INIT → same_role T T'.
Proof.
  intros H1 H2 H3. split; unfold is_run; rewrite ?H1, ?H2, ?H3; naive_solver.
Qed.

Lemma forget_Inv t s s' :
  Inv None none_exempt s → state_ (tsk s t) = RUN → tbb_state_ (tsk s t) = TBB_DONE →
  retask t s s' → state_ (tsk s' t) = INIT → task_impl_ (tsk s' t) = false →
  (∀ T, tasks s' !! t = Some T → 0 ≤ task_id_ T ∧ -1 ≤ task_instance_ T) →
  Inv None none_exempt s'.
Proof.
  intros HI H1 H2 HR H3 H4 H5. eapply (retask_Inv None none_exempt t s); try done.
  by apply finished_role.
Qed.

Lemma retask_put t T s : 0 ≤ sched_seqno s < 2 ^ 64 → retask t s (put_tsk t T s).
Proof.
  intros Hr. split; try done; try by split.
  - intros x Hx. simpl. by rewrite lookup_insert_ne.
  - simpl. lia.
Qed.
Lemma retask_delete t s : 0 ≤ sched_seqno s < 2 ^ 64 → retask t s (delete_tsk t s).
Proof.
  intros Hr. split; try done; try by split.
  - intros x Hx. simpl. by rewrite lookup_delete_ne.
  - simpl. lia.
Qed.

(** The task asks to be run again, and its entry is crowded. *)
Definition reenters_crowded (s : Sched) (t : nat) : Prop :=
  task_recycle_ (tsk s t) = true ∧ task_cancel_ (tsk s t) = false ∧ crowded s (entry_of (tsk s t)).

Lemma crowded_before e t s s2 s3 T :
  exited e t s s2 → adv s2 s3 → crowded (put_tsk t T s3) e → crowded s e.
Proof.
  intros HE Ha [Hg Hq]. rewrite grp_put_tsk, (sA_gdis _ _ (v_A _ _ Ha)), (sA_gdis _ _ (ex_A _ _ _ _ HE)) in Hg.
  split; [done|]. rewrite <-(ex_W _ _ _ _ HE). intros Hn. destruct Hq. change (wq s3 e = []).
  pose proof (v_wq _ _ Ha e) as Hs. rewrite Hn in Hs. by apply suffix_nil_inv.
Qed.

Lemma OnTaskExit_spec t s :
  Inv None none_exempt s → state_ (tsk s t) = RUN → tbb_state_ (tsk s t) = TBB_EXEC → seqno_ok s →
  (∃ s2 s3 s', OnTaskExit t s = Ret s' ∧ Inv None none_exempt s' ∧ exit_effect t s s2 s3 s') ∨
  OnTaskExit t s = Abort ∧ reenters_crowded s t.
Proof.
  intros HI Hst Htbb Hok. pose proof HI as [HT HC HP HA HD].
  assert (Hrun : is_run (tsk s t)) by (split; congruence).
  destruct (task_group s t HA) as [Hee Heg]; [congruence|].
  destruct (task_exists s t HA) as [T HTt]; [congruence|].
  pose proof (a_ids s HA t T HTt) as Hids. rewrite <-(tsk_lookup s t T HTt) in Hids.
  unfold OnTaskExit. set (s1 := upd_tsk t _ _).
  assert (Ht1 : tsk s1 t = set_tbb_state TBB_DONE (tsk s t)) by (subst s1; acc).
  assert (HA1 : AllocOk s1).
  { eapply (retask_AllocOk None none_exempt t s); [done|..].
    - split; try done; try by split.
      + intros x Hx. simpl. by rewrite lookup_insert_ne.
      + pose proof (t_range s HT). simpl. lia.
    - rewrite Ht1. intros _. split; [simpl; apply HT; congruence|done].
    - intros T'. simpl. rewrite lookup_insert_eq. intros [= <-]. by rewrite tsk_set_counts. }
  rewrite Ht1. simpl. rewrite (QueryTaskEntry_Some _ _ s1), entry_for_of; [|done..|lia|done].
  simpl. rewrite GetTaskGroup_id by done. simpl. rewrite Ht1. simpl. rewrite <-!entry_of_id.
  destruct (exit_bookkeeping (entry_of (tsk s t)) t s s1) as (s2&HE&->); try done; try by split.
  { by rewrite entry_of_id. }
  destruct (exit_run (entry_of (tsk s t)) t s s2 HI HE) as (s3&->&HI3&Hadv); try done.
  { by rewrite entry_of_id. }
  assert (Ht3 : tsk s3 t = set_tbb_state TBB_DONE (tsk s t)).
  { destruct (v_tsk _ _ Hadv t) as [E|[Hw _]]; rewrite (exited_tsk _ t s s2 HE), decide_True in * by done;
      [done|]. simpl in Hw. congruence. }
  pose proof (t_range s3 (i_task _ _ _ HI3)) as Hr3.
  simpl. rewrite Ht3. simpl.
  destruct (task_recycle_ (tsk s t)) eqn:Hrec, (task_cancel_ (tsk s t)) eqn:Hcan; simpl.
  2: { change (λ T0, set_tbb_state TBB_INIT _) with recycled.
       assert (HIr : Inv None none_exempt (upd_tsk t recycled s3)).
       { eapply (forget_Inv t s3); rewrite ?Ht3; try done; [by apply retask_put|acc|acc|].
         intros T'. simpl. rewrite lookup_insert_eq. intros [= <-]. by rewrite Ht3. }
       assert (Hre : tsk (upd_tsk t recycled s3) t = recycled (tsk s3 t)) by acc.
       assert (Hent : entry_of (tsk (upd_tsk t recycled s3) t) = entry_of (tsk s t)) by (by rewrite Hre, Ht3).
       assert (Hexr : is_Some (tasks (upd_tsk t recycled s3) !! t))
         by (simpl; rewrite lookup_insert_eq; by eexists).
       assert (Hokr : seqno_ok (upd_tsk t recycled s3)).
       { unfold seqno_ok in *. simpl. rewrite (v_seqno _ _ Hadv), (ex_seqno _ _ _ _ HE). lia. }
       destruct (decide (crowded (upd_tsk t recycled s3) (entry_of (tsk s t)))) as [Hcr|Hcr].
       - right. split; [apply EnqueueUnLocked_crowded; by rewrite ?Hent, ?Hre|].
         split; [done|]. split; [done|]. by eapply crowded_before.
       - left. destruct (EnqueueUnLocked_spec t (upd_tsk t recycled s3)) as (s'&Henq&HI'&Heff);
           [by rewrite ?Hent, ?Hre..|].
         exists s2, s3, s'. split_and!; [done..|]. split; [done|done|done| |done]. intros [?|?]; congruence. }
  all: left; exists s2, s3; eexists; split; [done|]; split; [|by split; [..|intros; congruence]].
  all: eapply (forget_Inv t s3); rewrite ?Ht3; try done; [by apply retask_delete|acc|acc|].
  all: intros T'; simpl; by rewrite lookup_delete_eq.
Qed.
End Exit.

(** ** Cancellation *)

(** [t] is gone: out of the wait queues and out of memory. *)
Record removed (t : nat) (s s' : Sched) : Prop := {
  rm_tasks : tasks s' = delete t (tasks s);
  rm_running : running_ s' = running_ s;
  rm_seqno : sched_seqno s' = sched_seqno s;
  rm_wq x : wq s' x = List.remove eq_nat_dec t (wq s x);
  rm_R : sameR s s';
  rm_P : sameP s s';
  rm_A : sameA s s';
}.

Section Removed.
Context (t : nat) (s s' : Sched) (HI : Inv None none_exempt s) (HM : removed t s s').
Context (Hw : state_ (tsk s t) = WAIT).

Lemma removed_tsk x : tsk s' x = if decide (x = t) then new_task (-1) (-1) else tsk s x.
Proof.
  unfold tsk at 1. rewrite (rm_tasks _ _ _ HM).
  destruct (decide (x = t)) as [->|Hx]; [by rewrite lookup_delete_eq|by rewrite lookup_delete_ne].
Qed.

Lemma removed_TaskOk : TaskOk s'.
Proof.
  pose proof (i_task _ _ _ HI) as HT. split.
  - intros e x. rewrite (rm_wq _ _ _ HM), elem_of_list_remove, (t_wait s HT), removed_tsk.
    case_decide; naive_solver.
  - intros e. rewrite (rm_wq _ _ _ HM).
    eapply ssorted_impl_in, (ssorted_remove eq_nat_dec), (t_sorted s HT e).
    intros a b [_ Ha]%elem_of_list_remove [_ Hb]%elem_of_list_remove.
    by rewrite !removed_tsk, !decide_False.
  - intros x. rewrite removed_tsk, (rm_seqno _ _ _ HM). case_decide; [done|]. apply HT.
  - intros x. rewrite removed_tsk. case_decide; [done|]. apply HT.
  - intros a b. rewrite !removed_tsk. repeat case_decide; try done. apply HT.
  - rewrite (rm_seqno _ _ _ HM). apply HT.
Qed.

Lemma removed_CountOk : CountOk s'.
Proof.
  pose proof (i_count _ _ _ HI) as HC. destruct (rm_R _ _ _ HM) as [R1 R2 R3].
  assert (Hn : ¬ is_run (new_task (-1) (-1))) by (by intros [? _]).
  assert (Hn1 : ¬ is_run (tsk s t)) by (intros [? _]; congruence).
  assert (Hn2 : ¬ is_run (tsk s' t)) by (rewrite removed_tsk, decide_True by done; done).
  assert (Hlk : ∀ x, x ≠ t → tasks s' !! x = tasks s !! x).
  { intros x Hx. rewrite (rm_tasks _ _ _ HM). by rewrite lookup_delete_ne. }
  split.
  - intros x. rewrite R1, (c_erc s HC). unfold nrun_e. f_equal. symmetry.
    apply (count_retask _ t); [by intros []|done|]. split; by intros [].
  - intros x. rewrite R2, (c_grc s HC). unfold nrun_g. f_equal. symmetry.
    apply (count_retask _ t); [by intros []|done|]. split; by intros [].
  - intros x Hx. rewrite R1. by apply HC.
  - intros x y Hx. rewrite R3, (c_rtask s HC x y Hx).
    destruct (decide (y = t)) as [->|Hy]; [split; by intros []|]. rewrite removed_tsk.
    by rewrite decide_False.
Qed.

Lemma removed_AllocOk : AllocOk s'.
Proof.
  pose proof (i_alloc _ _ _ HI) as HA. destruct (rm_P _ _ _ HM) as [_ P2].
  destruct (rm_A _ _ _ HM) as [A1 A2 A3 A4 A5 A6 A7 A8].
  split; intros *; rewrite ?A1, ?A2, ?A3, ?A4, ?A5, ?A6, ?A7, ?A8, ?P2; try by apply HA.
  - rewrite removed_tsk. case_decide; [done|]. apply HA.
  - rewrite (rm_tasks _ _ _ HM), lookup_delete_Some. intros [_ ?]. by eapply HA.
  - apply (a_db s HA).
Qed.

Lemma removed_Inv : DeferOk None none_exempt s' → Inv None none_exempt s'.
Proof.
  intros HD. split; [apply removed_TaskOk|apply removed_CountOk| |apply removed_AllocOk|done].
  eapply PolicyOk_same, (i_policy _ _ _ HI); apply HM.
Qed.
End Removed.

(** Deleting a task that no queue refers to. *)
Lemma DeferOk_forget t s s' :
  DeferOk None none_exempt s → (∀ x, t ∉ wq s x) → (∀ x, x ≠ t → tsk s' x = tsk s x) →
  running_ s' = running_ s → sameW s s' → sameR s s' → sameP s s' → sameF s s' → sameD s s' →
  DeferOk None none_exempt s'.
Proof.
  intros HD Hnot Ht Hrun HW [R1 R2 _] HP HF SD. pose proof SD as [D1 D2 D3].
  assert (Hkey : ∀ x, GetTaskDeferEntrySeqno s' x = GetTaskDeferEntrySeqno s x).
  { intros x. unfold GetTaskDeferEntrySeqno. fold (wq s' x) (wq s x). rewrite HW.
    destruct (wq s x) as [|u q] eqn:Hq; [done|]. rewrite Ht; [done|].
    intros ->. apply (Hnot x). rewrite Hq. set_solver. }
  assert (Hptr : ∀ x, ptr s' x = ptr s x) by (intros; by apply sameD_ptr).
  assert (Hpark : ∀ x, parked s' x ↔ parked s x) by (intros; by apply sameF_parked).
  split; intros *; rewrite ?D1, ?D2, ?D3, ?Hptr, ?Hpark, ?HW; try apply HD.
  - eapply ssorted_impl_in, (d_sorted _ _ _ HD). intros a b _ _. by rewrite (cmp_key s s').
  - intros [Ha|?]%(d_active _ _ _ HD); [left|by right].
    eapply active_mono, Ha; intros *; by rewrite ?R1, ?R2, ?Hrun, ?(sF_g _ _ HF).
  - intros Hb%(d_block _ _ _ HD). by eapply blocks_same.
Qed.

Lemma unqueued_ordered t s s1 : TaskOk s → unqueued t s s1 → ordered s1.
Proof.
  intros HT HU. pose proof (λ x, sameT_tsk s s1 x (uq_T _ _ _ HU)) as Htk.
  assert (Hin : ∀ x u, u ∈ wq s1 x → state_ (tsk s u) = WAIT ∧ entry_of (tsk s u) = x).
  { intros x u. rewrite (uq_wq _ _ _ HU), elem_of_list_remove. intros [Hu _]. by apply HT. }
  intros a b. unfold TaskDeferEntryCmp, GetTaskDeferEntrySeqno. fold (wq s1 a) (wq s1 b).
  destruct (wq s1 a) as [|x p] eqn:Ha; [done|]. destruct (wq s1 b) as [|y q] eqn:Hb; [done|].
  intros _ _ Hab. rewrite !Htk.
  destruct (Hin a x) as [Hx <-]; [rewrite Ha; set_solver|].
  destruct (Hin b y) as [Hy <-]; [rewrite Hb; set_solver|].
  destruct (Z.lt_trichotomy (seqno_ (tsk s x)) (seqno_ (tsk s y))) as [|[Heq|]];
    rewrite ?Z.ltb_lt; [by left| |by right].
  destruct Hab. by rewrite (t_uniq s HT x y).
Qed.

Section Cancel.
Context `{!IntrusiveSet EntryRef}.

Lemma Cancel_remove_ptr g e o s :
  ptr s e = Some o → pG s e = None ∨ pE s e = None → Cancel_remove g e s = DeleteFromDeferQ o e s.
Proof.
  unfold Cancel_remove, ptr, pG, pE. intros Hp Hok.
  destruct (deferq_task_group_ (ent s e)), (deferq_task_entry_ (ent s e)); simplify_eq; simpl.
  - by destruct Hok.
  - done.
  - done.
Qed.
Lemma Cancel_requeue_ptr g e o s :
  ptr s e = Some o → pG s e = None ∨ pE s e = None →
  Cancel_requeue g e s = (s ← DeleteFromDeferQ o e s; AddToDeferQ o e s).
Proof.
  unfold Cancel_requeue, ptr, pG, pE. intros Hp Hok.
  destruct (deferq_task_group_ (ent s e)), (deferq_task_entry_ (ent s e)); simplify_eq; simpl.
  - by destruct Hok.
  - done.
  - done.
Qed.

(** An entry in no queue: only the flags are looked at. *)
Lemma Cancel_remove_parked g e s :
  ptr s e = None → g_disable (grp s g) = false → e_disable (ent s e) = true → Cancel_remove g e s = Ret s.
Proof.
  unfold Cancel_remove, ptr, pG, pE. intros Hp Hg He.
  destruct (deferq_task_group_ (ent s e)), (deferq_task_entry_ (ent s e)); try done. by rewrite Hg, He.
Qed.
Lemma Cancel_requeue_parked g e s :
  ptr s e = None → g_disable (grp s g) = false → e_disable (ent s e) = true → Cancel_requeue g e s = Ret s.
Proof.
  unfold Cancel_requeue, ptr, pG, pE. intros Hp Hg He.
  destruct (deferq_task_group_ (ent s e)), (deferq_task_entry_ (ent s e)); try done. by rewrite Hg, He.
Qed.

Section CancelWait.
Context (t : nat) (e : EntryRef) (o : Owner) (s s1 : Sched).
Context (HI : Inv None none_exempt s) (HU : unqueued t s s1).
Context (Hin : t ∈ wq s e) (Hp : ptr s e = Some o).

Lemma cancel_wq_ne x : x ≠ e → wq s1 x = wq s x.
Proof.
  intros Hx. rewrite (uq_wq _ _ _ HU). apply list_remove_fresh.
  pose proof (i_task _ _ _ HI) as HT. apply (t_wait s HT) in Hin. rewrite (t_wait s HT).
  intros [_ ?]. destruct Hin. congruence.
Qed.

(** The entry leaves its queue. *)
Lemma cancel_unlink :
  ∃ s2, DeleteFromDeferQ o e s1 = Ret s2 ∧ frame s1 s2 ∧
    ∀ h, (wq s1 e ≠ [] → h = Some e) → h = None ∨ h = Some e → DeferOk h none_exempt s2.
Proof.
  pose proof HI as [HT HC HP HA HD]. destruct HU as [UT UW UR UP UA UD].
  assert (Hp1 : ptr s1 e = Some o) by (by rewrite (sameD_ptr s s1)).
  assert (Hok : pG s1 e = None ∨ pE s1 e = None).
  { rewrite (sD_pE _ _ UD), (sD_pG _ _ UD). apply HD. }
  destruct (waiting_exists s e HT HA) as [He _]; [by intros Hn; rewrite Hn in Hin; set_solver|].
  destruct (DeleteFromDeferQ_relink o e s1 Hp1 Hok) as (s2&Hdel&HL).
  { by apply UA. }
  { apply (dq_exists s1 o e). rewrite (sD_dq _ _ UD). by apply HD. }
  exists s2. split; [done|]. pose proof (l_frame _ _ _ _ _ _ HL) as [FT FW FR FP FA]. split; [by split|].
  intros h Hh Hh'.
  assert (Hnone : pG s2 e = None ∧ pE s2 e = None).
  { pose proof (l_ptr _ _ _ _ _ _ HL) as Hpe. unfold ptr in Hpe. by destruct (pG s2 e), (pE s2 e). }
  apply (DeferOk_drop None h none_exempt e s); try done; try apply Hnone.
  - intros o'. destruct (decide (o' = o)) as [->|Hne].
    + by rewrite (l_dq _ _ _ _ _ _ HL), (sD_dq _ _ UD).
    + rewrite (l_dq_ne _ _ _ _ _ _ HL o' Hne), (sD_dq _ _ UD), list_remove_fresh; [done|].
      rewrite (d_ptr _ _ _ HD). congruence.
  - intros x Hx. destruct (l_ne _ _ _ _ _ _ HL x Hx) as [-> ->].
    by rewrite (sD_pE _ _ UD), (sD_pG _ _ UD), FW, cancel_wq_ne.
  - intros x. left. by rewrite (sameT_tsk s1 s2), (sameT_tsk s s1).
  - intros o' Ho. apply (active_same s1 s2); [auto..|]. by apply (active_same s s1); auto.
  - by etrans.
  - apply sameA_F. by etrans.
  - by rewrite FW.
Qed.

(** The entry is parked: the queues are as they were. *)
Lemma cancel_parked : ptr s e = None → parked s e → DeferOk None none_exempt s1.
Proof.
  intros Hn Hpk. pose proof HI as [HT HC HP HA HD]. destruct HU as [UT UW UR UP UA [D1 D2 D3]].
  assert (Hnone : pG s e = None ∧ pE s e = None) by (unfold ptr in Hn; by destruct (pG s e), (pE s e)).
  apply (DeferOk_release none_exempt e); [|by apply (sameF_parked s s1); [apply sameA_F|]].
  apply (DeferOk_drop None (Some e) none_exempt e s); try done; [..|by apply sameA_F|by right].
  - intros o'. rewrite D1, list_remove_fresh; [done|]. rewrite (d_ptr _ _ _ HD). congruence.
  - intros x Hx. by rewrite D2, D3, cancel_wq_ne.
  - rewrite D3. apply Hnone.
  - rewrite D2. apply Hnone.
  - intros x. left. by rewrite (sameT_tsk s s1).
  - intros o'. by apply active_same; auto.
Qed.

(** The three ways to leave the queues in order. *)
Lemma cancel_requeue :
  wq s1 e ≠ [] →
  ∃ s2 s3, DeleteFromDeferQ o e s1 = Ret s2 ∧ AddToDeferQ o e s2 = Ret s3 ∧
    frame s1 s2 ∧ frame s2 s3 ∧ DeferOk None none_exempt s3.
Proof.
  intros Hne. pose proof HI as [HT HC HP HA HD].
  destruct cancel_unlink as (s2&Hdel&HF&HD2).
  specialize (HD2 (Some e) (λ _, eq_refl) (or_intror eq_refl)).
  pose proof HF as [FT FW FR FP FA]. destruct HU as [UT UW UR UP UA UD].
  assert (Ho : e ∈ dq s o) by (by apply HD).
  destruct (AddToDeferQ_defer none_exempt o e s2) as (s3&l1&l2&Hadd&HD3&HF3&_); try done.
  - intros a b. rewrite !FW, !(cmp_frame s1 s2) by done. by eapply unqueued_ordered.
  - apply FA, UA. apply (waiting_exists s e HT HA). intros Hn. rewrite Hn in Hin. set_solver.
  - pose proof (dq_exists s o e Ho) as Hoe.
    destruct o; simpl in *; [by apply FA, UA|by apply FA, UA].
  - by rewrite FW.
  - left. apply (active_same s1 s2); [auto..|]. apply (active_same s s1); [auto..|].
    by destruct (d_active _ _ _ HD o e Ho).
  - eapply blocks_same; [done|]. eapply blocks_same; [done|]. by apply HD.
  - by exists s2, s3.
Qed.

Lemma cancel_keep u q :
  wq s e = u :: q → t ≠ u → DeferOk None none_exempt s1.
Proof.
  intros Hq Hne. pose proof HI as [HT HC HP HA HD]. pose proof HU as [UT UW UR UP UA UD].
  pose proof UD as [D1 D2 D3].
  assert (Hqe : wq s1 e = u :: List.remove eq_nat_dec t q).
  { rewrite UW, Hq. simpl. by destruct (eq_nat_dec t u). }
  assert (Hkey : ∀ x, GetTaskDeferEntrySeqno s1 x = GetTaskDeferEntrySeqno s x).
  { intros x. destruct (decide (x = e)) as [->|Hx].
    - unfold GetTaskDeferEntrySeqno. fold (wq s1 e) (wq s e). rewrite Hqe, Hq.
      by rewrite (sameT_tsk s s1).
    - apply key_ext; [intros y; by rewrite (sameT_tsk s s1)|by apply cancel_wq_ne]. }
  assert (Hw : ∀ x, wq s1 x ≠ [] ↔ wq s x ≠ []).
  { intros x. destruct (decide (x = e)) as [->|Hx]; [by rewrite Hqe, Hq|by rewrite cancel_wq_ne]. }
  assert (Hptr : ∀ x, ptr s1 x = ptr s x) by (intros; by apply sameD_ptr).
  assert (Hpark : ∀ x, parked s1 x ↔ parked s x) by (intros; by apply sameF_parked, sameA_F).
  split; intros *; rewrite ?D1, ?D2, ?D3, ?Hptr, ?Hpark, ?Hw; try apply HD.
  - eapply ssorted_impl_in, (d_sorted _ _ _ HD). intros a b _ _. by rewrite (cmp_key s s1).
  - intros Ha. rewrite (active_same s s1) by auto. by apply HD.
  - intros Hb%(d_block _ _ _ HD). by eapply blocks_same.
Qed.

(** The state after the queues are in order gives the final state. *)
Lemma cancel_finish s2 c :
  sameT s1 s2 → sameW s1 s2 → sameR s1 s2 → sameP s1 s2 → sameA s1 s2 →
  DeferOk None none_exempt s2 →
  let s' := set_counts (sched_enqueue_count (delete_tsk t s2)) (done_count_ (delete_tsk t s2)) c
    (delete_tsk t s2) in
  removed t s s' ∧ Inv None none_exempt s'.
Proof.
  intros FT FW FR FP FA HD2. simpl. destruct HU as [UT UW UR UP UA UD].
  set (s' := set_counts _ _ _ _).
  assert (HM : removed t s s').
  { subst s'. split; simpl.
    - by rewrite (sT_tasks _ _ FT), (sT_tasks _ _ UT).
    - by rewrite (sT_running _ _ FT), (sT_running _ _ UT).
    - by rewrite (sT_seqno _ _ FT), (sT_seqno _ _ UT).
    - intros x. rewrite <-UW, <-FW. done.
    - destruct UR as [A1 A2 A3], FR as [B1 B2 B3].
      split; intros; [rewrite <-A1, <-B1|rewrite <-A2, <-B2|rewrite <-A3, <-B3]; done.
    - destruct UP as [A1 A2], FP as [B1 B2]. split; intros; [rewrite <-A1, <-B1|rewrite <-A2, <-B2]; done.
    - etrans; [exact UA|]. etrans; [exact FA|]. by split. }
  split; [done|]. apply (removed_Inv t s s' HI HM).
  - by apply (t_wait s (i_task _ _ _ HI) e).
  - apply (DeferOk_forget t s2); try done; try by split.
    + intros x. rewrite FW, UW, elem_of_list_remove. naive_solver.
    + intros x Hx. subst s'. acc.
Qed.
End CancelWait.

Lemma Cancel_wait_spec t s :
  Inv None none_exempt s → state_ (tsk s t) = WAIT →
  ∃ s', Cancel t s = Ret (CANCELLED, s') ∧ removed t s s' ∧ Inv None none_exempt s'.
Proof.
  intros HI Hw. pose proof HI as [HT HC HP HA HD].
  destruct (task_group s t HA) as [Hee Heg]; [congruence|].
  destruct (task_exists s t HA) as [T HTt]; [congruence|].
  pose proof (a_ids s HA t T HTt) as Hids. rewrite <-(tsk_lookup s t T HTt) in Hids.
  set (e := entry_of (tsk s t)) in *.
  assert (Hin : t ∈ wq s e) by (by apply HT).
  assert (Hnq : wq s e ≠ []) by (intros Hn; rewrite Hn in Hin; set_solver).
  unfold Cancel. rewrite Hw, QueryTaskEntry_Some, QueryTaskGroup_Some by (done || lia). simpl.
  rewrite entry_for_of. fold e (wq s e). destruct (wq s e) as [|u q] eqn:Hq; [set_solver|].
  rewrite <-Hq in Hin.
  destruct (DeleteFromWaitQ_unqueued e t s HT HA Hin) as (s1&->&HU). simpl. fold (wq s1 e).
  assert (Hptr : ptr s1 e = ptr s e) by (apply sameD_ptr, HU).
  assert (Hok : pG s1 e = None ∨ pE s1 e = None).
  { rewrite (sD_pE _ _ (uq_D _ _ _ HU)), (sD_pG _ _ (uq_D _ _ _ HU)). apply HD. }
  pose proof (cancel_finish t e s s1 HI HU Hin) as Hfin.
  destruct (ptr s e) as [o|] eqn:Hp.
  2: { destruct (d_hand _ _ _ HD e) as [[? Hs]|[|Hpk]]; [by rewrite Hq|congruence|done|].
       assert (Hpk1 : g_disable (grp s1 (task_id_ (tsk s t))) = false ∧ e_disable (ent s1 e) = true).
       { destruct Hpk as [H1 H2]. unfold e in H2. rewrite entry_of_id in H2.
         by rewrite (sA_gdis _ _ (uq_A _ _ _ HU)), (sA_edis _ _ (uq_A _ _ _ HU)). }
       destruct Hpk1 as [Hg1 He1].
       rewrite Cancel_remove_parked, Cancel_requeue_parked by done.
       eexists. split; [by repeat destruct (decide _); destruct (_ =? _)%nat|].
       apply Hfin; try done; try by split. by eapply cancel_parked. }
  destruct (wq s1 e) as [|v r] eqn:Hq1; simpl.
  - rewrite (Cancel_remove_ptr _ e o) by done.
    destruct (cancel_unlink t e o s s1 HI HU Hin Hp) as (s2&->&[FT FW FR FP FA]&HD2). simpl.
    eexists. split; [done|]. apply Hfin; try done. apply HD2; [by rewrite Hq1|by left].
  - destruct (decide (t = u)) as [->|Hne]; simpl.
    + rewrite (Cancel_requeue_ptr _ e o) by done.
      destruct (cancel_requeue u e o s s1 HI HU Hin Hp) as (s2&s3&->&Hadd&HF&HF3&HD3);
        [by rewrite Hq1|]. simpl. rewrite Hadd. simpl.
      destruct HF as [FT FW FR FP FA], HF3 as [FT' FW' FR' FP' FA'].
      eexists. split; [done|]. apply Hfin; try done; try by etrans.
      * destruct FT, FT'. split; congruence.
      * intros x. by rewrite FW', FW.
      * destruct FR, FR'. split; intros; congruence.
    + eexists. split; [done|]. apply Hfin; try done; try by split.
      by eapply cancel_keep.
Qed.
End Cancel.
