(* ===== verification/TaskSched.v ===== *)
(** * The task scheduler as a transition system

    Every reachable state satisfies the invariant of [TaskInv]; from it follow
    the guarantees the rest of the system relies on: no assertion of the
    scheduler fails, exclusive tasks never run together, a waiting task is
    blocked by its policy or held back, tasks of an entry start in the order in which they
    were enqueued.  The functions that disable and enable are steps like the
    others; [misused] lists the calls on which they make an assertion fail. *)

From stdpp Require Import gmap.
From Stdlib Require Import Sorted.
From S2P Require Import Prelude Task TaskInv TaskRun TaskOps TaskExit.
Open Scope Z_scope.

Section Sched.
Context `{!IntrusiveSet EntryRef}.

(** ** Policies *)

Lemma quiet_idle h X s : Inv h X s → quiet s → (∀ e, erc s e = 0) ∧ ∀ g, grc s g = 0.
Proof.
  intros HI Hq. pose proof (i_count _ _ _ HI) as HC. split.
  - intros e. destruct (decide (erc s e = 0)) as [|Hn]; [done|].
    destruct (erc_pos s e HC Hn) as (t&[Hr _]&_). by destruct (Hq t).
  - intros g. destruct (decide (grc s g = 0)) as [|Hn]; [done|].
    destruct (grc_pos s g HC Hn) as (t&[Hr _]&_). by destruct (Hq t).
Qed.

(** Policies grow symmetrically while nothing runs. *)
Lemma Inv_policy s s' :
  Inv None none_exempt s → quiet s → sameT s s' → sameW s s' → sameR s s' → sameA s s' → sameD s s' →
  (∀ g h, h ∈ pol s g → h ∈ pol s' g) → (∀ e f, f ∈ epol s e → f ∈ epol s' e) →
  (∀ g h, h ∈ pol s' g → g ∈ pol s' h) → (∀ e f, f ∈ epol s' e → e ∈ epol s' f) →
  Inv None none_exempt s'.
Proof.
  intros HI Hq HT HW HR HA HD Hp He Hps Hes.
  destruct (quiet_idle _ _ s HI Hq) as [Hz1 Hz2]. pose proof HR as [R1 R2 _].
  pose proof (sameA_F _ _ HA) as HF.
  pose proof (λ t, sameT_tsk s s' t HT) as Ht.
  split; [eapply TaskOk_same; [done..|apply HI]|eapply CountOk_same; [done..|apply HI]|..].
  - split; [done|done|..]; intros *; rewrite ?R1, ?R2, ?Hz1, ?Hz2; by left.
  - destruct HA as [A1 A2 A3 A4 A5 A6 A7 A8]. pose proof (i_alloc _ _ _ HI) as HAl.
    split; intros *; rewrite ?A1, ?A2, ?A3, ?A4, ?A5, ?A6, ?A7, ?A8, ?Ht, ?(sT_tasks _ _ HT);
      try by apply HAl.
    + intros Hs Hi. apply He. by apply (a_self s HAl).
    + apply (a_db s HAl).
  - pose proof (i_defer _ _ _ HI) as HDf. destruct HD as [D1 D2 D3].
    assert (Hptr : ∀ x, ptr s' x = ptr s x) by (intros; by apply sameD_ptr).
    assert (Hpark : ∀ x, parked s' x ↔ parked s x) by (intros; by apply sameF_parked).
    split; intros *; rewrite ?D1, ?D2, ?D3, ?Hptr, ?Hpark, ?HW; try apply HDf.
    + eapply ssorted_impl_in, (d_sorted _ _ _ HDf). intros a b _ _. by rewrite (cmp_frame s s').
    + intros Hin. rewrite (active_same s s') by done. by apply HDf.
    + intros Hb%(d_block _ _ _ HDf). by eapply blocks_mono.
Qed.

Lemma pol_add g h s x : pol (GroupAddPolicy g h s) x = pol s x ++ (if decide (x = g) then [h] else []).
Proof. unfold GroupAddPolicy. acc. by rewrite app_nil_r. Qed.
Lemma epol_add e f s x : epol (EntryAddPolicy e f s) x = epol s x ++ (if decide (x = e) then [f] else []).
Proof. unfold EntryAddPolicy. acc. by rewrite app_nil_r. Qed.
Lemma epol_gadd g h s x : epol (GroupAddPolicy g h s) x = epol s x. Proof. done. Qed.
Lemma pol_eadd e f s x : pol (EntryAddPolicy e f s) x = pol s x. Proof. done. Qed.

(** Adding a rule changes the policies only. *)
Record polframe (s s' : Sched) : Prop := {
  pf_T : sameT s s'; pf_W : sameW s s'; pf_R : sameR s s'; pf_A : sameA s s'; pf_D : sameD s s';
  pf_set g : policy_set_ (grp s' g) = policy_set_ (grp s g);
}.
#[local] Instance polframe_trans : Transitive polframe.
Proof.
  intros s1 s2 s3 [[] W1 [] ? [] ?] [[] W2 [] ? [] ?].
  split; [split; congruence| |split; intros; congruence|by etrans|split; intros; congruence|
    intros; congruence].
  intros x. by rewrite W2, W1.
Qed.
Lemma polframe_gadd g h s : is_Some (groups s !! g) → polframe s (GroupAddPolicy g h s).
Proof.
  intros Hg. unfold GroupAddPolicy.
  split; [split; acc|intros x; acc|split; intros; acc|same_alloc|split; intros; try destruct o; acc|
    intros; acc].
Qed.
Lemma polframe_eadd e f s : is_Some (entries s !! e) → polframe s (EntryAddPolicy e f s).
Proof.
  intros He. unfold EntryAddPolicy.
  split; [split; acc|intros x; acc|split; intros; acc|same_alloc|split; intros; try destruct o; acc|
    intros; acc].
Qed.

(** A rule of a policy and its complement are in place. *)
Definition installed (id : Z) (s : Sched) (x : TaskExclusion) : Prop :=
  if match_instance x =? -1 then match_id x ∈ pol s id ∧ id ∈ pol s (match_id x)
  else let e := EInst id (match_instance x) in let f := EInst (match_id x) (match_instance x) in
       (f ∈ epol s e ∧ e ∈ epol s f) ∧ f ∈ epol s (EGroup id) ∧ EGroup id ∈ epol s f.

Definition policies_grow (s s' : Sched) : Prop :=
  (∀ g h, h ∈ pol s g → h ∈ pol s' g) ∧ (∀ e f, f ∈ epol s e → f ∈ epol s' e).

Lemma installed_grow id s s' x : policies_grow s s' → installed id s x → installed id s' x.
Proof. intros [H1 H2]. unfold installed. destruct (_ =? _); naive_solver. Qed.

Lemma ext_grow s s' : ext s s' → policies_grow s s'.
Proof.
  intros HX. split; [intros; by rewrite (x_pol _ _ HX)|].
  intros e f Hf. by rewrite (ext_epol s s' e f).
Qed.
#[local] Instance grow_trans : Transitive policies_grow.
Proof. intros s1 s2 s3 [] []. split; eauto. Qed.

Record policy_loop (s s' : Sched) : Prop := {
  pl_inv : Inv None none_exempt s';
  pl_tasks : tasks s' = tasks s;
  pl_W : sameW s s';
  pl_running : running_ s' = running_ s;
  pl_grow : policies_grow s s';
}.
#[local] Instance policy_loop_trans : Transitive policy_loop.
Proof.
  intros s1 s2 s3 [? ? W1 ? ?] [? ? W2 ? ?]. split; [done|congruence| |congruence|by etrans].
  intros x. by rewrite W2, W1.
Qed.

Lemma ext_policy_loop s s' : Inv None none_exempt s → ext s s' → AllocOk s' → policy_loop s s'.
Proof.
  intros HI HX HA. split; [by eapply Inv_ext|apply HX|apply HX|apply HX|by apply ext_grow].
Qed.

Lemma quiet_tasks s s' : quiet s → tasks s' = tasks s → quiet s'.
Proof. intros Hq Ht t. unfold tsk. rewrite Ht. apply Hq. Qed.

Lemma polframe_loop s s' :
  Inv None none_exempt s → quiet s → polframe s s' → policies_grow s s' →
  (∀ g h, h ∈ pol s' g → g ∈ pol s' h) → (∀ e f, f ∈ epol s' e → e ∈ epol s' f) → policy_loop s s'.
Proof.
  intros HI Hq [] Hg H1 H2. split; try done; try apply pf_T0. by eapply Inv_policy; try apply Hg.
Qed.

Lemma group_rule g h s :
  Inv None none_exempt s → quiet s → is_Some (groups s !! g) → is_Some (groups s !! h) →
  let s' := GroupAddPolicy h g (GroupAddPolicy g h s) in
  policy_loop s s' ∧ h ∈ pol s' g ∧ g ∈ pol s' h.
Proof.
  intros HI Hq Hg Hh s'.
  assert (Hpol : ∀ x y, y ∈ pol s' x ↔ y ∈ pol s x ∨ (x = g ∧ y = h) ∨ (x = h ∧ y = g)).
  { intros x y. subst s'. rewrite !pol_add. repeat case_decide; subst; set_solver. }
  split; [|rewrite !Hpol; naive_solver].
  apply polframe_loop; [done|done| | | |apply HI].
  - transitivity (GroupAddPolicy g h s); [by apply polframe_gadd|]. apply polframe_gadd.
    by apply (sA_groups _ _ (pf_A _ _ (polframe_gadd g h s Hg))).
  - split; [|done]. intros x y Hy. apply Hpol. by left.
  - intros x y. rewrite !Hpol. pose proof (p_gsym s (i_policy _ _ _ HI) x y). naive_solver.
Qed.

Lemma entry_rule e f k s :
  Inv None none_exempt s → quiet s → is_Some (entries s !! e) → is_Some (entries s !! f) →
  is_Some (entries s !! k) →
  let s' := EntryAddPolicy f k (EntryAddPolicy k f (EntryAddPolicy f e (EntryAddPolicy e f s))) in
  policy_loop s s' ∧ (f ∈ epol s' e ∧ e ∈ epol s' f) ∧ f ∈ epol s' k ∧ k ∈ epol s' f.
Proof.
  intros HI Hq He Hf Hk s'.
  assert (Hpol : ∀ x y, y ∈ epol s' x ↔
    y ∈ epol s x ∨ (x = e ∧ y = f) ∨ (x = f ∧ y = e) ∨ (x = k ∧ y = f) ∨ (x = f ∧ y = k)).
  { intros x y. subst s'. rewrite !epol_add, !elem_of_app.
    assert (Hdec : ∀ (a b : EntryRef), y ∈ (if decide (x = a) then [b] else []) ↔ x = a ∧ y = b).
    { intros a b. case_decide; [|set_solver]. rewrite list_elem_of_singleton. naive_solver. }
    rewrite !Hdec. tauto. }
  split; [|rewrite !Hpol; naive_solver].
  apply polframe_loop; [done|done| | |apply HI|].
  - assert (Hstep : ∀ a b s0, is_Some (entries s0 !! e) ∧ is_Some (entries s0 !! f) ∧ is_Some (entries s0 !! k) →
      (a = e ∨ a = f ∨ a = k) → polframe s0 (EntryAddPolicy a b s0) ∧
      is_Some (entries (EntryAddPolicy a b s0) !! e) ∧ is_Some (entries (EntryAddPolicy a b s0) !! f) ∧
      is_Some (entries (EntryAddPolicy a b s0) !! k)).
    { intros a b s0 Hs Ha. split; [apply polframe_eadd; naive_solver|].
      unfold EntryAddPolicy. rewrite !entries_upd_ent. naive_solver. }
    destruct (Hstep e f s) as [F1 E1]; [done|by auto|].
    destruct (Hstep f e _ E1) as [F2 E2]; [by auto|].
    destruct (Hstep k f _ E2) as [F3 E3]; [by auto|].
    destruct (Hstep f k _ E3) as [F4 _]; [by auto|].
    etrans; [exact F1|]. etrans; [exact F2|]. etrans; [exact F3|exact F4].
  - split; [done|]. intros x y Hy. apply Hpol. by left.
  - intros x y. rewrite !Hpol. pose proof (p_esym s (i_policy _ _ _ HI) x y). tauto.
Qed.

(** One iteration of [SetPolicy]. *)
Lemma SetPolicy_step_spec id x s :
  Inv None none_exempt s → quiet s → is_Some (groups s !! id) →
  0 ≤ id → 0 ≤ match_id x → -1 ≤ match_instance x →
  ∃ s', SetPolicy_step id (Ret s) x = Ret s' ∧ policy_loop s s' ∧ installed id s' x ∧
    is_Some (groups s' !! id).
Proof.
  intros HI Hq Hg Hid Hm Hi. pose proof (i_alloc _ _ _ HI) as HA. unfold SetPolicy_step, installed. simpl.
  destruct (Z.eqb_spec (match_instance x) (-1)) as [_|Hne].
  - destruct (GetTaskGroup_ext (match_id x) s HA Hm) as (s1&->&X1&A1&G1&_). simpl.
    pose proof (ext_policy_loop s s1 HI X1 A1) as L1.
    destruct (group_rule id (match_id x) s1) as (L2&H1&H2); [apply L1| |by apply X1|done|].
    { eapply quiet_tasks; [done|apply L1]. }
    eexists. split; [done|]. split_and!; [by etrans|done|done|].
    simpl. rewrite !insert_is_Some. right. right. by apply X1.
  - destruct (GetTaskEntry_ext id (match_instance x) s HA Hid Hi) as (s1&->&X1&A1&E1&G1&_). simpl.
    destruct (GetTaskEntry_ext (match_id x) (match_instance x) s1 A1 Hm Hi) as (s2&->&X2&A2&E2&G2&_).
    simpl. pose proof (ext_policy_loop s s1 HI X1 A1) as L1.
    pose proof (ext_policy_loop s1 s2 (pl_inv _ _ L1) X2 A2) as L2.
    assert (Hf : ∀ g, entry_for g (match_instance x) = EInst g (match_instance x)).
    { intros g. unfold entry_for. by destruct (Z.eqb_spec (match_instance x) (-1)). }
    rewrite !Hf in *.
    destruct (entry_rule (EInst id (match_instance x)) (EInst (match_id x) (match_instance x))
      (EGroup id) s2) as (L3&H3); [apply L2| |by apply X2|done| |].
    { eapply quiet_tasks; [done|]. rewrite (pl_tasks _ _ L2). apply L1. }
    { apply (a_gentry s2 A2). by apply X2. }
    eexists. split; [done|]. split; [by do 2 (etrans; [done|])|]. split; [exact H3|by apply X2].
Qed.

Lemma SetPolicy_loop_spec id p s s0 :
  policy_loop s0 s → quiet s → is_Some (groups s !! id) → 0 ≤ id →
  Forall (λ x, 0 ≤ match_id x ∧ -1 ≤ match_instance x) p →
  ∃ s', foldl (SetPolicy_step id) (Ret s) p = Ret s' ∧ policy_loop s0 s' ∧ policies_grow s s' ∧
    Forall (installed id s') p.
Proof.
  intros HL Hq Hg Hid Hp. revert s HL Hq Hg. induction Hp as [|x p [Hm Hi] _ IH]; intros s HL Hq Hg.
  { by exists s. }
  destruct (SetPolicy_step_spec id x s) as (s1&Hstep&L1&Hin&Hg1); try done; [apply HL|].
  cbn [foldl]. rewrite Hstep. destruct (IH s1) as (s'&Hrun&HL'&Hgrow&Hall).
  - by etrans.
  - eapply quiet_tasks; [done|apply L1].
  - done.
  - exists s'. split_and!; [done..| |].
    + etrans; [apply L1|done].
    + constructor; [by eapply installed_grow|done].
Qed.

Lemma policy_set_frame g b s :
  is_Some (groups s !! g) → idle s (upd_grp g (set_policy_set b) s).
Proof.
  intros Hg. split; [split; [split; acc|intros x; acc|split; intros; acc|split; intros; acc|same_alloc]|].
  split; intros; try destruct o; acc.
Qed.

Lemma SetPolicy_spec id p s :
  Inv None none_exempt s → quiet s → 0 ≤ id → policy_set_ (grp s id) = false →
  Forall (λ x, 0 ≤ match_id x ∧ -1 ≤ match_instance x) p →
  ∃ s', SetPolicy id p s = Ret s' ∧ policy_loop s s' ∧ Forall (installed id s') p.
Proof.
  intros HI Hq Hid Hset Hp. unfold SetPolicy.
  destruct (GetTaskGroup_ext id s (i_alloc _ _ _ HI) Hid) as (s1&->&X1&A1&G1&P1). simpl.
  unfold PolicySet. rewrite P1, Hset. simpl.
  pose proof (ext_policy_loop s s1 HI X1 A1) as L1.
  pose proof (policy_set_frame id true s1 G1) as F2. set (s2 := upd_grp _ _ s1) in *.
  assert (L2 : policy_loop s1 s2).
  { apply ext_policy_loop; [apply L1|by apply idle_ext|]. eapply Inv_idle in F2; [apply F2|apply L1]. }
  destruct (SetPolicy_loop_spec id p s2 s) as (s'&Hrun&HL&_&Hall); try done.
  - by etrans.
  - eapply quiet_tasks; [done|]. rewrite (pl_tasks _ _ L2). apply L1.
  - subst s2. simpl. apply insert_is_Some. by left.
  - by exists s'.
Qed.

(** ** Start and stop *)

Lemma Stop_Inv s : Inv None none_exempt s → Inv None none_exempt (Stop s).
Proof.
  intros [HT HC HP HA HD]. split; [by split; apply HT|by split; apply HC|by split; apply HP|
    by destruct HA; split|]. split; try apply HD.
  intros o e [Ha|[]]%(d_active _ _ _ HD). left. destruct o; naive_solver.
Qed.

Lemma Start_spec s :
  Inv None none_exempt s →
  ∃ s', Start s = Ret s' ∧ Inv None none_exempt s' ∧ adv (set_running true s) s'.
Proof.
  intros [HT HC HP HA HD]. unfold Start, EntryRunDeferQ. apply (RunDeferQ_loop_all (OE EStop)).
  split; [by split; apply HT|by split; apply HC|by split; apply HP|by destruct HA; split|].
  split; try apply HD.
  intros o e [Ha|[]]%(d_active _ _ _ HD). destruct o as [f|g]; [|by left].
  destruct Ha as [Ha|[[-> _]|Ha]]; [left; by left|by right|left; by right; right].
Qed.

(** ** Disabling and enabling *)

(** [s'] is [s] but for the disable flag of the group [g]. *)
Lemma set_g_disable_frame g b s :
  is_Some (groups s !! g) →
  let s' := upd_grp g (set_g_disable b) s in
  (sameT s s' ∧ sameW s s' ∧ sameR s s' ∧ sameP s s' ∧ sameD s s') ∧ (AllocOk s → AllocOk s').
Proof.
  intros Hg s'. split.
  - split_and!; [split; acc|intros x; subst s'; acc|split; intros; subst s'; acc|
      split; intros; subst s'; acc|split; intros; try destruct o; subst s'; acc].
  - intros HA. assert (Hs : ∀ x, is_Some (groups s' !! x) ↔ is_Some (groups s !! x)).
    { intros x. subst s'. simpl. rewrite insert_is_Some. naive_solver. }
    split; intros *; rewrite ?Hs; try by apply HA.
    + intros Hi. destruct (a_inst s HA g0 i Hi). subst s'. split; [|done]. acc.
    + apply (a_db s HA).
Qed.

Lemma set_g_disable_Inv g b X X' s :
  Inv None X s → is_Some (groups s !! g) →
  (b = true → ∀ e, id_of e = g → wq s e ≠ [] → is_Some (ptr s e)) →
  (∀ o e, e ∈ dq s o → active s o ∨ X o e → active (upd_grp g (set_g_disable b) s) o ∨ X' o e) →
  Inv None X' (upd_grp g (set_g_disable b) s).
Proof.
  intros HI Hg Hlk Hact. destruct (set_g_disable_frame g b s Hg) as [(FT&FW&FR&FP&FD) FA].
  set (s' := upd_grp g (set_g_disable b) s) in *. pose proof HI as [HT HC HP HA HD].
  split; [by eapply TaskOk_same|by eapply CountOk_same|by eapply PolicyOk_same|by apply FA|].
  pose proof FD as [D1 D2 D3].
  assert (Hptr : ∀ x, ptr s' x = ptr s x) by (intros; by apply sameD_ptr).
  split; intros *; rewrite ?D1, ?D2, ?D3, ?Hptr, ?FW; try apply HD.
  - intros Hq. destruct (d_hand _ _ _ HD e Hq) as [|[|[H1 H2]]]; [by left|done|].
    destruct (decide (b = true ∧ id_of e = g)) as [[-> He]|Hd]; [left; by apply Hlk|].
    right; right. split; [exact H1|]. subst s'. acc. by destruct b; [destruct Hd|].
  - intros Hin. apply Hact; [done|]. by apply HD.
  - intros Hb%(d_block _ _ _ HD). by eapply blocks_same.
Qed.


(** The flag of an entry. *)
Lemma set_e_disable_frame e b s :
  is_Some (entries s !! e) →
  let s' := upd_ent e (set_e_disable b) s in
  (sameT s s' ∧ sameW s s' ∧ sameR s s' ∧ sameP s s' ∧ sameD s s') ∧ (AllocOk s → AllocOk s').
Proof.
  intros He s'. split.
  - split_and!; [split; acc|intros x; subst s'; acc|split; intros; subst s'; acc|
      split; intros; subst s'; acc|split; intros; try destruct o; subst s'; acc].
  - intros HA. assert (Hs : ∀ x, is_Some (entries s' !! x) ↔ is_Some (entries s !! x)).
    { intros x. subst s'. rewrite entries_upd_ent. naive_solver. }
    split; intros *; rewrite ?Hs; try by apply HA.
    + intros Hx. subst s'. acc; by apply HA.
    + intros Hx Hi. subst s'. pose proof (a_self s HA e0 Hx Hi). acc.
    + apply (a_db s HA).
Qed.

Lemma set_e_disable_Inv e b h s :
  Inv None none_exempt s → is_Some (entries s !! e) →
  (b = false → wq s e ≠ [] → is_Some (ptr s e) ∨ h = Some e) →
  (h = None ∨ h = Some e ∧ ptr s e = None) →
  Inv h none_exempt (upd_ent e (set_e_disable b) s).
Proof.
  intros HI He Hlk Hh. destruct (set_e_disable_frame e b s He) as [(FT&FW&FR&FP&FD) FA].
  set (s' := upd_ent e (set_e_disable b) s) in *. pose proof HI as [HT HC HP HA HD].
  split; [by eapply TaskOk_same|by eapply CountOk_same|by eapply PolicyOk_same|by apply FA|].
  pose proof FD as [D1 D2 D3]. pose proof FR as [R1 R2 _].
  assert (Hptr : ∀ x, ptr s' x = ptr s x) by (intros; by apply sameD_ptr).
  split; intros *; rewrite ?D1, ?D2, ?D3, ?Hptr, ?FW; try apply HD.
  - intros Hq. destruct (d_hand _ _ _ HD e0 Hq) as [|[|[H1 H2]]]; [by left|done|].
    destruct (decide (e0 = e)) as [->|Hne].
    + destruct b; [|destruct Hlk; auto]. right; right. split; [subst s'; acc|exact H2].
    + right; right. split; [subst s'; acc|exact H2].
  - intros Hx. destruct Hh as [->|[-> Hp]]; congruence.
  - eapply ssorted_impl_in, (d_sorted _ _ _ HD). intros x y _ _. by rewrite (cmp_frame s s').
  - intros Hin. destruct (d_active _ _ _ HD o e0 Hin) as [Ha|[]]. left.
    eapply active_mono, Ha; intros *; by rewrite ?R1, ?R2.
  - intros Hb%(d_block _ _ _ HD). by eapply blocks_same.
Qed.

Lemma DisableTaskEntry_spec id i s :
  Inv None none_exempt s → 0 ≤ id → -1 ≤ i →
  ∃ s', DisableTaskEntry id i s = Ret s' ∧ Inv None none_exempt s' ∧ tasks s' = tasks s.
Proof.
  intros HI Hid Hi. unfold DisableTaskEntry.
  destruct (GetTaskEntry_ext id i s (i_alloc _ _ _ HI) Hid Hi) as (s1&->&X1&A1&E1&G1&_). simpl.
  pose proof (Inv_ext _ _ s s1 HI X1 A1) as HI1. eexists. split; [done|]. split; [|apply X1].
  by apply set_e_disable_Inv; [..|left].
Qed.

(** A waiting entry in a queue is deferred again by [RunDeferEntry] when its
    policy holds it: it is linked twice. *)
Lemma RunDeferEntry_linked o e s :
  Inv None none_exempt s → e ∈ dq s o → o ≠ OE EStop → g_disable (grp s (id_of e)) = false →
  RunDeferEntry e s = Abort.
Proof.
  intros HI Hin Ho Hg. pose proof HI as [HT HC HP HA HD].
  pose proof (proj1 (d_ptr _ _ _ HD o e) Hin) as Hp.
  assert (Hw : wq s e ≠ []) by (apply HD; by eexists).
  destruct (waiting_exists s e HT HA Hw) as [Hee Heg]. unfold RunDeferEntry.
  destruct (a_fields s HA e Hee) as [-> _]. rewrite (GetTaskGroup_id (id_of e) s) by done. simpl.
  fold (wq s e). destruct (wq s e) as [|t q] eqn:Hq; [done|].
  assert (Hadd : ∀ o', AddToDeferQ o' e s = Abort) by (intros; apply AddToDeferQ_linked; by eexists).
  unfold GroupDeferOnPolicyFail, EntryDeferOnPolicyFail. fold (wq s e). rewrite Hq.
  destruct (ActiveGroupInPolicy (id_of e) s) as [h|] eqn:HG; simpl.
  { pose proof (Hadd (OG h)) as Hx. simpl in Hx. by rewrite Hx. }
  fold (wq s e). rewrite Hq. destruct (ActiveEntryInPolicy e s) as [f|] eqn:HE; simpl.
  { pose proof (Hadd (OE f)) as Hx. simpl in Hx. by rewrite Hx. }
  exfalso. pose proof (d_block _ _ _ HD o e Hin) as Hb.
  destruct (d_active _ _ _ HD o e Hin) as [Ha|[]]. destruct o as [f|h]; simpl in *.
  - destruct Ha as [Ha|[[-> _]|(g&->&Ha)]]; [|done|congruence].
    destruct (erc_pos s f HC Ha) as (x&_&<-). destruct Ha. apply (ActiveEntry_None _ _ HE).
    unfold entry_of in *. by destruct (_ =? _).
  - destruct Ha. by apply (ActiveGroup_None _ _ HG).
Qed.

(** The tasks that an operation of this group starts are waiting tasks, in the
    order of their wait queues. *)
Definition woken (s s' : Sched) : Prop := ∃ s2, tasks s2 = tasks s ∧ TaskOk s2 ∧ adv s2 s'.

Lemma EnableTaskEntry_spec id i s :
  Inv None none_exempt s → 0 ≤ id → -1 ≤ i → pE s (entry_for id i) ≠ Some EStop →
  (∃ s', EnableTaskEntry id i s = Ret s' ∧ Inv None none_exempt s' ∧ woken s s') ∨
  EnableTaskEntry id i s = Abort ∧ g_disable (grp s id) = false ∧ wq s (entry_for id i) ≠ [] ∧
    is_Some (ptr s (entry_for id i)).
Proof.
  intros HI Hid Hi Hstop. unfold EnableTaskEntry.
  destruct (GetTaskEntry_ext id i s (i_alloc _ _ _ HI) Hid Hi) as (s1&->&X1&A1&E1&G1&_). simpl.
  pose proof (Inv_ext _ _ s s1 HI X1 A1) as HI1.
  set (e := entry_for id i) in *.
  assert (Hide : id_of e = id) by (unfold e, entry_for; by destruct (_ =? _)).
  assert (Hp1 : ptr s1 e = ptr s e) by (apply sameD_ptr, X1).
  set (s2 := upd_ent e (set_e_disable false) s1).
  destruct (set_e_disable_frame e false s1 E1) as [(FT&FW&FR&FP&FD) FA].
  fold s2 in FT, FW, FR, FP, FD, FA.
  assert (Ht2 : tasks s2 = tasks s) by (apply X1).
  assert (HT2 : TaskOk s2) by (eapply TaskOk_same; [done..|]; apply HI1).
  rewrite GetTaskGroup_id; [|by apply FA|done]. simpl.
  change (grp s2 id) with (grp s1 id). rewrite (sF_g _ _ (x_F _ _ X1)).
  destruct (g_disable (grp s id)) eqn:Hg.
  { left. exists s2. split; [done|]. split; [|by exists s2]. apply set_e_disable_Inv; [done|done| |by left].
    intros _ Hq. destruct (d_hand _ _ _ (i_defer _ _ _ HI1) e Hq) as [|[|[_ Hn]]]; [by left|done|].
    rewrite Hide, (sF_g _ _ (x_F _ _ X1)) in Hn. congruence. }
  fold (wq s2 e). rewrite FW, (x_W _ _ X1 e). destruct (wq s e) as [|t q] eqn:Hq; simpl.
  { left. exists s2. split; [done|]. split; [|by exists s2]. apply set_e_disable_Inv; [done|done| |by left].
    by rewrite (x_W _ _ X1 e), Hq. }
  destruct (ptr s e) as [o|] eqn:Hp.
  - right. split_and!; [|done|done|by eexists]. apply (RunDeferEntry_linked o e).
    + apply set_e_disable_Inv; [done|done| |by left]. left. by rewrite Hp1.
    + apply (d_ptr _ _ _ (i_defer _ _ _ HI1)) in Hp1. by rewrite <-(sD_dq _ _ FD o) in Hp1.
    + intros ->. unfold ptr in Hp. by destruct (pG s e), (pE s e); simplify_eq.
    + rewrite Hide. change (grp s2 id) with (grp s1 id). by rewrite (sF_g _ _ (x_F _ _ X1)).
  - left. destruct (RunDeferEntry_spec none_exempt e s2) as (s'&->&HI'&Ha&_).
    + apply set_e_disable_Inv; [done|done|by right|by right].
    + by rewrite FW, (x_W _ _ X1 e), Hq.
    + exists s'. split_and!; [done..|]. by exists s2.
Qed.

Lemma EnableTaskGroup_spec id s :
  Inv None none_exempt s → 0 ≤ id →
  ∃ s', EnableTaskGroup id s = Ret s' ∧ Inv None none_exempt s' ∧ woken s s'.
Proof.
  intros HI Hid. unfold EnableTaskGroup.
  destruct (GetTaskGroup_ext id s (i_alloc _ _ _ HI) Hid) as (s1&->&X1&A1&G1&_). simpl.
  pose proof (Inv_ext _ _ s s1 HI X1 A1) as HI1.
  set (s2 := upd_grp id (set_g_disable false) s1).
  destruct (RunDeferQForGroupEnable_spec id s2) as (s'&->&HI'&Ha); [|subst s2; acc|].
  - apply (set_g_disable_Inv id false none_exempt); [done..|]. fold s2.
    destruct (set_g_disable_frame id false s1 G1) as [(FT&FW&[R1 R2 _]&FP&FD) _].
    fold s2 in FT, FW, R1, R2, FP, FD.
    intros o e _ [Hac|[]]. destruct (decide (o = OE (EDisable id))) as [|Ho]; [by right|left].
    destruct o as [f|g]; simpl in *; [|by rewrite R2].
    destruct Hac as [Hac|[[-> Hac]|(g&->&Hac)]]; [left; by rewrite R1|by right; left|].
    right; right. exists g. split; [done|]. subst s2. assert (g ≠ id) by congruence. acc.
  - exists s'. split_and!; [done..|]. exists s2. split_and!; [apply X1| |done].
    destruct (set_g_disable_frame id false s1 G1) as [(FT&FW&_) _].
    eapply TaskOk_same; [done..|]. apply HI1.
Qed.

(** The visit of one entry by [AddEntriesToDisableQ]. *)
Definition disable_one (g : Z) (e : EntryRef) (s : Sched) : outcome Sched :=
  if (length (wq s e) =? 0)%nat then Ret s else AddToDisableQ g e s.
Definition disable_all (g : Z) (l : list EntryRef) (r : outcome Sched) : outcome Sched :=
  foldl (λ r e, s ← r; disable_one g e s) r l.

Lemma disable_all_abort g l : disable_all g l Abort = Abort.
Proof. by induction l. Qed.

Lemma EntryAddToDeferQ_groups o e s s' : EntryAddToDeferQ o e s = Ret s' → groups s' = groups s.
Proof.
  unfold EntryAddToDeferQ. destruct (negb (linked s e)); simpl; [|done].
  destruct (bool_decide _); simpl; [|done]. by intros [= <-].
Qed.

Lemma AddEntriesToDisableQ_eq g s :
  AddEntriesToDisableQ g s =
  disable_all g (EGroup g :: map (EInst g) (seqZ 0 (entry_db_size (grp s g)))) (Ret s).
Proof.
  assert (Hloop : ∀ l r,
    foldl (λ r i, s ← r;
      match entries s !! EInst g i with
      | None => Ret s
      | Some E => if (length (waitq_ E) =? 0)%nat then Ret s else AddToDisableQ g (EInst g i) s
      end) r l = disable_all g (map (EInst g) l) r).
  { intros l. induction l as [|i l IH]; intros r; [done|]. simpl. rewrite IH. clear IH.
    unfold disable_all. simpl. f_equal.
    destruct r as [s0|]; [|done]. simpl. unfold disable_one, wq, ent.
    by destruct (entries s0 !! EInst g i). }
  unfold AddEntriesToDisableQ. simpl. rewrite <-Hloop. unfold disable_one at 1. fold (wq s (EGroup g)).
  destruct (length (wq s (EGroup g)) =? 0)%nat; simpl.
  - done.
  - destruct (AddToDisableQ g (EGroup g) s) as [s1|] eqn:Ha; simpl.
    + unfold grp. by rewrite (EntryAddToDeferQ_groups _ _ _ _ Ha).
    + by rewrite Hloop, disable_all_abort.
Qed.

(** The visits do not look at the flag of the group. *)
Lemma EntryAddToDeferQ_flag o e g f s :
  EntryAddToDeferQ o e (upd_grp g f s) = (s' ← EntryAddToDeferQ o e s; Ret (upd_grp g f s')).
Proof.
  unfold EntryAddToDeferQ.
  change (linked (upd_grp g f s) e) with (linked s e).
  destruct (negb (linked s e)); [|done]. simpl.
  destruct (bool_decide _); [|done]. done.
Qed.
Lemma disable_all_flag g l s :
  disable_all g l (Ret (upd_grp g (set_g_disable true) s)) =
  (s' ← disable_all g l (Ret s); Ret (upd_grp g (set_g_disable true) s')).
Proof.
  revert s. induction l as [|e l IH]; intros s; [done|]. simpl.
  unfold disable_one. change (wq (upd_grp g (set_g_disable true) s) e) with (wq s e).
  destruct (length (wq s e) =? 0)%nat; [apply IH|].
  unfold AddToDisableQ. rewrite EntryAddToDeferQ_flag.
  destruct (EntryAddToDeferQ (EDisable g) e s) as [s1|]; simpl; [apply IH|].
  by rewrite !disable_all_abort.
Qed.

(** Inserting [e] into one queue links [e] and no other entry. *)
Lemma insert_ptr X o e s s1 l1 l2 :
  DeferOk None X s → DeferOk None X s1 → dq s o = l1 ++ l2 → dq s1 o = l1 ++ e :: l2 →
  (∀ o', o' ≠ o → dq s1 o' = dq s o') → ∀ x, is_Some (ptr s1 x) ↔ is_Some (ptr s x) ∨ x = e.
Proof.
  intros HD HD1 Hd1 Hd2 Hd3 x. split.
  - intros [o' Ho]. apply (d_ptr _ _ _ HD1) in Ho. destruct (decide (o' = o)) as [->|Hne].
    + rewrite Hd2 in Ho. destruct (decide (x = e)) as [|Hx]; [by right|left]. exists o.
      apply (d_ptr _ _ _ HD). rewrite Hd1. set_solver.
    + left. exists o'. apply (d_ptr _ _ _ HD). by rewrite <-Hd3.
  - intros [[o' Ho]| ->]; [|exists o; apply (d_ptr _ _ _ HD1); rewrite Hd2; set_solver].
    exists o'. apply (d_ptr _ _ _ HD1). apply (d_ptr _ _ _ HD) in Ho.
    destruct (decide (o' = o)) as [->|Hne]; [|by rewrite Hd3]. rewrite Hd2. rewrite Hd1 in Ho. set_solver.
Qed.

#[local] Instance frame_trans : Transitive frame.
Proof.
  intros s1 s2 s3 [[T1 T2 T3] W [R1 R2 R3] P A] [[T1' T2' T3'] W' [R1' R2' R3'] P' A'].
  split; [split; congruence| |split; intros; congruence|by etrans|by etrans].
  intros x. by rewrite W', W.
Qed.

Lemma disable_all_spec g l s :
  let X := λ (o : Owner) (_ : EntryRef), o = OE (EDisable g) in
  NoDup l → (∀ e, e ∈ l → id_of e = g) → is_Some (groups s !! g) → Inv None X s →
  (∃ s', disable_all g l (Ret s) = Ret s' ∧ Inv None X s' ∧ frame s s' ∧
     ∀ e, wq s e ≠ [] → e ∈ l ∨ is_Some (ptr s e) → is_Some (ptr s' e)) ∨
  disable_all g l (Ret s) = Abort ∧ ∃ e, e ∈ l ∧ wq s e ≠ [] ∧ is_Some (ptr s e).
Proof.
  intros X Hnd. revert s. induction Hnd as [|e l He _ IH]; intros s Hid Hg HI.
  { left. exists s. split_and!; [done|done|by repeat split|]. intros e _ [?|?]; [set_solver|done]. }
  change (disable_all g (e :: l) (Ret s)) with (disable_all g l (disable_one g e s)).
  assert (Hid' : ∀ x, x ∈ l → id_of x = g) by (intros; apply Hid; set_solver).
  unfold disable_one. destruct (wq s e) as [|t q] eqn:Hq; simpl.
  { destruct (IH s Hid' Hg HI) as [(s'&?&?&?&Hl)|(?&x&?&?&?)]; [left; exists s'|right].
    - split_and!; [done..|]. intros x Hx Hx'. apply Hl; [done|]. destruct Hx' as [[->|]%elem_of_cons|]; auto; congruence.
    - split; [done|]. exists x. split_and!; [set_solver|done..]. }
  destruct (ptr s e) as [o|] eqn:Hp.
  { right. unfold AddToDisableQ.
    assert (Ha : AddToDeferQ (OE (EDisable g)) e s = Abort) by (apply AddToDeferQ_linked; by eexists).
    simpl in Ha. rewrite Ha, disable_all_abort. split; [done|].
    exists e. rewrite Hq, Hp. split_and!; [set_solver|done|by eexists]. }
  destruct (AddToDeferQ_exempt X (OE (EDisable g)) e s) as (s1&l1&l2&Ha&HI1&HF&Hd1&Hd2&Hd3).
  - by apply Inv_take.
  - by rewrite Hq.
  - simpl. by apply (a_dentry s (i_alloc _ _ _ HI)).
  - by right.
  - simpl. symmetry. apply Hid. set_solver.
  - simpl in Ha. unfold AddToDisableQ. rewrite Ha.
    pose proof (i_defer _ _ _ HI). pose proof (i_defer _ _ _ HI1).
    assert (Hptr : ∀ x, is_Some (ptr s1 x) ↔ is_Some (ptr s x) ∨ x = e) by (by eapply insert_ptr).
    destruct (IH s1 Hid') as [(s'&?&?&HF'&Hl)|(?&x&?&Hx&Hx')]; [by apply (f_A _ _ HF)|done|left|right].
    + exists s'. split_and!; [done..|by etrans|].
      * intros x Hx Hx'. apply Hl; [by rewrite (f_W _ _ HF)|]. rewrite Hptr.
        destruct Hx' as [[->|]%elem_of_cons|]; auto.
    + split; [done|]. exists x. rewrite (f_W _ _ HF) in Hx. rewrite Hptr in Hx'.
      split_and!; [set_solver|done|]. destruct Hx' as [|Hx']; [done|]. by subst.
Qed.

(** The entries of a group that have waiting tasks are those that
    [AddEntriesToDisableQ] visits. *)
Lemma waiting_visited s e :
  TaskOk s → AllocOk s → wq s e ≠ [] →
  e ∈ EGroup (id_of e) :: map (EInst (id_of e)) (seqZ 0 (entry_db_size (grp s (id_of e)))).
Proof.
  intros HT HA Hq. destruct (waiting_exists s e HT HA Hq) as [He _].
  destruct (wq s e) as [|t q] eqn:Hw; [done|].
  destruct (waiting_task s e t HT) as [_ Ht]; [rewrite Hw; set_solver|].
  destruct e as [g|g i|g|]; simpl in *; [set_solver| |unfold entry_of in Ht; by destruct (_ =? _)..].
  destruct (a_inst s HA g i He) as [Hi _]. apply elem_of_cons. right.
  apply (list_elem_of_fmap_2 (EInst g) _ i). apply elem_of_seqZ. lia.
Qed.

Lemma DisableTaskGroup_spec id s :
  Inv None none_exempt s → 0 ≤ id →
  (∃ s', DisableTaskGroup id s = Ret s' ∧ Inv None none_exempt s' ∧ tasks s' = tasks s) ∨
  DisableTaskGroup id s = Abort ∧ g_disable (grp s id) = false ∧
    ∃ e, id_of e = id ∧ wq s e ≠ [] ∧ is_Some (ptr s e).
Proof.
  intros HI Hid. unfold DisableTaskGroup.
  destruct (GetTaskGroup_ext id s (i_alloc _ _ _ HI) Hid) as (s1&->&X1&A1&G1&_). simpl.
  pose proof (Inv_ext _ _ s s1 HI X1 A1) as HI1. rewrite (sF_g _ _ (x_F _ _ X1)).
  destruct (g_disable (grp s id)) eqn:Hg; [left; exists s1; split_and!; [done|done|apply X1]|].
  rewrite AddEntriesToDisableQ_eq, disable_all_flag.
  replace (entry_db_size (grp (upd_grp id (set_g_disable true) s1) id)) with (entry_db_size (grp s1 id)) by acc.
  set (l := EGroup id :: _).
  assert (Hl : ∀ e, e ∈ l → id_of e = id).
  { intros e [->|Hin]%elem_of_cons; [done|]. by apply list_elem_of_fmap in Hin as (i&->&_). }
  assert (Hnd : NoDup l).
  { constructor; [intros Hin; by apply list_elem_of_fmap in Hin as (i&?&_)|].
    assert (Inj (=) (=) (EInst id)) by (by intros ?? [= ->]).
    apply (NoDup_fmap_2 (EInst id)), NoDup_seqZ. }
  destruct (disable_all_spec id l s1 Hnd Hl G1) as [(s2&->&HI2&HF&Hlk)|(->&e&He&Hq&Hp)].
  - eapply Inv_exempt, HI1. by intros o e _ [].
  - left. simpl. eexists. split; [done|]. split; [|change (tasks s2 = tasks s);
      rewrite (sT_tasks _ _ (f_T _ _ HF)); apply X1].
    eapply set_g_disable_Inv; [done|by apply (f_A _ _ HF)|..].
    + intros _ e He Hq. rewrite (f_W _ _ HF) in Hq. apply Hlk; [done|]. left.
      subst l. rewrite <-He. apply waiting_visited; [apply HI1..|done].
    + set (s3 := upd_grp id (set_g_disable true) s2). intros o e _ Hac. left.
      assert (Hon : g_disable (grp s3 id) = true) by (subst s3; acc).
      destruct Hac as [Hac| ->]; [|right; right; by exists id].
      destruct o as [f|g]; simpl in *.
      * destruct Hac as [Hac|[Hac|(g&->&Hac)]]; [by left|by right; left|right; right; exists g].
        split; [done|]. subst s3. acc.
      * subst s3. by acc.
  - right. split_and!; [done|done|]. exists e. split; [by apply Hl|].
    by rewrite <-(x_W _ _ X1), <-(sameD_ptr _ _ _ (x_D _ _ X1)).
Qed.

(** ** Every step keeps the invariant *)

Lemma flags_Inv t f s :
  Inv None none_exempt s → is_Some (tasks s !! t) →
  (∀ T, task_id_ (f T) = task_id_ T ∧ task_instance_ (f T) = task_instance_ T ∧
        state_ (f T) = state_ T ∧ seqno_ (f T) = seqno_ T ∧ task_impl_ (f T) = task_impl_ T) →
  tbb_state_ (tsk s t) ≠ TBB_DONE → tbb_state_ (f (tsk s t)) ≠ TBB_DONE →
  Inv None none_exempt (upd_tsk t f s).
Proof.
  intros HI Hex Hf H1 H2. pose proof (i_task _ _ _ HI) as HT. pose proof (i_alloc _ _ _ HI) as HA.
  destruct (Hf (tsk s t)) as (Fi&Fn&Fs&Fq&Fm).
  assert (Ht : tsk (upd_tsk t f s) t = f (tsk s t)) by acc.
  assert (He : entry_of (f (tsk s t)) = entry_of (tsk s t)) by (unfold entry_of; by rewrite Fi, Fn).
  eapply (retask_Inv None none_exempt t s); rewrite ?Ht; try done.
  - apply retask_put, HT.
  - split; unfold is_run; rewrite ?Fs, ?He, ?Fq; naive_solver.
  - rewrite Fs, Fq, He. intros Hn. split; [by apply HT|by apply HA].
  - rewrite Fs, Fm. apply HT.
  - intros T. simpl. rewrite lookup_insert_eq. intros [= <-]. rewrite Fi, Fn.
    destruct Hex as [T0 HT0]. rewrite (tsk_lookup s t T0 HT0). by eapply HA.
Qed.

Lemma new_task_Inv t id inst s :
  Inv None none_exempt s → tasks s !! t = None → 0 ≤ id → -1 ≤ inst →
  Inv None none_exempt (put_tsk t (new_task id inst) s).
Proof.
  intros HI Hn Hid Hinst. assert (Ht : tsk s t = new_task (-1) (-1)) by (unfold tsk; by rewrite Hn).
  assert (Ht' : tsk (put_tsk t (new_task id inst) s) t = new_task id inst) by acc.
  eapply (retask_Inv None none_exempt t s); rewrite ?Ht, ?Ht'; try done.
  - apply retask_put, HI.
  - split; unfold is_run; naive_solver.
  - intros T. simpl. rewrite lookup_insert_eq. by intros [= <-].
Qed.

(** The two conditions on the task objects. *)
Definition TasksOk (s : Sched) : Prop := InitOk s ∧ NoneDone s.

Lemma TasksOk_change t s s' :
  TasksOk s → (∀ x, x ≠ t → tsk s' x = tsk s x) →
  (state_ (tsk s' t) = INIT → seqno_ (tsk s' t) = 0) → tbb_state_ (tsk s' t) ≠ TBB_DONE → TasksOk s'.
Proof.
  intros [HI HN] Hx H1 H2. split; intros x; (destruct (decide (x = t)) as [->|Hne]; [done|]);
    rewrite Hx by done; [apply HI|apply HN].
Qed.

Lemma TasksOk_adv s s' : (∀ t, state_ (tsk s t) = INIT → seqno_ (tsk s t) = 0) → adv s s' →
  InitOk s' ∧ (∀ t, tbb_state_ (tsk s t) ≠ TBB_DONE → tbb_state_ (tsk s' t) ≠ TBB_DONE).
Proof.
  intros HI Ha. split; intros t; destruct (v_tsk _ _ Ha t) as [->|[_ ->]]; done || apply HI.
Qed.

Lemma enqueued_TasksOk t s s' :
  enqueued t s s' → TasksOk s → TasksOk s'.
Proof.
  intros HE [HI HN]. apply (TasksOk_change t s); [done|..].
  - intros x Hx. unfold tsk. by rewrite (en_ne _ _ _ HE).
  - destruct (decide (state_ (tsk s' t) = INIT)) as [Hi|]; [|done].
    assert (Hna : ¬ admissible s (tsk s t)).
    { intros Ha. destruct (en_start _ _ _ HE Ha) as [Ht _]. rewrite Ht in Hi. done. }
    destruct (en_wait _ _ _ HE Hna) as [Ht _]. by rewrite Ht in Hi.
  - intros Hd. assert (Hna : ¬ admissible s (tsk s t)).
    { intros Ha. destruct (en_start _ _ _ HE Ha) as [Ht _]. rewrite Ht in Hd. done. }
    destruct (en_wait _ _ _ HE Hna) as [Ht _]. rewrite Ht in Hd. simpl in Hd. by apply (HN t).
Qed.

Lemma exit_TasksOk t s s2 s3 s' : exit_effect t s s2 s3 s' → TasksOk s → TasksOk s'.
Proof.
  intros [HE Ha _ Hdel Hagain] [HI HN].
  assert (H2 : ∀ x, x ≠ t → tsk s2 x = tsk s x).
  { intros x Hx. rewrite (exited_tsk _ t s s2 HE), decide_False by done. done. }
  assert (H3 : ∀ x, x ≠ t → (state_ (tsk s3 x) = INIT → seqno_ (tsk s3 x) = 0) ∧
    tbb_state_ (tsk s3 x) ≠ TBB_DONE).
  { intros x Hx. destruct (v_tsk _ _ Ha x) as [->|[_ ->]]; [|done]. rewrite H2 by done.
    split; [apply HI|apply HN]. }
  destruct (decide (task_recycle_ (tsk s t) = true ∧ task_cancel_ (tsk s t) = false)) as [[Hr Hc]|Hd].
  - eapply enqueued_TasksOk; [by apply Hagain|].
    split; intros x; (destruct (decide (x = t)) as [->|Hx]; [by acc|]); acc; by apply H3.
  - rewrite Hdel by (destruct (task_recycle_ (tsk s t)), (task_cancel_ (tsk s t)); naive_solver).
    split; intros x; acc; by apply H3.
Qed.

Lemma woken_TasksOk s s' : woken s s' → TasksOk s → TasksOk s'.
Proof.
  intros (s2&Ht&_&Ha) [H1 H2].
  assert (Htk : ∀ t, tsk s2 t = tsk s t) by (intros; unfold tsk; by rewrite Ht).
  destruct (TasksOk_adv s2 s') as [H3 H4]; [intros t; rewrite Htk; apply H1|done|].
  split; [done|]. intros t. apply H4. rewrite Htk. apply H2.
Qed.
Lemma tasks_TasksOk s s' : tasks s' = tasks s → TasksOk s → TasksOk s'.
Proof. intros Ht [H1 H2]. split; intros x; unfold tsk; rewrite Ht; [apply H1|apply H2]. Qed.

(** The calls on which an assertion fails, all of them of the functions that
    disable and enable: a second task for an entry of a disabled group, the
    disabling of a group with an entry that is deferred, the enabling of an
    entry that is deferred. *)
Definition misused (s : Sched) (l : label) : Prop :=
  match l with
  | LEnqueue t => crowded s (entry_of (tsk s t))
  | LExit t => reenters_crowded s t
  | LDisableGroup id => g_disable (grp s id) = false ∧
      ∃ e, id_of e = id ∧ waitq_ (ent s e) ≠ [] ∧ linked s e = true
  | LEnableEntry id inst => g_disable (grp s id) = false ∧
      waitq_ (ent s (entry_for id inst)) ≠ [] ∧ linked s (entry_for id inst) = true
  | _ => False
  end.

(** The steps of disabling and enabling. *)
Lemma step_disable_SchedOk s l r :
  Inv None none_exempt s → TasksOk s → step s l r →
  (∃ id, l = LDisableGroup id) ∨ (∃ id, l = LEnableGroup id) ∨
  (∃ id i, l = LDisableEntry id i) ∨ (∃ id i, l = LEnableEntry id i) →
  (∃ s', r = Ret s' ∧ Inv None none_exempt s' ∧ woken s s') ∨ r = Abort ∧ misused s l.
Proof.
  intros HI HTk Hstep Hl.
  assert (Hsame : ∀ s', Inv None none_exempt s' → tasks s' = tasks s → woken s s').
  { intros s' HI' Ht. exists s'. split_and!; [done|apply HI'|done]. }
  destruct Hl as [(id&->)|[(id&->)|[(id&i&->)|(id&i&->)]]]; inversion Hstep; subst.
  - destruct (DisableTaskGroup_spec id s) as [(s'&?&?&?)|(?&?&e&?&?&?)]; [done|done|left|right].
    + exists s'. auto.
    + split; [done|]. split; [done|]. exists e. by rewrite linked_ptr.
  - left. by apply EnableTaskGroup_spec.
  - left. destruct (DisableTaskEntry_spec id i s) as (s'&?&?&?); try done. exists s'. auto.
  - destruct (EnableTaskEntry_spec id i s) as [?|(?&?&?&?)]; [done..|by left|right].
    split; [done|]. split; [done|]. by rewrite linked_ptr.
Qed.

Lemma step_SchedOk s l r :
  SchedOk s → step s l r → (∃ s', r = Ret s' ∧ SchedOk s') ∨ r = Abort ∧ misused s l.
Proof.
  intros (HI&HTk) Hstep. pose proof (i_alloc _ _ _ HI) as HA. fold (TasksOk s) in HTk.
  cut ((∃ s', r = Ret s' ∧ Inv None none_exempt s' ∧ TasksOk s') ∨ r = Abort ∧ misused s l).
  { intros [(s'&?&?&?&?)|]; [left; by exists s'|by right]. }
  assert (Hdis : (∃ id, l = LDisableGroup id) ∨ (∃ id, l = LEnableGroup id) ∨
    (∃ id i, l = LDisableEntry id i) ∨ (∃ id i, l = LEnableEntry id i) →
    (∃ s', r = Ret s' ∧ Inv None none_exempt s' ∧ TasksOk s') ∨ r = Abort ∧ misused s l).
  { intros Hl. destruct (step_disable_SchedOk s l r HI HTk Hstep Hl) as [(s'&?&?&?)|]; [left|by right].
    exists s'. split_and!; [done..|]. by eapply woken_TasksOk. }
  destruct Hstep as [s t id inst Hn|s id p Hq Hid Hset Hp|s t Hex Hinit Hok|s t r' s' Hex Hcan|
    s t r' Hex Hcan|s t Hst Htbb|s t c Hst Htbb|s t Hst Htbb Hok|s|s|s id Hid|s id Hid|
    s id inst Hid Hi|s id inst Hid Hi Hp]; try (apply Hdis; by eauto 10); clear Hdis.
  3: { destruct (decide (crowded s (entry_of (tsk s t)))) as [Hcr|Hcr].
       - right. split; [|done]. apply EnqueueUnLocked_crowded; try done. by apply HTk.
       - left. destruct (EnqueueUnLocked_spec t s) as (s'&->&HI'&HE); try done; [by apply HTk|].
         exists s'. split_and!; [done..|]. by eapply enqueued_TasksOk. }
  7: { destruct (OnTaskExit_spec t s HI Hst Htbb Hok) as [(s2&s3&s'&->&HI'&HE)|]; [left|by right].
       exists s'. split_and!; [done..|]. by eapply exit_TasksOk. }
  all: left.
  - eexists. split; [done|]. split; [by apply new_task_Inv|].
    apply (TasksOk_change t s); [done|intros; acc|acc|acc].
  - destruct (SetPolicy_spec id p s) as (s'&->&HL&_); try done. exists s'.
    split_and!; [done|apply HL|]. eapply tasks_TasksOk, HTk. apply HL.
  - unfold Cancel in Hcan. destruct (state_ (tsk s t)) eqn:Hst.
    + simplify_eq. eauto.
    + fold (Cancel t s) in Hcan.
      destruct (Cancel_wait_spec t s HI Hst) as (s0&Hc&HM&HI0). unfold Cancel in Hc. rewrite Hst in Hc.
      rewrite Hc in Hcan. simplify_eq. exists s'. split_and!; [done..|].
      apply (TasksOk_change t s); [done|..].
      * intros x Hx. rewrite (removed_tsk t s s' HM), decide_False by done. done.
      * by rewrite (removed_tsk t s s' HM), decide_True.
      * by rewrite (removed_tsk t s s' HM), decide_True.
    + simplify_eq. eexists. split; [done|]. destruct HTk as [H1 H2]. split.
      * apply flags_Inv; try done; apply H2.
      * apply (TasksOk_change t s); [done|intros; acc|acc; congruence|acc; apply H2].
  - exfalso. unfold Cancel in Hcan. destruct (state_ (tsk s t)) eqn:Hst; try done.
    destruct (Cancel_wait_spec t s HI Hst) as (s0&Hc&_). unfold Cancel in Hc. rewrite Hst in Hc. congruence.
  - eexists. split; [done|]. destruct HTk as [H1 H2]. split.
    + apply flags_Inv; try done. apply (task_exists s); [done|congruence].
    + unfold execute_enter. apply (TasksOk_change t s); [done|intros; acc|acc; simpl; congruence|acc].
  - eexists. split; [done|]. destruct HTk as [H1 H2]. split.
    + apply flags_Inv; try done; try apply H2. apply (task_exists s); [done|congruence].
    + unfold execute_leave. apply (TasksOk_change t s); [done|intros; acc|acc; simpl; congruence|acc; apply H2].
  - eexists. split; [done|]. split; [by apply Stop_Inv|done].
  - destruct (Start_spec s HI) as (s'&->&HI'&Ha). exists s'. split_and!; [done..|].
    destruct HTk as [H1 H2]. destruct (TasksOk_adv (set_running true s) s' H1 Ha) as [H3 H4]. split; [done|].
    intros t. apply H4, H2.
Qed.
End Sched.
