(* ===== verification/TaskThms.v ===== *)
(** * What the task scheduler guarantees

    The theorems about [TaskScheduler], stated on the members of its objects. *)

From stdpp Require Import gmap.
From Stdlib Require Import Sorted.
From S2P Require Import Prelude Task TaskInv TaskRun TaskOps TaskExit TaskSched.
Open Scope Z_scope.

Lemma init_SchedOk : SchedOk new_TaskScheduler.
Proof.
  assert (He : ∀ e, ent new_TaskScheduler e = new_TaskEntry (-1) (-1)).
  { intros e. unfold ent. simpl. destruct (decide (e = EStop)) as [->|]; [done|].
    by rewrite lookup_singleton_ne. }
  assert (Hg : ∀ g, grp new_TaskScheduler g = new_TaskGroup) by (intros; unfold grp; by simpl).
  assert (Ht : ∀ t, tsk new_TaskScheduler t = new_task (-1) (-1)) by (intros; unfold tsk; by simpl).
  assert (Hd : ∀ o, dq new_TaskScheduler o = []) by (intros [f|g]; simpl; by rewrite ?He, ?Hg).
  assert (Hs : ∀ e, is_Some (entries new_TaskScheduler !! e) → e = EStop).
  { intros e [E HE]. simpl in HE. apply lookup_singleton_Some in HE. naive_solver. }
  split; [|split; intros t; by rewrite Ht]. split.
  - split; intros *; unfold wq; rewrite ?He, ?Ht; simpl; try done; [set_solver|constructor].
  - split; intros *; unfold erc, grc, rtask, is_run; rewrite ?He, ?Hg, ?Ht; simpl; try done.
    intros _. split; [done|]. by intros [[? _] _].
  - split; intros *; unfold pol, epol; rewrite ?He, ?Hg; simpl; set_solver.
  - split; intros *; unfold epol; rewrite ?He, ?Hg, ?Ht; try done; try (by intros ?%Hs);
      try (by intros ->%Hs); try by intros [].
    all: split; [by intros []|by intros ?%Hs].
  - assert (Hn : ∀ e : EntryRef, e ∉ ([] : list EntryRef)) by (intros e; apply not_elem_of_nil).
    split; intros *; unfold ptr, wq, pE, pG; rewrite ?Hd, ?He; simpl; try done.
    + split; [|done]. by intros ?%Hn.
    + by left.
    + constructor.
    + by intros ?%Hn.
    + by intros ?%Hn.
Qed.

Section Thms.
Context `{!IntrusiveSet EntryRef}.

Lemma reachable_SchedOk s : reachable s → SchedOk s.
Proof.
  induction 1 as [|s l s' _ IH Hstep]; [apply init_SchedOk|].
  destruct (step_SchedOk s l (Ret s') IH Hstep) as [(s0&[= <-]&H)|[? _]]; done.
Qed.


(** The policy of task [A] excludes task [B]: by a rule on the group, by a rule
    on the instance, or because both are of the same instance. *)
Definition excluded (s : Sched) (A B : Task) : Prop :=
  (task_id_ A ≠ task_id_ B ∧ task_id_ B ∈ policy_ (grp s (task_id_ A))) ∨
  (entry_of A ≠ entry_of B ∧ entry_of B ∈ policyq_ (ent s (entry_of A))) ∨
  (entry_of A = entry_of B ∧ task_instance_ A ≠ -1).

Lemma run_counts s t :
  SchedOk s → state_ (tsk s t) = RUN → 0 < erc s (entry_of (tsk s t)) ∧ 0 < grc s (task_id_ (tsk s t)).
Proof.
  intros (HI&_&HN) Hr. pose proof (i_count _ _ _ HI) as HC.
  assert (Hrun : is_run (tsk s t)) by (split; [done|apply HN]).
  assert (Hex : is_Some (tasks s !! t)) by (apply (task_exists s); [apply HI|congruence]).
  rewrite (c_erc s HC), (c_grc s HC). split.
  - destruct (nrun_e s (entry_of (tsk s t))) eqn:Hz; [|lia].
    by destruct (count_zero (λ T, is_run T ∧ entry_of T = entry_of (tsk s t)) s t Hz).
  - destruct (nrun_g s (task_id_ (tsk s t))) eqn:Hz; [|lia].
    by destruct (count_zero (λ T, is_run T ∧ task_id_ T = task_id_ (tsk s t)) s t Hz).
Qed.

(** C2: Two tasks of different task ids whose groups exclude each other, or of
    different entries that exclude each other, never run at the same time, and
    an instance of a task id runs one task at a time.  A policy that names its
    own task id does not keep tasks without an instance apart
    ([self_exclusion_not_enforced]); policies are set while nothing runs. *)
Theorem mutual_exclusion s a b :
  reachable s → a ≠ b → state_ (tsk s a) = RUN → state_ (tsk s b) = RUN →
  ¬ excluded s (tsk s a) (tsk s b).
Proof.
  intros Hs%reachable_SchedOk Hab Ha Hb. pose proof (run_counts s a Hs Ha) as [Ea Ga].
  pose proof (run_counts s b Hs Hb) as [Eb Gb]. destruct Hs as (HI&_&HN).
  pose proof (i_policy _ _ _ HI) as HP. pose proof (i_count _ _ _ HI) as HC.
  intros [[Hne Hin]|[[Hne Hin]|[Heq Hinst]]].
  - destruct (p_gmutex s HP _ _ Hne Hin); lia.
  - destruct (p_emutex s HP _ _ Hne Hin); lia.
  - destruct Hab. rewrite <-entry_of_inst in Hinst.
    assert (H1 : rtask s (entry_of (tsk s a)) = Some a) by (apply (c_rtask s HC); done).
    assert (H2 : rtask s (entry_of (tsk s a)) = Some b) by (apply (c_rtask s HC); done).
    congruence.
Qed.

(** A stopped scheduler or a disabled group or entry holds back a task. *)
Definition held (s : Sched) (T : Task) : Prop :=
  running_ s = false ∨ g_disable (grp s (task_id_ T)) = true ∨ e_disable (ent s (entry_of T)) = true.
Definition blocked (s : Sched) (T : Task) : Prop :=
  (∃ h, h ∈ policy_ (grp s (task_id_ T)) ∧ g_run_count (grp s h) ≠ 0) ∨
  (∃ f, f ∈ policyq_ (ent s (entry_of T)) ∧ e_run_count (ent s f) ≠ 0) ∨
  held s T.

(** C3: A task waits only while some group or entry in its policy has a running
    task, the scheduler is stopped, or its group or its entry is disabled.  In
    particular no enqueued task is forgotten: when nothing runs, the scheduler
    is not stopped and neither the group nor the entry is disabled, the task
    does not wait. *)
Theorem waiting_is_blocked s t :
  reachable s → state_ (tsk s t) = WAIT →
  blocked s (tsk s t) ∧ ((∀ x, state_ (tsk s x) ≠ RUN) → held s (tsk s t)).
Proof.
  intros Hs%reachable_SchedOk Hw. set (T := tsk s t).
  cut (blocked s T).
  { intros Hb. split; [done|]. intros Hq. destruct Hs as (HI&_).
    destruct (quiet_idle _ _ s HI Hq) as [H1 H2]. unfold erc, grc in *.
    destruct Hb as [(h&_&Hh)|[(f&_&Hf)|?]]; [by destruct Hh; apply H2|by destruct Hf; apply H1|done]. }
  destruct Hs as (HI&_&HN). pose proof HI as [HT HC HP HA HD].
  assert (Hin : t ∈ wq s (entry_of T)) by (by apply HT).
  destruct (d_hand _ _ _ HD (entry_of T)) as [[o Ho]|[|[He _]]];
    [intros Hn; rewrite Hn in Hin; set_solver| |done|by right; right; right; right].
  apply (d_ptr _ _ _ HD) in Ho. pose proof (d_block _ _ _ HD o _ Ho) as Hb.
  destruct (d_active _ _ _ HD o _ Ho) as [Ha|[]]. destruct o as [f|h]; simpl in *.
  - destruct Ha as [Ha|[[-> Hr]|(g&->&Hg)]]; [|by right; right; left|].
    + right; left. exists f. split; [|done]. destruct (erc_pos s f HC Ha) as (x&_&<-).
      unfold entry_of in Hb at 1. unfold entry_of at 2. by destruct (task_instance_ (tsk s x) =? -1).
    + right; right; right; left. by rewrite Hb, entry_of_id in Hg.
  - left. rewrite entry_of_id in Hb. by exists h.
Qed.

Lemma suffix_later {A} (R : A → A → Prop) (l k : list A) a b :
  StronglySorted R l → (∀ x y, R x y → R y x → False) → k `suffix_of` l →
  a ∈ k → b ∈ l → R a b → b ∈ k.
Proof.
  intros Hs Hasym [p ->] Ha Hb HR. apply elem_of_app in Hb as [Hb|]; [|done].
  apply ssorted_app in Hs as (_&_&Hpk). destruct (Hasym a b); auto.
Qed.

Lemma adv_fifo s s' a b :
  TaskOk s → TaskOk s' → adv s s' → entry_of (tsk s a) = entry_of (tsk s b) →
  state_ (tsk s a) = WAIT → state_ (tsk s b) = WAIT → seqno_ (tsk s a) < seqno_ (tsk s b) →
  state_ (tsk s' a) = WAIT → state_ (tsk s' b) = WAIT.
Proof.
  intros HT HT' Ha He Hwa Hwb Hlt Hwa'. set (e := entry_of (tsk s a)) in *.
  assert (Hentry : entry_of (tsk s' a) = e).
  { by destruct (v_tsk _ _ Ha a) as [->|[_ ->]]. }
  apply (t_wait s' HT' e b).
  apply (suffix_later (λ x y, seqno_ (tsk s x) < seqno_ (tsk s y)) (wq s e) (wq s' e) a b).
  - apply HT.
  - intros x y. lia.
  - apply Ha.
  - by apply HT'.
  - by apply HT.
  - done.
Qed.

(** C4: The tasks of an entry start in the order in which they were enqueued: no
    operation starts a waiting task and leaves an earlier one waiting. *)
Theorem fifo_start s l s' a b :
  reachable s → step s l (Ret s') → entry_of (tsk s a) = entry_of (tsk s b) →
  state_ (tsk s a) = WAIT → state_ (tsk s b) = WAIT → seqno_ (tsk s a) < seqno_ (tsk s b) →
  state_ (tsk s' b) = RUN → state_ (tsk s' a) ≠ WAIT.
Proof.
  intros Hs%reachable_SchedOk Hstep He Ha Hb Hlt Hb' Ha'. destruct Hs as (HI&HTk).
  pose proof (i_task _ _ _ HI) as HT. pose proof (i_alloc _ _ _ HI) as HA.
  assert (Hsame : (∀ x, state_ (tsk s x) = WAIT → state_ (tsk s' x) = RUN → tsk s' x = tsk s x) → False).
  { intros Hx. specialize (Hx b Hb Hb'). congruence. }
  assert (Hwoken : (∃ id, l = LDisableGroup id) ∨ (∃ id, l = LEnableGroup id) ∨
    (∃ id i, l = LDisableEntry id i) ∨ (∃ id i, l = LEnableEntry id i) → False).
  { intros Hl. destruct (step_disable_SchedOk s l (Ret s') HI HTk Hstep Hl)
      as [(s0&[= <-]&HI0&(s2&Ht&HT2&Hadv))|[? _]]; [|done].
    assert (Htk : ∀ t, tsk s2 t = tsk s t) by (intros; unfold tsk; by rewrite Ht).
    assert (state_ (tsk s' b) = WAIT); [|congruence].
    apply (adv_fifo s2 s' a b); rewrite ?Htk; try done. apply HI0. }
  inversion Hstep; subst; clear Hstep.
  - apply Hsame; intros x Hx Hx'. assert (x ≠ t).
    { intros ->. unfold tsk in Hx. by match goal with H : tasks s !! t = None |- _ => rewrite H in Hx end. }
    acc.
  - apply Hsame; intros x Hx Hx'. destruct (SetPolicy_spec id p s) as (s0&Hr&HL&_); try done. rewrite Hr in *. simplify_eq.
    unfold tsk. by rewrite (pl_tasks _ _ HL).
  - apply Hsame; intros x Hx Hx'.
    destruct (decide (crowded s (entry_of (tsk s t)))) as [Hcr|Hcr].
    { rewrite EnqueueUnLocked_crowded in *; try done. by apply HTk. }
    destruct (EnqueueUnLocked_spec t s) as (s0&Hr&_&HE); try done; [by apply HTk|].
    rewrite Hr in *. simplify_eq. unfold tsk. rewrite (en_ne _ _ _ HE); [done|congruence].
  - apply Hsame; intros x Hx Hx'. destruct (state_ (tsk s t)) eqn:Hst.
    + unfold Cancel in *. rewrite Hst in *. by simplify_eq.
    + destruct (Cancel_wait_spec t s HI Hst) as (s0&Hc&HM&_). rewrite Hc in *. simplify_eq.
      rewrite (removed_tsk t s s' HM) in *. by case_decide.
    + unfold Cancel in *. rewrite Hst in *. simplify_eq. assert (x ≠ t) by congruence. acc.
  - apply Hsame; intros x Hx Hx'. assert (x ≠ t) by congruence. unfold execute_enter. acc.
  - apply Hsame; intros x Hx Hx'. assert (x ≠ t) by congruence. unfold execute_leave. acc.
  - destruct (OnTaskExit_spec t s) as [(s2&s3&s0&Hr&_&[HE Hadv HI3 Hdel Hagain])|[? _]]; try done;
      [|congruence].
    rewrite Hr in *. simplify_eq. assert (a ≠ t ∧ b ≠ t) as [Hat Hbt] by (split; congruence).
    assert (H2 : ∀ x, x ≠ t → tsk s2 x = tsk s x).
    { intros x Hx. rewrite (exited_tsk _ t s s2 HE), decide_False by done. done. }
    assert (H3 : ∀ x, x ≠ t → tsk s' x = tsk s3 x).
    { intros x Hx. destruct (task_recycle_ (tsk s t)) eqn:Hrec, (task_cancel_ (tsk s t)) eqn:Hcan.
      2: { specialize (Hagain eq_refl eq_refl). unfold tsk. rewrite (en_ne _ _ _ Hagain) by done.
           simpl. by rewrite lookup_insert_ne. }
      all: rewrite Hdel by auto; acc. }
    rewrite H3 in Ha', Hb' by done.
    pose proof (exited_TaskOk _ t s s2 HI HE) as HT2. pose proof (i_task _ _ _ HI3) as HT3.
    assert (state_ (tsk s3 b) = WAIT); [|congruence].
    eapply (adv_fifo s2 s3 a b); rewrite ?H2 by done; done.
  - apply Hsame; intros x Hx Hx'. done.
  - destruct (Start_spec s HI) as (s0&Hr&HI0&Hadv). rewrite Hr in *. simplify_eq.
    assert (state_ (tsk s' b) = WAIT); [|congruence].
    apply (adv_fifo (set_running true s) s' a b); try done; [|apply HI0]. by split; apply HT.
  - apply Hwoken. left. by eexists.
  - apply Hwoken. right; left. by eexists.
  - apply Hwoken. right; right; left. by do 2 eexists.
  - apply Hwoken. right; right; right. by do 2 eexists.
Qed.

(** [Cancel] removes a waiting task and nothing else, marks a running one,
    and refuses a task that is not enqueued. *)
Theorem cancel_result s t :
  reachable s →
  match state_ (tsk s t) with
  | INIT => Cancel t s = Ret (FAILED, s)
  | RUN => Cancel t s = Ret (QUEUED, upd_tsk t (set_cancel true) s)
  | WAIT => ∃ s', Cancel t s = Ret (CANCELLED, s') ∧ tasks s' = delete t (tasks s) ∧
      ∀ e, waitq_ (ent s' e) = List.remove eq_nat_dec t (waitq_ (ent s e)) ∧
           e_run_count (ent s' e) = e_run_count (ent s e)
  end.
Proof.
  intros (HI&_)%reachable_SchedOk. destruct (state_ (tsk s t)) eqn:Hst.
  - unfold Cancel. by rewrite Hst.
  - destruct (Cancel_wait_spec t s HI Hst) as (s'&Hc&HM&_). exists s'.
    split; [done|]. split; [apply HM|]. intros e. split; [apply HM|apply (rm_R _ _ _ HM)].
  - unfold Cancel. by rewrite Hst.
Qed.

(** [Enqueue] starts the task at once exactly when the scheduler is running,
    neither its group nor its entry is disabled, no earlier task of its entry
    waits and no member of its policies has a running task; otherwise the task goes to the end of its wait queue.  The
    task gets the next sequence number and no other task changes. *)
Theorem enqueue_result s t :
  reachable s → is_Some (tasks s !! t) → state_ (tsk s t) = INIT → seqno_ok s →
  ¬ crowded s (entry_of (tsk s t)) →
  ∃ s', EnqueueUnLocked t s = Ret s' ∧ seqno_ (tsk s' t) = sched_seqno s + 1 ∧
    (∀ x, x ≠ t → tsk s' x = tsk s x) ∧
    (admissible s (tsk s t) → state_ (tsk s' t) = RUN ∧ ∀ e, waitq_ (ent s' e) = waitq_ (ent s e)) ∧
    (¬ admissible s (tsk s t) → state_ (tsk s' t) = WAIT ∧
       ∀ e, waitq_ (ent s' e) = waitq_ (ent s e) ++ (if decide (e = entry_of (tsk s t)) then [t] else [])).
Proof.
  intros (HI&Hin&_)%reachable_SchedOk Hex Hinit Hok Hcr.
  destruct (EnqueueUnLocked_spec t s HI Hex Hinit (Hin t Hinit) Hok Hcr) as (s'&Hr&_&HE).
  exists s'. split; [done|]. split_and!.
  - rewrite (en_tseqno _ _ _ HE). apply HE.
  - intros x Hx. unfold tsk. by rewrite (en_ne _ _ _ HE).
  - intros Ha. destruct (en_start _ _ _ HE Ha) as [-> Hw]. split; [done|]. intros e. apply Hw.
  - intros Hna. destruct (en_wait _ _ _ HE Hna) as (->&Hw&Hne). split; [done|]. intros e.
    case_decide as Hd; [subst; apply Hw|]. rewrite app_nil_r. by apply Hne.
Qed.

(** [SetPolicy], called while nothing runs, succeeds and installs each rule
    of the policy together with its complement. *)
Theorem set_policy_result s id p :
  reachable s → quiet s → 0 ≤ id → policy_set_ (grp s id) = false →
  Forall (λ x, 0 ≤ match_id x ∧ -1 ≤ match_instance x) p →
  ∃ s', SetPolicy id p s = Ret s' ∧ tasks s' = tasks s ∧ Forall (installed id s') p.
Proof.
  intros (HI&_)%reachable_SchedOk Hq Hid Hset Hp.
  destruct (SetPolicy_spec id p s HI Hq Hid Hset Hp) as (s'&Hr&HL&Hall).
  exists s'. split; [done|]. split; [apply HL|done].
Qed.

(** When a task exits, it is destroyed unless it asked to be run again and was
    not cancelled; then it is enqueued again, behind every task already
    enqueued.  The tasks that its exit unblocks are started: every other task
    keeps its state or goes from waiting to running. *)
Theorem exit_result s t :
  reachable s → state_ (tsk s t) = RUN → tbb_state_ (tsk s t) = TBB_EXEC → seqno_ok s →
  ¬ reenters_crowded s t →
  ∃ s', OnTaskExit t s = Ret s' ∧
    (if task_recycle_ (tsk s t) && negb (task_cancel_ (tsk s t))
     then seqno_ (tsk s' t) = sched_seqno s + 1 ∧ sched_seqno s' = sched_seqno s + 1
     else tasks s' !! t = None) ∧
    ∀ x, x ≠ t → tsk s' x = tsk s x ∨
      (state_ (tsk s x) = WAIT ∧ state_ (tsk s' x) = RUN ∧ seqno_ (tsk s' x) = seqno_ (tsk s x)).
Proof.
  intros (HI&_)%reachable_SchedOk Hst Htbb Hok Hcr.
  destruct (OnTaskExit_spec t s HI Hst Htbb Hok)
    as [(s2&s3&s'&Hr&_&[HE Hadv _ Hdel Hagain])|[_ ?]]; [|done].
  exists s'. split; [done|].
  assert (H3 : ∀ x, x ≠ t → tsk s3 x = tsk s x ∨
    (state_ (tsk s x) = WAIT ∧ state_ (tsk s3 x) = RUN ∧ seqno_ (tsk s3 x) = seqno_ (tsk s x))).
  { intros x Hx. assert (H2 : tsk s2 x = tsk s x)
      by (rewrite (exited_tsk _ t s s2 HE), decide_False by done; done).
    destruct (v_tsk _ _ Hadv x) as [->|[Hw ->]]; rewrite H2 in *; [by left|by right]. }
  destruct (task_recycle_ (tsk s t)), (task_cancel_ (tsk s t)); simpl.
  2: { specialize (Hagain eq_refl eq_refl). split.
       - rewrite (en_tseqno _ _ _ Hagain), (en_seqno _ _ _ Hagain). simpl.
         by rewrite (v_seqno _ _ Hadv), (ex_seqno _ _ _ _ HE).
       - intros x Hx. replace (tsk s' x) with (tsk s3 x); [by apply H3|].
         unfold tsk. rewrite (en_ne _ _ _ Hagain) by done. simpl. by rewrite lookup_insert_ne. }
  all: rewrite Hdel by auto; simpl; rewrite lookup_delete_eq; split; [done|].
  all: intros x Hx; rewrite tsk_delete_tsk, decide_False by done; by apply H3.
Qed.

(** The tasks that [IsWaitQEmpty] does not count: those of disabled instances. *)
Definition skipped (s : Sched) (T : Task) : Prop :=
  task_instance_ T ≠ -1 ∧ e_disable (ent s (entry_of T)) = true.

Lemma IsWaitQEmpty_spec g s :
  SchedOk s → is_Some (groups s !! g) →
  IsWaitQEmpty g s = true ↔
    ∀ t, task_id_ (tsk s t) = g → state_ (tsk s t) = WAIT → skipped s (tsk s t).
Proof.
  intros (HI&_) Hg. pose proof (i_alloc _ _ _ HI) as HA. pose proof (i_task _ _ _ HI) as HT.
  unfold IsWaitQEmpty. rewrite andb_true_iff, List.forallb_forall. split.
  - intros [HG Hall] t Hid Hw.
    assert (Hin : t ∈ wq s (entry_of (tsk s t))) by (by apply HT).
    pose proof (a_task s HA t ltac:(congruence)) as He. unfold skipped.
    unfold entry_of in Hin, He |- *. rewrite Hid in Hin, He |- *.
    destruct (Z.eqb_spec (task_instance_ (tsk s t)) (-1)) as [|Hne].
    + unfold wq in Hin. destruct (waitq_ (ent s (EGroup g))); [set_solver|done].
    + set (i := task_instance_ (tsk s t)) in *. destruct (a_inst s HA g i He) as [Hi _].
      specialize (Hall i). rewrite <-list_elem_of_In, elem_of_seqZ in Hall.
      specialize (Hall ltac:(lia)). destruct He as [E HE]. rewrite HE in Hall.
      assert (Hent : ent s (EInst g i) = E) by (unfold ent; by rewrite HE).
      rewrite <-Hent in Hall. unfold wq in Hin. split; [done|].
      destruct (e_disable (ent s (EInst g i))); [done|].
      destruct (waitq_ (ent s (EInst g i))); [set_solver|done].
  - intros Hnone.
    assert (Hnil : ∀ e, id_of e = g → wq s e = [] ∨ inst_of e ≠ -1 ∧ e_disable (ent s e) = true).
    { intros e He. destruct (wq s e) as [|t q] eqn:Hq; [by left|right].
      destruct (waiting_task s e t HT) as [Hw <-]; [rewrite Hq; set_solver|].
      rewrite entry_of_inst. apply Hnone; [by rewrite <-entry_of_id|done]. }
    split; [apply Nat.eqb_eq; fold (wq s (EGroup g)); by destruct (Hnil (EGroup g)) as [->|[? _]]|].
    intros i _. destruct (entries s !! EInst g i) as [E|] eqn:HE; [|done].
    assert (Hent : ent s (EInst g i) = E) by (unfold ent; by rewrite HE).
    rewrite <-Hent. fold (wq s (EInst g i)). destruct (Hnil (EInst g i)) as [->|[_ ->]]; [done| |done].
    apply orb_true_r.
Qed.

(** [IsEmpty] answers whether any task is running or waits, the tasks of
    disabled groups and of disabled instances not counted; with [running_only],
    whether any task is running. *)
Theorem is_empty_result s :
  reachable s →
  (IsEmpty false s = true ↔ ∀ t, state_ (tsk s t) = INIT ∨
     state_ (tsk s t) = WAIT ∧ (g_disable (grp s (task_id_ (tsk s t))) = true ∨ skipped s (tsk s t))) ∧
  (IsEmpty true s = true ↔ ∀ t, state_ (tsk s t) ≠ RUN).
Proof.
  intros Hs%reachable_SchedOk. pose proof Hs as (HI&_). pose proof (i_alloc _ _ _ HI) as HA.
  assert (Hspec : ∀ ro, IsEmpty ro s = true ↔
    quiet s ∧ (ro = false → ∀ t, state_ (tsk s t) = WAIT →
      g_disable (grp s (task_id_ (tsk s t))) = true ∨ skipped s (tsk s t))).
  { intros ro. unfold IsEmpty. rewrite List.forallb_forall. split.
    - intros Hall.
      assert (Hgrp : ∀ t, state_ (tsk s t) ≠ INIT → grc s (task_id_ (tsk s t)) = 0 ∧
        is_Some (groups s !! task_id_ (tsk s t)) ∧ (ro = false →
          g_disable (grp s (task_id_ (tsk s t))) = true ∨ IsWaitQEmpty (task_id_ (tsk s t)) s = true)).
      { intros t Ht. destruct (task_group s t HA Ht) as [_ [G HG]].
        pose proof (a_group s HA _ (ex_intro _ G HG)) as Hr.
        specialize (Hall (task_id_ (tsk s t))). rewrite <-list_elem_of_In, elem_of_seqZ, HG in Hall.
        specialize (Hall ltac:(lia)). apply andb_true_iff in Hall as [H1 H2].
        unfold grc, grp. rewrite HG. simpl. split; [by apply Z.eqb_eq|]. split; [by eexists|]. intros ->.
        destruct (g_disable G); [by left|by right]. }
      split.
      + intros t Hr. destruct (Hgrp t) as (H0&_); [congruence|].
        destruct (run_counts s t Hs Hr) as [_ Hc]. lia.
      + intros Hro t Hw. destruct (Hgrp t) as (_&Hg&He); [congruence|].
        destruct (He Hro) as [|Hemp]; [by left|right].
        by apply (IsWaitQEmpty_spec (task_id_ (tsk s t)) s Hs Hg).
    - intros [Hq Hw] g _. destruct (groups s !! g) as [G|] eqn:HG; [|done].
      destruct (quiet_idle _ _ s HI Hq) as [_ H0]. specialize (H0 g). unfold grc, grp in H0.
      rewrite HG in H0. simpl in H0. rewrite H0. simpl. destruct ro; [by rewrite orb_true_r|].
      destruct (g_disable G) eqn:Hd; [done|]. simpl.
      apply IsWaitQEmpty_spec; [done|by eexists|]. intros t Hid Hwt.
      destruct (Hw eq_refl t Hwt) as [Hg|]; [|done]. rewrite Hid in Hg. unfold grp in Hg.
      rewrite HG in Hg. simpl in Hg. congruence. }
  rewrite !Hspec. split; split.
  - intros [Hq Hw] t. specialize (Hw eq_refl t). specialize (Hq t). destruct (state_ (tsk s t)); auto. done.
  - intros Hall. split; [intros t Ht|intros _ t Ht]; by destruct (Hall t) as [|[? ?]]; try congruence.
  - by intros [Hq _].
  - intros Hq. by split.
Qed.
End Thms.

(** ** A concrete ordered set and a concrete execution *)

Fixpoint sorted_insert (lt : EntryRef → EntryRef → bool) (x : EntryRef) (l : list EntryRef) :
    list EntryRef :=
  match l with
  | [] => [x]
  | y :: l' => if lt x y then x :: l else if lt y x then y :: sorted_insert lt x l' else l
  end.

Lemma sorted_insert_fresh lt x l :
  strict_weak_order lt → StronglySorted (λ a b, lt a b = true) l →
  (∀ y, y ∈ l → lt x y = true ∨ lt y x = true) →
  ∃ l1 l2, l = l1 ++ l2 ∧ sorted_insert lt x l = l1 ++ x :: l2 ∧
    Forall (λ y, lt y x = true) l1 ∧ Forall (λ y, lt x y = true) l2.
Proof.
  intros (_&Htr&_) Hs Hx. induction Hs as [|y l Hs IH Hy].
  { exists [], []. split_and!; [done|done|constructor|constructor]. }
  simpl. destruct (lt x y) eqn:Hxy.
  - exists [], (y :: l). split_and!; [done|done|constructor|constructor; [done|]].
    eapply Forall_impl; [exact Hy|]. simpl. intros z. by apply Htr.
  - destruct (Hx y) as [|Hyx]; [set_solver|congruence|]. rewrite Hyx.
    destruct IH as (l1&l2&->&->&H1&H2); [set_solver|].
    exists (y :: l1), l2. split_and!; [done|done|by constructor|done].
Qed.

Lemma sorted_insert_dup lt x l :
  strict_weak_order lt → StronglySorted (λ a b, lt a b = true) l →
  (∃ y, y ∈ l ∧ lt x y = false ∧ lt y x = false) → sorted_insert lt x l = l.
Proof.
  intros (Hirr&Htr&Hneg) Hs (z&Hz&H1&H2). induction Hs as [|y l Hs IH Hy]; [set_solver|].
  simpl. rewrite Forall_forall in Hy. apply elem_of_cons in Hz as [->|Hz].
  - by rewrite H1, H2.
  - destruct (lt x y) eqn:Hxy; [by rewrite (Htr x y z) in H1; auto|].
    destruct (lt y x) eqn:Hyx; [f_equal; by apply IH|done].
Qed.

#[export] Instance sorted_IntrusiveSet : IntrusiveSet EntryRef := {|
  iset_insert := sorted_insert;
  iset_insert_fresh := sorted_insert_fresh;
  iset_insert_dup := sorted_insert_dup;
|}.

Definition state_of (o : outcome Sched) : Sched :=
  match o with Ret s => s | Abort => new_TaskScheduler end.

Lemma reach_op s l o : reachable s → step s l o → o = Ret (state_of o) → reachable (state_of o).
Proof. intros Hs Hstep Ho. rewrite Ho in Hstep. by eapply reach_step. Qed.

(** Groups 1 and 2 exclude each other; task 0 of group 1 runs, tasks 1 and 2 of
    group 2 wait for it. *)
Definition demo1 : Sched := state_of (SetPolicy 1 [mkExclusion 2 (-1)] new_TaskScheduler).
Definition demo2 : Sched :=
  put_tsk 2 (new_task 2 3) (put_tsk 1 (new_task 2 3) (put_tsk 0 (new_task 1 (-1)) demo1)).
Definition demo3 : Sched := state_of (EnqueueUnLocked 0 demo2).
Definition demo4 : Sched := state_of (EnqueueUnLocked 1 demo3).
Definition demo5 : Sched := state_of (EnqueueUnLocked 2 demo4).
Definition demo6 : Sched := execute_enter 0 demo5.
Definition demo7 : Sched := state_of (OnTaskExit 0 demo6).

Lemma empty_quiet : quiet new_TaskScheduler.
Proof. intros t. unfold tsk. simpl. by rewrite lookup_empty. Qed.

Lemma demo1_reachable : reachable demo1.
Proof.
  apply (reach_op new_TaskScheduler (LPolicy 1 [mkExclusion 2 (-1)])); [constructor| |by vm_compute].
  constructor; [apply empty_quiet|done|done|by repeat constructor].
Qed.
Lemma demo2_reachable : reachable demo2.
Proof.
  unfold demo2. eapply (reach_step _ (LNew 2 2 3)); [|by apply step_new].
  eapply (reach_step _ (LNew 1 2 3)); [|by apply step_new].
  eapply (reach_step _ (LNew 0 1 (-1))); [|by apply step_new]. apply demo1_reachable.
Qed.
Lemma demo3_reachable : reachable demo3.
Proof.
  apply (reach_op demo2 (LEnqueue 0)); [apply demo2_reachable| |by vm_compute].
  constructor; [by vm_compute; eexists|by vm_compute|by vm_compute].
Qed.
Lemma demo4_reachable : reachable demo4.
Proof.
  apply (reach_op demo3 (LEnqueue 1)); [apply demo3_reachable| |by vm_compute].
  constructor; [by vm_compute; eexists|by vm_compute|by vm_compute].
Qed.
Lemma demo5_reachable : reachable demo5.
Proof.
  apply (reach_op demo4 (LEnqueue 2)); [apply demo4_reachable| |by vm_compute].
  constructor; [by vm_compute; eexists|by vm_compute|by vm_compute].
Qed.
Lemma demo6_reachable : reachable demo6.
Proof.
  eapply (reach_step demo5 (LEnter 0)); [apply demo5_reachable|]. by constructor; vm_compute.
Qed.



(** Tasks of two instances of group 2 run together; both exclude group 1. *)
Definition demo8 : Sched := put_tsk 3 (new_task 2 4) demo7.
Definition demo9 : Sched := state_of (EnqueueUnLocked 3 demo8).

Lemma demo9_reachable : reachable demo9.
Proof.
  apply (reach_op demo8 (LEnqueue 3)); [| |by vm_compute].
  - eapply (reach_step demo7 (LNew 3 2 4)); [|by apply step_new].
    apply (reach_op demo6 (LExit 0)); [apply demo6_reachable| |by vm_compute].
    constructor; by vm_compute.
  - constructor; [by vm_compute; eexists|by vm_compute|by vm_compute].
Qed.

Lemma mutual_exclusion_witness :
  state_ (tsk demo9 1) = RUN ∧ state_ (tsk demo9 3) = RUN ∧ ¬ excluded demo9 (tsk demo9 1) (tsk demo9 3).
Proof.
  split; [by vm_compute|]. split; [by vm_compute|].
  apply (mutual_exclusion demo9 1 3); [apply demo9_reachable|done|by vm_compute|by vm_compute].
Defined.

Lemma waiting_is_blocked_witness :
  blocked demo5 (tsk demo5 1) ∧ ((∀ x, state_ (tsk demo5 x) ≠ RUN) → held demo5 (tsk demo5 1)).
Proof. apply (waiting_is_blocked demo5 1); [apply demo5_reachable|by vm_compute]. Defined.

Lemma fifo_start_witness : state_ (tsk demo7 1) ≠ WAIT ∨ state_ (tsk demo7 2) ≠ RUN.
Proof.
  destruct (decide (state_ (tsk demo7 2) = RUN)) as [Hr|Hr]; [left|by right].
  apply (fifo_start demo6 (LExit 0) demo7 1 2);
    [apply demo6_reachable| |by vm_compute|by vm_compute|by vm_compute|by vm_compute|exact Hr].
  replace (Ret demo7) with (OnTaskExit 0 demo6) by (by vm_compute). by constructor; vm_compute.
Defined.

Lemma cancel_result_witness :
  ∃ s', Cancel 1 demo5 = Ret (CANCELLED, s') ∧ tasks s' = delete 1%nat (tasks demo5) ∧
      ∀ e, waitq_ (ent s' e) = List.remove eq_nat_dec 1%nat (waitq_ (ent demo5 e)) ∧
           e_run_count (ent s' e) = e_run_count (ent demo5 e).
Proof. apply (cancel_result demo5 1 demo5_reachable). Defined.

Lemma enqueue_result_witness : ∃ s', EnqueueUnLocked 0 demo2 = Ret s' ∧ seqno_ (tsk s' 0) = 1.
Proof.
  destruct (enqueue_result demo2 0) as (s'&Hr&Hs&_);
    [apply demo2_reachable|by vm_compute; eexists|by vm_compute|by vm_compute|vm_compute; by intros [? _]|].
  exists s'. split; [exact Hr|]. rewrite Hs. by vm_compute.
Defined.

Lemma set_policy_result_witness :
  ∃ s', SetPolicy 1 [mkExclusion 2 (-1)] new_TaskScheduler = Ret s' ∧ tasks s' = ∅.
Proof.
  destruct (set_policy_result new_TaskScheduler 1 [mkExclusion 2 (-1)]) as (s'&Hr&Ht&_);
    [constructor|apply empty_quiet|done|done|by repeat constructor|]. by exists s'.
Defined.

Lemma exit_result_witness : ∃ s', OnTaskExit 0 demo6 = Ret s' ∧ tasks s' !! 0%nat = None.
Proof.
  destruct (exit_result demo6 0) as (s'&Hr&Hd&_);
    [apply demo6_reachable|by vm_compute|by vm_compute|by vm_compute|vm_compute; by intros [? _]|].
  assert (Hb : task_recycle_ (tsk demo6 0) && negb (task_cancel_ (tsk demo6 0)) = false) by (by vm_compute).
  rewrite Hb in Hd. exists s'. split; [exact Hr|exact Hd].
Defined.

Lemma is_empty_result_witness :
  (IsEmpty false demo5 = true ↔ ∀ t, state_ (tsk demo5 t) = INIT ∨
     state_ (tsk demo5 t) = WAIT ∧
     (g_disable (grp demo5 (task_id_ (tsk demo5 t))) = true ∨ skipped demo5 (tsk demo5 t))) ∧
  (IsEmpty true demo5 = true ↔ ∀ t, state_ (tsk demo5 t) ≠ RUN).
Proof. apply (is_empty_result demo5), demo5_reachable. Defined.

(** Group 2 is disabled, a task is enqueued to it, and it is enabled again: the
    task waits and then runs. *)
Definition off1 : Sched := state_of (DisableTaskGroup 2 demo2).
Definition off2 : Sched := state_of (EnqueueUnLocked 1 off1).
Definition off3 : Sched := state_of (EnableTaskGroup 2 off2).

Lemma off3_reachable : reachable off3.
Proof.
  apply (reach_op off2 (LEnableGroup 2)); [|by constructor|by vm_compute].
  apply (reach_op off1 (LEnqueue 1)); [| |by vm_compute].
  - apply (reach_op demo2 (LDisableGroup 2)); [apply demo2_reachable|by constructor|by vm_compute].
  - constructor; [by vm_compute; eexists|by vm_compute|by vm_compute].
Qed.
Lemma disabled_group_waits : state_ (tsk off2 1) = WAIT ∧ state_ (tsk off3 1) = RUN.
Proof. by vm_compute. Qed.

(** ** Behaviour outside the guarantees *)

(** Two enqueues to the same entry while its group is disabled: the second one
    puts the entry into the disable queue again and the assertion of
    [TaskEntry::AddToDeferQ] fails. *)
Lemma disabled_group_double_enqueue_aborts :
  (s ← DisableTaskGroup 2 demo2; s ← EnqueueUnLocked 1 s; EnqueueUnLocked 2 s) = Abort.
Proof. by vm_compute. Qed.

(** [DisableTaskGroup] on a group with an entry that waits on a policy: the
    entry is put into a second deferral queue. *)
Lemma disable_deferred_entry_aborts : DisableTaskGroup 2 demo4 = Abort.
Proof. by vm_compute. Qed.

(** [EnableTaskEntry] on an entry that waits on a policy puts it into a deferral
    queue again. *)
Lemma enable_deferred_entry_aborts : EnableTaskEntry 2 3 demo4 = Abort.
Proof. by vm_compute. Qed.

(** [DisableTaskEntry] on an entry that waits on a policy does not hold it
    back: its task starts when the policy lets it. *)
Lemma disabled_entry_starts :
  let s := state_of (s ← DisableTaskEntry 2 3 demo6; OnTaskExit 0 s) in
  e_disable (ent s (EInst 2 3)) = true ∧ state_ (tsk s 1) = RUN.
Proof. by vm_compute. Qed.

(** [EnableTaskEntry] while the scheduler is stopped starts the task and leaves
    the entry in the stop queue: the assertion of [TaskEntry::RunDeferEntry]
    fails in the next [Start]. *)
Lemma enable_while_stopped_aborts :
  ∃ s, (s ← EnqueueUnLocked 0 (Stop demo2); EnableTaskEntry 1 (-1) s) = Ret s ∧
    running_ s = false ∧ state_ (tsk s 0) = RUN ∧ Start s = Abort.
Proof. eexists. split; [by vm_compute|]. by vm_compute. Qed.

(** A policy that excludes a group from itself does not hold for tasks without
    instance: when the blocking task exits, all of them start together. *)
Definition self1 : Sched := state_of (SetPolicy 1 [mkExclusion 1 (-1)] new_TaskScheduler).
Definition self2 : Sched :=
  put_tsk 2 (new_task 1 (-1)) (put_tsk 1 (new_task 1 (-1)) (put_tsk 0 (new_task 1 (-1)) self1)).
Definition self3 : Sched :=
  state_of (s ← EnqueueUnLocked 0 self2; s ← EnqueueUnLocked 1 s; s ← EnqueueUnLocked 2 s;
            OnTaskExit 0 (execute_enter 0 s)).
Lemma self_exclusion_not_enforced :
  1 ∈ policy_ (grp self3 1) ∧ state_ (tsk self3 1) = RUN ∧ state_ (tsk self3 2) = RUN.
Proof. split; [vm_compute; constructor|]. split; by vm_compute. Qed.
