(* ===== verification/TaskIds.v ===== *)
(** * Task names and ids: [TaskScheduler::GetTaskId] and [GetTaskName]
    (src/base/task.cc)

    [id_map_] is a [std::map]: an association list in key order.  [GetTaskId]
    looks the name up under the reader lock, releases it, and allocates under
    the writer lock; the two critical sections are separate definitions. *)

From Stdlib Require Import String Ascii.
From stdpp Require Import strings.
From S2P Require Import Prelude.
Open Scope Z_scope.

Module TaskIds.

Record Ids := mkIds { id_map_ : list (string * Z); id_max_ : Z }.
Definition new_Ids : Ids := mkIds [] 0.

(** [std::map::find] *)
Fixpoint find (name : string) (m : list (string * Z)) : option Z :=
  match m with
  | [] => None
  | (k, v) :: m => if String.eqb k name then Some v else find name m
  end.

(** [std::map::insert]: an element that is already there is kept; a new one
    goes to its place in the key order. *)
Fixpoint place (name : string) (tid : Z) (m : list (string * Z)) : list (string * Z) :=
  match m with
  | [] => [(name, tid)]
  | (k, v) :: m' => if String.ltb name k then (name, tid) :: m else (k, v) :: place name tid m'
  end.
Definition insert (name : string) (tid : Z) (m : list (string * Z)) : list (string * Z) :=
  match find name m with Some _ => m | None => place name tid m end.

(** The two critical sections of [GetTaskId], and their composition by one
    thread. *)
Definition GetTaskId_read (name : string) (s : Ids) : option Z := find name (id_map_ s).
Definition GetTaskId_write (name : string) (s : Ids) : Z * Ids :=
  let tid := id_max_ s + 1 in
  (tid, mkIds (insert name tid (id_map_ s)) tid).
Definition GetTaskId (name : string) (s : Ids) : Z * Ids :=
  match GetTaskId_read name s with
  | Some tid => (tid, s)
  | None => GetTaskId_write name s
  end.

(** [GetTaskName]: the first element with the id. *)
Fixpoint name_of (task_id : Z) (m : list (string * Z)) : string :=
  match m with
  | [] => "ERROR"%string
  | (k, v) :: m => if task_id =? v then k else name_of task_id m
  end.
Definition GetTaskName (task_id : Z) (s : Ids) : string := name_of task_id (id_map_ s).

(** States reached by calls that do not overlap. *)
Inductive reachable : Ids → Prop :=
| reach_new : reachable new_Ids
| reach_get s name : reachable s → reachable (GetTaskId name s).2.

Lemma find_place name tid m n :
  find name m = None → find n (place name tid m) = if String.eqb name n then Some tid else find n m.
Proof.
  induction m as [|[k v] m IH]; simpl; [done|].
  destruct (String.eqb_spec k name) as [->|Hk]; [done|]. intros Hn.
  destruct (String.ltb name k); simpl; [done|]. rewrite IH by done.
  destruct (String.eqb_spec k n) as [->|], (String.eqb_spec name n); congruence.
Qed.

Lemma elem_of_place name tid m p : p ∈ place name tid m ↔ p = (name, tid) ∨ p ∈ m.
Proof.
  induction m as [|[k v] m IH]; simpl; [set_solver|].
  destruct (String.ltb name k); [set_solver|]. rewrite !elem_of_cons, IH. tauto.
Qed.

Lemma find_elem name m v : find name m = Some v → (name, v) ∈ m.
Proof.
  induction m as [|[k w] m IH]; simpl; [done|].
  destruct (String.eqb_spec k name) as [->|]; [intros [= ->]; set_solver|]. intros ?%IH. set_solver.
Qed.

(** Ids are between 1 and [id_max_] and no id is used twice. *)
Record Ok (s : Ids) : Prop := {
  ok_range p : p ∈ id_map_ s → 1 ≤ p.2 ≤ id_max_ s;
  ok_uniq p q : p ∈ id_map_ s → q ∈ id_map_ s → p.2 = q.2 → p = q;
  ok_max : 0 ≤ id_max_ s;
}.

Lemma GetTaskId_ok name s : Ok s → Ok (GetTaskId name s).2.
Proof.
  intros [Hr Hu Hm]. unfold GetTaskId, GetTaskId_read, GetTaskId_write.
  destruct (find name (id_map_ s)) eqn:Hf; [done|]. unfold insert. rewrite Hf. simpl.
  split; simpl; [| |lia].
  - intros p [->|Hp]%elem_of_place; simpl; [lia|]. specialize (Hr p Hp). lia.
  - intros p q [->|Hp]%elem_of_place [->|Hq]%elem_of_place; simpl; try done; [..|by apply Hu].
    + specialize (Hr q Hq). lia.
    + specialize (Hr p Hp). lia.
Qed.

Lemma reachable_ok s : reachable s → Ok s.
Proof.
  induction 1 as [|s name _ IH]; [|by apply GetTaskId_ok].
  split; simpl; [set_solver..|lia].
Qed.

Lemma name_of_elem k v m :
  (k, v) ∈ m → (∀ p q, p ∈ m → q ∈ m → p.2 = q.2 → p = q) → name_of v m = k.
Proof.
  induction m as [|[k' v'] m IH]; simpl; intros Hin Hu; [set_solver|].
  destruct (Z.eqb_spec v v') as [->|Hne].
  - specialize (Hu (k', v') (k, v') ltac:(set_solver) Hin eq_refl). congruence.
  - apply IH; [set_solver|]. intros p q Hp Hq. apply Hu; set_solver.
Qed.

(** Ids and names correspond: the id of a name leads back to the name, asking
    again gives the same id, and different names have different ids. *)
Theorem task_id_roundtrip s name :
  reachable s →
  let '(tid, s') := GetTaskId name s in
  GetTaskName tid s' = name ∧ GetTaskId name s' = (tid, s') ∧
  ∀ other, other ≠ name → (GetTaskId other s').1 ≠ tid.
Proof.
  intros Hs. pose proof (reachable_ok s Hs) as Hok. pose proof (GetTaskId_ok name s Hok) as Hok'.
  assert (Hf : find name (id_map_ (GetTaskId name s).2) = Some (GetTaskId name s).1).
  { unfold GetTaskId, GetTaskId_read, GetTaskId_write.
    destruct (find name (id_map_ s)) eqn:Hf; [done|]. unfold insert. rewrite Hf. simpl.
    by rewrite find_place, String.eqb_refl. }
  destruct (GetTaskId name s) as [tid s']. simpl in *. split_and!.
  - apply name_of_elem; [by apply find_elem|apply Hok'].
  - unfold GetTaskId, GetTaskId_read. by rewrite Hf.
  - intros other Hne. unfold GetTaskId, GetTaskId_read, GetTaskId_write.
    apply find_elem in Hf. destruct (find other (id_map_ s')) as [v|] eqn:Ho; simpl.
    + apply find_elem in Ho. intros ->. pose proof (ok_uniq s' Hok' _ _ Hf Ho eq_refl). congruence.
    + pose proof (ok_range s' Hok' _ Hf). simpl in *. lia.
Qed.

Lemma task_id_roundtrip_witness :
  GetTaskName 1 (GetTaskId "db::DBTable" new_Ids).2 = "db::DBTable"%string.
Proof. apply (task_id_roundtrip new_Ids "db::DBTable" reach_new). Defined.

(** The two critical sections of two threads that register the same name can
    interleave: both miss the name, the second allocation is not entered into
    the map, and the two threads get different ids. *)
Lemma concurrent_registration_gives_two_ids :
  let name := "bgp::Config"%string in
  GetTaskId_read name new_Ids = None ∧
  let '(tid1, s1) := GetTaskId_write name new_Ids in
  let '(tid2, s2) := GetTaskId_write name s1 in
  tid1 ≠ tid2 ∧ GetTaskName tid2 s2 = "ERROR"%string.
Proof. by vm_compute. Qed.

End TaskIds.
