(* ===== verification/Watermark.v ===== *)
(** * Water marks: src/base/watermark.h and src/base/watermark.cc

    A callback is a value of a type [C]; running it is an entry of the log that
    the processing functions return. *)

From Stdlib Require Import Sorted.
From S2P Require Import Prelude.
Open Scope Z_scope.

Module WM.

Section Watermark.
Context {C : Type}.

Record WaterMarkInfo := mkInfo { count_ : Z; cb_ : C }.

(** [operator<] and [operator==] *)
Definition info_lt (lhs rhs : WaterMarkInfo) : bool := count_ lhs <? count_ rhs.
Definition info_eq (lhs rhs : WaterMarkInfo) : bool := count_ lhs =? count_ rhs.

(** [std::set<WaterMarkInfo>]: the elements in increasing order. *)
Definition WaterMarkInfos := list WaterMarkInfo.

(** [std::set::insert] *)
Fixpoint set_insert (x : WaterMarkInfo) (l : WaterMarkInfos) : WaterMarkInfos :=
  match l with
  | [] => [x]
  | y :: l' =>
      if info_lt x y then x :: l
      else if info_lt y x then y :: set_insert x l'
      else l
  end.

Record WaterMarkTuple := mkTuple {
  high_water_ : WaterMarkInfos;
  low_water_ : WaterMarkInfos;
  last_count_ : Z;
}.

Definition new_WaterMarkTuple : WaterMarkTuple := mkTuple [] [] 0.

Definition SetHighWaterMarks (high_water : WaterMarkInfos) (w : WaterMarkTuple) : WaterMarkTuple :=
  mkTuple high_water (low_water_ w) (last_count_ w).
Definition SetHighWaterMark (hwm_info : WaterMarkInfo) (w : WaterMarkTuple) : WaterMarkTuple :=
  mkTuple (set_insert hwm_info (high_water_ w)) (low_water_ w) (last_count_ w).
Definition ResetHighWaterMark (w : WaterMarkTuple) : WaterMarkTuple :=
  mkTuple [] (low_water_ w) (last_count_ w).
Definition GetHighWaterMark (w : WaterMarkTuple) : WaterMarkInfos := high_water_ w.
Definition SetLowWaterMarks (low_water : WaterMarkInfos) (w : WaterMarkTuple) : WaterMarkTuple :=
  mkTuple (high_water_ w) low_water (last_count_ w).
Definition SetLowWaterMark (lwm_info : WaterMarkInfo) (w : WaterMarkTuple) : WaterMarkTuple :=
  mkTuple (high_water_ w) (set_insert lwm_info (low_water_ w)) (last_count_ w).
Definition ResetLowWaterMark (w : WaterMarkTuple) : WaterMarkTuple :=
  mkTuple (high_water_ w) [] (last_count_ w).
Definition GetLowWaterMark (w : WaterMarkTuple) : WaterMarkInfos := low_water_ w.

Definition AreWaterMarksSet (w : WaterMarkTuple) : bool :=
  negb (length (high_water_ w) =? 0)%nat || negb (length (low_water_ w) =? 0)%nat.

Definition set_last (count : Z) (w : WaterMarkTuple) : WaterMarkTuple :=
  mkTuple (high_water_ w) (low_water_ w) count.

(** [--upper_bound(count)]: the last element that is not greater than [count];
    [None] when [upper_bound] is [begin()]. *)
Fixpoint before_upper_bound (count : Z) (l : WaterMarkInfos) : option WaterMarkInfo :=
  match l with
  | [] => None
  | x :: l => if count <? count_ x then None
              else match before_upper_bound count l with Some y => Some y | None => Some x end
  end.

(** [lower_bound(count)]: the first element that is not less than [count]. *)
Definition lower_bound (count : Z) (l : WaterMarkInfos) : option WaterMarkInfo :=
  List.find (λ x, negb (count_ x <? count)) l.

(** The log entry of [cb_(count)]. *)
Definition call : Type := C * Z.

(** [ProcessHighWaterMarks] *)
Definition ProcessHighWaterMarks (count : Z) (w : WaterMarkTuple) :
    outcome (list call * WaterMarkTuple) :=
  match before_upper_bound count (high_water_ w) with
  | None => Ret ([], set_last count w)
  | Some m =>
      assert_that (count_ m <=? count);;
      Ret (if last_count_ w <? count_ m then [(cb_ m, count)] else [], set_last count w)
  end.

(** [ProcessLowWaterMarks] *)
Definition ProcessLowWaterMarks (count : Z) (w : WaterMarkTuple) :
    outcome (list call * WaterMarkTuple) :=
  match lower_bound count (low_water_ w) with
  | None => Ret ([], set_last count w)
  | Some m => Ret (if count_ m <? last_count_ w then [(cb_ m, count)] else [], set_last count w)
  end.

(** [ProcessWaterMarks] *)
Definition ProcessWaterMarks (in_count curr_count : Z) (w : WaterMarkTuple) :
    outcome (list call * WaterMarkTuple) :=
  if in_count <? curr_count then ProcessLowWaterMarks in_count w
  else ProcessHighWaterMarks in_count w.

(** ** Properties *)

(** The marks are stored in strictly increasing order. *)
Definition sorted (l : WaterMarkInfos) : Prop :=
  StronglySorted (λ a b, count_ a < count_ b) l.
Definition Ok (w : WaterMarkTuple) : Prop := sorted (high_water_ w) ∧ sorted (low_water_ w).

Lemma elem_of_set_insert x l y :
  y ∈ set_insert x l → y = x ∨ y ∈ l.
Proof.
  induction l as [|z l IH]; simpl; [set_solver|].
  destruct (info_lt x z); [set_solver|]. destruct (info_lt z x); set_solver.
Qed.

Lemma set_insert_sorted x l : sorted l → sorted (set_insert x l).
Proof.
  unfold sorted. induction 1 as [|y l Hs IH Hy]; simpl; [repeat constructor|].
  unfold info_lt. destruct (Z.ltb_spec (count_ x) (count_ y)).
  - constructor; [by constructor|]. constructor; [done|].
    eapply Forall_impl; [exact Hy|]. simpl. intros z. lia.
  - destruct (Z.ltb_spec (count_ y) (count_ x)); [|by constructor].
    constructor; [done|]. rewrite Forall_forall in *.
    intros z [->|Hz]%elem_of_set_insert; [done|by apply Hy].
Qed.

Lemma before_upper_bound_spec count l :
  sorted l →
  match before_upper_bound count l with
  | Some m => m ∈ l ∧ count_ m ≤ count ∧ ∀ x, x ∈ l → count_ x ≤ count → count_ x ≤ count_ m
  | None => ∀ x, x ∈ l → count < count_ x
  end.
Proof.
  induction 1 as [|y l Hs IH Hy]; simpl; [set_solver|]. rewrite Forall_forall in Hy.
  destruct (Z.ltb_spec count (count_ y)) as [Hlt|Hge].
  - intros x [->|Hx]%elem_of_cons; [done|]. specialize (Hy x Hx). lia.
  - destruct (before_upper_bound count l) as [m|].
    + destruct IH as (Hm&Hle&Hmax). split; [set_solver|]. split; [done|].
      intros x [->|Hx]%elem_of_cons Hc; [specialize (Hy m Hm); lia|auto].
    + split; [set_solver|]. split; [done|].
      intros x [->|Hx]%elem_of_cons Hc; [done|]. specialize (IH x Hx). lia.
Qed.

Lemma lower_bound_spec count l :
  sorted l →
  match lower_bound count l with
  | Some m => m ∈ l ∧ count ≤ count_ m ∧ ∀ x, x ∈ l → count ≤ count_ x → count_ m ≤ count_ x
  | None => ∀ x, x ∈ l → count_ x < count
  end.
Proof.
  unfold lower_bound. induction 1 as [|y l Hs IH Hy]; simpl; [set_solver|]. rewrite Forall_forall in Hy.
  destruct (Z.ltb_spec (count_ y) count) as [Hlt|Hge]; simpl.
  - destruct (List.find _ l) as [m|].
    + destruct IH as (Hm&Hle&Hmin). split; [set_solver|]. split; [done|].
      intros x [->|Hx]%elem_of_cons Hc; [lia|auto].
    + intros x [->|Hx]%elem_of_cons; [done|]. auto.
  - split; [set_solver|]. split; [done|].
    intros x [->|Hx]%elem_of_cons Hc; [done|]. specialize (Hy x Hx). lia.
Qed.

(** The mark that a rise from [last] to [count] (a fall, for low marks) has
    crossed and that is nearest to [count]. *)
Definition crossed_up (last count : Z) (l : WaterMarkInfos) (m : WaterMarkInfo) : Prop :=
  m ∈ l ∧ last < count_ m ≤ count ∧ ∀ x, x ∈ l → last < count_ x ≤ count → count_ x ≤ count_ m.
Definition crossed_down (last count : Z) (l : WaterMarkInfos) (m : WaterMarkInfo) : Prop :=
  m ∈ l ∧ count ≤ count_ m < last ∧ ∀ x, x ∈ l → count ≤ count_ x < last → count_ m ≤ count_ x.

(** A change of the count runs exactly one high (low) water mark callback when
    it crosses a high (low) mark upwards (downwards), the one of the mark nearest
    to the new count, and none otherwise; the new count is recorded. *)
Theorem watermark_crossing w count :
  Ok w →
  (∃ log w', ProcessHighWaterMarks count w = Ret (log, w') ∧ w' = set_last count w ∧
     (∀ c, log = [(c, count)] → ∃ m, crossed_up (last_count_ w) count (high_water_ w) m ∧ c = cb_ m) ∧
     (log = [] ∨ ∃ c, log = [(c, count)]) ∧
     (log = [] → ∀ x, x ∈ high_water_ w → ¬ (last_count_ w < count_ x ≤ count))) ∧
  (∃ log w', ProcessLowWaterMarks count w = Ret (log, w') ∧ w' = set_last count w ∧
     (∀ c, log = [(c, count)] → ∃ m, crossed_down (last_count_ w) count (low_water_ w) m ∧ c = cb_ m) ∧
     (log = [] ∨ ∃ c, log = [(c, count)]) ∧
     (log = [] → ∀ x, x ∈ low_water_ w → ¬ (count ≤ count_ x < last_count_ w))).
Proof.
  intros [Hh Hl]. split.
  - pose proof (before_upper_bound_spec count _ Hh) as Hub. unfold ProcessHighWaterMarks.
    destruct (before_upper_bound count (high_water_ w)) as [m|].
    + destruct Hub as (Hm&Hle&Hmax). rewrite assert_that_true by (by apply Z.leb_le). simpl.
      eexists _, _. split; [done|]. split; [done|].
      destruct (Z.ltb_spec (last_count_ w) (count_ m)) as [Hlt|Hge].
      * split; [|split; [by right; eexists|done]]. intros c [= <-]. exists m. split; [|done].
        split; [done|]. split; [lia|]. intros x Hx ?. apply Hmax; [done|lia].
      * split; [done|]. split; [by left|]. intros _ x Hx ?. specialize (Hmax x Hx). lia.
    + eexists _, _. split; [done|]. split; [done|]. split; [done|]. split; [by left|].
      intros _ x Hx ?. specialize (Hub x Hx). lia.
  - pose proof (lower_bound_spec count _ Hl) as Hlb. unfold ProcessLowWaterMarks.
    destruct (lower_bound count (low_water_ w)) as [m|].
    + destruct Hlb as (Hm&Hle&Hmin). eexists _, _. split; [done|]. split; [done|].
      destruct (Z.ltb_spec (count_ m) (last_count_ w)) as [Hlt|Hge].
      * split; [|split; [by right; eexists|done]]. intros c [= <-]. exists m. split; [|done].
        split; [done|]. split; [lia|]. intros x Hx ?. apply Hmin; [done|lia].
      * split; [done|]. split; [by left|]. intros _ x Hx ?. specialize (Hmin x Hx). lia.
    + eexists _, _. split; [done|]. split; [done|]. split; [done|]. split; [by left|].
      intros _ x Hx ?. specialize (Hlb x Hx). lia.
Qed.

(** The processing functions never fail and keep the marks. *)
Lemma ProcessHigh_total count w :
  Ok w → ∃ log, ProcessHighWaterMarks count w = Ret (log, set_last count w).
Proof.
  intros [Hh _]. pose proof (before_upper_bound_spec count _ Hh) as Hub. unfold ProcessHighWaterMarks.
  destruct (before_upper_bound count (high_water_ w)) as [m|]; [|by eexists].
  rewrite assert_that_true by (apply Z.leb_le, Hub). by eexists.
Qed.
Lemma ProcessLow_total count w :
  ∃ log, ProcessLowWaterMarks count w = Ret (log, set_last count w).
Proof. unfold ProcessLowWaterMarks. destruct (lower_bound _ _); by eexists. Qed.

Lemma new_Ok : Ok new_WaterMarkTuple.
Proof. split; constructor. Qed.
End Watermark.

Definition sample : WaterMarkTuple (C := nat) :=
  SetLowWaterMark (mkInfo 2 7%nat) (SetHighWaterMark (mkInfo 8 6%nat) (SetHighWaterMark (mkInfo 4 5%nat)
    new_WaterMarkTuple)).

Lemma sample_Ok : Ok sample.
Proof. split; repeat (apply set_insert_sorted || constructor). Qed.

Lemma watermark_crossing_witness :
  ∃ log w', ProcessHighWaterMarks 5 sample = Ret (log, w') ∧ w' = set_last 5 sample.
Proof.
  destruct (watermark_crossing sample 5 sample_Ok) as [(log&w'&H1&H2&_) _]. by exists log, w'.
Defined.

(** A rise over both marks runs the callback of the upper one only. *)
Example rise_over_two : ProcessHighWaterMarks 9 sample = Ret ([(6%nat, 9)], set_last 9 sample).
Proof. reflexivity. Qed.

End WM.
