(* ===== verification/WorkQueue.v ===== *)
(** * Work queues: src/base/queue_task.h

    [WorkQueue] and the task that drains it, [QueueTaskRunner].  Threads that
    enqueue do not hold the queue's mutex all the time: an enqueue is a sequence
    of three atomic pieces (count the entry, push it, [MayBeStartRunner]), and
    the runner goes through the phases of [Run] one atomic piece at a time.

    [tbb::concurrent_queue] is a FIFO list whose operations are atomic.  Client
    callbacks are inputs of the steps: the result of [on_entry_cb_], of
    [callback_] and, as the member [start_ok], of [start_runner_].

    The runner is a task of the scheduler; what the queue uses of the scheduler
    is the life of that one task: [HWait] until the scheduler starts it, [HRun]
    while it runs, the outcome of [Cancel] and of its exit ([Task.Cancel],
    [Task.OnTaskExit]). *)

From stdpp Require Import gmap.
From S2P Require Import Prelude Watermark Task TaskInv TaskExit TaskSched TaskThms.
Open Scope Z_scope.

Module WQ.

(** Where the runner is in [QueueTaskRunner::Run]. *)
Inductive RunPhase : Set :=
| PEntry            (* before [OnEntry] *)
| PAbortCheck       (* before [RunnerAbort] *)
| PLoop (count : Z) (* in the loop of [RunQueue], [count] entries done *)
| PDone             (* before [RunnerDone] *)
| PAgain.           (* [Run] returned false: to be run again *)
Inductive HostState : Set := HWait | HRun (p : RunPhase).
Record Runner := mkRunner { host : HostState; task_cancel : bool }.

(** [scheduler->Cancel(current_runner_)] *)
Definition host_cancel (r : option Runner) : outcome (CancelReturnCode * option Runner) :=
  match r with
  | None => Abort
  | Some r => match host r with
              | HWait => Ret (CANCELLED, None)
              | HRun p => Ret (QUEUED, Some (mkRunner (HRun p) true))
              end
  end.

(** The exit of a runner that asks to be run again. *)
Definition host_exit (r : Runner) : option Runner :=
  if task_cancel r then None else Some (mkRunner HWait false).

Section WorkQueue.
Context {A C : Type}.

Record WorkQueue := mkWQ {
  queue_ : list A;
  count_ : Z;
  running_ : bool;
  current_runner_ : bool;        (* not NULL *)
  runner : option Runner;        (* the task in the scheduler *)
  on_entry_defer_count_ : Z;
  disabled_ : bool;
  deleted_ : bool;
  enqueues_ : Z;
  dequeues_ : Z;
  drops_ : Z;
  max_iterations_ : Z;
  size_ : Z;
  bounded_ : bool;
  shutdown_scheduled_ : bool;
  delete_entries_on_shutdown_ : bool;
  watermarks_ : @WM.WaterMarkTuple C;
  task_starts_ : Z;
  max_queue_len_ : Z;
  start_ok : bool;               (* what [start_runner_()] returns *)
  (* threads inside [Enqueue] or [set_disable] *)
  counted : list A;              (* entries counted and not yet pushed *)
  dropping : nat;                (* counted entries about to be dropped *)
  pending : nat;                 (* calls of [MayBeStartRunner] to come *)
  (* history *)
  pushed : list A;
  taken : list A;
}.

Definition kMaxSize : Z := 1024.
Definition kMaxIterations : Z := 32.

(** [WorkQueue::WorkQueue] and [SetBounded] *)
Definition new_WorkQueue (size max_iterations : Z) (bounded : bool) : WorkQueue :=
  mkWQ [] 0 false false None 0 false false 0 0 0 max_iterations size bounded false true
    WM.new_WaterMarkTuple 0 0 true [] 0 0 [] [].

(** Member assignments. *)
Definition set_queue (q : list A) (n : Z) (s : WorkQueue) : WorkQueue :=
  mkWQ q n (running_ s) (current_runner_ s) (runner s) (on_entry_defer_count_ s) (disabled_ s)
    (deleted_ s) (enqueues_ s) (dequeues_ s) (drops_ s) (max_iterations_ s) (size_ s) (bounded_ s)
    (shutdown_scheduled_ s) (delete_entries_on_shutdown_ s) (watermarks_ s) (task_starts_ s)
    (max_queue_len_ s) (start_ok s) (counted s) (dropping s) (pending s) (pushed s) (taken s).
Definition set_runner (b c : bool) (r : option Runner) (s : WorkQueue) : WorkQueue :=
  mkWQ (queue_ s) (count_ s) b c r (on_entry_defer_count_ s) (disabled_ s)
    (deleted_ s) (enqueues_ s) (dequeues_ s) (drops_ s) (max_iterations_ s) (size_ s) (bounded_ s)
    (shutdown_scheduled_ s) (delete_entries_on_shutdown_ s) (watermarks_ s) (task_starts_ s)
    (max_queue_len_ s) (start_ok s) (counted s) (dropping s) (pending s) (pushed s) (taken s).
Definition set_flags (dis del shut ent ok : bool) (s : WorkQueue) : WorkQueue :=
  mkWQ (queue_ s) (count_ s) (running_ s) (current_runner_ s) (runner s) (on_entry_defer_count_ s) dis
    del (enqueues_ s) (dequeues_ s) (drops_ s) (max_iterations_ s) (size_ s) (bounded_ s)
    shut ent (watermarks_ s) (task_starts_ s)
    (max_queue_len_ s) ok (counted s) (dropping s) (pending s) (pushed s) (taken s).
Definition set_stats (defer enq deq drp starts maxlen : Z) (s : WorkQueue) : WorkQueue :=
  mkWQ (queue_ s) (count_ s) (running_ s) (current_runner_ s) (runner s) defer (disabled_ s)
    (deleted_ s) enq deq drp (max_iterations_ s) (size_ s) (bounded_ s)
    (shutdown_scheduled_ s) (delete_entries_on_shutdown_ s) (watermarks_ s) starts
    maxlen (start_ok s) (counted s) (dropping s) (pending s) (pushed s) (taken s).
Definition set_marks (w : @WM.WaterMarkTuple C) (s : WorkQueue) : WorkQueue :=
  mkWQ (queue_ s) (count_ s) (running_ s) (current_runner_ s) (runner s) (on_entry_defer_count_ s)
    (disabled_ s) (deleted_ s) (enqueues_ s) (dequeues_ s) (drops_ s) (max_iterations_ s) (size_ s)
    (bounded_ s) (shutdown_scheduled_ s) (delete_entries_on_shutdown_ s) w (task_starts_ s)
    (max_queue_len_ s) (start_ok s) (counted s) (dropping s) (pending s) (pushed s) (taken s).
Definition set_threads (c : list A) (d p : nat) (s : WorkQueue) : WorkQueue :=
  mkWQ (queue_ s) (count_ s) (running_ s) (current_runner_ s) (runner s) (on_entry_defer_count_ s)
    (disabled_ s) (deleted_ s) (enqueues_ s) (dequeues_ s) (drops_ s) (max_iterations_ s) (size_ s)
    (bounded_ s) (shutdown_scheduled_ s) (delete_entries_on_shutdown_ s) (watermarks_ s)
    (task_starts_ s) (max_queue_len_ s) (start_ok s) c d p (pushed s) (taken s).
Definition set_history (p t : list A) (s : WorkQueue) : WorkQueue :=
  mkWQ (queue_ s) (count_ s) (running_ s) (current_runner_ s) (runner s) (on_entry_defer_count_ s)
    (disabled_ s) (deleted_ s) (enqueues_ s) (dequeues_ s) (drops_ s) (max_iterations_ s) (size_ s)
    (bounded_ s) (shutdown_scheduled_ s) (delete_entries_on_shutdown_ s) (watermarks_ s)
    (task_starts_ s) (max_queue_len_ s) (start_ok s) (counted s) (dropping s) (pending s) p t.

(** [RunnerAbortLocked] (and [RunnerAbort]) *)
Definition RunnerAbortLocked (s : WorkQueue) : bool :=
  disabled_ s || shutdown_scheduled_ s || negb (start_ok s).

(** [MayBeStartRunner] *)
Definition MayBeStartRunner (s : WorkQueue) : outcome WorkQueue :=
  if running_ s || (length (queue_ s) =? 0)%nat || deleted_ s || RunnerAbortLocked s then Ret s
  else
    let s := set_stats (on_entry_defer_count_ s) (enqueues_ s) (dequeues_ s) (drops_ s)
               (u32 (task_starts_ s + 1)) (max_queue_len_ s) s in
    assert_that (negb (current_runner_ s));;
    Ret (set_runner true true (Some (mkRunner HWait false)) s).

(** [EnqueueInternal] and [EnqueueBounded] up to the push: count the entry,
    check the bound, process the water marks. *)
Definition Enqueue_count (x : A) (s : WorkQueue) : outcome WorkQueue :=
  let ncount := u64 (count_ s + 1) in
  let s := set_queue (queue_ s) ncount s in
  let maxlen := if max_queue_len_ s <? ncount then ncount else max_queue_len_ s in
  if bounded_ s && negb (ncount <? size_ s) then
    Ret (set_threads (counted s) (S (dropping s)) (pending s)
      (set_stats (on_entry_defer_count_ s) (enqueues_ s) (dequeues_ s) (drops_ s) (task_starts_ s)
        maxlen s))
  else
    let s := set_stats (on_entry_defer_count_ s) (u64 (enqueues_ s + 1)) (dequeues_ s) (drops_ s)
               (task_starts_ s) maxlen s in
    '(_, w) ← WM.ProcessHighWaterMarks ncount (watermarks_ s);
    Ret (set_threads (x :: counted s) (dropping s) (pending s) (set_marks w s)).

(** [queue_.push(entry)] by the thread that counted the [n]-th entry. *)
Definition Enqueue_push (n : nat) (s : WorkQueue) : WorkQueue :=
  match counted s !! n with
  | None => s
  | Some x =>
      set_threads (delete n (counted s)) (dropping s) (S (pending s))
        (set_history (pushed s ++ [x]) (taken s) (set_queue (queue_ s ++ [x]) (count_ s) s))
  end.

(** The end of [EnqueueBounded] when the entry is dropped. *)
Definition Enqueue_drop (s : WorkQueue) : WorkQueue :=
  let s := set_queue (queue_ s) (u64 (count_ s - 1)) s in
  set_threads (counted s) (pred (dropping s)) (pending s)
    (set_stats (on_entry_defer_count_ s) (enqueues_ s) (dequeues_ s) (u64 (drops_ s + 1))
      (task_starts_ s) (count_ s) s).

(** [ShutdownLocked] *)
Definition ShutdownLocked (s : WorkQueue) : outcome WorkQueue :=
  assert_that (negb (deleted_ s));;
  s ← (if running_ s then
         assert_that (current_runner_ s);;
         '(code, r) ← host_cancel (runner s);
         match code with
         | CANCELLED => Ret (set_runner false false r s)
         | _ => Abort
         end
       else Ret s);
  let s := set_marks (WM.ResetLowWaterMark (WM.ResetHighWaterMark (watermarks_ s))) s in
  let s := set_queue [] 0 s in
  Ret (set_flags (disabled_ s) true (shutdown_scheduled_ s) (delete_entries_on_shutdown_ s)
    (start_ok s) s).

(** [Shutdown] *)
Definition Shutdown (s : WorkQueue) : outcome WorkQueue := ShutdownLocked s.

(** [ScheduleShutdown] *)
Definition ScheduleShutdown (delete_entries : bool) (s : WorkQueue) : outcome WorkQueue :=
  if shutdown_scheduled_ s then Ret s else
  let s := set_flags (disabled_ s) (deleted_ s) true delete_entries (start_ok s) s in
  if running_ s then
    assert_that (current_runner_ s);;
    '(code, r) ← host_cancel (runner s);
    match code with
    | CANCELLED => ShutdownLocked (set_runner false false r s)
    | QUEUED => Ret (set_runner (running_ s) (current_runner_ s) r s)
    | FAILED => Abort
    end
  else ShutdownLocked s.

(** [set_disable] up to its call of [MayBeStartRunner]. *)
Definition set_disable (disabled : bool) (s : WorkQueue) : WorkQueue :=
  if eqb (disabled_ s) disabled then s
  else
    let s := set_flags disabled (deleted_ s) (shutdown_scheduled_ s) (delete_entries_on_shutdown_ s)
               (start_ok s) s in
    if disabled then s else set_threads (counted s) (dropping s) (S (pending s)) s.

(** ** The runner *)

Definition set_phase (h : HostState) (s : WorkQueue) : WorkQueue :=
  match runner s with
  | None => s
  | Some r => set_runner (running_ s) (current_runner_ s) (Some (mkRunner h (task_cancel r))) s
  end.

(** [OnEntry] at the start of [Run]; [entry_ok] is the result of [on_entry_cb_]
    (true when there is none). *)
Definition Run_entry (entry_ok : bool) (s : WorkQueue) : WorkQueue :=
  if entry_ok then set_phase (HRun PAbortCheck) s
  else set_phase (HRun PAgain)
         (set_stats (u64 (on_entry_defer_count_ s + 1)) (enqueues_ s) (dequeues_ s) (drops_ s)
           (task_starts_ s) (max_queue_len_ s) s).

(** The check at the start of [RunQueue]. *)
Definition Run_abort_check (s : WorkQueue) : WorkQueue :=
  if RunnerAbortLocked s then set_phase (HRun PDone) s else set_phase (HRun (PLoop 0)) s.

(** [DequeueInternal] *)
Definition DequeueInternal (s : WorkQueue) : outcome (option A * WorkQueue) :=
  match queue_ s with
  | [] => Ret (None, s)
  | x :: q =>
      let ncount := u64 (count_ s - 1) in
      let s := set_queue q ncount (set_history (pushed s) (taken s ++ [x]) s) in
      let s := set_stats (on_entry_defer_count_ s) (enqueues_ s) (u64 (dequeues_ s + 1)) (drops_ s)
                 (task_starts_ s) (max_queue_len_ s) s in
      '(_, w) ← WM.ProcessLowWaterMarks ncount (watermarks_ s);
      Ret (Some x, set_marks w s)
  end.

(** One iteration of the loop of [RunQueue]; [cb_ok] is the result of
    [callback_(entry)]. *)
Definition RunQueue_iter (count : Z) (cb_ok : bool) (s : WorkQueue) : outcome WorkQueue :=
  '(e, s) ← DequeueInternal s;
  match e with
  | None => Ret (set_phase (HRun PDone) s)
  | Some _ =>
      if negb cb_ok then Ret (set_phase (HRun PDone) s)
      else if count + 1 =? max_iterations_ s then Ret (set_phase (HRun PDone) s)
      else Ret (set_phase (HRun (PLoop (count + 1))) s)
  end.

(** [RunnerDone]; when it returns true the runner does not touch the queue any
    more, and its task object is left to the scheduler. *)
Definition RunnerDone (s : WorkQueue) : outcome (bool * WorkQueue) :=
  if (length (queue_ s) =? 0)%nat || RunnerAbortLocked s then
    let s := set_runner false false None s in
    s ← (if shutdown_scheduled_ s then ShutdownLocked s else Ret s);
    Ret (true, s)
  else
    Ret (false, set_phase (HRun PAgain) (set_runner true (current_runner_ s) (runner s) s)).

(** The exit of a runner whose [Run] returned false. *)
Definition Run_exit (s : WorkQueue) : WorkQueue :=
  match runner s with
  | None => s
  | Some r => set_runner (running_ s) (current_runner_ s) (host_exit r) s
  end.

(** ** Executions *)

Inductive label :=
| LCount (x : A) | LPush (n : nat) | LDrop | LMayBeStart | LDisable (b : bool)
| LStartOk (b : bool) | LStart | LEntry (b : bool) | LAbortCheck | LIter (n : Z) (b : bool)
| LDone | LExit | LShutdown | LSchedule (b : bool) | LMarks (w : @WM.WaterMarkTuple C).

Definition phase_is (h : HostState) (s : WorkQueue) : Prop :=
  ∃ c, runner s = Some (mkRunner h c).

Inductive step : WorkQueue → label → outcome WorkQueue → Prop :=
| step_count s x : count_ s + 1 < 2 ^ 64 → step s (LCount x) (Enqueue_count x s)
| step_push s n : is_Some (counted s !! n) → step s (LPush n) (Ret (Enqueue_push n s))
| step_drop s : dropping s ≠ 0%nat → step s LDrop (Ret (Enqueue_drop s))
| step_maybe s : pending s ≠ 0%nat →
    step s LMayBeStart (MayBeStartRunner (set_threads (counted s) (dropping s) (pred (pending s)) s))
| step_disable s b : step s (LDisable b) (Ret (set_disable b s))
| step_start_ok s b :
    (* the client calls [MayBeStartRunner] when [start_runner_] turns true *)
    step s (LStartOk b)
      (Ret (set_threads (counted s) (dropping s) (if b then S (pending s) else pending s)
        (set_flags (disabled_ s) (deleted_ s) (shutdown_scheduled_ s) (delete_entries_on_shutdown_ s) b s)))
| step_start s : phase_is HWait s → step s LStart (Ret (set_phase (HRun PEntry) s))
| step_entry s b : phase_is (HRun PEntry) s → step s (LEntry b) (Ret (Run_entry b s))
| step_abort_check s : phase_is (HRun PAbortCheck) s → step s LAbortCheck (Ret (Run_abort_check s))
| step_iter s n b : phase_is (HRun (PLoop n)) s → step s (LIter n b) (RunQueue_iter n b s)
| step_done s b s' : phase_is (HRun PDone) s → RunnerDone s = Ret (b, s') → step s LDone (Ret s')
| step_done_abort s : phase_is (HRun PDone) s → RunnerDone s = Abort → step s LDone Abort
| step_exit s : phase_is (HRun PAgain) s → step s LExit (Ret (Run_exit s))
| step_shutdown s :
    (* the caller's policy excludes the runner *)
    (∀ p, ¬ phase_is (HRun p) s) → step s LShutdown (Shutdown s)
| step_schedule s b : step s (LSchedule b) (ScheduleShutdown b s)
| step_marks s w : (* the setters of the water marks *)
    WM.Ok w → step s (LMarks w) (Ret (set_marks w s)).

Inductive reachable (size max_iterations : Z) (bounded : bool) : WorkQueue → Prop :=
| reach_new : reachable size max_iterations bounded (new_WorkQueue size max_iterations bounded)
| reach_step s l s' :
    reachable size max_iterations bounded s → step s l (Ret s') →
    reachable size max_iterations bounded s'.

(** ** The invariant *)

Record Inv (s : WorkQueue) : Prop := {
  i_marks : WM.Ok (watermarks_ s);
  i_cur : current_runner_ s = running_ s;
  i_runner : running_ s = false → runner s = None;
  i_alive : running_ s = true → shutdown_scheduled_ s = false → ∃ h, runner s = Some (mkRunner h false);
  i_del : deleted_ s = true → running_ s = false;
  i_sched : shutdown_scheduled_ s = true → deleted_ s = false →
    running_ s = true ∧ (runner s = None ∨ ∃ p, runner s = Some (mkRunner (HRun p) true));
  i_wake : queue_ s ≠ [] → running_ s = false → deleted_ s = false → RunnerAbortLocked s = false →
    pending s ≠ 0%nat;
  i_fifo : deleted_ s = false → pushed s = taken s ++ queue_ s;
  i_count : deleted_ s = false →
    count_ s = Z.of_nat (length (queue_ s) + length (counted s) + dropping s) ∧ count_ s < 2 ^ 64;
  i_bound : deleted_ s = false → bounded_ s = true →
    (length (queue_ s) + length (counted s) = 0)%nat ∨
    Z.of_nat (length (queue_ s) + length (counted s)) < size_ s;
}.

Lemma runner_running s h c : Inv s → runner s = Some (mkRunner h c) → running_ s = true ∧ deleted_ s = false.
Proof.
  intros HI Hr. destruct (running_ s) eqn:Hrun; [|by rewrite (i_runner s HI Hrun) in Hr].
  split; [done|]. destruct (deleted_ s) eqn:Hd; [|done]. by rewrite (i_del s HI Hd) in Hrun.
Qed.

(** Moving the runner from one phase to another. *)
Lemma set_phase_Inv p s : Inv s → is_Some (runner s) → Inv (set_phase (HRun p) s).
Proof.
  intros HI [[h0 c] Hr]. pose proof (runner_running s h0 c HI Hr) as [Hrun Hdel].
  unfold set_phase. rewrite Hr. simpl. destruct HI. split; simpl; try done.
  - congruence.
  - intros _ Hs. destruct (i_alive0 Hrun Hs) as [h1 Hr1]. rewrite Hr in Hr1. simplify_eq. by eexists.
  - intros Hs Hd. split; [done|]. right. destruct (i_sched0 Hs Hd) as [_ [Hn|[p1 Hp]]]; [congruence|].
    rewrite Hr in Hp. simplify_eq. by eexists.
Qed.

Lemma ShutdownLocked_Inv s :
  deleted_ s = false → WM.Ok (watermarks_ s) → current_runner_ s = running_ s →
  (running_ s = true → ∃ c, runner s = Some (mkRunner HWait c)) → (running_ s = false → runner s = None) →
  ∃ s', ShutdownLocked s = Ret s' ∧ Inv s' ∧ deleted_ s' = true.
Proof.
  intros Hd Hm Hc Hr Hn. unfold ShutdownLocked. rewrite Hd. simpl. rewrite Hc.
  destruct (running_ s) eqn:Hrun; simpl.
  - destruct Hr as [c Hr]; [done|]. rewrite Hr. simpl. eexists. split; [done|]. split; [|done].
    split; simpl; try done; split; constructor.
  - eexists. split; [done|]. split; [|done]. split; simpl; try done; try congruence.
    + split; constructor.
    + intros _. by apply Hn.
Qed.

Lemma MayBeStartRunner_Inv s :
  Inv s → pending s ≠ 0%nat →
  ∃ s', MayBeStartRunner (set_threads (counted s) (dropping s) (pred (pending s)) s) = Ret s' ∧ Inv s'.
Proof.
  intros HI Hp. unfold MayBeStartRunner. simpl.
  change (RunnerAbortLocked (set_threads _ _ _ s)) with (RunnerAbortLocked s).
  destruct (running_ s || (length (queue_ s) =? 0)%nat || deleted_ s || RunnerAbortLocked s) eqn:Hc.
  - eexists. split; [done|]. destruct HI. split; simpl; try done. intros Hq Hr Hd Ha. exfalso.
    change (RunnerAbortLocked (set_threads _ _ _ s)) with (RunnerAbortLocked s) in Ha.
    rewrite Hr, Hd, Ha in Hc. by destruct (queue_ s).
  - rewrite !orb_false_iff in Hc. destruct Hc as [[[Hr Hq] Hd] Ha].
    rewrite (i_cur s HI), Hr. simpl. eexists. split; [done|]. destruct HI. split; simpl; try done.
    + by eexists.
    + congruence.
    + intros Hs. unfold RunnerAbortLocked in Ha. rewrite Hs, orb_true_r in Ha. done.
Qed.

Lemma Enqueue_count_Inv x s : Inv s → count_ s + 1 < 2 ^ 64 → ∃ s', Enqueue_count x s = Ret s' ∧ Inv s'.
Proof.
  intros HI Hlt. unfold Enqueue_count.
  assert (Hu : deleted_ s = false → u64 (count_ s + 1) = count_ s + 1).
  { intros Hd. pose proof (i_count s HI Hd) as [Hc _]. apply wrap_small. lia. }
  simpl. destruct (bounded_ s && negb (u64 (count_ s + 1) <? size_ s)) eqn:Hb.
  - eexists. split; [done|]. destruct HI. split; simpl; try done.
    intros Hd. pose proof (i_count0 Hd). rewrite (Hu Hd). lia.
  - destruct (WM.ProcessHigh_total (u64 (count_ s + 1)) (watermarks_ s) (i_marks s HI)) as [log Hw].
    rewrite Hw. simpl. eexists. split; [done|].
    assert (Hbd : bounded_ s = true → u64 (count_ s + 1) < size_ s).
    { intros Hbt. rewrite Hbt in Hb. simpl in Hb. apply negb_false_iff in Hb. by apply Z.ltb_lt. }
    destruct HI. split; simpl; try done; intros Hd; pose proof (i_count0 Hd); rewrite (Hu Hd) in *; [lia|].
    intros Hbt. specialize (Hbd Hbt). right. lia.
Qed.

Lemma Enqueue_push_Inv n s : Inv s → is_Some (counted s !! n) → Inv (Enqueue_push n s).
Proof.
  intros HI [x Hx]. unfold Enqueue_push. rewrite Hx.
  assert (Hlen : length (counted s) = S (length (delete n (counted s)))).
  { rewrite length_delete by (by eexists). apply lookup_lt_Some in Hx. lia. }
  destruct HI. split; simpl; try done.
  - intros Hd. rewrite i_fifo0 by done. by rewrite app_assoc.
  - intros Hd. specialize (i_count0 Hd). rewrite length_app. simpl. lia.
  - intros Hd Hb. specialize (i_bound0 Hd Hb). rewrite length_app. simpl. right. lia.
Qed.

Lemma Enqueue_drop_Inv s : Inv s → dropping s ≠ 0%nat → Inv (Enqueue_drop s).
Proof.
  intros HI Hn. unfold Enqueue_drop. destruct HI. split; simpl; try done.
  intros Hd. destruct (i_count0 Hd) as [Hc Hlt].
  assert (Hu : u64 (count_ s - 1) = count_ s - 1) by (apply wrap_small; lia). rewrite Hu. lia.
Qed.

Lemma set_disable_Inv b s : Inv s → Inv (set_disable b s).
Proof.
  intros HI. unfold set_disable. destruct (eqb (disabled_ s) b) eqn:He; [done|].
  destruct b; simpl; destruct HI; by split.
Qed.

Lemma DequeueInternal_Inv s h c :
  Inv s → runner s = Some (mkRunner h c) →
  ∃ e s', DequeueInternal s = Ret (e, s') ∧ Inv s' ∧ runner s' = runner s ∧
    max_iterations_ s' = max_iterations_ s.
Proof.
  intros HI Hr. pose proof (runner_running s h c HI Hr) as [Hrun Hd]. unfold DequeueInternal.
  destruct (queue_ s) as [|x q] eqn:Hq; [by eexists _, _|].
  destruct (WM.ProcessLow_total (u64 (count_ s - 1)) (watermarks_ s)) as [log Hw]. simpl. rewrite Hw.
  simpl. eexists _, _. split; [done|]. split; [|done].
  destruct (i_count s HI Hd) as [Hc Hlt]. rewrite Hq in Hc. simpl in Hc.
  assert (Hu : u64 (count_ s - 1) = count_ s - 1) by (apply wrap_small; lia).
  destruct HI. split; simpl; try done; try congruence.
  - intros _. rewrite i_fifo0 by done. rewrite Hq. by rewrite <-app_assoc.
  - intros _. rewrite Hu. lia.
  - intros _ Hb. specialize (i_bound0 Hd Hb). rewrite Hq in i_bound0. simpl in i_bound0.
    destruct i_bound0; [lia|right; lia].
Qed.

Lemma RunnerDone_Inv s c :
  Inv s → runner s = Some (mkRunner (HRun PDone) c) →
  (∀ b s', RunnerDone s = Ret (b, s') → Inv s') ∧ RunnerDone s ≠ Abort.
Proof.
  intros HI Hr. pose proof (runner_running s _ c HI Hr) as [Hrun Hd].
  cut (∃ b s', RunnerDone s = Ret (b, s') ∧ Inv s'); [naive_solver congruence|]. unfold RunnerDone.
  destruct ((length (queue_ s) =? 0)%nat || RunnerAbortLocked s) eqn:Hc; simpl.
  - destruct (shutdown_scheduled_ s) eqn:Hs.
    + destruct (ShutdownLocked_Inv (set_runner false false None s)) as (s'&->&HI'&_); try done;
        [apply HI|]. simpl. by eexists _, _.
    + simpl. eexists _, _. split; [done|]. destruct HI. split; simpl; try done; try congruence.
      intros Hq _ _ Ha. change (RunnerAbortLocked (set_runner _ _ _ s)) with (RunnerAbortLocked s) in Ha.
      rewrite Ha in Hc. by destruct (queue_ s).
  - eexists _, _. split; [done|]. apply set_phase_Inv; [|simpl; rewrite Hr; by eexists].
    pose proof (i_alive s HI Hrun) as Hal. pose proof (i_cur s HI) as Hcur.
    destruct HI. split; simpl; try done; try congruence.
    intros Hs Hd'. split; [done|]. apply (i_sched0 Hs Hd').
Qed.

Lemma ScheduleShutdown_Inv b s :
  Inv s → deleted_ s = false → ∃ s', ScheduleShutdown b s = Ret s' ∧ Inv s'.
Proof.
  intros HI Hd. unfold ScheduleShutdown. destruct (shutdown_scheduled_ s) eqn:Hs; [by eexists|]. simpl.
  destruct (running_ s) eqn:Hrun; simpl.
  - rewrite (i_cur s HI), Hrun. simpl. destruct (i_alive s HI Hrun Hs) as [h Hr]. rewrite Hr. simpl.
    destruct h as [|p]; simpl.
    + edestruct (ShutdownLocked_Inv (set_runner false false None
        (set_flags (disabled_ s) (deleted_ s) true b (start_ok s) s))) as (s'&Hsh&HI'&_); try done;
        [apply HI|]. by eexists.
    + eexists. split; [done|]. pose proof (i_cur s HI) as Hcur. destruct HI.
      split; simpl; try done; try congruence. intros _ _. split; [done|]. right. by eexists.
  - destruct (ShutdownLocked_Inv (set_flags (disabled_ s) (deleted_ s) true b (start_ok s) s))
      as (s'&Hsh&HI'&_); try done; [apply HI|apply HI| |apply HI|by eexists]. simpl. congruence.
Qed.

(** A request to shut down a queue that is shut down, or is going to be.  A second
    [ScheduleShutdown] is ignored. *)
Definition shut_again (s : WorkQueue) (l : label) : bool :=
  match l with
  | LShutdown => deleted_ s || shutdown_scheduled_ s
  | LSchedule _ => deleted_ s && negb (shutdown_scheduled_ s)
  | _ => false
  end.

Lemma Shutdown_again s : Inv s → (∀ p, ¬ phase_is (HRun p) s) → deleted_ s || shutdown_scheduled_ s = true → Shutdown s = Abort.
Proof.
  intros HI Hph Ha. unfold Shutdown, ShutdownLocked. destruct (deleted_ s) eqn:Hd; [done|]. simpl in Ha |- *.
  destruct (i_sched s HI Ha Hd) as [Hrun [Hr|[p Hr]]]; [|by destruct (Hph p); eexists].
  rewrite (i_cur s HI), Hrun, Hr. done.
Qed.

Lemma ScheduleShutdown_again b s : Inv s → deleted_ s = true → shutdown_scheduled_ s = false → ScheduleShutdown b s = Abort.
Proof.
  intros HI Hd Hs. unfold ScheduleShutdown. rewrite Hs. simpl. rewrite (i_del s HI Hd).
  unfold ShutdownLocked. simpl. by rewrite Hd.
Qed.

Lemma step_Inv s l r : Inv s → step s l r → if shut_again s l then r = Abort else ∃ s', r = Ret s' ∧ Inv s'.
Proof.
  intros HI Hstep. destruct Hstep as [s x Hlt|s n Hn|s Hn|s Hp|s b|s b|s [c Hr]|s b [c Hr]|s [c Hr]|
    s n b [c Hr]|s b s' [c Hr] Hdone|s [c Hr] Hdone|s [c Hr]|s Hph|s b|s w Hw]; cbn [shut_again].
  - by apply Enqueue_count_Inv.
  - eexists. split; [done|]. by apply Enqueue_push_Inv.
  - eexists. split; [done|]. by apply Enqueue_drop_Inv.
  - by apply MayBeStartRunner_Inv.
  - eexists. split; [done|]. by apply set_disable_Inv.
  - eexists. split; [done|]. destruct HI. destruct b; split; simpl; try done.
    intros ???. unfold RunnerAbortLocked. simpl. by rewrite orb_true_r.
  - eexists. split; [done|]. apply set_phase_Inv; [done|]. rewrite Hr. by eexists.
  - eexists. split; [done|]. unfold Run_entry. destruct b; apply set_phase_Inv; simpl; rewrite ?Hr; eauto.
    destruct HI. by split.
  - eexists. split; [done|]. unfold Run_abort_check. destruct (RunnerAbortLocked s);
      apply set_phase_Inv; simpl; rewrite ?Hr; eauto.
  - destruct (DequeueInternal_Inv s _ c HI Hr) as (e&s1&Hdeq&HI1&Hr1&_). unfold RunQueue_iter.
    rewrite Hdeq. simpl. assert (Hs1 : is_Some (runner s1)) by (rewrite Hr1, Hr; by eexists).
    destruct e; simpl; [|eexists; split; [done|by apply set_phase_Inv]].
    destruct (negb b), (n + 1 =? max_iterations_ s1); eexists; (split; [done|by apply set_phase_Inv]).
  - exists s'. split; [done|]. revert Hdone. apply (RunnerDone_Inv s c HI Hr).
  - exfalso. revert Hdone. apply (RunnerDone_Inv s c HI Hr).
  - eexists. split; [done|]. pose proof (runner_running s _ c HI Hr) as [Hrun Hd].
    unfold Run_exit, host_exit. rewrite Hr. simpl.
    destruct HI. split; simpl; try done; try congruence.
    + intros _ Hs. destruct (i_alive0 Hrun Hs) as [h1 Hr1]. rewrite Hr in Hr1. simplify_eq. by eexists.
    + intros Hs _. split; [done|]. left. destruct (i_sched0 Hs Hd) as [_ [Hn|[p Hp]]]; [congruence|].
      rewrite Hr in Hp. by simplify_eq.
  - destruct (deleted_ s || shutdown_scheduled_ s) eqn:Ha; [by apply Shutdown_again|].
    apply orb_false_iff in Ha as [Hd Hsh].
    destruct (ShutdownLocked_Inv s) as (s'&?&?&_); try done; [apply HI|apply HI| |apply HI|by exists s'].
    intros Hrun. destruct (i_alive s HI Hrun Hsh) as [[|p] Hr]; [by eexists|].
    destruct (Hph p). by eexists.
  - destruct (deleted_ s) eqn:Hd, (shutdown_scheduled_ s) eqn:Hs; simpl;
      [|by apply ScheduleShutdown_again|by apply ScheduleShutdown_Inv..].
    exists s. split; [|done]. unfold ScheduleShutdown. by rewrite Hs.
  - eexists. split; [done|]. destruct HI. by split.
Qed.
Lemma new_Inv size max_iterations bounded : Inv (new_WorkQueue size max_iterations bounded).
Proof. split; simpl; try done; [split; constructor|by left]. Qed.

Lemma reachable_Inv size max_iterations bounded s : reachable size max_iterations bounded s → Inv s.
Proof.
  induction 1 as [|s l s' _ IH Hstep]; [apply new_Inv|].
  pose proof (step_Inv s l (Ret s') IH Hstep) as H. destruct (shut_again s l); [done|]. by destruct H as (s0&[= <-]&?).
Qed.

(** C27: Whatever the interleaving of enqueuing threads, the runner, the disabling of the
    queue and shutdown requests (those of [Shutdown] when the runner does not run), an
    assertion of the work queue fails exactly when the queue is shut down a second time:
    by [Shutdown] after any request to shut down, or by [ScheduleShutdown] after
    [Shutdown]. *)
Theorem workqueue_never_aborts size max_iterations bounded s l r :
  reachable size max_iterations bounded s → step s l r →
  if shut_again s l then r = Abort else ∃ s', r = Ret s'.
Proof.
  intros Hs%reachable_Inv Hstep. pose proof (step_Inv s l r Hs Hstep) as H.
  destruct (shut_again s l); [done|]. destruct H as (s'&->&_). eauto.
Qed.

(** C28: No wakeup is lost: while entries are in the queue and nothing keeps the
    runner from running, a runner is in the scheduler or some thread is about to
    start one. *)
Theorem no_lost_wakeup size max_iterations bounded s :
  reachable size max_iterations bounded s → queue_ s ≠ [] → deleted_ s = false →
  RunnerAbortLocked s = false → (∃ h, runner s = Some (mkRunner h false)) ∨ pending s ≠ 0%nat.
Proof.
  intros Hs%reachable_Inv Hq Hd Ha. destruct (running_ s) eqn:Hr; [left|right].
  - apply (i_alive s Hs Hr). unfold RunnerAbortLocked in Ha. by destruct (disabled_ s), (shutdown_scheduled_ s).
  - by apply (i_wake s Hs).
Qed.

(** C29: Until the queue is shut down, the entries handed to the callback and the
    entries in the queue are the entries pushed, in order, the counter covers
    exactly the queue and the entries on their way into or past it, and a
    bounded queue stays below its size. *)
Theorem queue_fifo_bounded size max_iterations bounded s :
  reachable size max_iterations bounded s → deleted_ s = false →
  pushed s = taken s ++ queue_ s ∧
  count_ s = Z.of_nat (length (queue_ s) + length (counted s) + dropping s) ∧
  (bounded_ s = true → queue_ s = [] ∨ Z.of_nat (length (queue_ s)) < size_ s).
Proof.
  intros Hs%reachable_Inv Hd. split; [by apply i_fifo|]. split; [by apply i_count|].
  intros Hb. destruct (i_bound s Hs Hd Hb); [left|right; lia]. destruct (queue_ s); [done|simpl in *; lia].
Qed.

End WorkQueue.
Arguments WorkQueue : clear implicits.

(** ** The scheduler as host of the runner *)

(** The task [t] of the scheduler is the runner [r]. *)
Definition hosts (s : Sched) (t : nat) (r : option Runner) : Prop :=
  match r with
  | None => tasks s !! t = None
  | Some r => is_Some (tasks s !! t) ∧ task_cancel_ (tsk s t) = task_cancel r ∧
      state_ (tsk s t) = match host r with HWait => WAIT | HRun _ => RUN end
  end.

Section Host.
Context `{!IntrusiveSet EntryRef}.

(** The scheduler treats the runner as the work queue assumes: [Cancel] of a
    waiting runner removes it and answers CANCELLED, [Cancel] of a running one
    marks it and answers QUEUED. *)
Theorem scheduler_hosts_cancel s t r :
  Task.reachable s → hosts s t (Some r) →
  ∃ code r' s', host_cancel (Some r) = Ret (code, r') ∧ Cancel t s = Ret (code, s') ∧ hosts s' t r'.
Proof.
  intros Hs (Hex&Hc&Hst). pose proof (reachable_SchedOk s Hs) as (HI&_).
  unfold host_cancel. destruct (host r) as [|p].
  - destruct (TaskExit.Cancel_wait_spec t s HI Hst) as (s'&Hcan&HM&_).
    exists CANCELLED, None, s'. split_and!; try done. simpl.
    rewrite (TaskExit.rm_tasks _ _ _ HM). apply lookup_delete_eq.
  - exists QUEUED. eexists _, (upd_tsk t (set_cancel true) s). split; [done|]. split.
    + unfold Cancel. by rewrite Hst.
    + simpl. unfold upd_tsk. rewrite tsk_put_tsk, decide_True by done. simpl.
      rewrite lookup_insert_eq. split; [by eexists|]. by rewrite Hst.
Qed.
End Host.

(** ** Examples *)

Definition wq_of {A C} (o : outcome (@WorkQueue A C)) (d : @WorkQueue A C) : @WorkQueue A C :=
  match o with Ret s => s | Abort => d end.

Section Demo.
Local Abbreviation Q := (@WorkQueue nat nat).

Definition q0 : Q := new_WorkQueue 1024 32 false.
Definition q1 : Q := wq_of (Enqueue_count 7%nat q0) q0.
Definition q2 : Q := Enqueue_push 0 q1.
Definition q3 : Q := wq_of (MayBeStartRunner (set_threads (counted q2) (dropping q2) (pred (pending q2)) q2)) q2.

Lemma q2_reachable : reachable 1024 32 false q2.
Proof.
  eapply (reach_step _ _ _ q1 (LPush 0)); [|by apply step_push; vm_compute; eexists].
  eapply (reach_step _ _ _ q0 (LCount 7%nat)); [constructor|].
  replace (Ret q1) with (Enqueue_count 7%nat q0) by (by vm_compute). by apply step_count.
Qed.
Lemma q3_reachable : reachable 1024 32 false q3.
Proof.
  eapply (reach_step _ _ _ q2 LMayBeStart); [apply q2_reachable|].
  replace (Ret q3) with (MayBeStartRunner (set_threads (counted q2) (dropping q2) (pred (pending q2)) q2))
    by (by vm_compute). by apply step_maybe; vm_compute.
Qed.

Lemma workqueue_never_aborts_witness : ∃ s', ScheduleShutdown true q3 = Ret s'.
Proof.
  apply (workqueue_never_aborts 1024 32 false q3 (LSchedule true) (ScheduleShutdown true q3)); [apply q3_reachable|].
  apply step_schedule.
Defined.

Lemma no_lost_wakeup_witness : (∃ h, runner q2 = Some (mkRunner h false)) ∨ pending q2 ≠ 0%nat.
Proof. apply (no_lost_wakeup 1024 32 false q2 q2_reachable); by vm_compute. Defined.

Lemma queue_fifo_bounded_witness : pushed q3 = taken q3 ++ queue_ q3.
Proof. by apply (queue_fifo_bounded 1024 32 false q3 q3_reachable). Defined.

(** An entry callback that defers the run while a shutdown is requested: the
    cancelled runner is destroyed on exit, and the shutdown that it was to
    complete never happens. *)
Definition q4 : Q := set_phase (HRun PEntry) q3.
Definition q5 : Q := wq_of (ScheduleShutdown true q4) q4.
Definition q6 : Q := Run_exit (Run_entry false q5).

Lemma shutdown_lost :
  reachable 1024 32 false q6 ∧ shutdown_scheduled_ q6 = true ∧ deleted_ q6 = false ∧ runner q6 = None.
Proof.
  split; [|by vm_compute].
  eapply (reach_step _ _ _ (Run_entry false q5) LExit); [|by apply step_exit; vm_compute; eexists].
  eapply (reach_step _ _ _ q5 (LEntry false)); [|by apply step_entry; vm_compute; eexists].
  eapply (reach_step _ _ _ q4 (LSchedule true)).
  - eapply (reach_step _ _ _ q3 LStart); [apply q3_reachable|]. by apply step_start; vm_compute; eexists.
  - replace (Ret q5) with (ScheduleShutdown true q4) by (by vm_compute). by apply step_schedule; vm_compute.
Qed.

(** Once in such a state, the queue is never shut down. *)
Lemma shutdown_lost_forever (s : Q) l s' :
  shutdown_scheduled_ s = true → deleted_ s = false → runner s = None → running_ s = true →
  step s l (Ret s') →
  shutdown_scheduled_ s' = true ∧ deleted_ s' = false ∧ runner s' = None ∧ running_ s' = true.
Proof.
  intros Hs Hd Hr Hrun Hstep.
  inversion Hstep as [? x Hlt Heq|? n Hn Heq|? Hn Heq|? Hp Heq|? b|? b|? [c Hc]|? b [c Hc]|? [c Hc]|
    ? n b [c Hc]|? b ? [c Hc]|? [c Hc]|? [c Hc]|? Hph|? b Heq|? w Hw]; subst; try congruence;
    try done.
  - unfold Enqueue_count in *. destruct (bounded_ _ && _) in *; simplify_eq; [done|].
    destruct (WM.ProcessHighWaterMarks _ _) as [[log w]|]; simpl in *; simplify_eq; done.
  - unfold Enqueue_push. by destruct (counted s !! n).
  - unfold MayBeStartRunner in *. simpl in *. rewrite Hrun in *. simpl in *. by simplify_eq.
  - unfold set_disable. destruct (eqb _ _); [done|]. by destruct b.
  - unfold Shutdown, ShutdownLocked in *. rewrite Hd, Hrun, Hr in *. simpl in *. by destruct (current_runner_ s).
  - unfold ScheduleShutdown in *. rewrite Hs in *. by simplify_eq.
Qed.

(** [Shutdown] and then [ScheduleShutdown] *)
Lemma second_shutdown_aborts : (s ← Shutdown q3; ScheduleShutdown true s) = Abort.
Proof. by vm_compute. Qed.
End Demo.

Lemma scheduler_hosts_cancel_witness :
  ∃ code r' s', host_cancel (Some (mkRunner HWait false)) = Ret (code, r') ∧
    Cancel 1 demo5 = Ret (code, s') ∧ hosts s' 1 r'.
Proof.
  apply (scheduler_hosts_cancel demo5 1 (mkRunner HWait false)); [apply demo5_reachable|].
  split; [by vm_compute; eexists|]. split; by vm_compute.
Defined.

End WQ.
