(* ===== verification/Timer.v ===== *)
(** * Timers: src/base/timer.h and src/base/timer.cc

    One [Timer] object with everything that refers to it: the pending waits of
    [boost::asio] (each holds a reference and the sequence number it was started
    with), the [TimerTask]s in the scheduler and the entry in [TimerManager].
    Each critical section of the timer's mutex is one step; a [TimerTask] goes
    through its [Run] in several steps, between which other threads act.

    The outcome of the asio calls is an input: whether [expires_from_now] fails,
    and with which error a wait completes.  A wait completes with
    [operation_aborted] only after it was superseded by a later
    [expires_from_now]. *)

From stdpp Require Import gmap.
From S2P Require Import Prelude Task.
Open Scope Z_scope.

Module TM.

Inductive TimerState : Set := Init | Running | Fired | Cancelled.
#[export] Instance TimerState_eq_dec : EqDecision TimerState.
Proof. solve_decision. Defined.

(** Where a [TimerTask] is: in the scheduler's queue, started, in the handler,
    after the handler, after [OnTaskCancel], finished. *)
Inductive Phase : Set :=
| TWait | TRun | TCall | TAfter (restart : bool) | TRestart (restart : bool) | TEnd.
#[export] Instance Phase_eq_dec : EqDecision Phase.
Proof. solve_decision. Defined.

Record TimerTask := mkTT {
  phase : Phase;
  cancel : bool;      (* [task_cancel_] *)
  ref : bool;         (* [timer_ != NULL] *)
  ec : bool;          (* [ec_] is an error *)
}.

Record Timer := mkTimer {
  state_ : TimerState;
  timer_task_ : option nat;
  time_ : Z;
  handler_ : option Z;
  error_handler_ : option Z;
  seq_no_ : Z;
  delete_on_completion_ : bool;
  waits : list Z;                 (* pending [async_wait]s *)
  tasks : gmap nat TimerTask;
  in_set : bool;                  (* in [TimerManager::timer_ref_] *)
  deleted : bool;                 (* [~Timer] has run *)
  calls : Z;                      (* history: calls of the handlers *)
}.

(** [Timer::Timer] and [TimerManager::CreateTimer] *)
Definition CreateTimer (delete_on_completion : bool) : Timer :=
  mkTimer Init None 0 None None 0 delete_on_completion [] ∅ true false 0.

Definition set_state (st : TimerState) (k : option nat) (s : Timer) : Timer :=
  mkTimer st k (time_ s) (handler_ s) (error_handler_ s) (seq_no_ s) (delete_on_completion_ s)
    (waits s) (tasks s) (in_set s) (deleted s) (calls s).
Definition set_start (time : Z) (h eh : option Z) (seq : Z) (s : Timer) : Timer :=
  mkTimer (state_ s) (timer_task_ s) time h eh seq (delete_on_completion_ s)
    (waits s) (tasks s) (in_set s) (deleted s) (calls s).
Definition set_waits (w : list Z) (s : Timer) : Timer :=
  mkTimer (state_ s) (timer_task_ s) (time_ s) (handler_ s) (error_handler_ s) (seq_no_ s)
    (delete_on_completion_ s) w (tasks s) (in_set s) (deleted s) (calls s).
Definition set_tasks (m : gmap nat TimerTask) (s : Timer) : Timer :=
  mkTimer (state_ s) (timer_task_ s) (time_ s) (handler_ s) (error_handler_ s) (seq_no_ s)
    (delete_on_completion_ s) (waits s) m (in_set s) (deleted s) (calls s).
Definition set_life (i d : bool) (s : Timer) : Timer :=
  mkTimer (state_ s) (timer_task_ s) (time_ s) (handler_ s) (error_handler_ s) (seq_no_ s)
    (delete_on_completion_ s) (waits s) (tasks s) i d (calls s).
Definition set_calls (n : Z) (s : Timer) : Timer :=
  mkTimer (state_ s) (timer_task_ s) (time_ s) (handler_ s) (error_handler_ s) (seq_no_ s)
    (delete_on_completion_ s) (waits s) (tasks s) (in_set s) (deleted s) n.

(** ** References *)

Definition refcount_ (s : Timer) : nat :=
  (if in_set s then 1 else 0) + length (waits s) +
  size (filter (λ p : nat * TimerTask, ref p.2 = true) (tasks s)).

(** [intrusive_ptr_release]: the last reference deletes the timer; [~Timer]
    asserts its state. *)
Definition release (s : Timer) : outcome Timer :=
  if (refcount_ s =? 0)%nat then
    assert_that (negb (bool_decide (state_ s = Running ∨ state_ s = Fired)));;
    Ret (set_life (in_set s) true s)
  else Ret s.

(** ** The operations *)

(** [Timer::Start]; [fail]: [expires_from_now] reports an error. *)
Definition Start (time : Z) (h eh : option Z) (fail : bool) (s : Timer) : bool * Timer :=
  if time <? 0 then (true, s)
  else if bool_decide (state_ s = Running ∨ state_ s = Fired) then (true, s)
  else
    let s := set_start time h eh (u32 (seq_no_ s + 1)) s in
    if fail then (false, s)
    else (true, set_waits (waits s ++ [seq_no_ s]) (set_state Running (timer_task_ s) s)).

(** [Timer::Reschedule] *)
Definition Reschedule (time : Z) (s : Timer) : bool * Timer :=
  if negb (bool_decide (state_ s = Fired)) then (false, s)
  else if time <? 0 then (false, s)
  else (true, set_start time (handler_ s) (error_handler_ s) (seq_no_ s) s).

(** [TaskScheduler::Cancel] of a timer task: a queued task is destroyed (with its
    reference), a running one is marked. *)
Definition cancel_task (k : nat) (s : Timer) : outcome (CancelReturnCode * Timer) :=
  match tasks s !! k with
  | None => Abort
  | Some t => match phase t with
              | TWait => Ret (CANCELLED, set_tasks (delete k (tasks s)) s)
              | _ => Ret (QUEUED, set_tasks (<[k := mkTT (phase t) true (ref t) (ec t)]> (tasks s)) s)
              end
  end.

(** [Timer::Cancel] *)
Definition Cancel (s : Timer) : outcome (bool * Timer) :=
  if bool_decide (state_ s = Fired) then Ret (false, s)
  else
    s ← (match timer_task_ s with
         | None => Ret s
         | Some k => '(_, s) ← cancel_task k s; Ret (set_state (state_ s) None s)
         end);
    Ret (true, set_state Cancelled (timer_task_ s) s).

(** [TimerManager::DeleteTimer] *)
Definition DeleteTimer (s : Timer) : outcome (bool * Timer) :=
  if bool_decide (state_ s = Fired) then Ret (false, s)
  else
    '(ok, s) ← Cancel s;
    if negb ok && delete_on_completion_ s then Ret (false, s)
    else s ← release (set_life false (deleted s) s); Ret (true, s).

(** [Timer::StartTimerTask]: the [n]-th wait completes; [k] is the new task. *)
Definition StartTimerTask (n k : nat) (aborted err : bool) (s : Timer) : outcome Timer :=
  match waits s !! n with
  | None => Ret s
  | Some seq_no =>
      let s := set_waits (delete n (waits s)) s in
      if bool_decide (state_ s = Cancelled) then release s
      else if aborted then release s
      else if negb (seq_no_ s =? seq_no) then release s
      else
        assert_that (bool_decide (timer_task_ s = None));;
        Ret (set_state (state_ s) (Some k)
          (set_tasks (<[k := mkTT TWait false true err]> (tasks s)) s))
  end.

(** [TimerTask::OnTaskCancel] *)
Definition OnTaskCancel (k : nat) (s : Timer) : outcome Timer :=
  match tasks s !! k with
  | None => Ret s
  | Some t =>
      if negb (ref t) then Ret s
      else
        assert_that (bool_decide (timer_task_ s = Some k ∨ timer_task_ s = None));;
        Ret (set_state Init None s)
  end.

Definition set_phase (k : nat) (p : Phase) (s : Timer) : Timer :=
  match tasks s !! k with
  | None => s
  | Some t => set_tasks (<[k := mkTT p (cancel t) (ref t) (ec t)]> (tasks s)) s
  end.

(** [TimerTask::Run], up to the call of the handler. *)
Definition Run_check (k : nat) (s : Timer) : outcome Timer :=
  match tasks s !! k with
  | None => Abort
  | Some t =>
      if cancel t then release (set_tasks (<[k := mkTT TEnd true false (ec t)]> (tasks s)) s)
      else Ret (set_state Fired (timer_task_ s) (set_phase k TCall s))
  end.

(** The handler returns [restart]; an error goes to the error handler, if any. *)
Definition Run_handler (k : nat) (restart : bool) (s : Timer) : Timer :=
  match tasks s !! k with
  | None => s
  | Some t =>
      let by_error := ec t && bool_decide (is_Some (error_handler_ s)) in
      set_calls (calls s + 1) (set_phase k (TAfter (restart && negb by_error)) s)
  end.

(** [OnTaskCancel()] in [Run]. *)
Definition Run_after (k : nat) (restart : bool) (s : Timer) : outcome Timer :=
  s ← OnTaskCancel k s;
  Ret (set_phase k (TRestart restart) s).

(** The end of [Run]. *)
Definition Run_finish (k : nat) (restart fail : bool) (s : Timer) : outcome Timer :=
  s ← (if restart then Ret (Start (time_ s) (handler_ s) (error_handler_ s) fail s).2
       else if delete_on_completion_ s then '(_, s) ← DeleteTimer s; Ret s
       else Ret s);
  Ret (set_phase k TEnd s).

(** [TaskScheduler::OnTaskExit] of a timer task: the cancel callback, and the
    destruction of the task with its reference. *)
Definition task_exit (k : nat) (s : Timer) : outcome Timer :=
  match tasks s !! k with
  | None => Abort
  | Some t =>
      s ← (if cancel t then OnTaskCancel k s else Ret s);
      let s := set_tasks (delete k (tasks s)) s in
      if ref t then release s else Ret s
  end.

(** ** Executions *)

Inductive label :=
| LStart (time : Z) (h eh : option Z) (fail : bool) | LReschedule (time : Z) | LCancel | LDelete
| LExpire (n k : nat) (aborted err : bool) | LRun (k : nat) | LCheck (k : nat)
| LHandler (k : nat) (restart : bool) | LAfter (k : nat) | LFinish (k : nat) (fail : bool) | LExit (k : nat)
| LErase.

Definition phase_is (k : nat) (p : Phase) (s : Timer) : Prop :=
  ∃ t, tasks s !! k = Some t ∧ phase t = p.

(** The state after an operation with a result. *)
Definition after {A} (o : outcome (A * Timer)) : outcome Timer := '(_, s) ← o; Ret s.

Inductive step : Timer → label → outcome Timer → Prop :=
(* the owner of the timer, while it has not deleted it *)
| step_start s time h eh fail :
    in_set s = true → seq_no_ s + 1 < 2 ^ 32 →
    step s (LStart time h eh fail) (Ret (Start time h eh fail s).2)
| step_reschedule s time : in_set s = true → step s (LReschedule time) (Ret (Reschedule time s).2)
| step_cancel s : in_set s = true → step s LCancel (after (Cancel s))
| step_delete s : in_set s = true → step s LDelete (after (DeleteTimer s))
(* the [erase] at the end of a [DeleteTimer] whose other parts ran before steps of
   other threads *)
| step_erase s : in_set s = true → step s LErase (release (set_life false (deleted s) s))
(* asio *)
| step_expire s n k aborted err q :
    waits s !! n = Some q → tasks s !! k = None → (aborted = true → q ≠ seq_no_ s) →
    step s (LExpire n k aborted err) (StartTimerTask n k aborted err s)
(* the task *)
| step_run s k : phase_is k TWait s → step s (LRun k) (Ret (set_phase k TRun s))
| step_check s k : phase_is k TRun s → step s (LCheck k) (Run_check k s)
| step_handler s k r : phase_is k TCall s → step s (LHandler k r) (Ret (Run_handler k r s))
| step_after s k r : phase_is k (TAfter r) s → step s (LAfter k) (Run_after k r s)
| step_finish s k r fail :
    phase_is k (TRestart r) s → seq_no_ s + 1 < 2 ^ 32 →
    step s (LFinish k fail) (Run_finish k r fail s)
| step_exit s k : phase_is k TEnd s → step s (LExit k) (task_exit k s).

Inductive reachable (delete_on_completion : bool) : Timer → Prop :=
| reach_new : reachable delete_on_completion (CreateTimer delete_on_completion)
| reach_step s l s' :
    reachable delete_on_completion s → step s l (Ret s') → reachable delete_on_completion s'.

(** ** The invariant *)

Definition unreferenced (s : Timer) : Prop :=
  in_set s = false ∧ waits s = [] ∧ ∀ k t, tasks s !! k = Some t → ref t = false.

(** The task of [timer_task_] is before the handler or in it. *)
Definition before (p : Phase) : bool := match p with TWait | TRun => true | _ => false end.
Definition calling (p : Phase) : bool := match p with TCall | TAfter _ => true | _ => false end.

Record TaskOk (s : Timer) (k : nat) (t : TimerTask) : Prop := {
  to_cancel : cancel t = true → (phase t = TRun ∧ ref t = true) ∨ (phase t = TEnd ∧ ref t = false);
  to_ref : ref t = false → phase t = TEnd;
  to_owned : cancel t = false → before (phase t) || calling (phase t) = true →
    timer_task_ s = Some k;
}.

Lemma TaskOk_ext s s' k t : timer_task_ s' = timer_task_ s → TaskOk s k t → TaskOk s' k t.
Proof. intros E [H1 H2 H3]. constructor; [done..|]. by rewrite E. Qed.

Record TInv (s : Timer) : Prop := {
  ti_nodup : NoDup (waits s);
  ti_seq : ∀ q, q ∈ waits s → q ≤ seq_no_ s;
  ti_range : 0 ≤ seq_no_ s < 2 ^ 32;
  ti_tasks : ∀ k t, tasks s !! k = Some t → TaskOk s k t;
  ti_owner : ∀ k, timer_task_ s = Some k → ∃ t, tasks s !! k = Some t ∧ cancel t = false ∧
    ((state_ s = Running ∧ before (phase t) = true) ∨ (state_ s = Fired ∧ calling (phase t) = true));
  ti_owner_seq : is_Some (timer_task_ s) → seq_no_ s ∉ waits s;
  ti_running : state_ s = Running → is_Some (timer_task_ s) ∨ seq_no_ s ∈ waits s;
  ti_fired : state_ s = Fired → is_Some (timer_task_ s);
  ti_init : state_ s = Init → seq_no_ s ∉ waits s;
  ti_deleted : deleted s = true → unreferenced s;
}.

Lemma refcount_zero s : refcount_ s = 0%nat ↔ unreferenced s.
Proof.
  unfold refcount_, unreferenced. split.
  - intros H. destruct (in_set s); [lia|]. split; [done|].
    destruct (waits s); [|simpl in H; lia]. split; [done|]. intros k t Hk.
    destruct (ref t) eqn:Er; [|done].
    assert (filter (λ p : nat * TimerTask, ref p.2 = true) (tasks s) !! k = Some t)
      by (by apply map_lookup_filter_Some).
    assert (Hz : size (filter (λ p : nat * TimerTask, ref p.2 = true) (tasks s)) = 0%nat) by (simpl in H; lia).
    apply map_size_empty_iff in Hz. rewrite Hz in *. done.
  - intros (-> & -> & Hr). simpl. apply map_size_empty_iff, map_empty. intros k.
    apply map_lookup_filter_None. right. intros t Hk. simpl. rewrite (Hr k t Hk). done.
Qed.

Lemma unreferenced_idle s : TInv s → unreferenced s → state_ s ≠ Running ∧ state_ s ≠ Fired.
Proof.
  intros I (_ & Hw & Hr).
  assert (N : timer_task_ s = None).
  { destruct (timer_task_ s) as [k|] eqn:E; [|done].
    destruct (ti_owner s I k E) as (t & Hk & _ & Hp).
    pose proof (to_ref _ _ _ (ti_tasks s I k t Hk) (Hr k t Hk)) as E2.
    rewrite E2 in Hp. simpl in Hp. destruct Hp as [[_ ?]|[_ ?]]; done. }
  split; intros E.
  - destruct (ti_running s I E) as [[k Hk]|Hi]; [congruence|]. rewrite Hw in Hi. by apply elem_of_nil in Hi.
  - destruct (ti_fired s I E) as [k Hk]. congruence.
Qed.

(** No assertion fails when a reference goes away. *)
Lemma release_ok s : TInv s → ∃ s', release s = Ret s' ∧ TInv s' ∧
  state_ s' = state_ s ∧ tasks s' = tasks s ∧ calls s' = calls s.
Proof.
  intros I. unfold release. destruct (Nat.eqb_spec (refcount_ s) 0) as [E|E].
  - apply refcount_zero in E. destruct (unreferenced_idle s I E).
    rewrite bool_decide_eq_false_2 by tauto. simpl. eexists. split; [done|].
    split; [|done]. destruct I; constructor; simpl; try assumption.
    + intros k t Hk. eapply TaskOk_ext, ti_tasks0, Hk; done.
    + intros _. exact E.
  - exists s. split_and!; eauto.
Qed.

Lemma ti_live s : TInv s → ¬ unreferenced s → deleted s = false.
Proof. intros I H. destruct (deleted s) eqn:E; [|done]. by destruct H; apply ti_deleted. Qed.

Lemma live_in_set s : in_set s = true → ¬ unreferenced s.
Proof. intros H (? & _). congruence. Qed.
Lemma live_wait s n q : waits s !! n = Some q → ¬ unreferenced s.
Proof. intros H (_ & E & _). by rewrite E in H. Qed.
Lemma live_task s k t : TInv s → tasks s !! k = Some t → phase t ≠ TEnd → ¬ unreferenced s.
Proof. intros I H N (_ & _ & E). apply N, (to_ref s k t); eauto using ti_tasks. Qed.

Lemma CreateTimer_inv d : TInv (CreateTimer d).
Proof.
  constructor; simpl; try done; try (by intros [k ?]).
  - constructor.
  - intros q Hq. by apply elem_of_nil in Hq.
  - intros _ Hq. by apply elem_of_nil in Hq.
Qed.

(** In [Init] and [Cancelled] no task is owned. *)
Lemma idle_no_task s : TInv s → state_ s ≠ Running → state_ s ≠ Fired → timer_task_ s = None.
Proof.
  intros I H1 H2. destruct (timer_task_ s) as [k|] eqn:E; [|done].
  destruct (ti_owner s I k E) as (t & _ & _ & [[? _]|[? _]]); done.
Qed.

Lemma Start_inv time h eh fail s :
  TInv s → deleted s = false → seq_no_ s + 1 < 2 ^ 32 → TInv (Start time h eh fail s).2.
Proof.
  intros I Hd Hs. unfold Start. destruct (time <? 0); [done|].
  case_bool_decide as Hst; [done|].
  assert (N : timer_task_ s = None) by (apply idle_no_task; [done|tauto..]).
  pose proof (ti_range s I) as Hr.
  assert (Eu : u32 (seq_no_ s + 1) = seq_no_ s + 1) by (apply Z.mod_small; lia).
  assert (Nw : seq_no_ s + 1 ∉ waits s) by (intros Hi; apply (ti_seq s I) in Hi; lia).
  destruct fail; simpl.
  - destruct I; constructor; simpl; rewrite ?Eu; try done; try lia; try tauto.
    + intros q Hq. apply ti_seq0 in Hq. lia.
    + intros k t Hk. eapply TaskOk_ext, ti_tasks0, Hk; done.
  - destruct I; constructor; simpl; rewrite ?Eu, ?N; try done; try lia; try tauto.
    + apply NoDup_app. split; [done|]. split; [|apply NoDup_singleton].
      intros q Hq Hi. apply list_elem_of_singleton in Hi as ->. done.
    + intros q [Hq|Hq]%elem_of_app; [apply ti_seq0 in Hq; lia|].
      apply list_elem_of_singleton in Hq as ->. lia.
    + intros k t Hk. eapply TaskOk_ext, ti_tasks0, Hk; done.
    + intros _. right. apply elem_of_app. right. by apply list_elem_of_singleton.
    + congruence.
Qed.

Lemma Reschedule_inv time s : TInv s → TInv (Reschedule time s).2.
Proof.
  intros I. unfold Reschedule. case_bool_decide; simpl; [|done]. destruct (time <? 0); [done|].
  destruct I; constructor; simpl; try done.
  intros k t Hk. eapply TaskOk_ext, ti_tasks0, Hk; done.
Qed.

(** [Cancel] finds the task in the scheduler, and leaves the timer [Cancelled] and
    without a task. *)
Lemma Cancel_inv s : TInv s → ¬ unreferenced s → ∃ b s', Cancel s = Ret (b, s') ∧ TInv s' ∧
  in_set s' = in_set s ∧ deleted s' = deleted s ∧ calls s' = calls s ∧
  delete_on_completion_ s' = delete_on_completion_ s ∧
  (∀ k t, tasks s !! k = Some t → cancel t = false → before (phase t) = false → tasks s' !! k = Some t) ∧
  (∀ k t, tasks s' !! k = Some t → ∃ t0, tasks s !! k = Some t0 ∧ phase t0 = phase t) ∧
  ((b = false ∧ s' = s ∧ state_ s = Fired) ∨ (b = true ∧ state_ s ≠ Fired ∧ state_ s' = Cancelled)).
Proof.
  intros I Hl%ti_live; [|done]. unfold Cancel. case_bool_decide as Hst.
  { exists false, s. split_and!; eauto. }
  destruct (timer_task_ s) as [k|] eqn:E; simpl.
  - destruct (ti_owner s I k E) as (t & Hk & Hc & [[Hr Hp]|[? _]]); [|done].
    pose proof (ti_tasks s I k t Hk) as Ho.
    assert (Er : ref t = true) by (destruct (ref t) eqn:Er; [done|]; rewrite (to_ref _ _ _ Ho Er) in Hp; done).
    unfold cancel_task. rewrite Hk.
    assert (Hoth : ∀ k' t', k' ≠ k → tasks s !! k' = Some t' →
      TaskOk (set_state Cancelled None s) k' t').
    { intros k' t' Hn Hk'. destruct (ti_tasks s I k' t' Hk'). constructor; simpl; try done.
      intros ? ?. rewrite to_owned0 in E; congruence. }
    destruct (phase t) eqn:Ep; simpl in Hp; try done; simpl.
    + eexists true, _. split; [done|]. split; [|split_and!; try done].
      * destruct I; constructor; simpl; try done; try (by intros [? ?]).
        -- intros k' t' Hk'. apply lookup_delete_Some in Hk' as [Hn Hk'].
           destruct (Hoth k' t' ltac:(done) Hk'). by constructor.
        -- congruence.
      * intros k' t' Hk' Hc' Hb. simpl. rewrite lookup_delete_ne; [done|]. intros ->. simplify_eq.
        by rewrite Ep in Hb.
      * simpl. intros k' t' [_ Hk']%lookup_delete_Some. eauto.
      * right. done.
    + eexists true, _. split; [done|]. split; [|split_and!; try done].
      * destruct I; constructor; simpl; try done; try (by intros [? ?]).
        -- intros k' t' Hk'. apply lookup_insert_Some in Hk' as [[<- <-]|[Hn Hk']].
           ++ constructor; simpl; try done; [|congruence]. intros _. left. done.
           ++ destruct (Hoth k' t' ltac:(done) Hk'). by constructor.
        -- congruence.
      * intros k' t' Hk' Hc' Hb. simpl. rewrite lookup_insert_ne; [done|]. intros ->. simplify_eq.
        by rewrite Ep in Hb.
      * simpl. intros k' t' [[<- <-]|[_ Hk']]%lookup_insert_Some; eauto.
      * right. done.
  - eexists true, _. split; [done|]. split; [|split_and!; try done; eauto].
    destruct I; constructor; simpl; rewrite ?E; try done; try (by intros [? ?]).
    + intros k t Hk. destruct (ti_tasks0 k t Hk). constructor; simpl; try done. by rewrite E in to_owned0.
Qed.

Lemma erase_inv s : TInv s → deleted s = false → TInv (set_life false (deleted s) s).
Proof.
  intros I Hd. destruct I; constructor; simpl; try assumption.
  - intros k t Hk. eapply TaskOk_ext, ti_tasks0, Hk; done.
  - congruence.
Qed.

Lemma DeleteTimer_ok s : TInv s → ¬ unreferenced s → ∃ b s', DeleteTimer s = Ret (b, s') ∧ TInv s' ∧
  (deleted s' = true → unreferenced (set_life false false s')) ∧ calls s' = calls s ∧
  (state_ s' = state_ s ∨ state_ s' = Cancelled) ∧
  (∀ k t, tasks s !! k = Some t → cancel t = false → before (phase t) = false → tasks s' !! k = Some t) ∧
  (∀ k t, tasks s' !! k = Some t → ∃ t0, tasks s !! k = Some t0 ∧ phase t0 = phase t).
Proof.
  intros I Hl. pose proof (ti_live s I Hl) as Hd. unfold DeleteTimer.
  case_bool_decide as Hst; [exists false, s; split_and!; eauto; congruence|].
  destruct (Cancel_inv s I Hl) as (b & s1 & -> & I1 & Hi & Hd1 & Hc & _ & Hk & Hk' & Hb). simpl.
  destruct Hb as [(_ & _ & ?)|(-> & _ & Hs)]; [done|]. simpl.
  destruct (release_ok (set_life false (deleted s1) s1)) as (s2 & -> & I2 & E2 & E3 & E4);
    [apply erase_inv; congruence|].
  simpl. exists true, s2. split_and!; try done; try congruence.
  - intros Hd2. destruct (ti_deleted s2 I2 Hd2) as (? & ? & ?). split_and!; done.
  - by rewrite E4.
  - right. by rewrite E2.
  - intros k t H1 H2 H3. rewrite E3. eauto.
  - intros k t. rewrite E3. simpl. eauto.
Qed.

Lemma StartTimerTask_inv n k aborted err q s :
  TInv s → waits s !! n = Some q → tasks s !! k = None → (aborted = true → q ≠ seq_no_ s) →
  ∃ s', StartTimerTask n k aborted err s = Ret s' ∧ TInv s' ∧ calls s' = calls s ∧
    (state_ s' = state_ s) ∧
    (state_ s = Running → q = seq_no_ s →
      timer_task_ s' = Some k ∧ tasks s' !! k = Some (mkTT TWait false true err)) ∧
    (state_ s = Cancelled ∨ q ≠ seq_no_ s → tasks s' = tasks s).
Proof.
  intros I Hn Hk Ha. pose proof (ti_live s I (live_wait s n q Hn)) as Hd.
  unfold StartTimerTask. rewrite Hn. simpl.
  pose proof (list_elem_of_lookup_2 _ _ _ Hn) as Hq.
  pose proof (delete_Permutation _ _ _ Hn) as Hp.
  assert (Nd : NoDup (q :: delete n (waits s))) by (rewrite <- Hp; apply I).
  apply NoDup_cons in Nd as [Nq Nd].
  assert (Hin : ∀ x, x ∈ delete n (waits s) → x ∈ waits s ∧ x ≠ q)
    by (intros x Hx; rewrite Hp; split; [by right|congruence]).
  assert (Hrel : state_ s = Cancelled ∨ q ≠ seq_no_ s → TInv (set_waits (delete n (waits s)) s)).
  { intros Hc. destruct I; constructor; simpl; try assumption.
    - intros x Hx. apply ti_seq0, Hin, Hx.
    - intros k' t Hk'. eapply TaskOk_ext, ti_tasks0, Hk'; done.
    - intros Ht Hx. apply Hin in Hx as [Hx _]. by apply ti_owner_seq0.
    - intros Hr. destruct (ti_running0 Hr) as [?|Hx]; [by left|]. right.
      rewrite Hp in Hx. apply elem_of_cons in Hx as [Hx|Hx]; [|done].
      destruct Hc; congruence.
    - intros Hr Hx. apply Hin in Hx as [Hx _]. by apply ti_init0.
    - congruence. }
  case_bool_decide as Hst.
  { destruct (release_ok _ (Hrel (or_introl Hst))) as (s2 & -> & I2 & E2 & E3 & E4).
    exists s2. split_and!; try done; try congruence. }
  destruct aborted.
  { destruct (release_ok _ (Hrel (or_intror (Ha eq_refl)))) as (s2 & -> & I2 & E2 & E3 & E4).
    exists s2. split_and!; try done; try congruence. by specialize (Ha eq_refl). }
  destruct (Z.eqb_spec (seq_no_ s) q) as [E|E]; simpl.
  2: { destruct (release_ok _ (Hrel (or_intror (not_eq_sym E)))) as (s2 & -> & I2 & E2 & E3 & E4).
    exists s2. split_and!; try done; congruence. }
  assert (N : timer_task_ s = None).
  { destruct (timer_task_ s) eqn:Et; [|done]. destruct (ti_owner_seq s I); [by eexists|].
    by rewrite E. }
  rewrite bool_decide_eq_true_2 by done. simpl.
  eexists. split; [done|].
  assert (Hr : state_ s = Running).
  { destruct (state_ s) eqn:Es; try done.
    - destruct (ti_init s I Es). by rewrite E.
    - destruct (ti_fired s I Es). congruence. }
  split; [|split_and!; try done].
  - destruct I; constructor; simpl; try assumption; try congruence.
    + intros x Hx. apply ti_seq0, Hin, Hx.
    + intros k' t [[<- <-]|[Hne Hk']]%lookup_insert_Some; [by constructor|].
      destruct (ti_tasks0 k' t Hk'). constructor; simpl; try done. intros H1 H2.
      rewrite to_owned0 in N; done.
    + intros k' [= <-]. eexists. rewrite lookup_insert_eq. split; [done|]. simpl. tauto.
    + intros _. left. by eexists.
  - intros _ _. simpl. by rewrite lookup_insert_eq.
  - intros [?|?]; congruence.
Qed.

(** Replacing a task by one that is again in order. *)
Lemma task_update_inv k t t' s st :
  TInv s → tasks s !! k = Some t → phase t ≠ TEnd →
  TaskOk s k t' →
  (st = state_ s ∧ (timer_task_ s = Some k → cancel t' = false ∧
     before (phase t') = before (phase t) ∧ calling (phase t') = calling (phase t)) ∨
   st = Fired ∧ state_ s = Running ∧ timer_task_ s = Some k ∧ cancel t' = false ∧ calling (phase t') = true) →
  TInv (set_state st (timer_task_ s) (set_tasks (<[k := t']> (tasks s)) s)).
Proof.
  intros I Hk Hp Ho Hst.
  pose proof (ti_live s I (live_task s k t I Hk Hp)) as Hd.
  destruct I; constructor; simpl; try assumption; try congruence.
  - intros k' t1 [[<- <-]|[Hne Hk']]%lookup_insert_Some.
    + eapply TaskOk_ext, Ho; done.
    + eapply TaskOk_ext, ti_tasks0, Hk'; done.
  - intros k' E. destruct (ti_owner0 k' E) as (t1 & Hk1 & Hc & Hs).
    destruct (decide (k' = k)) as [->|Hne].
    + simplify_eq. exists t'. rewrite lookup_insert_eq. split; [done|].
      destruct Hst as [(-> & H)|(-> & Hr & _ & H)]; [|tauto].
      destruct (H E) as (-> & -> & ->). tauto.
    + exists t1. rewrite lookup_insert_ne by done. split; [done|]. split; [done|].
      destruct Hst as [(-> & _)|(_ & _ & H & _)]; [done|congruence].
  - destruct Hst as [(-> & _)|(-> & _)]; done.
  - destruct Hst as [(-> & _)|(-> & _ & -> & _)]; done.
  - destruct Hst as [(-> & _)|(-> & _)]; done.
Qed.

Lemma set_state_same s : set_state (state_ s) (timer_task_ s) s = s.
Proof. by destruct s. Qed.

(** A task moves on, its flags unchanged. *)
Lemma set_phase_inv k p s t :
  TInv s → tasks s !! k = Some t → phase t ≠ TEnd → cancel t = false ∨ p = TRun →
  before p = before (phase t) → calling p = calling (phase t) → (ref t = true) →
  TInv (set_phase k p s).
Proof.
  intros I Hk He Hc Hb Hl Hr. unfold set_phase. rewrite Hk.
  rewrite <- (set_state_same (set_tasks _ s)). simpl.
  pose proof (ti_tasks s I k t Hk) as [H1 H2 H3].
  apply (task_update_inv k t); [done..| |left; split; [done|]].
  - constructor; simpl; [|congruence|by rewrite Hb, Hl].
    intros E. destruct Hc as [?|Hc]; [congruence|]. left. done.
  - intros E. simpl. split; [|done].
    destruct (ti_owner s I k E) as (t0 & Hk0 & ? & _). simplify_eq. done.
Qed.

Lemma ref_live s k t : TInv s → tasks s !! k = Some t → phase t ≠ TEnd → ref t = true.
Proof.
  intros I Hk Hp. destruct (ref t) eqn:E; [done|].
  destruct Hp. apply (to_ref s k t); [by apply ti_tasks|done].
Qed.

Lemma Run_check_ok k s : TInv s → phase_is k TRun s → ∃ s', Run_check k s = Ret s' ∧ TInv s' ∧
  calls s' = calls s ∧ (timer_task_ s = Some k → state_ s' = Fired ∧ phase_is k TCall s') ∧
  (timer_task_ s ≠ Some k → state_ s' = state_ s ∧ ¬ phase_is k TCall s').
Proof.
  intros I (t & Hk & Hp). unfold Run_check. rewrite Hk.
  assert (Hne : phase t ≠ TEnd) by (by rewrite Hp).
  pose proof (ti_tasks s I k t Hk) as [H1 H2 H3].
  destruct (cancel t) eqn:Hc.
  - assert (Hn : timer_task_ s ≠ Some k).
    { intros E. destruct (ti_owner s I k E) as (t0 & Hk0 & ? & _). congruence. }
    destruct (release_ok (set_tasks (<[k := mkTT TEnd true false (ec t)]> (tasks s)) s))
      as (s2 & -> & I2 & E2 & E3 & E4).
    { rewrite <- (set_state_same (set_tasks _ s)). simpl.
      apply (task_update_inv k t); [done..| |left; done].
      constructor; simpl; try done. by right. }
    exists s2. split_and!; try done. intros _. split; [done|]. intros (t2 & Ht2 & Hp2).
    rewrite E3 in Ht2. simpl in Ht2. rewrite lookup_insert_eq in Ht2. by simplify_eq.
  - assert (Ho : timer_task_ s = Some k) by (apply H3; [done|by rewrite Hp]).
    assert (Hr : state_ s = Running).
    { destruct (ti_owner s I k Ho) as (t0 & Hk0 & _ & [[? _]|[_ Hx]]); [done|].
      simplify_eq. by rewrite Hp in Hx. }
    eexists. split; [done|]. unfold set_phase. rewrite Hk. simpl. split; [|split_and!; try done].
    + apply (task_update_inv k t); [done..| |right; by rewrite Hc].
      constructor; simpl; [congruence|by intros ?%H2; rewrite Hp in *|done].
    + intros _. split; [done|]. eexists. simpl. rewrite lookup_insert_eq. done.
Qed.

Lemma Run_handler_ok k r s : TInv s → phase_is k TCall s →
  TInv (Run_handler k r s) ∧ calls (Run_handler k r s) = calls s + 1.
Proof.
  intros I (t & Hk & Hp). unfold Run_handler. rewrite Hk. split; [|done].
  set (p := TAfter _).
  assert (Hc : cancel t = false).
  { destruct (cancel t) eqn:E; [|done].
    destruct (to_cancel _ _ _ (ti_tasks s I k t Hk) E) as [[? _]|[? _]]; congruence. }
  assert (I1 : TInv (set_phase k p s))
    by (apply (set_phase_inv k p s t); eauto; try (by rewrite Hp); eapply ref_live; eauto; by rewrite Hp).
  destruct I1; constructor; simpl; try assumption.
  intros k' t' Hk'. eapply TaskOk_ext, ti_tasks0, Hk'; done.
Qed.

Lemma not_cancelled s k t : TInv s → tasks s !! k = Some t → phase t ≠ TRun → phase t ≠ TEnd →
  cancel t = false.
Proof.
  intros I Hk H1 H2. destruct (cancel t) eqn:E; [|done].
  destruct (to_cancel _ _ _ (ti_tasks s I k t Hk) E) as [[? _]|[? _]]; done.
Qed.

Lemma Run_after_ok k r s : TInv s → phase_is k (TAfter r) s → ∃ s', Run_after k r s = Ret s' ∧
  TInv s' ∧ calls s' = calls s ∧ state_ s = Fired ∧ state_ s' = Init.
Proof.
  intros I (t & Hk & Hp). unfold Run_after, OnTaskCancel. rewrite Hk.
  rewrite (ref_live s k t) by (done || by rewrite Hp). simpl.
  assert (Hc : cancel t = false) by (eapply not_cancelled; eauto; by rewrite Hp).
  pose proof (ti_live s I (live_task s k t I Hk ltac:(by rewrite Hp))) as Hd.
  assert (Ho : timer_task_ s = Some k)
    by (apply (to_owned s k t); [by apply ti_tasks|done|by rewrite Hp]).
  rewrite bool_decide_eq_true_2 by (by left). simpl.
  assert (Hf : state_ s = Fired).
  { destruct (ti_owner s I k Ho) as (t0 & Hk0 & _ & [[_ Hx]|[? _]]); [|done].
    simplify_eq. by rewrite Hp in Hx. }
  unfold set_phase. simpl. rewrite Hk. eexists. split; [done|]. split; [|done].
  pose proof (ti_owner_seq s I ltac:(by eexists)) as Hq.
  destruct I; constructor; simpl; try assumption; try done; try congruence; try (by intros [? ?]).
  intros k' t' [[<- <-]|[Hne Hk']]%lookup_insert_Some.
  - constructor; simpl; try done; [congruence|]. intros Hx.
    destruct (ti_tasks0 k t Hk). by specialize (to_ref0 Hx); rewrite Hp in *.
  - destruct (ti_tasks0 k' t' Hk'). constructor; simpl; try done. intros ? ?.
    rewrite to_owned0 in Ho; congruence.
Qed.

Lemma Run_finish_ok k r fail s : TInv s → phase_is k (TRestart r) s → seq_no_ s + 1 < 2 ^ 32 →
  ∃ s', Run_finish k r fail s = Ret s' ∧ TInv s' ∧ calls s' = calls s ∧
    (r = false → (state_ s' = state_ s ∨ state_ s' = Cancelled)).
Proof.
  intros I (t & Hk & Hp) Hq. unfold Run_finish.
  assert (Hne : phase t ≠ TEnd) by (by rewrite Hp).
  assert (Hc : cancel t = false) by (eapply not_cancelled; eauto; by rewrite Hp).
  pose proof (live_task s k t I Hk Hne) as Hl.
  assert (F : ∀ s1, TInv s1 → tasks s1 !! k = Some t → calls s1 = calls s →
    TInv (set_phase k TEnd s1) ∧ calls (set_phase k TEnd s1) = calls s ∧
    state_ (set_phase k TEnd s1) = state_ s1).
  { intros s1 I1 Hk1 Hcl. split; [|unfold set_phase; by rewrite Hk1].
    apply (set_phase_inv k TEnd s1 t); eauto; try (by rewrite Hp). by eapply ref_live. }
  destruct r.
  - simpl. eexists. split; [done|].
    destruct (F (Start (time_ s) (handler_ s) (error_handler_ s) fail s).2) as (F1 & F2 & F3);
      [by apply Start_inv; [|apply ti_live|]| | |done]; unfold Start;
      repeat case_match; done.
  - destruct (delete_on_completion_ s).
    + destruct (DeleteTimer_ok s I Hl) as (b & s1 & -> & I1 & _ & E1 & E2 & E3 & _). simpl.
      eexists. split; [done|].
      destruct (F s1 I1) as (F1 & F2 & F3); [by apply E3; rewrite ?Hp|done|].
      rewrite F3. done.
    + simpl. eexists. split; [done|]. destruct (F s I Hk eq_refl) as (F1 & F2 & F3). rewrite F3. auto.
Qed.

Lemma task_exit_ok k s : TInv s → phase_is k TEnd s → ∃ s', task_exit k s = Ret s' ∧
  TInv s' ∧ calls s' = calls s ∧ state_ s' = state_ s ∧ tasks s' = delete k (tasks s).
Proof.
  intros I (t & Hk & Hp). unfold task_exit. rewrite Hk.
  assert (E1 : (if cancel t then OnTaskCancel k s else Ret s) = Ret s).
  { destruct (cancel t) eqn:Hc; [|done]. unfold OnTaskCancel. rewrite Hk.
    destruct (to_cancel _ _ _ (ti_tasks s I k t Hk) Hc) as [[? _]|[_ ->]]; [congruence|done]. }
  rewrite E1. simpl. clear E1.
  assert (I1 : TInv (set_tasks (delete k (tasks s)) s)).
  { destruct I; constructor; simpl; try assumption.
    - intros k' t' [_ Hk']%lookup_delete_Some. eapply TaskOk_ext, ti_tasks0, Hk'; done.
    - intros k' E. destruct (ti_owner0 k' E) as (t1 & Hk1 & ? & Hs). exists t1.
      rewrite lookup_delete_ne; [done|]. intros ->. simplify_eq. rewrite Hp in Hs.
      by destruct Hs as [[_ ?]|[_ ?]].
    - intros Hd. destruct (ti_deleted0 Hd) as (? & ? & Hr). split_and!; [done..|].
      simpl. intros k' t' [_ Hk']%lookup_delete_Some. eauto. }
  destruct (ref t).
  - destruct (release_ok _ I1) as (s2 & -> & I2 & E2 & E3 & E4). exists s2. split_and!; done.
  - eexists. split; [done|]. split; [done|]. done.
Qed.

(** Every step keeps the invariant and fails no assertion. *)
Lemma step_ok s l o : TInv s → step s l o → ∃ s', o = Ret s' ∧ TInv s'.
Proof.
  intros I H. destruct H as [s time h eh fail Hi Hs|s time Hi|s Hi|s Hi|s Hi|s n k ab er q Hn Hk Ha
    |s k (t & Hk & Hp)|s k Hp|s k r Hp|s k r Hp|s k r fail Hp Hs|s k Hp].
  - eexists. split; [done|]. apply Start_inv; [done| |done]. by apply ti_live, live_in_set.
  - eexists. split; [done|]. by apply Reschedule_inv.
  - destruct (Cancel_inv s I (live_in_set s Hi)) as (b & s' & E & I' & _). unfold after. rewrite E.
    simpl. eauto.
  - destruct (DeleteTimer_ok s I (live_in_set s Hi)) as (b & s' & E & I' & _). unfold after.
    rewrite E. simpl. eauto.
  - destruct (release_ok (set_life false (deleted s) s)) as (s' & E & I' & _); [|by eauto].
    apply erase_inv; [done|]. by apply ti_live, live_in_set.
  - destruct (StartTimerTask_inv n k ab er q s I Hn Hk Ha) as (s' & E & I' & _). eauto.
  - eexists. split; [done|]. apply (set_phase_inv k TRun s t); eauto; try (by rewrite Hp).
    eapply ref_live; eauto. by rewrite Hp.
  - destruct (Run_check_ok k s I Hp) as (s' & E & I' & _). eauto.
  - eexists. split; [done|]. by apply Run_handler_ok.
  - destruct (Run_after_ok k r s I Hp) as (s' & E & I' & _). eauto.
  - destruct (Run_finish_ok k r fail s I Hp Hs) as (s' & E & I' & _). eauto.
  - destruct (task_exit_ok k s I Hp) as (s' & E & I' & _). eauto.
Qed.

Lemma reachable_inv d s : reachable d s → TInv s.
Proof.
  induction 1 as [|s l s' _ IH Hs]; [apply CreateTimer_inv|].
  destruct (step_ok s l _ IH Hs) as (s1 & [= <-] & ?). done.
Qed.

(** ** Theorems *)

(** No assertion of the timer fails in any interleaving of its users, asio and
    its tasks: [StartTimerTask] finds no earlier task, [OnTaskCancel] finds its own
    task or none, [TaskScheduler::Cancel] finds the task, and the destructor finds
    the timer neither running nor fired. *)
Theorem timer_never_aborts d s l o : reachable d s → step s l o → ∃ s', o = Ret s'.
Proof. intros Hr Hs. destruct (step_ok s l o (reachable_inv d s Hr) Hs) as (s' & -> & _). eauto. Qed.

Lemma calling_owner s k t : TInv s → tasks s !! k = Some t → calling (phase t) = true →
  timer_task_ s = Some k ∧ state_ s = Fired.
Proof.
  intros I Hk Hp.
  assert (Ho : timer_task_ s = Some k).
  { apply (to_owned s k t); [by apply ti_tasks| |by rewrite Hp, orb_true_r].
    eapply not_cancelled; eauto; by intros E; rewrite E in Hp. }
  split; [done|]. destruct (ti_owner s I k Ho) as (t0 & Hk0 & _ & [[_ Hx]|[? _]]); [|done].
  simplify_eq. by destruct (phase t).
Qed.

(** The timer is in state [Fired] exactly while a task is in its handler, and
    never two tasks are. *)
Theorem fired_iff_in_handler d s : reachable d s →
  (state_ s = Fired ↔ ∃ k t, tasks s !! k = Some t ∧ calling (phase t) = true) ∧
  (∀ k1 k2 t1 t2, tasks s !! k1 = Some t1 → tasks s !! k2 = Some t2 →
     calling (phase t1) = true → calling (phase t2) = true → k1 = k2).
Proof.
  intros I%reachable_inv. split; [split|].
  - intros Hf. destruct (ti_fired s I Hf) as [k Hk].
    destruct (ti_owner s I k Hk) as (t & Ht & _ & [[? _]|[_ ?]]); [congruence|eauto].
  - intros (k & t & Hk & Hp). by apply (calling_owner s k t).
  - intros k1 k2 t1 t2 H1 H2 P1 P2.
    destruct (calling_owner s k1 t1 I H1 P1), (calling_owner s k2 t2 I H2 P2). congruence.
Qed.

(** After its destructor has run nothing touches the timer: the only steps left
    are exits of cancelled tasks, which have dropped their reference. *)
Theorem no_use_after_delete d s l o : reachable d s → deleted s = true → step s l o →
  ∃ k t, l = LExit k ∧ tasks s !! k = Some t ∧ ref t = false ∧ o = Ret (set_tasks (delete k (tasks s)) s).
Proof.
  intros I%reachable_inv Hd Hs. pose proof (ti_deleted s I Hd) as Hu.
  assert (P : ∀ k p, phase_is k p s → p = TEnd).
  { intros k p (t & Hk & <-). destruct (decide (phase t = TEnd)) as [?|N]; [done|].
    by destruct (live_task s k t I Hk N). }
  assert (Hi : in_set s ≠ true) by (intros E; by destruct (live_in_set s E)).
  destruct Hs as [| | | | |s n k ab er q Hn _ _|s k Hp|s k Hp|s k r Hp|s k r Hp|s k r fail Hp _|s k Hp];
    try done; try (by apply P in Hp).
  - by destruct (live_wait s n q Hn).
  - destruct Hp as (t & Hk & Hp). destruct Hu as (_ & _ & Hr). specialize (Hr k t Hk).
    exists k, t. split_and!; [done..|]. unfold task_exit, OnTaskCancel. rewrite Hk, Hr.
    by destruct (cancel t).
Qed.

(** Executions, with their labels. *)
Inductive steps : Timer → list label → Timer → Prop :=
| steps_nil s : steps s [] s
| steps_cons s l s1 ls s2 : step s l (Ret s1) → steps s1 ls s2 → steps s (l :: ls) s2.

(** Cancelled, and no task about to restart the timer. *)
Definition quiet (s : Timer) : Prop :=
  state_ s = Cancelled ∧ ∀ k, ¬ phase_is k (TRestart true) s.

Definition is_start (l : label) : bool := match l with LStart _ _ _ _ => true | _ => false end.

Lemma cancelled_phases s k p : TInv s → state_ s = Cancelled → phase_is k p s →
  calling p = false ∧ p ≠ TWait.
Proof.
  intros I Hc (t & Hk & <-). destruct (calling (phase t)) eqn:E.
  { destruct (calling_owner s k t I Hk E). congruence. }
  split; [done|]. intros Ew.
  pose proof (idle_no_task s I ltac:(congruence) ltac:(congruence)) as N.
  rewrite (to_owned s k t) in N; [done|by apply ti_tasks| |by rewrite Ew].
  eapply not_cancelled; eauto; by rewrite Ew.
Qed.

Lemma phase_is_insert s k k' t p : phase_is k' p (set_tasks (<[k := t]> (tasks s)) s) →
  k' = k ∧ p = phase t ∨ phase_is k' p s.
Proof.
  intros (t' & Hk & <-). simpl in Hk. apply lookup_insert_Some in Hk as [[<- <-]|[_ Hk]]; [by left|].
  right. by exists t'.
Qed.

Lemma quiet_phases s s' : state_ s' = Cancelled →
  (∀ k t, tasks s' !! k = Some t → ∃ t0, tasks s !! k = Some t0 ∧ phase t0 = phase t) →
  quiet s → quiet s'.
Proof.
  intros Hs Hp [_ Hq]. split; [done|]. intros k (t & Hk & E).
  destruct (Hp k t Hk) as (t0 & Hk0 & E0). apply (Hq k). exists t0. split; congruence.
Qed.

Lemma quiet_end s s' k t : state_ s' = Cancelled → phase t = TEnd →
  tasks s' = <[k := t]> (tasks s) → quiet s → quiet s'.
Proof.
  intros Hs Ht E [_ Hq]. split; [done|]. intros k' (t' & Hk & Hp). rewrite E in Hk.
  apply lookup_insert_Some in Hk as [[<- <-]|[_ Hk]]; [congruence|]. apply (Hq k'). by exists t'.
Qed.

(** A quiet timer stays quiet until the next [Start]. *)
Lemma quiet_step s l s' : TInv s → quiet s → step s l (Ret s') → is_start l = false →
  quiet s' ∧ calls s' = calls s.
Proof.
  intros I Hq Hs Hl. pose proof Hq as [Hc Hn].
  assert (P : ∀ k p, phase_is k p s → calling p = false ∧ p ≠ TWait)
    by (intros; by eapply cancelled_phases).
  inversion Hs as [| |? Hi|? Hi|? Hi|? n k ab er q Hw Hk Ha|? k Hp|? k Hp|? k r Hp|? k r Hp
    |? k r fail Hp _|? k Hp]; subst; try done.
  - unfold Reschedule. rewrite bool_decide_eq_false_2 by congruence. done.
  - destruct (Cancel_inv s I (live_in_set s Hi)) as (b & s1 & E & _ & _ & _ & Ec & _ & _ & Ep & Hb).
    unfold after in *. rewrite E in *. simplify_eq/=. split; [|done].
    destruct Hb as [(_ & _ & ?)|(_ & _ & ?)]; [congruence|]. by eapply quiet_phases.
  - destruct (DeleteTimer_ok s I (live_in_set s Hi)) as (b & s1 & E & _ & _ & Ec & Es & _ & Ep).
    unfold after in *. rewrite E in *. simplify_eq/=. split; [|done].
    eapply quiet_phases; [|done..]. destruct Es; congruence.
  - destruct (release_ok (set_life false (deleted s) s)) as (s1 & E & _ & Es & Et & Ec);
      [apply erase_inv; [done|]; by apply ti_live, live_in_set|].
    rewrite E in *. simplify_eq/=. split; [|done].
    eapply quiet_phases; [congruence| |done]. rewrite Et. eauto.
  - destruct (StartTimerTask_inv n k ab er q s I Hw Hk Ha) as (s1 & E & _ & Ec & Es & _ & Et).
    rewrite E in *. simplify_eq/=. split; [|done].
    eapply quiet_phases; [congruence| |done]. rewrite (Et (or_introl Hc)). eauto.
  - by apply P in Hp as [_ ?].
  - destruct (Run_check_ok k s I Hp) as (s1 & E & _ & Ec & _ & Es).
    rewrite E in *. simplify_eq/=. split; [|done].
    rewrite (idle_no_task s I) in Es by congruence. destruct (Es ltac:(done)) as [Es1 _].
    revert E. unfold Run_check. destruct Hp as (t & Hk & Hp). rewrite Hk.
    destruct (cancel t) eqn:Hct.
    + unfold release. destruct (_ =? _)%nat; simpl.
      * case_bool_decide; simpl; [done|]. intros [= <-]. by apply (quiet_end s _ k (mkTT TEnd true false (ec t))).
      * intros [= <-]. by apply (quiet_end s _ k (mkTT TEnd true false (ec t))).
    + intros [= <-]. simpl in *. congruence.
  - by apply P in Hp as [? _].
  - by apply P in Hp as [? _].
  - destruct r; [by destruct (Hn k)|]. destruct Hp as (t & Hk & Hp).
    unfold Run_finish in *.
    assert (F : ∀ s1, quiet s1 → quiet (set_phase k TEnd s1) ∧ calls (set_phase k TEnd s1) = calls s1).
    { intros s1 Hq1. unfold set_phase. destruct (tasks s1 !! k) as [t1|]; [|done].
      split; [|done]. apply (quiet_end s1 _ k (mkTT TEnd (cancel t1) (ref t1) (ec t1))); try done.
      apply Hq1. }
    destruct (delete_on_completion_ s).
    + destruct (DeleteTimer_ok s I) as (b & s1 & E & _ & _ & Ec & Es & _ & Ep);
        [by eapply live_task; eauto; rewrite Hp|].
      rewrite E in *. simplify_eq/=. rewrite <- Ec. apply F.
      eapply quiet_phases; [|done..]. destruct Es; congruence.
    + simplify_eq/=. by apply F.
  - destruct (task_exit_ok k s I Hp) as (s1 & E & _ & Ec & Es & Et).
    rewrite E in *. simplify_eq/=. split; [|done].
    eapply quiet_phases; [congruence| |done]. rewrite Et.
    intros k' t' [_ Hk']%lookup_delete_Some. eauto.
Qed.

Lemma quiet_steps s ls s' : steps s ls s' → TInv s → quiet s → forallb (negb ∘ is_start) ls = true →
  quiet s' ∧ calls s' = calls s.
Proof.
  induction 1 as [|s l s1 ls s2 Hs _ IH]; [done|]. simpl. intros I Hq [Hl Hls]%andb_true_iff.
  destruct (quiet_step s l s1 I Hq Hs) as [Hq1 E1]; [by apply negb_true_iff|].
  destruct (step_ok s l _ I Hs) as (? & [= <-] & I1).
  destruct (IH I1 Hq1 Hls) as [? ?]. split; [done|congruence].
Qed.

(** C33: [Cancel] is final.  When it returns true and no task of the timer is between
    its handler and the restart, the handler is not called again, whatever waits
    and tasks were pending, until the next [Start]. *)
Theorem cancel_is_final d s s1 ls s2 : reachable d s → in_set s = true →
  Cancel s = Ret (true, s1) → (∀ k, ¬ phase_is k (TRestart true) s) →
  steps s1 ls s2 → forallb (negb ∘ is_start) ls = true →
  state_ s2 = Cancelled ∧ calls s2 = calls s.
Proof.
  intros I%reachable_inv Hi E Hn Hs Hl.
  destruct (Cancel_inv s I (live_in_set s Hi)) as (b & s1' & E' & I1 & _ & _ & Ec & _ & _ & Ep & Hb).
  rewrite E in E'. injection E' as <- <-. destruct Hb as [(? & _)|(_ & _ & Hs1)]; [done|].
  destruct (quiet_steps s1 ls s2 Hs I1) as [[? _] ?]; [|done|split; [done|congruence]].
  split; [done|]. intros k (t & Hk & Hp). destruct (Ep k t Hk) as (t0 & Hk0 & Hp0).
  apply (Hn k). exists t0. split; congruence.
Qed.

Lemma phase_is_set k p p' s : phase_is k p s → phase_is k p' (set_phase k p' s).
Proof.
  intros (t & Hk & _). unfold set_phase. rewrite Hk. eexists. simpl. rewrite lookup_insert_eq. done.
Qed.

(** The labels of asio and of the tasks. *)
Definition internal (l : label) : bool :=
  match l with LExpire _ _ _ _ | LRun _ | LCheck _ | LHandler _ _ => true | _ => false end.

Lemma owner_fires s k : TInv s → timer_task_ s = Some k → state_ s = Running →
  ∃ ls s', steps s ls s' ∧ forallb internal ls = true ∧ state_ s' = Fired ∧ calls s' = calls s + 1.
Proof.
  intros I Ho Hr.
  assert (F : ∀ s1, TInv s1 → timer_task_ s1 = Some k → phase_is k TRun s1 → calls s1 = calls s →
    ∃ ls s', steps s1 ls s' ∧ forallb internal ls = true ∧ state_ s' = Fired ∧ calls s' = calls s + 1).
  { intros s1 I1 Ho1 Hp Hc. destruct (Run_check_ok k s1 I1 Hp) as (s2 & E2 & I2 & Ec & Hf & _).
    destruct (Hf Ho1) as [Hf2 Hp2]. destruct (Run_handler_ok k false s2 I2 Hp2) as [_ Ec3].
    exists [LCheck k; LHandler k false], (Run_handler k false s2). split_and!; [|done| |congruence].
    - econstructor; [rewrite <- E2; by constructor|]. econstructor; [by constructor|]. constructor.
    - destruct Hp2 as (t & Hk & _). unfold Run_handler, set_phase. by rewrite Hk. }
  destruct (ti_owner s I k Ho) as (t & Hk & Hc & [[_ Hb]|[? _]]); [|congruence].
  destruct (phase t) eqn:Ep; simpl in Hb; try done.
  - assert (Hp : phase_is k TWait s) by (by exists t).
    destruct (step_ok s (LRun k) _ I (step_run s k Hp)) as (s1 & [= <-] & I1).
    destruct (F _ I1) as (ls & s' & Hs & Hi & ?); [|by eapply phase_is_set| |];
      [by unfold set_phase; rewrite Hk..|].
    exists (LRun k :: ls), s'. split_and!; [|done..|tauto|tauto]. econstructor; [by constructor|done].
  - apply F; try done. by exists t.
Qed.

(** C34: a running timer is not lost.  In every reachable state in which the timer is
    [Running], the wait of its last [Start] is pending or its task is in the
    scheduler, and steps of asio and of that task alone lead to the handler. *)
Theorem running_timer_fires d s : reachable d s → state_ s = Running →
  ∃ ls s', steps s ls s' ∧ forallb internal ls = true ∧ state_ s' = Fired ∧ calls s' = calls s + 1.
Proof.
  intros I%reachable_inv Hr. destruct (ti_running s I Hr) as [[k Hk]|Hq]; [by eapply owner_fires|].
  apply list_elem_of_lookup in Hq as [n Hn].
  set (k := fresh (dom (tasks s))).
  assert (Hk : tasks s !! k = None) by (apply not_elem_of_dom, is_fresh).
  destruct (StartTimerTask_inv n k false false _ s I Hn Hk) as (s1 & E & I1 & Ec & Es & Ht & _); [done|].
  destruct (Ht Hr eq_refl) as [Ho _].
  destruct (owner_fires s1 k I1 Ho) as (ls & s' & Hs & Hi & Hf & Hc); [congruence|].
  exists (LExpire n k false false :: ls), s'. split_and!; [|done|done|congruence].
  econstructor; [|done]. rewrite <- E. by eapply step_expire.
Qed.

(** ** A concrete execution *)

Definition value (o : outcome Timer) : Timer :=
  match o with Ret s => s | Abort => CreateTimer false end.

Definition ex1 : Timer := (Start 10 (Some 1) None false (CreateTimer false)).2.
Definition ex2 : Timer := value (StartTimerTask 0 0 false false ex1).
Definition ex3 : Timer := value (Run_check 0 (set_phase 0 TRun ex2)).
Definition ex4 : Timer := value (Run_after 0 true (Run_handler 0 true ex3)).
Definition ex5 : Timer := value (after (DeleteTimer ex4)).
Definition ex6 : Timer := value (Run_finish 0 true false ex5).

Lemma ex1_reachable : reachable false ex1.
Proof. eapply reach_step; [constructor|]. apply (step_start _ 10 (Some 1) None false); done. Qed.
Lemma ex2_reachable : reachable false ex2.
Proof. eapply reach_step; [exact ex1_reachable|]. by apply (step_expire ex1 0 0 false false 1). Qed.
Lemma ex3_reachable : reachable false ex3.
Proof.
  eapply (reach_step _ (set_phase 0 TRun ex2)).
  - eapply reach_step; [exact ex2_reachable|]. apply (step_run ex2 0). by eexists.
  - apply (step_check (set_phase 0 TRun ex2) 0). by eexists.
Qed.
Lemma ex4_reachable : reachable false ex4.
Proof.
  eapply (reach_step _ (Run_handler 0 true ex3)).
  - eapply reach_step; [exact ex3_reachable|]. apply (step_handler ex3 0 true). by eexists.
  - apply (step_after (Run_handler 0 true ex3) 0 true). by eexists.
Qed.
Lemma ex5_step : step ex4 LDelete (Ret ex5).
Proof. by apply (step_delete ex4). Qed.
Lemma ex6_step : step ex5 (LFinish 0 false) (Ret ex6).
Proof. apply (step_finish ex5 0 true false); [by eexists|done]. Qed.
Lemma ex6_reachable : reachable false ex6.
Proof. eapply reach_step; [eapply reach_step; [exact ex4_reachable|exact ex5_step]|exact ex6_step]. Qed.

(** A deleted timer runs again.  [DeleteTimer] between the handler's return and the
    restart cancels the timer, returns true and drops the reference of the manager;
    the restart then starts the timer again, and its handler is called. *)
Lemma deleted_timer_runs_again :
  DeleteTimer ex4 = Ret (true, ex5) ∧ state_ ex5 = Cancelled ∧ in_set ex5 = false ∧
  step ex5 (LFinish 0 false) (Ret ex6) ∧
  ∃ ls s', steps ex6 ls s' ∧ forallb internal ls = true ∧ state_ s' = Fired ∧ calls s' = calls ex5 + 1.
Proof.
  split_and!; [done..|exact ex6_step|].
  pose proof (reachable_inv _ _ ex6_reachable) as I.
  destruct (StartTimerTask_inv 0 1 false false 2 ex6 I) as (s1 & E & I1 & Ec & Es & Ht & _); [done..|].
  destruct (Ht eq_refl eq_refl) as [Ho _].
  destruct (owner_fires s1 1 I1 Ho) as (ls & s' & Hs & Hi & Hf & Hc); [by rewrite Es|].
  exists (LExpire 0 1 false false :: ls), s'. split_and!; [|done|done|].
  - econstructor; [|done]. rewrite <- E. by apply (step_expire ex6 0 1 false false 2).
  - rewrite Hc, Ec. done.
Qed.

Lemma timer_never_aborts_witness : ∃ s', StartTimerTask 0 0 false false ex1 = Ret s'.
Proof.
  apply (timer_never_aborts false ex1 (LExpire 0 0 false false)); [exact ex1_reachable|].
  by apply (step_expire ex1 0 0 false false 1).
Defined.

Lemma fired_iff_in_handler_witness :
  state_ ex3 = Fired ↔ ∃ k t, tasks ex3 !! k = Some t ∧ calling (phase t) = true.
Proof. apply (fired_iff_in_handler false ex3 ex3_reachable). Defined.

Lemma running_timer_fires_witness : ∃ ls s',
  steps ex1 ls s' ∧ forallb internal ls = true ∧ state_ s' = Fired ∧ calls s' = 1.
Proof. apply (running_timer_fires false ex1 ex1_reachable). reflexivity. Defined.

(** Cancelled with its task already started: the task finds itself cancelled. *)
Definition ex_c1 : Timer := value (after (Cancel (set_phase 0 TRun ex2))).
Definition ex_c2 : Timer := value (Run_check 0 ex_c1).
Definition ex_c3 : Timer := value (release (set_life false false ex_c2)).

Lemma ex_run_reachable : reachable false (set_phase 0 TRun ex2).
Proof. eapply reach_step; [exact ex2_reachable|]. apply (step_run ex2 0). by eexists. Qed.

Lemma ex_c2_steps : steps ex_c1 [LCheck 0] ex_c2.
Proof.
  econstructor; [|constructor]. apply (step_check ex_c1 0). by eexists.
Qed.

Lemma cancel_is_final_witness : state_ ex_c2 = Cancelled ∧ calls ex_c2 = 0.
Proof.
  apply (cancel_is_final false (set_phase 0 TRun ex2) ex_c1 [LCheck 0%nat] ex_c2);
    [exact ex_run_reachable|reflexivity|reflexivity| |exact ex_c2_steps|reflexivity].
  intros k (t & Hk & Hp).
  assert (Hk' : <[0%nat := mkTT TRun false true false]> (∅ : gmap nat TimerTask) !! k = Some t) by exact Hk.
  apply lookup_insert_Some in Hk' as [[_ <-]|[_ Hk']]; [discriminate|by rewrite lookup_empty in Hk'].
Defined.

Lemma ex_c3_reachable : reachable false ex_c3.
Proof.
  eapply (reach_step _ ex_c2); [eapply (reach_step _ ex_c1); [eapply (reach_step _ (set_phase 0 TRun ex2));
    [exact ex_run_reachable|by apply (step_cancel (set_phase 0 TRun ex2))]|]|].
  - apply (step_check ex_c1 0). by eexists.
  - by apply (step_erase ex_c2).
Qed.

Lemma no_use_after_delete_witness : deleted ex_c3 = true ∧
  ∃ k t, LExit 0 = LExit k ∧ tasks ex_c3 !! k = Some t ∧ ref t = false ∧
    task_exit 0 ex_c3 = Ret (set_tasks (delete k (tasks ex_c3)) ex_c3).
Proof.
  split; [reflexivity|].
  apply (no_use_after_delete false ex_c3 (LExit 0)); [exact ex_c3_reachable|reflexivity|].
  apply (step_exit ex_c3 0). by eexists.
Defined.

End TM.
