(* ===== verification/Patricia.v ===== *)
(** * The Patricia tree: src/base/patricia.h

    An intrusive tree over keys that are bit strings.  The nodes live in a heap:
    the [Node] inside every data object and the internal nodes the tree allocates.
    [left_] and [right_] point to children; a node without right child keeps in
    [right_] a thread to the nearest ancestor of whose left subtree it is the
    rightmost node, which is recognised by its smaller [bitpos_].

    The key traits [K] are a parameter of the template and of the model.  Reading
    the data of an internal node, following a pointer outside the heap and running
    out of fuel are [Abort]: the theorems show that none happens. *)

From stdpp Require Import gmap.
From S2P Require Import Prelude.
Open Scope nat_scope.

(** The template parameter [K]: the length of the key of a data object in bits, and
    the bytes of the key (as bit patterns). *)
Class KeyTraits (D : Type) := {
  BitLength : D → nat;
  ByteValue : D → nat → Z;
  ByteValue_range : ∀ d i, (0 ≤ ByteValue d i < 256)%Z;
}.

Abbreviation loc := positive.

Module PT.
Section Tree.
Context {D : Type} `{!KeyTraits D}.

(** A [Node]; [data] is the object it is a member of ([None] for a [new Node]). *)
Record Node := mkNode {
  left_ : option loc;
  right_ : option loc;
  intnode_ : bool;
  bitpos_ : nat;
  data : option D;
}.

(** [Tree]: the members of [TreeBase], and the heap of nodes. *)
Record Tree := mkTree {
  heap : gmap loc Node;
  root_ : option loc;
  nodes_ : Z;
  int_nodes_ : Z;
}.

(** ** Memory *)

Definition load (h : gmap loc Node) (x : loc) : outcome Node :=
  match h !! x with Some n => Ret n | None => Abort end.

Definition NodeToData (n : Node) : outcome D :=
  match data n with Some d => Ret d | None => Abort end.

Definition store (x : loc) (f : Node → Node) (h : gmap loc Node) : outcome (gmap loc Node) :=
  n ← load h x; Ret (<[x := f n]> h).

Definition set_left (p : option loc) (n : Node) : Node :=
  mkNode p (right_ n) (intnode_ n) (bitpos_ n) (data n).
Definition set_right (p : option loc) (n : Node) : Node :=
  mkNode (left_ n) p (intnode_ n) (bitpos_ n) (data n).
Definition set_bitpos (b : nat) (n : Node) : Node :=
  mkNode (left_ n) (right_ n) (intnode_ n) b (data n).

(** ** Keys *)

Definition GetBit (d : D) (pos : nat) : bool :=
  if BitLength d <=? pos then false
  else negb (Z.land (ByteValue d (Nat.shiftr pos 3)) (Z.shiftr 128 (Z.of_nat (Nat.land pos 7))) =? 0)%Z.

(** The loop over equal bytes, from [pos], at most [n] of them. *)
Fixpoint skip_bytes (a b : D) (n pos : nat) : nat :=
  match n with
  | O => pos
  | S n => if (ByteValue a pos =? ByteValue b pos)%Z then skip_bytes a b n (S pos) else pos
  end.

(** The loop over equal bits. *)
Fixpoint skip_bits (a b : D) (n pos : nat) : nat :=
  match n with
  | O => pos
  | S n => if Bool.eqb (GetBit a pos) (GetBit b pos) then skip_bits a b n (S pos) else pos
  end.

(** [Compare(node_left, node_right)] *)
Definition Compare (a b : D) : bool :=
  if negb (BitLength a =? BitLength b) then false
  else
    let byteLen := Nat.shiftr (BitLength a) 3 in
    let pos := skip_bytes a b byteLen 0 in
    if pos <? byteLen then false
    else
      let pos := Nat.shiftl pos 3 in
      negb (skip_bits a b (BitLength a - pos) pos <? BitLength a).

(** [Compare(node_left, node_right, start, pos)]: the result and [pos]. *)
Definition ComparePos (a b : D) (start : nat) : bool * nat :=
  let '(shortLen, isEqual) :=
    if BitLength a <? BitLength b then (BitLength a, false)
    else (BitLength b, BitLength a =? BitLength b) in
  let byteLen := Nat.shiftr shortLen 3 in
  let pos := skip_bytes a b (byteLen - Nat.shiftr start 3) (Nat.shiftr start 3) in
  let pos := Nat.shiftl pos 3 in
  let pos := if pos <? start then start else pos in
  let pos := skip_bits a b (shortLen - pos) pos in
  if pos <? shortLen then (false, pos) else (isEqual, pos).

(** ** Walking the tree *)

(** [x = GetBit(node, x->bitpos_) ? x->right_ : x->left_] *)
Definition child (d : D) (n : Node) : option loc :=
  if GetBit d (bitpos_ n) then right_ n else left_ n.

(** [if (x && (p->bitpos_ >= x->bitpos_))]: [x] is a thread of [p]. *)
Definition is_thread (h : gmap loc Node) (p : Node) (x : loc) : outcome bool :=
  n ← load h x; Ret (bitpos_ n <=? bitpos_ p).

(** Enough steps for every loop: no loop visits a node more than twice. *)
Definition fuel (h : gmap loc Node) : nat := 2 * size h + 2.

Definition RewireRightMost_loop (h : gmap loc Node) : nat → loc → outcome loc :=
  fix go f x :=
    n ← load h x;
    match right_ n with
    | None => Ret x
    | Some y =>
        m ← load h y;
        if bitpos_ n <? bitpos_ m
        then match f with O => Abort | S f => go f y end
        else Ret x
    end.

(** [RewireRightMost]: the old thread, and the heap. *)
Definition RewireRightMost (p x : option loc) (h : gmap loc Node)
  : outcome (option loc * gmap loc Node) :=
  match x with
  | None => Ret (None, h)
  | Some x =>
      x ← RewireRightMost_loop h (fuel h) x;
      n ← load h x;
      h ← store x (set_right p) h;
      Ret (right_ n, h)
  end.

(** ** Insertion *)

(** The first loop of [InsertNode]: [p] and [x]. *)
Definition Insert_descend (d : D) (h : gmap loc Node)
  : nat → option loc → option loc → outcome (option loc * option loc) :=
  fix go f p x :=
    match x with
    | None => Ret (p, None)
    | Some xl =>
        n ← load h xl;
        if (BitLength d <=? bitpos_ n) && negb (intnode_ n) then Ret (p, x)
        else
          match child d n with
          | None => Ret (x, None)
          | Some y =>
              thread ← is_thread h n y;
              if (thread : bool) then Ret (x, None)
              else match f with O => Abort | S f => go f x (Some y) end
          end
    end.

(** The second loop: down to the first node beyond bit [i]. *)
Definition Insert_position (d : D) (i : nat) (h : gmap loc Node)
  : nat → option loc → option loc → outcome (option loc * option loc) :=
  fix go f p x :=
    match x with
    | None => Ret (p, None)
    | Some xl =>
        n ← load h xl;
        if negb ((bitpos_ n <=? i) && (bitpos_ n <? BitLength d)) then Ret (p, x)
        else
          match child d n with
          | None => Ret (x, None)
          | Some y =>
              thread ← is_thread h n y;
              if (thread : bool) then Ret (x, None)
              else match f with O => Abort | S f => go f x (Some y) end
          end
    end.

(** [if (p) { GetBit(node, p->bitpos_) ? p->right_ = l : p->left_ = l } else root_ = l] *)
Definition set_child (d : D) (p l : option loc) (T : Tree) : outcome Tree :=
  match p with
  | None => Ret (mkTree (heap T) l (nodes_ T) (int_nodes_ T))
  | Some pl =>
      n ← load (heap T) pl;
      h ← store pl (if GetBit d (bitpos_ n) then set_right l else set_left l) (heap T);
      Ret (mkTree h (root_ T) (nodes_ T) (int_nodes_ T))
  end.

(** The part of [InsertNode] under [if (x)]: the new node (initialised in the heap)
    joins [x], which is beyond bit [i]; [dl] is the data compared with.  The result
    is the node that takes the place of [x]. *)
Definition Insert_at (node : loc) (d dl : D) (i : nat) (x : loc) (T : Tree) : outcome (loc * Tree) :=
  nx ← load (heap T) x;
  if bitpos_ nx =? i then
    h ← store node (set_right (right_ nx)) (heap T);
    h ← store node (set_left (left_ nx)) h;
    '(_, h) ← RewireRightMost (Some node) (left_ nx) h;
    Ret (node, mkTree (delete x h) (root_ T) (nodes_ T) (int_nodes_ T - 1))
  else if i =? BitLength d then
    if GetBit dl i then
      h ← store node (set_right (Some x)) (heap T);
      Ret (node, mkTree h (root_ T) (nodes_ T) (int_nodes_ T))
    else
      h ← store node (set_left (Some x)) (heap T);
      '(r, h) ← RewireRightMost (Some node) (Some x) h;
      h ← store node (set_right r) h;
      Ret (node, mkTree h (root_ T) (nodes_ T) (int_nodes_ T))
  else
    let l := fresh (dom (heap T)) in
    if GetBit d i then
      let h := <[l := mkNode (Some x) (Some node) true i None]> (heap T) in
      '(r, h) ← RewireRightMost (Some l) (Some x) h;
      h ← store node (set_right r) h;
      Ret (l, mkTree h (root_ T) (nodes_ T) (int_nodes_ T + 1))
    else
      let h := <[l := mkNode (Some node) (Some x) true i None]> (heap T) in
      h ← store node (set_right (Some l)) h;
      Ret (l, mkTree h (root_ T) (nodes_ T) (int_nodes_ T + 1)).

(** From [nodes_++] on; [l] is the data compared with, if any. *)
Definition Insert_link (node : loc) (d : D) (l : option D) (i : nat) (p x : option loc) (T : Tree)
  : outcome (bool * Tree) :=
  h ← store node (set_left None) (heap T);
  h ← store node (set_right None) h;
  h ← store node (set_bitpos (BitLength d)) h;
  let T := mkTree h (root_ T) (nodes_ T + 1) (int_nodes_ T) in
  '(l, T) ←
    match x with
    | Some x =>
        match l with
        | None => Abort
        | Some dl => Insert_at node d dl i x T
        end
    | None =>
        match p with
        | None => Ret (node, T)
        | Some pl =>
            np ← load (heap T) pl;
            h ← store node (set_right (if GetBit d (bitpos_ np) then right_ np else p)) (heap T);
            Ret (node, mkTree h (root_ T) (nodes_ T) (int_nodes_ T))
        end
    end;
  T ← set_child d p (Some l) T;
  Ret (true, T).

(** [InsertNode] *)
Definition InsertNode (node : loc) (T : Tree) : outcome (bool * Tree) :=
  n ← load (heap T) node;
  d ← NodeToData n;
  '(p, x) ← Insert_descend d (heap T) (fuel (heap T)) None (root_ T);
  match (match x with Some _ => x | None => p end) with
  | None => Insert_link node d None 0 p x T
  | Some l =>
      nl ← load (heap T) l;
      dl ← NodeToData nl;
      let '(eq, i) := ComparePos d dl 0 in
      if (eq : bool) then Ret (false, T)
      else if negb (i =? BitLength d) || negb (i =? bitpos_ nl) then
        '(p, x) ← Insert_position d i (heap T) (fuel (heap T)) None (root_ T);
        Insert_link node d (Some dl) i p x T
      else Insert_link node d (Some dl) i p x T
  end.

(** ** Lookup *)

(** The loop of [FindNode] (and of [RemoveNode] and [GetPrevNode]): [pPrev], [p] and
    [x] where it stops. *)
Definition Find_descend (d : D) (h : gmap loc Node)
  : nat → option loc → option loc → option loc →
    outcome (option loc * option loc * option loc) :=
  fix go f pPrev p x :=
    match x with
    | None => Ret (pPrev, p, None)
    | Some xl =>
        n ← load h xl;
        if BitLength d <? bitpos_ n then Ret (pPrev, p, None)
        else if (bitpos_ n =? BitLength d) && negb (intnode_ n) then Ret (pPrev, p, x)
        else
          match child d n with
          | None => Ret (p, x, None)
          | Some y =>
              thread ← is_thread h n y;
              if (thread : bool) then Ret (p, x, None)
              else match f with O => Abort | S f => go f p x (Some y) end
          end
    end.

(** [!x || !Compare(node, x)], negated *)
Definition found (d : D) (x : option loc) (h : gmap loc Node) : outcome bool :=
  match x with
  | None => Ret false
  | Some x => n ← load h x; dx ← NodeToData n; Ret (Compare d dx)
  end.

(** [FindNode] *)
Definition FindNode (d : D) (T : Tree) : outcome (option loc) :=
  '(_, _, x) ← Find_descend d (heap T) (fuel (heap T)) None None (root_ T);
  ok ← found d x (heap T);
  Ret (if (ok : bool) then x else None).

(** The loop of [FindBestMatchNode]. *)
Definition BestMatch_loop (d : D) (h : gmap loc Node)
  : nat → nat → option loc → loc → outcome (option loc) :=
  fix go f i l x :=
    n ← load h x;
    '(hit, i, l) ← (if intnode_ n then Ret (false, i, l)
                    else
                      dx ← NodeToData n;
                      let '(eq, i) := ComparePos d dx i in
                      Ret (eq, i, if i =? bitpos_ n then Some x else l));
    if (hit : bool) then Ret (Some x)
    else if BitLength d <? bitpos_ n then Ret l
    else
      match child d n with
      | None => Ret l
      | Some y =>
          thread ← is_thread h n y;
          if (thread : bool) then Ret l
          else match f with O => Abort | S f => go f i l y end
      end.

(** [FindBestMatchNode] *)
Definition FindBestMatchNode (d : D) (T : Tree) : outcome (option loc) :=
  match root_ T with
  | None => Ret None
  | Some x => BestMatch_loop d (heap T) (fuel (heap T)) 0 None x
  end.

(** The loop of [GetNextNode]; [bl] is [l->bitpos_]. *)
Definition GetNext_loop (h : gmap loc Node) : nat → nat → loc → outcome (option loc) :=
  fix go f bl x :=
    n ← load h x;
    let next := if bitpos_ n <? bl then right_ n
                else match left_ n with Some _ => left_ n | None => right_ n end in
    match next with
    | None => Ret None
    | Some y =>
        m ← load h y;
        if (bitpos_ n <? bitpos_ m) && negb (intnode_ m) then Ret (Some y)
        else match f with O => Abort | S f => go f (bitpos_ n) y end
    end.

(** [GetNextNode] *)
Definition GetNextNode (node : option loc) (T : Tree) : outcome (option loc) :=
  match root_ T with
  | None => Ret None
  | Some r =>
      nr ← load (heap T) r;
      match node with
      | Some x => n ← load (heap T) x; GetNext_loop (heap T) (fuel (heap T)) (bitpos_ n) x
      | None => if intnode_ nr then GetNext_loop (heap T) (fuel (heap T)) (bitpos_ nr) r
                else Ret (Some r)
      end
  end.

(** [GetLastNode] *)
Definition GetLast_loop (h : gmap loc Node) : nat → loc → outcome (option loc) :=
  fix go f x :=
    n ← load h x;
    next ← (match right_ n with
            | Some y => m ← load h y; Ret (if bitpos_ m <? bitpos_ n then left_ n else Some y)
            | None => Ret (left_ n)
            end);
    match next with
    | None => Ret (Some x)
    | Some y => match f with O => Abort | S f => go f y end
    end.

Definition GetLastNode (T : Tree) : outcome (option loc) :=
  match root_ T with
  | None => Ret None
  | Some x => GetLast_loop (heap T) (fuel (heap T)) x
  end.

(** The first loop of [GetPrevNode]: [x], [right_turn] and [greatest_partial]. *)
Definition GetPrev_descend (d : D) (h : gmap loc Node)
  : nat → option loc → option loc → option loc →
    outcome (option loc * option loc * option loc) :=
  fix go f rt gp x :=
    match x with
    | None => Ret (None, rt, gp)
    | Some xl =>
        n ← load h xl;
        if BitLength d <? bitpos_ n then Ret (None, rt, gp)
        else if (bitpos_ n =? BitLength d) && negb (intnode_ n) then Ret (x, rt, gp)
        else
          let rt := if GetBit d (bitpos_ n) then x else rt in
          let gp := if GetBit d (bitpos_ n) then gp else if intnode_ n then gp else x in
          match child d n with
          | None => Ret (None, rt, gp)
          | Some y =>
              thread ← is_thread h n y;
              if (thread : bool) then Ret (None, rt, gp)
              else match f with O => Abort | S f => go f rt gp (Some y) end
          end
    end.

(** The second loop: the last node below [x]. *)
Definition GetPrev_last (h : gmap loc Node) : nat → loc → outcome (option loc) :=
  fix go f x :=
    n ← load h x;
    next ← (match right_ n with
            | Some y => m ← load h y; Ret (if bitpos_ n <? bitpos_ m then Some y else left_ n)
            | None => Ret (left_ n)
            end);
    match next with
    | None => Ret (Some x)
    | Some y => match f with O => Abort | S f => go f y end
    end.

(** [GetPrevNode] *)
Definition GetPrevNode (d : D) (T : Tree) : outcome (option loc) :=
  let h := heap T in
  '(x, right_turn, greatest_partial) ← GetPrev_descend d h (fuel h) None None (root_ T);
  ok ← found d x h;
  if negb ok then Ret None
  else
    match right_turn with
    | None => Ret greatest_partial
    | Some rt =>
        nrt ← load h rt;
        partial ← (match greatest_partial with
                   | None => Ret false
                   | Some gp => ngp ← load h gp; Ret (bitpos_ nrt <? bitpos_ ngp)
                   end);
        if (partial : bool) then Ret greatest_partial
        else match left_ nrt with
             | None => Ret None
             | Some x => GetPrev_last h (fuel h) x
             end
    end.

(** ** The next key after one that need not be in the tree *)

(** The first loop of [FindNextNode]: the node with the key itself, or [l], [x], [i]. *)
Definition FindNext_descend (d : D) (h : gmap loc Node)
  : nat → nat → option loc → option loc → outcome (loc + option loc * option loc * nat) :=
  fix go f i l x :=
    match x with
    | None => Ret (inr (l, None, i))
    | Some xl =>
        n ← load h xl;
        '(hit, stop, i, l) ←
          (if intnode_ n then Ret (false, false, i, l)
           else
             dx ← NodeToData n;
             let '(eq, i) := ComparePos d dx i in
             let stop := (BitLength d <? bitpos_ n) || negb (i =? bitpos_ n) in
             Ret (eq, stop, i, if stop then l else x));
        if (hit : bool) then Ret (inl xl)
        else if (stop : bool) then Ret (inr (l, x, i))
        else
          match child d n with
          | None => Ret (inr (l, None, i))
          | Some y =>
              thread ← is_thread h n y;
              if (thread : bool) then Ret (inr (l, Some y, i))
              else match f with O => Abort | S f => go f i l (Some y) end
          end
    end.

(** [while (x && x->bitpos_ <= i)]: [l] and [x]. *)
Definition FindNext_position (d : D) (i : nat) (h : gmap loc Node)
  : nat → loc → option loc → outcome (loc * option loc) :=
  fix go f l x :=
    match x with
    | None => Ret (l, None)
    | Some xl =>
        n ← load h xl;
        if i <? bitpos_ n then Ret (l, x)
        else
          match child d n with
          | None => Ret (xl, None)
          | Some y =>
              thread ← is_thread h n y;
              if (thread : bool) then Ret (xl, Some y)
              else match f with O => Abort | S f => go f xl (Some y) end
          end
    end.

(** [while (x && l->bitpos_ > x->bitpos_) { l = x; x = x->right_; }] *)
Definition FindNext_up (h : gmap loc Node) : nat → nat → option loc → outcome (option loc) :=
  fix go f bl x :=
    match x with
    | None => Ret None
    | Some xl =>
        n ← load h xl;
        if bitpos_ n <? bl
        then match f with O => Abort | S f => go f (bitpos_ n) (right_ n) end
        else Ret x
    end.

(** The part of [FindNextNode] under [if (l)]. *)
Definition FindNext_from (d : D) (i : nat) (l : loc) (T : Tree) : outcome (option loc) :=
  let h := heap T in
  '(l, x) ← FindNext_position d i h (fuel h) l (Some l);
  nl ← load h l;
  if BitLength d =? bitpos_ nl then GetNextNode (Some l) T
  else
    '(early, x) ←
      (if GetBit d (bitpos_ nl) then
         match x with
         | None => Ret (true, None)
         | Some xl =>
             nx ← load h xl;
             if bitpos_ nx <? bitpos_ nl then
               x ← FindNext_up h (fuel h) (bitpos_ nl) x; Ret (false, x)
             else if GetBit d i then
               r ← RewireRightMost_loop h (fuel h) xl;
               nr ← load h r;
               x ← FindNext_up h (fuel h) (bitpos_ nr) (right_ nr); Ret (false, x)
             else Ret (false, x)
         end
       else if (match x with None => true | Some _ => GetBit d i end) then
         x ← FindNext_up h (fuel h) (bitpos_ nl) (right_ nl); Ret (false, x)
       else Ret (false, x));
    if (early : bool) then Ret None
    else
      match x with
      | None => GetNextNode None T
      | Some xl =>
          nx ← load h xl;
          if intnode_ nx then GetNextNode x T else Ret x
      end.

(** [FindNextNode] *)
Definition FindNextNode (d : D) (T : Tree) : outcome (option loc) :=
  st ← FindNext_descend d (heap T) (fuel (heap T)) 0 None (root_ T);
  match st with
  | inl x => GetNextNode (Some x) T
  | inr (Some l, _, i) => FindNext_from d i l T
  | inr (None, x, i) => if GetBit d i then Ret None else Ret x
  end.

(** ** Removal *)

(** The part of [RemoveNode] that unlinks [x]. *)
Definition Remove_unlink (pPrev p : option loc) (x : loc) (T : Tree) : outcome Tree :=
  nx ← load (heap T) x;
  dx ← NodeToData nx;
  has_right ← (match right_ nx with
               | None => Ret false
               | Some r => nr ← load (heap T) r; Ret (bitpos_ nx <? bitpos_ nr)
               end);
  match left_ nx with
  | Some l =>
      if (has_right : bool) then
        let t := fresh (dom (heap T)) in
        let h := <[t := mkNode (left_ nx) (right_ nx) true (bitpos_ nx) None]> (heap T) in
        '(_, h) ← RewireRightMost (Some t) (left_ nx) h;
        set_child dx p (Some t) (mkTree h (root_ T) (nodes_ T) (int_nodes_ T + 1))
      else
        T ← set_child dx p (left_ nx) T;
        '(_, h) ← RewireRightMost (right_ nx) (left_ nx) (heap T);
        Ret (mkTree h (root_ T) (nodes_ T) (int_nodes_ T))
  | None =>
      if (has_right : bool) then set_child dx p (right_ nx) T
      else
        match p with
        | None => Ret (mkTree (heap T) None (nodes_ T) (int_nodes_ T))
        | Some pl =>
            np ← load (heap T) pl;
            if intnode_ np then
              '(t, h) ← (if GetBit dx (bitpos_ np) then
                           '(_, h) ← RewireRightMost (right_ nx) (left_ np) (heap T);
                           Ret (left_ np, h)
                         else Ret (right_ np, heap T));
              T ← set_child dx pPrev t (mkTree h (root_ T) (nodes_ T) (int_nodes_ T));
              Ret (mkTree (delete pl (heap T)) (root_ T) (nodes_ T) (int_nodes_ T - 1))
            else set_child dx p (if GetBit dx (bitpos_ np) then right_ nx else None) T
        end
  end.

(** [RemoveNode] *)
Definition RemoveNode (node : loc) (T : Tree) : outcome (bool * Tree) :=
  n ← load (heap T) node;
  d ← NodeToData n;
  '(pPrev, p, x) ← Find_descend d (heap T) (fuel (heap T)) None None (root_ T);
  ok ← found d x (heap T);
  match x with
  | Some x =>
      if negb ok then Ret (false, T)
      else
        T ← Remove_unlink pPrev p x T;
        h ← store node (set_left None) (heap T);
        h ← store node (set_right None) h;
        Ret (true, mkTree h (root_ T) (nodes_ T - 1) (int_nodes_ T))
  | None => Ret (false, T)
  end.

End Tree.
Arguments Node : clear implicits.
Arguments Tree : clear implicits.
End PT.
