(* ===== verification/PatriciaInv.v ===== *)
(** * The Patricia tree: keys, the tree behind the pointers, and its invariant

    [key d] is the bit string of a data object; the comparisons of the code are
    equality and longest common prefix of bit strings.  [ptree] is the tree the
    pointers form, [rep] says that a heap holds it (threads included), [wf] that
    every node carries the prefix its subtree shares, and contexts ([ctx]) name a
    position in it. *)

From stdpp Require Import gmap.
From Stdlib Require Import Sorted.
From S2P Require Import Prelude Patricia.
Import PT.
Open Scope nat_scope.

(** ** Bit strings *)

(** The length of the longest common prefix. *)
Fixpoint lcp (k1 k2 : list bool) : nat :=
  match k1, k2 with
  | a :: k1, b :: k2 => if Bool.eqb a b then S (lcp k1 k2) else 0
  | _, _ => 0
  end.

Definition bit (k : list bool) (i : nat) : bool := nth i k false.

Lemma lcp_take k1 k2 : take (lcp k1 k2) k1 = take (lcp k1 k2) k2.
Proof.
  revert k2. induction k1 as [|a k1 IH]; intros [|b k2]; try done. simpl.
  destruct (Bool.eqb a b) eqn:E; [|done]. apply eqb_prop in E as ->. simpl. f_equal. apply IH.
Qed.

Lemma lcp_le k1 k2 : lcp k1 k2 ≤ length k1 ∧ lcp k1 k2 ≤ length k2.
Proof.
  revert k2. induction k1 as [|a k1 IH]; intros [|b k2]; simpl; try lia.
  destruct (Bool.eqb a b); [|lia]. specialize (IH k2). lia.
Qed.

Lemma lcp_bit k1 k2 i : i < lcp k1 k2 → bit k1 i = bit k2 i.
Proof.
  unfold bit. revert k2 i. induction k1 as [|a k1 IH]; intros [|b k2] i; simpl; try lia.
  destruct (Bool.eqb a b) eqn:E; [|lia]. apply eqb_prop in E as ->.
  destruct i as [|i]; [done|]. intros. apply IH. lia.
Qed.

Lemma lcp_diff k1 k2 : lcp k1 k2 < length k1 → lcp k1 k2 < length k2 →
  bit k1 (lcp k1 k2) ≠ bit k2 (lcp k1 k2).
Proof.
  unfold bit. revert k2. induction k1 as [|a k1 IH]; intros [|b k2]; simpl; try lia.
  destruct (Bool.eqb a b) eqn:E; [intros; apply IH; lia|]. intros _ _ ->. by rewrite eqb_reflx in E.
Qed.

(** The longest common prefix is where the bits first differ. *)
Lemma lcp_unique k1 k2 n : n ≤ length k1 → n ≤ length k2 → (∀ i, i < n → bit k1 i = bit k2 i) →
  (n = length k1 ∨ n = length k2 ∨ bit k1 n ≠ bit k2 n) → lcp k1 k2 = n.
Proof.
  intros H1 H2 He Hd. pose proof (lcp_le k1 k2) as [L1 L2].
  destruct (lt_eq_lt_dec (lcp k1 k2) n) as [[Hl|]|Hl]; [|done|].
  - destruct (lcp_diff k1 k2); [lia..|]. by apply He.
  - destruct Hd as [?|[?|Hd]]; [lia..|]. by destruct Hd; apply lcp_bit.
Qed.

Lemma lcp_prefix k1 k2 : lcp k1 k2 = length k1 ↔ k1 `prefix_of` k2.
Proof.
  split.
  - intros E. pose proof (lcp_take k1 k2) as Ht. rewrite E, firstn_all in Ht.
    rewrite Ht. apply prefix_take.
  - intros [k ->]. induction k1 as [|a k1 IH]; [done|]. simpl. by rewrite eqb_reflx, IH.
Qed.

Lemma lcp_comm k1 k2 : lcp k1 k2 = lcp k2 k1.
Proof.
  revert k2. induction k1 as [|a k1 IH]; intros [|b k2]; try done. simpl.
  rewrite IH. by destruct a, b.
Qed.

Lemma prefix_lcp p k1 k2 : p `prefix_of` k1 → p `prefix_of` k2 → length p ≤ lcp k1 k2.
Proof.
  intros [s1 ->] [s2 ->]. induction p as [|a p IH]; simpl; [lia|]. rewrite eqb_reflx. lia.
Qed.

Lemma lcp_prefix_of p k1 k2 : p `prefix_of` k2 → length p ≤ lcp k1 k2 → p `prefix_of` k1.
Proof.
  intros [s ->] Hl. pose proof (lcp_take k1 (p ++ s)) as Ht.
  apply (f_equal (take (length p))) in Ht. rewrite !take_take in Ht.
  rewrite Nat.min_l in Ht by lia. rewrite take_app_length in Ht. rewrite <- Ht. apply prefix_take.
Qed.

Lemma bit_snoc p b s : bit ((p ++ [b]) ++ s) (length p) = b.
Proof. unfold bit. rewrite <- app_assoc. rewrite app_nth2 by lia. by rewrite Nat.sub_diag. Qed.

Lemma prefix_bit p b k : p ++ [b] `prefix_of` k → bit k (length p) = b.
Proof. intros [s ->]. apply bit_snoc. Qed.

Lemma prefix_snoc p k : p `prefix_of` k → length p < length k → p ++ [bit k (length p)] `prefix_of` k.
Proof.
  intros [s ->] Hl. rewrite length_app in Hl. destruct s as [|b s]; [simpl in Hl; lia|].
  unfold bit. rewrite app_nth2 by lia. rewrite Nat.sub_diag. simpl.
  exists s. by rewrite <- app_assoc.
Qed.

Lemma prefix_of_bit p k i : p `prefix_of` k → i < length p → bit k i = bit p i.
Proof. intros [s ->] Hi. unfold bit. by rewrite app_nth1. Qed.

Lemma prefix_eq (p k : list bool) : p `prefix_of` k → length k ≤ length p → p = k.
Proof.
  intros [s ->] Hl. rewrite length_app in Hl. destruct s; [by rewrite app_nil_r|simpl in Hl; lia].
Qed.

(** ** Keys *)

Section Key.
Context {D : Type} `{!KeyTraits D}.
Implicit Types d : D.

Definition key d : list bool := GetBit d <$> seq 0 (BitLength d).

Lemma key_length d : length (key d) = BitLength d.
Proof. unfold key. by rewrite length_fmap, length_seq. Qed.

Lemma GetBit_key d i : GetBit d i = bit (key d) i.
Proof.
  unfold bit, key. destruct (Nat.leb_spec (BitLength d) i) as [H|H].
  - rewrite nth_overflow by (by rewrite length_fmap, length_seq).
    unfold GetBit. by rewrite (proj2 (Nat.leb_le _ _) H).
  - rewrite (nth_indep _ _ (GetBit d 0)) by (by rewrite length_fmap, length_seq).
    rewrite map_nth, seq_nth by done. done.
Qed.

Lemma land_mask v j : (0 ≤ j < 8)%Z → negb (Z.land v (Z.shiftr 128 j) =? 0)%Z = Z.testbit v (7 - j).
Proof.
  intros Hj. rewrite Z.shiftr_div_pow2 by lia.
  replace (128 / 2 ^ j)%Z with (2 ^ (7 - j))%Z.
  2: { change 128%Z with (2 ^ 7)%Z. rewrite <- Z.pow_sub_r; lia. }
  destruct (Z.testbit v (7 - j)) eqn:E.
  - destruct (Z.eqb_spec (Z.land v (2 ^ (7 - j))) 0) as [H|]; [|done].
    apply (f_equal (λ z, Z.testbit z (7 - j))) in H.
    rewrite Z.land_spec, Z.bits_0, E, Z.pow2_bits_true in H by lia. done.
  - apply negb_false_iff, Z.eqb_eq, Z.bits_inj'. intros n Hn.
    rewrite Z.land_spec, Z.bits_0, Z.pow2_bits_eqb by lia.
    destruct (Z.eqb_spec (7 - j) n) as [<-|]; [by rewrite E|by rewrite andb_false_r].
Qed.

Lemma GetBit_byte d i : i < BitLength d →
  GetBit d i = Z.testbit (ByteValue d (i / 8)) (7 - Z.of_nat (i mod 8)).
Proof.
  intros Hi. unfold GetBit. rewrite (proj2 (Nat.leb_gt _ _) Hi).
  rewrite Nat.shiftr_div_pow2. change (2 ^ 3) with 8.
  rewrite (Nat.land_ones i 3 : Nat.land i 7 = _). change (2 ^ 3) with 8.
  pose proof (Nat.mod_upper_bound i 8 ltac:(lia)). rewrite land_mask by lia. done.
Qed.

(** Equal bytes have equal bits, and different bytes a different bit. *)
Lemma byte_bits a b n i : ByteValue a n = ByteValue b n →
  i / 8 = n → i < BitLength a → i < BitLength b → GetBit a i = GetBit b i.
Proof. intros E <- Ha Hb. by rewrite !GetBit_byte, E. Qed.

Lemma byte_diff a b n : ByteValue a n ≠ ByteValue b n →
  8 * n + 8 ≤ BitLength a → 8 * n + 8 ≤ BitLength b → ∃ i, i < 8 * n + 8 ∧ GetBit a i ≠ GetBit b i.
Proof.
  intros Hne Ha Hb.
  destruct (decide (Exists (λ j, GetBit a (8 * n + j) ≠ GetBit b (8 * n + j)) (seq 0 8))) as [He|Hno].
  { apply list.Exists_exists in He as (j & Hj & Hd). apply elem_of_seq in Hj.
    exists (8 * n + j). split; [lia|done]. }
  destruct Hne. apply Z.bits_inj'. intros m Hm.
  destruct (Z.lt_ge_cases m 8) as [Hm8|Hm8].
  - set (j := Z.to_nat (7 - m)).
    destruct (decide (GetBit a (8 * n + j) = GetBit b (8 * n + j))) as [E|Hd].
    2: { destruct Hno. apply list.Exists_exists. exists j. split; [apply elem_of_seq; lia|done]. }
    rewrite !GetBit_byte in E by lia.
    assert (Ed : (8 * n + j) / 8 = n) by (symmetry; apply (Nat.div_unique _ _ n j); lia).
    assert (Em : (8 * n + j) mod 8 = j) by (symmetry; apply (Nat.mod_unique _ _ n j); lia).
    rewrite Ed, Em in E. replace (7 - Z.of_nat j)%Z with m in E by lia. done.
  - pose proof (ByteValue_range a n) as Ra. pose proof (ByteValue_range b n) as Rb.
    rewrite !(testbit_above 8); [done|lia..].
Qed.

Lemma skip_bits_spec a b n pos :
  pos ≤ skip_bits a b n pos ≤ pos + n ∧
  (∀ i, pos ≤ i < skip_bits a b n pos → GetBit a i = GetBit b i) ∧
  (skip_bits a b n pos < pos + n →
     GetBit a (skip_bits a b n pos) ≠ GetBit b (skip_bits a b n pos)).
Proof.
  revert pos. induction n as [|n IH]; intros pos; simpl; [split_and!; lia|].
  destruct (Bool.eqb (GetBit a pos) (GetBit b pos)) eqn:E.
  - apply eqb_prop in E. destruct (IH (S pos)) as (H1 & H2 & H3). split_and!; [lia..| |].
    + intros i Hi. destruct (decide (i = pos)) as [->|]; [done|]. apply H2. lia.
    + intros. apply H3. lia.
  - apply eqb_false_iff in E. split_and!; [lia..|lia|done].
Qed.

Lemma skip_bytes_spec a b n pos :
  pos ≤ skip_bytes a b n pos ≤ pos + n ∧
  (∀ i, pos ≤ i < skip_bytes a b n pos → ByteValue a i = ByteValue b i) ∧
  (skip_bytes a b n pos < pos + n →
     ByteValue a (skip_bytes a b n pos) ≠ ByteValue b (skip_bytes a b n pos)).
Proof.
  revert pos. induction n as [|n IH]; intros pos; simpl; [split_and!; lia|].
  destruct (Z.eqb_spec (ByteValue a pos) (ByteValue b pos)) as [E|E].
  - destruct (IH (S pos)) as (H1 & H2 & H3). split_and!; [lia..| |].
    + intros i Hi. destruct (decide (i = pos)) as [->|]; [done|]. apply H2. lia.
    + intros. apply H3. lia.
  - split_and!; [lia..|lia|done].
Qed.

Lemma key_eq a b : key a = key b ↔
  BitLength a = BitLength b ∧ ∀ i, i < BitLength a → GetBit a i = GetBit b i.
Proof.
  split.
  - intros E. rewrite <- !key_length, E. split; [done|]. intros i _. by rewrite !GetBit_key, E.
  - intros [El Eb]. unfold key. rewrite <- El. apply list_fmap_ext. intros i x Hx.
    apply lookup_seq in Hx as [-> Hi]. apply Eb. lia.
Qed.

(** The bytes that were skipped have equal bits. *)
Lemma skipped_bits a b n pos i : pos ≤ i / 8 < skip_bytes a b n pos →
  i < BitLength a → i < BitLength b → GetBit a i = GetBit b i.
Proof.
  intros Hi. apply (byte_bits a b (i / 8)); [|done]. by apply (skip_bytes_spec a b n pos).
Qed.

Lemma Compare_key a b : Compare a b = bool_decide (key a = key b).
Proof.
  unfold Compare. destruct (Nat.eqb_spec (BitLength a) (BitLength b)) as [El|El]; cbn [negb].
  2: { symmetry. apply bool_decide_eq_false. rewrite key_eq. tauto. }
  rewrite Nat.shiftr_div_pow2, Nat.shiftl_mul_pow2. change (2 ^ 3) with 8.
  set (n := BitLength a / 8).
  assert (Hn : 8 * n ≤ BitLength a < 8 * n + 8).
  { pose proof (Nat.div_mod_eq (BitLength a) 8). pose proof (Nat.mod_upper_bound (BitLength a) 8). lia. }
  destruct (skip_bytes_spec a b n 0) as (S1 & S2 & S3).
  destruct (Nat.ltb_spec (skip_bytes a b n 0) n) as [Hs|Hs].
  - symmetry. apply bool_decide_eq_false. rewrite key_eq. intros [_ Hb].
    destruct (byte_diff a b (skip_bytes a b n 0)) as (i & Hi & Hd); [apply S3; lia|lia..|].
    apply Hd, Hb. lia.
  - replace (skip_bytes a b n 0) with n in * by lia.
    destruct (skip_bits_spec a b (BitLength a - n * 8) (n * 8)) as (T1 & T2 & T3).
    destruct (Nat.ltb_spec (skip_bits a b (BitLength a - n * 8) (n * 8)) (BitLength a)) as [Ht|Ht].
    + symmetry. apply bool_decide_eq_false. rewrite key_eq. intros [_ Hb].
      apply T3; [lia|]. by apply Hb.
    + symmetry. apply bool_decide_eq_true. rewrite key_eq. split; [done|]. intros i Hi.
      destruct (Nat.lt_ge_cases i (n * 8)) as [Hi8|Hi8]; [|apply T2; lia].
      apply (byte_bits a b (i / 8)); [|done|lia|lia]. apply S2. split; [lia|].
      apply Nat.Div0.div_lt_upper_bound. lia.
Qed.

(** Started where the keys agree, [Compare] finds their longest common prefix. *)
Lemma ComparePos_key a b start : start ≤ lcp (key a) (key b) →
  ComparePos a b start = (bool_decide (key a = key b), lcp (key a) (key b)).
Proof.
  intros Hst. unfold ComparePos. set (k := lcp (key a) (key b)) in *.
  pose proof (lcp_le (key a) (key b)) as [La Lb]. rewrite !key_length in *. fold k in La, Lb.
  set (sl := Nat.min (BitLength a) (BitLength b)).
  assert (Esl : (if BitLength a <? BitLength b then (BitLength a, false)
    else (BitLength b, BitLength a =? BitLength b)) = (sl, BitLength a =? BitLength b)).
  { subst sl. destruct (Nat.ltb_spec (BitLength a) (BitLength b)).
    - rewrite Nat.min_l by lia. f_equal. symmetry. apply Nat.eqb_neq. lia.
    - by rewrite Nat.min_r by lia. }
  rewrite Esl. clear Esl.
  rewrite !Nat.shiftr_div_pow2, Nat.shiftl_mul_pow2. change (2 ^ 3) with 8.
  set (q := skip_bytes a b (sl / 8 - start / 8) (start / 8)).
  destruct (skip_bytes_spec a b (sl / 8 - start / 8) (start / 8)) as (S1 & S2 & _). fold q in S1, S2.
  pose proof (Nat.div_mod_eq start 8) as Es. pose proof (Nat.mod_upper_bound start 8 ltac:(lia)) as Ms.
  pose proof (Nat.div_mod_eq sl 8) as Ed. pose proof (Nat.mod_upper_bound sl 8 ltac:(lia)) as Md.
  pose proof (Nat.Div0.div_le_mono start sl 8 ltac:(lia)) as Hm.
  set (r := if q * 8 <? start then start else q * 8).
  assert (Hr : start ≤ r ≤ sl) by (subst r; destruct (Nat.ltb_spec (q * 8) start); lia).
  assert (He : ∀ i, i < r → GetBit a i = GetBit b i).
  { intros i Hi. destruct (Nat.lt_ge_cases i start) as [Hi'|Hi'].
    - rewrite !GetBit_key. apply lcp_bit. fold k. lia.
    - apply (byte_bits a b (i / 8)); [|done|lia|lia]. apply S2.
      pose proof (Nat.Div0.div_le_mono start i 8 Hi'). split; [done|].
      apply Nat.Div0.div_lt_upper_bound. subst r. destruct (Nat.ltb_spec (q * 8) start); lia. }
  destruct (skip_bits_spec a b (sl - r) r) as (T1 & T2 & T3).
  set (p := skip_bits a b (sl - r) r) in *.
  assert (Hp : k = p).
  { apply lcp_unique; rewrite ?key_length; [lia|lia| |].
    - intros i Hi. rewrite <- !GetBit_key. destruct (Nat.lt_ge_cases i r); [by apply He|].
      apply T2. lia.
    - destruct (decide (p = sl)) as [E|E]; [subst sl; lia|].
      right. right. rewrite <- !GetBit_key. apply T3. lia. }
  rewrite <- Hp. destruct (Nat.ltb_spec k sl) as [Hk|Hk]; f_equal.
  - symmetry. apply bool_decide_eq_false. intros E.
    assert (Ek : k = length (key a)) by (subst k; rewrite E; apply lcp_prefix; done).
    rewrite key_length in Ek. subst sl. lia.
  - apply eq_true_iff_eq. rewrite Nat.eqb_eq, bool_decide_eq_true, key_eq. split; [|tauto].
    intros El. split; [done|]. intros i Hi. rewrite !GetBit_key. apply lcp_bit. fold k. lia.
Qed.

End Key.

(** ** The tree behind the pointers *)

(** [N x int p l r]: the node at [x], with the prefix [p] its subtree shares; its
    own key is [p] unless it is internal. *)
Inductive ptree : Type :=
| E
| N (x : loc) (int : bool) (p : list bool) (l r : ptree).

#[export] Instance ptree_eq_dec : EqDecision ptree.
Proof. solve_decision. Defined.

Definition ptr (t : ptree) : option loc := match t with E => None | N x _ _ _ _ => Some x end.

(** What a [right_] field holds: the child or the thread. *)
Definition link (t : ptree) (thr : option loc) : option loc :=
  match t with E => thr | N x _ _ _ _ => Some x end.

Fixpoint locs (t : ptree) : list loc :=
  match t with E => [] | N x _ _ l r => x :: locs l ++ locs r end.

(** The keys with their nodes, in tree order. *)
Fixpoint elems (t : ptree) : list (list bool * loc) :=
  match t with
  | E => []
  | N x int p l r => (if int then [] else [(p, x)]) ++ elems l ++ elems r
  end.

Fixpoint internals (t : ptree) : nat :=
  match t with E => 0 | N _ int _ l r => (if int then 1 else 0) + internals l + internals r end.

(** Every key of the subtree starts with [q]; internal nodes have two children. *)
Fixpoint wf (q : list bool) (t : ptree) : Prop :=
  match t with
  | E => True
  | N x int p l r =>
      q `prefix_of` p ∧ wf (p ++ [false]) l ∧ wf (p ++ [true]) r ∧ (int = true → l ≠ E ∧ r ≠ E)
  end.

Lemma wf_mono q q' t : q' `prefix_of` q → wf q t → wf q' t.
Proof. destruct t; [done|]. simpl. intros ? (? & ?). split; [by etrans|done]. Qed.

Lemma elems_prefix q t k x : wf q t → (k, x) ∈ elems t → q `prefix_of` k.
Proof.
  revert q. induction t as [|y int p l IHl r IHr]; intros q; simpl; [by rewrite elem_of_nil|].
  intros (Hq & Hl & Hr & _) [Hi|[Hi|Hi]%elem_of_app]%elem_of_app.
  - destruct int; [by apply elem_of_nil in Hi|]. apply list_elem_of_singleton in Hi as [= -> ->]. done.
  - specialize (IHl _ Hl Hi). etrans; [exact Hq|]. etrans; [|exact IHl]. by apply prefix_app_r.
  - specialize (IHr _ Hr Hi). etrans; [exact Hq|]. etrans; [|exact IHr]. by apply prefix_app_r.
Qed.

Lemma elems_locs t k x : (k, x) ∈ elems t → x ∈ locs t.
Proof.
  induction t as [|y int p l IHl r IHr]; simpl; [by rewrite elem_of_nil|].
  intros [Hi|[Hi|Hi]%elem_of_app]%elem_of_app; rewrite elem_of_cons, elem_of_app.
  - destruct int; [by apply elem_of_nil in Hi|]. apply list_elem_of_singleton in Hi as [= -> ->]. tauto.
  - tauto.
  - tauto.
Qed.

(** *** Lookup on the tree *)

Definition side (k p : list bool) (l r : ptree) : ptree := if bit k (length p) then r else l.

Fixpoint tfind (k : list bool) (t : ptree) : option loc :=
  match t with
  | E => None
  | N x int p l r =>
      if length k <? length p then None
      else if (length p =? length k) && negb int then (if decide (p = k) then Some x else None)
      else if bit k (length p) then tfind k r else tfind k l
  end.

Lemma tfind_elems q t k x : wf q t → tfind k t = Some x ↔ (k, x) ∈ elems t.
Proof.
  revert q. induction t as [|y int p l IHl r IHr]; intros q; simpl.
  { intros _. rewrite elem_of_nil. done. }
  intros (Hq & Hl & Hr & Hint).
  assert (Pl : (k, x) ∈ elems l → p ++ [false] `prefix_of` k) by (by apply elems_prefix).
  assert (Pr : (k, x) ∈ elems r → p ++ [true] `prefix_of` k) by (by apply elems_prefix).
  assert (Len : ∀ b, p ++ [b] `prefix_of` k → length p < length k).
  { intros b [s ->]. rewrite !length_app. simpl. lia. }
  rewrite !elem_of_app.
  assert (Hown : (k, x) ∈ (if int then [] else [(p, y)]) ↔ int = false ∧ k = p ∧ x = y).
  { destruct int; [rewrite elem_of_nil; naive_solver|]. rewrite list_elem_of_singleton. naive_solver. }
  rewrite Hown. clear Hown.
  destruct (Nat.ltb_spec (length k) (length p)) as [H1|H1].
  { split; [done|]. intros [(_ & -> & _)|[Hi|Hi]]; [lia|apply Pl, Len in Hi; lia|apply Pr, Len in Hi; lia]. }
  destruct (Nat.eqb_spec (length p) (length k)) as [H2|H2]; [destruct int|]; simpl.
  - assert (Eb : bit k (length p) = false) by (unfold bit; apply nth_overflow; lia).
    rewrite Eb, (IHl _ Hl). split; [tauto|]. intros [(? & _)|[?|Hi]]; [done|done|].
    apply Pr, prefix_bit in Hi. congruence.
  - case_decide as E; subst.
    + split; [intros [= ->]; tauto|]. intros [(_ & _ & ->)|[Hi|Hi]]; [done|apply Pl, Len in Hi; lia|apply Pr, Len in Hi; lia].
    + split; [done|]. intros [(_ & ? & _)|[Hi|Hi]]; [congruence|apply Pl, Len in Hi; lia|apply Pr, Len in Hi; lia].
  - destruct (bit k (length p)) eqn:Eb.
    + rewrite (IHr _ Hr). split; [tauto|]. intros [(_ & -> & _)|[Hi|Hi]]; [done| |done].
      apply Pl, prefix_bit in Hi. congruence.
    + rewrite (IHl _ Hl). split; [tauto|]. intros [(_ & -> & _)|[Hi|Hi]]; [done|done|].
      apply Pr, prefix_bit in Hi. congruence.
Qed.

(** The key the first loop of [InsertNode] compares with. *)
Fixpoint leafkey (k : list bool) (t : ptree) : list bool :=
  match t with
  | E => []
  | N x int p l r =>
      if (length k <=? length p) && negb int then p
      else if bit k (length p) then match r with E => p | _ => leafkey k r end
      else match l with E => p | _ => leafkey k l end
  end.

Lemma leafkey_elem q t k : wf q t → t ≠ E → ∃ x, (leafkey k t, x) ∈ elems t.
Proof.
  revert q. induction t as [|y int p l IHl r IHr]; intros q; [done|].
  intros (_ & Hl & Hr & Hint) _. simpl.
  assert (Own : int = false → ∃ x, (p, x) ∈ (if int then [] else [(p, y)]) ++ elems l ++ elems r).
  { intros ->. exists y. apply elem_of_app. left. by apply list_elem_of_singleton. }
  destruct ((length k <=? length p) && negb int) eqn:Hs.
  { apply andb_true_iff in Hs as [_ ?%negb_true_iff]. by apply Own. }
  assert (Sub : ∀ c, c = l ∨ c = r → c ≠ E → (c ≠ E → ∃ x, (leafkey k c, x) ∈ elems c) →
    ∃ x, (leafkey k c, x) ∈ (if int then [] else [(p, y)]) ++ elems l ++ elems r).
  { intros c Hc He H. destruct (H He) as [x Hx]. exists x. rewrite !elem_of_app.
    destruct Hc as [->| ->]; tauto. }
  destruct (bit k (length p)).
  - destruct r as [|yr ir pr lr rr] eqn:Er.
    + apply Own. destruct int; [|done]. by destruct (Hint eq_refl) as [_ ?].
    + rewrite <- Er in *. apply Sub; [by right|by rewrite Er|]. intros _. apply (IHr _ Hr). by rewrite Er.
  - destruct l as [|yr ir pr lr rr] eqn:Er.
    + apply Own. destruct int; [|done]. by destruct (Hint eq_refl) as [? _].
    + rewrite <- Er in *. apply Sub; [by left|by rewrite Er|]. intros _. apply (IHl _ Hl). by rewrite Er.
Qed.

(** A key of the tree is the one it is compared with. *)
Lemma leafkey_found q t k x : wf q t → (k, x) ∈ elems t → leafkey k t = k.
Proof.
  revert q. induction t as [|y int p l IHl r IHr]; intros q; simpl; [by rewrite elem_of_nil|].
  intros (Hq & Hl & Hr & Hint) Hi.
  assert (Sub : ∀ b, p ++ [b] `prefix_of` k →
    (length k <=? length p) && negb int = false ∧ bit k (length p) = b).
  { intros b Hp. split; [|by apply prefix_bit]. apply andb_false_iff. left. apply Nat.leb_gt.
    apply prefix_length in Hp. rewrite length_app in Hp. simpl in Hp. lia. }
  rewrite !elem_of_app in Hi. destruct Hi as [Hi|[Hi|Hi]].
  - destruct int; [by apply elem_of_nil in Hi|]. apply list_elem_of_singleton in Hi as [= -> ->].
    by rewrite Nat.leb_refl.
  - destruct (Sub false (elems_prefix _ _ _ _ Hl Hi)) as [-> ->].
    destruct l; [by apply elem_of_nil in Hi|]. eauto.
  - destruct (Sub true (elems_prefix _ _ _ _ Hr Hi)) as [-> ->].
    destruct r; [by apply elem_of_nil in Hi|]. eauto.
Qed.

(** *** Contexts *)

(** A step down from the node at [x] to its child on side [dir]; [sib] is the other. *)
Record frame := F { f_x : loc; f_int : bool; f_p : list bool; f_dir : bool; f_sib : ptree }.
Abbreviation ctx := (list frame).

Definition plug1 (f : frame) (t : ptree) : ptree :=
  if f_dir f then N (f_x f) (f_int f) (f_p f) (f_sib f) t
  else N (f_x f) (f_int f) (f_p f) t (f_sib f).

Fixpoint plug (c : ctx) (t : ptree) : ptree :=
  match c with [] => t | f :: c => plug c (plug1 f t) end.

Definition cparent (c : ctx) : option loc := match c with [] => None | f :: _ => Some (f_x f) end.

(** The thread of the position. *)
Fixpoint cthr (c : ctx) : option loc :=
  match c with [] => None | f :: c => if f_dir f then cthr c else Some (f_x f) end.

(** The prefix of the keys at the position. *)
Definition cq (c : ctx) : list bool := match c with [] => [] | f :: _ => f_p f ++ [f_dir f] end.

Fixpoint clocs (c : ctx) : list loc :=
  match c with [] => [] | f :: c => f_x f :: locs (f_sib f) ++ clocs c end.

Fixpoint celems (c : ctx) : list (list bool * loc) :=
  match c with
  | [] => []
  | f :: c => (if f_int f then [] else [(f_p f, f_x f)]) ++ elems (f_sib f) ++ celems c
  end.

Fixpoint cinternals (c : ctx) : nat :=
  match c with
  | [] => 0
  | f :: c => (if f_int f then 1 else 0) + internals (f_sib f) + cinternals c
  end.

Fixpoint cwf (c : ctx) : Prop :=
  match c with
  | [] => True
  | f :: c => cq c `prefix_of` f_p f ∧ wf (f_p f ++ [negb (f_dir f)]) (f_sib f) ∧
              (f_int f = true → f_sib f ≠ E) ∧ cwf c
  end.

(** An internal parent needs a child here. *)
Definition filled (c : ctx) (t : ptree) : Prop :=
  match c with [] => True | f :: _ => f_int f = true → t ≠ E end.

(** The path follows the bits of [k]. *)
Definition follows (k : list bool) (c : ctx) : Prop :=
  Forall (λ f, bit k (length (f_p f)) = f_dir f) c.

Lemma plug1_not_E f t : plug1 f t ≠ E.
Proof. unfold plug1. by destruct (f_dir f). Qed.

Lemma plug_locs c t : locs (plug c t) ≡ₚ locs t ++ clocs c.
Proof.
  revert t. induction c as [|f c IH]; intros t; simpl; [by rewrite app_nil_r|].
  rewrite IH. unfold plug1. destruct (f_dir f); simpl; solve_Permutation.
Qed.

Lemma plug_elems c t : elems (plug c t) ≡ₚ elems t ++ celems c.
Proof.
  revert t. induction c as [|f c IH]; intros t; simpl; [by rewrite app_nil_r|].
  rewrite IH. unfold plug1. destruct (f_dir f); simpl; solve_Permutation.
Qed.

Lemma plug_internals c t : internals (plug c t) = internals t + cinternals c.
Proof.
  revert t. induction c as [|f c IH]; intros t; simpl; [lia|].
  rewrite IH. unfold plug1. destruct (f_dir f); simpl; lia.
Qed.

Lemma plug_wf c t : wf [] (plug c t) ↔ wf (cq c) t ∧ cwf c ∧ filled c t.
Proof.
  revert t. induction c as [|f c IH]; intros t; simpl; [tauto|].
  rewrite IH. unfold filled. unfold plug1. destruct (f_dir f) eqn:Ed; simpl.
  - split; intros H; decompose [and] H; split_and!; try done; try tauto; try (by destruct c).
  - split; intros H; decompose [and] H; split_and!; try done; try tauto; try (by destruct c).
Qed.

Section Rep.
Context {D : Type} `{!KeyTraits D}.
Implicit Types h : gmap loc (Node D).

Definition node_ok (nd : Node D) (int : bool) (p : list bool) : Prop :=
  intnode_ nd = int ∧ bitpos_ nd = length p ∧
  if int then data nd = None else ∃ d, data nd = Some d ∧ key d = p.

Fixpoint rep h (t : ptree) (thr : option loc) : Prop :=
  match t with
  | E => True
  | N x int p l r =>
      (∃ nd, h !! x = Some nd ∧ left_ nd = ptr l ∧ right_ nd = link r thr ∧ node_ok nd int p) ∧
      rep h l (Some x) ∧ rep h r thr
  end.

(** The frames of a context whose hole holds [t]. *)
Fixpoint crep h (c : ctx) (t : ptree) : Prop :=
  match c with
  | [] => True
  | f :: c =>
      (∃ nd, h !! f_x f = Some nd ∧
         left_ nd = (if f_dir f then ptr (f_sib f) else ptr t) ∧
         right_ nd = (if f_dir f then link t (cthr c) else link (f_sib f) (cthr c)) ∧
         node_ok nd (f_int f) (f_p f)) ∧
      rep h (f_sib f) (if f_dir f then Some (f_x f) else cthr c) ∧
      crep h c (plug1 f t)
  end.

Lemma plug_rep h c t : rep h (plug c t) None ↔ rep h t (cthr c) ∧ crep h c t.
Proof.
  revert t. induction c as [|f c IH]; intros t; simpl; [tauto|].
  rewrite IH. unfold plug1. destruct (f_dir f) eqn:Ed; simpl; tauto.
Qed.

(** Only the nodes of the tree matter. *)
Lemma rep_frame h h' t thr : (∀ x, x ∈ locs t → h' !! x = h !! x) → rep h t thr → rep h' t thr.
Proof.
  revert thr. induction t as [|x int p l IHl r IHr]; intros thr; simpl; [done|].
  intros Hh (Hn & Hl & Hr). split_and!.
  - rewrite Hh by (by left). done.
  - apply IHl; [|done]. intros y Hy. apply Hh. right. apply elem_of_app. tauto.
  - apply IHr; [|done]. intros y Hy. apply Hh. right. apply elem_of_app. tauto.
Qed.

(** The frames see the hole only through its pointer. *)
Lemma crep_frame h h' c t t' : (∀ x, x ∈ clocs c → h' !! x = h !! x) → ptr t' = ptr t →
  crep h c t → crep h' c t'.
Proof.
  revert t t'. induction c as [|f c IH]; intros t t'; simpl; [done|].
  intros Hh Hp (Hn & Hs & Hc).
  assert (El : ∀ o, link t' o = link t o) by (by destruct t, t'; simplify_eq/=).
  split_and!.
  - rewrite Hh by (by left). by rewrite Hp, El.
  - eapply rep_frame; [|done]. intros y Hy. apply Hh. right. apply elem_of_app. tauto.
  - eapply (IH (plug1 f t)); [|unfold plug1; by destruct (f_dir f)|done].
    intros y Hy. apply Hh. right. apply elem_of_app. tauto.
Qed.

Lemma rep_dom h t thr : rep h t thr → ∀ x, x ∈ locs t → x ∈ dom h.
Proof.
  revert thr. induction t as [|y int p l IHl r IHr]; intros thr; simpl; [by intros _ x ?%elem_of_nil|].
  intros ((nd & Hn & _) & Hl & Hr) x [->|[Hx|Hx]%elem_of_app]%elem_of_cons; [|by eauto..].
  by eapply elem_of_dom_2.
Qed.

Lemma rep_size h t thr : rep h t thr → NoDup (locs t) → length (locs t) ≤ size h.
Proof.
  intros Hr Hn. rewrite <- (size_list_to_set (C := gset loc)) by done. rewrite <- size_dom.
  apply subseteq_size. intros x. rewrite elem_of_list_to_set. by apply (rep_dom h t thr).
Qed.

(** The key of a data node, read through the heap. *)
Lemma rep_elem h t thr k x : rep h t thr → (k, x) ∈ elems t →
  ∃ nd d, h !! x = Some nd ∧ intnode_ nd = false ∧ bitpos_ nd = length k ∧ data nd = Some d ∧ key d = k.
Proof.
  revert thr. induction t as [|y int p l IHl r IHr]; intros thr; simpl; [by rewrite elem_of_nil|].
  intros ((nd & Hn & _ & _ & Hi & Hb & Hd) & Hl & Hr) [Hx|[Hx|Hx]%elem_of_app]%elem_of_app; [|by eauto..].
  destruct int; [by apply elem_of_nil in Hx|]. apply list_elem_of_singleton in Hx as [= -> ->].
  destruct Hd as (d & Hd & Hk). exists nd, d. done.
Qed.

(** A thread leads above bit [b]. *)
Definition thr_lt h (thr : option loc) (b : nat) : Prop :=
  ∀ y, thr = Some y → ∃ nd, h !! y = Some nd ∧ bitpos_ nd < b.

(** A subtree in its place. *)
Record sub h (q : list bool) (t : ptree) (thr : option loc) : Prop := {
  sub_rep : rep h t thr;
  sub_wf : wf q t;
  sub_thr : thr_lt h thr (length q);
}.

Lemma sub_children h q x int p l r thr : sub h q (N x int p l r) thr →
  sub h (p ++ [false]) l (Some x) ∧ sub h (p ++ [true]) r thr.
Proof.
  intros [((nd & Hn & _ & _ & _ & Hb & _) & Hl & Hr) (Hq & Wl & Wr & _) Ht].
  split; constructor; try done.
  - intros y [= <-]. exists nd. split; [done|]. rewrite length_app. simpl. lia.
  - intros y Hy. destruct (Ht y Hy) as (ny & ? & ?). exists ny. split; [done|].
    apply prefix_length in Hq. rewrite length_app. simpl. lia.
Qed.

Lemma plug_sub h c t : rep h (plug c t) None → wf [] (plug c t) → sub h (cq c) t (cthr c).
Proof.
  revert t. induction c as [|f c IH]; intros t; simpl; [by constructor|].
  intros Hr Hw. specialize (IH _ Hr Hw). unfold plug1 in IH.
  destruct (f_dir f); apply sub_children in IH as [? ?]; done.
Qed.

(** What a walker sees at a node: its fields, and whether the pointer it follows is
    a child or a thread. *)
Lemma sub_node h q x int p l r thr : sub h q (N x int p l r) thr →
  ∃ nd, load h x = Ret nd ∧ left_ nd = ptr l ∧ right_ nd = link r thr ∧ node_ok nd int p ∧
    (∀ y, ptr l = Some y → is_thread h nd y = Ret false) ∧
    (∀ y, link r thr = Some y → is_thread h nd y = Ret (match r with E => true | _ => false end)).
Proof.
  intros Hs. pose proof Hs as [((nd & Hn & Hl & Hr & Hok) & Rl & Rr) (Hq & Wl & Wr & _) Ht].
  exists nd. unfold load. rewrite Hn. split_and!; try done.
  - intros y Hy. destruct l as [|y' il pl ll rl]; simplify_eq/=.
    destruct Rl as ((nl & Hnl & _ & _ & _ & Hb & _) & _). unfold is_thread, load. rewrite Hnl. simpl.
    destruct Wl as (Hp%prefix_length & _). destruct Hok as (_ & -> & _). rewrite length_app in Hp. simpl in Hp.
    f_equal. apply Nat.leb_gt. lia.
  - intros y Hy. destruct r as [|y' il pl ll rl]; simplify_eq/=.
    + destruct (Ht y Hy) as (ny & Hny & Hlt). unfold is_thread, load. rewrite Hny. simpl.
      apply prefix_length in Hq. destruct Hok as (_ & -> & _). f_equal. apply Nat.leb_le. lia.
    + destruct Rr as ((nl & Hnl & _ & _ & _ & Hb & _) & _). unfold is_thread, load. rewrite Hnl. simpl.
      destruct Wr as (Hp%prefix_length & _). destruct Hok as (_ & -> & _). rewrite length_app in Hp. simpl in Hp.
      f_equal. apply Nat.leb_gt. lia.
Qed.

(** One step of a walker along the key of [d]. *)
Lemma sub_walk h q x int p l r thr d : sub h q (N x int p l r) thr →
  ∃ nd, load h x = Ret nd ∧ left_ nd = ptr l ∧ right_ nd = link r thr ∧ node_ok nd int p ∧
    match side (key d) p l r with
    | E => child d nd = None ∨ ∃ y, child d nd = Some y ∧ is_thread h nd y = Ret true
    | N y _ _ _ _ => child d nd = Some y ∧ is_thread h nd y = Ret false
    end.
Proof.
  intros Hs. destruct (sub_node _ _ _ _ _ _ _ _ Hs) as (nd & Hx & Hl & Hr & Hok & Tl & Tr).
  exists nd. split_and!; try done. unfold side, child. destruct Hok as (_ & Hb & _).
  rewrite Hb, GetBit_key, Hl, Hr. destruct (bit (key d) (length p)).
  - destruct r; simpl in *; [|by auto]. destruct thr as [y|]; [|by left]. right. eauto.
  - destruct l; simpl in *; [by left|by auto].
Qed.

End Rep.
