(* ===== verification/PatriciaOps.v ===== *)
(** * The operations of the Patricia tree

    Every operation of the model is followed through the heap: [Find] and [LPMFind]
    look up, [Insert] and [Remove] change exactly one key.  The walks are in
    [PatriciaThms]. *)

From stdpp Require Import gmap.
From Stdlib Require Import Sorted.
From S2P Require Import Prelude Patricia PatriciaInv.
Import PT.
Open Scope nat_scope.

Module PTO.
Section Ops.
Context {D : Type} `{!KeyTraits D}.
Implicit Types (h : gmap loc (Node D)) (T : Tree D) (d : D).

(** ** Lookup *)

Definition down (x : loc) (int : bool) (k p : list bool) (l r : ptree) (c : ctx) : ctx :=
  F x int p (bit k (length p)) (if bit k (length p) then l else r) :: c.

Lemma plug_down x int k p l r c :
  plug (down x int k p l r c) (side k p l r) = plug c (N x int p l r).
Proof. unfold down, side. simpl. unfold plug1. simpl. by destruct (bit k (length p)). Qed.

Lemma follows_down x int k p l r c : follows k c → follows k (down x int k p l r c).
Proof. intros H. by constructor. Qed.

Lemma locs_side k p l r : length (locs (side k p l r)) ≤ length (locs l ++ locs r).
Proof. rewrite length_app. unfold side. destruct (bit k (length p)); lia. Qed.

Lemma Find_descend_S d h f pPrev p x : Find_descend d h (S f) pPrev p (Some x) =
  (n ← load h x;
   if BitLength d <? bitpos_ n then Ret (pPrev, p, None)
   else if (bitpos_ n =? BitLength d) && negb (intnode_ n) then Ret (pPrev, p, Some x)
   else match child d n with
        | None => Ret (p, Some x, None)
        | Some y => thread ← is_thread h n y;
                    if (thread : bool) then Ret (p, Some x, None) else Find_descend d h f p (Some x) (Some y)
        end).
Proof. done. Qed.

(** The loop of [FindNode] computes [tfind], and knows its position. *)
Lemma Find_descend_ok d h f t c :
  rep h (plug c t) None → wf [] (plug c t) → length (locs t) ≤ f → follows (key d) c →
  (∃ a b, Find_descend d h f (cparent (tail c)) (cparent c) (ptr t) = Ret (a, b, None) ∧
     tfind (key d) t = None) ∨
  (∃ c' x p l r, Find_descend d h f (cparent (tail c)) (cparent c) (ptr t) =
       Ret (cparent (tail c'), cparent c', Some x) ∧
     plug c' (N x false p l r) = plug c t ∧ length p = BitLength d ∧ follows (key d) c' ∧
     tfind (key d) t = (if decide (p = key d) then Some x else None)).
Proof.
  revert t c. induction f as [|f IH]; intros [|x int p l r] c Hr Hw Hf Hfol; try (simpl in Hf; lia);
    [left; simpl; eauto..|].
  pose proof (plug_sub h c _ Hr Hw) as Hs.
  destruct (sub_walk _ _ _ _ _ _ _ _ d Hs) as (nd & Hx & _ & _ & (Hi & Hb & _) & Hwalk).
  cbn [ptr]. rewrite Find_descend_S, Hx. cbn [mbind outcome_mbind]. rewrite Hi, Hb.
  cbn [tfind]. rewrite key_length.
  destruct (Nat.ltb_spec (BitLength d) (length p)) as [H1|H1]; [by left; eauto|].
  destruct ((length p =? BitLength d) && negb int) eqn:H2.
  { right. apply andb_true_iff in H2 as [H2%Nat.eqb_eq H3%negb_true_iff]. rewrite H3.
    by exists c, x, p, l, r. }
  assert (Et : (if bit (key d) (length p) then tfind (key d) r else tfind (key d) l) =
    tfind (key d) (side (key d) p l r)) by (unfold side; by destruct (bit _ _)).
  rewrite Et. clear Et.
  pose proof (locs_side (key d) p l r) as Hls.
  pose proof (plug_down x int (key d) p l r c) as Ep.
  destruct (side (key d) p l r) as [|y iy py ly ry] eqn:Es.
  - left. destruct Hwalk as [->|(y & -> & Hy)]; [eauto|]. rewrite Hy. cbn [mbind outcome_mbind]. eauto.
  - destruct Hwalk as [-> Hy]. rewrite Hy. cbn [mbind outcome_mbind].
    rewrite <- Ep in *. simpl in Hf. apply (IH _ _ Hr Hw); [lia|by apply follows_down].
Qed.

(** ** The state of a tree *)

Record repr T (t : ptree) : Prop := {
  r_rep : rep (heap T) t None;
  r_root : root_ T = ptr t;
  r_wf : wf [] t;
  r_nodup : NoDup (locs t);
  r_nodes : nodes_ T = Z.of_nat (length (elems t));
  r_int : int_nodes_ T = Z.of_nat (internals t);
}.

Lemma repr_fuel T t : repr T t → length (locs t) ≤ fuel (heap T).
Proof. intros []. pose proof (rep_size _ _ _ r_rep0 r_nodup0). unfold fuel. lia. Qed.

Lemma found_node h d q x int p l r thr : sub h q (N x int p l r) thr → int = false →
  found d (Some x) h = Ret (bool_decide (key d = p)).
Proof.
  intros Hs ->. destruct (sub_node _ _ _ _ _ _ _ _ Hs) as (nd & Hx & _ & _ & (_ & _ & dx & Hd & <-) & _).
  unfold found. rewrite Hx. simpl. unfold NodeToData. rewrite Hd. simpl. by rewrite Compare_key.
Qed.

Lemma FindNode_tfind T t d : repr T t → FindNode d T = Ret (tfind (key d) t).
Proof.
  intros R. pose proof (repr_fuel T t R) as Hf. destruct R. unfold FindNode. rewrite r_root0.
  destruct (Find_descend_ok d (heap T) _ t [] r_rep0 r_wf0 Hf) as
    [(a & b & E1 & E2)|(c' & x & p & l & r & E1 & Ep & Hl & _ & E2)]; [constructor|..];
    simpl in E1; rewrite E1, E2; simpl; [done|].
  simpl in Ep. rewrite <- Ep in r_rep0, r_wf0. pose proof (plug_sub _ _ _ r_rep0 r_wf0) as Hs.
  pose proof (found_node _ d _ _ _ _ _ _ _ Hs eq_refl) as Hfd. unfold found in Hfd. simpl in Hfd. rewrite Hfd.
  simpl. case_decide as Hd; case_bool_decide; try congruence; done.
Qed.

(** ** Changing pointers *)

(** The objects and their keys stay. *)
Definition keeps h h' : Prop := ∀ y nd d, h !! y = Some nd → data nd = Some d →
  ∃ nd', h' !! y = Some nd' ∧ data nd' = Some d ∧ intnode_ nd' = intnode_ nd.

#[local] Instance keeps_preorder : PreOrder keeps.
Proof.
  split.
  - intros h y nd d Hy Hd. eauto.
  - intros h1 h2 h3 H1 H2 y nd d Hy Hd. destruct (H1 y nd d Hy Hd) as (n2 & Hy2 & Hd2 & E2).
    destruct (H2 y n2 d Hy2 Hd2) as (n3 & ? & ? & ?). exists n3. split_and!; congruence.
Qed.

Lemma keeps_update h x n n' : h !! x = Some n → data n' = data n → intnode_ n' = intnode_ n →
  keeps h (<[x := n']> h).
Proof.
  intros Hx Hd Hi y nd d Hy Hdd. destruct (decide (y = x)) as [->|Hne].
  - rewrite lookup_insert_eq. exists n'. split_and!; congruence.
  - rewrite lookup_insert_ne by done. eauto.
Qed.

Lemma keeps_new h x n : h !! x = None → keeps h (<[x := n]> h).
Proof.
  intros Hx y nd d Hy Hd. destruct (decide (y = x)) as [->|Hne]; [congruence|].
  rewrite lookup_insert_ne by done. eauto.
Qed.

Lemma keeps_delete h x n : h !! x = Some n → data n = None → keeps h (delete x h).
Proof.
  intros Hx Hd y nd d Hy Hdd. destruct (decide (y = x)) as [->|Hne]; [congruence|].
  rewrite lookup_delete_ne by done. eauto.
Qed.

Lemma store_ok x f h n : h !! x = Some n → store x f h = Ret (<[x := f n]> h).
Proof. intros H. unfold store, load. by rewrite H. Qed.

Lemma NodeToData_ok (n : Node D) d : data n = Some d → NodeToData n = Ret d.
Proof. intros H. unfold NodeToData. by rewrite H. Qed.

Lemma load_ok x h n : h !! x = Some n → load h x = Ret n.
Proof. intros H. unfold load. by rewrite H. Qed.

(** The rightmost node of a subtree carries its thread. *)
Lemma Rewire_loop_ok h f q t thr y : sub h q t thr → NoDup (locs t) → ptr t = Some y →
  length (locs t) ≤ f →
  ∃ x nd, RewireRightMost_loop h f y = Ret x ∧ h !! x = Some nd ∧ right_ nd = thr ∧ x ∈ locs t ∧
    ∀ v, rep (<[x := set_right v nd]> h) t v.
Proof.
  revert f q y. induction t as [|z int p l _ r IHr]; intros f q y Hs Hnd Hy Hf; [done|].
  injection Hy as <-. simpl in Hf.
  destruct (sub_node _ _ _ _ _ _ _ _ Hs) as (nd & Hx & Hl & Hr & Hok & _ & Ht).
  pose proof (sub_children _ _ _ _ _ _ _ _ Hs) as [Sl Sr].
  simpl in Hnd. apply NoDup_cons in Hnd as [Hz Hnd]. apply NoDup_app in Hnd as (Nl & Nlr & Nr).
  assert (Hhx : h !! z = Some nd) by (unfold load in Hx; by destruct (h !! z); simplify_eq/=).
  destruct f as [|f]; [lia|]. simpl. rewrite Hx. simpl. rewrite Hr.
  destruct r as [|y ir pr lr rr]; simpl.
  - exists z, nd. split_and!; try done; [|by left|].
    + destruct thr as [y|]; [|done]. specialize (Ht y eq_refl). unfold is_thread in Ht.
      destruct (load h y) as [ny|]; [|done]. simpl in *.
      injection Ht as Ht. apply Nat.leb_le in Ht.
      rewrite (proj2 (Nat.ltb_ge _ _) Ht). done.
    + intros v. split_and!; [|eapply rep_frame, sub_rep, Sl|done].
      * eexists. rewrite lookup_insert_eq. split_and!; [done|done|done|]. exact Hok.
      * intros w Hw. rewrite lookup_insert_ne; [done|]. intros ->. apply Hz, elem_of_app. by left.
  - specialize (Ht y eq_refl). unfold is_thread in Ht.
    destruct (load h y) as [ny|] eqn:Ey; [|done]. simpl in *. injection Ht as Ht. apply Nat.leb_gt in Ht.
    rewrite (proj2 (Nat.ltb_lt _ _) Ht). rewrite length_app in Hf. simpl in Hf.
    destruct (IHr f _ y Sr Nr eq_refl) as (x & nx & E & Hnx & Hrx & Hin & Hv); [lia|].
    exists x, nx. split_and!; try done; [right; apply elem_of_app; by right|].
    intros v.
    assert (Hxz : x ≠ z) by (intros ->; apply Hz, elem_of_app; by right).
    split_and!.
    + exists nd. rewrite lookup_insert_ne by done. done.
    + eapply rep_frame, sub_rep, Sl. intros w Hw. rewrite lookup_insert_ne; [done|].
      intros ->. by eapply Nlr.
    + apply Hv.
    + apply Hv.
    + apply Hv.
Qed.

Lemma RewireRightMost_ok h q t thr v : sub h q t thr → NoDup (locs t) → t ≠ E →
  ∃ h', RewireRightMost v (ptr t) h = Ret (thr, h') ∧ rep h' t v ∧
    (∀ y, y ∉ locs t → h' !! y = h !! y) ∧ keeps h h' ∧ dom h' = dom h.
Proof.
  intros Hs Hnd Hne. destruct (ptr t) as [y|] eqn:Ey; [|by destruct t].
  assert (Hf : length (locs t) ≤ fuel h).
  { pose proof (rep_size _ _ _ (sub_rep _ _ _ _ Hs) Hnd). unfold fuel. lia. }
  destruct (Rewire_loop_ok h _ q t thr y Hs Hnd Ey Hf) as (x & nd & E & Hx & Hr & Hin & Hv).
  unfold RewireRightMost. rewrite E. cbn [mbind outcome_mbind].
  rewrite (load_ok _ _ _ Hx). cbn [mbind outcome_mbind]. rewrite (store_ok _ _ _ _ Hx).
  cbn [mbind outcome_mbind]. rewrite Hr. eexists. split; [done|]. split_and!; [done| | |].
  - intros w Hw. rewrite lookup_insert_ne; [done|]. by intros ->.
  - by apply (keeps_update h x nd).
  - rewrite dom_insert_L. apply elem_of_dom_2 in Hx. set_solver.
Qed.

(** The pointer a parent keeps for the subtree [t']. *)
Definition clink (c : ctx) (t' : ptree) : option loc :=
  match c with [] => ptr t' | f :: c => if f_dir f then link t' (cthr c) else ptr t' end.

Lemma clink_ptr c t' : t' ≠ E → clink c t' = ptr t'.
Proof. unfold clink, link. destruct c as [|f c]; [done|]. by destruct (f_dir f), t'. Qed.

Lemma ptr_plug c t t' : c ≠ [] ∨ ptr t = ptr t' → ptr (plug c t) = ptr (plug c t').
Proof.
  revert t t'. induction c as [|f c IH]; intros t t' H; simpl; [by destruct H|].
  apply IH. right. unfold plug1. by destruct (f_dir f).
Qed.

(** Replacing the subtree at a position. *)
Lemma set_child_ok d c t t' T :
  crep (heap T) c t → follows (key d) c → NoDup (clocs c) → root_ T = ptr (plug c t) →
  ∃ h', set_child d (cparent c) (clink c t') T =
      Ret (mkTree h' (ptr (plug c t')) (nodes_ T) (int_nodes_ T)) ∧ crep h' c t' ∧
    (∀ y, y ∉ clocs c → h' !! y = heap T !! y) ∧ keeps (heap T) h' ∧ dom h' = dom (heap T) ∧
    (∀ y nd, heap T !! y = Some nd → ∃ nd', h' !! y = Some nd' ∧ bitpos_ nd' = bitpos_ nd).
Proof.
  intros Hc Hf Hn Hroot. destruct c as [|f c]; simpl.
  { eexists. split; [done|]. split_and!; [done..|]. eauto. }
  destruct Hc as ((nd & Hx & Hl & Hr & Hok) & Hs & Hc). apply Forall_cons in Hf as [Hf _].
  rewrite (load_ok _ _ _ Hx). cbn [mbind outcome_mbind].
  rewrite GetBit_key. destruct (Hok) as (_ & Hb & _). rewrite Hb, Hf. rewrite (store_ok _ _ _ _ Hx).
  cbn [mbind outcome_mbind]. simpl in Hn. apply NoDup_cons in Hn as [Hn1 Hn2].
  rewrite Hroot. rewrite (ptr_plug (f :: c) t t') by (by left).
  eexists. split; [done|]. split; [split_and!|split_and!].
  - eexists. rewrite lookup_insert_eq. split; [done|]. destruct (f_dir f); split_and!; done.
  - eapply rep_frame, Hs. intros w Hw. rewrite lookup_insert_ne; [done|]. intros <-.
    apply Hn1, elem_of_app. by left.
  - eapply crep_frame, Hc; [|unfold plug1; by destruct (f_dir f)].
    intros w Hw. rewrite lookup_insert_ne; [done|]. intros <-. apply Hn1, elem_of_app. by right.
  - intros w Hw. rewrite lookup_insert_ne; [done|]. intros <-. apply Hw. by left.
  - apply (keeps_update _ _ nd); [done|by destruct (f_dir f)..].
  - rewrite dom_insert_L. apply elem_of_dom_2 in Hx. set_solver.
  - intros w nw Hw. destruct (decide (w = f_x f)) as [->|Hne].
    + rewrite lookup_insert_eq. eexists. split; [done|]. simplify_eq. by destruct (f_dir f).
    + rewrite lookup_insert_ne by done. eauto.
Qed.

(** ** Insertion *)

Lemma Insert_descend_S d h f p x : Insert_descend d h (S f) p (Some x) =
  (n ← load h x;
   if (BitLength d <=? bitpos_ n) && negb (intnode_ n) then Ret (p, Some x)
   else match child d n with
        | None => Ret (Some x, None)
        | Some y => thread ← is_thread h n y;
                    if (thread : bool) then Ret (Some x, None) else Insert_descend d h f (Some x) (Some y)
        end).
Proof. done. Qed.

Lemma Insert_position_S d i h f p x : Insert_position d i h (S f) p (Some x) =
  (n ← load h x;
   if negb ((bitpos_ n <=? i) && (bitpos_ n <? BitLength d)) then Ret (p, Some x)
   else match child d n with
        | None => Ret (Some x, None)
        | Some y => thread ← is_thread h n y;
                    if (thread : bool) then Ret (Some x, None) else Insert_position d i h f (Some x) (Some y)
        end).
Proof. done. Qed.

Lemma leafkey_side k x int p l r : (length k <=? length p) && negb int = false →
  leafkey k (N x int p l r) =
    match side k p l r with E => p | _ => leafkey k (side k p l r) end.
Proof. intros H. simpl. rewrite H. unfold side. destruct (bit k (length p)); by destruct l, r. Qed.

Lemma elems_side k p l r e : e ∈ elems (side k p l r) → e ∈ elems l ++ elems r.
Proof. rewrite elem_of_app. unfold side. destruct (bit k (length p)); tauto. Qed.

Lemma sub_side h q x int p l r thr k : sub h q (N x int p l r) thr →
  sub h (p ++ [bit k (length p)]) (side k p l r) (if bit k (length p) then thr else Some x).
Proof. intros [Hl Hr]%sub_children. unfold side. by destruct (bit k (length p)). Qed.

(** The first loop ends at the node of [leafkey]. *)
Lemma Insert_descend_ok d h f q t thr p0 : sub h q t thr → t ≠ E → length (locs t) ≤ f →
  ∃ p x lf, Insert_descend d h f p0 (ptr t) = Ret (p, x) ∧
    match x with Some _ => x | None => p end = Some lf ∧ (leafkey (key d) t, lf) ∈ elems t.
Proof.
  revert q t thr p0. induction f as [|f IH]; intros q [|x int p l r] thr p0 Hs Hne Hf;
    try done; try (simpl in Hf; lia).
  destruct (sub_walk _ _ _ _ _ _ _ _ d Hs) as (nd & Hx & _ & _ & (Hi & Hb & _) & Hwalk).
  cbn [ptr]. rewrite Insert_descend_S, Hx. cbn [mbind outcome_mbind]. rewrite Hi, Hb, <- key_length.
  assert (Own : int = false → (p, x) ∈ elems (N x int p l r)).
  { intros E0. simpl. rewrite E0. apply elem_of_app. left. by apply list_elem_of_singleton. }
  destruct ((length (key d) <=? length p) && negb int) eqn:H2.
  { exists p0, (Some x), x. split_and!; [done..|]. cbn [leafkey]. rewrite H2. apply Own.
    by apply andb_true_iff in H2 as [_ ?%negb_true_iff]. }
  rewrite (leafkey_side _ x _ _ _ _ H2). pose proof (locs_side (key d) p l r) as Hls.
  pose proof (sub_side _ _ _ _ _ _ _ _ (key d) Hs) as Hss. simpl in Hf.
  destruct (side (key d) p l r) as [|y iy py ly ry] eqn:Es.
  - assert (Hint : int = false).
    { destruct int; [|done]. destruct (sub_wf _ _ _ _ Hs) as (_ & _ & _ & H). destruct (H eq_refl) as [? ?].
      unfold side in Es. by destruct (bit _ _). }
    exists (Some x), None, x. split_and!; [|done|by apply Own].
    destruct Hwalk as [->|(y & -> & Hy)]; [done|]. by rewrite Hy.
  - destruct Hwalk as [-> Hy]. rewrite Hy. cbn [mbind outcome_mbind].
    destruct (IH _ _ _ (Some x) Hss) as (p1 & x1 & lf & E1 & E2 & E3); [done|lia|].
    exists p1, x1, lf. split_and!; [done..|]. simpl. rewrite elem_of_app. right.
    apply (elems_side (key d) p). by rewrite Es.
Qed.

(** The second loop ends where the new key belongs. *)
Lemma Insert_position_ok d h f t c kl :
  rep h (plug c t) None → wf [] (plug c t) → length (locs t) ≤ f → follows (key d) c →
  cq c `prefix_of` key d → (t ≠ E → leafkey (key d) t = kl) →
  ∃ c' t', Insert_position d (lcp (key d) kl) h f (cparent c) (ptr t) = Ret (cparent c', ptr t') ∧
    plug c' t' = plug c t ∧ follows (key d) c' ∧ cq c' `prefix_of` key d ∧
    (t' ≠ E → leafkey (key d) t' = kl) ∧
    match t' with
    | E => True
    | N _ _ p _ _ => ¬ (length p ≤ lcp (key d) kl ∧ length p < length (key d))
    end.
Proof.
  revert t c. induction f as [|f IH]; intros [|x int p l r] c Hr Hw Hf Hfol Hq Hk;
    try (simpl in Hf; lia); [exists c, E; by split_and!..|].
  pose proof (plug_sub h c _ Hr Hw) as Hs.
  destruct (sub_walk _ _ _ _ _ _ _ _ d Hs) as (nd & Hx & _ & _ & (Hi & Hb & _) & Hwalk).
  cbn [ptr]. rewrite Insert_position_S, Hx. cbn [mbind outcome_mbind]. rewrite Hb, <- key_length.
  destruct (Nat.leb_spec (length p) (lcp (key d) kl)) as [H1|H1]; cbn [negb andb].
  2: { exists c, (N x int p l r). split_and!; try done. lia. }
  destruct (Nat.ltb_spec (length p) (length (key d))) as [H2|H2]; cbn [negb andb].
  2: { exists c, (N x int p l r). split_and!; try done. lia. }
  specialize (Hk ltac:(done)).
  destruct (leafkey_elem _ _ (key d) (sub_wf _ _ _ _ Hs) ltac:(done)) as [z Hz].
  assert (Hpk : p `prefix_of` kl).
  { assert (Hw' : wf p (N x int p l r)).
    { destruct (sub_wf _ _ _ _ Hs) as (_ & ?). by split. }
    rewrite <- Hk. by apply (elems_prefix p (N x int p l r) _ z). }
  assert (Hpd : p `prefix_of` key d) by (by eapply lcp_prefix_of).
  rewrite (leafkey_side _ x) in Hk.
  2: { apply andb_false_iff. left. by apply Nat.leb_gt. }
  pose proof (plug_down x int (key d) p l r c) as Ep. pose proof (locs_side (key d) p l r) as Hls.
  simpl in Hf. rewrite <- Ep in *.
  set (c1 := down x int (key d) p l r c) in *.
  assert (Hq1 : cq c1 `prefix_of` key d) by (by apply prefix_snoc).
  assert (Hf1 : follows (key d) c1) by (by apply follows_down).
  destruct (side (key d) p l r) as [|y iy py ly ry] eqn:Es.
  - exists c1, E. split_and!; try done. destruct Hwalk as [->|(y & -> & Hy)]; [done|]. by rewrite Hy.
  - destruct Hwalk as [-> Hy]. rewrite Hy. cbn [mbind outcome_mbind].
    apply (IH _ c1 Hr Hw); try done. lia.
Qed.

Lemma sub_frame h h' q t thr : (∀ y, y ∈ locs t → h' !! y = h !! y) →
  (∀ y, thr = Some y → h' !! y = h !! y) → sub h q t thr → sub h' q t thr.
Proof.
  intros Hl Ht [Hr Hw Hlt]. constructor; [by eapply rep_frame|done|].
  intros y Hy. rewrite (Ht y Hy). by apply Hlt.
Qed.

(** The subtree [t] of the heap [h] has become [t'], with one more key. *)
Record grown h t (n : loc) (k q : list bool) (thr : option loc) h' (t' : ptree) : Prop := {
  g_rep : rep h' t' thr;
  g_wf : wf q t';
  g_nodup : NoDup (locs t');
  g_locs : ∀ y, y ∈ locs t' → y = n ∨ y ∈ locs t ∨ y ∉ dom h;
  g_elems : elems t' ≡ₚ (k, n) :: elems t;
  g_frame : ∀ y, y ∈ dom h → y ≠ n → y ∉ locs t → h' !! y = h !! y;
  g_keeps : keeps h h';
}.

(** The node as [InsertNode] initialises it. *)
Definition new_node d : Node D := mkNode None None false (BitLength d) (Some d).

Section At.
Context (h : gmap loc (Node D)) (n : loc) (d : D) (q : list bool) (thr : option loc).
Hypothesis Hn : h !! n = Some (new_node d).
Hypothesis Hthr : thr ≠ Some n.

Lemma n_dom : n ∈ dom h.
Proof. by eapply elem_of_dom_2. Qed.

Lemma data_node_ok (l r : option loc) : node_ok (mkNode l r false (BitLength d) (Some d)) false (key d).
Proof. split_and!; [done|by rewrite key_length|]. by exists d. Qed.

(** The new node takes the place of an internal node with its key. *)
Lemma grown_replace x l r : sub h q (N x true (key d) l r) thr →
  NoDup (locs (N x true (key d) l r)) → n ∉ locs (N x true (key d) l r) →
  ∃ h2, RewireRightMost (Some n) (ptr l)
      (<[n := mkNode (ptr l) (link r thr) false (BitLength d) (Some d)]> h) = Ret (Some x, h2) ∧
    grown h (N x true (key d) l r) n (key d) q thr (delete x h2) (N n false (key d) l r).
Proof.
  intros Hs Hnd Hnl. pose proof (sub_children _ _ _ _ _ _ _ _ Hs) as [Sl Sr].
  pose proof (sub_wf _ _ _ _ Hs) as (Wq & Wl & Wr & Wi). destruct (Wi eq_refl) as [Nl Nr].
  simpl in Hnd, Hnl. rewrite not_elem_of_cons, not_elem_of_app in Hnl. destruct Hnl as (Nx & Nnl & Nnr).
  pose proof Hnd as Hnd0. apply NoDup_cons in Hnd as [Hx Hnd]. rewrite not_elem_of_app in Hx. destruct Hx as [Xl Xr].
  pose proof Hnd as Hnd1. apply NoDup_app in Hnd as (Dl & Dlr & Dr).
  set (h1 := <[n := _]> h).
  assert (Sl1 : sub h1 (key d ++ [false]) l (Some x)).
  { eapply sub_frame, Sl.
    - intros y Hy. unfold h1. rewrite lookup_insert_ne; [done|]. by intros ->.
    - intros y [= <-]. unfold h1. by rewrite lookup_insert_ne. }
  destruct (RewireRightMost_ok h1 _ l (Some x) (Some n) Sl1 Dl Nl) as (h2 & ER & R2 & F2 & K2 & D2).
  assert (Hx2 : ∃ nx, h2 !! x = Some nx ∧ data nx = None).
  { destruct (sub_rep _ _ _ _ Hs) as ((nx & Hx & _ & _ & _ & _ & Hd) & _). exists nx. split; [|done].
    rewrite F2 by done. unfold h1. by rewrite lookup_insert_ne. }
  exists h2. split; [done|]. constructor.
  - simpl. split_and!.
    + eexists. rewrite lookup_delete_ne, F2 by done. unfold h1. rewrite lookup_insert_eq.
      split; [done|]. simpl. split_and!; [done..|apply data_node_ok].
    + eapply rep_frame, R2. intros y Hy. rewrite lookup_delete_ne; [done|]. by intros ->.
    + eapply rep_frame, sub_rep, Sr. intros y Hy. rewrite lookup_delete_ne by (by intros ->).
      rewrite F2 by (intros Hy'; by eapply Dlr). unfold h1. rewrite lookup_insert_ne; [done|]. by intros ->.
  - simpl. split_and!; done.
  - simpl. apply NoDup_cons. rewrite not_elem_of_app. done.
  - simpl. intros y. rewrite !elem_of_cons. tauto.
  - simpl. done.
  - simpl. intros y Hy Hyn. rewrite not_elem_of_cons, not_elem_of_app. intros (Hyx & Hyl & _).
    rewrite lookup_delete_ne by done. rewrite F2 by done. unfold h1. by rewrite lookup_insert_ne.
  - destruct Hx2 as (nx & Hnx & Hdx).
    transitivity h1; [by apply (keeps_update h n (new_node d))|].
    transitivity h2; [done|]. by apply (keeps_delete h2 x nx).
Qed.

Lemma wf_below k px x int l r : k ++ [bit px (length k)] `prefix_of` px →
  wf q (N x int px l r) → wf (k ++ [bit px (length k)]) (N x int px l r).
Proof. intros Hp (_ & H). by split. Qed.

(** The subtree goes to the right of the new node. *)
Lemma grown_right x int px l r : sub h q (N x int px l r) thr →
  NoDup (locs (N x int px l r)) → n ∉ locs (N x int px l r) →
  q `prefix_of` key d → key d ++ [true] `prefix_of` px →
  grown h (N x int px l r) n (key d) q thr
    (<[n := mkNode None (Some x) false (BitLength d) (Some d)]> h)
    (N n false (key d) E (N x int px l r)).
Proof.
  intros Hs Hnd Hnl Hq Hp. set (t := N x int px l r) in *. constructor.
  - change (rep ?h1 (N n false ?k E t) thr) with
      ((∃ nd, h1 !! n = Some nd ∧ left_ nd = ptr E ∧ right_ nd = Some x ∧ node_ok nd false k) ∧ True ∧ rep h1 t thr).
    split_and!; [|done|].
    + eexists. rewrite lookup_insert_eq. split_and!; [done..|apply data_node_ok].
    + eapply rep_frame, sub_rep, Hs. intros y Hy. rewrite lookup_insert_ne; [done|]. by intros ->.
  - split_and!; [done|done| |done]. destruct (sub_wf _ _ _ _ Hs) as (_ & Hw). by split.
  - by apply NoDup_cons.
  - intros y [->|Hy]%elem_of_cons; [by left|]. right. by left.
  - done.
  - intros y _ Hyn _. by rewrite lookup_insert_ne.
  - by apply (keeps_update h n (new_node d)).
Qed.

(** The subtree goes to the left of the new node. *)
Lemma grown_left x int px l r : sub h q (N x int px l r) thr →
  NoDup (locs (N x int px l r)) → n ∉ locs (N x int px l r) →
  q `prefix_of` key d → key d ++ [false] `prefix_of` px →
  ∃ h2, RewireRightMost (Some n) (Some x)
      (<[n := mkNode (Some x) None false (BitLength d) (Some d)]> h) = Ret (thr, h2) ∧
    h2 !! n = Some (mkNode (Some x) None false (BitLength d) (Some d)) ∧
    grown h (N x int px l r) n (key d) q thr
      (<[n := mkNode (Some x) thr false (BitLength d) (Some d)]> h2)
      (N n false (key d) (N x int px l r) E).
Proof.
  intros Hs Hnd Hnl Hq Hp. set (t := N x int px l r) in *. set (h1 := <[n := _]> h).
  assert (S1 : sub h1 q t thr).
  { eapply sub_frame, Hs.
    - intros y Hy. unfold h1. rewrite lookup_insert_ne; [done|]. by intros ->.
    - intros y Hy. unfold h1. rewrite lookup_insert_ne; [done|]. by intros ->. }
  destruct (RewireRightMost_ok h1 _ t thr (Some n) S1 Hnd ltac:(done)) as (h2 & ER & R2 & F2 & K2 & D2).
  assert (H2n : h2 !! n = Some (mkNode (Some x) None false (BitLength d) (Some d))).
  { rewrite F2 by done. unfold h1. by rewrite lookup_insert_eq. }
  exists h2. split; [done|]. split; [done|]. constructor.
  - change (rep ?h3 (N n false ?k t E) thr) with
      ((∃ nd, h3 !! n = Some nd ∧ left_ nd = Some x ∧ right_ nd = thr ∧ node_ok nd false k) ∧
       rep h3 t (Some n) ∧ True).
    split_and!; [| |done].
    + eexists. rewrite lookup_insert_eq. split_and!; [done..|apply data_node_ok].
    + eapply rep_frame, R2. intros y Hy. rewrite lookup_insert_ne; [done|]. by intros ->.
  - split_and!; [done| |done|done]. destruct (sub_wf _ _ _ _ Hs) as (_ & Hw). by split.
  - simpl. rewrite app_nil_r. by apply NoDup_cons.
  - simpl. rewrite app_nil_r. intros y [->|Hy]%elem_of_cons; [by left|]. right. by left.
  - simpl. by rewrite app_nil_r.
  - intros y _ Hyn Hy. rewrite lookup_insert_ne, F2 by done. unfold h1. by rewrite lookup_insert_ne.
  - transitivity h1; [by apply (keeps_update h n (new_node d))|].
    transitivity h2; [done|]. by eapply keeps_update.
Qed.

(** A new internal node above the subtree, the new node on the right. *)
Lemma grown_fork_right m x int px l r p0 : m ∉ dom h → sub h q (N x int px l r) thr →
  NoDup (locs (N x int px l r)) → n ∉ locs (N x int px l r) →
  q `prefix_of` p0 → p0 ++ [false] `prefix_of` px → p0 ++ [true] `prefix_of` key d →
  ∃ h2, RewireRightMost (Some m) (Some x) (<[m := mkNode (Some x) (Some n) true (length p0) None]> h) =
      Ret (thr, h2) ∧
    h2 !! n = Some (new_node d) ∧
    grown h (N x int px l r) n (key d) q thr
      (<[n := mkNode None thr false (BitLength d) (Some d)]> h2)
      (N m true p0 (N x int px l r) (N n false (key d) E E)).
Proof.
  intros Hm Hs Hnd Hnl Hq Hpx Hpk. set (t := N x int px l r) in *. set (h1 := <[m := _]> h).
  assert (Hml : m ∉ locs t) by (intros Hi; by apply Hm, (rep_dom h t thr); [apply Hs|]).
  assert (Hmn : m ≠ n) by (intros ->; apply Hm, n_dom).
  assert (S1 : sub h1 q t thr).
  { eapply sub_frame, Hs.
    - intros y Hy. unfold h1. rewrite lookup_insert_ne; [done|]. by intros ->.
    - intros y Hy. unfold h1. rewrite lookup_insert_ne; [done|]. intros ->.
      destruct (sub_thr _ _ _ _ Hs y Hy) as (? & Hy' & _). by apply Hm; eapply elem_of_dom_2. }
  destruct (RewireRightMost_ok h1 _ t thr (Some m) S1 Hnd ltac:(done)) as (h2 & ER & R2 & F2 & K2 & D2).
  assert (H2n : h2 !! n = Some (new_node d)).
  { rewrite F2 by done. unfold h1. by rewrite lookup_insert_ne. }
  exists h2. split; [done|]. split; [done|]. constructor.
  - change (rep ?h3 (N m true p0 t (N n false ?k E E)) thr) with
      ((∃ nd, h3 !! m = Some nd ∧ left_ nd = Some x ∧ right_ nd = Some n ∧ node_ok nd true p0) ∧
       rep h3 t (Some m) ∧
       (∃ nd, h3 !! n = Some nd ∧ left_ nd = None ∧ right_ nd = thr ∧ node_ok nd false k) ∧ True ∧ True).
    split_and!; [| | |done|done].
    + eexists. rewrite lookup_insert_ne, F2 by done. unfold h1. rewrite lookup_insert_eq. done.
    + eapply rep_frame, R2. intros y Hy. rewrite lookup_insert_ne; [done|]. by intros ->.
    + eexists. rewrite lookup_insert_eq. split_and!; [done..|apply data_node_ok].
  - destruct (sub_wf _ _ _ _ Hs) as (_ & Hw). simpl. split_and!; try done; apply Hw.
  - apply NoDup_cons. split; [|apply NoDup_app; split_and!; [done| |]].
    + rewrite elem_of_app. intros [?|?%list_elem_of_singleton]; done.
    + intros y Hy ->%list_elem_of_singleton. done.
    + apply NoDup_singleton.
  - intros y [->|[Hy|Hy%list_elem_of_singleton]%elem_of_app]%elem_of_cons; tauto.
  - change (elems t ++ [(key d, n)] ≡ₚ (key d, n) :: elems t). by rewrite Permutation_app_comm.
  - intros y Hyd Hyn Hy. rewrite lookup_insert_ne, F2 by done. unfold h1. rewrite lookup_insert_ne; [done|].
    by intros ->.
  - transitivity h1; [by apply keeps_new, not_elem_of_dom|]. transitivity h2; [done|].
    by apply (keeps_update h2 n (new_node d)).
Qed.

(** ... and on the left. *)
Lemma grown_fork_left m x int px l r p0 : m ∉ dom h → sub h q (N x int px l r) thr →
  NoDup (locs (N x int px l r)) → n ∉ locs (N x int px l r) →
  q `prefix_of` p0 → p0 ++ [true] `prefix_of` px → p0 ++ [false] `prefix_of` key d →
  grown h (N x int px l r) n (key d) q thr
    (<[n := mkNode None (Some m) false (BitLength d) (Some d)]>
      (<[m := mkNode (Some n) (Some x) true (length p0) None]> h))
    (N m true p0 (N n false (key d) E E) (N x int px l r)).
Proof.
  intros Hm Hs Hnd Hnl Hq Hpx Hpk. set (t := N x int px l r) in *. set (h1 := <[m := _]> h).
  assert (Hml : m ∉ locs t) by (intros Hi; by apply Hm, (rep_dom h t thr); [apply Hs|]).
  assert (Hmn : m ≠ n) by (intros ->; apply Hm, n_dom).
  constructor.
  - change (rep ?h3 (N m true p0 (N n false ?k E E) t) thr) with
      ((∃ nd, h3 !! m = Some nd ∧ left_ nd = Some n ∧ right_ nd = Some x ∧ node_ok nd true p0) ∧
       ((∃ nd, h3 !! n = Some nd ∧ left_ nd = None ∧ right_ nd = Some m ∧ node_ok nd false k) ∧ True ∧ True) ∧
       rep h3 t thr).
    split_and!; [| |done|done|].
    + eexists. rewrite lookup_insert_ne by done. unfold h1. rewrite lookup_insert_eq. done.
    + eexists. rewrite lookup_insert_eq. split_and!; [done..|apply data_node_ok].
    + eapply rep_frame, sub_rep, Hs. intros y Hy. unfold h1.
      rewrite !lookup_insert_ne; [done|by intros ->..].
  - destruct (sub_wf _ _ _ _ Hs) as (_ & Hw). simpl. split_and!; try done; apply Hw.
  - apply NoDup_cons. split; [|apply NoDup_cons; split; [|exact Hnd]].
    + intros [?|?]%elem_of_cons; done.
    + done.
  - intros y [->|[Hy|Hy]%elem_of_cons]%elem_of_cons; tauto.
  - done.
  - intros y Hyd Hyn Hy. unfold h1. rewrite !lookup_insert_ne; [done|by intros ->|done].
  - transitivity h1; [by apply keeps_new, not_elem_of_dom|].
    apply (keeps_update h1 n (new_node d)); [|done..]. unfold h1. by rewrite lookup_insert_ne.
Qed.

End At.

Lemma prefix_take_bit (k px : list bool) i : i < length px → i < length k → take i k = take i px →
  take i k ++ [bit px i] `prefix_of` px ∧ take i k ++ [bit k i] `prefix_of` k.
Proof.
  intros H1 H2 Et.
  assert (L : length (take i k) = i) by (rewrite length_take; lia).
  pose proof (prefix_snoc (take i k) px) as P1. pose proof (prefix_snoc (take i k) k) as P2.
  rewrite L in P1, P2. split; [apply P1; [rewrite Et; apply prefix_take|done]|apply P2; [apply prefix_take|done]].
Qed.

(** The arithmetic of the position: how the new key and the prefix of the subtree
    it stopped at relate. *)
Lemma position_cases k kl px : px `prefix_of` kl → kl ≠ k →
  ¬ (length px ≤ lcp k kl ∧ length px < length k) →
  (length px = lcp k kl ∧ px = k) ∨
  (lcp k kl < length px ∧ lcp k kl = length k ∧ k ++ [bit kl (length k)] `prefix_of` px) ∨
  (lcp k kl < length px ∧ lcp k kl < length k ∧ bit k (lcp k kl) ≠ bit px (lcp k kl) ∧
   take (lcp k kl) k ++ [bit px (lcp k kl)] `prefix_of` px ∧
   take (lcp k kl) k ++ [bit k (lcp k kl)] `prefix_of` k).
Proof.
  intros Hp Hne Hst. set (i := lcp k kl). pose proof (lcp_le k kl) as [L1 L2]. fold i in L1, L2.
  pose proof (lcp_take k kl) as Ht. fold i in Ht.
  assert (Htp : i ≤ length px → take i kl = take i px).
  { intros. destruct Hp as [s ->]. by rewrite take_app_le. }
  destruct (decide (length px = i)) as [Ei|Ei].
  - left. split; [done|]. assert (i = length k) by lia.
    apply prefix_eq; [|lia]. eapply lcp_prefix_of; [exact Hp|]. fold i. lia.
  - right. assert (Hi : i < length px) by lia.
    destruct (decide (i = length k)) as [Ek|Ek].
    + left. split; [done|]. split; [done|].
      assert (Hkl : k `prefix_of` kl) by (by apply lcp_prefix).
      assert (Hkp : k `prefix_of` px).
      { exists (drop (length k) px). rewrite <- (take_drop (length k) px) at 1. f_equal.
        rewrite <- Ek, <- Htp by lia. rewrite <- Ht, Ek. by rewrite firstn_all. }
      rewrite (prefix_of_bit px kl) by (done || lia). apply prefix_snoc; [done|lia].
    + right. split; [done|]. split; [lia|].
      assert (Hb : bit kl i = bit px i) by (by apply prefix_of_bit).
      split; [rewrite <- Hb; apply lcp_diff; fold i; [lia|apply prefix_length in Hp; lia]|].
      apply prefix_take_bit; [done|lia|]. rewrite Ht. apply Htp. lia.
Qed.

Lemma leafkey_prefix q x int p l r k : wf q (N x int p l r) → p `prefix_of` leafkey k (N x int p l r).
Proof.
  intros Hw. destruct (leafkey_elem _ _ k Hw ltac:(done)) as [z Hz].
  eapply (elems_prefix p (N x int p l r)); [|exact Hz]. destruct Hw as (_ & Hw). by split.
Qed.

Lemma Insert_at_ok n d dl q x int px l r thr T :
  heap T !! n = Some (new_node d) → thr ≠ Some n → sub (heap T) q (N x int px l r) thr →
  NoDup (locs (N x int px l r)) → n ∉ locs (N x int px l r) → q `prefix_of` key d →
  leafkey (key d) (N x int px l r) = key dl → key dl ≠ key d →
  ¬ (length px ≤ lcp (key d) (key dl) ∧ length px < length (key d)) →
  ∃ l' h' t', Insert_at n d dl (lcp (key d) (key dl)) x T =
      Ret (l', mkTree h' (root_ T) (nodes_ T)
        (int_nodes_ T + Z.of_nat (internals t') - Z.of_nat (internals (N x int px l r)))) ∧
    ptr t' = Some l' ∧ grown (heap T) (N x int px l r) n (key d) q thr h' t'.
Proof.
  intros Hn Hthr Hs Hnd Hnl Hq Hlk Hne Hst.
  pose proof (sub_wf _ _ _ _ Hs) as Hw.
  pose proof (leafkey_prefix _ _ _ _ _ _ (key d) Hw) as Hpx. rewrite Hlk in Hpx.
  pose proof Hs as [((nx & Hx & Hl & Hr & Hok) & _) _ _]. destruct Hok as (Hi & Hb & _).
  unfold Insert_at. rewrite (load_ok _ _ _ Hx). cbn [mbind outcome_mbind]. rewrite Hb.
  destruct (position_cases _ _ _ Hpx Hne Hst) as [(E1 & E2)|[(E1 & E2 & E3)|(E1 & E2 & E3 & E4 & E5)]].
  - (* an internal node with this key *)
    rewrite E1, Nat.eqb_refl.
    assert (Ei : int = true).
    { destruct int; [done|]. cbn [leafkey] in Hlk. rewrite E2, Nat.leb_refl in Hlk. by destruct Hne. }
    subst int px. rewrite Ei in *.
    rewrite (store_ok _ _ _ _ Hn). cbn [mbind outcome_mbind].
    rewrite (store_ok _ _ _ (set_right (right_ nx) (new_node d))) by apply lookup_insert_eq.
    cbn [mbind outcome_mbind]. rewrite insert_insert_eq, Hl, Hr. unfold new_node, set_left, set_right. cbn [left_ right_ intnode_ bitpos_ data].
    destruct (grown_replace (heap T) n d q thr Hn Hthr x l r Hs Hnd Hnl) as (h2 & -> & G).
    cbn [mbind outcome_mbind]. exists n, (delete x h2), (N n false (key d) l r).
    split_and!; [|done|done]. do 3 f_equal. simpl. lia.
  - rewrite (proj2 (Nat.eqb_neq _ _)) by lia. rewrite <- key_length, E2, Nat.eqb_refl, GetBit_key.
    assert (Ht1 : (int_nodes_ T = int_nodes_ T + Z.of_nat (internals (N x int px l r)) -
      Z.of_nat (internals (N x int px l r)))%Z) by lia.
    destruct (bit (key dl) (length (key d))) eqn:Eb; rewrite (store_ok _ _ _ _ Hn); cbn [mbind outcome_mbind].
    + pose proof (grown_right (heap T) n d q thr Hn Hthr x int px l r Hs Hnd Hnl Hq E3) as G.
      eexists n, _, _. split_and!; [| |exact G]; [do 3 f_equal; simpl in *; lia|done].
    + unfold new_node, set_left, set_right. cbn [left_ right_ intnode_ bitpos_ data].
      destruct (grown_left (heap T) n d q thr Hn Hthr x int px l r Hs Hnd Hnl Hq E3) as (h2 & -> & H2n & G).
      cbn [mbind outcome_mbind]. rewrite (store_ok _ _ _ _ H2n). cbn.
      eexists n, _, _. split_and!; [| |exact G]; [do 3 f_equal; simpl in *; lia|done].
  - rewrite (proj2 (Nat.eqb_neq _ _)) by lia. rewrite <- key_length, (proj2 (Nat.eqb_neq _ _)) by lia.
    rewrite GetBit_key. set (i := lcp (key d) (key dl)) in *. set (m := fresh (dom (heap T))).
    assert (Hm : m ∉ dom (heap T)) by apply is_fresh.
    assert (Li : length (take i (key d)) = i) by (rewrite length_take; lia).
    assert (Hqp : q `prefix_of` take i (key d)).
    { destruct Hw as (Hqx & _).
      assert (Hlq : length q ≤ i).
      { apply prefix_lcp; [done|]. by etrans. }
      destruct Hq as [s ->]. rewrite take_app_ge by lia. by apply prefix_app_r. }
    destruct (bit (key d) i) eqn:Eb; [assert (Ex : bit px i = false) by (by destruct (bit px i))|
      assert (Ex : bit px i = true) by (by destruct (bit px i))]; rewrite Ex in E4.
    + destruct (grown_fork_right (heap T) n d q thr Hn Hthr m x int px l r (take i (key d)) Hm Hs Hnd Hnl Hqp E4 E5)
        as (h2 & ER & H2n & G). rewrite Li in ER. rewrite ER. cbn [mbind outcome_mbind].
      rewrite (store_ok _ _ _ _ H2n). cbn.
      eexists m, _, _. split_and!; [| |exact G]; [do 3 f_equal; simpl in *; lia|done].
    + pose proof (grown_fork_left (heap T) n d q thr Hn Hthr m x int px l r (take i (key d)) Hm Hs Hnd Hnl Hqp E4 E5) as G.
      rewrite Li in G.
      rewrite (store_ok _ _ _ (new_node d)).
      2: { rewrite lookup_insert_ne; [done|]. intros ->. apply Hm. by eapply elem_of_dom_2. }
      cbn. eexists m, _, _. split_and!; [| |exact G]; [do 3 f_equal; simpl in *; lia|done].
Qed.

(** The pieces of a tree at a position. *)
Lemma repr_at T c t : repr T (plug c t) →
  sub (heap T) (cq c) t (cthr c) ∧ crep (heap T) c t ∧ cwf c ∧ NoDup (locs t) ∧ NoDup (clocs c) ∧
  (∀ y, y ∈ locs t → y ∉ clocs c) ∧ (∀ y, y ∈ locs t ∨ y ∈ clocs c → y ∈ dom (heap T)).
Proof.
  intros []. pose proof (plug_sub _ _ _ r_rep0 r_wf0) as Hs.
  apply plug_wf in r_wf0 as (_ & Hc & _). pose proof (rep_dom _ _ _ r_rep0) as Hd.
  apply plug_rep in r_rep0 as [_ Hr].
  rewrite plug_locs in r_nodup0. apply NoDup_app in r_nodup0 as (? & ? & ?).
  split_and!; try done. intros y Hy. apply Hd. rewrite plug_locs. by apply elem_of_app.
Qed.

(** A changed subtree linked into its position. *)
Lemma relink d c t t' T h2 :
  repr T (plug c t) → follows (key d) c → crep h2 c t →
  rep h2 t' (cthr c) → wf (cq c) t' → NoDup (locs t') → (∀ y, y ∈ locs t' → y ∉ clocs c) →
  filled c t' →
  ∃ h3, (∀ nn ii, set_child d (cparent c) (clink c t') (mkTree h2 (root_ T) nn ii) =
      Ret (mkTree h3 (ptr (plug c t')) nn ii)) ∧
    (∀ nn ii, nn = (nodes_ T + Z.of_nat (length (elems t')) - Z.of_nat (length (elems t)))%Z →
      ii = (int_nodes_ T + Z.of_nat (internals t') - Z.of_nat (internals t))%Z →
      repr (mkTree h3 (ptr (plug c t')) nn ii) (plug c t')) ∧
    (∀ y, y ∉ clocs c → h3 !! y = h2 !! y) ∧ keeps h2 h3.
Proof.
  intros R Hf Hc Hr Hw Hn Hdis Hfill.
  destruct (repr_at T c t R) as (_ & _ & Wc & _ & Nc & _ & _). destruct R.
  destruct (set_child_ok d c t t' (mkTree h2 (root_ T) 0 0)) as (h3 & E1 & C3 & F3 & K3 & _);
    [done..|]. simpl in *.
  exists h3. split_and!; [| |done|done].
  { intros nn ii. revert E1. unfold set_child. destruct (cparent c) as [pl|]; simpl.
    - destruct (load h2 pl) as [np|]; [|done]. cbn [mbind outcome_mbind].
      destruct (store _ _ _); [|done]. cbn [mbind outcome_mbind]. by intros [= -> ->].
    - by intros [= -> ->]. }
  intros nn ii -> ->. constructor; simpl.
  - apply plug_rep. split; [|done]. eapply rep_frame, Hr. intros y Hy. apply F3. by apply Hdis.
  - done.
  - by apply plug_wf.
  - rewrite plug_locs. apply NoDup_app. done.
  - rewrite r_nodes0, (Permutation_length (plug_elems c t)), (Permutation_length (plug_elems c t')).
    rewrite !length_app. lia.
  - rewrite r_int0, !plug_internals. lia.
Qed.

Lemma crep_dom h c t : crep h c t → ∀ y, cthr c = Some y → y ∈ clocs c.
Proof.
  clear. intros _. induction c as [|f c IH]; simpl; [done|]. intros y. destruct (f_dir f).
  - intros Hy. right. apply elem_of_app. right. by apply IH.
  - intros [= <-]. by left.
Qed.

(** The fields of the new node are reset. *)
Lemma reset_node_ok n d nd h : h !! n = Some nd → data nd = Some d → intnode_ nd = false →
  (h ← store n (set_left None) h; h ← store n (set_right None) h; store n (set_bitpos (BitLength d)) h) =
    Ret (<[n := new_node d]> h).
Proof.
  intros Hn Hd Hi. rewrite (store_ok _ _ _ _ Hn). cbn [mbind outcome_mbind].
  rewrite (store_ok _ _ _ (set_left None nd)) by apply lookup_insert_eq. cbn [mbind outcome_mbind].
  rewrite insert_insert_eq.
  rewrite (store_ok _ _ _ (set_right None (set_left None nd))) by apply lookup_insert_eq.
  rewrite insert_insert_eq. unfold new_node, set_bitpos, set_right, set_left. simpl. by rewrite Hd, Hi.
Qed.

(** The new node takes an empty place: it gets the thread that ends there. *)
Lemma Insert_empty_ok n d c h T : h !! n = Some (new_node d) → crep h c E → follows (key d) c → cq c `prefix_of` key d →
  let T1 := mkTree h (root_ T) (nodes_ T + 1) (int_nodes_ T) in
  let h2 := <[n := mkNode None (cthr c) false (BitLength d) (Some d)]> h in
  match cparent c with
  | None => Ret (n, T1)
  | Some pl => np ← load (heap T1) pl;
      h ← store n (set_right (if GetBit d (bitpos_ np) then right_ np else cparent c)) (heap T1);
      Ret (n, mkTree h (root_ T1) (nodes_ T1) (int_nodes_ T1))
  end = Ret (n, mkTree h2 (root_ T) (nodes_ T + 1) (int_nodes_ T)) ∧
  grown h E n (key d) (cq c) (cthr c) h2 (N n false (key d) E E).
Proof.
  intros Hn Hc Hf Hq T1 h2. split.
  - destruct c as [|f c]; simpl; [unfold T1, h2; by rewrite insert_id|].
    destruct Hc as ((nf & Hx & _ & Hr & _ & Hb & _) & _).
    rewrite (load_ok _ _ _ Hx). cbn [mbind outcome_mbind]. rewrite (store_ok _ _ _ _ Hn). cbn [mbind outcome_mbind].
    do 3 f_equal. apply Forall_cons in Hf as [Hf _]. rewrite GetBit_key, Hb, Hf. unfold h2. f_equal.
    unfold set_right, new_node. simpl. rewrite Hr. by destruct (f_dir f).
  - constructor; simpl; try done.
    + split_and!; [|done..]. eexists. unfold h2. rewrite lookup_insert_eq. split_and!; [done..|]. apply data_node_ok.
    + apply NoDup_singleton.
    + intros y ?%list_elem_of_singleton. by left.
    + intros y _ Hy _. unfold h2. by rewrite lookup_insert_ne.
    + by apply (keeps_update h n (new_node d)).
Qed.

Lemma Insert_link_ok n d dl nd c t T :
  repr T (plug c t) → heap T !! n = Some nd → data nd = Some d → intnode_ nd = false →
  n ∉ locs (plug c t) → follows (key d) c → cq c `prefix_of` key d →
  match t with
  | E => True
  | N _ _ p _ _ => ∃ d1, dl = Some d1 ∧ leafkey (key d) t = key d1 ∧ key d1 ≠ key d ∧
      ¬ (length p ≤ lcp (key d) (key d1) ∧ length p < length (key d))
  end →
  ∃ T' t', Insert_link n d dl (match dl with Some d1 => lcp (key d) (key d1) | None => 0 end)
      (cparent c) (ptr t) T = Ret (true, T') ∧ repr T' (plug c t') ∧
    elems t' ≡ₚ (key d, n) :: elems t ∧ keeps (heap T) (heap T').
Proof.
  intros R Hn Hd Hi Hnl Hf Hq Ht.
  destruct (repr_at T c t R) as (Hs & Hc & Wc & Nt & Nc & Dis & Dom).
  rewrite plug_locs, not_elem_of_app in Hnl. destruct Hnl as [Nnt Nnc].
  set (h1 := <[n := new_node d]> (heap T)).
  pose proof (reset_node_ok n d nd (heap T) Hn Hd Hi) as E1. fold h1 in E1.
  assert (K1 : keeps (heap T) h1) by (by apply (keeps_update _ _ nd)).
  assert (Hn1 : h1 !! n = Some (new_node d)) by apply lookup_insert_eq.
  assert (F1 : ∀ y, y ≠ n → h1 !! y = heap T !! y) by (intros; unfold h1; by rewrite lookup_insert_ne).
  assert (D1 : dom h1 = dom (heap T)).
  { unfold h1. rewrite dom_insert_L. apply elem_of_dom_2 in Hn. set_solver. }
  assert (Hthr : cthr c ≠ Some n) by (intros E0; by apply Nnc, (crep_dom _ c t Hc)).
  set (i := match dl with Some d1 => _ | None => 0 end).
  unfold Insert_link.
  destruct (store n (set_left None) (heap T)) as [ha|] eqn:Ea; [|done]. cbn [mbind outcome_mbind] in *.
  destruct (store n (set_right None) ha) as [hb|] eqn:Eb; [|done]. cbn [mbind outcome_mbind] in *.
  rewrite E1. cbn [mbind outcome_mbind]. clear E1 Ea Eb ha hb.
  (* the node that takes the place of [x] *)
  set (T1 := mkTree h1 (root_ T) (nodes_ T + 1) (int_nodes_ T)).
  assert (G : ∃ l' h2 t', match ptr t with
      | Some x => match dl with None => Abort | Some d1 => Insert_at n d d1 i x T1 end
      | None => match cparent c with
                | None => Ret (n, T1)
                | Some pl => np ← load (heap T1) pl;
                    h ← store n (set_right (if GetBit d (bitpos_ np) then right_ np else cparent c)) (heap T1);
                    Ret (n, mkTree h (root_ T1) (nodes_ T1) (int_nodes_ T1))
                end
      end = Ret (l', mkTree h2 (root_ T) (nodes_ T + 1)
               (int_nodes_ T + Z.of_nat (internals t') - Z.of_nat (internals t))) ∧
    ptr t' = Some l' ∧ grown h1 t n (key d) (cq c) (cthr c) h2 t').
  { destruct t as [|x int px l r].
    - destruct (Insert_empty_ok n d c h1 T Hn1) as [Ee Gr]; [|done|done|].
      { eapply crep_frame, Hc; [|done]. intros y Hy. apply F1. by intros ->. }
      eexists n, _, _. split_and!; [| |exact Gr]; [|done]. etrans; [exact Ee|]. do 3 f_equal. simpl. lia.
    - destruct Ht as (d1 & -> & Hlk & Hne & Hst). simpl in i.
      apply (Insert_at_ok n d d1 (cq c) x int px l r (cthr c) T1); try done.
      eapply sub_frame, Hs.
      + intros y Hy. apply F1. by intros ->.
      + intros y Hy. apply F1. intros ->. done. }
  destruct G as (l' & h2 & t' & -> & Hl' & G). cbn [mbind outcome_mbind].
  destruct G as [Gr Gw Gn Gl Ge Gf Gk].
  assert (C2 : crep h2 c t).
  { eapply crep_frame, Hc; [|done]. intros y Hy. rewrite Gf.
    - apply F1. by intros ->.
    - rewrite D1. apply Dom. by right.
    - by intros ->.
    - intros Hy'. by apply (Dis y). }
  assert (Ne : t' ≠ E) by (by intros ->).
  destruct (relink d c t t' T h2 R Hf C2 Gr Gw Gn) as (h3 & E3 & R3 & _ & K3).
  { intros y Hy Hyc. destruct (Gl y Hy) as [->|[Hy'|Hy']]; [done|by apply (Dis y)|].
    apply Hy'. rewrite D1. apply Dom. by right. }
  { destruct c; [done|]. by intros _. }
  rewrite clink_ptr, Hl' in E3 by done. rewrite E3. cbn [mbind outcome_mbind].
  eexists _, t'. split; [done|]. split_and!; [apply R3; [|done]|done|].
  { rewrite Ge. simpl. lia. }
  transitivity h1; [done|]. by transitivity h2.
Qed.

Lemma data_loc h t thr n nd d : rep h t thr → n ∈ locs t → h !! n = Some nd → data nd = Some d →
  (key d, n) ∈ elems t.
Proof.
  revert thr. induction t as [|x int p l IHl r IHr]; intros thr; simpl; [by intros _ ?%elem_of_nil|].
  intros ((nx & Hx & _ & _ & _ & _ & Hd) & Hl & Hr) [->|[Hi|Hi]%elem_of_app]%elem_of_cons Hn Hdn;
    rewrite !elem_of_app; [|right; left; by eauto|right; right; by eauto].
  left. simplify_eq. destruct int; [congruence|]. destruct Hd as (d' & Hd' & <-).
  apply list_elem_of_singleton. congruence.
Qed.

Lemma InsertNode_ok T t n nd d : repr T t → heap T !! n = Some nd → data nd = Some d →
  intnode_ nd = false →
  ((∃ x, (key d, x) ∈ elems t) ∧ InsertNode n T = Ret (false, T)) ∨
  ((∀ x, (key d, x) ∉ elems t) ∧ ∃ T' t', InsertNode n T = Ret (true, T') ∧ repr T' t' ∧
     elems t' ≡ₚ (key d, n) :: elems t ∧ keeps (heap T) (heap T')).
Proof.
  intros R Hn Hd Hi. pose proof (repr_fuel T t R) as Hfuel. pose proof R as [Hr Hroot Hw Hnd _ _].
  assert (Hs : sub (heap T) [] t None) by (constructor; done).
  unfold InsertNode. rewrite (load_ok _ _ _ Hn). cbn [mbind outcome_mbind].
  rewrite (NodeToData_ok _ _ Hd). cbn [mbind outcome_mbind]. rewrite Hroot.
  assert (Fresh : (∀ x, (key d, x) ∉ elems t) → n ∉ locs t).
  { intros Hx Hin. by apply (Hx n), (data_loc (heap T) t None n nd d). }
  assert (Fin : ∀ c0 t0 dl, plug c0 t0 = t → (∀ x, (key d, x) ∉ elems t) →
    follows (key d) c0 → cq c0 `prefix_of` key d →
    match t0 with
    | E => True
    | N _ _ p _ _ => ∃ d1, dl = Some d1 ∧ leafkey (key d) t0 = key d1 ∧ key d1 ≠ key d ∧
        ¬ (length p ≤ lcp (key d) (key d1) ∧ length p < length (key d))
    end →
    ∃ T' t', Insert_link n d dl (match dl with Some d1 => lcp (key d) (key d1) | None => 0 end)
        (cparent c0) (ptr t0) T = Ret (true, T') ∧ repr T' t' ∧
      elems t' ≡ₚ (key d, n) :: elems t ∧ keeps (heap T) (heap T')).
  { intros c0 t0 dl Ep Hx Hf Hq Ht0. rewrite <- Ep in R, Hx, Fresh.
    destruct (Insert_link_ok n d dl nd c0 t0 T) as (T' & t' & E1 & R' & He & K); eauto.
    exists T', (plug c0 t'). split_and!; try done.
    rewrite <- Ep, plug_elems, He, plug_elems. done. }
  destruct t as [|x int p l r].
  - right. split; [intros x; apply not_elem_of_nil|].
    replace (Insert_descend d (heap T) (fuel (heap T)) None (ptr E)) with (Ret (@None loc, @None loc)).
    2: { unfold fuel. by rewrite Nat.add_comm. }
    cbn [mbind outcome_mbind]. apply (Fin [] E None); try done; [intros x; apply not_elem_of_nil|constructor|apply prefix_nil].
  - set (t := N x int p l r) in *.
    destruct (Insert_descend_ok d (heap T) _ [] t None None Hs ltac:(done) Hfuel) as (p0 & x0 & lf & E0 & El & Hlf).
    rewrite E0. cbn [mbind outcome_mbind]. rewrite El.
    destruct (rep_elem _ _ _ _ _ Hr Hlf) as (nl & dl & Hnl & _ & Hbl & Hdl & Hkl).
    rewrite (load_ok _ _ _ Hnl). cbn [mbind outcome_mbind]. rewrite (NodeToData_ok _ _ Hdl).
    cbn [mbind outcome_mbind]. rewrite ComparePos_key by lia.
    destruct (bool_decide (key d = key dl)) eqn:Eq.
    { apply bool_decide_eq_true in Eq. left. split; [|done]. exists lf. by rewrite Eq, Hkl. }
    apply bool_decide_eq_false in Eq. right.
    assert (Hno : ∀ x, (key d, x) ∉ elems t).
    { intros z Hz. apply Eq. rewrite Hkl. symmetry. by eapply leafkey_found. }
    split; [done|].
    assert (Hcond : negb (lcp (key d) (key dl) =? BitLength d) || negb (lcp (key d) (key dl) =? bitpos_ nl) = true).
    { apply orb_true_iff. rewrite !negb_true_iff, !Nat.eqb_neq, Hbl, <- key_length, <- Hkl.
      destruct (decide (lcp (key d) (key dl) = length (key d))) as [E1|]; [|by left]. right.
      rewrite E1. intros E2. apply Eq. apply prefix_eq; [by apply lcp_prefix|lia]. }
    rewrite Hcond.
    destruct (Insert_position_ok d (heap T) (fuel (heap T)) t [] (key dl)) as
      (c' & t' & E1 & Ep & Hf & Hq & Hlk & Hst); try done; [constructor|apply prefix_nil|].
    cbn [cparent] in E1. rewrite E1. cbn [mbind outcome_mbind].
    apply (Fin c' t' (Some dl)); try done. destruct t' as [|x' int' p' l' r']; [done|].
    exists dl. split_and!; try done; try (by apply Hlk); congruence.
Qed.

(** ** Removal *)

Lemma repr_frame h h' root nn ii t : repr (mkTree h root nn ii) t →
  (∀ y, y ∈ locs t → h' !! y = h !! y) → repr (mkTree h' root nn ii) t.
Proof. intros [] Hh. constructor; try done. simpl in *. by eapply rep_frame. Qed.

(** [t'] is [t] without the key [k] of the node at [x], in the heap [h']; the
    counter of nodes is not yet adjusted. *)
Definition unlinked T t (k : list bool) (x : loc) (T' : Tree D) t' : Prop :=
  repr (mkTree (heap T') (root_ T') (nodes_ T' - 1) (int_nodes_ T')) t' ∧
  elems t ≡ₚ (k, x) :: elems t' ∧ (x ∉ locs t') ∧ keeps (heap T) (heap T').

Section Unlink.
Context (T : Tree D) (d : D) (c : ctx) (x : loc) (l r : ptree).
Abbreviation t0 := (N x false (key d) l r).
Hypothesis R : repr T (plug c t0).
Hypothesis Hf : follows (key d) c.

Lemma unlink_parts :
  sub (heap T) (key d ++ [false]) l (Some x) ∧ sub (heap T) (key d ++ [true]) r (cthr c) ∧
  crep (heap T) c t0 ∧ cq c `prefix_of` key d ∧ NoDup (locs l) ∧ NoDup (locs r) ∧
  (∀ y, y ∈ locs l → y ∉ locs r) ∧ (x ∉ locs l) ∧ (x ∉ locs r) ∧ (x ∉ clocs c) ∧
  (∀ y, y ∈ locs l ∨ y ∈ locs r → y ∉ clocs c) ∧ NoDup (clocs c) ∧
  (∀ y, y ∈ locs l ∨ y ∈ locs r ∨ y ∈ clocs c ∨ y = x → y ∈ dom (heap T)).
Proof.
  destruct (repr_at T c t0 R) as (Hs & Hc & Wc & Nt & Nc & Dis & Dom).
  pose proof (sub_children _ _ _ _ _ _ _ _ Hs) as [Sl Sr].
  destruct (sub_wf _ _ _ _ Hs) as (Hq & _). simpl in Nt.
  apply NoDup_cons in Nt as [Nx Nt]. rewrite not_elem_of_app in Nx. destruct Nx as [Nxl Nxr].
  apply NoDup_app in Nt as (Nl & Nlr & Nr). simpl in Dis, Dom.
  split_and!; try done.
  - apply Dis. by left.
  - intros y Hy. apply Dis. right. by apply elem_of_app.
  - intros y Hy. apply Dom. rewrite elem_of_cons, elem_of_app. tauto.
Qed.

(** Two children: an internal node takes the place. *)
Lemma unlink_both m : l ≠ E → r ≠ E → m ∉ dom (heap T) →
  ∃ h2, RewireRightMost (Some m) (ptr l)
      (<[m := mkNode (ptr l) (ptr r) true (length (key d)) None]> (heap T)) = Ret (Some x, h2) ∧
  ∃ T', (set_child d (cparent c) (Some m) (mkTree h2 (root_ T) (nodes_ T) (int_nodes_ T + 1))) = Ret T' ∧
    unlinked T (plug c t0) (key d) x T' (plug c (N m true (key d) l r)).
Proof.
  intros Nl Nr Hm. destruct unlink_parts as (Sl & Sr & Hc & Hq & Dl & Dr & Dlr & Xl & Xr & Xc & Dc & Nc & Dom).
  set (h1 := <[m := _]> (heap T)).
  assert (F1 : ∀ y, y ∈ dom (heap T) → h1 !! y = heap T !! y).
  { intros y Hy. unfold h1. rewrite lookup_insert_ne; [done|]. by intros ->. }
  assert (Sl1 : sub h1 (key d ++ [false]) l (Some x)).
  { eapply sub_frame, Sl; [intros y Hy; apply F1, Dom; tauto|].
    intros y [= <-]. apply F1, Dom. tauto. }
  destruct (RewireRightMost_ok h1 _ l (Some x) (Some m) Sl1 Dl Nl) as (h2 & ER & R2 & F2 & K2 & D2).
  exists h2. split; [done|].
  assert (Hml : ∀ y, y ∈ locs l ∨ y ∈ locs r ∨ y ∈ clocs c ∨ y = x → y ≠ m) by (intros y Hy ->; by apply Hm, Dom).
  destruct (relink d c t0 (N m true (key d) l r) T h2 R Hf) as (h3 & E3 & R3 & F3 & K3).
  - eapply crep_frame, Hc; [|done]. intros y Hy. rewrite F2; [apply F1, Dom; tauto|].
    intros Hy'. apply (Dc y); tauto.
  - split_and!.
    + eexists. rewrite F2 by (intros Hi; apply (Hml m); tauto). unfold h1. rewrite lookup_insert_eq.
      split_and!; [done..|by destruct r|done].
    + done.
    + eapply rep_frame, sub_rep, Sr. intros y Hy. rewrite F2; [apply F1, Dom; tauto|].
      intros Hy'. by apply (Dlr y).
  - split_and!; [done|apply Sl|apply Sr|done].
  - simpl. apply NoDup_cons. rewrite not_elem_of_app, NoDup_app.
    split_and!; try done; intros Hi; apply (Hml m); tauto.
  - simpl. intros y [->|Hy%elem_of_app]%elem_of_cons; [intros Hi; apply (Hml m); tauto|by apply Dc].
  - destruct c; [done|]. by intros _.
  - rewrite clink_ptr in E3 by done. simpl in E3. rewrite E3. eexists. split; [done|].
    split_and!.
    + apply R3; simpl; lia.
    + rewrite !plug_elems. simpl. done.
    + rewrite plug_locs, not_elem_of_app. split; [|done]. simpl.
      rewrite not_elem_of_cons, not_elem_of_app. split_and!; try done. apply Hml. tauto.
    + simpl. transitivity h1; [apply keeps_new; by apply not_elem_of_dom|]. by transitivity h2.
Qed.

(** Only a left child: it takes the place. *)
Lemma unlink_left : l ≠ E → r = E →
  ∃ T1 h2, set_child d (cparent c) (ptr l) T = Ret T1 ∧
    RewireRightMost (cthr c) (ptr l) (heap T1) = Ret (Some x, h2) ∧
    unlinked T (plug c t0) (key d) x (mkTree h2 (root_ T1) (nodes_ T1) (int_nodes_ T1)) (plug c l).
Proof.
  intros Nl Er. destruct unlink_parts as (Sl & Sr & Hc & Hq & Dl & Dr & Dlr & Xl & Xr & Xc & Dc & Nc & Dom).
  destruct (set_child_ok d c t0 l T Hc Hf Nc) as (h1 & E1 & C1 & F1 & K1 & _ & _); [apply R|].
  rewrite clink_ptr in E1 by done.
  assert (Sl1 : sub h1 (key d ++ [false]) l (Some x)).
  { eapply sub_frame, Sl; [intros y Hy; apply F1, Dc; by left|]. intros y [= <-]. by apply F1. }
  destruct (RewireRightMost_ok h1 _ l (Some x) (cthr c) Sl1 Dl Nl) as (h2 & ER & R2 & F2 & K2 & _).
  eexists _, h2. split; [exact E1|]. split; [exact ER|]. simpl.
  pose proof R as [Hr Hroot Hw Hnd Hnodes Hints]. apply plug_wf in Hw as (_ & Wc & _).
  split_and!; simpl.
  - constructor; simpl.
    + apply plug_rep. split; [done|]. eapply crep_frame, C1; [|done]. intros y Hy. apply F2.
      intros Hi. apply (Dc y); tauto.
    + done.
    + apply plug_wf. split_and!; [|done|destruct c; [done|]; by intros _].
      eapply wf_mono, sub_wf, Sl. etrans; [exact Hq|]. by apply prefix_app_r.
    + rewrite plug_locs. apply NoDup_app. split_and!; [done| |done]. intros y Hy. apply Dc. by left.
    + rewrite Hnodes, (Permutation_length (plug_elems c t0)), (Permutation_length (plug_elems c l)).
      simpl. rewrite Er. simpl. rewrite app_nil_r, !length_app. lia.
    + rewrite Hints, !plug_internals, Er. simpl. lia.
  - rewrite !plug_elems, Er. simpl. by rewrite app_nil_r.
  - rewrite plug_locs, not_elem_of_app. done.
  - by transitivity h1.
Qed.

(** Only a right child: it takes the place. *)
Lemma unlink_right : l = E → r ≠ E →
  ∃ T', set_child d (cparent c) (ptr r) T = Ret T' ∧ unlinked T (plug c t0) (key d) x T' (plug c r).
Proof.
  intros El Nr. destruct unlink_parts as (Sl & Sr & Hc & Hq & Dl & Dr & Dlr & Xl & Xr & Xc & Dc & Nc & Dom).
  destruct (relink d c t0 r T (heap T) R Hf Hc) as (h3 & E3 & R3 & F3 & K3).
  - apply Sr.
  - eapply wf_mono, sub_wf, Sr. etrans; [exact Hq|]. by apply prefix_app_r.
  - done.
  - intros y Hy. apply Dc. by right.
  - destruct c; [done|]. by intros _.
  - rewrite clink_ptr in E3 by done. specialize (E3 (nodes_ T) (int_nodes_ T)).
    assert (ET : mkTree (heap T) (root_ T) (nodes_ T) (int_nodes_ T) = T) by (by destruct T).
    rewrite ET in E3. eexists. split; [exact E3|]. split_and!; simpl.
    + apply R3; rewrite El; simpl; lia.
    + rewrite !plug_elems, El. done.
    + rewrite plug_locs, not_elem_of_app. done.
    + done.
Qed.

(** No child, and a parent that stays. *)
Lemma unlink_leaf : l = E → r = E → filled c E →
  ∃ T', set_child d (cparent c) (clink c E) T = Ret T' ∧ unlinked T (plug c t0) (key d) x T' (plug c E).
Proof.
  intros El Er Hfill. destruct unlink_parts as (Sl & Sr & Hc & Hq & Dl & Dr & Dlr & Xl & Xr & Xc & Dc & Nc & Dom).
  destruct (relink d c t0 E T (heap T) R Hf Hc) as (h3 & E3 & R3 & F3 & K3); try done.
  - constructor.
  - by intros y ?%elem_of_nil.
  - specialize (E3 (nodes_ T) (int_nodes_ T)).
    assert (ET : mkTree (heap T) (root_ T) (nodes_ T) (int_nodes_ T) = T) by (by destruct T).
    rewrite ET in E3. eexists. split; [exact E3|]. split_and!; simpl.
    + apply R3; rewrite El, Er; simpl; lia.
    + rewrite !plug_elems, El, Er. done.
    + rewrite plug_locs, not_elem_of_app. split; [by apply not_elem_of_nil|done].
    + done.
Qed.

End Unlink.

(** No child, and an internal parent: the sibling takes its place. *)
Lemma unlink_collapse T d f c x : repr T (plug (f :: c) (N x false (key d) E E)) →
  follows (key d) (f :: c) → f_int f = true →
  ∃ h2, (if f_dir f then
           '(_, h) ← RewireRightMost (cthr (f :: c)) (ptr (f_sib f)) (heap T); Ret (ptr (f_sib f), h)
         else Ret (link (f_sib f) (cthr c), heap T)) = Ret (ptr (f_sib f), h2) ∧
  ∃ T1, set_child d (cparent c) (ptr (f_sib f)) (mkTree h2 (root_ T) (nodes_ T) (int_nodes_ T)) = Ret T1 ∧
    unlinked T (plug (f :: c) (N x false (key d) E E)) (key d) x
      (mkTree (delete (f_x f) (heap T1)) (root_ T1) (nodes_ T1) (int_nodes_ T1 - 1)) (plug c (f_sib f)).
Proof.
  intros R Hf Hi. set (t0 := N x false (key d) E E) in *.
  destruct (repr_at T (f :: c) t0 R) as (_ & Hc1 & (Hq & Ws & Nsib & _) & _ & Nc1 & Dis1 & Dom1).
  specialize (Nsib Hi). simpl in Nc1. apply NoDup_cons in Nc1 as [Nx Nc1].
  rewrite not_elem_of_app in Nx. destruct Nx as [Nxs Nxc]. apply NoDup_app in Nc1 as (Nsd & Dsc & Ncc).
  apply Forall_cons in Hf as [Hfb Hfc].
  assert (Xx : (x ≠ f_x f) ∧ (x ∉ locs (f_sib f)) ∧ (x ∉ clocs c)).
  { specialize (Dis1 x (list_elem_of_here _ _)). simpl in Dis1.
    by rewrite not_elem_of_cons, not_elem_of_app in Dis1. }
  change (plug (f :: c) t0) with (plug c (plug1 f t0)) in *.
  destruct (repr_at T c (plug1 f t0) R) as (Hs & Hc & Wc & _ & _ & Dis & Dom).
  assert (Ssib : sub (heap T) (f_p f ++ [negb (f_dir f)]) (f_sib f) (if f_dir f then Some (f_x f) else cthr c)).
  { unfold plug1 in Hs. destruct (f_dir f); by apply sub_children in Hs as [? ?]. }
  destruct (Hc1) as ((nf & Hnf & _ & _ & _ & _ & Hdf) & _). rewrite Hi in Hdf.
  assert (H2 : ∃ h2, (if f_dir f then
           '(_, h) ← RewireRightMost (cthr (f :: c)) (ptr (f_sib f)) (heap T); Ret (ptr (f_sib f), h)
         else Ret (link (f_sib f) (cthr c), heap T)) = Ret (ptr (f_sib f), h2) ∧
      rep h2 (f_sib f) (cthr c) ∧ (∀ y, y ∉ locs (f_sib f) → h2 !! y = heap T !! y) ∧ keeps (heap T) h2).
  { simpl. destruct (f_dir f).
    - destruct (RewireRightMost_ok _ _ _ _ (cthr c) Ssib Nsd Nsib) as (h2 & -> & R2 & F2 & K2 & _).
      exists h2. done.
    - exists (heap T). split_and!; [by destruct (f_sib f)|apply Ssib|done|done]. }
  destruct H2 as (h2 & E2 & R2 & F2 & K2). exists h2. split; [done|].
  destruct (relink d c (plug1 f t0) (f_sib f) T h2 R Hfc) as (h3 & E3 & R3 & F3 & K3).
  - eapply crep_frame, Hc; [|done]. intros y Hy. apply F2. intros Hy'. by apply (Dsc y).
  - done.
  - eapply wf_mono, Ws. etrans; [exact Hq|]. by apply prefix_app_r.
  - done.
  - done.
  - destruct c; [done|]. by intros _.
  - rewrite clink_ptr in E3 by done. rewrite E3. eexists. split; [done|]. split_and!; simpl.
    + eapply repr_frame; [apply R3|].
      * unfold plug1. rewrite Hi. destruct (f_dir f); simpl; rewrite ?app_nil_r, ?length_app; simpl; lia.
      * unfold plug1. rewrite Hi. destruct (f_dir f); simpl; lia.
      * intros y. rewrite plug_locs, elem_of_app. intros Hy. rewrite lookup_delete_ne; [done|].
        intros <-. by destruct Hy.
    + rewrite !plug_elems. unfold plug1. rewrite Hi. destruct (f_dir f); simpl; solve_Permutation.
    + rewrite plug_locs, not_elem_of_app. tauto.
    + transitivity h2; [done|]. transitivity h3; [done|]. apply (keeps_delete h3 _ nf); [|done].
      rewrite F3, F2 by done. done.
Qed.

(** [Remove_unlink] takes the node at [x] out of the tree. *)
Lemma Remove_unlink_ok T d c x l r : repr T (plug c (N x false (key d) l r)) → follows (key d) c →
  ∃ T' t', Remove_unlink (cparent (tail c)) (cparent c) x T = Ret T' ∧
    unlinked T (plug c (N x false (key d) l r)) (key d) x T' t'.
Proof.
  intros R Hf. destruct (repr_at T c _ R) as (Hs & Hc & Wc & _).
  destruct (sub_node _ _ _ _ _ _ _ _ Hs) as (nx & Hx & Hl & Hr & (_ & Hb & dx & Hdx & Hk) & _ & Ht).
  unfold Remove_unlink. rewrite Hx. cbn [mbind outcome_mbind]. rewrite (NodeToData_ok _ _ Hdx).
  cbn [mbind outcome_mbind].
  assert (Hr' : match right_ nx with
    | None => Ret false
    | Some y => nr ← load (heap T) y; Ret (bitpos_ nx <? bitpos_ nr)
    end = Ret (match r with E => false | _ => true end)).
  { rewrite Hr. destruct (link r (cthr c)) as [y|] eqn:Ey; [|by destruct r].
    specialize (Ht y eq_refl). unfold is_thread in Ht. destruct (load (heap T) y) as [ny|]; [|done].
    cbn [mbind outcome_mbind] in *. injection Ht as Ht. f_equal.
    rewrite Nat.ltb_antisym, Ht. by destruct r. }
  rewrite Hr'. cbn [mbind outcome_mbind]. rewrite Hl, Hr, Hb. clear Hr'. rewrite <- Hk in *.
  destruct l as [|yl il pl ll rl] eqn:El; [|rewrite <- El in *]; simpl ptr.
  - destruct r as [|yr ir pr lr rr] eqn:Er; [|rewrite <- Er in *].
    + destruct c as [|f c]; simpl cparent.
      * eexists _, E. split; [done|].
        destruct (unlink_leaf T dx [] x E E R Hf eq_refl eq_refl I) as (T' & E1 & U).
        simpl in E1. injection E1 as <-. exact U.
      * destruct Hc as ((nf & Hnf & Hlf & Hrf & Hif & Hbf & _) & _). rewrite (load_ok _ _ _ Hnf).
        cbn [mbind outcome_mbind]. rewrite Hif, Hbf, GetBit_key.
        pose proof (proj1 (proj1 (Forall_cons _ _ _) Hf)) as Hfb. rewrite Hfb.
        destruct (f_int f) eqn:Hi.
        -- destruct (unlink_collapse T dx f c x R Hf Hi) as (h2 & E2 & T1 & E3 & U).
           rewrite Hlf, Hrf. destruct (f_dir f) eqn:Edir; cbn [cthr] in E2; rewrite ?Edir in E2;
             cbn [link cthr]; rewrite ?Edir.
           ++ rewrite E2. cbn [mbind outcome_mbind tail]. rewrite E3. cbn [mbind outcome_mbind]. eauto.
           ++ injection E2 as E2 <-. cbn [mbind outcome_mbind tail]. rewrite E2, E3.
              cbn [mbind outcome_mbind]. eauto.
        -- destruct (unlink_leaf T dx (f :: c) x E E R Hf eq_refl eq_refl) as (T' & E1 & U);
             [intros E0; congruence|].
           simpl in E1. simpl. destruct (f_dir f); rewrite E1; eauto.
    + replace (link r (cthr c)) with (ptr r) by (by rewrite Er).
      destruct (unlink_right T dx c x E r R Hf eq_refl) as (T' & E1 & U); [by rewrite Er|].
      rewrite E1. eauto.
  - destruct (ptr l) as [yl'|] eqn:Epl; [|by rewrite El in Epl].
    destruct r as [|yr ir pr lr rr] eqn:Er; [|rewrite <- Er in *].
    + destruct (unlink_left T dx c x l E R Hf) as (T1 & h2 & E1 & E2 & U); [by rewrite El|done|].
      rewrite Epl in E1, E2. rewrite E1. cbn [mbind outcome_mbind]. simpl link. rewrite E2.
      cbn [mbind outcome_mbind]. eauto.
    + replace (link r (cthr c)) with (ptr r) by (by rewrite Er).
      destruct (unlink_both T dx c x l r R Hf (fresh (dom (heap T)))) as (h2 & E1 & T' & E2 & U);
        [by rewrite El|by rewrite Er|apply is_fresh|].
      rewrite Epl in E1. rewrite E1. cbn [mbind outcome_mbind]. rewrite E2. eauto.
Qed.

Lemma elems_unique q t k x y : wf q t → (k, x) ∈ elems t → (k, y) ∈ elems t → x = y.
Proof.
  intros Hw Hx%(tfind_elems q t k x Hw) Hy%(tfind_elems q t k y Hw). congruence.
Qed.

Lemma RemoveNode_ok T t n nd d : repr T t → heap T !! n = Some nd → data nd = Some d →
  ((∀ x, (key d, x) ∉ elems t) ∧ RemoveNode n T = Ret (false, T)) ∨
  (∃ x T' t', (key d, x) ∈ elems t ∧ RemoveNode n T = Ret (true, T') ∧ repr T' t' ∧
     elems t ≡ₚ (key d, x) :: elems t' ∧ keeps (heap T) (heap T')).
Proof.
  intros R Hn Hd. pose proof (repr_fuel T t R) as Hfuel. pose proof R as [Hr Hroot Hw Hnd _ _].
  unfold RemoveNode. rewrite (load_ok _ _ _ Hn). cbn [mbind outcome_mbind].
  rewrite (NodeToData_ok _ _ Hd). cbn [mbind outcome_mbind]. rewrite Hroot.
  assert (Hno : tfind (key d) t = None → ∀ x, (key d, x) ∉ elems t).
  { intros E0 x Hx%(tfind_elems [] t _ x Hw). congruence. }
  destruct (Find_descend_ok d (heap T) _ t [] Hr Hw Hfuel) as
    [(a & b & E1 & E2)|(c & x & p & l & r & E1 & Ep & Hlen & Hf & E2)]; [constructor|..];
    cbn [cparent tail] in E1; rewrite E1; cbn [mbind outcome_mbind].
  { left. split; [by apply Hno|done]. }
  simpl in Ep. subst t. pose proof (plug_sub _ _ _ Hr Hw) as Hs.
  rewrite (found_node _ d _ _ _ _ _ _ _ Hs eq_refl). cbn [mbind outcome_mbind].
  case_bool_decide as Hk; cbn [negb].
  2: { left. split; [|done]. apply Hno. rewrite E2. case_decide; [congruence|done]. }
  right. subst p. destruct (Remove_unlink_ok T d c x l r R Hf) as (T1 & t' & E3 & R1 & He & Hx & K).
  rewrite E3. cbn [mbind outcome_mbind].
  destruct (K n nd d Hn Hd) as (n1 & Hn1 & Hd1 & _).
  rewrite (store_ok _ _ _ _ Hn1). cbn [mbind outcome_mbind].
  rewrite (store_ok _ _ _ (set_left None n1)) by apply lookup_insert_eq. cbn [mbind outcome_mbind].
  rewrite insert_insert_eq. eexists x, _, t'.
  assert (Hin : (key d, x) ∈ elems (plug c (N x false (key d) l r))) by (rewrite He; by left).
  split; [done|]. split; [done|]. split_and!; [|done|].
  - eapply (repr_frame (heap T1)); [exact R1|]. intros y Hy. rewrite lookup_insert_ne; [done|]. intros <-.
    assert (Hn' : (key d, n) ∈ elems t') by (eapply data_loc; [apply R1|done..]).
    assert (n = x) as ->; [|done].
    eapply elems_unique; [exact Hw| |exact Hin]. rewrite He. by right.
  - simpl. transitivity (heap T1); [done|]. by apply (keeps_update _ _ n1).
Qed.

(** ** Longest prefix match *)

Lemma BestMatch_loop_S d h f i l x : BestMatch_loop d h (S f) i l x =
  (n ← load h x;
   '(hit, i, l) ← (if intnode_ n then Ret (false, i, l)
                   else
                     dx ← NodeToData n;
                     let '(eq, i) := ComparePos d dx i in
                     Ret (eq, i, if i =? bitpos_ n then Some x else l));
   if (hit : bool) then Ret (Some x)
   else if BitLength d <? bitpos_ n then Ret l
   else match child d n with
        | None => Ret l
        | Some y => thread ← is_thread h n y;
                    if (thread : bool) then Ret l else BestMatch_loop d h f i l y
        end).
Proof. done. Qed.

(** [o] is the node of the longest key of [L] that is a prefix of [k], or [dflt]. *)
Definition best (k : list bool) (L : list (list bool * loc)) (dflt o : option loc) : Prop :=
  (o = dflt ∧ ∀ p y, (p, y) ∈ L → ¬ p `prefix_of` k) ∨
  (∃ p y, o = Some y ∧ (p, y) ∈ L ∧ p `prefix_of` k ∧
     ∀ p' y', (p', y') ∈ L → p' `prefix_of` k → length p' ≤ length p).

Lemma lcp_mono k p k2 : p `prefix_of` k2 → lcp k p ≤ lcp k k2.
Proof.
  intros Hp. set (i := lcp k p).
  assert (Hi : take i k = take i k2).
  { pose proof (lcp_take k p) as Ht. fold i in Ht. rewrite Ht. destruct Hp as [s ->].
    rewrite take_app_le; [done|]. apply lcp_le. }
  pose proof (lcp_le k p) as [L1 L2]. fold i in L1, L2.
  assert (L3 : length (take i k) = i) by (rewrite length_take; lia).
  rewrite <- L3. apply prefix_lcp; [apply prefix_take|]. rewrite Hi. apply prefix_take.
Qed.

(** Only the side of [k] can hold a prefix of it. *)
Lemma best_side k q x int p l r dflt o :
  wf q (N x int p l r) →
  best k (elems (side k p l r)) (if int then dflt else if decide (p `prefix_of` k) then Some x else dflt) o →
  best k (elems (N x int p l r)) dflt o.
Proof.
  intros (_ & Wl & Wr & _) Hb.
  assert (Hside : ∀ p' y, (p', y) ∈ elems l ++ elems r → p' `prefix_of` k →
    (p', y) ∈ elems (side k p l r) ∧ p `prefix_of` p' ∧ length p < length p').
  { intros p' y [Hi|Hi]%elem_of_app Hp; unfold side;
      [pose proof (elems_prefix _ _ _ _ Wl Hi) as Hq|pose proof (elems_prefix _ _ _ _ Wr Hi) as Hq];
      assert (Hk : bit k (length p) = _) by (apply prefix_bit; by etrans); rewrite Hk; (split; [done|]);
      (split; [etrans; [|exact Hq]; by apply prefix_app_r|]);
      apply prefix_length in Hq; rewrite length_app in Hq; simpl in Hq; lia. }
  assert (Hback : ∀ e, e ∈ elems (side k p l r) → e ∈ elems (N x int p l r)).
  { intros e He. simpl. apply elem_of_app. right. by eapply elems_side. }
  destruct Hb as [[-> Hno]|(p1 & y1 & -> & Hin & Hp1 & Hmax)].
  - assert (Hno' : ∀ p' y, (p', y) ∈ elems l ++ elems r → ¬ p' `prefix_of` k).
    { intros p' y Hi Hp. destruct (Hside p' y Hi Hp) as (Hs & _). by eapply Hno. }
    destruct int; [left; simpl; by split|]. case_decide as Hpk.
    + right. exists p, x. split_and!; [done|simpl; by left|done|].
      intros p' y' [[= -> ->]|Hi]%elem_of_cons Hp'; [done|]. by destruct (Hno' p' y').
    + left. split; [done|]. intros p' y' [[= -> ->]|Hi]%elem_of_cons; [done|]. by eapply Hno'.
  - right. exists p1, y1. split_and!; [done|by apply Hback|done|].
    intros p' y' Hi Hp'. simpl in Hi. apply elem_of_app in Hi as [Hi|Hi].
    + destruct int; [by apply elem_of_nil in Hi|]. apply list_elem_of_singleton in Hi as [= -> ->].
      apply elems_side in Hin. destruct (Hside p1 y1 Hin Hp1) as (_ & _ & ?). lia.
    + destruct (Hside p' y' Hi Hp') as (Hs & _). by eapply Hmax.
Qed.

Lemma BestMatch_loop_ok d h f i o q t thr x : sub h q t thr → ptr t = Some x → length (locs t) ≤ f →
  (∀ p y, (p, y) ∈ elems t → i ≤ lcp (key d) p) →
  ∃ o', BestMatch_loop d h f i o x = Ret o' ∧ best (key d) (elems t) o o'.
Proof.
  revert i o q t thr x. induction f as [|f IH]; intros i o q [|x int p l r] thr x' Hs Hx Hf Hi;
    try done; try (simpl in Hf; lia). injection Hx as <-.
  destruct (sub_walk _ _ _ _ _ _ _ _ d Hs) as (nd & Hx & _ & _ & (Hint & Hb & Hd) & Hwalk).
  pose proof (sub_wf _ _ _ _ Hs) as Hw.
  rewrite BestMatch_loop_S, Hx. cbn [mbind outcome_mbind]. rewrite Hint.
  (* what the comparison yields *)
  assert (Hcmp : ∃ hit i', (if int then Ret (false, i, o)
      else dx ← NodeToData nd; let '(eq, i) := ComparePos d dx i in
        Ret (eq, i, if i =? bitpos_ nd then Some x else o)) =
      Ret (hit, i', if int then o else if decide (p `prefix_of` key d) then Some x else o) ∧
    (hit = true → int = false ∧ p = key d) ∧
    (∀ p' y, (p', y) ∈ elems l ++ elems r → i' ≤ lcp (key d) p')).
  { destruct int.
    - exists false, i. split_and!; [done|done|]. intros p' y Hy. by apply (Hi p' y).
    - destruct Hd as (dx & Hdx & Hkx). rewrite (NodeToData_ok _ _ Hdx). cbn [mbind outcome_mbind].
      rewrite ComparePos_key.
      2: { rewrite Hkx. apply (Hi p x). simpl. by left. }
      rewrite Hkx, Hb. exists (bool_decide (key d = p)), (lcp (key d) p). split_and!.
      + do 2 f_equal. destruct (Nat.eqb_spec (lcp (key d) p) (length p)) as [E0|E0].
        * rewrite lcp_comm, lcp_prefix in E0. by rewrite decide_True.
        * rewrite lcp_comm, lcp_prefix in E0. by rewrite decide_False.
      + intros E0%bool_decide_eq_true. done.
      + intros p' y Hy. apply lcp_mono.
        assert (Hw' : wf p (N x false p l r)) by (destruct Hw as (_ & ?); by split).
        apply (elems_prefix p _ _ y Hw'). simpl. by right. }
  destruct Hcmp as (hit & i' & -> & Hhit & Hi'). cbn [mbind outcome_mbind].
  destruct hit.
  { destruct (Hhit eq_refl) as [-> ->]. eexists. split; [done|]. right. exists (key d), x.
    split_and!; [done|simpl; by left|done|]. intros p' y' _ Hp'. by apply prefix_length. }
  rewrite Hb. pose proof (best_side (key d) q x int p l r o) as HS. pose proof (locs_side (key d) p l r) as Hls.
  pose proof (sub_side _ _ _ _ _ _ _ _ (key d) Hs) as Hss. simpl in Hf.
  destruct (Nat.ltb_spec (BitLength d) (length p)) as [Hlt|Hlt].
  { eexists. split; [done|]. left. rewrite <- key_length in Hlt.
    assert (Hnp : ∀ p', p `prefix_of` p' → ¬ p' `prefix_of` key d).
    { intros p' H1%prefix_length H2%prefix_length. lia. }
    split; [destruct int; [done|]; rewrite decide_False; [done|by apply Hnp]|].
    intros p' y' Hy'. apply Hnp. apply (elems_prefix p (N x int p l r) _ y'); [|done].
    destruct Hw as (_ & ?). by split. }
  destruct (side (key d) p l r) as [|y iy py ly ry] eqn:Es.
  - eexists. split.
    + destruct Hwalk as [->|(y & -> & Hy)]; [done|]. rewrite Hy. done.
    + apply HS; [done|]. left. split; [done|]. intros ? ? ?%elem_of_nil. done.
  - destruct Hwalk as [-> Hy]. rewrite Hy. cbn [mbind outcome_mbind].
    destruct (IH i' (if int then o else if decide (p `prefix_of` key d) then Some x else o) _ _ _ y Hss
      eq_refl) as (o' & E0 & Hb'); [lia| |].
    + intros p' y' Hy'. apply (Hi' p' y'). apply (elems_side (key d) p). by rewrite Es.
    + exists o'. split; [done|]. by apply HS.
Qed.

Lemma FindBestMatchNode_ok T t d : repr T t →
  ∃ o, FindBestMatchNode d T = Ret o ∧ best (key d) (elems t) None o.
Proof.
  intros R. pose proof (repr_fuel T t R) as Hf. pose proof R as [Hr Hroot Hw _ _ _].
  unfold FindBestMatchNode. rewrite Hroot. destruct (ptr t) as [x|] eqn:Ex.
  - eapply (BestMatch_loop_ok d (heap T) _ 0 None [] t None x); [by constructor|done|done|lia].
  - exists None. split; [done|]. left. split; [done|]. destruct t; [|done]. intros ? ? ?%elem_of_nil. done.
Qed.

End Ops.
End PTO.
