(* ===== verification/PatriciaThms.v ===== *)
(** * The Patricia tree is an ordered map of bit strings

    The walks in key order, and the theorems on whole operations: [Insert],
    [Remove], [Find], [LPMFind], [GetNext] and [GetLast] against the list of keys the
    tree holds. *)

From stdpp Require Import gmap.
From Stdlib Require Import Sorted.
From S2P Require Import Prelude Patricia PatriciaInv PatriciaOps.
Import PT PTO.
Open Scope nat_scope.

Module PTT.

(** ** The order of the keys *)

(** A key comes after its prefixes, and a 0 before a 1. *)
Fixpoint klt (k1 k2 : list bool) : Prop :=
  match k1, k2 with
  | _, [] => False
  | [], _ :: _ => True
  | a :: k1, b :: k2 => (a = false ∧ b = true) ∨ (a = b ∧ klt k1 k2)
  end.

Lemma klt_app p k1 k2 : klt k1 k2 → klt (p ++ k1) (p ++ k2).
Proof. induction p; simpl; auto. Qed.

Lemma klt_extend p k : p `prefix_of` k → length p < length k → klt p k.
Proof.
  intros [s ->] Hl. rewrite length_app in Hl. rewrite <- (app_nil_r p) at 1. apply klt_app.
  destruct s; simpl in *; [lia|done].
Qed.

Lemma klt_sides p k1 k2 : p ++ [false] `prefix_of` k1 → p ++ [true] `prefix_of` k2 → klt k1 k2.
Proof.
  intros [s1 ->] [s2 ->]. rewrite <- !app_assoc. apply klt_app. simpl. by left.
Qed.

(** The keys of a tree are in order. *)
Lemma elems_sorted q t : wf q t → StronglySorted klt (elems t).*1.
Proof.
  revert q. induction t as [|x int p l IHl r IHr]; intros q; simpl; [constructor|].
  intros (_ & Hl & Hr & _).
  assert (S1 : StronglySorted klt ((elems l).*1 ++ (elems r).*1)).
  { apply ssorted_app. split_and!; [by eapply IHl|by eapply IHr|].
    intros k1 k2 ([? x1] & -> & H1)%list_elem_of_fmap ([? x2] & -> & H2)%list_elem_of_fmap. simpl.
    eapply klt_sides; by eapply elems_prefix. }
  rewrite !fmap_app. destruct int; [done|]. simpl. constructor; [done|].
  apply Forall_forall. intros k [H|H]%elem_of_app; apply list_elem_of_fmap in H as ([? y] & -> & Hy); simpl.
  - pose proof (elems_prefix _ _ _ _ Hl Hy) as Hp.
    apply klt_extend; [etrans; [|exact Hp]; by apply prefix_app_r|].
    apply prefix_length in Hp. rewrite length_app in Hp. simpl in Hp. lia.
  - pose proof (elems_prefix _ _ _ _ Hr Hy) as Hp.
    apply klt_extend; [etrans; [|exact Hp]; by apply prefix_app_r|].
    apply prefix_length in Hp. rewrite length_app in Hp. simpl in Hp. lia.
Qed.

Lemma elems_not_nil q t : wf q t → t ≠ E → elems t ≠ [].
Proof. intros Hw Hn E0. destruct (leafkey_elem q t [] Hw Hn) as [x Hx]. rewrite E0 in Hx. by apply elem_of_nil in Hx. Qed.

(** The first and the last node. *)
Definition hd_loc (L : list (list bool * loc)) : option loc := snd <$> head L.
Definition last_loc (L : list (list bool * loc)) : option loc := snd <$> last L.

Lemma hd_loc_app L1 L2 : L1 ≠ [] → hd_loc (L1 ++ L2) = hd_loc L1.
Proof. by destruct L1. Qed.

Section Walk.
Context {D : Type} `{!KeyTraits D}.
Implicit Types (h : gmap loc (Node D)) (T : Tree D).

(** [GetNextNode] arriving over the pointer [y] from a node at bit [b]. *)
Definition arrive h (f b : nat) (y : option loc) : outcome (option loc) :=
  match y with
  | None => Ret None
  | Some y =>
      m ← load h y;
      if (b <? bitpos_ m) && negb (intnode_ m) then Ret (Some y)
      else match f with O => Abort | S f => GetNext_loop h f b y end
  end.

Lemma GetNext_loop_eq h f bl x : GetNext_loop h f bl x =
  (n ← load h x;
   arrive h f (bitpos_ n)
     (if bitpos_ n <? bl then right_ n else match left_ n with Some _ => left_ n | None => right_ n end)).
Proof. by destruct f. Qed.

(** Going down leads to the first key. *)
Lemma arrive_down h q t thr b f : sub h q t thr → t ≠ E → b < length q → length (locs t) ≤ f →
  arrive h f b (ptr t) = Ret (hd_loc (elems t)).
Proof.
  revert q thr b f. induction t as [|y int p l IHl r _]; intros q thr b f Hs Hne Hb Hf; [done|].
  destruct (sub_node _ _ _ _ _ _ _ _ Hs) as (nd & Hy & Hl & Hr & (Hi & Hbp & _) & _ & _).
  pose proof (sub_children _ _ _ _ _ _ _ _ Hs) as [Sl _].
  pose proof (sub_wf _ _ _ _ Hs) as (Hq%prefix_length & Wl & _ & Hint).
  cbn [ptr arrive]. rewrite Hy. cbn [mbind outcome_mbind]. rewrite Hi, Hbp.
  rewrite (proj2 (Nat.ltb_lt _ _)) by lia. destruct int; cbn [andb negb]; [|done].
  destruct (Hint eq_refl) as [Nl _]. simpl in Hf. rewrite length_app in Hf.
  destruct f as [|f]; [lia|]. rewrite GetNext_loop_eq, Hy. cbn [mbind outcome_mbind].
  rewrite Hbp, (proj2 (Nat.ltb_ge _ _)) by lia. rewrite Hl.
  replace (match ptr l with Some _ => ptr l | None => right_ nd end) with (ptr l) by (by destruct l).
  rewrite (IHl _ _ (length p) f Sl); [|done|rewrite length_app; simpl; lia|lia].
  simpl. rewrite hd_loc_app; [done|]. by eapply elems_not_nil.
Qed.

(** From a key of a subtree, [GetNextNode] goes to the next key of the subtree, or
    over its thread. *)
Lemma GetNext_sub h q t thr c rest : sub h q t thr →
  (∀ b f, length q ≤ b → c ≤ f → arrive h f b thr = Ret rest) →
  ∀ L1 k x L2 f, elems t = L1 ++ (k, x) :: L2 → c + 2 * length (locs t) ≤ f →
    GetNext_loop h f (length k) x = Ret (match L2 with [] => rest | _ => hd_loc L2 end).
Proof.
  revert q thr c rest. induction t as [|y int p l IHl r IHr]; intros q thr c rest Hs Hup L1 k x L2 f.
  { simpl. intros E0. by destruct L1. }
  destruct (sub_node _ _ _ _ _ _ _ _ Hs) as (nd & Hy & Hl & Hr & (Hi & Hbp & _) & _ & _).
  pose proof (sub_children _ _ _ _ _ _ _ _ Hs) as [Sl Sr].
  pose proof (sub_wf _ _ _ _ Hs) as (Hq%prefix_length & Wl & Wr & Hint).
  simpl. rewrite length_app. intros He Hf.
  (* over the right pointer of this node *)
  set (after_r := match elems r with [] => rest | _ => hd_loc (elems r) end).
  assert (Hright : ∀ g, c + length (locs r) ≤ g → arrive h g (length p) (link r thr) = Ret after_r).
  { intros g Hg. unfold after_r. destruct r as [|yr ir pr lr rr] eqn:Er; [simpl; apply Hup; simpl in *; lia|].
    rewrite <- Er in *. change (link r thr) with (link r thr). replace (link r thr) with (ptr r) by (by rewrite Er).
    rewrite (arrive_down h _ r thr (length p) g Sr); [|by rewrite Er|rewrite length_app; simpl; lia|lia].
    destruct (elems r) eqn:E0; [|done]. destruct (elems_not_nil _ r Wr); [by rewrite Er|done]. }
  destruct (decide (int = false ∧ L1 = [])) as [[E1 E2]|Hnot].
  - (* this node *)
    rewrite E1, E2 in He. simpl in He. injection He as -> -> He.
    rewrite GetNext_loop_eq, Hy. cbn [mbind outcome_mbind]. rewrite Hbp, Nat.ltb_irrefl, Hl, Hr.
    destruct (decide (ptr l = None)) as [El|El].
    2: { assert (Nl : l ≠ E) by (by intros ->).
      replace (match ptr l with Some _ => ptr l | None => link r thr end) with (ptr l) by (by destruct l).
      rewrite (arrive_down h _ l _ _ f Sl); [|done|rewrite length_app; simpl; lia|lia].
      pose proof (elems_not_nil _ l Wl Nl) as Hn. rewrite <- He.
      destruct (elems l ++ elems r) eqn:E0; [by destruct (elems l)|]. rewrite <- E0. by rewrite hd_loc_app. }
    rewrite El. destruct l; [|done]. simpl in He. rewrite Hright by lia. unfold after_r. by rewrite He.
  - (* below *)
    assert (He' : ∃ L1', elems l ++ elems r = L1' ++ (k, x) :: L2).
    { destruct int; [by exists L1|]. destruct L1 as [|e L1]; [by destruct Hnot|].
      simpl in He. injection He as _ He. by exists L1. }
    assert (Hupr : ∀ b g, length (p ++ [true]) ≤ b → c ≤ g → arrive h g b thr = Ret rest).
    { intros b g Hb Hg. apply Hup; [|done]. rewrite length_app in Hb. simpl in Hb. lia. }
    destruct He' as [L1' He']. apply app_eq_inv in He' as [(M & H1 & H2)|(M & H1 & H2)].
    2: { (* in the right subtree *)
      apply (IHr _ thr c rest Sr Hupr) with (L1 := M); [done|lia]. }
    destruct M as [|[k' x'] M].
    { apply (IHr _ thr c rest Sr Hupr) with (L1 := []); [done|lia]. }
    (* in the left subtree *)
    simpl in H2. injection H2 as -> -> ->.
    rewrite (IHl _ (Some y) (S (c + length (locs r))) after_r Sl) with (L1 := L1') (L2 := M); [|..|done|lia].
    + unfold after_r. f_equal. destruct M as [|e M]; [|done]. simpl. by destruct (elems r).
    + intros b g Hb Hg. destruct g as [|g]; [lia|]. cbn [arrive]. rewrite Hy. cbn [mbind outcome_mbind].
      rewrite length_app in Hb. simpl in Hb. rewrite Hbp, (proj2 (Nat.ltb_ge _ _)) by lia. cbn [andb].
      rewrite GetNext_loop_eq, Hy. cbn [mbind outcome_mbind].
      rewrite Hbp, (proj2 (Nat.ltb_lt _ _)), Hr by lia. apply Hright. lia.
Qed.

(** *** The last key *)

Lemma last_loc_app L1 L2 : L2 ≠ [] → last_loc (L1 ++ L2) = last_loc L2.
Proof.
  intros H. destruct L2 as [|e L2 _] using rev_ind; [done|].
  unfold last_loc. by rewrite app_assoc, !last_snoc.
Qed.

Lemma GetLast_loop_ok h q t thr f x : sub h q t thr → ptr t = Some x → length (locs t) ≤ f →
  GetLast_loop h f x = Ret (last_loc (elems t)).
Proof.
  revert q thr f x. induction t as [|y int p l IHl r IHr]; intros q thr f x Hs Hx Hf; [done|].
  injection Hx as <-. simpl in Hf. rewrite length_app in Hf. destruct f as [|f]; [lia|].
  destruct (sub_node _ _ _ _ _ _ _ _ Hs) as (nd & Hy & Hl & Hr & (Hi & Hbp & _) & _ & Ht).
  pose proof (sub_children _ _ _ _ _ _ _ _ Hs) as [Sl Sr].
  pose proof (sub_wf _ _ _ _ Hs) as (Hq & Wl & Wr & Hint).
  simpl GetLast_loop. rewrite Hy. cbn [mbind outcome_mbind].
  assert (Hn : match right_ nd with
      | Some z => m ← load h z; Ret (if bitpos_ m <? bitpos_ nd then left_ nd else Some z)
      | None => Ret (left_ nd)
      end = Ret (match r with E => ptr l | _ => ptr r end)).
  { rewrite Hr, Hl. destruct r as [|yr ir pr lr rr]; simpl.
    - destruct thr as [z|]; [|done]. destruct (sub_thr _ _ _ _ Hs z eq_refl) as (nz & Hz & Hlt).
      unfold load. rewrite Hz. cbn [mbind outcome_mbind]. apply prefix_length in Hq.
      by rewrite Hbp, (proj2 (Nat.ltb_lt _ _)) by lia.
    - specialize (Ht yr eq_refl). unfold is_thread in Ht. destruct (load h yr) as [m|]; [|done].
      cbn [mbind outcome_mbind] in *. injection Ht as Ht. apply Nat.leb_gt in Ht.
      by rewrite (proj2 (Nat.ltb_ge _ _)) by lia. }
  rewrite Hn. cbn [mbind outcome_mbind]. simpl elems.
  destruct (decide (r = E)) as [Er|Er]; [destruct (decide (l = E)) as [El|El]|].
  - subst l r. destruct int; [by destruct (Hint eq_refl)|]. done.
  - rewrite Er. destruct (ptr l) as [yl|] eqn:Epl; [|by destruct l].
    rewrite (IHl _ _ f yl Sl eq_refl) by lia. simpl. rewrite app_nil_r.
    rewrite last_loc_app; [done|]. by eapply elems_not_nil.
  - replace (match r with E => ptr l | _ => ptr r end) with (ptr r) by (by destruct r).
    destruct (ptr r) as [yr|] eqn:Epr; [|by destruct r].
    rewrite (IHr _ _ f yr Sr eq_refl) by lia.
    rewrite !last_loc_app; [done|..]; [by eapply elems_not_nil|].
    pose proof (elems_not_nil _ r Wr Er). by destruct (elems l), (elems r).
Qed.

(** ** What a tree holds *)

(** The keys of the tree with their objects, in order. *)
Definition holds T (L : list (list bool * loc)) : Prop := ∃ t, repr T t ∧ elems t = L.

(** A data object in memory. *)
Definition object T (n : loc) (d : D) : Prop :=
  ∃ nd, heap T !! n = Some nd ∧ data nd = Some d ∧ intnode_ nd = false.

Lemma keeps_object T T' n d : keeps (heap T) (heap T') → object T n d → object T' n d.
Proof.
  intros K (nd & Hn & Hd & Hi). destruct (K n nd d Hn Hd) as (nd' & ? & ? & ?).
  exists nd'. split_and!; congruence.
Qed.

(** [Insert] *)
Lemma insert_holds T L n d : holds T L → object T n d →
  ((∃ x, (key d, x) ∈ L) ∧ InsertNode n T = Ret (false, T)) ∨
  ((∀ x, (key d, x) ∉ L) ∧ ∃ T' L', InsertNode n T = Ret (true, T') ∧ holds T' L' ∧
     L' ≡ₚ (key d, n) :: L ∧ ∀ m e, object T m e → object T' m e).
Proof.
  intros (t & R & <-) (nd & Hn & Hd & Hi).
  destruct (InsertNode_ok T t n nd d R Hn Hd Hi) as [?|(Hno & T' & t' & E1 & R' & He & K)]; [by left|].
  right. split; [done|]. exists T', (elems t'). split_and!; [done|by exists t'|done|].
  intros. by eapply keeps_object.
Qed.

(** [Remove] *)
Lemma remove_holds T L n d : holds T L → object T n d →
  ((∀ x, (key d, x) ∉ L) ∧ RemoveNode n T = Ret (false, T)) ∨
  (∃ x T' L', (key d, x) ∈ L ∧ RemoveNode n T = Ret (true, T') ∧ holds T' L' ∧
     L ≡ₚ (key d, x) :: L' ∧ ∀ m e, object T m e → object T' m e).
Proof.
  intros (t & R & <-) (nd & Hn & Hd & Hi).
  destruct (RemoveNode_ok T t n nd d R Hn Hd) as [?|(x & T' & t' & Hx & E1 & R' & He & K)]; [by left|].
  right. exists x, T', (elems t'). split_and!; [done|done|by exists t'|done|].
  intros. by eapply keeps_object.
Qed.

(** [Find] *)
Lemma find_holds T L d : holds T L → ∃ o, FindNode d T = Ret o ∧ ∀ x, o = Some x ↔ (key d, x) ∈ L.
Proof.
  intros (t & R & <-). exists (tfind (key d) t). split; [by apply FindNode_tfind|].
  intros x. apply (tfind_elems []), R.
Qed.

Lemma klt_irrefl k : ¬ klt k k.
Proof. induction k as [|b k IH]; simpl; [tauto|]. intros [[-> ?]|[_ ?]]; [done|tauto]. Qed.

Lemma holds_nodup T L : holds T L → NoDup L.*1.
Proof.
  intros (t & R & <-). apply (ssorted_nodup klt); [|eapply elems_sorted, R].
  intros k. apply klt_irrefl.
Qed.

(** C6: [LPMFind] returns the object with the longest key that is a prefix of the key
    looked for, and null when no key is. *)
Theorem lpm_finds_longest T L d : holds T L → ∃ o, FindBestMatchNode d T = Ret o ∧
  match o with
  | None => ∀ p x, (p, x) ∈ L → ¬ p `prefix_of` key d
  | Some x => ∃ p, (p, x) ∈ L ∧ p `prefix_of` key d ∧
      ∀ p' x', (p', x') ∈ L → p' `prefix_of` key d → length p' ≤ length p
  end.
Proof.
  intros (t & R & <-). destruct (FindBestMatchNode_ok T t d R) as (o & E1 & Hb). exists o. split; [done|].
  destruct Hb as [[-> H]|(p & y & -> & ? & ? & ?)]; [done|]. eauto.
Qed.

(** The tree enumerates its keys in order.  They are sorted (0 before 1, a prefix
    before its extensions); [GetNext] of null is the first, [GetNext] of an object
    the next one and of the last null, [GetLast] the last, and [Size] their number. *)
Theorem walk_in_order T L : holds T L →
  StronglySorted klt L.*1 ∧
  GetNextNode None T = Ret (hd_loc L) ∧
  (∀ L1 k x L2, L = L1 ++ (k, x) :: L2 → GetNextNode (Some x) T = Ret (hd_loc L2)) ∧
  GetLastNode T = Ret (last_loc L) ∧ nodes_ T = Z.of_nat (length L).
Proof.
  intros (t & R & <-). pose proof (repr_fuel T t R) as Hf. pose proof R as [Hr Hroot Hw Hnd Hnodes _].
  assert (Hs : sub (heap T) [] t None) by (by constructor).
  pose proof (rep_size _ _ _ Hr Hnd) as Hsz.
  split_and!; [by eapply elems_sorted| | | |done].
  - unfold GetNextNode. rewrite Hroot. destruct t as [|x int p l r]; [done|].
    destruct (sub_node _ _ _ _ _ _ _ _ Hs) as (nd & Hx & Hl & _ & (Hi & Hb & _) & _). simpl ptr.
    cbv iota. rewrite Hx. cbn [mbind outcome_mbind]. rewrite Hi. destruct int; [|done].
    destruct Hw as (_ & Wl & _ & Hint). destruct (Hint eq_refl) as [Nl _].
    pose proof (sub_children _ _ _ _ _ _ _ _ Hs) as [Sl _].
    rewrite GetNext_loop_eq, Hx. cbn [mbind outcome_mbind]. rewrite Nat.ltb_irrefl, Hl.
    replace (match ptr l with Some _ => ptr l | None => right_ nd end) with (ptr l) by (by destruct l).
    rewrite (arrive_down _ _ l _ _ _ Sl); [|done|rewrite Hb, length_app; simpl; lia|].
    + simpl. rewrite hd_loc_app; [done|]. by eapply elems_not_nil.
    + simpl in Hf. rewrite length_app in Hf. lia.
  - intros L1 k x L2 He. unfold GetNextNode. rewrite Hroot. destruct t as [|y int p l r]; [by destruct L1|].
    destruct (sub_node _ _ _ _ _ _ _ _ Hs) as (nd & Hy & _). simpl ptr. cbv iota. rewrite Hy.
    cbn [mbind outcome_mbind].
    destruct (rep_elem (heap T) _ None k x Hr) as (nx & dx & Hx & _ & Hb & _ & _).
    { rewrite He. apply elem_of_app. right. by left. }
    rewrite (load_ok _ _ _ Hx). cbn [mbind outcome_mbind]. rewrite Hb.
    rewrite (GetNext_sub (heap T) [] _ None 0 None Hs) with (L1 := L1) (L2 := L2); [by destruct L2|done|done|].
    unfold fuel. lia.
  - unfold GetLastNode. rewrite Hroot. destruct (ptr t) as [x|] eqn:Ex; [|by destruct t].
    by eapply GetLast_loop_ok.
Qed.

(** ** Refinement

    The map the tree implements: from keys to objects.  The same calls on the tree and
    on the map have the same results. *)

Inductive op := OInsert (n : loc) (d : D) | ORemove (n : loc) (d : D) | OFind (d : D).
Inductive result := RBool (b : bool) | RLoc (o : option loc).

(** The call on the tree; [n] is the address of the object [d]. *)
Definition call (o : op) T : outcome (result * Tree D) :=
  match o with
  | OInsert n _ => '(b, T) ← InsertNode n T; Ret (RBool b, T)
  | ORemove n _ => '(b, T) ← RemoveNode n T; Ret (RBool b, T)
  | OFind d => x ← FindNode d T; Ret (RLoc x, T)
  end.

(** The call on the map. *)
Definition map_call (o : op) (M : gmap (list bool) loc) : result * gmap (list bool) loc :=
  match o with
  | OInsert n d => match M !! key d with
                   | Some _ => (RBool false, M)
                   | None => (RBool true, <[key d := n]> M)
                   end
  | ORemove n d => match M !! key d with
                   | Some _ => (RBool true, delete (key d) M)
                   | None => (RBool false, M)
                   end
  | OFind d => (RLoc (M !! key d), M)
  end.

Fixpoint calls (os : list op) T : outcome (list result * Tree D) :=
  match os with
  | [] => Ret ([], T)
  | o :: os => '(r, T) ← call o T; '(rs, T) ← calls os T; Ret (r :: rs, T)
  end.

Fixpoint map_calls (os : list op) (M : gmap (list bool) loc) : list result * gmap (list bool) loc :=
  match os with
  | [] => ([], M)
  | o :: os => let '(r, M) := map_call o M in let '(rs, M) := map_calls os M in (r :: rs, M)
  end.

(** The objects a program uses, and the tree before any is inserted. *)
Definition op_ok (objs : gmap loc D) (o : op) : Prop :=
  match o with OInsert n d | ORemove n d => objs !! n = Some d | OFind _ => True end.

Definition new_tree (objs : gmap loc D) : Tree D :=
  mkTree ((λ d, mkNode None None false 0 (Some d)) <$> objs) None 0 0.

Definition simulates (objs : gmap loc D) T (M : gmap (list bool) loc) : Prop :=
  ∃ L, holds T L ∧ (∀ k x, M !! k = Some x ↔ (k, x) ∈ L) ∧ ∀ n d, objs !! n = Some d → object T n d.

Lemma new_tree_simulates objs : simulates objs (new_tree objs) ∅.
Proof.
  exists []. split_and!.
  - exists E. split; [|done]. constructor; simpl; try done. constructor.
  - intros k x. rewrite lookup_empty, elem_of_nil. done.
  - intros n d Hn. unfold object. simpl. rewrite lookup_fmap, Hn. simpl. eauto.
Qed.

Lemma call_simulates objs T M o : simulates objs T M → op_ok objs o →
  ∃ r T' M', call o T = Ret (r, T') ∧ map_call o M = (r, M') ∧ simulates objs T' M'.
Proof.
  intros (L & H & HM & HO) Ho. destruct o as [n d|n d|d]; simpl in *.
  - destruct (insert_holds T L n d H (HO n d Ho)) as [[[x Hx] E1]|(Hno & T' & L' & E1 & H' & HL & HO')];
      rewrite E1; simpl.
    + apply HM in Hx. rewrite Hx. eexists _, _, _. split_and!; [done|done|]. by exists L.
    + assert (Hn : M !! key d = None).
      { destruct (M !! key d) as [x|] eqn:Ex; [|done]. apply HM in Ex. by destruct (Hno x). }
      rewrite Hn. eexists _, _, _. split_and!; [done|done|]. exists L'. split_and!; [done| |eauto].
      intros k x. rewrite HL, elem_of_cons, lookup_insert_Some, HM. split.
      * intros [[<- <-]|[_ ?]]; tauto.
      * intros [[= -> ->]|Hin]; [by left|]. right. split; [|done]. intros <-. by destruct (Hno x).
  - destruct (remove_holds T L n d H (HO n d Ho)) as [[Hno E1]|(x & T' & L' & Hx & E1 & H' & HL & HO')];
      rewrite E1; simpl.
    + assert (Hn : M !! key d = None).
      { destruct (M !! key d) as [x|] eqn:Ex; [|done]. apply HM in Ex. by destruct (Hno x). }
      rewrite Hn. eexists _, _, _. split_and!; [done|done|]. by exists L.
    + pose proof Hx as Hx'. apply HM in Hx'. rewrite Hx'. eexists _, _, _. split_and!; [done|done|].
      exists L'. split_and!; [done| |eauto]. intros k y. rewrite lookup_delete_Some, HM, HL, elem_of_cons.
      split; [intros [Hne [[= -> ->]|?]]; done|]. intros Hy. split; [|by right]. intros <-.
      apply holds_nodup in H. rewrite HL in H. simpl in H. apply NoDup_cons in H as [Hk _]. apply Hk.
      apply list_elem_of_fmap. by exists (key d, y).
  - destruct (find_holds T L d H) as (o & E1 & Hiff). rewrite E1. simpl.
    eexists _, _, _. split_and!; [done| |by exists L]. do 2 f_equal.
    apply option_eq. intros x. rewrite HM, Hiff. done.
Qed.

(** C5: the tree implements a map from bit strings to objects.  Whatever objects a
    program makes and in whatever order it inserts, removes and looks them up, every
    call returns, without reading the data of an internal node or a dangling pointer,
    and with the result of the same call on the map: [Insert] refuses a key that is
    present, [Remove] succeeds exactly when the key is present, [Find] finds it. *)
Theorem tree_refines_map objs os : Forall (op_ok objs) os →
  ∃ rs T' M', calls os (new_tree objs) = Ret (rs, T') ∧ map_calls os ∅ = (rs, M') ∧ simulates objs T' M'.
Proof.
  intros Hos. pose proof (new_tree_simulates objs) as Hsim. revert Hsim.
  generalize (new_tree objs) (∅ : gmap (list bool) loc). induction Hos as [|o os Ho _ IH]; intros T M Hsim.
  { eexists _, _, _. split_and!; [done|done|done]. }
  destruct (call_simulates objs T M o Hsim Ho) as (r & T1 & M1 & E1 & E2 & Hsim1).
  destruct (IH T1 M1 Hsim1) as (rs & T' & M' & E3 & E4 & Hsim').
  exists (r :: rs), T', M'. simpl. rewrite E1, E2. cbn [mbind outcome_mbind]. rewrite E3, E4. done.
Qed.

End Walk.
End PTT.

(** ** A routing table *)

Module Routes.
Import PTT.

(** A prefix of an IPv4 address. *)
Record Route := mkRoute { ip_ : Z; len_ : nat }.

Lemma byte_range (z : Z) : (0 ≤ Z.land z 255 < 256)%Z.
Proof. change 255%Z with (Z.ones 8). rewrite Z.land_ones by lia. apply Z.mod_pos_bound. lia. Qed.

#[export] Instance Route_key : KeyTraits Route := {
  BitLength r := len_ r;
  ByteValue r i := Z.land (Z.shiftr (ip_ r) (24 - 8 * Z.of_nat i)) 255;
  ByteValue_range r i := byte_range _;
}.

(** 10.0.0.0/8, 10.1.0.0/16, 10.64.0.0/16 and 10.65.0.0/16 *)
Definition r1 : Route := mkRoute 0x0a000000 8.
Definition r2 : Route := mkRoute 0x0a010000 16.
Definition r3 : Route := mkRoute 0x0a400000 16.
Definition r4 : Route := mkRoute 0x0a410000 16.
Definition objs : gmap loc Route := list_to_map [(1%positive, r1); (2%positive, r2); (3%positive, r3); (4%positive, r4)].

Definition program : list (op (D := Route)) :=
  [OInsert 4 r4; OInsert 2 r2; OInsert 3 r3; OInsert 1 r1; OFind r3; ORemove 3 r3; OFind r3].

Lemma tree_refines_map_witness : ∃ rs T' M',
  calls program (new_tree objs) = Ret (rs, T') ∧ map_calls program ∅ = (rs, M') ∧ simulates objs T' M'.
Proof. apply (tree_refines_map objs program). repeat constructor. Defined.

Definition tree_after (os : list op) (o : gmap loc Route) : Tree Route :=
  match calls os (new_tree o) with Ret (_, T) => T | Abort => new_tree o end.

(** The table with the four routes. *)
Definition table : Tree Route :=
  Eval vm_compute in tree_after [OInsert 4 r4; OInsert 2 r2; OInsert 3 r3; OInsert 1 r1] objs.
Definition table_list : list (list bool * loc) :=
  [(key r1, 1%positive); (key r2, 2%positive); (key r3, 3%positive); (key r4, 4%positive)].

(** Internal nodes at bit 9 and at bit 15. *)
Definition table_tree : ptree :=
  N 1 false (key r1)
    (N 5 true (take 9 (key r2)) (N 2 false (key r2) E E)
      (N 6 true (take 15 (key r3)) (N 3 false (key r3) E E) (N 4 false (key r4) E E)))
    E.

Ltac closed_node :=
  eexists; split; [vm_compute; reflexivity|]; split; [vm_compute; reflexivity|];
  split; [vm_compute; reflexivity|]; split; [reflexivity|]; split; [vm_compute; reflexivity|];
  first [reflexivity | eexists; split; [reflexivity|vm_compute; reflexivity]].

Lemma table_holds : holds table table_list.
Proof.
  exists table_tree. split; [|reflexivity].
  constructor; try (vm_compute; reflexivity).
  - unfold table_tree. cbn [rep]. split_and!; try exact I; closed_node.
  - unfold table_tree. cbn [wf]. split_and!; try done; vm_compute; by eexists.
  - apply (bool_decide_unpack _). vm_compute. exact I.
Qed.

(** 10.65.1.1 is in 10.65.0.0/16, and 10.2.2.2 only in 10.0.0.0/8. *)
Lemma lpm_finds_longest_witness :
  FindBestMatchNode (mkRoute 0x0a410101 32) table = Ret (Some 4%positive) ∧
  FindBestMatchNode (mkRoute 0x0a020202 32) table = Ret (Some 1%positive) ∧
  ∃ o, FindBestMatchNode (mkRoute 0x0a410101 32) table = Ret o ∧
    match o with
    | None => ∀ p x, (p, x) ∈ table_list → ¬ p `prefix_of` key (mkRoute 0x0a410101 32)
    | Some x => ∃ p, (p, x) ∈ table_list ∧ p `prefix_of` key (mkRoute 0x0a410101 32) ∧
        ∀ p' x', (p', x') ∈ table_list → p' `prefix_of` key (mkRoute 0x0a410101 32) → length p' ≤ length p
    end.
Proof.
  split; [vm_compute; reflexivity|]. split; [vm_compute; reflexivity|].
  apply (lpm_finds_longest table table_list _ table_holds).
Defined.

Lemma walk_in_order_witness :
  GetNextNode (Some 2%positive) table = Ret (Some 3%positive) ∧ GetLastNode table = Ret (Some 4%positive).
Proof.
  destruct (walk_in_order table table_list table_holds) as (_ & _ & Hn & Hl & _).
  split; [apply (Hn [(key r1, 1%positive)] (key r2) 2%positive [(key r3, 3%positive); (key r4, 4%positive)]); reflexivity|].
  apply Hl.
Defined.

(** [GetPrev] misses the predecessor.  With 0.0.0.0/1 and 64.0.0.0/2 in the tree, the
    second comes after the first, but [GetPrev] of the second is null: the node where
    the walk last turned right is itself the answer when it has no left child. *)
Definition p1 : Route := mkRoute 0 1.
Definition p2 : Route := mkRoute 0x40000000 2.
Definition pair_table : Tree Route := tree_after [OInsert 1 p1; OInsert 2 p2] (list_to_map [(1%positive, p1); (2%positive, p2)]).

Lemma get_prev_misses_parent :
  GetNextNode (Some 1%positive) pair_table = Ret (Some 2%positive) ∧ GetPrevNode p2 pair_table = Ret None.
Proof. split; vm_compute; reflexivity. Qed.

(** [FindNext] misses the successor.  With 0.0.0.0/6 and 16.0.0.0/6 in the tree the key
    8.0.0.0/5 lies between them, but [FindNext] returns null: no data node is above
    the point where the keys part, and the part of the code for that case looks only
    at the bit where the walk ended. *)
Definition q1 : Route := mkRoute 0 6.
Definition q2 : Route := mkRoute 0x10000000 6.
Definition q3 : Route := mkRoute 0x08000000 5.
Definition gap_table : Tree Route := tree_after [OInsert 1 q1; OInsert 2 q2] (list_to_map [(1%positive, q1); (2%positive, q2)]).

Lemma find_next_misses_successor :
  klt (key q1) (key q3) ∧ klt (key q3) (key q2) ∧
  FindNode q2 gap_table = Ret (Some 2%positive) ∧ FindNextNode q3 gap_table = Ret None.
Proof. split_and!; [vm_compute; tauto|vm_compute; tauto|vm_compute; reflexivity..]. Qed.

End Routes.
