(* ===== verification/SandeshClientSM.v ===== *)
(** * The client state machine of sandesh:
      src/sandesh/library/cpp/sandesh_client_sm.cc, sandesh_client_sm.h,
      sandesh_client_sm_priv.h, and the close interval of sandesh_client.cc

    [SandeshClientSMImpl] is a [boost::statechart] machine with five states.  Every
    input becomes an event in a work queue; [DequeueEvent] takes them one at a time.
    A transition leaves the current state (its destructor), runs the action of the
    transition if there is one, and enters the new state (its constructor).

    The work queue and the two timers run their callbacks as tasks with the task id
    and instance of the machine, so no two of them run at the same time, as the
    scheduler guarantees ([TaskThms]): the processing of an event is one step, and so is the
    expiry of a timer.  The timers are used through the state of [Timer.TM]:
    [Timer_Start] and [Timer_Cancel] below are proved to be what [TM.Start] and
    [TM.Cancel] do to it.

    What the [Mgr] interface is asked to do is recorded in [log]; a session is a
    number, and using one that was deleted, or a null session, is [Abort].  Whether
    the socket of the next session can be opened and configured is [socket_ok], which the
    environment may change at any time.  A timer has the time it was started for
    ([connect_wait], [idle_hold_wait]). *)

From stdpp Require Import gmap strings.
From S2P Require Import Prelude Timer.
Open Scope Z_scope.

Module CSM.

(** [SandeshClientSM::State] *)
Inductive State : Set := IDLE | DISCONNECT | CONNECT | CLIENT_INIT | ESTABLISHED.
#[export] Instance State_eq_dec : EqDecision State.
Proof. solve_decision. Defined.

(** A message to send; [is_uve] is the result of the [dynamic_cast] to [SandeshUVE]. *)
Record Sandesh := mkSandesh { snh_id : nat; is_uve : bool }.
#[export] Instance Sandesh_eq_dec : EqDecision Sandesh.
Proof. solve_decision. Defined.

Definition kConnectInterval : Z := 30.
Definition kIdleHoldTime : Z := 5000.

(** ** Timers, as the machine sees them *)

#[local] Existing Instance TM.TimerState_eq_dec.

Definition Timer_Start (t : TM.TimerState) : TM.TimerState :=
  if bool_decide (t = TM.Running ∨ t = TM.Fired) then t else TM.Running.
Definition Timer_Cancel (t : TM.TimerState) : TM.TimerState :=
  if bool_decide (t = TM.Fired) then t else TM.Cancelled.
(** [time_], after which the timer expires: that of [Start], unless the timer runs already *)
Definition Timer_wait (t : TM.TimerState) (old time : Z) : Z :=
  if bool_decide (t = TM.Running ∨ t = TM.Fired) then old else time.
Definition Timer_cancelled (t : TM.TimerState) : bool := bool_decide (t = TM.Cancelled).

Section Machine.
Context {EP : Type} `{!EqDecision EP} (ep0 : EP).   (* [TcpServer::Endpoint] and [Endpoint()] *)

Inductive event :=
| EvStart
| EvStop (enq : bool)
| EvCollectorUpdate (collectors : list EP)
| EvIdleHoldTimerExpired
| EvConnectTimerExpired
| EvTcpConnected (session : nat)
| EvTcpConnectFail (session : nat)
| EvTcpClose (session : nat)
| EvTcpDeleteSession (session : nat)
| EvSandeshSend (snh : Sandesh)
| EvSandeshMessageRecv (accepted control : bool) (source : string).
  (* [accepted]: what [ReceiveMsg] returns; [control]: the control hint of the header *)

(** What the machine asks of others. *)
Inductive action :=
| ASendUVE | AUpdate (up : option bool)  (* connection status: INIT, DOWN, UP *)
| ACreate (session : nat) (server : EP) | AInitialize (connects : Z)
| AClose (session : nat) | ADelete (session : nat)
| ASend (session : nat) (snh : Sandesh) | ARelease (snh : Sandesh).

Record SM := mkSM {
  state_ : State;
  last_state_ : State;
  session_ : option nat;
  server_ : EP;
  collectors_ : list EP;
  collector_index_ : Z;
  connect_timer_ : TM.TimerState;
  idle_hold_timer_ : TM.TimerState;
  idle_hold_time_ : Z;
  attempts_ : Z;
  connects_ : Z;
  coll_name_ : string;
  deleted_ : bool;
  work_queue_ : list event;
  sessions : list nat;            (* sessions that exist *)
  next_session : nat;
  log : list action;              (* latest first *)
  connect_wait : Z;               (* the times, in milliseconds, the timers were last started with *)
  idle_hold_wait : Z;
  socket_ok : bool;               (* whether the next socket can be opened and its options set *)
}.

(** Member assignments. *)
Definition set_state (st : State) (s : SM) : SM :=
  mkSM st st (session_ s) (server_ s) (collectors_ s) (collector_index_ s) (connect_timer_ s)
    (idle_hold_timer_ s) (idle_hold_time_ s) (attempts_ s) (connects_ s) (coll_name_ s) (deleted_ s)
    (work_queue_ s) (sessions s) (next_session s) (log s)
    (connect_wait s) (idle_hold_wait s) (socket_ok s).
Definition with_session (o : option nat) (l : list nat) (n : nat) (s : SM) : SM :=
  mkSM (state_ s) (last_state_ s) o (server_ s) (collectors_ s) (collector_index_ s) (connect_timer_ s)
    (idle_hold_timer_ s) (idle_hold_time_ s) (attempts_ s) (connects_ s) (coll_name_ s) (deleted_ s)
    (work_queue_ s) l n (log s)
    (connect_wait s) (idle_hold_wait s) (socket_ok s).
Definition with_collectors (e : EP) (c : list EP) (i : Z) (s : SM) : SM :=
  mkSM (state_ s) (last_state_ s) (session_ s) e c i (connect_timer_ s)
    (idle_hold_timer_ s) (idle_hold_time_ s) (attempts_ s) (connects_ s) (coll_name_ s) (deleted_ s)
    (work_queue_ s) (sessions s) (next_session s) (log s)
    (connect_wait s) (idle_hold_wait s) (socket_ok s).
Definition with_timers (c i : TM.TimerState) (t : Z) (s : SM) : SM :=
  mkSM (state_ s) (last_state_ s) (session_ s) (server_ s) (collectors_ s) (collector_index_ s) c
    i t (attempts_ s) (connects_ s) (coll_name_ s) (deleted_ s)
    (work_queue_ s) (sessions s) (next_session s) (log s)
    (connect_wait s) (idle_hold_wait s) (socket_ok s).
Definition with_counts (a c : Z) (name : string) (s : SM) : SM :=
  mkSM (state_ s) (last_state_ s) (session_ s) (server_ s) (collectors_ s) (collector_index_ s)
    (connect_timer_ s) (idle_hold_timer_ s) (idle_hold_time_ s) a c name (deleted_ s)
    (work_queue_ s) (sessions s) (next_session s) (log s)
    (connect_wait s) (idle_hold_wait s) (socket_ok s).
Definition with_queue (q : list event) (s : SM) : SM :=
  mkSM (state_ s) (last_state_ s) (session_ s) (server_ s) (collectors_ s) (collector_index_ s)
    (connect_timer_ s) (idle_hold_timer_ s) (idle_hold_time_ s) (attempts_ s) (connects_ s) (coll_name_ s)
    (deleted_ s) q (sessions s) (next_session s) (log s)
    (connect_wait s) (idle_hold_wait s) (socket_ok s).
Definition with_last (st : State) (s : SM) : SM :=
  mkSM (state_ s) st (session_ s) (server_ s) (collectors_ s) (collector_index_ s)
    (connect_timer_ s) (idle_hold_timer_ s) (idle_hold_time_ s) (attempts_ s) (connects_ s) (coll_name_ s)
    (deleted_ s) (work_queue_ s) (sessions s) (next_session s) (log s)
    (connect_wait s) (idle_hold_wait s) (socket_ok s).
Definition with_deleted (s : SM) : SM :=
  mkSM (state_ s) (last_state_ s) (session_ s) (server_ s) (collectors_ s) (collector_index_ s)
    (connect_timer_ s) (idle_hold_timer_ s) (idle_hold_time_ s) (attempts_ s) (connects_ s) (coll_name_ s)
    true (work_queue_ s) (sessions s) (next_session s) (log s)
    (connect_wait s) (idle_hold_wait s) (socket_ok s).
Definition do (a : action) (s : SM) : SM :=
  mkSM (state_ s) (last_state_ s) (session_ s) (server_ s) (collectors_ s) (collector_index_ s)
    (connect_timer_ s) (idle_hold_timer_ s) (idle_hold_time_ s) (attempts_ s) (connects_ s) (coll_name_ s)
    (deleted_ s) (work_queue_ s) (sessions s) (next_session s) (a :: log s)
    (connect_wait s) (idle_hold_wait s) (socket_ok s).

Definition with_waits (c i : Z) (s : SM) : SM :=
  mkSM (state_ s) (last_state_ s) (session_ s) (server_ s) (collectors_ s) (collector_index_ s)
    (connect_timer_ s) (idle_hold_timer_ s) (idle_hold_time_ s) (attempts_ s) (connects_ s) (coll_name_ s)
    (deleted_ s) (work_queue_ s) (sessions s) (next_session s) (log s) c i (socket_ok s).
Definition with_socket (b : bool) (s : SM) : SM :=
  mkSM (state_ s) (last_state_ s) (session_ s) (server_ s) (collectors_ s) (collector_index_ s)
    (connect_timer_ s) (idle_hold_timer_ s) (idle_hold_time_ s) (attempts_ s) (connects_ s) (coll_name_ s)
    (deleted_ s) (work_queue_ s) (sessions s) (next_session s) (log s) (connect_wait s) (idle_hold_wait s) b.

(** The constructor; [index] is the value [collector_index_] happens to have. *)
Definition new_SM (index : Z) : SM :=
  mkSM IDLE IDLE None ep0 [] index TM.Init TM.Init 0 0 0 "" false [] [] 0 [ASendUVE] 0 0 true.

(** ** Helpers of the states *)

Definition Enqueue (ev : event) (s : SM) : SM :=
  if deleted_ s then s else with_queue (work_queue_ s ++ [ev]) s.

Definition EnqueDelSession (x : nat) (s : SM) : SM := Enqueue (EvTcpDeleteSession x) s.

(** [session_ != NULL], and the session exists. *)
Definition live_session (s : SM) : outcome nat :=
  match session_ s with
  | None => Abort
  | Some x => if bool_decide (x ∈ sessions s) then Ret x else Abort
  end.

(** [set_session] *)
Definition set_session (o : option nat) (enq : bool) (s : SM) : outcome SM :=
  s ← (match session_ s with
       | None => Ret s
       | Some _ =>
           x ← live_session s;
           let s := do (AClose x) s in
           Ret (if enq then EnqueDelSession x s else s)
       end);
  Ret (with_session o (sessions s) (next_session s) s).

(** [send_session]: the message goes to the send queue of the session. *)
Definition send_session (snh : Sandesh) (s : SM) : outcome SM :=
  x ← live_session s; Ret (do (ASend x snh) s).

Definition GetConnectTime (s : SM) : Z :=
  let backoff := Z.min (attempts_ s) 6 in
  Z.min (if negb (backoff =? 0) then Z.shiftl 1 (backoff - 1) else 0) kConnectInterval.

Definition StartConnectTimer (seconds : Z) (s : SM) : SM :=
  if seconds * 1000 <? 0 then s
  else with_waits (Timer_wait (connect_timer_ s) (connect_wait s) (seconds * 1000)) (idle_hold_wait s)
         (with_timers (Timer_Start (connect_timer_ s)) (idle_hold_timer_ s) (idle_hold_time_ s) s).
Definition CancelConnectTimer (s : SM) : SM :=
  with_timers (Timer_Cancel (connect_timer_ s)) (idle_hold_timer_ s) (idle_hold_time_ s) s.
Definition StartIdleHoldTimer (s : SM) : SM :=
  if idle_hold_time_ s <=? 0 then s
  else with_waits (connect_wait s) (Timer_wait (idle_hold_timer_ s) (idle_hold_wait s) (idle_hold_time_ s))
         (with_timers (connect_timer_ s) (Timer_Start (idle_hold_timer_ s)) (idle_hold_time_ s) s).
Definition CancelIdleHoldTimer (s : SM) : SM :=
  with_timers (connect_timer_ s) (Timer_Cancel (idle_hold_timer_ s)) (idle_hold_time_ s) s.
Definition set_idle_hold_time (t : Z) (s : SM) : SM :=
  with_timers (connect_timer_ s) (idle_hold_timer_ s) t s.

(** [collectors_[collector_index_]] *)
Definition collector_at (i : Z) (l : list EP) : outcome EP :=
  match (if i <? 0 then None else l !! Z.to_nat i) with Some e => Ret e | None => Abort end.

Definition GetCollector (s : SM) : outcome EP :=
  match collectors_ s with [] => Ret ep0 | _ => collector_at (collector_index_ s) (collectors_ s) end.

Definition GetNextCollector (s : SM) : outcome (EP * SM) :=
  match collectors_ s with
  | [] => Ret (ep0, s)
  | _ =>
      let i := collector_index_ s + 1 in
      let i := if i =? Z.of_nat (length (collectors_ s)) then 0 else i in
      e ← collector_at i (collectors_ s);
      Ret (e, with_collectors (server_ s) (collectors_ s) i s)
  end.

Definition CollectorUpdate (collectors : list EP) (s : SM) : outcome (bool * SM) :=
  let s := with_collectors (server_ s) collectors 0 s in
  collector ← GetCollector s;
  if decide (server_ s ≠ collector)
  then Ret (true, do ASendUVE (with_collectors collector (collectors_ s) (collector_index_ s) s))
  else Ret (false, do ASendUVE s).

Definition CollectorChange (s : SM) : outcome (bool * SM) :=
  '(collector, s) ← GetNextCollector s;
  if decide (server_ s ≠ collector)
  then Ret (true, do ASendUVE (with_collectors collector (collectors_ s) (collector_index_ s) s))
  else Ret (false, s).

(** [OnIdle<Ev>] *)
Definition OnIdle (enq : bool) (s : SM) : outcome SM :=
  let s := set_idle_hold_time (if idle_hold_time_ s =? 0 then kIdleHoldTime else idle_hold_time_ s) s in
  let s := CancelIdleHoldTimer s in
  set_session None enq s.

(** [ReleaseSandesh<Ev>] *)
Definition ReleaseSandesh (snh : Sandesh) (s : SM) : SM := do (ARelease snh) s.

(** [DeleteTcpSession<Ev>]: [DeleteSMSession] of the session. *)
Definition DeleteTcpSession (x : nat) (s : SM) : outcome SM :=
  if bool_decide (x ∈ sessions s)
  then Ret (do (ADelete x) (with_session (session_ s) (remove Nat.eq_dec x (sessions s)) (next_session s) s))
  else Abort.

(** ** Entering and leaving states *)

Definition enter_Idle (s : SM) : SM := do ASendUVE (set_state IDLE s).
Definition leave_Idle (s : SM) : SM := CancelIdleHoldTimer s.
Definition enter_Disconnect (s : SM) : SM := do ASendUVE (set_state DISCONNECT s).

(** [SandeshClient::CreateSMSession]: [None] is NULL, when the socket cannot be opened or its
    options cannot be set *)
Definition CreateSMSession (s : SM) : option nat * SM :=
  if socket_ok s then
    let x := next_session s in
    (Some x, do (ACreate x (server_ s)) (with_session (session_ s) (x :: sessions s) (S x) s))
  else (None, s).

(** [Connect::StartSession]: the session is used without a test for NULL *)
Definition StartSession (s : SM) : outcome SM :=
  let '(o, s) := CreateSMSession s in
  match o with None => Abort | Some x => set_session (Some x) true s end.

Definition enter_Connect (s : SM) : outcome SM :=
  let s := set_state CONNECT s in
  s ← StartSession s;
  let s := with_counts (attempts_ s + 1) (connects_ s) (coll_name_ s) s in
  Ret (do ASendUVE (StartConnectTimer (GetConnectTime s) s)).
Definition leave_Connect (s : SM) : SM := CancelConnectTimer s.

Definition enter_ClientInit (s : SM) : SM :=
  let s := set_state CLIENT_INIT s in
  let s := CancelConnectTimer s in
  let s := StartConnectTimer (GetConnectTime s) s in
  let s := with_counts (attempts_ s) (connects_ s + 1) (coll_name_ s) s in
  do ASendUVE (do (AInitialize (connects_ s)) s).
Definition leave_ClientInit (s : SM) : SM := CancelConnectTimer s.

Definition enter_Established (s : SM) : outcome SM :=
  let s := set_state ESTABLISHED s in
  let s := with_counts 0 (connects_ s) (coll_name_ s) s in
  _ ← live_session s;
  Ret (do ASendUVE (do (AUpdate (Some true)) s)).
Definition leave_Established (s : SM) : SM := with_counts (attempts_ s) (connects_ s) "" s.

(** [Connect::ToIdle], with the exit of [Connect] and the entry of [Idle] *)
Definition Connect_ToIdle (s : SM) : outcome SM :=
  _ ← live_session s;
  let s := do (AUpdate (Some false)) s in
  let s := set_idle_hold_time (GetConnectTime s * 1000) s in
  s ← OnIdle true s;
  Ret (enter_Idle (leave_Connect (StartIdleHoldTimer s))).

(** [ClientInit::ToIdle] *)
Definition ClientInit_ToIdle (s : SM) : outcome SM :=
  _ ← live_session s;
  let s := do (AUpdate (Some false)) s in
  s ← OnIdle true s;
  Ret (enter_Idle (leave_ClientInit (StartIdleHoldTimer s))).

(** [Established::ToIdle] *)
Definition Established_ToIdle (s : SM) : outcome SM :=
  _ ← live_session s;
  let s := do (AUpdate (Some false)) s in
  s ← OnIdle true s;
  Ret (enter_Idle (leave_Established (StartIdleHoldTimer s))).

(** ** Reactions *)

Definition react_Idle (ev : event) (s : SM) : outcome SM :=
  match ev with
  | EvStart =>
      if negb (idle_hold_time_ s =? 0) then Ret (StartIdleHoldTimer (do (AUpdate None) s))
      else Ret (enter_Disconnect (leave_Idle (do (AUpdate (Some false)) s)))
  | EvStop _ => Ret (CancelIdleHoldTimer s)
  | EvCollectorUpdate c => '(_, s) ← CollectorUpdate c s; Ret s
  | EvIdleHoldTimerExpired => enter_Connect (leave_Idle (do (AUpdate None) s))
  | EvSandeshSend snh => Ret (ReleaseSandesh snh s)
  | EvTcpDeleteSession x => DeleteTcpSession x s
  | _ => Ret s
  end.

Definition react_Disconnect (ev : event) (s : SM) : outcome SM :=
  match ev with
  | EvStop enq => s ← OnIdle enq s; Ret (enter_Idle s)
  | EvCollectorUpdate c => '(_, s) ← CollectorUpdate c s; enter_Connect (do (AUpdate None) s)
  | EvSandeshSend snh => Ret (ReleaseSandesh snh s)
  | EvTcpDeleteSession x => DeleteTcpSession x s
  | _ => Ret s
  end.

Definition react_Connect (ev : event) (s : SM) : outcome SM :=
  match ev with
  | EvStop enq => s ← OnIdle enq (leave_Connect s); Ret (enter_Idle s)
  | EvTcpConnectFail _ | EvConnectTimerExpired | EvTcpClose _ =>
      '(_, s) ← CollectorChange s; Connect_ToIdle s
  | EvTcpConnected x =>
      let s := CancelConnectTimer s in
      if bool_decide (x ∈ sessions s)
      then Ret (enter_ClientInit (leave_Connect (do (AUpdate None) s)))
      else Abort
  | EvCollectorUpdate c =>
      '(changed, s) ← CollectorUpdate c s;
      if (changed : bool) then Connect_ToIdle s else Ret s
  | EvSandeshSend snh => Ret (ReleaseSandesh snh s)
  | EvTcpDeleteSession x => DeleteTcpSession x s
  | _ => Ret s
  end.

Definition react_ClientInit (ev : event) (s : SM) : outcome SM :=
  match ev with
  | EvStop enq => s ← OnIdle enq (leave_ClientInit s); Ret (enter_Idle s)
  | EvConnectTimerExpired | EvTcpClose _ =>
      '(_, s) ← CollectorChange s; ClientInit_ToIdle s
  | EvSandeshMessageRecv accepted control source =>
      if negb accepted then ClientInit_ToIdle s
      else
        let s := with_counts (attempts_ s) (connects_ s) source s in
        if control then
          _ ← live_session s;
          enter_Established (leave_ClientInit (do (AUpdate (Some true)) s))
        else Ret s
  | EvSandeshSend snh => if is_uve snh then Ret (do (ARelease snh) s) else send_session snh s
  | EvCollectorUpdate c =>
      '(changed, s) ← CollectorUpdate c s;
      if (changed : bool) then ClientInit_ToIdle s else Ret s
  | EvTcpDeleteSession x => DeleteTcpSession x s
  | _ => Ret s
  end.

(** The part of [Established] that goes straight to [Connect]. *)
Definition Established_reconnect (s : SM) : outcome SM :=
  _ ← live_session s;
  let s := do (AUpdate None) s in
  s ← OnIdle true s;
  enter_Connect (leave_Established s).

Definition react_Established (ev : event) (s : SM) : outcome SM :=
  match ev with
  | EvStop enq => s ← OnIdle enq (leave_Established s); Ret (enter_Idle s)
  | EvTcpClose _ =>
      '(changed, s) ← CollectorChange s;
      if (changed : bool) then Established_reconnect s else Established_ToIdle s
  | EvSandeshMessageRecv accepted _ _ => if negb accepted then Established_ToIdle s else Ret s
  | EvSandeshSend snh => send_session snh s
  | EvCollectorUpdate c =>
      '(changed, s) ← CollectorUpdate c s;
      if (changed : bool) then Established_reconnect s else Ret s
  | EvTcpDeleteSession x => DeleteTcpSession x s
  | _ => Ret s
  end.

Definition process_event (ev : event) (s : SM) : outcome SM :=
  match state_ s with
  | IDLE => react_Idle ev s
  | DISCONNECT => react_Disconnect ev s
  | CONNECT => react_Connect ev s
  | CLIENT_INIT => react_ClientInit ev s
  | ESTABLISHED => react_Established ev s
  end.

(** [ec.validate]: only [EvConnectTimerExpired] has a [validate] of the type that
    [HasValidate] looks for; that of [EvIdleHoldTimerExpired] takes no argument. *)
Definition validate (ev : event) (s : SM) : bool :=
  match ev with EvConnectTimerExpired => negb (Timer_cancelled (connect_timer_ s)) | _ => true end.

(** [DequeueEvent], of the event at the head of the queue *)
Definition DequeueEvent (s : SM) : outcome SM :=
  match work_queue_ s with
  | [] => Ret s
  | ev :: q =>
      let s := with_queue q s in
      if deleted_ s then Ret s
      else if validate ev s then process_event ev s else Ret s
  end.

(** ** The interface *)

Definition SetAdminState (down : bool) (s : SM) : SM :=
  if down then Enqueue (EvStop true) s
  else Enqueue EvStart (with_last IDLE (set_idle_hold_time 0 s)).

Definition SetCollectors (collectors : list EP) (s : SM) : SM := Enqueue (EvCollectorUpdate collectors) s.

Definition SendSandesh (snh : Sandesh) (s : SM) : SM := Enqueue (EvSandeshSend snh) s.

(** [TcpSession::Event] *)
Inductive TcpEvent := CONNECT_COMPLETE | CONNECT_FAILED | CLOSE | ACCEPT.

Definition OnSessionEvent (x : nat) (e : TcpEvent) (s : SM) : SM :=
  match e with
  | CONNECT_COMPLETE => Enqueue (EvTcpConnected x) s
  | CONNECT_FAILED => Enqueue (EvTcpConnectFail x) s
  | CLOSE => Enqueue (EvTcpClose x) s
  | ACCEPT => s
  end.

(** [OnMessage]; [extracted]: whether the header could be read. *)
Definition OnMessage (extracted accepted control : bool) (source : string) (s : SM) : bool * SM :=
  if negb extracted then (false, s)
  else (true, Enqueue (EvSandeshMessageRecv accepted control source) s).

(** The expiry of a timer: its handler returns false. *)
Definition ConnectTimerExpired (s : SM) : SM :=
  Enqueue EvConnectTimerExpired (with_timers TM.Init (idle_hold_timer_ s) (idle_hold_time_ s) s).
Definition IdleHoldTimerExpired (s : SM) : SM :=
  Enqueue EvIdleHoldTimerExpired (with_timers (connect_timer_ s) TM.Init (idle_hold_time_ s) s).

(** [StatisticsTimerExpired]: the statistics are sent; the timer is started again. *)
Definition StatisticsTimerExpired (s : SM) : SM := if deleted_ s then s else do ASendUVE s.

(** The destructor: what is on the queue is taken off and dropped, the current state is
    left; the session must have been given up before. *)
Definition destroy_SM (s : SM) : outcome SM :=
  if deleted_ s then Abort
  else
    let s := with_queue [] (with_deleted s) in
    match session_ s with
    | Some _ => Abort
    | None =>
        Ret (match state_ s with
             | IDLE => leave_Idle s
             | DISCONNECT => s
             | CONNECT => leave_Connect s
             | CLIENT_INIT => leave_ClientInit s
             | ESTABLISHED => leave_Established s
             end)
    end.

(** ** Executions *)

Inductive label :=
| LAdmin (down : bool) | LCollectors (c : list EP) | LSend (snh : Sandesh)
| LTcp (x : nat) (e : TcpEvent) | LMessage (extracted accepted control : bool) (source : string)
| LConnectTimer | LIdleHoldTimer | LStatisticsTimer | LSocket (ok : bool) | LDequeue.

Inductive step : SM → label → outcome SM → Prop :=
| step_admin s down : step s (LAdmin down) (Ret (SetAdminState down s))
| step_collectors s c : step s (LCollectors c) (Ret (SetCollectors c s))
| step_send s snh : step s (LSend snh) (Ret (SendSandesh snh s))
| step_tcp s x e : (* the observer of a session is removed when the machine gives it up *)
    session_ s = Some x → step s (LTcp x e) (Ret (OnSessionEvent x e s))
| step_message s ex a c src x : session_ s = Some x →
    step s (LMessage ex a c src) (Ret (OnMessage ex a c src s).2)
| step_connect_timer s : connect_timer_ s = TM.Running → step s LConnectTimer (Ret (ConnectTimerExpired s))
| step_idle_timer s : idle_hold_timer_ s = TM.Running → step s LIdleHoldTimer (Ret (IdleHoldTimerExpired s))
| step_statistics_timer s : step s LStatisticsTimer (Ret (StatisticsTimerExpired s))
| step_socket s ok : (* sockets become available or run out *)
    step s (LSocket ok) (Ret (with_socket ok s))
| step_dequeue s : work_queue_ s ≠ [] → step s LDequeue (DequeueEvent s).

Inductive reachable : SM → Prop :=
| reach_new index : reachable (new_SM index)
| reach_step s l s' : reachable s → step s l (Ret s') → reachable s'.

(** ** The invariant *)

(** The session an event refers to. *)
Definition refers (ev : event) : option nat :=
  match ev with
  | EvTcpConnected x | EvTcpConnectFail x | EvTcpClose x => Some x
  | _ => None
  end.

(** The sessions that are to be deleted. *)
Definition doomed (q : list event) : list nat :=
  omap (λ ev, match ev with EvTcpDeleteSession x => Some x | _ => None end) q.

(** A session an event refers to is the current one, or is deleted only later. *)
Fixpoint queue_ok (cur : option nat) (q : list event) : Prop :=
  match q with
  | [] => True
  | ev :: q => (∀ x, refers ev = Some x → cur = Some x ∨ x ∈ doomed q) ∧ queue_ok cur q
  end.

(** Current session, sessions, the next number, the queue. *)
Record SI (cur : option nat) (l : list nat) (n : nat) (q : list event) : Prop := {
  si_live : l ≡ₚ option_list cur ++ doomed q;
  si_nodup : NoDup l;
  si_fresh : ∀ x, x ∈ l → (x < n)%nat;
  si_queue : queue_ok cur q;
  si_stop : EvStop false ∉ q;
}.

Lemma doomed_app q1 q2 : doomed (q1 ++ q2) = doomed q1 ++ doomed q2.
Proof. apply omap_app. Qed.

Lemma queue_ok_app cur q ev : queue_ok cur q → (∀ x, refers ev = Some x → cur = Some x) →
  queue_ok cur (q ++ [ev]).
Proof.
  induction q as [|e q IH]; simpl; intros Hq He.
  - split; [|done]. intros x Hx. left. by apply He.
  - destruct Hq as [H1 H2]. split; [|by apply IH]. intros x Hx. destruct (H1 x Hx) as [?|?]; [by left|].
    right. rewrite doomed_app. apply elem_of_app. by left.
Qed.

Lemma queue_ok_close x q : queue_ok (Some x) q → queue_ok None (q ++ [EvTcpDeleteSession x]).
Proof.
  induction q as [|e q IH]; simpl; [done|]. intros [H1 H2]. split; [|by apply IH].
  intros y Hy. right. rewrite doomed_app. apply elem_of_app.
  destruct (H1 y Hy) as [[= ->]|?]; [right|by left]. simpl. by left.
Qed.

Lemma queue_ok_mono cur cur' q : queue_ok cur q → (cur = None ∨ cur = cur') → queue_ok cur' q.
Proof.
  intros Hq [->| ->]; [|done]. induction q as [|e q IH]; [done|]. destruct Hq as [H1 H2].
  split; [|by apply IH]. intros x Hx. destruct (H1 x Hx) as [?|?]; [done|by right].
Qed.

Lemma SI_enqueue cur l n q ev : SI cur l n q → (∀ x, refers ev = Some x → cur = Some x) →
  doomed [ev] = [] → ev ≠ EvStop false → SI cur l n (q ++ [ev]).
Proof.
  intros [] Hr Hd Hs. constructor; try done.
  - by rewrite doomed_app, Hd, app_nil_r.
  - by apply queue_ok_app.
  - rewrite not_elem_of_app. split; [done|]. by intros ?%list_elem_of_singleton.
Qed.

Lemma SI_close x l n q : SI (Some x) l n q → SI None l n (q ++ [EvTcpDeleteSession x]).
Proof.
  intros []. constructor; try done.
  - rewrite doomed_app. simpl in *. by rewrite si_live0, Permutation_app_comm.
  - by apply queue_ok_close.
  - rewrite not_elem_of_app. split; [done|]. by intros ?%list_elem_of_singleton.
Qed.

Lemma SI_create l n q : SI None l n q → SI (Some n) (n :: l) (S n) q.
Proof.
  intros []. constructor; try done.
  - simpl in *. by rewrite si_live0.
  - apply NoDup_cons. split; [|done]. intros Hn%si_fresh0. lia.
  - intros x [->|Hx%si_fresh0]%elem_of_cons; lia.
  - by eapply queue_ok_mono; [|left].
Qed.

Lemma SI_pop cur l n ev q : SI cur l n (ev :: q) → doomed [ev] = [] →
  SI cur l n q ∧ (∀ x, refers ev = Some x → x ∈ l) ∧ ev ≠ EvStop false.
Proof.
  intros [Hl Hn Hf [H1 H2] Hs] Hd. change (ev :: q) with ([ev] ++ q) in Hl. rewrite doomed_app, Hd in Hl.
  apply not_elem_of_cons in Hs as [Hs1 Hs2]. split_and!; [by constructor| |congruence].
  intros x Hx. rewrite Hl. destruct (H1 x Hx) as [->|?]; [by left|]. apply elem_of_app. by right.
Qed.

Lemma remove_perm x l l' : NoDup l → l ≡ₚ x :: l' → remove Nat.eq_dec x l ≡ₚ l'.
Proof.
  intros Hn Hp.
  assert (Hr : ∀ k, x ∉ k → remove Nat.eq_dec x k = k).
  { induction k as [|y k IH]; [done|]. rewrite not_elem_of_cons. intros [? ?]. simpl.
    destruct (Nat.eq_dec x y); [done|]. by rewrite IH. }
  assert (Hperm : ∀ k k' : list nat, k ≡ₚ k' → remove Nat.eq_dec x k ≡ₚ remove Nat.eq_dec x k').
  { intros k k'. induction 1 as [|y k k' _ IH|y z k|k1 k2 k3 _ IH1 _ IH2]; simpl; [done| | |by etrans].
    - destruct (Nat.eq_dec x y); [done|]. by rewrite IH.
    - destruct (Nat.eq_dec x y), (Nat.eq_dec x z); try done. apply perm_swap. }
  rewrite (Hperm _ _ Hp). simpl. destruct (Nat.eq_dec x x); [|done].
  rewrite Hp in Hn. apply NoDup_cons in Hn as [? _]. by rewrite Hr.
Qed.

Lemma SI_delete cur l n x q : SI cur l n (EvTcpDeleteSession x :: q) →
  x ∈ l ∧ SI cur (remove Nat.eq_dec x l) n q.
Proof.
  intros [Hl Hn Hf [H1 H2] Hs]. simpl in Hl.
  assert (Hp : l ≡ₚ x :: option_list cur ++ doomed q) by (rewrite Hl; symmetry; apply Permutation_middle).
  split; [rewrite Hp; by left|]. pose proof (remove_perm x l _ Hn Hp) as Hr. apply not_elem_of_cons in Hs as [_ Hs].
  constructor; try done.
  - rewrite Hr. rewrite Hp in Hn. by apply NoDup_cons in Hn as [_ ?].
  - intros y Hy. apply Hf. rewrite Hp. right. by rewrite <- Hr.
Qed.

Lemma SI_cur x l n q : SI (Some x) l n q → x ∈ l.
Proof. intros []. rewrite si_live0. by left. Qed.

Definition has_session (st : State) : bool :=
  match st with CONNECT | CLIENT_INIT | ESTABLISHED => true | _ => false end.
Definition connecting (st : State) : bool :=
  match st with CONNECT | CLIENT_INIT => true | _ => false end.

(** The connect timer runs, or its expiry is on the way. *)
Definition timeout_pending (t : TM.TimerState) (q : list event) : Prop :=
  t = TM.Running ∨ (t = TM.Init ∧ EvConnectTimerExpired ∈ q).

(** What holds in every state ... *)
Record Base (s : SM) : Prop := {
  b_si : SI (session_ s) (sessions s) (next_session s) (work_queue_ s);
  b_index : collectors_ s ≠ [] → 0 ≤ collector_index_ s < Z.of_nat (length (collectors_ s));
  b_attempts : 0 ≤ attempts_ s;
  b_hold : 0 ≤ idle_hold_time_ s;
  b_fired : connect_timer_ s ≠ TM.Fired ∧ idle_hold_timer_ s ≠ TM.Fired;
  b_deleted : deleted_ s = false;
}.

(** ... and what depends on the state. *)
Record Inv (s : SM) : Prop := {
  i_base : Base s;
  i_session : is_Some (session_ s) ↔ has_session (state_ s) = true;
  i_tried : connecting (state_ s) = true → 1 ≤ attempts_ s;
  i_connect : connecting (state_ s) = true → timeout_pending (connect_timer_ s) (work_queue_ s);
  i_connect_off : connecting (state_ s) = false → connect_timer_ s ≠ TM.Running;
  i_idle_off : state_ s ≠ IDLE → idle_hold_timer_ s ≠ TM.Running;
}.

Lemma Timer_Start_running t : t ≠ TM.Fired → Timer_Start t = TM.Running.
Proof. intros. unfold Timer_Start. case_bool_decide as Hr; [|done]. by destruct Hr. Qed.
Lemma Timer_Cancel_cancelled t : t ≠ TM.Fired → Timer_Cancel t = TM.Cancelled.
Proof. intros. unfold Timer_Cancel. by rewrite bool_decide_eq_false_2. Qed.

Lemma GetConnectTime_pos s : 1 ≤ attempts_ s → 1 ≤ GetConnectTime s ≤ 30.
Proof.
  intros H. unfold GetConnectTime, kConnectInterval. rewrite (proj2 (Z.eqb_neq _ _)) by lia. simpl.
  rewrite Z.shiftl_1_l. pose proof (Z.pow_pos_nonneg 2 (Z.min (attempts_ s) 6 - 1)). lia.
Qed.

(** Member by member, but for the collectors, the connection status and the log. *)
Record same (s s' : SM) : Prop := {
  sm_state : state_ s' = state_ s;
  sm_session : session_ s' = session_ s;
  sm_connect : connect_timer_ s' = connect_timer_ s;
  sm_idle : idle_hold_timer_ s' = idle_hold_timer_ s;
  sm_hold : idle_hold_time_ s' = idle_hold_time_ s;
  sm_attempts : attempts_ s' = attempts_ s;
  sm_deleted : deleted_ s' = deleted_ s;
  sm_queue : work_queue_ s' = work_queue_ s;
  sm_sessions : sessions s' = sessions s;
  sm_next : next_session s' = next_session s;
  sm_socket : socket_ok s' = socket_ok s;
}.

Lemma same_base s s' : same s s' → Base s →
  (collectors_ s' ≠ [] → 0 ≤ collector_index_ s' < Z.of_nat (length (collectors_ s'))) → Base s'.
Proof.
  intros [] [] Hi. constructor;
    rewrite ?sm_session0, ?sm_sessions0, ?sm_next0, ?sm_queue0, ?sm_attempts0, ?sm_hold0, ?sm_deleted0,
      ?sm_connect0, ?sm_idle0; done.
Qed.

Lemma collector_at_ok i l : 0 ≤ i < Z.of_nat (length l) → ∃ e, collector_at i l = Ret e.
Proof.
  intros Hi. unfold collector_at. rewrite (proj2 (Z.ltb_ge _ _)) by lia.
  destruct (lookup_lt_is_Some_2 l (Z.to_nat i)) as [e ->]; [lia|]. eauto.
Qed.

Lemma CollectorUpdate_ok c s : Base s → ∃ b s', CollectorUpdate c s = Ret (b, s') ∧ same s s' ∧ Base s'.
Proof.
  intros B. unfold CollectorUpdate, GetCollector. cbn.
  assert (Hc : ∃ e, match c with [] => Ret ep0 | _ :: _ => collector_at 0 c end = Ret e).
  { destruct c; [eauto|]. apply collector_at_ok. simpl. lia. }
  destruct Hc as [e ->]. cbn [mbind outcome_mbind].
  destruct (decide _); (eexists _, _; split; [done|]);
    (match goal with |- same _ ?x ∧ _ => assert (S : same s x) by (by constructor) end);
    (split; [done|]); eapply same_base; try done; cbn; intros Hne; destruct c; simpl in *; try done; lia.
Qed.

Lemma CollectorChange_ok s : Base s → ∃ b s', CollectorChange s = Ret (b, s') ∧ same s s' ∧ Base s'.
Proof.
  intros B. unfold CollectorChange, GetNextCollector.
  destruct (collectors_ s) as [|e0 c] eqn:Ec.
  { cbn [mbind outcome_mbind]. destruct (decide _); (eexists _, _; split; [done|]).
    - match goal with |- same _ ?x ∧ _ => assert (S : same s x) by (by constructor) end.
      split; [done|]. eapply same_base; try done; cbn; by rewrite Ec.
    - split; [by constructor|done]. }
  rewrite <- Ec. set (i := if _ =? _ then 0 else _).
  assert (Hi : 0 ≤ i < Z.of_nat (length (collectors_ s))).
  { pose proof (b_index s B ltac:(by rewrite Ec)) as H. subst i.
    destruct (Z.eqb_spec (collector_index_ s + 1) (Z.of_nat (length (collectors_ s)))); lia. }
  destruct (collector_at_ok i _ Hi) as [e ->]. cbn [mbind outcome_mbind].
  destruct (decide _); (eexists _, _; split; [done|]);
    (match goal with |- same _ ?x ∧ _ => assert (S : same s x) by (by constructor) end);
    (split; [done|]); eapply same_base; done.
Qed.

Lemma live_session_ok s x : Base s → session_ s = Some x → live_session s = Ret x.
Proof.
  intros [Hsi _ _ _ _ _] Hx. unfold live_session. rewrite Hx in *.
  by rewrite bool_decide_eq_true_2 by (by eapply SI_cur).
Qed.

(** After [OnIdle] there is no session and no timer. *)
Record idled (s s' : SM) : Prop := {
  id_base : Base s';
  id_session : session_ s' = None;
  id_idle : idle_hold_timer_ s' = TM.Cancelled;
  id_hold : idle_hold_time_ s' = if idle_hold_time_ s =? 0 then kIdleHoldTime else idle_hold_time_ s;
  id_state : state_ s' = state_ s;
  id_connect : connect_timer_ s' = connect_timer_ s;
  id_attempts : attempts_ s' = attempts_ s;
  id_socket : socket_ok s' = socket_ok s;
}.

Lemma OnIdle_ok s : Base s → ∃ s', OnIdle true s = Ret s' ∧ idled s s'.
Proof.
  intros B. unfold OnIdle, set_session. set (s0 := CancelIdleHoldTimer _).
  assert (B0 : Base s0).
  { destruct B. constructor; cbn; try done.
    - destruct (Z.eqb_spec (idle_hold_time_ s) 0); unfold kIdleHoldTime; lia.
    - split; [apply b_fired0|]. rewrite Timer_Cancel_cancelled; [done|apply b_fired0]. }
  assert (Ei : idle_hold_timer_ s0 = TM.Cancelled) by (apply Timer_Cancel_cancelled, B).
  destruct (session_ s0) as [x|] eqn:Ex.
  - rewrite (live_session_ok s0 x B0 Ex). cbn [mbind outcome_mbind]. eexists. split; [done|].
    unfold EnqueDelSession, Enqueue. cbn [deleted_ do]. rewrite (b_deleted s0 B0).
    destruct B0. rewrite Ex in b_si0. constructor; try done. constructor; cbn; try done. by apply SI_close.
  - cbn [mbind outcome_mbind]. eexists. split; [done|]. destruct B0. rewrite Ex in b_si0.
    constructor; done.
Qed.

(** Leaving for [Idle], with or without the idle hold timer. *)
Lemma idle_inv s : Base s → session_ s = None → connect_timer_ s ≠ TM.Running → Inv (enter_Idle s).
Proof.
  intros B Hs Hc. constructor; cbn; try done.
  - destruct B. by constructor.
  - rewrite Hs. split; [by intros [? ?]|done].
Qed.

Lemma base_cancel_connect s : Base s → Base (CancelConnectTimer s).
Proof.
  intros []. constructor; cbn; try done. split; [|apply b_fired0].
  rewrite Timer_Cancel_cancelled; [done|apply b_fired0].
Qed.

Lemma base_start_idle s : Base s → Base (StartIdleHoldTimer s).
Proof.
  intros B. unfold StartIdleHoldTimer. destruct (idle_hold_time_ s <=? 0); [done|].
  destruct B. constructor; cbn; try done. split; [apply b_fired0|].
  rewrite Timer_Start_running; [done|apply b_fired0].
Qed.

Lemma base_cancel_idle s : Base s → Base (CancelIdleHoldTimer s).
Proof.
  intros []. constructor; cbn; try done. split; [apply b_fired0|].
  rewrite Timer_Cancel_cancelled; [done|apply b_fired0].
Qed.

Lemma base_state st s : Base s → Base (set_state st s).
Proof. intros []. by constructor. Qed.

Lemma base_do a s : Base s → Base (do a s).
Proof. intros []. by constructor. Qed.

Lemma base_counts a c n s : Base s → 0 ≤ a → Base (with_counts a c n s).
Proof. intros [] Ha. by constructor. Qed.

Lemma base_hold t s : Base s → 0 ≤ t → Base (set_idle_hold_time t s).
Proof. intros [] Ha. by constructor. Qed.

(** The idle hold timer runs, and expires after the idle hold time. *)
Definition waiting (s : SM) : Prop :=
  state_ s = IDLE ∧ idle_hold_timer_ s = TM.Running ∧ 0 < idle_hold_time_ s ∧ idle_hold_wait s = idle_hold_time_ s.

Lemma ToIdle_ok (leave : SM → SM) s :
  Base s → is_Some (session_ s) →
  (∀ s0, Base s0 → (connect_timer_ s0 = connect_timer_ s) →
     Base (leave s0) ∧ session_ (leave s0) = session_ s0 ∧ connect_timer_ (leave s0) ≠ TM.Running ∧
     idle_hold_timer_ (leave s0) = idle_hold_timer_ s0 ∧ idle_hold_time_ (leave s0) = idle_hold_time_ s0 ∧
     idle_hold_wait (leave s0) = idle_hold_wait s0) →
  ∃ s', (_ ← live_session s; s ← OnIdle true (do (AUpdate (Some false)) s);
         Ret (enter_Idle (leave (StartIdleHoldTimer s)))) = Ret s' ∧ Inv s' ∧ waiting s' ∧
    (idle_hold_time_ s ≠ 0 → idle_hold_time_ s' = idle_hold_time_ s).
Proof.
  intros B [x Hx] Hleave. rewrite (live_session_ok s x B Hx). cbn [mbind outcome_mbind].
  destruct (OnIdle_ok (do (AUpdate (Some false)) s) (base_do _ _ B)) as (s1 & -> & [B1 S1 I1 H1 E1 C1 A1]).
  cbn [mbind outcome_mbind]. eexists. split; [done|].
  assert (Hpos : 0 < idle_hold_time_ s1).
  { rewrite H1. cbn. pose proof (b_hold s B). destruct (Z.eqb_spec (idle_hold_time_ s) 0); unfold kIdleHoldTime; lia. }
  assert (Est : StartIdleHoldTimer s1 = with_waits (connect_wait s1) (idle_hold_time_ s1)
            (with_timers (connect_timer_ s1) TM.Running (idle_hold_time_ s1) s1)).
  { unfold StartIdleHoldTimer. rewrite (proj2 (Z.leb_gt _ _)) by done. by rewrite I1. }
  destruct (Hleave (StartIdleHoldTimer s1)) as (Bl & Sl & Cl & Il & Hl & Wl);
    [by apply base_start_idle|by rewrite Est|].
  split; [|split_and!].
  - apply idle_inv; [done| |done]. by rewrite Sl, Est.
  - split_and!; [done| | |]; cbn.
    + by rewrite Il, Est.
    + by rewrite Hl, Est.
    + by rewrite Wl, Hl, Est.
  - cbn. rewrite Hl, Est. cbn. rewrite H1. cbn. intros. by rewrite (proj2 (Z.eqb_neq _ _)).
Qed.

Lemma leave_connect_ok s s0 : Base s0 → connect_timer_ s0 = connect_timer_ s →
  Base (CancelConnectTimer s0) ∧ session_ (CancelConnectTimer s0) = session_ s0 ∧
  connect_timer_ (CancelConnectTimer s0) ≠ TM.Running ∧
  idle_hold_timer_ (CancelConnectTimer s0) = idle_hold_timer_ s0 ∧
  idle_hold_time_ (CancelConnectTimer s0) = idle_hold_time_ s0 ∧
  idle_hold_wait (CancelConnectTimer s0) = idle_hold_wait s0.
Proof.
  intros B0 _. split_and!; try done; [by apply base_cancel_connect|]. cbn.
  rewrite Timer_Cancel_cancelled; [done|apply B0].
Qed.

Lemma Connect_ToIdle_ok s : Base s → is_Some (session_ s) → 1 ≤ attempts_ s →
  ∃ s', Connect_ToIdle s = Ret s' ∧ Inv s' ∧ waiting s' ∧ idle_hold_time_ s' = GetConnectTime s * 1000.
Proof.
  intros B Hs Ha. pose proof (GetConnectTime_pos s Ha) as Ht. destruct Hs as [x Hx].
  destruct (ToIdle_ok CancelConnectTimer (set_idle_hold_time (GetConnectTime s * 1000) s)) as
    (s' & E1 & I' & W' & H'); [apply base_hold; [done|lia]|by exists x| |].
  - intros s0 B0 C0. by eapply leave_connect_ok.
  - exists s'. split; [|split; [done|split; [done|]]].
    + unfold Connect_ToIdle. rewrite (live_session_ok s x B Hx). cbn [mbind outcome_mbind].
      rewrite (live_session_ok (set_idle_hold_time _ s) x) in E1; [|apply base_hold; [done|lia]|done].
      exact E1.
    + apply H'. cbn. lia.
Qed.

Lemma ClientInit_ToIdle_ok s : Base s → is_Some (session_ s) →
  ∃ s', ClientInit_ToIdle s = Ret s' ∧ Inv s' ∧ waiting s'.
Proof.
  intros B Hs. destruct (ToIdle_ok CancelConnectTimer s B Hs) as (s' & E1 & I' & W' & _); [|by exists s'].
  intros s0 B0 C0. by eapply leave_connect_ok.
Qed.

Lemma Established_ToIdle_ok s : Base s → is_Some (session_ s) → connect_timer_ s ≠ TM.Running →
  ∃ s', Established_ToIdle s = Ret s' ∧ Inv s' ∧ waiting s'.
Proof.
  intros B Hs Hc. destruct (ToIdle_ok leave_Established s B Hs) as (s' & E1 & I' & W' & _); [|by exists s'].
  intros s0 B0 C0. split_and!; try done; [|by cbn; rewrite C0]. apply base_counts; [done|apply B0].
Qed.

(** ** Every reaction returns and keeps the invariant *)

(** What holds of the idle hold timer after an event other than [EvStop] that leads to
    [IDLE] or leaves the machine there. *)
Definition after (ev : event) (s s' : SM) : Prop :=
  state_ s' = IDLE → (∃ b, ev = EvStop b) ∨ idle_hold_timer_ s' = TM.Running ∨
    (state_ s = IDLE ∧ ev ≠ EvStart ∧ ev ≠ EvIdleHoldTimerExpired ∧
     idle_hold_timer_ s' = idle_hold_timer_ s ∧ work_queue_ s' = work_queue_ s).

(** The events on which the machine makes a session *)
Definition opens (ev : event) (s : SM) : bool :=
  match state_ s, ev with
  | IDLE, EvIdleHoldTimerExpired | DISCONNECT, EvCollectorUpdate _ => true
  | ESTABLISHED, EvTcpClose _ => match CollectorChange s with Ret (changed, _) => changed | Abort => false end
  | ESTABLISHED, EvCollectorUpdate c => match CollectorUpdate c s with Ret (changed, _) => changed | Abort => false end
  | _, _ => false
  end.

(** It does not get one. *)
Definition no_socket (ev : event) (s : SM) (o : outcome SM) : Prop := o = Abort ∧ socket_ok s = false ∧ opens ev s = true.

Definition good (ev : event) (s : SM) (o : outcome SM) : Prop :=
  (∃ s', o = Ret s' ∧ Inv s' ∧ after ev s s') ∨ no_socket ev s o.

Lemma good_to_idle ev s o : (∃ s', o = Ret s' ∧ Inv s' ∧ waiting s') → good ev s o.
Proof. intros (s' & -> & I & _ & W & _). left. exists s'. split_and!; [done..|]. intros _. right. by left. Qed.

Lemma good_elsewhere ev s o : (∃ s', o = Ret s' ∧ Inv s' ∧ state_ s' ≠ IDLE) → good ev s o.
Proof. intros (s' & -> & I & Hn). left. exists s'. split_and!; [done..|]. by intros ?. Qed.

(** A session is made, or there is no socket. *)
Definition connected (s : SM) (o : outcome SM) : Prop :=
  (∃ s', o = Ret s' ∧ Inv s' ∧ state_ s' ≠ IDLE) ∨ (o = Abort ∧ socket_ok s = false).

Lemma good_connected ev s o : connected s o → opens ev s = true → good ev s o.
Proof. intros [H|[-> H]] Ho; [by apply good_elsewhere|right]. by split_and!. Qed.

Lemma inv_do a s : Inv s → Inv (do a s).
Proof. intros []. constructor; try done. by apply base_do. Qed.

Lemma same_inv s s' : same s s' → Inv s → Base s' → Inv s'.
Proof.
  intros [] [] B. constructor; rewrite ?sm_state0, ?sm_session0, ?sm_queue0, ?sm_attempts0,
      ?sm_connect0, ?sm_idle0; done.
Qed.

Lemma good_same ev s s' : state_ s ≠ IDLE → same s s' → Inv s → Base s' → good ev s (Ret s').
Proof.
  intros Hn HS I B. apply good_elsewhere. exists s'. split_and!; [done|by eapply same_inv|].
  by rewrite (sm_state s s' HS).
Qed.

Lemma StartConnectTimer_ok s : Base s → 1 ≤ attempts_ s →
  StartConnectTimer (GetConnectTime s) s =
    with_waits (Timer_wait (connect_timer_ s) (connect_wait s) (GetConnectTime s * 1000)) (idle_hold_wait s)
      (with_timers TM.Running (idle_hold_timer_ s) (idle_hold_time_ s) s).
Proof.
  intros B Ha. pose proof (GetConnectTime_pos s Ha). unfold StartConnectTimer.
  rewrite (proj2 (Z.ltb_ge _ _)) by lia. by rewrite Timer_Start_running by apply B.
Qed.

Lemma base_running a b s : Base s → Base (with_waits a b (with_timers TM.Running (idle_hold_timer_ s) (idle_hold_time_ s) s)).
Proof. intros []. constructor; cbn; try done. split; [done|apply b_fired0]. Qed.

(** [Connect] is entered without a session. *)
Lemma enter_Connect_ok s : Base s → session_ s = None → idle_hold_timer_ s ≠ TM.Running →
  connected s (enter_Connect s).
Proof.
  intros B Hs Hi. unfold enter_Connect, StartSession, CreateSMSession, set_session. cbn.
  destruct (socket_ok s) eqn:Ek; [left|by right]. cbn. rewrite Hs.
  cbn [mbind outcome_mbind]. eexists. split; [done|]. split; [|by unfold StartConnectTimer; case_match].
  set (s1 := with_counts _ _ _ _).
  assert (B1 : Base s1).
  { destruct B. rewrite Hs in b_si0. constructor; cbn; try done; [by apply SI_create|lia]. }
  assert (Ha : 1 ≤ attempts_ s1) by (cbn; pose proof (b_attempts s B); lia).
  rewrite StartConnectTimer_ok by done. constructor; cbn; try done.
  - exact (base_do _ _ (base_running _ _ s1 B1)).
  - by left.
Qed.

Lemma enter_ClientInit_ok s : Base s → is_Some (session_ s) → 1 ≤ attempts_ s →
  idle_hold_timer_ s ≠ TM.Running → Inv (enter_ClientInit s) ∧ state_ (enter_ClientInit s) ≠ IDLE.
Proof.
  intros B Hs Ha Hi. unfold enter_ClientInit. set (s1 := CancelConnectTimer (set_state CLIENT_INIT s)).
  assert (B1 : Base s1) by (apply base_cancel_connect; destruct B; by constructor).
  rewrite StartConnectTimer_ok by done. split; [|done]. constructor; cbn; try done.
  - apply base_do, base_do, base_counts; [exact (base_running _ _ s1 B1)|]. cbn. lia.
  - by left.
Qed.

Lemma enter_Established_ok s : Base s → is_Some (session_ s) → connect_timer_ s ≠ TM.Running →
  idle_hold_timer_ s ≠ TM.Running → ∃ s', enter_Established s = Ret s' ∧ Inv s' ∧ state_ s' ≠ IDLE.
Proof.
  intros B [x Hx] Hc Hi. unfold enter_Established. set (s1 := with_counts 0 _ _ _).
  assert (B1 : Base s1) by (destruct B; by constructor).
  rewrite (live_session_ok s1 x B1 Hx). cbn [mbind outcome_mbind]. eexists. split; [done|]. split; [|done].
  constructor; try done. exact (base_do _ _ (base_do _ _ B1)).
Qed.

Lemma Established_reconnect_ok s : Base s → is_Some (session_ s) →
  connected s (Established_reconnect s).
Proof.
  intros B [x Hx]. unfold Established_reconnect. rewrite (live_session_ok s x B Hx). cbn [mbind outcome_mbind].
  destruct (OnIdle_ok (do (AUpdate None) s) (base_do _ _ B)) as (s1 & -> & []). cbn [mbind outcome_mbind].
  unfold connected. rewrite <- (id_socket0 : _ = socket_ok s). apply (enter_Connect_ok (leave_Established s1)); [|done|].
  - apply base_counts; [done|apply id_base0].
  - cbn. by rewrite id_idle0.
Qed.

(** [EvStop]: the transition to [Idle] with [OnIdle] as its action. *)
Lemma stop_ok s s0 : Base s → connect_timer_ s ≠ TM.Running →
  good (EvStop true) s0 (s ← OnIdle true s; Ret (enter_Idle s)).
Proof.
  intros B Hc. destruct (OnIdle_ok s B) as (s1 & -> & []). cbn [mbind outcome_mbind].
  left. eexists. split_and!; [done|apply idle_inv; [done..|congruence]|]. intros _. left. eauto.
Qed.

Lemma base_session s (B : Base s) : is_Some (session_ s) → ∃ x, session_ s = Some x ∧ live_session s = Ret x.
Proof. intros [x Hx]. exists x. split; [done|]. by apply live_session_ok. Qed.

(** The machine with [ev] just taken off the queue. *)
Record Pre (ev : event) (s : SM) : Prop := {
  p_base : Base s;
  p_session : is_Some (session_ s) ↔ has_session (state_ s) = true;
  p_tried : connecting (state_ s) = true → 1 ≤ attempts_ s;
  p_connect : ev ≠ EvConnectTimerExpired → connecting (state_ s) = true →
    timeout_pending (connect_timer_ s) (work_queue_ s);
  p_connect_off : connecting (state_ s) = false → connect_timer_ s ≠ TM.Running;
  p_idle_off : state_ s ≠ IDLE → idle_hold_timer_ s ≠ TM.Running;
  p_refers : ∀ x, refers ev = Some x → x ∈ sessions s;
  p_stop : ev ≠ EvStop false;
}.

Lemma pre_inv ev s : Pre ev s → (ev ≠ EvConnectTimerExpired ∨ connecting (state_ s) = false) → Inv s.
Proof. intros [] H. constructor; try done. intros Hc. apply p_connect0; [|done]. destruct H; congruence. Qed.

Lemma pop_ok s ev q : Inv s → work_queue_ s = ev :: q → doomed [ev] = [] → Pre ev (with_queue q s).
Proof.
  intros [B Is It Ic Ico Iio] Eq Hd. destruct B. rewrite Eq in b_si0.
  destruct (SI_pop _ _ _ _ _ b_si0 Hd) as (Hsi & Hr & Hst). constructor; cbn; try done.
  intros Hne Hc. destruct (Ic Hc) as [?|[Hi Hin]]; [by left|]. right. split; [done|].
  rewrite Eq in Hin. by apply elem_of_cons in Hin as [?|?].
Qed.

(** [EvTcpDeleteSession] deletes the session in every state. *)
Lemma delete_ok s x q : Inv s → work_queue_ s = EvTcpDeleteSession x :: q →
  good (EvTcpDeleteSession x) (with_queue q s) (DeleteTcpSession x (with_queue q s)).
Proof.
  intros [B Is It Ic Ico Iio] Eq. destruct B. rewrite Eq in b_si0.
  destruct (SI_delete _ _ _ _ _ b_si0) as (Hx & Hsi). unfold DeleteTcpSession. cbn [sessions with_queue].
  rewrite bool_decide_eq_true_2 by done. left. eexists. split; [done|]. split.
  - constructor; cbn; try done. intros Hc. destruct (Ic Hc) as [?|[Hi Hin]]; [by left|]. right. split; [done|].
    rewrite Eq in Hin. by apply elem_of_cons in Hin as [?|?].
  - intros Hi. right. right. by split_and!.
Qed.

Lemma inv_no_session s : Inv s → has_session (state_ s) = false → session_ s = None.
Proof.
  intros I Hn. destruct (session_ s) eqn:Es; [|done]. pose proof (proj1 (i_session s I)) as H.
  rewrite Es, Hn in H. by specialize (H ltac:(by eexists)).
Qed.

Lemma react_Idle_ok ev s : Pre ev s → state_ s = IDLE → doomed [ev] = [] → good ev s (react_Idle ev s).
Proof.
  intros P Hst Hd. pose proof (pre_inv ev s P ltac:(right; by rewrite Hst)) as I.
  pose proof (i_base s I) as B.
  pose proof (inv_no_session s I ltac:(by rewrite Hst)) as Hs.
  assert (Hstay : ∀ s', s' = s → ev ≠ EvStart → ev ≠ EvIdleHoldTimerExpired → good ev s (Ret s')).
  { intros s' -> ? ?. left. exists s. split_and!; [done..|]. intros _. right. right. by split_and!. }
  destruct ev; cbn [react_Idle]; try (apply Hstay; done); try done.
  - destruct (Z.eqb_spec (idle_hold_time_ s) 0) as [E0|Hne]; cbn [negb].
    + left. eexists. split; [done|]. split; [|by intros ?]. constructor; cbn; try done.
      * exact (base_do _ _ (base_state _ _ (base_cancel_idle _ (base_do _ _ B)))).
      * rewrite Hs. split; [by intros [? ?]|done].
      * intros _. apply (i_connect_off s I). by rewrite Hst.
      * intros _. rewrite Timer_Cancel_cancelled; [done|apply B].
    + unfold StartIdleHoldTimer. cbn [idle_hold_time_ do]. pose proof (b_hold s B).
      rewrite (proj2 (Z.leb_gt _ _)) by lia. left. eexists. split; [done|]. cbn.
      rewrite Timer_Start_running by apply B. split; [|intros _; right; by left].
      destruct I. constructor; cbn; try done. destruct B. constructor; cbn; try done.
      split; [apply b_fired0|done].
  - left. eexists. split; [done|]. split; [|intros _; left; by eexists]. destruct I. constructor; try done.
    by apply base_cancel_idle.
  - destruct (CollectorUpdate_ok collectors s B) as (b & s' & -> & HS & B'). cbn [mbind outcome_mbind].
    left. eexists. split_and!; [done|by eapply same_inv|]. intros _. right. right. destruct HS. by split_and!.
  - apply good_connected; [apply (enter_Connect_ok (leave_Idle (do (AUpdate None) s))); [|done|]|by unfold opens; rewrite Hst].
    + by apply base_cancel_idle, base_do.
    + cbn. rewrite Timer_Cancel_cancelled; [done|apply B].
  - left. eexists. split_and!; [done|by apply inv_do|]. intros _. right. right. by split_and!.
Qed.

Lemma react_Disconnect_ok ev s : Pre ev s → state_ s = DISCONNECT → doomed [ev] = [] →
  good ev s (react_Disconnect ev s).
Proof.
  intros P Hst Hd. pose proof (pre_inv ev s P ltac:(right; by rewrite Hst)) as I.
  pose proof (i_base s I) as B.
  pose proof (inv_no_session s I ltac:(by rewrite Hst)) as Hs.
  assert (Hstay : good ev s (Ret s)) by (apply good_same; [by rewrite Hst|by constructor|done..]).
  destruct ev; cbn [react_Disconnect]; try done.
  - destruct enq; [|by destruct (p_stop _ _ P)]. apply stop_ok; [done|]. apply I. by rewrite Hst.
  - destruct (CollectorUpdate_ok collectors s B) as (b & s' & -> & HS & B'). cbn [mbind outcome_mbind].
    apply good_connected; [|by unfold opens; rewrite Hst]. unfold connected. rewrite <- (sm_socket _ _ HS).
    apply (enter_Connect_ok (do (AUpdate None) s')); [by apply base_do|by cbn; rewrite (sm_session _ _ HS)|].
    cbn. rewrite (sm_idle _ _ HS). apply I. by rewrite Hst.
  - apply good_same; [by rewrite Hst|by constructor|done|by apply base_do].
Qed.

Lemma react_Connect_ok ev s : Pre ev s → state_ s = CONNECT → doomed [ev] = [] → good ev s (react_Connect ev s).
Proof.
  intros P Hst Hd. pose proof (p_base _ _ P) as B. pose proof (p_tried _ _ P ltac:(by rewrite Hst)) as Ha.
  pose proof (proj2 (p_session _ _ P) ltac:(by rewrite Hst)) as Hs.
  assert (Hidle : ∀ s', same s s' → Base s' → good ev s (Connect_ToIdle s')).
  { intros s' [] B'. apply good_to_idle.
    destruct (Connect_ToIdle_ok s') as (s1 & ? & ? & ? & _); [done|by rewrite sm_session0|lia|eauto]. }
  assert (Hchange : good ev s ('(_, s) ← CollectorChange s; Connect_ToIdle s)).
  { destruct (CollectorChange_ok s B) as (b & s' & -> & HS & B'). by apply Hidle. }
  assert (Hstay : ∀ s', ev ≠ EvConnectTimerExpired → same s s' → Base s' → good ev s (Ret s')).
  { intros s' He HS B'. apply good_same; try done; [by rewrite Hst|]. apply (pre_inv ev s P). by left. }
  destruct ev; cbn [react_Connect]; try done; try (apply Hstay; [done|by constructor|by try apply base_do]).
  - destruct enq; [|by destruct (p_stop _ _ P)]. apply stop_ok; [by apply base_cancel_connect|].
    cbn. rewrite Timer_Cancel_cancelled; [done|apply B].
  - destruct (CollectorUpdate_ok collectors s B) as ([] & s' & -> & HS & B'); cbn [mbind outcome_mbind].
    + by apply Hidle.
    + by apply Hstay.
  - rewrite bool_decide_eq_true_2 by (by apply (p_refers _ _ P)). apply good_elsewhere. eexists.
    split; [done|]. apply enter_ClientInit_ok; try done.
    + by apply base_cancel_connect, base_do, base_cancel_connect.
    + apply (p_idle_off _ _ P). by rewrite Hst.
Qed.

Lemma react_ClientInit_ok ev s : Pre ev s → state_ s = CLIENT_INIT → doomed [ev] = [] →
  good ev s (react_ClientInit ev s).
Proof.
  intros P Hst Hd. pose proof (p_base _ _ P) as B. pose proof (p_tried _ _ P ltac:(by rewrite Hst)) as Ha.
  pose proof (proj2 (p_session _ _ P) ltac:(by rewrite Hst)) as Hs.
  assert (Hidle : ∀ s', same s s' → Base s' → good ev s (ClientInit_ToIdle s')).
  { intros s' [] B'. apply good_to_idle, ClientInit_ToIdle_ok; [done|by rewrite sm_session0]. }
  assert (Hchange : good ev s ('(_, s) ← CollectorChange s; ClientInit_ToIdle s)).
  { destruct (CollectorChange_ok s B) as (b & s' & -> & HS & B'). by apply Hidle. }
  assert (Hstay : ∀ s', ev ≠ EvConnectTimerExpired → same s s' → Base s' → good ev s (Ret s')).
  { intros s' He HS B'. apply good_same; try done; [by rewrite Hst|]. apply (pre_inv ev s P). by left. }
  destruct ev; cbn [react_ClientInit]; try done; try (apply Hstay; [done|by constructor|done]).
  - destruct enq; [|by destruct (p_stop _ _ P)]. apply stop_ok; [by apply base_cancel_connect|].
    cbn. rewrite Timer_Cancel_cancelled; [done|apply B].
  - destruct (CollectorUpdate_ok collectors s B) as ([] & s' & -> & HS & B'); cbn [mbind outcome_mbind].
    + by apply Hidle.
    + by apply Hstay.
  - destruct (is_uve snh); [apply Hstay; [done|by constructor|by apply base_do]|].
    unfold send_session. destruct (base_session s B Hs) as (x & _ & ->). cbn [mbind outcome_mbind].
    apply Hstay; [done|by constructor|by apply base_do].
  - destruct accepted; cbn [negb]; [|apply Hidle; [by constructor|done]].
    set (s1 := with_counts _ _ _ s). assert (B1 : Base s1) by (apply base_counts; [done|apply B]).
    destruct control; [|apply Hstay; [done|by constructor|done]].
    destruct (base_session s1 B1 Hs) as (x & _ & ->). cbn [mbind outcome_mbind].
    apply good_elsewhere, enter_Established_ok; [by apply base_cancel_connect, base_do|done| |].
    + cbn. rewrite Timer_Cancel_cancelled; [done|apply B].
    + apply (p_idle_off _ _ P). by rewrite Hst.
Qed.

Lemma react_Established_ok ev s : Pre ev s → state_ s = ESTABLISHED → doomed [ev] = [] →
  good ev s (react_Established ev s).
Proof.
  intros P Hst Hd. pose proof (pre_inv ev s P ltac:(right; by rewrite Hst)) as I.
  pose proof (p_base _ _ P) as B. pose proof (proj2 (p_session _ _ P) ltac:(by rewrite Hst)) as Hs.
  pose proof (i_connect_off s I ltac:(by rewrite Hst)) as Hc.
  assert (Hidle : ∀ s', same s s' → Base s' → good ev s (Established_ToIdle s')).
  { intros s' [] B'. apply good_to_idle, Established_ToIdle_ok; [done|by rewrite sm_session0|congruence]. }
  assert (Hre : ∀ s', same s s' → Base s' → opens ev s = true → good ev s (Established_reconnect s')).
  { intros s' [] B' Ho. apply good_connected; [|done]. unfold connected. rewrite <- sm_socket0.
    apply Established_reconnect_ok; [done|by rewrite sm_session0]. }
  assert (Hstay : ∀ s', same s s' → Base s' → good ev s (Ret s')).
  { intros s' HS B'. apply good_same; try done. by rewrite Hst. }
  destruct ev; cbn [react_Established]; try done; try (apply Hstay; [by constructor|done]).
  - destruct enq; [|by destruct (p_stop _ _ P)]. apply stop_ok; [apply base_counts; [done|apply B]|done].
  - destruct (CollectorUpdate_ok collectors s B) as ([] & s' & Ec & HS & B'); rewrite Ec; cbn [mbind outcome_mbind].
    + apply Hre; try done. unfold opens. by rewrite Hst, Ec.
    + by apply Hstay.
  - destruct (CollectorChange_ok s B) as ([] & s' & Ec & HS & B'); rewrite Ec; cbn [mbind outcome_mbind].
    + apply Hre; try done. unfold opens. by rewrite Hst, Ec.
    + by apply Hidle.
  - unfold send_session. destruct (base_session s B Hs) as (x & _ & ->). cbn [mbind outcome_mbind].
    apply Hstay; [by constructor|by apply base_do].
  - destruct accepted; [apply Hstay|apply Hidle]; try done; by constructor.
Qed.

(** ** Steps *)

Lemma dequeue_ok s ev q : Inv s → work_queue_ s = ev :: q →
  good ev (with_queue q s) (DequeueEvent s).
Proof.
  intros I Eq. unfold DequeueEvent. rewrite Eq. cbn [deleted_ with_queue].
  rewrite (b_deleted s (i_base s I)). destruct (validate ev (with_queue q s)) eqn:Ev.
  - destruct (decide (doomed [ev] = [])) as [Hd|Hd].
    + pose proof (pop_ok s ev q I Eq Hd) as P. unfold process_event.
      destruct (state_ (with_queue q s)) eqn:Est;
        [apply react_Idle_ok|apply react_Disconnect_ok|apply react_Connect_ok|apply react_ClientInit_ok
        |apply react_Established_ok]; done.
    + destruct ev; try done. pose proof (delete_ok s session q I Eq) as G.
      unfold process_event. by destruct (state_ (with_queue q s)).
  - destruct ev; try done. cbn in Ev. apply negb_false_iff, bool_decide_eq_true in Ev.
    pose proof (pop_ok s _ q I Eq eq_refl) as P.
    assert (Hc : connecting (state_ s) = false).
    { destruct (connecting (state_ s)) eqn:Ec; [|done]. destruct (i_connect s I Ec) as [?|[? _]]; congruence. }
    left. eexists. split_and!; [done|apply (pre_inv _ _ P); by right|]. intros Hi. right. right. by split_and!.
Qed.

Lemma Enqueue_eq ev s : deleted_ s = false → Enqueue ev s = with_queue (work_queue_ s ++ [ev]) s.
Proof. intros Hd. unfold Enqueue. by rewrite Hd. Qed.

(** An event that refers to the current session, if to any, is put on the queue. *)
Lemma enqueue_inv ev s : Inv s → (∀ x, refers ev = Some x → session_ s = Some x) → doomed [ev] = [] →
  ev ≠ EvStop false → Inv (Enqueue ev s).
Proof.
  intros [B Is It Ic Ico Iio] Hr Hd Hst. rewrite Enqueue_eq by apply B. destruct B.
  constructor; cbn; try done; [constructor; cbn; try done; by apply SI_enqueue|].
  intros Hc. destruct (Ic Hc) as [?|[? ?]]; [by left|]. right. split; [done|]. apply elem_of_app. by left.
Qed.

Lemma new_inv index : Inv (new_SM index).
Proof.
  constructor; cbn; try done.
  constructor; cbn; try done. constructor; cbn; try done; [constructor|by intros ? ?%elem_of_nil|].
  by intros ?%elem_of_nil.
Qed.

Lemma ConnectTimerExpired_inv s : Inv s → connect_timer_ s = TM.Running → Inv (ConnectTimerExpired s).
Proof.
  intros [B Is It Ic Ico Iio] Ht. unfold ConnectTimerExpired. rewrite Enqueue_eq by apply B.
  destruct B. constructor; cbn; try done.
  - constructor; cbn; try done; [by apply SI_enqueue|]. split; [done|apply b_fired0].
  - intros _. right. split; [done|]. apply elem_of_app. right. by apply list_elem_of_singleton.
Qed.

Lemma IdleHoldTimerExpired_inv s : Inv s → idle_hold_timer_ s = TM.Running → Inv (IdleHoldTimerExpired s).
Proof.
  intros [B Is It Ic Ico Iio] Ht. unfold IdleHoldTimerExpired. rewrite Enqueue_eq by apply B.
  destruct B. constructor; cbn; try done.
  - constructor; cbn; try done; [by apply SI_enqueue|]. split; [apply b_fired0|done].
  - intros Hc. destruct (Ic Hc) as [?|[? ?]]; [by left|]. right. split; [done|]. apply elem_of_app. by left.
Qed.

(** The step that finds no socket *)
Definition socketless (s : SM) (l : label) (o : outcome SM) : Prop :=
  o = Abort ∧ l = LDequeue ∧ socket_ok s = false ∧
  ∃ ev q, work_queue_ s = ev :: q ∧ opens ev (with_queue q s) = true.

Lemma csm_step_ok s l o : Inv s → step s l o → (∃ s', o = Ret s' ∧ Inv s') ∨ socketless s l o.
Proof.
  intros I Hstep. pose proof (i_base s I) as B. destruct Hstep; try (left; eexists; split; [done|]).
  - unfold SetAdminState. destruct down; apply enqueue_inv; try done.
    destruct I. constructor; try done. destruct B. by constructor.
  - by apply enqueue_inv.
  - by apply enqueue_inv.
  - destruct e; cbn; [apply enqueue_inv; [done|by intros ? [= <-]|done..]..|done].
  - unfold OnMessage. destruct ex; cbn; [by apply enqueue_inv|done].
  - by apply ConnectTimerExpired_inv.
  - by apply IdleHoldTimerExpired_inv.
  - unfold StatisticsTimerExpired. destruct (deleted_ s); [done|by apply inv_do].
  - destruct I. constructor; try done. destruct B. by constructor.
  - destruct (work_queue_ s) as [|ev q] eqn:Eq; [done|].
    destruct (dequeue_ok s ev q I Eq) as [(s' & ? & ? & _)|(? & ? & ?)]; [eauto|right]. split_and!; try done. eauto.
Qed.

Lemma csm_reachable_inv s : reachable s → Inv s.
Proof.
  induction 1 as [index|s l s' _ IH Hs]; [apply new_inv|].
  by destruct (csm_step_ok _ _ _ IH Hs) as [(s1 & [= ->] & ?)|[? _]].
Qed.

(** ** The theorems *)

Lemma SI_accounts s : Base s → NoDup (sessions s) ∧ sessions s ≡ₚ option_list (session_ s) ++ doomed (work_queue_ s).
Proof. intros [[] _ _ _ _ _]. done. Qed.

(** C7: In every reachable state of the client state machine every input is handled, with
    one exception: no step uses a null or a deleted session, deletes a session twice, or
    reads the list of collectors out of range, unless the socket of a new session cannot
    be opened or configured, for then the machine uses the null session that it gets.
    The sessions that exist after a step are the current one and those whose deletion is
    on the queue, each exactly once. *)
Theorem sm_never_crashes (s : SM) (l : label) (o : outcome SM) : reachable s → step s l o →
  (∃ s', o = Ret s' ∧ NoDup (sessions s') ∧
    sessions s' ≡ₚ option_list (session_ s') ++ doomed (work_queue_ s') ∧
    (is_Some (session_ s') ↔ state_ s' = CONNECT ∨ state_ s' = CLIENT_INIT ∨ state_ s' = ESTABLISHED)) ∨
  (o = Abort ∧ l = LDequeue ∧ socket_ok s = false ∧
    ∃ ev q, work_queue_ s = ev :: q ∧ opens ev (with_queue q s) = true).
Proof.
  intros Hr Hs. destruct (csm_step_ok s l o (csm_reachable_inv s Hr) Hs) as [(s' & -> & I')|?]; [left|by right]. exists s'.
  destruct (SI_accounts s' (i_base s' I')) as [Hn Hp]. split_and!; try done.
  rewrite (i_session s' I'). destruct (state_ s'); cbn; naive_solver.
Qed.

(** Executions with the last of [EvStart] and [EvStop] that was taken off the queue:
    [true] when it was [EvStop], or when there was none. *)
Definition halted_after (s : SM) (l : label) (h : bool) : bool :=
  match l, work_queue_ s with
  | LDequeue, EvStart :: _ => false
  | LDequeue, EvStop _ :: _ => true
  | _, _ => h
  end.

Inductive run : SM → bool → Prop :=
| run_new index : run (new_SM index) true
| run_step s h l s' : run s h → step s l (Ret s') → run s' (halted_after s l h).

Definition idle_pending (s : SM) : Prop :=
  idle_hold_timer_ s = TM.Running ∨ EvIdleHoldTimerExpired ∈ work_queue_ s.

Lemma run_reachable s h : run s h → reachable s.
Proof. induction 1; [constructor|by econstructor]. Qed.

Lemma idle_pending_enqueue ev s : idle_pending s → idle_pending (Enqueue ev s).
Proof.
  intros Hp. unfold Enqueue. destruct (deleted_ s); [done|]. destruct Hp as [?|?]; [by left|right].
  cbn. apply elem_of_app. by left.
Qed.

Lemma idle_pending_step s l s' : Inv s → l ≠ LDequeue → step s l (Ret s') →
  state_ s' = state_ s ∧ (idle_pending s → idle_pending s').
Proof.
  intros I Hl Hs. pose proof (b_deleted s (i_base s I)) as Hd.
  inversion Hs; subst; try done.
  - unfold SetAdminState. destruct down; rewrite Enqueue_eq by done; (split; [done|]); intros Hp.
    + rewrite <- Enqueue_eq by done. by apply idle_pending_enqueue.
    + destruct Hp; [by left|right; apply elem_of_app; by left].
  - split; [|by apply idle_pending_enqueue]. unfold SetCollectors. by rewrite Enqueue_eq.
  - split; [|by apply idle_pending_enqueue]. unfold SendSandesh. by rewrite Enqueue_eq.
  - destruct e; cbn; try done; (split; [by rewrite Enqueue_eq|by apply idle_pending_enqueue]).
  - unfold OnMessage. destruct ex; cbn; [|done]. split; [by rewrite Enqueue_eq|by apply idle_pending_enqueue].
  - unfold ConnectTimerExpired. rewrite Enqueue_eq by done. split; [done|].
    intros [?|?]; [by left|right]. apply elem_of_app. by left.
  - unfold IdleHoldTimerExpired. rewrite Enqueue_eq by done. split; [done|].
    intros _. right. apply elem_of_app. right. by apply list_elem_of_singleton.
  - unfold StatisticsTimerExpired. by rewrite Hd.
Qed.

Lemma idle_pending_dequeue s ev q s' : Inv s → work_queue_ s = ev :: q → DequeueEvent s = Ret s' →
  (∀ b, ev ≠ EvStop b) → (state_ s = IDLE → ev = EvStart ∨ idle_pending s) → state_ s' = IDLE → idle_pending s'.
Proof.
  intros I Eq Ed Hb Hp Hi. destruct (dequeue_ok s ev q I Eq) as [(s1 & E1 & _ & A)|[? _]]; [|congruence].
  assert (s1 = s') as -> by congruence. destruct (A Hi) as [[b ?]|[?|(H1 & H2 & H3 & H4 & H5)]];
    [by destruct (Hb b)|by left|]. destruct (Hp H1) as [?|[?|Hin]]; [done|left; by rewrite H4|].
  right. rewrite H5. cbn. rewrite Eq in Hin. by apply elem_of_cons in Hin as [?|?].
Qed.

Lemma run_idle s h : run s h → state_ s = IDLE → h = false → idle_pending s.
Proof.
  induction 1 as [index|s h l s' Hrun IH Hs]; [done|]. pose proof (csm_reachable_inv s (run_reachable s h Hrun)) as I.
  pose proof (λ Hl, idle_pending_step s l s' I Hl Hs) as Hk.
  destruct l; [destruct (Hk ltac:(done)) as [Est Hp];
               rewrite Est; intros Hi Hh; apply Hp, IH; [done|exact Hh] ..|].
  intros Hi Hh. inversion Hs; subst. destruct (work_queue_ s) as [|ev q] eqn:Eq; [done|].
  cbn in Hh. rewrite Eq in Hh. eapply idle_pending_dequeue; try done; [by intros b ->|].
  intros Hi'. destruct ev; try (right; by apply IH); by left.
Qed.

(** C8: The client state machine does not get stuck.  In [CONNECT] and [CLIENT_INIT] the
    connect timer runs, or it has expired and its event is on the queue; in [IDLE],
    unless the last administrative event was a stop, the idle hold timer runs or its
    event is on the queue. *)
Theorem sm_never_stuck (s : SM) (halted : bool) : run s halted →
  (state_ s = CONNECT ∨ state_ s = CLIENT_INIT →
     connect_timer_ s = TM.Running ∨ (connect_timer_ s = TM.Init ∧ EvConnectTimerExpired ∈ work_queue_ s)) ∧
  (state_ s = IDLE → halted = false →
     idle_hold_timer_ s = TM.Running ∨ EvIdleHoldTimerExpired ∈ work_queue_ s).
Proof.
  intros Hr. pose proof (csm_reachable_inv s (run_reachable s _ Hr)) as I. split.
  - intros Hst. apply (i_connect s I). by destruct Hst as [-> | ->].
  - by apply run_idle.
Qed.

(** What becomes of a message, by the state it is taken off the queue in. *)
Definition sent (st : State) (snh : Sandesh) : bool :=
  match st with ESTABLISHED => true | CLIENT_INIT => negb (is_uve snh) | _ => false end.

(** C9: A message taken off the queue is passed to the send queue of the current session,
    which exists, when the machine is established, or is in [CLIENT_INIT] and the
    message is no UVE; otherwise it is released.  It is never both nor neither, and
    nothing else of the machine changes. *)
Theorem send_exactly_once (s : SM) (snh : Sandesh) (q : list event) :
  reachable s → work_queue_ s = EvSandeshSend snh :: q →
  ∃ a, DequeueEvent s = Ret (do a (with_queue q s)) ∧
    if sent (state_ s) snh then ∃ x, a = ASend x snh ∧ session_ s = Some x ∧ x ∈ sessions s
    else a = ARelease snh.
Proof.
  intros Hr Eq. pose proof (csm_reachable_inv s Hr) as I. pose proof (pop_ok s _ q I Eq eq_refl) as P.
  unfold DequeueEvent. rewrite Eq. cbn [deleted_ with_queue]. rewrite (b_deleted s (i_base s I)). cbn [validate].
  assert (Hsend : has_session (state_ s) = true →
    ∃ a, send_session snh (with_queue q s) = Ret (do a (with_queue q s)) ∧
      ∃ x, a = ASend x snh ∧ session_ s = Some x ∧ x ∈ sessions s).
  { intros Hh. destruct (proj2 (p_session _ _ P) Hh) as [x Hx].
    unfold send_session. rewrite (live_session_ok _ x (p_base _ _ P) Hx). cbn [mbind outcome_mbind].
    eexists. split; [done|]. exists x. split_and!; try done. pose proof (b_si s (i_base s I)) as Hsi.
    cbn in Hx. rewrite Hx in Hsi. by eapply SI_cur. }
  unfold process_event. cbn [state_ with_queue].
  destruct (state_ s) eqn:Est; cbn [react_Idle react_Disconnect react_Connect react_ClientInit react_Established sent];
    [by eexists|by eexists|by eexists| |by apply Hsend].
  destruct (is_uve snh); cbn [negb]; [by eexists|by apply Hsend].
Qed.

Lemma GetConnectTime_eq s : 1 ≤ attempts_ s → GetConnectTime s = Z.min (2 ^ (Z.min (attempts_ s) 6 - 1)) 30.
Proof.
  intros H. unfold GetConnectTime, kConnectInterval. rewrite (proj2 (Z.eqb_neq _ _)) by lia. cbn [negb].
  by rewrite Z.shiftl_1_l.
Qed.

Lemma Connect_fails s ev s' : Pre ev s → state_ s = CONNECT → (∀ b, ev ≠ EvStop b) → doomed [ev] = [] →
  react_Connect ev s = Ret s' → state_ s' = IDLE →
  waiting s' ∧ idle_hold_time_ s' = GetConnectTime s * 1000.
Proof.
  intros P Hst Hne Hd. pose proof (p_base _ _ P) as B. pose proof (p_tried _ _ P ltac:(by rewrite Hst)) as Ha.
  pose proof (proj2 (p_session _ _ P) ltac:(by rewrite Hst)) as Hs.
  assert (Hidle : ∀ s1, same s s1 → Base s1 → Connect_ToIdle s1 = Ret s' →
    waiting s' ∧ idle_hold_time_ s' = GetConnectTime s * 1000).
  { intros s1 [] B1. destruct (Connect_ToIdle_ok s1) as (s2 & -> & _ & ? & Hh); [done|by rewrite sm_session0|lia|].
    intros [= ->]. split; [done|]. rewrite Hh. unfold GetConnectTime. by rewrite sm_attempts0. }
  destruct ev; cbn [react_Connect]; try done; try (intros [= <-]; by rewrite ?Hst); try by destruct (Hne enq).
  - destruct (CollectorUpdate_ok collectors s B) as ([] & s1 & -> & HS & B'); cbn [mbind outcome_mbind].
    + intros E1 _. by apply (Hidle s1).
    + intros [= <-]. rewrite (sm_state _ _ HS). by rewrite Hst.
  - destruct (CollectorChange_ok s B) as (b & s1 & -> & HS & B'). cbn [mbind outcome_mbind].
    intros E1 _. by apply (Hidle s1).
  - case_bool_decide; [|done]. intros [= <-]. unfold enter_ClientInit, StartConnectTimer. by case_match.
  - destruct (CollectorChange_ok s B) as (b & s1 & -> & HS & B'). cbn [mbind outcome_mbind].
    intros E1 _. by apply (Hidle s1).
  - destruct (CollectorChange_ok s B) as (b & s1 & -> & HS & B'). cbn [mbind outcome_mbind].
    intros E1 _. by apply (Hidle s1).
  - by intros [= <-]; cbn; rewrite Hst.
Qed.


(** The destructor of a machine that was shut down does not fail its assertions. *)
Lemma destroy_ok s : reachable s → session_ s = None → ∃ s', destroy_SM s = Ret s' ∧ work_queue_ s' = [].
Proof.
  intros Hr Hs. unfold destroy_SM. rewrite (b_deleted s (i_base s (csm_reachable_inv s Hr))). cbn. rewrite Hs.
  eexists. split; [done|]. by destruct (state_ s).
Qed.

End Machine.
Arguments event : clear implicits.
Arguments action : clear implicits.
Arguments SM : clear implicits.
Arguments label : clear implicits.

(** ** The timers are those of [Timer] *)

Lemma Timer_Start_spec time h eh (t : TM.Timer) : 0 ≤ time →
  TM.state_ (TM.Start time h eh false t).2 = Timer_Start (TM.state_ t).
Proof.
  intros Ht. unfold TM.Start, Timer_Start. rewrite (proj2 (Z.ltb_ge _ _)) by lia. by case_bool_decide.
Qed.

Lemma Timer_wait_spec time h eh (t : TM.Timer) : 0 ≤ time →
  TM.time_ (TM.Start time h eh false t).2 = Timer_wait (TM.state_ t) (TM.time_ t) time.
Proof.
  intros Ht. unfold TM.Start, Timer_wait. rewrite (proj2 (Z.ltb_ge _ _)) by lia. by case_bool_decide.
Qed.

Lemma Timer_Cancel_spec (t t' : TM.Timer) b : TM.Cancel t = Ret (b, t') →
  TM.state_ t' = Timer_Cancel (TM.state_ t).
Proof.
  unfold TM.Cancel, Timer_Cancel. case_bool_decide; [by intros [= _ <-]|].
  intros (t1 & _ & [= _ <-])%outcome_bind_ret. done.
Qed.

(** ** Concrete runs *)

Abbreviation machine := (SM nat).

(** The state after a list of labels, [Abort] when one of them is not enabled. *)
Definition do_label (l : label nat) (s : machine) : outcome machine :=
  match l with
  | LAdmin down => Ret (SetAdminState down s)
  | LCollectors c => Ret (SetCollectors c s)
  | LSend snh => Ret (SendSandesh snh s)
  | LTcp x e => if decide (session_ s = Some x) then Ret (OnSessionEvent x e s) else Abort
  | LMessage ex a c src => match session_ s with Some _ => Ret (OnMessage ex a c src s).2 | None => Abort end
  | LConnectTimer => if decide (connect_timer_ s = TM.Running) then Ret (ConnectTimerExpired s) else Abort
  | LIdleHoldTimer => if decide (idle_hold_timer_ s = TM.Running) then Ret (IdleHoldTimerExpired s) else Abort
  | LStatisticsTimer => Ret (StatisticsTimerExpired s)
  | LSocket ok => Ret (with_socket ok s)
  | LDequeue => match work_queue_ s with [] => Abort | _ => DequeueEvent 0%nat s end
  end.
Definition do_labels (ls : list (label nat)) : outcome (machine * bool) :=
  foldl (λ o l, '(s, h) ← o; s' ← do_label l s; Ret (s', halted_after s l h)) (Ret (new_SM 0%nat 7, true)) ls.

Lemma do_label_step l s s' : do_label l s = Ret s' → step 0%nat s l (Ret s').
Proof.
  destruct l; cbn; try (intros [= <-]; constructor).
  - case_decide; [|done]. intros [= <-]. by constructor.
  - destruct (session_ s) eqn:Es; [|done]. intros [= <-]. by econstructor.
  - case_decide; [|done]. intros [= <-]. by constructor.
  - case_decide; [|done]. intros [= <-]. by constructor.
  - destruct (work_queue_ s) eqn:Eq; [done|]. intros <-. constructor. by rewrite Eq.
Qed.

Lemma do_labels_run ls s h : do_labels ls = Ret (s, h) → run 0%nat s h.
Proof.
  revert s h. induction ls as [|l ls IH] using rev_ind.
  - intros s h [= <- <-]. constructor.
  - intros s h. unfold do_labels. rewrite foldl_app. cbn.
    intros ([s1 h1] & E1 & (s2 & E2 & [= <- <-])%outcome_bind_ret)%outcome_bind_ret.
    by eapply run_step, do_label_step; [apply IH|].
Qed.

(** The start of the machine, the list of collectors, the connection. *)
Definition to_connect : list (label nat) := [LAdmin false; LDequeue; LCollectors [10; 20]%nat; LDequeue].
Definition to_established : list (label nat) :=
  to_connect ++ [LTcp 0 CONNECT_COMPLETE; LDequeue; LMessage true true true "collector"; LDequeue].

Definition at_end (ls : list (label nat)) : machine * bool :=
  match do_labels ls with Ret p => p | Abort => (new_SM 0%nat 7, true) end.
Definition state_at (ls : list (label nat)) : machine := (at_end ls).1.

Lemma state_at_run ls : match do_labels ls with Ret _ => true | Abort => false end = true →
  run 0%nat (state_at ls) (at_end ls).2.
Proof.
  unfold state_at, at_end. destruct (do_labels ls) as [[s h]|] eqn:E1; [|done]. intros _. by eapply do_labels_run.
Qed.

Lemma state_at_reachable ls : match do_labels ls with Ret _ => true | Abort => false end = true →
  reachable 0%nat (state_at ls).
Proof. intros H%state_at_run. by eapply run_reachable. Qed.

Example established_run :
  state_ (state_at to_connect) = CONNECT ∧ state_ (state_at to_established) = ESTABLISHED ∧
  server_ (state_at to_established) = 10%nat ∧ sessions (state_at to_established) = [0%nat] ∧
  coll_name_ (state_at to_established) = "collector"%string.
Proof. by vm_compute. Qed.

(** The connection is closed: the next collector is tried with a new session, and the
    old one is deleted. *)
Lemma sm_never_crashes_witness :
  let s := state_at (to_established ++ [LTcp 0 CLOSE]) in
  (∃ s', DequeueEvent 0%nat s = Ret s' ∧ NoDup (sessions s') ∧
     sessions s' ≡ₚ option_list (session_ s') ++ doomed (work_queue_ s') ∧
     (is_Some (session_ s') ↔ state_ s' = CONNECT ∨ state_ s' = CLIENT_INIT ∨ state_ s' = ESTABLISHED)) ∧
  server_ (state_at (to_established ++ [LTcp 0 CLOSE; LDequeue])) = 20%nat ∧
  sessions (state_at (to_established ++ [LTcp 0 CLOSE; LDequeue])) = [1; 0]%nat.
Proof.
  split; [|by vm_compute].
  destruct (sm_never_crashes 0%nat (state_at (to_established ++ [LTcp 0 CLOSE])) LDequeue
    (DequeueEvent 0%nat (state_at (to_established ++ [LTcp 0 CLOSE])))) as [H|(_ & _ & H & _)];
    [by apply state_at_reachable|by constructor|exact H|discriminate H].
Defined.

Lemma sm_never_stuck_witness :
  let s := state_at (to_connect ++ [LTcp 0 CONNECT_FAILED; LDequeue]) in
  state_ s = IDLE ∧ (idle_hold_timer_ s = TM.Running ∨ EvIdleHoldTimerExpired ∈ work_queue_ s).
Proof.
  intros s. split; [reflexivity|].
  refine (proj2 (sm_never_stuck 0%nat s false _) eq_refl eq_refl).
  exact (state_at_run (to_connect ++ [LTcp 0 CONNECT_FAILED; LDequeue]) eq_refl).
Defined.

Lemma send_exactly_once_witness :
  let snh := mkSandesh 5 false in
  ∃ a, DequeueEvent 0%nat (state_at (to_established ++ [LSend snh])) =
         Ret (do a (with_queue [] (state_at (to_established ++ [LSend snh])))) ∧
    ∃ x, a = ASend x snh ∧ session_ (state_at (to_established ++ [LSend snh])) = Some x ∧
         x ∈ sessions (state_at (to_established ++ [LSend snh])).
Proof.
  apply (send_exactly_once 0%nat (state_at (to_established ++ [LSend (mkSandesh 5 false)])) (mkSandesh 5 false) []);
    [by apply state_at_reachable|reflexivity].
Defined.

(** The second attempt in a row fails. *)
Definition second_failure : list (label nat) :=
  to_connect ++ [LTcp 0 CONNECT_FAILED; LDequeue; LIdleHoldTimer; LDequeue; LDequeue; LConnectTimer].


(** ** What the code does not mean to do *)

(** The null session of a socket that cannot be opened is used. *)
Example null_session_used :
  let s := state_at (to_connect ++ [LTcp 0 CONNECT_FAILED; LDequeue; LIdleHoldTimer; LDequeue; LSocket false]) in
  state_ s = IDLE ∧ work_queue_ s = [EvIdleHoldTimerExpired] ∧ DequeueEvent 0%nat s = Abort.
Proof. by vm_compute. Qed.

(** A machine that was stopped connects: the event of the idle hold timer that expired
    before the stop is not discarded. *)
Example stopped_machine_connects :
  let s := state_at (to_connect ++ [LTcp 0 CONNECT_FAILED; LDequeue; LDequeue; LAdmin true; LIdleHoldTimer;
                                    LDequeue; LDequeue]) in
  state_ s = CONNECT ∧ work_queue_ s = [] ∧ EvIdleHoldTimerExpired ∈ work_queue_
    (state_at (to_connect ++ [LTcp 0 CONNECT_FAILED; LDequeue; LDequeue; LAdmin true; LIdleHoldTimer; LDequeue])) ∧
  idle_hold_timer_
    (state_at (to_connect ++ [LTcp 0 CONNECT_FAILED; LDequeue; LDequeue; LAdmin true; LIdleHoldTimer; LDequeue]))
    = TM.Cancelled.
Proof. vm_compute. split_and!; [done..| |done]. by left. Qed.

(** The expiry of the timer of [Connect] ends [ClientInit], whose own timer runs. *)
Example stale_connect_timeout :
  let ls := to_connect ++ [LTcp 0 CONNECT_COMPLETE; LConnectTimer; LDequeue] in
  state_ (state_at ls) = CLIENT_INIT ∧ connect_timer_ (state_at ls) = TM.Running ∧
  state_ (state_at (ls ++ [LDequeue])) = IDLE.
Proof. by vm_compute. Qed.

(** The close of an old session ends the new one. *)
Example stale_close :
  let ls := to_established ++ [LTcp 0 CLOSE; LTcp 0 CLOSE; LDequeue] in
  state_ (state_at ls) = CONNECT ∧ session_ (state_at ls) = Some 1%nat ∧
  work_queue_ (state_at ls) = [EvTcpClose 0; EvTcpDeleteSession 0] ∧
  session_ (state_at (ls ++ [LDequeue])) = None.
Proof. by vm_compute. Qed.

(** The previous state is never recorded. *)
Lemma last_state_is_state {EP} st (s : SM EP) : last_state_ (set_state st s) = state_ (set_state st s).
Proof. done. Qed.

End CSM.

(** * Closing the session on request: [SandeshClient::CloseSMSession]

    Requests to close the session (when a message of the collector cannot be decoded,
    say) are honoured at most once per close interval; the interval doubles while they
    keep coming. *)
Module SMClose.

Definition kInitialSMSessionCloseIntervalMSec : Z := 10 * 1000.
Definition kMaxSMSessionCloseIntervalMSec : Z := 60 * 1000.

(** Whether to close, and [*close_interval_msec]; all times are [uint64_t]. *)
Definition DoCloseSMSession (now_usec last_close_usec last_close_interval_usec : Z) : outcome (bool * Z) :=
  if (last_close_interval_usec =? 0) || (last_close_usec =? 0)
  then Ret (true, kInitialSMSessionCloseIntervalMSec)
  else
    assert_that (last_close_usec <=? now_usec);;
    let time_since_close_usec := u64 (now_usec - last_close_usec) in
    if time_since_close_usec <=? last_close_interval_usec then Ret (false, 0)
    else if (last_close_interval_usec <? time_since_close_usec) &&
            (time_since_close_usec <=? u64 (2 * last_close_interval_usec)) then
      let nclose_interval_msec := u64 (2 * last_close_interval_usec) / 1000 in
      Ret (true, s32 (Z.min nclose_interval_msec kMaxSMSessionCloseIntervalMSec))
    else if (u64 (2 * last_close_interval_usec) <=? time_since_close_usec) &&
            (time_since_close_usec <=? u64 (4 * last_close_interval_usec)) then
      Ret (true, s32 (last_close_interval_usec / 1000))
    else Ret (true, kInitialSMSessionCloseIntervalMSec).

Record SandeshClient := mkClient { session_close_interval_msec_ : Z; session_close_time_usec_ : Z }.
Definition new_SandeshClient : SandeshClient := mkClient 0 0.

(** [CloseSMSession] at the time [now_usec]: whether the close was accepted. *)
Definition CloseSMSession (now_usec : Z) (c : SandeshClient) : outcome (bool * SandeshClient) :=
  '(close, close_interval_msec) ← DoCloseSMSession now_usec (session_close_time_usec_ c)
    (u64 (s32 (session_close_interval_msec_ c * 1000)));
  Ret (if (close : bool) then (true, mkClient close_interval_msec now_usec) else (false, c)).

(** Requests at the given times: those that were accepted, each with the interval that
    it starts. *)
Fixpoint CloseSMSessions (times : list Z) (c : SandeshClient) : outcome (list (Z * Z)) :=
  match times with
  | [] => Ret []
  | t :: times =>
      '(close, c) ← CloseSMSession t c;
      rest ← CloseSMSessions times c;
      Ret (if (close : bool) then (t, session_close_interval_msec_ c) :: rest else rest)
  end.

(** The times do not go back. *)
Fixpoint clock (t0 : Z) (times : list Z) : Prop :=
  match times with [] => True | t :: times => t0 ≤ t < 2 ^ 64 ∧ clock t times end.

(** The interval after a close that comes [d] microseconds after one with interval [i]. *)
Definition next_interval (i d : Z) : Z :=
  if d <=? 2 * (1000 * i) then Z.min (2 * i) 60000 else if d <=? 4 * (1000 * i) then i else 10000.

Fixpoint spaced (t0 i0 : Z) (acc : list (Z * Z)) : Prop :=
  match acc with
  | [] => True
  | (t, i) :: acc =>
      t0 + 1000 * i0 < t ∧ i = next_interval i0 (t - t0) ∧ 10000 ≤ i ≤ 60000 ∧ spaced t i acc
  end.

Lemma DoClose_ok now t0 i0 : 10000 ≤ i0 ≤ 60000 → 1 ≤ t0 ≤ now → now < 2 ^ 64 →
  DoCloseSMSession now t0 (1000 * i0) =
    Ret (if now - t0 <=? 1000 * i0 then (false, 0) else (true, next_interval i0 (now - t0))).
Proof.
  intros Hi Ht Hn. unfold DoCloseSMSession, next_interval.
  rewrite !(proj2 (Z.eqb_neq _ _)), (proj2 (Z.leb_le t0 now)) by lia. cbn [orb assert_that mbind outcome_mbind].
  rewrite !(wrap_small 64) by lia. destruct (Z.leb_spec (now - t0) (1000 * i0)); [done|].
  rewrite (proj2 (Z.ltb_lt _ _)) by lia. cbn [andb].
  replace (2 * (1000 * i0) / 1000) with (2 * i0) by (apply Z.div_unique_exact; lia).
  replace (1000 * i0 / 1000) with i0 by (apply Z.div_unique_exact; lia).
  unfold kMaxSMSessionCloseIntervalMSec, kInitialSMSessionCloseIntervalMSec.
  destruct (Z.leb_spec (now - t0) (2 * (1000 * i0))).
  - do 2 f_equal. unfold swrap. rewrite Z.mod_small by lia. lia.
  - rewrite (proj2 (Z.leb_le (2 * (1000 * i0)) _)) by lia. cbn [andb].
    destruct (_ <=? 4 * (1000 * i0)); [|done]. do 2 f_equal. unfold swrap. rewrite Z.mod_small by lia. lia.
Qed.

Lemma next_interval_range i d : 10000 ≤ i ≤ 60000 → 10000 ≤ next_interval i d ≤ 60000.
Proof. intros. unfold next_interval. repeat case_match; lia. Qed.

Lemma closes_ok times t0 i0 t1 : 10000 ≤ i0 ≤ 60000 → 1 ≤ t0 ≤ t1 → clock t1 times →
  ∃ acc, CloseSMSessions times (mkClient i0 t0) = Ret acc ∧ spaced t0 i0 acc.
Proof.
  revert t0 i0 t1. induction times as [|t times IH]; intros t0 i0 t1 Hi Ht Hc; [by exists []|].
  destruct Hc as [Hr Hc]. cbn [CloseSMSessions]. unfold CloseSMSession.
  cbn [session_close_time_usec_ session_close_interval_msec_].
  replace (u64 (s32 (i0 * 1000))) with (1000 * i0).
  2:{ unfold wrap, swrap. rewrite (Z.mod_small (i0 * 1000 + _)) by lia. rewrite Z.mod_small; lia. }
  rewrite DoClose_ok by lia. cbn [mbind outcome_mbind].
  destruct (Z.leb_spec (t - t0) (1000 * i0)) as [Hle|Hgt]; cbn [mbind outcome_mbind].
  - destruct (IH t0 i0 t) as (acc & -> & Ha); [done|lia|done|]. by exists acc.
  - pose proof (next_interval_range i0 (t - t0) Hi) as Hn.
    destruct (IH t (next_interval i0 (t - t0)) t) as (acc & -> & Ha); [done|lia|done|].
    eexists. split; [done|]. cbn. split_and!; try done; lia.
Qed.

(** For requests at any times that do not go back, the first is accepted with an
    interval of 10 s, no assertion fails and no 64-bit or [int] computation overflows;
    two consecutive accepted closes are more than the interval of the first apart, and
    the next interval doubles up to 60 s, stays, or falls back to 10 s by the time
    between them.  An interval is always between 10 s and 60 s. *)
Theorem closes_are_spaced (t : Z) (times : list Z) : 1 ≤ t < 2 ^ 64 → clock t times →
  ∃ acc, CloseSMSessions (t :: times) new_SandeshClient = Ret ((t, 10000) :: acc) ∧ spaced t 10000 acc.
Proof.
  intros Ht Hc. destruct (closes_ok times t 10000 t) as (acc & Ea & Ha); [lia..|done|].
  exists acc. split; [|done]. cbn [CloseSMSessions].
  change (CloseSMSession t new_SandeshClient) with (Ret (true, mkClient 10000 t)).
  cbn [mbind outcome_mbind]. by rewrite Ea.
Qed.

(** A second request too early, one that doubles the interval, one that resets it. *)
Lemma closes_are_spaced_witness :
  CloseSMSessions [1000000; 9000000; 12000000; 200000000] new_SandeshClient =
    Ret [(1000000, 10000); (12000000, 20000); (200000000, 10000)] ∧
  ∃ acc, CloseSMSessions [1000000; 9000000; 12000000; 200000000] new_SandeshClient =
    Ret ((1000000, 10000) :: acc) ∧ spaced 1000000 10000 acc.
Proof.
  split; [by vm_compute|]. apply (closes_are_spaced 1000000 [9000000; 12000000; 200000000]); [lia|].
  simpl. lia.
Defined.

End SMClose.
