(* ===== verification/Transport.v ===== *)
(** * The memory transport of sandesh:
      src/sandesh/library/cpp/transport/TBufferTransports.{h,cpp}, TTransport.h

    [TMemoryBuffer] is a growing byte buffer with a read and a write position.  Its
    pointers are offsets from the start of the memory; an access outside the memory is
    [Abort], and so is a failed assertion.

    [Transport] is what a protocol asks of a transport, [TransportLaws] what it may
    rely on; [TMemoryBuffer] is an instance of both.  The laws describe a transport by
    the bytes that were written and not yet read. *)

From stdpp Require Import list.
From S2P Require Import Prelude.
Open Scope Z_scope.

(** ** The interface *)

Class Transport (T : Type) := {
  tr_write : list Z → T → outcome (Z * T);                  (* 0, or an error *)
  tr_readAll : Z → T → outcome (Z * list Z * T);            (* the count or -1, what was copied *)
  tr_borrow : Z → T → outcome (option (list Z) * T);        (* what the pointer points to *)
  tr_consume : Z → T → outcome T;
}.

(** [content]: the bytes to read; [fits t n]: [n] more bytes can be written. *)
Class TransportLaws (T : Type) `{!Transport T} := {
  valid : T → Prop;
  content : T → list Z;
  fits : T → Z → Prop;
  write_law t bs : valid t → fits t (Z.of_nat (length bs)) →
    ∃ t', tr_write bs t = Ret (0, t') ∧ valid t' ∧ content t' = content t ++ bs ∧
      ∀ n, 0 ≤ n → fits t (Z.of_nat (length bs) + n) → fits t' n;
  fits_law t m n : 0 ≤ m ≤ n → fits t n → fits t m;
  readAll_law t bs rest : valid t → content t = bs ++ rest →
    ∃ t', tr_readAll (Z.of_nat (length bs)) t = Ret (Z.of_nat (length bs), bs, t') ∧ valid t' ∧
      content t' = rest;
  readAll_short_law t n : valid t → Z.of_nat (length (content t)) < n → n < 2 ^ 32 →
    ∃ t', tr_readAll n t = Ret (-1, content t, t') ∧ valid t' ∧ content t' = [];
  borrow_law t n : valid t → 0 ≤ n < 2 ^ 32 →
    ∃ o t', tr_borrow n t = Ret (o, t') ∧ valid t' ∧ content t' = content t ∧
      ∀ l, o = Some l → n ≤ Z.of_nat (length (content t)) ∧ take (Z.to_nat n) l = take (Z.to_nat n) (content t) ∧
        ∃ t'', tr_consume n t' = Ret t'' ∧ valid t'' ∧ content t'' = drop (Z.to_nat n) (content t);
}.

(** ** [TMemoryBuffer] *)

Module TB.

Definition ENOMEM : Z := 12.
Definition defaultSize : Z := 1024.

Record TMemoryBuffer := mkTMB {
  buffer_ : list Z;         (* the memory *)
  bufferSize_ : Z;
  rBase_ : Z;
  rBound_ : Z;
  wBase_ : Z;
  wBound_ : Z;
  owner_ : bool;
}.

Definition set_r (base bound : Z) (b : TMemoryBuffer) : TMemoryBuffer :=
  mkTMB (buffer_ b) (bufferSize_ b) base bound (wBase_ b) (wBound_ b) (owner_ b).
Definition set_w (mem : list Z) (base : Z) (b : TMemoryBuffer) : TMemoryBuffer :=
  mkTMB mem (bufferSize_ b) (rBase_ b) (rBound_ b) base (wBound_ b) (owner_ b).

(** [memcpy] out of the memory and into it. *)
Definition load (mem : list Z) (i n : Z) : outcome (list Z) :=
  if (0 <=? i) && (0 <=? n) && (i + n <=? Z.of_nat (length mem))
  then Ret (take (Z.to_nat n) (drop (Z.to_nat i) mem)) else Abort.
Definition store (mem : list Z) (i : Z) (bs : list Z) : outcome (list Z) :=
  if (0 <=? i) && (i + Z.of_nat (length bs) <=? Z.of_nat (length mem))
  then Ret (take (Z.to_nat i) mem ++ bs ++ drop (Z.to_nat i + length bs) mem) else Abort.

Section Memory.
(** Whether an allocation of so many bytes succeeds, and what new memory holds. *)
Context (alloc_ok : Z → bool) (fresh : nat → Z).

Definition new_memory (from size : Z) : list Z :=
  fresh <$> seq (Z.to_nat from) (Z.to_nat size - Z.to_nat from).

(** [realloc], to a size that is not smaller. *)
Definition realloc (mem : list Z) (size : Z) : option (list Z) :=
  if alloc_ok size
  then Some (take (Z.to_nat size) mem ++ new_memory (Z.of_nat (length mem)) size)
  else None.

(** [initCommon]; [buf]: the memory given, if any. *)
Definition initCommon (buf : option (list Z)) (size : Z) (owner : bool) (wPos : Z) : outcome TMemoryBuffer :=
  mem ← (match buf with
         | Some mem => Ret mem
         | None =>
             if size =? 0 then Ret []
             else
               assert_that owner;;
               assert_that (alloc_ok size);;
               Ret (new_memory 0 size)
         end);
  Ret (mkTMB mem size 0 wPos wPos size owner).

Definition available_read (b : TMemoryBuffer) : Z := u32 (wBase_ b - rBase_ b).
Definition available_write (b : TMemoryBuffer) : Z := u32 (wBound_ b - wBase_ b).

Definition peek (b : TMemoryBuffer) : bool := rBase_ b <? wBase_ b.

(** [computeRead]: where the bytes start and how many there are. *)
Definition computeRead (len : Z) (b : TMemoryBuffer) : Z * Z * TMemoryBuffer :=
  let give := Z.min len (available_read b) in
  (rBase_ b, give, set_r (rBase_ b + give) (wBase_ b) b).

Definition readSlow (len : Z) (b : TMemoryBuffer) : outcome (Z * list Z * TMemoryBuffer) :=
  let '(start, give, b) := computeRead len b in
  bs ← load (buffer_ b) start give;
  Ret (give, bs, b).

(** [TBufferBase::read] *)
Definition read (len : Z) (b : TMemoryBuffer) : outcome (Z * list Z * TMemoryBuffer) :=
  if rBase_ b + len <=? rBound_ b then
    bs ← load (buffer_ b) (rBase_ b) len;
    Ret (len, bs, set_r (rBase_ b + len) (rBound_ b) b)
  else readSlow len b.

(** The loop of [transport::readAll] *)
Fixpoint readAll_loop (fuel : nat) (len : Z) (acc : list Z) (b : TMemoryBuffer) :
    outcome (Z * list Z * TMemoryBuffer) :=
  let have := Z.of_nat (length acc) in
  if negb (have <? len) then Ret (have, acc, b)
  else
    match fuel with
    | O => Abort
    | S fuel =>
        '(got, bs, b) ← read (len - have) b;
        if got <=? 0 then Ret (-1, acc, b) else readAll_loop fuel len (acc ++ bs) b
    end.

(** [TBufferBase::readAll]; each round of the loop reads a byte or is the last. *)
Definition readAll (len : Z) (b : TMemoryBuffer) : outcome (Z * list Z * TMemoryBuffer) :=
  if rBase_ b + len <=? rBound_ b then
    bs ← load (buffer_ b) (rBase_ b) len;
    Ret (len, bs, set_r (rBase_ b + len) (rBound_ b) b)
  else readAll_loop (S (Z.to_nat len)) len [] b.

(** The loop of [ensureCanWrite]: the new size of the memory. *)
Fixpoint grow (fuel : nat) (len avail new_size : Z) (b : TMemoryBuffer) : option Z :=
  if negb (avail <? len) then Some new_size
  else
    match fuel with
    | O => None
    | S fuel =>
        let new_size := if 0 <? new_size then u32 (new_size * 2) else 1 in
        grow fuel len (u32 (available_write b + u32 (new_size - bufferSize_ b))) new_size b
    end.

Definition ensureCanWrite (len : Z) (b : TMemoryBuffer) : outcome (Z * TMemoryBuffer) :=
  let avail := available_write b in
  if len <=? avail then Ret (0, b)
  else if negb (owner_ b) then Ret (ENOMEM, b)
  else
    match grow 64 len avail (bufferSize_ b) b with
    | None => Abort                       (* the loop does not end *)
    | Some new_size =>
        match realloc (buffer_ b) new_size with
        | None => Ret (ENOMEM, b)
        | Some mem => Ret (0, mkTMB mem new_size (rBase_ b) (rBound_ b) (wBase_ b) new_size (owner_ b))
        end
    end.

Definition writeSlow (bs : list Z) (b : TMemoryBuffer) : outcome (Z * TMemoryBuffer) :=
  '(error, b) ← ensureCanWrite (Z.of_nat (length bs)) b;
  if negb (error =? 0) then Ret (error, b)
  else
    mem ← store (buffer_ b) (wBase_ b) bs;
    Ret (error, set_w mem (wBase_ b + Z.of_nat (length bs)) b).

(** [TBufferBase::write] *)
Definition write (bs : list Z) (b : TMemoryBuffer) : outcome (Z * TMemoryBuffer) :=
  if wBase_ b + Z.of_nat (length bs) <=? wBound_ b then
    mem ← store (buffer_ b) (wBase_ b) bs;
    Ret (0, set_w mem (wBase_ b + Z.of_nat (length bs)) b)
  else writeSlow bs b.

(** [getWritePtr] and [wroteBytes] *)
Definition getWritePtr (len : Z) (b : TMemoryBuffer) : outcome (Z * TMemoryBuffer) :=
  '(_, b) ← ensureCanWrite len b; Ret (wBase_ b, b).
Definition wroteBytes (len : Z) (b : TMemoryBuffer) : outcome TMemoryBuffer :=
  assert_that (len <=? available_write b);;
  Ret (set_w (buffer_ b) (wBase_ b + len) b).

(** What [rBase_] points to, up to the write position. *)
Definition pointed (b : TMemoryBuffer) : outcome (list Z) := load (buffer_ b) (rBase_ b) (wBase_ b - rBase_ b).

Definition borrowSlow (len : Z) (b : TMemoryBuffer) : outcome (option (list Z) * TMemoryBuffer) :=
  let b := set_r (rBase_ b) (wBase_ b) b in
  if len <=? available_read b then l ← pointed b; Ret (Some l, b) else Ret (None, b).

(** [TBufferBase::borrow] *)
Definition borrow (len : Z) (b : TMemoryBuffer) : outcome (option (list Z) * TMemoryBuffer) :=
  if len <=? rBound_ b - rBase_ b
  then l ← load (buffer_ b) (rBase_ b) (rBound_ b - rBase_ b); Ret (Some l, b)
  else borrowSlow len b.

(** [TBufferBase::consume] *)
Definition consume (len : Z) (b : TMemoryBuffer) : outcome TMemoryBuffer :=
  if len <=? rBound_ b - rBase_ b then Ret (set_r (rBase_ b + len) (rBound_ b) b) else Abort.

Definition getBufferAsString (b : TMemoryBuffer) : outcome (list Z) := pointed b.

Definition readAppendToString (str : list Z) (len : Z) (b : TMemoryBuffer) : outcome (Z * list Z * TMemoryBuffer) :=
  let '(start, give, b) := computeRead len b in
  bs ← load (buffer_ b) start give;
  Ret (give, str ++ bs, b).

Definition resetBuffer (b : TMemoryBuffer) : TMemoryBuffer :=
  if owner_ b then mkTMB (buffer_ b) (bufferSize_ b) 0 0 0 (wBound_ b) true
  else mkTMB (buffer_ b) 0 0 0 0 0 false.

Definition readEnd (b : TMemoryBuffer) : Z * TMemoryBuffer :=
  (u32 (rBase_ b), if rBase_ b =? wBase_ b then resetBuffer b else b).
Definition writeEnd (b : TMemoryBuffer) : Z := u32 (wBase_ b).

(** The constructors: with a size, observing given memory, and copying it. *)
Definition new_TMemoryBuffer (sz : Z) : outcome TMemoryBuffer := initCommon None sz true 0.
Definition observe_TMemoryBuffer (buf : list Z) : outcome TMemoryBuffer :=
  initCommon (Some buf) (Z.of_nat (length buf)) false (Z.of_nat (length buf)).
Definition copy_TMemoryBuffer (buf : list Z) : outcome TMemoryBuffer :=
  b ← initCommon None (Z.of_nat (length buf)) true 0;
  '(_, b) ← write buf b; Ret b.

#[export] Instance TMemoryBuffer_transport : Transport TMemoryBuffer := {|
  tr_write := write; tr_readAll := readAll; tr_borrow := borrow; tr_consume := consume |}.

(** ** The invariant *)

Record BufInv (b : TMemoryBuffer) : Prop := {
  bi_r : 0 ≤ rBase_ b ≤ rBound_ b;
  bi_rw : rBound_ b ≤ wBase_ b;
  bi_w : wBase_ b ≤ wBound_ b;
  bi_size : wBound_ b = bufferSize_ b;
  bi_mem : bufferSize_ b ≤ Z.of_nat (length (buffer_ b));
  bi_own : owner_ b = true → bufferSize_ b = Z.of_nat (length (buffer_ b));
  bi_32 : bufferSize_ b < 2 ^ 32;
}.

(** The bytes written and not yet read. *)
Definition unread (b : TMemoryBuffer) : list Z :=
  take (Z.to_nat (wBase_ b - rBase_ b)) (drop (Z.to_nat (rBase_ b)) (buffer_ b)).

(** So many more bytes can be written: there is room, or the memory can grow to at most
    2^31 bytes' need. *)
Definition room (b : TMemoryBuffer) (n : Z) : Prop :=
  wBase_ b + n ≤ wBound_ b ∨
  (owner_ b = true ∧ wBase_ b + n ≤ 2 ^ 31 ∧ ∀ size, alloc_ok size = true).

Lemma mem_load_ok mem i n : 0 ≤ i → 0 ≤ n → i + n ≤ Z.of_nat (length mem) →
  load mem i n = Ret (take (Z.to_nat n) (drop (Z.to_nat i) mem)).
Proof.
  intros. unfold load. by rewrite (proj2 (Z.leb_le 0 i)), (proj2 (Z.leb_le 0 n)), (proj2 (Z.leb_le (i + n) _)).
Qed.

Lemma mem_store_ok mem i bs : 0 ≤ i → i + Z.of_nat (length bs) ≤ Z.of_nat (length mem) →
  store mem i bs = Ret (take (Z.to_nat i) mem ++ bs ++ drop (Z.to_nat i + length bs) mem).
Proof. intros. unfold store. by rewrite (proj2 (Z.leb_le 0 i)), (proj2 (Z.leb_le (i + _) _)). Qed.

Lemma unread_length b : BufInv b → Z.of_nat (length (unread b)) = wBase_ b - rBase_ b.
Proof. intros []. unfold unread. rewrite length_take, length_drop. lia. Qed.

Lemma unread_prefix b n : BufInv b → 0 ≤ n ≤ wBase_ b - rBase_ b →
  take (Z.to_nat n) (drop (Z.to_nat (rBase_ b)) (buffer_ b)) = take (Z.to_nat n) (unread b).
Proof. intros [] Hn. unfold unread. rewrite take_take. f_equal. lia. Qed.

Lemma unread_advance b k bound : BufInv b → 0 ≤ k ≤ wBase_ b - rBase_ b →
  unread (set_r (rBase_ b + k) bound b) = drop (Z.to_nat k) (unread b).
Proof.
  intros [] Hk. unfold unread. cbn. rewrite skipn_firstn_comm, drop_drop. f_equal; [lia|]. f_equal. lia.
Qed.

Lemma advance_inv b k bound : BufInv b → 0 ≤ k → rBase_ b + k ≤ bound ≤ wBase_ b →
  BufInv (set_r (rBase_ b + k) bound b).
Proof. intros [] Hk Hb. constructor; cbn; try done; lia. Qed.

Lemma available_read_eq b : BufInv b → available_read b = wBase_ b - rBase_ b.
Proof. intros []. apply wrap_small. lia. Qed.

Lemma available_write_eq b : BufInv b → available_write b = wBound_ b - wBase_ b.
Proof. intros []. apply wrap_small. lia. Qed.

Lemma readSlow_ok b len : BufInv b → 0 ≤ len →
  let k := Z.min len (wBase_ b - rBase_ b) in
  readSlow len b = Ret (k, take (Z.to_nat k) (unread b), set_r (rBase_ b + k) (wBase_ b) b).
Proof.
  intros I Hl. unfold readSlow, computeRead. rewrite available_read_eq by done. cbn.
  destruct I. rewrite mem_load_ok by lia. cbn [mbind outcome_mbind].
  rewrite unread_prefix by (try done; lia). done.
Qed.

Lemma readAll_fast b len : BufInv b → 0 ≤ len → rBase_ b + len ≤ rBound_ b →
  readAll len b = Ret (len, take (Z.to_nat len) (unread b), set_r (rBase_ b + len) (rBound_ b) b).
Proof.
  intros I Hl Hb. pose proof I as []. unfold readAll. rewrite (proj2 (Z.leb_le _ _)) by done.
  rewrite mem_load_ok by lia. cbn [mbind outcome_mbind]. rewrite unread_prefix by (try done; lia). done.
Qed.

(** The bytes asked for are there. *)
Lemma readAll_enough b bs rest : BufInv b → unread b = bs ++ rest →
  ∃ b', readAll (Z.of_nat (length bs)) b = Ret (Z.of_nat (length bs), bs, b') ∧ BufInv b' ∧ unread b' = rest.
Proof.
  intros I Hu. pose proof (unread_length b I) as Hlen. rewrite Hu, length_app in Hlen.
  set (len := Z.of_nat (length bs)) in *.
  assert (Ht : take (Z.to_nat len) (unread b) = bs) by (rewrite Hu; apply take_app_length'; lia).
  assert (Hd : drop (Z.to_nat len) (unread b) = rest) by (rewrite Hu; apply drop_app_length'; lia).
  destruct (Z.le_gt_cases (rBase_ b + len) (rBound_ b)) as [Hle|Hgt].
  - eexists. split; [rewrite readAll_fast, Ht by (try done; lia); done|]. pose proof I as [].
    split; [apply advance_inv; try done; lia|]. rewrite unread_advance; try done. lia.
  - pose proof I as []. eexists. split.
    { unfold readAll. rewrite (proj2 (Z.leb_gt _ _)) by lia. cbn [readAll_loop length].
      rewrite (proj2 (Z.ltb_lt _ _)) by lia. cbn [negb]. unfold read.
      rewrite (proj2 (Z.leb_gt _ _)) by lia. rewrite readSlow_ok by (try done; lia). cbn [mbind outcome_mbind].
      rewrite (proj2 (Z.leb_gt _ _)) by lia.
      replace (Z.min (len - Z.of_nat 0) (wBase_ b - rBase_ b)) with len by lia. rewrite Ht.
      assert (Hend : ∀ f acc b1, Z.of_nat (length acc) = len → readAll_loop f len acc b1 = Ret (len, acc, b1)).
      { intros f acc b1 Ha. destruct f; cbn [readAll_loop]; rewrite Ha, (proj2 (Z.ltb_ge _ _)) by lia; done. }
      apply Hend. done. }
    split; [apply advance_inv; try done; lia|]. rewrite unread_advance; try done. lia.
Qed.

(** Too few: all of them are read. *)
Lemma readAll_short b n : BufInv b → Z.of_nat (length (unread b)) < n →
  ∃ b', readAll n b = Ret (-1, unread b, b') ∧ BufInv b' ∧ unread b' = [].
Proof.
  intros I Hn. pose proof (unread_length b I) as Hlen. pose proof I as [].
  set (k := wBase_ b - rBase_ b) in *. set (b1 := set_r (rBase_ b + k) (wBase_ b) b).
  assert (I1 : BufInv b1) by (apply advance_inv; try done; lia).
  assert (Hu1 : unread b1 = []) by (unfold b1; rewrite unread_advance by (try done; lia); apply drop_ge; lia).
  assert (Hall : take (Z.to_nat k) (unread b) = unread b) by (apply take_ge; lia).
  set (b2 := set_r (rBase_ b1 + 0) (wBase_ b1) b1).
  assert (I2 : BufInv b2) by (apply advance_inv; try done; cbn; lia).
  assert (Hu2 : unread b2 = []) by (unfold b2; rewrite unread_advance by (try done; cbn; lia); by rewrite Hu1).
  exists (if k =? 0 then b1 else b2). split; [|by destruct (k =? 0)].
  unfold readAll. rewrite (proj2 (Z.leb_gt _ _)) by lia. cbn [readAll_loop length].
  rewrite (proj2 (Z.ltb_lt _ _)) by lia. cbn [negb]. unfold read.
  rewrite (proj2 (Z.leb_gt (rBase_ b + _) _)) by lia. rewrite readSlow_ok by (try done; lia).
  replace (Z.min (n - Z.of_nat 0) (wBase_ b - rBase_ b)) with k by lia. cbn [mbind outcome_mbind].
  destruct (Z.eqb_spec k 0) as [E0|Hk].
  - rewrite (proj2 (Z.leb_le k 0)) by lia. replace (unread b) with (@nil Z); [done|].
    destruct (unread b); [done|]. cbn in Hlen. lia.
  - rewrite (proj2 (Z.leb_gt _ _)) by lia. rewrite Hall. change ([] ++ unread b) with (unread b).
    destruct (Z.to_nat n) as [|m] eqn:Em; [lia|]. cbn [readAll_loop].
    rewrite Hlen, (proj2 (Z.ltb_lt _ _)) by lia. cbn [negb]. unfold read. fold b1.
    rewrite (proj2 (Z.leb_gt (rBase_ b1 + _) _)) by (cbn; lia). rewrite readSlow_ok by (try done; lia).
    replace (Z.min (n - k) (wBase_ b1 - rBase_ b1)) with 0 by (cbn; lia). done.
Qed.

(** The size doubles until there is room; it does not wrap around while no more than
    2^31 bytes are needed. *)
Lemma grow_double k fuel len new_size b : BufInv b → (k ≤ fuel)%nat → 1 ≤ new_size →
  bufferSize_ b ≤ new_size < 2 ^ 32 → wBase_ b + len ≤ 2 ^ 31 →
  wBase_ b + len ≤ 2 ^ Z.of_nat k * new_size →
  ∃ size, grow fuel len (new_size - wBase_ b) new_size b = Some size ∧
    bufferSize_ b ≤ size < 2 ^ 32 ∧ wBase_ b + len ≤ size.
Proof.
  intros I. pose proof I as []. revert fuel new_size. induction k as [|k IH]; intros fuel ns Hf H1 Hs H31 Hk.
  - exists ns. rewrite Z.pow_0_r in Hk. split_and!; try lia.
    destruct fuel; cbn [grow]; rewrite (proj2 (Z.ltb_ge _ _)) by lia; done.
  - destruct fuel as [|fuel]; [lia|]. cbn [grow].
    destruct (Z.ltb_spec (ns - wBase_ b) len) as [Hlt|Hge]; cbn [negb]; [|exists ns; split_and!; try done; lia].
    rewrite (proj2 (Z.ltb_lt _ _)) by lia. rewrite (wrap_small 32 (ns * 2)) by lia.
    rewrite available_write_eq by done. rewrite (wrap_small 32 (ns * 2 - _)) by lia.
    replace (u32 (wBound_ b - wBase_ b + (ns * 2 - bufferSize_ b))) with (ns * 2 - wBase_ b)
      by (symmetry; rewrite wrap_small; lia).
    apply IH; try lia. rewrite Nat2Z.inj_succ, Z.pow_succ_r in Hk by lia. lia.
Qed.

Lemma grow_ok len b : BufInv b → wBound_ b - wBase_ b < len → wBase_ b + len ≤ 2 ^ 31 →
  ∃ size, grow 64 len (available_write b) (bufferSize_ b) b = Some size ∧
    bufferSize_ b ≤ size < 2 ^ 32 ∧ wBase_ b + len ≤ size.
Proof.
  intros I Hlt H31. pose proof I as []. rewrite available_write_eq by done.
  assert (E31 : 2 ^ Z.of_nat 31 = 2 ^ 31) by done.
  destruct (Z.eq_dec (bufferSize_ b) 0) as [E0|Hne].
  - change 64%nat with (S 63). assert (Hf : (31 ≤ 63)%nat) by lia. generalize dependent 63%nat. intros fuel Hf.
    cbn [grow]. rewrite (proj2 (Z.ltb_lt _ _)) by lia. cbn [negb].
    rewrite (proj2 (Z.ltb_ge 0 (bufferSize_ b))) by lia. cbv iota. rewrite available_write_eq by done.
    replace (u32 (wBound_ b - wBase_ b + u32 (1 - bufferSize_ b))) with (1 - wBase_ b)
      by (symmetry; rewrite (wrap_small 32 (1 - _)), wrap_small by lia; lia).
    apply (grow_double 31); [done|lia..].
  - replace (wBound_ b - wBase_ b) with (bufferSize_ b - wBase_ b) by lia.
    apply (grow_double 31); [done|lia| |lia..]. destruct bi_r0. lia.
Qed.

Lemma new_memory_length from size : 0 ≤ from ≤ size →
  Z.of_nat (length (new_memory from size)) = size - from.
Proof. intros. unfold new_memory. rewrite length_fmap, length_seq. lia. Qed.

(** The memory after the bytes were stored at the write position. *)
Lemma store_unread b mem bs bound size : BufInv b →
  take (length (buffer_ b)) mem = buffer_ b → wBase_ b + Z.of_nat (length bs) ≤ Z.of_nat (length mem) →
  ∃ mem', store mem (wBase_ b) bs = Ret mem' ∧ length mem' = length mem ∧
    unread (mkTMB mem' size (rBase_ b) (rBound_ b) (wBase_ b + Z.of_nat (length bs)) bound (owner_ b)) =
      unread b ++ bs.
Proof.
  intros I Hm Hl. pose proof I as []. rewrite mem_store_ok by lia. eexists. split; [done|]. split.
  { rewrite !length_app, length_take, length_drop. lia. }
  unfold unread. cbn.
  assert (E1 : take (Z.to_nat (wBase_ b)) mem = take (Z.to_nat (wBase_ b)) (buffer_ b)).
  { rewrite <- Hm, take_take. f_equal. lia. }
  rewrite E1.
  rewrite drop_app_le by (rewrite length_take; lia). rewrite skipn_firstn_comm.
  rewrite app_assoc, take_app_le.
  2:{ rewrite length_app, length_take, length_drop. lia. }
  rewrite take_ge; [|rewrite length_app, length_take, length_drop; lia].
  f_equal. f_equal. lia.
Qed.

Lemma ensureCanWrite_ok len b : BufInv b → wBound_ b - wBase_ b < len → room b len →
  ∃ mem size, ensureCanWrite len b =
      Ret (0, mkTMB mem size (rBase_ b) (rBound_ b) (wBase_ b) size (owner_ b)) ∧
    take (length (buffer_ b)) mem = buffer_ b ∧ Z.of_nat (length mem) = size ∧
    bufferSize_ b ≤ size < 2 ^ 32 ∧ wBase_ b + len ≤ size.
Proof.
  intros I Hlt [?|(Ho & H31 & Ha)]; [lia|]. pose proof I as []. unfold ensureCanWrite.
  destruct (grow_ok len b I Hlt H31) as (size & Eg & Hs & Hn). rewrite Eg. rewrite available_write_eq by done.
  rewrite (proj2 (Z.leb_gt _ _)), Ho by lia. cbn [negb]. unfold realloc. rewrite Ha.
  specialize (bi_own0 Ho). rewrite (take_ge (buffer_ b)) by lia.
  eexists _, size. split; [done|]. split; [by rewrite take_app_length|].
  rewrite length_app, Nat2Z.inj_add, new_memory_length by lia. split; lia.
Qed.

Lemma write_ok b bs : BufInv b → room b (Z.of_nat (length bs)) →
  ∃ b', write bs b = Ret (0, b') ∧ BufInv b' ∧ unread b' = unread b ++ bs ∧
    wBase_ b' = wBase_ b + Z.of_nat (length bs) ∧ owner_ b' = owner_ b ∧ rBase_ b' = rBase_ b ∧
    (wBound_ b ≤ wBound_ b').
Proof.
  intros I Hr. pose proof I as []. set (len := Z.of_nat (length bs)) in *. unfold write. fold len.
  destruct (Z.leb_spec (wBase_ b + len) (wBound_ b)) as [Hle|Hgt].
  - destruct (store_unread b (buffer_ b) bs (wBound_ b) (bufferSize_ b) I) as (mem & -> & Hm & Hu);
      [by apply take_ge|fold len; lia|]. cbn [mbind outcome_mbind]. eexists. split; [done|].
    unfold set_w. split_and!; cbn; try done.
    constructor; cbn; rewrite ?Hm; try done; lia.
  - destruct (ensureCanWrite_ok len b I ltac:(lia) Hr) as (mem & size & Ee & Ht & Hm & Hs & Hn).
    unfold writeSlow. fold len. rewrite Ee. cbn [mbind outcome_mbind]. change (negb (0 =? 0)) with false. cbv iota.
    cbn [buffer_ wBase_].
    destruct (store_unread b mem bs size size I Ht) as (mem' & -> & Hm' & Hu); [fold len; lia|].
    cbn [mbind outcome_mbind]. eexists. split; [done|]. unfold set_w. cbn. split_and!; try done; try lia.
    constructor; cbn; rewrite ?Hm'; try done; lia.
Qed.

Lemma write_room b b' (bs : list Z) n : wBase_ b' = wBase_ b + Z.of_nat (length bs) → owner_ b' = owner_ b →
  wBound_ b ≤ wBound_ b' → 0 ≤ n → room b (Z.of_nat (length bs) + n) → room b' n.
Proof. unfold room. intros -> -> Hb Hn [?|(? & ? & ?)]; [left; lia|right]. split_and!; [done|lia|done]. Qed.

Lemma pointed_ok b : BufInv b → load (buffer_ b) (rBase_ b) (wBase_ b - rBase_ b) = Ret (unread b).
Proof. intros []. rewrite mem_load_ok by lia. done. Qed.

(** A borrow that succeeds gives a pointer to the unread bytes, and they can be consumed. *)
Lemma borrow_ok b n : BufInv b → 0 ≤ n → ∃ o b', borrow n b = Ret (o, b') ∧ BufInv b' ∧
  unread b' = unread b ∧ rBase_ b' = rBase_ b ∧ wBase_ b' = wBase_ b ∧ wBound_ b' = wBound_ b ∧ owner_ b' = owner_ b ∧
  if n <=? wBase_ b - rBase_ b then
    ∃ l, o = Some l ∧ take (Z.to_nat n) l = take (Z.to_nat n) (unread b) ∧
      consume n b' = Ret (set_r (rBase_ b' + n) (rBound_ b') b') ∧ rBase_ b' + n ≤ rBound_ b'
  else o = None.
Proof.
  intros I Hn. pose proof I as []. unfold borrow.
  destruct (Z.leb_spec n (rBound_ b - rBase_ b)) as [Hle|Hgt].
  - rewrite mem_load_ok by lia. cbn [mbind outcome_mbind]. eexists _, b. split; [done|]. split_and!; try done.
    rewrite (proj2 (Z.leb_le _ _)) by lia. eexists. split; [done|]. split_and!; [|unfold consume|lia].
    + rewrite take_take, <- unread_prefix by (try done; lia). f_equal. lia.
    + by rewrite (proj2 (Z.leb_le _ _)) by lia.
  - unfold borrowSlow. cbn. set (b1 := set_r (rBase_ b) (wBase_ b) b).
    assert (I1 : BufInv b1) by (constructor; cbn; try done; lia).
    assert (Hu : unread b1 = unread b) by done. rewrite available_read_eq by done. cbn [wBase_ rBase_ b1 set_r].
    destruct (Z.leb_spec n (wBase_ b - rBase_ b)) as [Hle2|Hgt2].
    + unfold pointed. rewrite pointed_ok by done. cbn [mbind outcome_mbind]. eexists _, b1. split; [done|].
      split_and!; try done. eexists. split; [done|]. split_and!; [by rewrite Hu|unfold consume|cbn; lia].
      cbn. by rewrite (proj2 (Z.leb_le _ _)) by lia.
    + eexists _, b1. split; [done|]. by split_and!.
Qed.

#[export] Program Instance TMemoryBuffer_laws : TransportLaws TMemoryBuffer := {|
  valid := BufInv; content := unread; fits := room |}.
Next Obligation.
  intros t bs I Hr. destruct (write_ok t bs I Hr) as (t' & Ew & I' & Hu & Hw & Ho & _ & Hb).
  exists t'. split_and!; try done. intros n Hn Hf. by eapply write_room.
Qed.
Next Obligation. intros t m n Hm [?|(? & ? & ?)]; [left; lia|right]. split_and!; [done|lia|done]. Qed.
Next Obligation. intros t bs rest I Hu. by apply readAll_enough. Qed.
Next Obligation. intros t n I Hn _. by apply readAll_short. Qed.
Next Obligation.
  intros t n I [Hn _]. destruct (borrow_ok t n I Hn) as (o & t' & Eb & I' & Hu & Hr & Hw & _ & _ & Ho).
  exists o, t'. split_and!; try done. intros l ->.
  destruct (Z.leb_spec n (wBase_ t - rBase_ t)) as [Hle|?]; [|done].
  destruct Ho as (l' & [= <-] & Hl & Hc & Hb). split; [by rewrite unread_length|]. split; [done|].
  eexists. split; [exact Hc|]. pose proof I' as [].
  split; [apply advance_inv; try done; lia|]. rewrite unread_advance by (try done; lia). by rewrite Hu.
Qed.

(** ** The buffer is a queue of bytes *)

Inductive op :=
| OWrite (bs : list Z) | OReadAll (n : Z) | OBorrow (n : Z)   (* [borrow], then [consume] if it succeeds *)
| OAppend (str : list Z) (n : Z) | OReset | OReadEnd | OWriteEnd.

Definition do_op (o : op) (b : TMemoryBuffer) : outcome (Z * list Z * TMemoryBuffer) :=
  match o with
  | OWrite bs => '(r, b) ← write bs b; Ret (r, [], b)
  | OReadAll n => readAll n b
  | OBorrow n =>
      '(p, b) ← borrow n b;
      match p with
      | None => Ret (-1, [], b)
      | Some l => b ← consume n b; Ret (n, take (Z.to_nat n) l, b)
      end
  | OAppend str n => readAppendToString str n b
  | OReset => Ret (0, [], resetBuffer b)
  | OReadEnd => let '(n, b) := readEnd b in Ret (n, [], b)
  | OWriteEnd => Ret (writeEnd b, [], b)
  end.

Fixpoint do_ops (os : list op) (b : TMemoryBuffer) : outcome (list (Z * list Z) * TMemoryBuffer) :=
  match os with
  | [] => Ret ([], b)
  | o :: os => '(r, l, b) ← do_op o b; '(rs, b) ← do_ops os b; Ret ((r, l) :: rs, b)
  end.

(** The queue, with the number of bytes read since it was last reset. *)
Definition spec_op (o : op) (q : Z * list Z) : Z * list Z * (Z * list Z) :=
  let '(m, l) := q in
  let size := Z.of_nat (length l) in
  match o with
  | OWrite bs => (0, [], (m, l ++ bs))
  | OReadAll n =>
      if n <=? size then (n, take (Z.to_nat n) l, (m + n, drop (Z.to_nat n) l)) else (-1, l, (m + size, []))
  | OBorrow n =>
      if n <=? size then (n, take (Z.to_nat n) l, (m + n, drop (Z.to_nat n) l)) else (-1, [], (m, l))
  | OAppend str n =>
      let n := Z.min n size in (n, str ++ take (Z.to_nat n) l, (m + n, drop (Z.to_nat n) l))
  | OReset => (0, [], (0, []))
  | OReadEnd => (m, [], if size =? 0 then (0, []) else (m, l))
  | OWriteEnd => (m + size, [], (m, l))
  end.

Fixpoint spec_ops (os : list op) (q : Z * list Z) : list (Z * list Z) * (Z * list Z) :=
  match os with
  | [] => ([], q)
  | o :: os => let '(r, l, q) := spec_op o q in let '(rs, q) := spec_ops os q in ((r, l) :: rs, q)
  end.

(** The arguments are lengths; [need]: the bytes that are written. *)
Definition op_ok (o : op) : Prop :=
  match o with OReadAll n | OBorrow n | OAppend _ n => 0 ≤ n < 2 ^ 32 | _ => True end.
Definition need (os : list op) : Z :=
  foldr (λ o n, n + match o with OWrite bs => Z.of_nat (length bs) | _ => 0 end) 0 os.

(** A buffer that stands for a queue. *)
Record stands (b : TMemoryBuffer) (q : Z * list Z) : Prop := {
  st_inv : BufInv b;
  st_own : owner_ b = true;
  st_read : rBase_ b = q.1;
  st_queue : unread b = q.2;
}.

Lemma stands_size b q : stands b q → wBase_ b = q.1 + Z.of_nat (length q.2).
Proof. intros []. pose proof (unread_length b st_inv0) as H. rewrite st_queue0 in H. lia. Qed.

Lemma readAll_base len b r l b' : readAll len b = Ret (r, l, b') → BufInv b → 0 ≤ len →
  owner_ b' = owner_ b ∧ wBase_ b' = wBase_ b ∧ rBase_ b' = wBase_ b - Z.of_nat (length (unread b')).
Proof.
  intros Er I Hl. assert (H : ∀ bound k, 0 ≤ k ≤ wBase_ b - rBase_ b →
    rBase_ b + k = wBase_ b - Z.of_nat (length (unread (set_r (rBase_ b + k) bound b)))).
  { intros bound k Hk. rewrite unread_advance, length_drop by done. pose proof (unread_length b I). lia. }
  pose proof I as [].
  destruct (Z.le_gt_cases (rBase_ b + len) (rBound_ b)) as [Hle|Hgt].
  { rewrite readAll_fast in Er by done. injection Er as _ _ <-. split_and!; try done. cbn. apply H. lia. }
  unfold readAll in Er. rewrite (proj2 (Z.leb_gt _ _)) in Er by lia. revert Er.
  assert (Hgen : ∀ fuel acc b1, BufInv b1 → owner_ b1 = owner_ b → wBase_ b1 = wBase_ b →
    readAll_loop fuel len acc b1 = Ret (r, l, b') →
    BufInv b' ∧ owner_ b' = owner_ b ∧ wBase_ b' = wBase_ b).
  { induction fuel as [|fuel IH]; intros acc b1 I1 Ho Hw; cbn [readAll_loop].
    { destruct (negb _); [|done]. by intros [= _ _ <-]. }
    destruct (Z.ltb_spec (Z.of_nat (length acc)) len) as [Hlt|_]; cbn [negb]; [|by intros [= _ _ <-]].
    intros ([[g bs] b2] & E2 & Er)%outcome_bind_ret. unfold read in E2.
    assert (H2 : BufInv b2 ∧ owner_ b2 = owner_ b ∧ wBase_ b2 = wBase_ b).
    { pose proof I1 as []. destruct (Z.leb_spec (rBase_ b1 + (len - Z.of_nat (length acc))) (rBound_ b1)).
      - apply outcome_bind_ret in E2 as (? & _ & [= _ _ <-]). split_and!; try done. apply advance_inv; try done; lia.
      - rewrite readSlow_ok in E2 by (try done; lia). injection E2 as _ _ <-. split_and!; try done.
        apply advance_inv; try done; lia. }
    destruct H2 as (I2 & Ho2 & Hw2). destruct (g <=? 0); [injection Er as _ _ <-; done|]. by eapply IH. }
  intros Er. destruct (Hgen _ _ _ I eq_refl eq_refl Er) as (I' & Ho & Hw). split_and!; try done.
  pose proof (unread_length b' I'). lia.
Qed.

Lemma reset_inv b : BufInv b → owner_ b = true → BufInv (mkTMB (buffer_ b) (bufferSize_ b) 0 0 0 (wBound_ b) true).
Proof. intros [] Ho. constructor; cbn; try done; try lia. by intros _; apply bi_own0. Qed.

Lemma do_op_ok o b q r l q' : (∀ size, alloc_ok size = true) → stands b q → op_ok o →
  wBase_ b + need [o] ≤ 2 ^ 31 → spec_op o q = (r, l, q') →
  ∃ b', do_op o b = Ret (r, l, b') ∧ stands b' q' ∧ wBase_ b' ≤ wBase_ b + need [o].
Proof.
  intros Ha St Hok Hn. pose proof (stands_size b q St) as Hsz. destruct St as [I Ho Hr Hq].
  pose proof (unread_length b I) as Hlen. pose proof I as []. destruct q as [m c]. cbn in Hr, Hq, Hsz.
  rewrite Hq in Hlen. destruct o as [bs|n|n|str n| | |]; cbn [spec_op do_op need foldr] in *.
  - intros [= <- <- <-].
    destruct (write_ok b bs I) as (b' & -> & I' & Hu & Hw & Ho' & Hr' & _); [right; split_and!; try done; lia|].
    cbn [mbind outcome_mbind]. eexists. split; [done|]. split; [|lia]. constructor; cbn; congruence.
  - cbn [op_ok] in Hok. destruct (Z.leb_spec n (Z.of_nat (length c))) as [Hle|Hgt]; intros [= <- <- <-].
    + destruct (readAll_enough b (take (Z.to_nat n) c) (drop (Z.to_nat n) c)) as (b' & Eb & I' & Hu);
        [done|by rewrite take_drop|].
      assert (En : Z.of_nat (length (take (Z.to_nat n) c)) = n) by (rewrite length_take; lia). rewrite En in Eb.
      destruct (readAll_base _ _ _ _ _ Eb I) as (Ho' & Hw' & Hr'); [lia|].
      exists b'. split; [done|]. split; [|lia]. constructor; cbn; try congruence.
      rewrite Hr', Hu, length_drop. lia.
    + destruct (readAll_short b n I) as (b' & Eb & I' & Hu); [by rewrite Hq|].
      destruct (readAll_base _ _ _ _ _ Eb I) as (Ho' & Hw' & Hr'); [lia|].
      exists b'. rewrite <- Hq. split; [done|]. split; [|lia]. constructor; cbn; try congruence.
      rewrite Hr', Hu. cbn. rewrite Hq. lia.
  - cbn [op_ok] in Hok.
    destruct (borrow_ok b n I ltac:(lia)) as (p & b' & -> & I' & Hu & Hr' & Hw' & _ & Ho' & Hp).
    cbn [mbind outcome_mbind]. rewrite <- Hlen in Hp.
    destruct (Z.leb_spec n (Z.of_nat (length c))) as [Hle|Hgt]; intros [= <- <- <-].
    + destruct Hp as (l & -> & Hl & -> & Hb). cbn [mbind outcome_mbind]. rewrite Hl, Hq. eexists. split; [done|].
      pose proof I' as []. split; [|cbn; lia]. constructor; cbn; try congruence.
      * apply advance_inv; try done; lia.
      * rewrite unread_advance by (try done; lia). by rewrite Hu, Hq.
    + subst p. eexists. split; [done|]. split; [|lia]. constructor; cbn; congruence.
  - cbn [op_ok] in Hok. intros [= <- <- <-]. unfold readAppendToString, computeRead.
    rewrite available_read_eq by done. cbn. rewrite <- Hlen.
    set (k := Z.min n (Z.of_nat (length c))) in *. rewrite mem_load_ok by lia. cbn [mbind outcome_mbind].
    rewrite unread_prefix by (try done; lia). rewrite Hq. eexists. split; [done|]. split; [|cbn; lia].
    constructor; cbn; try done; [apply advance_inv; try done; lia|lia|].
    rewrite unread_advance by (try done; lia). by rewrite Hq.
  - intros [= <- <- <-]. eexists. split; [done|]. unfold resetBuffer. rewrite Ho. split; [|cbn; lia].
    constructor; try done. by apply reset_inv.
  - unfold readEnd. rewrite (wrap_small 32) by lia.
    replace (rBase_ b =? wBase_ b) with (Z.of_nat (length c) =? 0).
    2:{ destruct (Z.eqb_spec (Z.of_nat (length c)) 0), (Z.eqb_spec (rBase_ b) (wBase_ b)); lia. }
    destruct (Z.of_nat (length c) =? 0); intros [= <- <- <-]; (eexists; split; [by rewrite Hr|]).
    + unfold resetBuffer. rewrite Ho. split; [|cbn; lia]. constructor; try done. by apply reset_inv.
    + split; [|lia]. by constructor.
  - intros [= <- <- <-]. unfold writeEnd. rewrite (wrap_small 32) by lia. exists b. rewrite Hsz.
    split; [done|]. split; [by constructor|lia].
Qed.

Lemma need_pos os : 0 ≤ need os.
Proof. unfold need. induction os as [|[] os IH]; cbn; lia. Qed.

Lemma need_cons o os : need (o :: os) = need [o] + need os.
Proof. unfold need. cbn. lia. Qed.

Lemma do_ops_ok os b q : (∀ size, alloc_ok size = true) → stands b q → Forall op_ok os →
  wBase_ b + need os ≤ 2 ^ 31 →
  ∃ b', do_ops os b = Ret ((spec_ops os q).1, b') ∧ stands b' (spec_ops os q).2.
Proof.
  intros Ha. revert b q. induction os as [|o os IH]; intros b q St Hok Hn; [by exists b|].
  rewrite need_cons in Hn. apply Forall_cons in Hok as [Ho Hok]. pose proof (need_pos os).
  cbn [spec_ops do_ops]. destruct (spec_op o q) as [[r l] q'] eqn:Es.
  destruct (do_op_ok o b q r l q' Ha St Ho ltac:(lia) Es) as (b1 & -> & St1 & Hw).
  cbn [mbind outcome_mbind]. destruct (IH b1 q' St1 Hok ltac:(lia)) as (b2 & -> & St2).
  destruct (spec_ops os q') as [rs q2]. cbn [mbind outcome_mbind fst snd] in *. by exists b2.
Qed.

End Memory.

(** C39: A memory buffer of any initial size behaves as a queue of bytes: for every sequence
    of writes, reads, borrows and resets that writes at most 2^31 bytes, when memory can
    be allocated, each call returns what the queue gives (all bytes asked for, or -1 and
    what was left), nothing is accessed outside the memory and no loop runs on. *)
Theorem membuf_refines_queue (alloc_ok : Z → bool) (fresh : nat → Z) (sz : Z) (os : list op) :
  (∀ size, alloc_ok size = true) → 0 ≤ sz < 2 ^ 32 → Forall op_ok os → need os ≤ 2 ^ 31 →
  ∃ b b', new_TMemoryBuffer alloc_ok fresh sz = Ret b ∧
    do_ops alloc_ok fresh os b = Ret ((spec_ops os (0, [])).1, b') ∧ unread b' = (spec_ops os (0, [])).2.2.
Proof.
  intros Ha Hs Hok Hn. unfold new_TMemoryBuffer, initCommon.
  assert (Hm : ∃ mem, (if sz =? 0 then Ret [] else assert_that true;; assert_that (alloc_ok sz);; Ret (new_memory fresh 0 sz)) =
    Ret mem ∧ Z.of_nat (length mem) = sz).
  { destruct (Z.eqb_spec sz 0) as [->|Hne]; [by exists []|]. rewrite Ha. cbn. eexists. split; [done|].
    rewrite new_memory_length by lia. lia. }
  destruct Hm as (mem & -> & Hm). cbn [mbind outcome_mbind].
  destruct (do_ops_ok alloc_ok fresh os (mkTMB mem sz 0 0 0 sz true) (0, []) Ha) as (b' & Eb & []);
    [|done|cbn; lia|by eauto 6].
  constructor; try done. constructor; cbn; try done; lia.
Qed.

Lemma membuf_refines_queue_witness :
  let os := [OWrite [1; 2; 3]; OReadAll 2; OWrite [4; 5]; OBorrow 2; OReadAll 9; OReadEnd] in
  (spec_ops os (0, [])).1 = [(0, []); (2, [1; 2]); (0, []); (2, [3; 4]); (-1, [5]); (5, [])] ∧
  ∃ b b', new_TMemoryBuffer (λ _, true) (λ _, 0) 2 = Ret b ∧
    do_ops (λ _, true) (λ _, 0) os b = Ret ((spec_ops os (0, [])).1, b') ∧ unread b' = (spec_ops os (0, [])).2.2.
Proof.
  split; [by vm_compute|].
  apply (membuf_refines_queue (λ _, true) (λ _, 0)); [done|lia|repeat constructor; simpl; lia|by vm_compute].
Defined.

(** ** What the code does not mean to do *)

(** A buffer of 2^31 bytes that is full is "grown" to no memory at all. *)
Lemma grow_wraps mem : grow 64 1 0 (2 ^ 31) (mkTMB mem (2 ^ 31) 0 (2 ^ 31) (2 ^ 31) (2 ^ 31) true) = Some 0.
Proof. by vm_compute. Qed.

End TB.
