(* ===== verification/BinaryProtocol.v ===== *)
(** * The binary protocol of sandesh:
      src/sandesh/library/cpp/protocol/TBinaryProtocol.{h,tcc}, and [skip] of TProtocol.h

    Every operation returns the number of bytes it wrote or read, or a negative number
    for an error, which callers pass on.  The bytes go to a transport, used through the
    interface of [Transport]; the host is little endian, as [htonl] and the object
    representation below have it.

    The results of [write] and [readAll] are ignored by the code: what a read that came
    up short leaves in a local buffer is whatever was there, [garbage]. *)

From stdpp Require Import list.
From S2P Require Import Prelude Transport.
Open Scope Z_scope.

Module BP.

(** ** Object representation and byte order *)

Fixpoint bytes_of (n : nat) (v : Z) : list Z :=
  match n with O => [] | S n => v mod 256 :: bytes_of n (v / 256) end.
Fixpoint of_bytes (l : list Z) : Z :=
  match l with [] => 0 | b :: l => b + 256 * of_bytes l end.

(** [htons], [htonl], [htonll] and their inverses, on [n] bytes *)
Definition hton (n : nat) (v : Z) : Z := of_bytes (rev (bytes_of n v)).

(** ** Types of the protocol *)

Definition T_STOP := 0.
Definition T_VOID := 1.
Definition T_BOOL := 2.
Definition T_BYTE := 3.
Definition T_DOUBLE := 4.
Definition T_I16 := 6.
Definition T_I32 := 8.
Definition T_U64 := 9.
Definition T_I64 := 10.
Definition T_STRING := 11.
Definition T_STRUCT := 12.
Definition T_MAP := 13.
Definition T_SET := 14.
Definition T_LIST := 15.
Definition T_SANDESH := 18.
Definition T_U16 := 19.
Definition T_U32 := 20.
Definition T_XML := 21.
Definition T_IPV4 := 22.
Definition T_UUID := 23.
Definition T_IPADDR := 24.

(** [boost::asio::ip::address], by its bytes *)
Inductive address := V4 (b : list Z) | V6 (b : list Z).
Definition AF_INET : Z := 2.
Definition AF_INET6 : Z := 10.

Definition VERSION_MASK : Z := s32 (0xffff0000).
Definition VERSION_1 : Z := s32 (0x80010000).

(** ** The protocol object *)

Record TBinaryProtocol (T : Type) := mkBP {
  trans_ : T;
  string_limit_ : Z;
  container_limit_ : Z;
  strict_read_ : bool;
  strict_write_ : bool;
  string_buf_ : option (list Z);
  string_buf_size_ : Z;
}.
Arguments mkBP {T}.
Arguments trans_ {T}.
Arguments string_limit_ {T}.
Arguments container_limit_ {T}.
Arguments strict_read_ {T}.
Arguments strict_write_ {T}.
Arguments string_buf_ {T}.
Arguments string_buf_size_ {T}.

(** The result of an operation: an error code, or the number of bytes and the value
    passed back by reference; [Diverge] is a loop that was not followed to its end. *)
Inductive res (A : Type) := Err (code : Z) | Ok (ret : Z) (a : A) | Diverge.
Arguments Err {A}.
Arguments Ok {A}.
Arguments Diverge {A}.

Section Protocol.
Context {T : Type} `{!Transport T} (alloc_ok : Z → bool) (garbage : nat → Z).

Definition proto := TBinaryProtocol T.

Definition new_TBinaryProtocol (trans : T) : proto := mkBP trans 0 0 false true None 0.
Definition setStringSizeLimit (limit : Z) (p : proto) : proto :=
  mkBP (trans_ p) limit (container_limit_ p) (strict_read_ p) (strict_write_ p) (string_buf_ p) (string_buf_size_ p).
Definition setContainerSizeLimit (limit : Z) (p : proto) : proto :=
  mkBP (trans_ p) (string_limit_ p) limit (strict_read_ p) (strict_write_ p) (string_buf_ p) (string_buf_size_ p).
Definition setStrict (r w : bool) (p : proto) : proto :=
  mkBP (trans_ p) (string_limit_ p) (container_limit_ p) r w (string_buf_ p) (string_buf_size_ p).
Definition with_trans (t : T) (p : proto) : proto :=
  mkBP t (string_limit_ p) (container_limit_ p) (strict_read_ p) (strict_write_ p) (string_buf_ p) (string_buf_size_ p).
Definition with_string_buf (b : option (list Z)) (n : Z) (p : proto) : proto :=
  mkBP (trans_ p) (string_limit_ p) (container_limit_ p) (strict_read_ p) (strict_write_ p) b n.

(** An operation: state, errors and the byte count. *)
Definition M (A : Type) : Type := proto → outcome (res A * proto).

Definition ret {A} (a : A) : M A := λ p, Ret (Ok 0 a, p).
Definition err {A} (code : Z) : M A := λ p, Ret (Err code, p).

(** [if ((ret = m) < 0) return ret; result += ret;], and the rest. *)
Definition bind {A B} (m : M A) (f : A → M B) : M B := λ p,
  '(r, p) ← m p;
  match r with
  | Err code => Ret (Err code, p)
  | Diverge => Ret (Diverge, p)
  | Ok n a =>
      if n <? 0 then Ret (Err n, p)
      else
        '(r, p) ← f a p;
        Ret (match r with Ok k b => Ok (s32 (n + k)) b | e => e end, p)
  end.

Notation "x <~ m ; f" := (bind m (λ x, f)) (at level 20, m at level 100, f at level 200, only parsing).
Notation "m ;~ f" := (bind m (λ _, f)) (at level 100, f at level 200, right associativity, only parsing).

(** [trans_->write(bs, n); return n;] *)
Definition write_raw (bs : list Z) : M unit := λ p,
  '(_, t) ← tr_write bs (trans_ p); Ret (Ok (Z.of_nat (length bs)) tt, with_trans t p).

(** A local buffer of [n] bytes after [bs] were copied to it. *)
Definition filled (n : nat) (bs : list Z) : list Z :=
  bs ++ (garbage <$> seq (length bs) (n - length bs)).

(** [trans_->readAll(b, n); return n;] *)
Definition read_raw (n : nat) : M (list Z) := λ p,
  '(_, bs, t) ← tr_readAll (Z.of_nat n) (trans_ p);
  Ret (Ok (Z.of_nat n) (filled n bs), with_trans t p).

(** ** Writing *)

Definition writeBool (value : bool) : M unit := write_raw [if value then 1 else 0].
Definition writeByte (byte : Z) : M unit := write_raw (bytes_of 1 byte).
Definition writeI16 (i16 : Z) : M unit := write_raw (bytes_of 2 (hton 2 i16)).
Definition writeI32 (i32 : Z) : M unit := write_raw (bytes_of 4 (hton 4 i32)).
Definition writeI64 (i64 : Z) : M unit := write_raw (bytes_of 8 (hton 8 i64)).
Definition writeU16 (u16 : Z) : M unit := write_raw (bytes_of 2 (hton 2 u16)).
Definition writeU32 (u : Z) : M unit := write_raw (bytes_of 4 (hton 4 u)).
Definition writeU64 (u : Z) : M unit := write_raw (bytes_of 8 (hton 8 u)).
Definition writeIPV4 (ip4 : Z) : M unit := write_raw (bytes_of 4 (hton 4 ip4)).
(** [bits]: the [bitwise_cast] of the double *)
Definition writeDouble (bits : Z) : M unit := write_raw (bytes_of 8 (hton 8 bits)).
Definition writeIPADDR (ipaddress : address) : M unit :=
  match ipaddress with
  | V4 b => writeByte AF_INET ;~ write_raw b
  | V6 b => writeByte AF_INET6 ;~ write_raw b
  end.
Definition writeString (str : list Z) : M unit :=
  let size := u32 (Z.of_nat (length str)) in
  writeI32 (s32 size) ;~
  (if 0 <? size then write_raw (take (Z.to_nat size) str) else ret tt).
Definition writeBinary (str : list Z) : M unit := writeString str.
Definition writeXML (str : list Z) : M unit := writeString str.
Definition writeUUID (uuid : list Z) : M unit := write_raw uuid.

Definition writeMessageBegin (name : list Z) (messageType seqid : Z) : M unit := λ p,
  if strict_write_ p
  then (writeI32 (Z.lor VERSION_1 messageType) ;~ writeString name ;~ writeI32 seqid) p
  else (writeString name ;~ writeByte messageType ;~ writeI32 seqid) p.
Definition writeStructBegin : M unit := ret tt.
Definition writeStructEnd : M unit := ret tt.
Definition writeSandeshBegin (name : list Z) : M unit := writeString name.
Definition writeSandeshEnd : M unit := ret tt.
Definition writeFieldBegin (fieldType fieldId : Z) : M unit := writeByte fieldType ;~ writeI16 fieldId.
Definition writeFieldEnd : M unit := ret tt.
Definition writeFieldStop : M unit := writeByte T_STOP.
Definition writeMapBegin (keyType valType size : Z) : M unit :=
  writeByte keyType ;~ writeByte valType ;~ writeI32 (s32 size).
Definition writeMapEnd : M unit := ret tt.
Definition writeListBegin (elemType size : Z) : M unit := writeByte elemType ;~ writeI32 (s32 size).
Definition writeListEnd : M unit := ret tt.
Definition writeSetBegin (elemType size : Z) : M unit := writeByte elemType ;~ writeI32 (s32 size).
Definition writeSetEnd : M unit := ret tt.

(** ** Reading *)

Definition map_ret {A B} (f : A → B) (m : M A) : M B := λ p,
  '(r, p) ← m p;
  Ret (match r with Ok n a => Ok n (f a) | Err c => Err c | Diverge => Diverge end, p).

Definition s8 := swrap 8.
Definition s16 := swrap 16.

Definition readBool : M bool := map_ret (λ b, negb (s8 (of_bytes b) =? 0)) (read_raw 1).
Definition readByte : M Z := map_ret (λ b, s8 (of_bytes b)) (read_raw 1).
Definition readI16 : M Z := map_ret (λ b, s16 (hton 2 (of_bytes b))) (read_raw 2).
Definition readI32 : M Z := map_ret (λ b, s32 (hton 4 (of_bytes b))) (read_raw 4).
Definition readI64 : M Z := map_ret (λ b, s64 (hton 8 (of_bytes b))) (read_raw 8).
Definition readU16 : M Z := map_ret (λ b, hton 2 (of_bytes b)) (read_raw 2).
Definition readU32 : M Z := map_ret (λ b, hton 4 (of_bytes b)) (read_raw 4).
Definition readU64 : M Z := map_ret (λ b, hton 8 (of_bytes b)) (read_raw 8).
Definition readIPV4 : M Z := map_ret (λ b, hton 4 (of_bytes b)) (read_raw 4).
Definition readDouble : M Z := map_ret (λ b, hton 8 (of_bytes b)) (read_raw 8).
Definition readIPADDR : M address :=
  version <~ readByte;
  (if version =? AF_INET then map_ret V4 (read_raw 4)
   else if version =? AF_INET6 then map_ret V6 (read_raw 16)
   else err (-1)).

(** The part of [readStringBody] that borrows nothing. *)
Definition readStringBody_buf (size : Z) : M (list Z) := λ p,
  let grown := if (string_buf_size_ p <? size) || bool_decide (string_buf_ p = None)
               then if alloc_ok size
                    then let old := default [] (string_buf_ p) in
                         Some (with_string_buf (Some (filled (Z.to_nat size) (take (Z.to_nat size) old))) size p)
                    else None
               else Some p in
  match grown with
  | None => Ret (Err (-1), p)
  | Some p =>
      '(_, bs, t) ← tr_readAll size (trans_ p);
      let buf := bs ++ drop (length bs) (default [] (string_buf_ p)) in
      Ret (Ok size (take (Z.to_nat size) buf), with_string_buf (Some buf) (string_buf_size_ p) (with_trans t p))
  end.

Definition readStringBody (size : Z) : M (list Z) := λ p,
  if size <? 0 then Ret (Err (-1), p)
  else if (0 <? string_limit_ p) && (string_limit_ p <? size) then Ret (Err (-1), p)
  else if size =? 0 then Ret (Ok 0 [], p)
  else
    '(o, t) ← tr_borrow size (trans_ p);
    match o with
    | Some l => t ← tr_consume size t; Ret (Ok size (take (Z.to_nat size) l), with_trans t p)
    | None => readStringBody_buf size (with_trans t p)
    end.

Definition readString : M (list Z) := size <~ readI32; readStringBody size.
Definition readBinary : M (list Z) := readString.
Definition readXML : M (list Z) := readString.
Definition readUUID : M (list Z) := read_raw 16.

Definition readMessageBegin : M (list Z * Z * Z) := λ p,
  (sz <~ readI32;
   if sz <? 0 then
     if negb (Z.land sz VERSION_MASK =? VERSION_1) then err (-1)
     else
       let messageType := Z.land sz 0x000000ff in
       (name <~ readString; seqid <~ readI32; ret (name, messageType, seqid))
   else if strict_read_ p then err (-1)
   else
     (name <~ readStringBody sz; type <~ readByte; seqid <~ readI32; ret (name, type, seqid))) p.
Definition readSandeshBegin : M (list Z) := readString.
Definition readSandeshEnd : M unit := ret tt.
Definition readStructBegin : M unit := ret tt.
Definition readStructEnd : M unit := ret tt.
Definition readFieldBegin : M (Z * Z) :=
  type <~ readByte;
  if type =? T_STOP then ret (type, 0) else (fieldId <~ readI16; ret (type, fieldId)).
Definition readFieldEnd : M unit := ret tt.

(** The check of the size of a container; [checked]: whether a negative one is an error. *)
Definition container_size (checked : bool) (sizei : Z) : M Z := λ p,
  if sizei <? 0 then (if checked then Ret (Err (-1), p) else Ret (Ok 0 (u32 sizei), p))
  else if negb (container_limit_ p =? 0) && (container_limit_ p <? sizei) then Ret (Err (-1), p)
  else Ret (Ok 0 (u32 sizei), p).

Definition readMapBegin : M (Z * Z * Z) :=
  k <~ readByte; v <~ readByte; sizei <~ readI32;
  size <~ container_size true sizei; ret (k, v, size).
Definition readMapEnd : M unit := ret tt.
Definition readListBegin : M (Z * Z) :=
  e <~ readByte; sizei <~ readI32; size <~ container_size true sizei; ret (e, size).
Definition readListEnd : M unit := ret tt.
Definition readSetBegin : M (Z * Z) :=
  e <~ readByte; sizei <~ readI32; size <~ container_size false sizei; ret (e, size).
Definition readSetEnd : M unit := ret tt.

(** ** [skip] *)

Definition diverge {A} : M A := λ p, Ret (Diverge, p).
Definition ignore {A} (m : M A) : M unit := map_ret (λ _, tt) m.

(** The loop over the fields of a struct, and what follows it; [k] bounds the rounds. *)
Fixpoint skip_fields (skip : Z → M unit) (k : nat) (fin : M unit) : M unit :=
  match k with
  | O => diverge
  | S k =>
      field <~ readFieldBegin;
      if field.1 =? T_STOP then fin
      else (skip field.1 ;~ readFieldEnd ;~ skip_fields skip k fin)
  end.

(** [for (i = 0; i < size; i++)], over elements and over pairs *)
Fixpoint skip_elems (skip : M unit) (k : nat) (i size : Z) (fin : M unit) : M unit :=
  if negb (i <? size) then fin
  else match k with O => diverge | S k => skip ;~ skip_elems skip k (i + 1) size fin end.
Fixpoint skip_pairs (skip1 skip2 : M unit) (k : nat) (i size : Z) (fin : M unit) : M unit :=
  if negb (i <? size) then fin
  else match k with O => diverge | S k => skip1 ;~ skip2 ;~ skip_pairs skip1 skip2 k (i + 1) size fin end.

Fixpoint skip (fuel : nat) (type : Z) : M unit :=
  match fuel with
  | O => diverge
  | S fuel =>
      if type =? T_BOOL then ignore readBool
      else if type =? T_BYTE then ignore readByte
      else if type =? T_I16 then ignore readI16
      else if type =? T_I32 then ignore readI32
      else if type =? T_I64 then ignore readI64
      else if type =? T_U16 then ignore readU16
      else if type =? T_U32 then ignore readU32
      else if type =? T_U64 then ignore readU64
      else if type =? T_IPV4 then ignore readIPV4
      else if type =? T_IPADDR then ignore readIPADDR
      else if type =? T_DOUBLE then ignore readDouble
      else if type =? T_STRING then ignore readBinary
      else if type =? T_XML then ignore readXML
      else if type =? T_UUID then ignore readUUID
      else if type =? T_STRUCT then
        readStructBegin ;~ skip_fields (skip fuel) fuel readStructEnd
      else if type =? T_SANDESH then
        readSandeshBegin ;~ skip_fields (skip fuel) fuel readSandeshEnd
      else if type =? T_MAP then
        h <~ readMapBegin;
        skip_pairs (skip fuel h.1.1) (skip fuel h.1.2) fuel 0 h.2 readMapEnd
      else if type =? T_SET then
        h <~ readSetBegin; skip_elems (skip fuel h.1) fuel 0 h.2 readSetEnd
      else if type =? T_LIST then
        h <~ readListBegin; skip_elems (skip fuel h.1) fuel 0 h.2 readListEnd
      else ret tt
  end.

(** ** Bytes *)

Lemma bytes_of_length n v : length (bytes_of n v) = n.
Proof. revert v. induction n; intros; cbn; congruence. Qed.

Lemma of_bytes_bytes_of n v : of_bytes (bytes_of n v) = v mod 256 ^ Z.of_nat n.
Proof.
  revert v. induction n as [|n IH]; intros v; cbn [bytes_of of_bytes]; [by rewrite Z.mod_1_r|].
  rewrite IH, Nat2Z.inj_succ, Z.pow_succ_r by lia. pose proof (Z.pow_pos_nonneg 256 (Z.of_nat n)).
  rewrite Z.rem_mul_r by lia. lia.
Qed.

Lemma bytes_of_of_bytes l : Forall (λ b, 0 ≤ b < 256) l → bytes_of (length l) (of_bytes l) = l.
Proof.
  induction 1 as [|b l Hb _ IH]; [done|]. cbn [length of_bytes bytes_of].
  rewrite (Z.mul_comm 256), Z_mod_plus_full, Z.div_add, Z.mod_small, (Z.div_small b) by lia. by rewrite Z.add_0_l, IH.
Qed.

Lemma bytes_of_range n v : Forall (λ b, 0 ≤ b < 256) (bytes_of n v).
Proof. revert v. induction n; intros; cbn; constructor; [apply Z.mod_pos_bound; lia|done]. Qed.

(** The bytes of a number on the wire, the most significant first. *)
Definition be (n : nat) (v : Z) : list Z := rev (bytes_of n v).

Lemma be_length n v : length (be n v) = n.
Proof. unfold be. by rewrite length_rev, bytes_of_length. Qed.

Lemma bytes_of_hton n v : bytes_of n (hton n v) = be n v.
Proof.
  unfold hton. rewrite <- (be_length n v) at 1. apply bytes_of_of_bytes, Forall_rev, bytes_of_range.
Qed.

Lemma hton_be n v : hton n (of_bytes (be n v)) = v mod 256 ^ Z.of_nat n.
Proof.
  unfold hton. rewrite <- (be_length n v) at 1. unfold be at 2. rewrite bytes_of_of_bytes.
  - unfold be. by rewrite rev_involutive, of_bytes_bytes_of.
  - apply Forall_rev, bytes_of_range.
Qed.

Lemma swrap_of_mod w v : 0 < w → - 2 ^ (w - 1) ≤ v < 2 ^ (w - 1) → swrap w (v mod 2 ^ w) = v.
Proof.
  intros Hw Hv. unfold swrap. rewrite Z.add_mod_idemp_l by lia.
  assert (2 ^ w = 2 * 2 ^ (w - 1)) by (rewrite <- Z.pow_succ_r by lia; f_equal; lia).
  rewrite Z.mod_small by lia. lia.
Qed.

Lemma s32_small v : 0 ≤ v < 2 ^ 31 → s32 v = v.
Proof. intros. unfold swrap. rewrite Z.mod_small by lia. lia. Qed.

(** ** What an operation reads and writes

    Stated for any transport that keeps the laws. *)

Context `{!TransportLaws T} (alloc_always : ∀ n, alloc_ok n = true).

Definition cfg (p : proto) : Z * Z * bool * bool :=
  (string_limit_ p, container_limit_ p, strict_read_ p, strict_write_ p).

Definition len (l : list Z) : Z := Z.of_nat (length l).

(** [m] reads exactly the bytes [bs], and gives [a]. *)
Definition reads {A} (c : Z * Z * bool * bool) (m : M A) (bs : list Z) (a : A) : Prop :=
  ∀ p rest, valid (trans_ p) → cfg p = c → content (trans_ p) = bs ++ rest →
    ∃ p', m p = Ret (Ok (len bs) a, p') ∧ valid (trans_ p') ∧ cfg p' = c ∧ content (trans_ p') = rest.

(** [m] writes exactly the bytes [bs]. *)
Definition writes (c : Z * Z * bool * bool) (m : M unit) (bs : list Z) : Prop :=
  ∀ p, valid (trans_ p) → cfg p = c → fits (trans_ p) (len bs) →
    ∃ p', m p = Ret (Ok (len bs) tt, p') ∧ valid (trans_ p') ∧ cfg p' = c ∧
      content (trans_ p') = content (trans_ p) ++ bs ∧
      ∀ n, 0 ≤ n → fits (trans_ p) (len bs + n) → fits (trans_ p') n.

Lemma len_app l1 l2 : len (l1 ++ l2) = len l1 + len l2.
Proof. unfold len. rewrite length_app. lia. Qed.
Lemma len_pos l : 0 ≤ len l.
Proof. unfold len. lia. Qed.

Lemma reads_ret {A} c (a : A) : reads c (ret a) [] a.
Proof. intros p rest Hv Hc Hr. by exists p. Qed.

Lemma writes_ret c : writes c (ret tt) [].
Proof.
  intros p Hv Hc Hf. exists p. split_and!; try done. by rewrite app_nil_r.
Qed.

Lemma reads_bind {A B} c (m : M A) (f : A → M B) b1 b2 a b : reads c m b1 a → reads c (f a) b2 b →
  len b1 + len b2 < 2 ^ 31 → reads c (bind m f) (b1 ++ b2) b.
Proof.
  intros Hm Hf Hl p rest Hv Hc Hr. rewrite <- app_assoc in Hr. pose proof (len_pos b1). pose proof (len_pos b2).
  destruct (Hm p _ Hv Hc Hr) as (p1 & E1 & V1 & C1 & R1). destruct (Hf p1 _ V1 C1 R1) as (p2 & E2 & V2 & C2 & R2).
  exists p2. split; [|done]. unfold bind. rewrite E1. cbn [mbind outcome_mbind].
  rewrite (proj2 (Z.ltb_ge _ _)), E2 by done. cbn [mbind outcome_mbind]. rewrite s32_small, len_app by lia. done.
Qed.

Lemma writes_bind c (m1 m2 : M unit) b1 b2 : writes c m1 b1 → writes c m2 b2 → len b1 + len b2 < 2 ^ 31 →
  writes c (bind m1 (λ _, m2)) (b1 ++ b2).
Proof.
  intros H1 H2 Hl p Hv Hc Hf. rewrite len_app in Hf. pose proof (len_pos b1). pose proof (len_pos b2).
  destruct (H1 p Hv Hc) as (p1 & E1 & V1 & C1 & R1 & F1); [by eapply fits_law; [|exact Hf]; lia|].
  destruct (H2 p1 V1 C1) as (p2 & E2 & V2 & C2 & R2 & F2); [by apply F1|].
  exists p2. split_and!; try done.
  - unfold bind. rewrite E1. cbn [mbind outcome_mbind]. rewrite (proj2 (Z.ltb_ge _ _)), E2 by done.
    cbn [mbind outcome_mbind]. rewrite s32_small, len_app by lia. done.
  - by rewrite R2, R1, app_assoc.
  - intros n Hn Hfn. apply F2; [done|]. apply F1; [lia|]. rewrite len_app in Hfn.
    eapply fits_law; [|exact Hfn]. lia.
Qed.

Lemma writes_raw c bs : writes c (write_raw bs) bs.
Proof.
  intros p Hv Hc Hf. destruct (write_law (trans_ p) bs Hv Hf) as (t & Et & Vt & Ct & Ft).
  eexists. split; [unfold write_raw; rewrite Et; done|]. split_and!; done.
Qed.

Lemma reads_raw c n bs : length bs = n → reads c (read_raw n) bs bs.
Proof.
  intros <- p rest Hv Hc Hr. destruct (readAll_law (trans_ p) bs rest Hv Hr) as (t & Et & Vt & Ct).
  exists (with_trans t p). split; [|done]. unfold read_raw. rewrite Et. cbn [mbind outcome_mbind].
  unfold filled. rewrite Nat.sub_diag. cbn. by rewrite app_nil_r.
Qed.

Lemma reads_map {A B} c (f : A → B) m bs a : reads c m bs a → reads c (map_ret f m) bs (f a).
Proof.
  intros Hm p rest Hv Hc Hr. destruct (Hm p rest Hv Hc Hr) as (p1 & E1 & H1). exists p1. split; [|done].
  unfold map_ret. by rewrite E1.
Qed.

Lemma reads_ext {A} c (m : M A) bs a b : reads c m bs a → a = b → reads c m bs b.
Proof. by intros ? <-. Qed.

(** Numbers *)

Lemma writes_int c n v : writes c (write_raw (bytes_of n (hton n v))) (be n v).
Proof. rewrite bytes_of_hton. apply writes_raw. Qed.

Lemma reads_signed c n w v : w = 8 * Z.of_nat n → 0 < w → - 2 ^ (w - 1) ≤ v < 2 ^ (w - 1) →
  reads c (map_ret (λ b, swrap w (hton n (of_bytes b))) (read_raw n)) (be n v) v.
Proof.
  intros -> Hw Hv. eapply reads_ext; [by apply reads_map, reads_raw, be_length|]. cbn. rewrite hton_be.
  rewrite <- (Z.pow_mul_r 2 8) by lia. by apply swrap_of_mod.
Qed.

Lemma reads_unsigned c n v : 0 ≤ v < 2 ^ (8 * Z.of_nat n) →
  reads c (map_ret (λ b, hton n (of_bytes b)) (read_raw n)) (be n v) v.
Proof.
  intros Hv. eapply reads_ext; [by apply reads_map, reads_raw, be_length|]. cbn. rewrite hton_be.
  rewrite <- (Z.pow_mul_r 2 8) by lia. by apply Z.mod_small.
Qed.

Lemma reads_byte c v : - 128 ≤ v < 128 → reads c readByte (bytes_of 1 v) v.
Proof.
  intros Hv. eapply reads_ext; [by apply reads_map, reads_raw, bytes_of_length|]. cbn beta.
  rewrite of_bytes_bytes_of. by apply (swrap_of_mod 8).
Qed.

Lemma reads_i32 c v : - 2 ^ 31 ≤ v < 2 ^ 31 → reads c readI32 (be 4 v) v.
Proof. intros. by apply (reads_signed c 4 32). Qed.
Lemma reads_i16 c v : - 2 ^ 15 ≤ v < 2 ^ 15 → reads c readI16 (be 2 v) v.
Proof. intros. by apply (reads_signed c 2 16). Qed.

(** Strings *)

(** A string of this size is within the limit. *)
Definition string_ok (c : Z * Z * bool * bool) (n : Z) : Prop :=
  n < 2 ^ 31 - 4 ∧ (c.1.1.1 ≤ 0 ∨ n ≤ c.1.1.1).

Definition enc_string (l : list Z) : list Z := be 4 (len l) ++ l.

Lemma reads_body c l : string_ok c (len l) → reads c (readStringBody (len l)) l l.
Proof.
  intros [Hl Hlim] p rest Hv Hc Hr. unfold readStringBody. pose proof (len_pos l) as Hp.
  assert (El : string_limit_ p = c.1.1.1) by (by rewrite <- Hc).
  rewrite (proj2 (Z.ltb_ge _ _)) by lia.
  replace ((0 <? string_limit_ p) && (string_limit_ p <? len l)) with false.
  2:{ rewrite El. destruct (Z.ltb_spec 0 c.1.1.1), (Z.ltb_spec c.1.1.1 (len l)); lia. }
  destruct (Z.eqb_spec (len l) 0) as [E0|Hne].
  { assert (l = []) as -> by (destruct l; [done|unfold len in E0; cbn in E0; lia]). by exists p. }
  assert (Htl : ∀ k, take (Z.to_nat (len l)) (l ++ k) = l) by (intros; apply take_app_length'; unfold len; lia).
  destruct (borrow_law (trans_ p) (len l) Hv) as (o & t & -> & Vt & Ct & Ho); [lia|]. cbn [mbind outcome_mbind].
  destruct o as [l'|].
  - destruct (Ho l' eq_refl) as (_ & Et & t2 & -> & V2 & C2). cbn [mbind outcome_mbind].
    eexists. split; [by rewrite Et, Hr, Htl|]. split_and!; try done. cbn. rewrite C2, Hr.
    apply drop_app_length'. unfold len. lia.
  - rewrite <- Ct in Hr. destruct (readAll_law t l rest Vt Hr) as (t2 & E2 & V2 & C2).
    unfold readStringBody_buf. rewrite alloc_always.
    destruct ((string_buf_size_ (with_trans t p) <? len l) || bool_decide (string_buf_ (with_trans t p) = None));
      cbn [trans_ with_string_buf with_trans]; change (tr_readAll (len l) t) with (tr_readAll (Z.of_nat (length l)) t); rewrite E2; cbn [mbind outcome_mbind];
      (eexists; split; [by rewrite Htl|]); by split_and!.
Qed.

Lemma writes_string c l : len l < 2 ^ 31 - 4 → writes c (writeString l) (enc_string l).
Proof.
  intros Hl. pose proof (len_pos l). unfold writeString. fold (len l). rewrite (wrap_small 32), s32_small by lia.
  apply writes_bind; [apply writes_int| |unfold len at 1; rewrite be_length; lia].
  destruct (Z.ltb_spec 0 (len l)) as [Hp|Hz].
  - rewrite take_ge by (unfold len; lia). apply writes_raw.
  - assert (l = []) as -> by (destruct l; [done|unfold len in Hz; cbn in Hz; lia]). apply writes_ret.
Qed.

Lemma reads_string c l : string_ok c (len l) → reads c readString (enc_string l) l.
Proof.
  intros Hs. pose proof (len_pos l). pose proof Hs as [? ?]. apply (reads_bind c readI32 _ _ _ (len l)).
  - apply reads_i32. lia.
  - by apply reads_body.
  - unfold len at 1. rewrite be_length. lia.
Qed.

(** ** Round trips *)

(** A call of a write operation with its arguments. *)
Inductive item :=
| IMessage (name : list Z) (messageType seqid : Z) | ISandesh (name : list Z)
| IField (fieldType fieldId : Z) | IFieldStop | IMap (keyType valType size : Z)
| IList (elemType size : Z) | ISet (elemType size : Z)
| IBool (b : bool) | IByte (v : Z) | II16 (v : Z) | II32 (v : Z) | II64 (v : Z)
| IU16 (v : Z) | IU32 (v : Z) | IU64 (v : Z) | IIPV4 (v : Z) | IIPADDR (a : address) | IDouble (bits : Z)
| IString (l : list Z) | IBinary (l : list Z) | IXML (l : list Z) | IUUID (l : list Z).

Definition write_item (i : item) : M unit :=
  match i with
  | IMessage n t s => writeMessageBegin n t s | ISandesh n => writeSandeshBegin n
  | IField t f => writeFieldBegin t f | IFieldStop => writeFieldStop | IMap k v n => writeMapBegin k v n
  | IList t n => writeListBegin t n | ISet t n => writeSetBegin t n
  | IBool b => writeBool b | IByte v => writeByte v | II16 v => writeI16 v | II32 v => writeI32 v
  | II64 v => writeI64 v | IU16 v => writeU16 v | IU32 v => writeU32 v | IU64 v => writeU64 v
  | IIPV4 v => writeIPV4 v | IIPADDR a => writeIPADDR a | IDouble v => writeDouble v
  | IString l => writeString l | IBinary l => writeBinary l | IXML l => writeXML l | IUUID l => writeUUID l
  end.

(** The read operation of the same kind. *)
Definition read_item (i : item) : M item :=
  match i with
  | IMessage _ _ _ => map_ret (λ x, IMessage x.1.1 x.1.2 x.2) readMessageBegin
  | ISandesh _ => map_ret ISandesh readSandeshBegin
  | IField _ _ | IFieldStop => map_ret (λ x, if x.1 =? T_STOP then IFieldStop else IField x.1 x.2) readFieldBegin
  | IMap _ _ _ => map_ret (λ x, IMap x.1.1 x.1.2 x.2) readMapBegin
  | IList _ _ => map_ret (λ x, IList x.1 x.2) readListBegin
  | ISet _ _ => map_ret (λ x, ISet x.1 x.2) readSetBegin
  | IBool _ => map_ret IBool readBool | IByte _ => map_ret IByte readByte | II16 _ => map_ret II16 readI16
  | II32 _ => map_ret II32 readI32 | II64 _ => map_ret II64 readI64 | IU16 _ => map_ret IU16 readU16
  | IU32 _ => map_ret IU32 readU32 | IU64 _ => map_ret IU64 readU64 | IIPV4 _ => map_ret IIPV4 readIPV4
  | IIPADDR _ => map_ret IIPADDR readIPADDR | IDouble _ => map_ret IDouble readDouble
  | IString _ => map_ret IString readString | IBinary _ => map_ret IBinary readBinary
  | IXML _ => map_ret IXML readXML | IUUID _ => map_ret IUUID readUUID
  end.

(** The values are in the range of their type, and the sizes within the limits that the
    reader is set to. *)
Definition type_ok (t : Z) : Prop := 0 < t < 128.
Definition size_ok (c : Z * Z * bool * bool) (n : Z) : Prop := 0 ≤ n < 2 ^ 31 ∧ (c.1.1.2 = 0 ∨ n ≤ c.1.1.2).

Definition item_ok (c : Z * Z * bool * bool) (i : item) : Prop :=
  match i with
  | IMessage n t s => string_ok c (len n) ∧ len n < 2 ^ 31 - 12 ∧ 0 ≤ t < 128 ∧ - 2 ^ 31 ≤ s < 2 ^ 31 ∧
      (c.1.2 = true → c.2 = true)       (* a strict reader needs a strict writer *)
  | ISandesh l | IString l | IBinary l | IXML l => string_ok c (len l)
  | IField t f => type_ok t ∧ - 2 ^ 15 ≤ f < 2 ^ 15
  | IFieldStop | IBool _ => True
  | IMap k v n => type_ok k ∧ type_ok v ∧ size_ok c n
  | IList t n | ISet t n => type_ok t ∧ size_ok c n
  | IByte v => - 2 ^ 7 ≤ v < 2 ^ 7
  | II16 v => - 2 ^ 15 ≤ v < 2 ^ 15
  | II32 v => - 2 ^ 31 ≤ v < 2 ^ 31
  | II64 v => - 2 ^ 63 ≤ v < 2 ^ 63
  | IU16 v => 0 ≤ v < 2 ^ 16
  | IU32 v | IIPV4 v => 0 ≤ v < 2 ^ 32
  | IU64 v | IDouble v => 0 ≤ v < 2 ^ 64
  | IIPADDR (V4 l) => len l = 4
  | IIPADDR (V6 l) => len l = 16
  | IUUID l => len l = 16
  end.

(** The bytes on the wire. *)
Definition enc_item (c : Z * Z * bool * bool) (i : item) : list Z :=
  match i with
  | IMessage n t s =>
      if c.2 then be 4 (Z.lor VERSION_1 t) ++ enc_string n ++ be 4 s
      else enc_string n ++ bytes_of 1 t ++ be 4 s
  | ISandesh l | IString l | IBinary l | IXML l => enc_string l
  | IField t f => bytes_of 1 t ++ be 2 f
  | IFieldStop => bytes_of 1 T_STOP
  | IMap k v n => bytes_of 1 k ++ bytes_of 1 v ++ be 4 n
  | IList t n | ISet t n => bytes_of 1 t ++ be 4 n
  | IBool b => [if b then 1 else 0]
  | IByte v => bytes_of 1 v
  | II16 v | IU16 v => be 2 v
  | II32 v | IU32 v | IIPV4 v => be 4 v
  | II64 v | IU64 v | IDouble v => be 8 v
  | IIPADDR (V4 l) => bytes_of 1 AF_INET ++ l
  | IIPADDR (V6 l) => bytes_of 1 AF_INET6 ++ l
  | IUUID l => l
  end.

Lemma len_be n v : len (be n v) = Z.of_nat n.
Proof. unfold len. by rewrite be_length. Qed.
Lemma len_bytes n v : len (bytes_of n v) = Z.of_nat n.
Proof. unfold len. by rewrite bytes_of_length. Qed.
Lemma len_enc_string l : len (enc_string l) = 4 + len l.
Proof. unfold enc_string. by rewrite len_app, len_be. Qed.

Ltac lens := rewrite ?len_app, ?len_enc_string, ?len_be, ?len_bytes; try change (len []) with 0; cbn; lia.

Lemma version_ok t : 0 ≤ t < 128 → let v := Z.lor VERSION_1 t in
  - 2 ^ 31 ≤ v < 0 ∧ Z.land v VERSION_MASK = VERSION_1 ∧ Z.land v 0x000000ff = t.
Proof.
  intros Ht.
  assert (Hall : forallb (λ t, let v := Z.lor VERSION_1 t in
    (- 2 ^ 31 <=? v) && (v <? 0) && (Z.land v VERSION_MASK =? VERSION_1) && (Z.land v 255 =? t))
    (map Z.of_nat (seq 0 128)) = true) by (vm_compute; reflexivity).
  rewrite forallb_forall in Hall. assert (Hin : In t (map Z.of_nat (seq 0 128))).
  { apply in_map_iff. exists (Z.to_nat t). split; [lia|]. apply in_seq. lia. }
  apply Hall, andb_prop in Hin as [[[H1%Z.leb_le H2%Z.ltb_lt]%andb_prop H3%Z.eqb_eq]%andb_prop H4%Z.eqb_eq].
  by split_and!.
Qed.

Lemma writes_byte c v : writes c (writeByte v) (bytes_of 1 v).
Proof. apply writes_raw. Qed.

Lemma writes_message c n t s bs :
  writes c (if c.2 then bind (writeI32 (Z.lor VERSION_1 t)) (λ _, bind (writeString n) (λ _, writeI32 s))
            else bind (writeString n) (λ _, bind (writeByte t) (λ _, writeI32 s))) bs →
  writes c (writeMessageBegin n t s) bs.
Proof.
  intros Hw p Hv Hc. unfold writeMessageBegin. assert (Es : strict_write_ p = c.2) by (by rewrite <- Hc).
  rewrite Es. specialize (Hw p Hv Hc). by destruct c.2.
Qed.

Lemma item_writes c i : item_ok c i → writes c (write_item i) (enc_item c i).
Proof.
  destruct i as [n t s|l|t f| |k v n|t n|t n|b|v|v|v|v|v|v|v|v|[l|l]|v|l|l|l|l]; cbn [item_ok write_item enc_item]; intros Hi;
    try (apply writes_int); try apply writes_raw; try (apply writes_string; by destruct Hi).
  - destruct Hi as ([Hn _] & Hn2 & _). pose proof (len_pos n). apply writes_message.
    destruct c.2.
    + apply writes_bind; [apply writes_int| |lens].
      apply writes_bind; [by apply writes_string|apply writes_int|lens].
    + apply writes_bind; [by apply writes_string| |lens].
      apply writes_bind; [apply writes_byte|apply writes_int|lens].
  - apply writes_bind; [apply writes_byte|apply writes_int|lens].
  - destruct Hi as (_ & _ & [Hn _]). unfold writeMapBegin. rewrite s32_small by done.
    apply writes_bind; [apply writes_byte| |lens]. apply writes_bind; [apply writes_byte|apply writes_int|lens].
  - destruct Hi as (_ & [Hn _]). unfold writeListBegin. rewrite s32_small by done.
    apply writes_bind; [apply writes_byte|apply writes_int|lens].
  - destruct Hi as (_ & [Hn _]). unfold writeSetBegin. rewrite s32_small by done.
    apply writes_bind; [apply writes_byte|apply writes_int|lens].
  - apply writes_bind; [apply writes_byte|apply writes_raw|]. rewrite Hi. lens.
  - apply writes_bind; [apply writes_byte|apply writes_raw|]. rewrite Hi. lens.
Qed.

Lemma reads_seq {A B} c (m : M A) (f : A → M B) b1 b2 bs a b : reads c m b1 a → reads c (f a) b2 b →
  len b1 + len b2 < 2 ^ 31 → bs = b1 ++ b2 → reads c (bind m f) bs b.
Proof. intros H1 H2 Hl ->. by eapply reads_bind. Qed.

(** The last of a sequence of reads. *)
Lemma reads_last {A B} c (m : M A) (f : A → B) bs a : reads c m bs a → len bs < 2 ^ 31 →
  reads c (bind m (λ x, ret (f x))) bs (f a).
Proof.
  intros H Hl. eapply reads_seq; [exact H|apply reads_ret| |by rewrite app_nil_r].
  change (len []) with 0. lia.
Qed.

Lemma reads_size c checked n : size_ok c n → reads c (container_size checked n) [] n.
Proof.
  intros [Hn Hl] p rest Hv Hc Hr. exists p. split; [|done]. unfold container_size.
  assert (container_limit_ p = c.1.1.2) as -> by (by rewrite <- Hc).
  rewrite (proj2 (Z.ltb_ge _ _)), (wrap_small 32) by lia.
  destruct (Z.eqb_spec c.1.1.2 0), (Z.ltb_spec c.1.1.2 n); cbn [negb andb]; try done. lia.
Qed.

Lemma reads_container c checked t n : type_ok t → size_ok c n →
  reads c (bind readByte (λ e, bind readI32 (λ sizei, bind (container_size checked sizei) (λ size, ret (e, size)))))
    (bytes_of 1 t ++ be 4 n) (t, n).
Proof.
  intros Ht Hs. pose proof Hs as [Hn _]. eapply reads_bind; [apply reads_byte; unfold type_ok in Ht; lia| |lens].
  eapply (reads_seq _ _ _ (be 4 n) []); [apply reads_i32; lia| |lens|by rewrite app_nil_r].
  apply (reads_last _ _ (pair t)); [by apply reads_size|done].
Qed.

Lemma reads_map_begin c k v n : item_ok c (IMap k v n) →
  reads c readMapBegin (enc_item c (IMap k v n)) (k, v, n).
Proof.
  intros (Hk & Hv & Hs). pose proof Hs as [Hn _]. unfold type_ok in *. cbn [enc_item].
  eapply reads_bind; [apply reads_byte; lia| |lens]. eapply reads_bind; [apply reads_byte; lia| |lens].
  eapply (reads_seq _ _ _ (be 4 n) []); [apply reads_i32; lia| |lens|by rewrite app_nil_r].
  apply (reads_last _ _ (pair (k, v))); [by apply reads_size|done].
Qed.

Lemma reads_field c t f : type_ok t → - 2 ^ 15 ≤ f < 2 ^ 15 → reads c readFieldBegin (bytes_of 1 t ++ be 2 f) (t, f).
Proof.
  unfold type_ok. intros Ht Hf. eapply reads_bind; [apply reads_byte; lia| |lens]. cbn beta.
  rewrite (proj2 (Z.eqb_neq _ _)) by (unfold T_STOP; lia).
  apply (reads_last _ _ (pair t)); [by apply reads_i16|lens].
Qed.

Lemma reads_stop c : reads c readFieldBegin (bytes_of 1 T_STOP) (T_STOP, 0).
Proof.
  eapply (reads_seq _ _ _ (bytes_of 1 T_STOP) []); [by apply reads_byte| |lens|done]. cbn beta iota.
  change (T_STOP =? T_STOP) with true. apply reads_ret.
Qed.

Lemma reads_message c n t s : item_ok c (IMessage n t s) →
  reads c readMessageBegin (enc_item c (IMessage n t s)) (n, t, s).
Proof.
  cbn [item_ok enc_item]. intros (Hs & Hn & Ht & Hq & Hst). pose proof (len_pos n). pose proof (version_ok t Ht) as Hver.
  cbv zeta in Hver. destruct Hver as (Hv & Hm & Hb).
  intros p rest Hvp Hc. unfold readMessageBegin. assert (Er : strict_read_ p = c.1.2) by (by rewrite <- Hc). rewrite Er.
  revert p rest Hvp Hc Er. destruct c.2 eqn:Ew.
  - intros p rest Hvp Hc _. revert p rest Hvp Hc. eapply reads_bind; [apply reads_i32; lia| |lens].
    cbn beta. rewrite (proj2 (Z.ltb_lt _ _)), Hm, Z.eqb_refl, Hb by lia. cbn [negb].
    eapply reads_bind; [by apply reads_string| |lens].
    apply (reads_last _ _ (pair (n, t))); [by apply reads_i32|lens].
  - intros p rest Hvp Hc _. revert p rest Hvp Hc. unfold enc_string. rewrite <- app_assoc.
    eapply reads_bind; [apply reads_i32; lia| |lens]. cbn beta. rewrite (proj2 (Z.ltb_ge _ _)) by lia.
    destruct c.1.2; [by specialize (Hst eq_refl)|].
    eapply reads_bind; [by apply reads_body| |lens]. eapply reads_bind; [apply reads_byte; lia| |lens].
    apply (reads_last _ _ (pair (n, t))); [by apply reads_i32|lens].
Qed.

Lemma item_reads c i : item_ok c i → reads c (read_item i) (enc_item c i) i.
Proof.
  destruct i as [n t s|l|t f| |k v n|t n|t n|b|v|v|v|v|v|v|v|v|[l|l]|v|l|l|l|l];
    cbn [item_ok read_item]; intros Hi.
  - apply (reads_map c (λ x, IMessage x.1.1 x.1.2 x.2) _ _ (n, t, s)), reads_message, Hi.
  - by apply reads_map, reads_string.
  - destruct Hi as [Ht Hf]. eapply reads_ext; [by apply reads_map, reads_field|]. cbn.
    by rewrite (proj2 (Z.eqb_neq _ _)) by (unfold T_STOP, type_ok in *; lia).
  - eapply reads_ext; [apply reads_map, reads_stop|done].
  - by apply (reads_map c (λ x, IMap x.1.1 x.1.2 x.2) _ _ (k, v, n)), reads_map_begin.
  - destruct Hi as (Ht & Hs). by apply (reads_map c (λ x, IList x.1 x.2) _ _ (t, n)), reads_container.
  - destruct Hi as (Ht & Hs). by apply (reads_map c (λ x, ISet x.1 x.2) _ _ (t, n)), reads_container.
  - apply reads_map. eapply reads_ext; [by apply reads_map, reads_raw|]. by destruct b.
  - apply reads_map, reads_byte. lia.
  - apply reads_map, (reads_signed c 2 16); lia.
  - apply reads_map, (reads_signed c 4 32); lia.
  - apply reads_map, (reads_signed c 8 64); lia.
  - apply reads_map, (reads_unsigned c 2); lia.
  - apply reads_map, (reads_unsigned c 4); lia.
  - apply reads_map, (reads_unsigned c 8); lia.
  - apply reads_map, (reads_unsigned c 4); lia.
  - apply reads_map. eapply reads_bind; [by apply reads_byte| |rewrite Hi; lens]. cbn beta.
    apply reads_map, reads_raw. unfold len in Hi. lia.
  - apply reads_map. eapply reads_bind; [by apply reads_byte| |rewrite Hi; lens]. cbn beta.
    apply reads_map, reads_raw. unfold len in Hi. lia.
  - apply reads_map, (reads_unsigned c 8); lia.
  - by apply reads_map, reads_string.
  - by apply reads_map, reads_string.
  - by apply reads_map, reads_string.
  - apply reads_map, reads_raw. unfold len in Hi. lia.
Qed.

(** Sequences of calls, with the total of the counts. *)
Fixpoint write_items (its : list item) : M unit :=
  match its with [] => ret tt | i :: its => bind (write_item i) (λ _, write_items its) end.
Fixpoint read_items (its : list item) : M (list item) :=
  match its with [] => ret [] | i :: its => bind (read_item i) (λ x, bind (read_items its) (λ l, ret (x :: l))) end.

Fixpoint enc_items (c : Z * Z * bool * bool) (its : list item) : list Z :=
  match its with [] => [] | i :: its => enc_item c i ++ enc_items c its end.

Lemma items_write c its : Forall (item_ok c) its → len (enc_items c its) < 2 ^ 31 →
  writes c (write_items its) (enc_items c its).
Proof.
  induction 1 as [|i its Hi _ IH]; cbn [write_items enc_items]; intros Hl; [apply writes_ret|].
  rewrite len_app in Hl. pose proof (len_pos (enc_item c i)).
  apply writes_bind; [by apply item_writes|apply IH; lia|done].
Qed.

Lemma items_read c its : Forall (item_ok c) its → len (enc_items c its) < 2 ^ 31 →
  reads c (read_items its) (enc_items c its) its.
Proof.
  induction 1 as [|i its Hi _ IH]; cbn [read_items enc_items]; intros Hl; [apply reads_ret|].
  rewrite len_app in Hl. pose proof (len_pos (enc_item c i)).
  eapply reads_bind; [by apply item_reads| |done]. apply reads_last; [apply IH; lia|lia].
Qed.

(** ** Values of every type *)

(** A scalar is one of the items; containers hold values. *)
Inductive val :=
| VScalar (i : item)
| VStruct (fs : list (Z * val)) | VSandesh (name : list Z) (fs : list (Z * val))
| VMap (keyType valType : Z) (ps : list (val * val)) | VSet (elemType : Z) (vs : list val)
| VList (elemType : Z) (vs : list val).

Definition scalar_type (i : item) : Z :=
  match i with
  | IBool _ => T_BOOL | IByte _ => T_BYTE | II16 _ => T_I16 | II32 _ => T_I32 | II64 _ => T_I64
  | IU16 _ => T_U16 | IU32 _ => T_U32 | IU64 _ => T_U64 | IIPV4 _ => T_IPV4 | IIPADDR _ => T_IPADDR
  | IDouble _ => T_DOUBLE | IString _ | IBinary _ => T_STRING | IXML _ => T_XML | IUUID _ => T_UUID
  | _ => T_VOID
  end.

Definition type_of (v : val) : Z :=
  match v with
  | VScalar i => scalar_type i | VStruct _ => T_STRUCT | VSandesh _ _ => T_SANDESH | VMap _ _ _ => T_MAP
  | VSet _ _ => T_SET | VList _ _ => T_LIST
  end.

(** How a value is written: the calls, in the order of the fields and elements. *)
Fixpoint items_of (v : val) : list item :=
  match v with
  | VScalar i => [i]
  | VStruct fs =>
      (fix go fs := match fs with
        | [] => [] | (f, v) :: fs => IField (type_of v) f :: items_of v ++ go fs end) fs ++ [IFieldStop]
  | VSandesh name fs =>
      ISandesh name :: (fix go fs := match fs with
        | [] => [] | (f, v) :: fs => IField (type_of v) f :: items_of v ++ go fs end) fs ++ [IFieldStop]
  | VMap k t ps =>
      IMap k t (Z.of_nat (length ps)) :: (fix go ps := match ps with
        | [] => [] | (v, w) :: ps => items_of v ++ items_of w ++ go ps end) ps
  | VSet t vs => ISet t (Z.of_nat (length vs)) :: (fix go vs := match vs with
        | [] => [] | v :: vs => items_of v ++ go vs end) vs
  | VList t vs => IList t (Z.of_nat (length vs)) :: (fix go vs := match vs with
        | [] => [] | v :: vs => items_of v ++ go vs end) vs
  end.

(** The elements have the type of the container, and scalars are scalars. *)
Inductive typed : val → Prop :=
| typed_scalar i : scalar_type i ≠ T_VOID → typed (VScalar i)
| typed_struct fs : Forall (λ p, typed p.2) fs → typed (VStruct fs)
| typed_sandesh name fs : Forall (λ p, typed p.2) fs → typed (VSandesh name fs)
| typed_map k t ps : Forall (λ p, typed p.1 ∧ typed p.2 ∧ type_of p.1 = k ∧ type_of p.2 = t) ps → typed (VMap k t ps)
| typed_set t vs : Forall (λ v, typed v ∧ type_of v = t) vs → typed (VSet t vs)
| typed_list t vs : Forall (λ v, typed v ∧ type_of v = t) vs → typed (VList t vs).

Definition field_items (fs : list (Z * val)) : list item :=
  concat ((λ p, IField (type_of p.2) p.1 :: items_of p.2) <$> fs).
Definition pair_items (ps : list (val * val)) : list item := concat ((λ p, items_of p.1 ++ items_of p.2) <$> ps).
Definition elem_items (vs : list val) : list item := concat (items_of <$> vs).

Lemma items_struct fs : items_of (VStruct fs) = field_items fs ++ [IFieldStop].
Proof.
  cbn [items_of]. f_equal. unfold field_items. induction fs as [|[f v] fs IH]; [done|].
  cbn [fmap list_fmap concat]. cbn [app fst snd]. by rewrite IH.
Qed.
Lemma items_sandesh name fs : items_of (VSandesh name fs) = ISandesh name :: field_items fs ++ [IFieldStop].
Proof. cbn [items_of]. f_equal. exact (items_struct fs). Qed.
Lemma items_map k t ps : items_of (VMap k t ps) = IMap k t (Z.of_nat (length ps)) :: pair_items ps.
Proof.
  cbn [items_of]. f_equal. unfold pair_items. induction ps as [|[v w] ps IH]; [done|].
  cbn [fmap list_fmap concat fst snd]. by rewrite IH, app_assoc.
Qed.
Lemma items_elems vs : (fix go vs := match vs with [] => [] | v :: vs => items_of v ++ go vs end) vs = elem_items vs.
Proof. unfold elem_items. induction vs as [|v vs IH]; [done|]. cbn [fmap list_fmap concat]. by rewrite IH. Qed.

Lemma enc_items_app c l1 l2 : enc_items c (l1 ++ l2) = enc_items c l1 ++ enc_items c l2.
Proof. induction l1 as [|i l1 IH]; [done|]. cbn. by rewrite IH, app_assoc. Qed.

Definition enc (c : Z * Z * bool * bool) (v : val) : list Z := enc_items c (items_of v).

(** Every value takes at least one byte. *)
Lemma enc_item_pos c i : item_ok c i → 1 ≤ len (enc_item c i).
Proof.
  destruct i as [n t s|l|t f| |k v n|t n|t n|b|v|v|v|v|v|v|v|v|[l|l]|v|l|l|l|l]; cbn [item_ok enc_item]; intros Hi;
    rewrite ?len_app, ?len_enc_string, ?len_be, ?len_bytes; rewrite ?len_app, ?len_enc_string, ?len_be, ?len_bytes;
    try (pose proof (len_pos l)); try (pose proof (len_pos n)); try lia.
  - destruct c.2; rewrite !len_app, ?len_enc_string, ?len_be, ?len_bytes; lia.
  - done.
Qed.

Lemma items_nonempty v : items_of v ≠ [].
Proof. destruct v; try done. rewrite items_struct. by intros [_ ?]%app_nil. Qed.

Lemma enc_pos c v : Forall (item_ok c) (items_of v) → 1 ≤ len (enc c v).
Proof.
  unfold enc. destruct (items_of v) as [|i l] eqn:El; [by apply items_nonempty in El|].
  intros [Hi _]%Forall_cons. cbn. rewrite len_app. pose proof (enc_item_pos c i Hi). pose proof (len_pos (enc_items c l)). lia.
Qed.

(** The type of a value is a type code that [skip] knows. *)
Lemma type_of_ok v : type_ok (type_of v).
Proof.
  unfold type_ok. destruct v as [i| | | | |]; [|done..]. by destruct i.
Qed.

(** ** [skip] reads exactly one value *)

Lemma reads_ignore {A} c (m : M A) bs a : reads c m bs a → reads c (ignore m) bs tt.
Proof. apply (reads_map c (λ _, tt)). Qed.

Lemma skip_scalar c fuel i : item_ok c i → scalar_type i ≠ T_VOID →
  reads c (skip (S fuel) (scalar_type i)) (enc_item c i) tt.
Proof.
  intros Hi Hs.
  assert (H : ∀ {A} (m : M A) f, read_item i = map_ret f m → reads c (ignore m) (enc_item c i) tt).
  { intros A m f Em p rest Hv Hc Hr. destruct (item_reads c i Hi p rest Hv Hc Hr) as (p' & E1 & H1).
    exists p'. split; [|done]. rewrite Em in E1. unfold map_ret, ignore in *.
    unfold map_ret. destruct (m p) as [[[] p1]|]; cbn in *; congruence. }
  destruct i as [n t s|l|t f| |k v n|t n|t n|b|v|v|v|v|v|v|v|v|a|v|l|l|l|l]; try done;
    cbn [scalar_type skip]; by eapply H.
Qed.

(** The fields that are left, and the stop. *)
Lemma skip_fields_ok c skp k fs :
  Forall (λ p, reads c (skp (type_of p.2)) (enc c p.2) tt) fs →
  Forall (item_ok c) (field_items fs ++ [IFieldStop]) →
  len (enc_items c (field_items fs ++ [IFieldStop])) < 2 ^ 31 → (length fs < k)%nat →
  reads c (skip_fields skp k (ret tt)) (enc_items c (field_items fs ++ [IFieldStop])) tt.
Proof.
  revert k. induction fs as [|[f v] fs IH]; intros k Hf Hok Hl Hk; (destruct k as [|k]; [cbn in Hk; lia|]).
  - cbn [skip_fields field_items fmap list_fmap concat app enc_items enc_item]. rewrite app_nil_r.
    eapply (reads_seq _ _ _ (bytes_of 1 T_STOP) []); [apply reads_stop|apply reads_ret|lens|by rewrite app_nil_r].
  - apply Forall_cons in Hf as [Hv Hf].
    assert (Ei : field_items ((f, v) :: fs) ++ [IFieldStop] =
      IField (type_of v) f :: items_of v ++ (field_items fs ++ [IFieldStop])).
    { unfold field_items. cbn [fmap list_fmap concat fst snd]. rewrite <- !app_assoc. done. }
    rewrite Ei in *. apply Forall_cons in Hok as [[Ht Hfid] Hok]. apply Forall_app in Hok as [Hok1 Hok2].
    cbn [enc_items] in Hl |- *. rewrite enc_items_app in Hl |- *. fold (enc c v) in *. cbn [fst snd] in Hv.
    rewrite !len_app in Hl. pose proof (len_pos (enc c v)).
    pose proof (len_pos (enc_item c (IField (type_of v) f))).
    pose proof (len_pos (enc_items c (field_items fs ++ [IFieldStop]))).
    cbn [skip_fields]. eapply reads_bind; [by apply reads_field| |rewrite len_app; lia].
    cbn [fst]. rewrite (proj2 (Z.eqb_neq _ _)) by (unfold type_ok, T_STOP in *; lia).
    eapply reads_bind; [exact Hv| |lia]. eapply (reads_bind _ _ _ [] (enc_items c (field_items fs ++ [IFieldStop])));
      [apply reads_ret| |change (len []) with 0; lia].
    cbn beta. apply IH; [done..|lia|cbn in Hk; lia].
Qed.

Lemma skip_elems_ok c skp k i vs :
  Forall (λ v, reads c skp (enc c v) tt) vs →
  len (enc_items c (elem_items vs)) < 2 ^ 31 → (length vs ≤ k)%nat →
  reads c (skip_elems skp k i (i + Z.of_nat (length vs)) (ret tt)) (enc_items c (elem_items vs)) tt.
Proof.
  revert k i. induction vs as [|v vs IH]; intros k i Hf Hl Hk.
  - destruct k; cbn [skip_elems length]; rewrite (proj2 (Z.ltb_ge _ _)) by lia; apply reads_ret.
  - apply Forall_cons in Hf as [Hv Hf]. cbn [length] in *. destruct k as [|k]; [lia|].
    assert (Ee : enc_items c (elem_items (v :: vs)) = enc c v ++ enc_items c (elem_items vs)).
    { unfold elem_items. cbn [fmap list_fmap concat]. apply enc_items_app. }
    rewrite Ee in *. rewrite len_app in Hl. pose proof (len_pos (enc c v)).
    cbn [skip_elems]. rewrite (proj2 (Z.ltb_lt _ _)) by lia. cbn [negb].
    eapply reads_bind; [exact Hv| |done]. cbn beta.
    replace (i + Z.of_nat (S (length vs))) with (i + 1 + Z.of_nat (length vs)) by lia. apply IH; [done|lia|lia].
Qed.

Lemma skip_pairs_ok c skp1 skp2 k i ps :
  Forall (λ p, reads c skp1 (enc c p.1) tt ∧ reads c skp2 (enc c p.2) tt) ps →
  len (enc_items c (pair_items ps)) < 2 ^ 31 → (length ps ≤ k)%nat →
  reads c (skip_pairs skp1 skp2 k i (i + Z.of_nat (length ps)) (ret tt)) (enc_items c (pair_items ps)) tt.
Proof.
  revert k i. induction ps as [|[v w] ps IH]; intros k i Hf Hl Hk.
  - destruct k; cbn [skip_pairs length]; rewrite (proj2 (Z.ltb_ge _ _)) by lia; apply reads_ret.
  - apply Forall_cons in Hf as [[Hv Hw] Hf]. cbn [length fst snd] in *. destruct k as [|k]; [lia|].
    assert (Ee : enc_items c (pair_items ((v, w) :: ps)) = enc c v ++ enc c w ++ enc_items c (pair_items ps)).
    { unfold pair_items. cbn [fmap list_fmap concat fst snd]. by rewrite !enc_items_app, app_assoc. }
    rewrite Ee in *. rewrite !len_app in Hl. pose proof (len_pos (enc c v)). pose proof (len_pos (enc c w)).
    pose proof (len_pos (enc_items c (pair_items ps))).
    cbn [skip_pairs]. rewrite (proj2 (Z.ltb_lt _ _)) by lia. cbn [negb].
    eapply reads_bind; [exact Hv| |rewrite len_app; lia]. eapply reads_bind; [exact Hw| |lia]. cbn beta.
    replace (i + Z.of_nat (S (length ps))) with (i + 1 + Z.of_nat (length ps)) by lia. apply IH; [done|lia|lia].
Qed.

(** The parts of an encoding are shorter than the whole. *)
Lemma field_bound c fs : Forall (item_ok c) (field_items fs) →
  Z.of_nat (length fs) ≤ len (enc_items c (field_items fs)) ∧
  Forall (λ p, Forall (item_ok c) (items_of p.2) ∧ len (enc c p.2) ≤ len (enc_items c (field_items fs))) fs.
Proof.
  induction fs as [|[f v] fs IH]; intros Hok; [done|].
  assert (Ei : field_items ((f, v) :: fs) = (IField (type_of v) f :: items_of v) ++ field_items fs) by done.
  rewrite Ei in *. apply Forall_app in Hok as [Hok1 Hok2]. apply Forall_cons in Hok1 as [Hi Hok1].
  destruct (IH Hok2) as [Hl Hf]. rewrite enc_items_app. cbn [enc_items]. fold (enc c v). rewrite !len_app.
  pose proof (enc_item_pos c _ Hi). pose proof (len_pos (enc c v)). split; [cbn [length]; lia|].
  constructor; [split; [done|cbn [snd]; lia]|]. eapply Forall_impl; [exact Hf|]. intros [] [? ?]. split; [done|lia].
Qed.

Lemma elem_bound c vs : Forall (item_ok c) (elem_items vs) →
  Z.of_nat (length vs) ≤ len (enc_items c (elem_items vs)) ∧
  Forall (λ v, Forall (item_ok c) (items_of v) ∧ len (enc c v) ≤ len (enc_items c (elem_items vs))) vs.
Proof.
  induction vs as [|v vs IH]; intros Hok; [done|].
  assert (Ei : elem_items (v :: vs) = items_of v ++ elem_items vs) by done.
  rewrite Ei in *. apply Forall_app in Hok as [Hok1 Hok2]. destruct (IH Hok2) as [Hl Hf].
  rewrite enc_items_app. fold (enc c v). rewrite !len_app. pose proof (enc_pos c v Hok1). split; [cbn [length]; lia|].
  constructor; [split; [done|lia]|]. eapply Forall_impl; [exact Hf|]. intros ? [? ?]. split; [done|lia].
Qed.

Lemma pair_bound c ps : Forall (item_ok c) (pair_items ps) →
  Z.of_nat (length ps) ≤ len (enc_items c (pair_items ps)) ∧
  Forall (λ p, (Forall (item_ok c) (items_of p.1) ∧ len (enc c p.1) ≤ len (enc_items c (pair_items ps))) ∧
               (Forall (item_ok c) (items_of p.2) ∧ len (enc c p.2) ≤ len (enc_items c (pair_items ps)))) ps.
Proof.
  induction ps as [|[v w] ps IH]; intros Hok; [done|].
  assert (Ei : pair_items ((v, w) :: ps) = (items_of v ++ items_of w) ++ pair_items ps) by done.
  rewrite Ei in *. apply Forall_app in Hok as [[Hok1 Hok1']%Forall_app Hok2]. destruct (IH Hok2) as [Hl Hf].
  rewrite !enc_items_app. fold (enc c v). fold (enc c w). rewrite !len_app.
  pose proof (enc_pos c v Hok1). pose proof (enc_pos c w Hok1'). split; [cbn [length]; lia|].
  constructor; [cbn [fst snd]; split; (split; [done|lia])|]. eapply Forall_impl; [exact Hf|].
  intros ? [[? ?] [? ?]]. split; (split; [done|lia]).
Qed.

Lemma skip_ok c fuel v : typed v → Forall (item_ok c) (items_of v) → len (enc c v) < 2 ^ 31 →
  len (enc c v) < Z.of_nat fuel → reads c (skip fuel (type_of v)) (enc c v) tt.
Proof.
  revert v. induction fuel as [|fuel IH]; intros v Hty Hok Hl Hf; [pose proof (len_pos (enc c v)); lia|].
  destruct Hty as [i Hs|fs Hfs|name fs Hfs|k t ps Hps|t vs Hvs|t vs Hvs].
  1:{ unfold enc in Hl, Hf |- *. cbn [items_of enc_items] in Hok, Hl, Hf |- *. rewrite app_nil_r in Hl, Hf |- *. apply Forall_cons in Hok as [Hi _].
    by apply skip_scalar. }
  1:{ unfold enc in Hl, Hf |- *. rewrite items_struct in Hok, Hl, Hf |- *. pose proof Hok as [Hok1 _]%Forall_app.
    destruct (field_bound c fs Hok1) as [Hlen Hb]. rewrite enc_items_app, len_app in Hl, Hf.
    pose proof (enc_item_pos c IFieldStop I) as Hst.
    assert (Hst' : 1 ≤ len (enc_items c [IFieldStop])) by (cbn [enc_items]; rewrite app_nil_r; done).
    cbn [type_of skip]. change (T_STRUCT =? T_STRUCT) with true. cbv iota.
    eapply (reads_bind _ _ _ [] (enc_items c (field_items fs ++ [IFieldStop]))); [apply reads_ret| |].
    + cbn beta. apply skip_fields_ok; [|done|by rewrite enc_items_app, len_app|lia].
      rewrite Forall_forall in *. intros p Hp. destruct (Hb p Hp) as [Hokp Hlp]. specialize (Hfs p Hp). cbn in Hfs.
      apply IH; [done..|lia|lia].
    + change (len []) with 0. rewrite enc_items_app, len_app. lia. }
  1:{ unfold enc in Hl, Hf |- *. rewrite items_sandesh in Hok, Hl, Hf |- *. apply Forall_cons in Hok as [Hn Hok].
    pose proof Hok as [Hok1 _]%Forall_app. destruct (field_bound c fs Hok1) as [Hlen Hb].
    cbn [enc_items] in Hl, Hf |- *. rewrite enc_items_app, !len_app in Hl, Hf.
    assert (Hst' : 1 ≤ len (enc_items c [IFieldStop])) by (cbn [enc_items]; rewrite app_nil_r; done).
    pose proof (len_pos (enc_item c (ISandesh name))).
    cbn [type_of skip]. eapply reads_bind; [by apply reads_string| |rewrite enc_items_app, len_app; cbn [enc_item] in *; lia].
    cbn beta. apply skip_fields_ok; [|done|rewrite enc_items_app, len_app; lia|lia].
    rewrite Forall_forall in *. intros p Hp. destruct (Hb p Hp) as [Hokp Hlp]. specialize (Hfs p Hp). cbn in Hfs.
    apply IH; [done..|lia|lia]. }
  1:{ unfold enc in Hl, Hf |- *. rewrite items_map in Hok, Hl, Hf |- *. apply Forall_cons in Hok as [Hn Hok].
    destruct (pair_bound c ps Hok) as [Hlen Hb]. cbn [enc_items] in Hl, Hf |- *. rewrite !len_app in Hl, Hf.
    pose proof (enc_item_pos c _ Hn). cbn [type_of skip].
    eapply reads_bind; [by apply reads_map_begin| |done]. cbn [fst snd].
    apply (skip_pairs_ok c _ _ fuel 0); [|lia|lia].
    rewrite Forall_forall in *. intros p Hp. destruct (Hb p Hp) as [[Hokp Hlp] [Hokq Hlq]].
    destruct (Hps p Hp) as (Tp & Tq & <- & <-). split; (apply IH; [done..|lia|lia]). }
  (* sets and lists *)
  all: unfold enc in Hl, Hf |- *; cbn [items_of] in Hok, Hl, Hf |- *; rewrite items_elems in Hok, Hl, Hf |- *;
    apply Forall_cons in Hok as [Hn Hok]; destruct (elem_bound c vs Hok) as [Hlen Hb]; cbn [enc_items] in Hl, Hf |- *;
    rewrite !len_app in Hl, Hf; pose proof (enc_item_pos c _ Hn); destruct Hn as [Ht Hs]; cbn [type_of skip];
    (eapply reads_bind; [by apply reads_container| |done]); cbn [fst snd]; (apply (skip_elems_ok c _ fuel 0); [|lia|lia]);
    rewrite Forall_forall in *; intros v Hv; destruct (Hb v Hv) as [Hokv Hlv]; destruct (Hvs v Hv) as [Tv <-];
    (apply IH; [done..|lia|lia]).
Qed.

(** ** Reading from a transport with nothing to read *)

Definition dry (p : proto) : Prop := valid (trans_ p) ∧ content (trans_ p) = [].

Lemma read_raw_dry n p : dry p → (0 < n)%nat → Z.of_nat n < 2 ^ 32 →
  ∃ p', read_raw n p = Ret (Ok (Z.of_nat n) (garbage <$> seq 0 n), p') ∧ dry p'.
Proof.
  intros [Hv Hc] Hn Hn32. destruct (readAll_short_law (trans_ p) (Z.of_nat n) Hv) as (t & Et & Vt & Ct);
    [rewrite Hc; cbn; lia|done|]. exists (with_trans t p). split; [|by split]. unfold read_raw. rewrite Et, Hc.
  cbn [mbind outcome_mbind]. unfold filled. cbn [length app]. by rewrite Nat.sub_0_r.
Qed.

Lemma map_dry {A} (f : list Z → A) n p : dry p → (0 < n)%nat → Z.of_nat n < 2 ^ 32 →
  ∃ p', map_ret f (read_raw n) p = Ret (Ok (Z.of_nat n) (f (garbage <$> seq 0 n)), p') ∧ dry p'.
Proof.
  intros Hd Hn Hn32. destruct (read_raw_dry n p Hd Hn Hn32) as (p' & Ep & Hd'). exists p'. split; [|done].
  unfold map_ret. by rewrite Ep.
Qed.

(** The end of the input is not an error. *)
Lemma short_read_succeeds p : dry p → ∃ v p', readI32 p = Ret (Ok 4 v, p') ∧ dry p'.
Proof. intros Hd. destruct (map_dry (λ b, s32 (hton 4 (of_bytes b))) 4 p Hd) as (p' & Ep & Hd'); [lia..|]. by eexists _, p'. Qed.

Lemma bind_ok {A B} (m : M A) (f : A → M B) p n a p1 r p2 : m p = Ret (Ok n a, p1) → 0 ≤ n →
  f a p1 = Ret (r, p2) →
  bind m f p = Ret (match r with Ok k b => Ok (s32 (n + k)) b | e => e end, p2).
Proof. intros Em Hn Ef. unfold bind. rewrite Em. cbn. rewrite (proj2 (Z.ltb_ge _ _)) by done. by rewrite Ef. Qed.

(** A struct that is cut off is skipped without end when the stack holds the code of a
    boolean: every field is a boolean again. *)
Lemma field_dry p : garbage 0%nat = T_BOOL → dry p →
  ∃ f p', readFieldBegin p = Ret (Ok 3 (T_BOOL, f), p') ∧ dry p'.
Proof.
  intros Hg Hd. destruct (map_dry (λ b, s8 (of_bytes b)) 1 p Hd) as (p1 & E1 & D1); [lia..|].
  destruct (map_dry (λ b, s16 (hton 2 (of_bytes b))) 2 p1 D1) as (p2 & E2 & D2); [lia..|].
  cbn [fmap list_fmap seq] in E1. rewrite Hg in E1. change (s8 (of_bytes [T_BOOL])) with T_BOOL in E1.
  eexists _, p2. split; [|done]. unfold readFieldBegin. erewrite bind_ok; [| exact E1|lia|].
  2:{ cbn beta. change (T_BOOL =? T_STOP) with false. cbv iota. eapply bind_ok; [exact E2|lia|reflexivity]. }
  done.
Qed.

Lemma skip_fields_dry f k p : garbage 0%nat = T_BOOL → dry p →
  ∃ p', skip_fields (skip f) k (ret tt) p = Ret (Diverge, p').
Proof.
  intros Hg. revert p. induction k as [|k IH]; intros p Hd; [by exists p|]. cbn [skip_fields].
  destruct (field_dry p Hg Hd) as (fid & p1 & E1 & D1).
  assert (Hrest : ∃ p', bind (skip f T_BOOL) (λ _, bind readFieldEnd (λ _, skip_fields (skip f) k (ret tt))) p1 =
    Ret (Diverge, p')).
  { destruct f as [|f]; [by exists p1|].
    destruct (map_dry (λ b, negb (s8 (of_bytes b) =? 0)) 1 p1 D1) as (p2 & E2 & D2); [lia..|].
    destruct (IH p2 D2) as (p3 & E3). exists p3.
    erewrite (bind_ok _ _ p1 1 tt p2); [| |lia|eapply (bind_ok _ _ p2 0 tt p2); [reflexivity|lia|exact E3]]; [done|].
    cbn [skip]. change (T_BOOL =? T_BOOL) with true. cbv iota. unfold ignore, readBool, map_ret at 1. by rewrite E2. }
  destruct Hrest as (p2 & E2). exists p2. erewrite bind_ok; [|exact E1|lia|exact E2]. done.
Qed.

Lemma skip_truncated_struct fuel p : garbage 0%nat = T_BOOL → dry p →
  ∃ p', skip fuel T_STRUCT p = Ret (Diverge, p').
Proof.
  intros Hg Hd. destruct fuel as [|fuel]; [by exists p|].
  change (skip (S fuel) T_STRUCT p) with (bind readStructBegin (λ _, skip_fields (skip fuel) fuel readStructEnd) p).
  destruct (skip_fields_dry fuel fuel p Hg Hd) as (p' & E1). exists p'.
  erewrite (bind_ok _ _ p 0 tt p); [|done|lia|exact E1]. done.
Qed.

End Protocol.

(** ** The theorems *)

(** C38: Every sequence of write operations (message, struct, field and container headers,
    and all scalar types) with arguments in the range of their types is read back by the
    read operations of the same kinds: the same values, the same number of bytes, and
    nothing is left.  Holds for both settings of the strict mode and for strings and
    containers up to the limits of the reader, over any transport that keeps its laws. *)
Theorem binary_roundtrip {T} `{!Transport T, !TransportLaws T} (alloc_ok : Z → bool) (garbage : nat → Z)
    (p : TBinaryProtocol T) (its : list item) :
  (∀ n, alloc_ok n = true) → valid (trans_ p) → content (trans_ p) = [] →
  Forall (item_ok (cfg p)) its → len (enc_items (cfg p) its) < 2 ^ 31 →
  fits (trans_ p) (len (enc_items (cfg p) its)) →
  ∃ n p1 p2, write_items its p = Ret (Ok n tt, p1) ∧
    read_items alloc_ok garbage its p1 = Ret (Ok n its, p2) ∧ content (trans_ p2) = [].
Proof.
  intros Ha Hv Hc Hok Hl Hf. set (c := cfg p) in *.
  destruct (items_write c its Hok Hl p Hv eq_refl Hf) as (p1 & E1 & V1 & C1 & R1 & _). rewrite Hc in R1.
  destruct (items_read alloc_ok garbage Ha c its Hok Hl p1 [] V1 C1) as (p2 & E2 & V2 & C2 & R2);
    [by rewrite R1, app_nil_r|]. eauto 6.
Qed.

(** [skip] of a value that was written, of any type and nesting, reads exactly its bytes:
    it ends, counts what the writes counted, and what follows the value is left; the
    recursion is no deeper than the number of bytes. *)
Theorem skip_reads_value {T} `{!Transport T, !TransportLaws T} (alloc_ok : Z → bool) (garbage : nat → Z)
    (p : TBinaryProtocol T) (v : val) (rest : list item) :
  (∀ n, alloc_ok n = true) → valid (trans_ p) → content (trans_ p) = [] → typed v →
  Forall (item_ok (cfg p)) (items_of v ++ rest) → len (enc_items (cfg p) (items_of v ++ rest)) < 2 ^ 31 →
  fits (trans_ p) (len (enc_items (cfg p) (items_of v ++ rest))) →
  ∃ n m p1 p2, write_items (items_of v) p = Ret (Ok n tt, p1) ∧ write_items rest p1 = Ret (Ok m tt, p2) ∧
    ∀ fuel, n < Z.of_nat fuel → ∃ p3, skip alloc_ok garbage fuel (type_of v) p2 = Ret (Ok n tt, p3) ∧
      content (trans_ p3) = enc_items (cfg p) rest.
Proof.
  intros Ha Hv Hc Hty Hok Hl Hf. set (c := cfg p) in *. rewrite enc_items_app in *. fold (enc c v) in *.
  rewrite len_app in Hl, Hf. pose proof (len_pos (enc c v)). pose proof (len_pos (enc_items c rest)).
  apply Forall_app in Hok as [Hok1 Hok2].
  destruct (items_write c (items_of v) Hok1 ltac:(unfold enc in *; lia) p Hv eq_refl) as (p1 & E1 & V1 & C1 & R1 & F1);
    [by eapply fits_law; [|exact Hf]; unfold enc in *; lia|]. rewrite Hc in R1.
  destruct (items_write c rest Hok2 ltac:(lia) p1 V1 C1) as (p1' & E1' & V1' & C1' & R1' & _); [by apply F1|].
  rewrite R1 in R1'. cbn [app] in R1'.
  exists (len (enc c v)), (len (enc_items c rest)), p1, p1'. split; [done|]. split; [done|]. intros fuel Hfuel.
  destruct (skip_ok alloc_ok garbage Ha c fuel v Hty Hok1 ltac:(lia) Hfuel p1' _ V1' C1' R1') as (p2 & E2 & V2 & C2 & R2).
  by exists p2.
Qed.

(** ** Over a memory buffer *)

#[local] Instance mem : Transport TB.TMemoryBuffer := TB.TMemoryBuffer_transport (λ _, true) (λ _, 0).
#[local] Instance mem_laws : TransportLaws TB.TMemoryBuffer := TB.TMemoryBuffer_laws (λ _, true) (λ _, 0).

(** A protocol with limits over an empty buffer of 16 bytes that grows. *)
Definition example : TBinaryProtocol TB.TMemoryBuffer :=
  setContainerSizeLimit 100 (setStringSizeLimit 50
    (new_TBinaryProtocol (TB.mkTMB (TB.new_memory (λ _, 0) 0 16) 16 0 0 0 16 true))).

Lemma example_valid : valid (trans_ example).
Proof. by constructor. Qed.

Lemma example_fits n : n ≤ 2 ^ 31 → fits (trans_ example) n.
Proof. intros Hn. right. split; [done|]. split; [exact Hn|done]. Qed.

Definition example_items : list item :=
  [IMessage [104; 105] 1 7; ISandesh [85; 118; 101]; IField T_I32 1; II32 (-5); IField T_MAP 2;
   IMap T_STRING T_U64 1; IString [107]; IU64 (2 ^ 63); IFieldStop; IBool true; IIPADDR (V4 [10; 0; 0; 1]);
   IDouble 4607182418800017408; II64 (- 2 ^ 63)].

Lemma binary_roundtrip_witness :
  ∃ n p1 p2, write_items example_items example = Ret (Ok n tt, p1) ∧
    read_items (λ _, true) (λ _, 255) example_items p1 = Ret (Ok n example_items, p2) ∧ content (trans_ p2) = [].
Proof.
  apply (binary_roundtrip (λ _, true) (λ _, 255) example example_items); [done|apply example_valid|done| |by vm_compute|].
  - repeat (apply Forall_cons; split); [..|by apply Forall_nil];
      cbn; unfold string_ok, size_ok, type_ok; cbn; repeat split; try done; try (right; done); lia.
  - apply example_fits. by vm_compute.
Defined.

(** A struct with a list of structs, and a message after it. *)
Definition example_val : val :=
  VStruct [(1, VList T_STRUCT [VStruct [(1, VScalar (IBool true))]; VStruct []]);
           (2, VMap T_I16 T_STRING [(VScalar (II16 3), VScalar (IString [65; 66]))])].

Lemma example_typed : typed example_val.
Proof. repeat (constructor; cbn; try done). Qed.

Lemma skip_reads_value_witness :
  ∃ n m p1 p2, write_items (items_of example_val) example = Ret (Ok n tt, p1) ∧
    write_items [IU32 9] p1 = Ret (Ok m tt, p2) ∧
    ∀ fuel, n < Z.of_nat fuel → ∃ p3, skip (λ _, true) (λ _, 255) fuel (type_of example_val) p2 = Ret (Ok n tt, p3) ∧
      content (trans_ p3) = enc_items (cfg example) [IU32 9].
Proof.
  apply (skip_reads_value (λ _, true) (λ _, 255) example example_val [IU32 9]);
    [done|apply example_valid|done|apply example_typed| |by vm_compute|].
  - repeat (apply Forall_cons; split); [..|by apply Forall_nil];
      cbn; unfold string_ok, size_ok, type_ok; cbn; repeat split; try done; try (right; done); lia.
  - apply example_fits. by vm_compute.
Defined.

(** ** What the code does not mean to do *)

(** A negative size is an error for a list, and a size of 2^32 - 1 for a set. *)
Example set_negative_size :
  let p := new_TBinaryProtocol (TB.mkTMB [2; 255; 255; 255; 255] 5 0 5 5 5 false) in
  (∃ p', readListBegin (λ _, 0) p = Ret (Err (-1), p')) ∧
  (∃ p', readSetBegin (λ _, 0) p = Ret (Ok 5 (T_BOOL, 2 ^ 32 - 1), p')).
Proof. split; eexists; by vm_compute. Qed.

(** The bytes do not fit, and the number of bytes is returned. *)
Example write_error_ignored :
  let p := new_TBinaryProtocol (TB.mkTMB [] 0 0 0 0 0 false) in
  ∃ p', writeI32 5 p = Ret (Ok 4 tt, p') ∧ content (trans_ p') = [].
Proof. eexists. split; by vm_compute. Qed.

End BP.
