(* ===== verification/Generated.v ===== *)
(** * The reading and writing code of the Sandesh compiler:
      src/sandesh/compiler/generate/t_cpp_generator.cc

    For every struct and sandesh of a schema the compiler prints a [read] and a [write]
    function.  The generator functions [generate_serialize_field],
    [generate_serialize_container], [generate_common_struct_writer_body] and their
    counterparts for reading walk over a type and print, for each part of it, calls of a
    protocol object.  The definitions below are that walk, with the calls made instead
    of printed: what the printed code does, for every type.  A test that the printed code
    makes after each call ([if ((ret = ...) < 0) return ret; xfer += ret;]) is the [bind]
    of the monad.

    The protocol is any type with the operations of the class [Protocol].  [ProtocolLaws]
    states what the generated code relies on, in terms of the calls made on the protocol
    (tokens) and of the bytes that stand for them; the binary protocol
    ([GeneratedBinary]) and the XML protocol ([XmlThms]) are proved to be instances. *)

From stdpp Require Import list.
From S2P Require Import Prelude Transport BinaryProtocol.
Open Scope Z_scope.

Module GC.

(** Strings are byte sequences. *)
Abbreviation str := (list Z).

(** An operation of a protocol: [BP.res] is an error code or the number of bytes with the
    values passed back by reference. *)
Definition PM (P A : Type) : Type := P → outcome (BP.res A * P).

(** ** The operations of a protocol (TProtocol.h)

    A variable that is passed by reference and that an operation may leave as it is comes
    as an argument. *)
Class Protocol (P : Type) := {
  writeStructBegin : str → PM P unit; writeStructEnd : PM P unit;
  writeSandeshBegin : str → PM P unit; writeSandeshEnd : PM P unit;
  writeFieldBegin : str → Z → Z → list (str * str) → PM P unit; writeFieldEnd : PM P unit; writeFieldStop : PM P unit;
  writeMapBegin : Z → Z → Z → PM P unit; writeMapEnd : PM P unit;
  writeListBegin : Z → Z → PM P unit; writeListEnd : PM P unit;
  writeSetBegin : Z → Z → PM P unit; writeSetEnd : PM P unit;
  writeContainerElementBegin : PM P unit; writeContainerElementEnd : PM P unit;
  writeBool : bool → PM P unit; writeByte : Z → PM P unit; writeI16 : Z → PM P unit; writeI32 : Z → PM P unit;
  writeI64 : Z → PM P unit; writeU16 : Z → PM P unit; writeU32 : Z → PM P unit; writeU64 : Z → PM P unit;
  writeIPV4 : Z → PM P unit; writeIPADDR : BP.address → PM P unit; writeDouble : Z → PM P unit;
  writeString : str → PM P unit; writeBinary : str → PM P unit; writeXML : str → PM P unit; writeUUID : str → PM P unit;
  readStructBegin : PM P str; readStructEnd : PM P unit;
  readSandeshBegin : PM P str; readSandeshEnd : PM P unit;
  readFieldBegin : Z → Z → PM P (str * Z * Z); readFieldEnd : PM P unit;
  readMapBegin : Z → Z → Z → PM P (Z * Z * Z); readMapEnd : PM P unit;
  readListBegin : Z → Z → PM P (Z * Z); readListEnd : PM P unit;
  readSetBegin : Z → Z → PM P (Z * Z); readSetEnd : PM P unit;
  readContainerElementBegin : PM P unit; readContainerElementEnd : PM P unit;
  readBool : bool → PM P bool; readByte : PM P Z; readI16 : PM P Z; readI32 : PM P Z; readI64 : PM P Z;
  readU16 : PM P Z; readU32 : PM P Z; readU64 : PM P Z; readIPV4 : PM P Z; readIPADDR : PM P BP.address;
  readDouble : PM P Z; readString : PM P str; readBinary : PM P str; readXML : PM P str; readUUID : str → PM P str;
}.

(** ** Types and values of a schema *)

(** [t_base_type::t_base]; [binary]: the string type is [binary]. *)
Inductive base :=
| TYPE_STRING (binary : bool) | TYPE_STATIC_CONST_STRING (binary : bool) | TYPE_XML | TYPE_UUID | TYPE_BOOL | TYPE_BYTE
| TYPE_I16 | TYPE_I32 | TYPE_I64 | TYPE_U16 | TYPE_U32 | TYPE_U64 | TYPE_IPV4 | TYPE_IPADDR | TYPE_DOUBLE.

(** [t_field::e_req] *)
Inductive req := T_REQUIRED | T_OPTIONAL | T_OPT_IN_REQ_OUT.
#[export] Instance req_eq_dec : EqDecision req.
Proof. solve_decision. Defined.

(** [t_field], without its type: the key, the name, the requiredness, the annotations in
    their order. *)
Record t_field := mkField { get_key : Z; get_name : str; get_req : req; annotations_ : list (str * str) }.

Inductive t_type :=
| t_base_type (b : base) | t_enum | t_typedef (t : t_type)
| t_struct (name : str) (members : list (t_field * t_type))
| t_list (elem : t_type) | t_set (elem : t_type) | t_map (key val : t_type).

(** A C++ object.  A struct holds its [table_] - where it has one: a field called name with
    the annotation key -, and its members with their flags in [__isset]; sets and maps are in
    the order of iteration. *)
Inductive value :=
| VBool (b : bool) | VNum (z : Z) | VStr (l : str) | VUuid (l : str) | VAddr (a : BP.address)
| VStruct (table_ : str) (ms : list (bool * value)) | VList (vs : list value) | VSet (vs : list value)
| VMap (ps : list (value * value)).

Definition type_to_enum_base (b : base) : Z :=
  match b with
  | TYPE_STRING _ | TYPE_STATIC_CONST_STRING _ => BP.T_STRING
  | TYPE_BOOL => BP.T_BOOL | TYPE_BYTE => BP.T_BYTE | TYPE_I16 => BP.T_I16 | TYPE_I32 => BP.T_I32
  | TYPE_I64 => BP.T_I64 | TYPE_DOUBLE => BP.T_DOUBLE | TYPE_XML => BP.T_XML | TYPE_UUID => BP.T_UUID
  | TYPE_U16 => BP.T_U16 | TYPE_U32 => BP.T_U32 | TYPE_U64 => BP.T_U64 | TYPE_IPV4 => BP.T_IPV4
  | TYPE_IPADDR => BP.T_IPADDR
  end.

Fixpoint type_to_enum (t : t_type) : Z :=
  match t with
  | t_typedef t => type_to_enum t                   (* get_true_type *)
  | t_base_type b => type_to_enum_base b
  | t_enum => BP.T_I32
  | t_struct _ _ => BP.T_STRUCT
  | t_map _ _ => BP.T_MAP | t_set _ => BP.T_SET | t_list _ => BP.T_LIST
  end.

(** [etype->is_base_type() || etype->is_enum()]; the typedef is not resolved here. *)
Definition is_base_or_enum (t : t_type) : bool :=
  match t with t_base_type _ | t_enum => true | _ => false end.

(** ** The table of a struct *)

Definition lit_name : str := [110; 97; 109; 101].
Definition lit_key : str := [107; 101; 121].
(** The field is that of the name, and the annotation is the key. *)
Definition names_table (f : t_field) (a : str * str) : bool :=
  bool_decide (get_name f = lit_name) && bool_decide (a.1 = lit_key).
(** What is written with a field: in a struct the key of the name is the table. *)
Definition written_annotations (sandesh : bool) (table_ : str) (f : t_field) : list (str * str) :=
  map (λ a, if negb sandesh && names_table f a then (lit_key, table_) else a) (annotations_ f).
(** [assert(!table_.empty())] fails. *)
Definition table_missing (sandesh : bool) (table_ : str) (f : t_field) : bool :=
  negb sandesh && existsb (names_table f) (annotations_ f) && bool_decide (table_ = []).
(** [__tbl] of the default constructor *)
Fixpoint default_table (members : list (t_field * t_type)) : str :=
  match members with
  | [] => []
  | (f, _) :: members =>
      match filter (λ a, names_table f a = true) (annotations_ f) with
      | a :: _ => a.2
      | [] => default_table members
      end
  end.

Section Code.
Context {P : Type} `{!Protocol P}.
Context (uninit : Z).                      (* what local variables hold before they are assigned *)
Context (less : value → value → bool).     (* the order of sets and maps *)
Context (resize_ok : Z → bool).            (* whether there is memory for the elements of a list *)

Definition ret {A} (a : A) : PM P A := λ p, Ret (BP.Ok 0 a, p).
Definition err {A} (code : Z) : PM P A := λ p, Ret (BP.Err code, p).
Definition diverge {A} : PM P A := λ p, Ret (BP.Diverge, p).

(** [if ((ret = m) < 0) return ret; xfer += ret;], and the rest. *)
Definition bind {A B} (m : PM P A) (f : A → PM P B) : PM P B := λ p,
  '(r, p) ← m p;
  match r with
  | BP.Err code => Ret (BP.Err code, p)
  | BP.Diverge => Ret (BP.Diverge, p)
  | BP.Ok n a =>
      if n <? 0 then Ret (BP.Err n, p)
      else
        '(r, p) ← f a p;
        Ret (match r with BP.Ok k b => BP.Ok (s32 (n + k)) b | e => e end, p)
  end.

Notation "x <~ m ; f" := (bind m (λ x, f)) (at level 20, m at level 100, f at level 200, only parsing).
Notation "m ;~ f" := (bind m (λ _, f)) (at level 100, f at level 200, right associativity, only parsing).

(** A value that is not of the type: there is no such C++ program. *)
Definition ill_typed {A} : PM P A := λ _, Abort.

(** ** Writing *)

Definition serialize_base (b : base) (v : value) : PM P unit :=
  match b, v with
  | (TYPE_STRING true | TYPE_STATIC_CONST_STRING true), VStr l => writeBinary l
  | (TYPE_STRING false | TYPE_STATIC_CONST_STRING false), VStr l => writeString l
  | TYPE_XML, VStr l => writeXML l
  | TYPE_UUID, VUuid l => writeUUID l
  | TYPE_BOOL, VBool b => writeBool b
  | TYPE_BYTE, VNum z => writeByte z
  | TYPE_I16, VNum z => writeI16 z
  | TYPE_I32, VNum z => writeI32 z
  | TYPE_I64, VNum z => writeI64 z
  | TYPE_U16, VNum z => writeU16 z
  | TYPE_U32, VNum z => writeU32 z
  | TYPE_U64, VNum z => writeU64 z
  | TYPE_IPV4, VNum z => writeIPV4 z
  | TYPE_IPADDR, VAddr a => writeIPADDR a
  | TYPE_DOUBLE, VNum z => writeDouble z
  | _, _ => ill_typed
  end.

(** The tags around an element of a container *)
Definition serialize_element (t : t_type) (m : PM P unit) : PM P unit :=
  if is_base_or_enum t then (writeContainerElementBegin ;~ m ;~ writeContainerElementEnd) else m.

Fixpoint write_each {A} (w : A → PM P unit) (l : list A) (fin : PM P unit) : PM P unit :=
  match l with [] => fin | x :: l => w x ;~ write_each w l fin end.

(** The loop over the members of [generate_common_struct_writer_body]; a member comes with
    the enum of its type and the code that writes it. *)
Fixpoint write_members (sandesh : bool) (table_ : str) (ws : list (t_field * Z * (value → PM P unit)))
    (ms : list (bool * value)) (fin : PM P unit) : PM P unit :=
  match ws, ms with
  | [], [] => fin
  | (f, type, w) :: ws, (isset, x) :: ms =>
      if bool_decide (get_req f = T_OPTIONAL) && negb isset then write_members sandesh table_ ws ms fin
      else if table_missing sandesh table_ f then (λ _, Abort)
      else (writeFieldBegin (get_name f) type (get_key f) (written_annotations sandesh table_ f) ;~
            w x ;~ writeFieldEnd ;~ write_members sandesh table_ ws ms fin)
  | _, _ => ill_typed
  end.

(** [generate_common_struct_writer_body]; [sandesh]: the type is a sandesh. *)
Definition struct_writer_body (sandesh : bool) (name : str) (ws : list (t_field * Z * (value → PM P unit)))
    (table_ : str) (ms : list (bool * value)) : PM P unit :=
  (if sandesh then writeSandeshBegin name else writeStructBegin name) ;~
  write_members sandesh table_ ws ms
    (writeFieldStop ;~ (if sandesh then writeSandeshEnd else writeStructEnd)).

Fixpoint serialize_field (t : t_type) (v : value) : PM P unit :=
  match t with
  | t_typedef t => serialize_field t v
  | t_base_type b => serialize_base b v
  | t_enum => match v with VNum z => writeI32 z | _ => ill_typed end
  | t_struct name members =>
      match v with
      | VStruct table_ ms =>
          struct_writer_body false name
            (map (λ m, (m.1, type_to_enum m.2, serialize_field m.2)) members) table_ ms
      | _ => ill_typed
      end
  | t_list e =>
      match v with
      | VList vs =>
          writeListBegin (type_to_enum e) (u32 (Z.of_nat (length vs))) ;~
          write_each (λ x, serialize_element e (serialize_field e x)) vs writeListEnd
      | _ => ill_typed
      end
  | t_set e =>
      match v with
      | VSet vs =>
          writeSetBegin (type_to_enum e) (u32 (Z.of_nat (length vs))) ;~
          write_each (λ x, serialize_element e (serialize_field e x)) vs writeSetEnd
      | _ => ill_typed
      end
  | t_map k w =>
      match v with
      | VMap ps =>
          writeMapBegin (type_to_enum k) (type_to_enum w) (u32 (Z.of_nat (length ps))) ;~
          write_each (λ x, serialize_element k (serialize_field k x.1) ;~
                           serialize_element w (serialize_field w x.2)) ps writeMapEnd
      | _ => ill_typed
      end
  end.

(** [write] of a struct, and [Write] of a sandesh *)
Definition write_object (sandesh : bool) (name : str) (members : list (t_field * t_type)) (v : value) : PM P unit :=
  match v with
  | VStruct table_ ms =>
      struct_writer_body sandesh name (map (λ m, (m.1, type_to_enum m.2, serialize_field m.2)) members) table_ ms
  | _ => ill_typed
  end.

(** ** [skip] (TProtocol.h), over any protocol *)

Definition ignore {A} (m : PM P A) : PM P unit := λ p,
  '(r, p) ← m p; Ret (match r with BP.Ok n _ => BP.Ok n tt | BP.Err c => BP.Err c | BP.Diverge => BP.Diverge end, p).

Fixpoint skip_fields (skip : Z → PM P unit) (k : nat) (ftype fid : Z) (fin : PM P unit) : PM P unit :=
  match k with
  | O => diverge
  | S k =>
      field <~ readFieldBegin ftype fid;
      let '(_, ftype, fid) := field in
      if ftype =? BP.T_STOP then fin
      else (skip ftype ;~ readFieldEnd ;~ skip_fields skip k ftype fid fin)
  end.

Fixpoint skip_elems (skip : PM P unit) (k : nat) (i size : Z) (fin : PM P unit) : PM P unit :=
  if negb (i <? size) then fin
  else match k with O => diverge | S k => skip ;~ skip_elems skip k (i + 1) size fin end.

Fixpoint skip (fuel : nat) (type : Z) : PM P unit :=
  match fuel with
  | O => diverge
  | S fuel =>
      if type =? BP.T_BOOL then ignore (readBool (negb (uninit =? 0)))
      else if type =? BP.T_BYTE then ignore readByte
      else if type =? BP.T_I16 then ignore readI16
      else if type =? BP.T_I32 then ignore readI32
      else if type =? BP.T_I64 then ignore readI64
      else if type =? BP.T_U16 then ignore readU16
      else if type =? BP.T_U32 then ignore readU32
      else if type =? BP.T_U64 then ignore readU64
      else if type =? BP.T_IPV4 then ignore readIPV4
      else if type =? BP.T_IPADDR then ignore readIPADDR
      else if type =? BP.T_DOUBLE then ignore readDouble
      else if type =? BP.T_STRING then ignore readBinary
      else if type =? BP.T_XML then ignore readXML
      else if type =? BP.T_UUID then ignore (readUUID [])
      else if type =? BP.T_STRUCT then
        readStructBegin ;~ skip_fields (skip fuel) fuel uninit uninit readStructEnd
      else if type =? BP.T_SANDESH then
        readSandeshBegin ;~ skip_fields (skip fuel) fuel uninit uninit readSandeshEnd
      else if type =? BP.T_MAP then
        h <~ readMapBegin uninit uninit uninit;
        skip_elems (skip fuel h.1.1 ;~ skip fuel h.1.2) fuel 0 h.2 readMapEnd
      else if type =? BP.T_SET then
        h <~ readSetBegin uninit uninit; skip_elems (skip fuel h.1) fuel 0 h.2 readSetEnd
      else if type =? BP.T_LIST then
        h <~ readListBegin uninit uninit; skip_elems (skip fuel h.1) fuel 0 h.2 readListEnd
      else ret tt
  end.

(** ** Reading *)

(** An object as its constructor leaves it, where the schema gives no default values. *)
Fixpoint default_value (t : t_type) : value :=
  match t with
  | t_typedef t => default_value t
  | t_base_type (TYPE_STRING _ | TYPE_STATIC_CONST_STRING _ | TYPE_XML) => VStr []
  | t_base_type TYPE_UUID => VUuid (replicate 16 0)
  | t_base_type TYPE_BOOL => VBool false
  | t_base_type TYPE_IPADDR => VAddr (BP.V4 (replicate 4 0))
  | t_base_type _ | t_enum => VNum 0
  | t_struct _ members => VStruct (default_table members) (map (λ m, (false, default_value m.2)) members)
  | t_list _ => VList [] | t_set _ => VSet [] | t_map _ _ => VMap []
  end.

Definition map_ret {A B} (f : A → B) (m : PM P A) : PM P B := λ p,
  '(r, p) ← m p; Ret (match r with BP.Ok n a => BP.Ok n (f a) | BP.Err c => BP.Err c | BP.Diverge => BP.Diverge end, p).

Definition deserialize_base (b : base) (this : value) : PM P value :=
  match b with
  | TYPE_STRING true | TYPE_STATIC_CONST_STRING true => map_ret VStr readBinary
  | TYPE_STRING false | TYPE_STATIC_CONST_STRING false => map_ret VStr readString
  | TYPE_XML => map_ret VStr readXML
  | TYPE_UUID => map_ret VUuid (readUUID (match this with VUuid l => l | _ => [] end))
  | TYPE_BOOL => map_ret VBool (readBool (match this with VBool b => b | _ => false end))
  | TYPE_BYTE => map_ret VNum readByte
  | TYPE_I16 => map_ret VNum readI16
  | TYPE_I32 => map_ret VNum readI32
  | TYPE_I64 => map_ret VNum readI64
  | TYPE_U16 => map_ret VNum readU16
  | TYPE_U32 => map_ret VNum readU32
  | TYPE_U64 => map_ret VNum readU64
  | TYPE_IPV4 => map_ret VNum readIPV4
  | TYPE_IPADDR => map_ret VAddr readIPADDR
  | TYPE_DOUBLE => map_ret VNum readDouble
  end.

Definition deserialize_element {A} (t : t_type) (m : PM P A) : PM P A :=
  if is_base_or_enum t then
    (readContainerElementBegin ;~ x <~ m; (readContainerElementEnd ;~ ret x))
  else m.

(** [for (i = 0; i < size; ++i)], from the container as it is *)
Fixpoint read_each {A} (r : A → PM P A) (size : nat) (container : A) (fin : A → PM P value) : PM P value :=
  match size with O => fin container | S size => x <~ r container; read_each r size x fin end.

(** [std::vector::resize] to the size that was read; nothing catches what it throws. *)
Definition resize (size : Z) : PM P unit := λ p, if resize_ok size then Ret (BP.Ok 0 tt, p) else Abort.

(** [std::set::insert], [std::map::operator[]] and the assignment through it *)
Fixpoint set_insert (x : value) (l : list value) : list value :=
  match l with
  | [] => [x]
  | y :: l' => if less x y then x :: l else if less y x then y :: set_insert x l' else l
  end.
Fixpoint map_at (k default : value) (l : list (value * value)) : value :=
  match l with
  | [] => default
  | (k', x) :: l => if less k k' then default else if less k' k then map_at k default l else x
  end.
Fixpoint map_assign (k x : value) (l : list (value * value)) : list (value * value) :=
  match l with
  | [] => [(k, x)]
  | (k', y) :: l' =>
      if less k k' then (k, x) :: l else if less k' k then (k', y) :: map_assign k x l' else (k', x) :: l'
  end.

(** What the reader knows of a member: the field, the enum of its type, and the code that
    reads it, given the member as it is. *)
Definition reader : Type := t_field * Z * (value → PM P value).

(** One case of [switch (fid)]; the members and the fields that were seen *)
Definition read_member (k : nat) (rs : list reader) (ftype fid : Z) (ms : list (bool * value)) (seen : list Z) :
    PM P (list (bool * value) * list Z) :=
  match list_find (λ r, get_key r.1.1 = fid) rs with
  | Some (i, (f, type, r)) =>
      if ftype =? type then
        match ms !! i with
        | Some (isset, x) =>
            x <~ r x;
            ret (<[i := (if bool_decide (get_req f = T_REQUIRED) then isset else true, x)]> ms, fid :: seen)
        | None => ill_typed
        end
      else (skip k ftype ;~ ret (ms, seen))
  | None => skip k ftype ;~ ret (ms, seen)
  end.

(** The loop [while (true)]; [k] bounds the number of fields that are followed. *)
Fixpoint read_fields (k : nat) (rs : list reader) (rounds : nat) (ftype fid : Z) (ms : list (bool * value))
    (seen : list Z) (fin : list (bool * value) → list Z → PM P value) : PM P value :=
  match rounds with
  | O => diverge
  | S rounds =>
      field <~ readFieldBegin ftype fid;
      let '(_, ftype, fid) := field in
      if ftype =? BP.T_STOP then fin ms seen
      else
        (x <~ read_member k rs ftype fid ms seen;
         readFieldEnd ;~ read_fields k rs rounds ftype fid x.1 x.2 fin)
  end.

(** A required field that was not seen is an error. *)
Definition required_seen (rs : list reader) (seen : list Z) : bool :=
  forallb (λ r, negb (bool_decide (get_req r.1.1 = T_REQUIRED)) || bool_decide (get_key r.1.1 ∈ seen)) rs.

(** [generate_common_struct_reader_body] *)
Definition struct_reader_body (k : nat) (sandesh : bool) (rs : list reader) (table_ : str) (ms : list (bool * value)) :
    PM P value :=
  (if sandesh then readSandeshBegin else readStructBegin) ;~
  read_fields k rs k uninit uninit ms [] (λ ms seen,
    (if sandesh then readSandeshEnd else readStructEnd) ;~
    if required_seen rs seen then ret (VStruct table_ ms) else err (-1)).

Fixpoint deserialize_field (k : nat) (t : t_type) (this : value) : PM P value :=
  match t with
  | t_typedef t => deserialize_field k t this
  | t_base_type b => deserialize_base b this
  | t_enum => map_ret VNum readI32
  | t_struct _ members =>
      match this with
      | VStruct table_ ms =>
          struct_reader_body k false (map (λ m, (m.1, type_to_enum m.2, deserialize_field k m.2)) members) table_ ms
      | _ => ill_typed
      end
  | t_list e =>
      h <~ readListBegin uninit uninit;
      resize h.2 ;~
      read_each (λ l, x <~ deserialize_element e (deserialize_field k e (default_value e)); ret (l ++ [x]))
        (Z.to_nat h.2) [] (λ l, readListEnd ;~ ret (VList l))
  | t_set e =>
      h <~ readSetBegin uninit uninit;
      read_each (λ l, x <~ deserialize_element e (deserialize_field k e (default_value e)); ret (set_insert x l))
        (Z.to_nat h.2) [] (λ l, readSetEnd ;~ ret (VSet l))
  | t_map e w =>
      h <~ readMapBegin uninit uninit uninit;
      read_each (λ l,
        key <~ deserialize_element e (deserialize_field k e (default_value e));
        x <~ deserialize_element w (deserialize_field k w (map_at key (default_value w) l));
        ret (map_assign key x l)) (Z.to_nat h.2) [] (λ l, readMapEnd ;~ ret (VMap l))
  end.

(** [read] of a struct, and [Read] of a sandesh *)
Definition read_object (k : nat) (sandesh : bool) (members : list (t_field * t_type)) (this : value) : PM P value :=
  match this with
  | VStruct table_ ms =>
      struct_reader_body k sandesh (map (λ m, (m.1, type_to_enum m.2, deserialize_field k m.2)) members) table_ ms
  | _ => ill_typed
  end.

(** ** Tokens: the calls of a protocol *)

Inductive scalar :=
| SBool (b : bool) | SByte (z : Z) | SI16 (z : Z) | SI32 (z : Z) | SI64 (z : Z) | SU16 (z : Z) | SU32 (z : Z)
| SU64 (z : Z) | SIPV4 (z : Z) | SIPADDR (a : BP.address) | SDouble (z : Z) | SString (l : str) | SBinary (l : str)
| SXML (l : str) | SUUID (l : str).

Inductive token :=
| KBegin (sandesh : bool) (name : str) | KEnd (sandesh : bool)
| KField (name : str) (type id : Z) (annotations : list (str * str)) | KFieldEnd | KStop
| KMap (key val size : Z) | KMapEnd | KList (elem size : Z) | KListEnd | KSet (elem size : Z) | KSetEnd
| KElem | KElemEnd | KScalar (s : scalar).

Definition write_scalar (s : scalar) : PM P unit :=
  match s with
  | SBool b => writeBool b | SByte z => writeByte z | SI16 z => writeI16 z | SI32 z => writeI32 z
  | SI64 z => writeI64 z | SU16 z => writeU16 z | SU32 z => writeU32 z | SU64 z => writeU64 z
  | SIPV4 z => writeIPV4 z | SIPADDR a => writeIPADDR a | SDouble z => writeDouble z | SString l => writeString l
  | SBinary l => writeBinary l | SXML l => writeXML l | SUUID l => writeUUID l
  end.

Definition write_token (t : token) : PM P unit :=
  match t with
  | KBegin true n => writeSandeshBegin n | KBegin false n => writeStructBegin n
  | KEnd true => writeSandeshEnd | KEnd false => writeStructEnd
  | KField n type id a => writeFieldBegin n type id a | KFieldEnd => writeFieldEnd | KStop => writeFieldStop
  | KMap k v n => writeMapBegin k v n | KMapEnd => writeMapEnd
  | KList e n => writeListBegin e n | KListEnd => writeListEnd
  | KSet e n => writeSetBegin e n | KSetEnd => writeSetEnd
  | KElem => writeContainerElementBegin | KElemEnd => writeContainerElementEnd
  | KScalar s => write_scalar s
  end.

(** The read operation that goes with a token, whatever the variables held; the names are
    not looked at. *)
Definition read_scalar (ob : bool) (ou : str) (s : scalar) : PM P scalar :=
  match s with
  | SBool _ => map_ret SBool (readBool ob) | SByte _ => map_ret SByte readByte | SI16 _ => map_ret SI16 readI16
  | SI32 _ => map_ret SI32 readI32 | SI64 _ => map_ret SI64 readI64 | SU16 _ => map_ret SU16 readU16
  | SU32 _ => map_ret SU32 readU32 | SU64 _ => map_ret SU64 readU64 | SIPV4 _ => map_ret SIPV4 readIPV4
  | SIPADDR _ => map_ret SIPADDR readIPADDR | SDouble _ => map_ret SDouble readDouble
  | SString _ => map_ret SString readString | SBinary _ => map_ret SBinary readBinary
  | SXML _ => map_ret SXML readXML | SUUID _ => map_ret SUUID (readUUID ou)
  end.

Definition read_token (o1 o2 o3 : Z) (ob : bool) (ou : str) (t : token) : PM P token :=
  match t with
  | KBegin true _ => map_ret (λ _, KBegin true []) readSandeshBegin
  | KBegin false _ => map_ret (λ _, KBegin false []) readStructBegin
  | KEnd true => map_ret (λ _, KEnd true) readSandeshEnd | KEnd false => map_ret (λ _, KEnd false) readStructEnd
  | KField _ _ _ _ | KStop =>
      map_ret (λ x, if x.1.2 =? BP.T_STOP then KStop else KField [] x.1.2 x.2 []) (readFieldBegin o1 o2)
  | KFieldEnd => map_ret (λ _, KFieldEnd) readFieldEnd
  | KMap _ _ _ => map_ret (λ x, KMap x.1.1 x.1.2 x.2) (readMapBegin o1 o2 o3)
  | KMapEnd => map_ret (λ _, KMapEnd) readMapEnd
  | KList _ _ => map_ret (λ x, KList x.1 x.2) (readListBegin o1 o2) | KListEnd => map_ret (λ _, KListEnd) readListEnd
  | KSet _ _ => map_ret (λ x, KSet x.1 x.2) (readSetBegin o1 o2) | KSetEnd => map_ret (λ _, KSetEnd) readSetEnd
  | KElem => map_ret (λ _, KElem) readContainerElementBegin
  | KElemEnd => map_ret (λ _, KElemEnd) readContainerElementEnd
  | KScalar s => map_ret KScalar (read_scalar ob ou s)
  end.

End Code.

Definition erase (t : token) : token :=
  match t with KBegin b _ => KBegin b [] | KField _ type id _ => KField [] type id [] | t => t end.

(** ** Streams of tokens *)

(** What is open: structs and, with [true], fields, with their names. *)
Definition stack : Type := list (bool * str).

Definition after (st : stack) (t : token) : stack :=
  match t with
  | KBegin _ n => (false, n) :: st | KField n _ _ _ => (true, n) :: st
  | KEnd _ | KFieldEnd => tail st
  | _ => st
  end.
Definition after_all (st : stack) (ts : list token) : stack := foldl after st ts.

(** The end of a struct closes a struct, that of a field a field. *)
Definition closes (st : stack) (t : token) : Prop :=
  match t with
  | KEnd _ => ∃ n st', st = (false, n) :: st' | KFieldEnd => ∃ n st', st = (true, n) :: st' | _ => True end.
Fixpoint nested (st : stack) (ts : list token) : Prop :=
  match ts with [] => True | t :: ts => closes st t ∧ nested (after st t) ts end.

(** A scalar is followed by the end of its field or element, the stop by the end of the
    struct. *)
Definition adjacent (last : option token) (t : token) : Prop :=
  match last with
  | Some (KScalar _) => t = KFieldEnd ∨ t = KElemEnd
  | Some KStop => ∃ b, t = KEnd b
  | _ => True
  end.
(** Tokens that can stand between any others *)
Definition calm (o : option token) : Prop := match o with Some (KScalar _) | Some KStop => False | _ => True end.
Fixpoint chain (last : option token) (ts : list token) : Prop :=
  match ts with
  | [] => match last with Some (KScalar _) | Some KStop => False | _ => True end
  | t :: ts => adjacent last t ∧ chain (Some t) ts
  end.
Definition last_of (o : option token) (ts : list token) : option token := foldl (λ _ t, Some t) o ts.

Definition len (l : list Z) : Z := Z.of_nat (length l).

(** ** What a protocol promises

    [encode st t]: the bytes of a token where [st] is open.  [wstate p st]: [p] may be
    written to and [st] is open.  [rstate p last bs]: [p] is about to read [bs], after the
    token [last]. *)
Class ProtocolLaws (P : Type) `{!Protocol P} := {
  token_ok : token → Prop;
  name_ok : str → Prop;
  encode : stack → token → list Z;
  readable : list Z → Prop;
  wstate : P → stack → Prop;
  written : P → list Z;
  wroom : P → Z → Prop;
  rstate : P → option token → list Z → Prop;
  token_name t n : token_ok t → (∃ b, t = KBegin b n) ∨ (∃ k i a, t = KField n k i a) → name_ok n;
  room_law p m n : 0 ≤ m ≤ n → wroom p n → wroom p m;
  write_token_law p st t : wstate p st → token_ok t → closes st t → wroom p (len (encode st t)) →
    ∃ n p', write_token t p = Ret (BP.Ok n tt, p') ∧ 0 ≤ n ≤ len (encode st t) ∧ wstate p' (after st t) ∧
      written p' = written p ++ encode st t ∧ ∀ k, 0 ≤ k → wroom p (len (encode st t) + k) → wroom p' k;
  start_law p : wstate p [] → readable (written p) → rstate p None (written p);
  read_token_law p last st t ts bs rest o1 o2 o3 ob ou : token_ok t → Forall (λ x, name_ok x.2) st →
    closes st t → chain last (t :: ts) → rstate p last (encode st t ++ bs) →
    match ts with [] => True | t2 :: _ => closes (after st t) t2 ∧ bs = encode (after st t) t2 ++ rest end →
    ∃ n p', read_token o1 o2 o3 ob ou t p = Ret (BP.Ok n (erase t), p') ∧ 0 ≤ n ≤ len (encode st t) ∧
      rstate p' (Some t) bs;
}.

Section Streams.
Context {P : Type} `{!Protocol P, !ProtocolLaws P}.

Fixpoint encode_all (st : stack) (ts : list token) : list Z :=
  match ts with [] => [] | t :: ts => encode st t ++ encode_all (after st t) ts end.

Lemma tok_len_app l1 l2 : len (l1 ++ l2) = len l1 + len l2.
Proof. unfold len. rewrite length_app. lia. Qed.
Lemma tok_len_pos l : 0 ≤ len l.
Proof. unfold len. lia. Qed.

Lemma encode_all_app st ts1 ts2 : encode_all st (ts1 ++ ts2) = encode_all st ts1 ++ encode_all (after_all st ts1) ts2.
Proof. revert st. induction ts1 as [|t ts1 IH]; intros st; [done|]. cbn. by rewrite IH, app_assoc. Qed.
Lemma after_all_app st ts1 ts2 : after_all st (ts1 ++ ts2) = after_all (after_all st ts1) ts2.
Proof. apply foldl_app. Qed.
Lemma last_of_app o ts1 ts2 : last_of o (ts1 ++ ts2) = last_of (last_of o ts1) ts2.
Proof. apply foldl_app. Qed.
Lemma nested_app st ts1 ts2 : nested st (ts1 ++ ts2) ↔ nested st ts1 ∧ nested (after_all st ts1) ts2.
Proof. revert st. induction ts1 as [|t ts1 IH]; intros st; cbn; [tauto|]. rewrite IH. tauto. Qed.
Lemma chain_app o ts1 ts2 : chain o (ts1 ++ ts2) → chain (last_of o ts1) ts2.
Proof. revert o. induction ts1 as [|t ts1 IH]; intros o; cbn; [done|]. intros [_ ?]. by apply IH. Qed.

(** [m] writes the tokens [ts]. *)
Definition writes (m : PM P unit) (ts : list token) : Prop :=
  ∀ p st, wstate p st → Forall token_ok ts → nested st ts → len (encode_all st ts) < 2 ^ 31 →
    wroom p (len (encode_all st ts)) →
    ∃ n p', m p = Ret (BP.Ok n tt, p') ∧ 0 ≤ n ≤ len (encode_all st ts) ∧ wstate p' (after_all st ts) ∧
      written p' = written p ++ encode_all st ts ∧ ∀ k, 0 ≤ k → wroom p (len (encode_all st ts) + k) → wroom p' k.

(** [m] reads the tokens [ts] off a stream and gives [a]. *)
Definition reads {A} (m : PM P A) (ts : list token) (a : A) : Prop :=
  ∀ p last st tl rest, Forall token_ok ts → Forall (λ x, name_ok x.2) st → nested st (ts ++ tl) →
    chain last (ts ++ tl) → len (encode_all st ts) < 2 ^ 31 →
    rstate p last (encode_all st (ts ++ tl) ++ rest) →
    ∃ n p', m p = Ret (BP.Ok n a, p') ∧ 0 ≤ n ≤ len (encode_all st ts) ∧
      rstate p' (last_of last ts) (encode_all (after_all st ts) tl ++ rest).

Lemma tok_s32_small v : 0 ≤ v < 2 ^ 31 → s32 v = v.
Proof. intros. unfold swrap. rewrite Z.mod_small by lia. lia. Qed.

Lemma names_after st ts : Forall token_ok ts → Forall (λ x, name_ok x.2) st → Forall (λ x, name_ok x.2) (after_all st ts).
Proof.
  intros Hts. revert st. induction Hts as [|t ts Ht _ IH]; intros st Hst; [done|]. cbn. apply IH.
  assert (Htl : Forall (λ x : bool * str, name_ok x.2) (tail st)) by (destruct Hst; [constructor|done]).
  destruct t; cbn; try done; constructor; try done; apply (token_name _ _ Ht); eauto.
Qed.

Lemma writes_token t : writes (write_token t) [t].
Proof.
  intros p st Hw Ht [Hn _] Hl Hr. cbn in *. rewrite app_nil_r in *. apply Forall_cons in Ht as [Ht _].
  by apply write_token_law.
Qed.

Lemma tok_writes_ret : writes (ret tt) [].
Proof. intros p st Hw _ _ _ _. exists 0, p. cbn. rewrite app_nil_r. split_and!; done || lia. Qed.

Lemma tok_bind_ok {A B} (m : PM P A) (f : A → PM P B) p p1 p2 n k a b : m p = Ret (BP.Ok n a, p1) →
  f a p1 = Ret (BP.Ok k b, p2) → 0 ≤ n → 0 ≤ k → n + k < 2 ^ 31 → bind m f p = Ret (BP.Ok (n + k) b, p2).
Proof.
  intros E1 E2 ???. unfold bind. rewrite E1. cbn [mbind outcome_mbind]. rewrite (proj2 (Z.ltb_ge _ _)), E2 by done.
  cbn [mbind outcome_mbind]. by rewrite tok_s32_small by lia.
Qed.

Lemma tok_writes_bind (m1 m2 : PM P unit) ts1 ts2 : writes m1 ts1 → writes m2 ts2 → writes (bind m1 (λ _, m2)) (ts1 ++ ts2).
Proof.
  intros H1 H2 p st Hw [Ht1 Ht2]%Forall_app [Hn1 Hn2]%nested_app Hl Hr.
  rewrite encode_all_app, tok_len_app in *. set (b1 := encode_all st ts1) in *.
  set (b2 := encode_all _ ts2) in *. pose proof (tok_len_pos b1). pose proof (tok_len_pos b2).
  destruct (H1 p st Hw Ht1 Hn1) as (n & p1 & E1 & B1 & W1 & C1 & R1); [fold b1; lia|eapply room_law; [|exact Hr]; fold b1; lia|].
  destruct (H2 p1 _ W1 Ht2 Hn2) as (k & p2 & E2 & B2 & W2 & C2 & R2); [fold b2; lia|by apply R1|].
  fold b1 b2 in B1, B2, C1, C2, R1, R2.
  exists (n + k), p2. split_and!; [by apply (tok_bind_ok _ _ _ _ _ _ _ _ _ E1 E2); lia|lia|lia|by rewrite after_all_app| |].
  - by rewrite C2, C1, app_assoc.
  - intros j Hj Hrj. apply R2; [done|]. apply R1; [lia|]. by rewrite Z.add_assoc.
Qed.

(** An operation whose first token is [t] *)
Lemma writes_cons t m ts : writes m ts → writes (bind (write_token t) (λ _, m)) (t :: ts).
Proof. intros. apply (tok_writes_bind _ _ [t] ts (writes_token t)). done. Qed.

Lemma tok_reads_ret {A} (a : A) : reads (ret a) [] a.
Proof. intros p last st tl rest _ _ _ _ _ Hr. exists 0, p. cbn. split_and!; done || lia. Qed.

Lemma tok_reads_bind {A B} (m : PM P A) (f : A → PM P B) ts1 ts2 a b : reads m ts1 a → reads (f a) ts2 b →
  reads (bind m f) (ts1 ++ ts2) b.
Proof.
  intros H1 H2 p last st tl rest [Ht1 Ht2]%Forall_app Hst Hn Hc Hl Hr. rewrite <- app_assoc in *.
  rewrite encode_all_app, tok_len_app in Hl. set (b1 := encode_all st ts1) in *.
  set (b2 := encode_all _ ts2) in *. pose proof (tok_len_pos b1). pose proof (tok_len_pos b2).
  destruct (H1 p last st (ts2 ++ tl) rest) as (n & p1 & E1 & B1 & R1); [done..|fold b1; lia|done|].
  destruct (H2 p1 (last_of last ts1) (after_all st ts1) tl rest Ht2 (names_after _ _ Ht1 Hst)) as (k & p2 & E2 & B2 & R2);
    [by apply nested_app in Hn as [_ ?]|by apply chain_app in Hc|fold b2; lia|done|].
  fold b1 b2 in B1, B2. exists (n + k), p2. split_and!; [by apply (tok_bind_ok _ _ _ _ _ _ _ _ _ E1 E2); lia|lia| |].
  - rewrite encode_all_app, tok_len_app. fold b1 b2. lia.
  - by rewrite last_of_app, after_all_app.
Qed.

Lemma tok_reads_last {A B} (m : PM P A) (f : A → B) ts a : reads m ts a → reads (bind m (λ x, ret (f x))) ts (f a).
Proof. intros H. rewrite <- (app_nil_r ts). eapply tok_reads_bind; [exact H|apply tok_reads_ret]. Qed.

Lemma tok_reads_map {A B} (f : A → B) m ts a : reads m ts a → reads (map_ret f m) ts (f a).
Proof.
  intros H p last st tl rest H1 H2 H3 H4 H5 H6. destruct (H p last st tl rest H1 H2 H3 H4 H5 H6) as (n & p' & E & ?).
  exists n, p'. split; [|done]. unfold map_ret. by rewrite E.
Qed.

(** The read operation of a token, seen through the function [f] that tells what it read. *)
Lemma reads_op {A} (m : PM P A) (f : A → token) t (Q : A → Prop) o1 o2 o3 ob ou :
  (∀ p, read_token o1 o2 o3 ob ou t p = map_ret f m p) → (∀ a, f a = erase t → Q a) →
  ∀ p last st tl rest, token_ok t → Forall (λ x, name_ok x.2) st → nested st (t :: tl) → chain last (t :: tl) →
    rstate p last (encode_all st (t :: tl) ++ rest) →
    ∃ n p' a, m p = Ret (BP.Ok n a, p') ∧ Q a ∧ 0 ≤ n ≤ len (encode st t) ∧
      rstate p' (Some t) (encode_all (after st t) tl ++ rest).
Proof.
  intros Em HQ p last st tl rest Ht Hst [Hc Hn] Hch Hr. cbn [encode_all] in Hr. rewrite <- app_assoc in Hr.
  destruct (read_token_law p last st t tl (encode_all (after st t) tl ++ rest)
    (match tl with [] => [] | t2 :: tl => encode_all (after (after st t) t2) tl ++ rest end) o1 o2 o3 ob ou)
    as (n & p' & E & B & R); try done.
  { destruct tl as [|t2 tl]; [done|]. destruct Hn as [? ?]. split; [done|]. cbn. by rewrite app_assoc. }
  rewrite Em in E. unfold map_ret in E. destruct (m p) as [[[code|k a|] q]|] eqn:Em2; cbn in E; try discriminate.
  injection E as <- Ea <-. exists k, q, a. split; [done|]. split; [by apply HQ|done].
Qed.

(** ... when the token says all there is to read *)
Lemma reads_token {A} (m : PM P A) (f : A → token) t a o1 o2 o3 ob ou :
  (∀ p, read_token o1 o2 o3 ob ou t p = map_ret f m p) → (∀ b, f b = erase t → b = a) → reads m [t] a.
Proof.
  intros Em Hf p last st tl rest [Ht _]%Forall_cons Hst Hn Hc Hl Hr.
  destruct (reads_op m f t (λ b, b = a) o1 o2 o3 ob ou Em Hf p last st tl rest) as (n & p' & b & E & -> & B & R); try done.
  exists n, p'. split; [done|]. split; [|done]. cbn [encode_all]. by rewrite app_nil_r.
Qed.

(** The operation [m] reads the token [t], then the rest reads [ts]. *)
Lemma reads_cons {A B} (m : PM P A) (f : A → token) t ts (g : A → PM P B) b o1 o2 o3 ob ou :
  (∀ p, read_token o1 o2 o3 ob ou t p = map_ret f m p) → (∀ a, f a = erase t → reads (g a) ts b) →
  reads (bind m g) (t :: ts) b.
Proof.
  intros Em Hg p last st tl rest Hts Hst Hn Hc Hl Hr. pose proof Hts as [Ht Hts']%Forall_cons.
  destruct (reads_op m f t (λ a, reads (g a) ts b) o1 o2 o3 ob ou Em Hg p last st (ts ++ tl) rest)
    as (n & p1 & a & E1 & Ha & B1 & R1); try done.
  cbn [encode_all] in Hl |- *. rewrite tok_len_app in Hl |- *. set (b1 := encode st t) in *. set (b2 := encode_all _ ts) in *.
  pose proof (tok_len_pos b1). pose proof (tok_len_pos b2).
  destruct (Ha p1 (Some t) (after st t) tl rest Hts') as (k & p2 & E2 & B2 & R2).
  - by apply (names_after st [t]); [constructor|].
  - by destruct Hn.
  - by destruct Hc.
  - fold b2. lia.
  - done.
  - exists (n + k), p2. fold b2 in B2. split_and!; [by apply (tok_bind_ok _ _ _ _ _ _ _ _ _ E1 E2); lia|lia|lia|done].
Qed.

Lemma map_ret_map {A B C} (f : A → B) (g : B → C) (m : PM P A) p : map_ret g (map_ret f m) p = map_ret (g ∘ f) m p.
Proof. unfold map_ret. by destruct (m p) as [[[] ?]|]. Qed.

End Streams.

End GC.
