(* ===== verification/GeneratedThms.v ===== *)
(** * The code of the Sandesh compiler reads what it writes

    The calls that the generated code makes for an object, as tokens; that these are what
    [write] writes and [read] reads, for every protocol that keeps the laws of
    [Generated]; and that the object comes back. *)

From Stdlib Require Import Sorted.
From stdpp Require Import list.
From S2P Require Import Prelude Transport BinaryProtocol Generated.
Open Scope Z_scope.

Module GT.
Import GC.

(** ** The tokens of a value *)

Definition scalar_of (b : base) (v : value) : option scalar :=
  match b, v with
  | (TYPE_STRING true | TYPE_STATIC_CONST_STRING true), VStr l => Some (SBinary l)
  | (TYPE_STRING false | TYPE_STATIC_CONST_STRING false), VStr l => Some (SString l)
  | TYPE_XML, VStr l => Some (SXML l) | TYPE_UUID, VUuid l => Some (SUUID l)
  | TYPE_BOOL, VBool b => Some (SBool b) | TYPE_BYTE, VNum z => Some (SByte z)
  | TYPE_I16, VNum z => Some (SI16 z) | TYPE_I32, VNum z => Some (SI32 z) | TYPE_I64, VNum z => Some (SI64 z)
  | TYPE_U16, VNum z => Some (SU16 z) | TYPE_U32, VNum z => Some (SU32 z) | TYPE_U64, VNum z => Some (SU64 z)
  | TYPE_IPV4, VNum z => Some (SIPV4 z) | TYPE_IPADDR, VAddr a => Some (SIPADDR a)
  | TYPE_DOUBLE, VNum z => Some (SDouble z)
  | _, _ => None
  end.

Definition element_tokens (t : t_type) (ts : list token) : list token :=
  if is_base_or_enum t then KElem :: ts ++ [KElemEnd] else ts.

(** Whether a member is written *)
Definition present (f : t_field) (isset : bool) : bool := negb (bool_decide (get_req f = T_OPTIONAL) && negb isset).

Fixpoint member_tokens (sandesh : bool) (tbl : str) (ws : list (t_field * Z * (value → list token))) (ms : list (bool * value)) :
    list token :=
  match ws, ms with
  | (f, type, w) :: ws, (isset, x) :: ms =>
      (if present f isset then KField (get_name f) type (get_key f) (written_annotations sandesh tbl f) :: w x ++ [KFieldEnd] else []) ++
      member_tokens sandesh tbl ws ms
  | _, _ => []
  end.

Definition struct_tokens (sandesh : bool) (name : str) (ws : list (t_field * Z * (value → list token)))
    (tbl : str) (ms : list (bool * value)) : list token :=
  KBegin sandesh name :: member_tokens sandesh tbl ws ms ++ [KStop; KEnd sandesh].

Fixpoint tokens (t : t_type) (v : value) : list token :=
  match t, v with
  | t_typedef t, _ => tokens t v
  | t_base_type b, _ => match scalar_of b v with Some s => [KScalar s] | None => [] end
  | t_enum, VNum z => [KScalar (SI32 z)]
  | t_struct name members, VStruct tbl ms =>
      struct_tokens false name (map (λ m, (m.1, type_to_enum m.2, tokens m.2)) members) tbl ms
  | t_list e, VList vs =>
      KList (type_to_enum e) (Z.of_nat (length vs)) :: concat (map (λ x, element_tokens e (tokens e x)) vs) ++ [KListEnd]
  | t_set e, VSet vs =>
      KSet (type_to_enum e) (Z.of_nat (length vs)) :: concat (map (λ x, element_tokens e (tokens e x)) vs) ++ [KSetEnd]
  | t_map k w, VMap ps =>
      KMap (type_to_enum k) (type_to_enum w) (Z.of_nat (length ps)) ::
      concat (map (λ x, element_tokens k (tokens k x.1) ++ element_tokens w (tokens w x.2)) ps) ++ [KMapEnd]
  | _, _ => []
  end.

Definition object_tokens (sandesh : bool) (name : str) (members : list (t_field * t_type)) (v : value) : list token :=
  match v with
  | VStruct tbl ms => struct_tokens sandesh name (map (λ m, (m.1, type_to_enum m.2, tokens m.2)) members) tbl ms
  | _ => []
  end.

(** ** Values of a type *)

(** The elements of a container do not hide a base type behind a typedef. *)
Fixpoint true_type (t : t_type) : t_type := match t with t_typedef t => true_type t | t => t end.
Definition plain (t : t_type) : Prop := is_base_or_enum (true_type t) = is_base_or_enum t.

Fixpoint members_ok (ts : list (value → Prop)) (ms : list (bool * value)) : Prop :=
  match ts, ms with
  | [], [] => True | ok :: ts, (_, x) :: ms => ok x ∧ members_ok ts ms | _, _ => False end.

(** A struct with a table has it set. *)
Definition tabled (members : list (t_field * t_type)) (tbl : str) : Prop := Forall (λ m, table_missing false tbl m.1 = false) members.

Fixpoint typed (t : t_type) (v : value) : Prop :=
  match t, v with
  | t_typedef t, _ => typed t v
  | t_base_type b, _ => is_Some (scalar_of b v)
  | t_enum, VNum _ => True
  | t_struct _ members, VStruct tbl ms =>
      NoDup (get_key <$> members.*1) ∧ tabled members tbl ∧ members_ok (map (λ m, typed m.2) members) ms
  | t_list e, VList vs | t_set e, VSet vs => plain e ∧ Z.of_nat (length vs) < 2 ^ 32 ∧ Forall (typed e) vs
  | t_map k w, VMap ps =>
      plain k ∧ plain w ∧ Z.of_nat (length ps) < 2 ^ 32 ∧ Forall (λ p, typed k p.1 ∧ typed w p.2) ps
  | _, _ => False
  end.

(** The members of the structs of a value are those of the type. *)
Fixpoint shaped (t : t_type) (v : value) : Prop :=
  match t with
  | t_typedef t => shaped t v
  | t_struct _ members => match v with VStruct _ ms => members_ok (map (λ m, shaped m.2) members) ms | _ => False end
  | _ => True
  end.

(** The longest list of members *)
Fixpoint width (t : t_type) : nat :=
  match t with
  | t_typedef t | t_list t | t_set t => width t
  | t_map k w => width k `max` width w
  | t_struct _ members => length members `max` foldr (λ m n, width m.2 `max` n) 0 members
  | _ => 0
  end%nat.

Lemma t_type_nested_ind (Q : t_type → Prop) (Hb : ∀ b, Q (t_base_type b)) (He : Q t_enum) (Ht : ∀ t, Q t → Q (t_typedef t))
  (Hs : ∀ n ms, Forall (λ m, Q m.2) ms → Q (t_struct n ms)) (Hl : ∀ t, Q t → Q (t_list t)) (Hset : ∀ t, Q t → Q (t_set t))
  (Hm : ∀ k w, Q k → Q w → Q (t_map k w)) : ∀ t, Q t.
Proof.
  fix IH 1. intros [b| |t|n ms|t|t|k w]; [apply Hb|apply He|apply Ht, IH|apply Hs|apply Hl, IH|apply Hset, IH|apply Hm; apply IH].
  induction ms as [|[f t] ms IHms]; constructor; [apply IH|apply IHms].
Qed.

(** ** What is read

    The object [start] after the encoding of [v] was read into it: members that are not
    present keep what they hold. *)
Section Merge.
Context (less : value → value → bool).

Fixpoint merge_members (fs : list (t_field * (value → value → value))) (ss ms : list (bool * value)) : list (bool * value) :=
  match fs, ss, ms with
  | (f, mg) :: fs, (sset, s) :: ss, (isset, x) :: ms =>
      (if present f isset then (if bool_decide (get_req f = T_REQUIRED) then sset else true, mg s x) else (sset, s)) ::
      merge_members fs ss ms
  | _, _, _ => []
  end.

Fixpoint merged (t : t_type) (start v : value) : value :=
  match t, start, v with
  | t_typedef t, _, _ => merged t start v
  | t_struct _ members, VStruct tbl ss, VStruct _ ms => VStruct tbl (merge_members (map (λ m, (m.1, merged m.2)) members) ss ms)
  | t_list e, _, VList vs => VList (map (merged e (default_value e)) vs)
  | t_set e, _, VSet vs => VSet (foldl (λ l x, set_insert less (merged e (default_value e) x) l) [] vs)
  | t_map k w, _, VMap ps =>
      VMap (foldl (λ l p, let key := merged k (default_value k) p.1 in
        map_assign less key (merged w (map_at less key (default_value w) l) p.2) l) [] ps)
  | _, _, _ => v
  end.

Lemma default_shaped t : shaped t (default_value t).
Proof.
  induction t as [b| |t IH|n ms IH|t IH|t IH|k w IHk IHw] using t_type_nested_ind; cbn; try done.
  induction IH as [|[f t] ms Ht _ IHms]; cbn; [done|by split].
Qed.

Lemma map_at_shaped t key l : Forall (λ p, shaped t p.2) l → shaped t (map_at less key (default_value t) l).
Proof.
  induction 1 as [|[k x] l Hx _ IH]; cbn; [apply default_shaped|].
  destruct (less key k); [apply default_shaped|]. by destruct (less k key).
Qed.

Lemma map_assign_shaped t key x l : shaped t x → Forall (λ p, shaped t p.2) l →
  Forall (λ p, shaped t p.2) (map_assign less key x l).
Proof.
  intros Hx Hl. induction Hl as [|[k y] l Hy Hl IH]; cbn; [by repeat constructor|].
  destruct (less key k); [repeat constructor; done|]. destruct (less k key); constructor; done.
Qed.

Lemma merged_shaped t start v : shaped t start → typed t v → shaped t (merged t start v).
Proof.
  revert start v. induction t as [b| |t IH|n ms IH|t IH|t IH|k w IHk IHw] using t_type_nested_ind; intros start v Hs Ht;
    cbn in *; try done; [by apply IH|].
  destruct start as [| | | | |tb ss| | |]; try done. destruct v as [| | | | |tbl vs| | |]; try done. destruct Ht as (_ & _ & Ht).
  revert ss vs Hs Ht. induction IH as [|[f t] ms IH1 _ IHms]; cbn; intros [|[sb s] ss] [|[vb v] vs] Hs Ht; try done.
  destruct Hs as [Hs1 Hs], Ht as [Ht1 Ht]. destruct (present f vb); split; auto.
Qed.

End Merge.

Lemma width_member (ms : list (t_field * t_type)) n m : m ∈ ms → (width m.2 ≤ width (t_struct n ms))%nat.
Proof. cbn. induction 1 as [m ms|m m' ms _ IH]; cbn; lia. Qed.

Section Roundtrip.
Context {P : Type} `{!Protocol P, !ProtocolLaws P} (uninit : Z) (less : value → value → bool) (resize_ok : Z → bool).
Context (Hmem : ∀ n, resize_ok n = true).

Lemma serialize_base_tokens b v s : scalar_of b v = Some s → serialize_base b v = write_scalar (P := P) s.
Proof. destruct b as [[]|[]| | | | | | | | | | | | |], v; cbn; intros [= <-]; done. Qed.

Lemma writes_each {A} (w : A → PM P unit) (tk : A → list token) l fin ts : Forall (λ x, writes (w x) (tk x)) l →
  writes fin ts → writes (write_each w l fin) (concat (map tk l) ++ ts).
Proof.
  intros Hl Hf. induction Hl as [|x l Hx _ IH]; cbn; [done|]. rewrite <- app_assoc. by apply tok_writes_bind.
Qed.

Lemma writes_element t m ts : writes m ts → writes (serialize_element t m) (element_tokens t ts).
Proof.
  intros H. unfold serialize_element, element_tokens. destruct (is_base_or_enum t); [|done].
  apply (writes_cons KElem). apply tok_writes_bind; [done|]. apply (writes_token KElemEnd).
Qed.

Lemma table_there sandesh members tbl : tabled members tbl → Forall (λ m, table_missing sandesh tbl m.1 = false) members.
Proof. intros H. destruct sandesh; [by apply Forall_true|done]. Qed.

Lemma writes_members sandesh tbl (members : list (t_field * t_type)) ms fin ts :
  Forall (λ m, ∀ v, typed m.2 v → writes (serialize_field (P := P) m.2 v) (tokens m.2 v)) members →
  tabled members tbl → members_ok (map (λ m, typed m.2) members) ms → writes fin ts →
  writes (write_members sandesh tbl (map (λ m, (m.1, type_to_enum m.2, serialize_field m.2)) members) ms fin)
    (member_tokens sandesh tbl (map (λ m, (m.1, type_to_enum m.2, tokens m.2)) members) ms ++ ts).
Proof.
  intros IH Htb%(table_there sandesh) Hms Hf. revert ms Hms Htb.
  induction IH as [|[f t] members IH1 _ IHm]; intros [|[isset x] ms] Hms Htb; try done.
  cbn in *. apply Forall_cons in Htb as [Ht Htb]. cbn in Ht. destruct Hms as [Hx Hms]. unfold present.
  destruct (bool_decide (get_req f = T_OPTIONAL) && negb isset); cbn [negb]; [by apply IHm|]. rewrite Ht.
  cbn [app]. rewrite <- !app_assoc. apply (writes_cons (KField _ _ _ _)). apply tok_writes_bind; [by apply IH1|].
  apply (writes_cons KFieldEnd). by apply IHm.
Qed.

Lemma struct_writes sandesh name (members : list (t_field * t_type)) tbl ms :
  Forall (λ m, ∀ v, typed m.2 v → writes (serialize_field (P := P) m.2 v) (tokens m.2 v)) members →
  tabled members tbl → members_ok (map (λ m, typed m.2) members) ms →
  writes (struct_writer_body sandesh name (map (λ m, (m.1, type_to_enum m.2, serialize_field (P := P) m.2)) members) tbl ms)
    (struct_tokens sandesh name (map (λ m, (m.1, type_to_enum m.2, tokens m.2)) members) tbl ms).
Proof.
  intros IH Htb Hms. unfold struct_writer_body, struct_tokens.
  assert (Hend : writes (bind writeFieldStop (λ _, if sandesh then writeSandeshEnd else writeStructEnd)) [KStop; KEnd sandesh]).
  { apply (writes_cons KStop). destruct sandesh; [apply (writes_token (KEnd true))|apply (writes_token (KEnd false))]. }
  destruct sandesh; [apply (writes_cons (KBegin true name))|apply (writes_cons (KBegin false name))]; by apply writes_members.
Qed.

Lemma serialize_writes t v : typed t v → writes (serialize_field (P := P) t v) (tokens t v).
Proof.
  revert v. induction t as [b| |t IH|n ms IH|t IH|t IH|k w IHk IHw] using t_type_nested_ind; intros v Ht.
  - cbn in *. destruct Ht as [s Es]. rewrite Es, (serialize_base_tokens _ _ _ Es). apply (writes_token (KScalar s)).
  - destruct v; try done. apply (writes_token (KScalar (SI32 _))).
  - by apply IH.
  - destruct v; try done. destruct Ht as (_ & ? & ?). by apply struct_writes.
  - destruct v as [| | | | | |vs| |]; try done. destruct Ht as (_ & Hl & Hvs). cbn. rewrite (wrap_small 32) by lia.
    apply (writes_cons (KList _ _)), (writes_each _ (λ x, element_tokens t (tokens t x))); [|apply (writes_token KListEnd)].
    eapply Forall_impl; [exact Hvs|]. intros x Hx. by apply writes_element, IH.
  - destruct v as [| | | | | | |vs|]; try done. destruct Ht as (_ & Hl & Hvs). cbn. rewrite (wrap_small 32) by lia.
    apply (writes_cons (KSet _ _)), (writes_each _ (λ x, element_tokens t (tokens t x))); [|apply (writes_token KSetEnd)].
    eapply Forall_impl; [exact Hvs|]. intros x Hx. by apply writes_element, IH.
  - destruct v as [| | | | | | | |ps]; try done. destruct Ht as (_ & _ & Hl & Hps). cbn. rewrite (wrap_small 32) by lia.
    apply (writes_cons (KMap _ _ _)),
      (writes_each _ (λ x, element_tokens k (tokens k x.1) ++ element_tokens w (tokens w x.2))); [|apply (writes_token KMapEnd)].
    eapply Forall_impl; [exact Hps|]. intros x [Hx1 Hx2]. apply tok_writes_bind; by apply writes_element; auto.
Qed.

(** *** Reading *)

Lemma deserialize_base_reads b this v s : scalar_of b v = Some s → reads (deserialize_base (P := P) b this) [KScalar s] v.
Proof.
  set (ob := match this with VBool b => b | _ => false end). set (ou := match this with VUuid l => l | _ => [] end).
  destruct b as [[]|[]| | | | | | | | | | | | |], v; cbn; intros [= <-]; apply tok_reads_map;
    (eapply (reads_token _ _ _ _ 0 0 0 ob ou); [intros p; cbn [read_token read_scalar]; apply map_ret_map|]; by intros ? [= ->]).
Qed.

Lemma enum_reads z : reads (P := P) (map_ret VNum readI32) [KScalar (SI32 z)] (VNum z).
Proof.
  apply tok_reads_map. eapply (reads_token _ _ _ _ 0 0 0 false []); [intros p; cbn [read_token read_scalar]; apply map_ret_map|].
  by intros ? [= ->].
Qed.

(** An operation that reads a token without content, followed by [ret] *)
Lemma tok_reads_close {A} (m : PM P unit) t (a : A) : (∀ p, read_token 0 0 0 false [] t p = map_ret (λ _, erase t) m p) →
  reads (bind m (λ _, ret a)) [t] a.
Proof. intros Em. eapply (reads_cons _ _ _ _ _ _ 0 0 0 false []); [exact Em|]. intros _ _. apply tok_reads_ret. Qed.

Lemma reads_element {A} t (m : PM P A) ts a : reads m ts a → reads (deserialize_element t m) (element_tokens t ts) a.
Proof.
  intros H. unfold deserialize_element, element_tokens. destruct (is_base_or_enum t); [|done].
  eapply (reads_cons _ (λ _, KElem) _ _ _ _ 0 0 0 false []); [done|]. intros _ _.
  eapply tok_reads_bind; [exact H|]. by apply (tok_reads_close _ KElemEnd).
Qed.

Lemma reads_each {A B} (r : A → PM P A) (tk : B → list token) (stp : A → B → A) (I : A → Prop) l acc fin ts v :
  (∀ acc x, I acc → x ∈ l → reads (r acc) (tk x) (stp acc x) ∧ I (stp acc x)) → I acc →
  reads (fin (foldl stp acc l)) ts v → reads (read_each r (length l) acc fin) (concat (map tk l) ++ ts) v.
Proof.
  intros Hr HI Hf. revert acc HI Hf. induction l as [|x l IH]; intros acc HI Hf; cbn; [done|].
  destruct (Hr acc x HI) as [Hx HIx]; [set_solver|]. rewrite <- app_assoc. eapply tok_reads_bind; [exact Hx|].
  apply IH; [|done|done]. intros. apply Hr; [done|set_solver].
Qed.

Lemma foldl_snoc {A B} (f : A → B) acc l : foldl (λ l x, l ++ [f x]) acc l = acc ++ map f l.
Proof. revert acc. induction l as [|x l IH]; intros acc; cbn; [by rewrite app_nil_r|]. by rewrite IH, <- app_assoc. Qed.

(** The readers of the members *)
Definition readers (k : nat) (members : list (t_field * t_type)) : list (reader (P := P)) :=
  map (λ m, (m.1, type_to_enum m.2, deserialize_field uninit less resize_ok k m.2)) members.

Lemma find_reader k d f t r : NoDup (get_key <$> (d ++ (f, t) :: r).*1) →
  list_find (λ r, get_key r.1.1 = get_key f) (readers k (d ++ (f, t) :: r)) =
    Some (length d, (f, type_to_enum t, deserialize_field uninit less resize_ok k t)).
Proof.
  intros Hnd. unfold readers. rewrite map_app. cbn [map fst snd].
  induction d as [|[g u] d IH]; cbn [app map length].
  - cbn [list_find fst]. by rewrite decide_True by done.
  - cbn in Hnd. apply NoDup_cons in Hnd as [Hg Hnd]. cbn [list_find fst]. rewrite decide_False.
    + by rewrite IH.
    + cbn. intros Heq. apply Hg. rewrite Heq, !fmap_app. cbn. set_solver.
Qed.

(** The keys that the reader has seen *)
Fixpoint seen_after (members : list (t_field * t_type)) (ms : list (bool * value)) (seen : list Z) : list Z :=
  match members, ms with
  | m :: members, (isset, _) :: ms => seen_after members ms (if present m.1 isset then get_key m.1 :: seen else seen)
  | _, _ => seen
  end.

Lemma seen_mono members ms seen x : x ∈ seen → x ∈ seen_after members ms seen.
Proof.
  revert ms seen. induction members as [|m members IH]; intros [|[b v] ms] seen Hx; try done. cbn. apply IH.
  destruct (present m.1 b); set_solver.
Qed.

Lemma required_all_seen k all members ms seen : members_ok (map (λ m, typed m.2) members) ms →
  (∀ m, m ∈ all → m ∈ members ∨ get_key m.1 ∈ seen ∨ get_req m.1 ≠ T_REQUIRED) →
  required_seen (readers k all) (seen_after members ms seen) = true.
Proof.
  revert ms seen. induction members as [|[f t] members IH]; intros [|[b v] ms] seen Hok Hall; try done.
  - apply forallb_forall. intros r (m & <- & Hm)%in_map_iff. cbn. apply list_elem_of_In, Hall in Hm as [Hm|[Hm|Hm]].
    + set_solver.
    + apply orb_true_iff. right. by apply bool_decide_eq_true.
    + apply orb_true_iff. left. by rewrite bool_decide_eq_false_2.
  - cbn in Hok |- *. destruct Hok as [_ Hok]. apply IH; [done|]. intros m Hm. destruct (Hall m Hm) as [Hm'|[Hm'|Hm']].
    + apply elem_of_cons in Hm' as [->|Hm']; [|by left]. right. cbn. unfold present.
      destruct (decide (get_req f = T_REQUIRED)) as [Er|]; [|by right]. left. rewrite bool_decide_eq_false_2 by (by rewrite Er). cbn. set_solver.
    + right. left. destruct (present f b); set_solver.
    + by right; right.
Qed.

Lemma enum_not_stop t : type_to_enum t ≠ BP.T_STOP.
Proof. induction t as [[]| | | | | |]; done. Qed.

Lemma reads_fields_loop sandesh tbl d r k rounds ftype fid D sr mr seen fin ts v :
  NoDup (get_key <$> (d ++ r).*1) → length D = length d → (length r < rounds)%nat →
  Forall (λ m, ∀ start x, shaped m.2 start → typed m.2 x →
    reads (deserialize_field uninit less resize_ok k m.2 start) (tokens m.2 x) (merged less m.2 start x)) r →
  members_ok (map (λ m, shaped m.2) r) sr → members_ok (map (λ m, typed m.2) r) mr →
  reads (fin (D ++ merge_members (map (λ m, (m.1, merged less m.2)) r) sr mr) (seen_after r mr seen)) ts v →
  reads (read_fields uninit k (readers k (d ++ r)) rounds ftype fid (D ++ sr) seen fin)
    (member_tokens sandesh tbl (map (λ m, (m.1, type_to_enum m.2, tokens m.2)) r) mr ++ KStop :: ts) v.
Proof.
  intros Hnd Hd Hr IH. revert d D rounds ftype fid sr mr seen Hnd Hd Hr.
  induction IH as [|[f t] r IH1 _ IHr]; intros d D rounds ftype fid [|[sb s] sr] [|[mb x] mr] seen Hnd Hd Hr Hsr Hmr Hf; try done.
  { destruct rounds as [|rounds]; [cbn in Hr; lia|]. cbn [member_tokens map app read_fields merge_members].
    eapply (reads_cons _ _ KStop _ _ _ ftype fid 0 false []); [done|]. intros [[n ty] id] He. cbn in He |- *.
    destruct (Z.eqb_spec ty BP.T_STOP); [|done]. done. }
  destruct rounds as [|rounds]; [cbn in Hr; lia|]. cbn [map members_ok fst snd] in Hsr, Hmr. destruct Hsr as [Hs Hsr], Hmr as [Hx Hmr].
  cbn [map member_tokens merge_members seen_after fst snd] in Hf |- *.
  assert (Enx : d ++ (f, t) :: r = (d ++ [(f, t)]) ++ r) by (by rewrite <- app_assoc).
  destruct (present f mb) eqn:Ep.
  - cbn [app]. rewrite <- !app_assoc. cbn [read_fields app].
    eapply (reads_cons _ _ (KField _ _ _ _) _ _ _ ftype fid 0 false []); [done|]. intros [[n ty] id] He. cbn in He |- *.
    destruct (Z.eqb_spec ty BP.T_STOP); [done|]. injection He as -> ->.
    unfold read_member. rewrite (find_reader k d f t r Hnd), Z.eqb_refl, <- Hd, list_lookup_middle by done.
    eapply tok_reads_bind; [apply (tok_reads_last _ _ _ (merged less t s x)); by apply IH1|].
    cbn [fst snd]. eapply (reads_cons _ (λ _, KFieldEnd) _ _ _ _ 0 0 0 false []); [done|]. intros _ _.
    rewrite insert_app_r_alt, Nat.sub_diag by done. cbn [list_insert insert].
    rewrite (cons_middle _ D), (app_assoc D), Enx. apply IHr; try done.
    + by rewrite <- Enx.
    + rewrite !length_app. cbn. lia.
    + cbn in Hr. lia.
    + by rewrite <- app_assoc.
  - cbn [app]. rewrite (cons_middle _ D), (app_assoc D), Enx. apply IHr; try done.
    + by rewrite <- Enx.
    + rewrite !length_app. cbn. lia.
    + cbn in Hr. lia.
    + by rewrite <- app_assoc.
Qed.

Lemma struct_reads k sandesh name members tb tbl ss ms :
  NoDup (get_key <$> members.*1) → (length members < k)%nat →
  Forall (λ m, ∀ start x, shaped m.2 start → typed m.2 x →
    reads (deserialize_field uninit less resize_ok k m.2 start) (tokens m.2 x) (merged less m.2 start x)) members →
  members_ok (map (λ m, shaped m.2) members) ss → members_ok (map (λ m, typed m.2) members) ms →
  reads (struct_reader_body uninit k sandesh (readers k members) tb ss)
    (struct_tokens sandesh name (map (λ m, (m.1, type_to_enum m.2, tokens m.2)) members) tbl ms)
    (VStruct tb (merge_members (map (λ m, (m.1, merged less m.2)) members) ss ms)).
Proof.
  intros Hnd Hk IH Hss Hms. unfold struct_reader_body, struct_tokens.
  set (fin := λ (ms : list (bool * value)) (seen : list Z), bind (if sandesh then readSandeshEnd else readStructEnd)
    (λ _, if required_seen (readers k members) seen then ret (VStruct tb ms) else err (-1))).
  assert (Hfin : ∀ l, reads (fin l (seen_after members ms [])) [KEnd sandesh] (VStruct tb l)).
  { intros l. unfold fin. rewrite (required_all_seen k members) by (done || by left). by destruct sandesh; apply tok_reads_close. }
  assert (Hloop := reads_fields_loop sandesh tbl [] members k k uninit uninit [] ss ms [] fin [KEnd sandesh] _ Hnd eq_refl Hk IH Hss Hms (Hfin _)).
  cbn [app] in Hloop. by destruct sandesh; (eapply (reads_cons _ (λ _, KBegin _ []) _ _ _ _ 0 0 0 false []); [done|]; intros _ _).
Qed.

Lemma resize_reads n : reads (resize (P := P) resize_ok n) [] tt.
Proof using Hmem. unfold resize. intros p. rewrite Hmem. by apply tok_reads_ret. Qed.

Lemma deserialize_reads k t start v : (width t < k)%nat → shaped t start → typed t v →
  reads (deserialize_field uninit less resize_ok k t start) (tokens t v) (merged less t start v).
Proof.
  revert start v. induction t as [b| |t IH|n ms IH|t IH|t IH|key w IHk IHw] using t_type_nested_ind; intros start v Hk Hs Ht.
  - cbn in *. destruct Ht as [s Es]. rewrite Es. by apply deserialize_base_reads.
  - destruct v; try done. apply enum_reads.
  - by apply IH.
  - destruct start as [| | | | |tb ss| | |]; try done. destruct v as [| | | | |tbl vs| | |]; try done. destruct Ht as (Hnd & _ & Ht).
    apply struct_reads; try done; [cbn in Hk; lia|]. apply Forall_forall. intros m Hm st x Hst Hx.
    rewrite Forall_forall in IH. apply IH; try done. pose proof (width_member ms n m Hm). lia.
  - destruct v as [| | | | | |vs| |]; try done. destruct Ht as (_ & Hl & Hvs). cbn [tokens deserialize_field].
    eapply (reads_cons _ _ (KList _ _) _ _ _ uninit uninit 0 false []); [done|]. intros [e n] [= -> ->].
    cbn [fst snd]. apply (tok_reads_bind _ _ [] _ tt); [by apply resize_reads|]. rewrite Nat2Z.id.
    apply (reads_each _ (λ x, element_tokens t (tokens t x)) (λ l x, l ++ [merged less t (default_value t) x]) (λ _, True)); [|done|].
    + intros acc x _ Hx. rewrite Forall_forall in Hvs. split; [|done]. apply (tok_reads_last _ (λ x, acc ++ [x])), reads_element, IH; auto using default_shaped.
    + rewrite foldl_snoc. by apply (tok_reads_close _ KListEnd).
  - destruct v as [| | | | | | |vs|]; try done. destruct Ht as (_ & Hl & Hvs). cbn [tokens deserialize_field].
    eapply (reads_cons _ _ (KSet _ _) _ _ _ uninit uninit 0 false []); [done|]. intros [e n] [= -> ->].
    cbn [fst snd]. rewrite Nat2Z.id.
    apply (reads_each _ (λ x, element_tokens t (tokens t x)) (λ l x, set_insert less (merged less t (default_value t) x) l) (λ _, True)); [|done|].
    + intros acc x _ Hx. rewrite Forall_forall in Hvs. split; [|done]. apply (tok_reads_last _ (λ x, set_insert less x acc)), reads_element, IH; auto using default_shaped.
    + by apply (tok_reads_close _ KSetEnd).
  - destruct v as [| | | | | | | |ps]; try done. destruct Ht as (_ & _ & Hl & Hps). cbn [tokens deserialize_field].
    eapply (reads_cons _ _ (KMap _ _ _) _ _ _ uninit uninit uninit false []); [done|]. intros [[e1 e2] n] [= -> -> ->].
    cbn [fst snd]. rewrite Nat2Z.id. cbn in Hk.
    apply (reads_each _ (λ x, element_tokens key (tokens key x.1) ++ element_tokens w (tokens w x.2))
      (λ l p, let y := merged less key (default_value key) p.1 in
        map_assign less y (merged less w (map_at less y (default_value w) l) p.2) l) (Forall (λ p, shaped w p.2))); [|done|].
    + intros acc x HI Hx. rewrite Forall_forall in Hps. destruct (Hps x Hx) as [Hx1 Hx2]. split.
      * eapply tok_reads_bind; [apply reads_element, IHk; auto using default_shaped; lia|].
        apply (tok_reads_last _ (λ x, map_assign less _ x acc)), reads_element, IHw; [lia|by apply map_at_shaped|done].
      * apply map_assign_shaped; [|done]. apply merged_shaped; [by apply map_at_shaped|done].
    + by apply (tok_reads_close _ KMapEnd).
Qed.

End Roundtrip.

(** *** The streams of values are well formed *)

Lemma nested_concat {A} (tk : A → list token) l : Forall (λ x, ∀ st, nested st (tk x) ∧ after_all st (tk x) = st) l →
  ∀ st, nested st (concat (map tk l)) ∧ after_all st (concat (map tk l)) = st.
Proof.
  induction 1 as [|x l Hx _ IH]; intros st; cbn; [done|]. rewrite nested_app, after_all_app. destruct (Hx st) as [? ->]. destruct (IH st). done.
Qed.

Lemma nested_element t ts : (∀ st, nested st ts ∧ after_all st ts = st) →
  ∀ st, nested st (element_tokens t ts) ∧ after_all st (element_tokens t ts) = st.
Proof.
  intros H st. unfold element_tokens. destruct (is_base_or_enum t); [|done]. destruct (H st) as [Hn Ha].
  cbn [nested closes after]. change (after_all st (KElem :: ts ++ [KElemEnd])) with (after_all st (ts ++ [KElemEnd])).
  rewrite nested_app, after_all_app, Ha. cbn. done.
Qed.

Lemma nested_struct sandesh name (members : list (t_field * t_type)) tbl ms :
  Forall (λ m, ∀ v, typed m.2 v → ∀ st, nested st (tokens m.2 v) ∧ after_all st (tokens m.2 v) = st) members →
  members_ok (map (λ m, typed m.2) members) ms → ∀ st,
  let ts := struct_tokens sandesh name (map (λ m, (m.1, type_to_enum m.2, tokens m.2)) members) tbl ms in
  nested st ts ∧ after_all st ts = st.
Proof.
  intros IH Hms st. unfold struct_tokens. cbn [nested closes after].
  set (mts := member_tokens _ _ _ ms). assert (Hm : ∀ st, nested st mts ∧ after_all st mts = st).
  { subst mts. clear st name. revert ms Hms. induction IH as [|[f t] members IH1 _ IHm]; intros [|[b x] ms] Hms st; try done.
    cbn [map member_tokens fst snd members_ok] in Hms |- *. destruct Hms as [Hx Hms]. destruct (present f b); [|by apply IHm].
    cbn [app nested closes after]. change (after_all st (?a :: ?l)) with (after_all (after st a) l).
    rewrite !nested_app, !after_all_app. cbn [after]. pose proof (IH1 x Hx ((true, get_name f) :: st)) as [H1 Ha]. cbn [snd] in H1, Ha. rewrite Ha.
    cbn. destruct (IHm ms Hms st). split_and!; eauto. }
  change (after_all st (?a :: ?l)) with (after_all (after st a) l). cbn [after]. rewrite nested_app, after_all_app.
  destruct (Hm ((false, name) :: st)) as [? ->]. cbn. split_and!; eauto.
Qed.

Lemma nested_container h c ts : (∀ st, closes st h ∧ after st h = st) → (∀ st, closes st c ∧ after st c = st) →
  (∀ st, nested st ts ∧ after_all st ts = st) → ∀ st, nested st (h :: ts ++ [c]) ∧ after_all st (h :: ts ++ [c]) = st.
Proof.
  intros Hh Hc Hts st. destruct (Hh st) as [Hh1 Hh2], (Hts st) as [Ht1 Ht2], (Hc st) as [Hc1 Hc2]. cbn [nested].
  change (after_all st (?a :: ?l)) with (after_all (after st a) l). rewrite Hh2, nested_app, after_all_app, Ht2. cbn. by rewrite Hc2.
Qed.

Lemma nested_tokens t v : typed t v → ∀ st, nested st (tokens t v) ∧ after_all st (tokens t v) = st.
Proof.
  revert v. induction t as [b| |t IH|n ms IH|t IH|t IH|k w IHk IHw] using t_type_nested_ind; intros v Ht st.
  - cbn in *. destruct Ht as [s ->]. done.
  - by destruct v.
  - by apply IH.
  - destruct v; try done. destruct Ht as (_ & _ & ?). by apply nested_struct.
  - destruct v as [| | | | | |vs| |]; try done. destruct Ht as (_ & _ & Hvs). apply nested_container; [done..|].
    apply nested_concat. eapply Forall_impl; [exact Hvs|]. intros x Hx. by apply nested_element, IH.
  - destruct v as [| | | | | | |vs|]; try done. destruct Ht as (_ & _ & Hvs). apply nested_container; [done..|].
    apply nested_concat. eapply Forall_impl; [exact Hvs|]. intros x Hx. by apply nested_element, IH.
  - destruct v as [| | | | | | | |ps]; try done. destruct Ht as (_ & _ & _ & Hps). apply nested_container; [done..|].
    apply (nested_concat (λ x, element_tokens k (tokens k x.1) ++ element_tokens w (tokens w x.2))).
    eapply Forall_impl; [exact Hps|]. intros x [Hx1 Hx2] st'. rewrite nested_app, after_all_app.
    destruct (nested_element k _ (IHk _ Hx1) st') as [? ->]. by destruct (nested_element w _ (IHw _ Hx2) st') as [? ->].
Qed.

Definition flows (ts : list token) : Prop :=
  ∀ o tl, calm o → (∀ o', calm o' → chain o' tl) → chain o (ts ++ tl).

Lemma calm_adjacent o t : calm o → adjacent o t.
Proof. by destruct o as [[]|]. Qed.

Lemma flows_nil : flows [].
Proof. intros o tl Ho Htl. by apply Htl. Qed.
Lemma flows_app ts1 ts2 : flows ts1 → flows ts2 → flows (ts1 ++ ts2).
Proof. intros H1 H2 o tl Ho Htl. rewrite <- app_assoc. apply H1; [done|]. intros. by apply H2. Qed.
Lemma flows_token t : calm (Some t) → flows [t].
Proof. intros Ht o tl Ho Htl. split; [by apply calm_adjacent|]. by apply Htl. Qed.
Lemma flows_cons t ts : calm (Some t) → flows ts → flows (t :: ts).
Proof. intros. by apply (flows_app [t]); [apply flows_token|]. Qed.
Lemma flows_concat {A} (tk : A → list token) l : Forall (λ x, flows (tk x)) l → flows (concat (map tk l)).
Proof. induction 1; cbn; [apply flows_nil|by apply flows_app]. Qed.
Lemma flows_container h c ts : calm (Some h) → calm (Some c) → flows ts → flows (h :: ts ++ [c]).
Proof. intros. apply flows_cons, flows_app, flows_token; done. Qed.

(** A value of a base type is one scalar, any other can stand anywhere. *)
Definition flowing (t : t_type) (ts : list token) : Prop :=
  if is_base_or_enum (true_type t) then ∃ s, ts = [KScalar s] else flows ts.

(** ... and so can any value between tags. *)
Lemma flows_closed t ts c : flowing t ts → c = KFieldEnd ∨ c = KElemEnd → flows (ts ++ [c]).
Proof.
  unfold flowing. destruct (is_base_or_enum (true_type t)).
  - intros [s ->] Hc o tl Ho Htl. cbn. split_and!; [by apply calm_adjacent|done|]. apply Htl. by destruct Hc as [-> | ->].
  - intros H Hc. apply flows_app, flows_token; [done|]. by destruct Hc as [-> | ->].
Qed.

Lemma flows_element t ts : plain t → flowing t ts → flows (element_tokens t ts).
Proof.
  unfold plain, element_tokens. intros Hp Hf. destruct (is_base_or_enum t).
  - apply flows_cons; [done|]. eapply flows_closed; [exact Hf|by right].
  - unfold flowing in Hf. by rewrite Hp in Hf.
Qed.

Lemma flows_struct sandesh name (members : list (t_field * t_type)) tbl ms :
  Forall (λ m, ∀ v, typed m.2 v → flowing m.2 (tokens m.2 v)) members → members_ok (map (λ m, typed m.2) members) ms →
  flows (struct_tokens sandesh name (map (λ m, (m.1, type_to_enum m.2, tokens m.2)) members) tbl ms).
Proof.
  intros IH Hms. apply flows_cons; [done|]. apply flows_app.
  - revert ms Hms. induction IH as [|[f t] members IH1 _ IHm]; intros [|[b x] ms] Hms; try done; [apply flows_nil|].
    cbn [map member_tokens fst snd members_ok] in Hms |- *. destruct Hms as [Hx Hms]. apply flows_app; [|by apply IHm].
    destruct (present f b); [|apply flows_nil]. apply flows_cons; [done|]. eapply flows_closed; [by apply IH1|by left].
  - intros o tl Ho Htl. cbn. split_and!; [by apply calm_adjacent|by eexists|]. by apply Htl.
Qed.

Lemma tokens_flow t v : typed t v → flowing t (tokens t v).
Proof.
  revert v. induction t as [b| |t IH|n ms IH|t IH|t IH|k w IHk IHw] using t_type_nested_ind; intros v Ht.
  - cbn in *. destruct Ht as [s ->]. by exists s.
  - destruct v; try done. by eexists.
  - by apply IH.
  - destruct v; try done. destruct Ht as (_ & _ & ?). by apply flows_struct.
  - destruct v as [| | | | | |vs| |]; try done. destruct Ht as (Hp & _ & Hvs). apply flows_container; [done..|].
    apply flows_concat. eapply Forall_impl; [exact Hvs|]. intros x Hx. by apply flows_element, IH.
  - destruct v as [| | | | | | |vs|]; try done. destruct Ht as (Hp & _ & Hvs). apply flows_container; [done..|].
    apply flows_concat. eapply Forall_impl; [exact Hvs|]. intros x Hx. by apply flows_element, IH.
  - destruct v as [| | | | | | | |ps]; try done. destruct Ht as (Hk & Hw & _ & Hps). apply flows_container; [done..|].
    apply (flows_concat (λ x, element_tokens k (tokens k x.1) ++ element_tokens w (tokens w x.2))).
    eapply Forall_impl; [exact Hps|]. intros x [Hx1 Hx2]. by apply flows_app; apply flows_element; auto.
Qed.

(** ** Objects that are read back as they were

    [settled t start v]: an object that came from [start] by setting members (the flags of
    [__isset] say which), and whose sets and maps are in their order. *)
Section Settled.
Context (less : value → value → bool).

Definition before (x y : value) : Prop := less x y = true ∧ less y x = false.

Fixpoint settled_members (fs : list (t_field * (value → value → Prop))) (ss ms : list (bool * value)) : Prop :=
  match fs, ss, ms with
  | [], [], [] => True
  | (f, ok) :: fs, (sset, s) :: ss, (isset, x) :: ms =>
      (if present f isset then isset = (if bool_decide (get_req f = T_REQUIRED) then sset else true) ∧ ok s x
       else (isset, x) = (sset, s)) ∧ settled_members fs ss ms
  | _, _, _ => False
  end.

Fixpoint settled (t : t_type) (start v : value) : Prop :=
  match t, start, v with
  | t_typedef t, _, _ => settled t start v
  | t_struct _ members, VStruct tbl ss, VStruct tbl' ms => tbl = tbl' ∧ settled_members (map (λ m, (m.1, settled m.2)) members) ss ms
  | t_list e, _, VList vs => Forall (settled e (default_value e)) vs
  | t_set e, _, VSet vs => Forall (settled e (default_value e)) vs ∧ StronglySorted before vs
  | t_map k w, _, VMap ps =>
      Forall (λ p, settled k (default_value k) p.1 ∧ settled w (default_value w) p.2) ps ∧ StronglySorted before ps.*1
  | (t_base_type _ | t_enum), _, _ => True
  | _, _, _ => False
  end.

Lemma set_insert_last x l : Forall (λ y, before y x) l → set_insert less x l = l ++ [x].
Proof. induction 1 as [|y l [Hyx Hxy] _ IH]; cbn; [done|]. by rewrite Hxy, Hyx, IH. Qed.
Lemma map_assign_last k x l : Forall (λ p, before p.1 k) l → map_assign less k x l = l ++ [(k, x)].
Proof. induction 1 as [|[k' y] l [Hyx Hxy] _ IH]; cbn in *; [done|]. by rewrite Hxy, Hyx, IH. Qed.
Lemma map_at_last k d l : Forall (λ p, before p.1 k) l → map_at less k d l = d.
Proof. induction 1 as [|[k' y] l [Hyx Hxy] _ IH]; cbn in *; [done|]. by rewrite Hxy, Hyx, IH. Qed.

Lemma sorted_prefix {A} (R : A → A → Prop) acc x l : StronglySorted R (acc ++ x :: l) → Forall (λ y, R y x) acc.
Proof. intros (_ & _ & H)%ssorted_app. apply Forall_forall. intros y Hy. apply H; [done|set_solver]. Qed.

Lemma insert_sorted f vs acc : Forall (λ x, f x = x) vs → StronglySorted before (acc ++ vs) →
  foldl (λ l x, set_insert less (f x) l) acc vs = acc ++ vs.
Proof.
  intros Hvs. revert acc. induction Hvs as [|x l Hx _ IHl]; intros acc Hso; cbn; [by rewrite app_nil_r|].
  rewrite Hx, set_insert_last by (by eapply sorted_prefix). rewrite (cons_middle x acc l), app_assoc in Hso |- *. by apply IHl.
Qed.

Lemma assign_sorted f g d (ps : list (value * value)) acc : Forall (λ p, f p.1 = p.1 ∧ g d p.2 = p.2) ps →
  StronglySorted before (acc ++ ps).*1 →
  foldl (λ l p, let key := f p.1 in map_assign less key (g (map_at less key d l) p.2) l) acc ps = acc ++ ps.
Proof.
  intros Hps. revert acc. induction Hps as [|[k x] l [Hk Hx] _ IHl]; intros acc Hso; cbn; [by rewrite app_nil_r|]. cbn in Hk, Hx.
  assert (Hb : Forall (λ p, before p.1 k) acc).
  { rewrite fmap_app in Hso. cbn in Hso. apply sorted_prefix in Hso. by apply Forall_fmap in Hso. }
  rewrite Hk, map_at_last, Hx, map_assign_last by done. rewrite (cons_middle (k, x) acc l), app_assoc in Hso |- *. by apply IHl.
Qed.

Lemma settled_merged t start v : settled t start v → merged less t start v = v.
Proof.
  revert start v. induction t as [b| |t IH|n ms IH|t IH|t IH|k w IHk IHw] using t_type_nested_ind; intros start v Hs.
  - done.
  - by destruct v.
  - by apply IH.
  - destruct start as [| | | | |tb ss| | |]; try done. destruct v as [| | | | |tbl vs| | |]; try done. cbn in *. destruct Hs as [-> Hs]. f_equal.
    revert ss vs Hs. induction IH as [|[f t] ms IH1 _ IHms]; intros [|[sb s] ss] [|[vb v] vs] Hs; try done.
    cbn in *. destruct Hs as [Hv Hs]. rewrite (IHms _ _ Hs). destruct (present f vb).
    + destruct Hv as [<- Hv]. by rewrite (IH1 _ _ Hv).
    + by injection Hv as <- <-.
  - destruct v as [| | | | | |vs| |]; try by destruct start. assert (Hvs : Forall (settled t (default_value t)) vs) by (by destruct start).
    replace (merged less (t_list t) start (VList vs)) with (VList (map (merged less t (default_value t)) vs)) by (by destruct start).
    f_equal. clear Hs. induction Hvs as [|x l Hx _ IHl]; cbn; [done|]. by rewrite IHl, IH.
  - destruct v as [| | | | | | |vs|]; try by destruct start.
    assert (Forall (settled t (default_value t)) vs ∧ StronglySorted before vs) as [Hvs Hso] by (by destruct start).
    replace (merged less (t_set t) start (VSet vs)) with
      (VSet (foldl (λ l x, set_insert less (merged less t (default_value t) x) l) [] vs)) by (by destruct start).
    f_equal. apply (insert_sorted _ vs []); [|done]. eapply Forall_impl; [exact Hvs|]. by intros x; apply IH.
  - destruct v as [| | | | | | | |ps]; try by destruct start.
    assert (Forall (λ p, settled k (default_value k) p.1 ∧ settled w (default_value w) p.2) ps ∧ StronglySorted before ps.*1)
      as [Hps Hso] by (by destruct start).
    replace (merged less (t_map k w) start (VMap ps)) with
      (VMap (foldl (λ l p, let key := merged less k (default_value k) p.1 in
        map_assign less key (merged less w (map_at less key (default_value w) l) p.2) l) [] ps)) by (by destruct start).
    f_equal. apply (assign_sorted _ (merged less w) _ ps []); [|done]. eapply Forall_impl; [exact Hps|]. intros p [? ?]. auto.
Qed.

End Settled.
(** ** The round trip of objects *)

(** [write] of an object writes its tokens. *)
Lemma object_writes {P} `{!Protocol P, !ProtocolLaws P} sandesh name members v (p : P) :
  let ts := object_tokens sandesh name members v in
  typed (t_struct name members) v → Forall token_ok ts → wstate p [] → len (encode_all [] ts) < 2 ^ 31 →
  wroom p (len (encode_all [] ts)) →
  ∃ n p', write_object sandesh name members v p = Ret (BP.Ok n tt, p') ∧ 0 ≤ n ≤ len (encode_all [] ts) ∧
    wstate p' [] ∧ written p' = written p ++ encode_all [] ts.
Proof.
  intros ts Ht Hts Hw Hl Hroom. subst ts. destruct v as [| | | | |tbl vs| | |]; try done. destruct Ht as (Hnd & Htb & Hvs).
  destruct (nested_struct sandesh name members tbl vs ltac:(apply Forall_true; intros m x Hx; by apply nested_tokens) Hvs []) as [Hnest Hafter].
  destruct (struct_writes sandesh name members tbl vs) with (p := p) (st := @nil (bool * str)) as (n & p1 & E1 & B1 & W1 & C1 & _); try done.
  { apply Forall_true. intros m. apply serialize_writes. }
  exists n, p1. rewrite Hafter in W1. done.
Qed.

(** [read] of an object reads them. *)
Lemma object_reads {P} `{!Protocol P, !ProtocolLaws P} uninit less resize_ok k sandesh name members start v (p : P) :
  (∀ n, resize_ok n = true) →
  let t := t_struct name members in
  let ts := object_tokens sandesh name members v in
  typed t v → shaped t start → (width t < k)%nat → Forall token_ok ts → len (encode_all [] ts) < 2 ^ 31 →
  rstate p None (encode_all [] ts) →
  ∃ m p', read_object uninit less resize_ok k sandesh members start p = Ret (BP.Ok m (merged less t start v), p') ∧ 0 ≤ m ≤ len (encode_all [] ts).
Proof.
  intros Hmem t ts Ht Hs Hk Hts Hl Hr. subst t ts.
  destruct start as [| | | | |tb ss| | |]; try done. destruct v as [| | | | |tbl vs| | |]; try done. pose proof Ht as (Hnd & Htb & Hvs). cbn in Hs.
  destruct (nested_struct sandesh name members tbl vs ltac:(apply Forall_true; intros m x Hx; by apply nested_tokens) Hvs []) as [Hnest Hafter].
  assert (Hf := flows_struct sandesh name members tbl vs).
  cbn [object_tokens] in *. set (ts := struct_tokens _ _ _ _ _) in *.
  destruct (struct_reads uninit less resize_ok Hmem k sandesh name members tb tbl ss vs) with (p := p) (last := @None token) (st := @nil (bool * str))
    (tl := @nil token) (rest := @nil Z) as (m & p2 & E2 & B2 & _); try done.
  - cbn in Hk. lia.
  - apply Forall_forall. intros x Hx st v Hst Hv. apply deserialize_reads; try done. pose proof (width_member members name x Hx). lia.
  - fold ts. by rewrite app_nil_r.
  - fold ts. apply Hf; [|done|done|by intros]. apply Forall_true. intros x v. apply tokens_flow.
  - fold ts. by rewrite !app_nil_r.
  - by exists m, p2.
Qed.

(** C10: what the generated code writes, the generated code reads.  For every protocol that
    keeps the laws, every schema and every object of it - structs, sets, maps, lists,
    optional and required members, nested to any depth -, [write] succeeds, and [read] into
    an object succeeds on what it wrote: the members that were written are set, the others
    keep what they held.  Read into the object that it came from, [v] is read back exactly
    as it was.  The object is [typed]: the fields of a struct have different numbers, a
    struct with a table has it set, containers have fewer than 2^32 elements, and no
    container has elements of a typedef of a base type, which are written without their tags
    ([plain]).  The tokens are those the protocol can write, it has room for them, they take
    less than 2^31 bytes, there is memory for the lists, and [k] is more than the number of
    members of any struct. *)
Theorem generated_roundtrip {P} `{!Protocol P, !ProtocolLaws P} (uninit : Z) (less : value → value → bool) (resize_ok : Z → bool) (k : nat)
    (sandesh : bool) (name : str) (members : list (t_field * t_type)) (start v : value) (p : P) :
  let t := t_struct name members in
  let ts := object_tokens sandesh name members v in
  (∀ n, resize_ok n = true) → typed t v → shaped t start → (width t < k)%nat → Forall token_ok ts →
  wstate p [] → written p = [] → len (encode_all [] ts) < 2 ^ 31 → wroom p (len (encode_all [] ts)) →
  readable (encode_all [] ts) →
  ∃ n p' m p'',
    write_object sandesh name members v p = Ret (BP.Ok n tt, p') ∧ written p' = encode_all [] ts ∧
    read_object uninit less resize_ok k sandesh members start p' = Ret (BP.Ok m (merged less t start v), p'') ∧
    (settled less t start v → merged less t start v = v).
Proof.
  intros t ts Hmem Ht Hs Hk Hts Hw Hp Hl Hroom Hrd.
  destruct (object_writes sandesh name members v p Ht Hts Hw Hl Hroom) as (n & p1 & E1 & _ & W1 & C1). rewrite Hp in C1.
  pose proof (start_law p1 W1) as Hr. rewrite C1 in Hr.
  destruct (object_reads uninit less resize_ok k sandesh name members start v p1 Hmem Ht Hs Hk Hts Hl (Hr Hrd)) as (m & p2 & E2 & _).
  exists n, p1, m, p2. split_and!; try done. apply settled_merged.
Qed.

(** ** A schema and an object of it *)

Definition example_name : str := [80; 101; 101; 114].
Definition example_members : list (t_field * t_type) :=
  [(mkField 1 [110; 97; 109; 101] T_REQUIRED [([107; 101; 121], [79])], t_base_type (TYPE_STRING false));
   (mkField 2 [112; 111; 114; 116] T_OPTIONAL [], t_base_type TYPE_U16);
   (mkField 3 [97; 100; 100; 114] T_OPT_IN_REQ_OUT [], t_list (t_base_type TYPE_IPADDR));
   (mkField 4 [99; 110; 116] T_OPTIONAL [], t_map (t_base_type (TYPE_STRING false)) (t_base_type TYPE_U64));
   (mkField 7 [117; 112] T_OPTIONAL [], t_typedef (t_base_type TYPE_BOOL));
   (mkField 9 [115; 117; 98] T_OPTIONAL [], t_struct [83] [(mkField 1 [99] T_OPTIONAL [], t_set t_enum)])].

Definition example_object : value :=
  VStruct [79] [(false, VStr [97; 60; 38]); (false, VNum 7); (true, VList [VAddr (BP.V4 [10; 0; 0; 1])]);
    (true, VMap [(VStr [97], VNum 5); (VStr [98], VNum (2 ^ 63))]); (true, VBool true);
    (true, VStruct [] [(true, VSet [VNum (-1); VNum 4])])].
(** What it is read into: all members unset, the port is 7. *)
Definition example_start : value :=
  VStruct [79] [(false, VStr []); (false, VNum 7); (false, VList []); (false, VMap []); (false, VBool false);
    (false, VStruct [] [(false, VSet [])])].

Definition example_less (x y : value) : bool :=
  match x, y with VNum a, VNum b => a <? b | VStr [a], VStr [b] => a <? b | _, _ => false end.

Lemma object_typed : typed (t_struct example_name example_members) example_object.
Proof.
  split; [by apply (bool_decide_unpack _); vm_compute|]. cbn. unfold plain, tabled. cbn.
  repeat match goal with
  | |- _ ∧ _ => split
  | |- is_Some _ => by eexists
  | |- Forall _ _ => constructor
  | |- NoDup _ => by apply (bool_decide_unpack _); vm_compute
  end; done.
Qed.

Lemma example_settled : settled example_less (t_struct example_name example_members) example_start example_object.
Proof.
  cbn. unfold before. repeat match goal with
  | |- _ ∧ _ => split
  | |- Forall _ _ => constructor
  | |- StronglySorted _ _ => constructor
  | |- if ?b then _ else _ => change b with true; cbn iota
  end; done.
Qed.

End GT.
