(* ===== verification/GeneratedBinary.v ===== *)
(** * The generated code over the binary protocol

    [TBinaryProtocol] is a protocol in the sense of [Generated]: its operations keep the
    laws, so that every object of every schema is read back from the bytes it was written
    to. *)

From stdpp Require Import list.
From S2P Require Import Prelude Transport BinaryProtocol Generated GeneratedThms.
Open Scope Z_scope.

Module GB.

Section Binary.
Context {T : Type} `{!Transport T} (alloc_ok : Z → bool) (garbage : nat → Z).

(** Names and annotations are not written, and not read either. *)
#[export] Instance binary_protocol : GC.Protocol (BP.TBinaryProtocol T) := {|
  GC.writeStructBegin _ := BP.writeStructBegin; GC.writeStructEnd := BP.writeStructEnd;
  GC.writeSandeshBegin n := BP.writeSandeshBegin n; GC.writeSandeshEnd := BP.writeSandeshEnd;
  GC.writeFieldBegin _ type id _ := BP.writeFieldBegin type id;
  GC.writeFieldEnd := BP.writeFieldEnd; GC.writeFieldStop := BP.writeFieldStop;
  GC.writeMapBegin k v n := BP.writeMapBegin k v n; GC.writeMapEnd := BP.writeMapEnd;
  GC.writeListBegin e n := BP.writeListBegin e n; GC.writeListEnd := BP.writeListEnd;
  GC.writeSetBegin e n := BP.writeSetBegin e n; GC.writeSetEnd := BP.writeSetEnd;
  GC.writeContainerElementBegin := BP.ret tt; GC.writeContainerElementEnd := BP.ret tt;
  GC.writeBool b := BP.writeBool b; GC.writeByte z := BP.writeByte z; GC.writeI16 z := BP.writeI16 z;
  GC.writeI32 z := BP.writeI32 z; GC.writeI64 z := BP.writeI64 z; GC.writeU16 z := BP.writeU16 z;
  GC.writeU32 z := BP.writeU32 z; GC.writeU64 z := BP.writeU64 z; GC.writeIPV4 z := BP.writeIPV4 z;
  GC.writeIPADDR a := BP.writeIPADDR a; GC.writeDouble z := BP.writeDouble z; GC.writeString l := BP.writeString l;
  GC.writeBinary l := BP.writeBinary l; GC.writeXML l := BP.writeXML l; GC.writeUUID l := BP.writeUUID l;
  GC.readStructBegin := GC.map_ret (λ _, []) BP.readStructBegin; GC.readStructEnd := BP.readStructEnd;
  GC.readSandeshBegin := BP.readSandeshBegin alloc_ok garbage; GC.readSandeshEnd := BP.readSandeshEnd;
  GC.readFieldBegin _ _ := GC.map_ret (λ x, ([], x.1, x.2)) (BP.readFieldBegin garbage);
  GC.readFieldEnd := BP.readFieldEnd;
  GC.readMapBegin _ _ _ := BP.readMapBegin garbage; GC.readMapEnd := BP.readMapEnd;
  GC.readListBegin _ _ := BP.readListBegin garbage; GC.readListEnd := BP.readListEnd;
  GC.readSetBegin _ _ := BP.readSetBegin garbage; GC.readSetEnd := BP.readSetEnd;
  GC.readContainerElementBegin := BP.ret tt; GC.readContainerElementEnd := BP.ret tt;
  GC.readBool _ := BP.readBool garbage; GC.readByte := BP.readByte garbage; GC.readI16 := BP.readI16 garbage;
  GC.readI32 := BP.readI32 garbage; GC.readI64 := BP.readI64 garbage; GC.readU16 := BP.readU16 garbage;
  GC.readU32 := BP.readU32 garbage; GC.readU64 := BP.readU64 garbage; GC.readIPV4 := BP.readIPV4 garbage;
  GC.readIPADDR := BP.readIPADDR garbage; GC.readDouble := BP.readDouble garbage;
  GC.readString := BP.readString alloc_ok garbage; GC.readBinary := BP.readBinary alloc_ok garbage;
  GC.readXML := BP.readXML alloc_ok garbage; GC.readUUID _ := BP.readUUID garbage;
|}.

(** The item that a token writes, if any *)
Definition scalar_item (s : GC.scalar) : BP.item :=
  match s with
  | GC.SBool b => BP.IBool b | GC.SByte z => BP.IByte z | GC.SI16 z => BP.II16 z | GC.SI32 z => BP.II32 z
  | GC.SI64 z => BP.II64 z | GC.SU16 z => BP.IU16 z | GC.SU32 z => BP.IU32 z | GC.SU64 z => BP.IU64 z
  | GC.SIPV4 z => BP.IIPV4 z | GC.SIPADDR a => BP.IIPADDR a | GC.SDouble z => BP.IDouble z
  | GC.SString l => BP.IString l | GC.SBinary l => BP.IBinary l | GC.SXML l => BP.IXML l | GC.SUUID l => BP.IUUID l
  end.
Definition item_of (t : GC.token) : option BP.item :=
  match t with
  | GC.KBegin true n => Some (BP.ISandesh n) | GC.KField _ type id _ => Some (BP.IField type id)
  | GC.KStop => Some BP.IFieldStop | GC.KMap k v n => Some (BP.IMap k v n) | GC.KList e n => Some (BP.IList e n)
  | GC.KSet e n => Some (BP.ISet e n) | GC.KScalar s => Some (scalar_item s)
  | _ => None
  end.

Context `{!TransportLaws T} (alloc_always : ∀ n, alloc_ok n = true) (c : Z * Z * bool * bool).

Definition token_ok (t : GC.token) : Prop := match item_of t with Some i => BP.item_ok c i | None => True end.
Definition encode (t : GC.token) : list Z := match item_of t with Some i => BP.enc_item c i | None => [] end.
Definition ready (p : BP.TBinaryProtocol T) : Prop := valid (BP.trans_ p) ∧ BP.cfg p = c.

Lemma write_item_token t i : item_of t = Some i → GC.write_token (P := BP.TBinaryProtocol T) t = BP.write_item i.
Proof. destruct t as [[]| | | | | | | | | | | | |[]]; cbn; intros [= <-]; done. Qed.
Lemma write_no_item t : item_of t = None → GC.write_token (P := BP.TBinaryProtocol T) t = BP.ret tt.
Proof. destruct t as [[]|[]| | | | | | | | | | | |[]]; cbn; intros [=]; done. Qed.

Lemma read_item_token o1 o2 o3 ob ou t i p n p' : item_of t = Some i → BP.item_ok c i →
  BP.read_item alloc_ok garbage i p = Ret (BP.Ok n i, p') →
  GC.read_token o1 o2 o3 ob ou t p = Ret (BP.Ok n (GC.erase t), p').
Proof.
  destruct t as [[]| | | | | | | | | | | | |[]]; cbn [item_of scalar_item]; intros [= <-] Hi; cbn [BP.read_item];
    cbn [GC.read_token GC.read_scalar GC.erase]; unfold BP.map_ret, GC.map_ret; cbn;
    unfold GC.map_ret; match goal with |- context [mbind _ (?m p)] => destruct (m p) as [[[e0|n0 x0|] q0]|] end; cbn; try done.
  all: try (by intros [= -> <- ->]).
  all: try (by intros [= -> <- <- ->]).
  all: try (by intros [= -> <- <- <- ->]).
  - destruct (x0.1 =? BP.T_STOP); by intros [= -> <- <- ->] || by intros [=].
  - destruct (x0.1 =? BP.T_STOP); by intros [= -> ->] || by intros [=].
Qed.

Lemma read_no_item o1 o2 o3 ob ou t p : item_of t = None → GC.read_token o1 o2 o3 ob ou t p = Ret (BP.Ok 0 (GC.erase t), p).
Proof. destruct t as [[]|[]| | | | | | | | | | | |[]]; cbn; intros [=]; done. Qed.

#[export] Program Instance binary_laws : GC.ProtocolLaws (BP.TBinaryProtocol T) := {|
  GC.token_ok := token_ok; GC.name_ok _ := True; GC.encode _ t := encode t; GC.readable _ := True;
  GC.wstate p _ := ready p; GC.written p := content (BP.trans_ p); GC.wroom p n := fits (BP.trans_ p) n;
  GC.rstate p _ bs := ready p ∧ content (BP.trans_ p) = bs |}.
Next Obligation. done. Qed.
Next Obligation. intros p m n. apply fits_law. Qed.
Next Obligation.
  intros p st t [Hv Hc] Ht _ Hf. unfold token_ok in Ht. unfold encode in *. destruct (item_of t) as [i|] eqn:Ei.
  - rewrite (write_item_token _ _ Ei). destruct (BP.item_writes c i Ht p Hv Hc Hf) as (p' & E & V & C & R & F).
    exists (BP.len (BP.enc_item c i)), p'. change (GC.len ?l) with (BP.len l). pose proof (BP.len_pos (BP.enc_item c i)). split_and!; done || lia.
  - rewrite (write_no_item _ Ei). exists 0, p. rewrite app_nil_r. split_and!; done || (cbn; lia).
Qed.
Next Obligation. done. Qed.
Next Obligation.
  intros p last st t ts bs rest o1 o2 o3 ob ou Ht _ _ _ [[Hv Hc] Hr] _. unfold token_ok in Ht. unfold encode in *.
  destruct (item_of t) as [i|] eqn:Ei.
  - destruct (BP.item_reads alloc_ok garbage alloc_always c i Ht p bs Hv Hc Hr) as (p' & E & V & C & R).
    exists (BP.len (BP.enc_item c i)), p'. change (GC.len ?l) with (BP.len l). pose proof (BP.len_pos (BP.enc_item c i)).
    split; [by apply (read_item_token _ _ _ _ _ _ i)|]. split_and!; done || lia.
  - exists 0, p. rewrite (read_no_item _ _ _ _ _ _ _ Ei). cbn. split_and!; done || lia.
Qed.

End Binary.
(** ** Over a memory buffer *)

#[local] Instance mem : Transport TB.TMemoryBuffer := TB.TMemoryBuffer_transport (λ _, true) (λ _, 0).
#[local] Instance mem_laws : TransportLaws TB.TMemoryBuffer := TB.TMemoryBuffer_laws (λ _, true) (λ _, 0).
#[local] Instance mem_protocol : GC.Protocol (BP.TBinaryProtocol TB.TMemoryBuffer) := binary_protocol (λ _, true) (λ _, 255).
#[local] Instance mem_protocol_laws : GC.ProtocolLaws (BP.TBinaryProtocol TB.TMemoryBuffer) :=
  binary_laws (λ _, true) (λ _, 255) (λ _, eq_refl) (BP.cfg BP.example).

Lemma example_tokens_ok : Forall GC.token_ok (GT.object_tokens true GT.example_name GT.example_members GT.example_object).
Proof.
  vm_compute GT.object_tokens. repeat apply Forall_cons_2; try (by apply Forall_nil_2);
    cbn; unfold token_ok; cbn; unfold BP.string_ok, BP.size_ok, BP.type_ok; cbn; repeat split; try done; try (right; done); try lia.
Qed.

Lemma generated_roundtrip_witness : ∃ n p' m p'',
  GC.write_object true GT.example_name GT.example_members GT.example_object BP.example = Ret (BP.Ok n tt, p') ∧
  GC.read_object 0 GT.example_less (λ _, true) 10 true GT.example_members GT.example_start p' = Ret (BP.Ok m GT.example_object, p'').
Proof.
  destruct (GT.generated_roundtrip 0 GT.example_less (λ _, true) 10 true GT.example_name GT.example_members GT.example_start GT.example_object BP.example)
    as (n & p' & m & p'' & E1 & _ & E2 & Hm);
    [done|exact GT.object_typed|done|by apply Nat.ltb_lt|exact example_tokens_ok|split; [exact BP.example_valid|done]|done|by vm_compute| |done|].
  - apply BP.example_fits. by vm_compute.
  - exists n, p', m, p''. split; [exact E1|]. rewrite (Hm GT.example_settled) in E2. exact E2.
Defined.

End GB.
