(* ===== verification/GeneratedSafe.v ===== *)
(** * The generated code on arbitrary input

    Whatever a protocol reads - the data may be cut, damaged or hostile -, the [read]
    functions that the Sandesh compiler prints return an error or an object of their type, in
    which exactly the members are new whose fields came, and with them all that are required.
    [ReadSafe] is what a protocol has to promise for this: its read operations return,
    with an error or a value, and keep an invariant.  The binary protocol does so on any
    bytes. *)

From stdpp Require Import list.
From S2P Require Import Prelude Transport BinaryProtocol Generated GeneratedThms GeneratedBinary.
Open Scope Z_scope.

Module GS.
Import GC GT.

(** The members of a C++ object have the types of their declarations. *)
Fixpoint conforms (t : t_type) (v : value) : Prop :=
  match t, v with
  | t_typedef t, _ => conforms t v
  | t_base_type b, _ => is_Some (scalar_of b v)
  | t_enum, VNum _ => True
  | t_struct _ members, VStruct _ ms => members_ok (map (λ m, conforms m.2) members) ms
  | t_list e, VList vs | t_set e, VSet vs => Forall (conforms e) vs
  | t_map k w, VMap ps => Forall (λ p, conforms k p.1 ∧ conforms w p.2) ps
  | _, _ => False
  end.

Lemma default_conforms t : conforms t (default_value t).
Proof.
  induction t as [b| |t IH|n ms IH|t IH|t IH|k w IHk IHw] using t_type_nested_ind; cbn; try done.
  - destruct b as [[]|[]| | | | | | | | | | | | |]; by eexists.
  - induction IH as [|[f t] ms Ht _ IHms]; cbn; [done|by split].
Qed.

(** From a state with the invariant, [m] returns; a value has the property. *)
Definition safe {P A} (Inv : P → Prop) (m : PM P A) (Q : A → Prop) : Prop :=
  ∀ p, Inv p → ∃ r p', m p = Ret (r, p') ∧ Inv p' ∧ match r with BP.Ok _ a => Q a | _ => True end.

Class ReadSafe (P : Type) `{!Protocol P} (Inv : P → Prop) := {
  safe_struct_begin : safe Inv readStructBegin (λ _, True); safe_struct_end : safe Inv readStructEnd (λ _, True);
  safe_sandesh_begin : safe Inv readSandeshBegin (λ _, True); safe_sandesh_end : safe Inv readSandeshEnd (λ _, True);
  safe_field_begin o1 o2 : safe Inv (readFieldBegin o1 o2) (λ _, True); safe_field_end : safe Inv readFieldEnd (λ _, True);
  safe_map_begin o1 o2 o3 : safe Inv (readMapBegin o1 o2 o3) (λ _, True); safe_map_end : safe Inv readMapEnd (λ _, True);
  safe_list_begin o1 o2 : safe Inv (readListBegin o1 o2) (λ _, True); safe_list_end : safe Inv readListEnd (λ _, True);
  safe_set_begin o1 o2 : safe Inv (readSetBegin o1 o2) (λ _, True); safe_set_end : safe Inv readSetEnd (λ _, True);
  safe_elem_begin : safe Inv readContainerElementBegin (λ _, True);
  safe_elem_end : safe Inv readContainerElementEnd (λ _, True);
  safe_scalar ob ou s : safe Inv (read_scalar ob ou s) (λ _, True);
}.

Section Operations.
Context {P : Type} `{!Protocol P} {Inv : P → Prop} `{!ReadSafe P Inv}.
Abbreviation safeI := (safe Inv).

Lemma safe_mono {A} (m : PM P A) (Q1 Q2 : A → Prop) : safeI m Q1 → (∀ a, Q1 a → Q2 a) → safeI m Q2.
Proof. intros Hm HQ p Hp. destruct (Hm p Hp) as ([|n a|] & p' & E & HI & Hr); eexists _, p'; eauto. Qed.
Lemma safe_ret {A} (a : A) (Q : A → Prop) : Q a → safeI (ret a) Q.
Proof. intros HQ p Hp. by eexists _, p. Qed.
Lemma safe_err {A} c (Q : A → Prop) : safeI (err c) Q.
Proof. intros p Hp. by eexists _, p. Qed.
Lemma safe_diverge {A} (Q : A → Prop) : safeI diverge Q.
Proof. intros p Hp. by eexists _, p. Qed.

Lemma safe_bind {A B} (m : PM P A) (f : A → PM P B) Q1 Q2 : safeI m Q1 → (∀ a, Q1 a → safeI (f a) Q2) → safeI (bind m f) Q2.
Proof.
  intros Hm Hf p Hp. destruct (Hm p Hp) as (r & p1 & E & HI & Hr). unfold bind. rewrite E. cbn [mbind outcome_mbind].
  destruct r as [c|n a|]; [by eexists _, p1| |by eexists _, p1]. destruct (n <? 0); [by eexists _, p1|].
  destruct (Hf a Hr p1 HI) as (r2 & p2 & E2 & HI2 & Hr2). rewrite E2. cbn. eexists _, p2. split; [done|]. split; [done|]. by destruct r2.
Qed.
Lemma safe_map {A B} (f : A → B) (m : PM P A) (Q : B → Prop) : safeI m (λ a, Q (f a)) → safeI (map_ret f m) Q.
Proof.
  intros Hm p Hp. destruct (Hm p Hp) as (r & p1 & E & HI & Hr). unfold map_ret. rewrite E. cbn. eexists _, p1. split; [done|]. split; [done|]. by destruct r.
Qed.
Lemma safe_ignore {A} (m : PM P A) Q : safeI m Q → safeI (ignore m) (λ _, True).
Proof.
  intros Hm p Hp. destruct (Hm p Hp) as (r & p1 & E & HI & Hr). unfold ignore. rewrite E. cbn. eexists _, p1. split; [done|]. split; [done|]. by destruct r.
Qed.

(** A read operation that a scalar goes with *)
Lemma safe_of_scalar {A} ob ou s (m : PM P A) (f : A → scalar) : read_scalar ob ou s = map_ret f m → safeI m (λ _, True).
Proof.
  intros E p Hp. destruct (safe_scalar ob ou s p Hp) as (r & p1 & E1 & HI & _). rewrite E in E1. unfold map_ret in E1.
  destruct (m p) as [[r2 p2]|]; [|done]. cbn in E1. injection E1 as <- <-. eexists _, p2. split; [done|]. split; [done|]. by destruct r2.
Qed.

Lemma safe_read_bool b : safeI (readBool b) (λ _, True).
Proof. apply (safe_of_scalar b [] (SBool true) _ SBool eq_refl). Qed.
Lemma safe_read_uuid u : safeI (readUUID u) (λ _, True).
Proof. apply (safe_of_scalar true u (SUUID []) _ SUUID eq_refl). Qed.
End Operations.

(** ** A protocol that keeps a log

    The log has the fields whose beginning was read, each with the number of structs that
    were open, and with its type and number; the last one comes first.  What the generated
    code does with the fields that came is stated over this protocol. *)
Record logged (P : Type) := mkLog { proto : P; depth : nat; fields : list (nat * Z * Z) }.
Arguments mkLog {P}. Arguments proto {P}. Arguments depth {P}. Arguments fields {P}.

Section Log.
Context {P : Type} `{!Protocol P}.

Definition lift {A} (d : nat → nat) (m : PM P A) : PM (logged P) A := λ s,
  '(r, p) ← m (proto s); Ret (r, mkLog p (d (depth s)) (fields s)).
Definition log_field (m : PM P (str * Z * Z)) : PM (logged P) (str * Z * Z) := λ s,
  '(r, p) ← m (proto s);
  Ret (r, mkLog p (depth s) (match r with
                             | BP.Ok _ x => if x.1.2 =? BP.T_STOP then fields s else (depth s, x.1.2, x.2) :: fields s
                             | _ => fields s end)).

#[export] Instance logged_protocol : Protocol (logged P) := {
  writeStructBegin n := lift id (writeStructBegin n); writeStructEnd := lift id writeStructEnd;
  writeSandeshBegin n := lift id (writeSandeshBegin n); writeSandeshEnd := lift id writeSandeshEnd;
  writeFieldBegin n t i l := lift id (writeFieldBegin n t i l); writeFieldEnd := lift id writeFieldEnd;
  writeFieldStop := lift id writeFieldStop;
  writeMapBegin k v n := lift id (writeMapBegin k v n); writeMapEnd := lift id writeMapEnd;
  writeListBegin e n := lift id (writeListBegin e n); writeListEnd := lift id writeListEnd;
  writeSetBegin e n := lift id (writeSetBegin e n); writeSetEnd := lift id writeSetEnd;
  writeContainerElementBegin := lift id writeContainerElementBegin; writeContainerElementEnd := lift id writeContainerElementEnd;
  writeBool b := lift id (writeBool b); writeByte z := lift id (writeByte z); writeI16 z := lift id (writeI16 z);
  writeI32 z := lift id (writeI32 z); writeI64 z := lift id (writeI64 z); writeU16 z := lift id (writeU16 z);
  writeU32 z := lift id (writeU32 z); writeU64 z := lift id (writeU64 z); writeIPV4 z := lift id (writeIPV4 z);
  writeIPADDR x := lift id (writeIPADDR x); writeDouble z := lift id (writeDouble z); writeString l := lift id (writeString l);
  writeBinary l := lift id (writeBinary l); writeXML l := lift id (writeXML l); writeUUID l := lift id (writeUUID l);
  readStructBegin := lift S readStructBegin; readStructEnd := lift pred readStructEnd;
  readSandeshBegin := lift S readSandeshBegin; readSandeshEnd := lift pred readSandeshEnd;
  readFieldBegin t i := log_field (readFieldBegin t i); readFieldEnd := lift id readFieldEnd;
  readMapBegin k v n := lift id (readMapBegin k v n); readMapEnd := lift id readMapEnd;
  readListBegin e n := lift id (readListBegin e n); readListEnd := lift id readListEnd;
  readSetBegin e n := lift id (readSetBegin e n); readSetEnd := lift id readSetEnd;
  readContainerElementBegin := lift id readContainerElementBegin; readContainerElementEnd := lift id readContainerElementEnd;
  readBool b := lift id (readBool b); readByte := lift id readByte; readI16 := lift id readI16; readI32 := lift id readI32;
  readI64 := lift id readI64; readU16 := lift id readU16; readU32 := lift id readU32; readU64 := lift id readU64;
  readIPV4 := lift id readIPV4; readIPADDR := lift id readIPADDR; readDouble := lift id readDouble;
  readString := lift id readString; readBinary := lift id readBinary; readXML := lift id readXML; readUUID u := lift id (readUUID u);
}.
End Log.

Create HintDb quiet discriminated.

Section Safety.
Context {P : Type} `{!Protocol P} {Inv : P → Prop} `{!ReadSafe P Inv}.
Context (uninit : Z) (less : value → value → bool) (resize_ok : Z → bool).
Implicit Types (s : logged P).

(** [m] returns from [s]; a value that it returns, and the state, are as said. *)
Definition wp {A} (m : PM (logged P) A) s (Q : A → logged P → Prop) : Prop :=
  ∃ r s', m s = Ret (r, s') ∧ Inv (proto s') ∧ match r with BP.Ok _ a => Q a s' | _ => True end.
(** Between the two states structs were opened and closed, and fields came only inside them. *)
Definition deeper s s' : Prop :=
  depth s' = depth s ∧ ∃ L, fields s' = L ++ fields s ∧ Forall (λ e, depth s < e.1.1)%nat L.
Definition quiet {A} (m : PM (logged P) A) (Q : A → Prop) : Prop :=
  ∀ s, Inv (proto s) → wp m s (λ a s', Q a ∧ deeper s s').

Lemma deeper_refl s : deeper s s.
Proof. split; [done|]. by exists []. Qed.
Lemma deeper_trans s s1 s2 : deeper s s1 → deeper s1 s2 → deeper s s2.
Proof.
  intros (D1 & L1 & E1 & F1) (D2 & L2 & E2 & F2). split; [congruence|]. exists (L2 ++ L1).
  split; [by rewrite E2, E1, app_assoc|]. apply Forall_app. by rewrite D1 in F2.
Qed.

Lemma wp_mono {A} (m : PM (logged P) A) s (Q1 Q2 : A → logged P → Prop) : wp m s Q1 → (∀ a s', Q1 a s' → Q2 a s') → wp m s Q2.
Proof. intros ([|n a|] & s' & E & HI & Hr) HQ; eexists _, s'; eauto. Qed.
Lemma wp_ret {A} (a : A) s (Q : A → logged P → Prop) : Inv (proto s) → Q a s → wp (ret a) s Q.
Proof. intros HI HQ. by eexists _, s. Qed.
Lemma wp_err {A} c s (Q : A → logged P → Prop) : Inv (proto s) → wp (err c) s Q.
Proof. intros HI. by eexists _, s. Qed.
Lemma wp_diverge {A} s (Q : A → logged P → Prop) : Inv (proto s) → wp diverge s Q.
Proof. intros HI. by eexists _, s. Qed.
Lemma wp_bind {A B} (m : PM (logged P) A) (f : A → PM (logged P) B) s Q1 Q2 :
  wp m s Q1 → (∀ a s1, Inv (proto s1) → Q1 a s1 → wp (f a) s1 Q2) → wp (bind m f) s Q2.
Proof.
  intros (r & s1 & E & HI & Hr) Hf. unfold wp, bind. rewrite E. cbn [mbind outcome_mbind].
  destruct r as [c|n a|]; [by eexists _, s1| |by eexists _, s1]. destruct (n <? 0); [by eexists _, s1|].
  destruct (Hf a s1 HI Hr) as (r2 & s2 & E2 & HI2 & Hr2). rewrite E2. cbn. eexists _, s2. split; [done|]. split; [done|]. by destruct r2.
Qed.
Lemma wp_lift {A} d (m : PM P A) Q s : safe Inv m Q → Inv (proto s) →
  wp (lift d m) s (λ a s', Q a ∧ depth s' = d (depth s) ∧ fields s' = fields s).
Proof.
  intros Hm HI. destruct (Hm (proto s) HI) as (r & p & E & HI' & Hr). unfold wp, lift. rewrite E. cbn.
  eexists _, _. split; [done|]. split; [done|]. by destruct r.
Qed.
Lemma wp_field t i s : Inv (proto s) →
  wp (readFieldBegin t i) s (λ x s', depth s' = depth s ∧
    fields s' = if x.1.2 =? BP.T_STOP then fields s else (depth s, x.1.2, x.2) :: fields s).
Proof.
  intros HI. destruct (safe_field_begin t i (proto s) HI) as (r & p & E & HI' & _). unfold wp, readFieldBegin. cbn. unfold log_field. rewrite E. cbn.
  eexists _, _. split; [done|]. split; [done|]. by destruct r.
Qed.

Lemma quiet_mono {A} (m : PM (logged P) A) (Q1 Q2 : A → Prop) : quiet m Q1 → (∀ a, Q1 a → Q2 a) → quiet m Q2.
Proof. intros Hm HQ s Hs. eapply wp_mono; [by apply Hm|]. intros a s' [? ?]. auto. Qed.
Lemma quiet_ret {A} (a : A) (Q : A → Prop) : Q a → quiet (ret a) Q.
Proof. intros HQ s Hs. apply wp_ret; [done|]. split; [done|apply deeper_refl]. Qed.
Lemma quiet_err {A} c (Q : A → Prop) : quiet (err c) Q.
Proof. intros s Hs. by apply wp_err. Qed.
Lemma quiet_diverge {A} (Q : A → Prop) : quiet diverge Q.
Proof. intros s Hs. by apply wp_diverge. Qed.
Lemma quiet_bind {A B} (m : PM (logged P) A) (f : A → PM (logged P) B) Q1 Q2 :
  quiet m Q1 → (∀ a, Q1 a → quiet (f a) Q2) → quiet (bind m f) Q2.
Proof.
  intros Hm Hf s Hs. eapply wp_bind; [by apply Hm|]. intros a s1 H1 [Ha D1]. eapply wp_mono; [by apply (Hf a Ha s1)|].
  intros b s2 [Hb D2]. split; [done|]. by eapply deeper_trans.
Qed.
Lemma quiet_map {A B} (f : A → B) (m : PM (logged P) A) (Q : B → Prop) : quiet m (λ a, Q (f a)) → quiet (map_ret f m) Q.
Proof.
  intros Hm s Hs. destruct (Hm s Hs) as (r & s1 & E & HI & Hr). unfold wp, map_ret. rewrite E. cbn. eexists _, s1. split; [done|]. split; [done|]. by destruct r.
Qed.
Lemma quiet_ignore {A} (m : PM (logged P) A) Q : quiet m Q → quiet (ignore m) (λ _, True).
Proof.
  intros Hm s Hs. destruct (Hm s Hs) as (r & s1 & E & HI & Hr). unfold wp, ignore. rewrite E. cbn. eexists _, s1. split; [done|]. split; [done|].
  destruct r; [done| |done]. split; [done|apply Hr].
Qed.
Lemma quiet_lift {A} (m : PM P A) Q : safe Inv m Q → quiet (lift id m) Q.
Proof.
  intros Hm s Hs. eapply wp_mono; [by apply wp_lift|]. intros a s' (Ha & D & F). split; [done|]. split; [done|].
  exists []. by rewrite F.
Qed.

Lemma quiet_field_end : quiet readFieldEnd (λ _, True).
Proof. apply quiet_lift, safe_field_end. Qed.
Lemma quiet_map_begin o1 o2 o3 : quiet (readMapBegin o1 o2 o3) (λ _, True).
Proof. apply quiet_lift, safe_map_begin. Qed.
Lemma quiet_map_end : quiet readMapEnd (λ _, True).
Proof. apply quiet_lift, safe_map_end. Qed.
Lemma quiet_list_begin o1 o2 : quiet (readListBegin o1 o2) (λ _, True).
Proof. apply quiet_lift, safe_list_begin. Qed.
Lemma quiet_list_end : quiet readListEnd (λ _, True).
Proof. apply quiet_lift, safe_list_end. Qed.
Lemma quiet_set_begin o1 o2 : quiet (readSetBegin o1 o2) (λ _, True).
Proof. apply quiet_lift, safe_set_begin. Qed.
Lemma quiet_set_end : quiet readSetEnd (λ _, True).
Proof. apply quiet_lift, safe_set_end. Qed.
Lemma quiet_elem_begin : quiet readContainerElementBegin (λ _, True).
Proof. apply quiet_lift, safe_elem_begin. Qed.
Lemma quiet_elem_end : quiet readContainerElementEnd (λ _, True).
Proof. apply quiet_lift, safe_elem_end. Qed.
Hint Resolve quiet_field_end quiet_map_begin quiet_map_end quiet_list_begin quiet_list_end quiet_set_begin quiet_set_end
  quiet_elem_begin quiet_elem_end quiet_diverge quiet_err : quiet.

Ltac scalar_op :=
  lazymatch goal with
  | |- quiet (readBool ?b) _ => apply quiet_lift, (safe_of_scalar b [] (SBool true) _ SBool eq_refl)
  | |- quiet readByte _ => apply quiet_lift, (safe_of_scalar true [] (SByte 0) _ SByte eq_refl)
  | |- quiet readI16 _ => apply quiet_lift, (safe_of_scalar true [] (SI16 0) _ SI16 eq_refl)
  | |- quiet readI32 _ => apply quiet_lift, (safe_of_scalar true [] (SI32 0) _ SI32 eq_refl)
  | |- quiet readI64 _ => apply quiet_lift, (safe_of_scalar true [] (SI64 0) _ SI64 eq_refl)
  | |- quiet readU16 _ => apply quiet_lift, (safe_of_scalar true [] (SU16 0) _ SU16 eq_refl)
  | |- quiet readU32 _ => apply quiet_lift, (safe_of_scalar true [] (SU32 0) _ SU32 eq_refl)
  | |- quiet readU64 _ => apply quiet_lift, (safe_of_scalar true [] (SU64 0) _ SU64 eq_refl)
  | |- quiet readIPV4 _ => apply quiet_lift, (safe_of_scalar true [] (SIPV4 0) _ SIPV4 eq_refl)
  | |- quiet readIPADDR _ => apply quiet_lift, (safe_of_scalar true [] (SIPADDR (BP.V4 [])) _ SIPADDR eq_refl)
  | |- quiet readDouble _ => apply quiet_lift, (safe_of_scalar true [] (SDouble 0) _ SDouble eq_refl)
  | |- quiet readString _ => apply quiet_lift, (safe_of_scalar true [] (SString []) _ SString eq_refl)
  | |- quiet readBinary _ => apply quiet_lift, (safe_of_scalar true [] (SBinary []) _ SBinary eq_refl)
  | |- quiet readXML _ => apply quiet_lift, (safe_of_scalar true [] (SXML []) _ SXML eq_refl)
  | |- quiet (readUUID ?u) _ => apply quiet_lift, (safe_of_scalar true u (SUUID []) _ SUUID eq_refl)
  end.

(** ** Skipping *)

(** A struct is open since [s0]. *)
Definition inside s0 s : Prop :=
  depth s = S (depth s0) ∧ ∃ L, fields s = L ++ fields s0 ∧ Forall (λ e, depth s0 < e.1.1)%nat L.

Lemma inside_begin {A} (m : PM P A) Q s : safe Inv m Q → Inv (proto s) → wp (lift S m) s (λ _, inside s).
Proof.
  intros Hm HI. eapply wp_mono; [by apply wp_lift|]. intros a s' (_ & D & F). split; [done|]. exists []. by rewrite F.
Qed.
Lemma inside_end {A} (m : PM P A) Q s0 s : safe Inv m Q → Inv (proto s) → inside s0 s →
  wp (lift pred m) s (λ _ s', deeper s0 s' ∧ fields s' = fields s).
Proof.
  intros Hm HI (D & L & F & HL). eapply wp_mono; [by apply wp_lift|]. intros a s' (_ & D' & F').
  split; [|done]. split; [by rewrite D', D|]. exists L. by rewrite F', F.
Qed.
Lemma inside_deeper s0 s s' : inside s0 s → deeper s s' → inside s0 s'.
Proof.
  intros (D & L & F & HL) (D' & L' & F' & HL'). split; [congruence|]. exists (L' ++ L). split; [by rewrite F', F, app_assoc|].
  apply Forall_app. split; [|done]. eapply Forall_impl; [exact HL'|]. cbn. intros e. lia.
Qed.
Lemma inside_field s0 s s' (x : str * Z * Z) : inside s0 s → depth s' = depth s →
  fields s' = (if x.1.2 =? BP.T_STOP then fields s else (depth s, x.1.2, x.2) :: fields s) → inside s0 s'.
Proof.
  intros (D & L & F & HL) D' F'. split; [congruence|]. rewrite F', F. destruct (_ =? _); [by exists L|].
  exists ((depth s, x.1.2, x.2) :: L). split; [done|]. constructor; [cbn; lia|done].
Qed.

Lemma wp_skip_fields (sk : Z → PM (logged P) unit) k ftype fid fin s0 : (∀ t, quiet (sk t) (λ _, True)) →
  (∀ s, Inv (proto s) → inside s0 s → wp fin s (λ _ s', deeper s0 s')) →
  ∀ s, Inv (proto s) → inside s0 s → wp (skip_fields sk k ftype fid fin) s (λ _ s', deeper s0 s').
Proof.
  intros Hsk Hfin. revert ftype fid. induction k as [|k IH]; intros ftype fid s HI Hs; cbn [skip_fields]; [by apply wp_diverge|].
  eapply wp_bind; [by apply wp_field|]. intros [[nm ft] fd] s1 HI1 [D1 F1]. pose proof (inside_field s0 s s1 _ Hs D1 F1) as Hs1.
  destruct (ft =? BP.T_STOP); [by apply Hfin|].
  eapply wp_bind; [by apply Hsk|]. intros x s2 HI2 [_ D2]. eapply wp_bind; [by apply quiet_field_end|]. intros y s3 HI3 [_ D3].
  apply IH; [done|]. by eapply inside_deeper, D3; eapply inside_deeper.
Qed.
Lemma quiet_skip_struct {A} (mb : PM P A) (me : PM P unit) (sk : Z → PM (logged P) unit) k ft fd :
  safe Inv mb (λ _, True) → safe Inv me (λ _, True) → (∀ t, quiet (sk t) (λ _, True)) →
  quiet (bind (lift S mb) (λ _, skip_fields sk k ft fd (lift pred me))) (λ _, True).
Proof.
  intros Hb He Hsk s HI. eapply wp_bind; [by eapply inside_begin|]. intros x s1 HI1 Hs1.
  eapply wp_mono; [apply (wp_skip_fields _ _ _ _ _ s); try done|by intros; split].
  intros s2 HI2 Hs2. eapply wp_mono; [by eapply inside_end|]. by intros ?? [? _].
Qed.
Lemma quiet_skip_elems (sk : PM (logged P) unit) k i size fin : quiet sk (λ _, True) → quiet fin (λ _, True) →
  quiet (skip_elems sk k i size fin) (λ _, True).
Proof.
  intros Hsk Hfin. revert i. induction k as [|k IH]; intros i; cbn [skip_elems]; destruct (negb (i <? size)); try done; [apply quiet_diverge|].
  eapply quiet_bind; [exact Hsk|]. intros _ _. apply IH.
Qed.
Lemma quiet_skip fuel type : quiet (skip uninit fuel type) (λ _, True).
Proof.
  revert type. induction fuel as [|fuel IH]; intros type; cbn [skip]; [apply quiet_diverge|].
  repeat match goal with |- quiet (if ?b then _ else _) _ => destruct b end; try (eapply quiet_ignore; scalar_op).
  1-2: by apply quiet_skip_struct; [apply safe_struct_begin || apply safe_sandesh_begin|apply safe_struct_end || apply safe_sandesh_end|].
  1-3: eapply quiet_bind; [eauto with quiet|]; intros h _; apply quiet_skip_elems; eauto with quiet; eapply quiet_bind; eauto with quiet.
  by apply quiet_ret.
Qed.

(** ** Reading *)

Lemma quiet_base b this : quiet (deserialize_base b this) (conforms (t_base_type b)).
Proof.
  destruct b as [[]|[]| | | | | | | | | | | | |]; cbn [deserialize_base]; apply quiet_map;
    (eapply quiet_mono; [scalar_op|]); intros a _; cbn; by eexists.
Qed.

Lemma quiet_element {A} t (m : PM (logged P) A) Q : quiet m Q → quiet (deserialize_element t m) Q.
Proof.
  intros Hm. unfold deserialize_element. destruct (is_base_or_enum t); [|done].
  eapply quiet_bind; [apply quiet_elem_begin|]. intros _ _. eapply quiet_bind; [exact Hm|]. intros x Hx.
  eapply quiet_bind; [apply quiet_elem_end|]. intros _ _. by apply quiet_ret.
Qed.

Lemma quiet_each {A} (r : A → PM (logged P) A) n c fin (I : A → Prop) Q : I c → (∀ a, I a → quiet (r a) I) → (∀ a, I a → quiet (fin a) Q) →
  quiet (read_each r n c fin) Q.
Proof.
  intros Hc Hr Hfin. revert c Hc. induction n as [|n IH]; intros c Hc; cbn [read_each]; [by apply Hfin|].
  eapply quiet_bind; [by apply Hr|]. intros a Ha. by apply IH.
Qed.

Lemma set_insert_forall (Q : value → Prop) x l : Q x → Forall Q l → Forall Q (set_insert less x l).
Proof. intros Hx. induction 1; cbn; [by constructor|]. repeat case_match; by repeat constructor. Qed.
Lemma map_assign_forall (Q : value * value → Prop) k x l : (∀ k', (∃ y, (k', y) ∈ l) ∨ k' = k → Q (k', x)) → Forall Q l →
  Forall Q (map_assign less k x l).
Proof.
  intros Hx Hl. induction Hl as [|[k' y] l Hy Hl IH]; cbn.
  { constructor; [|done]. apply Hx. by right. }
  repeat case_match; constructor; try done.
  - apply Hx. by right.
  - by constructor.
  - apply IH. intros k2 [[y2 Hy2]| ->]; apply Hx; [left; exists y2; set_solver|by right].
  - apply Hx. left. exists y. set_solver.
Qed.
Lemma map_at_prop (Q : value → Prop) k d l : Q d → Forall (λ p, Q p.2) l → Q (map_at less k d l).
Proof. intros Hd. induction 1 as [|[k' x] l Hx _ IH]; cbn; [done|]. by repeat case_match. Qed.

(** What is known of a reader of a member: it goes with the type. *)
Definition reader_ok (r : reader (P := logged P)) (ok : value → Prop) : Prop := ∀ x, ok x → quiet (r.2 x) ok.

Lemma members_ok_lookup oks ms i b x : members_ok oks ms → ms !! i = Some (b, x) → ∃ ok, oks !! i = Some ok ∧ ok x ∧
  ∀ b' y, ok y → members_ok oks (<[i := (b', y)]> ms).
Proof.
  revert ms i. induction oks as [|ok oks IH]; intros [|[b1 x1] ms] [|i] Hm Hi; try done; cbn in Hm, Hi; destruct Hm as [Hx Hm].
  - injection Hi as -> ->. exists ok. split; [done|]. split; [done|]. intros b' y Hy. by split.
  - destruct (IH ms i Hm Hi) as (ok' & E & H1 & H2). exists ok'. split; [done|]. split; [done|]. intros b' y Hy. split; [done|]. by apply H2.
Qed.
Lemma members_ok_length oks ms : members_ok oks ms → length oks = length ms.
Proof. revert ms. induction oks as [|ok oks IH]; intros [|[b x] ms] Hm; try done. cbn. f_equal. apply IH, Hm. Qed.

(** What the fields that came have done to the members: [L] is the log since the struct was
    opened, at depth [D]. *)
Definition case_of (rs : list (reader (P := logged P))) (fid : Z) := list_find (λ r : reader (P := logged P), get_key r.1.1 = fid) rs.
Record tracked (rs : list (reader (P := logged P))) (ms0 : list (bool * value)) (D : nat) (L : list (nat * Z * Z))
    (ms : list (bool * value)) (seen : list Z) : Prop := {
  tr_kept i r : rs !! i = Some r → (D, r.1.2, get_key r.1.1) ∉ L → ms !! i = ms0 !! i;
  tr_seen fid : fid ∈ seen → ∃ i r, case_of rs fid = Some (i, r) ∧ (D, r.1.2, fid) ∈ L;
  tr_set i r b x : case_of rs (get_key r.1.1) = Some (i, r) → (D, r.1.2, get_key r.1.1) ∈ L → ms0 !! i = Some (b, x) →
    ∃ y, ms !! i = Some (if bool_decide (get_req r.1.1 = T_REQUIRED) then b else true, y);
}.

Lemma tracked_start rs ms D : tracked rs ms D [] ms [].
Proof. split; [done|by intros fid ?%elem_of_nil|by intros i r b x _ ?%elem_of_nil]. Qed.

Lemma deep_not (D : nat) t i (L : list (nat * Z * Z)) : Forall (λ e, D < e.1.1)%nat L → (D, t, i) ∉ L.
Proof. rewrite Forall_forall. intros HL Hin. specialize (HL _ Hin). cbn in HL. lia. Qed.

(** A field that is not read *)
Lemma tracked_skip rs ms0 D L L' ms seen ft fd : tracked rs ms0 D L ms seen → Forall (λ e, D < e.1.1)%nat L' →
  (∀ i r, case_of rs fd = Some (i, r) → r.1.2 ≠ ft) → tracked rs ms0 D (L' ++ (D, ft, fd) :: L) ms seen.
Proof.
  intros [T1 T2 T3] HL Hno. split.
  - intros i r Hr Hn. apply (T1 i r Hr). intros Hin. apply Hn, elem_of_app. right. by right.
  - intros fid Hf. destruct (T2 fid Hf) as (i & r & Hc & Hin). exists i, r. split; [done|]. apply elem_of_app. right. by right.
  - intros i r b x Hc Hin Hx. apply elem_of_app in Hin as [Hin|Hin]; [by apply deep_not in Hin|].
    apply elem_of_cons in Hin as [[= Et Ek]|Hin]; [|by eapply T3]. rewrite Ek in Hc. by destruct (Hno i r Hc).
Qed.

(** A field that is read into the member [i] *)
Lemma tracked_set rs ms0 D L L' ms seen i r b x y : tracked rs ms0 D L ms seen → Forall (λ e, D < e.1.1)%nat L' →
  length ms0 = length ms → case_of rs (get_key r.1.1) = Some (i, r) → ms !! i = Some (b, x) →
  tracked rs ms0 D (L' ++ (D, r.1.2, get_key r.1.1) :: L)
    (<[i := (if bool_decide (get_req r.1.1 = T_REQUIRED) then b else true, y)]> ms) (get_key r.1.1 :: seen).
Proof.
  intros [T1 T2 T3] HL Hlen Hi Hx. pose proof Hi as (Hri & Hk & _)%list_find_Some.
  assert (i < length ms)%nat as Hlt by (by eapply lookup_lt_Some).
  assert (b = b ∧ ∀ b0 x0, ms0 !! i = Some (b0, x0) → get_req r.1.1 = T_REQUIRED → b = b0) as [_ Hb].
  { split; [done|]. intros b0 x0 H0 Hreq. destruct (decide ((D, r.1.2, get_key r.1.1) ∈ L)) as [Hin|Hn].
    - destruct (T3 i r b0 x0 Hi Hin H0) as [y' E]. rewrite Hx, bool_decide_true in E by done. congruence.
    - rewrite (T1 i r Hri Hn) in Hx. congruence. }
  split.
  - intros j q Hq Hn. assert (j ≠ i) as Hj.
    { intros ->. pose proof (eq_trans (eq_sym Hri) Hq) as [= <-]. apply Hn, elem_of_app. right. by left. }
    rewrite list_lookup_insert_ne by done. apply (T1 j q Hq). intros Hin. apply Hn, elem_of_app. right. by right.
  - intros fid [->|Hf]%elem_of_cons.
    + exists i, r. split; [done|]. apply elem_of_app. right. by left.
    + destruct (T2 fid Hf) as (j & q & Hc & Hin). exists j, q. split; [done|]. apply elem_of_app. right. by right.
  - intros j q b0 x0 Hc Hin H0. destruct (decide (j = i)) as [->|Hj].
    + pose proof Hc as (Hq & _)%list_find_Some. pose proof (eq_trans (eq_sym Hri) Hq) as [= <-]. exists y.
      rewrite list_lookup_insert_eq by done. do 2 f_equal. case_bool_decide; [by eapply Hb|done].
    + rewrite list_lookup_insert_ne by done. apply elem_of_app in Hin as [Hin|Hin]; [by apply deep_not in Hin|].
      apply elem_of_cons in Hin as [[= Et Ek]|Hin]; [|by eapply T3]. rewrite Ek, Hi in Hc. by injection Hc as -> _.
Qed.

(** The loop over the fields: the struct is open since [s0], where its members were [ms0]. *)
Definition reading rs oks ms0 s0 s (ms : list (bool * value)) (seen : list Z) : Prop :=
  depth s = S (depth s0) ∧ members_ok oks ms ∧
  ∃ L, fields s = L ++ fields s0 ∧ Forall (λ e, depth s0 < e.1.1)%nat L ∧ tracked rs ms0 (S (depth s0)) L ms seen.

Lemma reading_inside rs oks ms0 s0 s ms seen : reading rs oks ms0 s0 s ms seen → inside s0 s.
Proof. intros (D & _ & L & F & HL & _). split; [done|]. by exists L. Qed.

(** The state in which a field was read or skipped, from its beginning at [s1] *)
Lemma reading_step rs oks ms0 s0 s s1 s2 ms seen ft fd : reading rs oks ms0 s0 s ms seen → ft ≠ BP.T_STOP → depth s1 = depth s →
  fields s1 = (depth s, ft, fd) :: fields s → deeper s1 s2 →
  ∃ L L', fields s2 = (L' ++ (S (depth s0), ft, fd) :: L) ++ fields s0 ∧ Forall (λ e, S (depth s0) < e.1.1)%nat L' ∧
    depth s2 = S (depth s0) ∧ Forall (λ e, depth s0 < e.1.1)%nat (L' ++ (S (depth s0), ft, fd) :: L) ∧
    tracked rs ms0 (S (depth s0)) L ms seen.
Proof.
  intros (D & _ & L & F & HL & HT) Hft D1 F1 (D2 & L' & F2 & HL2). rewrite D1, D in HL2. exists L, L'.
  split; [|split; [done|split; [congruence|split; [|done]]]].
  - rewrite F2, F1, F, D, <- app_assoc. done.
  - apply Forall_app. split; [eapply Forall_impl; [exact HL2|]; cbn; intros e; lia|]. constructor; [cbn; lia|done].
Qed.

Lemma wp_member k rs oks ms0 s0 s s1 ft fd ms seen : Forall2 reader_ok rs oks → length ms0 = length ms →
  reading rs oks ms0 s0 s ms seen → ft ≠ BP.T_STOP → depth s1 = depth s → fields s1 = (depth s, ft, fd) :: fields s → Inv (proto s1) →
  wp (read_member uninit k rs ft fd ms seen) s1 (λ x s2, length ms0 = length x.1 ∧ reading rs oks ms0 s0 s2 x.1 x.2).
Proof.
  intros Hrs Hlen HR Hft D1 F1 HI. unfold read_member.
  assert (Hskip : (∀ i r, case_of rs fd = Some (i, r) → r.1.2 ≠ ft) →
    wp (bind (skip uninit k ft) (λ _, ret (ms, seen))) s1 (λ x s2, length ms0 = length x.1 ∧ reading rs oks ms0 s0 s2 x.1 x.2)).
  { intros Hno. eapply wp_bind; [by apply quiet_skip|]. intros x s2 HI2 [_ D2]. apply wp_ret; [done|]. split; [done|].
    destruct (reading_step _ _ _ _ _ _ _ _ _ _ _ HR Hft D1 F1 D2) as (L & L' & F & HL' & Dx & HL & HT).
    split; [done|]. split; [apply HR|]. eexists. split; [exact F|]. split; [done|]. by apply tracked_skip. }
  lazymatch goal with |- context [@list_find ?A ?Q ?d ?l] => change (@list_find A Q d l) with (case_of rs fd) end.
  destruct (case_of rs fd) as [[i [[f type] r]]|] eqn:Ef; [|apply Hskip; by intros ? ? [=]].
  destruct (Z.eqb_spec ft type) as [->|Hne]; [|apply Hskip; intros ? ? [= <- <-]; cbn; congruence].
  pose proof Ef as (Ei & Ek & _)%list_find_Some. cbn in Ek. destruct (ms !! i) as [[isset x]|] eqn:Em.
  - destruct HR as (D & Hms & HR). destruct (members_ok_lookup oks ms i isset x Hms Em) as (ok & Eo & Hx & Hup).
    destruct (Forall2_lookup_l _ _ _ _ _ Hrs Ei) as (ok' & Eo' & Hr). assert (ok' = ok) as -> by congruence.
    eapply wp_bind; [by apply (Hr x Hx)|]. intros y s2 HI2 [Hy D2]. apply wp_ret; [done|]. cbn [fst snd].
    split; [by rewrite length_insert|].
    destruct (reading_step rs oks ms0 s0 s s1 s2 ms seen type fd) as (L & L' & F & HL' & Dx & HL & HT); try done.
    split; [done|]. split; [by apply Hup|]. eexists. split; [exact F|]. split; [done|].
    subst fd. by apply (tracked_set rs ms0 _ L L' ms seen i (f, type, r) isset x y).
  - apply lookup_ge_None in Em. apply lookup_lt_Some in Ei. destruct HR as (_ & Hms & _).
    pose proof (Forall2_length _ _ _ Hrs). pose proof (members_ok_length oks ms Hms). unfold reader in *. lia.
Qed.

(** What a struct that was read is *)
Definition struct_read rs oks tbl ms0 s0 (v : value) s' : Prop :=
  deeper s0 s' ∧ ∃ ms seen L, v = VStruct tbl ms ∧ members_ok oks ms ∧ fields s' = L ++ fields s0 ∧
    tracked rs ms0 (S (depth s0)) L ms seen ∧ required_seen rs seen = true.

Lemma wp_struct k sandesh rs oks tbl ms0 s0 : Forall2 reader_ok rs oks → members_ok oks ms0 → Inv (proto s0) →
  wp (struct_reader_body uninit k sandesh rs tbl ms0) s0 (struct_read rs oks tbl ms0 s0).
Proof.
  intros Hrs Hms HI. unfold struct_reader_body.
  assert (Hfin : ∀ s ms seen, Inv (proto s) → reading rs oks ms0 s0 s ms seen →
    wp (bind (if sandesh then readSandeshEnd else readStructEnd) (λ _, if required_seen rs seen then ret (VStruct tbl ms) else err (-1))) s
       (struct_read rs oks tbl ms0 s0)).
  { intros s ms seen HIs HR. pose proof (reading_inside _ _ _ _ _ _ _ HR) as Hin. destruct HR as (_ & Hok & L & F & _ & HT).
    apply (wp_bind _ _ _ (λ _ s', deeper s0 s' ∧ fields s' = fields s)).
    - destruct sandesh; eapply inside_end; try done; [apply safe_sandesh_end|apply safe_struct_end].
    - intros _ s' HI' [Dp F']. destruct (required_seen rs seen) eqn:Es; [|by apply wp_err]. apply wp_ret; [done|].
      split; [done|]. exists ms, seen, L. by rewrite F', F. }
  set (fin := λ ms seen, bind _ _).
  apply (wp_bind _ _ _ (λ _ s', depth s' = S (depth s0) ∧ fields s' = fields s0)).
  { destruct sandesh; (eapply wp_mono; [apply wp_lift; [|done]; apply safe_sandesh_begin || apply safe_struct_begin|]); by intros ?? (_ & ? & ?). }
  intros _ s1 HI1 [D1 F1].
  assert (Hall : ∀ rounds s ms seen ft fd, Inv (proto s) → length ms0 = length ms → reading rs oks ms0 s0 s ms seen →
    wp (read_fields uninit k rs rounds ft fd ms seen fin) s (struct_read rs oks tbl ms0 s0)).
  { induction rounds as [|rounds IH]; intros s ms seen ft fd HIs Hlen HR; cbn [read_fields]; [by apply wp_diverge|].
    eapply wp_bind; [by apply wp_field|]. intros [[nm ft'] fd'] s2 HI2 [D2 F2]. cbn in F2.
    destruct (Z.eqb_spec ft' BP.T_STOP) as [->|Hft].
    - apply Hfin; [done|]. destruct HR as (D & HR). split; [congruence|]. by rewrite F2.
    - eapply wp_bind; [by apply (wp_member k rs oks ms0 s0 s)|]. cbn beta. intros x s3 HI3 [Hlen3 HR3].
      eapply wp_bind; [apply (wp_lift id _ _ _ safe_field_end HI3)|]. cbn. intros _ s4 HI4 (_ & D4 & F4). apply IH; [done..|].
      destruct HR3 as (D3 & Hm3 & L3 & F3 & HL3 & HT3). split; [congruence|]. split; [done|].
      by exists L3; rewrite F4. }
  apply Hall; [done..|]. split; [done|]. split; [done|]. exists []. split; [done|]. split; [done|]. apply tracked_start.
Qed.

Context (Hmem : ∀ n, resize_ok n = true).
Lemma quiet_resize n : quiet (resize resize_ok n) (λ _, True).
Proof using Hmem. intros s Hs. unfold resize. eexists _, s. rewrite Hmem. split; [done|]. split; [done|]. split; [done|apply deeper_refl]. Qed.

Lemma quiet_field k t this : conforms t this → quiet (deserialize_field uninit less resize_ok k t this) (conforms t).
Proof.
  revert this. induction t as [b| |t IH|n members IH|t IH|t IH|kt w IHk IHw] using t_type_nested_ind; intros this Hthis; cbn [deserialize_field].
  - apply quiet_base.
  - apply quiet_map. eapply quiet_mono; [scalar_op|done].
  - by apply IH.
  - destruct this as [| | | | |tbl ms| | |]; try done. cbn in Hthis.
    intros s HI. eapply wp_mono; [apply (wp_struct k false _ (map (λ m, conforms m.2) members)); [|done|done]|].
    2:{ intros v s' (HD & ms' & seen & L & -> & Hok & _). done. }
    clear Hthis. induction IH as [|[f t] members Ht _ IHm]; constructor; [|done]. intros x Hx. by apply Ht.
  - eapply quiet_bind; [apply quiet_list_begin|]. intros h _. eapply quiet_bind; [apply quiet_resize|]. intros _ _. apply (quiet_each _ _ _ _ (Forall (conforms t))); [by constructor|..].
    + intros l Hl. eapply quiet_bind; [apply quiet_element, IH, default_conforms|]. intros x Hx. apply quiet_ret, Forall_app. by split; [|constructor].
    + intros l Hl. eapply quiet_bind; [apply quiet_list_end|]. intros _ _. by apply quiet_ret.
  - eapply quiet_bind; [apply quiet_set_begin|]. intros h _. apply (quiet_each _ _ _ _ (Forall (conforms t))); [by constructor|..].
    + intros l Hl. eapply quiet_bind; [apply quiet_element, IH, default_conforms|]. intros x Hx. by apply quiet_ret, set_insert_forall.
    + intros l Hl. eapply quiet_bind; [apply quiet_set_end|]. intros _ _. by apply quiet_ret.
  - eapply quiet_bind; [apply quiet_map_begin|]. intros h _.
    apply (quiet_each _ _ _ _ (Forall (λ p, conforms kt p.1 ∧ conforms w p.2))); [by constructor|..].
    + intros l Hl. eapply quiet_bind; [apply quiet_element, IHk, default_conforms|]. intros key Hkey.
      eapply quiet_bind; [apply quiet_element, IHw|].
      * apply map_at_prop; [apply default_conforms|]. eapply Forall_impl; [exact Hl|]. by intros ? [_ ?].
      * intros x Hx. apply quiet_ret, map_assign_forall; [|done]. rewrite Forall_forall in Hl.
        intros k' [[y Hy]| ->]; (split; [|done]); [by apply (Hl _ Hy)|done].
    + intros l Hl. eapply quiet_bind; [apply quiet_map_end|]. intros _ _. by apply quiet_ret.
Qed.

End Safety.

(** The field that a member is read from came, among the fields of the object. *)
Definition came {P} (s : logged P) (m : t_field * t_type) : Prop := (1%nat, type_to_enum m.2, get_key m.1) ∈ fields s.

(** C30: on any input, the generated [read] of a struct or sandesh returns, with an error or
    with an object, or it is still reading after [k] fields of a struct or elements of a
    container that is skipped; no member is accessed that is not there.  Of an object that
    is returned: every member has the type of its declaration, whatever types, field numbers
    and sizes the data claims; a member whose field did not come, or came with another type
    only, is as it was, and so is its flag; a member whose field came with its type has its
    flag set, unless it is required and has none; and every required member has come.  This
    holds for every protocol whose own read operations return, where there is memory for the
    elements of every list. *)
Theorem generated_read_conforms {P} `{!Protocol P} (Inv : P → Prop) `{!ReadSafe P Inv} (uninit : Z) (less : value → value → bool)
    (resize_ok : Z → bool) (k : nat) (sandesh : bool) (name : str) (members : list (t_field * t_type)) (tbl : str) (ms : list (bool * value)) (p : P) :
  (∀ n, resize_ok n = true) → NoDup (get_key ∘ fst <$> members) → conforms (t_struct name members) (VStruct tbl ms) → Inv p →
  ∃ r s', read_object uninit less resize_ok k sandesh members (VStruct tbl ms) (mkLog p 0 []) = Ret (r, s') ∧ Inv (proto s') ∧
    ∀ n v, r = BP.Ok n v → conforms (t_struct name members) v ∧ ∃ ms', v = VStruct tbl ms' ∧
      ∀ i m b x, members !! i = Some m → ms !! i = Some (b, x) →
        (¬ came s' m → ms' !! i = Some (b, x)) ∧
        (came s' m → ∃ y, ms' !! i = Some (if bool_decide (get_req m.1 = T_REQUIRED) then b else true, y)) ∧
        (get_req m.1 = T_REQUIRED → came s' m).
Proof.
  intros Hmem Hnd Hthis Hp. set (rs := map (λ m : t_field * t_type, (m.1, type_to_enum m.2, deserialize_field (P := logged P) uninit less resize_ok k m.2)) members).
  destruct (wp_struct (Inv := Inv) uninit k sandesh rs (map (λ m, conforms m.2) members) tbl ms (mkLog p 0 [])) as (r & s' & E & HI & Hr); [|done|done|].
  { clear Hnd Hthis. subst rs. induction members as [|[f t] members IH]; constructor; [|done]. intros x Hx. by apply quiet_field. }
  exists r, s'. split; [done|]. split; [done|]. intros n v ->. destruct Hr as (_ & ms' & seen & L & -> & Hok & F & HT & Hreq).
  cbn in F, HT. rewrite app_nil_r in F. split; [done|]. exists ms'. split; [done|]. intros i m b x Hm Hx.
  assert (Hr : rs !! i = Some (m.1, type_to_enum m.2, deserialize_field uninit less resize_ok k m.2)) by (subst rs; by rewrite list_lookup_fmap, Hm).
  assert (Hcase : case_of rs (get_key m.1) = Some (i, (m.1, type_to_enum m.2, deserialize_field uninit less resize_ok k m.2))).
  { apply list_find_Some. split; [done|]. split; [done|]. intros j q Hq Hlt Hk. subst rs. rewrite list_lookup_fmap in Hq.
    destruct (members !! j) as [m'|] eqn:Ej; [|done]. injection Hq as <-. cbn in Hk.
    assert (j = i); [|lia]. apply (NoDup_lookup _ _ _ (get_key m.1) Hnd); rewrite list_lookup_fmap; [rewrite Ej; cbn; by f_equal|by rewrite Hm]. }
  unfold came. rewrite F. split; [|split].
  - intros Hn. by rewrite (tr_kept _ _ _ _ _ _ HT i _ Hr Hn).
  - intros Hc. by apply (tr_set _ _ _ _ _ _ HT i (m.1, type_to_enum m.2, deserialize_field uninit less resize_ok k m.2) b x).
  - intros Hq. unfold required_seen in Hreq. rewrite forallb_forall in Hreq.
    specialize (Hreq _ (proj1 (list_elem_of_In _ _) (list_elem_of_lookup_2 _ _ _ Hr))). cbn in Hreq. rewrite (bool_decide_true (get_req m.1 = _)) in Hreq by done.
    apply bool_decide_eq_true in Hreq. destruct (tr_seen _ _ _ _ _ _ HT _ Hreq) as (j & q & Hc & Hin).
    rewrite Hcase in Hc. by injection Hc as <- <-.
Qed.

(** ** The binary protocol on any bytes *)

Section Binary.
Context {T : Type} `{!Transport T, !TransportLaws T} (alloc_ok : Z → bool) (garbage : nat → Z).
Abbreviation proto := (BP.TBinaryProtocol T).
Definition bin_inv (p : proto) : Prop := valid (BP.trans_ p).
Abbreviation safeB := (safe bin_inv).

Lemma readAll_safe (t : T) n : valid t → 0 ≤ n < 2 ^ 32 → ∃ r bs t', tr_readAll n t = Ret (r, bs, t') ∧ valid t'.
Proof.
  intros Hv Hn. destruct (decide (Z.of_nat (length (content t)) < n)) as [Hs|Hs].
  - destruct (readAll_short_law t n Hv Hs) as (t' & E & V & _); [lia|]. by eexists _, _, t'.
  - destruct (readAll_law t (take (Z.to_nat n) (content t)) (drop (Z.to_nat n) (content t)) Hv) as (t' & E & V & _).
    + by rewrite take_drop.
    + rewrite length_take_le in E by lia. rewrite Z2Nat.id in E by lia. by eexists _, _, t'.
Qed.

Lemma bin_raw n : (n < 100)%nat → safeB (BP.read_raw garbage n) (λ _, True).
Proof.
  intros Hn p Hp. destruct (readAll_safe (BP.trans_ p) (Z.of_nat n) Hp) as (r & bs & t' & E & V); [lia|].
  unfold BP.read_raw. rewrite E. cbn. by eexists _, _.
Qed.
Lemma bin_bind {A B} (m : GC.PM proto A) (f : A → GC.PM proto B) (Q1 : A → Prop) Q2 :
  safeB m Q1 → (∀ a, Q1 a → safeB (f a) Q2) → safeB (BP.bind m f) Q2.
Proof. apply (safe_bind (P := proto)). Qed.
Lemma bin_map {A B} (f : A → B) (m : GC.PM proto A) : safeB m (λ _, True) → safeB (BP.map_ret f m) (λ _, True).
Proof.
  intros Hm p Hp. destruct (Hm p Hp) as (r & p1 & E & HI & Hr). unfold BP.map_ret. rewrite E. cbn. eexists _, p1. split; [done|]. split; [done|]. by destruct r.
Qed.

Lemma swrap_range w z : 0 < w → - 2 ^ (w - 1) ≤ swrap w z < 2 ^ (w - 1).
Proof.
  intros Hw. unfold swrap. pose proof (Z.mod_pos_bound (z + 2 ^ (w - 1)) (2 ^ w) ltac:(apply Z.pow_pos_nonneg; lia)).
  pose proof (Z.pow_succ_r 2 (w - 1) ltac:(lia)) as E. rewrite Z.sub_1_r, Z.succ_pred in E. rewrite <- Z.sub_1_r in E. lia.
Qed.

Lemma bin_i32 : safeB (BP.readI32 garbage) (λ z, - 2 ^ 31 ≤ z < 2 ^ 31).
Proof.
  intros p Hp. destruct (bin_raw 4 ltac:(lia) p Hp) as (r & p1 & E & HI & _). unfold BP.readI32, BP.map_ret. rewrite E. cbn.
  eexists _, p1. split; [done|]. split; [done|]. destruct r; try done. by apply (swrap_range 32).
Qed.

Lemma bin_string_body size : 0 ≤ size < 2 ^ 31 → safeB (BP.readStringBody_buf alloc_ok garbage size) (λ _, True).
Proof.
  intros Hs p Hp. unfold BP.readStringBody_buf.
  match goal with |- context [match ?g with None => _ | Some _ => _ end] => destruct g as [q|] eqn:Eg end; [|by eexists _, p].
  assert (Hq : bin_inv q) by (repeat case_match; naive_solver).
  destruct (readAll_safe (BP.trans_ q) size Hq) as (r & bs & t' & E & V); [lia|]. rewrite E. cbn. by eexists _, _.
Qed.

Lemma bin_string : safeB (BP.readString alloc_ok garbage) (λ _, True).
Proof.
  eapply bin_bind; [apply bin_i32|]. cbn beta. intros size Hs p Hp. unfold BP.readStringBody.
  destruct (size <? 0) eqn:?; [by eexists _, p|]. destruct (_ && _); [by eexists _, p|]. destruct (size =? 0); [by eexists _, p|].
  destruct (borrow_law (BP.trans_ p) size Hp) as (o & t & E & V & C & Ho); [lia|]. rewrite E. cbn [mbind outcome_mbind].
  destruct o as [l|]; [|by apply bin_string_body; [lia|]].
  destruct (Ho l eq_refl) as (_ & _ & t'' & E2 & V2 & _). rewrite E2. cbn. by eexists _, _.
Qed.

Lemma bin_byte : safeB (BP.readByte garbage) (λ _, True).
Proof. apply bin_map, bin_raw. lia. Qed.
Lemma bin_number {A} (f : list Z → A) n : (n < 100)%nat → safeB (BP.map_ret f (BP.read_raw garbage n)) (λ _, True).
Proof. intros. by apply bin_map, bin_raw. Qed.
Lemma bin_int : safeB (BP.readI32 garbage) (λ _, True).
Proof. apply bin_number. lia. Qed.
Lemma bin_container checked size : safeB (BP.container_size checked size) (λ _, True).
Proof. intros p Hp. unfold BP.container_size. repeat case_match; by eexists _, p. Qed.
Lemma bin_field : safeB (BP.readFieldBegin garbage) (λ _, True).
Proof.
  eapply bin_bind; [apply bin_byte|]. intros type _. destruct (type =? BP.T_STOP); [by apply (safe_ret (P := proto))|].
  eapply bin_bind; [apply bin_number; lia|]. intros id _. by apply (safe_ret (P := proto)).
Qed.
Lemma bin_elems checked : safeB (BP.bind (BP.readByte garbage) (λ e, BP.bind (BP.readI32 garbage) (λ sizei,
  BP.bind (BP.container_size checked sizei) (λ size, BP.ret (e, size))))) (λ _, True).
Proof.
  eapply bin_bind; [apply bin_byte|]. intros e _. eapply bin_bind; [apply bin_int|]. intros n _.
  eapply bin_bind; [apply bin_container|]. intros size _. by apply (safe_ret (P := proto)).
Qed.
Lemma bin_map_begin : safeB (BP.readMapBegin garbage) (λ _, True).
Proof.
  eapply bin_bind; [apply bin_byte|]. intros k _. eapply bin_bind; [apply bin_byte|]. intros v _. eapply bin_bind; [apply bin_int|].
  intros n _. eapply bin_bind; [apply bin_container|]. intros size _. by apply (safe_ret (P := proto)).
Qed.
Lemma bin_address : safeB (BP.readIPADDR garbage) (λ _, True).
Proof.
  eapply bin_bind; [apply bin_byte|]. intros v _. repeat case_match; [apply bin_number; lia..|]. apply (safe_err (P := proto)).
Qed.

#[export] Instance binary_read_safe : ReadSafe (Protocol0 := GB.binary_protocol alloc_ok garbage) proto bin_inv.
Proof.
  split; try (intros; by apply (safe_ret (P := proto))).
  - apply bin_string.
  - intros o1 o2. apply (safe_map (P := proto)), bin_field.
  - intros o1 o2 o3. apply bin_map_begin.
  - intros o1 o2. apply bin_elems.
  - intros o1 o2. apply bin_elems.
  - intros ob ou s. destruct s; apply (safe_map (P := proto)); try (apply bin_number; lia); try apply bin_string; try apply bin_address.
    apply bin_raw. lia.
Qed.

End Binary.

(** Data of another schema: the port as a byte, the name, and a field that is not known.  The
    port is kept, the name is read. *)
#[local] Instance mem : Transport TB.TMemoryBuffer := TB.TMemoryBuffer_transport (λ _, true) (λ _, 0).
#[local] Instance mem_laws : TransportLaws TB.TMemoryBuffer := TB.TMemoryBuffer_laws (λ _, true) (λ _, 0).

Definition foreign : list Z := [3; 0; 2; 5; 11; 0; 1; 0; 0; 0; 1; 97; 8; 0; 30; 0; 0; 0; 9; 0].
(** Damaged data: a list that claims two billion elements, in a field of another type, then
    the end; the elements are followed all the same, since a read at the end is no error. *)
Definition damaged : list Z := [15; 0; 1; 8; 127; 255; 255; 255].
Definition holding (l : list Z) : BP.TBinaryProtocol TB.TMemoryBuffer :=
  let n := Z.of_nat (length l) in BP.new_TBinaryProtocol (TB.mkTMB l n 0 n n n true).
Definition example_start_members : list (bool * value) := match example_start with VStruct _ ms => ms | _ => [] end.

#[local] Instance bin : Protocol (BP.TBinaryProtocol TB.TMemoryBuffer) := GB.binary_protocol (λ _, true) (λ _, 255).

Example foreign_read : ∃ n s',
  read_object 0 example_less (λ _, true) 10 false example_members example_start (mkLog (holding foreign) 0 []) =
  Ret (BP.Ok n (VStruct [79] (<[0%nat := (false, VStr [97])]> example_start_members)), s') ∧
  fields s' = [(1%nat, BP.T_I32, 30); (1%nat, BP.T_STRING, 1); (1%nat, BP.T_BYTE, 2)].
Proof. eexists _, _. split; vm_compute; reflexivity. Qed.
Example damaged_read : ∃ s',
  read_object 0 example_less (λ _, true) 10 false example_members example_start (mkLog (holding damaged) 0 []) = Ret (BP.Diverge, s').
Proof. eexists. vm_compute. reflexivity. Qed.

Lemma generated_read_conforms_witness : ∃ r s',
  read_object 0 example_less (λ _, true) 10 false example_members (VStruct [79] example_start_members) (mkLog (holding foreign) 0 []) = Ret (r, s') ∧ bin_inv (proto s') ∧
  ∀ n v, r = BP.Ok n v → conforms (t_struct example_name example_members) v ∧ ∃ ms', v = VStruct [79] ms' ∧
    ∀ i m b x, example_members !! i = Some m → example_start_members !! i = Some (b, x) →
      (¬ came s' m → ms' !! i = Some (b, x)) ∧
      (came s' m → ∃ y, ms' !! i = Some (if bool_decide (get_req m.1 = T_REQUIRED) then b else true, y)) ∧
      (get_req m.1 = T_REQUIRED → came s' m).
Proof.
  apply (generated_read_conforms bin_inv 0 example_less (λ _, true) 10 false example_name example_members [79] example_start_members (holding foreign)).
  - done.
  - apply (bool_decide_unpack _). by vm_compute.
  - cbn. repeat split; try (by eexists); by constructor.
  - by constructor.
Defined.

(** ** Where the code differs from what it means to do *)

(** A list is made as long as the data says before an element of it is read: eight bytes ask
    for the memory of two billion elements, and nothing catches the failure. *)
Example declared_size_aborts :
  read_object 0 example_less (λ n, n <? 1000000) 10 false [(mkField 1 lit_name T_OPTIONAL [], t_list t_enum)]
    (VStruct [] [(false, VList [])]) (holding damaged) = Abort.
Proof. by vm_compute. Qed.

End GS.
