(* ===== verification/XmlProtocol.v ===== *)
(** * The XML protocol: src/sandesh/library/cpp/protocol/TXMLProtocol.cpp, TXMLProtocol.h

    [TXMLProtocol] writes every call as text: a tag for the beginning and the end of a
    struct, field or container, with the types and sizes as attributes, and the text of a
    value between them.  It reads with a look-ahead of one character, or of two where a
    field may be followed by the end of the struct.  The definitions follow the code
    without [TXMLPROTOCOL_DEBUG_PRETTY_PRINT].

    What boost provides - [replace_all], the tokenizer, the text of addresses and uuids -
    is the class [XmlLib], and [XmlLibLaws] is what its documentation says of it. *)

From stdpp Require Import list strings.
From S2P Require Import Prelude Transport BinaryProtocol Generated.
Open Scope Z_scope.

Module XP.

Abbreviation str := (list Z).

(** A string literal, as bytes *)
Fixpoint lit (s : string) : str :=
  match s with EmptyString => [] | String c s => Z.of_N (Ascii.N_of_ascii c) :: lit s end.

(** ** Library functions *)

Class XmlLib := {
  replace_all : str → str → str → str;              (* the string, what is replaced, by what *)
  tokenize : str → list str;                        (* separated by equal signs, double quotes and spaces *)
  address_to_string : BP.address → str;
  address_from_string : str → option BP.address;
  uuid_to_string : str → str;
  uuid_from_string : str → str → str;               (* operator>>, over the value the uuid had *)
  double_to_string : Z → str;
}.

(** *** Numbers as text (base/string_util.h, with strtoul of the C library) *)

Fixpoint digits (fuel : nat) (n : Z) (acc : str) : str :=
  match fuel with
  | O => acc
  | S fuel => let acc := (48 + n mod 10) :: acc in if n / 10 =? 0 then acc else digits fuel (n / 10) acc
  end.
(** A number of 64 bits has at most 20 digits. *)
Definition integerToString (n : Z) : str := if n <? 0 then 45 :: digits 20 (- n) [] else digits 20 n [].

Definition is_digit (c : Z) : bool := (48 <=? c) && (c <=? 57).
Definition is_space (c : Z) : bool := ((9 <=? c) && (c <=? 13)) || (c =? 32).

Fixpoint parse_digits (acc : Z) (s : str) : Z :=
  match s with c :: s => if is_digit c then parse_digits (acc * 10 + (c - 48)) s else acc | [] => acc end.
Fixpoint skip_spaces (s : str) : str :=
  match s with c :: s' => if is_space c then skip_spaces s' else s | [] => [] end.
Definition strtoul (s : str) : Z :=
  let '(negative, s) :=
    match skip_spaces s with
    | c :: s => if c =? 45 then (true, s) else if c =? 43 then (false, s) else (false, c :: s)
    | [] => (false, [])
    end in
  let n := parse_digits 0 s in
  if 2 ^ 64 <=? n then 2 ^ 64 - 1 else if negative : bool then u64 (- n) else n.

(** [num = strtoul(...)] for a number of [w] bits *)
Definition stringToInteger (signed : bool) (w : Z) (s : str) : Z :=
  if signed then swrap w (strtoul s) else wrap w (strtoul s).

(** ** Names of types *)

Definition kTypeNames : list (Z * str) :=
  [(BP.T_BOOL, lit "bool"); (BP.T_BYTE, lit "byte"); (BP.T_I16, lit "i16"); (BP.T_I32, lit "i32"); (BP.T_I64, lit "i64");
   (BP.T_U16, lit "u16"); (BP.T_U32, lit "u32"); (BP.T_U64, lit "u64"); (BP.T_IPV4, lit "ipv4");
   (BP.T_IPADDR, lit "ipaddr"); (BP.T_DOUBLE, lit "double"); (BP.T_STRING, lit "string"); (BP.T_STRUCT, lit "struct");
   (BP.T_MAP, lit "map"); (BP.T_SET, lit "set"); (BP.T_LIST, lit "list"); (BP.T_SANDESH, lit "sandesh");
   (BP.T_XML, lit "xml"); (BP.T_UUID, lit "uuid_t")].

Definition fieldTypeName (type : Z) : str :=
  match List.find (λ p, p.1 =? type) kTypeNames with Some p => p.2 | None => lit "unknown" end.

(** [name[i]]: the terminating zero may be read, nothing beyond it. *)
Definition char_at (name : str) (i : nat) : outcome Z :=
  match name !! i with Some c => Ret c | None => if (i =? length name)%nat then Ret 0 else Abort end.

Definition is_char (c : Z) (s : string) : bool := bool_decide ([c] = lit s).

Definition getTypeIDForTypeName (name : str) : outcome Z :=
  if (length name <=? 1)%nat then Ret BP.T_STOP
  else
    c0 ← char_at name 0; c1 ← char_at name 1;
    if is_char c0 "b" then
      Ret (if is_char c1 "o" then BP.T_BOOL else if is_char c1 "y" then BP.T_BYTE else BP.T_STOP)
    else if is_char c0 "d" then Ret BP.T_DOUBLE
    else if is_char c0 "i" then
      if is_char c1 "1" then Ret BP.T_I16
      else if is_char c1 "3" then Ret BP.T_I32
      else if is_char c1 "6" then Ret BP.T_I64
      else if is_char c1 "p" then
        c2 ← char_at name 2;
        Ret (if is_char c2 "a" then BP.T_IPADDR else if is_char c2 "v" then BP.T_IPV4 else BP.T_STOP)
      else Ret BP.T_STOP
    else if is_char c0 "l" then Ret BP.T_LIST
    else if is_char c0 "m" then Ret BP.T_MAP
    else if is_char c0 "s" then
      if is_char c1 "a" then Ret BP.T_SANDESH
      else if is_char c1 "e" then Ret BP.T_SET
      else if is_char c1 "t" then
        c3 ← char_at name 3;
        Ret (if is_char c3 "i" then BP.T_STRING else if is_char c3 "u" then BP.T_STRUCT else BP.T_STOP)
      else Ret BP.T_STOP
    else if is_char c0 "u" then
      Ret (if is_char c1 "1" then BP.T_U16 else if is_char c1 "3" then BP.T_U32
           else if is_char c1 "6" then BP.T_U64 else if is_char c1 "u" then BP.T_UUID else BP.T_STOP)
    else if is_char c0 "x" then Ret BP.T_XML
    else Ret BP.T_STOP.

(** ** Control characters *)

Definition escape_char (c : Z) : str :=
  if is_char c "&" then lit "&amp;" else if is_char c "'" then lit "&apos;"
  else if is_char c "<" then lit "&lt;" else if is_char c ">" then lit "&gt;" else [c].
Definition escapeXMLControlCharsInternal (s : str) : str := concat (map escape_char s).

Definition is_control (c : Z) : bool := is_char c "&" || is_char c "'" || is_char c "<" || is_char c ">".

(** [str.c_str()]: up to the first zero *)
Fixpoint c_str (s : str) : str := match s with c :: s => if c =? 0 then [] else c :: c_str s | [] => [] end.

Definition escapeXMLControlChars (s : str) : str :=
  if existsb is_control (c_str s) then escapeXMLControlCharsInternal s else s.

(** ** The protocol object *)

Inductive write_state_t := UNINIT | STRUCT | LIST | SET | MAP | SNDESH.
#[export] Instance write_state_eq_dec : EqDecision write_state_t.
Proof. solve_decision. Defined.

(** The vectors [write_state_] and [xml_state_] have their last element first; the
    members of [LookaheadReader] follow. *)
Record TXMLProtocol (T : Type) := mkXP {
  trans_ : T;
  write_state_ : list write_state_t;
  xml_state_ : list str;
  hasData_ : bool;
  data_ : Z;
  has2Data_ : bool;
  data2_ : Z * Z;
  firstRead_ : bool;
}.
Arguments mkXP {T}.
Arguments trans_ {T}.
Arguments write_state_ {T}.
Arguments xml_state_ {T}.
Arguments hasData_ {T}.
Arguments data_ {T}.
Arguments has2Data_ {T}.
Arguments data2_ {T}.
Arguments firstRead_ {T}.

Section Protocol.
Context `{!XmlLib} {T : Type} `{!Transport T}.
Context (fuel : nat).          (* how far a loop is followed *)
Context (uninit : Z).          (* what memory holds before it is assigned *)

Abbreviation proto := (TXMLProtocol T).
Abbreviation M := (GC.PM proto).
Notation "x <~ m ; f" := (GC.bind m (λ x, f)) (at level 20, m at level 100, f at level 200, only parsing).
Notation "m ;~ f" := (GC.bind m (λ _, f)) (at level 100, f at level 200, right associativity, only parsing).

Definition new_TXMLProtocol (trans : T) : proto := mkXP trans [UNINIT] [] false uninit false (uninit, uninit) false.

Definition with_trans (t : T) (p : proto) : proto :=
  mkXP t (write_state_ p) (xml_state_ p) (hasData_ p) (data_ p) (has2Data_ p) (data2_ p) (firstRead_ p).
Definition with_write (ws : list write_state_t) (xs : list str) (p : proto) : proto :=
  mkXP (trans_ p) ws xs (hasData_ p) (data_ p) (has2Data_ p) (data2_ p) (firstRead_ p).
Definition with_data (h : bool) (d : Z) (p : proto) : proto :=
  mkXP (trans_ p) (write_state_ p) (xml_state_ p) h d (has2Data_ p) (data2_ p) (firstRead_ p).
Definition with_data2 (h : bool) (d : Z * Z) (f : bool) (p : proto) : proto :=
  mkXP (trans_ p) (write_state_ p) (xml_state_ p) (hasData_ p) (data_ p) h d f.

(** ** Writing *)

Definition writePlain (s : str) : M unit := λ p,
  '(r, t) ← tr_write s (trans_ p);
  Ret (if negb (r =? 0) then BP.Err (-1) else BP.Ok (s32 (Z.of_nat (length s))) tt, with_trans t p).
(** The indentation is empty. *)
Definition writeIndented (s : str) : M unit := writePlain s.

Definition formXMLAttr (name value : str) : str := name ++ lit "=" ++ [34] ++ value ++ [34].

(** [xml_state_.push_back(name)], [write_state_.push_back(state)] *)
Definition push_name (name : str) : M unit := λ p, Ret (BP.Ok 0 tt, with_write (write_state_ p) (name :: xml_state_ p) p).
Definition push_state (s : write_state_t) : M unit := λ p,
  Ret (BP.Ok 0 tt, with_write (s :: write_state_ p) (xml_state_ p) p).
(** [back()] and [pop_back()] *)
Definition pop_name : M str := λ p,
  match xml_state_ p with n :: ns => Ret (BP.Ok 0 n, with_write (write_state_ p) ns p) | [] => Abort end.
Definition pop_state : M unit := λ p,
  match write_state_ p with _ :: ws => Ret (BP.Ok 0 tt, with_write ws (xml_state_ p) p) | [] => Abort end.
Definition back_state : M write_state_t := λ p,
  match write_state_ p with s :: _ => Ret (BP.Ok 0 s, p) | [] => Abort end.

Definition writeStructBegin (name : str) : M unit :=
  writeIndented (lit "<" ++ name ++ lit ">") ;~ push_name name.
Definition writeStructEnd : M unit :=
  etag <~ pop_name; writeIndented (lit "</" ++ etag ++ lit ">").
Definition writeSandeshBegin (name : str) : M unit :=
  writeIndented (lit "<" ++ name ++ lit " " ++ formXMLAttr (lit "type") (lit "sandesh") ++ lit ">") ;~ push_name name.
Definition writeSandeshEnd : M unit :=
  etag <~ pop_name; writeIndented (lit "</" ++ etag ++ lit ">").
Definition writeContainerElementBegin : M unit := writeIndented (lit "<element>").
Definition writeContainerElementEnd : M unit := writeIndented (lit "</element>").

Definition field_tag (name : str) (fieldType fieldId : Z) (amap : list (str * str)) : str :=
  lit "<" ++ name ++ lit " " ++ formXMLAttr (lit "type") (fieldTypeName fieldType) ++ lit " " ++
  formXMLAttr (lit "identifier") (integerToString fieldId) ++
  concat (map (λ a, lit " " ++ formXMLAttr a.1 a.2) amap) ++ lit ">".
Definition state_of_type (fieldType : Z) : write_state_t :=
  if fieldType =? BP.T_STRUCT then STRUCT else if fieldType =? BP.T_SANDESH then SNDESH
  else if fieldType =? BP.T_LIST then LIST else if fieldType =? BP.T_MAP then MAP
  else if fieldType =? BP.T_SET then SET else UNINIT.
Definition writeFieldBegin (name : str) (fieldType fieldId : Z) (amap : list (str * str)) : M unit :=
  writeIndented (field_tag name fieldType fieldId amap) ;~ push_name name ;~ push_state (state_of_type fieldType).
Definition writeFieldEnd : M unit :=
  etag <~ pop_name;
  state <~ back_state;
  ((if bool_decide (state = UNINIT) then writePlain (lit "</" ++ etag ++ lit ">")
    else writeIndented (lit "</" ++ etag ++ lit ">")) ;~ pop_state).
Definition writeFieldStop : M unit := GC.ret tt.

Definition map_tag (keyType valType size : Z) : str :=
  lit "<map " ++ formXMLAttr (lit "key") (fieldTypeName keyType) ++ lit " " ++
  formXMLAttr (lit "value") (fieldTypeName valType) ++ lit " " ++ formXMLAttr (lit "size") (integerToString size) ++ lit ">".
Definition elem_tag (kind : str) (elemType size : Z) : str :=
  lit "<" ++ kind ++ lit " " ++ formXMLAttr (lit "type") (fieldTypeName elemType) ++ lit " " ++
  formXMLAttr (lit "size") (integerToString size) ++ lit ">".
Definition writeMapBegin (keyType valType size : Z) : M unit := writeIndented (map_tag keyType valType size).
Definition writeMapEnd : M unit := writeIndented (lit "</map>").
Definition writeListBegin (elemType size : Z) : M unit := writeIndented (elem_tag (lit "list") elemType size).
Definition writeListEnd : M unit := writeIndented (lit "</list>").
Definition writeSetBegin (elemType size : Z) : M unit := writeIndented (elem_tag (lit "set") elemType size).
Definition writeSetEnd : M unit := writeIndented (lit "</set>").

Definition writeBool (value : bool) : M unit := writePlain (if value then lit "true" else lit "false").
Definition writeByte (byte : Z) : M unit := writePlain (integerToString byte).
Definition writeI16 (i16 : Z) : M unit := writePlain (integerToString i16).
Definition writeI32 (i32 : Z) : M unit := writePlain (integerToString i32).
Definition writeI64 (i64 : Z) : M unit := writePlain (integerToString i64).
Definition writeU16 (u16 : Z) : M unit := writePlain (integerToString u16).
Definition writeU32 (u : Z) : M unit := writePlain (integerToString u).
Definition writeU64 (u : Z) : M unit := writePlain (integerToString u).
Definition writeIPV4 (ip4 : Z) : M unit := writePlain (integerToString ip4).
Definition writeIPADDR (ipaddress : BP.address) : M unit := writePlain (address_to_string ipaddress).
Definition writeDouble (dub : Z) : M unit := writePlain (double_to_string dub).
Definition writeString (s : str) : M unit := writePlain (escapeXMLControlChars s).
Definition writeBinary (s : str) : M unit := writeString s.
Definition writeXML (s : str) : M unit := writePlain (lit "<![CDATA[" ++ s ++ lit "]]>").
Definition writeUUID (uuid : str) : M unit := writeString (uuid_to_string uuid).

(** ** Reading *)

(** *** [LookaheadReader]: the results of [readAll] are not looked at. *)

Definition fill1 (d : Z) (bs : str) : Z := match bs with b :: _ => b | [] => d end.
Definition fill2 (d : Z * Z) (bs : str) : Z * Z :=
  match bs with b :: b' :: _ => (b, b') | [b] => (b, d.2) | [] => d end.

Definition reader_read (p : proto) : outcome (Z * proto) :=
  if hasData_ p then Ret (data_ p, with_data false (data_ p) p)
  else if has2Data_ p then
    if firstRead_ p then Ret ((data2_ p).2, with_data2 false (data2_ p) false p)
    else Ret ((data2_ p).1, with_data2 true (data2_ p) true p)
  else
    '(_, bs, t) ← tr_readAll 1 (trans_ p);
    let d := fill1 (data_ p) bs in Ret (d, with_data false d (with_trans t p)).

Definition reader_peek (p : proto) : outcome (Z * proto) :=
  if hasData_ p then Ret (data_ p, p)
  else
    '(_, bs, t) ← tr_readAll 1 (trans_ p);
    let d := fill1 (data_ p) bs in Ret (d, with_data true d (with_trans t p)).

Definition reader_peek2 (p : proto) : outcome (Z * proto) :=
  if has2Data_ p then Ret ((data2_ p).2, p)
  else
    '(_, bs, t) ← tr_readAll 2 (trans_ p);
    let d := fill2 (data2_ p) bs in Ret (d.1, with_data2 true d (firstRead_ p) (with_trans t p)).

(** *** Characters and strings *)

Definition isXMLNumeric (ch : Z) : bool := is_digit ch || is_char ch "+" || is_char ch "-".

Definition readSyntaxChar (ch : Z) : M unit := λ p,
  '(ch2, p) ← reader_read p;
  Ret (if negb (ch2 =? ch) then BP.Err (-1) else BP.Ok 1 tt, p).
Fixpoint readSyntaxString (s : str) : M unit :=
  match s with [] => GC.ret tt | ch :: s => readSyntaxChar ch ;~ readSyntaxString s end.

Definition kcXMLTagO : Z := 60.
Definition kcXMLTagC : Z := 62.
Definition kcXMLSlash : Z := 47.
Definition kcXMLSBracketC : Z := 93.

(** [if (!read) { ch = peek(); read(); ++result; }] *)
Definition next_char (ch : option Z) (result : Z) (p : proto) : outcome (Z * Z * proto) :=
  match ch with
  | Some ch => Ret (ch, result, p)
  | None => '(ch, p) ← reader_peek p; '(_, p) ← reader_read p; Ret (ch, result + 1, p)
  end.

Fixpoint readXMLCDATA_loop (k : nat) (ch ch2 ch3 : option Z) (acc : str) (result : Z) (p : proto) :
    outcome (BP.res str * proto) :=
  match k with
  | O => Ret (BP.Diverge, p)
  | S k =>
      '(c, result, p) ← next_char ch result p;
      if c =? kcXMLSBracketC then
        '(c2, result, p) ← next_char ch2 result p;
        if c2 =? kcXMLSBracketC then
          '(c3, result, p) ← next_char ch3 result p;
          if c3 =? kcXMLTagC then Ret (BP.Ok (s32 result) acc, p)
          else readXMLCDATA_loop k (Some c2) (Some c3) None (acc ++ [c]) result p
        else readXMLCDATA_loop k (Some c2) None ch3 (acc ++ [c]) result p
      else readXMLCDATA_loop k None ch2 ch3 (acc ++ [c]) result p
  end.
Definition readXMLCDATA : M str :=
  readSyntaxString (lit "<![CDATA[") ;~ readXMLCDATA_loop fuel None None None [] 0.

(** Characters up to the first that stops *)
Fixpoint peek_until (stop : Z → bool) (k : nat) (acc : str) (result : Z) (p : proto) : outcome (BP.res str * proto) :=
  match k with
  | O => Ret (BP.Diverge, p)
  | S k =>
      '(ch, p) ← reader_peek p;
      if stop ch then Ret (BP.Ok (s32 result) acc, p)
      else '(_, p) ← reader_read p; peek_until stop k (acc ++ [ch]) (result + 1) p
  end.
Definition readXMLString : M str := peek_until (λ ch, ch =? kcXMLTagO) fuel [] 0.
Definition readXMLNumericChars : M str := peek_until (λ ch, negb (isXMLNumeric ch)) fuel [] 0.

Fixpoint readXMLTag_loop (k : nat) (acc : str) (result : Z) (p : proto) : outcome (BP.res str * proto) :=
  match k with
  | O => Ret (BP.Diverge, p)
  | S k =>
      '(ch, p) ← reader_read p;
      if ch =? kcXMLTagC then Ret (BP.Ok (s32 (result + 1)) acc, p)
      else readXMLTag_loop k (acc ++ [ch]) (result + 1) p
  end.
Definition readXMLTag (endTag : bool) : M str :=
  readSyntaxChar kcXMLTagO ;~
  (if endTag then readSyntaxChar kcXMLSlash else GC.ret tt) ;~
  readXMLTag_loop fuel [] 0.

Definition readXMLInteger (signed : bool) (w : Z) : M Z := GC.map_ret (stringToInteger signed w) readXMLNumericChars.

(** *** Attributes

    The loop over the tokens of a tag: each handler is [if ( *it == key) { ++it; ... *it ... }];
    the token past the end must not be looked at.  [None]: the function returns -1. *)
Fixpoint attributes_round {S} (handlers : list (str * (str → S → outcome (option S)))) (it : str) (rest : list str) (s : S) :
    outcome (option (list str * S)) :=
  match handlers with
  | [] => Ret (Some (rest, s))
  | (key, f) :: handlers =>
      if bool_decide (it = key) then
        match rest with
        | [] => Abort
        | it :: rest =>
            s ← f it s;
            match s with Some s => attributes_round handlers it rest s | None => Ret None end
        end
      else attributes_round handlers it rest s
  end.
Fixpoint attributes {S} (k : nat) (handlers : list (str * (str → S → outcome (option S)))) (its : list str) (s : S) :
    outcome (option S) :=
  match k, its with
  | _, [] | O, _ => Ret (Some s)
  | S k, it :: its =>
      r ← attributes_round handlers it its s;
      match r with Some (its, s) => attributes k handlers its s | None => Ret None end
  end.

(** The first token and what the attributes make of [s] *)
Definition tag_attributes {S} (handlers : list (str * (str → S → outcome (option S)))) (s : S) (tag : str) : M (str * S) := λ p,
  match tokenize tag with
  | [] => Abort
  | name :: its =>
      r ← attributes (length its) handlers its s;
      Ret (match r with Some s => BP.Ok 0 (name, s) | None => BP.Err (-1) end, p)
  end.

Definition readSandeshBegin : M str :=
  tag <~ readXMLTag false;
  GC.map_ret fst (tag_attributes
    [(lit "type", λ it s, Ret (if bool_decide (it = lit "sandesh") then Some s else None))] tt tag).
Definition readSandeshEnd : M unit := GC.ignore (readXMLTag true).
Definition readStructBegin : M str := readXMLTag false.
Definition readStructEnd : M unit := GC.ignore (readXMLTag true).
Definition readContainerElementBegin : M unit := GC.ignore (readXMLTag false).
Definition readContainerElementEnd : M unit := GC.ignore (readXMLTag true).

Definition readFieldBegin (fieldType fieldId : Z) : M (str * Z * Z) := λ p,
  '(ch, p) ← reader_peek2 p;
  '(ch1, p) ← reader_peek2 p;
  if (ch =? kcXMLTagO) && (ch1 =? kcXMLSlash) then Ret (BP.Ok 0 ([], BP.T_STOP, fieldId), p)
  else
    (tag <~ readXMLTag false;
     GC.map_ret (λ x, (x.1, x.2.1, x.2.2)) (tag_attributes
       [(lit "type", λ it s, t ← getTypeIDForTypeName it; Ret (Some (t, s.2)));
        (lit "identifier", λ it s, Ret (Some (s.1, stringToInteger true 16 it)))] (fieldType, fieldId) tag)) p.
Definition readFieldEnd : M unit := GC.ignore (readXMLTag true).

(** The first token must be the name of the container. *)
Definition container_attributes {S} (kind : str) (handlers : list (str * (str → S → outcome (option S)))) (s : S) : M S :=
  tag <~ readXMLTag false;
  (λ p, match tokenize tag with
        | [] => Abort
        | name :: _ =>
            if negb (bool_decide (name = kind)) then Ret (BP.Err (-1), p)
            else GC.map_ret snd (tag_attributes handlers s tag) p
        end).

Definition readMapBegin (keyType valType size : Z) : M (Z * Z * Z) :=
  container_attributes (lit "map")
    [(lit "key", λ it s, t ← getTypeIDForTypeName it; Ret (Some (t, s.1.2, s.2)));
     (lit "value", λ it s, t ← getTypeIDForTypeName it; Ret (Some (s.1.1, t, s.2)));
     (lit "size", λ it s, Ret (Some (s.1.1, s.1.2, stringToInteger false 32 it)))] (keyType, valType, size).
Definition readMapEnd : M unit := GC.ignore (readXMLTag true).

Definition elem_handlers : list (str * (str → Z * Z → outcome (option (Z * Z)))) :=
  [(lit "type", λ it s, t ← getTypeIDForTypeName it; Ret (Some (t, s.2)));
   (lit "size", λ it s, Ret (Some (s.1, stringToInteger false 32 it)))].
Definition readListBegin (elemType size : Z) : M (Z * Z) := container_attributes (lit "list") elem_handlers (elemType, size).
Definition readListEnd : M unit := GC.ignore (readXMLTag true).
Definition readSetBegin (elemType size : Z) : M (Z * Z) := container_attributes (lit "set") elem_handlers (elemType, size).
Definition readSetEnd : M unit := GC.ignore (readXMLTag true).

Definition readByte : M Z := readXMLInteger true 8.
Definition readI16 : M Z := readXMLInteger true 16.
Definition readI32 : M Z := readXMLInteger true 32.
Definition readI64 : M Z := readXMLInteger true 64.
Definition readU16 : M Z := readXMLInteger false 16.
Definition readU32 : M Z := readXMLInteger false 32.
Definition readU64 : M Z := readXMLInteger false 64.
Definition readIPV4 : M Z := readXMLInteger false 32.
Definition readIPADDR : M BP.address := λ p,
  '(r, p) ← readXMLString p;
  Ret (match r with
       | BP.Ok n s => match address_from_string s with Some a => BP.Ok n a | None => BP.Err (-1) end
       | BP.Err c => BP.Err c | BP.Diverge => BP.Diverge
       end, p).
(** [assert(false)] *)
Definition readDouble : M Z := λ _, Abort.

Definition unescapeXMLControlChars (s : str) : str :=
  let s := replace_all s (lit "&amp;") (lit "&") in
  let s := replace_all s (lit "&apos;") (lit "'") in
  let s := replace_all s (lit "&lt;") (lit "<") in
  replace_all s (lit "&gt;") (lit ">").

Definition readString : M str := λ p,
  '(r, p) ← readXMLString p;
  Ret (match r with
       | BP.Ok _ s => let s := unescapeXMLControlChars s in BP.Ok (s32 (Z.of_nat (length s))) s
       | BP.Err c => BP.Err c | BP.Diverge => BP.Diverge
       end, p).
Definition readBool (value : bool) : M bool :=
  GC.map_ret (λ s, if bool_decide (s = lit "true") then true else if bool_decide (s = lit "false") then false else value)
    readXMLString.
Definition readBinary : M str := readXMLString.
Definition readXML : M str := readXMLCDATA.
Definition readUUID (uuid : str) : M str := GC.map_ret (λ s, uuid_from_string s uuid) readXMLString.

#[export] Instance xml_protocol : GC.Protocol proto := {|
  GC.writeStructBegin := writeStructBegin; GC.writeStructEnd := writeStructEnd;
  GC.writeSandeshBegin := writeSandeshBegin; GC.writeSandeshEnd := writeSandeshEnd;
  GC.writeFieldBegin := writeFieldBegin; GC.writeFieldEnd := writeFieldEnd; GC.writeFieldStop := writeFieldStop;
  GC.writeMapBegin := writeMapBegin; GC.writeMapEnd := writeMapEnd; GC.writeListBegin := writeListBegin;
  GC.writeListEnd := writeListEnd; GC.writeSetBegin := writeSetBegin; GC.writeSetEnd := writeSetEnd;
  GC.writeContainerElementBegin := writeContainerElementBegin; GC.writeContainerElementEnd := writeContainerElementEnd;
  GC.writeBool := writeBool; GC.writeByte := writeByte; GC.writeI16 := writeI16; GC.writeI32 := writeI32;
  GC.writeI64 := writeI64; GC.writeU16 := writeU16; GC.writeU32 := writeU32; GC.writeU64 := writeU64;
  GC.writeIPV4 := writeIPV4; GC.writeIPADDR := writeIPADDR; GC.writeDouble := writeDouble;
  GC.writeString := writeString; GC.writeBinary := writeBinary; GC.writeXML := writeXML; GC.writeUUID := writeUUID;
  GC.readStructBegin := readStructBegin; GC.readStructEnd := readStructEnd; GC.readSandeshBegin := readSandeshBegin;
  GC.readSandeshEnd := readSandeshEnd; GC.readFieldBegin := readFieldBegin; GC.readFieldEnd := readFieldEnd;
  GC.readMapBegin := readMapBegin; GC.readMapEnd := readMapEnd; GC.readListBegin := readListBegin;
  GC.readListEnd := readListEnd; GC.readSetBegin := readSetBegin; GC.readSetEnd := readSetEnd;
  GC.readContainerElementBegin := readContainerElementBegin; GC.readContainerElementEnd := readContainerElementEnd;
  GC.readBool := readBool; GC.readByte := readByte; GC.readI16 := readI16; GC.readI32 := readI32; GC.readI64 := readI64;
  GC.readU16 := readU16; GC.readU32 := readU32; GC.readU64 := readU64; GC.readIPV4 := readIPV4;
  GC.readIPADDR := readIPADDR; GC.readDouble := readDouble; GC.readString := readString; GC.readBinary := readBinary;
  GC.readXML := readXML; GC.readUUID := readUUID |}.

End Protocol.
End XP.
