(* ===== verification/XmlText.v ===== *)
(** * Text in the XML protocol: what is written is read back

    Numbers, names of types and control characters of [XmlProtocol]: each way of writing a
    value as text has an inverse in the reader.  [XmlLibLaws] states what the code relies
    on of boost's string algorithms. *)

From stdpp Require Import list strings.
From S2P Require Import Prelude Transport BinaryProtocol Generated XmlProtocol.
Open Scope Z_scope.

Module XT.
Import XP.

(** [f] occurs in [s]. *)
Definition occurs (f s : str) : Prop := ∃ a b, s = a ++ f ++ b.

Definition separator (c : Z) : Prop := c = 61 ∨ c = 34 ∨ c = 32.

(** Addresses of 4 and 16 bytes *)
Definition octets (n : nat) (l : str) : Prop := length l = n ∧ Forall (λ b, 0 ≤ b < 256) l.
Definition address_ok (a : BP.address) : Prop := match a with BP.V4 l => octets 4 l | BP.V6 l => octets 16 l end.

(** [replace_all] replaces the occurrences from the left; [tokenize] gives the parts between
    separators that are not empty; addresses and uuids are read from their text, which
    has no control characters. *)
Class XmlLibLaws `{!XmlLib} := {
  replace_none s f t : ¬ occurs f s → replace_all s f t = s;
  replace_first a f b t : f ≠ [] → ¬ occurs f (a ++ removelast f) → replace_all (a ++ f ++ b) f t = a ++ t ++ replace_all b f t;
  tokenize_nil : tokenize [] = [];
  tokenize_sep c s : separator c → tokenize (c :: s) = tokenize s;
  tokenize_word w c s : w ≠ [] → Forall (λ c, ¬ separator c) w → separator c → tokenize (w ++ c :: s) = w :: tokenize s;
  tokenize_last w : w ≠ [] → Forall (λ c, ¬ separator c) w → tokenize w = [w];
  address_text a : address_ok a → address_from_string (address_to_string a) = Some a ∧
    Forall (λ c, is_control c = false) (address_to_string a);
  uuid_text u old : octets 16 u → uuid_from_string (uuid_to_string u) old = u ∧
    Forall (λ c, is_control c = false) (uuid_to_string u);
}.

(** ** Numbers *)

Lemma digits_app k n acc : digits k n acc = digits k n [] ++ acc.
Proof.
  revert n acc. induction k as [|k IH]; intros n acc; cbn; [done|]. destruct (n / 10 =? 0); [done|].
  rewrite (IH _ (_ :: acc)), (IH _ [_]). by rewrite <- app_assoc.
Qed.

Lemma parse_snoc a l d : Forall (λ c, is_digit c = true) l → is_digit d = true →
  parse_digits a (l ++ [d]) = parse_digits a l * 10 + (d - 48).
Proof.
  intros Hl Hd. revert a. induction Hl as [|c l Hc _ IH]; intros a; cbn; [by rewrite Hd|]. by rewrite Hc.
Qed.

Lemma digits_spec k n : 0 ≤ n < 10 ^ Z.of_nat k → (0 < k)%nat →
  Forall (λ c, is_digit c = true) (digits k n []) ∧ parse_digits 0 (digits k n []) = n ∧ digits k n [] ≠ [].
Proof.
  revert n. induction k as [|k IH]; intros n Hn Hk; [lia|]. cbn [digits]. set (d := 48 + n mod 10).
  assert (Hd : is_digit d = true) by (unfold is_digit, d; pose proof (Z.mod_pos_bound n 10); lia).
  destruct (Z.eqb_spec (n / 10) 0) as [E0|Hne].
  - split_and!; [by repeat constructor| |done]. cbn. rewrite Hd. pose proof (Z.div_mod n 10). unfold d. lia.
  - assert (Hk' : (0 < k)%nat) by (destruct k; [cbn in Hn; pose proof (Z.div_small n 10); lia|lia]).
    rewrite Nat2Z.inj_succ, Z.pow_succ_r in Hn by lia.
    destruct (IH (n / 10)) as (H1 & H2 & H3); [|done|].
    { split; [apply Z.div_pos; lia|]. apply Z.div_lt_upper_bound; lia. }
    rewrite digits_app. split_and!.
    + apply Forall_app. split; [done|]. by repeat constructor.
    + rewrite parse_snoc, H2 by done. pose proof (Z.div_mod n 10). unfold d. lia.
    + by intros [_ ?]%app_nil.
Qed.

Lemma digit_plain c : is_digit c = true → is_space c = false ∧ c ≠ 45 ∧ c ≠ 43.
Proof. unfold is_digit, is_space. lia. Qed.

(** The text of a number of at most 64 bits is read back. *)
Lemma strtoul_integerToString n : - 2 ^ 63 ≤ n < 2 ^ 64 → strtoul (integerToString n) = u64 n.
Proof.
  intros Hn. unfold integerToString, strtoul. destruct (Z.ltb_spec n 0) as [Hneg|Hpos].
  - destruct (digits_spec 20 (- n)) as (_ & Hp & _); [lia|lia|]. revert Hp. generalize (digits 20 (- n) []). intros l Hp. cbn [skip_spaces]. change (is_space 45) with false.
    cbn beta iota zeta. change (45 =? 45) with true. cbn beta iota zeta. rewrite Hp.
    rewrite (proj2 (Z.leb_gt _ _)) by lia. by rewrite Z.opp_involutive.
  - destruct (digits_spec 20 n) as (Hd & Hp & Hne); [lia|lia|]. destruct (digits 20 n []) as [|c l]; [done|].
    apply Forall_cons in Hd as [Hc _]. destruct (digit_plain c Hc) as (Hs & H45%Z.eqb_neq & H43%Z.eqb_neq).
    cbn [skip_spaces]. rewrite Hs, H45, H43, Hp. rewrite (proj2 (Z.leb_gt _ _)) by lia. symmetry. apply wrap_small. lia.
Qed.

Lemma wrap_wrap w z : 0 ≤ w ≤ 64 → wrap w (u64 z) = wrap w z.
Proof.
  intros Hw. unfold wrap. rewrite (pow2_split w 64) by done. rewrite Z.rem_mul_r by lia.
  rewrite Z.mul_comm, Z_mod_plus_full, Z.mod_mod by lia. done.
Qed.

Lemma integer_text_unsigned w n : 0 < w ≤ 64 → 0 ≤ n < 2 ^ w → stringToInteger false w (integerToString n) = n.
Proof.
  intros Hw Hn. assert (2 ^ w ≤ 2 ^ 64) by (apply Z.pow_le_mono_r; lia). unfold stringToInteger.
  rewrite strtoul_integerToString, wrap_wrap by lia. by apply wrap_small.
Qed.

Lemma integer_text_signed w n : 0 < w ≤ 64 → - 2 ^ (w - 1) ≤ n < 2 ^ (w - 1) → stringToInteger true w (integerToString n) = n.
Proof.
  intros Hw Hn. assert (2 ^ (w - 1) ≤ 2 ^ 63) by (apply Z.pow_le_mono_r; lia). unfold stringToInteger.
  rewrite strtoul_integerToString by lia.
  replace (swrap w (u64 n)) with (swrap w (wrap w (u64 n))).
  - rewrite wrap_wrap by lia. apply BP.swrap_of_mod; lia.
  - unfold swrap, wrap. by rewrite Z.add_mod_idemp_l by lia.
Qed.

(** Its characters are those the reader accepts. *)
Lemma integer_chars n : - 2 ^ 63 ≤ n < 2 ^ 64 → Forall (λ c, isXMLNumeric c = true) (integerToString n).
Proof.
  intros Hn. unfold integerToString.
  assert (Hall : ∀ m, 0 ≤ m < 10 ^ 20 → Forall (λ c, isXMLNumeric c = true) (digits 20 m [])).
  { intros m Hm. destruct (digits_spec 20 m) as (Hd & _); [done|lia|]. eapply Forall_impl; [exact Hd|].
    intros c Hc. unfold isXMLNumeric. by rewrite Hc. }
  destruct (n <? 0) eqn:?; [constructor; [done|]|]; apply Hall; lia.
Qed.

(** ** Names of types *)

Lemma type_name_roundtrip t : t ∈ kTypeNames.*1 → getTypeIDForTypeName (fieldTypeName t) = Ret t.
Proof.
  intros Ht. assert (Hall : Forall (λ t, getTypeIDForTypeName (fieldTypeName t) = Ret t) kTypeNames.*1).
  { repeat (apply Forall_cons; split; [by vm_compute|]). by apply Forall_nil. }
  rewrite Forall_forall in Hall. by apply Hall.
Qed.

(** What the tokenizer and the tags need of a name *)
Definition word (w : str) : Prop := w ≠ [] ∧ Forall (λ c, ¬ separator c ∧ c ≠ 62) w.

Lemma type_name_word t : t ∈ kTypeNames.*1 → word (fieldTypeName t) ∧ fieldTypeName t ∉ [lit "type"; lit "identifier"; lit "key"; lit "value"; lit "size"].
Proof.
  intros Ht. assert (Hall : Forall (λ t, let w := fieldTypeName t in
    bool_decide (w ≠ []) && forallb (λ c, negb (c =? 61) && negb (c =? 34) && negb (c =? 32) && negb (c =? 62)) w &&
    bool_decide (w ∉ [lit "type"; lit "identifier"; lit "key"; lit "value"; lit "size"]) = true) kTypeNames.*1).
  { repeat (apply Forall_cons; split; [by vm_compute|]). by apply Forall_nil. }
  rewrite Forall_forall in Hall. specialize (Hall t Ht). cbv zeta in Hall.
  apply andb_prop in Hall as [[H1%bool_decide_eq_true H2]%andb_prop H3%bool_decide_eq_true]. split; [|done]. split; [done|].
  apply Forall_forall. intros c Hc. rewrite forallb_forall in H2. apply list_elem_of_In in Hc. specialize (H2 c Hc). unfold separator. lia.
Qed.

Lemma integer_word n : - 2 ^ 63 ≤ n < 2 ^ 64 → word (integerToString n).
Proof.
  intros Hn. split.
  - unfold integerToString. destruct (n <? 0) eqn:?; [done|]. apply digits_spec; lia.
  - eapply Forall_impl; [by apply integer_chars|]. cbn. intros c Hc. unfold separator.
    split; [intros [-> |[-> | ->]]; by vm_compute in Hc|intros ->; by vm_compute in Hc].
Qed.

(** ** Control characters *)

Lemma occurs_cons f c s : occurs f s → occurs f (c :: s).
Proof. intros (a & b & ->). by exists (c :: a), b. Qed.
Lemma occurs_prefix f s : f `prefix_of` s → occurs f s.
Proof. intros [b ->]. by exists [], b. Qed.
Lemma occurs_cons_inv f c s : occurs f (c :: s) → f `prefix_of` c :: s ∨ occurs f s.
Proof. intros ([|c' a] & b & E); [left; by exists b|]. injection E as _ ->. right. by exists a, b. Qed.
Lemma occurs_length f s : occurs f s → (length f ≤ length s)%nat.
Proof. intros (a & b & ->). rewrite !length_app. lia. Qed.

#[export] Instance occurs_dec f s : Decision (occurs f s).
Proof.
  induction s as [|c s IH].
  - destruct f as [|x f]; [left; by exists [], []|right]. intros Ho%occurs_length. cbn in Ho. lia.
  - destruct (decide (f `prefix_of` c :: s)); [left; by apply occurs_prefix|].
    destruct IH; [left; by apply occurs_cons|right]. by intros [?|?]%occurs_cons_inv.
Defined.

Lemma removelast_prefix (f : str) : removelast f `prefix_of` f.
Proof.
  destruct f as [|c f]; [done|]. exists [List.last (c :: f) 0]. by apply app_removelast_last.
Qed.
Lemma removelast_length (f : str) : f ≠ [] → (length (removelast f) < length f)%nat.
Proof. intros Hf. rewrite (app_removelast_last 0 Hf) at 2. rewrite length_app. cbn. lia. Qed.

(** An occurrence that no other precedes *)
Lemma first_occurrence f s : f ≠ [] → occurs f s → ∃ a b, s = a ++ f ++ b ∧ ¬ occurs f (a ++ removelast f).
Proof.
  intros Hf. induction s as [|c s IH]; intros Ho.
  { apply occurs_length in Ho. destruct f; [done|cbn in Ho; lia]. }
  destruct (decide (f `prefix_of` c :: s)) as [[b Eb]|Hp].
  { exists [], b. split; [done|]. intros Hc%occurs_length. pose proof (removelast_length f Hf). cbn in Hc. lia. }
  apply occurs_cons_inv in Ho as [?|Ho]; [done|]. destruct (IH Ho) as (a & b & -> & Hn). exists (c :: a), b. split; [done|].
  intros [Hpre|?]%occurs_cons_inv; [|done]. apply Hp. transitivity (c :: a ++ removelast f); [done|].
  apply (prefix_app (c :: a)). transitivity f; [apply removelast_prefix|by exists b].
Qed.

Section Laws.
Context `{!XmlLib, !XmlLibLaws}.

Lemma replace_match f b t : f ≠ [] → replace_all (f ++ b) f t = t ++ replace_all b f t.
Proof.
  intros Hf. apply (replace_first [] f b t Hf). intros Hc%occurs_length. pose proof (removelast_length f Hf). cbn in Hc. lia.
Qed.

Lemma replace_step c s f t : f ≠ [] → ¬ f `prefix_of` c :: s → replace_all (c :: s) f t = c :: replace_all s f t.
Proof.
  intros Hf Hp. destruct (decide (occurs f s)) as [Ho|Ho].
  - destruct (first_occurrence f (c :: s) Hf (occurs_cons _ _ _ Ho)) as (a & b & E & Hn).
    destruct a as [|c' a]; [exfalso; apply Hp; by exists b|]. injection E as <- ->.
    change (c :: a ++ f ++ b) with ((c :: a) ++ f ++ b). rewrite (replace_first (c :: a)) by done. rewrite (replace_first a); [done..|].
    intros Hc. apply Hn. by apply occurs_cons.
  - rewrite !replace_none; [done..|]. by intros [?|?]%occurs_cons_inv.
Qed.

(** The entity of a control character: an ampersand, then no other ampersand *)
Lemma entity c : is_control c = true → ∃ body, escape_char c = 38 :: body ∧ Forall (λ x, x ≠ 38) body ∧ body ≠ [].
Proof.
  unfold is_control, escape_char. destruct (is_char c "&"); [intros _; by eexists; split; [done|]; split; [repeat constructor|]|].
  destruct (is_char c "'"); [intros _; by eexists; split; [done|]; split; [repeat constructor|]|].
  destruct (is_char c "<"); [intros _; by eexists; split; [done|]; split; [repeat constructor|]|].
  destruct (is_char c ">"); [intros _; by eexists; split; [done|]; split; [repeat constructor|]|]. done.
Qed.

Lemma control_cases c : is_control c = true → c = 38 ∨ c = 39 ∨ c = 60 ∨ c = 62.
Proof.
  unfold is_control, is_char. rewrite !orb_true_iff, !bool_decide_eq_true. intros [[[[= ->]|[= ->]]|[= ->]]|[= ->]]; tauto.
Qed.

(** Two entities differ before either ends. *)
Lemma entities_apart c x r : is_control c = true → is_control x = true → c ≠ x → ¬ escape_char x `prefix_of` escape_char c ++ r.
Proof.
  intros [->|[->|[-> | ->]]]%control_cases [->|[->|[-> | ->]]]%control_cases Hne [k E]; by (done || discriminate E).
Qed.

(** Some of the characters are escaped. *)
Definition escape_some (S : Z → bool) (s : str) : str := concat (map (λ c, if S c then escape_char c else [c]) s).

Lemma replace_walk w r f t : Forall (λ x, x ≠ 38) w → (∃ f', f = 38 :: f') → replace_all (w ++ r) f t = w ++ replace_all r f t.
Proof.
  intros Hw [f' ->]. induction Hw as [|c w Hc _ IH]; cbn [app]; [done|].
  rewrite replace_step, IH; [done..|]. intros [k [= Ex _]]. congruence.
Qed.

(** A text without ampersands is at the start of the escaped string only where it is at
    the start of the string. *)
Lemma prefix_escaped S w s : Forall (λ x, x ≠ 38) w → (∀ c, S c = true → is_control c = true) →
  w `prefix_of` escape_some S s → w `prefix_of` s.
Proof.
  intros Hw HS. revert s. induction Hw as [|x w Hx _ IH]; intros s Hp; [apply prefix_nil|].
  destruct s as [|c s]; [by apply prefix_nil_inv in Hp|]. unfold escape_some in Hp. cbn [map concat] in Hp. destruct (S c) eqn:Sc.
  - destruct (entity c (HS c Sc)) as (body & E & _). rewrite E in Hp. destruct Hp as [k [= Ex _]]. congruence.
  - cbn [app] in Hp. apply prefix_cons_inv_1 in Hp as Hc. apply prefix_cons_inv_2 in Hp. subst c. apply prefix_cons. by apply IH.
Qed.

(** Replacing the entity of [x] undoes the escaping of [x]. *)
Lemma replace_entity S x s : S x = true → (∀ c, S c = true → is_control c = true) →
  (S 38 = false → ¬ occurs (escape_char x) s) →
  replace_all (escape_some S s) (escape_char x) [x] = escape_some (λ c, S c && negb (c =? x)) s.
Proof.
  intros Sx HS Hno. destruct (entity x (HS x Sx)) as (body & E & Hb & Hne).
  assert (Hf : escape_char x ≠ []) by (by rewrite E).
  induction s as [|c s IH]; unfold escape_some; cbn [map concat].
  { apply replace_none. intros Hc%occurs_length. rewrite E in Hc. cbn in Hc. lia. }
  fold (escape_some S s). fold (escape_some (λ c, S c && negb (c =? x)) s).
  rewrite <- IH by (intros H38 Ho; apply (Hno H38); by apply occurs_cons).
  destruct (S c) eqn:Sc; cbn [andb].
  - destruct (Z.eqb_spec c x) as [->|Hcx]; cbn [negb]; [by apply replace_match|].
    pose proof (entities_apart c x (escape_some S s) (HS c Sc) (HS x Sx) Hcx) as Hap.
    destruct (entity c (HS c Sc)) as (bc & Ec & Hbc & _). rewrite Ec in Hap |- *. cbn [app] in Hap |- *.
    rewrite replace_step by done. f_equal. apply replace_walk; [done|by exists body].
  - cbn [app]. apply replace_step; [done|]. rewrite E. intros Hp. destruct Hp as [k Ek]. injection Ek as Ec Ek. subst c.
    apply (Hno Sc). rewrite E. apply occurs_prefix, prefix_cons. apply (prefix_escaped S); [done..|by exists k].
Qed.

(** No entity but that of the ampersand, and no zero *)
Definition no_entities (s : str) : Prop :=
  ¬ occurs (lit "&apos;") s ∧ ¬ occurs (lit "&lt;") s ∧ ¬ occurs (lit "&gt;") s ∧ Forall (λ c, c ≠ 0) s.

Lemma c_str_id s : Forall (λ c, c ≠ 0) s → c_str s = s.
Proof. induction 1 as [|c s Hc _ IH]; cbn; [done|]. by rewrite (proj2 (Z.eqb_neq _ _) Hc), IH. Qed.

Lemma escape_some_ext S1 S2 s : Forall (λ c, S1 c = S2 c) s → escape_some S1 s = escape_some S2 s.
Proof. unfold escape_some. induction 1 as [|c s Hc _ IH]; cbn; [done|]. by rewrite Hc, IH. Qed.

Lemma escape_is_some s : Forall (λ c, c ≠ 0) s → escapeXMLControlChars s = escape_some is_control s.
Proof.
  intros Hs. unfold escapeXMLControlChars, escapeXMLControlCharsInternal, escape_some. rewrite c_str_id by done.
  destruct (existsb is_control s) eqn:Ex.
  - f_equal. apply map_ext. intros c. destruct (is_control c) eqn:Hc; [done|]. unfold is_control in Hc. unfold escape_char.
    destruct (is_char c "&"), (is_char c "'"), (is_char c "<"), (is_char c ">"); done.
  - clear Hs. induction s as [|c s IH]; cbn in *; [done|]. apply orb_false_iff in Ex as [-> Hs]. cbn. by rewrite <- IH.
Qed.

Lemma escape_some_none S s : (∀ c, S c = false) → escape_some S s = s.
Proof. intros HS. unfold escape_some. induction s as [|c s IH]; cbn; [done|]. by rewrite HS, IH. Qed.

(** The reader undoes the escaping of a string without entities. *)
Lemma unescape_escape s : no_entities s → unescapeXMLControlChars (escapeXMLControlChars s) = s.
Proof.
  intros (Ha & Hl & Hg & Hz). rewrite escape_is_some by done. unfold unescapeXMLControlChars. cbv zeta.
  change (lit "&amp;") with (escape_char 38). change (lit "&apos;") with (escape_char 39) in *.
  change (lit "&lt;") with (escape_char 60) in *. change (lit "&gt;") with (escape_char 62) in *.
  change (lit "&") with [38]. change (lit "'") with [39]. change (lit "<") with [60]. change (lit ">") with [62].
  rewrite (replace_entity _ 38), (replace_entity _ 39), (replace_entity _ 60), (replace_entity _ 62); try done.
  - apply escape_some_none. intros c. apply not_true_is_false. intros Hc.
    apply andb_prop in Hc as [[[[Hc H1]%andb_prop H2]%andb_prop H3]%andb_prop H4]. apply control_cases in Hc. lia.
  - intros c. rewrite !andb_true_iff. tauto.
  - intros c. rewrite !andb_true_iff. tauto.
  - intros c. rewrite !andb_true_iff. tauto.
Qed.

End Laws.
End XT.
