(* ===== verification/XmlThms.v ===== *)
(** * The generated code over the XML protocol

    The reader of [XmlProtocol] against the text that its writer produces: tags and their
    attributes, strings, numbers, CDATA sections, with the look-ahead of the reader.  The
    operations keep the laws of [Generated], so that objects are read back from their
    text.  At the end, what the reader does with other texts. *)

From stdpp Require Import list strings.
From S2P Require Import Prelude Transport BinaryProtocol Generated XmlProtocol XmlText.
Open Scope Z_scope.

Module XR.
Import XP XT.

Section Reader.
Context `{!XmlLib, !XmlLibLaws} {T : Type} `{!Transport T, !TransportLaws T} (fuel : nat).

(** ** The look-ahead *)

(** The characters that were taken off the transport and not yet read *)
Definition ahead (p : TXMLProtocol T) : str :=
  (if hasData_ p then [data_ p] else []) ++
  (if has2Data_ p then (if firstRead_ p then [] else [(data2_ p).1]) ++ [(data2_ p).2] else []).
Definition pending (p : TXMLProtocol T) : str := ahead p ++ content (trans_ p).

(** Only one kind of look-ahead is in use. *)
Definition look_ok (p : TXMLProtocol T) : Prop :=
  valid (trans_ p) ∧ (hasData_ p = true → has2Data_ p = false) ∧ (has2Data_ p = false → firstRead_ p = false).

Lemma ahead_length p : look_ok p → (length (ahead p) ≤ 2)%nat.
Proof. intros (_ & H1 & _). unfold ahead. destruct (hasData_ p), (has2Data_ p), (firstRead_ p); cbn; try lia; by specialize (H1 eq_refl). Qed.

Lemma read_char p c rest : look_ok p → pending p = c :: rest →
  ∃ p', reader_read p = Ret (c, p') ∧ look_ok p' ∧ pending p' = rest ∧ length (ahead p') = pred (length (ahead p)).
Proof.
  intros (Hv & H1 & H2) Hp. unfold pending, ahead in Hp. unfold reader_read.
  destruct (hasData_ p) eqn:E1.
  { specialize (H1 eq_refl). rewrite H1 in Hp. injection Hp as -> <-. eexists. split; [done|].
    unfold look_ok, pending, ahead. cbn. rewrite E1, H1. cbn. by split_and!; auto. }
  destruct (has2Data_ p) eqn:E2.
  { destruct (firstRead_ p) eqn:E3; injection Hp as -> <-; (eexists; split; [done|]);
      unfold look_ok, pending, ahead; cbn; rewrite ?E1, ?E2, ?E3; cbn; by split_and!. }
  cbn in Hp. destruct (readAll_law (trans_ p) [c] rest Hv Hp) as (t & Et & Vt & Ct). change (Z.of_nat (length [c])) with 1 in Et.
  rewrite Et. cbn. eexists. split; [done|]. unfold look_ok, pending, ahead. cbn. rewrite E1, E2. cbn. by split_and!; auto.
Qed.

Lemma peek_char p c rest : look_ok p → ahead p = [] → pending p = c :: rest →
  ∃ p' p'', reader_peek p = Ret (c, p') ∧ look_ok p' ∧ pending p' = c :: rest ∧
    reader_read p' = Ret (c, p'') ∧ look_ok p'' ∧ pending p'' = rest ∧ ahead p'' = [].
Proof.
  intros (Hv & H1 & H2) Ha Hp. unfold pending in Hp. rewrite Ha in Hp. unfold ahead in Ha. unfold reader_peek.
  destruct (hasData_ p) eqn:E1; [done|]. destruct (has2Data_ p) eqn:E2; [by destruct (firstRead_ p)|]. cbn in Hp.
  destruct (readAll_law (trans_ p) [c] rest Hv Hp) as (t & Et & Vt & Ct). change (Z.of_nat (length [c])) with 1 in Et.
  rewrite Et. cbn. exists (with_data true c (with_trans t p)), (with_data false c (with_trans t p)). split; [done|].
  unfold reader_read, look_ok, pending, ahead. cbn. rewrite E2. cbn. by rewrite Ct; split_and!; auto.
Qed.

Lemma peek2_chars p c1 c2 rest : look_ok p → ahead p = [] → pending p = c1 :: c2 :: rest →
  ∃ p', reader_peek2 p = Ret (c1, p') ∧ reader_peek2 p' = Ret (c2, p') ∧ look_ok p' ∧ pending p' = c1 :: c2 :: rest.
Proof.
  intros (Hv & H1 & H2) Ha Hp. unfold pending in Hp. rewrite Ha in Hp. unfold ahead in Ha. unfold reader_peek2 at 1.
  destruct (hasData_ p) eqn:E1; [done|]. destruct (has2Data_ p) eqn:E2; [by destruct (firstRead_ p)|]. cbn in Hp.
  destruct (readAll_law (trans_ p) [c1; c2] rest Hv Hp) as (t & Et & Vt & Ct). change (Z.of_nat (length [c1; c2])) with 2 in Et.
  rewrite Et. cbn. eexists. split; [done|]. split; [done|]. unfold look_ok, pending, ahead. cbn.
  rewrite E1, (H2 eq_refl). cbn. rewrite Ct. by split_and!.
Qed.

(** ** Reading text

    [m] reads [bs], counts [n] and gives [a]; afterwards no more look-ahead is left than
    there was and was not read. *)
Definition rd (p : TXMLProtocol T) (bs : str) : Prop := look_ok p ∧ pending p = bs.

Lemma readSyntaxChar_ok p c rest : rd p (c :: rest) →
  ∃ p', readSyntaxChar c p = Ret (BP.Ok 1 tt, p') ∧ rd p' rest ∧ length (ahead p') = pred (length (ahead p)).
Proof.
  intros [Hl Hp]. destruct (read_char p c rest Hl Hp) as (p' & E & L & P & A). exists p'. unfold readSyntaxChar. rewrite E. cbn.
  by rewrite Z.eqb_refl.
Qed.

Lemma xml_s32_small n : 0 ≤ n < 2 ^ 31 → s32 n = n.
Proof. apply GC.tok_s32_small. Qed.

Lemma tag_loop_ok k w acc result p rest : Forall (λ c, c ≠ 62) w → (length w < k)%nat → rd p (w ++ 62 :: rest) →
  0 ≤ result → result + GC.len w + 1 < 2 ^ 31 →
  ∃ p', readXMLTag_loop k acc result p = Ret (BP.Ok (result + GC.len w + 1) (acc ++ w), p') ∧ rd p' rest ∧
    length (ahead p') = (length (ahead p) - S (length w))%nat.
Proof.
  intros Hw. revert k acc result p. induction Hw as [|c w Hc _ IH]; intros [|k] acc result p Hk [Hl Hp] Hr1 Hr2; cbn [length] in Hk; try lia; cbn [readXMLTag_loop].
  - destruct (read_char p 62 rest Hl Hp) as (p' & E & L & P & A). rewrite E. cbn [mbind outcome_mbind].
    change (62 =? kcXMLTagC) with true. cbn iota. unfold GC.len in *. cbn [length] in *. exists p'.
    split; [|split; [done|lia]]. rewrite xml_s32_small by lia. rewrite app_nil_r. do 3 f_equal. lia.
  - destruct (read_char p c (w ++ 62 :: rest) Hl Hp) as (p' & E & L & P & A). rewrite E. cbn [mbind outcome_mbind].
    rewrite (proj2 (Z.eqb_neq c kcXMLTagC)) by done. unfold GC.len in *. cbn [length] in *.
    destruct (IH k (acc ++ [c]) (result + 1) p') as (p2 & E2 & R2 & A2); [lia|done|lia|lia|].
    exists p2. rewrite E2. split; [|split; [done|lia]]. rewrite <- app_assoc. do 3 f_equal. lia.
Qed.

(** A tag is read whole, and no look-ahead is left. *)
Lemma readXMLTag_ok (e : bool) w p rest : Forall (λ c, c ≠ 62) w → let tag := (if e then [60; 47] else [60]) ++ w ++ [62] in
  rd p (tag ++ rest) → (length tag < fuel)%nat → GC.len tag < 2 ^ 31 →
  ∃ p', readXMLTag fuel e p = Ret (BP.Ok (GC.len tag) w, p') ∧ rd p' rest ∧ ahead p' = [].
Proof.
  intros Hw tag Hp Hf Hl. subst tag. pose proof (ahead_length p (proj1 Hp)) as Hah.
  assert (Hlt : GC.len ((if e then [60; 47] else [60]) ++ w ++ [62]) = (if e then 2 else 1) + GC.len w + 1)
    by (unfold GC.len; rewrite !length_app; destruct e; cbn [length]; lia).
  rewrite Hlt in *. assert (GC.len w = Z.of_nat (length w)) by done.
  assert (Hfw : (length w < fuel)%nat) by (rewrite !length_app in Hf; destruct e; cbn in Hf; lia). clear Hf.
  unfold readXMLTag. destruct e; cbn [app] in Hp; rewrite <- ?app_assoc in Hp; cbn [app] in Hp.
  - destruct (readSyntaxChar_ok p 60 _ Hp) as (p1 & E1 & R1 & A1).
    destruct (readSyntaxChar_ok p1 47 _ R1) as (p2 & E2 & R2 & A2).
    destruct (tag_loop_ok fuel w [] 0 p2 rest Hw Hfw R2) as (p3 & E3 & R3 & A3); [lia|lia|].
    exists p3. split; [|split; [done|apply length_zero_iff_nil; lia]].
    erewrite (GC.tok_bind_ok _ _ p p1 p3 1 (1 + (0 + GC.len w + 1))); [do 3 f_equal; lia|exact E1| |lia|lia|lia].
    eapply GC.tok_bind_ok; [exact E2|exact E3|lia|lia|lia].
  - destruct (readSyntaxChar_ok p 60 _ Hp) as (p1 & E1 & R1 & A1).
    destruct (tag_loop_ok fuel w [] 0 p1 rest Hw Hfw R1) as (p3 & E3 & R3 & A3); [lia|lia|].
    exists p3. split; [|split; [done|apply length_zero_iff_nil; lia]].
    erewrite (GC.tok_bind_ok _ _ p p1 p3 1 (0 + (0 + GC.len w + 1))); [do 3 f_equal; lia|exact E1| |lia|lia|lia].
    eapply GC.tok_bind_ok; [done|exact E3|lia|lia|lia].
Qed.

(** Text up to a character that stops *)
Lemma peek_until_ok stop k w acc result c p rest : Forall (λ c, stop c = false) w → stop c = true → (length w < k)%nat →
  rd p (w ++ c :: rest) → ahead p = [] → 0 ≤ result → result + GC.len w < 2 ^ 31 →
  ∃ p', peek_until stop k acc result p = Ret (BP.Ok (result + GC.len w) (acc ++ w), p') ∧ rd p' (c :: rest).
Proof.
  intros Hw Hc. revert k acc result p. induction Hw as [|x w Hx _ IH]; intros [|k] acc result p Hk [Hl Hp] Ha Hr1 Hr2; cbn [length] in Hk; try lia; cbn [peek_until].
  - destruct (peek_char p c rest Hl Ha Hp) as (p1 & p2 & E1 & L1 & P1 & _). rewrite E1. cbn [mbind outcome_mbind]. rewrite Hc.
    exists p1. split; [|done]. unfold GC.len in *. cbn in *. rewrite xml_s32_small by lia. rewrite app_nil_r. do 3 f_equal. lia.
  - destruct (peek_char p x (w ++ c :: rest) Hl Ha Hp) as (p1 & p2 & E1 & L1 & P1 & E2 & L2 & P2 & A2). rewrite E1.
    cbn [mbind outcome_mbind]. rewrite Hx, E2. cbn [mbind outcome_mbind]. unfold GC.len in *. cbn [length] in *.
    destruct (IH k (acc ++ [x]) (result + 1) p2) as (p3 & E3 & R3); [lia|done|done|lia|lia|].
    exists p3. rewrite E3. split; [|done]. rewrite <- app_assoc. do 3 f_equal. lia.
Qed.

Lemma readXMLString_ok w p rest : Forall (λ c, c ≠ 60) w → rd p (w ++ 60 :: rest) → ahead p = [] → (length w < fuel)%nat →
  GC.len w < 2 ^ 31 → ∃ p', readXMLString fuel p = Ret (BP.Ok (GC.len w) w, p') ∧ rd p' (60 :: rest).
Proof.
  intros Hw Hp Ha Hf Hl. apply (peek_until_ok _ fuel w [] 0 60); try done.
  eapply Forall_impl; [exact Hw|]. intros c Hc. by apply Z.eqb_neq.
Qed.

Lemma readXMLInteger_ok signed w n p rest : - 2 ^ 63 ≤ n < 2 ^ 64 → stringToInteger signed w (integerToString n) = n →
  rd p (integerToString n ++ 60 :: rest) → ahead p = [] → (length (integerToString n) < fuel)%nat →
  GC.len (integerToString n) < 2 ^ 31 →
  ∃ p', readXMLInteger fuel signed w p = Ret (BP.Ok (GC.len (integerToString n)) n, p') ∧ rd p' (60 :: rest).
Proof.
  intros Hn Hs Hp Ha Hf Hl. destruct (peek_until_ok (λ ch, negb (isXMLNumeric ch)) fuel (integerToString n) [] 0 60 p rest)
    as (p' & E & R); try done.
  - eapply Forall_impl; [by apply integer_chars|]. intros c Hc. cbn. by rewrite Hc.
  - exists p'. split; [|done]. unfold readXMLInteger, readXMLNumericChars, GC.map_ret. rewrite E. cbn. by rewrite Hs.
Qed.

(** *** CDATA *)

(** The next character: the one that is held, or one that is read *)
Definition opt (o : option Z) : str := match o with Some c => [c] | None => [] end.

Lemma next_char_ok o result p c tl rest : opt o ++ tl = c :: rest → rd p tl → ahead p = [] →
  ∃ p' tl', next_char o result p = Ret (c, result + 1 - GC.len (opt o), p') ∧ tl' = rest ∧ rd p' tl' ∧ ahead p' = [].
Proof.
  intros Et [Hl Hp] Ha. destruct o as [x|]; cbn in Et.
  - injection Et as -> ->. exists p, rest. cbn. rewrite Z.add_simpl_r. done.
  - subst tl. destruct (peek_char p c rest Hl Ha Hp) as (p1 & p2 & E1 & L1 & P1 & E2 & L2 & P2 & A2).
    exists p2, rest. unfold next_char. rewrite E1. cbn [mbind outcome_mbind]. rewrite E2. cbn. rewrite Z.sub_0_r. done.
Qed.

Lemma cdata_ok k w ch ch2 tl acc result p rest : (ch = Some 93 ∨ ch2 = None) → ¬ occurs [93; 93; 62] (w ++ [93; 93]) →
  opt ch ++ opt ch2 ++ tl = w ++ 93 :: 93 :: 62 :: rest → rd p tl → ahead p = [] → (length w < k)%nat → 0 ≤ result →
  result + GC.len w + 3 - GC.len (opt ch) - GC.len (opt ch2) < 2 ^ 31 →
  ∃ p', readXMLCDATA_loop k ch ch2 None acc result p =
      Ret (BP.Ok (result + GC.len w + 3 - GC.len (opt ch) - GC.len (opt ch2)) (acc ++ w), p') ∧ rd p' rest ∧ ahead p' = [].
Proof.
  revert k ch ch2 tl acc result p. induction w as [|c w IH]; intros [|k] ch ch2 tl acc result p Hh Hno Et Hp Ha Hk Hr1 Hr2;
    cbn [length] in Hk; try lia; cbn [readXMLCDATA_loop].
  all: assert (Hb : ∀ o, 0 ≤ GC.len (opt o) ≤ 1) by (intros []; by vm_compute).
  all: pose proof (Hb ch) as Hb1; pose proof (Hb ch2) as Hb2.
  all: assert (L0 : GC.len (opt None) = 0) by done; assert (L1 : ∀ c, GC.len (opt (Some c)) = 1) by done.
  - cbn [app] in Et. assert (∃ p1 t1, next_char ch result p = Ret (93, result + 1 - GC.len (opt ch), p1) ∧
      opt ch2 ++ t1 = 93 :: 62 :: rest ∧ rd p1 t1 ∧ ahead p1 = []) as (p1 & t1 & -> & Et1 & R1 & A1).
    { destruct ch as [x|]; cbn in Et.
      - injection Et as -> Et. exists p, tl. cbn. rewrite Z.add_simpl_r. done.
      - destruct Hh as [?| ->]; [done|]. destruct (next_char_ok None result p 93 tl _ Et Hp Ha) as (p1 & t1 & E1 & -> & R1 & A1). by exists p1, (93 :: 62 :: rest). }
    cbn [mbind outcome_mbind]. change (93 =? kcXMLSBracketC) with true. cbn iota.
    destruct (next_char_ok ch2 (result + 1 - GC.len (opt ch)) p1 _ _ _ Et1 R1 A1) as (p2 & t2 & -> & -> & R2 & A2).
    cbn [mbind outcome_mbind]. change (93 =? kcXMLSBracketC) with true. cbn iota.
    destruct (next_char_ok None (result + 1 - GC.len (opt ch) + 1 - GC.len (opt ch2)) p2 62 _ rest eq_refl R2 A2) as (p3 & t3 & -> & -> & R3 & A3).
    cbn [mbind outcome_mbind]. change (62 =? kcXMLTagC) with true. cbn iota. exists p3. split; [|done].
    rewrite L0 in *. change (GC.len []) with 0 in *. rewrite xml_s32_small by lia. rewrite app_nil_r. do 3 f_equal. lia.
  - cbn [app] in Et. assert (Hlw : GC.len (c :: w) = GC.len w + 1) by (unfold GC.len; cbn [length]; lia).
    pose proof (GC.tok_len_pos w).
    assert (∃ p1 t1, next_char ch result p = Ret (c, result + 1 - GC.len (opt ch), p1) ∧
      opt ch2 ++ t1 = w ++ 93 :: 93 :: 62 :: rest ∧ rd p1 t1 ∧ ahead p1 = [] ∧ (c = 93 ∨ ch2 = None)) as (p1 & t1 & -> & Et1 & R1 & A1 & Hc).
    { destruct ch as [x|]; cbn in Et.
      - injection Et as -> Et. exists p, tl. cbn. rewrite Z.add_simpl_r. naive_solver.
      - destruct Hh as [?| ->]; [done|]. destruct (next_char_ok None result p c tl _ Et Hp Ha) as (p1 & t1 & E1 & -> & R1 & A1).
        exists p1. eexists. split_and!; [exact E1|done|done|done|by right]. }
    cbn [mbind outcome_mbind]. destruct (Z.eqb_spec c kcXMLSBracketC) as [-> |Hne].
    2:{ destruct Hc as [?| ->]; [done|]. cbn in Et1.
        destruct (IH k None None t1 (acc ++ [c]) (result + 1 - GC.len (opt ch)) p1) as (p2 & E2 & R2); try done; try (rewrite ?L0, ?L1; lia).
        { by right. } { intros ?. apply Hno. by apply occurs_cons. }
        exists p2. rewrite E2. split; [|done]. rewrite <- app_assoc. rewrite L0. do 3 f_equal. lia. }
    assert (∃ c2 c3 rest2, w ++ 93 :: 93 :: 62 :: rest = c2 :: c3 :: rest2 ∧ (c2 = 93 → c3 ≠ 62)) as (c2 & c3 & rest2 & Ew & H23).
    { destruct w as [|x [|y w]]; cbn [app]; eexists _, _, _; (split; [done|]); [done..|].
      intros -> ->. apply Hno. exists [], (w ++ [93; 93]). done. }
    rewrite Ew in Et1. destruct (next_char_ok ch2 (result + 1 - GC.len (opt ch)) p1 _ _ _ Et1 R1 A1) as (p2 & t2 & -> & -> & R2 & A2).
    cbn [mbind outcome_mbind]. destruct (Z.eqb_spec c2 kcXMLSBracketC) as [-> |Hne2].
    + destruct (next_char_ok None (result + 1 - GC.len (opt ch) + 1 - GC.len (opt ch2)) p2 c3 _ rest2 eq_refl R2 A2) as (p3 & t3 & -> & -> & R3 & A3).
      cbn [mbind outcome_mbind]. rewrite (proj2 (Z.eqb_neq c3 kcXMLTagC)) by (by apply H23).
      destruct (IH k (Some 93) (Some c3) rest2 (acc ++ [kcXMLSBracketC]) (result + 1 - GC.len (opt ch) + 1 - GC.len (opt ch2) + 1 - GC.len (opt None)) p3) as (p4 & E4 & R4); try done; try (rewrite ?L0, ?L1; lia).
      { by left. } { intros ?. apply Hno. by apply occurs_cons. }
      exists p4. change (Some kcXMLSBracketC) with (Some 93). rewrite E4. split; [|done]. rewrite <- app_assoc.
      rewrite L0, !L1. do 3 f_equal. lia.
    + destruct (IH k (Some c2) None (c3 :: rest2) (acc ++ [kcXMLSBracketC]) (result + 1 - GC.len (opt ch) + 1 - GC.len (opt ch2)) p2) as (p4 & E4 & R4); try done; try (rewrite ?L0, ?L1; lia).
      { by right. } { intros ?. apply Hno. by apply occurs_cons. }
      exists p4. rewrite E4. split; [|done]. rewrite <- app_assoc. rewrite L0, L1. do 3 f_equal. lia.
Qed.

Lemma no_end_extends w : ¬ occurs (lit "]]>") w → ¬ occurs [93; 93; 62] (w ++ [93; 93]).
Proof.
  intros Hno. intros (a & b & E). apply Hno. destruct (decide (b = [])) as [->|Hb].
  - rewrite app_nil_r in E. change [93; 93; 62] with ([93; 93] ++ [62]) in E. rewrite app_assoc in E.
    change (w ++ [93; 93]) with (w ++ [93] ++ [93]) in E. rewrite (app_assoc w) in E. apply app_inj_tail in E as [_ ?]. done.
  - destruct (exists_last Hb) as (b1 & x & ->). change (w ++ [93; 93]) with (w ++ [93] ++ [93]) in E.
    rewrite (app_assoc w), !app_assoc in E. apply app_inj_tail in E as [E _].
    destruct (decide (b1 = [])) as [->|Hb1].
    + rewrite app_nil_r in E. change [93; 93; 62] with ([93; 93] ++ [62]) in E. rewrite app_assoc in E. by apply app_inj_tail in E as [_ ?].
    + destruct (exists_last Hb1) as (b2 & y & ->). rewrite !app_assoc in E. apply app_inj_tail in E as [E _].
      exists a, b2. by rewrite E, <- app_assoc.
Qed.

Lemma readXML_ok w p rest : ¬ occurs (lit "]]>") w → let bs := lit "<![CDATA[" ++ w ++ lit "]]>" in
  rd p (bs ++ rest) → ahead p = [] → (length bs < fuel)%nat → GC.len bs < 2 ^ 31 →
  ∃ p', readXML fuel p = Ret (BP.Ok (GC.len bs) w, p') ∧ rd p' rest ∧ ahead p' = [].
Proof.
  intros Hno bs Hp Ha Hf Hl. subst bs. rewrite <- !app_assoc in Hp. unfold readXML, readXMLCDATA.
  assert (Hsyn : ∀ s p tl, rd p (s ++ tl) → ahead p = [] → GC.len s < 2 ^ 31 →
    ∃ p', readSyntaxString s p = Ret (BP.Ok (GC.len s) tt, p') ∧ rd p' tl ∧ ahead p' = []).
  { clear. intros s. induction s as [|c s IH]; intros p tl Hp Ha Hs; [by exists p|]. cbn [readSyntaxString].
    assert (GC.len (c :: s) = 1 + GC.len s) as Hlc by (unfold GC.len; cbn [length]; lia). pose proof (GC.tok_len_pos s).
    destruct (readSyntaxChar_ok p c _ Hp) as (p1 & E1 & R1 & A1). rewrite Ha in A1.
    destruct (IH p1 tl R1) as (p2 & E2 & R2 & A2); [by apply length_zero_iff_nil|lia|].
    exists p2. split; [|done]. rewrite Hlc. eapply GC.tok_bind_ok; [exact E1|exact E2|lia|lia|lia]. }
  rewrite !GC.tok_len_app in *. change (GC.len (lit "<![CDATA[")) with 9 in *. change (GC.len (lit "]]>")) with 3 in *.
  pose proof (GC.tok_len_pos w). rewrite !length_app in Hf.
  destruct (Hsyn _ p _ Hp Ha) as (p1 & E1 & R1 & A1); [done|]. change (GC.len (lit "<![CDATA[")) with 9 in E1.
  destruct (cdata_ok fuel w None None (w ++ lit "]]>" ++ rest) [] 0 p1 rest) as (p2 & E2 & R2 & A2);
    [by right|by apply no_end_extends|done|done|done|lia|lia|change (GC.len (opt None)) with 0; lia|].
  exists p2. split; [|done]. change (GC.len (opt None)) with 0 in E2. erewrite GC.tok_bind_ok; [|exact E1|exact E2|lia|lia|lia]. cbn [app]. do 3 f_equal. lia.
Qed.

(** ** Tags *)

Lemma tokenize_name n c s : word n → separator c → tokenize (n ++ c :: s) = n :: tokenize s.
Proof. intros [Hn Hw] Hc. apply tokenize_word; [done| |done]. eapply Forall_impl; [exact Hw|]. by intros x [? _]. Qed.

Lemma tokenize_attr k v s : word k → word v → tokenize (formXMLAttr k v ++ s) = k :: v :: tokenize s.
Proof.
  intros Hk Hv. unfold formXMLAttr. change (lit "=") with [61]. rewrite <- !app_assoc. cbn [app].
  by rewrite tokenize_name, tokenize_sep, tokenize_name by (done || (unfold separator; tauto)).
Qed.

Lemma tokenize_space s : tokenize (lit " " ++ s) = tokenize s.
Proof. apply tokenize_sep. by right; right. Qed.

Lemma attributes_none {S} k (hs : list (str * (str → S → outcome (option S)))) its s :
  Forall (λ w, w ∉ hs.*1) its → attributes k hs its s = Ret (Some s).
Proof.
  intros Hits. revert k. induction Hits as [|w its Hw _ IH]; intros [|k]; try done. cbn [attributes].
  assert (Hr : attributes_round hs w its s = Ret (Some (its, s))).
  { clear IH. induction hs as [|[key f] hs IH]; [done|]. cbn [attributes_round]. cbn in Hw. rewrite not_elem_of_cons in Hw.
    destruct Hw as [Hk Hw]. rewrite bool_decide_eq_false_2 by done. by apply IH. }
  rewrite Hr. cbn. apply IH.
Qed.

Definition no_gt (s : str) : Prop := Forall (λ c, c ≠ 62) s.
Lemma word_no_gt w : word w → no_gt w.
Proof. intros [_ Hw]. eapply Forall_impl; [exact Hw|]. by intros c [_ ?]. Qed.
Lemma no_gt_attr k v : no_gt k → no_gt v → no_gt (formXMLAttr k v).
Proof. intros Hk Hv. unfold no_gt, formXMLAttr. rewrite !Forall_app. split_and!; try done; by repeat constructor. Qed.

Definition is_word (s : str) : bool :=
  bool_decide (s ≠ []) && forallb (λ c, negb (c =? 61) && negb (c =? 34) && negb (c =? 32) && negb (c =? 62)) s.
Lemma word_lit s : is_word s = true → word s.
Proof.
  intros [H1%bool_decide_eq_true H2]%andb_prop. split; [done|]. apply Forall_forall. intros c Hc. rewrite forallb_forall in H2.
  apply list_elem_of_In in Hc. specialize (H2 c Hc). unfold separator. lia.
Qed.

(** ** The text of a token *)

Definition scalar_text (s : GC.scalar) : str :=
  match s with
  | GC.SBool b => if b then lit "true" else lit "false"
  | GC.SByte z | GC.SI16 z | GC.SI32 z | GC.SI64 z | GC.SU16 z | GC.SU32 z | GC.SU64 z | GC.SIPV4 z => integerToString z
  | GC.SIPADDR a => address_to_string a | GC.SDouble z => double_to_string z
  | GC.SString l | GC.SBinary l => escapeXMLControlChars l
  | GC.SXML l => lit "<![CDATA[" ++ l ++ lit "]]>"
  | GC.SUUID l => escapeXMLControlChars (uuid_to_string l)
  end.

Definition top_name (st : GC.stack) : str := match st with x :: _ => x.2 | [] => [] end.

Definition token_text (st : GC.stack) (t : GC.token) : str :=
  match t with
  | GC.KBegin false n => lit "<" ++ n ++ lit ">"
  | GC.KBegin true n => lit "<" ++ n ++ lit " " ++ formXMLAttr (lit "type") (lit "sandesh") ++ lit ">"
  | GC.KEnd _ | GC.KFieldEnd => lit "</" ++ top_name st ++ lit ">"
  | GC.KField n type id a => field_tag n type id a
  | GC.KStop => []
  | GC.KMap k v n => map_tag k v n | GC.KMapEnd => lit "</map>"
  | GC.KList e n => elem_tag (lit "list") e n | GC.KListEnd => lit "</list>"
  | GC.KSet e n => elem_tag (lit "set") e n | GC.KSetEnd => lit "</set>"
  | GC.KElem => lit "<element>" | GC.KElemEnd => lit "</element>"
  | GC.KScalar s => scalar_text s
  end.

(** What can be written so that it is read back.  Strings hold no entities, since these
    are unescaped once too often; binary data no control characters, since they are not
    unescaped; doubles cannot be read. *)
Definition name_ok (n : str) : Prop := word n ∧ Forall (λ c, c ≠ 47) n.
Definition known (type : Z) : Prop := type ∈ kTypeNames.*1.

Definition scalar_ok (s : GC.scalar) : Prop :=
  match s with
  | GC.SBool _ => True
  | GC.SByte z => - 2 ^ 7 ≤ z < 2 ^ 7 | GC.SI16 z => - 2 ^ 15 ≤ z < 2 ^ 15 | GC.SI32 z => - 2 ^ 31 ≤ z < 2 ^ 31
  | GC.SI64 z => - 2 ^ 63 ≤ z < 2 ^ 63 | GC.SU16 z => 0 ≤ z < 2 ^ 16 | GC.SU32 z | GC.SIPV4 z => 0 ≤ z < 2 ^ 32
  | GC.SU64 z => 0 ≤ z < 2 ^ 64
  | GC.SIPADDR a => address_ok a | GC.SDouble _ => False
  | GC.SString l => no_entities l
  | GC.SBinary l => Forall (λ c, is_control c = false) l
  | GC.SXML l => ¬ occurs (lit "]]>") l
  | GC.SUUID l => octets 16 l
  end.

Definition annotations_text (a : list (str * str)) : str := concat (map (λ a, lit " " ++ formXMLAttr a.1 a.2) a).

Definition xml_token_ok (t : GC.token) : Prop :=
  match t with
  | GC.KBegin _ n => name_ok n
  | GC.KField n type id a => name_ok n ∧ known type ∧ type ≠ BP.T_STOP ∧ - 2 ^ 15 ≤ id < 2 ^ 15 ∧ no_gt (annotations_text a) ∧
      Forall (λ w, w ∉ [lit "type"; lit "identifier"]) (tokenize (annotations_text a))
  | GC.KMap k v n => known k ∧ known v ∧ 0 ≤ n < 2 ^ 32
  | GC.KList e n | GC.KSet e n => known e ∧ 0 ≤ n < 2 ^ 32
  | GC.KScalar s => scalar_ok s
  | _ => True
  end.

(** ** Writing *)

#[local] Instance xp : GC.Protocol (TXMLProtocol T) := xml_protocol fuel.

Definition fields_open (st : GC.stack) : nat := length (filter (λ x, x.1 = true) st).

Lemma fields_open_field n st : fields_open ((true, n) :: st) = S (fields_open st).
Proof. done. Qed.
Lemma fields_open_struct n st : fields_open ((false, n) :: st) = fields_open st.
Proof. done. Qed.

Definition wstate (p : TXMLProtocol T) (st : GC.stack) : Prop :=
  look_ok p ∧ ahead p = [] ∧ xml_state_ p = st.*2 ∧ length (write_state_ p) = S (fields_open st).
Definition wroom (p : TXMLProtocol T) (n : Z) : Prop := fits (trans_ p) n ∧ n < 2 ^ 31.

Lemma writePlain_ok p bs : valid (trans_ p) → wroom p (GC.len bs) →
  ∃ t, writePlain bs p = Ret (BP.Ok (GC.len bs) tt, with_trans t p) ∧ valid t ∧ content t = content (trans_ p) ++ bs ∧
    ∀ n, 0 ≤ n → fits (trans_ p) (GC.len bs + n) → fits t n.
Proof.
  intros Hv [Hf Hl]. destruct (write_law (trans_ p) bs Hv Hf) as (t & Et & Vt & Ct & Ft). exists t. unfold writePlain. rewrite Et.
  cbn [mbind outcome_mbind]. change (negb (0 =? 0)) with false. cbn iota. rewrite xml_s32_small by (pose proof (GC.tok_len_pos bs); unfold GC.len in *; lia). done.
Qed.

(** An operation that writes [bs] and leaves the rest of the state to [f] *)
Lemma write_token_with t bs p st st' f : wstate p st → wroom p (GC.len bs) →
  (∀ tr, writePlain bs p = Ret (BP.Ok (GC.len bs) tt, with_trans tr p) →
     GC.write_token t p = Ret (BP.Ok (GC.len bs) tt, with_write (f p).1 (f p).2 (with_trans tr p))) →
  (f p).2 = st'.*2 → length (f p).1 = S (fields_open st') →
  ∃ n p', GC.write_token t p = Ret (BP.Ok n tt, p') ∧ 0 ≤ n ≤ GC.len bs ∧ wstate p' st' ∧
    content (trans_ p') = content (trans_ p) ++ bs ∧ ∀ k, 0 ≤ k → wroom p (GC.len bs + k) → wroom p' k.
Proof.
  intros (Hl & Ha & Hx & Hw) Hr Hop Hf2 Hf1. destruct (writePlain_ok p bs (proj1 Hl) Hr) as (tr & E & V & C & F).
  pose proof (GC.tok_len_pos bs). exists (GC.len bs), (with_write (f p).1 (f p).2 (with_trans tr p)). split; [by apply Hop|]. split; [lia|].
  split; [|split; [done|]].
  - unfold wstate, look_ok, ahead in *. cbn. destruct Hl as (_ & ? & ?). by split_and!.
  - intros k Hk [Hfk Hlk]. split; [by apply F|lia].
Qed.

(** ... that only writes *)
Lemma write_plain_token t bs p st : wstate p st → wroom p (GC.len bs) → GC.write_token t = writePlain bs → GC.after st t = st →
  ∃ n p', GC.write_token t p = Ret (BP.Ok n tt, p') ∧ 0 ≤ n ≤ GC.len bs ∧ wstate p' (GC.after st t) ∧
    content (trans_ p') = content (trans_ p) ++ bs ∧ ∀ k, 0 ≤ k → wroom p (GC.len bs + k) → wroom p' k.
Proof.
  intros Hw Hr Ew Ea. rewrite Ea. pose proof Hw as (_ & _ & Hx & Hs).
  apply (write_token_with t bs p st st (λ p, (write_state_ p, xml_state_ p))); try done.
  intros tr E. rewrite Ew, E. done.
Qed.

(** A text that opens: its name is pushed. *)
Lemma open_text bs name p tr (m : GC.PM (TXMLProtocol T) unit) q :
  writePlain bs p = Ret (BP.Ok (GC.len bs) tt, with_trans tr p) → GC.len bs < 2 ^ 31 →
  m (with_write (write_state_ p) (name :: xml_state_ p) (with_trans tr p)) = Ret (BP.Ok 0 tt, q) →
  GC.bind (writePlain bs) (λ _, GC.bind (push_name name) (λ _, m)) p = Ret (BP.Ok (GC.len bs) tt, q).
Proof.
  intros E Hl Em. pose proof (GC.tok_len_pos bs). replace (GC.len bs) with (GC.len bs + 0) at 1 by lia.
  eapply GC.tok_bind_ok; [exact E| |lia|lia|lia]. change 0 with (0 + 0) at 1. eapply GC.tok_bind_ok; [done|exact Em|lia|lia|lia].
Qed.

(** Without its name, a state writes the same. *)
Lemma write_popped bs p ns tr : writePlain bs p = Ret (BP.Ok (GC.len bs) tt, with_trans tr p) →
  writePlain bs (with_write (write_state_ p) ns p) = Ret (BP.Ok (GC.len bs) tt, with_write (write_state_ p) ns (with_trans tr p)).
Proof.
  unfold writePlain. cbn. destruct (tr_write bs (trans_ p)) as [[r t]|]; cbn; [|done].
  destruct (negb (r =? 0)); [done|]. intros [= -> ->]. done.
Qed.

Lemma open_struct bs n p st : wstate p st → wroom p (GC.len bs) → ∀ b, GC.write_token (GC.KBegin b n) = GC.bind (writePlain bs) (λ _, push_name n) →
  ∃ k p', GC.write_token (GC.KBegin b n) p = Ret (BP.Ok k tt, p') ∧ 0 ≤ k ≤ GC.len bs ∧ wstate p' ((false, n) :: st) ∧
    content (trans_ p') = content (trans_ p) ++ bs ∧ ∀ j, 0 ≤ j → wroom p (GC.len bs + j) → wroom p' j.
Proof.
  intros Hw Hr b Ew. pose proof Hw as (_ & _ & Hx & Hs).
  apply (write_token_with _ bs p st _ (λ p, (write_state_ p, n :: xml_state_ p))); try done; [|by cbn; rewrite Hx].
  intros tr E. rewrite Ew. destruct Hr as [_ Hl]. pose proof (GC.tok_len_pos bs). replace (GC.len bs) with (GC.len bs + 0) at 1 by lia.
  eapply GC.tok_bind_ok; [exact E|done|lia|lia|lia].
Qed.

Lemma close_struct b n p st : wstate p ((false, n) :: st) → let bs := lit "</" ++ n ++ lit ">" in wroom p (GC.len bs) →
  ∃ k p', GC.write_token (GC.KEnd b) p = Ret (BP.Ok k tt, p') ∧ 0 ≤ k ≤ GC.len bs ∧ wstate p' st ∧
    content (trans_ p') = content (trans_ p) ++ bs ∧ ∀ j, 0 ≤ j → wroom p (GC.len bs + j) → wroom p' j.
Proof.
  intros Hw bs Hr. pose proof Hw as (_ & _ & Hx & Hs).
  apply (write_token_with _ bs p _ st (λ p, (write_state_ p, tail (xml_state_ p))) Hw Hr); [|by cbn; rewrite Hx|done].
  intros tr E. destruct Hr as [_ Hl]. pose proof (GC.tok_len_pos bs). cbn in Hx.
  replace (GC.write_token (GC.KEnd b)) with (GC.bind pop_name (λ etag, writePlain (T := T) (lit "</" ++ etag ++ lit ">"))) by (by destruct b).
  change (GC.len bs) with (0 + GC.len bs). eapply GC.tok_bind_ok; [unfold pop_name; rewrite Hx; done| |lia|lia|lia].
  cbn. rewrite Hx. by apply write_popped.
Qed.

Lemma open_field n type id a p st : wstate p st → let bs := field_tag n type id a in wroom p (GC.len bs) →
  ∃ k p', GC.write_token (GC.KField n type id a) p = Ret (BP.Ok k tt, p') ∧ 0 ≤ k ≤ GC.len bs ∧ wstate p' ((true, n) :: st) ∧
    content (trans_ p') = content (trans_ p) ++ bs ∧ ∀ j, 0 ≤ j → wroom p (GC.len bs + j) → wroom p' j.
Proof.
  intros Hw bs Hr. pose proof Hw as (_ & _ & Hx & Hs).
  apply (write_token_with _ bs p st _ (λ p, (state_of_type type :: write_state_ p, n :: xml_state_ p)) Hw Hr); [|by cbn; rewrite Hx|by rewrite fields_open_field, <- Hs].
  intros tr E. by apply (open_text _ _ _ tr); [|destruct Hr|].
Qed.

Lemma close_field n p st : wstate p ((true, n) :: st) → let bs := lit "</" ++ n ++ lit ">" in wroom p (GC.len bs) →
  ∃ k p', GC.write_token GC.KFieldEnd p = Ret (BP.Ok k tt, p') ∧ 0 ≤ k ≤ GC.len bs ∧ wstate p' st ∧
    content (trans_ p') = content (trans_ p) ++ bs ∧ ∀ j, 0 ≤ j → wroom p (GC.len bs + j) → wroom p' j.
Proof.
  intros Hw bs Hr. pose proof Hw as (_ & _ & Hx & Hs). rewrite fields_open_field in Hs. cbn in Hx.
  apply (write_token_with _ bs p _ st (λ p, (tail (write_state_ p), tail (xml_state_ p))) Hw Hr); [|by cbn; rewrite Hx|].
  2:{ cbn [fst]. destruct (write_state_ p); [done|]. cbn [length] in Hs. cbn. lia. }
  intros tr E. destruct Hr as [_ Hl]. pose proof (GC.tok_len_pos bs). destruct (write_state_ p) as [|s ws] eqn:Es; [done|].
  cbn [GC.write_token xp xml_protocol GC.writeFieldEnd]. unfold writeFieldEnd. change (GC.len bs) with (0 + GC.len bs).
  eapply GC.tok_bind_ok; [unfold pop_name; rewrite Hx; done| |lia|lia|lia]. change (GC.len bs) with (0 + GC.len bs).
  eapply GC.tok_bind_ok; [unfold back_state; cbn; rewrite Es; done| |lia|lia|lia]. replace (GC.len bs) with (GC.len bs + 0) by lia.
  pose proof (write_popped bs p (st.*2) tr E) as E'. rewrite Es in E'.
  eapply GC.tok_bind_ok; [unfold writeIndented; cbn; destruct (bool_decide _); exact E'| |lia|lia|lia].
  unfold pop_state. cbn. by rewrite Hx.
Qed.

(** Every call writes the text of its token. *)
Lemma xml_write_token p st t : wstate p st → GC.closes st t → wroom p (GC.len (token_text st t)) →
  ∃ n p', GC.write_token t p = Ret (BP.Ok n tt, p') ∧ 0 ≤ n ≤ GC.len (token_text st t) ∧ wstate p' (GC.after st t) ∧
    content (trans_ p') = content (trans_ p) ++ token_text st t ∧ ∀ k, 0 ≤ k → wroom p (GC.len (token_text st t) + k) → wroom p' k.
Proof.
  intros Hw Hc Hr. destruct t as [[] n|b|n type id a| | | | | | | | | | |s]; cbn [token_text] in *;
    try (by apply write_plain_token); try (by apply open_struct); try (by apply open_field).
  - destruct Hc as (n & st' & ->). by apply close_struct.
  - destruct Hc as (n & st' & ->). by apply close_field.
  - exists 0, p. rewrite app_nil_r. split_and!; done || (cbn; lia).
  - apply write_plain_token; [done..| |done]. by destruct s.
Qed.

(** ** Reading back *)

(** What can be followed within the bound of the loops and counted in 32 bits *)
Definition readable (bs : str) : Prop := (length bs < fuel)%nat ∧ GC.len bs < 2 ^ 31.
Definition rstate (p : TXMLProtocol T) (last : option GC.token) (bs : str) : Prop :=
  rd p bs ∧ (GC.calm last → ahead p = []) ∧ readable bs.

Lemma readable_app bs rest : readable (bs ++ rest) → readable bs ∧ readable rest.
Proof.
  unfold readable, GC.len. rewrite length_app. intros [? ?]. split; split; lia.
Qed.

(** An operation that reads the text [bs] of a token *)
Definition reads_text {A} (m : GC.PM (TXMLProtocol T) A) (bs : str) (a : A) : Prop :=
  ∀ p last rest, rstate p last (bs ++ rest) →
    ∃ n p', m p = Ret (BP.Ok n a, p') ∧ 0 ≤ n ≤ GC.len bs ∧ ∀ t, rstate p' t rest.

Lemma reads_text_map {A B} (f : A → B) m bs a b : reads_text m bs a → f a = b → reads_text (GC.map_ret f m) bs b.
Proof.
  intros Hm <- p last rest Hr. destruct (Hm p last rest Hr) as (n & p' & E & B' & R). exists n, p'. unfold GC.map_ret. by rewrite E.
Qed.
Lemma reads_text_ignore {A} (m : GC.PM (TXMLProtocol T) A) bs a : reads_text m bs a → reads_text (GC.ignore m) bs tt.
Proof.
  intros Hm p last rest Hr. destruct (Hm p last rest Hr) as (n & p' & E & B' & R). exists n, p'. unfold GC.ignore. by rewrite E.
Qed.

Lemma reads_tag (e : bool) w : no_gt w → reads_text (readXMLTag fuel e) ((if e then [60; 47] else [60]) ++ w ++ [62]) w.
Proof.
  intros Hw p last rest (Hp & _ & Hrd). pose proof (readable_app _ _ Hrd) as [[Hf Hl] Hrd'].
  destruct (readXMLTag_ok e w p rest Hw Hp Hf Hl) as (p' & E & R & A). eexists _, p'. split; [exact E|].
  split; [pose proof (GC.tok_len_pos ((if e then [60; 47] else [60]) ++ w ++ [62])); lia|]. done.
Qed.

Lemma xml_reads_close w : no_gt w → reads_text (GC.ignore (readXMLTag fuel true)) (lit "</" ++ w ++ lit ">") tt.
Proof. intros Hw. eapply reads_text_ignore. by apply (reads_tag true). Qed.

(** A tag, and what its attributes make of it *)
Lemma reads_tag_then {A} w (f : str → GC.PM (TXMLProtocol T) A) a : no_gt w → (∀ p, f w p = Ret (BP.Ok 0 a, p)) →
  reads_text (GC.bind (readXMLTag fuel false) f) (lit "<" ++ w ++ lit ">") a.
Proof.
  intros Hw Hf p last rest Hr. destruct (reads_tag false w Hw p last rest Hr) as (n & p' & E & B & R).
  exists (n + 0), p'. pose proof Hr as (_ & _ & Hrd). apply readable_app in Hrd as [[_ Hl] _].
  assert (GC.len (lit "<" ++ w ++ lit ">") = GC.len ([60] ++ w ++ [62])) as Hlen by done.
  split; [eapply GC.tok_bind_ok; [exact E|apply Hf|lia|lia|lia]|]. split; [lia|done].
Qed.

(** *** Attributes *)

Lemma type_handler {S} ty (g : Z → S) : known ty → (t ← getTypeIDForTypeName (fieldTypeName ty); Ret (Some (g t))) = Ret (Some (g ty)).
Proof. intros Hk. by rewrite type_name_roundtrip. Qed.

Lemma no_gt_app a b : no_gt a → no_gt b → no_gt (a ++ b).
Proof. intros. by apply Forall_app. Qed.
Lemma no_gt_lit s : forallb (λ c, negb (c =? 62)) s = true → no_gt s.
Proof. intros Hs. apply Forall_forall. intros c Hc. rewrite forallb_forall in Hs. apply list_elem_of_In in Hc. specialize (Hs c Hc). lia. Qed.

Lemma annotations_cons k v a : annotations_text ((k, v) :: a) = lit " " ++ formXMLAttr k v ++ annotations_text a.
Proof. unfold annotations_text. cbn [map concat]. by rewrite <- app_assoc. Qed.

Lemma attrs_no_gt attrs : Forall (λ a : str * str, word a.1 ∧ word a.2) attrs → no_gt (annotations_text attrs).
Proof.
  induction 1 as [|[k v] attrs [Hk Hv] _ IH]; [by constructor|]. rewrite annotations_cons. apply no_gt_app; [by apply no_gt_lit|].
  apply no_gt_app; [|done]. by apply no_gt_attr; apply word_no_gt.
Qed.

(** The tokens of a tag: its name, then the keys and values *)
Lemma tokenize_attrs (attrs : list (str * str)) tl : Forall (λ a, word a.1 ∧ word a.2) attrs →
  tokenize (annotations_text attrs ++ tl) = concat (map (λ a, [a.1; a.2]) attrs) ++ tokenize tl.
Proof.
  induction 1 as [|[k v] attrs [Hk Hv] _ IH]; [done|]. rewrite annotations_cons, <- !app_assoc, tokenize_space, tokenize_attr by done.
  rewrite IH. done.
Qed.
Lemma tokenize_tag n attrs tl : word n → attrs ≠ [] → Forall (λ a, word a.1 ∧ word a.2) attrs →
  tokenize (n ++ annotations_text attrs ++ tl) = n :: concat (map (λ a, [a.1; a.2]) attrs) ++ tokenize tl.
Proof.
  intros Hn Hne Ha. destruct attrs as [|[k v] attrs]; [done|]. inversion Ha as [|? ? [Hk Hv] Ha']; subst.
  rewrite annotations_cons, <- !app_assoc. change (lit " ") with [32] at 1. cbn [app].
  rewrite tokenize_name, tokenize_attr, tokenize_attrs by (done || (unfold separator; tauto)). done.
Qed.

(** One key with its value *)
Lemma attributes_key {S} k pre key (f : str → S → outcome (option S)) post v its s s' :
  key ∉ pre.*1 → v ∉ post.*1 → f v s = Ret (Some s') →
  attributes (Datatypes.S k) (pre ++ (key, f) :: post) (key :: v :: its) s =
    attributes k (pre ++ (key, f) :: post) its s'.
Proof.
  intros Hpre Hpost Hf. cbn [attributes]. assert (Hr : attributes_round (pre ++ (key, f) :: post) key (v :: its) s = Ret (Some (its, s'))).
  { clear k. induction pre as [|[k0 f0] pre IH]; cbn [app attributes_round].
    - rewrite bool_decide_eq_true_2, Hf by done. cbn [mbind outcome_mbind]. clear Hpre. induction post as [|[k1 f1] post IH]; [done|].
      cbn in Hpost. rewrite not_elem_of_cons in Hpost. cbn [attributes_round]. rewrite bool_decide_eq_false_2 by tauto. by apply IH; tauto.
    - cbn in Hpre. rewrite not_elem_of_cons in Hpre. rewrite bool_decide_eq_false_2 by tauto. apply IH. tauto. }
  by rewrite Hr.
Qed.

Lemma tag_attributes_ok {S} (hs : list (str * (str → S → outcome (option S)))) s s' w n its p :
  tokenize w = n :: its → attributes (length its) hs its s = Ret (Some s') →
  tag_attributes hs s w p = Ret (BP.Ok 0 (n, s'), p : TXMLProtocol T).
Proof. intros Ht Ha. unfold tag_attributes. by rewrite Ht, Ha. Qed.

Lemma known_not ty : known ty → fieldTypeName ty ∉ [lit "type"; lit "identifier"; lit "key"; lit "value"; lit "size"].
Proof. apply type_name_word. Qed.

Lemma reads_sandesh n : name_ok n →
  reads_text (readSandeshBegin fuel) (lit "<" ++ n ++ lit " " ++ formXMLAttr (lit "type") (lit "sandesh") ++ lit ">") n.
Proof.
  intros [Hn _]. replace (lit "<" ++ n ++ _) with (lit "<" ++ (n ++ annotations_text [(lit "type", lit "sandesh")]) ++ lit ">")
    by (rewrite annotations_cons; cbn; by rewrite <- !app_assoc).
  apply reads_tag_then.
  - apply no_gt_app; [by apply word_no_gt|]. by apply no_gt_lit.
  - intros p. unfold GC.map_ret. rewrite (tag_attributes_ok _ tt tt _ n [lit "type"; lit "sandesh"]); [done| |done].
    rewrite <- (app_nil_r (annotations_text _)), tokenize_tag; [by rewrite tokenize_nil|done|done|].
    apply Forall_cons. split; [|by apply Forall_nil]. split; by apply word_lit.
Qed.

Lemma xml_reads_container {S} kind attrs (hs : list (str * (str → S → outcome (option S)))) s s' :
  word kind → attrs ≠ [] → Forall (λ a, word a.1 ∧ word a.2) attrs →
  (let its := concat (map (λ a, [a.1; a.2]) attrs) in attributes (length its) hs its s = Ret (Some s')) →
  reads_text (container_attributes fuel kind hs s) (lit "<" ++ (kind ++ annotations_text attrs) ++ lit ">") s'.
Proof.
  intros Hk Hne Hw Ha. assert (Ht : tokenize (kind ++ annotations_text attrs) = kind :: concat (map (λ a, [a.1; a.2]) attrs)).
  { by rewrite <- (app_nil_r (annotations_text _)), tokenize_tag, tokenize_nil, app_nil_r. }
  apply reads_tag_then.
  - apply no_gt_app; [by apply word_no_gt|by apply attrs_no_gt].
  - intros p. rewrite Ht. rewrite bool_decide_eq_true_2 by done. cbn [negb]. unfold GC.map_ret.
    by rewrite (tag_attributes_ok _ _ s' _ _ _ p Ht Ha).
Qed.

Lemma word_attrs (l : list (string * str)) :
  forallb (λ c, is_word (lit c.1)) l = true →
  Forall (λ a, word a.2) l → Forall (λ a, word a.1 ∧ word a.2) (map (λ a, (lit a.1, a.2)) l).
Proof.
  intros Hl Hw. induction Hw as [|[k v] l Hv _ IH]; [by constructor|]. cbn in Hl. apply andb_prop in Hl as [Hk Hl].
  apply Forall_cons_2; [split; [by apply word_lit|done]|by apply IH].
Qed.

Lemma xml_reads_map k v n : known k → known v → 0 ≤ n < 2 ^ 32 → ∀ o1 o2 o3, reads_text (readMapBegin fuel o1 o2 o3) (map_tag k v n) (k, v, n).
Proof.
  intros Hk Hv Hn o1 o2 o3. pose proof (known_not k Hk) as Nk. pose proof (known_not v Hv) as Nv.
  replace (map_tag k v n) with (lit "<" ++ (lit "map" ++ annotations_text
    [(lit "key", fieldTypeName k); (lit "value", fieldTypeName v); (lit "size", integerToString n)]) ++ lit ">")
    by (unfold map_tag; rewrite !annotations_cons; change (lit "<map ") with (lit "<" ++ lit "map" ++ lit " "); by rewrite <- !app_assoc).
  apply xml_reads_container; [by apply word_lit|done|apply (word_attrs [("key", _); ("value", _); ("size", _)]%string); [done|]|].
  - repeat apply Forall_cons_2; try (by apply Forall_nil_2); [by apply type_name_word..|apply integer_word; lia].
  - cbn [length concat map app fst snd].
    etrans; [apply (attributes_key 5 [] (lit "key")); [set_solver|set_solver|by apply (type_handler k (λ t, (t, o2, o3)))]|]. cbn [app].
    etrans; [apply (attributes_key 4 [_] (lit "value")); [set_solver|set_solver|by apply (type_handler v (λ t, (k, t, o3)))]|]. cbn [app].
    etrans; [apply (attributes_key 3 [_; _] (lit "size")); [set_solver|set_solver|]|done]. cbn [fst snd]. by rewrite integer_text_unsigned by lia.
Qed.

Lemma reads_elems kind e n : word kind → known e → 0 ≤ n < 2 ^ 32 → ∀ o1 o2,
  reads_text (container_attributes fuel kind elem_handlers (o1, o2)) (elem_tag kind e n) (e, n).
Proof.
  intros Hkind He Hn o1 o2. pose proof (known_not e He) as Ne.
  replace (elem_tag kind e n) with (lit "<" ++ (kind ++ annotations_text [(lit "type", fieldTypeName e); (lit "size", integerToString n)]) ++ lit ">")
    by (unfold elem_tag; rewrite !annotations_cons; by rewrite <- !app_assoc).
  apply xml_reads_container; [done|done|apply (word_attrs [("type", _); ("size", _)]%string); [done|]|].
  - repeat apply Forall_cons_2; try (by apply Forall_nil_2); [by apply type_name_word|apply integer_word; lia].
  - cbn [length concat map app fst snd].
    etrans; [apply (attributes_key 3 [] (lit "type")); [set_solver|set_solver|by apply (type_handler e (λ t, (t, o2)))]|]. cbn [app].
    etrans; [apply (attributes_key 2 [_] (lit "size")); [set_solver|set_solver|]|done]. cbn [fst snd]. by rewrite integer_text_unsigned by lia.
Qed.

(** The begin of a field: the two characters that are looked at are not the end of a
    struct. *)
Lemma xml_reads_field n type id a : xml_token_ok (GC.KField n type id a) → ∀ o1 o2 p last rest, GC.calm last →
  rstate p last (field_tag n type id a ++ rest) →
  ∃ k p', readFieldBegin fuel o1 o2 p = Ret (BP.Ok k (n, type, id), p') ∧ 0 ≤ k ≤ GC.len (field_tag n type id a) ∧ ∀ t, rstate p' t rest.
Proof.
  intros ([Hn Hns] & Hty & _ & Hid & Hgt & Hann) o1 o2 p last rest Hc Hr. pose proof (known_not type Hty) as Nt.
  set (attrs := [(lit "type", fieldTypeName type); (lit "identifier", integerToString id)]).
  assert (Hw : Forall (λ a, word a.1 ∧ word a.2) attrs).
  { apply (word_attrs [("type", _); ("identifier", _)]%string); [done|].
    repeat apply Forall_cons_2; try (by apply Forall_nil_2); [by apply type_name_word|apply integer_word; lia]. }
  assert (Et : field_tag n type id a = lit "<" ++ (n ++ annotations_text attrs ++ annotations_text a) ++ lit ">")
    by (unfold field_tag, attrs; rewrite !annotations_cons; by rewrite <- !app_assoc).
  pose proof Hr as ([Hl Hp] & Ha & Hrd). specialize (Ha Hc). pose proof Hn as [Hne _].
  destruct n as [|c n]; [done|]. inversion Hns as [|? ? Hc47 _]; subst.
  destruct (peek2_chars p 60 c (n ++ (annotations_text attrs ++ annotations_text a) ++ lit ">" ++ rest) Hl Ha) as (p1 & E1 & E2 & L1 & P1).
  { rewrite Hp, Et, <- !app_assoc. done. }
  assert (Hr1 : rstate p1 (Some GC.KStop) ((lit "<" ++ ((c :: n) ++ annotations_text attrs ++ annotations_text a) ++ lit ">") ++ rest)).
  { split; [split; [done|]; rewrite P1, <- !app_assoc; done|]. split; [done|]. by rewrite Et, <- !app_assoc in Hrd; rewrite <- !app_assoc. }
  unfold readFieldBegin. rewrite E1. cbn [mbind outcome_mbind]. rewrite E2. cbn [mbind outcome_mbind].
  rewrite (proj2 (Z.eqb_neq c kcXMLSlash) Hc47), andb_false_r.
  rewrite Et. eapply reads_tag_then; [| |exact Hr1].
  - apply no_gt_app; [by apply word_no_gt|]. apply no_gt_app; [by apply attrs_no_gt|done].
  - intros q. unfold GC.map_ret. erewrite (tag_attributes_ok _ _ (type, id)); [done|by apply tokenize_tag|].
    cbn [concat map app fst snd attrs length].
    etrans; [apply (attributes_key _ [] (lit "type")); [set_solver|set_solver|by apply (type_handler type (λ t, (t, o2)))]|]. cbn [app].
    etrans; [apply (attributes_key _ [_] (lit "identifier")); [set_solver|set_solver|]|by apply attributes_none]. cbn [fst snd].
    by rewrite integer_text_signed by lia.
Qed.

(** *** Values *)

(** A text without control characters, up to the next tag *)
Definition reads_value {A} (m : GC.PM (TXMLProtocol T) A) (bs : str) (a : A) : Prop :=
  ∀ p last rest, GC.calm last → rstate p last (bs ++ 60 :: rest) →
    ∃ n p', m p = Ret (BP.Ok n a, p') ∧ 0 ≤ n ≤ GC.len bs ∧ ∀ s, rstate p' (Some (GC.KScalar s)) (60 :: rest).

Lemma reads_value_map {A B} (f : A → B) m bs a b : reads_value m bs a → f a = b → reads_value (GC.map_ret f m) bs b.
Proof.
  intros Hm <- p last rest Hc Hr. destruct (Hm p last rest Hc Hr) as (n & p' & E & B' & R). exists n, p'. unfold GC.map_ret. by rewrite E.
Qed.

Lemma reads_xml_string w : Forall (λ c, c ≠ 60) w → reads_value (readXMLString fuel) w w.
Proof.
  intros Hw p last rest Hc (Hp & Ha & Hrd). pose proof (readable_app _ _ Hrd) as [[Hf Hl] Hrd'].
  destruct (readXMLString_ok w p rest Hw Hp (Ha Hc) Hf Hl) as (p' & E & R). exists (GC.len w), p'. pose proof (GC.tok_len_pos w).
  split_and!; done || lia.
Qed.

Lemma reads_integer signed w n : - 2 ^ 63 ≤ n < 2 ^ 64 → stringToInteger signed w (integerToString n) = n →
  reads_value (readXMLInteger fuel signed w) (integerToString n) n.
Proof.
  intros Hn Hs p last rest Hc (Hp & Ha & Hrd). pose proof (readable_app _ _ Hrd) as [[Hf Hl] Hrd'].
  destruct (readXMLInteger_ok signed w n p rest Hn Hs Hp (Ha Hc) Hf Hl) as (p' & E & R). exists (GC.len (integerToString n)), p'.
  pose proof (GC.tok_len_pos (integerToString n)). split_and!; done || lia.
Qed.
Lemma xml_reads_signed w n : 0 < w ≤ 64 → - 2 ^ (w - 1) ≤ n < 2 ^ (w - 1) → reads_value (readXMLInteger fuel true w) (integerToString n) n.
Proof.
  intros Hw Hn. assert (2 ^ (w - 1) ≤ 2 ^ 63) by (apply Z.pow_le_mono_r; lia).
  apply reads_integer; [lia|by apply integer_text_signed].
Qed.
Lemma xml_reads_unsigned w n : 0 < w ≤ 64 → 0 ≤ n < 2 ^ w → reads_value (readXMLInteger fuel false w) (integerToString n) n.
Proof.
  intros Hw Hn. assert (2 ^ w ≤ 2 ^ 64) by (apply Z.pow_le_mono_r; lia).
  apply reads_integer; [lia|by apply integer_text_unsigned].
Qed.

Lemma plain_no_tag w : Forall (λ c, is_control c = false) w → Forall (λ c, c ≠ 60) w.
Proof. intros Hw. eapply Forall_impl; [exact Hw|]. cbn. by intros c Hc ->. Qed.
Lemma escape_plain w : Forall (λ c, is_control c = false) w → escapeXMLControlChars w = w.
Proof.
  intros Hw. unfold escapeXMLControlChars. assert (existsb is_control (c_str w) = false) as ->; [|done].
  induction Hw as [|c w Hc _ IH]; [done|]. cbn. destruct (c =? 0); [done|]. cbn. by rewrite Hc.
Qed.

Lemma escape_char_no_tag c : Forall (λ x, x ≠ 60) (escape_char c).
Proof.
  unfold escape_char. repeat case_match; try (by repeat constructor). apply Forall_singleton. intros ->.
  repeat match goal with H : is_char 60 _ = false |- _ => vm_compute in H end. done.
Qed.
Lemma escaped_no_tag s : no_entities s → Forall (λ c, c ≠ 60) (escapeXMLControlChars s) ∧ GC.len s ≤ GC.len (escapeXMLControlChars s).
Proof.
  intros (_ & _ & _ & Hz). rewrite escape_is_some by done. unfold escape_some, GC.len.
  induction s as [|c s IH]; [done|]. inversion Hz; subst. destruct IH as [IH1 IH2]; [done|]. cbn [map concat]. rewrite Forall_app, length_app. cbn [length].
  destruct (is_control c) eqn:Ec.
  - destruct (entity c Ec) as (body & E & _). split; [split; [apply escape_char_no_tag|done]|]. rewrite E. cbn [length]. lia.
  - split; [split; [|done]|cbn [length]; lia]. apply Forall_singleton. by intros ->.
Qed.

Lemma xml_reads_string l : no_entities l → reads_value (readString fuel) (escapeXMLControlChars l) l.
Proof.
  intros Hl p last rest Hc Hr. destruct (escaped_no_tag l Hl) as [Hno Hle]. pose proof Hr as (_ & _ & [[_ Hb] _]%readable_app).
  destruct (reads_xml_string _ Hno p last rest Hc Hr) as (n & p' & E & B & R). pose proof (GC.tok_len_pos l).
  exists (GC.len l), p'. unfold readString. rewrite E. cbn [mbind outcome_mbind]. rewrite unescape_escape by done.
  rewrite xml_s32_small by (unfold GC.len in *; lia). split_and!; done || lia.
Qed.

Lemma reads_address a : address_ok a → reads_value (readIPADDR fuel) (address_to_string a) a.
Proof.
  intros Ha p last rest Hc Hr. destruct (address_text a Ha) as [Hrt Hpl].
  destruct (reads_xml_string _ (plain_no_tag _ Hpl) p last rest Hc Hr) as (n & p' & E & B & R). exists n, p'.
  unfold readIPADDR. rewrite E. cbn [mbind outcome_mbind]. by rewrite Hrt.
Qed.

Lemma reads_xml l : ¬ occurs (lit "]]>") l → reads_value (readXML fuel) (lit "<![CDATA[" ++ l ++ lit "]]>") l.
Proof.
  intros Hl p last rest Hc (Hp & Ha & Hrd). pose proof (readable_app _ _ Hrd) as [[Hf Hb] Hrd'].
  destruct (readXML_ok l p (60 :: rest) Hl Hp (Ha Hc) Hf Hb) as (p' & E & R & A). eexists _, p'. split; [exact E|].
  pose proof (GC.tok_len_pos (lit "<![CDATA[" ++ l ++ lit "]]>")). split_and!; done || lia.
Qed.

Lemma reads_scalar s ob ou : scalar_ok s → reads_value (GC.read_scalar ob ou s) (scalar_text s) s.
Proof.
  destruct s as [b|z|z|z|z|z|z|z|z|a|z|l|l|l|l]; cbn [scalar_ok scalar_text]; intros Hs;
    try (by eapply reads_value_map; [apply xml_reads_signed; [lia|exact Hs]|]);
    try (by eapply reads_value_map; [apply xml_reads_unsigned; [lia|exact Hs]|]).
  - eapply reads_value_map; [|done]. eapply reads_value_map; [apply reads_xml_string|]; destruct b; try done; by repeat constructor.
  - by eapply reads_value_map; [apply reads_address|].
  - done.
  - by eapply reads_value_map; [apply xml_reads_string|].
  - rewrite escape_plain by done. by eapply reads_value_map; [apply reads_xml_string, plain_no_tag|].
  - by eapply reads_value_map; [apply reads_xml|].
  - destruct (uuid_text l ou Hs) as [Hrt Hpl]. rewrite escape_plain by done. eapply reads_value_map; [|done].
    by eapply reads_value_map; [apply reads_xml_string, plain_no_tag|].
Qed.

(** ** The laws *)

(** What comes after a value or after the last field is a closing tag. *)
Lemma next_closes last t t2 ts st bs rest : ¬ GC.calm (Some t) → GC.chain last (t :: t2 :: ts) →
  GC.closes st t2 → bs = token_text st t2 ++ rest → ∃ r, bs = 60 :: 47 :: r.
Proof.
  intros Ht (_ & Hadj & _) Hc ->. destruct t as [| | | | | | | | | | | | |s]; try done.
  - destruct Hadj as [b ->]. by eexists.
  - destruct Hadj as [-> | ->]; by eexists.
Qed.

Lemma chain_calm last t ts : GC.chain last (t :: ts) → match t with GC.KFieldEnd | GC.KElemEnd | GC.KEnd _ => True | _ => GC.calm last end.
Proof.
  intros [Ha _]. destruct last as [[| | | | | | | | | | | | |s]|]; try (by destruct t).
  - destruct Ha as [b ->]. done.
  - by destruct Ha as [-> | ->].
Qed.

Lemma xml_reads_stop p last rest o1 o2 : GC.calm last → rstate p last (60 :: 47 :: rest) →
  ∃ p', readFieldBegin fuel o1 o2 p = Ret (BP.Ok 0 ([], BP.T_STOP, o2), p') ∧ rstate p' (Some GC.KStop) (60 :: 47 :: rest).
Proof.
  intros Hc ([Hl Hp] & Ha & Hrd). destruct (peek2_chars p 60 47 rest Hl (Ha Hc) Hp) as (p1 & E1 & E2 & L1 & P1).
  exists p1. unfold readFieldBegin. rewrite E1. cbn [mbind outcome_mbind]. rewrite E2. done.
Qed.

(** What [reads_text] gives, for a token *)
Lemma text_token {A} (m : GC.PM (TXMLProtocol T) A) bs a (f : A → GC.token) t p last rest : reads_text m bs a → f a = GC.erase t →
  rstate p last (bs ++ rest) →
  ∃ n p', GC.map_ret f m p = Ret (BP.Ok n (GC.erase t), p') ∧ 0 ≤ n ≤ GC.len bs ∧ rstate p' (Some t) rest.
Proof.
  intros Hm Hf Hr. destruct (reads_text_map f m bs a _ Hm Hf p last rest Hr) as (n & p' & E & B & R). by exists n, p'.
Qed.

Lemma xml_read_token p last st t ts bs rest o1 o2 o3 ob ou : xml_token_ok t → Forall (λ x : bool * str, name_ok x.2) st →
  GC.closes st t → GC.chain last (t :: ts) → rstate p last (token_text st t ++ bs) →
  match ts with [] => True | t2 :: _ => GC.closes (GC.after st t) t2 ∧ bs = token_text (GC.after st t) t2 ++ rest end →
  ∃ n p', GC.read_token o1 o2 o3 ob ou t p = Ret (BP.Ok n (GC.erase t), p') ∧ 0 ≤ n ≤ GC.len (token_text st t) ∧ rstate p' (Some t) bs.
Proof.
  intros Ht Hst Hc Hch Hr Hnext. pose proof (chain_calm last t ts Hch) as Hcalm.
  assert (Htop : no_gt (top_name st)).
  { destruct Hst as [|[b n] st [Hn _] _]; [by constructor|by apply word_no_gt]. }
  destruct t as [[] n|[]|n type id a| | |k v n| |e n| |e n| | | |s]; cbn [token_text] in Hr; cbn [xml_token_ok] in Ht;
    try (by eapply text_token; [apply xml_reads_close|..|exact Hr]);
    try (by eapply text_token; [apply (xml_reads_close (lit "map")), no_gt_lit|..|exact Hr]);
    try (by eapply text_token; [apply (xml_reads_close (lit "list")), no_gt_lit|..|exact Hr]);
    try (by eapply text_token; [apply (xml_reads_close (lit "set")), no_gt_lit|..|exact Hr]);
    try (by eapply text_token; [apply (xml_reads_close (lit "element")), no_gt_lit|..|exact Hr]).
  - by eapply text_token; [apply reads_sandesh|..|exact Hr].
  - destruct Ht as [Hn _]. by eapply text_token; [apply (reads_tag false n), word_no_gt|..|exact Hr].
  - destruct (xml_reads_field n type id a Ht o1 o2 p last bs Hcalm Hr) as (k & p' & E & B & R). exists k, p'.
    destruct Ht as (_ & _ & Hne & _). cbn [GC.read_token]. unfold GC.map_ret. cbn [xp xml_protocol GC.readFieldBegin]. rewrite E.
    cbn. rewrite (proj2 (Z.eqb_neq _ _) Hne). done.
  - destruct ts as [|t2 ts]; [by destruct Hch|]. destruct Hnext as [Hc2 ->].
    destruct (next_closes last GC.KStop t2 ts st _ rest (λ x, x) Hch Hc2 eq_refl) as [r Er]. cbn in Er, Hr |- *. rewrite Er in Hr |- *.
    destruct (xml_reads_stop p last r o1 o2 Hcalm Hr) as (p' & E & R). exists 0, p'. unfold GC.map_ret. cbn [xp xml_protocol GC.readFieldBegin].
    rewrite E. split_and!; done || lia.
  - destruct Ht as (? & ? & ?). by eapply text_token; [apply xml_reads_map|..|exact Hr].
  - destruct Ht. by eapply text_token; [apply (reads_elems (lit "list")); [by apply word_lit|done..]|..|exact Hr].
  - destruct Ht. by eapply text_token; [apply (reads_elems (lit "set")); [by apply word_lit|done..]|..|exact Hr].
  - by eapply text_token; [eapply reads_text_ignore, (reads_tag false (lit "element")), no_gt_lit|..|exact Hr].
  - destruct ts as [|t2 ts]; [by destruct Hch|]. destruct Hnext as [Hc2 ->].
    destruct (next_closes last (GC.KScalar s) t2 ts st _ rest (λ x, x) Hch Hc2 eq_refl) as [r Er]. cbn [GC.after] in Er, Hr |- *. rewrite Er in Hr |- *.
    destruct (reads_value_map GC.KScalar _ _ s _ (reads_scalar s ob ou Ht) eq_refl p last _ Hcalm Hr) as (n & p' & E & B & R). by exists n, p'.
Qed.

#[export] Program Instance xml_laws : GC.ProtocolLaws (TXMLProtocol T) := {|
  GC.token_ok := xml_token_ok; GC.name_ok := name_ok; GC.encode := token_text; GC.readable := readable;
  GC.wstate := wstate; GC.written p := content (trans_ p); GC.wroom := wroom; GC.rstate := rstate |}.
Next Obligation. intros t n Ht [[b ->]|(k & i & a & ->)]; [done|by destruct Ht]. Qed.
Next Obligation. intros p m n Hm [Hf Hl]. split; [by eapply fits_law|lia]. Qed.
Next Obligation. intros p st t Hw Ht Hc Hr. by apply xml_write_token. Qed.
Next Obligation. intros p (Hl & Ha & _) Hrd. split; [|by split]. split; [done|]. unfold pending. by rewrite Ha. Qed.
Next Obligation. intros p last st t ts bs rest o1 o2 o3 ob ou Ht Hst Hc Hch Hr Hn. by eapply xml_read_token. Qed.

End Reader.
End XR.
