(* ===== verification/XmlObjects.v ===== *)
(** * Objects as XML

    What the generated code writes with [TXMLProtocol] it reads back; a library of string
    functions that keeps the laws; and what becomes of texts that were cut or that hold
    more than the reader can tell. *)

From stdpp Require Import list strings.
From S2P Require Import Prelude Transport BinaryProtocol Generated GeneratedThms XmlProtocol XmlText XmlThms.
Open Scope Z_scope.

Module XO.
Import XP XT XR.

(** ** The text of an object *)

Section Objects.
Context `{!XmlLib, !XmlLibLaws} {T : Type} `{!Transport T, !TransportLaws T}.

Fixpoint text (st : GC.stack) (ts : list GC.token) : str :=
  match ts with [] => [] | t :: ts => token_text st t ++ text (GC.after st t) ts end.

Lemma new_wstate uninit (tr : T) : valid tr → wstate (new_TXMLProtocol uninit tr) [].
Proof. intros Hv. by split_and!. Qed.


(** ** Texts that were cut

    At the end of the transport a read fails, the result is not looked at, and the
    character is the one that was read last. *)

Definition at_end (stop : Z → bool) (p : TXMLProtocol T) : Prop :=
  look_ok p ∧ ahead p = [] ∧ stop (data_ p) = false ∧ Forall (λ c, stop c = false) (content (trans_ p)).

Lemma readAll_one (t : T) : valid t → ∃ n bs t', tr_readAll 1 t = Ret (n, bs, t') ∧ valid t' ∧
  ((bs = [] ∧ content t = [] ∧ content t' = []) ∨ ∃ c, bs = [c] ∧ content t = c :: content t').
Proof.
  intros Hv. destruct (content t) as [|c rest] eqn:Ec.
  - destruct (readAll_short_law t 1 Hv) as (t' & E & V & C); [rewrite Ec; cbn; lia|lia|]. rewrite Ec in E. eexists _, [], t'. split; [exact E|]. split; [done|by left].
  - destruct (readAll_law t [c] rest Hv Ec) as (t' & E & V & C). eexists _, [c], t'. split; [exact E|]. split; [done|]. right. exists c. by rewrite C.
Qed.

Lemma peek_at_end stop p : at_end stop p → ∃ c p1 p2, reader_peek p = Ret (c, p1) ∧ stop c = false ∧ reader_read p1 = Ret (c, p2) ∧ at_end stop p2.
Proof.
  intros ((Hv & H1 & H2) & Ha & Hd & Hw). unfold ahead in Ha. destruct (hasData_ p) eqn:E1; [done|].
  destruct (has2Data_ p) eqn:E2; [by destruct (firstRead_ p)|].
  destruct (readAll_one (trans_ p) Hv) as (n & bs & t' & E & V & Hc). unfold reader_peek. rewrite E1, E. cbn [mbind outcome_mbind].
  eexists _, _, _. split; [done|].
  assert (Hs : stop (fill1 (data_ p) bs) = false ∧ Forall (λ c, stop c = false) (content t')).
  { destruct Hc as [(-> & _ & ->)|(c & -> & Ec)]; [done|]. rewrite Ec in Hw. by inversion Hw. }
  destruct Hs as [Hs1 Hs2]. split; [done|]. split; [done|]. unfold at_end, look_ok, ahead. cbn. rewrite E2. by split_and!; auto.
Qed.

Lemma read_at_end stop p : at_end stop p → ∃ c p', reader_read p = Ret (c, p') ∧ stop c = false ∧ at_end stop p'.
Proof.
  intros ((Hv & H1 & H2) & Ha & Hd & Hw). unfold ahead in Ha. destruct (hasData_ p) eqn:E1; [done|].
  destruct (has2Data_ p) eqn:E2; [by destruct (firstRead_ p)|].
  destruct (readAll_one (trans_ p) Hv) as (n & bs & t' & E & V & Hc). unfold reader_read. rewrite E1, E2, E. cbn [mbind outcome_mbind].
  eexists _, _. split; [done|].
  assert (Hs : stop (fill1 (data_ p) bs) = false ∧ Forall (λ c, stop c = false) (content t')).
  { destruct Hc as [(-> & _ & ->)|(c & -> & Ec)]; [done|]. rewrite Ec in Hw. by inversion Hw. }
  destruct Hs as [Hs1 Hs2]. split; [done|]. unfold at_end, look_ok, ahead. cbn. rewrite E2. by split_and!; auto.
Qed.

(** A text that was cut is never refused.  If a value is not followed by a tag, or a
    tag is not closed, before the data ends, the loops of [readXMLString],
    [readXMLNumericChars] and [readXMLTag] go on for ever, adding to their string, however
    many rounds they are given: the reader does not see that the transport is empty. *)
Theorem xml_cut_text_hangs (p : TXMLProtocol T) :
  (at_end (λ ch, ch =? kcXMLTagO) p → ∀ fuel, ∃ p', readXMLString fuel p = Ret (BP.Diverge, p')) ∧
  (at_end (λ ch, negb (isXMLNumeric ch)) p → ∀ fuel, ∃ p', readXMLNumericChars fuel p = Ret (BP.Diverge, p')) ∧
  (at_end (λ ch, ch =? kcXMLTagC) p → ∀ fuel acc n, ∃ p', readXMLTag_loop fuel acc n p = Ret (BP.Diverge, p')).
Proof.
  assert (Hu : ∀ stop fuel acc n p, at_end stop p → ∃ p', peek_until stop fuel acc n p = Ret (BP.Diverge, p')).
  { intros stop fuel. induction fuel as [|fuel IH]; intros acc n q Hq; [by exists q|]. cbn [peek_until].
    destruct (peek_at_end stop q Hq) as (c & p1 & p2 & -> & Hc & E & H2). cbn [mbind outcome_mbind]. rewrite Hc, E. by apply IH. }
  split; [|split]; intros Hp fuel; [by apply Hu..|]. revert p Hp.
  induction fuel as [|fuel IH]; intros p Hp acc n; [by exists p|]. cbn [readXMLTag_loop].
  destruct (read_at_end _ p Hp) as (c & p' & -> & Hc & Hp'). cbn [mbind outcome_mbind]. rewrite Hc. by apply IH.
Qed.

End Objects.
(** ** A library *)

Fixpoint replace_from (k : nat) (f t s : str) : str :=
  match k, s with
  | O, _ | _, [] => s
  | S k, c :: s' =>
      if bool_decide (f `prefix_of` s) then t ++ replace_from k f t (drop (length f) s) else c :: replace_from k f t s'
  end.
Definition is_separator (c : Z) : bool := (c =? 61) || (c =? 34) || (c =? 32).
Fixpoint split_at (acc s : str) : list str :=
  let rest := match acc with [] => [] | _ => [acc] end in
  match s with
  | [] => rest
  | c :: s => if is_separator c then rest ++ split_at [] s else split_at (acc ++ [c]) s
  end.

(** Bytes as two letters each *)
Definition letters (l : str) : str := concat (map (λ b, [97 + b / 16; 97 + b mod 16]) l).
Fixpoint unletters (s : str) : str := match s with a :: b :: s => (a - 97) * 16 + (b - 97) :: unletters s | _ => [] end.

#[local] Instance simple_lib : XmlLib := {|
  replace_all s f t := if bool_decide (f = []) then s else replace_from (length s) f t s;
  tokenize := split_at [];
  address_to_string a := match a with BP.V4 l | BP.V6 l => letters l end;
  address_from_string s :=
    if (length s =? 8)%nat then Some (BP.V4 (unletters s)) else if (length s =? 32)%nat then Some (BP.V6 (unletters s)) else None;
  uuid_to_string := letters;
  uuid_from_string s _ := unletters s;
  double_to_string _ := lit "0" |}.

Lemma replace_from_none k f t s : ¬ occurs f s → replace_from k f t s = s.
Proof.
  revert s. induction k as [|k IH]; intros s Hs; [done|]. destruct s as [|c s]; [done|]. cbn [replace_from].
  rewrite bool_decide_eq_false_2 by (intros Hp; by apply Hs, occurs_prefix). rewrite IH; [done|]. intros Ho. by apply Hs, occurs_cons.
Qed.

Lemma replace_from_more k k' f t s : f ≠ [] → (length s ≤ k)%nat → (length s ≤ k')%nat → replace_from k f t s = replace_from k' f t s.
Proof.
  intros Hf. revert k' s. induction k as [|k IH]; intros [|k'] [|c s] Hk Hk'; cbn [length] in *; try done; try lia. cbn [replace_from].
  destruct f as [|x f]; [done|]. case_bool_decide.
  - f_equal. apply IH; cbn [length drop]; rewrite length_drop; lia.
  - f_equal. apply IH; lia.
Qed.

Lemma prefix_short (f g s : str) : f `prefix_of` s → g `prefix_of` s → (length f ≤ length g)%nat → f `prefix_of` g.
Proof.
  intros [a Ea] [b Eb] Hl. exists (drop (length f) g). rewrite Ea in Eb. apply (f_equal (take (length f))) in Eb as Et.
  rewrite take_app_length, take_app_le in Et by done. rewrite Et at 1. by rewrite take_drop.
Qed.

Lemma replace_from_first a f b t : f ≠ [] → ¬ occurs f (a ++ removelast f) →
  replace_from (length (a ++ f ++ b)) f t (a ++ f ++ b) = a ++ t ++ replace_from (length b) f t b.
Proof.
  intros Hf. induction a as [|c a IH]; intros Ho.
  - cbn [app]. destruct f as [|x f]; [done|]. cbn [app length replace_from]. rewrite bool_decide_eq_true_2 by (by exists b). f_equal.
    cbn [drop]. rewrite drop_app_length. apply replace_from_more; [done|rewrite length_app; lia|done].
  - cbn [app length replace_from]. rewrite bool_decide_eq_false_2.
    + rewrite IH; [done|]. intros Hc. by apply Ho, occurs_cons.
    + intros Hp. apply Ho, occurs_prefix. apply (prefix_short _ _ _ Hp).
      * apply (prefix_app (c :: a)). transitivity f; [apply removelast_prefix|by exists b].
      * rewrite (app_removelast_last 0 Hf) at 1. rewrite !length_app. cbn. lia.
Qed.

Lemma is_separator_spec c : is_separator c = true ↔ separator c.
Proof. unfold is_separator, separator. lia. Qed.
Lemma split_word w acc s : Forall (λ c, ¬ separator c) w → split_at acc (w ++ s) = split_at (acc ++ w) s.
Proof.
  intros Hw. revert acc. induction Hw as [|c w Hc _ IH]; intros acc; [by rewrite app_nil_r|]. cbn [app split_at].
  rewrite (not_true_is_false (is_separator c)) by (by rewrite is_separator_spec). by rewrite IH, <- app_assoc.
Qed.

Lemma unletters_letters l : Forall (λ b, 0 ≤ b < 256) l → unletters (letters l) = l.
Proof.
  induction 1 as [|b l Hb _ IH]; [done|]. unfold letters in *. cbn [map concat app unletters]. rewrite IH. f_equal.
  pose proof (Z.div_mod b 16). lia.
Qed.
Lemma letters_plain l : Forall (λ b, 0 ≤ b < 256) l → Forall (λ c, is_control c = false) (letters l).
Proof.
  assert (Hc : ∀ n, 0 ≤ n < 16 → is_control (97 + n) = false).
  { intros n Hn. unfold is_control, is_char. rewrite !bool_decide_eq_false_2; [done|..]; intros [= ?]; lia. }
  induction 1 as [|b l Hb _ IH]; [by constructor|]. unfold letters in *. cbn [map concat app].
  assert (0 ≤ b / 16 < 16) by (split; [apply Z.div_pos; lia|apply Z.div_lt_upper_bound; lia]).
  constructor; [by apply Hc|]. constructor; [apply Hc, Z.mod_pos_bound; lia|done].
Qed.
Lemma letters_length l : length (letters l) = (2 * length l)%nat.
Proof. unfold letters. induction l; cbn in *; lia. Qed.

#[local] Instance simple_lib_laws : XmlLibLaws.
Proof.
  split; cbn.
  - intros s f t Hs. destruct (bool_decide _); [done|]. by apply replace_from_none.
  - intros a f b t Hf Ho. rewrite !bool_decide_eq_false_2 by done. by apply replace_from_first.
  - done.
  - intros c s Hc. by rewrite (proj2 (is_separator_spec c) Hc).
  - intros w c s Hw Hnw Hc. rewrite split_word by done. cbn. rewrite (proj2 (is_separator_spec c) Hc). by destruct w.
  - intros w Hw Hnw. rewrite <- (app_nil_r w) at 1. rewrite split_word by done. by destruct w.
  - intros [l|l] [Hl Hb]; rewrite letters_length, Hl; cbn; rewrite unletters_letters by done; (split; [done|by apply letters_plain]).
  - intros u _ [Hl Hb]. split; [by apply unletters_letters|by apply letters_plain].
Qed.

(** ** Over a memory buffer *)

#[local] Instance mem : Transport TB.TMemoryBuffer := TB.TMemoryBuffer_transport (λ _, true) (λ _, 0).
#[local] Instance mem_laws : TransportLaws TB.TMemoryBuffer := TB.TMemoryBuffer_laws (λ _, true) (λ _, 0).

Definition buffer (bs : list Z) : TB.TMemoryBuffer :=
  TB.mkTMB (bs ++ TB.new_memory (λ _, 0) 0 16) (GC.len bs + 16) 0 (GC.len bs) (GC.len bs) (GC.len bs + 16) true.

Lemma example_xml_tokens : Forall xml_token_ok (GT.object_tokens true GT.example_name GT.example_members GT.example_object).
Proof.
  assert (E : GT.object_tokens true GT.example_name GT.example_members GT.example_object =
    ltac:(let x := eval vm_compute in (GT.object_tokens true GT.example_name GT.example_members GT.example_object) in exact x))
    by (by vm_compute).
  rewrite E. clear E. repeat apply Forall_cons_2; try (by apply Forall_nil_2); cbn [xml_token_ok scalar_ok];
    unfold name_ok, no_entities, known, no_gt, address_ok, octets;
    repeat match goal with
    | |- _ ∧ _ => split
    | |- word _ => apply word_lit; vm_cast_no_check (eq_refl true)
    | |- _ ∈ _ => apply (bool_decide_unpack _); vm_cast_no_check I
    | |- ¬ occurs _ _ => apply (bool_decide_unpack _); vm_cast_no_check I
    | |- Forall _ _ => apply (bool_decide_unpack _); vm_cast_no_check I
    end; done || lia.
Qed.


(** An unfinished number, as a new reader finds it *)
Lemma xml_cut_text_hangs_witness : let p := new_TXMLProtocol 48 (buffer (lit "12")) in
  at_end (λ ch, ch =? kcXMLTagO) p ∧ at_end (λ ch, negb (isXMLNumeric ch)) p ∧
  ∀ fuel, (∃ p', readXMLString fuel p = Ret (BP.Diverge, p')) ∧ (∃ p', readXMLNumericChars fuel p = Ret (BP.Diverge, p')) ∧
    (∃ p', readXMLTag_loop fuel [] 0 p = Ret (BP.Diverge, p')).
Proof.
  intros p. assert (Hl : look_ok p) by (by split_and!).
  assert (Hp : ∀ stop, stop 48 = false → stop 49 = false → stop 50 = false → at_end stop p) by (intros; split_and!; try done; by repeat constructor).
  split; [by apply Hp|]. split; [by apply Hp|]. intros fuel.
  destruct (xml_cut_text_hangs p) as (H1 & H2 & H3). split; [by apply H1, Hp|]. split; [by apply H2, Hp|by apply H3, Hp].
Defined.

(** ** What the reader does not tell apart *)

(** A string that holds the text of an entity is read as the character it stands for. *)
Example entity_text_lost : unescapeXMLControlChars (escapeXMLControlChars (lit "&lt;")) = lit "<".
Proof. by vm_compute. Qed.

(** After a zero byte nothing is escaped: the control character ends the value. *)
Example zero_hides_controls : escapeXMLControlChars [97; 0; 60] = [97; 0; 60].
Proof. by vm_compute. Qed.

Definition sent {A} (w : GC.PM (TXMLProtocol TB.TMemoryBuffer) unit) (r : GC.PM (TXMLProtocol TB.TMemoryBuffer) A) : option A :=
  match GC.bind w (λ _, GC.bind (writePlain (lit "</f>")) (λ _, r)) (new_TXMLProtocol 0 (buffer [])) with
  | Ret (BP.Ok _ a, _) => Some a | _ => None end.

(** Binary data is escaped when it is written, and not unescaped when it is read. *)
Example binary_stays_escaped : sent (writeBinary (lit "a&b")) (readBinary 100) = Some (lit "a&amp;b").
Proof. by vm_compute. Qed.

(** A document in a document: the inner terminator ends the outer one. *)
Example nested_cdata_cut : sent (writeXML (lit "<![CDATA[x]]><y/>")) (readXML 100) = Some (lit "<![CDATA[x").
Proof. by vm_compute. Qed.

(** A name of two letters: the fourth is looked at. *)
Example short_type_name : getTypeIDForTypeName (lit "st") = Abort.
Proof. by vm_compute. Qed.

(** [skip] does not expect the tags around the elements of a list. *)
Example skip_list_fails :
  match GC.write_object (Protocol0 := xml_protocol 200) false (lit "s") [(GC.mkField 1 (lit "l") GC.T_OPT_IN_REQ_OUT [], GC.t_list GC.t_enum)]
    (GC.VStruct [] [(true, GC.VList [GC.VNum 5])]) (new_TXMLProtocol 0 (buffer [])) with
  | Ret (BP.Ok _ _, p) =>
      match GC.read_object (Protocol0 := xml_protocol 200) 0 (λ _ _, false) (λ _, true) 10 false [] (GC.VStruct [] []) (new_TXMLProtocol 0 (trans_ p)) with
      | Ret (BP.Err code, _) => code = -1
      | _ => False end
  | _ => False end.
Proof. by vm_compute. Qed.

End XO.
