(* ===== verification/SandeshSession.v ===== *)
(** * Messages on a session: [SandeshWriter] and [SandeshReader] of
      src/sandesh/library/cpp/sandesh_session.{h,cc}

    A message travels as [<sandesh length="dddddddddd">], the encoded message, and
    [</sandesh>]; the ten digits are the length of the whole.  The writer collects
    messages in [send_buf_] while more are waiting; the reader gets the stream in
    arbitrary pieces and hands every complete message to the callback.

    The encoding of a message (the code the Sandesh compiler generates, over
    TXMLProtocol) is a parameter: it writes to the memory buffer of [Transport] and
    returns the number of bytes, or a negative number.  What is handed to
    [TcpSession::Send] is recorded in [sent]; its answer, and the answer of the receive
    callback, are parameters.  An iterator outside a string is [Abort], and so is a
    failed assertion. *)

From stdpp Require Import list.
From Stdlib Require Import Ascii String.
From S2P Require Import Prelude Transport.
Open Scope Z_scope.

Module SS.

Definition ascii_bytes (s : string) : list Z := (λ c, Z.of_N (N_of_ascii c)) <$> list_ascii_of_string s.
Abbreviation len l := (Z.of_nat (length l)).

(** ** The envelope *)

Definition quote : Z := 34.
Definition sandesh_open_attr_length_ : list Z := ascii_bytes "<sandesh length=" ++ [quote].
Definition sandesh_open_ : list Z :=
  ascii_bytes "<sandesh length=" ++ [quote] ++ ascii_bytes "0000000000" ++ [quote] ++ ascii_bytes ">".
Definition sandesh_close_ : list Z := ascii_bytes "</sandesh>".

(** A number as [operator<<] prints it: at most [fuel] digits. *)
Fixpoint decimal (fuel : nat) (n : Z) : list Z :=
  match fuel with
  | O => []
  | S fuel => if n <? 10 then [48 + n] else decimal fuel (n / 10) ++ [48 + n mod 10]
  end.

(** ... with [fill('0')] and [width(w)]; a [uint32_t] has at most ten digits. *)
Definition padded (w : Z) (n : Z) : list Z :=
  let d := decimal 10 n in replicate (Z.to_nat w - length d) 48 ++ d.

(** [strtoull] with base 10 *)
Definition isspace (c : Z) : bool := (c =? 32) || ((9 <=? c) && (c <=? 13)).
Definition isdigit (c : Z) : bool := (48 <=? c) && (c <=? 57).

Fixpoint skip_space (l : list Z) : list Z :=
  match l with c :: r => if isspace c then skip_space r else l | [] => [] end.
Fixpoint digits_value (v : Z) (l : list Z) : Z :=
  match l with c :: l => if isdigit c then digits_value (10 * v + (c - 48)) l else v | [] => v end.

Definition strtoull (l : list Z) : Z :=
  let '(negative, l) := match skip_space l with
                        | c :: l => if c =? 45 then (true, l) else if c =? 43 then (false, l) else (false, c :: l)
                        | [] => (false, [])
                        end in
  let v := digits_value 0 l in
  if 2 ^ 64 <=? v then 2 ^ 64 - 1 else if negative : bool then u64 (- v) else v.

(** [stringToInteger] for [size_t], but for its result *)
Definition stringToInteger (l : list Z) : Z := strtoull l.

(** ** [SandeshWriter] *)

Definition kEncodeBufferSize : Z := 2048.
Definition kDefaultSendSize : Z := 16384.

Record SandeshWriter := mkWriter {
  ready_to_send_ : bool;
  send_buf_ : list Z;
  send_buf_offset_ : Z;
  sent : list (list Z);        (* what was passed to [Send] *)
  num_send_msg : Z;
  num_send_msg_fail : Z;
}.

Definition with_buf (mem : list Z) (off : Z) (w : SandeshWriter) : SandeshWriter :=
  mkWriter (ready_to_send_ w) mem off (sent w) (num_send_msg w) (num_send_msg_fail w).
Definition with_counts (ok fail : Z) (w : SandeshWriter) : SandeshWriter :=
  mkWriter (ready_to_send_ w) (send_buf_ w) (send_buf_offset_ w) (sent w) ok fail.

Definition set_send_buf (buf : list Z) (w : SandeshWriter) : outcome SandeshWriter :=
  assert_that (negb (len buf =? 0) && (len buf <? kDefaultSendSize));;
  mem ← TB.store (send_buf_ w) 0 buf;
  Ret (with_buf mem (len buf) w).

Definition append_send_buf (buf : list Z) (w : SandeshWriter) : outcome SandeshWriter :=
  assert_that (negb (len buf =? 0) && (len buf + send_buf_offset_ w <? kDefaultSendSize));;
  mem ← TB.store (send_buf_ w) (send_buf_offset_ w) buf;
  Ret (with_buf mem (send_buf_offset_ w + len buf) w).

Definition reset_send_buf (w : SandeshWriter) : SandeshWriter := with_buf (send_buf_ w) 0 w.

Section Writer.
Context (alloc_ok : Z → bool) (fresh : nat → Z) {Msg : Type}.
(** [SandeshHeader::write] and [Sandesh::Write]. *)
Context (header_write sandesh_write : Msg → TB.TMemoryBuffer → outcome (Z * TB.TMemoryBuffer)).
(** What [Send] answers to the bytes, after what was sent before. *)
Context (send_ok : list (list Z) → list Z → bool).

Definition new_SandeshWriter : SandeshWriter :=
  mkWriter true (TB.new_memory fresh 0 kDefaultSendSize) 0 [] 0 0.

(** [getWritePtr], [memcpy] and [wroteBytes] *)
Definition put (bs : list Z) (b : TB.TMemoryBuffer) : outcome TB.TMemoryBuffer :=
  '(p, b) ← TB.getWritePtr alloc_ok fresh (len bs) b;
  mem ← TB.store (TB.buffer_ b) p bs;
  TB.wroteBytes (len bs) (TB.set_w mem (TB.wBase_ b) b).

(** A buffer with a copy of the bytes *)
Definition buffer_of (bs : list Z) : outcome TB.TMemoryBuffer :=
  b ← TB.new_TMemoryBuffer alloc_ok fresh (len bs);
  put bs b.

Definition SendInternal (buf : TB.TMemoryBuffer) (w : SandeshWriter) : outcome SandeshWriter :=
  bs ← TB.pointed buf;
  Ret (mkWriter (send_ok (sent w) bs) (send_buf_ w) (send_buf_offset_ w) (sent w ++ [bs])
         (num_send_msg w) (num_send_msg_fail w)).

Definition SendMsgMore (send_buffer : TB.TMemoryBuffer) (w : SandeshWriter) : outcome SandeshWriter :=
  buf ← TB.pointed send_buffer;
  if negb (send_buf_offset_ w =? 0) then
    if send_buf_offset_ w + len buf <? kDefaultSendSize then append_send_buf buf w
    else
      old ← TB.load (send_buf_ w) 0 (send_buf_offset_ w);
      bulk_msg ← buffer_of old;
      w ← SendInternal bulk_msg w;
      SendInternal send_buffer (reset_send_buf w)
  else if kDefaultSendSize <=? len buf then SendInternal send_buffer w
  else set_send_buf buf w.

Definition SendMsgAll (send_buffer : TB.TMemoryBuffer) (w : SandeshWriter) : outcome SandeshWriter :=
  buf ← TB.pointed send_buffer;
  if negb (send_buf_offset_ w =? 0) then
    old ← TB.load (send_buf_ w) 0 (send_buf_offset_ w);
    if send_buf_offset_ w + len buf <=? kDefaultSendSize then
      bulk_msg ← buffer_of (old ++ buf);
      w ← SendInternal bulk_msg w;
      Ret (reset_send_buf w)
    else
      old_buf ← buffer_of old;
      w ← SendInternal old_buf w;
      SendInternal send_buffer (reset_send_buf w)
  else SendInternal send_buffer w.

(** The first part of [SendMsg]: the message with its envelope, unless the encoding
    fails *)
Definition EncodeMsg (m : Msg) : outcome (option TB.TMemoryBuffer) :=
  btrans ← TB.new_TMemoryBuffer alloc_ok fresh kEncodeBufferSize;
  btrans ← put sandesh_open_ btrans;
  '(ret, btrans) ← header_write m btrans;
  if ret <? 0 then Ret None else
  let xfer := ret in
  '(ret, btrans) ← sandesh_write m btrans;
  if ret <? 0 then Ret None else
  let xfer := xfer + ret in
  btrans ← put sandesh_close_ btrans;
  let offset := u32 (TB.wBase_ btrans - TB.rBase_ btrans) in
  assert_that (len sandesh_open_ + xfer + len sandesh_close_ =? offset);;
  mem ← TB.store (TB.buffer_ btrans) (TB.rBase_ btrans + len sandesh_open_attr_length_)
          (padded (len sandesh_open_ - len sandesh_open_attr_length_ - 2) offset);
  Ret (Some (TB.set_w mem (TB.wBase_ btrans) btrans)).

(** [send_buf()] is not null: the constructor allocates it. *)
Definition SendMsg (m : Msg) (more : bool) (w : SandeshWriter) : outcome SandeshWriter :=
  o ← EncodeMsg m;
  match o with
  | None => Ret (with_counts (num_send_msg w) (num_send_msg_fail w + 1) w)
  | Some btrans =>
      let w := with_counts (num_send_msg w + 1) (num_send_msg_fail w) w in
      if more then SendMsgMore btrans w else SendMsgAll btrans w
  end.

(** [WriteReady]; whether [MayBeStartRunner] is called *)
Definition WriteReady (error : bool) (w : SandeshWriter) : bool * SandeshWriter :=
  if error then (false, w)
  else (true, mkWriter true (send_buf_ w) (send_buf_offset_ w) (sent w) (num_send_msg w) (num_send_msg_fail w)).

(** [SandeshSession::SendMsg], the callback of the send queue; [queue_empty]:
    [send_queue_->IsQueueEmpty()] *)
Definition Session_SendMsg (established queue_empty : bool) (m : Msg) (w : SandeshWriter) : outcome SandeshWriter :=
  if negb established then Ret (with_counts (num_send_msg w) (num_send_msg_fail w + 1) w)
  else SendMsg m (negb queue_empty) w.

(** [SandeshSession::SessionSendReady]: whether the runner of the queue may start *)
Definition SessionSendReady (established queue_enabled : bool) (w : SandeshWriter) : bool :=
  established && ready_to_send_ w && queue_enabled.

End Writer.

(** ** [SandeshReader] *)

Definition unknown : Z := 2 ^ 64 - 1.        (* [(size_t)-1] *)

Record SandeshReader := mkReader {
  buf_ : list Z;
  offset_ : Z;
  msg_length_ : Z;
  delivered : list (list Z);      (* what the callback was called with *)
  num_recv_fail : Z;
  closes : Z;                     (* calls of [EnqueueClose] *)
}.

Definition new_SandeshReader : SandeshReader := mkReader [] 0 unknown [] 0 0.

Definition set_buf (buf : list Z) (off : Z) (r : SandeshReader) : SandeshReader :=
  mkReader buf off (msg_length_ r) (delivered r) (num_recv_fail r) (closes r).
Definition set_msg_length (n : Z) (r : SandeshReader) : SandeshReader :=
  mkReader (buf_ r) (offset_ r) n (delivered r) (num_recv_fail r) (closes r).

Definition MsgLengthKnown (r : SandeshReader) : bool := negb (msg_length_ r =? unknown).

Definition ReplaceBuf (str : list Z) (r : SandeshReader) : SandeshReader := set_buf str 0 r.

Definition SetBuf (str : list Z) (r : SandeshReader) : SandeshReader :=
  match buf_ r with [] => ReplaceBuf str r | _ => set_buf (buf_ r ++ str) (offset_ r) r end.

Definition LeftOver (r : SandeshReader) : bool :=
  match buf_ r with [] => false | _ => negb (len (buf_ r) =? offset_ r) end.

(** [string(buf_.begin() + st, buf_.begin() + end)] *)
Definition substr (st fin : Z) (l : list Z) : outcome (list Z) :=
  if (0 <=? st) && (st <=? fin) && (fin <=? len l)
  then Ret (take (Z.to_nat (fin - st)) (drop (Z.to_nat st) l)) else Abort.

Definition starts_with (p l : list Z) : bool := bool_decide (take (length p) l = p).

(** Whether the length could be extracted, the length, and [*result] *)
Definition ExtractMsgLength (r : SandeshReader) : outcome (bool * Z * Z) :=
  if u64 (len (buf_ r) - offset_ r) <? len sandesh_open_ then Ret (false, 0, 0)
  else if negb (starts_with sandesh_open_attr_length_ (drop (Z.to_nat (offset_ r)) (buf_ r))) then Ret (false, 0, -1)
  else
    let fin := offset_ r + len sandesh_open_ - 1 in
    last ← substr fin (fin + 1) (buf_ r);
    if negb (bool_decide (last = [62])) then Ret (false, 0, -2)                 (* '>' *)
    else
      let st := offset_ r + len sandesh_open_attr_length_ in
      length ← substr st (fin - 1) (buf_ r);
      let msg_length := stringToInteger length in
      if msg_length =? 0 then Ret (false, 0, -3) else Ret (true, msg_length, 0).

(** [buffer]: the new data, with [NewBuf].  The result, [*result] and the reader *)
Definition ExtractMsg (buffer : option (list Z)) (r : SandeshReader) : outcome (bool * Z * SandeshReader) :=
  let r := match buffer with Some str => SetBuf str r | None => r end in
  '(ok, result, r) ← (if MsgLengthKnown r then Ret (true, 0, r)
                      else
                        '(done, msg_length, result) ← ExtractMsgLength r;
                        if done : bool then Ret (true, result, set_msg_length msg_length r)
                        else Ret (false, result, r));
  if negb ok then Ret (false, result, r)
  else Ret (msg_length_ r <=? len (buf_ r), result, r).

Section Reader.
(** What the callback answers. *)
Context (cb : list (list Z) → list Z → bool).

Definition close (r : SandeshReader) : SandeshReader :=
  mkReader (buf_ r) (offset_ r) (msg_length_ r) (delivered r) (num_recv_fail r + 1) (closes r + 1).

(** The loop of [OnRead]; running out of fuel is [Abort] *)
Fixpoint OnRead_loop (fuel : nat) (done : bool) (result : Z) (r : SandeshReader) : outcome SandeshReader :=
  match fuel with
  | O => Abort
  | S fuel =>
      if result <? 0 then Ret (close (set_buf [] 0 r))
      else if negb done then Ret r
      else
        xml ← substr (offset_ r + len sandesh_open_) (offset_ r + msg_length_ r - len sandesh_close_) (buf_ r);
        let r := mkReader (buf_ r) (offset_ r + msg_length_ r) unknown (delivered r ++ [xml]) (num_recv_fail r) (closes r) in
        if negb (cb (delivered r) xml) then Ret (close r)
        else if LeftOver r then
          str ← substr (offset_ r) (len (buf_ r)) (buf_ r);
          '(done, result, r) ← ExtractMsg None (ReplaceBuf str r);
          OnRead_loop fuel done result r
        else Ret (set_buf [] 0 r)
  end.

(** [cb_set]: the callback is not empty.  Every round but the last takes a message with
    its envelope from the buffer, which bounds the rounds. *)
Definition OnRead (cb_set : bool) (buffer : list Z) (r : SandeshReader) : outcome SandeshReader :=
  if negb cb_set
  then Ret (mkReader (buf_ r) (offset_ r) (msg_length_ r) (delivered r) (num_recv_fail r + 1) (closes r))
  else
    '(done, result, r) ← ExtractMsg (Some buffer) r;
    OnRead_loop (S (length (buf_ r))) done result r.

Fixpoint OnReads (buffers : list (list Z)) (r : SandeshReader) : outcome SandeshReader :=
  match buffers with [] => Ret r | b :: buffers => r ← OnRead true b r; OnReads buffers r end.

End Reader.

(** ** Numbers *)

Lemma decimal_value fuel n v : 0 ≤ n < 10 ^ Z.of_nat fuel → 
  ∃ k, digits_value v (decimal fuel n) = 10 ^ k * v + n ∧ 0 ≤ k ∧ (∀ l, digits_value v (decimal fuel n ++ l) = digits_value (10 ^ k * v + n) l).
Proof.
  revert n v. induction fuel as [|fuel IH]; intros n v Hn.
  { exists 0. cbn in Hn. assert (n = 0) as -> by lia. cbn [decimal app]. split_and!; [cbn; lia|lia|]. intros l. f_equal. cbn. lia. }
  cbn [decimal]. rewrite Nat2Z.inj_succ, Z.pow_succ_r in Hn by lia. destruct (Z.ltb_spec n 10) as [Hlt|Hge].
  - exists 1. cbn [app digits_value]. unfold isdigit. rewrite !(proj2 (Z.leb_le _ _)) by lia. cbn [andb].
    split_and!; [lia..|]. intros l. f_equal. lia.
  - destruct (IH (n / 10) v) as (k & E & Hk & Happ); [split; [apply Z.div_pos; lia|apply Z.div_lt_upper_bound; lia]|].
    pose proof (Z.mod_pos_bound n 10 ltac:(lia)). pose proof (Z.div_mod n 10 ltac:(lia)) as Hdm.
    assert (Hd : isdigit (48 + n mod 10) = true) by (unfold isdigit; rewrite !(proj2 (Z.leb_le _ _)) by lia; done).
    exists (k + 1). rewrite Z.pow_add_r by lia. split_and!; [|lia|].
    + rewrite Happ. cbn [digits_value]. rewrite Hd. lia.
    + intros l. rewrite <- app_assoc, Happ. cbn [app digits_value]. rewrite Hd. f_equal. lia.
Qed.

Lemma decimal_length fuel n : (length (decimal fuel n) ≤ fuel)%nat.
Proof. revert n. induction fuel as [|fuel IH]; intros n; cbn; [done|]. case_match; cbn; [lia|]. rewrite length_app. cbn. specialize (IH (n / 10)). lia. Qed.

Lemma decimal_digits fuel n : 0 ≤ n → Forall (λ c, isdigit c = true) (decimal fuel n).
Proof.
  revert n. induction fuel as [|fuel IH]; intros n Hn; cbn; [constructor|].
  destruct (Z.ltb_spec n 10); [constructor; [|constructor]|apply Forall_app; split; [apply IH, Z.div_pos; lia|constructor; [|constructor]]];
    unfold isdigit; rewrite !(proj2 (Z.leb_le _ _)); try done; pose proof (Z.mod_pos_bound n 10 ltac:(lia)); lia.
Qed.

Lemma padded_length w n : 10 ≤ w → len (padded w n) = w.
Proof. intros Hw. unfold padded. rewrite length_app, length_replicate. pose proof (decimal_length 10 n). lia. Qed.

Lemma zeros_value k l : digits_value 0 (replicate k 48 ++ l) = digits_value 0 l.
Proof. induction k; [done|]. cbn. done. Qed.

Lemma digit_not_space c : isdigit c = true → isspace c = false ∧ c ≠ 45 ∧ c ≠ 43.
Proof. unfold isdigit, isspace. intros [?%Z.leb_le ?%Z.leb_le]%andb_prop. split; [|lia]. destruct (Z.eqb_spec c 32), (Z.leb_spec 9 c), (Z.leb_spec c 13); cbn; lia. Qed.

(** What the writer prints, the reader reads. *)
Lemma padded_value w n : 0 ≤ n < 10 ^ 10 → stringToInteger (padded w n) = n.
Proof.
  intros Hn. assert (Hd : Forall (λ c, isdigit c = true) (padded w n)).
  { apply Forall_app. split; [by apply Forall_replicate|]. apply decimal_digits. lia. }
  assert (Hv : digits_value 0 (padded w n) = n).
  { unfold padded. rewrite zeros_value. destruct (decimal_value 10 n 0 Hn) as (k & -> & _). lia. }
  unfold stringToInteger, strtoull. destruct (padded w n) as [|c l] eqn:E.
  - cbn in *. by subst.
  - apply Forall_cons in Hd as [Hc _]. destruct (digit_not_space c Hc) as (Hs & H1 & H2). cbn [skip_space]. rewrite Hs.
    rewrite (proj2 (Z.eqb_neq _ _) H1), (proj2 (Z.eqb_neq _ _) H2), Hv, (proj2 (Z.leb_gt _ _)) by lia. done.
Qed.

(** ** The writer *)

(** A message on the wire. *)
Definition frame (payload : list Z) : list Z :=
  sandesh_open_attr_length_ ++ padded 10 (len payload + 39) ++ [quote; 62] ++ payload ++ sandesh_close_.

Lemma frame_length p : len (frame p) = len p + 39.
Proof. unfold frame. rewrite !length_app, !Nat2Z.inj_add, padded_length by done.
  change (len sandesh_open_attr_length_) with 17. change (len sandesh_close_) with 10. change (len [quote; 62]) with 2. lia.
Qed.

(** The bytes were added to the buffer. *)
Record appended (b : TB.TMemoryBuffer) (bs : list Z) (b' : TB.TMemoryBuffer) : Prop := {
  ap_inv : TB.BufInv b';
  ap_unread : TB.unread b' = TB.unread b ++ bs;
  ap_read : TB.rBase_ b' = TB.rBase_ b;
  ap_write : TB.wBase_ b' = TB.wBase_ b + len bs;
  ap_own : TB.owner_ b' = true;
}.

Section WriterThms.
Context (alloc_ok : Z → bool) (fresh : nat → Z) {Msg : Type}.
Context (header_write sandesh_write : Msg → TB.TMemoryBuffer → outcome (Z * TB.TMemoryBuffer)).
Context (send_ok : list (list Z) → list Z → bool).
Hypothesis alloc_always : ∀ n, alloc_ok n = true.

Lemma put_ok bs b : TB.BufInv b → TB.owner_ b = true → TB.wBase_ b + len bs ≤ 2 ^ 31 →
  ∃ b', put alloc_ok fresh bs b = Ret b' ∧ appended b bs b'.
Proof using alloc_always.
  intros I Ho H31. pose proof I as []. unfold put, TB.getWritePtr.
  assert (He : ∃ mem size, TB.ensureCanWrite alloc_ok fresh (len bs) b =
      Ret (0, TB.mkTMB mem size (TB.rBase_ b) (TB.rBound_ b) (TB.wBase_ b) size (TB.owner_ b)) ∧
    take (length (TB.buffer_ b)) mem = TB.buffer_ b ∧ len mem = size ∧
    TB.bufferSize_ b ≤ size < 2 ^ 32 ∧ TB.wBase_ b + len bs ≤ size).
  { destruct (Z.le_gt_cases (len bs) (TB.wBound_ b - TB.wBase_ b)) as [Hle|Hgt].
    - exists (TB.buffer_ b), (TB.bufferSize_ b). unfold TB.ensureCanWrite. rewrite TB.available_write_eq by done.
      rewrite (proj2 (Z.leb_le _ _)) by lia. split_and!; try lia; [destruct b; cbn in *; congruence|by apply take_ge|by rewrite bi_own].
    - apply TB.ensureCanWrite_ok; [done|lia|]. right. done. }
  destruct He as (mem & size & -> & Ht & Hm & Hs & Hn). cbn [mbind outcome_mbind TB.buffer_ TB.wBase_].
  destruct (TB.store_unread b mem bs size size I Ht) as (mem' & -> & Hm' & Hu); [lia|]. cbn [mbind outcome_mbind].
  unfold TB.wroteBytes, TB.available_write, TB.set_w. cbn. rewrite (wrap_small 32) by lia.
  rewrite (proj2 (Z.leb_le _ _)) by lia. cbn. eexists. split; [done|]. constructor; cbn; try done.
  constructor; cbn; rewrite ?Hm'; try done; lia.
Qed.

Lemma new_buffer_ok n : 0 ≤ n < 2 ^ 32 →
  ∃ b, TB.new_TMemoryBuffer alloc_ok fresh n = Ret b ∧ TB.BufInv b ∧ TB.owner_ b = true ∧
    TB.unread b = [] ∧ TB.rBase_ b = 0 ∧ TB.wBase_ b = 0.
Proof using alloc_always.
  intros Hn. unfold TB.new_TMemoryBuffer, TB.initCommon. rewrite alloc_always.
  destruct (Z.eqb_spec n 0) as [->|Hne]; (eexists; split; [done|]); (split; [|done]).
  - by constructor.
  - constructor; cbn; try lia; rewrite TB.new_memory_length by lia; lia.
Qed.

Lemma buffer_of_ok bs : len bs ≤ 2 ^ 31 →
  ∃ b, buffer_of alloc_ok fresh bs = Ret b ∧ TB.pointed b = Ret bs.
Proof using alloc_always.
  intros H31. unfold buffer_of. destruct (new_buffer_ok (len bs)) as (b & -> & I & Ho & Hu & Hr & Hw); [lia|].
  cbn [mbind outcome_mbind]. destruct (put_ok bs b I Ho) as (b' & -> & []); [lia|].
  exists b'. split; [done|]. unfold TB.pointed. rewrite TB.pointed_ok by done. by rewrite ap_unread0, Hu.
Qed.

(** The encodings, as functions of the message: none if the encoding fails. *)
Definition encodes (f : Msg → TB.TMemoryBuffer → outcome (Z * TB.TMemoryBuffer)) (bytes : Msg → option (list Z)) : Prop :=
  ∀ m b, TB.BufInv b → TB.owner_ b = true →
    match bytes m with
    | Some bs => TB.wBase_ b + len bs ≤ 2 ^ 31 → ∃ b', f m b = Ret (len bs, b') ∧ appended b bs b'
    | None => ∃ n b', f m b = Ret (n, b') ∧ n < 0
    end.

Context (header_bytes body_bytes : Msg → option (list Z)).
Hypothesis header_encodes : encodes header_write header_bytes.
Hypothesis body_encodes : encodes sandesh_write body_bytes.

Definition payload (m : Msg) : option (list Z) := h ← header_bytes m; b ← body_bytes m; Some (h ++ b).
Definition fits (m : Msg) : Prop := len (default [] (header_bytes m)) + len (default [] (body_bytes m)) + 39 ≤ 2 ^ 31.

Lemma buffer_split b : TB.BufInv b → TB.rBase_ b = 0 →
  TB.buffer_ b = TB.unread b ++ drop (Z.to_nat (TB.wBase_ b)) (TB.buffer_ b).
Proof. intros I Hr. unfold TB.unread. rewrite Hr, drop_0, Z.sub_0_r, take_drop. done. Qed.

(** The length is filled in. *)
Lemma fill_length b p : TB.BufInv b → TB.rBase_ b = 0 → TB.unread b = sandesh_open_ ++ p ++ sandesh_close_ →
  ∃ mem, TB.store (TB.buffer_ b) (TB.rBase_ b + len sandesh_open_attr_length_) (padded 10 (len p + 39)) = Ret mem ∧
    TB.pointed (TB.set_w mem (TB.wBase_ b) b) = Ret (frame p).
Proof.
  intros I Hr Hu. pose proof (buffer_split b I Hr) as Hb. pose proof (TB.unread_length b I) as Hl.
  set (rest := drop (Z.to_nat (TB.wBase_ b)) (TB.buffer_ b)) in *.
  set (tl := [quote; 62] ++ p ++ sandesh_close_).
  assert (Eo : TB.unread b = sandesh_open_attr_length_ ++ replicate 10 48 ++ tl) by (rewrite Hu; done).
  assert (Hp : len (padded 10 (len p + 39)) = 10) by (by apply padded_length).
  assert (Hmem : TB.buffer_ b = sandesh_open_attr_length_ ++ replicate 10 48 ++ tl ++ rest)
    by (rewrite Hb, Eo; by rewrite <- !app_assoc).
  assert (Ha : len sandesh_open_attr_length_ = 17) by done.
  rewrite Hr, TB.mem_store_ok; [|lia|rewrite Hmem, !length_app, length_replicate; lia]. eexists. split; [done|].
  assert (Ed : drop (Z.to_nat (0 + len sandesh_open_attr_length_) + length (padded 10 (len p + 39))) (TB.buffer_ b) = tl ++ rest).
  { rewrite Hmem, <- drop_drop, drop_app_length' by lia. rewrite drop_app_length' by (rewrite length_replicate; lia). done. }
  rewrite Ed, Hmem, take_app_length' by lia.
  unfold TB.pointed. cbn [TB.set_w TB.buffer_ TB.rBase_ TB.wBase_]. rewrite Hr, Z.sub_0_r.
  assert (Hf : len (frame p) = TB.wBase_ b).
  { rewrite Hr, Z.sub_0_r in Hl. rewrite <- Hl, Eo, frame_length. unfold tl. rewrite !length_app, length_replicate.
    change (length [quote; 62]) with 2%nat. change (length sandesh_close_) with 10%nat. lia. }
  assert (Eapp : sandesh_open_attr_length_ ++ padded 10 (len p + 39) ++ tl ++ rest = frame p ++ rest).
  { unfold frame, tl. by rewrite <- !app_assoc. }
  rewrite Eapp, TB.mem_load_ok; [|lia|lia|rewrite length_app; lia]. rewrite drop_0, take_app_length' by lia. done.
Qed.

Lemma EncodeMsg_ok m : fits m →
  match payload m with
  | Some p => ∃ b, EncodeMsg alloc_ok fresh header_write sandesh_write m = Ret (Some b) ∧ TB.pointed b = Ret (frame p)
  | None => EncodeMsg alloc_ok fresh header_write sandesh_write m = Ret None
  end.
Proof using alloc_always header_encodes body_encodes.
  unfold fits, payload. intros Hfit. unfold EncodeMsg.
  destruct (new_buffer_ok kEncodeBufferSize) as (b0 & -> & I0 & O0 & U0 & R0 & W0); [done|]. cbn [mbind outcome_mbind].
  assert (Ho : len sandesh_open_ = 29) by done. assert (Hc : len sandesh_close_ = 10) by done.
  destruct (put_ok sandesh_open_ b0 I0 O0) as (b1 & -> & [I1 U1 R1 W1 O1]); [lia|]. cbn [mbind outcome_mbind].
  pose proof (header_encodes m b1 I1 O1) as Hh. destruct (header_bytes m) as [h|]; cbn in Hfit; cbn [mbind option_bind outcome_mbind].
  2:{ destruct Hh as (n & b2 & -> & Hn). cbn [mbind outcome_mbind]. by rewrite (proj2 (Z.ltb_lt _ _)). }
  destruct Hh as (b2 & -> & [I2 U2 R2 W2 O2]); [lia|]. cbn [mbind outcome_mbind]. rewrite (proj2 (Z.ltb_ge _ _)) by lia.
  pose proof (body_encodes m b2 I2 O2) as Hb. destruct (body_bytes m) as [bd|]; cbn in Hfit; cbn [mbind option_bind outcome_mbind].
  2:{ destruct Hb as (n & b3 & -> & Hn). cbn [mbind outcome_mbind]. by rewrite (proj2 (Z.ltb_lt _ _)). }
  destruct Hb as (b3 & -> & [I3 U3 R3 W3 O3]); [lia|]. cbn [mbind outcome_mbind]. rewrite (proj2 (Z.ltb_ge _ _)) by lia.
  destruct (put_ok sandesh_close_ b3 I3 O3) as (b4 & -> & [I4 U4 R4 W4 O4]); [lia|]. cbn [mbind outcome_mbind].
  assert (Hr : TB.rBase_ b4 = 0) by congruence.
  assert (Hoff : u32 (TB.wBase_ b4 - TB.rBase_ b4) = len (h ++ bd) + 39) by (rewrite wrap_small; rewrite ?length_app; lia).
  assert (Hu : TB.unread b4 = sandesh_open_ ++ (h ++ bd) ++ sandesh_close_).
  { rewrite U4, U3, U2, U1, U0. cbn [app]. by rewrite <- !app_assoc. }
  rewrite Hoff. rewrite (proj2 (Z.eqb_eq _ _)) by (rewrite length_app; lia). cbn [assert_that mbind outcome_mbind].
  change (len sandesh_open_ - len sandesh_open_attr_length_ - 2) with 10.
  destruct (fill_length b4 (h ++ bd) I4 Hr Hu) as (mem & -> & Hp). cbn [mbind outcome_mbind]. by eexists.
Qed.
(** The stream handed to the writer so far is what was sent and what waits. *)
Record WInv (w : SandeshWriter) (stream : list Z) : Prop := {
  wi_off : 0 ≤ send_buf_offset_ w < kDefaultSendSize;
  wi_mem : len (send_buf_ w) = kDefaultSendSize;
  wi_stream : concat (sent w) ++ take (Z.to_nat (send_buf_offset_ w)) (send_buf_ w) = stream;
}.

Definition counters (w : SandeshWriter) : Z * Z := (num_send_msg w, num_send_msg_fail w).

Lemma new_WInv : WInv (new_SandeshWriter fresh) [].
Proof. constructor; [done|apply TB.new_memory_length; done|done]. Qed.

Lemma store_prefix (mem buf mem' : list Z) i : 0 ≤ i → i + len buf ≤ len mem → TB.store mem i buf = Ret mem' →
  len mem' = len mem ∧ take (Z.to_nat (i + len buf)) mem' = take (Z.to_nat i) mem ++ buf.
Proof.
  intros Hi Hl. rewrite TB.mem_store_ok by done. intros [= <-]. rewrite !length_app, length_take, length_drop. split; [lia|].
  rewrite app_assoc. apply take_app_length'. rewrite length_app, length_take. lia.
Qed.

Lemma set_send_buf_ok buf w stream : WInv w stream → send_buf_offset_ w = 0 → 0 < len buf < kDefaultSendSize →
  ∃ w', set_send_buf buf w = Ret w' ∧ WInv w' (stream ++ buf) ∧ counters w' = counters w.
Proof.
  intros [] E0 Hb. unfold set_send_buf. rewrite (proj2 (Z.eqb_neq _ _)), (proj2 (Z.ltb_lt _ _)) by lia.
  cbn [negb andb assert_that mbind outcome_mbind].
  destruct (TB.store (send_buf_ w) 0 buf) as [mem|] eqn:E; [|rewrite TB.mem_store_ok in E by lia; done].
  destruct (store_prefix (send_buf_ w) buf mem 0) as [Hm Ht]; [lia|lia|done|]. eexists. split; [done|]. split; [|done].
  constructor; cbn; [lia|lia|]. rewrite E0, take_0, app_nil_r in wi_stream0. rewrite Z.add_0_l in Ht. by rewrite Ht, wi_stream0.
Qed.

Lemma append_send_buf_ok buf w stream : WInv w stream → 0 < len buf → send_buf_offset_ w + len buf < kDefaultSendSize →
  ∃ w', append_send_buf buf w = Ret w' ∧ WInv w' (stream ++ buf) ∧ counters w' = counters w.
Proof.
  intros [] Hb Hk. unfold append_send_buf. rewrite (proj2 (Z.eqb_neq _ _)), (proj2 (Z.ltb_lt _ _)) by lia.
  cbn [negb andb assert_that mbind outcome_mbind].
  destruct (TB.store (send_buf_ w) (send_buf_offset_ w) buf) as [mem|] eqn:E; [|rewrite TB.mem_store_ok in E by lia; done].
  destruct (store_prefix (send_buf_ w) buf mem (send_buf_offset_ w)) as [Hm Ht]; [lia|lia|done|]. eexists. split; [done|]. split; [|done].
  constructor; cbn; [lia|lia|]. by rewrite Ht, app_assoc, wi_stream0.
Qed.

(** Sending when nothing waits, and sending what waits. *)
Lemma SendInternal_ok b bs w stream : WInv w stream → send_buf_offset_ w = 0 → TB.pointed b = Ret bs →
  ∃ w', SendInternal send_ok b w = Ret w' ∧ WInv w' (stream ++ bs) ∧ counters w' = counters w ∧ send_buf_offset_ w' = 0.
Proof.
  intros [] E0 Hp. unfold SendInternal. rewrite Hp. cbn [mbind outcome_mbind]. eexists. split; [done|]. split_and!; [|done..].
  constructor; cbn; [lia|done|]. rewrite E0, take_0, app_nil_r in *. by rewrite concat_app, wi_stream0, concat_cons, concat_nil, app_nil_r.
Qed.

Lemma pending_load w stream : WInv w stream →
  TB.load (send_buf_ w) 0 (send_buf_offset_ w) = Ret (take (Z.to_nat (send_buf_offset_ w)) (send_buf_ w)).
Proof. intros []. by rewrite TB.mem_load_ok by lia. Qed.

Lemma flush_ok extra w stream : WInv w stream → len extra ≤ kDefaultSendSize →
  let old := take (Z.to_nat (send_buf_offset_ w)) (send_buf_ w) in
  ∃ b w', buffer_of alloc_ok fresh (old ++ extra) = Ret b ∧ SendInternal send_ok b w = Ret w' ∧
    WInv (reset_send_buf w') (stream ++ extra) ∧ counters w' = counters w.
Proof using alloc_always.
  intros I He old. pose proof I as []. assert (Hlo : len old ≤ kDefaultSendSize) by (unfold old; rewrite length_take; lia).
  destruct (buffer_of_ok (old ++ extra)) as (b & Eb & Hp); [rewrite length_app; unfold kDefaultSendSize in *; lia|].
  exists b. unfold SendInternal. rewrite Hp. eexists. split; [done|]. split; [done|]. split; [|done]. constructor; cbn; [done|done|].
  rewrite app_nil_r, concat_app, concat_cons, concat_nil, app_nil_r, app_assoc, <- wi_stream0. done.
Qed.

Lemma SendMsgMore_ok b bs w stream : WInv w stream → TB.pointed b = Ret bs → 0 < len bs →
  ∃ w', SendMsgMore alloc_ok fresh send_ok b w = Ret w' ∧ WInv w' (stream ++ bs) ∧ counters w' = counters w.
Proof using alloc_always.
  intros I Hp Hb. unfold SendMsgMore. rewrite Hp. cbn [mbind outcome_mbind].
  destruct (Z.eqb_spec (send_buf_offset_ w) 0) as [E0|Hne]; cbn [negb].
  - destruct (Z.leb_spec kDefaultSendSize (len bs)) as [Hle|Hgt]; [|by apply set_send_buf_ok].
    destruct (SendInternal_ok b bs w stream I E0 Hp) as (w' & ? & ? & ? & _). by exists w'.
  - destruct (Z.ltb_spec (send_buf_offset_ w + len bs) kDefaultSendSize); [by apply append_send_buf_ok|].
    rewrite (pending_load w stream I). cbn [mbind outcome_mbind].
    destruct (flush_ok [] w stream I ltac:(done)) as (b1 & w1 & Eb & Es & I1 & C1). rewrite app_nil_r in Eb. rewrite Eb.
    cbn [mbind outcome_mbind]. rewrite Es. cbn [mbind outcome_mbind]. rewrite app_nil_r in I1.
    destruct (SendInternal_ok b bs _ stream I1 eq_refl Hp) as (w2 & -> & I2 & C2 & _). exists w2. split_and!; [done..|].
    by rewrite C2, <- C1.
Qed.

Lemma SendMsgAll_ok b bs w stream : WInv w stream → TB.pointed b = Ret bs → 0 < len bs →
  ∃ w', SendMsgAll alloc_ok fresh send_ok b w = Ret w' ∧ WInv w' (stream ++ bs) ∧ counters w' = counters w ∧
    send_buf_offset_ w' = 0.
Proof using alloc_always.
  intros I Hp Hb. unfold SendMsgAll. rewrite Hp. cbn [mbind outcome_mbind].
  destruct (Z.eqb_spec (send_buf_offset_ w) 0) as [E0|Hne]; cbn [negb]; [by apply SendInternal_ok|].
  rewrite (pending_load w stream I). cbn [mbind outcome_mbind].
  destruct (Z.leb_spec (send_buf_offset_ w + len bs) kDefaultSendSize) as [Hle|Hgt].
  - destruct (flush_ok bs w stream I) as (b1 & w1 & -> & Es & I1 & C1); [destruct I; lia|].
    cbn [mbind outcome_mbind]. rewrite Es. cbn [mbind outcome_mbind]. eexists. split; [done|]. by split_and!.
  - destruct (flush_ok [] w stream I ltac:(done)) as (b1 & w1 & Eb & Es & I1 & C1). rewrite app_nil_r in Eb. rewrite Eb.
    cbn [mbind outcome_mbind]. rewrite Es. cbn [mbind outcome_mbind]. rewrite app_nil_r in I1.
    destruct (SendInternal_ok b bs _ stream I1 eq_refl Hp) as (w2 & -> & I2 & C2 & E2). exists w2. split_and!; [done..| |done].
    by rewrite C2, <- C1.
Qed.

(** What a message adds to the stream. *)
Definition wire (m : Msg) : list Z := match payload m with Some p => frame p | None => [] end.

Lemma SendMsg_ok m more w stream : WInv w stream → fits m →
  ∃ w', SendMsg alloc_ok fresh header_write sandesh_write send_ok m more w = Ret w' ∧ WInv w' (stream ++ wire m) ∧
    counters w' = match payload m with Some _ => (num_send_msg w + 1, num_send_msg_fail w)
                                     | None => (num_send_msg w, num_send_msg_fail w + 1) end ∧
    (more = false → is_Some (payload m) → send_buf_offset_ w' = 0).
Proof using alloc_always header_encodes body_encodes.
  intros I Hf. pose proof (EncodeMsg_ok m Hf) as He. unfold SendMsg, wire. destruct (payload m) as [p|].
  2:{ rewrite He. cbn [mbind outcome_mbind]. eexists. split; [done|]. rewrite app_nil_r. split_and!; [|done|by intros _ []].
      destruct I. by constructor. }
  destruct He as (b & -> & Hp). cbn [mbind outcome_mbind].
  set (w1 := with_counts (num_send_msg w + 1) (num_send_msg_fail w) w).
  assert (I1 : WInv w1 stream) by (destruct I; by constructor).
  assert (Hpos : 0 < len (frame p)) by (rewrite frame_length; lia). destruct more.
  - destruct (SendMsgMore_ok b (frame p) w1 stream I1 Hp Hpos) as (w' & -> & ? & ?). exists w'. by split_and!.
  - destruct (SendMsgAll_ok b (frame p) w1 stream I1 Hp Hpos) as (w' & -> & ? & ? & ?). exists w'. by split_and!.
Qed.

(** A sequence of messages, each with whether more are waiting. *)
Fixpoint SendMsgs (ms : list (Msg * bool)) (w : SandeshWriter) : outcome SandeshWriter :=
  match ms with
  | [] => Ret w
  | (m, more) :: ms => w ← SendMsg alloc_ok fresh header_write sandesh_write send_ok m more w; SendMsgs ms w
  end.

Definition failed (ms : list (Msg * bool)) : list (Msg * bool) := filter (λ p, payload p.1 = None) ms.

Lemma SendMsgs_ok ms w stream : WInv w stream → Forall (λ p, fits p.1) ms →
  ∃ w', SendMsgs ms w = Ret w' ∧ WInv w' (stream ++ concat (wire ∘ fst <$> ms)) ∧
    num_send_msg_fail w' = num_send_msg_fail w + len (failed ms) ∧
    num_send_msg w' = num_send_msg w + len ms - len (failed ms) ∧
    (∀ m, last ms = Some (m, false) → is_Some (payload m) → send_buf_offset_ w' = 0).
Proof using alloc_always header_encodes body_encodes.
  revert w stream. induction ms as [|[m more] ms IH]; intros w stream I Hf.
  { exists w. cbn. rewrite app_nil_r. split_and!; [done|done|lia|lia|done]. }
  apply Forall_cons in Hf as [Hm Hf]. cbn [SendMsgs fmap list_fmap concat compose fst].
  destruct (SendMsg_ok m more w stream I Hm) as (w1 & -> & I1 & C1 & L1). cbn [mbind outcome_mbind].
  destruct (IH w1 _ I1 Hf) as (w2 & E2 & I2 & F2 & N2 & L2). exists w2. split; [done|]. rewrite <- app_assoc in I2. split; [done|].
  unfold failed in *. rewrite filter_cons. cbn [fst].
  assert (C : num_send_msg w1 = num_send_msg w + (if decide (payload m = None) then 0 else 1) ∧
    num_send_msg_fail w1 = num_send_msg_fail w + (if decide (payload m = None) then 1 else 0)).
  { destruct (payload m); (destruct (decide _); [|try done]); unfold counters in C1; simplify_eq; lia. }
  destruct C as [Cn Cf]. split_and!; [rewrite F2, Cf|rewrite N2, Cn|]; [destruct (decide _); cbn; lia..|].
  intros m' Hlast Hs. destruct ms as [|q ms]; [|by eapply L2]. cbn in Hlast. injection Hlast as -> ->.
  cbn in E2. injection E2 as <-. by apply L1.
Qed.

End WriterThms.

(** ** The reader *)

Definition frames (ps : list (list Z)) : list Z := concat (frame <$> ps).

Lemma frames_cons p ps : frames (p :: ps) = frame p ++ frames ps.
Proof. done. Qed.

(** The first 29 bytes of a frame. *)
Definition opening (p : list Z) : list Z := sandesh_open_attr_length_ ++ padded 10 (len p + 39) ++ [quote; 62].

Lemma opening_length p : len (opening p) = 29.
Proof.
  unfold opening. rewrite !length_app, !Nat2Z.inj_add, padded_length by done.
  change (len sandesh_open_attr_length_) with 17. change (len [quote; 62]) with 2. lia.
Qed.

Lemma frame_opening p : frame p = opening p ++ p ++ sandesh_close_.
Proof. unfold frame, opening. by rewrite <- !app_assoc. Qed.

(** A list that is longer than a prefix of its extension contains the prefix. *)
Lemma prefix_inside (l rest a b : list Z) : l ++ rest = a ++ b → (length a ≤ length l)%nat → ∃ c, l = a ++ c ∧ b = c ++ rest.
Proof.
  intros E Hl. exists (drop (length a) l).
  assert (Ha : a = take (length a) l).
  { transitivity (take (length a) (l ++ rest)); [rewrite E; by rewrite take_app_length|]. by rewrite take_app_le. }
  split; [rewrite Ha at 1; by rewrite take_drop|].
  apply (f_equal (drop (length a))) in E. rewrite drop_app_length, drop_app_le in E by done. done.
Qed.

Lemma substr_mid (a b c : list Z) st fin : st = len a → fin = len a + len b → substr st fin (a ++ b ++ c) = Ret b.
Proof.
  intros -> ->. unfold substr. rewrite !length_app, !(proj2 (Z.leb_le _ _)) by lia. cbn [andb]. f_equal.
  rewrite drop_app_length' by lia. apply take_app_length'. lia.
Qed.

Lemma ExtractMsgLength_ok r p c : offset_ r = 0 → buf_ r = opening p ++ c → len p + 39 < 10 ^ 10 → len (buf_ r) < 2 ^ 64 →
  ExtractMsgLength r = Ret (true, len p + 39, 0).
Proof.
  intros E0 Eb Hp H64. unfold ExtractMsgLength. rewrite E0, Z.sub_0_r, wrap_small by lia. pose proof (opening_length p) as Ho.
  assert (Hl : len (buf_ r) = 29 + len c) by (rewrite Eb, length_app; lia).
  change (len sandesh_open_) with 29. rewrite (proj2 (Z.ltb_ge _ _)) by lia. rewrite drop_0.
  assert (Hs : starts_with sandesh_open_attr_length_ (buf_ r) = true).
  { unfold starts_with. apply bool_decide_eq_true. rewrite Eb. unfold opening. rewrite <- app_assoc. by rewrite take_app_length. }
  rewrite Hs. cbn [negb]. change (len sandesh_open_attr_length_) with 17.
  assert (Hpad : len (padded 10 (len p + 39)) = 10) by (by apply padded_length).
  assert (E1 : buf_ r = (sandesh_open_attr_length_ ++ padded 10 (len p + 39) ++ [quote]) ++ [62] ++ c)
    by (rewrite Eb; unfold opening; by rewrite <- !app_assoc).
  assert (E2 : buf_ r = sandesh_open_attr_length_ ++ padded 10 (len p + 39) ++ ([quote; 62] ++ c))
    by (rewrite Eb; unfold opening; by rewrite <- !app_assoc).
  assert (H17 : len sandesh_open_attr_length_ = 17) by done.
  rewrite E1 at 1. rewrite substr_mid; [|rewrite !length_app, !Nat2Z.inj_add, Hpad; change (len [quote]) with 1; change (len [62]) with 1; lia..].
  cbn [mbind outcome_mbind]. rewrite bool_decide_eq_true_2 by done. cbn [negb].
  rewrite E2. rewrite substr_mid by lia. cbn [mbind outcome_mbind]. rewrite padded_value by lia.
  rewrite (proj2 (Z.eqb_neq _ _)) by lia. done.
Qed.

(** What the reader keeps between two reads: the start of the next message. *)
Record Pending (r : SandeshReader) (l : list Z) (ps : list (list Z)) : Prop := {
  pe_buf : buf_ r = l;
  pe_off : offset_ r = 0;
  pe_len : msg_length_ r = unknown ∨ ∃ p ps', ps = p :: ps' ∧ 29 ≤ len l ∧ msg_length_ r = len p + 39;
}.

Definition incomplete (l : list Z) (ps : list (list Z)) : Prop := l = [] ∨ ∃ p ps', ps = p :: ps' ∧ len l < len (frame p).

Definition kept (r r' : SandeshReader) : Prop :=
  delivered r' = delivered r ∧ num_recv_fail r' = num_recv_fail r ∧ closes r' = closes r.

Definition sized (ps : list (list Z)) : Prop := Forall (λ p, len p + 39 < 10 ^ 10) ps.

Lemma ExtractMsg_ok r l rest ps : Pending r l ps → l ++ rest = frames ps → sized ps → len l < 2 ^ 64 →
  ∃ done r', ExtractMsg None r = Ret (done, 0, r') ∧ Pending r' l ps ∧ kept r r' ∧
    if done : bool then ∃ p ps', ps = p :: ps' ∧ msg_length_ r' = len p + 39 ∧ len p + 39 ≤ len l else incomplete l ps.
Proof.
  intros [Eb E0 Hlen] Es Hps H64. unfold ExtractMsg.
  destruct ps as [|p ps].
  { assert (l = []) as -> by (destruct l; [done|]; done). destruct Hlen as [Hu|(? & ? & [=] & _)].
    unfold MsgLengthKnown. rewrite Hu, Z.eqb_refl. cbn [negb]. unfold ExtractMsgLength. rewrite Eb, E0.
    exists false, r. split; [done|]. split; [by constructor; [..|left]|]. split; [done|by left]. }
  apply Forall_cons in Hps as [Hp _].
  assert (Hgo : 29 ≤ len l → ∀ r', buf_ r' = l → offset_ r' = 0 → msg_length_ r' = len p + 39 → kept r r' →
    ∃ done r'', (Ret (msg_length_ r' <=? len (buf_ r'), 0, r') : outcome (bool * Z * SandeshReader)) = Ret (done, 0, r'') ∧ Pending r'' l (p :: ps) ∧ kept r r'' ∧
    if done : bool then ∃ q ps', p :: ps = q :: ps' ∧ msg_length_ r'' = len q + 39 ∧ len q + 39 ≤ len l else incomplete l (p :: ps)).
  { intros H29 r' Eb' E0' Em Hk. eexists _, r'. split; [done|]. split; [constructor; [done|done|right; eauto]|]. split; [done|].
    rewrite Eb', Em. destruct (Z.leb_spec (len p + 39) (len l)); [by eexists _, _|right]. eexists _, _. split; [done|].
    rewrite frame_length. lia. }
  destruct Hlen as [Hu|(q & ps' & [= <- <-] & H29 & Em)].
  - unfold MsgLengthKnown. rewrite Hu, Z.eqb_refl. cbn [negb]. destruct (Z.le_gt_cases 29 (len l)) as [H29|H29].
    + destruct (prefix_inside l rest (opening p) ((p ++ sandesh_close_) ++ frames ps)) as (c & El & _).
      { rewrite Es, frames_cons, frame_opening. by rewrite <- !app_assoc. }
      { pose proof (opening_length p). lia. }
      rewrite (ExtractMsgLength_ok r p c) by (try done; congruence). cbn [mbind outcome_mbind negb]. by apply Hgo.
    + unfold ExtractMsgLength. rewrite Eb, E0, Z.sub_0_r, wrap_small by lia. change (len sandesh_open_) with 29.
      rewrite (proj2 (Z.ltb_lt _ _)) by lia. cbn [mbind outcome_mbind negb]. exists false, r. split; [done|].
      split; [by constructor; [..|left]|]. split; [done|]. right. eexists _, _. split; [done|]. rewrite frame_length. lia.
  - unfold MsgLengthKnown. rewrite Em, (proj2 (Z.eqb_neq _ _)) by (unfold unknown; lia). cbn [negb mbind outcome_mbind].
    by apply Hgo.
Qed.

Section ReaderThms.
Context (cb : list (list Z) → list Z → bool).
Hypothesis accepts : ∀ h x, cb h x = true.

(** The messages [ps1] were delivered, the start of the next ones is kept. *)
Definition consumed (r r' : SandeshReader) (ps : list (list Z)) (rest : list Z) : Prop :=
  ∃ ps1 ps2 l, ps = ps1 ++ ps2 ∧ delivered r' = delivered r ++ ps1 ∧ num_recv_fail r' = num_recv_fail r ∧
    closes r' = closes r ∧ Pending r' l ps2 ∧ incomplete l ps2 ∧ l ++ rest = frames ps2.

Lemma OnRead_loop_ok fuel done r l rest ps : Pending r l ps → l ++ rest = frames ps → sized ps → len l < 2 ^ 64 →
  (length l < fuel)%nat →
  (if done : bool then ∃ p ps', ps = p :: ps' ∧ msg_length_ r = len p + 39 ∧ len p + 39 ≤ len l else incomplete l ps) →
  ∃ r', OnRead_loop cb fuel done 0 r = Ret r' ∧ consumed r r' ps rest.
Proof using accepts.
  revert done r l ps. induction fuel as [|fuel IH]; intros done r l ps P Es Hps H64 Hf Hd; [lia|].
  cbn [OnRead_loop]. change (0 <? 0) with false. cbv iota. destruct done; cbn [negb].
  2:{ exists r. split; [done|]. exists [], ps, l. rewrite app_nil_r. by split_and!. }
  destruct Hd as (p & ps' & -> & Em & Hl). pose proof P as [Eb E0 _]. apply Forall_cons in Hps as [Hp Hps'].
  pose proof (frame_length p) as Hfl.
  destruct (prefix_inside l rest (frame p) (frames ps')) as (c & El & Ec); [by rewrite Es, frames_cons|lia|].
  assert (Hx : substr (offset_ r + len sandesh_open_) (offset_ r + msg_length_ r - len sandesh_close_) (buf_ r) = Ret p).
  { rewrite Eb, E0, Em, El, frame_opening, <- !app_assoc. change (len sandesh_open_) with 29. change (len sandesh_close_) with 10.
    apply substr_mid; rewrite opening_length; lia. }
  rewrite Hx. cbn [mbind outcome_mbind]. rewrite Eb, E0, Em.
  rewrite accepts. cbn [negb]. set (r1 := mkReader _ _ _ _ _ _).
  assert (Hc : len l = len p + 39 + len c) by (rewrite El, length_app; lia).
  assert (HLO : LeftOver r1 = negb (len c =? 0)).
  { unfold LeftOver. cbn [buf_ offset_ r1]. destruct l as [|z l]; [cbn in Hl; lia|]. f_equal.
    destruct (Z.eqb_spec (len c) 0), (Z.eqb_spec (len (z :: l)) (0 + (len p + 39))); try done; lia. }
  rewrite HLO. destruct c as [|z c].
  - cbn [length negb]. change (Z.of_nat 0 =? 0) with true. cbn [negb]. eexists. split; [done|].
    exists [p], ps', []. split_and!; try done; [by constructor; [..|left]|by left].
  - rewrite (proj2 (Z.eqb_neq _ _)) by (cbn; lia). cbn [negb offset_ buf_ r1].
    assert (Hy : substr (0 + (len p + 39)) (len l) l = Ret (z :: c)).
    { rewrite Hc, El, <- (app_nil_r (frame p ++ z :: c)), <- app_assoc. apply substr_mid; lia. }
    rewrite Hy. cbn [mbind outcome_mbind].
    destruct (ExtractMsg_ok (ReplaceBuf (z :: c) r1) (z :: c) rest ps') as (dn & r2 & -> & P2 & K2 & H2);
      [by constructor; [..|left]|done|done|lia|]. cbn [mbind outcome_mbind].
    destruct (IH dn r2 (z :: c) ps' P2) as (r3 & -> & ps1 & ps2 & l2 & -> & D3 & F3 & C3 & P3 & I3 & E3); [done|done|lia| |done|].
    { rewrite El, length_app in Hf. assert (length (frame p) ≠ 0)%nat by lia. lia. }
    exists r3. split; [done|]. destruct K2 as (K1 & K2 & K3). cbn in K1, K2, K3. exists (p :: ps1), ps2, l2.
    split_and!; try done; try congruence. rewrite D3, K1, <- app_assoc. done.
Qed.

Lemma SetBuf_ok r l ps str : Pending r l ps → buf_ (SetBuf str r) = l ++ str ∧ offset_ (SetBuf str r) = 0.
Proof. intros [Eb E0 _]. unfold SetBuf. rewrite Eb. by destruct l. Qed.

Lemma OnRead_ok buffer r l rest ps : Pending r l ps → l ++ buffer ++ rest = frames ps → sized ps → len l + len buffer < 2 ^ 64 →
  ∃ r', OnRead cb true buffer r = Ret r' ∧ consumed r r' ps rest.
Proof using accepts.
  intros P Es Hps H64. unfold OnRead. cbn [negb].
  destruct (SetBuf_ok r l ps buffer P) as [Eb E0].
  assert (Hm : msg_length_ (SetBuf buffer r) = msg_length_ r ∧ kept r (SetBuf buffer r)).
  { unfold SetBuf, kept. by destruct (buf_ r). }
  destruct Hm as [Em (K1 & K2 & K3)].
  assert (P1 : Pending (SetBuf buffer r) (l ++ buffer) ps).
  { constructor; [done..|]. rewrite Em. destruct (pe_len _ _ _ P) as [?|(p & ps' & ? & ? & ?)]; [by left|right].
    exists p, ps'. split_and!; [done| |done]. rewrite length_app. lia. }
  change (ExtractMsg (Some buffer) r) with (ExtractMsg None (SetBuf buffer r)).
  destruct (ExtractMsg_ok (SetBuf buffer r) (l ++ buffer) rest ps) as (dn & r2 & -> & P2 & (K4 & K5 & K6) & H2);
    [done|by rewrite <- app_assoc|done|rewrite length_app; lia|].
  cbn [mbind outcome_mbind]. rewrite (pe_buf _ _ _ P2).
  destruct (OnRead_loop_ok (S (length (l ++ buffer))) dn r2 (l ++ buffer) rest ps P2) as (r3 & -> & ps1 & ps2 & l2 & Hr);
    [by rewrite <- app_assoc|done|rewrite length_app; lia|lia|done|].
  exists r3. split; [done|]. exists ps1, ps2, l2. destruct Hr as (? & D & F & C & ? & ? & ?). split_and!; try done; congruence.
Qed.

Lemma frames_nonempty p ps : frames (p :: ps) ≠ [].
Proof. intros E%(f_equal length). rewrite frames_cons, length_app in E. pose proof (frame_length p). cbn in E. lia. Qed.

(** Any cut of the stream into buffers *)
Lemma OnReads_ok buffers r l rest ps : Pending r l ps → incomplete l ps → l ++ concat buffers ++ rest = frames ps → sized ps →
  len (frames ps) < 2 ^ 64 → ∃ r', OnReads cb buffers r = Ret r' ∧ consumed r r' ps rest.
Proof using accepts.
  revert r l ps. induction buffers as [|b bs IH]; intros r l ps P Hi Es Hps H64.
  { exists r. split; [done|]. exists [], ps, l. rewrite app_nil_r. by split_and!. }
  cbn [OnReads concat] in *. rewrite <- app_assoc in Es.
  destruct (OnRead_ok b r l (concat bs ++ rest) ps P) as (r1 & -> & ps1 & ps2 & l1 & -> & D1 & F1 & C1 & P1 & I1 & E1);
    [done|done|rewrite <- Es, !length_app in H64; lia|]. cbn [mbind outcome_mbind].
  apply Forall_app in Hps as [_ Hps2].
  destruct (IH r1 l1 ps2 P1 I1 E1 Hps2) as (r2 & -> & ps3 & ps4 & l2 & -> & D2 & F2 & C2 & H2).
  { unfold frames in *. rewrite fmap_app, concat_app, length_app in H64. lia. }
  exists r2. split; [done|]. exists (ps1 ++ ps3), ps4, l2. rewrite D2, D1, F2, F1, C2, C1, !app_assoc. destruct H2 as (? & ? & ?). by split_and!.
Qed.
End ReaderThms.

(** ** From the writer to the reader *)

Section Session.
Context (alloc_ok : Z → bool) (fresh : nat → Z) {Msg : Type}.
Context (header_write sandesh_write : Msg → TB.TMemoryBuffer → outcome (Z * TB.TMemoryBuffer)).
Context (send_ok : list (list Z) → list Z → bool) (cb : list (list Z) → list Z → bool).
Context (header_bytes body_bytes : Msg → option (list Z)).

Definition payloads (ms : list (Msg * bool)) : list (list Z) := omap (payload header_bytes body_bytes ∘ fst) ms.

Lemma wire_frames ms : concat (wire header_bytes body_bytes ∘ fst <$> ms) = frames (payloads ms).
Proof.
  induction ms as [|[m more] ms IH]; [done|]. cbn [fmap list_fmap concat]. rewrite IH. unfold payloads, wire. cbn.
  by destruct (payload header_bytes body_bytes m).
Qed.

Lemma payloads_sized ms : Forall (λ p, fits header_bytes body_bytes p.1) ms → sized (payloads ms).
Proof.
  induction 1 as [|[m more] ms Hm _ IH]; [constructor|]. unfold payloads. cbn.
  destruct (payload header_bytes body_bytes m) as [p|] eqn:Ep; [|done]. constructor; [|done].
  unfold payload in Ep. unfold fits in Hm. cbn in Hm. destruct (header_bytes m), (body_bytes m); cbn in *; simplify_eq.
  rewrite length_app. lia.
Qed.

(** The writer neither loses nor reorders.  Whatever messages are sent, with or
    without more waiting, [SendMsg] returns (its assertions hold and the copies stay
    within their memory), what was passed to [Send] followed by what waits in
    [send_buf_] is the sequence of the framed messages, less than [kDefaultSendSize]
    bytes wait, and every message is counted as sent or failed; nothing waits after a
    message that was the last. *)
Theorem writer_stream ms : (∀ n, alloc_ok n = true) → encodes header_write header_bytes → encodes sandesh_write body_bytes →
  Forall (λ p, fits header_bytes body_bytes p.1) ms →
  ∃ w, SendMsgs alloc_ok fresh header_write sandesh_write send_ok ms (new_SandeshWriter fresh) = Ret w ∧
    concat (sent w) ++ take (Z.to_nat (send_buf_offset_ w)) (send_buf_ w) = frames (payloads ms) ∧
    0 ≤ send_buf_offset_ w < kDefaultSendSize ∧
    num_send_msg w = len (payloads ms) ∧ num_send_msg w + num_send_msg_fail w = len ms ∧
    (∀ m, last ms = Some (m, false) → is_Some (payload header_bytes body_bytes m) → send_buf_offset_ w = 0).
Proof.
  intros Ha Hh Hb Hf.
  destruct (SendMsgs_ok alloc_ok fresh header_write sandesh_write send_ok Ha header_bytes body_bytes Hh Hb ms
    (new_SandeshWriter fresh) [] (new_WInv fresh) Hf) as (w & -> & [H1 H2 H3] & F & N & L).
  exists w. rewrite wire_frames in H3. split_and!; try done; try lia; rewrite ?F, ?N; cbn [num_send_msg num_send_msg_fail new_SandeshWriter]; [|lia].
  clear. unfold failed, payloads. induction ms as [|[m more] ms IH]; [done|]. rewrite filter_cons. cbn.
  destruct (payload header_bytes body_bytes m) eqn:Ep; (destruct (decide _); [|try done]); cbn in *; simplify_eq; lia.
Qed.

(** C26: a session delivers what it is given.  Messages are sent, some of which may fail
    to encode; the bytes passed to [Send] reach the other side cut into arbitrary
    buffers.  Then the reader has called the callback with the first encoded messages, in
    order, and has neither failed nor asked for a close; what it holds back, followed by
    what waits in [send_buf_], less than [kDefaultSendSize] bytes, is exactly the framing of
    the messages that are left.  None is left when the last message encodes and goes out
    with nothing waiting behind it; when the last message does not encode, those before it
    may be left.  The callback accepts the messages, and memory is there. *)
Theorem framing_roundtrip ms buffers : (∀ n, alloc_ok n = true) → (∀ h x, cb h x = true) →
  encodes header_write header_bytes → encodes sandesh_write body_bytes →
  Forall (λ p, fits header_bytes body_bytes p.1) ms → len (frames (payloads ms)) < 2 ^ 64 →
  ∃ w, SendMsgs alloc_ok fresh header_write sandesh_write send_ok ms (new_SandeshWriter fresh) = Ret w ∧
    0 ≤ send_buf_offset_ w < kDefaultSendSize ∧
    (concat buffers = concat (sent w) →
     ∃ r left, OnReads cb buffers new_SandeshReader = Ret r ∧ payloads ms = delivered r ++ left ∧
       buf_ r ++ take (Z.to_nat (send_buf_offset_ w)) (send_buf_ w) = frames left ∧ num_recv_fail r = 0 ∧ closes r = 0 ∧
       (∀ m, last ms = Some (m, false) → is_Some (payload header_bytes body_bytes m) → left = [] ∧ buf_ r = [])).
Proof.
  intros Ha Hcb Hh Hb Hf H64.
  destruct (SendMsgs_ok alloc_ok fresh header_write sandesh_write send_ok Ha header_bytes body_bytes Hh Hb ms
    (new_SandeshWriter fresh) [] (new_WInv fresh) Hf) as (w & -> & [H1 H2 H3] & F & N & L).
  exists w. split; [done|]. split; [lia|]. intros Hc. rewrite wire_frames in H3. cbn [app] in H3.
  destruct (OnReads_ok cb Hcb buffers new_SandeshReader [] (take (Z.to_nat (send_buf_offset_ w)) (send_buf_ w)) (payloads ms))
    as (r & -> & ps1 & ps2 & l & E & D & Fr & C & P & I & El);
    [by constructor; [..|left]|by left|by rewrite Hc, H3|by apply payloads_sized|done|].
  destruct P as [Eb _ _]. exists r, ps2. rewrite E, Eb. split_and!; try done; [by rewrite D|].
  intros m Hlast Hm. rewrite (L m Hlast Hm), take_0, app_nil_r in El.
  assert (ps2 = []) as ->; [|by rewrite El].
  destruct I as [->|(p & ps' & -> & Hl)]; [destruct ps2; [done|by apply symmetry, frames_nonempty in El]|].
  rewrite El, frames_cons, length_app in Hl. lia.
Qed.
End Session.

(** ** Arbitrary bytes *)

(** The bytes start with an opening that declares this length. *)
Definition declares (l : list Z) (n : Z) : Prop := ExtractMsgLength (mkReader l 0 unknown [] 0 0) = Ret (true, n, 0).

(** No opening in the stream declares less than its envelope. *)
Definition plausible (stream : list Z) : Prop :=
  ∀ l1 l2 l3 n, stream = l1 ++ l2 ++ l3 → declares l2 n → 39 ≤ n.

Lemma plausible_inside l1 l2 l3 : plausible (l1 ++ l2 ++ l3) → plausible l2.
Proof.
  intros H a b c n ->. intros Hd. apply (H (l1 ++ a) b (c ++ l3) n); [|done]. by rewrite <- !app_assoc.
Qed.

Record ReaderOk (r : SandeshReader) : Prop := {
  ro_off : offset_ r = 0;
  ro_len : msg_length_ r = unknown ∨ 39 ≤ msg_length_ r;
}.

Lemma substr_total st fin l : 0 ≤ st ≤ fin → fin ≤ len l → ∃ x, substr st fin l = Ret x ∧ len x = fin - st.
Proof.
  intros H1 H2. unfold substr. rewrite !(proj2 (Z.leb_le _ _)) by lia. eexists. split; [done|]. rewrite length_take, length_drop. lia.
Qed.

Lemma ExtractMsgLength_total r : offset_ r = 0 → len (buf_ r) < 2 ^ 64 →
  ∃ d n e, ExtractMsgLength r = Ret (d, n, e) ∧ (d = true → e = 0 ∧ declares (buf_ r) n).
Proof.
  intros E0 H64.
  assert (He : ExtractMsgLength (mkReader (buf_ r) 0 unknown [] 0 0) = ExtractMsgLength r)
    by (unfold ExtractMsgLength; cbn [buf_ offset_]; by rewrite E0).
  assert (Ht : ∃ d n e, ExtractMsgLength r = Ret (d, n, e) ∧ (d = true → e = 0)).
  { unfold ExtractMsgLength. rewrite E0, Z.sub_0_r, wrap_small by lia. change (len sandesh_open_) with 29.
    change (len sandesh_open_attr_length_) with 17.
    destruct (Z.ltb_spec (len (buf_ r)) 29); [by eexists _, _, _|]. destruct (starts_with _ _); [|by eexists _, _, _]. cbn [negb].
    destruct (substr_total (0 + 29 - 1) (0 + 29 - 1 + 1) (buf_ r)) as (x & -> & _); [lia..|]. cbn [mbind outcome_mbind].
    destruct (bool_decide _); [|by eexists _, _, _]. cbn [negb].
    destruct (substr_total (0 + 17) (0 + 29 - 1 - 1) (buf_ r)) as (y & -> & _); [lia..|]. cbn [mbind outcome_mbind].
    destruct (_ =? 0); by eexists _, _, _. }
  destruct Ht as (d & n & e & Ex & Hd). exists d, n, e. split; [done|]. intros ->. specialize (Hd eq_refl). subst e.
  split; [done|]. unfold declares. by rewrite He.
Qed.

Lemma ExtractMsg_total r : ReaderOk r → plausible (buf_ r) → len (buf_ r) < 2 ^ 64 →
  ∃ dn e r', ExtractMsg None r = Ret (dn, e, r') ∧ ReaderOk r' ∧ buf_ r' = buf_ r ∧
    (dn = true → 39 ≤ msg_length_ r' ≤ len (buf_ r)).
Proof.
  intros [E0 Hm] Hp H64. unfold ExtractMsg, MsgLengthKnown. destruct (Z.eqb_spec (msg_length_ r) unknown) as [Eu|Hn]; cbn [negb].
  - destruct (ExtractMsgLength_total r E0 H64) as (d & n & e & -> & Hd). cbn [mbind outcome_mbind]. destruct d; cbn [negb].
    + destruct Hd as [-> Hd]; [done|]. assert (39 ≤ n) by (apply (Hp [] (buf_ r) [] n); [by rewrite app_nil_r|done]).
      eexists _, _, _. split; [done|]. split; [constructor; [done|by right]|]. split; [done|]. cbn. intros ?%Z.leb_le. done.
    + eexists _, _, _. split; [done|]. split; [constructor; [done|by left]|]. done.
  - cbn [mbind outcome_mbind negb]. destruct Hm as [?|Hm]; [done|]. eexists _, _, _. split; [done|].
    split; [constructor; [done|by right]|]. split; [done|]. intros ?%Z.leb_le. done.
Qed.

Section Safety.
Context (cb : list (list Z) → list Z → bool).
Hypothesis accepts : ∀ h x, cb h x = true.

Lemma OnRead_loop_total fuel dn e r : ReaderOk r → plausible (buf_ r) → len (buf_ r) < 2 ^ 64 → (length (buf_ r) < fuel)%nat →
  (dn = true → 39 ≤ msg_length_ r ≤ len (buf_ r)) →
  ∃ r' l, OnRead_loop cb fuel dn e r = Ret r' ∧ ReaderOk r' ∧ buf_ r = l ++ buf_ r'.
Proof using accepts.
  revert dn e r. induction fuel as [|fuel IH]; intros dn e r [E0 Hm] Hp H64 Hf Hd; [lia|]. cbn [OnRead_loop].
  destruct (e <? 0); [exists (close (set_buf [] 0 r)), (buf_ r); cbn; rewrite app_nil_r; split_and!; [done|by constructor|done]|].
  destruct dn; cbn [negb]; [|by exists r, []].
  destruct (Hd eq_refl) as [H39 Hle]. rewrite E0. change (len sandesh_open_) with 29. change (len sandesh_close_) with 10.
  destruct (substr_total (0 + 29) (0 + msg_length_ r - 10) (buf_ r)) as (x & -> & _); [lia..|]. cbn [mbind outcome_mbind].
  rewrite accepts. cbn [negb]. set (r1 := mkReader _ _ _ _ _ _). destruct (LeftOver r1) eqn:EL.
  2:{ exists (set_buf [] 0 r1), (buf_ r). cbn. rewrite app_nil_r. split_and!; [done|by constructor; [|left]|done]. }
  cbn [offset_ buf_ r1].
  assert (Hs : substr (0 + msg_length_ r) (len (buf_ r)) (buf_ r) = Ret (drop (Z.to_nat (msg_length_ r)) (buf_ r))).
  { unfold substr. rewrite !(proj2 (Z.leb_le _ _)) by lia. cbn [andb]. f_equal. rewrite Z.add_0_l. apply take_ge. rewrite length_drop. lia. }
  rewrite Hs. cbn [mbind outcome_mbind]. set (str := drop _ _).
  assert (Hb : buf_ r = take (Z.to_nat (msg_length_ r)) (buf_ r) ++ str) by (unfold str; by rewrite take_drop).
  assert (Hl : len str = len (buf_ r) - msg_length_ r) by (unfold str; rewrite length_drop; lia).
  assert (Hp1 : plausible str).
  { apply (plausible_inside (take (Z.to_nat (msg_length_ r)) (buf_ r)) str []). rewrite app_nil_r, <- Hb. done. }
  destruct (ExtractMsg_total (ReplaceBuf str r1)) as (d2 & e2 & r2 & -> & R2 & B2 & D2); [by constructor; [|left]|done|cbn [buf_ ReplaceBuf set_buf]; lia|].
  cbn [mbind outcome_mbind]. cbn [buf_ ReplaceBuf set_buf] in B2, D2.
  destruct (IH d2 e2 r2 R2) as (r3 & l & -> & R3 & B3); rewrite ?B2; [done|lia|lia|done|].
  exists r3, (take (Z.to_nat (msg_length_ r)) (buf_ r) ++ l). split_and!; [done..|]. rewrite Hb at 1. by rewrite <- app_assoc, <- B3, B2.
Qed.

(** The reader is safe on arbitrary bytes.  Whatever stream the peer sends, in
    whatever pieces, every [OnRead] returns, unless the stream holds an opening that
    declares a length smaller than the envelope itself: no access outside the buffer,
    no endless loop. *)
Theorem reader_safe buffers : plausible (concat buffers) → len (concat buffers) < 2 ^ 64 →
  ∃ r, OnReads cb buffers new_SandeshReader = Ret r.
Proof using accepts.
  assert (Hgo : ∀ bs r l, ReaderOk r → plausible (l ++ buf_ r ++ concat bs) → len (buf_ r ++ concat bs) < 2 ^ 64 →
    ∃ r', OnReads cb bs r = Ret r').
  { induction bs as [|b bs IH]; intros r l R Hp H64; [by exists r|]. cbn [OnReads concat] in *.
    set (r1 := SetBuf b r). assert (E1 : buf_ r1 = buf_ r ++ b) by (unfold r1, SetBuf; by destruct (buf_ r)).
    assert (R1 : ReaderOk r1) by (destruct R as [? ?]; unfold r1, SetBuf; by destruct (buf_ r)).
    assert (Hp1 : plausible (buf_ r1)) by (apply (plausible_inside l _ (concat bs)); by rewrite E1, <- app_assoc).
    assert (H1 : len (buf_ r1) < 2 ^ 64) by (rewrite E1; rewrite !length_app in *; lia).
    unfold OnRead. cbn [negb]. change (ExtractMsg (Some b) r) with (ExtractMsg None r1).
    destruct (ExtractMsg_total r1 R1 Hp1 H1) as (dn & e & r2 & -> & R2 & B2 & D2). cbn [mbind outcome_mbind].
    destruct (OnRead_loop_total (S (length (buf_ r2))) dn e r2 R2) as (r3 & l3 & -> & R3 & B3); rewrite ?B2; [done|done|lia|done|].
    cbn [mbind outcome_mbind]. apply (IH r3 (l ++ l3) R3).
    - rewrite <- app_assoc, (app_assoc l3), <- B3, B2, E1, <- app_assoc. done.
    - assert (len (buf_ r3) ≤ len (buf_ r1)) by (rewrite <- B2, B3, length_app; lia). rewrite !length_app in *. rewrite E1, length_app in *. lia. }
  intros Hp H64. apply (Hgo buffers new_SandeshReader []); [by constructor; [|left]|done|done].
Qed.
End Safety.

(** ** A session *)

Module Demo.
(** A message is its encoding; the empty one cannot be encoded. *)
Definition yes (n : Z) : bool := true.
Definition zero (n : nat) : Z := 0.
Definition all_ok (h : list (list Z)) (x : list Z) : bool := true.
Definition bytes (m : list Z) : option (list Z) := match m with [] => None | _ => Some m end.
Definition write (m : list Z) (b : TB.TMemoryBuffer) : outcome (Z * TB.TMemoryBuffer) :=
  match m with [] => Ret (-1, b) | _ => b ← put yes zero m b; Ret (len m, b) end.

Lemma write_encodes : encodes write bytes.
Proof.
  intros m b I Ho. unfold write, bytes. destruct m as [|c m]; [by eexists _, _|]. intros H31.
  destruct (put_ok yes zero (λ _, eq_refl) (c :: m) b I Ho H31) as (b' & -> & A). by exists b'.
Qed.

Definition msgs : list (list Z * bool) := [([104; 105], true); ([], true); ([60], false)].
Lemma msgs_fit : Forall (λ p, fits bytes bytes p.1) msgs.
Proof. unfold msgs. do 3 (apply List.Forall_cons; [vm_compute; discriminate|]). apply List.Forall_nil. Qed.

Definition stream : list Z := frames [[104; 105; 104; 105]; [60; 60]].
End Demo.

Lemma writer_stream_witness : ∃ w,
  SendMsgs Demo.yes Demo.zero Demo.write Demo.write Demo.all_ok Demo.msgs (new_SandeshWriter Demo.zero) = Ret w ∧
  num_send_msg w + num_send_msg_fail w = 3.
Proof.
  destruct (writer_stream Demo.yes Demo.zero Demo.write Demo.write Demo.all_ok Demo.bytes Demo.bytes Demo.msgs)
    as (w & Hw & _ & _ & _ & Hn & _); [done|exact Demo.write_encodes|exact Demo.write_encodes|exact Demo.msgs_fit|].
  exists w. split; [exact Hw|exact Hn].
Defined.

(** Every byte in a buffer of its own. *)
Lemma framing_roundtrip_witness : ∃ r,
  OnReads Demo.all_ok ((λ c, [c]) <$> Demo.stream) new_SandeshReader = Ret r ∧
  delivered r = [[104; 105; 104; 105]; [60; 60]] ∧ closes r = 0.
Proof.
  destruct (framing_roundtrip Demo.yes Demo.zero Demo.write Demo.write Demo.all_ok Demo.all_ok Demo.bytes Demo.bytes Demo.msgs
    ((λ c, [c]) <$> Demo.stream)) as (w & Hw & _ & Hr);
    [done|done|exact Demo.write_encodes|exact Demo.write_encodes|exact Demo.msgs_fit|vm_compute; reflexivity|].
  destruct Hr as (r & left & Er & Ed & _ & _ & Ec & Hl).
  { assert (Hs : (w ← SendMsgs Demo.yes Demo.zero Demo.write Demo.write Demo.all_ok Demo.msgs (new_SandeshWriter Demo.zero);
      Ret (concat (sent w))) = Ret Demo.stream) by (vm_compute; reflexivity).
    rewrite Hw in Hs. injection Hs as ->. vm_compute. reflexivity. }
  exists r. split; [exact Er|]. split; [|exact Ec].
  destruct (Hl [60] eq_refl (ex_intro _ _ eq_refl)) as [-> _]. rewrite app_nil_r in Ed. symmetry. exact Ed.
Defined.

Lemma no_opening l1 l2 l3 n : replicate 40 65 = l1 ++ l2 ++ l3 → ¬ declares l2 n.
Proof.
  intros E Hd. assert (H65 : Forall (λ c, c = 65) l2).
  { assert (Hall : Forall (λ c, c = 65) (replicate 40 65)) by (by apply Forall_replicate). rewrite E in Hall.
    apply Forall_app in Hall as [_ Hall]. by apply Forall_app in Hall as [Hall _]. }
  unfold declares, ExtractMsgLength in Hd. cbn [buf_ offset_] in Hd. destruct (_ <? _); [done|].
  destruct (starts_with _ _) eqn:Es; [|done]. apply bool_decide_eq_true in Es. change (drop (Z.to_nat 0) l2) with l2 in Es.
  destruct H65 as [|c l2 -> _]; [done|]. cbn in Es. done.
Qed.

Lemma reader_safe_witness : ∃ r, OnReads Demo.all_ok [replicate 20 65; replicate 20 65] new_SandeshReader = Ret r.
Proof.
  apply (reader_safe Demo.all_ok (λ _ _, eq_refl)); [|vm_compute; reflexivity].
  intros l1 l2 l3 n E Hd. exfalso. by apply (no_opening l1 l2 l3 n).
Defined.

(** ** Where the code falls short *)

(** An opening that declares ten bytes, the length of the closing alone: the string
    that is extracted would end before it starts. *)
Lemma short_length_aborts :
  OnReads Demo.all_ok [sandesh_open_attr_length_ ++ padded 10 10 ++ [quote; 62]] new_SandeshReader = Abort.
Proof. vm_compute. reflexivity. Qed.

(** A message that the callback rejects stays in [buf_] until the session is closed.
    When more data comes first, its length is compared with the size of [buf_], which
    still holds the rejected message, and the extraction leaves the buffer. *)
Definition reject (h : list (list Z)) (x : list Z) : bool := false.

Lemma rejected_message_overruns :
  ∃ r, OnReads reject [frame [1]] new_SandeshReader = Ret r ∧ closes r = 1 ∧ offset_ r = 40 ∧
    OnReads reject [take 29 (frame (replicate 20 65))] r = Abort.
Proof. eexists. split; [vm_compute; reflexivity|]. split_and!; vm_compute; reflexivity. Qed.

(** The last message of a burst cannot be encoded: those before it stay in
    [send_buf_], although nothing more is waiting. *)
Lemma failed_last_message_holds_back : ∃ w,
  SendMsgs Demo.yes Demo.zero Demo.write Demo.write Demo.all_ok [([104; 105], true); ([], false)] (new_SandeshWriter Demo.zero) = Ret w ∧
  sent w = [] ∧ send_buf_offset_ w = 43.
Proof. eexists. split; [vm_compute; reflexivity|]. split; vm_compute; reflexivity. Qed.

(** A negative length is read as a number close to 2^64, for which the reader then
    waits, collecting everything it gets. *)
Lemma negative_length_waits : ∃ r,
  OnReads Demo.all_ok [sandesh_open_attr_length_ ++ [45; 48; 48; 48; 48; 48; 48; 48; 48; 53] ++ [quote; 62]; replicate 100 65]
    new_SandeshReader = Ret r ∧ msg_length_ r = 2 ^ 64 - 5 ∧ len (buf_ r) = 129 ∧ closes r = 0.
Proof. eexists. split; [vm_compute; reflexivity|]. split_and!; vm_compute; reflexivity. Qed.

End SS.
