(* ===== verification/TcpReader.v ===== *)
(** * Reassembly of messages: [TcpMessageReader] of src/io/tcp_session.{h,cc}

    [TcpMessageReader] cuts the stream of a session into messages whose length is in a
    header of fixed size.  A buffer that ends within a message is kept in [queue_]; the
    first of them has been used up to [offset_].  A buffer is an identity, its address,
    with its contents; the session keeps the buffers it allocated until they are
    released ([held], the [buffer_queue_] of [TcpSession]).

    [MsgLength], [GetHeaderLenSize], [GetMaxMessageSize] are virtual functions of the
    users and the callback is theirs: parameters.  [MsgLength] is applied to what follows
    the offset in the buffer.  A copy outside its memory is [Abort], as is a failed
    assertion and the release of a buffer that is not held. *)

From stdpp Require Import list.
From S2P Require Import Prelude Transport.
Open Scope Z_scope.

Module TR.

Abbreviation len l := (Z.of_nat (length l)).

Record Buffer := mkBuffer { address : nat; data : list Z }.
Definition BufferSize (b : Buffer) : Z := len (data b).

Record TcpMessageReader := mkReader {
  queue_ : list Buffer;
  offset_ : Z;
  remain_ : Z;
  held : list nat;                 (* the buffers of the session *)
  delivered : list (list Z);       (* what the callback was called with *)
}.

Definition new_TcpMessageReader : TcpMessageReader := mkReader [] 0 (-1) [] [].

Definition set_queue (q : list Buffer) (offset remain : Z) (r : TcpMessageReader) : TcpMessageReader :=
  mkReader q offset remain (held r) (delivered r).

(** [TcpSession::AllocateBuffer] *)
Definition AllocateBuffer (b : Buffer) (r : TcpMessageReader) : TcpMessageReader :=
  mkReader (queue_ r) (offset_ r) (remain_ r) (held r ++ [address b]) (delivered r).

(** [TcpSession::ReleaseBufferLocked]: the loop, and the whole *)
Fixpoint release (a : nat) (l : list nat) : option (list nat) :=
  match l with
  | [] => None
  | b :: l => if bool_decide (b = a) then Some l else l ← release a l; Some (b :: l)
  end.

Definition ReleaseBuffer (b : Buffer) (r : TcpMessageReader) : outcome TcpMessageReader :=
  match release (address b) (held r) with
  | None => Abort
  | Some held => Ret (mkReader (queue_ r) (offset_ r) (remain_ r) held (delivered r))
  end.

Section Reader.
Context (MsgLength : list Z → Z) (kHeaderLenSize kMaxMessageSize : Z).
Context (fresh : nat → Z) (callback : list (list Z) → list Z → bool).

Definition new_array (n : Z) : list Z := TB.new_memory fresh 0 n.

(** The loop of [AllocBufferSize]: an [int] doubles at most 31 times *)
Fixpoint AllocBufferSize_loop (fuel : nat) (bufsize length : Z) : Z :=
  match fuel with
  | O => bufsize
  | S fuel =>
      if (bufsize <? kMaxMessageSize) && (bufsize <? length)
      then AllocBufferSize_loop fuel (bufsize * 2) length else bufsize
  end.
Definition AllocBufferSize (length : Z) : Z :=
  if length =? -1 then kMaxMessageSize else AllocBufferSize_loop 31 256 length.

(** [memcpy] from a buffer into an array *)
Definition copy (dst : list Z) (pos : Z) (src : list Z) (from count : Z) : outcome (list Z) :=
  bs ← TB.load src from count;
  TB.store dst pos bs.

(** The loop of [BufferConcat]; [pos] is [dst - data] *)
Fixpoint BufferConcat_loop (q : list Buffer) (mem : list Z) (pos msglength : Z) (r : TcpMessageReader) :
    outcome (list Z * Z * TcpMessageReader) :=
  match q with
  | [] => Ret (mem, pos, r)
  | head :: q =>
      let bytes := BufferSize head - offset_ r in
      assert_that (pos + bytes <? msglength);;
      mem ← copy mem pos (data head) (offset_ r) bytes;
      r ← ReleaseBuffer head (set_queue q (offset_ r) (remain_ r) r);
      BufferConcat_loop q mem (pos + bytes) msglength (set_queue q 0 (-1) r)
  end.

Definition BufferConcat (mem : list Z) (buffer : Buffer) (msglength : Z) (r : TcpMessageReader) :
    outcome (list Z * TcpMessageReader) :=
  '(mem, pos, r) ← BufferConcat_loop (queue_ r) mem 0 msglength r;
  let count := msglength - pos in
  assert_that (pos + count <=? msglength);;
  mem ← copy mem pos (data buffer) 0 count;
  Ret (mem, set_queue (queue_ r) count (remain_ r) r).

Definition QueueByteLength (r : TcpMessageReader) : Z :=
  foldl (λ total b, if total =? 0 then BufferSize b - offset_ r else total + BufferSize b) 0 (queue_ r).

(** The loop of [PullUp] *)
Fixpoint PullUp_loop (q : list Buffer) (first : Z) (mem : list Z) (offset size : Z) : outcome (list Z * Z) :=
  match q with
  | [] => Ret (mem, offset)
  | b :: q =>
      let from := if offset =? 0 then first else 0 in
      let avail := Z.min (BufferSize b - from) (size - offset) in
      assert_that (offset + avail <=? size);;
      mem ← copy mem offset (data b) from avail;
      PullUp_loop q first mem (offset + avail) size
  end.

(** The buffer that is returned: empty, or the array *)
Definition PullUp (mem : list Z) (buffer : Buffer) (size : Z) (r : TcpMessageReader) : outcome (list Z) :=
  '(mem, offset) ← PullUp_loop (queue_ r) (offset_ r) mem 0 size;
  let avail := Z.min (BufferSize buffer) (size - offset) in
  assert_that (offset + avail <=? size);;
  mem ← copy mem offset (data buffer) 0 avail;
  if offset + avail <? size then Ret [] else TB.load mem 0 size.

(** [callback_] *)
Definition deliver (m : list Z) (r : TcpMessageReader) : bool * TcpMessageReader :=
  (callback (delivered r) m, mkReader (queue_ r) (offset_ r) (remain_ r) (held r) (delivered r ++ [m])).

(** What follows the offset. *)
Definition from_offset (b : Buffer) (r : TcpMessageReader) : list Z := drop (Z.to_nat (offset_ r)) (data b).

(** The loop of [OnRead] over the messages of the buffer; [true]: it came to its end.
    Running out of fuel is [Abort] *)
Fixpoint OnRead_loop (fuel : nat) (buffer : Buffer) (avail : Z) (r : TcpMessageReader) :
    outcome (bool * Z * TcpMessageReader) :=
  match fuel with
  | O => Abort
  | S fuel =>
      if avail <=? 0 then Ret (true, avail, r)
      else
        let msglength := MsgLength (from_offset buffer r) in
        if msglength <? 0 then Ret (true, avail, r)
        else if avail <? msglength then Ret (true, avail, set_queue (queue_ r) (offset_ r) (msglength - avail) r)
        else
          m ← TB.load (data buffer) (offset_ r) msglength;
          let '(success, r) := deliver m r in
          let r := set_queue (queue_ r) (offset_ r + msglength) (remain_ r) r in
          if success : bool then OnRead_loop fuel buffer (avail - msglength) r
          else Ret (false, avail - msglength, r)
  end.

(** The second part of [OnRead]: the messages that start in the buffer *)
Definition OnRead_rest (buffer : Buffer) (r : TcpMessageReader) : outcome TcpMessageReader :=
  let avail := BufferSize buffer - offset_ r in
  '(finished, avail, r) ← OnRead_loop (S (length (data buffer))) buffer avail r;
  if negb finished then Ret r
  else if 0 <? avail then Ret (set_queue (queue_ r ++ [buffer]) (offset_ r) (remain_ r) r)
  else
    r ← ReleaseBuffer buffer r;
    assert_that (remain_ r =? -1);;
    Ret (set_queue (queue_ r) 0 (remain_ r) r).

(** The first part: the message that started in the buffers of the queue ... *)
Definition OnRead_complete (msglength : Z) (buffer : Buffer) (r : TcpMessageReader) : outcome TcpMessageReader :=
  let size := BufferSize buffer in
  assert_that (0 <? remain_ r);;
  if size <? remain_ r
  then Ret (set_queue (queue_ r ++ [buffer]) (offset_ r) (remain_ r - size) r)
  else
    '(mem, r) ← BufferConcat (new_array (AllocBufferSize msglength)) buffer msglength r;
    assert_that (remain_ r =? -1);;
    m ← TB.load mem 0 msglength;
    let '(success, r) := deliver m r in
    if success : bool then OnRead_rest buffer r else Ret r.

(** ... once its length is known *)
Definition OnRead_queued (head : Buffer) (buffer : Buffer) (r : TcpMessageReader) : outcome TcpMessageReader :=
  let msglength := MsgLength (from_offset head r) in
  if msglength <? 0 then
    let queuelen := QueueByteLength r in
    if queuelen + BufferSize buffer <? kHeaderLenSize
    then Ret (set_queue (queue_ r ++ [buffer]) (offset_ r) (remain_ r) r)
    else
      header ← PullUp (new_array kHeaderLenSize) buffer kHeaderLenSize r;
      assert_that (len header =? kHeaderLenSize);;
      let msglength := MsgLength header in
      OnRead_complete msglength buffer (set_queue (queue_ r) (offset_ r) (msglength - queuelen) r)
  else OnRead_complete msglength buffer r.

Definition OnRead (buffer : Buffer) (r : TcpMessageReader) : outcome TcpMessageReader :=
  match queue_ r with
  | head :: _ => OnRead_queued head buffer r
  | [] => OnRead_rest buffer r
  end.

(** Buffers the session allocates and hands to the reader, one after the other *)
Fixpoint OnReads (buffers : list Buffer) (r : TcpMessageReader) : outcome TcpMessageReader :=
  match buffers with
  | [] => Ret r
  | b :: buffers => r ← OnRead b (AllocateBuffer b r); OnReads buffers r
  end.

End Reader.

(** ** Copies *)

Lemma copy_ok mem pos src from count : 0 ≤ pos → 0 ≤ from → 0 ≤ count → from + count ≤ len src → pos + count ≤ len mem →
  ∃ mem', copy mem pos src from count = Ret mem' ∧ length mem' = length mem ∧
    take (Z.to_nat (pos + count)) mem' = take (Z.to_nat pos) mem ++ take (Z.to_nat count) (drop (Z.to_nat from) src).
Proof.
  intros. unfold copy. rewrite TB.mem_load_ok by lia. cbn [mbind outcome_mbind]. set (bs := take _ _).
  assert (Hb : len bs = count) by (unfold bs; rewrite length_take, length_drop; lia).
  rewrite TB.mem_store_ok by lia. eexists. split; [done|]. split.
  - rewrite !length_app, length_take, length_drop. lia.
  - rewrite app_assoc. apply take_app_length'. rewrite length_app, length_take. lia.
Qed.

Lemma new_array_length fresh n : 0 ≤ n → len (new_array fresh n) = n.
Proof. intros. unfold new_array. rewrite TB.new_memory_length by lia. lia. Qed.

Section Proofs.
Context (MsgLength : list Z → Z) (kHeaderLenSize kMaxMessageSize : Z).
Context (fresh : nat → Z) (callback : list (list Z) → list Z → bool).

(** What [MsgLength] is documented to do: -1 without the header, and otherwise the
    length the header holds. *)
Record HeaderLaws : Prop := {
  hl_size : 1 ≤ kHeaderLenSize;
  hl_short l : len l < kHeaderLenSize → MsgLength l < 0;
  hl_header l l' : kHeaderLenSize ≤ len l → MsgLength (l ++ l') = MsgLength l;
}.
Hypothesis laws : HeaderLaws.
Hypothesis max_size : kMaxMessageSize ≤ 2 ^ 30.
Hypothesis accepts : ∀ h m, callback h m = true.

Definition message (m : list Z) : Prop := kHeaderLenSize ≤ len m ≤ kMaxMessageSize ∧ MsgLength m = len m.

(** A part of the stream that holds the header tells the length. *)
Lemma length_known l rest m tl : message m → l ++ rest = m ++ tl → kHeaderLenSize ≤ len l → MsgLength l = len m.
Proof using laws.
  intros [Hm El] E Hl. rewrite <- El. set (h := Z.to_nat kHeaderLenSize). pose proof (hl_size laws).
  assert (Et : take h l = take h m).
  { transitivity (take h (l ++ rest)); [by rewrite take_app_le by lia|]. rewrite E. by rewrite take_app_le by lia. }
  rewrite <- (take_drop h l), <- (take_drop h m), Et. rewrite !(hl_header laws); [done| |]; rewrite length_take; lia.
Qed.

Lemma AllocBufferSize_ok n : 0 ≤ n ≤ kMaxMessageSize → n ≤ AllocBufferSize kMaxMessageSize n.
Proof using max_size.
  intros Hn. unfold AllocBufferSize. rewrite (proj2 (Z.eqb_neq _ _)) by lia.
  assert (Hgo : ∀ fuel b, n ≤ b * 2 ^ Z.of_nat fuel → n ≤ AllocBufferSize_loop kMaxMessageSize fuel b n).
  { induction fuel as [|fuel IH]; intros b Hb; cbn [AllocBufferSize_loop]; [lia|].
    destruct (Z.ltb_spec b kMaxMessageSize), (Z.ltb_spec b n); cbn [andb]; try lia.
    apply IH. rewrite Nat2Z.inj_succ, Z.pow_succ_r in Hb by lia. lia. }
  apply Hgo. change (256 * 2 ^ Z.of_nat 31) with (2 ^ 39). lia.
Qed.

(** ** The queue *)

Definition bytes (q : list Buffer) (offset : Z) : list Z := drop (Z.to_nat offset) (concat (data <$> q)).

Lemma bytes_cons b q o : 0 ≤ o ≤ BufferSize b → bytes (b :: q) o = drop (Z.to_nat o) (data b) ++ bytes q 0.
Proof. intros Ho. unfold bytes, BufferSize in *. cbn. by rewrite drop_app_le by lia. Qed.

Lemma QueueByteLength_ok r b q : queue_ r = b :: q → 0 ≤ offset_ r < BufferSize b →
  QueueByteLength r = len (bytes (b :: q) (offset_ r)).
Proof.
  intros Eq Ho. unfold QueueByteLength. rewrite Eq, bytes_cons by lia. cbn [foldl]. change (0 =? 0) with true. cbv iota.
  assert (Hgo : ∀ q t, 0 < t → foldl (λ total b, if total =? 0 then BufferSize b - offset_ r else total + BufferSize b) t q =
    t + len (concat (data <$> q))).
  { clear. induction q as [|b q IH]; intros t Ht; cbn; [lia|]. rewrite (proj2 (Z.eqb_neq _ _)) by lia.
    unfold BufferSize in *. rewrite IH by lia. rewrite length_app. lia. }
  unfold bytes, BufferSize in *. rewrite Hgo by lia. rewrite drop_0, length_app, length_drop. lia.
Qed.

Lemma PullUp_loop_later q first mem o size : 0 < o ≤ size → size ≤ len mem →
  ∃ mem' o', PullUp_loop q first mem o size = Ret (mem', o') ∧ length mem' = length mem ∧
    o' = Z.min size (o + len (bytes q 0)) ∧
    take (Z.to_nat o') mem' = take (Z.to_nat o) mem ++ take (Z.to_nat (size - o)) (bytes q 0).
Proof.
  revert mem o. induction q as [|b q IH]; intros mem o Ho Hs; cbn [PullUp_loop].
  { exists mem, o. change (bytes [] 0) with (@nil Z). change (len []) with 0. rewrite take_nil, app_nil_r. split_and!; [done|done|lia|done]. }
  rewrite (proj2 (Z.eqb_neq _ _)) by lia. set (avail := Z.min (BufferSize b - 0) (size - o)).
  assert (Ha : 0 ≤ avail ≤ BufferSize b) by (unfold avail, BufferSize; lia).
  rewrite (proj2 (Z.leb_le _ _)) by lia. cbn [assert_that mbind outcome_mbind].
  destruct (copy_ok mem o (data b) 0 avail) as (mem1 & -> & L1 & T1); [unfold BufferSize in *; lia..|]. cbn [mbind outcome_mbind].
  destruct (IH mem1 (o + avail)) as (mem2 & o2 & -> & L2 & E2 & T2); [lia|lia|].
  rewrite bytes_cons by (unfold BufferSize; lia). rewrite !drop_0 in *. unfold BufferSize in *.
  exists mem2, o2. split; [done|]. split; [lia|]. split; [rewrite length_app; lia|].
  rewrite T2, T1, <- app_assoc. f_equal. rewrite take_app. f_equal.
  - destruct (Z.le_gt_cases (len (data b)) (size - o)); [rewrite !take_ge by lia; done|f_equal; lia].
  - destruct (Z.le_gt_cases (len (data b)) (size - o)); [f_equal; lia|].
    replace (Z.to_nat (size - (o + avail))) with 0%nat by lia. replace (Z.to_nat (size - o) - length (data b))%nat with 0%nat by lia. done.
Qed.

(** The header is collected from the queue and the new buffer. *)
Lemma PullUp_ok r b q buffer size : queue_ r = b :: q → 0 ≤ offset_ r < BufferSize b → 1 ≤ size →
  size ≤ len (bytes (b :: q) (offset_ r) ++ data buffer) →
  PullUp (new_array fresh size) buffer size r = Ret (take (Z.to_nat size) (bytes (b :: q) (offset_ r) ++ data buffer)).
Proof.
  intros Eq Ho Hs Hl. unfold PullUp. rewrite Eq. cbn [PullUp_loop]. change (0 =? 0) with true. cbv iota.
  pose proof (new_array_length fresh size ltac:(lia)) as Hm. unfold BufferSize in *.
  set (avail := Z.min (len (data b) - offset_ r) (size - 0)). rewrite (proj2 (Z.leb_le _ _)) by lia. cbn [assert_that mbind outcome_mbind].
  destruct (copy_ok (new_array fresh size) 0 (data b) (offset_ r) avail) as (m1 & -> & L1 & T1); [lia..|]. cbn [mbind outcome_mbind].
  destruct (PullUp_loop_later q (offset_ r) m1 (0 + avail) size) as (m2 & o2 & -> & L2 & E2 & T2); [lia|lia|]. cbn [mbind outcome_mbind].
  rewrite bytes_cons in * by (unfold BufferSize; lia). set (l1 := drop (Z.to_nat (offset_ r)) (data b)) in *.
  assert (H1 : len l1 = len (data b) - offset_ r) by (unfold l1; rewrite length_drop; lia).
  rewrite !length_app in Hl.
  set (av2 := Z.min (len (data buffer)) (size - o2)). rewrite (proj2 (Z.leb_le _ _)) by lia. cbn [assert_that mbind outcome_mbind].
  destruct (copy_ok m2 o2 (data buffer) 0 av2) as (m3 & -> & L3 & T3); [lia..|]. cbn [mbind outcome_mbind].
  assert (Efull : o2 + av2 = size) by lia. rewrite (proj2 (Z.ltb_ge _ _)) by lia. rewrite TB.mem_load_ok by lia.
  change (Z.to_nat 0) with 0%nat in *. rewrite !drop_0 in *. f_equal. rewrite Efull in T3. rewrite T3, T2, T1, take_0. cbn [app].
  rewrite <- app_assoc, !take_app, <- !app_assoc. f_equal; [|f_equal].
  - destruct (Z.le_gt_cases (len l1) size); [rewrite !take_ge by lia; done|f_equal; lia].
  - destruct (Z.le_gt_cases (len l1) size); [f_equal; lia|].
    replace (Z.to_nat (size - (0 + avail))) with 0%nat by lia. replace (Z.to_nat size - length l1)%nat with 0%nat by lia. done.
  - rewrite length_app. destruct (Z.le_gt_cases (len l1 + len (bytes q 0)) size); [f_equal; lia|].
    replace (Z.to_nat av2) with 0%nat by lia.
    replace (Z.to_nat size - (length l1 + length (bytes q 0)))%nat with 0%nat by lia. done.
Qed.

Lemma release_head b hs : release b (b :: hs) = Some hs.
Proof. cbn. by rewrite bool_decide_eq_true_2. Qed.

(** Every buffer of the queue is copied and released. *)
Lemma BufferConcat_loop_tail q mem pos n hs del : 0 ≤ pos → pos + len (bytes q 0) < n → n ≤ len mem →
  ∃ mem', BufferConcat_loop q mem pos n (mkReader q 0 (-1) ((address <$> q) ++ hs) del) =
      Ret (mem', pos + len (bytes q 0), mkReader [] 0 (-1) hs del) ∧ length mem' = length mem ∧
    take (Z.to_nat (pos + len (bytes q 0))) mem' = take (Z.to_nat pos) mem ++ bytes q 0.
Proof.
  revert mem pos. induction q as [|b q IH]; intros mem pos Hp Hn Hm; cbn [BufferConcat_loop].
  { exists mem. change (bytes [] 0) with (@nil Z). change (len []) with 0. rewrite Z.add_0_r, app_nil_r. by split_and!. }
  cbn [offset_]. rewrite bytes_cons in * by (unfold BufferSize; lia). change (Z.to_nat 0) with 0%nat in *. rewrite drop_0 in *.
  rewrite length_app in *. unfold BufferSize in *. rewrite (proj2 (Z.ltb_lt _ _)) by lia. cbn [assert_that mbind outcome_mbind].
  destruct (copy_ok mem pos (data b) 0 (len (data b) - 0)) as (m1 & -> & L1 & T1); [lia..|]. cbn [mbind outcome_mbind].
  unfold ReleaseBuffer. cbn [set_queue held fmap list_fmap app queue_ offset_ remain_ delivered]. rewrite release_head. cbn [mbind outcome_mbind].
  unfold set_queue. cbn [held delivered].
  destruct (IH m1 (pos + (len (data b) - 0))) as (m2 & E2 & L2 & T2); [lia..|].
  rewrite E2. exists m2. split; [do 3 f_equal; lia|]. split; [lia|].
  replace (pos + Z.of_nat (length (data b) + length (bytes q 0))) with (pos + (len (data b) - 0) + len (bytes q 0)) by lia.
  rewrite T2, T1, <- app_assoc. do 2 f_equal. change (Z.to_nat 0) with 0%nat. rewrite drop_0. apply take_ge. lia.
Qed.

Lemma BufferConcat_ok b q o rem hs del buffer n mem : 0 ≤ o < BufferSize b → n ≤ len mem →
  len (bytes (b :: q) o) < n → n ≤ len (bytes (b :: q) o) + BufferSize buffer →
  ∃ mem', BufferConcat mem buffer n (mkReader (b :: q) o rem ((address <$> b :: q) ++ hs) del) =
      Ret (mem', mkReader [] (n - len (bytes (b :: q) o)) (-1) hs del) ∧
    TB.load mem' 0 n = Ret (take (Z.to_nat n) (bytes (b :: q) o ++ data buffer)).
Proof.
  intros Ho Hm Hl Hn. unfold BufferConcat. cbn [queue_ BufferConcat_loop offset_]. rewrite bytes_cons in * by lia.
  set (l1 := drop (Z.to_nat o) (data b)) in *. rewrite length_app in Hl, Hn. unfold BufferSize in *.
  assert (H1 : len l1 = len (data b) - o) by (unfold l1; rewrite length_drop; lia).
  rewrite (proj2 (Z.ltb_lt _ _)) by lia. cbn [assert_that mbind outcome_mbind].
  destruct (copy_ok mem 0 (data b) o (len (data b) - o)) as (m1 & -> & L1 & T1); [lia..|]. cbn [mbind outcome_mbind].
  unfold ReleaseBuffer. cbn [set_queue held fmap list_fmap app queue_ offset_ remain_ delivered]. rewrite release_head. cbn [mbind outcome_mbind].
  unfold set_queue. cbn [held delivered].
  destruct (BufferConcat_loop_tail q m1 (0 + (len (data b) - o)) n hs del) as (m2 & -> & L2 & T2); [lia..|].
  cbn [mbind outcome_mbind]. set (pos := 0 + (len (data b) - o) + len (bytes q 0)) in *.
  rewrite (proj2 (Z.leb_le _ _)) by lia. cbn [assert_that mbind outcome_mbind].
  destruct (copy_ok m2 pos (data buffer) 0 (n - pos)) as (m3 & -> & L3 & T3); [lia..|]. cbn [mbind outcome_mbind queue_ remain_].
  exists m3. split; [rewrite length_app; do 3 f_equal; lia|].
  rewrite TB.mem_load_ok by lia. change (Z.to_nat 0) with 0%nat in *. rewrite !drop_0 in *. f_equal.
  replace (pos + (n - pos)) with n in T3 by lia. rewrite T3, T2, T1, take_0. cbn [app].
  rewrite take_ge by (fold l1; lia). fold l1. rewrite <- !app_assoc, !take_app. f_equal; [by rewrite take_ge by lia|].
  f_equal; [by rewrite take_ge by lia|]. f_equal. lia.
Qed.

(** ** The stream *)

(** The start of the next message, [l], waits in the queue; the session holds the
    buffers of the queue. *)
Inductive Pending (r : TcpMessageReader) (ms : list (list Z)) : list Z → Prop :=
| pending_none : queue_ r = [] → offset_ r = 0 → remain_ r = -1 → held r = [] → Pending r ms []
| pending_some b q m ms' : queue_ r = b :: q → 0 ≤ offset_ r < BufferSize b → held r = address <$> b :: q →
    ms = m :: ms' → len (bytes (b :: q) (offset_ r)) < len m →
    (kHeaderLenSize ≤ BufferSize b - offset_ r → remain_ r = len m - len (bytes (b :: q) (offset_ r))) →
    Pending r ms (bytes (b :: q) (offset_ r)).

(** The messages [ms1] were delivered, the start of the next ones waits. *)
Definition consumed (r r' : TcpMessageReader) (ms : list (list Z)) (rest : list Z) : Prop :=
  ∃ ms1 ms2 l, ms = ms1 ++ ms2 ∧ delivered r' = delivered r ++ ms1 ∧ Pending r' ms2 l ∧ l ++ rest = concat ms2.

Lemma tcp_OnRead_loop_ok fuel d a r rest ms : 0 ≤ offset_ r ≤ len d → remain_ r = -1 → Forall message ms →
  drop (Z.to_nat (offset_ r)) d ++ rest = concat ms → (Z.to_nat (len d - offset_ r) < fuel)%nat →
  ∃ r' ms1 ms2, OnRead_loop MsgLength callback fuel (mkBuffer a d) (len d - offset_ r) r = Ret (true, len d - offset_ r', r') ∧
    ms = ms1 ++ ms2 ∧ delivered r' = delivered r ++ ms1 ∧ queue_ r' = queue_ r ∧ held r' = held r ∧
    0 ≤ offset_ r' ≤ len d ∧ drop (Z.to_nat (offset_ r')) d ++ rest = concat ms2 ∧
    (offset_ r' = len d → remain_ r' = -1) ∧
    (offset_ r' < len d → ∃ m ms', ms2 = m :: ms' ∧ len d - offset_ r' < len m ∧
      (kHeaderLenSize ≤ len d - offset_ r' → remain_ r' = len m - (len d - offset_ r'))).
Proof using laws accepts.
  revert r ms. induction fuel as [|fuel IH]; intros r ms Ho Hrem Hms Es Hf; [lia|]. cbn [OnRead_loop].
  pose proof (hl_size laws) as Hh.
  set (l := drop (Z.to_nat (offset_ r)) d) in *. assert (Hl : len l = len d - offset_ r) by (unfold l; rewrite length_drop; lia).
  destruct (Z.leb_spec (len d - offset_ r) 0) as [Hz|Hpos].
  { exists r, [], ms. rewrite app_nil_r. split_and!; try done; lia. }
  destruct ms as [|m ms]. { destruct l; [cbn in Hl; lia|done]. }
  pose proof Hms as [Hm Hms']%Forall_cons. pose proof Hm as [Hlm _]. unfold from_offset. cbn [data]. fold l.
  destruct (Z.lt_ge_cases (len l) kHeaderLenSize) as [Hs|Hlong].
  { rewrite (proj2 (Z.ltb_lt _ _)) by (by apply (hl_short laws)). exists r, [], (m :: ms). rewrite app_nil_r.
    split_and!; try done; try lia. intros _. exists m, ms. split_and!; [done|lia|lia]. }
  rewrite (length_known l rest m (concat ms)) by done.
  rewrite (proj2 (Z.ltb_ge _ _)) by lia. destruct (Z.ltb_spec (len d - offset_ r) (len m)) as [Hlt|Hge].
  { exists (set_queue (queue_ r) (offset_ r) (len m - (len d - offset_ r)) r), [], (m :: ms). rewrite app_nil_r. cbn.
    split_and!; try done; try lia. intros _. by exists m, ms. }
  assert (Hmem : TB.load d (offset_ r) (len m) = Ret m).
  { rewrite TB.mem_load_ok by lia. fold l. f_equal. rewrite Nat2Z.id.
    transitivity (take (length m) (l ++ rest)); [by rewrite take_app_le by lia|]. rewrite Es. cbn. by rewrite take_app_length. }
  rewrite Hmem. cbn [mbind outcome_mbind deliver]. rewrite accepts. set (r1 := set_queue _ _ _ _).
  assert (E1 : len d - offset_ r - len m = len d - offset_ r1) by (cbn; lia). rewrite E1.
  destruct (IH r1 ms) as (r2 & ms1 & ms2 & -> & -> & D & Q & H & O & S & R1 & R2); [cbn; lia|done|done| |cbn; lia|].
  { cbn [offset_ r1 set_queue]. replace (Z.to_nat (offset_ r + len m)) with (Z.to_nat (offset_ r) + length m)%nat by lia.
    rewrite <- drop_drop. fold l. transitivity (drop (length m) (l ++ rest)); [by rewrite drop_app_le by lia|].
    rewrite Es. cbn. by rewrite drop_app_length. }
  exists r2, (m :: ms1), ms2. split_and!; try done; try lia. rewrite D. cbn. by rewrite <- app_assoc.
Qed.

(** What remains of a buffer when the queue is empty *)
Lemma OnRead_rest_ok d a r rest ms : queue_ r = [] → held r = [a] → remain_ r = -1 → 0 ≤ offset_ r ≤ len d →
  Forall message ms → drop (Z.to_nat (offset_ r)) d ++ rest = concat ms →
  ∃ r', OnRead_rest MsgLength callback (mkBuffer a d) r = Ret r' ∧ consumed r r' ms rest.
Proof using laws accepts.
  intros Eq Eh Er Ho Hms Es. unfold OnRead_rest. cbn [data]. unfold BufferSize. cbn [data].
  destruct (tcp_OnRead_loop_ok (S (length d)) d a r rest ms) as (r1 & ms1 & ms2 & -> & -> & D & Q & H & O & S & R1 & R2); [done..|lia|].
  cbn [mbind outcome_mbind negb]. destruct (Z.ltb_spec 0 (len d - offset_ r1)) as [Hpos|Hz].
  - eexists. split; [done|]. exists ms1, ms2, (drop (Z.to_nat (offset_ r1)) d). split; [done|]. split; [done|]. split; [|done].
    destruct R2 as (m & ms' & -> & Hm & Hrem); [lia|].
    assert (Hb : drop (Z.to_nat (offset_ r1)) d = bytes [mkBuffer a d] (offset_ r1)) by (unfold bytes; cbn; by rewrite app_nil_r).
    assert (Hlb : len (bytes [mkBuffer a d] (offset_ r1)) = len d - offset_ r1) by (rewrite <- Hb, length_drop; lia).
    rewrite Hb. rewrite Q, Eq. cbn [app]. set (r2 := set_queue _ _ _ r1).
    apply (pending_some r2 (m :: ms') (mkBuffer a d) [] m ms'); unfold r2; cbn [set_queue queue_ offset_ held remain_]; unfold BufferSize; cbn [data];
      [done|lia|by rewrite H, Eh|done|lia|]. rewrite Hlb. done.
  - assert (Hend : offset_ r1 = len d) by lia. unfold ReleaseBuffer. cbn [address]. rewrite H, Eh, release_head.
    cbn [mbind outcome_mbind remain_ queue_]. rewrite (R1 Hend). cbn [Z.eqb]. change (-1 =? -1) with true. cbn [assert_that mbind outcome_mbind].
    eexists. split; [done|]. exists ms1, ms2, []. split_and!; [done|done| |].
    + apply pending_none; cbn; [by rewrite Q|done..].
    + rewrite drop_ge in S by lia. done.
Qed.

(** A buffer joins the queue. *)
Lemma push_pending b q o rem buffer del m ms : 0 ≤ o < BufferSize b →
  len (bytes (b :: q) o) + BufferSize buffer < len m →
  (kHeaderLenSize ≤ BufferSize b - o → rem = len m - (len (bytes (b :: q) o) + BufferSize buffer)) →
  Pending (mkReader ((b :: q) ++ [buffer]) o rem ((address <$> b :: q) ++ [address buffer]) del) (m :: ms)
    (bytes (b :: q) o ++ data buffer).
Proof.
  intros Ho Hl Hr.
  assert (E : bytes (b :: q) o ++ data buffer = bytes ((b :: q) ++ [buffer]) o).
  { unfold bytes, BufferSize in *. rewrite fmap_app, concat_app. cbn [fmap list_fmap concat].
    rewrite app_nil_r, (drop_app_le (_ ++ _)); [done|]. rewrite length_app. lia. }
  assert (El : len (bytes ((b :: q) ++ [buffer]) o) = len (bytes (b :: q) o) + BufferSize buffer)
    by (rewrite <- E, length_app; unfold BufferSize; lia).
  rewrite E. set (r := mkReader _ _ _ _ _).
  apply (pending_some r (m :: ms) b (q ++ [buffer]) m ms); unfold r; cbn [queue_ offset_ held remain_]; [done|done| |done|cbn in El |- *; lia..].
  cbn. by rewrite fmap_app.
Qed.

(** The length is known: the buffer completes the message, or joins the queue. *)
Lemma OnRead_complete_ok b q o del buffer rest m ms : let l := bytes (b :: q) o in
  0 ≤ o < BufferSize b → Forall message (m :: ms) → len l < len m → l ++ data buffer ++ rest = m ++ concat ms →
  let r := mkReader (b :: q) o (len m - len l) ((address <$> b :: q) ++ [address buffer]) del in
  ∃ r', OnRead_complete MsgLength kMaxMessageSize fresh callback (len m) buffer r = Ret r' ∧ consumed r r' (m :: ms) rest.
Proof using laws accepts max_size.
  intros l Ho Hms Hl Es r. pose proof (hl_size laws). pose proof Hms as [Hm Hms']%Forall_cons. pose proof Hm as [Hlm _].
  unfold OnRead_complete. cbn [remain_ r]. rewrite (proj2 (Z.ltb_lt 0 _)) by lia. cbn [assert_that mbind outcome_mbind].
  destruct (Z.ltb_spec (BufferSize buffer) (len m - len l)) as [Hlt|Hge].
  { eexists. split; [done|]. exists [], (m :: ms), (l ++ data buffer). rewrite app_nil_r. split_and!; [done|done| |by rewrite <- app_assoc].
    apply (push_pending b q o (len m - len l - BufferSize buffer) buffer del m ms); [done|fold l; lia|]. fold l. lia. }
  pose proof (AllocBufferSize_ok (len m) ltac:(lia)) as Ha.
  destruct (BufferConcat_ok b q o (len m - len l) [address buffer] del buffer (len m) (new_array fresh (AllocBufferSize kMaxMessageSize (len m))))
    as (mem & E1 & E2); [done|rewrite new_array_length by lia; lia|done|fold l; lia|].
  fold l in E1, E2. unfold r. rewrite E1. cbn [mbind outcome_mbind remain_]. change (-1 =? -1) with true. cbn [assert_that mbind outcome_mbind].
  rewrite E2. cbn [mbind outcome_mbind].
  assert (Et : take (Z.to_nat (len m)) (l ++ data buffer) = m).
  { rewrite Nat2Z.id. transitivity (take (length m) ((l ++ data buffer) ++ rest)).
    - rewrite (take_app_le (l ++ data buffer)); [done|]. rewrite length_app. unfold BufferSize in *. lia.
    - rewrite <- app_assoc, Es. by rewrite take_app_length. }
  rewrite Et. unfold deliver. cbn [delivered queue_ offset_ remain_ held]. rewrite accepts.
  destruct buffer as [a d]. unfold BufferSize in *. cbn [data address] in *.
  destruct (OnRead_rest_ok d a (mkReader [] (len m - len l) (-1) [a] (del ++ [m])) rest ms) as (r' & -> & ms1 & ms2 & l2 & -> & D & P & S);
    cbn [queue_ held remain_ offset_]; try done; [lia| |].
  - transitivity (drop (length m) ((l ++ d) ++ rest)).
    + rewrite (drop_app_le (l ++ d)) by (rewrite length_app; lia). f_equal. rewrite drop_app_ge by lia. f_equal. lia.
    + rewrite <- app_assoc, Es. by rewrite drop_app_length.
  - exists r'. split; [done|]. exists (m :: ms1), ms2, l2. split_and!; try done. rewrite D. cbn. by rewrite <- app_assoc.
Qed.

Lemma tcp_OnRead_ok buffer r l rest ms : Pending r ms l → Forall message ms → l ++ data buffer ++ rest = concat ms →
  ∃ r', OnRead MsgLength kHeaderLenSize kMaxMessageSize fresh callback buffer (AllocateBuffer buffer r) = Ret r' ∧
    consumed r r' ms rest.
Proof using laws accepts max_size.
  intros P Hms Es. pose proof (hl_size laws) as Hh. unfold OnRead, AllocateBuffer.
  destruct P as [Eq Eo Er Eh|b q m ms' Eq Ho Eh -> Hl Hr]; cbn [queue_]; rewrite Eq.
  { destruct buffer as [a d]. cbn [data address] in *. rewrite Eo, Er, Eh.
    destruct (OnRead_rest_ok d a (mkReader [] 0 (-1) [a] (delivered r)) rest ms) as (r' & ? & ?); try done; [cbn; lia|]. by exists r'. }
  cbn [concat] in Es. rewrite Eh. set (l := bytes (b :: q) (offset_ r)) in *.
  pose proof Hms as [Hm Hms']%Forall_cons. pose proof Hm as [Hlm _].
  assert (Hb0 : len (drop (Z.to_nat (offset_ r)) (data b)) = BufferSize b - offset_ r) by (unfold BufferSize in *; rewrite length_drop; lia).
  assert (Hlb : l = drop (Z.to_nat (offset_ r)) (data b) ++ bytes q 0) by (unfold l; apply bytes_cons; lia).
  set (r0 := mkReader (b :: q) (offset_ r) (remain_ r) ((address <$> b :: q) ++ [address buffer]) (delivered r)).
  unfold OnRead_queued, from_offset. cbn [offset_ r0].
  destruct (Z.lt_ge_cases (BufferSize b - offset_ r) kHeaderLenSize) as [Hs|Hlong].
  - rewrite (proj2 (Z.ltb_lt (MsgLength _) 0)) by (apply (hl_short laws); lia).
    rewrite (QueueByteLength_ok r0 b q eq_refl Ho). cbn [offset_ r0]. fold l.
    destruct (Z.ltb_spec (len l + BufferSize buffer) kHeaderLenSize) as [Hlt|Hge].
    + eexists. split; [done|]. exists [], (m :: ms'), (l ++ data buffer). rewrite app_nil_r. split_and!; [done|done| |by rewrite <- app_assoc].
      apply (push_pending b q (offset_ r) (remain_ r) buffer (delivered r) m ms'); [done|fold l; lia|lia].
    + rewrite (PullUp_ok r0 b q) by (try done; cbn [offset_ r0]; fold l; rewrite length_app; unfold BufferSize in *; lia).
      cbn [mbind outcome_mbind offset_ r0]. fold l. set (hd := take _ _).
      assert (Hhd : len hd = kHeaderLenSize) by (unfold hd; rewrite length_take, length_app; unfold BufferSize in *; lia).
      rewrite Hhd, Z.eqb_refl. cbn [assert_that mbind outcome_mbind].
      rewrite (length_known hd (drop (Z.to_nat kHeaderLenSize) (l ++ data buffer) ++ rest) m (concat ms')); [|done| |lia].
      2:{ unfold hd. rewrite app_assoc, take_drop, <- app_assoc. done. }
      by apply OnRead_complete_ok.
  - rewrite (length_known _ (bytes q 0 ++ data buffer ++ rest) m (concat ms')); [|done| |lia].
    2:{ rewrite <- Es, Hlb, <- app_assoc. done. }
    rewrite (proj2 (Z.ltb_ge (len m) 0)) by lia. unfold r0. rewrite Hr by lia. by apply OnRead_complete_ok.
Qed.

(** Any cut of the stream into buffers *)
Lemma tcp_OnReads_ok buffers r l rest ms : Pending r ms l → Forall message ms → l ++ concat (data <$> buffers) ++ rest = concat ms →
  ∃ r', OnReads MsgLength kHeaderLenSize kMaxMessageSize fresh callback buffers r = Ret r' ∧ consumed r r' ms rest.
Proof using laws accepts max_size.
  revert r l ms. induction buffers as [|b bs IH]; intros r l ms P Hms Es.
  { exists r. split; [done|]. exists [], ms, l. rewrite app_nil_r. by split_and!. }
  cbn [OnReads fmap list_fmap concat] in *. rewrite <- app_assoc in Es.
  destruct (tcp_OnRead_ok b r l (concat (data <$> bs) ++ rest) ms P Hms Es) as (r1 & -> & ms1 & ms2 & l1 & -> & D1 & P1 & E1).
  cbn [mbind outcome_mbind]. apply Forall_app in Hms as [_ Hms2].
  destruct (IH r1 l1 ms2 P1 Hms2 E1) as (r2 & -> & ms3 & ms4 & l2 & -> & D2 & P2 & E2).
  exists r2. split; [done|]. exists (ms1 ++ ms3), ms4, l2. rewrite D2, D1, !app_assoc. by split_and!.
Qed.

(** C32: messages are reassembled.  However the stream of the messages is cut into
    buffers - within a header, within a message, several messages in one - the callback
    is called with exactly the messages, in order; every assertion of the code holds,
    every copy stays within its array; and in the end every buffer has been released,
    exactly once. *)
Theorem tcp_reassembly buffers ms : Forall message ms → concat (data <$> buffers) = concat ms →
  ∃ r, OnReads MsgLength kHeaderLenSize kMaxMessageSize fresh callback buffers new_TcpMessageReader = Ret r ∧
    delivered r = ms ∧ queue_ r = [] ∧ offset_ r = 0 ∧ held r = [].
Proof using laws accepts max_size.
  intros Hms Es. destruct (tcp_OnReads_ok buffers new_TcpMessageReader [] [] ms) as (r & -> & ms1 & ms2 & l & -> & D & P & El);
    [by constructor|done|by rewrite app_nil_r|]. rewrite app_nil_r in El. apply Forall_app in Hms as [_ Hms2].
  exists r. split; [done|]. destruct P as [Eq Eo _ Eh|b q m ms' _ _ _ -> Hl _].
  - destruct ms2 as [|m ms2]; [rewrite app_nil_r; by split_and!|]. apply Forall_cons in Hms2 as [[Hm _] _].
    pose proof (hl_size laws). apply (f_equal length) in El. cbn in El. rewrite length_app in El. lia.
  - rewrite El in Hl. cbn in Hl. rewrite length_app in Hl. lia.
Qed.
End Proofs.

(** ** A session *)

(** The length of a BGP message: two bytes after a marker of sixteen. *)
Definition bgp_length (l : list Z) : Z :=
  if len l <? 18 then -1 else 256 * nth 16 l 0 + nth 17 l 0.

Lemma bgp_laws : HeaderLaws bgp_length 18.
Proof.
  constructor; [done|..]; unfold bgp_length.
  - intros l Hl. by rewrite (proj2 (Z.ltb_lt _ _)).
  - intros l l' Hl. rewrite length_app, !(proj2 (Z.ltb_ge _ _)) by lia. rewrite !app_nth1 by lia. done.
Qed.

Definition bgp_message (n : nat) : list Z := replicate 16 255 ++ [0; Z.of_nat n] ++ replicate (n - 18) 1.

Definition zeros (n : nat) : Z := 0.
Definition all_ok (h : list (list Z)) (m : list Z) : bool := true.

(** A message and a half; a few bytes; the rest: the header of the second is cut twice. *)
Definition cuts : list Buffer :=
  let stream := bgp_message 30 ++ bgp_message 40 in
  [mkBuffer 1 (take 40 stream); mkBuffer 2 (take 5 (drop 40 stream)); mkBuffer 3 (drop 45 stream)].

Lemma tcp_reassembly_witness :
  ∃ r, OnReads bgp_length 18 4096 zeros all_ok cuts new_TcpMessageReader = Ret r ∧
    delivered r = [bgp_message 30; bgp_message 40] ∧ queue_ r = [] ∧ offset_ r = 0 ∧ held r = [].
Proof.
  apply (tcp_reassembly bgp_length 18 4096 zeros all_ok bgp_laws); [lia|done| |vm_compute; reflexivity].
  repeat (apply List.Forall_cons || apply List.Forall_nil); (split; [vm_compute; split; discriminate|vm_compute; reflexivity]).
Defined.

(** ** Where the code falls short *)

(** The array for a message is no larger than the maximal size, but the length the
    peer declares is not compared with it: a longer message in two buffers is copied
    beyond the end of the array. *)
Lemma oversize_message_overflows :
  OnReads bgp_length 18 256 zeros all_ok
    [mkBuffer 1 (replicate 16 255 ++ [2; 0]); mkBuffer 2 (replicate 494 1)] new_TcpMessageReader = Abort.
Proof. vm_compute. reflexivity. Qed.

(** When the callback rejects a message the buffer is neither released nor kept, and
    [offset_] stays: the start of the next buffer is taken for used. *)
Definition reject_first (h : list (list Z)) (m : list Z) : bool := match h with [] => false | _ => true end.

Lemma rejection_skips_bytes : ∃ r,
  OnReads bgp_length 18 4096 zeros reject_first [mkBuffer 1 (bgp_message 20); mkBuffer 2 (bgp_message 20)] new_TcpMessageReader = Ret r ∧
  delivered r = [bgp_message 20] ∧ queue_ r = [] ∧ held r = [1%nat].
Proof. eexists. split; [vm_compute; reflexivity|]. split_and!; vm_compute; reflexivity. Qed.

End TR.
