(* ===== verification/TcpSession.v ===== *)
(** * Sending on a TCP session: [TcpSession] of src/io/tcp_session.{h,cc} and
      [TcpMessageWriter] of src/io/tcp_message_write.{h,cc}

    [Send] puts a copy of the data into a queue; the first one posts
    [AsyncWriteInternal] to the strand, which starts an asynchronous write of a part of
    the first buffer; its completion, [AsyncWriteHandler], starts the next one until the
    queue is empty.  A sender that gets too far ahead is told to wait ([Send] returns
    false) and woken by [WriteReady].  [Close] waits for the queue to become empty.

    Each section under the session's mutex is one step; the strand, the socket and the
    threads that send and close interleave.  [posted] counts the calls of
    [AsyncWriteInternal] in the strand, [writing] is the data of the write in progress,
    [closers] are the threads that are about to call [CloseInternal].  An asynchronous
    write completes with all of its bytes or with an error.  A failed assertion is
    [Abort].  Sessions have a server, and with it a strand. *)

From stdpp Require Import list.
From S2P Require Import Prelude.
Open Scope Z_scope.

Module TS.

Abbreviation len l := (Z.of_nat (length l)).

Definition kMaxPendingBufferSize : Z := 256 * 1024.
Definition kMinPendingBufferSize : Z := 64 * 1024.

Record TcpSession := mkSession {
  (* TcpMessageWriter *)
  buffer_queue_ : list (list Z);
  offset_ : Z;
  last_write_ : Z;
  (* TcpSession *)
  established_ : bool;
  closed_ : bool;
  write_blocked_ : bool;
  tcp_close_in_progress_ : bool;
  non_blocking : bool;              (* of the socket *)
  (* the strand, the socket, other threads *)
  posted : nat;
  writing : option (list Z);
  closers : list bool;              (* with [call_observer] *)
  (* what happened *)
  accepted : list Z;                (* the bytes the writer took *)
  written : list Z;                 (* the bytes the socket took *)
  waiting : bool;                   (* a sender was told to wait, and not woken since *)
  observed : nat;                   (* CLOSE events the observer got *)
}.

Definition new_TcpSession : TcpSession :=
  mkSession [] 0 0 false false false false false 0 None [] [] [] false 0.

Definition with_writer (q : list (list Z)) (offset last : Z) (w : option (list Z)) (s : TcpSession) : TcpSession :=
  mkSession q offset last (established_ s) (closed_ s) (write_blocked_ s) (tcp_close_in_progress_ s) (non_blocking s)
    (posted s) w (closers s) (accepted s) (written s) (waiting s) (observed s).
Definition with_state (established closed in_progress nonblocking : bool) (s : TcpSession) : TcpSession :=
  mkSession (buffer_queue_ s) (offset_ s) (last_write_ s) established closed (write_blocked_ s) in_progress nonblocking
    (posted s) (writing s) (closers s) (accepted s) (written s) (waiting s) (observed s).
Definition with_blocked (blocked wait : bool) (s : TcpSession) : TcpSession :=
  mkSession (buffer_queue_ s) (offset_ s) (last_write_ s) (established_ s) (closed_ s) blocked (tcp_close_in_progress_ s)
    (non_blocking s) (posted s) (writing s) (closers s) (accepted s) (written s) wait (observed s).
Definition with_pending (p : nat) (c : list bool) (o : nat) (s : TcpSession) : TcpSession :=
  mkSession (buffer_queue_ s) (offset_ s) (last_write_ s) (established_ s) (closed_ s) (write_blocked_ s) (tcp_close_in_progress_ s)
    (non_blocking s) p (writing s) c (accepted s) (written s) (waiting s) o.
Definition with_bytes (acc wr : list Z) (s : TcpSession) : TcpSession :=
  mkSession (buffer_queue_ s) (offset_ s) (last_write_ s) (established_ s) (closed_ s) (write_blocked_ s) (tcp_close_in_progress_ s)
    (non_blocking s) (posted s) (writing s) (closers s) acc wr (waiting s) (observed s).

Definition IsEstablishedLocked (s : TcpSession) : bool := established_ s && negb (tcp_close_in_progress_ s).
Definition IsWritePending (s : TcpSession) : bool := negb (length (buffer_queue_ s) =? 0)%nat.
Definition GetBufferQueueSize (s : TcpSession) : Z := foldl (λ total b, total + len b) 0 (buffer_queue_ s).

(** ** [TcpMessageWriter] *)

Definition BufferAppend (data : list Z) (s : TcpSession) : TcpSession :=
  with_bytes (accepted s ++ data) (written s)
    (with_writer (buffer_queue_ s ++ [data]) (offset_ s) (last_write_ s) (writing s) s).

Definition AsyncSend (data : list Z) (s : TcpSession) : Z * TcpSession :=
  let s := if negb (IsWritePending s)
           then let s := BufferAppend data s in with_pending (S (posted s)) (closers s) (observed s) s
           else BufferAppend data s in
  if kMaxPendingBufferSize <? GetBufferQueueSize s - offset_ s
  then (0, if write_blocked_ s then s else with_blocked true (waiting s) s)
  else (len data, s).

Section Session.
Context (buffer_send_size_ : Z).

Definition TriggerAsyncWrite (s : TcpSession) : outcome TcpSession :=
  assert_that (last_write_ s =? 0);;
  match buffer_queue_ s with
  | [] => Abort
  | head :: _ =>
      let remaining := len head - offset_ s in
      let last_write := Z.min buffer_send_size_ remaining in
      Ret (with_writer (buffer_queue_ s) (offset_ s) last_write
             (Some (take (Z.to_nat last_write) (drop (Z.to_nat (offset_ s)) head))) s)
  end.

(** [more_write], [*send_ready] and the session *)
Definition UpdateBufferQueue (wrote : Z) (s : TcpSession) : outcome (bool * bool * TcpSession) :=
  assert_that (last_write_ s =? wrote);;
  match buffer_queue_ s with
  | [] => Abort
  | head :: q =>
      let s := if offset_ s + wrote =? len head
               then with_writer q 0 0 (writing s) s
               else with_writer (head :: q) (offset_ s + wrote) 0 (writing s) s in
      let send_ready := write_blocked_ s && (GetBufferQueueSize s - offset_ s <? kMinPendingBufferSize) in
      let s := if send_ready then with_blocked false (waiting s) s else s in
      Ret (IsWritePending s, send_ready, s)
  end.

(** ** [TcpSession] *)

(** The answer and the session *)
Definition Send (data : list Z) (s : TcpSession) : bool * TcpSession :=
  if negb (IsEstablishedLocked s) then (false, s)
  else if non_blocking s then
    let '(n, s) := AsyncSend data s in
    if n =? len data then (true, s) else (false, with_blocked (write_blocked_ s) true s)
  else (true, s).

Definition AsyncWriteInternal (s : TcpSession) : outcome TcpSession :=
  if closed_ s then Ret s else TriggerAsyncWrite s.

(** [CloseInternal], the observer called in the end *)
Definition CloseInternal (call_observer : bool) (s : TcpSession) : TcpSession :=
  let s := with_state (established_ s) true false (non_blocking s) s in
  if negb (established_ s) then s
  else
    let s := with_state false true false (non_blocking s) s in
    if call_observer then with_pending (posted s) (closers s) (S (observed s)) s else s.

(** [Close], up to the call of [CloseInternal] *)
Definition Close (s : TcpSession) : TcpSession :=
  if closed_ s then s
  else if IsWritePending s then with_state (established_ s) (closed_ s) true (non_blocking s) s
  else with_pending (posted s) (closers s ++ [false]) (observed s) s.

Inductive error := no_error | hard_error | soft_error.

(** [WriteReady] wakes the sender. *)
Definition WriteReady (s : TcpSession) : TcpSession := with_blocked (write_blocked_ s) false s.

Definition AsyncWriteHandler (e : error) (wrote : Z) (s : TcpSession) : outcome TcpSession :=
  match e with
  | hard_error => Ret (with_pending (posted s) (closers s ++ [true]) (observed s) s)
  | _ =>
      if closed_ s then Ret s
      else
        '(more_write, send_ready, s) ← UpdateBufferQueue wrote s;
        if more_write : bool then
          s ← TriggerAsyncWrite s;
          Ret (if send_ready : bool then WriteReady s else s)
        else if tcp_close_in_progress_ s then Ret (with_pending (posted s) (closers s ++ [true]) (observed s) s)
        else Ret (if send_ready then WriteReady s else s)
  end.

(** [SessionEstablished]; [SetSocketOptions] makes the socket non-blocking. *)
Definition SessionEstablished (s : TcpSession) : TcpSession :=
  with_state true (closed_ s) (tcp_close_in_progress_ s) (non_blocking s) s.
Definition SetSocketOptions (s : TcpSession) : TcpSession :=
  with_state (established_ s) (closed_ s) (tcp_close_in_progress_ s) true s.

(** ** Executions *)

Inductive label :=
| LEstablished | LOptions | LSend (data : list Z) | LStrand | LDone (e : error) (wrote : Z) | LClose | LCloseInternal.

(** The write completes: it is no longer in progress, and the socket took [wrote] bytes. *)
Definition complete (wrote : Z) (bs : list Z) (s : TcpSession) : TcpSession :=
  with_bytes (accepted s) (written s ++ take (Z.to_nat wrote) bs)
    (with_writer (buffer_queue_ s) (offset_ s) (last_write_ s) None s).

Inductive step : TcpSession → label → outcome TcpSession → Prop :=
| step_established s : closed_ s = false → step s LEstablished (Ret (SessionEstablished s))
| step_options s : step s LOptions (Ret (SetSocketOptions s))
| step_send s data : step s (LSend data) (Ret (Send data s).2)
| step_strand s n : posted s = S n → step s LStrand (AsyncWriteInternal (with_pending n (closers s) (observed s) s))
| step_done s bs : writing s = Some bs →
    step s (LDone no_error (len bs)) (AsyncWriteHandler no_error (len bs) (complete (len bs) bs s))
| step_failed s bs wrote : writing s = Some bs → 0 ≤ wrote ≤ len bs →
    step s (LDone hard_error wrote) (AsyncWriteHandler hard_error wrote (complete wrote bs s))
| step_close s : step s LClose (Ret (Close s))
| step_close_internal s c cs : closers s = c :: cs →
    step s LCloseInternal (Ret (CloseInternal c (with_pending (posted s) cs (observed s) s))).

Inductive reachable : TcpSession → Prop :=
| reach_new : reachable new_TcpSession
| reach_step s l s' : reachable s → step s l (Ret s') → reachable s'.

(** ** The invariant *)

(** What the writer took and the socket did not confirm. *)
Definition unsent (s : TcpSession) : list Z := drop (Z.to_nat (offset_ s)) (concat (buffer_queue_ s)).

(** An open session is idle, has a write posted, or one in progress; or a write has
    failed and the session is about to be closed. *)
Inductive Mode (s : TcpSession) : Prop :=
| mode_idle : buffer_queue_ s = [] → posted s = 0%nat → writing s = None → last_write_ s = 0 → written s = accepted s → Mode s
| mode_posted : buffer_queue_ s ≠ [] → posted s = 1%nat → writing s = None → last_write_ s = 0 →
    written s ++ unsent s = accepted s → Mode s
| mode_writing (h : list Z) (q : list (list Z)) : buffer_queue_ s = h :: q → posted s = 0%nat → last_write_ s = Z.min buffer_send_size_ (len h - offset_ s) →
    writing s = Some (take (Z.to_nat (last_write_ s)) (drop (Z.to_nat (offset_ s)) h)) →
    written s ++ unsent s = accepted s → Mode s
| mode_failed : buffer_queue_ s ≠ [] → posted s = 0%nat → writing s = None → true ∈ closers s → Mode s.

Record Inv (s : TcpSession) : Prop := {
  i_offset : match buffer_queue_ s with [] => offset_ s = 0 | h :: _ => 0 ≤ offset_ s ≤ len h end;
  i_prefix : ∃ rest, accepted s = written s ++ default [] (writing s) ++ rest;
  i_mode : closed_ s = false → Mode s;
  i_closed : closed_ s = true → established_ s = false;
  i_blocked : closed_ s = false → write_blocked_ s = true → kMinPendingBufferSize ≤ len (unsent s);
  i_waiting : closed_ s = false → waiting s = true → write_blocked_ s = true ∨ tcp_close_in_progress_ s = true;
  i_closing : closed_ s = false → tcp_close_in_progress_ s = true → buffer_queue_ s ≠ [] ∨ closers s ≠ [];
}.

Lemma new_session_inv : Inv new_TcpSession.
Proof. constructor; try done; [by exists []|]. intros _. by apply mode_idle. Qed.

Lemma queue_size s : GetBufferQueueSize s = len (concat (buffer_queue_ s)).
Proof.
  unfold GetBufferQueueSize. assert (Hgo : ∀ (q : list (list Z)) t, foldl (λ total b, total + len b) t q = t + len (concat q)).
  { induction q as [|b q IH]; intros t; cbn; [lia|]. rewrite IH, length_app. lia. }
  by rewrite Hgo.
Qed.

Lemma offset_le s : Inv s → 0 ≤ offset_ s ≤ len (concat (buffer_queue_ s)).
Proof.
  intros I. pose proof (i_offset s I). destruct (buffer_queue_ s) as [|h q]; cbn in *; [lia|]. rewrite length_app. lia.
Qed.

Lemma unsent_size s : Inv s → len (unsent s) = GetBufferQueueSize s - offset_ s.
Proof. intros I. pose proof (offset_le s I). rewrite queue_size. unfold unsent. rewrite length_drop. lia. Qed.

(** Data is taken. *)
Definition sent_to (data : list Z) (s s' : TcpSession) : Prop :=
  buffer_queue_ s' = buffer_queue_ s ++ [data] ∧ offset_ s' = offset_ s ∧ last_write_ s' = last_write_ s ∧
  established_ s' = established_ s ∧ closed_ s' = closed_ s ∧ tcp_close_in_progress_ s' = tcp_close_in_progress_ s ∧
  non_blocking s' = non_blocking s ∧ posted s' = (posted s + if decide (buffer_queue_ s = []) then 1 else 0)%nat ∧
  writing s' = writing s ∧ closers s' = closers s ∧ accepted s' = accepted s ++ data ∧ written s' = written s ∧
  observed s' = observed s.

Lemma unsent_app s s' data : Inv s → buffer_queue_ s' = buffer_queue_ s ++ [data] → offset_ s' = offset_ s →
  unsent s' = unsent s ++ data.
Proof.
  intros I Eq Eo. pose proof (offset_le s I). unfold unsent. rewrite Eq, Eo, concat_app. cbn. rewrite app_nil_r.
  rewrite drop_app_le; [done|lia].
Qed.

Lemma sent_to_inv data s s' : Inv s → closed_ s = false → sent_to data s s' →
  (write_blocked_ s' = true → write_blocked_ s = true ∨ kMinPendingBufferSize ≤ len (unsent s')) →
  (waiting s' = true → write_blocked_ s' = true ∨ tcp_close_in_progress_ s' = true) → Inv s'.
Proof.
  intros I Hc (Eq & Eo & El & Ee & Ec & Et & _ & Ep & Ew & Ecl & Ea & Er & _) Hb Hw.
  pose proof (unsent_app s s' data I Eq Eo) as Eu.
  assert (Hne : buffer_queue_ s' ≠ []) by (rewrite Eq; by destruct (buffer_queue_ s)).
  constructor.
  - rewrite Eq, Eo. pose proof (i_offset s I). destruct (buffer_queue_ s); cbn; [lia|done].
  - rewrite Ea, Er, Ew. destruct (i_prefix s I) as [rest ->]. exists (rest ++ data). by rewrite <- !app_assoc.
  - intros _. destruct (i_mode s I Hc) as [M1 M2 M3 M4 M5|M1 M2 M3 M4 M5|h q M1 M2 M3 M4 M5|M1 M2 M3 M4].
    + apply mode_posted; [done| |congruence|congruence|].
      * rewrite Ep, decide_True by done. lia.
      * assert (Hu : unsent s = []) by (unfold unsent; rewrite M1; apply drop_nil). by rewrite Eu, Er, Ea, M5, Hu.
    + apply mode_posted; [done| |congruence|congruence|]; [rewrite Ep, decide_False by done; lia|].
      by rewrite Eu, Er, Ea, app_assoc, M5.
    + apply (mode_writing s' h (q ++ [data])); [by rewrite Eq, M1| |by rewrite El, Eo|by rewrite Ew, El, Eo|].
      * rewrite Ep, decide_False by (by rewrite M1). lia.
      * by rewrite Eu, Er, Ea, app_assoc, M5.
    + apply mode_failed; [done| |congruence|congruence]. rewrite Ep, decide_False by done. lia.
  - rewrite Ec, Hc. done.
  - intros _ Hb'. destruct (Hb Hb') as [Hb0|]; [|done]. rewrite Eu, length_app. pose proof (i_blocked s I Hc Hb0). lia.
  - intros _. exact Hw.
  - intros _ _. by left.
Qed.

Lemma AsyncSend_ok data s n s' : Inv s → closed_ s = false → AsyncSend data s = (n, s') →
  sent_to data s s' ∧ waiting s' = waiting s ∧ (n = len data ∧ write_blocked_ s' = write_blocked_ s ∨
    n = 0 ∧ write_blocked_ s' = true ∧ kMaxPendingBufferSize < len (unsent s')).
Proof.
  intros I Hc. unfold AsyncSend. set (s1 := if negb (IsWritePending s) then _ else _).
  assert (H1 : sent_to data s s1 ∧ waiting s1 = waiting s ∧ write_blocked_ s1 = write_blocked_ s).
  { unfold s1, IsWritePending. destruct (buffer_queue_ s) as [|h q] eqn:Eq; cbn; (split; [|done]); unfold sent_to; cbn;
      rewrite Eq; split_and!; try done; (rewrite decide_True || rewrite decide_False); try done; lia. }
  destruct H1 as (H1 & Hw1 & Hb1). assert (Eo1 : offset_ s1 = offset_ s) by apply H1.
  assert (Hsz : GetBufferQueueSize s1 - offset_ s1 = len (unsent s1)).
  { pose proof (offset_le s I). rewrite queue_size. unfold unsent. rewrite length_drop.
    assert (Eq1 : buffer_queue_ s1 = buffer_queue_ s ++ [data]) by apply H1. rewrite Eq1, concat_app, length_app. lia. }
  rewrite Hsz. destruct (Z.ltb_spec kMaxPendingBufferSize (len (unsent s1))) as [Hlt|Hge]; intros [= <- <-].
  - destruct (write_blocked_ s1) eqn:Eb; (split; [exact H1|]); (split; [exact Hw1|]); right; done.
  - split; [exact H1|]. split; [exact Hw1|]. by left.
Qed.

Lemma Send_inv data s : Inv s → Inv (Send data s).2.
Proof.
  intros I. unfold Send, IsEstablishedLocked. destruct (established_ s) eqn:Ee; [|done]. cbn [andb].
  destruct (tcp_close_in_progress_ s) eqn:Et; [done|]. cbn [negb]. destruct (non_blocking s); [|done].
  assert (Hc : closed_ s = false) by (destruct (closed_ s) eqn:Ec; [by rewrite (i_closed s I Ec) in Ee|done]).
  destruct (AsyncSend data s) as [n s1] eqn:Es. destruct (AsyncSend_ok data s n s1 I Hc Es) as (H1 & Hw1 & Hn).
  assert (Hblk : write_blocked_ s1 = true → write_blocked_ s = true ∨ kMinPendingBufferSize ≤ len (unsent s1)).
  { destruct Hn as [[_ ->]|(_ & _ & Hk)]; [by left|right]. unfold kMaxPendingBufferSize, kMinPendingBufferSize in *. lia. }
  destruct (Z.eqb_spec n (len data)) as [->|Hne]; cbn [snd].
  - apply (sent_to_inv data s s1 I Hc H1 Hblk). rewrite Hw1. intros Hw.
    destruct (i_waiting s I Hc Hw) as [Hb|?]; [|congruence]. left. destruct Hn as [[_ ->]|(_ & ? & _)]; done.
  - destruct Hn as [[? _]|(-> & Hb & Hk)]; [done|].
    apply (sent_to_inv data s (with_blocked (write_blocked_ s1) true s1) I Hc H1 Hblk). intros _. by left.
Qed.

Hypothesis send_size_pos : 1 ≤ buffer_send_size_.

(** The next part of the first buffer is written. *)
Lemma Trigger_ok s h q : buffer_queue_ s = h :: q → 0 ≤ offset_ s ≤ len h → posted s = 0%nat → last_write_ s = 0 →
  written s ++ unsent s = accepted s → closed_ s = false →
  (write_blocked_ s = true → kMinPendingBufferSize ≤ len (unsent s)) →
  (waiting s = true → write_blocked_ s = true ∨ tcp_close_in_progress_ s = true) →
  ∃ last w, TriggerAsyncWrite s = Ret (with_writer (h :: q) (offset_ s) last (Some w) s) ∧
    Inv (with_writer (h :: q) (offset_ s) last (Some w) s).
Proof using send_size_pos.
  intros Eq Ho Hp Hl Hs Hc Hb Hw. unfold TriggerAsyncWrite. rewrite Hl, Eq. cbn [Z.eqb assert_that mbind outcome_mbind].
  eexists _, _. split; [done|]. constructor; cbn; try done.
  - unfold unsent in Hs. rewrite Eq in Hs. cbn in Hs. rewrite drop_app_le in Hs by lia.
    eexists. rewrite <- Hs. f_equal. rewrite <- (take_drop (Z.to_nat (Z.min buffer_send_size_ (len h - offset_ s))) (drop (Z.to_nat (offset_ s)) h)) at 1.
    by rewrite <- app_assoc.
  - intros _. apply (mode_writing _ h q); cbn; try done. unfold unsent in *. cbn. by rewrite Eq in Hs.
  - congruence.
  - intros _ Hblk. specialize (Hb Hblk). unfold unsent in *. cbn. by rewrite Eq in Hb.
  - intros _ _. by left.
Qed.

Lemma strand_ok s n : Inv s → posted s = S n →
  ∃ s', AsyncWriteInternal (with_pending n (closers s) (observed s) s) = Ret s' ∧ Inv s' ∧
    (closed_ s = false → closed_ s' = false ∧ accepted s' = accepted s ∧ posted s' = n ∧ unsent s' = unsent s ∧
      buffer_queue_ s' = buffer_queue_ s ∧ closers s' = closers s ∧ tcp_close_in_progress_ s' = tcp_close_in_progress_ s).
Proof using send_size_pos.
  intros I Hp. unfold AsyncWriteInternal. cbn [closed_ with_pending]. destruct (closed_ s) eqn:Hc.
  { eexists. split; [done|]. split; [|done]. destruct I. constructor; cbn; try done; congruence. }
  destruct (i_mode s I Hc) as [? M2|M1 M2 M3 M4 M5|h q ? M2|? M2]; try congruence.
  assert (n = 0%nat) as -> by lia. destruct (buffer_queue_ s) as [|h q] eqn:Eq; [done|].
  pose proof (i_offset s I) as Ho. rewrite Eq in Ho.
  destruct (Trigger_ok (with_pending 0 (closers s) (observed s) s) h q) as (last & w & -> & I'); cbn; try done.
  - intros Hb. by apply (i_blocked s I Hc).
  - by apply (i_waiting s I Hc).
  - eexists. split; [done|]. split; [done|]. intros _. unfold unsent. cbn. by rewrite Eq.
Qed.

(** What the completion of a write does to the queue. *)
Lemma Update_ok s bs : Inv s → closed_ s = false → writing s = Some bs →
  ∃ s' send_ready, UpdateBufferQueue (len bs) (complete (len bs) bs s) = Ret (IsWritePending s', send_ready, s') ∧
    writing s' = None ∧ posted s' = 0%nat ∧ last_write_ s' = 0 ∧ closed_ s' = false ∧ written s' ++ unsent s' = accepted s' ∧
    match buffer_queue_ s' with [] => offset_ s' = 0 | h :: _ => 0 ≤ offset_ s' ≤ len h end ∧
    (write_blocked_ s' = true → kMinPendingBufferSize ≤ len (unsent s')) ∧
    (waiting s' = true → send_ready = false → write_blocked_ s' = true ∨ tcp_close_in_progress_ s' = true) ∧
    tcp_close_in_progress_ s' = tcp_close_in_progress_ s ∧ closers s' = closers s ∧ established_ s' = established_ s ∧
    (write_blocked_ s' = true → send_ready = false) ∧
    (length (unsent s') + length (buffer_queue_ s') < length (unsent s) + length (buffer_queue_ s))%nat ∧
    accepted s' = accepted s.
Proof using send_size_pos.
  intros I Hc Hw. destruct (i_mode s I Hc) as [|? ? M3|h q M1 M2 M3 M4 M5|? ? M3]; try congruence.
  pose proof (i_offset s I) as Ho. rewrite M1 in Ho. assert (bs = take (Z.to_nat (last_write_ s)) (drop (Z.to_nat (offset_ s)) h)) as Ebs by congruence.
  assert (Hlen : len bs = last_write_ s) by (rewrite Ebs, length_take, length_drop; lia).
  set (s0 := complete (len bs) bs s).
  assert (Hw0 : written s0 = written s ++ bs) by (cbn; by rewrite Nat2Z.id, firstn_all).
  assert (Hu : unsent s = drop (Z.to_nat (offset_ s)) h ++ concat q) by (unfold unsent; rewrite M1; cbn; by rewrite drop_app_le by lia).
  set (s1 := if offset_ s0 + len bs =? len h then with_writer q 0 0 (writing s0) s0 else with_writer (h :: q) (offset_ s0 + len bs) 0 (writing s0) s0).
  assert (Hu1 : unsent s = bs ++ unsent s1).
  { rewrite Hu. unfold s1. cbn [offset_ s0 complete with_bytes with_writer]. destruct (Z.eqb_spec (offset_ s + len bs) (len h)) as [E|Hne]; unfold unsent; cbn.
    - rewrite drop_0, Ebs, take_ge; [done|]. rewrite length_drop. lia.
    - rewrite drop_app_le by lia. rewrite app_assoc. f_equal. rewrite Ebs at 1.
      replace (Z.to_nat (offset_ s + len bs)) with (Z.to_nat (offset_ s) + Z.to_nat (last_write_ s))%nat by lia.
      by rewrite <- drop_drop, take_drop. }
  assert (Hs1 : written s1 ++ unsent s1 = accepted s1).
  { assert (Ew : written s1 = written s ++ bs) by (unfold s1; by destruct (_ =? _)).
    assert (Ea : accepted s1 = accepted s) by (unfold s1; by destruct (_ =? _)). by rewrite Ew, Ea, <- app_assoc, <- Hu1. }
  assert (Ho1 : match buffer_queue_ s1 with [] => offset_ s1 = 0 | h :: _ => 0 ≤ offset_ s1 ≤ len h end).
  { unfold s1. cbn [offset_ s0 complete with_bytes with_writer]. destruct (Z.eqb_spec (offset_ s + len bs) (len h)); cbn; [destruct q; lia|lia]. }
  assert (Hsz : GetBufferQueueSize s1 - offset_ s1 = len (unsent s1)).
  { rewrite queue_size. unfold unsent. rewrite length_drop. destruct (buffer_queue_ s1); cbn in *; [lia|]. rewrite length_app. lia. }
  assert (Hm : (length (unsent s1) + length (buffer_queue_ s1) < length (unsent s) + length (buffer_queue_ s))%nat).
  { rewrite Hu1, length_app, M1. unfold s1. cbn [offset_ s0 complete with_bytes with_writer].
    destruct (Z.eqb_spec (offset_ s + len bs) (len h)) as [E|Hne]; cbn [buffer_queue_ with_writer length]; [lia|].
    assert (last_write_ s ≠ 0) by lia. lia. }
  assert (Hrest : posted s1 = 0%nat ∧ writing s1 = None ∧ last_write_ s1 = 0 ∧ closed_ s1 = false ∧ write_blocked_ s1 = write_blocked_ s ∧
    waiting s1 = waiting s ∧ tcp_close_in_progress_ s1 = tcp_close_in_progress_ s ∧ closers s1 = closers s ∧ established_ s1 = established_ s ∧ accepted s1 = accepted s).
  { unfold s1. destruct (_ =? _); by split_and!. }
  destruct Hrest as (R1 & R2 & R3 & R4 & R5 & R6 & R7 & R8 & R9 & R10).
  unfold UpdateBufferQueue. change (last_write_ s0) with (last_write_ s). rewrite Hlen, Z.eqb_refl. cbn [assert_that mbind outcome_mbind].
  change (buffer_queue_ s0) with (buffer_queue_ s). rewrite M1. rewrite <- Hlen. fold s1. rewrite Hsz, R5.
  set (ready := write_blocked_ s && (len (unsent s1) <? kMinPendingBufferSize)).
  exists (if ready then with_blocked false (waiting s1) s1 else s1), ready. split; [done|].
  assert (Hready : ready = false → write_blocked_ s = true → kMinPendingBufferSize ≤ len (unsent s1)).
  { unfold ready. intros H1 H2. rewrite H2 in H1. cbn in H1. lia. }
  destruct ready eqn:Er; (split_and!; cbn; try done); rewrite ?R5, ?R6, ?R7; rewrite M1 in Hm; try done.
  - intros Hb. by apply Hready.
  - intros Hwt _. by apply (i_waiting s I Hc).
Qed.

Lemma session_eta s : with_pending (posted s) (closers s) (observed s) (with_blocked (write_blocked_ s) (waiting s) s) = s.
Proof. by destruct s. Qed.

Lemma Trigger_blocked s wt : TriggerAsyncWrite (with_blocked (write_blocked_ s) wt s) =
  (s' ← TriggerAsyncWrite s; Ret (with_blocked (write_blocked_ s') wt s')).
Proof. unfold TriggerAsyncWrite. cbn. destruct (_ =? _); [|done]. cbn. by destruct (buffer_queue_ s). Qed.

(** A write completes. *)
Lemma done_ok s bs : Inv s → writing s = Some bs →
  ∃ s', AsyncWriteHandler no_error (len bs) (complete (len bs) bs s) = Ret s' ∧ Inv s' ∧
    (closed_ s = false → closed_ s' = false ∧ accepted s' = accepted s ∧ posted s' = 0%nat ∧
      tcp_close_in_progress_ s' = tcp_close_in_progress_ s ∧ (buffer_queue_ s' = [] ∨ closers s' = closers s) ∧
      (length (unsent s') + length (buffer_queue_ s') < length (unsent s) + length (buffer_queue_ s))%nat).
Proof using send_size_pos.
  intros I Hw. unfold AsyncWriteHandler. change (closed_ (complete (len bs) bs s)) with (closed_ s). destruct (closed_ s) eqn:Hc.
  { eexists. split; [done|]. split; [|done]. destruct (i_prefix s I) as [rest Hr]. rewrite Hw in Hr. cbn in Hr. destruct I.
    constructor; cbn; try done; try congruence. exists rest. by rewrite Nat2Z.id, firstn_all, <- app_assoc. }
  destruct (Update_ok s bs I Hc Hw) as (s1 & ready & -> & W1 & P1 & L1 & C1 & S1 & O1 & B1 & T1 & X1 & X2 & X3 & X4 & M1 & A1).
  cbn [mbind outcome_mbind]. unfold IsWritePending. destruct (buffer_queue_ s1) as [|h q] eqn:Eq; cbn [length Nat.eqb negb].
  - assert (Hun : unsent s1 = []) by (unfold unsent; rewrite Eq; apply drop_nil). rewrite Hun, app_nil_r in S1.
    assert (Hb : write_blocked_ s1 = false).
    { destruct (write_blocked_ s1); [|done]. specialize (B1 eq_refl). rewrite Hun in B1. done. }
    assert (Hinv : ∀ cs wt, (tcp_close_in_progress_ s1 = true → cs ≠ []) → (wt = true → tcp_close_in_progress_ s1 = true) →
      Inv (with_pending (posted s1) cs (observed s1) (with_blocked (write_blocked_ s1) wt s1))).
    { intros cs wt Hcs Hwt. constructor; cbn; try congruence; rewrite ?Eq; try done.
      - exists []. by rewrite W1, S1, app_nil_r.
      - intros _. apply mode_idle; cbn; congruence.
      - intros _ Hwt'. right. by apply Hwt.
      - intros _ Hp. right. by apply Hcs. }
    assert (Hmeas : ∀ cs wt, let s' := with_pending (posted s1) cs (observed s1) (with_blocked (write_blocked_ s1) wt s1) in
      closed_ s' = false ∧ accepted s' = accepted s ∧ posted s' = 0%nat ∧ tcp_close_in_progress_ s' = tcp_close_in_progress_ s ∧
      (buffer_queue_ s' = [] ∨ closers s' = closers s) ∧ (length (unsent s') + length (buffer_queue_ s') < length (unsent s) + length (buffer_queue_ s))%nat).
    { intros cs wt s'. split_and!; try done; [by left|]. cbn [buffer_queue_ s' with_pending with_blocked]. rewrite Eq. exact M1. }
    destruct (tcp_close_in_progress_ s1) eqn:Et.
    + eexists. split; [done|]. split; [|intros _; apply (Hmeas (closers s1 ++ [true]) (waiting s1))].
      apply (Hinv (closers s1 ++ [true]) (waiting s1)); [|done]. by destruct (closers s1).
    + destruct ready.
      * eexists. split; [done|]. split; [|intros _; apply (Hmeas (closers s1) false)]. by apply (Hinv (closers s1) false).
      * pose proof (Hinv (closers s1) (waiting s1)) as Hi. pose proof (Hmeas (closers s1) (waiting s1)) as Hmm.
        rewrite session_eta in Hi, Hmm. exists s1. split; [done|]. split; [|done]. apply Hi; [done|].
        intros Hwt. destruct (T1 Hwt eq_refl); congruence.
  - assert (Hgo : ∀ wt, (wt = true → write_blocked_ s1 = true ∨ tcp_close_in_progress_ s1 = true) →
      ∃ s2, TriggerAsyncWrite (with_blocked (write_blocked_ s1) wt s1) = Ret s2 ∧ Inv s2 ∧ closed_ s2 = false ∧ accepted s2 = accepted s ∧
        posted s2 = 0%nat ∧ tcp_close_in_progress_ s2 = tcp_close_in_progress_ s ∧ (buffer_queue_ s2 = [] ∨ closers s2 = closers s) ∧
        (length (unsent s2) + length (buffer_queue_ s2) < length (unsent s) + length (buffer_queue_ s))%nat).
    { intros wt Hwt. destruct (Trigger_ok (with_blocked (write_blocked_ s1) wt s1) h q) as (last & w & -> & I2); cbn; try done.
      eexists. split; [done|]. split; [done|]. split_and!; try done; [by right|]. cbn. unfold unsent in *. cbn. by rewrite Eq in M1. }
    destruct ready.
    + destruct (Hgo false ltac:(done)) as (s2 & E2 & H2). rewrite Trigger_blocked in E2. apply outcome_bind_ret in E2 as (s3 & -> & [= <-]).
      eexists. split; [done|]. split; [apply H2|]. intros _. apply H2.
    + destruct (Hgo (waiting s1)) as (s2 & E2 & H2); [intros Hwt; by apply T1|].
      replace (with_blocked (write_blocked_ s1) (waiting s1) s1) with s1 in E2 by (by destruct s1). rewrite E2.
      eexists. split; [done|]. split; [apply H2|]. intros _. apply H2.
Qed.

(** A write fails; the session is about to be closed. *)
Lemma failed_inv s bs wrote : Inv s → writing s = Some bs → 0 ≤ wrote ≤ len bs →
  Inv (with_pending (posted s) (closers s ++ [true]) (observed s) (complete wrote bs s)).
Proof.
  intros I Hw Hn. destruct (i_prefix s I) as [rest Hr]. rewrite Hw in Hr. cbn in Hr. pose proof I as [].
  constructor; cbn; try done.
  - exists (drop (Z.to_nat wrote) bs ++ rest). rewrite Hr, <- app_assoc. f_equal. by rewrite app_assoc, take_drop.
  - intros Hc. destruct (i_mode0 Hc) as [|? ? M3|h q M1 M2|? ? M3]; try congruence.
    apply mode_failed; cbn; [by rewrite M1|done|done|]. apply elem_of_app. right. by left.
  - intros Hc Ht. right. by destruct (closers s).
Qed.

Lemma Close_inv s : Inv s → Inv (Close s).
Proof.
  intros I. unfold Close, IsWritePending. destruct (closed_ s) eqn:Hc; [done|]. pose proof I as [].
  destruct (buffer_queue_ s) as [|h q] eqn:Eq; cbn [length Nat.eqb negb]; constructor; cbn; rewrite ?Eq; try done.
  - intros _. destruct (i_mode0 Hc) as [M1 M2 M3 M4 M5|M1|? ? M1|M1]; [by apply mode_idle|congruence..].
  - intros _ _. right. by destruct (closers s).
  - intros _. destruct (i_mode0 Hc) as [M1|M1 M2 M3 M4 M5|h' q' M1 M2 M3 M4 M5|M1 M2 M3 M4]; [congruence|by apply mode_posted| |by apply mode_failed].
    by apply (mode_writing _ h' q').
  - intros _ Hb. by apply i_blocked0.
  - intros _ _. by right.
  - intros _ _. by left.
Qed.

Lemma CloseInternal_inv s c cs : Inv s → Inv (CloseInternal c (with_pending (posted s) cs (observed s) s)).
Proof.
  intros []. unfold CloseInternal. cbn. destruct (established_ s) eqn:Ee; cbn; [destruct c|]; constructor; cbn; try done; congruence.
Qed.

Lemma state_inv s b nb : Inv s → (closed_ s = true → b = false) →
  Inv (with_state b (closed_ s) (tcp_close_in_progress_ s) nb s).
Proof.
  intros [] Hb. constructor; cbn; try done. intros Hc.
  destruct (i_mode0 Hc) as [M1 M2 M3 M4 M5|M1 M2 M3 M4 M5|h' q' M1 M2 M3 M4 M5|M1 M2 M3 M4];
    [by apply mode_idle|by apply mode_posted|by apply (mode_writing _ h' q')|by apply mode_failed].
Qed.

Lemma session_step_ok s l r : Inv s → step s l r → ∃ s', r = Ret s' ∧ Inv s'.
Proof using send_size_pos.
  intros I Hst. inversion Hst; subst.
  - eexists. split; [done|]. apply state_inv; [done|congruence].
  - eexists. split; [done|]. apply state_inv; [done|apply I].
  - eexists. split; [done|]. by apply Send_inv.
  - destruct (strand_ok s n I H) as (s' & -> & ? & _). by exists s'.
  - destruct (done_ok s bs I H) as (s' & -> & ? & _). by exists s'.
  - eexists. split; [done|]. by apply (failed_inv s bs wrote).
  - eexists. split; [done|]. by apply Close_inv.
  - eexists. split; [done|]. by apply CloseInternal_inv.
Qed.

Lemma session_reachable_inv s : reachable s → Inv s.
Proof using send_size_pos.
  induction 1 as [|s l s' _ IH Hst]; [apply new_session_inv|]. destruct (session_step_ok s l _ IH Hst) as (? & [= ->] & ?). done.
Qed.

(** In every interleaving of senders, of threads that close, of the strand and of the
    completions of the socket, no assertion of the writer fails: never are two writes in
    progress, a write is started only with data to write, and a completion finds the
    buffer it belongs to.  The bytes the socket took are always a prefix of the bytes
    that [Send] accepted, in order, each once. *)
Theorem tcp_send_safe s l r : reachable s → step s l r →
  ∃ s', r = Ret s' ∧ ∃ rest, accepted s' = written s' ++ rest.
Proof using send_size_pos.
  intros I%session_reachable_inv Hst. destruct (session_step_ok s l r I Hst) as (s' & -> & I'). exists s'. split; [done|].
  destruct (i_prefix s' I') as [rest ->]. by eexists.
Qed.

(** ** The queue is drained *)

(** At most [n] steps of the strand and of the socket, without errors *)
Fixpoint flush (n : nat) (s : TcpSession) : outcome TcpSession :=
  match n with
  | O => Ret s
  | S n =>
      match posted s, writing s with
      | S p, _ => s ← AsyncWriteInternal (with_pending p (closers s) (observed s) s); flush n s
      | O, Some bs => s ← AsyncWriteHandler no_error (len bs) (complete (len bs) bs s); flush n s
      | O, None => Ret s
      end
  end.

Definition effort (s : TcpSession) : nat := (posted s + length (unsent s) + length (buffer_queue_ s))%nat.

Lemma tcp_flush_ok n s : Inv s → closed_ s = false → buffer_queue_ s = [] ∨ closers s = [] → (effort s ≤ n)%nat →
  ∃ s', flush n s = Ret s' ∧ Inv s' ∧ closed_ s' = false ∧ buffer_queue_ s' = [] ∧ accepted s' = accepted s ∧
    tcp_close_in_progress_ s' = tcp_close_in_progress_ s.
Proof using send_size_pos.
  revert s. induction n as [|n IH]; intros s I Hc Hcl Hn.
  { exists s. unfold effort in Hn. destruct (buffer_queue_ s); cbn in Hn; [by split_and!|lia]. }
  cbn [flush]. destruct (posted s) as [|p] eqn:Ep.
  - destruct (writing s) as [bs|] eqn:Ew.
    + destruct (done_ok s bs I Ew) as (s1 & -> & I1 & H1). cbn [mbind outcome_mbind]. destruct (H1 Hc) as (C1 & A1 & P1 & T1 & Q1 & M1).
      destruct (IH s1 I1 C1) as (s2 & -> & ? & ? & ? & A2 & T2); [|unfold effort in *; lia|exists s2; split_and!; try done; congruence].
      destruct Q1 as [?|Q1]; [by left|]. destruct (i_mode s I Hc) as [? ? M3|? ? M3|h q M2|? ? M3]; try congruence.
      destruct Hcl as [?|Hcl]; [congruence|]. right. congruence.
    + exists s. destruct (i_mode s I Hc) as [M1|? M2|h q ? ? ? M4|M1 ? ? M4]; try congruence; [by split_and!|].
      destruct Hcl as [?|Hcl]; [done|]. rewrite Hcl in M4. by apply elem_of_nil in M4.
  - destruct (strand_ok s p I Ep) as (s1 & -> & I1 & H1). cbn [mbind outcome_mbind]. destruct (H1 Hc) as (C1 & A1 & P1 & U1 & Q1 & X1 & T1).
    destruct (IH s1 I1 C1) as (s2 & -> & ? & ? & ? & A2 & T2); [by rewrite Q1, X1|unfold effort in *; rewrite P1, U1, Q1; lia|].
    exists s2. split_and!; try done; congruence.
Qed.

End Session.

(** ** A session that sends two messages, two bytes at a time, and is closed *)

Definition demo0 : TcpSession := SetSocketOptions (SessionEstablished new_TcpSession).
Definition demo1 : TcpSession := (Send [4] (Send [1; 2; 3] demo0).2).2.
Definition demo2 : TcpSession := Close demo1.

Lemma tcp_demo_reachable : reachable 2 demo2.
Proof.
  apply (reach_step 2 demo1 LClose); [|apply step_close].
  apply (reach_step 2 (Send [1; 2; 3] demo0).2 (LSend [4])); [|apply step_send].
  apply (reach_step 2 demo0 (LSend [1; 2; 3])); [|apply step_send].
  apply (reach_step 2 (SessionEstablished new_TcpSession) LOptions); [|apply step_options].
  apply (reach_step 2 new_TcpSession LEstablished); [constructor|by apply step_established].
Qed.

Lemma tcp_send_safe_witness : ∃ s', AsyncWriteInternal 2 (with_pending 0 [] 0 demo2) = Ret s' ∧
  ∃ rest, accepted s' = written s' ++ rest.
Proof.
  apply (tcp_send_safe 2 ltac:(lia) demo2 LStrand); [exact tcp_demo_reachable|]. apply (step_strand 2 demo2 0). reflexivity.
Defined.


(** ** Where the code falls short *)

(** The errors [IsSocketErrorHard] lets pass end the asynchronous write as well: the
    handler then finds fewer bytes written than it asked for. *)
Lemma soft_error_aborts : ∃ s, AsyncWriteInternal 2 (with_pending 0 [] 0 demo1) = Ret s ∧ writing s = Some [1; 2] ∧
  AsyncWriteHandler 2 soft_error 1 (complete 1 [1; 2] s) = Abort.
Proof. eexists. split; [vm_compute; reflexivity|]. split; vm_compute; reflexivity. Qed.

(** Between [SessionEstablished] and [SetSocketOptions] of [Connected] the socket still
    blocks: [Send] answers true and drops the data. *)
Lemma send_before_options_lost : Send [1; 2; 3] (SessionEstablished new_TcpSession) = (true, SessionEstablished new_TcpSession).
Proof. reflexivity. Qed.

End TS.
