(* ===== verification/TcpServer.v ===== *)
(** * TCP servers: src/io/tcp_server.cc, tcp_server.h, and the closing of sessions in
      src/io/tcp_session.cc

    A [TcpServer] owns its sessions through [session_ref_] and finds those that are
    connected through [session_map_], a multimap from the remote endpoint.  Sessions are
    accepted and connected by the thread of the event manager, and closed, deleted and
    cleared by any thread.

    A thread runs a list of sections; each section holds the mutex of the server or of a
    session and is one step.  While a session is accepted the server's mutex is held across
    the call of [AcceptSession], when the session becomes known to others.  A failed
    assertion is [Abort].  What asio and the application do is the labels of the step
    relation. *)

From stdpp Require Import gmap list.
From S2P Require Import Prelude.
Open Scope Z_scope.

Module TSV.

Section Server.
Context {EP : Type} `{!EqDecision EP} (ep0 : EP).    (* [Endpoint], and [Endpoint()] *)

(** What the server and the closing of a session look at *)
Record TcpSession := mkSession {
  established_ : bool;
  closed_ : bool;
  tcp_close_in_progress_ : bool;
  write_pending : bool;            (* [writer_->IsWritePending()] *)
  remote_ : EP;
}.

(** Sections of code *)
Inductive op :=
| OClose (x : nat)                              (* [Close] *)
| OCloseInternal (x : nat)                      (* [CloseInternal(ec, _, true)] *)
| OOnSessionClose (x : nat)                     (* its call of [OnSessionClose] *)
| OErase (x : nat)                              (* [DeleteSession], after [Close] *)
| OInsert (x : nat) (remote : EP)               (* [ConnectHandlerComplete] *)
| OConnected (x : nat) (remote : EP)            (* ... [session->Connected(remote)] *)
| OUndo (x : nat) (remote : EP)                 (* ... after [Connected] returned false *)
| OAcceptEnd (x : nat) (remote : EP)            (* [AcceptHandlerComplete], after [AcceptSession] *)
| OClear                                        (* [ClearSessions] *)
| OWake.                                        (* ... its end *)

Record TcpServer := mkServer {
  sessions : gmap nat TcpSession;
  session_ref_ : gset nat;
  session_map_ : list (EP * nat);
  acceptor_ : bool;                             (* is there one *)
  mutex_ : bool;                                (* held by [AcceptHandlerComplete] *)
  connecting : list nat;                        (* outstanding [async_connect]s *)
  threads : list (list op);
  waiting : bool;                               (* a thread sleeps in [WaitForEmpty] *)
}.

Definition new_TcpServer : TcpServer := mkServer ∅ ∅ [] false false [] [] false.

Definition with_sessions (m : gmap nat TcpSession) (s : TcpServer) : TcpServer :=
  mkServer m (session_ref_ s) (session_map_ s) (acceptor_ s) (mutex_ s) (connecting s) (threads s) (waiting s).
Definition with_refs (r : gset nat) (m : list (EP * nat)) (s : TcpServer) : TcpServer :=
  mkServer (sessions s) r m (acceptor_ s) (mutex_ s) (connecting s) (threads s) (waiting s).
Definition with_mutex (b : bool) (s : TcpServer) : TcpServer :=
  mkServer (sessions s) (session_ref_ s) (session_map_ s) (acceptor_ s) b (connecting s) (threads s) (waiting s).
Definition with_threads (l : list (list op)) (s : TcpServer) : TcpServer :=
  mkServer (sessions s) (session_ref_ s) (session_map_ s) (acceptor_ s) (mutex_ s) (connecting s) l (waiting s).
Definition with_connecting (l : list nat) (s : TcpServer) : TcpServer :=
  mkServer (sessions s) (session_ref_ s) (session_map_ s) (acceptor_ s) (mutex_ s) l (threads s) (waiting s).
Definition with_acceptor (b w : bool) (s : TcpServer) : TcpServer :=
  mkServer (sessions s) (session_ref_ s) (session_map_ s) b (mutex_ s) (connecting s) (threads s) w.

Definition get (x : nat) (s : TcpServer) : outcome TcpSession :=
  match sessions s !! x with Some y => Ret y | None => Abort end.
Definition put (x : nat) (y : TcpSession) (s : TcpServer) : TcpServer := with_sessions (<[x := y]> (sessions s)) s.

(** [if (session_ref_.empty() && session_map_.empty()) cond_var_.notify_all();] *)
Definition is_empty (s : TcpServer) : bool := bool_decide (session_ref_ s = ∅) && bool_decide (session_map_ s = []).
Definition notify_if_empty (s : TcpServer) : TcpServer :=
  with_acceptor (acceptor_ s) (if is_empty s then false else waiting s) s.

(** ** The maps *)

Definition InsertSessionToMap (remote : EP) (x : nat) (s : TcpServer) : TcpServer :=
  with_refs (session_ref_ s) (session_map_ s ++ [(remote, x)]) s.

Fixpoint remove_first (e : EP * nat) (l : list (EP * nat)) : bool * list (EP * nat) :=
  match l with
  | [] => (false, [])
  | e' :: l => if decide (e' = e) then (true, l) else let '(b, l) := remove_first e l in (b, e' :: l)
  end.
Definition RemoveSessionFromMap (remote : EP) (x : nat) (s : TcpServer) : bool * TcpServer :=
  let '(found, m) := remove_first (remote, x) (session_map_ s) in (found, with_refs (session_ref_ s) m s).

Definition OnSessionClose (x : nat) (s : TcpServer) : outcome TcpServer :=
  if bool_decide (session_map_ s = []) then Ret s
  else
    y ← get x s;
    let '(found, s) := RemoveSessionFromMap (remote_ y) x s in
    let s := notify_if_empty s in
    assert_that found;;
    Ret s.

(** [session->refcount_]: held by [session_ref_], or by the handler of a write *)
Definition referenced (x : nat) (y : TcpSession) (s : TcpServer) : bool :=
  bool_decide (x ∈ session_ref_ s) || write_pending y.

Definition DeleteSession_erase (x : nat) (s : TcpServer) : outcome TcpServer :=
  y ← get x s;
  assert_that (referenced x y s);;
  Ret (notify_if_empty (with_refs (session_ref_ s ∖ {[x]}) (session_map_ s) s)).

Definition GetSession (remote : EP) (s : TcpServer) : option nat :=
  snd <$> List.find (λ e, bool_decide (e.1 = remote)) (session_map_ s).
Definition HasSessions (s : TcpServer) : bool := negb (bool_decide (session_map_ s = [])).
Definition GetSessionCount (s : TcpServer) : nat := size (session_ref_ s).

(** ** Closing a session *)

(** What [Close] does next *)
Definition Close (x : nat) (s : TcpServer) : outcome (list op * TcpServer) :=
  y ← get x s;
  if closed_ y then Ret ([], s)
  else if write_pending y then
    Ret ([], put x (mkSession (established_ y) (closed_ y) true (write_pending y) (remote_ y)) s)
  else Ret ([OCloseInternal x], s).

(** [CloseInternal], up to the call of the server *)
Definition CloseInternal (x : nat) (notify_server : bool) (s : TcpServer) : outcome (list op * TcpServer) :=
  y ← get x s;
  let s := put x (mkSession false true false (write_pending y) (remote_ y)) s in
  Ret (if established_ y && notify_server then [OOnSessionClose x] else [], s).

(** [TcpSession::Connected]: false if the session was closed *)
Definition Connected (x : nat) (remote : EP) (s : TcpServer) : outcome (bool * TcpServer) :=
  y ← get x s;
  if closed_ y then Ret (false, s)
  else Ret (true, put x (mkSession true (closed_ y) (tcp_close_in_progress_ y) (write_pending y) remote) s).

(** ** Sections *)

(** Those under the mutex of the server *)
Definition locks (o : op) : bool :=
  match o with OOnSessionClose _ | OErase _ | OInsert _ _ | OUndo _ _ | OClear => true | _ => false end.

Definition run (o : op) (s : TcpServer) : outcome (list op * TcpServer) :=
  match o with
  | OClose x => Close x s
  | OCloseInternal x => CloseInternal x true s
  | OOnSessionClose x => s ← OnSessionClose x s; Ret ([], s)
  | OErase x => s ← DeleteSession_erase x s; Ret ([], s)
  | OInsert x remote => Ret ([OConnected x remote], InsertSessionToMap remote x s)
  | OConnected x remote =>
      '(ok, s) ← Connected x remote s; Ret (if (ok : bool) then [] else [OUndo x remote], s)
  | OUndo x remote => Ret ([], (RemoveSessionFromMap remote x s).2)
  | OAcceptEnd x remote =>
      Ret ([], with_mutex false (InsertSessionToMap remote x (with_refs (session_ref_ s ∪ {[x]}) (session_map_ s) s)))
  | OClear => Ret (map OClose (elements (session_ref_ s)) ++ [OWake], with_refs ∅ (session_map_ s) s)
  | OWake => Ret ([], notify_if_empty s)
  end.

(** [DeleteSession], [Close], [ClearSessions] and [ConnectHandlerComplete], as their sections *)
Definition DeleteSession (x : nat) : list op := [OClose x; OErase x].
Definition ClearSessions : list op := [OClear].
Definition ConnectHandlerComplete (x : nat) (remote : EP) : list op := [OInsert x remote].

Definition CreateSession (x : nat) (s : TcpServer) : TcpServer :=
  with_refs (session_ref_ s ∪ {[x]}) (session_map_ s) (put x (mkSession false false false false ep0) s).

(** [AcceptHandlerComplete] of a session that was made, up to the result of [AcceptSession].  The
    session that is not accepted was not shown to anyone: it is closed in this step. *)
Definition AcceptHandler (x : nat) (remote : EP) (accepted : bool) (s : TcpServer) : outcome TcpServer :=
  let s := put x (mkSession true false false false remote) s in
  if accepted then Ret (with_mutex true (with_threads ([OAcceptEnd x remote] :: threads s) s))
  else '(_, s) ← CloseInternal x false s; Ret s.

(** ... with its errors: of the accept itself, without a remote endpoint, after [Shutdown],
    without a session, or when its options cannot be set.  Then nothing is kept; a session
    is closed and destroyed with its last pointer. *)
Definition AcceptHandlerInternal (error no_remote no_session no_options : bool) (x : nat) (remote : EP) (accepted : bool)
    (s : TcpServer) : outcome TcpServer :=
  if error || no_remote then Ret s
  else if negb (acceptor_ s) then Ret s
  else if no_session || no_options then Ret s
  else AcceptHandler x remote accepted s.

(** [Shutdown], [WaitForEmpty] as it goes to sleep, and the destructor *)
Definition Shutdown (s : TcpServer) : TcpServer := with_acceptor false (waiting s) s.
Definition WaitForEmpty (s : TcpServer) : TcpServer := with_acceptor (acceptor_ s) (negb (is_empty s)) s.
Definition destroy_TcpServer (s : TcpServer) : outcome unit :=
  assert_that (negb (acceptor_ s));; assert_that (bool_decide (session_ref_ s = ∅));;
  assert_that (bool_decide (session_map_ s = [])).

(** [InitializeInternal]: which of the calls of the acceptor fail *)
Record acceptor_calls := mkCalls { open_fails : bool; reuse_fails : bool; bind_fails : bool; local_fails : bool; listen_fails : bool }.
Definition InitializeInternal (c : acceptor_calls) (s : TcpServer) : bool * TcpServer :=
  if open_fails c || reuse_fails c || bind_fails c || local_fails c || listen_fails c
  then (false, with_acceptor false (waiting s) s) else (true, with_acceptor true (waiting s) s).

(** ** Executions *)

Definition ops (s : TcpServer) : list op := concat (threads s).

(** A session that others know *)
Definition published (x : nat) (s : TcpServer) : Prop := x ∈ session_ref_ s ∨ ∃ remote, OAcceptEnd x remote ∈ ops s.

Inductive label :=
| LInitialize (c : acceptor_calls)
| LAccept (x : nat) (remote : EP) (accepted : bool)
| LCreate (x : nat) | LConnect (x : nat) | LConnectFail (x : nat) | LConnectDone (x : nat) (remote : EP)
| LClose (x : nat) | LError (x : nat) | LDelete (x : nat)
| LWrite (x : nat) | LWriteDone (x : nat)
| LClear | LShutdown | LWait
| LThread (i : nat).

Definition spawn (l : list op) (s : TcpServer) : TcpServer := with_threads (threads s ++ [l]) s.

(** A session may be connected once at a time; it is deleted once, and not while all
    sessions are cleared. *)
Inductive step : TcpServer → label → outcome TcpServer → Prop :=
| step_initialize s c : step s (LInitialize c) (Ret (InitializeInternal c s).2)
| step_accept s e1 e2 e3 e4 x remote b : mutex_ s = false → sessions s !! x = None →
    step s (LAccept x remote b) (AcceptHandlerInternal e1 e2 e3 e4 x remote b s)
| step_create s x : sessions s !! x = None → mutex_ s = false → step s (LCreate x) (Ret (CreateSession x s))
| step_connect s x y : x ∈ session_ref_ s → sessions s !! x = Some y → established_ y = false → x ∉ connecting s →
    (∀ r, (OInsert x r ∉ ops s) ∧ (OConnected x r ∉ ops s)) →
    step s (LConnect x) (Ret (with_connecting (x :: connecting s) s))
| step_connect_fail s x l1 l2 : connecting s = l1 ++ x :: l2 → step s (LConnectFail x) (Ret (with_connecting (l1 ++ l2) s))
| step_connect_done s x remote l1 l2 : connecting s = l1 ++ x :: l2 →
    step s (LConnectDone x remote) (Ret (spawn (ConnectHandlerComplete x remote) (with_connecting (l1 ++ l2) s)))
| step_close s x : published x s → step s (LClose x) (Ret (spawn [OClose x] s))
| step_error s x : published x s → step s (LError x) (Ret (spawn [OCloseInternal x] s))
| step_delete s x : x ∈ session_ref_ s → OErase x ∉ ops s → OClear ∉ ops s → step s (LDelete x) (Ret (spawn (DeleteSession x) s))
| step_write s x y : sessions s !! x = Some y → established_ y = true → tcp_close_in_progress_ y = false →
    step s (LWrite x) (Ret (put x (mkSession true (closed_ y) false true (remote_ y)) s))
| step_write_done s x y : sessions s !! x = Some y → write_pending y = true →
    let s' := put x (mkSession (established_ y) (closed_ y) (tcp_close_in_progress_ y) false (remote_ y)) s in
    step s (LWriteDone x) (Ret (if negb (closed_ y) && tcp_close_in_progress_ y then spawn [OCloseInternal x] s' else s'))
| step_clear s : (∀ x, OErase x ∉ ops s) → step s LClear (Ret (spawn ClearSessions s))
| step_shutdown s : mutex_ s = false → step s LShutdown (Ret (Shutdown s))
| step_wait s : mutex_ s = false → step s LWait (Ret (WaitForEmpty s))
| step_thread s i o rest : threads s !! i = Some (o :: rest) → (locks o = true → mutex_ s = false) →
    step s (LThread i) ('(new, s) ← run o s; Ret (with_threads (<[i := (new ++ rest)]> (threads s)) s)).

Inductive reachable : TcpServer → Prop :=
| reach_new : reachable new_TcpServer
| reach_step s l s' : reachable s → step s l (Ret s') → reachable s'.

(** ** The invariant

    [session_map_] holds the sessions that are established, and those whose removal is on
    the way: the sections that are still to run say which. *)

Definition established_entry (x : nat) (y : TcpSession) : list (EP * nat) := if established_ y then [(remote_ y, x)] else [].
Definition established_list (m : gmap nat TcpSession) : list (EP * nat) :=
  concat (map (λ p, established_entry p.1 p.2) (map_to_list m)).

(** An entry that a section will remove, or make that of an established session *)
Definition owes (m : gmap nat TcpSession) (o : op) : list (EP * nat) :=
  match o with
  | OOnSessionClose x => match m !! x with Some y => [(remote_ y, x)] | None => [] end
  | OConnected x remote | OUndo x remote => [(remote, x)]
  | _ => []
  end.
(** ... that it will insert *)
Definition inserts (o : op) : list (EP * nat) := match o with OAcceptEnd x remote => [(remote, x)] | _ => [] end.
Definition connect_of (o : op) : list nat := match o with OInsert x _ | OConnected x _ => [x] | _ => [] end.
Definition erase_of (o : op) : list nat := match o with OErase x => [x] | _ => [] end.
Definition session_of (o : op) : list nat :=
  match o with
  | OClose x | OCloseInternal x | OOnSessionClose x | OErase x | OInsert x _ | OConnected x _ | OUndo x _ | OAcceptEnd x _ => [x]
  | OClear | OWake => []
  end.
Definition all {A} (f : op → list A) (l : list op) : list A := concat (map f l).

(** [l]: the sections that are still to run *)
Record Inv (s : TcpServer) (l : list op) : Prop := {
  i_map : session_map_ s ++ all inserts l ≡ₚ established_list (sessions s) ++ all (owes (sessions s)) l;
  i_mutex : length (all inserts l) = (if mutex_ s then 1 else 0)%nat;
  i_exist x : x ∈ session_ref_ s ∨ x ∈ connecting s ∨ x ∈ all session_of l → is_Some (sessions s !! x);
  i_closed x y : OOnSessionClose x ∈ l → sessions s !! x = Some y → closed_ y = true;
  i_open x y : sessions s !! x = Some y → established_ y = true → closed_ y = false;
  i_once : NoDup (connecting s ++ all connect_of l);
  i_conn x y : x ∈ connecting s ++ all connect_of l → sessions s !! x = Some y → established_ y = false;
  i_erase : NoDup (all erase_of l);
  i_owned x : x ∈ all erase_of l → x ∈ session_ref_ s;
}.

Lemma all_app {A} (f : op → list A) l1 l2 : all f (l1 ++ l2) = all f l1 ++ all f l2.
Proof. unfold all. by rewrite map_app, concat_app. Qed.
Lemma all_cons {A} (f : op → list A) o l : all f (o :: l) = f o ++ all f l.
Proof. done. Qed.
Lemma all_perm {A} (f : op → list A) l1 l2 : l1 ≡ₚ l2 → all f l1 ≡ₚ all f l2.
Proof.
  induction 1; rewrite ?all_cons; [done|by f_equiv| |by etrans]. rewrite !app_assoc. f_equiv. apply Permutation_app_comm.
Qed.
Lemma elem_of_all {A} (f : op → list A) a l : a ∈ all f l ↔ ∃ o, o ∈ l ∧ a ∈ f o.
Proof.
  induction l as [|o l IH]; [split; [by intros ?%elem_of_nil|by intros (? & ?%elem_of_nil & _)]|]. rewrite all_cons, elem_of_app, IH. set_solver.
Qed.

Lemma Inv_perm s l1 l2 : l1 ≡ₚ l2 → Inv s l1 → Inv s l2.
Proof.
  intros HP []. split; try done.
  - by rewrite <- !(all_perm _ _ _ HP).
  - by rewrite <- (all_perm _ _ _ HP).
  - intros x. rewrite <- (all_perm _ _ _ HP). auto.
  - intros x y. rewrite <- HP. eauto.
  - by rewrite <- (all_perm _ _ _ HP).
  - intros x y. rewrite <- (all_perm _ _ _ HP). eauto.
  - by rewrite <- (all_perm _ _ _ HP).
  - intros x. rewrite <- (all_perm _ _ _ HP). auto.
Qed.

(** The sections of all threads around a step of one *)
Lemma ops_thread (ts : list (list op)) i o rest new : ts !! i = Some (o :: rest) →
  ∃ R, concat ts ≡ₚ o :: R ∧ concat (<[i := (new ++ rest)]> ts) ≡ₚ new ++ R.
Proof.
  intros Hi. exists (concat (take i ts) ++ rest ++ concat (drop (S i) ts)).
  pose proof (take_drop_middle ts i _ Hi) as E. pose proof (lookup_lt_Some _ _ _ Hi). split.
  - rewrite <- E at 1. rewrite concat_app. cbn. symmetry. apply Permutation_middle.
  - rewrite insert_take_drop by done. rewrite concat_app. cbn. rewrite <- app_assoc. apply Permutation_app_swap_app.
Qed.

Lemma established_perm (l1 l2 : list (nat * TcpSession)) : l1 ≡ₚ l2 →
  concat (map (λ p, established_entry p.1 p.2) l1) ≡ₚ concat (map (λ p, established_entry p.1 p.2) l2).
Proof. induction 1; cbn; [done|by f_equiv| |by etrans]. rewrite !app_assoc. f_equiv. apply Permutation_app_comm. Qed.
Lemma established_new m x y : m !! x = None → established_list (<[x := y]> m) ≡ₚ established_entry x y ++ established_list m.
Proof. intros Hx. unfold established_list. by rewrite (established_perm _ _ (map_to_list_insert m x y Hx)). Qed.
Lemma established_old m x y : m !! x = Some y → established_list m ≡ₚ established_entry x y ++ established_list (delete x m).
Proof. intros Hx. unfold established_list. by rewrite <- (established_perm _ _ (map_to_list_delete m x y Hx)). Qed.
Lemma established_put m x y y' : m !! x = Some y →
  established_list (<[x := y']> m) ≡ₚ established_entry x y' ++ established_list (delete x m).
Proof. intros Hx. rewrite <- insert_delete_eq, established_new by apply lookup_delete_eq. done. Qed.

Lemma owes_put m x y y' l : m !! x = Some y → remote_ y' = remote_ y ∨ OOnSessionClose x ∉ l →
  all (owes (<[x := y']> m)) l = all (owes m) l.
Proof.
  intros Hx Hr. unfold all. f_equal. apply map_ext_in. intros o Ho%list_elem_of_In. destruct o; try done. cbn.
  destruct (decide (x = x0)) as [<-|]; [|by rewrite lookup_insert_ne]. rewrite lookup_insert_eq, Hx. destruct Hr as [->|Hr]; [done|].
  by destruct Hr.
Qed.

Lemma remove_first_ok e l : e ∈ l → ∃ l', remove_first e l = (true, l') ∧ l ≡ₚ e :: l'.
Proof.
  induction l as [|e' l IH]; intros He; [by apply elem_of_nil in He|]. cbn. destruct (decide (e' = e)) as [->|]; [by eexists|].
  apply elem_of_cons in He as [?|He]; [done|]. destruct (IH He) as (l' & -> & HP). eexists. split; [done|]. rewrite HP. apply Permutation_swap.
Qed.
Lemma remove_first_none e l : e ∉ l → remove_first e l = (false, l).
Proof.
  induction l as [|e' l IH]; intros He; [done|]. cbn. rewrite not_elem_of_cons in He. destruct (decide (e' = e)); [naive_solver|]. by rewrite IH by naive_solver.
Qed.

(** ** Each section keeps it, and its assertions hold *)

(** A change of a session that leaves it where it is *)
Lemma Inv_put s l x y y' : Inv s l → sessions s !! x = Some y → remote_ y' = remote_ y → established_ y' = established_ y →
  closed_ y' = closed_ y → Inv (put x y' s) l.
Proof.
  intros [Hmap Hmu Hex Hcl Hop Hon Hco Her How] Hx Hr He Hc.
  assert (Hlk : ∀ z w, sessions (put x y' s) !! z = Some w → ∃ w', sessions s !! z = Some w' ∧ established_ w = established_ w' ∧ closed_ w = closed_ w').
  { intros z w. cbn. destruct (decide (x = z)) as [<-|]; [rewrite lookup_insert_eq; intros [= <-]; eauto|]. rewrite lookup_insert_ne by done. eauto. }
  split; try done; cbn [sessions put with_sessions session_map_ mutex_ session_ref_ connecting].
  - rewrite (owes_put _ _ y) by auto. rewrite (established_put _ _ y) by done. unfold established_entry. rewrite Hr, He.
    fold (established_entry x y). by rewrite <- established_old.
  - intros z Hz. destruct (decide (x = z)) as [<-|]; [rewrite lookup_insert_eq; by eexists|]. rewrite lookup_insert_ne by done. by apply Hex.
  - intros z w Hz (w' & Hw & E1 & E2)%Hlk. rewrite E2. eauto.
  - intros z w (w' & Hw & E1 & E2)%Hlk. rewrite E1, E2. eauto.
  - intros z w Hz (w' & Hw & E1 & E2)%Hlk. rewrite E1. eauto.
Qed.

(** A section that is done and owes nothing *)
Lemma Inv_done s o R : Inv s (o :: R) → inserts o = [] → owes (sessions s) o = [] → Inv s R.
Proof.
  intros [Hmap Hmu Hex Hcl Hop Hon Hco Her How] Hi Ho. rewrite !all_cons, Hi, Ho in *. cbn [app] in *. split; try done.
  - intros x Hx. apply Hex. set_solver.
  - intros x y Hx. apply Hcl. set_solver.
  - apply NoDup_app in Hon as (H1 & H2 & H3). apply NoDup_app in H3 as (_ & _ & H3). apply NoDup_app. set_solver.
  - intros x y Hx. apply Hco. set_solver.
  - by apply NoDup_app in Her as (_ & _ & ?).
  - intros x Hx. apply How. set_solver.
Qed.

(** A section that asks for nothing new *)
Lemma Inv_more s o R : Inv s R → inserts o = [] → owes (sessions s) o = [] → connect_of o = [] → erase_of o = [] →
  (∀ x, o ≠ OOnSessionClose x) → (∀ x, x ∈ session_of o → is_Some (sessions s !! x)) → Inv s (o :: R).
Proof.
  intros [Hmap Hmu Hex Hcl Hop Hon Hco Her How] Hi Ho Hc He Hn Hs. split; rewrite ?all_cons, ?Hi, ?Ho, ?Hc, ?He; try done.
  - intros x [?|[?|[?|?]%elem_of_app]]; eauto.
  - intros x y [?|?]%elem_of_cons; [by destruct (Hn x)|eauto].
Qed.

Lemma run_CloseInternal s x R : Inv s (OCloseInternal x :: R) →
  ∃ new s', CloseInternal x true s = Ret (new, s') ∧ Inv s' (new ++ R).
Proof.
  intros HI. destruct (i_exist _ _ HI x) as [y Hy]; [rewrite all_cons; set_solver|].
  unfold CloseInternal, get. rewrite Hy. cbn [mbind outcome_mbind]. rewrite andb_true_r. eexists _, _. split; [done|].
  apply Inv_done in HI; [|done..]. destruct HI as [Hmap Hmu Hex Hcl Hop Hon Hco Her How].
  set (y' := mkSession false true false (write_pending y) (remote_ y)).
  assert (Hlk : ∀ z w, sessions (put x y' s) !! z = Some w → (z = x ∧ w = y') ∨ (z ≠ x ∧ sessions s !! z = Some w)).
  { intros z w. cbn. destruct (decide (x = z)) as [<-|]; [rewrite lookup_insert_eq; intros [= <-]; eauto|]. rewrite lookup_insert_ne by done. eauto. }
  set (new := if established_ y then [OOnSessionClose x] else []).
  assert (Hnew : all inserts new = [] ∧ all connect_of new = [] ∧ all erase_of new = []) by (unfold new; by destruct (established_ y)).
  destruct Hnew as (N1 & N2 & N3). split; rewrite ?all_app, ?N1, ?N2, ?N3; cbn [app]; try done.
  - cbn [sessions put with_sessions session_map_]. rewrite (owes_put _ _ y _ R) by auto. rewrite (established_put _ _ y) by done.
    rewrite Hmap, (established_old _ _ _ Hy). unfold y', new, established_entry. cbn [established_]. destruct (established_ y); [|done].
    cbn [app]. unfold all at 2. cbn [map concat owes]. rewrite lookup_insert_eq. cbn [app]. by rewrite <- Permutation_middle.
  - intros z Hz. cbn. destruct (decide (x = z)) as [<-|]; [rewrite lookup_insert_eq; by eexists|]. rewrite lookup_insert_ne by done. apply Hex.
    destruct Hz as [?|[?|[Hz|?]%elem_of_app]]; eauto. unfold new in Hz. destruct (established_ y); set_solver.
  - intros z w Hz [[-> ->]|[Hne Hw]]%Hlk; [done|]. apply elem_of_app in Hz as [Hz|Hz]; [|by eapply Hcl].
    unfold new in Hz. destruct (established_ y); set_solver.
  - intros z w [[-> ->]|[Hne Hw]]%Hlk; [done|eauto].
  - intros z w Hz [[-> ->]|[Hne Hw]]%Hlk; [done|eauto].
Qed.

Lemma run_Close s x R : Inv s (OClose x :: R) → ∃ new s', Close x s = Ret (new, s') ∧ Inv s' (new ++ R).
Proof.
  intros HI. destruct (i_exist _ _ HI x) as [y Hy]; [rewrite all_cons; set_solver|]. apply Inv_done in HI; [|done..].
  unfold Close, get. rewrite Hy. cbn [mbind outcome_mbind]. destruct (closed_ y) eqn:Ec; [by eexists _, _|]. destruct (write_pending y) eqn:Ew.
  - eexists _, _. split; [done|]. apply (Inv_put s R x y); [done|done|done|done|by rewrite <- Ec].
  - eexists _, _. split; [done|]. apply Inv_more; try done. intros z Hz. apply list_elem_of_singleton in Hz as ->. by eexists.
Qed.

Lemma no_inserts s l : Inv s l → mutex_ s = false → all inserts l = [].
Proof. intros HI Hm. pose proof (i_mutex _ _ HI) as Hl. rewrite Hm in Hl. by apply length_zero_iff_nil. Qed.

(** The parts of the invariant that do not look at [session_map_] and [waiting] *)
Lemma Inv_map s l m w : Inv s l → m ++ all inserts l ≡ₚ established_list (sessions s) ++ all (owes (sessions s)) l →
  Inv (with_acceptor (acceptor_ s) w (with_refs (session_ref_ s) m s)) l.
Proof. intros []. by split. Qed.

(** One entry is removed, and a section that owed it is done. *)
Lemma Inv_remove s o R e b m w : Inv s (o :: R) → mutex_ s = false → owes (sessions s) o = [e] → inserts o = [] →
  remove_first e (session_map_ s) = (b, m) →
  b = true ∧ Inv (with_acceptor (acceptor_ s) w (with_refs (session_ref_ s) m s)) R.
Proof.
  intros HI Hm Ho Hi Er. pose proof (i_map _ _ HI) as Hmap. rewrite (no_inserts _ _ HI Hm), app_nil_r, all_cons, Ho in Hmap.
  destruct (remove_first_ok e (session_map_ s)) as (m' & E & HP); [rewrite Hmap; set_solver|]. rewrite E in Er. injection Er as <- <-. split; [done|].
  pose proof HI as [_ Hmu Hex Hcl Hop Hon Hco Her How]. rewrite !all_cons, Hi in *. cbn [app] in *.
  assert (HR : all inserts R = []) by (apply length_zero_iff_nil; by rewrite Hm in Hmu). split; cbn; try done.
  - rewrite HR, app_nil_r. rewrite HP in Hmap. rewrite <- Permutation_middle in Hmap. by apply Permutation_cons_inv in Hmap.
  - intros x Hx. apply Hex. set_solver.
  - intros x y Hx. apply Hcl. set_solver.
  - apply NoDup_app in Hon as (H1 & H2 & H3). apply NoDup_app in H3 as (_ & _ & H3). apply NoDup_app. set_solver.
  - intros x y Hx. apply Hco. set_solver.
  - by apply NoDup_app in Her as (_ & _ & ?).
  - intros x Hx. apply How. set_solver.
Qed.

Lemma run_OnSessionClose s x R : Inv s (OOnSessionClose x :: R) → mutex_ s = false →
  ∃ s', OnSessionClose x s = Ret s' ∧ Inv s' R.
Proof.
  intros HI Hm. destruct (i_exist _ _ HI x) as [y Hy]; [rewrite all_cons; set_solver|]. unfold OnSessionClose.
  assert (Ho : owes (sessions s) (OOnSessionClose x) = [(remote_ y, x)]) by (cbn; by rewrite Hy).
  unfold get, RemoveSessionFromMap. rewrite Hy. destruct (remove_first (remote_ y, x) (session_map_ s)) as [b m] eqn:Er. cbn [mbind outcome_mbind].
  pose proof (λ w, Inv_remove _ _ _ _ b m w HI Hm Ho eq_refl Er) as Hrem. destruct (Hrem false) as [-> _]. case_bool_decide as Eb.
  { rewrite Eb in Er. done. }
  rewrite Er. eexists. split; [done|]. apply (Hrem _).
Qed.

Lemma run_Erase s x R : Inv s (OErase x :: R) → ∃ s', DeleteSession_erase x s = Ret s' ∧ Inv s' R.
Proof.
  intros HI. destruct (i_exist _ _ HI x) as [y Hy]; [rewrite all_cons; set_solver|].
  assert (Hx : x ∈ session_ref_ s) by (apply (i_owned _ _ HI); rewrite all_cons; set_solver).
  pose proof (i_erase _ _ HI) as Hnd. rewrite all_cons in Hnd. cbn in Hnd. apply NoDup_cons in Hnd as [Hnx _].
  unfold DeleteSession_erase, get, referenced. rewrite Hy, bool_decide_eq_true_2 by done. cbn. eexists. split; [done|].
  apply Inv_done in HI; [|done..]. destruct HI as [Hmap Hmu Hex Hcl Hop Hon Hco Her How]. split; cbn; try done.
  - intros z Hz. apply Hex. set_solver.
  - intros z Hz. apply elem_of_difference. split; [by apply How|]. set_solver.
Qed.

Lemma run_Insert s x r R : Inv s (OInsert x r :: R) → Inv (InsertSessionToMap r x s) (OConnected x r :: R).
Proof.
  intros [Hmap Hmu Hex Hcl Hop Hon Hco Her How]. rewrite !all_cons in *. cbn [inserts owes connect_of erase_of session_of app] in *. split; cbn; try done.
  - rewrite <- app_assoc. cbn [app]. rewrite <- !Permutation_middle. by rewrite Hmap.
  - intros z w Hz. apply Hcl. set_solver.
Qed.

Lemma run_Undo s x r R : Inv s (OUndo x r :: R) → mutex_ s = false → Inv (RemoveSessionFromMap r x s).2 R.
Proof.
  intros HI Hm. unfold RemoveSessionFromMap. destruct (remove_first (r, x) (session_map_ s)) as [b m] eqn:Er.
  destruct (Inv_remove _ _ _ _ _ _ (waiting s) HI Hm eq_refl eq_refl Er) as [_ H1]. exact H1.
Qed.

Lemma run_Connected s x r R : Inv s (OConnected x r :: R) →
  ∃ ok s', Connected x r s = Ret (ok, s') ∧ Inv s' ((if ok : bool then [] else [OUndo x r]) ++ R).
Proof.
  intros HI. destruct (i_exist _ _ HI x) as [y Hy]; [rewrite all_cons; set_solver|]. unfold Connected, get. rewrite Hy. cbn [mbind outcome_mbind].
  assert (Hne : established_ y = false) by (apply (i_conn _ _ HI x y); [rewrite all_cons; set_solver|done]).
  pose proof HI as [Hmap Hmu Hex Hcl Hop Hon Hco Her How]. rewrite !all_cons in *. cbn [inserts owes connect_of erase_of session_of app] in *.
  assert (Hon' : NoDup (connecting s ++ all connect_of R) ∧ x ∉ connecting s ++ all connect_of R).
  { rewrite <- Permutation_middle in Hon. by apply NoDup_cons in Hon as [? ?]. }
  destruct (closed_ y) eqn:Ec; eexists _, _; (split; [done|]); cbn [app].
  - split; rewrite ?all_cons; cbn [inserts owes connect_of erase_of session_of app]; try done.
    + intros z w Hz. apply Hcl. set_solver.
    + by destruct Hon'.
    + intros z w Hz. apply Hco. set_solver.
  - set (y' := mkSession _ _ _ _ _).
    assert (Hlk : ∀ z w, sessions (put x y' s) !! z = Some w → (z = x ∧ w = y') ∨ (z ≠ x ∧ sessions s !! z = Some w)).
    { intros z w. cbn. destruct (decide (x = z)) as [<-|]; [rewrite lookup_insert_eq; intros [= <-]; eauto|]. rewrite lookup_insert_ne by done. eauto. }
    split; try done.
    + cbn [sessions put with_sessions session_map_]. rewrite (owes_put _ _ y), (established_put _ _ y) by
        (done || (right; intros Hin; by rewrite (Hcl x y ltac:(set_solver) Hy) in Ec)).
      rewrite Hmap, (established_old _ _ _ Hy). unfold established_entry, y'. rewrite Hne. cbn. by rewrite <- Permutation_middle.
    + intros z Hz. cbn. destruct (decide (x = z)) as [<-|]; [rewrite lookup_insert_eq; by eexists|]. rewrite lookup_insert_ne by done. apply Hex. set_solver.
    + intros z w Hz [[-> ->]|[Hn Hw]]%Hlk; [|apply (Hcl z w); [set_solver|done]]. rewrite (Hcl x y ltac:(set_solver) Hy) in Ec. done.
    + intros z w [[-> ->]|[Hn Hw]]%Hlk; [done|eauto].
    + by destruct Hon'.
    + intros z w Hz [[-> ->]|[Hn Hw]]%Hlk; [by destruct Hon' as [_ []]|]. apply (Hco z w); [set_solver|done].
Qed.

Lemma run_AcceptEnd s x r R : Inv s (OAcceptEnd x r :: R) →
  Inv (with_mutex false (InsertSessionToMap r x (with_refs (session_ref_ s ∪ {[x]}) (session_map_ s) s))) R.
Proof.
  intros HI. pose proof HI as [Hmap Hmu Hex Hcl Hop Hon Hco Her How]. rewrite !all_cons in *. cbn [inserts owes connect_of erase_of session_of app length] in *.
  assert (HR : all inserts R = []) by (apply length_zero_iff_nil; destruct (mutex_ s); lia). rewrite HR in *. split; cbn; rewrite ?HR; try done.
  - by rewrite app_nil_r.
  - intros z Hz. apply Hex. set_solver.
  - intros z w Hz. apply Hcl. set_solver.
  - intros z Hz. apply elem_of_union_l. auto.
Qed.

Lemma run_Clear s R : Inv s (OClear :: R) → (∀ x, OErase x ∉ R) →
  Inv (with_refs ∅ (session_map_ s) s) (map OClose (elements (session_ref_ s)) ++ [OWake] ++ R).
Proof.
  intros HI Hno. apply Inv_done in HI; [|done..].
  assert (H0 : Inv (with_refs ∅ (session_map_ s) s) R).
  { destruct HI as [Hmap Hmu Hex Hcl Hop Hon Hco Her How]. split; cbn; try done; [set_solver|].
    intros x Hx. apply elem_of_all in Hx as ([] & Ho & Hx); cbn in Hx; try by apply elem_of_nil in Hx. by destruct (Hno x0). }
  assert (H1 : Inv (with_refs ∅ (session_map_ s) s) ([OWake] ++ R)) by (apply Inv_more; try done; intros x Hx; by apply elem_of_nil in Hx).
  assert (Hex : ∀ x, x ∈ elements (session_ref_ s) → is_Some (sessions s !! x)).
  { intros x Hx%elem_of_elements. apply (i_exist _ _ HI). by left. }
  induction (elements (session_ref_ s)) as [|x xs IH]; [done|]. cbn [map app]. apply Inv_more; try done; [apply IH; set_solver|].
  intros z Hz. apply list_elem_of_singleton in Hz as ->. apply Hex. set_solver.
Qed.

(** Sessions are not cleared while one is deleted. *)
Definition exclusive (l : list op) : Prop := OClear ∈ l → ∀ x, OErase x ∉ l.
Definition tame (o : op) : Prop := match o with OClear | OErase _ => False | _ => True end.

Lemma exclusive_perm l1 l2 : l1 ≡ₚ l2 → exclusive l1 → exclusive l2.
Proof. intros HP H1 Hc x. rewrite <- HP. apply H1. by rewrite HP. Qed.
Lemma exclusive_step o new R : exclusive (o :: R) → Forall tame new → exclusive (new ++ R).
Proof.
  intros He Hn Hc x Hx. rewrite Forall_forall in Hn. apply elem_of_app in Hc as [Hc|Hc]; [by apply Hn in Hc|].
  apply elem_of_app in Hx as [Hx|Hx]; [by apply Hn in Hx|]. by apply (He ltac:(set_solver) x); set_solver.
Qed.

Lemma run_ok s o R : Inv s (o :: R) → exclusive (o :: R) → (locks o = true → mutex_ s = false) →
  ∃ new s', run o s = Ret (new, s') ∧ Inv s' (new ++ R) ∧ Forall tame new.
Proof.
  intros HI He Hm. destruct o as [x|x|x|x|x r|x r|x r|x r| |]; cbn [run locks] in *.
  - destruct (run_Close s x R HI) as (new & s' & E & H'). exists new, s'. split; [done|]. split; [done|].
    unfold Close in E. destruct (get x s); [|done]. cbn in E. repeat case_match; injection E as <- <-; by repeat constructor.
  - destruct (run_CloseInternal s x R HI) as (new & s' & E & H'). exists new, s'. split; [done|]. split; [done|].
    unfold CloseInternal in E. destruct (get x s); [|done]. cbn in E. injection E as <- <-. case_match; by repeat constructor.
  - destruct (run_OnSessionClose s x R HI) as (s' & -> & H'); [auto|]. by exists [], s'.
  - destruct (run_Erase s x R HI) as (s' & -> & H'). by exists [], s'.
  - eexists _, _. split; [done|]. split; [by apply run_Insert|by repeat constructor].
  - destruct (run_Connected s x r R HI) as (ok & s' & -> & H'). eexists _, s'. split; [done|]. split; [done|]. destruct ok; by repeat constructor.
  - eexists _, _. split; [done|]. split; [by apply (run_Undo s x r R); auto|done].
  - eexists _, _. split; [done|]. split; [by apply run_AcceptEnd|done].
  - eexists _, _. split; [done|]. split.
    + rewrite <- app_assoc. apply run_Clear; [done|]. intros x Hx. by apply (He ltac:(set_solver) x); set_solver.
    + apply Forall_app. split; [|by repeat constructor]. apply Forall_fmap. by apply Forall_true.
  - eexists _, _. split; [done|]. split; [|done]. apply Inv_done in HI; [|done..]. destruct HI. by split.
Qed.

Lemma run_threads o s new s' : run o s = Ret (new, s') → threads s' = threads s.
Proof.
  destruct o as [x|x|x|x|x r|x r|x r|x r| |]; cbn [run]; try (by intros [= <- <-]).
  - unfold Close. destruct (get x s); [|done]. cbn. repeat case_match; by intros [= <- <-].
  - unfold CloseInternal. destruct (get x s); [|done]. cbn. by intros [= <- <-].
  - unfold OnSessionClose. case_bool_decide; [by intros [= <- <-]|]. destruct (get x s); [|done]. cbn. unfold RemoveSessionFromMap.
    destruct (remove_first _ _) as [[] m]; [by intros [= <- <-]|done].
  - unfold DeleteSession_erase. destruct (get x s); [|done]. cbn. destruct (referenced _ _ _); [by intros [= <- <-]|done].
  - unfold Connected. destruct (get x s); [|done]. cbn. case_match; by intros [= <- <-].
  - unfold RemoveSessionFromMap. destruct (remove_first _ _). by intros [= <- <-].
Qed.

(** ** Every step *)

Definition WF (s : TcpServer) : Prop := Inv s (ops s) ∧ exclusive (ops s).

Lemma Inv_threads s ts l : Inv s l → Inv (with_threads ts s) l.
Proof. intros []. by split. Qed.

(** A new thread *)
Lemma WF_spawn s new : Inv s (new ++ ops s) → exclusive (new ++ ops s) → WF (spawn new s).
Proof.
  intros HI He. assert (HP : new ++ ops s ≡ₚ ops (spawn new s)).
  { unfold ops, spawn. cbn. rewrite concat_app. cbn. rewrite app_nil_r. apply Permutation_app_comm. }
  split; [|by eapply exclusive_perm]. apply Inv_threads. by eapply Inv_perm.
Qed.
Lemma WF_spawn_tame s o : Inv s (o :: ops s) → tame o → exclusive (ops s) → WF (spawn [o] s).
Proof.
  intros HI Ho He. apply WF_spawn; [done|]. apply (exclusive_step o [o] (ops s)); [|by repeat constructor]. intros Hc x Hx.
  apply elem_of_cons in Hc as [<-|Hc]; [done|]. apply elem_of_cons in Hx as [<-|Hx]; [done|]. by apply (He Hc x).
Qed.

Lemma WF_exist s x : WF s → published x s → is_Some (sessions s !! x).
Proof.
  intros [HI _] [Hx|[r Hr]]; apply (i_exist _ _ HI); [by left|]. right. right. apply elem_of_all. exists (OAcceptEnd x r). set_solver.
Qed.

Lemma WF_accept s x r b : WF s → mutex_ s = false → sessions s !! x = None → ∃ s', AcceptHandler x r b s = Ret s' ∧ WF s'.
Proof.
  intros [HI He] Hm Hx. pose proof (no_inserts _ _ HI Hm) as Hni. pose proof HI as [Hmap Hmu Hex Hcl Hop Hon Hco Her How].
  assert (Hnx : ∀ z y, z ∈ session_ref_ s ∨ z ∈ connecting s ∨ z ∈ all session_of (ops s) → <[x := y]> (sessions s) !! z = sessions s !! z).
  { intros z y Hz%Hex. rewrite lookup_insert_ne; [done|]. intros <-. rewrite Hx in Hz. by destruct Hz. }
  assert (Ho : ∀ y, all (owes (<[x := y]> (sessions s))) (ops s) = all (owes (sessions s)) (ops s)).
  { intros y. unfold all. f_equal. apply map_ext_in. intros o Ho%list_elem_of_In. destruct o as [| |z| | | | | | |]; try done. cbn. rewrite Hnx; [done|].
    right. right. apply elem_of_all. exists (OOnSessionClose z). set_solver. }
  assert (Hst : ∀ y w, closed_ y = negb (established_ y) → (w = if established_ y then [OAcceptEnd x r] else []) → remote_ y = r →
    Inv (with_mutex (established_ y) (put x y s)) (w ++ ops s)).
  { intros y w Hy -> Hr. set (new := if established_ y then [OAcceptEnd x r] else []).
    assert (Hlk : ∀ z w, <[x := y]> (sessions s) !! z = Some w → (z = x ∧ w = y) ∨ (z ≠ x ∧ sessions s !! z = Some w)).
    { intros z w. destruct (decide (x = z)) as [<-|]; [rewrite lookup_insert_eq; intros [= <-]; eauto|]. rewrite lookup_insert_ne by done. eauto. }
    assert (all connect_of new = [] ∧ all erase_of new = [] ∧ all (owes (<[x := y]> (sessions s))) new = [] ∧ all inserts new = established_entry x y)
      as (N1 & N2 & N3 & N4) by (unfold new, established_entry; rewrite Hr; by destruct (established_ y)).
    split; cbn; rewrite ?all_app, ?N1, ?N2, ?N3, ?N4, ?Ho, ?Hni, ?app_nil_r; cbn [app]; try done.
    - rewrite established_new by done. rewrite Hni, app_nil_r in Hmap. rewrite Hmap, <- app_assoc. by rewrite (Permutation_app_comm (established_entry x y)), <- app_assoc, (Permutation_app_comm _ (established_entry x y)).
    - unfold established_entry. by destruct (established_ y).
    - intros z Hz. destruct (decide (x = z)) as [<-|Hzx]; [rewrite lookup_insert_eq; by eexists|]. rewrite lookup_insert_ne by done. apply Hex.
      destruct Hz as [?|[?|[Hz|?]%elem_of_app]]; eauto. unfold new in Hz. destruct (established_ y); set_solver.
    - intros z w Hz [[-> ->]|[Hn Hw]]%Hlk.
      + exfalso. apply elem_of_app in Hz as [Hz|Hz]; [unfold new in Hz; destruct (established_ y); set_solver|].
        destruct (Hex x) as [? E]; [|by rewrite Hx in E]. right. right. apply elem_of_all. exists (OOnSessionClose x). set_solver.
      + apply (Hcl z w); [|done]. apply elem_of_app in Hz as [Hz|Hz]; [|done]. unfold new in Hz. destruct (established_ y); set_solver.
    - intros z w [[-> ->]|[Hn Hw]]%Hlk; [|eauto]. intros E. by rewrite Hy, E.
    - intros z w Hz [[-> ->]|[Hn Hw]]%Hlk; [|by eapply Hco]. exfalso. destruct (Hex x) as [? E]; [|by rewrite Hx in E].
      apply elem_of_app in Hz as [?|(o & Ho1 & Ho2)%elem_of_all]; [by right; left|]. right. right. apply elem_of_all. exists o. split; [done|].
      destruct o; cbn in *; set_solver. }
  unfold AcceptHandler. destruct b.
  - eexists. split; [done|]. split.
    + change (ops _) with ([OAcceptEnd x r] ++ ops s). exact (Inv_threads _ ([OAcceptEnd x r] :: threads s) _ (Hst (mkSession true false false false r) _ eq_refl eq_refl eq_refl)).
    + change (ops _) with ([OAcceptEnd x r] ++ ops s). apply (exclusive_step (OAcceptEnd x r)); [|by repeat constructor].
      intros Hc z Hz. apply (He ltac:(set_solver) z). set_solver.
  - unfold CloseInternal, get. cbn. rewrite lookup_insert_eq. cbn. eexists. split; [done|]. unfold put. cbn. rewrite insert_insert_eq.
    split; [|done]. pose proof (Hst (mkSession false true false false r) [] eq_refl eq_refl eq_refl) as H1. destruct H1 as [M1 M2 M3 M4 M5 M6 M7 M8 M9]. split; try done.
Qed.

Lemma WF_create s x : WF s → sessions s !! x = None → WF (CreateSession x s).
Proof.
  intros [HI He] Hx. split; [|done]. pose proof HI as [Hmap Hmu Hex Hcl Hop Hon Hco Her How].
  assert (Hlk : ∀ z w y, <[x := y]> (sessions s) !! z = Some w → (z = x ∧ w = y) ∨ (z ≠ x ∧ sessions s !! z = Some w)).
  { intros z w y. destruct (decide (x = z)) as [<-|]; [rewrite lookup_insert_eq; intros [= <-]; eauto|]. rewrite lookup_insert_ne by done. eauto. }
  assert (Hno : ∀ z, z ∈ all session_of (ops s) → z ≠ x).
  { intros z Hz ->. destruct (Hex x) as [? E]; [by right; right|]. by rewrite Hx in E. }
  split; cbn; try done; change (ops (CreateSession x s)) with (ops s).
  - rewrite established_new by done. cbn. rewrite Hmap. f_equiv. unfold all. erewrite map_ext_in; [done|]. intros o Ho%list_elem_of_In.
    destruct o as [| |z| | | | | | |]; try done. cbn. rewrite lookup_insert_ne; [done|]. apply not_eq_sym, Hno, elem_of_all. exists (OOnSessionClose z). set_solver.
  - intros z Hz. destruct (decide (x = z)) as [<-|]; [rewrite lookup_insert_eq; by eexists|]. rewrite lookup_insert_ne by done. apply Hex. set_solver.
  - intros z w Hz [[-> ->]|[Hn Hw]]%Hlk; [|by eapply Hcl]. exfalso. apply (Hno x); [|done]. apply elem_of_all. exists (OOnSessionClose x). set_solver.
  - intros z w [[-> ->]|[Hn Hw]]%Hlk; [done|by eapply Hop].
  - intros z w Hz [[-> ->]|[Hn Hw]]%Hlk; [done|by eapply Hco].
  - intros z Hz. apply elem_of_union_l. by apply How.
Qed.

Lemma WF_connecting s l1 x l2 new : WF s → connecting s = l1 ++ x :: l2 → (new = [] ∨ ∃ r, new = [OInsert x r]) →
  WF (spawn new (with_connecting (l1 ++ l2) s)).
Proof.
  intros [HI He] Hc Hnew. apply WF_spawn.
  - pose proof HI as [Hmap Hmu Hex Hcl Hop Hon Hco Her How]. rewrite Hc in *.
    assert (all inserts new = [] ∧ all erase_of new = [] ∧ ∀ m, all (owes m) new = []) as (N1 & N2 & N3) by (by destruct Hnew as [->|[r ->]]).
    assert (N4 : all connect_of new = [] ∨ all connect_of new = [x]) by (destruct Hnew as [->|[r ->]]; auto).
    assert (N5 : ∀ z, z ∈ all session_of new → z = x) by (intros z; destruct Hnew as [->|[r ->]]; set_solver).
    assert (Hmid : ∀ z, z ∈ l1 ++ l2 → z ∈ l1 ++ x :: l2) by (intros z; rewrite !elem_of_app, elem_of_cons; tauto).
    split; cbn; rewrite ?all_app, ?N1, ?N2, ?N3; cbn [app]; try done.
    + intros z [?|[?%Hmid|[->%N5|?]%elem_of_app]]; apply Hex; auto. right; left. apply elem_of_app. right. by left.
    + intros z w Hz. apply Hcl. apply elem_of_app in Hz as [Hz|Hz]; [|done]. destruct Hnew as [->|[r ->]]; set_solver.
    + rewrite <- app_assoc in Hon. cbn in Hon. rewrite <- Permutation_middle in Hon. destruct N4 as [->| ->]; cbn [app].
      * apply NoDup_cons in Hon as [_ Hon]. by rewrite <- app_assoc.
      * rewrite <- Permutation_middle. by rewrite <- app_assoc.
    + intros z w Hz. apply Hco. apply elem_of_app in Hz as [Hz%Hmid|Hz]; apply elem_of_app; [by left|].
      apply elem_of_app in Hz as [Hz|Hz]; [|by right]. left. apply elem_of_app. right.
      destruct N4 as [E|E]; rewrite E in Hz; [by apply elem_of_nil in Hz|]. apply list_elem_of_singleton in Hz as ->. by left.
  - intros Hcl x0 Hx0. assert (OClear ∈ ops s) by (destruct Hnew as [->|[r ->]]; set_solver).
    apply (He ltac:(done) x0). destruct Hnew as [->|[r ->]]; set_solver.
Qed.

Lemma WF_put s x y y' : WF s → sessions s !! x = Some y → remote_ y' = remote_ y → established_ y' = established_ y →
  closed_ y' = closed_ y → WF (put x y' s).
Proof. intros [HI He] Hx Hr Hes Hc. split; [|done]. by eapply Inv_put. Qed.

Lemma step_WF s l r : WF s → step s l r → ∃ s', r = Ret s' ∧ WF s'.
Proof.
  intros HW Hst. pose proof HW as [HI He]. destruct Hst as [s c|s e1 e2 e3 e4 x r b Hm Hx|s x Hx Hm|s x y Hr Hy Hne Hn Hno|s x l1 l2 Hc|s x r l1 l2 Hc
    |s x Hp|s x Hp|s x Hr Hn1 Hn2|s x y Hy Hes Hip|s x y Hy Hw s'|s Hno|s Hm|s Hm|s i o rest Hi Hm].
  - eexists. split; [done|]. unfold InitializeInternal. case_match; (split; [|exact He]); destruct HI; by split.
  - unfold AcceptHandlerInternal. repeat case_match; try (by eexists). by apply WF_accept.
  - eexists. split; [done|]. by apply WF_create.
  - eexists. split; [done|]. split; [|done]. destruct HI as [Hmap Hmu Hex Hcl Hop Hon Hco Her How]. split; cbn; try done.
    + intros z Hz. destruct (decide (z = x)) as [->|]; [by eexists|]. apply Hex. set_solver.
    + apply NoDup_cons. split; [|done]. intros [?|(o & Ho1 & Ho2)%elem_of_all]%elem_of_app; [done|].
      destruct o as [| | | |z r|z r| | | |]; cbn in Ho2; try by apply elem_of_nil in Ho2.
      all: apply list_elem_of_singleton in Ho2 as ->; destruct (Hno r); done.
    + intros z w [-> |Hz]%elem_of_cons Hw; [congruence|eauto].
  - eexists. split; [done|]. destruct (WF_connecting s l1 x l2 [] HW Hc) as [H1 H2]; [by left|].
    assert (E : ops (spawn [] (with_connecting (l1 ++ l2) s)) = ops s) by (unfold ops, spawn; cbn; rewrite concat_app; cbn; by rewrite app_nil_r).
    rewrite E in H1, H2. split; [|done]. destruct H1. by split.
  - eexists. split; [done|]. apply (WF_connecting s l1 x); [done|done|]. right. by exists r.
  - eexists. split; [done|]. apply WF_spawn_tame; [|done|done]. apply Inv_more; try done. intros z ->%list_elem_of_singleton. by apply WF_exist.
  - eexists. split; [done|]. apply WF_spawn_tame; [|done|done]. apply Inv_more; try done. intros z ->%list_elem_of_singleton. by apply WF_exist.
  - eexists. split; [done|]. apply WF_spawn.
    + apply Inv_more; try done; [|intros z ->%list_elem_of_singleton; apply (i_exist _ _ HI); by left].
      destruct HI as [Hmap Hmu Hex Hcl Hop Hon Hco Her How]. split; cbn; try done.
      * intros z Hz. apply Hex. set_solver.
      * intros z w Hz. apply Hcl. set_solver.
      * apply NoDup_cons. split; [|done]. intros (o & Ho1 & Ho2)%elem_of_all. destruct o; cbn in Ho2; try by apply elem_of_nil in Ho2.
        by apply list_elem_of_singleton in Ho2 as ->.
      * intros z [->|Hz]%elem_of_cons; [done|eauto].
    + intros Hc. exfalso. unfold DeleteSession in Hc. set_solver.
  - eexists. split; [done|]. by apply (WF_put s x y).
  - eexists. split; [done|]. assert (H' : WF s') by (by apply (WF_put s x y)). destruct (_ && _); [|done]. pose proof H' as [HI' He'].
    apply WF_spawn_tame; [|done|done]. apply Inv_more; try done. intros z ->%list_elem_of_singleton. unfold s'. cbn. rewrite lookup_insert_eq. by eexists.
  - eexists. split; [done|]. apply WF_spawn; [apply Inv_more; try done; intros z Hz; by apply elem_of_nil in Hz|].
    intros _ z Hz. unfold ClearSessions in Hz. apply (Hno z). set_solver.
  - eexists. split; [done|]. split; [|done]. destruct HI. by split.
  - eexists. split; [done|]. split; [|done]. destruct HI. by split.
  - destruct (ops_thread (threads s) i o rest [] Hi) as (R & HP & _).
    destruct (run_ok s o R) as (new & s' & E & H' & Ht); [by eapply Inv_perm|by eapply exclusive_perm|done|].
    rewrite E. cbn. eexists. split; [done|]. rewrite (run_threads _ _ _ _ E).
    destruct (ops_thread (threads s) i o rest new Hi) as (R' & HP1 & HP2).
    assert (HR : R ≡ₚ R') by (apply (Permutation_cons_inv (a := o)); by rewrite <- HP, HP1). split.
    + apply Inv_threads, (Inv_perm _ (new ++ R)); [|done]. unfold ops. cbn. by rewrite HP2, HR.
    + apply (exclusive_perm (new ++ R)); [unfold ops; cbn; by rewrite HP2, HR|].
      apply (exclusive_step o); [|done]. by eapply exclusive_perm.
Qed.

Lemma reachable_WF s : reachable s → WF s.
Proof.
  induction 1 as [|s l s' _ IH Hst].
  - split; [|by intros ?%elem_of_nil]. split; cbn; try done; try (intros; set_solver). all: by apply NoDup_nil.
  - destruct (step_WF _ _ _ IH Hst) as (? & [= <-] & ?). done.
Qed.

(** C23: the assertions of the TCP server hold in every interleaving of accepting,
    connecting, writing, closing, deleting and clearing: [OnSessionClose] finds the session
    in the map, [DeleteSession] finds it referenced.  Whenever no call is under way,
    [session_map_] is exactly the sessions that are established, each once and under its
    remote endpoint; and when they are all closed and deleted after [Shutdown], the server
    can be destroyed. *)
Theorem tcp_server_safe s : reachable s →
  (∀ l r, step s l r → ∃ s', r = Ret s') ∧
  (ops s = [] → session_map_ s ≡ₚ established_list (sessions s) ∧
     (acceptor_ s = false → session_ref_ s = ∅ → (∀ x y, sessions s !! x = Some y → closed_ y = true) → destroy_TcpServer s = Ret tt)).
Proof.
  intros Hr%reachable_WF. split.
  - intros l r Hst. destruct (step_WF _ _ _ Hr Hst) as (s' & -> & _). by eexists.
  - intros Ho. destruct Hr as [HI _]. rewrite Ho in HI. pose proof (i_map _ _ HI) as Hmap. unfold all in Hmap. cbn in Hmap. rewrite !app_nil_r in Hmap.
    split; [done|]. intros Ha Hrf Hc. unfold destroy_TcpServer. rewrite Ha, Hrf. cbn. rewrite bool_decide_eq_true_2; [done|].
    apply Permutation_nil_r. rewrite Hmap. unfold established_list. apply Permutation_nil_r.
    assert (Hall : ∀ p, p ∈ map_to_list (sessions s) → established_entry p.1 p.2 = []).
    { intros [x y] Hp%elem_of_map_to_list. cbn. unfold established_entry. destruct (established_ y) eqn:E; [|done].
      pose proof (i_open _ _ HI x y Hp E). by rewrite (Hc x y Hp) in *. }
    induction (map_to_list (sessions s)) as [|p l IH]; [done|]. cbn. rewrite Hall by set_solver. apply IH. set_solver.
Qed.

(** ** Waiting for the sessions to go *)

(** The step is the end of a [ConnectHandlerComplete] whose session was closed. *)
Definition undoes (s : TcpServer) (l : label) : Prop := ∃ i x r rest, l = LThread i ∧ threads s !! i = Some (OUndo x r :: rest).

Inductive reachable_calm : TcpServer → Prop :=
| calm_new : reachable_calm new_TcpServer
| calm_step s l s' : reachable_calm s → step s l (Ret s') → ¬ undoes s l → reachable_calm s'.

(** No thread sleeps while the server is empty, but if it is about to be woken. *)
Definition awake (s : TcpServer) : Prop := waiting s = true → is_empty s = true → OWake ∈ ops s.

Lemma awake_notified s : awake (notify_if_empty s).
Proof. unfold awake, notify_if_empty, is_empty. cbn. destruct (_ && _); [done|]. intros _ ?. done. Qed.

(** A change that leaves [waiting], and empties nothing *)
Lemma awake_same s s' : awake s → waiting s' = waiting s → (is_empty s' = true → is_empty s = true) → (∀ o, o ∈ ops s → o ∈ ops s') → awake s'.
Proof. intros Ha Hw He Ho H1 H2. apply Ho, Ha; [congruence|auto]. Qed.

Lemma not_empty_insert r x s : is_empty (InsertSessionToMap r x s) = false.
Proof. unfold is_empty, InsertSessionToMap. cbn. rewrite (bool_decide_eq_false_2 (_ ++ _ = [])), andb_false_r; [done|]. by destruct (session_map_ s). Qed.

Lemma ops_spawn o l s : o ∈ ops s → o ∈ ops (spawn l s).
Proof. unfold ops, spawn. cbn. rewrite concat_app. set_solver. Qed.

(** The other sections of a thread's step *)
Lemma ops_others s i o rest new o' : threads s !! i = Some (o :: rest) → o' ∈ ops s → o' ≠ o →
  o' ∈ concat (<[i := (new ++ rest)]> (threads s)).
Proof.
  intros Hi Ho Hne. destruct (ops_thread (threads s) i o rest new Hi) as (R & HP1 & HP2). rewrite HP2. unfold ops in Ho. rewrite HP1 in Ho. set_solver.
Qed.

Lemma awake_run s i o rest new s' : awake s → threads s !! i = Some (o :: rest) → (∀ x r, o ≠ OUndo x r) → run o s = Ret (new, s') →
  awake (with_threads (<[i := (new ++ rest)]> (threads s')) s').
Proof.
  intros Ha Hi Hu Er. rewrite (run_threads _ _ _ _ Er).
  assert (Hsame : waiting s' = waiting s → (is_empty s' = true → is_empty s = true) → o ≠ OWake →
    awake (with_threads (<[i := (new ++ rest)]> (threads s)) s')).
  { intros Hw He Hne H1 H2. unfold ops. cbn. eapply ops_others; [done| |by apply not_eq_sym]. apply Ha; [by rewrite <- Hw|by apply He]. }
  assert (Hno : ∀ t, s' = notify_if_empty t → awake (with_threads (<[i := (new ++ rest)]> (threads s)) s')).
  { intros t -> H1 H2. exfalso. revert H1 H2. unfold notify_if_empty, is_empty. cbn. by destruct (_ && _). }
  destruct o as [x|x|x|x|x r|x r|x r|x r| |]; cbn [run] in Er.
  - unfold Close in Er. destruct (get x s); [|done]. cbn in Er. apply Hsame; [..|done]; repeat case_match; by injection Er as <- <-.
  - unfold CloseInternal in Er. destruct (get x s); [|done]. cbn in Er. injection Er as <- <-. by apply Hsame.
  - unfold OnSessionClose in Er. case_bool_decide; [injection Er as <- <-; by apply Hsame|]. destruct (get x s) as [y|]; [|done]. cbn in Er.
    destruct (RemoveSessionFromMap (remote_ y) x s) as [[] t]; [|done]. injection Er as <- <-. by eapply Hno.
  - unfold DeleteSession_erase in Er. destruct (get x s); [|done]. cbn in Er. destruct (referenced _ _ _); [|done]. injection Er as <- <-. by eapply Hno.
  - injection Er as <- <-. apply Hsame; [done| |done]. by rewrite not_empty_insert.
  - unfold Connected in Er. destruct (get x s); [|done]. cbn in Er. case_match; injection Er as <- <-; by apply Hsame.
  - by destruct (Hu x r).
  - injection Er as <- <-. apply Hsame; [done| |done]. intros He. exfalso. revert He. unfold is_empty. cbn.
    rewrite (bool_decide_eq_false_2 (_ ++ _ = [])), andb_false_r; [done|]. by destruct (session_map_ s).
  - injection Er as <- <-. intros _ _. unfold ops. cbn. destruct (ops_thread (threads s) i OClear rest (map OClose (elements (session_ref_ s)) ++ [OWake]) Hi) as (R & _ & ->). set_solver.
  - injection Er as <- <-. by eapply Hno.
Qed.

(** C24: nobody sleeps for ever in [WaitForEmpty].  As long as no session was closed while it
    was being connected, a thread that sleeps when no call is under way waits for a
    session that is really there; each section that may empty the server wakes the
    waiting threads or is followed by one that does. *)
Theorem wait_for_empty_wakes s : reachable_calm s → ops s = [] → waiting s = true → is_empty s = false.
Proof.
  intros Hr Ho Hw. assert (Ha : awake s).
  { clear Ho Hw. induction Hr as [|s l s' _ IH Hst Hu]; [done|]. remember (Ret s') as r eqn:Er. destruct Hst as [s c|s e1 e2 e3 e4 x r b Hm Hx|s x Hx Hm|s x y Hr Hy Hne Hn Hno|s x l1 l2 Hc|s x r l1 l2 Hc
    |s x Hp|s x Hp|s x Hr Hn1 Hn2|s x y Hy Hes Hip|s x y Hy Hw t|s Hno|s Hm|s Hm|s i o rest Hi Hm].
    - injection Er as <-. unfold InitializeInternal. by case_match.
    - unfold AcceptHandlerInternal in Er. repeat case_match; try (by injection Er as <-). unfold AcceptHandler in Er. destruct b; [injection Er as <-|].
      + eapply awake_same; [exact IH|done|done|]. unfold ops. cbn. set_solver.
      + unfold CloseInternal, get in Er. cbn in Er. rewrite lookup_insert_eq in Er. cbn in Er. injection Er as <-. by eapply awake_same.
    - injection Er as <-. eapply awake_same; [exact IH|done| |done]. unfold is_empty, CreateSession. cbn.
      rewrite (bool_decide_eq_false_2 (_ ∪ _ = ∅)) by set_solver. done.
    - injection Er as <-. by eapply awake_same.
    - injection Er as <-. by eapply awake_same.
    - injection Er as <-. eapply awake_same; [exact IH|done|done|]. intros o Ho. by apply (ops_spawn o _ (with_connecting (l1 ++ l2) s)).
    - injection Er as <-. eapply awake_same; [exact IH|done|done|]. intros o. apply ops_spawn.
    - injection Er as <-. eapply awake_same; [exact IH|done|done|]. intros o. apply ops_spawn.
    - injection Er as <-. eapply awake_same; [exact IH|done|done|]. intros o. apply ops_spawn.
    - injection Er as <-. by eapply awake_same.
    - injection Er as <-. subst t. case_match; [|by eapply awake_same]. eapply awake_same; [exact IH|done|done|]. intros o Ho. by apply ops_spawn.
    - injection Er as <-. eapply awake_same; [exact IH|done|done|]. intros o. apply ops_spawn.
    - injection Er as <-. by eapply awake_same.
    - injection Er as <-. intros H1 H2. cbn in H1. change (is_empty (WaitForEmpty s)) with (is_empty s) in H2. by rewrite H2 in H1.
    - destruct (run o s) as [[new t]|] eqn:E; [|done]. cbn in Er. injection Er as <-. apply (awake_run s i o rest new t); try done.
      intros x r ->. apply Hu. by exists i, x, r, rest. }
  destruct (is_empty s) eqn:E; [|done]. pose proof (Ha Hw E) as Hin. rewrite Ho in Hin. by apply elem_of_nil in Hin.
Qed.

End Server.
(** ** Executions of a server *)

Abbreviation server := (TcpServer (EP := nat)).
Definition no_failures : acceptor_calls := mkCalls false false false false false.
Definition thread_step (i : nat) (s : server) : outcome server :=
  match threads s !! i with
  | Some (o :: rest) => '(new, s) ← run o s; Ret (with_threads (<[i := (new ++ rest)]> (threads s)) s)
  | _ => Abort
  end.
Definition the (o : outcome server) : server := match o with Ret s => s | Abort => new_TcpServer end.
Definition next (i : nat) (s : server) : server := the (thread_step i s).

(** The thread [i] can run its next section. *)
Definition can_run (i : nat) (s : server) : bool :=
  negb (mutex_ s) && match thread_step i s with Ret _ => true | Abort => false end.

Lemma reach_thread i s : can_run i s = true → reachable 0%nat s → reachable 0%nat (next i s).
Proof.
  unfold can_run. intros [Hm Hs]%andb_true_iff Hr. unfold next, thread_step in *.
  destruct (threads s !! i) as [[|o rest]|] eqn:E; try done.
  destruct (run o s) as [[new t]|] eqn:Er; [|done]. cbn in *. eapply reach_step; [exact Hr|].
  pose proof (step_thread 0%nat s i o rest E (λ _, proj1 (negb_true_iff _) Hm)) as Hst. rewrite Er in Hst. exact Hst.
Qed.

(** A session is accepted, deleted while a thread waits, and the server shut down. *)
Definition demo1 : server := (InitializeInternal no_failures new_TcpServer).2.
Definition demo2 : server := the (AcceptHandler 1 7%nat true demo1).
Definition demo3 : server := next 0 demo2.
Definition demo4 : server := WaitForEmpty demo3.
Definition demo5 : server := next 1 (next 1 (next 1 (next 1 (spawn (DeleteSession 1) demo4)))).
Definition demo6 : server := Shutdown demo5.

Lemma demo3_calm : reachable_calm 0%nat demo3.
Proof.
  eapply (calm_step _ demo2 (LThread 0)); [|exact (step_thread 0%nat demo2 0 (OAcceptEnd 1 7%nat) [] eq_refl (λ e, False_ind _ (diff_false_true e)))|].
  - eapply (calm_step _ demo1 (LAccept 1 7%nat true)); [|exact (step_accept 0%nat demo1 false false false false 1 7%nat true eq_refl eq_refl)|by intros (? & ? & ? & ? & ? & ?)].
    eapply (calm_step _ new_TcpServer (LInitialize no_failures)); [constructor|exact (step_initialize 0%nat _ no_failures)|by intros (? & ? & ? & ? & ? & ?)].
  - by intros (i & x & r & rest & [= <-] & [=]).
Qed.
Lemma calm_reachable s : reachable_calm 0%nat s → reachable (EP := nat) 0%nat s.
Proof. induction 1; [constructor|by eapply reach_step]. Qed.

Lemma tcp_demo6_reachable : reachable 0%nat demo6.
Proof.
  assert (H4 : reachable 0%nat demo4) by (eapply reach_step; [apply calm_reachable, demo3_calm|by apply step_wait]).
  assert (H5 : reachable 0%nat (spawn (DeleteSession 1) demo4)).
  { eapply reach_step; [exact H4|]. apply step_delete; [set_solver|by intros ?%elem_of_nil..]. }
  eapply reach_step; [|by apply step_shutdown]. unfold demo5. do 4 (apply reach_thread; [by vm_compute|]). exact H5.
Qed.

Lemma tcp_server_safe_witness : destroy_TcpServer demo6 = Ret tt ∧ waiting demo6 = false.
Proof.
  split; [|by vm_compute]. apply (tcp_server_safe 0%nat demo6 tcp_demo6_reachable); [by vm_compute..|].
  assert (Es : sessions demo6 = {[1%nat := mkSession false true false false 7%nat]}) by (by vm_compute).
  intros x y Hx. rewrite Es in Hx. apply lookup_singleton_Some in Hx as [<- <-]. done.
Defined.

Lemma wait_for_empty_wakes_witness : is_empty demo4 = false.
Proof.
  apply (wait_for_empty_wakes 0%nat demo4); [|done|done].
  eapply calm_step; [exact demo3_calm|by apply step_wait|by intros (? & ? & ? & ? & ? & ?)].
Defined.

(** A session is deleted while it is being connected: the last section removes it from the
    map without waking those who wait for this. *)
Definition lost1 : server := next 0 (spawn (ConnectHandlerComplete 1 7%nat) (with_connecting [] (with_connecting [1%nat] (CreateSession 0%nat 1 new_TcpServer)))).
Definition lost2 : server := next 1 (next 1 (next 1 (spawn (DeleteSession 1) (WaitForEmpty lost1)))).
Definition lost3 : server := next 0 (next 0 lost2).

Lemma connect_undo_does_not_wake : reachable 0%nat lost3 ∧ ops lost3 = [] ∧ waiting lost3 = true ∧ is_empty lost3 = true.
Proof.
  split; [|by vm_compute].
  assert (H1 : reachable 0%nat lost1).
  { apply reach_thread; [by vm_compute|]. eapply reach_step; [|by apply (step_connect_done _ _ 1 7%nat [] [])].
    eapply reach_step; [|eapply step_connect; [set_solver|done|done|by intros ?%elem_of_nil|intros r; split; by intros ?%elem_of_nil]].
    eapply reach_step; [constructor|by apply step_create]. }
  assert (H2 : reachable 0%nat (spawn (DeleteSession 1) (WaitForEmpty lost1))).
  { eapply reach_step; [eapply reach_step; [exact H1|by apply step_wait]|]. apply step_delete; [set_solver|..].
    - intros [?|?%elem_of_nil]%elem_of_cons; done.
    - intros [?|?%elem_of_nil]%elem_of_cons; done. }
  unfold lost3, lost2. do 5 (apply reach_thread; [by vm_compute|]). exact H2.
Qed.

End TSV.
