(* ===== verification/SandeshServer.v ===== *)
(** * The sandesh server: src/sandesh/library/cpp/sandesh_state_machine.{h,cc},
      sandesh_connection.{h,cc}, sandesh_server.{h,cc}, and [DoDropSandeshMessage] of
      sandesh.cc

    The server keeps a connection for every remote endpoint that has one, with a state
    machine that takes its events from a work queue.  A connection has one session at a
    time; when its session was deleted the connection deletes itself through the
    lifetime manager.

    Events of a machine, the expiry of its timer, and the lifetime manager run as tasks
    that exclude each other ([TaskPolicy] in the constructor of the server, and
    [TaskThms]), so that each of them is one step, as is the acceptance of a session and
    the delivery of a message by the reader.  Sessions are those of [TcpServer]: what the
    machine asks of them is recorded in them; using one that was deleted, or a
    connection that was destroyed, is [Abort].

    What the application makes of messages ([ReceiveSandeshMsg],
    [ReceiveSandeshCtrlMsg], [ReceiveResourceUpdate], which are virtual) is an input, as is
    what the generated classes make of the text of a message. *)

From stdpp Require Import gmap list.
From S2P Require Import Prelude Timer SandeshClientSM.
Open Scope Z_scope.

Module SSV.

(** [ssm::SsmState] *)
Inductive SsmState := IDLE | ACTIVE | ESTABLISHED | SERVER_INIT.
#[export] Instance SsmState_eq_dec : EqDecision SsmState.
Proof. solve_decision. Defined.

(** [SandeshType::type], as far as it is looked at *)
Inductive SandeshType := SYSTEM | OBJECT | FLOW | SESSION | OTHER.
#[export] Instance SandeshType_eq_dec : EqDecision SandeshType.
Proof. solve_decision. Defined.

(** A message that was received: what [SandeshMessageBuilder::Create] and
    [ExtractMsgHeader] make of it, and what the server answers to it as a control message *)
Record Msg := mkMsg {
  msg_id : nat;
  parses : bool;                 (* [Create] does not return NULL *)
  stype : SandeshType;
  level : Z;
  control : bool;                (* the control hint *)
  header_ok : bool;              (* [ExtractMsgHeader] succeeds, and gives the same header *)
  ctrl_decodes : bool;           (* [DecodeCtrlSandesh] does not return NULL *)
  ctrl_accepted : bool;          (* [ReceiveSandeshCtrlMsg] *)
}.
#[export] Instance Msg_eq_dec : EqDecision Msg.
Proof. solve_decision. Defined.

Inductive event :=
| EvStart | EvStop | EvIdleHoldTimerExpired
| EvTcpPassiveOpen (x : nat) | EvTcpClose (x : nat) | EvTcpDeleteSession (x : nat)
| EvSandeshMessageRecv (m : Msg) | EvSandeshCtrlMessageRecv (m : Msg)
| EvResourceUpdate (rsc accepted : bool).     (* [accepted]: what [ReceiveResourceUpdate] returns *)
#[export] Instance event_eq_dec : EqDecision event.
Proof. solve_decision. Defined.

Definition kIdleHoldTime : Z := 5000.
Definition kMaxInitRetries : Z := 5.

(** [DoDropSandeshMessage] *)
Definition DoDropSandeshMessage (flows_disabled : bool) (m : Msg) (drop_level : Z) : bool :=
  (bool_decide (stype m ∈ [SYSTEM; OBJECT; FLOW; SESSION]) && (drop_level <=? level m)) ||
  (flows_disabled && bool_decide (stype m ∈ [FLOW; SESSION])).

Section Server.
Context {EP : Type} `{Countable EP} (flows_disabled : bool).

Record Session := mkSession {
  remote : EP;
  instance : nat;                     (* [GetSessionInstance()] *)
  observer : option nat;              (* the connection of the machine *)
  receiver : option nat;              (* [SetReceiveMsgCb] *)
  connection : option nat;            (* [SetConnection] *)
  is_open : bool;
}.

(** A connection and its state machine *)
Record Conn := mkConn {
  endpoint_ : EP;
  task_instance_ : nat;
  admin_down_ : bool;
  c_session_ : option nat;            (* of the connection *)
  state_ : SsmState;
  session_ : option nat;              (* of the machine *)
  idle_hold_timer_ : TM.TimerState;
  idle_hold_time_ : Z;
  resource_ : bool;
  message_drop_level_ : Z;
  work_queue_ : list event;
  delete_posted : bool;               (* [deleter_->Delete()] was called *)
}.

(** What the server is asked to do with messages *)
Inductive action :=
| AMessage (x : option nat) (m : Msg) (resource : bool)       (* [ReceiveSandeshMsg] *)
| AControl (c : nat) (m : Msg)                                (* the answer goes to the connection *)
| ADisconnect (x : option nat)                                (* [DisconnectSession] *)
| ARxFail (m : Msg) | ARx (m : Msg).                          (* statistics *)

Record Server := mkServer {
  sessions : gmap nat Session;        (* [session_ref_] *)
  conns : gmap nat Conn;              (* connections that exist *)
  connection_ : gmap EP nat;
  conn_bmap_ : list bool;
  accepting : bool;                   (* there is an acceptor *)
  deleted : bool;                     (* the server's [deleter_->Delete()] was called *)
  next_id : nat;
  log : list action;
}.

Definition new_Server : Server := mkServer ∅ ∅ ∅ [] true false 0 [].

Definition with_sessions (m : gmap nat Session) (s : Server) : Server :=
  mkServer m (conns s) (connection_ s) (conn_bmap_ s) (accepting s) (deleted s) (next_id s) (log s).
Definition with_conns (m : gmap nat Conn) (e : gmap EP nat) (s : Server) : Server :=
  mkServer (sessions s) m e (conn_bmap_ s) (accepting s) (deleted s) (next_id s) (log s).
Definition with_bmap (b : list bool) (s : Server) : Server :=
  mkServer (sessions s) (conns s) (connection_ s) b (accepting s) (deleted s) (next_id s) (log s).
Definition with_life (a d : bool) (n : nat) (s : Server) : Server :=
  mkServer (sessions s) (conns s) (connection_ s) (conn_bmap_ s) a d n (log s).
Definition do (a : action) (s : Server) : Server :=
  mkServer (sessions s) (conns s) (connection_ s) (conn_bmap_ s) (accepting s) (deleted s) (next_id s) (a :: log s).

Definition get_session (x : nat) (s : Server) : outcome Session :=
  match sessions s !! x with Some y => Ret y | None => Abort end.
Definition get_conn (c : nat) (s : Server) : outcome Conn := match conns s !! c with Some k => Ret k | None => Abort end.
Definition put_session (x : nat) (y : Session) (s : Server) : Server := with_sessions (<[x := y]> (sessions s)) s.
Definition put_conn (c : nat) (k : Conn) (s : Server) : Server := with_conns (<[c := k]> (conns s)) (connection_ s) s.

Definition k_session (o : option nat) (k : Conn) : Conn :=
  mkConn (endpoint_ k) (task_instance_ k) (admin_down_ k) o (state_ k) o (idle_hold_timer_ k) (idle_hold_time_ k)
    (resource_ k) (message_drop_level_ k) (work_queue_ k) (delete_posted k).
Definition k_state (st : SsmState) (k : Conn) : Conn :=
  mkConn (endpoint_ k) (task_instance_ k) (admin_down_ k) (c_session_ k) st (session_ k) (idle_hold_timer_ k) (idle_hold_time_ k)
    (resource_ k) (message_drop_level_ k) (work_queue_ k) (delete_posted k).
Definition k_timer (t : TM.TimerState) (time : Z) (k : Conn) : Conn :=
  mkConn (endpoint_ k) (task_instance_ k) (admin_down_ k) (c_session_ k) (state_ k) (session_ k) t time
    (resource_ k) (message_drop_level_ k) (work_queue_ k) (delete_posted k).
Definition k_resource (b : bool) (k : Conn) : Conn :=
  mkConn (endpoint_ k) (task_instance_ k) (admin_down_ k) (c_session_ k) (state_ k) (session_ k) (idle_hold_timer_ k) (idle_hold_time_ k)
    b (message_drop_level_ k) (work_queue_ k) (delete_posted k).
Definition k_level (l : Z) (k : Conn) : Conn :=
  mkConn (endpoint_ k) (task_instance_ k) (admin_down_ k) (c_session_ k) (state_ k) (session_ k) (idle_hold_timer_ k) (idle_hold_time_ k)
    (resource_ k) l (work_queue_ k) (delete_posted k).
Definition k_queue (q : list event) (k : Conn) : Conn :=
  mkConn (endpoint_ k) (task_instance_ k) (admin_down_ k) (c_session_ k) (state_ k) (session_ k) (idle_hold_timer_ k) (idle_hold_time_ k)
    (resource_ k) (message_drop_level_ k) q (delete_posted k).
Definition k_admin (down : bool) (k : Conn) : Conn :=
  mkConn (endpoint_ k) (task_instance_ k) down (c_session_ k) (state_ k) (session_ k) (idle_hold_timer_ k) (idle_hold_time_ k)
    (resource_ k) (message_drop_level_ k) (work_queue_ k) (delete_posted k).
Definition k_delete (k : Conn) : Conn :=
  mkConn (endpoint_ k) (task_instance_ k) (admin_down_ k) (c_session_ k) (state_ k) (session_ k) (idle_hold_timer_ k) (idle_hold_time_ k)
    (resource_ k) (message_drop_level_ k) (work_queue_ k) true.

(** ** The state machine *)

Definition Enqueue (ev : event) (k : Conn) : Conn := k_queue (work_queue_ k ++ [ev]) k.

(** What is done to a session that is given up *)
Definition detach (x : nat) (s : Server) : outcome Server :=
  y ← get_session x s;
  Ret (put_session x (mkSession (remote y) (instance y) None None None false) s).

(** A machine works on its connection [k] and on the server. *)
Definition DeleteSession (x : nat) (k : Conn) (s : Server) : outcome (Conn * Server) :=
  s ← detach x s; Ret (Enqueue (EvTcpDeleteSession x) k, s).
Definition set_session (o : option nat) (k : Conn) (s : Server) : outcome (Conn * Server) :=
  '(k, s) ← (match session_ k with Some x => DeleteSession x k s | None => Ret (k, s) end);
  Ret (k_session o k, s).
Definition clear_session (k : Conn) (s : Server) : outcome (Conn * Server) :=
  match session_ k with
  | Some x => s ← detach x s; Ret (k_session None k, s)
  | None => Ret (k, s)
  end.

Definition StartIdleHoldTimer (k : Conn) : Conn :=
  if idle_hold_time_ k <=? 0 then k else k_timer (CSM.Timer_Start (idle_hold_timer_ k)) (idle_hold_time_ k) k.
Definition CancelIdleHoldTimer (k : Conn) : Conn := k_timer (CSM.Timer_Cancel (idle_hold_timer_ k)) (idle_hold_time_ k) k.

Definition OnIdle (k : Conn) (s : Server) : outcome (Conn * Server) :=
  let k := k_timer (idle_hold_timer_ k) (if idle_hold_time_ k =? 0 then kIdleHoldTime else idle_hold_time_ k) k in
  set_session None (CancelIdleHoldTimer k) s.

(** [TcpServer::DeleteSession] *)
Definition server_DeleteSession (x : nat) (s : Server) : outcome Server :=
  _ ← get_session x s; Ret (with_sessions (delete x (sessions s)) s).
Definition DeleteTcpSession (x : nat) (k : Conn) (s : Server) : outcome (Conn * Server) :=
  s ← server_DeleteSession x s; Ret (k_delete k, s).

(** Entering and leaving states *)
Definition enter (st : SsmState) (k : Conn) : Conn :=
  let k := k_state st k in if bool_decide (st = ESTABLISHED) then k_resource true k else k.
Definition leave (k : Conn) : Conn :=
  match state_ k with IDLE => CancelIdleHoldTimer k | ESTABLISHED => k_resource false k | _ => k end.
Definition transit (st : SsmState) (k : Conn) : Conn := enter st (leave k).

(** [set_session(NULL); return transit<Idle>();] *)
Definition lose_session (k : Conn) (s : Server) : outcome (Conn * Server) :=
  '(k, s) ← set_session None k s; Ret (transit IDLE k, s).
(** [transition<EvStop, Idle, OnIdle>] *)
Definition stop (k : Conn) (s : Server) : outcome (Conn * Server) :=
  '(k, s) ← OnIdle (leave k) s; Ret (enter IDLE k, s).

Definition react_Idle (ev : event) (k : Conn) (s : Server) : outcome (Conn * Server) :=
  match ev with
  | EvStart => Ret (if negb (idle_hold_time_ k =? 0) then StartIdleHoldTimer k else transit ACTIVE k, s)
  | EvStop => Ret (CancelIdleHoldTimer k, s)
  | EvTcpPassiveOpen x => DeleteSession x k s
  | EvIdleHoldTimerExpired => Ret (transit ACTIVE k, s)
  | EvTcpDeleteSession x => DeleteTcpSession x k s
  | _ => Ret (k, s)
  end.

Definition react_Active (c : nat) (ev : event) (k : Conn) (s : Server) : outcome (Conn * Server) :=
  match ev with
  | EvStop => stop k s
  | EvTcpPassiveOpen x =>
      '(k, s) ← set_session (Some x) k s;
      y ← get_session x s;
      Ret (transit SERVER_INIT k, put_session x (mkSession (remote y) (instance y) (Some c) (receiver y) (connection y) (is_open y)) s)
  | EvTcpClose _ => lose_session k s
  | EvTcpDeleteSession x => DeleteTcpSession x k s
  | _ => Ret (k, s)
  end.

(** [ProcessSandeshCtrlMessage]: the result of [DecodeCtrlSandesh] is used without a test for
    NULL, by [ReceiveSandeshCtrlMsg] and for its [Release]; the answer goes to
    [session()->connection()]. *)
Definition ProcessSandeshCtrlMessage (m : Msg) (k : Conn) (s : Server) : outcome (bool * Server) :=
  if negb (ctrl_decodes m) then Abort
  else if negb (ctrl_accepted m) then Ret (false, s)
  else
    match c_session_ k with
    | None => Abort
    | Some x => y ← get_session x s; match connection y with Some c => Ret (true, do (AControl c m) s) | None => Abort end
    end.

Definition react_ServerInit (ev : event) (k : Conn) (s : Server) : outcome (Conn * Server) :=
  match ev with
  | EvStop => stop k s
  | EvTcpClose _ => lose_session k s
  | EvSandeshCtrlMessageRecv m =>
      '(ok, s) ← ProcessSandeshCtrlMessage m k s;
      if (ok : bool) then Ret (transit ESTABLISHED k, s) else lose_session k s
  | EvSandeshMessageRecv m => Ret (k, do (AMessage (c_session_ k) m true) s)
  | EvTcpDeleteSession x => DeleteTcpSession x k s
  | _ => Ret (k, s)
  end.

Definition react_Established (ev : event) (k : Conn) (s : Server) : outcome (Conn * Server) :=
  match ev with
  | EvStop => stop k s
  | EvTcpClose _ => lose_session k (do (ADisconnect (session_ k)) s)
  | EvSandeshMessageRecv m => Ret (k, do (AMessage (c_session_ k) m (resource_ k)) s)
  | EvTcpDeleteSession x => DeleteTcpSession x k s
  | EvResourceUpdate rsc accepted => let k := k_resource rsc k in if accepted then Ret (k, s) else lose_session k s
  | _ => Ret (k, s)
  end.

Definition process_event (c : nat) (ev : event) (k : Conn) (s : Server) : outcome (Conn * Server) :=
  match state_ k with
  | IDLE => react_Idle ev k s | ACTIVE => react_Active c ev k s
  | SERVER_INIT => react_ServerInit ev k s | ESTABLISHED => react_Established ev k s
  end.

(** The only [validate] with the signature that [HasValidate] looks for *)
Definition validate (ev : event) (k : Conn) : bool :=
  match ev with EvTcpClose x => bool_decide (c_session_ k = Some x) || bool_decide (session_ k = Some x) | _ => true end.

Definition DequeueEvent (c : nat) (s : Server) : outcome Server :=
  k ← get_conn c s;
  match work_queue_ k with
  | [] => Ret s
  | ev :: q =>
      let k := k_queue q k in
      if validate ev k then '(k, s) ← process_event c ev k s; Ret (put_conn c k s) else Ret (put_conn c k s)
  end.

Definition IdleHoldTimerExpired (c : nat) (s : Server) : outcome Server :=
  k ← get_conn c s; Ret (put_conn c (Enqueue EvIdleHoldTimerExpired (k_timer TM.Init (idle_hold_time_ k) k)) s).
Definition SetAdminState (c : nat) (down : bool) (s : Server) : outcome Server :=
  k ← get_conn c s;
  Ret (if bool_decide (admin_down_ k = down) then s
       else
         let k := k_admin down k in
         put_conn c (if down then Enqueue EvStop k else Enqueue EvStart (k_timer (idle_hold_timer_ k) 0 k)) s).
Definition ResourceUpdate (c : nat) (rsc accepted : bool) (s : Server) : outcome Server :=
  k ← get_conn c s; Ret (put_conn c (Enqueue (EvResourceUpdate rsc accepted) k) s).
Definition SetSandeshMessageDropLevel (c : nat) (l : Z) (s : Server) : outcome Server :=
  k ← get_conn c s; Ret (put_conn c (k_level l k) s).

(** [OnSandeshMessage]: false makes the reader close the session. *)
Definition OnSandeshMessage (c : nat) (m : Msg) (s : Server) : outcome (bool * Server) :=
  k ← get_conn c s;
  if negb (parses m) then Ret (false, do (ARxFail m) s)
  else if DoDropSandeshMessage flows_disabled m (message_drop_level_ k) then Ret (true, do (ARxFail m) s)
  else if control m then
    if negb (header_ok m) then Ret (false, do (ARxFail m) s)
    else Ret (true, put_conn c (Enqueue (EvSandeshCtrlMessageRecv m) k) (do (ARx m) s))
  else Ret (true, put_conn c (Enqueue (EvSandeshMessageRecv m) k) (do (ARx m) s)).

(** [OnSessionEvent(session, CLOSE)] *)
Definition OnSessionClose (c x : nat) (s : Server) : outcome Server :=
  k ← get_conn c s; Ret (put_conn c (Enqueue (EvTcpClose x) k) s).

(** ** The server *)

(** [conn_bmap_]: true where the index is free *)
Definition AllocConnectionIndex (b : list bool) : nat * list bool :=
  match list_find (λ f, f = true) b with
  | Some (i, _) => (i, <[i := false]> b)
  | None => (length b, b ++ [false])
  end.

(** The loop that drops free indexes at the end *)
Fixpoint shrink (k : nat) (b : list bool) : list bool :=
  match k with
  | O => []
  | S i => match b !! i with Some true => shrink i b | _ => take k b end
  end.
Definition FreeConnectionIndex (id : nat) (b : list bool) : outcome (list bool) :=
  assert_that (id <? length b)%nat;;
  let b := <[id := true]> b in Ret (shrink (length b) b).

(** [FindConnection]: [find_if] with [Compare] *)
Definition Compare (peer : EP) (p : EP * nat) (s : Server) : bool :=
  match conns s !! p.2 with Some k => negb (bool_decide (peer = endpoint_ k)) | None => false end.
Definition FindConnection (peer : EP) (s : Server) : option nat :=
  snd <$> List.find (λ p, Compare peer p s) (map_to_list (connection_ s)).

(** [SandeshConnection::AcceptSession], with [PassiveOpen] of the machine *)
Definition Connection_AcceptSession (c x : nat) (s : Server) : outcome Server :=
  y ← get_session x s;
  k ← get_conn c s;
  let s := put_session x (mkSession (remote y) (instance y) (Some c) (Some c) (Some c) (is_open y)) s in
  Ret (put_conn c (Enqueue (EvTcpPassiveOpen x) k) s).

(** A new connection; its [LifetimeRef] asserts that the server is not being deleted. *)
Definition new_connection (c : nat) (ep : EP) (inst : nat) (s : Server) : outcome Server :=
  assert_that (negb (deleted s));;
  let k := mkConn ep inst false None IDLE None TM.Init 0 false (2 ^ 31 - 1) [EvStart] false in
  Ret (with_conns (<[c := k]> (conns s)) (<[ep := c]> (connection_ s)) s).

Definition AcceptSession (x c : nat) (s : Server) : outcome (bool * Server) :=
  y ← get_session x s;
  match connection_ s !! remote y with
  | None => s ← new_connection c (remote y) (instance y) s; s ← Connection_AcceptSession c x s; Ret (true, s)
  | Some c0 =>
      k ← get_conn c0 s;
      match c_session_ k with
      | Some _ => Ret (false, s)
      | None => s ← Connection_AcceptSession c0 x s; Ret (true, s)
      end
  end.

(** The acceptance of a session by the TCP server: [AllocSession], then [AcceptSession]; a
    session that is refused is destroyed. *)
Definition Accept (ep : EP) (s : Server) : outcome Server :=
  let x := next_id s in
  let '(inst, b) := AllocConnectionIndex (conn_bmap_ s) in
  let s := with_bmap b (with_life (accepting s) (deleted s) (S x) s) in
  let s := put_session x (mkSession ep inst None None None true) s in
  '(ok, s) ← AcceptSession x x s;
  Ret (if (ok : bool) then s else with_sessions (delete x (sessions s)) s).

(** The [DeleteActor] of a connection: [Shutdown], then [Destroy] with the destructors *)
Definition Connection_Shutdown (c : nat) (s : Server) : outcome Server :=
  k ← get_conn c s;
  let session := session_ k in
  '(k, s) ← clear_session k s;
  let s := put_conn c k s in
  match session with Some x => server_DeleteSession x s | None => Ret s end.
Definition Connection_Destroy (c : nat) (s : Server) : outcome Server :=
  k ← get_conn c s;
  b ← FreeConnectionIndex (task_instance_ k) (conn_bmap_ s);
  assert_that (bool_decide (session_ k = None));;          (* ~SandeshStateMachine *)
  Ret (with_conns (delete c (conns s)) (delete (endpoint_ k) (connection_ s)) (with_bmap b s)).
Definition lifetime_delete (c : nat) (s : Server) : outcome Server :=
  s ← Connection_Shutdown c s; Connection_Destroy c s.

(** [SandeshServer::Shutdown], and what the lifetime manager does then *)
Definition Shutdown (s : Server) : Server := with_life (accepting s) true (next_id s) s.
Definition lifetime_shutdown (s : Server) : Server :=
  with_life false (deleted s) (next_id s) (with_conns (k_delete <$> conns s) (connection_ s) s).

(** [Initialize]: the count after the loop; [ok n] says whether the [n]th attempt succeeds.
    The process exits unless the result is [Some]. *)
Fixpoint init_count (k : nat) (count : Z) (ok : Z → bool) : Z :=
  match k with
  | O => count
  | S k => if count <? kMaxInitRetries then let count := count + 1 in if ok count then count else init_count k count ok
           else count + 1
  end.
Definition Initialize (ok : Z → bool) : option unit :=
  if init_count 6 0 ok <? kMaxInitRetries then Some tt else None.

End Server.
End SSV.
