(* ===== verification/SandeshServerThms.v ===== *)
(** * The sandesh server never uses what it gave up

    The steps of the server of [SandeshServer], and what holds after any sequence of them:
    every connection goes through the phases [Pending], [Open], [Closing], [Done], its
    session is attached to it in the first two of them, and nothing that was deleted is
    used.

    Two things are assumed of the environment and stated as guards of the steps, because
    the code does not check them: a remote endpoint is not used again while its connection
    has no session ([step_accept]), and the lifetime manager does not destroy a connection
    that has not looked at its session yet ([step_lifetime]); the second can only happen
    after the server was shut down.  [endpoint_reuse_dangles] and [shutdown_dangles] show what
    happens without them.  Two kinds of steps fail ([fails]): the process aborts. *)

From stdpp Require Import gmap list.
From S2P Require Import Prelude Timer SandeshClientSM SandeshServer.
Open Scope Z_scope.

Module SST.
Import SSV.

Section Proofs.
Context {EP : Type} `{Countable EP} (flows_disabled : bool).
Implicit Types (s : Server (EP := EP)) (k : Conn (EP := EP)) (y : Session (EP := EP)) (m : gmap nat (Session (EP := EP))).

(** ** Steps *)

(** The socket of a session is closed by its peer, or by the reader after a bad message:
    the observer is told once. *)
Definition TcpClose (x : nat) s : outcome (Server (EP := EP)) :=
  y ← get_session x s;
  if negb (is_open y) then Ret s
  else
    let s := put_session x (mkSession (remote y) (instance y) (observer y) (receiver y) (connection y) false) s in
    match observer y with Some c => OnSessionClose c x s | None => Ret s end.

(** The reader delivers a message *)
Definition Deliver (x : nat) (msg : Msg) s : outcome (Server (EP := EP)) :=
  y ← get_session x s;
  match receiver y with
  | None => Ret s
  | Some c =>
      '(ok, s) ← OnSandeshMessage flows_disabled c msg s;
      if (ok : bool) then Ret s else TcpClose x s
  end.

(** A session was announced to the machine, which has not seen it yet *)
Definition is_passive (ev : event) : bool := match ev with EvTcpPassiveOpen _ => true | _ => false end.
Definition unseen k : bool := existsb is_passive (work_queue_ k).

Inductive label :=
| LAccept (ep : EP) | LMessage (x : nat) (msg : Msg) | LTcpClose (x : nat)
| LEvent (c : nat) | LTimer (c : nat) | LAdmin (c : nat) (down : bool)
| LResource (c : nat) (rsc accepted : bool) | LDrop (c : nat) (l : Z)
| LLifetime (c : nat) | LShutdown | LServerShutdown.

Inductive step : Server → label → outcome (Server (EP := EP)) → Prop :=
| step_accept s ep : accepting s = true →
    (∀ c k, connection_ s !! ep = Some c → conns s !! c = Some k → c_session_ k ≠ None) → step s (LAccept ep) (Accept ep s)
| step_message s x msg y : sessions s !! x = Some y → step s (LMessage x msg) (Deliver x msg s)
| step_close s x y : sessions s !! x = Some y → step s (LTcpClose x) (TcpClose x s)
| step_event s c k : conns s !! c = Some k → step s (LEvent c) (DequeueEvent c s)
| step_timer s c k : conns s !! c = Some k → idle_hold_timer_ k = TM.Running →
    step s (LTimer c) (IdleHoldTimerExpired c s)
| step_admin s c k down : conns s !! c = Some k → step s (LAdmin c down) (SetAdminState c down s)
| step_resource s c k rsc acc : conns s !! c = Some k → step s (LResource c rsc acc) (ResourceUpdate c rsc acc s)
| step_drop s c k l : conns s !! c = Some k → step s (LDrop c l) (SetSandeshMessageDropLevel c l s)
| step_lifetime s c k : conns s !! c = Some k → delete_posted k = true → unseen k = false →
    step s (LLifetime c) (lifetime_delete c s)
| step_shutdown s : step s LShutdown (Ret (Shutdown s))
| step_server s : deleted s = true → step s LServerShutdown (Ret (lifetime_shutdown s)).

Inductive reachable : Server → Prop :=
| reach_new : reachable new_Server
| reach_step s l s' : reachable s → step s l (Ret s') → reachable s'.

(** ** The invariant *)

(** What an event says of a session: it is announced, or it is to be deleted *)
Definition ref (ev : event) : option (bool * nat) :=
  match ev with EvTcpPassiveOpen x => Some (true, x) | EvTcpDeleteSession x => Some (false, x) | _ => None end.
Definition refs (q : list event) : list (bool * nat) := omap ref q.

Inductive phase := Pending (x : nat) | Open (x : nat) | Closing (x : nat) | Done.
Definition own (p : phase) : option nat := match p with Pending x | Open x | Closing x => Some x | Done => None end.

Definition attached (c : nat) y : Prop := observer y = Some c ∧ receiver y = Some c ∧ connection y = Some c.
Definition detached y : Prop := observer y = None ∧ receiver y = None ∧ connection y = None ∧ is_open y = false.

Definition unopened (st : SsmState) : Prop := st = IDLE ∨ st = ACTIVE.
Definition opened (st : SsmState) : Prop := st = SERVER_INIT ∨ st = ESTABLISHED.

(** A session that was closed has its event behind the one that announced it. *)
Definition phase_ok (c : nat) k m (p : phase) : Prop :=
  match p with
  | Pending x => session_ k = None ∧ unopened (state_ k) ∧
      ∃ q1 q2 y, work_queue_ k = q1 ++ EvTcpPassiveOpen x :: q2 ∧ refs q1 = [] ∧ refs q2 = [] ∧
        m !! x = Some y ∧ attached c y ∧ remote y = endpoint_ k ∧ (is_open y = false → EvTcpClose x ∈ q2)
  | Open x => session_ k = Some x ∧ opened (state_ k) ∧ refs (work_queue_ k) = [] ∧
      ∃ y, m !! x = Some y ∧ attached c y ∧ remote y = endpoint_ k ∧ (is_open y = false → EvTcpClose x ∈ work_queue_ k)
  | Closing x => session_ k = None ∧ unopened (state_ k) ∧ refs (work_queue_ k) = [(false, x)] ∧
      ∃ y, m !! x = Some y ∧ detached y ∧ remote y = endpoint_ k
  | Done => session_ k = None ∧ unopened (state_ k) ∧ refs (work_queue_ k) = [] ∧ delete_posted k = true
  end.

(** A connection is deleted before its time only when the server is. *)
Definition conn_ok (del : bool) (c : nat) k m : Prop :=
  c_session_ k = session_ k ∧ ∃ p, phase_ok c k m p ∧ (del = false → delete_posted k = true → p = Done).

(** A session belongs to a connection, or was given up. *)
Definition sess_ok s (x : nat) y : Prop :=
  (∃ c k p, conns s !! c = Some k ∧ phase_ok c k (sessions s) p ∧ own p = Some x) ∨ (deleted s = true ∧ detached y).

Record Inv s : Prop := mkInv {
  inv_conn c k : conns s !! c = Some k →
    connection_ s !! endpoint_ k = Some c ∧ conn_bmap_ s !! task_instance_ k = Some false ∧ (c < next_id s)%nat ∧
    conn_ok (deleted s) c k (sessions s);
  inv_map ep c : connection_ s !! ep = Some c → ∃ k, conns s !! c = Some k ∧ endpoint_ k = ep;
  inv_index c1 c2 k1 k2 : conns s !! c1 = Some k1 → conns s !! c2 = Some k2 →
    task_instance_ k1 = task_instance_ k2 → c1 = c2;
  inv_sess x y : sessions s !! x = Some y → (x < next_id s)%nat ∧ sess_ok s x y;
}.

(** The work that is left to a machine: an announced session is also going to be deleted. *)
Definition weight (ev : event) : nat := if is_passive ev then 2 else 1.
Definition load (q : list event) : nat := foldr (λ ev n, weight ev + n)%nat 0%nat q.
Definition work k : nat := load (work_queue_ k) + (if session_ k is Some _ then 1 else 0).

Ltac destruct_exists := repeat match goal with H : ∃ _, _ |- _ => destruct H end.

(** ** Connections do not disturb each other *)

Lemma load_app q1 q2 : load (q1 ++ q2) = (load q1 + load q2)%nat.
Proof. induction q1; simpl; [done|]. unfold load in *. simpl. lia. Qed.

Lemma phase_own c k m p x :
  phase_ok c k m p → own p = Some x → ∃ y, m !! x = Some y ∧ remote y = endpoint_ k ∧ (attached c y ∨ detached y).
Proof. destruct p; simpl; intros; simplify_eq; destruct_and?; naive_solver. Qed.

Lemma phase_frame c k m m' p :
  (∀ x, own p = Some x → m' !! x = m !! x) → phase_ok c k m p → phase_ok c k m' p.
Proof. destruct p; simpl; intros Hx; try rewrite (Hx _ eq_refl); done. Qed.

Lemma refs_app q1 q2 : refs (q1 ++ q2) = refs q1 ++ refs q2.
Proof. apply omap_app. Qed.

Lemma phase_unique c k m p1 p2 : phase_ok c k m p1 → phase_ok c k m p2 → p1 = p2.
Proof.
  assert (Hr : ∀ q1 q2 x, refs q1 = [] → refs q2 = [] → refs (q1 ++ EvTcpPassiveOpen x :: q2) = [(true, x)]).
  { intros q1 q2 x H1 H2. rewrite refs_app, H1. simpl. f_equal. apply H2. }
  destruct p1, p2; simpl; intros H1 H2; destruct_and?; destruct_exists; destruct_and?; try congruence; repeat match goal with H : work_queue_ _ = _ |- _ => apply (f_equal refs) in H end;
    rewrite ?Hr in * by done; try congruence.
Qed.

Lemma own_apart s c1 c2 k1 k2 p1 p2 x :
  Inv s → conns s !! c1 = Some k1 → conns s !! c2 = Some k2 →
  phase_ok c1 k1 (sessions s) p1 → phase_ok c2 k2 (sessions s) p2 → own p1 = Some x → own p2 = Some x → c1 = c2.
Proof.
  intros HI Hk1 Hk2 Hp1 Hp2 Ho1 Ho2.
  destruct (phase_own _ _ _ _ _ Hp1 Ho1) as (y1&Hy1&Hr1&_).
  destruct (phase_own _ _ _ _ _ Hp2 Ho2) as (y2&Hy2&Hr2&_).
  destruct (inv_conn _ HI _ _ Hk1) as [Hc1 _]. destruct (inv_conn _ HI _ _ Hk2) as [Hc2 _]. congruence.
Qed.

(** A connection changed, and only its own session did. *)
Lemma srv_put s c k p k' p' m' l :
  Inv s → conns s !! c = Some k → phase_ok c k (sessions s) p →
  endpoint_ k' = endpoint_ k → task_instance_ k' = task_instance_ k → c_session_ k' = session_ k' →
  phase_ok c k' m' p' → (deleted s = false → delete_posted k' = true → p' = Done) →
  (∀ z, own p ≠ Some z → m' !! z = sessions s !! z) →
  (∀ z y, own p = Some z → m' !! z = Some y → own p' = Some z) →
  Inv (mkServer m' (<[c := k']> (conns s)) (connection_ s) (conn_bmap_ s) (accepting s) (deleted s) (next_id s) l).
Proof.
  intros HI Hk Hp He Hi Hs Hp' Hd Hm Hown.
  destruct (inv_conn _ HI _ _ Hk) as (Hc&Hb&Hlt&_).
  assert (Hframe : ∀ c2 k2 p2, c2 ≠ c → conns s !! c2 = Some k2 → phase_ok c2 k2 (sessions s) p2 → phase_ok c2 k2 m' p2).
  { intros c2 k2 p2 Hne Hk2 Hp2. apply (phase_frame _ _ (sessions s)); [|done]. intros z Hz. apply Hm. intros Hz'.
    apply Hne. by eapply own_apart. }
  split; simpl.
  - intros c2 k2. rewrite lookup_insert_Some. intros [[<- <-]|[Hne Hk2]].
    + rewrite He, Hi. split_and!; [done..|]. split; [done|]. eauto.
    + destruct (inv_conn _ HI _ _ Hk2) as (?&?&?&?&p2&?&?). split_and!; [done..|]. split; [done|]. eauto.
  - intros ep c2 Hc2. destruct (inv_map _ HI _ _ Hc2) as (k2&Hk2&?). destruct (decide (c2 = c)) as [->|].
    + exists k'. rewrite lookup_insert_eq. split; congruence.
    + exists k2. by rewrite lookup_insert_ne.
  - intros c1 c2 k1 k2. rewrite !lookup_insert_Some. pose proof (inv_index _ HI).
    intros [[<- <-]|[? ?]] [[<- <-]|[? ?]]; rewrite ?Hi; eauto.
  - intros x y Hy. destruct (decide (own p = Some x)) as [Hx|Hx].
    + destruct (phase_own _ _ _ _ _ Hp Hx) as (y0&Hy0&_). destruct (inv_sess _ HI _ _ Hy0) as [? _].
      split; [done|]. left. exists c, k', p'. simpl. rewrite lookup_insert_eq. eauto.
    + rewrite Hm in Hy by done. destruct (inv_sess _ HI _ _ Hy) as [? [(c2&k2&p2&Hk2&Hp2&Ho)|]]; split; [done| |done|by right].
      destruct (decide (c2 = c)) as [->|].
      * simplify_eq. rewrite (phase_unique _ _ _ _ _ Hp2 Hp) in Ho. done.
      * left. exists c2, k2, p2. simpl. rewrite lookup_insert_ne by done. eauto.
Qed.

(** ** The machine *)

(** Control messages come from the reader only. *)
Definition no_new_ctrl k k' : Prop :=
  ∀ msg, EvSandeshCtrlMessageRecv msg ∈ work_queue_ k' → EvSandeshCtrlMessageRecv msg ∈ work_queue_ k.

(** What an event may do to a connection [k] in phase [p], and to its session *)
Record advance (c : nat) s k (p : phase) (k' : Conn (EP := EP)) m' (p' : phase) : Prop := mkAdvance {
  adv_id : endpoint_ k' = endpoint_ k ∧ task_instance_ k' = task_instance_ k ∧ c_session_ k' = session_ k';
  adv_phase : phase_ok c k' m' p';
  adv_delete : delete_posted k' = true → delete_posted k = true ∨ p' = Done;
  adv_done : p = Done → p' = Done;
  adv_frame z : own p ≠ Some z → m' !! z = sessions s !! z;
  adv_own z y : own p = Some z → m' !! z = Some y → own p' = Some z;
  adv_sess z y' : m' !! z = Some y' →
    ∃ y, sessions s !! z = Some y ∧ remote y' = remote y ∧ (is_open y = false → is_open y' = false);
  adv_work : (work k' < work k)%nat;
  adv_ctrl : no_new_ctrl k k';
}.
Definition with_log (m : gmap nat (Session (EP := EP))) l s : Server :=
  mkServer m (conns s) (connection_ s) (conn_bmap_ s) (accepting s) (deleted s) (next_id s) l.
Definition advances c s k p (r : outcome (Conn * Server)) : Prop :=
  ∃ k' m' l p', r = Ret (k', with_log m' l s) ∧ advance c s k p k' m' p'.

Lemma with_log_id s : with_log (sessions s) (log s) s = s.
Proof. by destruct s. Qed.

Lemma advances_log c s k p k' : advances c s k p (Ret (k', s)) = advances c s k p (Ret (k', with_log (sessions s) (log s) s)).
Proof. by rewrite with_log_id. Qed.

(** The sessions are left alone. *)
Lemma advance_quiet c s k p k' :
  endpoint_ k' = endpoint_ k → task_instance_ k' = task_instance_ k → c_session_ k' = session_ k' →
  delete_posted k' = delete_posted k → phase_ok c k' (sessions s) p → (work k' < work k)%nat → no_new_ctrl k k' →
  ∀ l, advances c s k p (Ret (k', with_log (sessions s) l s)).
Proof.
  intros He Hi Hs Hd Hp Hw Hn l. exists k', (sessions s), l, p. split; [done|].
  split; [done| done | by rewrite Hd; left | done..| |done|done]. eauto.
Qed.

(** The session is given up. *)
Definition given_up y : Session := mkSession (remote y) (instance y) None None None false.
Lemma advance_close c s k p k' x y l q :
  sessions s !! x = Some y → own p = Some x → remote y = endpoint_ k →
  endpoint_ k' = endpoint_ k → task_instance_ k' = task_instance_ k → c_session_ k' = None → session_ k' = None →
  delete_posted k' = delete_posted k → unopened (state_ k') → work_queue_ k' = q ++ [EvTcpDeleteSession x] → refs q = [] →
  (work k' < work k)%nat → q ⊆ work_queue_ k →
  advances c s k p (Ret (k', with_log (<[x := given_up y]> (sessions s)) l s)).
Proof.
  intros Hy Ho Hr He Hi Hcs Hs Hd Hst Hq Hq0 Hw Hsub. eexists k', _, l, (Closing x). split; [done|]. split; simpl.
  - by rewrite Hcs.
  - split_and!; [done..|by rewrite Hq, refs_app, Hq0|]. exists (given_up y). rewrite lookup_insert_eq, He. done.
  - rewrite Hd. by left.
  - by intros ->.
  - intros z Hz. rewrite lookup_insert_ne; [done|]. congruence.
  - congruence.
  - intros z y2. rewrite lookup_insert_Some. intros [[<- <-]|[? ?]]; eauto.
  - done.
  - intros msg. rewrite Hq. intros [?|?%list_elem_of_singleton]%elem_of_app; [by apply Hsub|done].
Qed.

Definition handle (c : nat) (ev : event) k s : outcome (Conn * Server) :=
  if validate ev k then process_event c ev k s else Ret (k, s).

Lemma refs_cons_none ev q : ref ev = None → refs (ev :: q) = refs q.
Proof. unfold refs. simpl. by intros ->. Qed.

Lemma weight_pos ev : (1 ≤ weight ev)%nat.
Proof. unfold weight. destruct (is_passive ev); lia. Qed.

(** A machine without a session does nothing to sessions, unless the event names one. *)
Lemma handle_idle c ev q k s :
  work_queue_ k = ev :: q → session_ k = None → c_session_ k = None → unopened (state_ k) → ref ev = None →
  ∃ k', handle c ev (k_queue q k) s = Ret (k', s) ∧ endpoint_ k' = endpoint_ k ∧ task_instance_ k' = task_instance_ k ∧
    session_ k' = None ∧ c_session_ k' = None ∧ unopened (state_ k') ∧ work_queue_ k' = q ∧ delete_posted k' = delete_posted k.
Proof.
  intros Hq Hs Hcs Hst Hr. destruct k; simpl in *; subst. unfold handle.
  destruct Hst as [-> | ->], ev; simplify_eq; cbn; rewrite ?bool_decide_false by done;
    cbn; unfold StartIdleHoldTimer; cbn; repeat case_match; eexists; split_and!; try reflexivity; unfold unopened; cbn; by auto.
Qed.

(** Idle phases *)
Lemma handle_unnamed c ev q k s p :
  work_queue_ k = ev :: q → c_session_ k = session_ k → session_ k = None → unopened (state_ k) → ref ev = None →
  phase_ok c k (sessions s) p → (∀ x, p ≠ Open x) → advances c s k p (handle c ev (k_queue q k) s).
Proof.
  intros Hq Hcs Hs Hst Hr Hp Ho. destruct (handle_idle c ev q k s) as (k'&->&?&?&Hs'&?&?&Hq'&?); try done; [congruence|].
  rewrite advances_log. apply advance_quiet; try done; [congruence| | |intros msg; rewrite Hq, Hq'; by right].
  - destruct p as [x|x|x|]; cbn [phase_ok] in *; [|by destruct (Ho x)|..]; rewrite Hq' || idtac; rewrite Hq in Hp.
    + destruct Hp as (_&_&q1&q2&y&Hqq&Hq1&?&?&?&Hry&?). split_and!; [done..|].
      destruct q1 as [|ev' q1]; [by simplify_list_eq|]. rewrite <-app_comm_cons in Hqq.
      injection Hqq as <- Hqq. rewrite refs_cons_none in Hq1 by done.
      exists q1, q2, y. split_and!; try done. congruence.
    + rewrite refs_cons_none in Hp by done. destruct Hp as (_&_&?&y&?&?&?). split_and!; [done..|].
      exists y. split_and!; try done. congruence.
    + rewrite refs_cons_none in Hp by done. destruct Hp as (_&_&?&?). split_and!; congruence.
  - unfold work. rewrite Hs, Hs', Hq, Hq'. simpl. pose proof (weight_pos ev). lia.
Qed.

Lemma get_session_eq x s y : sessions s !! x = Some y → get_session x s = Ret y.
Proof. unfold get_session. by intros ->. Qed.
Lemma get_conn_eq c s k : conns s !! c = Some k → get_conn c s = Ret k.
Proof. unfold get_conn. by intros ->. Qed.

Lemma detach_eq x s y :
  sessions s !! x = Some y → detach x s = Ret (with_log (<[x := given_up y]> (sessions s)) (log s) s).
Proof. intros Hy. unfold detach. rewrite (get_session_eq _ _ _ Hy). done. Qed.

(** The session that was announced *)
Lemma handle_passive c x q k s p :
  work_queue_ k = EvTcpPassiveOpen x :: q → c_session_ k = session_ k →
  phase_ok c k (sessions s) p → p = Pending x → advances c s k p (handle c (EvTcpPassiveOpen x) (k_queue q k) s).
Proof.
  intros Hq Hcs Hp ->. destruct Hp as (Hs&Hst&q1&q2&y&Hq'&Hq1&Hq2&Hy&Ha&Hr&Ho).
  rewrite Hq in Hq'. destruct q1 as [|e q1]; simplify_list_eq.
  unfold handle; simpl. unfold process_event. simpl. destruct Hst as [Hst|Hst]; rewrite Hst; simpl.
  - unfold DeleteSession. rewrite (detach_eq _ _ y) by done. cbn. apply (advance_close _ _ _ _ _ _ y _ q2); try done; simpl; try congruence.
    + left. done.
    + unfold work. simpl. rewrite Hq, Hs, load_app. simpl. lia.
    + rewrite Hq. by right.
  - unfold set_session. simpl. rewrite Hs. cbn. rewrite (get_session_eq _ _ y) by done. cbn.
    eexists _, _, _, (Open x). split; [done|]. unfold transit, leave. simpl. rewrite Hst. split; simpl.
    + done.
    + split_and!; [done|by left|done|]. eexists. rewrite lookup_insert_eq. split_and!; [done|..|done|done].
      destruct Ha as (?&?&?). by split_and!.
    + by left.
    + done.
    + intros z Hz. rewrite lookup_insert_ne; [done|]. congruence.
    + done.
    + intros z y2. rewrite lookup_insert_Some. intros [[<- <-]|[? ?]]; eauto.
    + unfold work. simpl. rewrite Hq, Hs. simpl. lia.
    + intros msg. simpl. rewrite Hq. by right.
Qed.

(** The session that is to be deleted *)
Lemma handle_delete c x q k s p :
  work_queue_ k = EvTcpDeleteSession x :: q → c_session_ k = session_ k →
  phase_ok c k (sessions s) p → p = Closing x → advances c s k p (handle c (EvTcpDeleteSession x) (k_queue q k) s).
Proof.
  intros Hq Hcs Hp ->. destruct Hp as (Hs&Hst&Hrf&y&Hy&Ha&Hr). rewrite Hq in Hrf. unfold refs in Hrf. simpl in Hrf. simplify_eq.
  assert (Hh : handle c (EvTcpDeleteSession x) (k_queue q k) s =
    Ret (k_delete (k_queue q k), with_log (delete x (sessions s)) (log s) s)).
  { unfold handle, process_event. simpl. destruct Hst as [-> | ->]; simpl;
      unfold DeleteTcpSession, server_DeleteSession; rewrite (get_session_eq _ _ y) by done; done. }
  rewrite Hh. eexists _, _, _, Done. split; [done|]. split; simpl; try done.
  - by right.
  - intros z Hz. rewrite lookup_delete_ne; [done|]. congruence.
  - intros z y' ?. simplify_eq. by rewrite lookup_delete_eq.
  - intros z y2. rewrite lookup_delete_Some. intros [? ?]. eauto.
  - unfold work. simpl. rewrite Hq, Hs. simpl. lia.
  - intros msg. simpl. rewrite Hq. by right.
Qed.

(** [k0] is [k] after its first event was taken, whatever else the reaction did to it. *)
Definition taken k k0 (q : list event) : Prop :=
  endpoint_ k0 = endpoint_ k ∧ task_instance_ k0 = task_instance_ k ∧ session_ k0 = session_ k ∧
  delete_posted k0 = delete_posted k ∧ work_queue_ k0 = q ∧ (load q < load (work_queue_ k))%nat ∧ q ⊆ work_queue_ k.

Lemma drop_session c s k k0 q x y l :
  taken k k0 q → phase_ok c k (sessions s) (Open x) → sessions s !! x = Some y → refs q = [] →
  ∃ k1, set_session None k0 (with_log (sessions s) l s) = Ret (k1, with_log (<[x := given_up y]> (sessions s)) l s) ∧
    (∀ k2, endpoint_ k2 = endpoint_ k1 → task_instance_ k2 = task_instance_ k1 → c_session_ k2 = c_session_ k1 →
      session_ k2 = session_ k1 → delete_posted k2 = delete_posted k1 → work_queue_ k2 = work_queue_ k1 → state_ k2 = IDLE →
      advances c s k (Open x) (Ret (k2, with_log (<[x := given_up y]> (sessions s)) l s))).
Proof.
  intros (He&Hi&Hs&Hd&Hq&Hl&Hsub) (Hs0&Hst&Hrf&y'&Hy'&Ha&Hr&Ho) Hy Hq0. simplify_eq.
  exists (k_session None (Enqueue (EvTcpDeleteSession x) k0)). split.
  - unfold set_session, DeleteSession. rewrite Hs, Hs0. rewrite (detach_eq _ _ y') by done. done.
  - intros k2 ??? H2 ? H4 Hs2. apply (advance_close _ _ _ _ _ _ y' _ (work_queue_ k0)); simpl in *; try congruence.
    + by left.
    + unfold work. rewrite H4, H2, Hs0, load_app. simpl. lia.
    + exact Hsub.
Qed.

Lemma lose_session_open c s k k0 q x l :
  taken k k0 q → phase_ok c k (sessions s) (Open x) → refs q = [] →
  advances c s k (Open x) (lose_session k0 (with_log (sessions s) l s)).
Proof.
  intros Ht Hp Hq. destruct (phase_own _ _ _ _ _ Hp eq_refl) as (y&Hy&_).
  destruct (drop_session _ _ _ _ _ _ _ l Ht Hp Hy Hq) as (k1&He&Ha). unfold lose_session. rewrite He. cbn.
  apply Ha; unfold transit, enter, leave; destruct (state_ k1); done.
Qed.

Lemma stop_open c s k k0 q x l :
  taken k k0 q → phase_ok c k (sessions s) (Open x) → refs q = [] →
  advances c s k (Open x) (stop k0 (with_log (sessions s) l s)).
Proof.
  intros Ht Hp Hq. destruct (phase_own _ _ _ _ _ Hp eq_refl) as (y&Hy&_). unfold stop, OnIdle.
  edestruct (drop_session c s k) as (k1&He&Ha); [|done..|rewrite He; cbn; by apply Ha].
  unfold leave. destruct Ht as (?&?&?&?&?&?&?). by destruct (state_ k0).
Qed.

(** The session stays. *)
Lemma stay_open c s k k0 q x l :
  taken k k0 q → c_session_ k0 = session_ k0 → opened (state_ k0) → phase_ok c k (sessions s) (Open x) → refs q = [] →
  (EvTcpClose x ∈ work_queue_ k → EvTcpClose x ∈ q) →
  advances c s k (Open x) (Ret (k0, with_log (sessions s) l s)).
Proof.
  intros (?&?&Hs&?&Hq&?&Hsub) ?? (Hs0&Hst&Hrf&y'&Hy'&Ha&Hr&Ho) ? Hin. apply advance_quiet; try done.
  - split_and!; [congruence|done|congruence|]. exists y'. rewrite Hq. split_and!; auto. congruence.
  - unfold work. rewrite Hq, Hs. lia.
  - intros msg. rewrite Hq. apply Hsub.
Qed.

(** A control message that the machine looks at and cannot decode *)
Definition undecodable (ev : event) k : bool :=
  match ev with EvSandeshCtrlMessageRecv msg => negb (ctrl_decodes msg) && bool_decide (state_ k = SERVER_INIT) | _ => false end.

Lemma handle_open c ev q k s x :
  work_queue_ k = ev :: q → c_session_ k = session_ k → phase_ok c k (sessions s) (Open x) → undecodable ev k = false →
  advances c s k (Open x) (handle c ev (k_queue q k) s).
Proof.
  intros Hq Hcs Hp Hun. pose proof Hp as (Hs&Hst&Hrf&y&Hy&Ha&Hr&Ho). rewrite Hq in Hrf.
  assert (Hev : ref ev = None ∧ refs q = []) by (unfold refs in *; simpl in Hrf; by case_match).
  destruct Hev as [Hev Hq0].
  assert (Ht : taken k (k_queue q k) q).
  { split_and!; try done; rewrite Hq; [|by right]. simpl. pose proof (weight_pos ev). lia. }
  assert (Hstay : ∀ k0 l, taken k k0 q → c_session_ k0 = session_ k0 → opened (state_ k0) → EvTcpClose x ≠ ev →
    advances c s k (Open x) (Ret (k0, with_log (sessions s) l s))).
  { intros. eapply stay_open; [done..|]. rewrite Hq. set_solver. }
  unfold handle. destruct (decide (ev = EvTcpClose x)) as [->|Hne].
  { simpl. rewrite (bool_decide_true (session_ k = Some x)), orb_true_r by done. unfold process_event. simpl.
    destruct Hst as [-> | ->]; simpl; [rewrite <-(with_log_id s) at 2|]; by eapply lose_session_open. }
  assert (Hid : advances c s k (Open x) (Ret (k_queue q k, s))) by (rewrite advances_log; by apply Hstay).
  case_match; [|done]. unfold process_event. simpl. pose proof Hst as Hst'.
  destruct Hst as [Hst|Hst]; rewrite Hst; destruct ev as [| | | | | |msg|msg|rsc acc]; simplify_eq; simpl; try done;
    try (by eapply lose_session_open); try (by apply Hstay).
  1, 4: rewrite <-(with_log_id s) at 2; by eapply stop_open.
  - rewrite <-(with_log_id s) at 2. by eapply lose_session_open.
  - unfold ProcessSandeshCtrlMessage. simpl in Hun |- *. rewrite bool_decide_true, andb_true_r in Hun by done.
    rewrite Hun, Hcs, Hs. destruct (ctrl_accepted msg); cbn [negb mbind outcome_mbind].
    + rewrite (get_session_eq _ _ y) by done. destruct Ha as (_&_&Hc). cbn. rewrite Hc. cbn.
      unfold transit, leave. simpl. rewrite Hst. apply Hstay; [done|done|by right|done].
    + rewrite <-(with_log_id s) at 2. by eapply lose_session_open.
  - destruct acc; [rewrite advances_log; by apply Hstay|]. rewrite <-(with_log_id s) at 2. by eapply lose_session_open.
Qed.

Lemma handle_ok c ev q k s p :
  work_queue_ k = ev :: q → c_session_ k = session_ k → phase_ok c k (sessions s) p → undecodable ev k = false →
  advances c s k p (handle c ev (k_queue q k) s).
Proof.
  intros Hq Hcs Hp Hun. destruct p as [x|x|x|]; [|by apply handle_open|..]; pose proof Hp as Hp';
    destruct Hp as (Hs&Hst&Hrest); destruct (ref ev) as [[b x']|] eqn:Hr;
    try (by apply handle_unnamed).
  - destruct Hrest as (q1&q2&y&Hqq&Hq1&_). rewrite Hq in Hqq. destruct q1 as [|e q1].
    + simplify_list_eq. by apply handle_passive.
    + exfalso. simplify_list_eq. unfold refs in Hq1. simpl in Hq1. by rewrite Hr in Hq1.
  - destruct Hrest as (Hrf&_). rewrite Hq in Hrf. unfold refs in Hrf. simpl in Hrf. rewrite Hr in Hrf. simplify_eq.
    destruct ev; simpl in Hr; simplify_eq. by apply handle_delete.
  - destruct Hrest as (Hrf&_). rewrite Hq in Hrf. unfold refs in Hrf. simpl in Hrf. by rewrite Hr in Hrf.
Qed.

(** ** Every step keeps the invariant *)

Lemma DequeueEvent_eq c s k ev q :
  conns s !! c = Some k → work_queue_ k = ev :: q →
  DequeueEvent c s = ('(k, s) ← handle c ev (k_queue q k) s; Ret (put_conn c k s)).
Proof.
  intros Hk Hq. unfold DequeueEvent, handle. rewrite (get_conn_eq _ _ _ Hk). cbn [mbind outcome_mbind]. rewrite Hq.
  by destruct (validate ev _).
Qed.

(** What one turn of the machine does *)
Record turn (c : nat) k s s' : Prop := mkTurn {
  turn_conn : ∃ k', conns s' !! c = Some k' ∧ endpoint_ k' = endpoint_ k ∧
    (work_queue_ k = [] ∧ k' = k ∨ (work k' < work k)%nat) ∧ no_new_ctrl k k';
  turn_deleted : deleted s' = deleted s;
  turn_sess z y' : sessions s' !! z = Some y' →
    ∃ y, sessions s !! z = Some y ∧ remote y' = remote y ∧ (is_open y = false → is_open y' = false);
}.

(** The first event of the queue is not a control message that cannot be decoded. *)
Definition decodes_next k : Prop := ∀ ev q, work_queue_ k = ev :: q → undecodable ev k = false.
Definition decodes_all k : Prop := ∀ msg, EvSandeshCtrlMessageRecv msg ∈ work_queue_ k → ctrl_decodes msg = true.

Lemma decodes_all_next k : decodes_all k → decodes_next k.
Proof.
  intros Ha ev q Hq. destruct ev as [| | | | | |msg|msg|]; try done. simpl. rewrite (Ha msg); [done|]. rewrite Hq. by left.
Qed.

Lemma undecodable_aborts c s k ev q :
  conns s !! c = Some k → work_queue_ k = ev :: q → undecodable ev k = true → DequeueEvent c s = Abort.
Proof.
  intros Hk Hq Hun. destruct ev as [| | | | | |msg|msg|]; try done. simpl in Hun.
  apply andb_true_iff in Hun as [Hd Hst%bool_decide_eq_true]. unfold DequeueEvent. rewrite (get_conn_eq _ _ _ Hk).
  cbn [mbind outcome_mbind]. rewrite Hq. simpl. unfold process_event. simpl. rewrite Hst. simpl.
  unfold ProcessSandeshCtrlMessage. by rewrite Hd.
Qed.

Lemma DequeueEvent_ok c s k :
  Inv s → conns s !! c = Some k → decodes_next k → ∃ s', DequeueEvent c s = Ret s' ∧ Inv s' ∧ turn c k s s'.
Proof.
  intros HI Hk Hdec. destruct (work_queue_ k) as [|ev q] eqn:Hq.
  { exists s. unfold DequeueEvent. rewrite (get_conn_eq _ _ _ Hk). cbn [mbind outcome_mbind]. rewrite Hq.
    split_and!; [done..|]. split; [exists k; split_and!; [done|done|by left|by intros msg]|done|]. eauto. }
  destruct (inv_conn _ HI _ _ Hk) as (_&_&_&Hcs&p&Hp&Hd).
  destruct (handle_ok c ev q k s p Hq Hcs Hp (Hdec _ _ Hq)) as (k'&m'&l&p'&Hh&[(?&?&?) Hph Hdel Hdone Hfr Hown Hsess Hw Hn]).
  rewrite (DequeueEvent_eq _ _ _ _ _ Hk Hq), Hh. eexists. split; [done|]. split.
  - apply (srv_put s c k p k' p'); try done. intros ? [?| ?]%Hdel; auto.
  - split; [|done..]. exists k'. simpl. rewrite lookup_insert_eq. auto.
Qed.

Lemma phase_enqueue c k k' m p q :
  phase_ok c k m p → endpoint_ k' = endpoint_ k → session_ k' = session_ k → state_ k' = state_ k →
  delete_posted k' = delete_posted k → work_queue_ k' = work_queue_ k ++ q → refs q = [] → phase_ok c k' m p.
Proof.
  intros Hp He Hs Hst Hd Hq Hq0. destruct p; simpl in *; rewrite ?He, ?Hs, ?Hst, ?Hq, ?refs_app, ?Hq0, ?app_nil_r, ?Hd.
  - destruct Hp as (?&?&q1&q2&y&->&?&Hq2&?&?&?&?). split_and!; [done..|]. exists q1, (q2 ++ q), y.
    rewrite <-app_assoc, refs_app, Hq2, Hq0. split_and!; try done. set_solver.
  - destruct Hp as (?&?&?&y&?&?&?&?). split_and!; [done..|]. exists y. set_solver.
  - done.
  - done.
Qed.

Lemma Inv_enqueue s c k k' q l :
  Inv s → conns s !! c = Some k → endpoint_ k' = endpoint_ k → task_instance_ k' = task_instance_ k →
  c_session_ k' = c_session_ k → session_ k' = session_ k → state_ k' = state_ k →
  delete_posted k' = delete_posted k → work_queue_ k' = work_queue_ k ++ q → refs q = [] →
  Inv (with_log (sessions s) l (put_conn c k' s)).
Proof.
  intros HI Hk He Hi Hcs Hs Hst Hd Hq Hq0. destruct (inv_conn _ HI _ _ Hk) as (_&_&_&Hcs0&p&Hp&Hdel).
  apply (srv_put s c k p k' p); try done; [congruence|by eapply phase_enqueue|by rewrite Hd].
Qed.

Lemma Inv_log s l : Inv s → Inv (with_log (sessions s) l s).
Proof. intros HI. split; apply HI. Qed.

(** Who has a session that someone listens to *)
Lemma Inv_owner s x y :
  Inv s → sessions s !! x = Some y →
  detached y ∨ ∃ c k p, conns s !! c = Some k ∧ attached c y ∧ remote y = endpoint_ k ∧ c_session_ k = session_ k ∧
    phase_ok c k (sessions s) p ∧ (p = Pending x ∨ p = Open x) ∧ (deleted s = false → delete_posted k = true → p = Done).
Proof.
  intros HI Hy. destruct (inv_sess _ HI _ _ Hy) as [_ [(c&k&p&Hk&Hp&Ho)|[_ ?]]]; [|by left].
  destruct (phase_own _ _ _ _ _ Hp Ho) as (y'&?&Hr&Ha). simplify_eq.
  destruct (inv_conn _ HI _ _ Hk) as (_&_&_&Hcs&p2&Hp2&Hd). rewrite (phase_unique _ _ _ _ _ Hp2 Hp) in Hd.
  destruct p; simpl in Ho; simplify_eq.
  - pose proof Hp as (?&?&?&?&y'&?&?&?&?&?&?). simplify_eq. right. exists c, k, (Pending x). by auto 10.
  - pose proof Hp as (?&?&?&y'&?&?&?). simplify_eq. right. exists c, k, (Open x). by auto 10.
  - destruct Hp as (?&?&?&y'&?&?&?). simplify_eq. by left.
Qed.

Lemma TcpClose_ok x s y : Inv s → sessions s !! x = Some y → ∃ s', TcpClose x s = Ret s' ∧ Inv s'.
Proof.
  intros HI Hy. unfold TcpClose. rewrite (get_session_eq _ _ _ Hy). cbn [mbind outcome_mbind].
  destruct (is_open y) eqn:Hop; cbn [negb]; [|by eauto].
  destruct (Inv_owner _ _ _ HI Hy) as [(?&?&?&?)|(c&k&p&Hk&Ha&Hr&Hcs&Hp&Hpx&Hd)]; [congruence|].
  pose proof Ha as (->&_&_). unfold OnSessionClose. rewrite (get_conn_eq _ _ k) by done. eexists. split; [done|].
  apply (srv_put s c k p (Enqueue (EvTcpClose x) k) p); try done.
  - destruct Hpx as [-> | ->].
    + destruct Hp as (?&?&q1&q2&y'&Hq&?&Hq2&?&?&?&?). simplify_eq. split_and!; [done..|].
      eexists q1, (q2 ++ [EvTcpClose x]), _. simpl. rewrite lookup_insert_eq. split_and!; try done; [|by rewrite refs_app, Hq2|by destruct Ha|set_solver].
      by rewrite Hq, <-app_assoc.
    + destruct Hp as (?&?&Hrf&y'&?&?&?&?). simplify_eq. split_and!; [done..|by simpl; rewrite refs_app, Hrf|].
      eexists. simpl. rewrite lookup_insert_eq. split_and!; try done; [by destruct Ha|set_solver].
  - intros z Hz. simpl. rewrite lookup_insert_ne; [done|]. intros ->. destruct Hpx as [-> | ->]; by apply Hz.
Qed.

Lemma Deliver_ok x msg s y : Inv s → sessions s !! x = Some y → ∃ s', Deliver x msg s = Ret s' ∧ Inv s'.
Proof.
  intros HI Hy. unfold Deliver. rewrite (get_session_eq _ _ _ Hy). cbn [mbind outcome_mbind].
  destruct (Inv_owner _ _ _ HI Hy) as [(_&->&_)|(c&k&p&Hk&(_&->&_)&_)]; [by eauto|].
  unfold OnSandeshMessage. rewrite (get_conn_eq _ _ _ Hk). cbn [mbind outcome_mbind].
  destruct (parses msg); cbn [negb]; [|by apply (TcpClose_ok x _ y); [apply Inv_log|]].
  destruct (DoDropSandeshMessage _ _ _); [eexists; split; [done|by apply Inv_log]|].
  destruct (control msg), (header_ok msg); cbn [negb];
    try (eexists; split; [done|]; by eapply (Inv_enqueue s c k)).
  by apply (TcpClose_ok x _ y); [apply Inv_log|].
Qed.

(** ** The indexes *)

Lemma Alloc_spec b i b' :
  AllocConnectionIndex b = (i, b') →
  (∀ j, j < i → b !! j = Some false)%nat ∧ b !! i ≠ Some false ∧ b' !! i = Some false ∧
  (∀ j, j ≠ i → b' !! j = b !! j).
Proof.
  unfold AllocConnectionIndex. destruct (list_find _ b) as [[n f]|] eqn:Hf; intros; simplify_eq.
  - apply list_find_Some in Hf as (Hn&->&Hlt). split_and!.
    + intros j Hj. destruct (lookup_lt_is_Some_2 b j) as [[] Hb]; [apply lookup_lt_Some in Hn; lia| |done].
      by destruct (Hlt j true Hb Hj).
    + congruence.
    + apply list_lookup_insert_eq. by eapply lookup_lt_Some.
    + intros. by apply list_lookup_insert_ne.
  - apply list_find_None in Hf. rewrite Forall_lookup in Hf. split_and!.
    + intros j Hj. destruct (lookup_lt_is_Some_2 b j Hj) as [[] Hb]; [|done]. by destruct (Hf j true Hb).
    + by rewrite lookup_ge_None_2.
    + by rewrite lookup_app_r, Nat.sub_diag.
    + intros j Hj. destruct (decide (j < length b)%nat); [by rewrite lookup_app_l|].
      rewrite !lookup_ge_None_2; [done| |]; rewrite ?length_app; simpl; lia.
Qed.

Lemma shrink_spec n b i : (n ≤ length b)%nat → (i < n)%nat → b !! i = Some false → shrink n b !! i = Some false.
Proof.
  induction n as [|n IH]; intros Hn Hi Hb; [lia|]. simpl. destruct (b !! n) as [[]|] eqn:Hbn.
  - apply IH; [lia| |done]. assert (i ≠ n) by congruence. lia.
  - by rewrite lookup_take_lt by lia.
  - by rewrite lookup_take_lt by lia.
Qed.

Lemma Free_spec i b :
  b !! i = Some false → ∃ b', FreeConnectionIndex i b = Ret b' ∧ ∀ j, j ≠ i → b !! j = Some false → b' !! j = Some false.
Proof.
  intros Hb. apply lookup_lt_Some in Hb as Hlt. unfold FreeConnectionIndex.
  rewrite assert_that_true by (by apply Nat.ltb_lt). eexists. split; [done|]. intros j Hj Hbj.
  apply shrink_spec; [lia| |by rewrite list_lookup_insert_ne]. rewrite length_insert. by eapply lookup_lt_Some.
Qed.

(** ** Accepting *)

Lemma Accept_refused s ep c k :
  Inv s → connection_ s !! ep = Some c → conns s !! c = Some k → c_session_ k ≠ None →
  ∃ s', Accept ep s = Ret s' ∧ Inv s'.
Proof.
  intros HI Hc Hk Hs. unfold Accept. destruct (AllocConnectionIndex _) as [i b'] eqn:Ha.
  destruct (Alloc_spec _ _ _ Ha) as (_&Hi&Hb&Hb'). unfold AcceptSession.
  erewrite get_session_eq by (simpl; apply lookup_insert_eq). cbn. rewrite Hc.
  rewrite (get_conn_eq _ _ k) by done. cbn. destruct (c_session_ k); [|done]. cbn. eexists. split; [done|].
  assert (Hx : sessions s !! next_id s = None).
  { destruct (sessions s !! next_id s) eqn:E; [|done]. apply (inv_sess _ HI) in E as [? _]. lia. }
  rewrite delete_insert_id by done. split; simpl.
  - intros c' k' Hk'. destruct (inv_conn _ HI _ _ Hk') as (?&Hbi&?&?). split_and!; [done| |lia|done].
    rewrite Hb'; [done|congruence].
  - apply HI.
  - apply HI.
  - intros x y Hy. destruct (inv_sess _ HI _ _ Hy). split; [lia|done].
Qed.

Lemma Accept_new s ep :
  Inv s → connection_ s !! ep = None → deleted s = false → ∃ s', Accept ep s = Ret s' ∧ Inv s'.
Proof.
  intros HI Hc Hd. unfold Accept. destruct (AllocConnectionIndex _) as [i b'] eqn:Ha.
  destruct (Alloc_spec _ _ _ Ha) as (_&Hi&Hb&Hb'). unfold AcceptSession.
  erewrite get_session_eq by (simpl; apply lookup_insert_eq). cbn. rewrite Hc. unfold new_connection. simpl. rewrite Hd. cbn.
  unfold Connection_AcceptSession. erewrite get_session_eq by (simpl; apply lookup_insert_eq).
  cbn. erewrite get_conn_eq by (simpl; apply lookup_insert_eq). cbn. eexists. split; [done|].
  unfold put_conn, put_session, with_conns, with_sessions. simpl. rewrite !insert_insert_eq. set (n := next_id s) in *.
  assert (Hx : sessions s !! n = None).
  { destruct (sessions s !! n) eqn:E; [|done]. apply (inv_sess _ HI) in E as [? _]. lia. }
  assert (Hfr : ∀ c k p m y, conns s !! c = Some k → phase_ok c k (sessions s) p → m = <[n := y]> (sessions s) → phase_ok c k m p).
  { intros c k p m y Hk Hp ->. apply (phase_frame _ _ (sessions s)); [|done]. intros z Hz. rewrite lookup_insert_ne; [done|].
    intros <-. destruct (phase_own _ _ _ _ _ Hp Hz) as (?&?&_). congruence. }
  assert (Hlt : ∀ c k, conns s !! c = Some k → (c < n)%nat) by (intros c k Hk; apply (inv_conn _ HI _ _ Hk)).
  split; simpl.
  - intros c k. rewrite lookup_insert_Some. intros [[<- <-]|[Hne Hk]].
    + simpl. rewrite lookup_insert_eq. split_and!; [done..|lia|]. split; [done|]. exists (Pending n). split; [|done].
      simpl. split_and!; [done|by left|]. eexists [EvStart], [], _. rewrite lookup_insert_eq. by split_and!.
    + destruct (inv_conn _ HI _ _ Hk) as (Hck&?&?&?&p&?&Hdel). split_and!; [|rewrite Hb'; [done|congruence]|lia|].
      * rewrite lookup_insert_ne; [done|]. congruence.
      * split; [done|]. exists p. split; [by eapply Hfr|]. by rewrite Hd in Hdel.
  - intros ep' c. rewrite lookup_insert_Some. intros [[<- <-]|[Hne Hc']].
    + rewrite lookup_insert_eq. eauto.
    + destruct (inv_map _ HI _ _ Hc') as (k&Hk&?). exists k. rewrite lookup_insert_ne; [done|]. apply Hlt in Hk. lia.
  - intros c1 c2 k1 k2. rewrite !lookup_insert_Some. intros [[<- <-]|[? H1]] [[<- <-]|[? H2]]; simpl; intros E; [done| | |].
    + destruct (inv_conn _ HI _ _ H2) as (_&?&_). congruence.
    + destruct (inv_conn _ HI _ _ H1) as (_&?&_). congruence.
    + by eapply (inv_index _ HI).
  - intros x y. rewrite lookup_insert_Some. intros [[<- <-]|[Hne Hy]].
    + split; [lia|]. left. simpl. eexists n, _, (Pending n). rewrite lookup_insert_eq. split_and!; [done| |done].
      simpl. split_and!; [done|by left|]. eexists [EvStart], [], _. rewrite lookup_insert_eq. by split_and!.
    + destruct (inv_sess _ HI _ _ Hy) as [? [(c&k&p&Hk&Hp&Ho)|[? ?]]]; (split; [lia|]); [left|congruence].
      simpl. exists c, k, p. rewrite lookup_insert_ne by (apply Hlt in Hk; lia). split_and!; [done|by eapply Hfr|done].
Qed.

(** ** Destroying *)

Lemma srv_remove s c k p m' b' :
  Inv s → conns s !! c = Some k → phase_ok c k (sessions s) p →
  (∀ z, own p ≠ Some z → m' !! z = sessions s !! z) →
  (∀ z y, own p = Some z → m' !! z = Some y → deleted s = true ∧ detached y) →
  (∀ j, j ≠ task_instance_ k → conn_bmap_ s !! j = Some false → b' !! j = Some false) →
  Inv (mkServer m' (delete c (conns s)) (delete (endpoint_ k) (connection_ s)) b' (accepting s) (deleted s) (next_id s) (log s)).
Proof.
  intros HI Hk Hp Hfr Hown Hb. destruct (inv_conn _ HI _ _ Hk) as (Hc&_&_&_).
  assert (Hph : ∀ c2 k2 p2, c2 ≠ c → conns s !! c2 = Some k2 → phase_ok c2 k2 (sessions s) p2 → phase_ok c2 k2 m' p2).
  { intros c2 k2 p2 Hne Hk2 Hp2. apply (phase_frame _ _ (sessions s)); [|done]. intros z Hz. apply Hfr. intros Hz'.
    apply Hne. by eapply own_apart. }
  split; simpl.
  - intros c2 k2 [Hne Hk2]%lookup_delete_Some. destruct (inv_conn _ HI _ _ Hk2) as (Hc2&?&?&?&p2&?&?). split_and!; [| |done|].
    + rewrite lookup_delete_ne; [done|]. congruence.
    + apply Hb; [|done]. intros E. by destruct Hne; eapply (inv_index _ HI).
    + split; [done|]. eauto.
  - intros ep c2 [Hne Hc2]%lookup_delete_Some. destruct (inv_map _ HI _ _ Hc2) as (k2&Hk2&?). exists k2.
    rewrite lookup_delete_ne; [done|]. congruence.
  - intros c1 c2 k1 k2 [? ?]%lookup_delete_Some [? ?]%lookup_delete_Some. by eapply (inv_index _ HI).
  - intros x y Hy. destruct (decide (own p = Some x)) as [Hx|Hx].
    + destruct (phase_own _ _ _ _ _ Hp Hx) as (y0&Hy0&_). destruct (inv_sess _ HI _ _ Hy0) as [? _]. split; [done|].
      right. by eapply Hown.
    + rewrite Hfr in Hy by done. destruct (inv_sess _ HI _ _ Hy) as [? [(c2&k2&p2&Hk2&Hp2&Ho)|]]; split; [done| |done|by right].
      left. exists c2, k2, p2. simpl. assert (c2 ≠ c).
      { intros ->. simplify_eq. by rewrite (phase_unique _ _ _ _ _ Hp2 Hp) in Ho. }
      rewrite lookup_delete_ne by done. eauto.
Qed.

Lemma lifetime_delete_ok c s k :
  Inv s → conns s !! c = Some k → delete_posted k = true → unseen k = false → ∃ s', lifetime_delete c s = Ret s' ∧ Inv s'.
Proof.
  intros HI Hk Hdel Hun. destruct (inv_conn _ HI _ _ Hk) as (_&Hb&_&Hcs&p&Hp&Hd).
  destruct (Free_spec _ _ Hb) as (b'&Hfree&Hb'). unfold lifetime_delete, Connection_Shutdown, clear_session.
  rewrite (get_conn_eq _ _ _ Hk). cbn [mbind outcome_mbind].
  assert (Hnone : (∀ x, own p = Some x → ∃ y, sessions s !! x = Some y ∧ detached y ∧ deleted s = true) → session_ k = None →
    ∃ s', Connection_Destroy c (put_conn c k s) = Ret s' ∧ Inv s').
  { intros Hx Hs. unfold Connection_Destroy. erewrite get_conn_eq by (simpl; apply lookup_insert_eq). cbn. rewrite Hfree. cbn.
    rewrite bool_decide_true by done. eexists. split; [done|]. rewrite delete_insert_eq. apply (srv_remove s c k p); try done.
    intros z y Ho Hy. destruct (Hx _ Ho) as (y'&?&?&?). simpl in Hy. by simplify_eq. }
  destruct p as [x|x|x|].
  - destruct Hp as (_&_&q1&q2&y&Hq&_). unfold unseen in Hun. by rewrite Hq, existsb_app, orb_true_r in Hun.
  - pose proof Hp as (Hs&_&_&y&Hy&_). rewrite Hs, (detach_eq _ _ _ Hy). cbn.
    unfold server_DeleteSession. erewrite get_session_eq by (simpl; apply lookup_insert_eq). cbn.
    unfold Connection_Destroy. erewrite get_conn_eq by (simpl; apply lookup_insert_eq). cbn. rewrite Hfree. cbn.
    eexists. split; [done|]. rewrite delete_insert_eq, delete_insert_eq. apply (srv_remove s c k (Open x)); try done.
    + intros z Hz. simpl. rewrite lookup_delete_ne; [done|]. simpl in Hz. congruence.
    + intros z y' ?. simpl in *. simplify_eq. by rewrite lookup_delete_eq.
  - pose proof Hp as (Hs&_&_&y&Hy&?&_). rewrite Hs. apply Hnone; [|done]. intros x' ?. simpl in *. simplify_eq. exists y.
    split_and!; [done..|]. destruct (deleted s); [done|]. by specialize (Hd eq_refl Hdel).
  - pose proof Hp as (Hs&_). rewrite Hs. by apply Hnone.
Qed.

Lemma Shutdown_ok s : Inv s → Inv (Shutdown s).
Proof.
  intros HI. split; simpl.
  - intros c k Hk. destruct (inv_conn _ HI _ _ Hk) as (?&?&?&?&p&?&?). split_and!; [done..|]. split; [done|]. by exists p.
  - apply HI.
  - apply HI.
  - intros x y Hy. destruct (inv_sess _ HI _ _ Hy) as [? [?|[? ?]]]; (split; [done|]); [by left|by right].
Qed.

Lemma lifetime_shutdown_ok s : deleted s = true → Inv s → Inv (lifetime_shutdown s).
Proof.
  intros Hd HI.
  assert (Hph : ∀ c k p m, phase_ok c k m p → phase_ok c (k_delete k) m p).
  { intros c k p m. destruct p; simpl; naive_solver. }
  split; simpl.
  - intros c k'. rewrite lookup_fmap, fmap_Some. intros (k&Hk&->).
    destruct (inv_conn _ HI _ _ Hk) as (?&?&?&?&p&?&?). split_and!; [done..|]. split; [done|]. exists p. split; [by apply Hph|congruence].
  - intros ep c Hc. destruct (inv_map _ HI _ _ Hc) as (k&Hk&?). exists (k_delete k). by rewrite lookup_fmap, Hk.
  - intros c1 c2 k1 k2. rewrite !lookup_fmap, !fmap_Some. intros (?&?&->) (?&?&->). intros ?. eapply (inv_index _ HI); eauto.
  - intros x y Hy. destruct (inv_sess _ HI _ _ Hy) as [? [(c&k&p&Hk&Hp&Ho)|[? ?]]]; (split; [done|]); [left|by right].
    exists c, (k_delete k), p. simpl. rewrite lookup_fmap, Hk. auto.
Qed.

(** The steps that fail: a peer is accepted after the server was shut down, and a machine looks
    at a control message that cannot be decoded. *)
Inductive fails s : label → Prop :=
| fails_accept ep : deleted s = true → connection_ s !! ep = None → fails s (LAccept ep)
| fails_control c k ev q : conns s !! c = Some k → work_queue_ k = ev :: q → undecodable ev k = true → fails s (LEvent c).

Lemma Accept_deleted s ep : connection_ s !! ep = None → deleted s = true → Accept ep s = Abort.
Proof.
  intros Hc Hd. unfold Accept. destruct (AllocConnectionIndex _) as [i b']. unfold AcceptSession.
  erewrite get_session_eq by (simpl; apply lookup_insert_eq). cbn. rewrite Hc. unfold new_connection. simpl. by rewrite Hd.
Qed.

Lemma srv_step_ok s l o : Inv s → step s l o → (∃ s', o = Ret s' ∧ Inv s') ∨ (o = Abort ∧ fails s l).
Proof.
  intros HI Hst. destruct Hst as [s ep _ Hg|s x msg y Hy|s x y Hy|s c k Hk|s c k Hk _|s c k down Hk|s c k rsc acc Hk|s c k l Hk|
    s c k Hk Hdel Hun|s|s Hd].
  - destruct (connection_ s !! ep) as [c|] eqn:Hc.
    + destruct (inv_map _ HI _ _ Hc) as (k&Hk&_). left. by eapply Accept_refused, Hg.
    + destruct (deleted s) eqn:Hd; [right|left; by apply Accept_new]. split; [by apply Accept_deleted|by constructor].
  - left. by eapply Deliver_ok.
  - left. by eapply TcpClose_ok.
  - destruct (work_queue_ k) as [|ev q] eqn:Hq; [|destruct (undecodable ev k) eqn:Hun].
    + left. destruct (DequeueEvent_ok _ _ _ HI Hk) as (s'&?&?&_); [|by eauto]. intros ??. by rewrite Hq.
    + right. split; [by eapply undecodable_aborts|by econstructor].
    + left. destruct (DequeueEvent_ok _ _ _ HI Hk) as (s'&?&?&_); [|by eauto]. intros ??. rewrite Hq. by intros [= <- <-].
  - left. unfold IdleHoldTimerExpired. rewrite (get_conn_eq _ _ _ Hk). eexists. split; [done|]. by eapply (Inv_enqueue s c k).
  - left. unfold SetAdminState. rewrite (get_conn_eq _ _ _ Hk). eexists. split; [done|]. case_bool_decide; [done|].
    destruct down; by eapply (Inv_enqueue s c k).
  - left. unfold ResourceUpdate. rewrite (get_conn_eq _ _ _ Hk). eexists. split; [done|]. by eapply (Inv_enqueue s c k).
  - left. unfold SetSandeshMessageDropLevel. rewrite (get_conn_eq _ _ _ Hk). eexists. split; [done|].
    eapply (Inv_enqueue s c k _ []); try done. by rewrite app_nil_r.
  - left. by eapply lifetime_delete_ok.
  - left. eexists. split; [done|]. by apply Shutdown_ok.
  - left. eexists. split; [done|]. by apply lifetime_shutdown_ok.
Qed.

Lemma Inv_new : Inv new_Server.
Proof. by split; simpl; intros; rewrite lookup_empty in *. Qed.

Lemma srv_reachable_Inv s : reachable s → Inv s.
Proof.
  induction 1 as [|s l s' _ IH Hst]; [apply Inv_new|]. destruct (srv_step_ok _ _ _ IH Hst) as [(?&?&?)|[? _]]; by simplify_eq.
Qed.

(** ** Draining *)

(** The task of a machine runs [n] times. *)
Fixpoint drain (n : nat) (c : nat) s : outcome (Server (EP := EP)) :=
  match n with O => Ret s | S n => s ← DequeueEvent c s; drain n c s end.

Lemma work_zero k : work k = 0%nat → work_queue_ k = [].
Proof. unfold work. destruct (work_queue_ k) as [|ev q]; [done|]. simpl. pose proof (weight_pos ev). lia. Qed.

Lemma srv_drain_ok n c s k :
  Inv s → conns s !! c = Some k → decodes_all k → (work k ≤ n)%nat ∨ work_queue_ k = [] →
  ∃ s' k', drain n c s = Ret s' ∧ Inv s' ∧ conns s' !! c = Some k' ∧ work_queue_ k' = [] ∧ endpoint_ k' = endpoint_ k ∧
    deleted s' = deleted s ∧
    ∀ z y', sessions s' !! z = Some y' →
      ∃ y, sessions s !! z = Some y ∧ remote y' = remote y ∧ (is_open y = false → is_open y' = false).
Proof.
  revert s k. induction n as [|n IH]; intros s k HI Hk Hdec Hn.
  { exists s, k. split_and!; [done..| |done|done|by eauto]. destruct Hn; [apply work_zero; lia|done]. }
  destruct (DequeueEvent_ok _ _ _ HI Hk (decodes_all_next _ Hdec)) as (s1&He&HI1&[(k1&Hk1&Hep&Hw&Hn1) Hd1 Hs1]).
  destruct (IH s1 k1 HI1 Hk1 (λ msg Hm, Hdec msg (Hn1 msg Hm))) as (s'&k'&Hdr&HI'&Hk'&Hq&Hep'&Hd'&Hs').
  { destruct Hw as [[? ->]|?]; [by right|]. destruct Hn as [?|Hq]; [left; lia|]. right.
    unfold DequeueEvent in He. rewrite (get_conn_eq _ _ _ Hk) in He. cbn in He.
    rewrite Hq in He. by simplify_eq. }
  exists s', k'. simpl. rewrite He. cbn [mbind outcome_mbind]. split_and!; try congruence; try done.
  intros z y' (y1&Hy1&?&?)%Hs'. destruct (Hs1 _ _ Hy1) as (y&?&?&?). exists y. split_and!; [done|congruence|auto].
Qed.

(** Two sessions of the same endpoint are the same, while the server lives. *)
Lemma Inv_remote s x c k y :
  Inv s → deleted s = false → sessions s !! x = Some y → conns s !! c = Some k → remote y = endpoint_ k →
  ∃ p, phase_ok c k (sessions s) p ∧ own p = Some x.
Proof.
  intros HI Hd Hy Hk Hr. destruct (inv_sess _ HI _ _ Hy) as [_ [(c2&k2&p&Hk2&Hp&Ho)|[? _]]]; [|congruence].
  destruct (phase_own _ _ _ _ _ Hp Ho) as (y2&?&Hr2&_). simplify_eq.
  destruct (inv_conn _ HI _ _ Hk) as [Hc _]. destruct (inv_conn _ HI _ _ Hk2) as [Hc2 _].
  assert (c2 = c) as -> by congruence. simplify_eq. eauto.
Qed.

(** C11: the server uses no session or connection that was deleted, in any order of accepts,
    messages, closes, timers and deletions in which a peer does not use an endpoint again
    while its connection is without a session, and the lifetime manager does not destroy a
    connection before it saw the session that was announced to it.  In a state that was reached so, every step
    succeeds, but for two that fail: a machine in [SERVER_INIT] looks at a control message
    that cannot be decoded, and a new peer is accepted after the server was shut down.
    Every session that reports to a connection reports to one that exists and has its
    endpoint, and no two connections have the same task instance (so that their machines
    run in parallel). *)
Theorem server_never_crashes s :
  reachable s →
  (∀ l o, step s l o → (∃ s', o = Ret s') ∨ (o = Abort ∧ fails s l)) ∧
  (∀ x y c, sessions s !! x = Some y → observer y = Some c ∨ receiver y = Some c ∨ connection y = Some c →
    ∃ k, conns s !! c = Some k ∧ endpoint_ k = remote y ∧ connection_ s !! remote y = Some c) ∧
  (∀ c1 c2 k1 k2, conns s !! c1 = Some k1 → conns s !! c2 = Some k2 → task_instance_ k1 = task_instance_ k2 → c1 = c2).
Proof.
  intros HI%srv_reachable_Inv. split_and!.
  - intros l o Hst. destruct (srv_step_ok _ _ _ HI Hst) as [(s'&?&_)|?]; eauto.
  - intros x y c Hy Hc. destruct (Inv_owner _ _ _ HI Hy) as [(?&?&?&_)|(c2&k&p&Hk&(?&?&?)&Hr&_)]; [naive_solver congruence|].
    assert (c = c2) as -> by naive_solver congruence. exists k. destruct (inv_conn _ HI _ _ Hk) as [Hcc _].
    split_and!; congruence.
  - apply (inv_index _ HI).
Qed.

(** C13: no session and no connection is left over while the server lives, under the
    conditions on peers and the lifetime manager of [step].  When every machine has handled its events
    and the lifetime manager destroyed what it was asked to, the connections and the open
    sessions correspond to each other one to one: every connection is in [SERVER_INIT] or
    [ESTABLISHED] with a session that is open and reports to it, and every session that the
    server still has is the session of the connection of its endpoint.  (The task instances
    of refused sessions are left over, [refused_session_leaks_index].) *)
Theorem quiescent_one_to_one s :
  reachable s → deleted s = false → (∀ c k, conns s !! c = Some k → work_queue_ k = [] ∧ delete_posted k = false) →
  (∀ c k, conns s !! c = Some k → opened (state_ k) ∧
    ∃ x y, session_ k = Some x ∧ c_session_ k = Some x ∧ sessions s !! x = Some y ∧ is_open y = true ∧
      attached c y ∧ remote y = endpoint_ k) ∧
  (∀ x y, sessions s !! x = Some y →
    ∃ c k, connection_ s !! remote y = Some c ∧ conns s !! c = Some k ∧ session_ k = Some x).
Proof.
  intros HI%srv_reachable_Inv Hd Hq.
  assert (Hopen : ∀ c k p, conns s !! c = Some k → phase_ok c k (sessions s) p → ∃ x, p = Open x).
  { intros c k p Hk Hp. destruct (Hq _ _ Hk) as [Hq0 Hdel]. destruct p; simpl in Hp; rewrite ?Hq0 in Hp.
    - destruct Hp as (_&_&q1&q2&y&Hqq&_). by destruct q1.
    - eauto.
    - by destruct Hp as (_&_&?&_).
    - destruct Hp as (_&_&_&?). congruence. }
  split.
  - intros c k Hk. destruct (inv_conn _ HI _ _ Hk) as (_&_&_&Hcs&p&Hp&_).
    destruct (Hopen _ _ _ Hk Hp) as [x ->]. destruct Hp as (Hs&?&?&y&?&?&?&Ho). split; [done|]. exists x, y.
    split_and!; try congruence; try done. destruct (is_open y); [done|]. destruct (Hq _ _ Hk) as [Hq0 _]. rewrite Hq0 in Ho.
    specialize (Ho eq_refl). by apply elem_of_nil in Ho.
  - intros x y Hy. destruct (inv_sess _ HI _ _ Hy) as [_ [(c&k&p&Hk&Hp&Ho)|[? _]]]; [|congruence].
    destruct (phase_own _ _ _ _ _ Hp Ho) as (y'&?&Hr&_). simplify_eq. destruct (Hopen _ _ _ Hk Hp) as [x' ->]. simpl in Ho. simplify_eq.
    exists c, k. rewrite Hr. destruct (inv_conn _ HI _ _ Hk) as [Hc _]. destruct Hp as [? _]. done.
Qed.


Lemma reach_by s l o s' : reachable s → step s l o → o = Ret s' → reachable s'.
Proof. intros ?? ->. by eapply reach_step. Qed.
End Proofs.

(** ** A server with one peer, whose endpoint is 7 *)

Definition after (o : outcome (Server (EP := nat))) : Server := match o with Ret s => s | _ => new_Server end.
Definition accepted : Server := after (Accept 7%nat new_Server).
Definition started : Server := after (DequeueEvent 0 accepted).
Definition served : Server := after (DequeueEvent 0 started).
Definition after_conn : Conn := match conns served !! 0%nat with Some k => k | None => mkConn 0%nat 0 false None IDLE None TM.Init 0 false 0 [] false end.
Definition hung_up : Server := after (TcpClose 0 served).

Lemma served_reachable : reachable false served.
Proof.
  assert (H1 : reachable false accepted).
  { eapply (reach_by _ _ (LAccept 7%nat) (Accept 7%nat new_Server)); [apply reach_new|by apply step_accept|by vm_compute]. }
  assert (H2 : reachable false started).
  { eapply reach_by; [exact H1|eapply (step_event _ _ 0%nat); by vm_compute|by vm_compute]. }
  eapply reach_by; [exact H2|eapply (step_event _ _ 0%nat); by vm_compute|by vm_compute].
Qed.

Lemma hung_up_reachable : reachable false hung_up.
Proof. eapply reach_by; [apply served_reachable|eapply (step_close _ _ 0%nat); by vm_compute|by vm_compute]. Qed.

Lemma server_never_crashes_witness : ∃ s', TcpClose 0 served = Ret s'.
Proof.
  destruct (server_never_crashes false served served_reachable) as [Hs _].
  destruct (Hs (LTcpClose 0) (TcpClose 0 served)) as [H|[_ H]]; [eapply step_close; by vm_compute|exact H|inversion H].
Defined.

Lemma quiescent_one_to_one_witness :
  ∃ c k, connection_ served !! 7%nat = Some c ∧ conns served !! c = Some k ∧ session_ k = Some 0%nat.
Proof.
  destruct (quiescent_one_to_one false served served_reachable) as [_ Hs]; [by vm_compute| |].
  - intros c k Hk. assert (Hc : conns served = {[0%nat := after_conn]}) by (by vm_compute).
    rewrite Hc in Hk. apply lookup_singleton_Some in Hk as [<- <-]. by vm_compute.
  - apply (Hs 0%nat (mkSession 7%nat 0 (Some 0%nat) (Some 0%nat) (Some 0%nat) true)). by vm_compute.
Defined.


(** ** What the guards leave out, and other findings *)

(** An endpoint is used again before the machine saw its first session: the second session is
    ignored in [SERVER_INIT], but reports to the connection; when the first one is closed the
    connection is destroyed, and the next event of the second session uses it. *)
Lemma endpoint_reuse_dangles :
  (s ← Accept 7%nat new_Server; s ← Accept 7%nat s; s ← drain 3 0 s;
   s ← TcpClose 0 s; s ← drain 2 0 s; s ← lifetime_delete 0 s; TcpClose 1 s) = Abort.
Proof. by vm_compute. Qed.

(** The server is shut down before a machine saw its session: the session reports to a
    connection that does not exist. *)
Lemma shutdown_dangles :
  (s ← Accept 7%nat new_Server; let s := lifetime_shutdown (Shutdown s) in s ← lifetime_delete 0 s; TcpClose 0 s) = Abort.
Proof. by vm_compute. Qed.

(** A session is accepted after [Shutdown] and before the lifetime manager closed the acceptor:
    the [LifetimeRef] of its connection asserts. *)
Lemma accept_after_shutdown_asserts : Accept 7%nat (Shutdown new_Server) = Abort.
Proof. by vm_compute. Qed.

(** A peer sends a control message with an unknown name: the null result of its decoding is
    used. *)
Lemma undecodable_control_aborts :
  (s ← Deliver false 0 (mkMsg 1 true OTHER 0 true true false false) served; DequeueEvent 0 s) = Abort.
Proof. by vm_compute. Qed.

(** A session that is refused keeps its index. *)
Lemma refused_session_leaks_index :
  ∃ s, Accept 7%nat served = Ret s ∧ sessions s = sessions served ∧ size (conns s) = 1%nat ∧ conn_bmap_ s = [false; false].
Proof. eexists. split_and!; by vm_compute. Qed.

(** [FindConnection] finds a connection of another endpoint, and not the one asked for. *)
Lemma FindConnection_inverted : FindConnection 7%nat served = None ∧ FindConnection 8%nat served = Some 0%nat.
Proof. by vm_compute. Qed.

(** The process exits although its last attempt to listen succeeded. *)
Lemma fifth_attempt_exits : Initialize (λ n, n =? 5) = None ∧ Initialize (λ n, n =? 4) = Some tt.
Proof. by vm_compute. Qed.
End SST.
