(* ===== verification/Uve.v ===== *)
(** * The UVE cache: src/sandesh/library/cpp/sandesh_uve.h, sandesh_uve.cc, and the
      functions on UVEs that src/sandesh/compiler/generate/t_cpp_generator.cc prints

    A UVE is a structure whose attributes a daemon reports to its collector as they change.
    A message carries only the attributes that were set, and the collector merges them.
    The library keeps the merged UVEs, so that it can send them again to a collector that
    has lost them, periodically, or on request, and so that those that are not updated any
    more time out.

    There is a cache ([Impl]) for every type, proxy and partition; it holds an entry for
    every name and table.  The printed functions are those for a structure without derived
    statistics.  Each operation is one step: updates hold the accessor of their key, and
    those that delete or iterate the mutex of the cache.  The order in which a hash map is
    walked is that of [map_to_list]; no theorem depends on it. *)

From stdpp Require Import gmap list strings.
From S2P Require Import Prelude.
Open Scope Z_scope.

Module UV.

(** [CacheAttribute]; a required attribute is mandatory. *)
Inductive CacheAttribute := MANDATORY | INLINE | HIDDEN.
#[export] Instance CacheAttribute_eq_dec : EqDecision CacheAttribute.
Proof. solve_decision. Defined.

(** [SandeshUVE::SendType] *)
Inductive SendType := ST_SYNC | ST_INTROSPECT | ST_PERIODIC.
#[export] Instance SendType_eq_dec : EqDecision SendType.
Proof. solve_decision. Defined.

Definition kProxyPartitions : nat := 30.
Definition kTickInterval : Z := 30000.

(** What the annotations of a structure say of it *)
Record UType := mkUType {
  cat : string → CacheAttribute;
  period_ : Z;                       (* P; 0 without the annotation *)
  TM : Z;                            (* the timeout, in periods; 0 if there is none *)
}.
Definition periodic_ustruct (ut : UType) : bool := negb (period_ ut =? 0).

Section Uve.
Context {V : Type} (ut : UType).

(** An object of the structure: the attributes that are set *)
Record UVE := mkUVE {
  name_ : string;
  proxy_ : string;
  table_ : string;
  deleted_ : option bool;
  attrs_ : gmap string V;
}.
Definition get_deleted (u : UVE) : bool := default false (deleted_ u).
Definition set_deleted (b : bool) (u : UVE) : UVE := mkUVE (name_ u) (proxy_ u) (table_ u) (Some b) (attrs_ u).
Definition with_attrs (a : gmap string V) (u : UVE) : UVE := mkUVE (name_ u) (proxy_ u) (table_ u) (deleted_ u) a.
Definition new_UVE (table : string) : UVE := mkUVE "" "" table None ∅.

(** A message that is dispatched *)
Record message := mkMsg { m_data : UVE; m_level : Z; m_seqno : Z; m_sync : bool; m_ctx : string }.

(** ** What the compiler prints *)

(** [T::UpdateUVE(_data, tdata)]: whether to send, and both objects *)
Definition T_UpdateUVE (data tdata : UVE) : bool * UVE * UVE :=
  let shown := filter (λ p, cat ut p.1 ≠ HIDDEN) (attrs_ data) in
  let send := negb (bool_decide (shown = ∅)) || bool_decide (is_Some (deleted_ data)) || negb (periodic_ustruct ut) in
  (send, with_attrs shown data,
   mkUVE (name_ data) (proxy_ data) (table_ tdata)
     (match deleted_ data with Some b => Some b | None => deleted_ tdata end) (attrs_ data ∪ attrs_ tdata)).

(** [LoadUVE] *)
Definition loads (st : SendType) (c : CacheAttribute) : bool :=
  match c with
  | MANDATORY => true
  | HIDDEN => bool_decide (st = ST_INTROSPECT)
  | INLINE => negb (bool_decide (st = ST_PERIODIC))
  end.
Definition LoadUVE (st : SendType) (u : UVE) : bool * UVE :=
  (if bool_decide (st = ST_PERIODIC) then get_deleted u else true,
   with_attrs (filter (λ p, loads st (cat ut p.1) = true) (attrs_ u)) u).

(** [T::Send(cdata, Xlevel, stype, seqno, cycle, ctx)] *)
Definition T_Send (u : UVE) (level : Z) (st : SendType) (seqno : Z) (ctx : string) : list message :=
  let '(ok, d) := LoadUVE st u in
  if (ok : bool) then [mkMsg d level seqno (bool_decide (st = ST_SYNC)) ctx] else [].

(** ** A cache: [SandeshUVEPerTypeMapImpl] *)

Record UVEMapEntry := mkEntry { data : UVE; seqno_ : Z; level_ : Z }.
Abbreviation uve_table_map := (gmap string UVEMapEntry).

Record Impl := mkImpl { cmap_ : gmap string uve_table_map; dsconf_ : gmap string string }.

Definition put_tables (name : string) (t : uve_table_map) (m : Impl) : Impl :=
  mkImpl (if bool_decide (t = ∅) then delete name (cmap_ m) else <[name := t]> (cmap_ m)) (dsconf_ m).

(** [UpdateUVE]: whether to send, and what *)
Definition UpdateUVE (u : UVE) (seqnum level : Z) (m : Impl) : outcome (bool * UVE * Impl) :=
  assert_that (negb (bool_decide (table_ u = "")));;
  let tables := default ∅ (cmap_ m !! name_ u) in
  let '(send, u', e) :=
    match tables !! table_ u with
    | None =>
        let '(send, u', t) := T_UpdateUVE u (new_UVE (table_ u)) in (send, u', mkEntry t seqnum level)
    | Some e =>
        let old := if negb (TM ut =? 0) then set_deleted false (data e) else data e in
        let '(send, u', t) := T_UpdateUVE u old in (send, u', mkEntry t seqnum (level_ e))
    end in
  let tables := if get_deleted u' then delete (table_ u) tables else <[table_ u := e]> tables in
  Ret (send, u', put_tables (name_ u) tables m).

(** [ClearUVEs] *)
Definition ClearUVEs (m : Impl) : Z * list message * Impl :=
  let es := concat (map (λ p, map snd (map_to_list p.2)) (map_to_list (cmap_ m))) in
  (u32 (Z.of_nat (length es)), concat (map (λ e, T_Send (set_deleted true (data e)) (level_ e) ST_SYNC (seqno_ e) "") es),
   mkImpl ∅ (dsconf_ m)).

(** [InitDerivedStats]: all keys must be known *)
Definition InitDerivedStats (conf : gmap string string) (m : Impl) : bool * Impl :=
  if bool_decide (dom conf ⊆ dom (dsconf_ m)) then (true, mkImpl (cmap_ m) (conf ∪ dsconf_ m)) else (false, m).

(** [SyncUVE], the tables of a name.  Where the code says [continue] the iterator stays. *)
Definition is_sent (seqno : Z) (e : UVEMapEntry) : bool := (seqno <? seqno_ e) || (seqno =? 0).
Definition marks (st : SendType) (cycle : Z) : bool :=
  negb (TM ut =? 0) && bool_decide (st = ST_PERIODIC) && (cycle mod TM ut =? 0).
Definition mark (e : UVEMapEntry) : UVEMapEntry := mkEntry (set_deleted true (data e)) (seqno_ e) (level_ e).

Fixpoint sync_tables (fuel : nat) (table : string) (st : SendType) (seqno cycle : Z) (ctx : string)
    (l : list (string * UVEMapEntry)) : option (nat * list message * list (string * UVEMapEntry)) :=
  match l, fuel with
  | [], _ => Some (0%nat, [], [])
  | _, O => None
  | (t, e) :: rest, S fuel =>
      if negb (bool_decide (table = "")) && negb (bool_decide (t = table)) then sync_tables fuel table st seqno cycle ctx l
      else
        '(n, ms, kept) ← sync_tables fuel table st seqno cycle ctx rest;
        if is_sent seqno e then
          Some (S n, T_Send (data e) (level_ e) st (seqno_ e) ctx ++ ms,
                (if marks st cycle then if get_deleted (data e) then [] else [(t, mark e)] else [(t, e)]) ++ kept)
        else Some (n, ms, (t, e) :: kept)
  end.

Fixpoint sync_names (fuel : nat) (table : string) (st : SendType) (seqno cycle : Z) (ctx : string)
    (l : list (string * uve_table_map)) : option (nat * list message * list (string * uve_table_map)) :=
  match l with
  | [] => Some (0%nat, [], [])
  | (name, tables) :: rest =>
      '(n1, ms1, kept1) ← sync_tables fuel table st seqno cycle ctx (map_to_list tables);
      '(n2, ms2, kept2) ← sync_names fuel table st seqno cycle ctx rest;
      let tables : uve_table_map := list_to_map kept1 in
      Some ((n1 + n2)%nat, ms1 ++ ms2, if bool_decide (tables = ∅) then kept2 else (name, tables) :: kept2)
  end.

(** [None]: it does not return within [fuel] rounds for a name. *)
Definition SyncUVE (fuel : nat) (table : string) (st : SendType) (seqno cycle : Z) (ctx : string) (m : Impl) :
    option (Z * list message * Impl) :=
  '(n, ms, kept) ← sync_names fuel table st seqno cycle ctx (map_to_list (cmap_ m));
  Some (u32 (Z.of_nat n), ms, mkImpl (list_to_map kept) (dsconf_ m)).

Definition SendUVE (table name ctx : string) (m : Impl) : bool * list message :=
  let es := filter (λ p, table = "" ∨ p.1 = table) (map_to_list (default ∅ (cmap_ m !! name))) in
  (negb (bool_decide (es = [])),
   concat (map (λ p, T_Send (data p.2) (level_ p.2) (if bool_decide (ctx = "") then ST_INTROSPECT else ST_SYNC) (seqno_ p.2) ctx) es)).

(** ** The caches of a type: [SandeshUVEPerTypeMapGroup] *)

Record Group := mkGroup {
  native_group_map_ : gmap string Impl;
  group_map_ : gmap string (list Impl);         (* a cache for every partition *)
  conf0 : gmap string string;                   (* [T::_DSConf()] *)
}.
Definition new_Impl (g : Group) : Impl := mkImpl ∅ (conf0 g).
Definition new_Group (conf : gmap string string) : Group := mkGroup {["" := mkImpl ∅ conf]} ∅ conf.

Definition GetNMap (proxy : string) (g : Group) : Impl := default (new_Impl g) (native_group_map_ g !! proxy).
Definition GetGMap (proxy : string) (g : Group) : list Impl :=
  default (replicate kProxyPartitions (new_Impl g)) (group_map_ g !! proxy).

Definition Group_UpdateUVE (u : UVE) (seqnum partition level : Z) (g : Group) : outcome (bool * UVE * Group) :=
  if partition =? -1 then
    '(send, u', m) ← UpdateUVE u seqnum level (GetNMap (proxy_ u) g);
    Ret (send, u', mkGroup (<[proxy_ u := m]> (native_group_map_ g)) (group_map_ g) (conf0 g))
  else
    assert_that (partition <? Z.of_nat kProxyPartitions);;
    match (if partition <? 0 then None else GetGMap (proxy_ u) g !! Z.to_nat partition) with
    | None => Abort                                         (* [at] throws *)
    | Some m =>
        '(send, u', m) ← UpdateUVE u seqnum level m;
        Ret (send, u', mkGroup (native_group_map_ g)
          (<[proxy_ u := <[Z.to_nat partition := m]> (GetGMap (proxy_ u) g)]> (group_map_ g)) (conf0 g))
    end.

Definition Group_ClearUVEs (proxy : string) (partition : Z) (g : Group) : outcome (Z * list message * Group) :=
  if partition =? -1 then Ret (0, [], g)
  else
    match group_map_ g !! proxy with
    | None => Ret (0, [], g)
    | Some ps =>
        assert_that (partition <? Z.of_nat kProxyPartitions);;
        match (if partition <? 0 then None else ps !! Z.to_nat partition) with
        | None => Abort
        | Some m =>
            let '(n, ms, m) := ClearUVEs m in
            Ret (n, ms, mkGroup (native_group_map_ g) (<[proxy := <[Z.to_nat partition := m]> ps]> (group_map_ g)) (conf0 g))
        end
    end.

(** A list of caches, one after the other *)
Fixpoint sync_each {K} (f : Impl → option (Z * list message * Impl)) (l : list (K * Impl)) :
    option (Z * list message * list (K * Impl)) :=
  match l with
  | [] => Some (0, [], [])
  | (k, m) :: rest =>
      '(n1, ms1, m) ← f m;
      '(n2, ms2, rest) ← sync_each f rest;
      Some (u32 (n1 + n2), ms1 ++ ms2, (k, m) :: rest)
  end.
Fixpoint sync_groups (f : Impl → option (Z * list message * Impl)) (l : list (string * list Impl)) :
    option (Z * list message * list (string * list Impl)) :=
  match l with
  | [] => Some (0, [], [])
  | (k, ps) :: rest =>
      '(n1, ms1, ps) ← sync_each f (map (pair tt) ps);
      '(n2, ms2, rest) ← sync_groups f rest;
      Some (u32 (n1 + n2), ms1 ++ ms2, (k, map snd ps) :: rest)
  end.
Definition Group_SyncUVE (fuel : nat) (table : string) (st : SendType) (seqno cycle : Z) (ctx : string) (g : Group) :
    option (Z * list message * Group) :=
  let f := SyncUVE fuel table st seqno cycle ctx in
  '(n1, ms1, nev) ← sync_each f (map_to_list (native_group_map_ g));
  '(n2, ms2, pv) ← sync_groups f (map_to_list (group_map_ g));
  Some (u32 (n1 + n2), ms1 ++ ms2, mkGroup (list_to_map nev) (list_to_map pv) (conf0 g)).

Definition Group_SendUVE (table name ctx : string) (g : Group) : bool * list message :=
  let each := map (SendUVE table name ctx)
    (map snd (map_to_list (native_group_map_ g)) ++ concat (map snd (map_to_list (group_map_ g)))) in
  (existsb fst each, concat (map snd each)).

Definition Group_InitDerivedStats (conf : gmap string string) (g : Group) : bool * Group :=
  let '(ok, m) := InitDerivedStats conf (GetNMap "" g) in
  (ok, mkGroup (<["" := m]> (native_group_map_ g)) (group_map_ g) (conf0 g)).

(** ** A type: [T::Send(data, Xlevel, table, mono_usec, partition)] *)

Record TypeState := mkType { lseqnum_ : Z; group : Group; sent : list message }.
Definition new_Type (conf : gmap string string) : TypeState := mkType 0 (new_Group conf) [].

Definition with_table (table : string) (u : UVE) : UVE :=
  if bool_decide (table = "") then u else mkUVE (name_ u) (proxy_ u) table (deleted_ u) (attrs_ u).
Definition Send (u : UVE) (level : Z) (table : string) (partition : Z) (s : TypeState) : outcome TypeState :=
  let seqno := u32 (lseqnum_ s + 1) in
  '(send, u', g) ← Group_UpdateUVE (with_table table u) seqno partition level (group s);
  Ret (mkType seqno g (sent s ++ if (send : bool) then [mkMsg u' level seqno false ""] else [])).
End Uve.

Arguments UVE : clear implicits.
Arguments message : clear implicits.
Arguments UVEMapEntry : clear implicits.
Arguments Impl : clear implicits.
Arguments Group : clear implicits.
Arguments TypeState : clear implicits.

(** ** All types: [SandeshUVETypeMaps] *)

Abbreviation uve_global_map V := (list (string * (UType * TypeState V))).

Definition RegisterType {V} (s : string) (ut : UType) (conf : gmap string string) (map : uve_global_map V) :
    outcome (uve_global_map V) :=
  assert_that (negb (bool_decide (s ∈ map.*1)));; Ret (map ++ [(s, (ut, new_Type conf))]).
Definition TypeMap {V} (s : string) (map : uve_global_map V) : option (UType * TypeState V) :=
  snd <$> List.find (λ p, bool_decide (p.1 = s)) map.

(** Which types a tick concerns, and their cycle *)
Definition cycle_of (periodic_count period : Z) : option Z :=
  let target_count := period * 1000 / kTickInterval in
  if target_count =? 0 then None
  else if negb (periodic_count mod target_count =? 0) then None
  else Some (u32 (periodic_count / target_count)).

(** [SyncAllMaps]; [periodic_count] has been counted up. *)
Fixpoint SyncAllMaps {V} (fuel : nat) (inpMap : gmap string Z) (periodic : bool) (periodic_count : Z) (map : uve_global_map V) :
    outcome (option (list (message V) * uve_global_map V)) :=
  match map with
  | [] => Ret (Some ([], []))
  | (s, (ut, t)) :: rest =>
      let keep := r ← SyncAllMaps fuel inpMap periodic periodic_count rest;
        Ret ('(ms, rest) ← r; Some (ms, (s, (ut, t)) :: rest)) in
      let sync cycle :=
        let st := if periodic then ST_PERIODIC else ST_SYNC in
        r ← SyncAllMaps fuel inpMap periodic periodic_count rest;
        Ret ('(_, ms1, g) ← Group_SyncUVE ut fuel "" st (default 0 (inpMap !! s)) cycle "" (group t);
             '(ms2, rest) ← r;
             Some (ms1 ++ ms2, (s, (ut, mkType (lseqnum_ t) g (sent t ++ ms1))) :: rest)) in
      if periodic then
        match cycle_of periodic_count (period_ ut) with
        | None => keep
        | Some cycle => assert_that (bool_decide (inpMap = ∅));; sync cycle
        end
      else sync 0
  end.

(** [Clear] *)
Fixpoint Clear {V} (proxy : string) (partition : Z) (map : uve_global_map V) : outcome (Z * list (message V) * uve_global_map V) :=
  match map with
  | [] => Ret (0, [], [])
  | (s, (ut, t)) :: rest =>
      '(n1, ms1, g) ← Group_ClearUVEs ut proxy partition (group t);
      '(n2, ms2, rest) ← Clear proxy partition rest;
      Ret (u32 (n1 + n2), ms1 ++ ms2, (s, (ut, mkType (lseqnum_ t) g (sent t ++ ms1))) :: rest)
  end.

(** [SyncIntrospect] does not look whether the type is known. *)
Definition SyncIntrospect {V} (tname table key : string) (map : uve_global_map V) : outcome (list (message V)) :=
  match TypeMap tname map with
  | None => Abort
  | Some (ut, t) => Ret (Group_SendUVE ut table key "" (group t)).2
  end.

(** [InitDerivedStats]: the types that are known are configured, whatever the others *)
Fixpoint TypeMaps_InitDerivedStats {V} (dsmap : list (string * gmap string string)) (map : uve_global_map V) :
    bool * uve_global_map V :=
  match dsmap with
  | [] => (true, map)
  | (s, conf) :: dsmap =>
      match TypeMap s map with
      | None => let '(_, map) := TypeMaps_InitDerivedStats dsmap map in (false, map)
      | Some (ut, t) =>
          let '(ok, g) := Group_InitDerivedStats conf (group t) in
          let map := (λ p, if bool_decide (p.1 = s) then (s, (ut, mkType (lseqnum_ t) g (sent t))) else p) <$> map in
          let '(rest, map) := TypeMaps_InitDerivedStats dsmap map in (ok && rest, map)
      end
  end.
End UV.
