(* ===== verification/UveThms.v ===== *)
(** * What the UVE cache promises

    The collector's side is the abstraction: [receive] merges a message into what it knows
    of a UVE, or forgets a UVE that was deleted.  Sending again what changed since a
    sequence number brings a collector that saw all messages up to it to where it would be
    had it seen all of them; a UVE that is not updated is dropped at the second mark; and a
    walk over the cache returns exactly if no entry is passed over. *)

From stdpp Require Import gmap list strings.
From S2P Require Import Prelude Uve.
Open Scope Z_scope.

Module UT.
Import UV.

Section Thms.
Context {V : Type} (ut : UType).
Implicit Types (u : UVE V) (e : UVEMapEntry V) (m : Impl V) (g : Group V) (s : TypeState V).

Abbreviation key := (string * string * string)%type.
Definition key_of u : key := (proxy_ u, name_ u, table_ u).

(** ** The collector *)

Abbreviation view := (gmap key (gmap string V)).
Definition receive (v : view) (x : message V) : view :=
  let d := m_data x in
  if get_deleted d then delete (key_of d) v
  else <[key_of d := attrs_ d ∪ default ∅ (v !! key_of d)]> v.
Definition collect (v : view) (ms : list (message V)) : view := foldl receive v ms.
Definition shows (v : view) (k : key) (a : string) : option V := v !! k ≫= (.!! a).

(** ** Looking into the caches *)

Definition at_impl m (name table : string) : option (UVEMapEntry V) := cmap_ m !! name ≫= (.!! table).
Definition locate g (p : Z) (proxy : string) : option (Impl V) :=
  if p =? -1 then native_group_map_ g !! proxy
  else if p <? 0 then None else group_map_ g !! proxy ≫= (.!! Z.to_nat p).
Definition cached g (p : Z) (k : key) : option (UVEMapEntry V) :=
  locate g p k.1.1 ≫= λ m, at_impl m k.1.2 k.2.

(** All entries, in the order of a walk *)
Definition impl_entries m : list (UVEMapEntry V) :=
  concat (map (λ p, map snd (map_to_list p.2)) (map_to_list (cmap_ m))).
Definition impls g : list (Impl V) :=
  map snd (map_to_list (native_group_map_ g)) ++ concat (map snd (map_to_list (group_map_ g))).
Definition group_entries g : list (UVEMapEntry V) := concat (map impl_entries (impls g)).

Lemma elem_of_impl_entries e m : e ∈ impl_entries m ↔ ∃ name table, at_impl m name table = Some e.
Proof.
  unfold impl_entries, at_impl. rewrite list_elem_of_In, in_concat. split.
  - intros (l&Hl&He). apply in_map_iff in Hl as ([n t]&<-&Hn%list_elem_of_In%elem_of_map_to_list).
    apply in_map_iff in He as ([k e']&<-&Hk%list_elem_of_In%elem_of_map_to_list). exists n, k. simpl in *. by rewrite Hn.
  - intros (n&k&Hnk). destruct (cmap_ m !! n) as [t|] eqn:Hn; [|done]. simpl in Hnk.
    exists (map snd (map_to_list t)). split.
    + apply in_map_iff. exists (n, t). split; [done|]. by apply list_elem_of_In, elem_of_map_to_list.
    + apply in_map_iff. exists (k, e). split; [done|]. by apply list_elem_of_In, elem_of_map_to_list.
Qed.

Lemma elem_of_impls m g : m ∈ impls g ↔ ∃ p proxy, locate g p proxy = Some m.
Proof.
  unfold impls, locate. rewrite elem_of_app, !list_elem_of_In, in_map_iff, in_concat. split.
  - intros [([x m']&<-&Hx%list_elem_of_In%elem_of_map_to_list)|(l&Hl&Hm)]; [by exists (-1), x|].
    apply in_map_iff in Hl as ([x l']&<-&Hx%list_elem_of_In%elem_of_map_to_list).
    apply list_elem_of_In, list_elem_of_lookup in Hm as [i Hi]. exists (Z.of_nat i), x. simpl in *.
    destruct (Z.eqb_spec (Z.of_nat i) (-1)); [lia|]. destruct (Z.ltb_spec (Z.of_nat i) 0); [lia|]. by rewrite Hx, Nat2Z.id.
  - intros (p&x&Hp). destruct (p =? -1).
    + left. exists (x, m). split; [done|]. by apply list_elem_of_In, elem_of_map_to_list.
    + destruct (p <? 0); [done|]. destruct (group_map_ g !! x) as [l|] eqn:Hx; [|done]. right. exists l. split.
      * apply in_map_iff. exists (x, l). split; [done|]. by apply list_elem_of_In, elem_of_map_to_list.
      * simpl in Hp. apply list_elem_of_In. by eapply list_elem_of_lookup_2.
Qed.

Lemma elem_of_group_entries e g : e ∈ group_entries g ↔ ∃ p k, cached g p k = Some e.
Proof.
  unfold group_entries, cached. rewrite list_elem_of_In, in_concat. split.
  - intros (l&Hl&He). apply in_map_iff in Hl as (m&<-&Hm%list_elem_of_In%elem_of_impls). destruct Hm as (p&x&Hm).
    apply list_elem_of_In, elem_of_impl_entries in He as (n&t&He). exists p, (x, n, t). simpl. by rewrite Hm.
  - intros (p&[[x n] t]&Hk). simpl in Hk. destruct (locate g p x) as [m|] eqn:Hm; [|done]. simpl in Hk.
    exists (impl_entries m). split; [|apply list_elem_of_In, elem_of_impl_entries; eauto].
    apply in_map_iff. exists m. split; [done|]. apply list_elem_of_In, elem_of_impls. eauto.
Qed.

(** ** Updates *)

(** The entry after an update, when there was [old] *)
Definition merged u (seqno level : Z) (old : option (UVEMapEntry V)) : UVEMapEntry V :=
  match old with
  | None => mkEntry (T_UpdateUVE ut u (new_UVE (table_ u))).2 seqno level
  | Some e =>
      mkEntry (T_UpdateUVE ut u (if negb (TM ut =? 0) then set_deleted false (data e) else data e)).2 seqno (level_ e)
  end.
Definition updated u (seqno level : Z) (old : option (UVEMapEntry V)) : option (UVEMapEntry V) :=
  if get_deleted u then None else Some (merged u seqno level old).

Definition shown u : gmap string V := filter (λ p, cat ut p.1 ≠ HIDDEN) (attrs_ u).
Definition sends u : bool :=
  negb (bool_decide (shown u = ∅)) || bool_decide (is_Some (deleted_ u)) || negb (periodic_ustruct ut).

Lemma at_put_tables m n t n' t' :
  at_impl (put_tables n t m) n' t' = if bool_decide (n' = n) then t !! t' else at_impl m n' t'.
Proof.
  unfold at_impl, put_tables. simpl. case_bool_decide as Ht; case_bool_decide as Hn; subst.
  - by rewrite lookup_delete_eq.
  - by rewrite lookup_delete_ne.
  - by rewrite lookup_insert_eq.
  - by rewrite lookup_insert_ne.
Qed.

Lemma UpdateUVE_spec u n l m :
  table_ u ≠ "" →
  ∃ m', UpdateUVE ut u n l m = Ret (sends u, with_attrs (shown u) u, m') ∧
    ∀ name table, at_impl m' name table =
      if bool_decide ((name, table) = (name_ u, table_ u)) then updated u n l (at_impl m name table) else at_impl m name table.
Proof.
  intros Ht. unfold UpdateUVE. rewrite bool_decide_false by done. cbn [negb].
  rewrite assert_that_true by done. cbn [mbind outcome_mbind].
  set (tables := default ∅ (cmap_ m !! name_ u)).
  assert (Hlk : ∀ t, at_impl m (name_ u) t = tables !! t).
  { intros t. unfold at_impl, tables. by destruct (cmap_ m !! name_ u). }
  set (tables' := if get_deleted u then delete (table_ u) tables
                  else <[table_ u := merged u n l (tables !! table_ u)]> tables).
  exists (put_tables (name_ u) tables' m). split.
  - unfold tables', merged, T_UpdateUVE. destruct (tables !! table_ u) as [e|]; done.
  - intros n' t'. rewrite at_put_tables. case_bool_decide as Hn; subst.
    + rewrite Hlk. unfold tables', updated. destruct (decide (t' = table_ u)) as [->|Hne].
      * rewrite (bool_decide_true (_ = _)) by done. destruct (get_deleted u); [apply lookup_delete_eq|apply lookup_insert_eq].
      * rewrite (bool_decide_false (_ = _)) by congruence.
        destruct (get_deleted u); [by apply lookup_delete_ne|by apply lookup_insert_ne].
    + rewrite bool_decide_false by congruence. done.
Qed.

Definition valid_partition (p : Z) : Prop := -1 ≤ p < Z.of_nat kProxyPartitions.
(** A proxy group has all its partitions. *)
Definition full g : Prop := ∀ x l, group_map_ g !! x = Some l → length l = kProxyPartitions.

Lemma Group_UpdateUVE_spec u n p l g :
  table_ u ≠ "" → valid_partition p → full g →
  ∃ g', Group_UpdateUVE ut u n p l g = Ret (sends u, with_attrs (shown u) u, g') ∧ full g' ∧
    ∀ p' k, cached g' p' k =
      if bool_decide ((p', k) = (p, key_of u)) then updated u n l (cached g p' k) else cached g p' k.
Proof.
  intros Ht [Hp1 Hp2] Hf. unfold Group_UpdateUVE. destruct (Z.eqb_spec p (-1)) as [->|Hp].
  - destruct (UpdateUVE_spec u n l (GetNMap (proxy_ u) g) Ht) as (m'&->&Hm'). eexists. split; [done|]. split; [done|].
    intros p' [[x n'] t']. unfold cached, locate. simpl. destruct (Z.eqb_spec p' (-1)) as [->|].
    + destruct (decide (x = proxy_ u)) as [->|].
      * rewrite lookup_insert_eq. simpl. rewrite Hm'. unfold GetNMap.
        rewrite !(bool_decide_ext (_ = (name_ u, table_ u)) ((-1, (proxy_ u, n', t')) = (-1, key_of u))) by (unfold key_of; naive_solver).
        by destruct (native_group_map_ g !! proxy_ u).
      * rewrite lookup_insert_ne, bool_decide_false by (unfold key_of; congruence). done.
    + rewrite bool_decide_false by congruence. done.
  - rewrite assert_that_true by (apply Z.ltb_lt; lia). cbn [mbind outcome_mbind].
    destruct (Z.ltb_spec p 0); [lia|]. set (ps := GetGMap (proxy_ u) g).
    assert (Hlen : length ps = kProxyPartitions).
    { unfold ps, GetGMap. destruct (group_map_ g !! proxy_ u) eqn:E; [by eapply Hf|]. apply length_replicate. }
    destruct (lookup_lt_is_Some_2 ps (Z.to_nat p)) as [m Hm]; [lia|]. rewrite Hm.
    destruct (UpdateUVE_spec u n l m Ht) as (m'&->&Hm'). eexists. split; [done|]. split.
    { intros x l'. simpl. rewrite lookup_insert_Some. intros [[_ <-]|[_ ?]]; [by rewrite length_insert|by eapply Hf]. }
    intros p' [[x n'] t']. unfold cached, locate. simpl. destruct (Z.eqb_spec p' (-1)) as [->|].
    { rewrite bool_decide_false by congruence. done. }
    destruct (Z.ltb_spec p' 0); [rewrite bool_decide_false by (intros [=]; lia); done|].
    destruct (decide (x = proxy_ u)) as [->|].
    + rewrite lookup_insert_eq. simpl. destruct (decide (p' = p)) as [->|].
      * rewrite list_lookup_insert_eq by lia. simpl. rewrite Hm'.
        rewrite !(bool_decide_ext (_ = (name_ u, table_ u)) ((p, (proxy_ u, n', t')) = (p, key_of u))) by (unfold key_of; naive_solver).
        unfold ps, GetGMap in Hm. destruct (group_map_ g !! proxy_ u) as [l'|]; cbn [from_option id mbind option_bind] in *; [by rewrite Hm|].
        apply lookup_replicate in Hm as [-> _]. done.
      * rewrite list_lookup_insert_ne, bool_decide_false by (rewrite ?Z2Nat.inj_iff; try lia; congruence).
        unfold ps, GetGMap. destruct (group_map_ g !! proxy_ u) as [l'|]; cbn [from_option id mbind option_bind]; [done|].
        destruct (replicate _ _ !! _) eqn:E; [|done]. apply lookup_replicate in E as [-> _]. done.
    + rewrite lookup_insert_ne, bool_decide_false by (unfold key_of; congruence). done.
Qed.

(** ** Histories *)

Record send := mkSend { s_data : UVE V; s_level : Z; s_table : string; s_partition : Z }.
Definition object (x : send) : UVE V := with_table (s_table x) (s_data x).
Definition run_send (x : send) s : outcome (TypeState V) := Send ut (s_data x) (s_level x) (s_table x) (s_partition x) s.
Fixpoint run (h : list send) s : outcome (TypeState V) :=
  match h with [] => Ret s | x :: h => s ← run_send x s; run h s end.

(** Every UVE belongs to one partition. *)
Context (part : key → Z).
Definition fine (x : send) : Prop :=
  table_ (object x) ≠ "" ∧ valid_partition (s_partition x) ∧ part (key_of (object x)) = s_partition x.

(** The cache [g] and a collector that saw everything agree on what is not hidden. *)
Record Agree g (v : view) : Prop := mkAgree {
  agree_full : full g;
  agree_entry p k e : cached g p k = Some e → p = part k ∧ key_of (data e) = k ∧ get_deleted (data e) = false;
  agree_shows k a : shows v k a = cached g (part k) k ≫= λ e, shown (data e) !! a;
}.

Lemma cached_new conf p k : cached (new_Group conf) p k = None.
Proof.
  destruct k as [[x n] t]. unfold cached, locate. simpl. destruct (p =? -1).
  - destruct (decide (x = "")) as [->|]; [by rewrite lookup_singleton_eq|by rewrite lookup_singleton_ne].
  - destruct (p <? 0); [done|]. by rewrite lookup_empty.
Qed.

Lemma Agree_new conf : Agree (new_Group conf) ∅.
Proof.
  split; [by intros ??; simpl; rewrite lookup_empty|intros p k e; by rewrite cached_new|].
  intros k a. rewrite cached_new. unfold shows. by rewrite lookup_empty.
Qed.

Lemma shown_lookup u a : shown u !! a = if bool_decide (cat ut a = HIDDEN) then None else attrs_ u !! a.
Proof.
  unfold shown. rewrite map_lookup_filter. destruct (attrs_ u !! a) eqn:E; simpl; [|by case_bool_decide].
  case_bool_decide; case_guard; naive_solver.
Qed.

Lemma merged_attrs u n l old : attrs_ (data (merged u n l old)) = attrs_ u ∪ default ∅ (attrs_ ∘ data <$> old).
Proof. unfold merged, T_UpdateUVE. destruct old as [e|]; simpl; [|done]. by destruct (TM ut =? 0). Qed.

Lemma shown_merged u n l old a :
  shown (data (merged u n l old)) !! a = union_with (λ x _, Some x) (shown u !! a) (old ≫= λ e, shown (data e) !! a).
Proof.
  rewrite !shown_lookup, merged_attrs, lookup_union.
  destruct old as [e|]; cbn; rewrite ?shown_lookup, ?lookup_empty; case_bool_decide; done.
Qed.

Lemma merged_key u n l old :
  get_deleted u = false → (∀ e, old = Some e → key_of (data e) = key_of u ∧ get_deleted (data e) = false) →
  key_of (data (merged u n l old)) = key_of u ∧ get_deleted (data (merged u n l old)) = false.
Proof.
  intros Hd He. unfold merged, T_UpdateUVE, key_of, get_deleted in *. destruct old as [e|]; simpl.
  - destruct (He e eq_refl) as [[=] He2]. destruct (TM ut =? 0), (deleted_ u) as [[]|]; simpl in *; split; congruence.
  - destruct (deleted_ u) as [[]|]; simpl in *; done.
Qed.

Lemma receive_shows v x k a :
  shows (receive v x) k a =
    if bool_decide (k = key_of (m_data x)) then
      if get_deleted (m_data x) then None else union_with (λ x _, Some x) (attrs_ (m_data x) !! a) (shows v k a)
    else shows v k a.
Proof.
  unfold receive, shows. destruct (get_deleted (m_data x)); case_bool_decide as Hk; subst.
  - by rewrite lookup_delete_eq.
  - by rewrite lookup_delete_ne.
  - rewrite lookup_insert_eq. simpl. rewrite lookup_union. destruct (v !! _); simpl; [done|]. by rewrite lookup_empty.
  - by rewrite lookup_insert_ne.
Qed.

Lemma Send_spec x s v :
  fine x → Agree (group s) v →
  ∃ s' ms, run_send x s = Ret s' ∧ lseqnum_ s' = u32 (lseqnum_ s + 1) ∧ sent s' = sent s ++ ms ∧ Agree (group s') (collect v ms) ∧
    ∀ p k, cached (group s') p k =
      if bool_decide ((p, k) = (s_partition x, key_of (object x)))
      then updated (object x) (u32 (lseqnum_ s + 1)) (s_level x) (cached (group s) p k) else cached (group s) p k.
Proof.
  intros (Ht&Hv&Hpart) [Hf He Hs]. unfold run_send, Send. set (u := object x) in *. set (n := u32 (lseqnum_ s + 1)).
  change (with_table (s_table x) (s_data x)) with u.
  destruct (Group_UpdateUVE_spec u n (s_partition x) (s_level x) (group s) Ht Hv Hf) as (g'&->&Hf'&Hc).
  eexists _, (if sends u then [mkMsg (with_attrs (shown u) u) (s_level x) n false ""] else []).
  split; [done|]. split; [done|]. split; [done|]. split; [|done]. simpl. split.
  - done.
  - intros p k e. rewrite Hc. case_bool_decide as Hpk; [|by apply He]. simplify_eq. unfold updated.
    destruct (get_deleted u) eqn:Hd; [done|]. intros [= <-]. split; [done|]. apply merged_key; [done|].
    intros e Hce. by apply He in Hce as (_&?&?).
  - intros k a. rewrite Hc. rewrite (bool_decide_ext (_ = (s_partition x, key_of u)) (k = key_of u)) by naive_solver congruence.
    assert (Hsh : shows (collect v (if sends u then [mkMsg (with_attrs (shown u) u) (s_level x) n false ""] else [])) k a =
      if bool_decide (k = key_of u) then if get_deleted u then None else union_with (λ x _, Some x) (shown u !! a) (shows v k a)
      else shows v k a).
    { destruct (sends u) eqn:Hse; [exact (receive_shows _ _ _ _)|]. simpl. case_bool_decide; [|done].
      unfold sends in Hse. apply orb_false_iff in Hse as [[Hs1 Hs2]%orb_false_iff _].
      apply negb_false_iff, bool_decide_eq_true in Hs1. apply bool_decide_eq_false in Hs2.
      rewrite Hs1, lookup_empty, union_with_left_id. unfold get_deleted. destruct (deleted_ u); [|done]. by destruct Hs2. }
    rewrite Hsh, Hs. case_bool_decide as Hk; [|done]. unfold updated. destruct (get_deleted u); [done|]. simpl.
    by rewrite shown_merged.
Qed.

Lemma run_app h1 h2 s : run (h1 ++ h2) s = s ← run h1 s; run h2 s.
Proof.
  revert s. induction h1 as [|x h1 IH]; intros s; [done|]. simpl. destruct (run_send x s); [|done]. apply IH.
Qed.

Lemma run_spec h s v :
  Forall fine h → Agree (group s) v →
  ∃ s' ms, run h s = Ret s' ∧ sent s' = sent s ++ ms ∧ Agree (group s') (collect v ms).
Proof.
  intros Hh. revert s v. induction Hh as [|x h Hx _ IH]; intros s v Ha.
  - exists s, []. by rewrite app_nil_r.
  - destruct (Send_spec x s v Hx Ha) as (s1&ms1&He1&_&Hs1&Ha1&_). destruct (IH s1 _ Ha1) as (s2&ms2&He2&Hs2&Ha2).
    exists s2, (ms1 ++ ms2). simpl. rewrite He1. cbn [mbind outcome_mbind]. split; [done|].
    rewrite Hs2, Hs1, <-app_assoc. split; [done|]. unfold collect in *. by rewrite foldl_app.
Qed.

(** Sequence numbers count the updates. *)
Lemma run_seqno h s s' v :
  Forall fine h → Agree (group s) v → run h s = Ret s' → 0 ≤ lseqnum_ s → lseqnum_ s + Z.of_nat (length h) < 2 ^ 32 →
  (∀ p k e, cached (group s) p k = Some e → seqno_ e ≤ lseqnum_ s) →
  lseqnum_ s' = lseqnum_ s + Z.of_nat (length h) ∧ ∀ p k e, cached (group s') p k = Some e → seqno_ e ≤ lseqnum_ s'.
Proof.
  intros Hh. revert s v. induction Hh as [|x h Hx _ IH]; intros s v Ha Hrun H0 Hlt Hc; simpl in *.
  - simplify_eq. split; [lia|done].
  - destruct (Send_spec x s v Hx Ha) as (s1&ms1&He1&Hl1&_&Ha1&Hc1). rewrite He1 in Hrun. cbn [mbind outcome_mbind] in Hrun.
    rewrite wrap_small in Hl1, Hc1 by lia. destruct (IH s1 _ Ha1 Hrun) as [Hl Hcs]; [lia|lia| |].
    + intros p k e. rewrite Hc1. case_bool_decide; [|intros ?%Hc; lia]. unfold updated. destruct (get_deleted _); [done|].
      intros [= <-]. rewrite Hl1. unfold merged. by destruct (cached _ _ _).
    + split; [lia|done].
Qed.

(** Without deletions the cache only grows, and what changed has a new sequence number. *)
Definition keeps (x : send) : Prop := get_deleted (object x) = false.
Definition grown (n : Z) (o1 o2 : option (UVEMapEntry V)) : Prop :=
  match o2 with
  | Some e2 => n < seqno_ e2 ∨ o1 = Some e2
  | None => o1 = None
  end ∧ ∀ e1 e2 a, o1 = Some e1 → o2 = Some e2 → is_Some (attrs_ (data e1) !! a) → is_Some (attrs_ (data e2) !! a).

Lemma grown_refl n o : grown n o o.
Proof. split; [destruct o; auto|]. intros. by simplify_eq. Qed.

Lemma grown_update n n' u l o1 o2 : n < n' → get_deleted u = false → grown n o1 o2 → grown n o1 (updated u n' l o2).
Proof.
  intros Hn Hd [H1 H2]. unfold updated. rewrite Hd. split.
  - left. unfold merged. by destruct o2.
  - intros e1 e2 a He1 [= <-] Ha. rewrite merged_attrs, lookup_union, <-not_eq_None_Some.
    destruct o2 as [e2|]; [|simplify_eq]. destruct (H2 _ _ _ He1 eq_refl Ha) as [w Hw]. simpl. rewrite Hw.
    by destruct (attrs_ u !! a).
Qed.

Lemma run_grown n h s s' v :
  Forall fine h → Forall keeps h → Agree (group s) v → run h s = Ret s' → 0 ≤ n ≤ lseqnum_ s →
  lseqnum_ s + Z.of_nat (length h) < 2 ^ 32 → ∀ g0, (∀ p k, grown n (cached g0 p k) (cached (group s) p k)) →
  ∀ p k, grown n (cached g0 p k) (cached (group s') p k).
Proof.
  intros Hh. revert s v. induction Hh as [|x h Hx _ IH]; intros s v Hk Ha Hrun Hn Hlt g0 Hg; simpl in *; [by simplify_eq|].
  apply Forall_cons in Hk as [Hkx Hk]. destruct (Send_spec x s v Hx Ha) as (s1&ms1&He1&Hl1&_&Ha1&Hc1).
  rewrite He1 in Hrun. cbn [mbind outcome_mbind] in Hrun. rewrite wrap_small in Hl1, Hc1 by lia.
  apply (IH s1 _ Hk Ha1 Hrun); [lia|lia|]. intros p k. rewrite Hc1. case_bool_decide; [|done].
  apply grown_update; [lia|done..].
Qed.

(** ** Walks *)

(** A walk passes over an entry without going on if a table is asked for and this is not it. *)
Definition passes (table : string) (l : list (string * UVEMapEntry V)) : Prop :=
  Forall (λ p, table = "" ∨ p.1 = table) l.
Definition keep (st : SendType) (seqno cycle : Z) e : option (UVEMapEntry V) :=
  if is_sent seqno e && marks ut st cycle then if get_deleted (data e) then None else Some (mark e) else Some e.
Definition sync_msgs (st : SendType) (seqno : Z) (ctx : string) e : list (message V) :=
  if is_sent seqno e then T_Send ut (data e) (level_ e) st (seqno_ e) ctx else [].
Definition keep_pair st seqno cycle (p : string * UVEMapEntry V) : option (string * UVEMapEntry V) :=
  pair p.1 <$> keep st seqno cycle p.2.

Lemma sync_tables_spec fuel table st seqno cycle ctx l :
  passes table l → (length l ≤ fuel)%nat →
  sync_tables ut fuel table st seqno cycle ctx l =
    Some (length (filter (λ p, is_sent seqno p.2 = true) l), concat (map (sync_msgs st seqno ctx) (map snd l)),
          omap (keep_pair st seqno cycle) l).
Proof.
  intros Hp. revert fuel. induction Hp as [|[t e] l Ht _ IH]; intros fuel Hf; simpl in *; [by destruct fuel|].
  destruct fuel as [|fuel]; [lia|]. simpl.
  assert (Hc : negb (bool_decide (table = "")) && negb (bool_decide (t = table)) = false).
  { destruct Ht as [->| ->]; [done|]. by rewrite (bool_decide_true (table = table)), andb_false_r. }
  rewrite Hc, IH by lia. cbn [mbind option_bind]. rewrite filter_cons.
  assert (Hk : keep_pair st seqno cycle (t, e) = pair t <$> keep st seqno cycle e) by done. rewrite Hk.
  assert (Hm : sync_msgs st seqno ctx e = if is_sent seqno e then T_Send ut (data e) (level_ e) st (seqno_ e) ctx else []) by done.
  rewrite Hm. unfold keep. simpl. destruct (is_sent seqno e); simpl; [|done].
  destruct (marks ut st cycle); simpl; [|done]. by destruct (get_deleted (data e)).
Qed.

Lemma sync_tables_hangs table st seqno cycle ctx l fuel :
  ¬ passes table l → sync_tables ut fuel table st seqno cycle ctx l = None.
Proof.
  revert l. induction fuel as [|fuel IH]; intros [|[t e] l] Hp; try done; [by destruct Hp; constructor..|].
  simpl. destruct (negb _ && negb _) eqn:Hc; [by apply IH|]. rewrite IH; [done|]. intros Hl. apply Hp. constructor; [|done].
  simpl. apply andb_false_iff in Hc as [?|?]; [left|right]; by eapply bool_decide_eq_true, negb_false_iff.
Qed.

Lemma lookup_omap_list {A B} (f : A → option B) (l : list (string * A)) i :
  NoDup l.*1 →
  (list_to_map (omap (λ p, pair p.1 <$> f p.2) l) : gmap string B) !! i = (list_to_map l : gmap string A) !! i ≫= f.
Proof.
  induction l as [|[j x] l IH]; intros Hnd; simpl; [by rewrite !lookup_empty|].
  apply NoDup_cons in Hnd as [Hj Hnd]. simpl in Hj. destruct (decide (i = j)) as [->|Hne].
  - rewrite lookup_insert_eq. simpl. destruct (f x) as [y|]; simpl; [by rewrite lookup_insert_eq|].
    specialize (IH Hnd). rewrite (not_elem_of_list_to_map_1 l j Hj) in IH. exact IH.
  - rewrite lookup_insert_ne by done. destruct (f x) as [y|]; simpl; [rewrite lookup_insert_ne by done|]; by apply IH.
Qed.

Lemma lookup_omap_map {A B} (f : A → option B) (m : gmap string A) i :
  (list_to_map (omap (λ p, pair p.1 <$> f p.2) (map_to_list m)) : gmap string B) !! i = m !! i ≫= f.
Proof. rewrite lookup_omap_list by apply NoDup_fst_map_to_list. by rewrite list_to_map_to_list. Qed.

(** The tables of a name, and the cache, after a walk *)
Definition synced_tables st seqno cycle (ts : gmap string (UVEMapEntry V)) : option (gmap string (UVEMapEntry V)) :=
  let ts : gmap string (UVEMapEntry V) := list_to_map (omap (keep_pair st seqno cycle) (map_to_list ts)) in
  if bool_decide (ts = ∅) then None else Some ts.
Definition synced st seqno cycle m : Impl V :=
  mkImpl (list_to_map (omap (λ p, pair p.1 <$> synced_tables st seqno cycle p.2) (map_to_list (cmap_ m)))) (dsconf_ m).

Lemma at_synced st seqno cycle m n i : at_impl (synced st seqno cycle m) n i = at_impl m n i ≫= keep st seqno cycle.
Proof.
  unfold at_impl, synced. simpl. rewrite lookup_omap_map. destruct (cmap_ m !! n) as [ts|]; simpl; [|done].
  unfold synced_tables. set (ts' := list_to_map _).
  assert (Hi : ts' !! i = ts !! i ≫= keep st seqno cycle) by apply lookup_omap_map.
  rewrite <-Hi. case_bool_decide as He; simpl; [by rewrite He, lookup_empty|done].
Qed.

Definition tables_entries (l : list (string * gmap string (UVEMapEntry V))) : list (UVEMapEntry V) :=
  concat (map (λ p, map snd (map_to_list p.2)) l).
Definition n_sent (seqno : Z) (l : list (UVEMapEntry V)) : nat := length (filter (λ e, is_sent seqno e = true) l).

Lemma n_sent_app seqno l1 l2 : n_sent seqno (l1 ++ l2) = (n_sent seqno l1 + n_sent seqno l2)%nat.
Proof. unfold n_sent. by rewrite filter_app, length_app. Qed.
Lemma n_sent_map {K} seqno (l : list (K * UVEMapEntry V)) :
  length (filter (λ p, is_sent seqno p.2 = true) l) = n_sent seqno (map snd l).
Proof. unfold n_sent. induction l as [|[k e] l IH]; [done|]. simpl. rewrite !filter_cons. simpl. case_decide; simpl; by rewrite IH. Qed.

Lemma sync_names_spec fuel table st seqno cycle ctx l :
  Forall (λ p, passes table (map_to_list p.2)) l → (length (tables_entries l) ≤ fuel)%nat →
  sync_names ut fuel table st seqno cycle ctx l =
    Some (n_sent seqno (tables_entries l), concat (map (sync_msgs st seqno ctx) (tables_entries l)),
          omap (λ p, pair p.1 <$> synced_tables st seqno cycle p.2) l).
Proof.
  intros Hp. induction Hp as [|[name ts] l Hts _ IH]; intros Hf; [done|]. simpl in *.
  assert (Hlen : (length (map snd (map_to_list ts)) + length (tables_entries l) ≤ fuel)%nat)
    by (unfold tables_entries in *; simpl in Hf; by rewrite length_app in Hf).
  rewrite length_map in Hlen. rewrite sync_tables_spec by (done || lia). cbn [mbind option_bind]. rewrite IH by lia. cbn [mbind option_bind].
  rewrite n_sent_map, <-n_sent_app, <-concat_app, <-map_app. do 2 f_equal.
  unfold synced_tables. simpl. by case_bool_decide.
Qed.

Definition passing (table : string) m : Prop :=
  ∀ name t e, at_impl m name t = Some e → table = "" ∨ t = table.

Lemma passing_tables table m : passing table m ↔ Forall (λ p, passes table (map_to_list p.2)) (map_to_list (cmap_ m)).
Proof.
  unfold passing, passes, at_impl. rewrite Forall_forall. split.
  - intros Hp [n ts] Hn%elem_of_map_to_list. apply Forall_forall. intros [t e] Ht%elem_of_map_to_list. simpl in *.
    apply (Hp n t e). by rewrite Hn.
  - intros Hp n t e Hnt. destruct (cmap_ m !! n) as [ts|] eqn:Hn; [|done]. simpl in Hnt.
    specialize (Hp (n, ts)). rewrite elem_of_map_to_list, Forall_forall in Hp.
    apply (Hp Hn (t, e)). by apply elem_of_map_to_list.
Qed.

Lemma SyncUVE_spec fuel table st seqno cycle ctx m :
  passing table m → (length (impl_entries m) ≤ fuel)%nat →
  SyncUVE ut fuel table st seqno cycle ctx m =
    Some (u32 (Z.of_nat (n_sent seqno (impl_entries m))), concat (map (sync_msgs st seqno ctx) (impl_entries m)),
          synced st seqno cycle m).
Proof. intros Hp%passing_tables Hf. unfold SyncUVE. by rewrite sync_names_spec. Qed.

Lemma sync_names_passes fuel table st seqno cycle ctx l :
  is_Some (sync_names ut fuel table st seqno cycle ctx l) → Forall (λ p, passes table (map_to_list p.2)) l.
Proof.
  induction l as [|[name ts] l IH]; intros [r Hr]; [constructor|]. simpl in Hr.
  destruct (sync_tables ut _ _ _ _ _ _ (map_to_list ts)) as [[[n1 ms1] kept1]|] eqn:H1; [|done].
  cbn [mbind option_bind] in Hr. destruct (sync_names ut _ _ _ _ _ _ l) as [[[n2 ms2] kept2]|]; [|done].
  constructor; [|by apply IH]. simpl. destruct (decide (passes table (map_to_list ts))) as [|Hn]; [done|].
  by rewrite sync_tables_hangs in H1.
Qed.

(** C19: a walk over a cache ends exactly if no entry is passed over: with an empty table
    always, and within as many rounds for a name as there are entries; with a table if
    every entry of the cache is of this table.  It then counts and sends the entries that
    changed since the sequence number, or all if that is 0, each once. *)
Theorem sync_returns_iff table st seqno cycle ctx m :
  ((∃ fuel r, SyncUVE ut fuel table st seqno cycle ctx m = Some r) ↔ passing table m) ∧
  (passing table m →
   SyncUVE ut (length (impl_entries m)) table st seqno cycle ctx m =
     Some (u32 (Z.of_nat (n_sent seqno (impl_entries m))), concat (map (sync_msgs st seqno ctx) (impl_entries m)),
           synced st seqno cycle m)).
Proof.
  split; [split|].
  - intros (fuel&r&Hr). apply passing_tables, (sync_names_passes fuel _ st seqno cycle ctx). unfold SyncUVE in Hr.
    destruct (sync_names _ _ _ _ _ _ _ _); [by eexists|done].
  - intros Hp. eexists _, _. by apply (SyncUVE_spec (length (impl_entries m))).
  - intros Hp. by apply SyncUVE_spec.
Qed.

(** ** Walks over all caches of a type *)

Lemma u32_sum (a b : nat) : u32 (u32 (Z.of_nat a) + u32 (Z.of_nat b)) = u32 (Z.of_nat (a + b)).
Proof. unfold wrap. rewrite <-Zplus_mod. f_equal. lia. Qed.

Lemma sync_each_spec {K} f (cnt : Impl V → nat) (out : Impl V → list (message V)) (res : Impl V → Impl V) (l : list (K * Impl V)) :
  Forall (λ p, f p.2 = Some (u32 (Z.of_nat (cnt p.2)), out p.2, res p.2)) l →
  sync_each f l = Some (u32 (Z.of_nat (sum_list (map (λ p, cnt p.2) l))), concat (map (λ p, out p.2) l), map (λ p, (p.1, res p.2)) l).
Proof.
  induction 1 as [|[k m] l Hm _ IH]; [done|]. simpl in *. rewrite Hm. cbn [mbind option_bind]. rewrite IH. cbn [mbind option_bind].
  by rewrite u32_sum.
Qed.

Lemma sync_groups_spec f (cnt : Impl V → nat) (out : Impl V → list (message V)) (res : Impl V → Impl V) (l : list (string * list (Impl V))) :
  Forall (λ p, Forall (λ m, f m = Some (u32 (Z.of_nat (cnt m)), out m, res m)) p.2) l →
  sync_groups f l =
    Some (u32 (Z.of_nat (sum_list (map cnt (concat (map snd l))))), concat (map out (concat (map snd l))), map (λ p, (p.1, map res p.2)) l).
Proof.
  induction 1 as [|[k ps] l Hm _ IH]; [done|]. simpl in *.
  rewrite (sync_each_spec _ cnt out res) by (apply Forall_map; exact Hm). cbn [mbind option_bind]. rewrite IH. cbn [mbind option_bind].
  rewrite u32_sum, !map_map, !map_app, concat_app, sum_list_with_app. cbn. done.
Qed.

Definition synced_group st seqno cycle g : Group V :=
  mkGroup (synced st seqno cycle <$> native_group_map_ g) (map (synced st seqno cycle) <$> group_map_ g) (conf0 g).

Lemma cached_synced st seqno cycle g p k :
  cached (synced_group st seqno cycle g) p k = cached g p k ≫= keep st seqno cycle.
Proof.
  unfold cached, locate. destruct k as [[x n] i]. simpl. destruct (p =? -1).
  - rewrite lookup_fmap. destruct (native_group_map_ g !! x) as [m|]; simpl; [apply at_synced|done].
  - destruct (p <? 0); [done|]. rewrite lookup_fmap. destruct (group_map_ g !! x) as [l|]; simpl; [|done].
    rewrite list_lookup_fmap. destruct (l !! Z.to_nat p) as [m|]; simpl; [apply at_synced|done].
Qed.

Lemma list_to_map_fmap_list {A B} (f : A → B) (m : gmap string A) :
  (list_to_map (map (λ p, (p.1, f p.2)) (map_to_list m)) : gmap string B) = f <$> m.
Proof.
  rewrite <-(list_to_map_to_list (f <$> m)), map_to_list_fmap. done.
Qed.

Lemma impls_le m g : m ∈ impls g → (length (impl_entries m) ≤ length (group_entries g))%nat.
Proof.
  unfold group_entries. intros Hm. apply list_elem_of_split in Hm as (l1&l2&->).
  rewrite map_app, concat_app, length_app. simpl. rewrite length_app. lia.
Qed.

Lemma Group_SyncUVE_spec fuel st seqno cycle ctx g :
  (length (group_entries g) ≤ fuel)%nat →
  Group_SyncUVE ut fuel "" st seqno cycle ctx g =
    Some (u32 (Z.of_nat (n_sent seqno (group_entries g))), concat (map (sync_msgs st seqno ctx) (group_entries g)),
          synced_group st seqno cycle g).
Proof.
  intros Hf. unfold Group_SyncUVE.
  set (cnt m := n_sent seqno (impl_entries m)). set (out m := concat (map (sync_msgs st seqno ctx) (impl_entries m))).
  assert (Hm : ∀ m, m ∈ impls g → SyncUVE ut fuel "" st seqno cycle ctx m =
    Some (u32 (Z.of_nat (cnt m)), out m, synced st seqno cycle m)).
  { intros m Hm%impls_le. apply SyncUVE_spec; [by left|lia]. }
  rewrite (sync_each_spec _ cnt out (synced st seqno cycle)).
  2: { apply Forall_forall. intros [x m] Hx. apply Hm. unfold impls. apply elem_of_app. left.
       apply list_elem_of_fmap. by exists (x, m). }
  cbn [mbind option_bind]. rewrite (sync_groups_spec _ cnt out (synced st seqno cycle)).
  2: { apply Forall_forall. intros [x l] Hx. apply Forall_forall. intros m Hl. apply Hm. unfold impls. apply elem_of_app. right.
       apply list_elem_of_In, in_concat. exists l. split; [|by apply list_elem_of_In].
       apply in_map_iff. exists (x, l). split; [done|]. by apply list_elem_of_In. }
  cbn [mbind option_bind]. unfold synced_group. rewrite u32_sum, !list_to_map_fmap_list. repeat f_equal.
  - unfold group_entries, impls. generalize (map_to_list (native_group_map_ g)) as l1, (concat (map snd (map_to_list (group_map_ g)))) as l2.
    intros l1 l2. assert (Hcnt : ∀ l, sum_list (map cnt l) = n_sent seqno (concat (map impl_entries l))).
    { induction l as [|m l IH]; [done|]. simpl. rewrite n_sent_app, <-IH. done. }
    rewrite <-Hcnt, map_app, sum_list_with_app, map_map. done.
  - unfold group_entries, impls. generalize (map_to_list (native_group_map_ g)) as l1, (concat (map snd (map_to_list (group_map_ g)))) as l2.
    intros l1 l2. assert (Hout : ∀ l, concat (map out l) = concat (map (sync_msgs st seqno ctx) (concat (map impl_entries l)))).
    { induction l as [|m l IH]; [done|]. simpl. rewrite map_app, concat_app, <-IH. done. }
    rewrite <-Hout, map_app, concat_app, map_map. done.
Qed.

(** ** Sending again *)

(** Messages of one UVE that all say the same *)
Lemma collect_same k d ms v a :
  get_deleted d = false → (∀ x, x ∈ ms → key_of (m_data x) = k → m_data x = d) →
  shows (collect v ms) k a =
    if bool_decide (Exists (λ x, key_of (m_data x) = k) ms) then union_with (λ x _, Some x) (attrs_ d !! a) (shows v k a)
    else shows v k a.
Proof.
  intros Hd. revert v. induction ms as [|x ms IH]; intros v Hms; simpl.
  - done.
  - rewrite IH by (intros; apply Hms; set_solver). rewrite receive_shows.
    rewrite (bool_decide_ext (Exists _ (x :: ms)) _ (Exists_cons _ _ _)).
    destruct (decide (k = key_of (m_data x))) as [Hk|Hk].
    + rewrite (bool_decide_true (_ ∨ _)) by (by left). rewrite !(bool_decide_true (k = _)) by done.
      rewrite (Hms x) by (done || set_solver). rewrite Hd.
      case_bool_decide; destruct (attrs_ d !! a), (shows v k a); done.
    + rewrite (bool_decide_false (k = _)) by done.
      rewrite (bool_decide_ext (_ ∨ _) (Exists (λ y, key_of (m_data y) = k) ms)); [done|]. naive_solver.
Qed.

Definition loaded e : UVE V := (LoadUVE ut ST_SYNC (data e)).2.
Definition resent (n : Z) g : list (message V) := concat (map (sync_msgs ST_SYNC n "") (group_entries g)).

Lemma elem_of_resent x n g :
  x ∈ resent n g ↔ ∃ p k e, cached g p k = Some e ∧ is_sent n e = true ∧ x = mkMsg (loaded e) (level_ e) (seqno_ e) true "".
Proof.
  unfold resent. rewrite list_elem_of_In, in_concat. split.
  - intros (l&Hl&Hx). apply in_map_iff in Hl as (e&<-&He%list_elem_of_In%elem_of_group_entries). destruct He as (p&k&He).
    exists p, k, e. unfold sync_msgs, T_Send in Hx. simpl in Hx. destruct (is_sent n e); [|done]. by destruct Hx as [<-|[]].
  - intros (p&k&e&He&Hs&->). exists (sync_msgs ST_SYNC n "" e). split.
    + apply in_map_iff. exists e. split; [done|]. apply list_elem_of_In, elem_of_group_entries. eauto.
    + unfold sync_msgs. rewrite Hs. by left.
Qed.

Lemma loaded_attrs e a : attrs_ (loaded e) !! a = shown (data e) !! a.
Proof.
  rewrite shown_lookup. unfold loaded, LoadUVE. simpl. rewrite map_lookup_filter.
  destruct (attrs_ (data e) !! a); simpl; [|by case_bool_decide]. unfold loads. destruct (cat ut a); simpl; done.
Qed.

(** What a collector shows after a sync *)
Lemma shows_resent n g v v1 k a :
  Agree g v →
  shows (collect v1 (resent n g)) k a =
    match cached g (part k) k with
    | Some e => if is_sent n e then union_with (λ x _, Some x) (shown (data e) !! a) (shows v1 k a) else shows v1 k a
    | None => shows v1 k a
    end.
Proof.
  intros [_ He _].
  assert (Hkey : ∀ x, x ∈ resent n g → key_of (m_data x) = k →
    ∃ e, cached g (part k) k = Some e ∧ is_sent n e = true ∧ m_data x = loaded e).
  { intros x (p&k'&e&Hc&Hs&->)%elem_of_resent Hk. simpl in *. destruct (He _ _ _ Hc) as (->&Hk'&_).
    assert (k' = k) as -> by (rewrite <-Hk, <-Hk'; done). eauto. }
  destruct (cached g (part k) k) as [e|] eqn:Hc.
  - rewrite (collect_same k (loaded e)).
    + rewrite <-loaded_attrs. destruct (is_sent n e) eqn:Hs; case_bool_decide as Hx; try done.
      * exfalso. apply Hx. apply Exists_exists. eexists. split; [apply elem_of_resent; eauto 10|].
        simpl. by destruct (He _ _ _ Hc) as (_&?&_).
      * apply Exists_exists in Hx as (x&Hx&Hk). destruct (Hkey _ Hx Hk) as (e'&?&?&_). congruence.
    + by destruct (He _ _ _ Hc) as (_&_&?).
    + intros x Hx Hk. destruct (Hkey _ Hx Hk) as (e'&?&_&->). congruence.
  - rewrite (collect_same k (new_UVE "")); [|done|].
    + case_bool_decide as Hx; [|done]. apply Exists_exists in Hx as (x&Hx&Hk). by destruct (Hkey _ Hx Hk) as (e'&?&_).
    + intros x Hx Hk. by destruct (Hkey _ Hx Hk) as (e'&?&_).
Qed.

(** C17: over histories of [Send]s alone - no periodic round, and none of its marks for a
    timeout, falls between them -, a collector that saw the messages of [h1] and then what the
    cache sends again from the last sequence number of these, after [h2], knows the same of
    every UVE as one that saw all messages; if [h2] deletes no UVE, or if the collector starts
    from nothing.  No update fails, and the walk over the cache ends.  The objects name a
    table and a valid partition, always the same for a key, and fewer than 2^32 updates are
    sent. *)
Theorem sync_equals_history conf h1 h2 :
  Forall fine h1 → Forall fine h2 → Z.of_nat (length h1 + length h2) < 2 ^ 32 → h1 = [] ∨ Forall keeps h2 →
  ∃ s1 s2 count ms g',
    run h1 (new_Type conf) = Ret s1 ∧ run (h1 ++ h2) (new_Type conf) = Ret s2 ∧
    Group_SyncUVE ut (length (group_entries (group s2))) "" ST_SYNC (lseqnum_ s1) 0 "" (group s2) = Some (count, ms, g') ∧
    ∀ k a, shows (collect ∅ (sent s1 ++ ms)) k a = shows (collect ∅ (sent s2)) k a.
Proof.
  intros Hf1 Hf2 Hlen Hcase. destruct (run_spec h1 (new_Type conf) ∅ Hf1 (Agree_new conf)) as (s1&ms1&Hr1&Hs1&Ha1).
  destruct (run_spec h2 s1 _ Hf2 Ha1) as (s2&ms2&Hr2&Hs2&Ha2). simpl in Hs1. subst ms1.
  assert (Hnone : ∀ p k e, cached (new_Group conf) p k = Some e → seqno_ e ≤ 0).
  { intros p k e. by rewrite cached_new. }
  destruct (run_seqno h1 (new_Type conf) s1 ∅) as [Hl1 Hc1]; [done|apply Agree_new|done|done|simpl; lia|done|]. simpl in Hl1.
  exists s1, s2. eexists _, _, _. split; [done|]. split; [by rewrite run_app, Hr1|].
  split; [by apply Group_SyncUVE_spec|]. intros k a. rewrite Hs2. unfold collect. rewrite !foldl_app.
  fold (collect ∅ (sent s1)). set (v1 := collect ∅ (sent s1)) in *.
  change (foldl receive v1 ms2) with (collect v1 ms2). fold (resent (lseqnum_ s1) (group s2)).
  change (foldl receive v1 (resent (lseqnum_ s1) (group s2))) with (collect v1 (resent (lseqnum_ s1) (group s2))).
  rewrite (shows_resent _ _ _ _ _ _ Ha2), (agree_shows _ _ Ha2). destruct Hcase as [->|Hk].
  - simpl in Hr1. simplify_eq. unfold v1. simpl. replace (shows (∅ : view) k a) with (@None V) by (unfold shows; by rewrite lookup_empty).
    destruct (cached (group s2) (part k) k) as [e|]; [|done]. unfold is_sent. simpl. rewrite orb_true_r.
    by destruct (shown (data e) !! a).
  - pose proof (run_grown (lseqnum_ s1) h2 s1 s2 _ Hf2 Hk Ha1 Hr2 ltac:(lia) ltac:(lia) (group s1) (λ p k, grown_refl _ _)
      (part k) k) as [Hg1 Hg2]. rewrite (agree_shows _ _ Ha1).
    destruct (cached (group s2) (part k) k) as [e2|] eqn:He2; [|by rewrite Hg1].
    simpl. destruct Hg1 as [Hlt|Hsame].
    + unfold is_sent. rewrite (proj2 (Z.ltb_lt _ _) Hlt). simpl.
      destruct (shown (data e2) !! a) as [w|] eqn:Hw; simpl; [by destruct (_ ≫= _)|].
      destruct (cached (group s1) (part k) k) as [e1|]; [|done]. simpl.
      destruct (shown (data e1) !! a) as [w|] eqn:Hw1; [|done]. rewrite shown_lookup in Hw, Hw1. case_bool_decide; [done|].
      destruct (Hg2 e1 e2 a eq_refl eq_refl ltac:(by eexists)) as [? ?]. congruence.
    + rewrite Hsame. simpl. destruct (is_sent _ e2); [|done]. by destruct (shown (data e2) !! a).
Qed.

(** ** Timing out *)

Inductive op := OSend (x : send) | OSync (st : SendType) (seqno cycle : Z).
Definition exec (o : op) s : outcome (TypeState V) :=
  match o with
  | OSend x => run_send x s
  | OSync st seqno cycle =>
      match Group_SyncUVE ut (length (group_entries (group s))) "" st seqno cycle "" (group s) with
      | Some (_, ms, g) => Ret (mkType (lseqnum_ s) g (sent s ++ ms))
      | None => Abort
      end
  end.
Fixpoint execs (ops : list op) s : outcome (TypeState V) :=
  match ops with [] => Ret s | o :: ops => s ← exec o s; execs ops s end.

(** Periodic walks have no sequence number ([SyncAllMaps]). *)
Definition proper (o : op) : Prop :=
  match o with
  | OSend x => table_ (object x) ≠ "" ∧ valid_partition (s_partition x)
  | OSync st seqno _ => st = ST_PERIODIC → seqno = 0
  end.
Definition spares (p : Z) (k : key) (o : op) : Prop :=
  match o with OSend x => (p, k) ≠ (s_partition x, key_of (object x)) | _ => True end.
Definition is_mark (o : op) : bool := match o with OSync st _ cycle => marks ut st cycle | _ => false end.
Definition n_marks (ops : list op) : nat := length (filter (λ o, is_mark o = true) ops).

Lemma run_send_spec x s :
  table_ (object x) ≠ "" → valid_partition (s_partition x) → full (group s) →
  ∃ s', run_send x s = Ret s' ∧ full (group s') ∧ (∃ ms, sent s' = sent s ++ ms) ∧ ∀ p k, cached (group s') p k =
    if bool_decide ((p, k) = (s_partition x, key_of (object x)))
    then updated (object x) (u32 (lseqnum_ s + 1)) (s_level x) (cached (group s) p k) else cached (group s) p k.
Proof.
  intros Ht Hv Hf. unfold run_send, Send. change (with_table (s_table x) (s_data x)) with (object x).
  destruct (Group_UpdateUVE_spec (object x) (u32 (lseqnum_ s + 1)) (s_partition x) (s_level x) (group s) Ht Hv Hf) as (g'&->&Hf'&Hc).
  eexists. split; [done|]. split; [done|]. split; [by eexists|done].
Qed.

Lemma exec_spec o s p k :
  proper o → spares p k o → full (group s) →
  ∃ s' ms, exec o s = Ret s' ∧ full (group s') ∧ sent s' = sent s ++ ms ∧
    cached (group s') p k =
      (if is_mark o then cached (group s) p k ≫= λ e, if get_deleted (data e) then None else Some (mark e)
       else cached (group s) p k) ∧
    (is_mark o = true → ∀ e, cached (group s) p k = Some e → get_deleted (data e) = true →
      ∃ x, x ∈ ms ∧ key_of (m_data x) = key_of (data e) ∧ get_deleted (m_data x) = true).
Proof.
  destruct o as [x|st n c]; simpl; intros Ho Hsp Hf.
  - destruct Ho as [Ht Hv]. destruct (run_send_spec x s Ht Hv Hf) as (s'&->&Hf'&[ms Hms]&Hc). exists s', ms.
    split_and!; try done. rewrite Hc, bool_decide_false by done. done.
  - rewrite Group_SyncUVE_spec by done. eexists _, _. split; [done|]. simpl. split_and!; [|done| |].
    + intros x l. simpl. rewrite lookup_fmap, fmap_Some. intros (l0&Hl0&->). rewrite length_map. by eapply Hf.
    + rewrite cached_synced. destruct (cached (group s) p k) as [e|]; simpl; [|by destruct (marks _ _ _)].
      unfold keep. destruct (marks ut st c) eqn:Hm; [|by rewrite andb_false_r].
      unfold marks in Hm. apply andb_true_iff in Hm as [[_ Hst%bool_decide_eq_true]%andb_true_iff _].
      rewrite (Ho Hst). unfold is_sent. by rewrite orb_true_r.
    + intros Hm e Hce Hd. unfold marks in Hm. apply andb_true_iff in Hm as [[_ Hst%bool_decide_eq_true]%andb_true_iff _].
      rewrite (Ho Hst), Hst. exists (mkMsg (LoadUVE ut ST_PERIODIC (data e)).2 (level_ e) (seqno_ e) false "").
      split; [|done]. apply list_elem_of_In, in_concat. exists (sync_msgs ST_PERIODIC 0 "" e). split.
      * apply in_map_iff. exists e. split; [done|]. apply list_elem_of_In, elem_of_group_entries. eauto.
      * unfold sync_msgs, is_sent, T_Send. simpl. rewrite orb_true_r, Hd. by left.
Qed.

Definition after_marks (n : nat) e : option (UVEMapEntry V) :=
  match n with 0%nat => Some e | 1%nat => Some (mark e) | _ => None end.
Definition told e s : Prop := ∃ x, x ∈ sent s ∧ key_of (m_data x) = key_of (data e) ∧ get_deleted (m_data x) = true.

Lemma execs_snoc ops o s s1 s2 : execs ops s = Ret s1 → exec o s1 = Ret s2 → execs (ops ++ [o]) s = Ret s2.
Proof.
  intros He1 He2. revert s He1. induction ops as [|o' ops IH]; intros s He1; simpl in *; [simplify_eq; by rewrite He2|].
  destruct (exec o' s); [|done]. by apply IH.
Qed.

Lemma n_marks_snoc ops o : n_marks (ops ++ [o]) = (n_marks ops + if is_mark o then 1 else 0)%nat.
Proof. unfold n_marks. rewrite filter_app, length_app, filter_cons, filter_nil. by destruct (is_mark o). Qed.

Lemma execs_marks ops s p k e :
  full (group s) → Forall proper ops → Forall (spares p k) ops →
  cached (group s) p k = Some e → get_deleted (data e) = false →
  ∃ s', execs ops s = Ret s' ∧ full (group s') ∧ cached (group s') p k = after_marks (n_marks ops) e ∧
    ((2 ≤ n_marks ops)%nat → told e s').
Proof.
  intros Hf Hop Hsp Hc Hd. revert Hop Hsp. induction ops as [|o ops IH] using rev_ind; intros Hop Hsp.
  { exists s. split_and!; [done..|]. intros H2. unfold n_marks in H2. simpl in H2. lia. }
  apply Forall_app in Hop as [Hop [Ho _]%Forall_cons]. apply Forall_app in Hsp as [Hsp [Hs _]%Forall_cons].
  destruct (IH Hop Hsp) as (s1&He1&Hf1&Hc1&Hx1). destruct (exec_spec o s1 p k Ho Hs Hf1) as (s2&ms&He2&Hf2&Hs2&Hc2&Hx2).
  exists s2. rewrite n_marks_snoc, (execs_snoc _ _ _ _ _ He1 He2). split_and!; [done..| |].
  - rewrite Hc2, Hc1. destruct (is_mark o); [|by rewrite Nat.add_0_r].
    destruct (n_marks ops) as [|[|n]]; simpl; [by rewrite Hd|done..].
  - unfold told. rewrite Hs2. intros Hge. destruct (decide (2 ≤ n_marks ops)%nat) as [H2|H2].
    + destruct (Hx1 H2) as (x&?&?). exists x. rewrite elem_of_app. auto.
    + destruct (is_mark o) eqn:Hm; [|lia]. assert (n_marks ops = 1%nat) as H1 by lia. rewrite H1 in Hc1.
      destruct (Hx2 eq_refl _ Hc1 eq_refl) as (x&?&?). exists x. rewrite elem_of_app. auto.
Qed.

(** C18: a UVE of a type with a timeout lives exactly until the second periodic round of the
    timeout after its last update: whatever happens to other UVEs, it is kept through the
    first such round, and at the second one it is dropped and the collector is told.  An
    update that does not delete it starts this again. *)
Theorem uve_timeout ops s p k e :
  TM ut ≠ 0 → full (group s) → Forall proper ops → Forall (spares p k) ops →
  cached (group s) p k = Some e → get_deleted (data e) = false →
  ∃ s', execs ops s = Ret s' ∧
    cached (group s') p k = after_marks (n_marks ops) e ∧
    ((2 ≤ n_marks ops)%nat → told e s') ∧
    ∀ x, proper (OSend x) → (s_partition x, key_of (object x)) = (p, k) → keeps x →
      ∃ s'' e', exec (OSend x) s' = Ret s'' ∧ cached (group s'') p k = Some e' ∧ get_deleted (data e') = false.
Proof.
  intros HT Hf Hop Hsp Hc Hd. destruct (execs_marks ops s p k e Hf Hop Hsp Hc Hd) as (s'&He&Hf'&Hc'&Hx). exists s'. split_and!; [done..|]. intros x [Ht Hv] Hk Hkeep.
  destruct (run_send_spec x s' Ht Hv Hf') as (s''&Hr&_&_&Hc''). eexists s'', _. split; [exact Hr|].
  rewrite Hc'', bool_decide_true by done. unfold updated, keeps in *. rewrite Hkeep. split; [done|].
  unfold merged, T_UpdateUVE, get_deleted in *. destruct (Z.eqb_spec (TM ut) 0); [done|].
  clear Hc'. destruct (cached (group s') p k); destruct (deleted_ (object x)) as [[]|]; simpl in *; congruence.
Qed.
End Thms.

(** ** A type with a timeout of two periods, two attributes that are shown and one that is hidden *)

Definition ut0 : UType := mkUType (λ a, if bool_decide (a = "raw") then HIDDEN else INLINE) 60 2.
Definition obj (name : string) (d : option bool) (l : list (string * Z)) : UVE Z := mkUVE name "" "" d (list_to_map l).
Definition upd (name table : string) (d : option bool) (l : list (string * Z)) : send := mkSend (obj name d l) 4 table (-1).
Definition native (k : string * string * string) : Z := -1.
Definition ends (o : outcome (TypeState Z)) : TypeState Z := match o with Ret s => s | Abort => new_Type ∅ end.

Definition h_before : list (send (V := Z)) := [upd "vm1" "VM" None [("cpu", 10); ("raw", 1)]; upd "vm2" "VM" None [("cpu", 5)]].
Definition h_after : list (send (V := Z)) := [upd "vm1" "VM" None [("mem", 7)]; upd "vm3" "VM" None [("raw", 2)]].

Lemma fine_upd name table d l : table ≠ "" → fine native (upd name table d l).
Proof.
  intros Ht. unfold fine, object, with_table, valid_partition, kProxyPartitions. simpl. rewrite bool_decide_false by done. simpl.
  split_and!; [done|lia|lia|done].
Qed.

Lemma sync_equals_history_witness :
  ∃ s1 s2 count ms g',
    run ut0 h_before (new_Type ∅) = Ret s1 ∧ run ut0 (h_before ++ h_after) (new_Type ∅) = Ret s2 ∧
    Group_SyncUVE ut0 (length (group_entries (group s2))) "" ST_SYNC (lseqnum_ s1) 0 "" (group s2) = Some (count, ms, g') ∧
    ∀ k a, shows (collect ∅ (sent s1 ++ ms)) k a = shows (collect ∅ (sent s2)) k a.
Proof.
  apply (sync_equals_history ut0 native ∅ h_before h_after).
  - repeat (constructor; [by apply fine_upd|]). constructor.
  - repeat (constructor; [by apply fine_upd|]). constructor.
  - vm_compute. done.
  - right. repeat (constructor; [by vm_compute|]). constructor.
Defined.

Definition timed : TypeState Z := ends (run ut0 h_before (new_Type ∅)).
Definition vm1 : string * string * string := ("", "vm1", "VM").
Definition e_vm1 : UVEMapEntry Z := default (mkEntry (new_UVE "") 0 0) (cached (group timed) (-1) vm1).
Definition two_rounds : list (op (V := Z)) :=
  [OSync ST_PERIODIC 0 2; OSend (upd "vm2" "VM" None [("cpu", 6)]); OSync ST_PERIODIC 0 3; OSync ST_PERIODIC 0 4].

Lemma uve_timeout_witness :
  ∃ s', execs ut0 two_rounds timed = Ret s' ∧ cached (group s') (-1) vm1 = None.
Proof.
  destruct (uve_timeout ut0 two_rounds timed (-1) vm1 e_vm1) as (s'&He&Hc&_).
  - done.
  - assert (Hg : group_map_ (group timed) = ∅) by (by vm_compute). intros x l. rewrite Hg. by rewrite lookup_empty.
  - repeat constructor; simpl; try done; by vm_compute.
  - repeat constructor; simpl; try done; by intros [=].
  - by vm_compute.
  - by vm_compute.
  - exists s'. split; [exact He|]. rewrite Hc. by vm_compute.
Defined.

(** ** Findings *)

(** A walk that asks for a table does not end if an entry is of another table. *)
Lemma sync_of_a_table_hangs fuel :
  SyncUVE ut0 fuel "Host" ST_INTROSPECT 0 0 "ctx" (GetNMap "" (group timed)) = None.
Proof.
  destruct (SyncUVE ut0 fuel _ _ _ _ _ _) eqn:E; [|done]. exfalso. unfold SyncUVE in E.
  destruct (sync_names ut0 fuel "Host" ST_INTROSPECT 0 0 "ctx" (map_to_list (cmap_ (GetNMap "" (group timed))))) eqn:E2; [|done].
  assert (Hp : passing "Host" (GetNMap "" (group timed))).
  { apply passing_tables, (sync_names_passes ut0 fuel _ ST_INTROSPECT 0 0 "ctx"). by eexists. }
  destruct (Hp "vm1" "VM" e_vm1) as [?|?]; [by vm_compute|done..].
Qed.

(** A UVE that is marked for its timeout is sent to a new collector as deleted; the next
    update carries only what changed, so that this collector never learns the rest. *)
Definition resync (n : Z) (s : TypeState Z) : list (message Z) :=
  match Group_SyncUVE ut0 10 "" ST_SYNC n 0 "" (group s) with Some (_, ms, _) => ms | None => [] end.
Definition marked : TypeState Z := ends (execs ut0 [OSync ST_PERIODIC 0 2] timed).
Definition updated_again : TypeState Z := ends (exec ut0 (OSend (upd "vm1" "VM" None [("mem", 7)])) marked).
Definition new_messages : list (message Z) := drop (length (sent marked)) (sent updated_again).
Lemma sync_of_marked_loses :
  shows (collect (collect ∅ (resync 0 marked)) new_messages) vm1 "cpu" = None ∧
  shows (collect (collect ∅ (resync 0 marked)) new_messages) vm1 "mem" = Some 7 ∧
  (attrs_ ∘ data <$> cached (group updated_again) (-1) vm1) ≫= (.!! "cpu") = Some 10.
Proof. split_and!; by vm_compute. Qed.

(** A collector that is sent what changed since its sequence number is not told of a UVE
    that was deleted meanwhile. *)
Definition removed : TypeState Z := ends (run ut0 [upd "vm1" "VM" (Some true) []] timed).
Lemma sync_does_not_tell_deletions :
  shows (collect ∅ (sent timed ++ resync (lseqnum_ timed) removed)) vm1 "cpu" = Some 10 ∧
  shows (collect ∅ (sent removed)) vm1 "cpu" = None.
Proof. split_and!; by vm_compute. Qed.

(** [SyncIntrospect] uses the map of a type that was never registered. *)
Lemma introspect_unknown_type_aborts : SyncIntrospect (V := Z) "NoSuchType" "" "vm1" [] = Abort.
Proof. done. Qed.
End UT.
