(* ===== verification/OrderedMap.v ===== *)
(** * Ordered maps with string keys: [std::map<std::string, V>]

    The map is the list of its pairs in the order of an iteration, which is that of the keys
    as [std::string] compares them: byte by byte, the bytes unsigned.  An iterator is the
    rest of the list from it, [end()] the empty list. *)

From Stdlib Require Import Ascii String.
From stdpp Require Import list strings sorting.
From S2P Require Import Prelude.

Module OM.

(** ** The order *)
Fixpoint str_ltb (a b : string) : bool :=
  match a, b with
  | _, EmptyString => false
  | EmptyString, String _ _ => true
  | String x a', String y b' => if decide (x = y) then str_ltb a' b' else (N_of_ascii x <? N_of_ascii y)%N
  end.
Definition str_lt (a b : string) : Prop := str_ltb a b = true.
#[export] Instance str_lt_dec a b : Decision (str_lt a b).
Proof. unfold str_lt. apply _. Defined.

Lemma N_of_ascii_inj' x y : N_of_ascii x = N_of_ascii y → x = y.
Proof. intros H. by rewrite <- (ascii_N_embedding x), <- (ascii_N_embedding y), H. Qed.

Lemma str_lt_irrefl a : ¬ str_lt a a.
Proof. unfold str_lt. induction a as [|x a IH]; simpl; [done|]. by rewrite decide_True. Qed.

Lemma str_lt_trans a b c : str_lt a b → str_lt b c → str_lt a c.
Proof.
  unfold str_lt. revert b c.
  induction a as [|x a IH]; intros [|y b] [|z c] H1 H2; simpl in *; try done.
  destruct (decide (x = y)) as [->|Hxy], (decide (y = z)) as [->|Hyz];
    repeat case_decide; subst; try done; eauto; rewrite ?N.ltb_lt in *; try lia.
Qed.

Lemma str_lt_total a b : str_lt a b ∨ a = b ∨ str_lt b a.
Proof.
  unfold str_lt. revert b. induction a as [|x a IH]; intros [|y b]; simpl; auto.
  destruct (decide (x = y)) as [->|Hxy].
  - rewrite decide_True by done. destruct (IH b) as [?|[->|?]]; auto.
  - rewrite (decide_False (P := y = x)) by congruence. rewrite !N.ltb_lt.
    assert (N_of_ascii x ≠ N_of_ascii y) by (intros ?; by apply Hxy, N_of_ascii_inj'). lia.
Qed.

Lemma str_lt_neq a b : str_lt a b → a ≠ b.
Proof. intros H ->. by eapply str_lt_irrefl. Qed.

Lemma str_nlt_cases a b : ¬ str_lt a b → a = b ∨ str_lt b a.
Proof. destruct (str_lt_total a b) as [?|[?|?]]; auto; done. Qed.

(** A string followed by another *)
Lemma str_nlt_app p s : ¬ str_lt (p +:+ s) p.
Proof. unfold str_lt. induction p as [|x p IH]; simpl; [by destruct s|]. by rewrite decide_True. Qed.

(** What lies between a prefix of a string and the string has the prefix. *)
Lemma str_between_prefix p s k : ¬ str_lt k p → ¬ str_lt (p +:+ s) k → ∃ s', k = p +:+ s'.
Proof.
  unfold str_lt. revert k. induction p as [|x p IH]; intros k H1 H2; simpl in *; [by exists k|].
  destruct k as [|y k]; [done|]. simpl in *.
  destruct (decide (y = x)) as [->|Hne].
  - rewrite decide_True in H2 by done. destruct (IH k H1 H2) as [s' ->]. by exists s'.
  - exfalso. rewrite decide_False in H2 by congruence. rewrite N.ltb_lt in *.
    assert (N_of_ascii x ≠ N_of_ascii y) by (intros ?; by apply Hne, N_of_ascii_inj'). lia.
Qed.

Section OrderedMap.
Context {V : Type}.
Implicit Types (m : list (string * V)).

Definition Ordered m : Prop := StronglySorted (λ p q, str_lt p.1 q.1) m.

(** ** The operations *)

Fixpoint find (k : string) m : option V :=
  match m with
  | [] => None
  | (k', v) :: m => if decide (k = k') then Some v else find k m
  end.

(** [insert], which leaves a value that is there *)
Fixpoint insert_new (k : string) (v : V) m : list (string * V) :=
  match m with
  | [] => [(k, v)]
  | (k', v') :: m' =>
      if decide (k = k') then m else if str_ltb k k' then (k, v) :: m else (k', v') :: insert_new k v m'
  end.

(** The assignment through an iterator *)
Definition assign (k : string) (v : V) m : list (string * V) :=
  (λ p, if decide (k = p.1) then (p.1, v) else p) <$> m.

Definition erase (k : string) m : list (string * V) := filter (λ p, p.1 ≠ k) m.

Fixpoint lower_bound (k : string) m : list (string * V) :=
  match m with
  | [] => []
  | (k', v) :: m' => if str_ltb k' k then lower_bound k m' else m
  end.

(** ** What they do *)

Lemma ordered_nil : Ordered [].
Proof. constructor. Qed.

Lemma ordered_cons p m : Ordered (p :: m) ↔ Ordered m ∧ ∀ q, q ∈ m → str_lt p.1 q.1.
Proof.
  unfold Ordered. split.
  - intros H. inversion H; subst. split; [done|]. by apply Forall_forall.
  - intros [? ?]. constructor; [done|]. by apply Forall_forall.
Qed.

Lemma find_in k v m : find k m = Some v → (k, v) ∈ m.
Proof.
  induction m as [|[k' v'] m IH]; simpl; [done|]. case_decide as Hk; intros ?; simplify_eq; [left|right; auto].
Qed.

Lemma elem_find k v m : Ordered m → (k, v) ∈ m → find k m = Some v.
Proof.
  induction m as [|[k' v'] m IH]; intros Ho Hin; [by apply elem_of_nil in Hin|].
  apply ordered_cons in Ho as [Ho Hlt]. apply elem_of_cons in Hin as [?|Hin]; simplify_eq/=.
  - by rewrite decide_True.
  - rewrite decide_False; [auto|]. intros ->. by eapply (str_lt_irrefl k'), (Hlt (k', v)).
Qed.

Lemma find_none k m : find k m = None ↔ ∀ v, (k, v) ∉ m.
Proof.
  induction m as [|[k' v'] m IH]; simpl; [split; [intros _ v; apply not_elem_of_nil|done]|].
  case_decide as Hk.
  - subst. split; [done|]. intros H. exfalso. by apply (H v'); left.
  - rewrite IH. split; intros H v; [|intros Hin; apply (H v); by right].
    rewrite elem_of_cons. intros [?|?]; [simplify_eq|by eapply H].
Qed.

Lemma elem_find_ne k v m : (k, v) ∈ m → is_Some (find k m).
Proof. intros Hin. destruct (find k m) eqn:E; [done|]. by eapply find_none in E. Qed.

Lemma elem_insert_new k v m p : p ∈ insert_new k v m → p = (k, v) ∨ p ∈ m.
Proof.
  induction m as [|[k' v'] m IH]; simpl; [rewrite list_elem_of_singleton; auto|].
  repeat case_match; rewrite ?elem_of_cons; naive_solver.
Qed.

Lemma ordered_insert_new k v m : Ordered m → Ordered (insert_new k v m).
Proof.
  induction m as [|[k' v'] m IH]; intros Ho; simpl; [apply ordered_cons; split; [done|set_solver]|].
  case_decide; [done|]. pose proof Ho as Ho'. apply ordered_cons in Ho' as [Hm Hlt].
  destruct (str_ltb k k') eqn:El.
  - apply ordered_cons. split; [done|]. intros q [->|Hq]%elem_of_cons; [done|].
    eapply str_lt_trans; [done|by apply Hlt].
  - apply ordered_cons. split; [auto|]. intros q [->|Hq]%elem_insert_new; [|auto]. simpl.
    destruct (str_lt_total k k') as [Hx|[?|?]]; [unfold str_lt in Hx; congruence|done|done].
Qed.

Lemma find_below k m : Ordered m → (∀ p, p ∈ m → str_lt k p.1) → find k m = None.
Proof. intros Ho Hlt. apply find_none. intros v Hin. by eapply str_lt_irrefl, (Hlt _ Hin). Qed.

Lemma find_insert_new k k' v m :
  Ordered m →
  find k' (insert_new k v m) =
  if decide (k' = k) then Some (default v (find k m)) else find k' m.
Proof.
  induction m as [|[k1 v1] m IH]; intros Ho; simpl; [by repeat case_decide|].
  apply ordered_cons in Ho as [Ho Hlt]. destruct (decide (k = k1)) as [->|Hk]; simpl.
  - by repeat case_decide.
  - destruct (str_ltb k k1) eqn:El; simpl.
    + destruct (decide (k' = k)) as [->|]; [|done]. rewrite find_below; [done..|].
      intros p Hp. eapply str_lt_trans; [exact El|by apply Hlt].
    + rewrite IH by done. repeat case_decide; subst; done.
Qed.

Lemma keys_assign k v m : (assign k v m).*1 = m.*1.
Proof. unfold assign. rewrite <- list_fmap_compose. apply list_fmap_ext. intros ? [] _; simpl. by case_decide. Qed.

Lemma find_assign k k' v m :
  find k' (assign k v m) = if decide (k' = k) then (λ _, v) <$> find k m else find k' m.
Proof.
  unfold assign. induction m as [|[k1 v1] m IH]; simpl; [by case_decide|].
  repeat case_decide; subst; simpl in *; repeat case_decide; subst; try done.
Qed.

Lemma ordered_keys {V'} (m : list (string * V)) (m' : list (string * V')) :
  m.*1 = m'.*1 → Ordered m → StronglySorted (λ p q, str_lt p.1 q.1) m'.
Proof.
  revert m'. induction m as [|p m IH]; intros [|p' m'] Heq Ho; simplify_eq/=; [constructor|].
  apply ordered_cons in Ho as [Ho Hlt]. constructor; [auto|]. apply Forall_forall. intros q Hq.
  assert (q.1 ∈ m.*1) as Hin by (replace (m.*1) with (m'.*1) by done; by apply list_elem_of_fmap_2).
  apply list_elem_of_fmap in Hin as (q0 & -> & Hq0). replace (p'.1) with (p.1) by done. auto.
Qed.

Lemma ordered_assign k v m : Ordered m → Ordered (assign k v m).
Proof. intros Ho. apply (ordered_keys m); [by rewrite keys_assign|done]. Qed.

Lemma ordered_filter (P : string * V → Prop) `{!∀ x, Decision (P x)} m : Ordered m → Ordered (filter P m).
Proof.
  induction m as [|p m IH]; intros Ho; [done|]. apply ordered_cons in Ho as [Ho Hlt].
  rewrite filter_cons. case_decide; [|auto]. apply ordered_cons. split; [auto|].
  intros q Hq%list_elem_of_filter. naive_solver.
Qed.

Lemma find_filter (P : string * V → Prop) `{!∀ x, Decision (P x)} k m :
  Ordered m → find k (filter P m) = (v ← find k m; if decide (P (k, v)) then Some v else None).
Proof.
  induction m as [|[k1 v1] m IH]; intros Ho; [done|]. apply ordered_cons in Ho as [Ho Hlt].
  rewrite filter_cons. simpl.
  destruct (decide (k = k1)) as [->|Hk]; simpl.
  - case_decide; simpl; [by rewrite decide_True|]. apply find_none. intros v Hin.
    apply list_elem_of_filter in Hin as [_ Hin]. by eapply (str_lt_irrefl k1), (Hlt (k1, v)).
  - case_decide; simpl; rewrite ?(decide_False (P := k = k1)) by done; auto.
Qed.

Lemma ordered_erase k m : Ordered m → Ordered (erase k m).
Proof. apply ordered_filter. Qed.

Lemma find_erase k k' m : Ordered m → find k' (erase k m) = if decide (k' = k) then None else find k' m.
Proof.
  intros Ho. unfold erase. rewrite find_filter by done. simpl.
  destruct (find k' m); simpl; repeat case_decide; naive_solver.
Qed.

(** [lower_bound] splits the map at the key. *)
Lemma lower_bound_split k m :
  Ordered m → ∃ m0, m = m0 ++ lower_bound k m ∧ (∀ p, p ∈ m0 → str_lt p.1 k) ∧
                    (∀ p, p ∈ lower_bound k m → ¬ str_lt p.1 k).
Proof.
  induction m as [|[k1 v1] m IH]; intros Ho; simpl; [exists []; set_solver|].
  apply ordered_cons in Ho as [Ho Hlt]. destruct (str_ltb k1 k) eqn:E.
  - destruct (IH Ho) as (m0 & Heq & H1 & H2). exists ((k1, v1) :: m0). split; [simpl; congruence|].
    split; [|done]. intros p [->|?]%elem_of_cons; auto.
  - exists []. split; [done|]. split; [intros p Hp; by apply elem_of_nil in Hp|].
    intros p [->|Hp]%elem_of_cons; [unfold str_lt; simpl; congruence|]. intros Hpk.
    specialize (Hlt p Hp). simpl in Hlt. pose proof (str_lt_trans _ _ _ Hlt Hpk) as Hx.
    unfold str_lt in Hx; congruence.
Qed.

Lemma elem_lower_bound k m p : Ordered m → p ∈ lower_bound k m ↔ p ∈ m ∧ ¬ str_lt p.1 k.
Proof.
  intros Ho. destruct (lower_bound_split k m Ho) as (m0 & Heq & H1 & H2). split.
  - intros Hp. split; [rewrite Heq; apply elem_of_app; by right|auto].
  - intros [Hp Hn]. rewrite Heq in Hp. apply elem_of_app in Hp as [Hp|Hp]; [|done].
    exfalso. apply Hn. auto.
Qed.

Lemma ordered_lower_bound k m : Ordered m → Ordered (lower_bound k m).
Proof.
  induction m as [|[k1 v1] m IH]; intros Ho; simpl; [done|]. case_match; [|done].
  apply IH. by apply ordered_cons in Ho as [? _].
Qed.
End OrderedMap.

(** A map changed in its values only *)
Lemma find_map_values {V V'} (g : string → V → V') k (m : list (string * V)) :
  find k ((λ p, (p.1, g p.1 p.2)) <$> m) = g k <$> find k m.
Proof. induction m as [|[k1 v1] m IH]; simpl; [done|]. case_decide; subst; auto. Qed.

Lemma ordered_map_values {V V'} (g : string → V → V') (m : list (string * V)) :
  Ordered m → Ordered ((λ p, (p.1, g p.1 p.2)) <$> m).
Proof. intros Ho. apply (ordered_keys m); [|done]. by rewrite <- list_fmap_compose. Qed.

(** ** Sets: [std::set<std::string>] *)
Definition sset : Type := list (string * unit).
Definition set_insert (k : string) (s : sset) : sset := insert_new k tt s.
Definition set_mem (k : string) (s : sset) : bool := bool_decide (is_Some (find k s)).

Lemma set_mem_elem k (s : sset) : set_mem k s = true ↔ k ∈ s.*1.
Proof.
  unfold set_mem. rewrite bool_decide_eq_true. split.
  - intros [[] Hf]. apply find_in in Hf. by apply (list_elem_of_fmap_2 fst) in Hf.
  - intros Hin. apply list_elem_of_fmap in Hin as ([k' []] & -> & Hin). by eapply elem_find_ne.
Qed.

Lemma keys_insert_new {V} k (v : V) m k' : k' ∈ (insert_new k v m).*1 ↔ k' = k ∨ k' ∈ m.*1.
Proof.
  induction m as [|[k1 v1] m IH]; simpl; [set_solver|].
  case_decide as Hk; [subst; set_solver|]. case_match; simpl; rewrite !elem_of_cons, ?IH; tauto.
Qed.

Lemma set_mem_insert k k' s : set_mem k' (set_insert k s) = true ↔ k' = k ∨ set_mem k' s = true.
Proof. unfold set_insert. by rewrite !set_mem_elem, keys_insert_new. Qed.

End OM.
