(* ===== verification/ConfigCassandra.v ===== *)
(** * The configuration client: src/config-client-mgr/config_cassandra_client.cc, .h and the
      name cache of config_db_client.cc

    The configuration is in a database; each object is a row, with a column for each of its
    properties and references.  The client reads the rows of the objects it is told of and
    pushes what has changed of each to a consumer, the parser of the process.  To know what
    has changed a partition keeps the columns of every object with the time stamps the
    database gave them.

    The consumer is not part of the repository: it is the class [Consumer], whose laws are
    what the notes in config_cassandra_client.cc say of it.  So are the database (the rows are
    arguments), the hash that spreads the objects over partitions (the model is of one of
    them), and the clock.  Assertions, an iterator used at the end of its map and an exception
    nobody catches are [Abort]. *)

From Stdlib Require Import Ascii String.
From stdpp Require Import gmap list strings.
From S2P Require Import Prelude OrderedMap.
Open Scope Z_scope.

Module CC.
Import OM.

(** ** Strings, as the code takes them apart *)

(** [find] and [rfind] of a colon *)
Fixpoint find_first (s : string) : option nat :=
  match s with
  | EmptyString => None
  | String c s => if decide (c = ":"%char) then Some 0%nat else S <$> find_first s
  end.
Fixpoint find_last (s : string) : option nat :=
  match s with
  | EmptyString => None
  | String c s =>
      match find_last s with
      | Some i => Some (S i)
      | None => if decide (c = ":"%char) then Some 0%nat else None
      end
  end.

(** [substr(0, n)] and [substr(n)] *)
Fixpoint take_str (n : nat) (s : string) : string :=
  match n, s with
  | S n, String c s => String c (take_str n s)
  | _, _ => EmptyString
  end.
Fixpoint drop_str (n : nat) (s : string) : string :=
  match n, s with
  | S n, String _ s => drop_str n s
  | O, s => s
  | _, EmptyString => EmptyString
  end.

(** [key.substr(0, from_front_pos+1)]: without a colon the position wraps to 0. *)
Definition type_field (key : string) : string :=
  match find_first key with Some i => take_str (S i) key | None => "" end.
(** [key.substr(from_front_pos+1)] *)
Definition after_first (key : string) : string :=
  match find_first key with Some i => drop_str (S i) key | None => key end.
(** [key.substr(0, from_back_pos)] *)
Definition before_last (key : string) : string :=
  match find_last key with Some i => take_str i key | None => key end.
(** [key.substr(from_back_pos+1)] *)
Definition after_last (key : string) : string :=
  match find_last key with Some i => drop_str (S i) key | None => key end.

Fixpoint remove_char (c : ascii) (s : string) : string :=
  match s with
  | EmptyString => EmptyString
  | String x s => if decide (x = c) then remove_char c s else String x (remove_char c s)
  end.
Fixpoint replace_char (c c' : ascii) (s : string) : string :=
  match s with
  | EmptyString => EmptyString
  | String x s => String (if decide (x = c) then c' else x) (replace_char c c' s)
  end.
Fixpoint starts_with (s p : string) {struct p} : bool :=
  match p, s with
  | EmptyString, _ => true
  | String x p, String y s => bool_decide (x = y) && starts_with s p
  | _, _ => false
  end.

Definition quote : ascii := ascii_of_nat 34.
Definition unquote (s : string) : string := remove_char quote s.

(** The name of an object, from the JSON list of its parts; [substr(1, ...)] throws on an
    empty value. *)
Definition parse_fq_name (value : string) : outcome string :=
  match value with
  | EmptyString => Abort
  | String _ s =>
      Ret (replace_char "," ":" (remove_char " " (unquote (take_str (String.length value - 2) s))))
  end.

Definition prop_prefix : string := "prop:".
Definition list_prop_prefix : string := "propl:".
Definition map_prop_prefix : string := "propm:".
Definition ref_prefix : string := "ref:".
Definition parent_prefix : string := "parent:".
Definition allowed_properties : list string :=
  [prop_prefix; map_prop_prefix; list_prop_prefix; ref_prefix; parent_prefix].
Definition skip_properties : list string := ["perms2"%string; "draft_mode_state"%string].

Definition is_prop (key : string) : bool := bool_decide (type_field key = prop_prefix).
Definition is_ref (key : string) : bool := bool_decide (type_field key = ref_prefix).
Definition is_parent (key : string) : bool := bool_decide (type_field key = parent_prefix).
(** [is_propl || is_propm] *)
Definition is_list_map (key : string) : bool :=
  bool_decide (type_field key = list_prop_prefix) || bool_decide (type_field key = map_prop_prefix).

(** ** Data *)

(** [JsonAdapterDataType] *)
Record Adapter := mkAdapter { key : string; value : string; ref_fq_name : string }.
(** A field of the cache: [JsonAdapterDataType] but its key, with [FieldTimeStampInfo] *)
Record Field := mkField { f_value : string; f_ref : string; time_stamp : Z; refreshed : bool }.
Definition FieldDetailMap : Type := list (string * Field).
Definition adapter_of (p : string * Field) : Adapter := mkAdapter p.1 (f_value p.2) (f_ref p.2).

(** [ObjCacheEntry]; the timer is absent, or there and perhaps running, with its time *)
Record ObjCacheEntry := mkEntry {
  obj_type_ : string; fq_name_ : string; last_read : Z;
  retry_count : Z; retry_timer : option (option Z);
  fields : FieldDetailMap;
}.
Definition with_fields (fs : FieldDetailMap) (e : ObjCacheEntry) : ObjCacheEntry :=
  mkEntry (obj_type_ e) (fq_name_ e) (last_read e) (retry_count e) (retry_timer e) fs.
Definition with_timer (n : Z) (t : option (option Z)) (e : ObjCacheEntry) : ObjCacheEntry :=
  mkEntry (obj_type_ e) (fq_name_ e) (last_read e) n t (fields e).
Definition with_names (ty fq : string) (e : ObjCacheEntry) : ObjCacheEntry :=
  mkEntry ty fq (last_read e) (retry_count e) (retry_timer e) (fields e).
Definition with_read (now : Z) (e : ObjCacheEntry) : ObjCacheEntry :=
  mkEntry (obj_type_ e) (fq_name_ e) now (retry_count e) (retry_timer e) (fields e).

(** [FQNameCacheType] *)
Record FQNameCacheType := mkFQ { fq_obj_type : string; fq_fq_name : string; deleted : bool }.

(** [ObjectProcessRequestType] *)
Record Request := mkReq { oper : string; r_obj_type : string; uuid : string }.

(** A column: its name, its value and its time stamp *)
Record Col := mkCol { c_key : string; c_value : string; c_ts : Z }.

(** [ConfigCassandraParseContext] *)
Record Context := mkContext {
  list_map_properties : list (string * Adapter);
  updated_list_map_properties : sset;
  candidate_list_map_properties : sset;
  ctx_obj_type : string;
  ctx_fq_name : string;
  fq_name_present : bool;
  ignore_object : bool;
  parent_or_ref_fq_name_unknown : bool;
}.
Definition new_Context : Context := mkContext [] [] [] "" "" false false false.
Definition set_ignored (c : Context) : Context :=
  mkContext (list_map_properties c) (updated_list_map_properties c) (candidate_list_map_properties c)
    (ctx_obj_type c) (ctx_fq_name c) (fq_name_present c) true (parent_or_ref_fq_name_unknown c).
Definition set_unknown (c : Context) : Context :=
  mkContext (list_map_properties c) (updated_list_map_properties c) (candidate_list_map_properties c)
    (ctx_obj_type c) (ctx_fq_name c) (fq_name_present c) (ignore_object c) true.
Definition add_list_map (p : string) (a : Adapter) (c : Context) : Context :=
  mkContext (list_map_properties c ++ [(p, a)]) (updated_list_map_properties c) (candidate_list_map_properties c)
    (ctx_obj_type c) (ctx_fq_name c) (fq_name_present c) (ignore_object c) (parent_or_ref_fq_name_unknown c).
Definition add_updated (p : string) (c : Context) : Context :=
  mkContext (list_map_properties c) (set_insert p (updated_list_map_properties c)) (candidate_list_map_properties c)
    (ctx_obj_type c) (ctx_fq_name c) (fq_name_present c) (ignore_object c) (parent_or_ref_fq_name_unknown c).
Definition add_candidate (p : string) (c : Context) : Context :=
  mkContext (list_map_properties c) (updated_list_map_properties c) (set_insert p (candidate_list_map_properties c))
    (ctx_obj_type c) (ctx_fq_name c) (fq_name_present c) (ignore_object c) (parent_or_ref_fq_name_unknown c).
Definition set_type (t : string) (c : Context) : Context :=
  mkContext (list_map_properties c) (updated_list_map_properties c) (candidate_list_map_properties c)
    t (ctx_fq_name c) (fq_name_present c) (ignore_object c) (parent_or_ref_fq_name_unknown c).
Definition set_fq_name (n : string) (c : Context) : Context :=
  mkContext (list_map_properties c) (updated_list_map_properties c) (candidate_list_map_properties c)
    (ctx_obj_type c) n true (ignore_object c) (parent_or_ref_fq_name_unknown c).

(** ** The consumer *)

(** An element of the configuration of an object *)
Definition element (k : string) : bool := bool_decide (type_field k ∈ allowed_properties).
Abbreviation View := (gmap string (string * string)).

(** The member of the JSON object the pairs of a list or map property are grouped in *)
Definition member (k : string) : string := before_last (after_first k).
Definition names_member (vec : list Adapter) (m : string) : bool :=
  existsb (λ a, is_list_map (key a) && bool_decide (member (key a) = m)) vec.
Definition last_of (vec : list Adapter) (k : string) : option Adapter :=
  last (filter (λ a, key a = k) vec).

(** A message that says what object it is about *)
Definition identified (obj_type : string) (vec : list Adapter) : bool :=
  negb (bool_decide (obj_type = ""%string)) &&
  existsb (λ a, bool_decide (key a = "type"%string) && bool_decide (unquote (value a) = obj_type)) vec &&
  existsb (λ a, bool_decide (key a = "fq_name"%string)) vec.

(** What the consumer keeps of a key after a message to add or change *)
Definition after_add (vec : list Adapter) (v : View) (k : string) : option (string * string) :=
  if element k then
    match last_of vec k with
    | Some a => Some (value a, ref_fq_name a)
    | None => if is_list_map k && names_member vec (member k) then None else v !! k
    end
  else None.
(** After a message to delete; [empty] is the answer of [IsListOrMapPropEmpty]. *)
Definition after_del (empty : string → bool) (vec : list Adapter) (v : View) (k : string) : option (string * string) :=
  if is_list_map k then (if names_member vec (member k) && empty (member k) then None else v !! k)
  else match last_of vec k with Some _ => None | None => v !! k end.

(** [Receive] takes the object, its type, the columns, [add_change], and may call
    [IsListOrMapPropEmpty] for the object.  A property that is a list or a map is replaced as
    a whole by a message that names it, and a message to delete deletes it only when all its
    pairs are gone. *)
Class Consumer (W : Type) := {
  receive : W → string → string → list Adapter → bool → (string → bool) → W;
  view : W → string → View;
}.
Class ConsumerLaws (W : Type) `{!Consumer W} : Prop := {
  receive_other : ∀ w u t vec add empty u', u' ≠ u → view (receive w u t vec add empty) u' = view w u';
  receive_add : ∀ w u t vec empty k, identified t vec = true →
    view (receive w u t vec true empty) u !! k = after_add vec (view w u) k;
  receive_del : ∀ w u t vec empty k, identified t vec = true →
    view (receive w u t vec false empty) u !! k = after_del empty vec (view w u) k;
  receive_del_sub : ∀ w u t vec empty, view (receive w u t vec false empty) u ⊆ view w u;
}.

Section Partition.
Context {W : Type} `{!Consumer W}.

(** The partition, the name cache it shares and the consumer *)
Record State := mkState {
  object_cache_map : gmap string ObjCacheEntry;
  uuid_read_set : list (string * Request);
  fq_name_cache : gmap string FQNameCacheType;
  bulk_sync_status : Z;
  end_of_rib_computed : bool;
  now : Z;
  world : W;
}.
Definition with_cache (m : gmap string ObjCacheEntry) (st : State) : State :=
  mkState m (uuid_read_set st) (fq_name_cache st) (bulk_sync_status st) (end_of_rib_computed st) (now st) (world st).
Definition with_fq (m : gmap string FQNameCacheType) (st : State) : State :=
  mkState (object_cache_map st) (uuid_read_set st) m (bulk_sync_status st) (end_of_rib_computed st) (now st) (world st).
Definition with_world (w : W) (st : State) : State :=
  mkState (object_cache_map st) (uuid_read_set st) (fq_name_cache st) (bulk_sync_status st) (end_of_rib_computed st) (now st) w.
Definition with_reads (s : list (string * Request)) (st : State) : State :=
  mkState (object_cache_map st) s (fq_name_cache st) (bulk_sync_status st) (end_of_rib_computed st) (now st) (world st).
Definition with_sync (n : Z) (b : bool) (st : State) : State :=
  mkState (object_cache_map st) (uuid_read_set st) (fq_name_cache st) n b (now st) (world st).

(** ** The name cache *)

(** [insert] leaves an entry that is there. *)
Definition AddFQNameCache (uuid obj_type fq_name : string) (m : gmap string FQNameCacheType) :
    gmap string FQNameCacheType :=
  match m !! uuid with Some _ => m | None => <[uuid := mkFQ obj_type fq_name false]> m end.
Definition InvalidateFQNameCache (uuid : string) (m : gmap string FQNameCacheType) : gmap string FQNameCacheType :=
  match m !! uuid with
  | Some e => <[uuid := mkFQ (fq_obj_type e) (fq_fq_name e) true]> m
  | None => m
  end.
Definition PurgeFQNameCache (uuid : string) (m : gmap string FQNameCacheType) : gmap string FQNameCacheType :=
  delete uuid m.
Definition UUIDToFQName (m : gmap string FQNameCacheType) (uuid : string) (deleted_ok : bool) : string * string :=
  match m !! uuid with
  | Some e => if negb (deleted e) || (deleted e && deleted_ok) then (fq_obj_type e, fq_fq_name e)
              else ("ERROR", "ERROR")%string
  | None => ("ERROR", "ERROR")%string
  end.
Definition FindFQName (m : gmap string FQNameCacheType) (uuid : string) : string := (UUIDToFQName m uuid true).2.

(** ** Reading a row *)

(** [MarkCacheDirty], on the map *)
Definition MarkCacheDirty (u : string) (st : State) : State :=
  let e := match object_cache_map st !! u with
           | None => mkEntry "" "" (now st) 0 None []
           | Some e => with_read (now st) e
           end in
  let fs := (λ p, (p.1, mkField (f_value p.2) (f_ref p.2) (time_stamp p.2) false)) <$> fields e in
  with_cache (<[u := with_fields fs e]> (object_cache_map st)) st.

(** The part of [StoreKeyIfUpdated] that reads type and name *)
Definition note_identity (a : Adapter) (c : Context) : outcome Context :=
  if bool_decide (key a = "type"%string) then
    Ret (if bool_decide (ctx_obj_type c = ""%string) then set_type (unquote (value a)) c else c)
  else if bool_decide (key a = "fq_name"%string) then
    if bool_decide (ctx_fq_name c = ""%string) then
      n ← parse_fq_name (value a); Ret (set_fq_name n c)
    else Ret (set_fq_name (ctx_fq_name c) c)
  else Ret c.

(** The part that looks the field up and stores it: whether the column is to be pushed, the
    fields and the context *)
Definition store_field (a : Adapter) (ts : Z) (fs : FieldDetailMap) (c : Context) : bool * FieldDetailMap * Context :=
  let prop_name := before_last (key a) in
  let updated (fs : FieldDetailMap) :=
    if is_list_map (key a) then (false, fs, add_updated prop_name c) else (true, fs, c) in
  match find (key a) fs with
  | None => updated (insert_new (key a) (mkField (value a) (ref_fq_name a) ts true) fs)
  | Some f =>
      let fs1 := assign (key a) (mkField (f_value f) (f_ref f) (time_stamp f) true) fs in
      if bool_decide (key a = "type"%string) || bool_decide (key a = "fq_name"%string) then (true, fs1, c)
      else if negb (ts =? 0) && (time_stamp f =? ts) then
        (false, fs1, if is_list_map (key a) then add_candidate prop_name c else c)
      else updated (assign (key a) (mkField (f_value f) (f_ref f) ts true) fs)
  end.

(** [StoreKeyIfUpdated]: also the adapter, with the name of what it refers to *)
Definition StoreKeyIfUpdated (fq : gmap string FQNameCacheType) (a : Adapter) (ts : Z)
    (fs : FieldDetailMap) (c : Context) : outcome (bool * Adapter * FieldDetailMap * Context) :=
  let prop_name := after_first (key a) in
  if is_prop (key a) && bool_decide (prop_name ∈ skip_properties) then
    Ret (false, a, fs,
         if bool_decide (prop_name = "draft_mode_state"%string) && negb (bool_decide (value a = ""%string))
         then set_ignored c else c)
  else
    let ref_name := FindFQName fq (after_last (key a)) in
    if (is_ref (key a) || is_parent (key a)) && bool_decide (ref_name = "ERROR"%string) then
      Ret (false, a, fs, set_unknown c)
    else
      let a := if is_ref (key a) then mkAdapter (key a) (value a) ref_name else a in
      let c := if is_list_map (key a) then add_list_map (before_last (key a)) a c else c in
      c ← note_identity a c;
      let '(push, fs, c) := store_field a ts fs c in
      Ret (push, a, fs, c).

(** [ParseObjUUIDTableEntry] with [ParseObjUUIDTableEachColumnBuildContext] *)
Fixpoint ParseObjUUIDTableEntry (fq : gmap string FQNameCacheType) (cols : list Col)
    (fs : FieldDetailMap) (vec : list Adapter) (c : Context) : outcome (FieldDetailMap * list Adapter * Context) :=
  match cols with
  | [] => Ret (fs, vec, c)
  | col :: cols =>
      '(push, a, fs, c) ← StoreKeyIfUpdated fq (mkAdapter (c_key col) (c_value col) "") (c_ts col) fs c;
      ParseObjUUIDTableEntry fq cols fs (if (push : bool) then vec ++ [a] else vec) c
  end.

(** [it->compare(0, size-1, key, 0, size-1) == 0]; the size of the empty string less one is
    [npos]. *)
Definition same_but_last (p k : string) : bool :=
  match String.length p with
  | O => bool_decide (p = k)
  | S n => bool_decide (take_str n p = take_str n k)
  end.

(** The loop of [ListMapPropReviseUpdateList] from an iterator: whether it finds a field that
    was not refreshed.  It does not look for the end of the map. *)
Fixpoint find_stale (p : string) (it : FieldDetailMap) : outcome bool :=
  match it with
  | [] => Abort
  | (k, f) :: it =>
      if same_but_last p k then if negb (refreshed f) then Ret true else find_stale p it else Ret false
  end.

Fixpoint ListMapPropReviseUpdateList (cands : sset) (fs : FieldDetailMap) (c : Context) : outcome Context :=
  match cands with
  | [] => Ret c
  | (p, _) :: cands =>
      if set_mem p (updated_list_map_properties c) then ListMapPropReviseUpdateList cands fs c
      else
        match lower_bound p fs with
        | [] => Abort
        | (k, f) :: it =>
            assert_that (same_but_last p k);;
            stale ← find_stale p ((k, f) :: it);
            ListMapPropReviseUpdateList cands fs (if (stale : bool) then add_updated p c else c)
        end
  end.

(** The pairs of the properties that have changed *)
Definition updated_pairs (c : Context) : list Adapter :=
  concat ((λ p, snd <$> filter (λ q, q.1 = p) (list_map_properties c)) <$> (updated_list_map_properties c).*1).

(** ** Pushing *)

Definition IsListOrMapPropEmpty (m : gmap string ObjCacheEntry) (u lookup_key : string) : bool :=
  match m !! u with
  | None => true
  | Some e =>
      let there key :=
        match lower_bound key (fields e) with
        | [] => false
        | (k, _) :: _ => starts_with k key
        end in
      negb (there (map_prop_prefix +:+ lookup_key)) && negb (there (list_prop_prefix +:+ lookup_key))
  end.

Definition GenerateAndPushJson (u obj_type : string) (vec : list Adapter) (add_change : bool) (st : State) : State :=
  with_world (receive (world st) u obj_type vec add_change (IsListOrMapPropEmpty (object_cache_map st) u)) st.

Definition identity_key (k : string) : bool := bool_decide (k = "type"%string) || bool_decide (k = "fq_name"%string).

(** What the loop of [HandleObjectDelete] collects *)
Definition deleted_vec (add_change : bool) (fs : FieldDetailMap) : list Adapter :=
  adapter_of <$> filter (λ p, (identity_key p.1 || negb add_change || negb (refreshed p.2)) = true) fs.
Definition need_notify (add_change : bool) (fs : FieldDetailMap) : bool :=
  existsb (λ p, negb (identity_key p.1) && (negb add_change || negb (refreshed p.2))) fs.
Definition type_of_fields (fs : FieldDetailMap) : string :=
  match find "type" fs with Some f => unquote (f_value f) | None => "" end.
Definition kept_fields (fs : FieldDetailMap) : FieldDetailMap :=
  filter (λ p, (identity_key p.1 || refreshed p.2) = true) fs.

Definition HandleObjectDelete (u : string) (add_change : bool) (st : State) : outcome State :=
  if negb add_change && bool_decide ((UUIDToFQName (fq_name_cache st) u true).2 = "ERROR"%string) then Ret st
  else
    match object_cache_map st !! u with
    | None => assert_that (negb add_change);; Ret st
    | Some e =>
        let st1 := if add_change then with_cache (<[u := with_fields (kept_fields (fields e)) e]> (object_cache_map st)) st
                   else with_cache (delete u (object_cache_map st)) st in
        let st2 := if need_notify add_change (fields e)
                   then GenerateAndPushJson u (type_of_fields (fields e)) (deleted_vec add_change (fields e)) false st1
                   else st1 in
        Ret (if add_change then st2 else with_fq (PurgeFQNameCache u (fq_name_cache st2)) st2)
    end.

(** ** The retry timer of an object *)
Definition kMaxUUIDRetryTimePowOfTwo : Z := 20.
Definition kMinUUIDRetryTimeMSec : Z := 100.
Definition UUIDRetryTimeInMSec (e : ObjCacheEntry) : Z :=
  swrap 32 (wrap 32 (Z.shiftl 1 (if retry_count e >? kMaxUUIDRetryTimePowOfTwo then kMaxUUIDRetryTimePowOfTwo
                                 else retry_count e) * kMinUUIDRetryTimeMSec)).
Definition EnableCassandraReadRetry (e : ObjCacheEntry) : ObjCacheEntry :=
  with_timer (retry_count e) (Some (Some (UUIDRetryTimeInMSec e))) e.
Definition DisableCassandraReadRetry (e : ObjCacheEntry) : ObjCacheEntry :=
  match retry_timer e with Some _ => with_timer 0 None e | None => e end.
Definition IsRetryTimerRunning (e : ObjCacheEntry) : bool :=
  match retry_timer e with Some (Some _) => true | _ => false end.

(** [ProcessObjUUIDTableEntry] *)
Definition ProcessObjUUIDTableEntry (u : string) (cols : list Col) (st : State) : outcome (bool * State) :=
  let st := MarkCacheDirty u st in
  match object_cache_map st !! u with
  | None => Abort
  | Some e =>
      '(fs, vec, c) ← ParseObjUUIDTableEntry (fq_name_cache st) cols (fields e) [] new_Context;
      let put e := with_cache (<[u := with_fields fs e]> (object_cache_map st)) st in
      if ignore_object c then
        Ret (false, with_cache (delete u (object_cache_map st))
                      (with_fq (PurgeFQNameCache u (fq_name_cache st)) st))
      else if bool_decide (ctx_obj_type c = ""%string) || negb (fq_name_present c) then
        st ← HandleObjectDelete u false (put (DisableCassandraReadRetry e)); Ret (false, st)
      else
        let e := with_names (ctx_obj_type c) (ctx_fq_name c) e in
        let e := if parent_or_ref_fq_name_unknown c then EnableCassandraReadRetry e else DisableCassandraReadRetry e in
        c ← ListMapPropReviseUpdateList (candidate_list_map_properties c) fs c;
        let st := GenerateAndPushJson u (ctx_obj_type c) (vec ++ updated_pairs c) true (put e) in
        st ← HandleObjectDelete u true st;
        Ret (true, st)
  end.

(** [CassReadRetryTimerExpired]: the object of the request, and the entry *)
Definition CassReadRetryTimerExpired (u : string) (e : ObjCacheEntry) : Request * ObjCacheEntry :=
  (mkReq "UPDATE" (obj_type_ e) u, with_timer (wrap 32 (retry_count e + 1)) (Some None) e).

End Partition.
End CC.
