(* ===== verification/ConfigCassandraThms.v ===== *)
(** * The consumer's view of the configuration is that of the database

    [parse_row] says what reading the columns of a row does to the cached fields and to the
    context, [revise_updates] that the walk over the fields of a list or map property stays
    inside the map and finds every pair that has gone.  The theorem follows any sequence of
    reads and deletions: what the consumer was told of each object is what the database said
    of it the last time. *)

From Stdlib Require Import Ascii String.
From stdpp Require Import gmap list strings.
From S2P Require Import Prelude OrderedMap ConfigCassandra.
Open Scope Z_scope.

Module CCT.
Import OM CC.

(** ** Strings *)

#[local] Arguments String.append !_ _ / : simpl nomatch.

Lemma app_str_nil s : (s +:+ "")%string = s.
Proof. induction s; simpl; congruence. Qed.

Lemma take_drop_str n s : take_str n s +:+ drop_str n s = s.
Proof. revert s. induction n; intros [|c s]; simpl; try done. by rewrite IHn. Qed.

Lemma app_str_assoc (a b c : string) : (a +:+ b) +:+ c = a +:+ (b +:+ c).
Proof. induction a; simpl; congruence. Qed.

Lemma app_str_inj (a b c : string) : a +:+ b = a +:+ c → b = c.
Proof. induction a; simpl; [done|]. intros ?. simplify_eq. auto. Qed.

Lemma starts_with_app s p : starts_with s p = true ↔ ∃ r, s = p +:+ r.
Proof.
  revert s. induction p as [|x p IH]; intros s; [split; [by exists s|done]|].
  destruct s as [|y s]; [split; [done|by intros [r ?]]|]. simpl. rewrite andb_true_iff, bool_decide_eq_true, IH.
  split.
  - intros [-> [r ->]]. by exists r.
  - intros [r Heq]. injection Heq as -> ->. eauto.
Qed.

Lemma take_str_app n p s : (n ≤ String.length p)%nat → take_str n (p +:+ s) = take_str n p.
Proof. revert p. induction n; intros [|c p] H; simpl in *; try done; try lia. rewrite IHn by lia. done. Qed.

(** A key of a list or map property begins with its property. *)
Lemma before_last_prefix k : ∃ s, k = before_last k +:+ s.
Proof.
  unfold before_last. destruct (find_last k); [|exists EmptyString; by rewrite app_str_nil].
  eexists. symmetry. apply take_drop_str.
Qed.

Lemma type_field_prefix k : ∃ s, k = type_field k +:+ s.
Proof.
  unfold type_field. destruct (find_first k); [|by exists k]. eexists. symmetry. apply take_drop_str.
Qed.

(** The keys of list and map properties *)
Lemma list_map_key k :
  is_list_map k = true ↔ ∃ s, k = list_prop_prefix +:+ s ∨ k = map_prop_prefix +:+ s.
Proof.
  unfold is_list_map. rewrite orb_true_iff, !bool_decide_eq_true. split.
  - destruct (type_field_prefix k) as [s Hk]. intros [Ht|Ht]; rewrite Ht in Hk; eauto.
  - intros [s [-> | ->]]; [left|right]; reflexivity.
Qed.

(** The property of a list or map key starts with [pr]. *)
Lemma list_map_head k : is_list_map k = true → ∃ s, before_last k = String "p" (String "r" s).
Proof.
  intros [s [-> | ->]]%list_map_key; unfold before_last; simpl; destruct (find_last s); simpl; eauto.
Qed.

(** ** The walk over the fields of a property *)

Lemma same_but_last_app p s : p ≠ ""%string → same_but_last p (p +:+ s) = true.
Proof.
  intros Hp. unfold same_but_last. destruct (String.length p) as [|n] eqn:E; [by destruct p|].
  apply bool_decide_eq_true. rewrite take_str_app by lia. done.
Qed.

Lemma find_stale_ret p (it : FieldDetailMap) k f :
  (k, f) ∈ it → same_but_last p k = false → ∃ b, find_stale p it = Ret b.
Proof.
  induction it as [|[k1 f1] it IH]; intros Hin Hs; [by apply elem_of_nil in Hin|]. simpl.
  destruct (same_but_last p k1) eqn:E; [|eauto]. destruct (refreshed f1); simpl; [|eauto].
  apply elem_of_cons in Hin as [?|Hin]; simplify_eq; auto; congruence.
Qed.

Lemma prefix_between p s k : p ≠ ""%string → ¬ str_lt k p → str_lt k (p +:+ s) ∨ k = p +:+ s →
  same_but_last p k = true.
Proof.
  intros Hp H1 H2. destruct (str_between_prefix p s k H1) as [s' ->]; [|by apply same_but_last_app].
  destruct H2 as [H2| ->]; [|apply str_lt_irrefl]. intros H3. eapply str_lt_irrefl, str_lt_trans; eauto.
Qed.

Lemma find_stale_true p (it : FieldDetailMap) s f :
  p ≠ ""%string → Ordered it → (∀ q, q ∈ it → ¬ str_lt q.1 p) → (p +:+ s, f) ∈ it → refreshed f = false →
  find_stale p it = Ret true.
Proof.
  intros Hp. induction it as [|[k1 f1] it IH]; intros Ho Hge Hin Hf; [by apply elem_of_nil in Hin|].
  apply ordered_cons in Ho as [Ho Hlt]. simpl. apply elem_of_cons in Hin as [?|Hin].
  - simplify_eq. rewrite same_but_last_app by done. by rewrite Hf.
  - rewrite (prefix_between p s k1 Hp); [|apply (Hge (k1, f1)); by left|left; apply (Hlt _ Hin)].
    destruct (refreshed f1); [simpl|done]. apply IH; [done| |done..]. intros q Hq. apply Hge. by right.
Qed.

Lemma revise_updates (fs : FieldDetailMap) ft : Ordered fs → find "type" fs = Some ft →
  ∀ (cands : sset) c,
  (∀ p, p ∈ cands.*1 → ∃ k f, (k, f) ∈ fs ∧ is_list_map k = true ∧ before_last k = p) →
  ∃ c', ListMapPropReviseUpdateList cands fs c = Ret c' ∧
    list_map_properties c' = list_map_properties c ∧ ctx_obj_type c' = ctx_obj_type c ∧
    (∀ p, set_mem p (updated_list_map_properties c) = true → set_mem p (updated_list_map_properties c') = true) ∧
    (∀ p, set_mem p (updated_list_map_properties c') = true →
          set_mem p (updated_list_map_properties c) = true ∨ p ∈ cands.*1) ∧
    (∀ k f, (k, f) ∈ fs → refreshed f = false → before_last k ∈ cands.*1 →
            set_mem (before_last k) (updated_list_map_properties c') = true).
Proof.
  intros Ho Hty. induction cands as [|[p []] cands IH]; intros c Hc.
  { exists c. simpl. split_and!; auto. intros k f _ _ Hin. by apply elem_of_nil in Hin. }
  cbn [ListMapPropReviseUpdateList].
  destruct (set_mem p (updated_list_map_properties c)) eqn:Em.
  { destruct (IH c) as (c' & -> & H1 & H2 & H3 & H4 & H5); [intros p' ?; apply Hc; by right|].
    exists c'. split_and!; auto.
    - intros p' Hp'. destruct (H4 p' Hp'); [auto|right; by right].
    - intros k f ? ? [Hk|?]%elem_of_cons; [simpl in Hk; rewrite Hk; auto|eauto]. }
  destruct (Hc p) as (k & f & Hin & Hlm & Hbl); [by left|].
  destruct (list_map_head k Hlm) as [s0 Hp]. rewrite Hbl in Hp.
  assert (p ≠ ""%string) as Hpne by (by rewrite Hp).
  destruct (before_last_prefix k) as [s Hk]. rewrite Hbl in Hk.
  assert ((k, f) ∈ lower_bound p fs) as Hlb.
  { apply elem_lower_bound; [done|]. split; [done|]. simpl. rewrite Hk. apply str_nlt_app. }
  pose proof (ordered_lower_bound p fs Ho) as Hol.
  assert (∀ q, q ∈ lower_bound p fs → ¬ str_lt q.1 p) as Hge by (intros q Hq; by apply elem_lower_bound in Hq as [_ ?]).
  assert (("type"%string, ft) ∈ lower_bound p fs) as Htl.
  { apply elem_lower_bound; [done|]. split; [by apply find_in|]. simpl. rewrite Hp. by vm_compute. }
  destruct (find_stale_ret p _ _ _ Htl) as [b Hb]; [by rewrite Hp|].
  destruct (lower_bound p fs) as [|[k1 f1] it] eqn:El; [by apply elem_of_nil in Hlb|].
  assert (same_but_last p k1 = true) as ->.
  { apply (prefix_between p s); [done|apply (Hge (k1, f1)); by left|].
    apply ordered_cons in Hol as [_ Hlt]. apply elem_of_cons in Hlb as [?|Hlb]; [simplify_eq; by right|].
    left. rewrite <- Hk. apply (Hlt _ Hlb). }
  rewrite Hb. cbn [assert_that mbind outcome_mbind].
  destruct (IH (if b then add_updated p c else c)) as (c' & Hr & H1 & H2 & H3 & H4 & H5);
    [intros p' ?; apply Hc; by right|].
  exists c'. simpl in Hr |- *. rewrite Hr. split_and!; auto.
  - rewrite H1. by destruct b.
  - rewrite H2. by destruct b.
  - intros p' Hp'. apply H3. destruct b; [|done]. simpl. rewrite set_mem_insert. auto.
  - intros p' Hp'. destruct (H4 p' Hp') as [H|]; [|right; by right].
    destruct b; [|auto]. simpl in H. apply set_mem_insert in H as [->|?]; [right; by left|auto].
  - intros k' f' Hin' Hst [Hbl'|?]%elem_of_cons; [|eauto]. simpl in Hbl'.
    destruct (before_last_prefix k') as [s' Hk']. rewrite Hbl' in Hk'.
    assert (find_stale p ((k1, f1) :: it) = Ret true) as Hbt.
    { rewrite <- El in *. apply (find_stale_true p _ s' f'); try done. rewrite <- Hk'.
      apply elem_lower_bound; [done|]. split; [done|]. simpl. rewrite Hk'. apply str_nlt_app. }
    rewrite Hb in Hbt. simplify_eq. rewrite Hbl'. apply H3. simpl. rewrite set_mem_insert. auto.
Qed.

(** ** Messages *)

Lemma last_of_none vec k : last_of vec k = None ↔ ∀ a, a ∈ vec → key a ≠ k.
Proof.
  unfold last_of. rewrite last_None. split.
  - intros Hf a Ha Hk. assert (a ∈ filter (λ a, key a = k) vec) as Hin by (by apply list_elem_of_filter).
    rewrite Hf in Hin. by apply elem_of_nil in Hin.
  - intros H. destruct (filter _ vec) as [|a l] eqn:E; [done|].
    assert (a ∈ filter (λ a, key a = k) vec) as Hin by (rewrite E; left).
    apply list_elem_of_filter in Hin as [? ?]. by destruct (H a).
Qed.

Lemma last_of_unique vec a : a ∈ vec → (∀ a', a' ∈ vec → key a' = key a → a' = a) → last_of vec (key a) = Some a.
Proof.
  intros Ha Hu. destruct (last_of vec (key a)) as [a'|] eqn:E; [|by eapply last_of_none in E].
  unfold last_of in E. apply last_Some_elem_of, list_elem_of_filter in E as [? ?]. f_equal. auto.
Qed.

Lemma existsb_elem {A} (f : A → bool) l : existsb f l = true ↔ ∃ x, x ∈ l ∧ f x = true.
Proof. rewrite existsb_exists. by setoid_rewrite list_elem_of_In. Qed.

Lemma names_member_spec vec m :
  names_member vec m = true ↔ ∃ a, a ∈ vec ∧ is_list_map (key a) = true ∧ member (key a) = m.
Proof.
  unfold names_member. rewrite existsb_elem. setoid_rewrite andb_true_iff. by setoid_rewrite bool_decide_eq_true.
Qed.

Lemma elem_deleted_vec add (fs : FieldDetailMap) a :
  a ∈ deleted_vec add fs ↔
  ∃ k f, (k, f) ∈ fs ∧ a = adapter_of (k, f) ∧ (identity_key k = true ∨ add = false ∨ refreshed f = false).
Proof.
  unfold deleted_vec. rewrite list_elem_of_fmap. setoid_rewrite list_elem_of_filter.
  split.
  - intros ([k f] & -> & H & ?). exists k, f. simpl in H. rewrite !orb_true_iff, !negb_true_iff in H. tauto.
  - intros (k & f & ? & -> & H). exists (k, f). simpl. rewrite !orb_true_iff, !negb_true_iff. tauto.
Qed.

Lemma deleted_identified add (fs : FieldDetailMap) ft fn :
  find "type" fs = Some ft → unquote (f_value ft) ≠ ""%string → find "fq_name" fs = Some fn →
  identified (type_of_fields fs) (deleted_vec add fs) = true.
Proof.
  intros Ht Hne Hn. unfold identified, type_of_fields. rewrite Ht, (bool_decide_false (_ = _)) by done. simpl.
  apply andb_true_iff. split; apply existsb_elem.
  - exists (adapter_of ("type"%string, ft)). split; [|simpl; by rewrite bool_decide_true].
    apply elem_deleted_vec. exists "type"%string, ft. split; [by apply find_in|]. split; [done|]. by left.
  - exists (adapter_of ("fq_name"%string, fn)). split; [|done].
    apply elem_deleted_vec. exists "fq_name"%string, fn. split; [by apply find_in|]. split; [done|]. by left.
Qed.

Lemma lower_bound_starts (fs : FieldDetailMap) P :
  Ordered fs →
  (match lower_bound P fs with [] => false | (k, _) :: _ => starts_with k P end) = true ↔
  ∃ k f, (k, f) ∈ fs ∧ starts_with k P = true.
Proof.
  intros Ho. pose proof (elem_lower_bound P fs) as He. pose proof (ordered_lower_bound P fs Ho) as Hol.
  destruct (lower_bound P fs) as [|[k f] it].
  - split; [done|]. intros (k & f & Hin & [r ->]%starts_with_app). exfalso.
    eapply (not_elem_of_nil (P +:+ r, f)), He; [done|]. split; [done|]. apply str_nlt_app.
  - split.
    + intros Hs. exists k, f. split; [|done]. by apply (He (k, f) Ho); left.
    + intros (k' & f' & Hin & [r Hr]%starts_with_app). apply starts_with_app.
      apply (str_between_prefix P r); [apply (He (k, f) Ho); by left|].
      assert ((k', f') ∈ (k, f) :: it) as Hin'.
      { apply He; [done|]. split; [done|]. simpl. rewrite Hr. apply str_nlt_app. }
      rewrite <- Hr. apply ordered_cons in Hol as [_ Hlt]. apply elem_of_cons in Hin' as [?|Hin'].
      * simplify_eq. apply str_lt_irrefl.
      * intros Hx. eapply str_lt_irrefl, str_lt_trans; [exact Hx|]. apply (Hlt _ Hin').
Qed.

Lemma prop_empty_spec m u e mem :
  m !! u = Some e → Ordered (fields e) →
  IsListOrMapPropEmpty m u mem = false ↔
  ∃ k f, (k, f) ∈ fields e ∧
         (starts_with k (map_prop_prefix +:+ mem) = true ∨ starts_with k (list_prop_prefix +:+ mem) = true).
Proof.
  intros Hm Ho. unfold IsListOrMapPropEmpty. rewrite Hm.
  rewrite andb_false_iff, !negb_false_iff, !lower_bound_starts by done. naive_solver.
Qed.

(** ** The columns of a row *)

(** The names of the objects, and the text of a column by its time stamp: the database gives
    one column two time stamps when it is written twice. *)
Section Rows.
Context (names : string → string).

Definition skipped (k : string) : bool := is_prop k && bool_decide (after_first k ∈ skip_properties).
Definition unknown_ref (kn : gset string) (k : string) : bool :=
  (is_ref k || is_parent k) && negb (bool_decide (after_last k ∈ kn)).
(** The columns that are taken: not those to skip, nor references to objects not known *)
Definition accepted (kn : gset string) (k : string) : bool := negb (skipped k) && negb (unknown_ref kn k).
Definition ref_of (k : string) : string := if is_ref k then names (after_last k) else "".
Definition adapt (c : Col) : Adapter := mkAdapter (c_key c) (c_value c) (ref_of (c_key c)).
Definition taken (kn : gset string) (cols : list Col) : list Col := filter (λ c, accepted kn (c_key c) = true) cols.
Definition draft (cols : list Col) : bool :=
  existsb (λ c, skipped (c_key c) && bool_decide (after_first (c_key c) = "draft_mode_state"%string) &&
                negb (bool_decide (c_value c = ""%string))) cols.

(** What the database says of the object *)
Definition row_view (kn : gset string) (cols : list Col) : View :=
  list_to_map ((λ c, (c_key c, (c_value c, ref_of (c_key c)))) <$> filter (λ c, element (c_key c) = true) (taken kn cols)).

Definition fq_ok (fq : gmap string FQNameCacheType) : Prop :=
  ∀ u e, fq !! u = Some e → fq_fq_name e = names u ∧ names u ≠ "ERROR"%string.

(** Whether the cache takes a column for changed *)
Definition changed (fs : FieldDetailMap) (c : Col) : bool :=
  match find (c_key c) fs with
  | None => true
  | Some f => identity_key (c_key c) || negb (negb (c_ts c =? 0) && (time_stamp f =? c_ts c))
  end.
Definition new_field (fs : FieldDetailMap) (c : Col) : Field :=
  match find (c_key c) fs with
  | None => mkField (c_value c) (ref_of (c_key c)) (c_ts c) true
  | Some f => mkField (f_value f) (f_ref f)
                (if identity_key (c_key c) then time_stamp f else c_ts c) true
  end.

Lemma FindFQName_spec fq u :
  fq_ok fq → FindFQName fq u = if decide (u ∈ dom fq) then names u else "ERROR"%string.
Proof.
  intros Hok. unfold FindFQName, UUIDToFQName. destruct (fq !! u) as [e|] eqn:E.
  - rewrite decide_True by (by apply elem_of_dom_2 in E). destruct (Hok u e E) as [? _].
    by destruct (deleted e).
  - by rewrite decide_False by (by apply not_elem_of_dom).
Qed.

Lemma unknown_ref_spec fq k :
  fq_ok fq → (is_ref k || is_parent k) && bool_decide (FindFQName fq (after_last k) = "ERROR"%string) =
             unknown_ref (dom fq) k.
Proof.
  intros Hok. unfold unknown_ref. rewrite FindFQName_spec by done. f_equal.
  case_decide as Hd; [|by rewrite bool_decide_true, bool_decide_false].
  rewrite (bool_decide_true (_ ∈ dom fq)) by done. apply bool_decide_false.
  apply elem_of_dom in Hd as [e He]. by destruct (Hok _ e He).
Qed.

(** What is known of the context after some columns *)
Record Parsed (kn : gset string) (cols : list Col) (fs : FieldDetailMap) (vec : list Adapter) (c : Context)
    (fs' : FieldDetailMap) (vec' : list Adapter) (c' : Context) : Prop := {
  ps_ordered : Ordered fs';
  ps_taken : ∀ col, col ∈ taken kn cols → find (c_key col) fs' = Some (new_field fs col);
  ps_rest : ∀ k, k ∉ c_key <$> taken kn cols → find k fs' = find k fs;
  ps_vec : vec' = vec ++ (adapt <$> filter (λ col, (negb (is_list_map (c_key col)) && changed fs col) = true) (taken kn cols));
  ps_pairs : list_map_properties c' = list_map_properties c ++
    ((λ col, (before_last (c_key col), adapt col)) <$> filter (λ col, is_list_map (c_key col) = true) (taken kn cols));
  ps_updated : ∀ p, set_mem p (updated_list_map_properties c') = true ↔
    set_mem p (updated_list_map_properties c) = true ∨
    ∃ col, col ∈ taken kn cols ∧ is_list_map (c_key col) = true ∧ before_last (c_key col) = p ∧ changed fs col = true;
  ps_candidate : ∀ p, set_mem p (candidate_list_map_properties c') = true ↔
    set_mem p (candidate_list_map_properties c) = true ∨
    ∃ col, col ∈ taken kn cols ∧ is_list_map (c_key col) = true ∧ before_last (c_key col) = p ∧ changed fs col = false;
  ps_type : ctx_obj_type c' ≠ ""%string →
    ctx_obj_type c' = ctx_obj_type c ∨ ∃ col, col ∈ taken kn cols ∧ c_key col = "type"%string ∧ unquote (c_value col) = ctx_obj_type c';
  ps_type_kept : ∀ col, col ∈ taken kn cols → c_key col = "type"%string → unquote (c_value col) ≠ ""%string → ctx_obj_type c' ≠ ""%string;
  ps_type_kept' : ctx_obj_type c ≠ ""%string → ctx_obj_type c' ≠ ""%string;
  ps_name : fq_name_present c' = fq_name_present c || existsb (λ col, bool_decide (c_key col = "fq_name"%string)) cols;
  ps_ignore : ignore_object c' = ignore_object c || draft cols;
  ps_unknown : parent_or_ref_fq_name_unknown c' =
    parent_or_ref_fq_name_unknown c || existsb (λ col, negb (skipped (c_key col)) && unknown_ref kn (c_key col)) cols;
}.

Lemma taken_app kn l1 l2 : taken kn (l1 ++ l2) = taken kn l1 ++ taken kn l2.
Proof. apply filter_app. Qed.

Lemma elem_taken kn cols col : col ∈ taken kn cols ↔ col ∈ cols ∧ accepted kn (c_key col) = true.
Proof. unfold taken. rewrite list_elem_of_filter. tauto. Qed.

Lemma changed_find fs fs' col : find (c_key col) fs' = find (c_key col) fs → changed fs' col = changed fs col.
Proof. unfold changed. by intros ->. Qed.

Lemma new_field_find fs fs' col : find (c_key col) fs' = find (c_key col) fs → new_field fs' col = new_field fs col.
Proof. unfold new_field. by intros ->. Qed.

Lemma draft_app l1 l2 : draft (l1 ++ l2) = draft l1 || draft l2.
Proof. apply existsb_app. Qed.

Lemma parsed_app kn l1 l2 fs vec c fs1 vec1 c1 fs2 vec2 c2 :
  Parsed kn l1 fs vec c fs1 vec1 c1 → Parsed kn l2 fs1 vec1 c1 fs2 vec2 c2 →
  (∀ x, x ∈ c_key <$> l1 → x ∉ c_key <$> l2) →
  Parsed kn (l1 ++ l2) fs vec c fs2 vec2 c2.
Proof.
  intros P1 P2 Hd.
  assert (∀ col, col ∈ taken kn l2 → find (c_key col) fs1 = find (c_key col) fs) as Hf.
  { intros col Hc. apply (ps_rest _ _ _ _ _ _ _ _ P1). intros (col' & Hk & Hc')%list_elem_of_fmap.
    apply elem_taken in Hc as [Hc _], Hc' as [Hc' _]. apply (Hd (c_key col)); [rewrite Hk|];
    by apply list_elem_of_fmap_2. }
  assert (∀ col, col ∈ taken kn l1 → c_key col ∉ c_key <$> taken kn l2) as Hf1.
  { intros col [Hc _]%elem_taken (col' & Hk & [Hc' _]%elem_taken)%list_elem_of_fmap.
    apply (Hd (c_key col)); [by apply list_elem_of_fmap_2|]. rewrite Hk. by apply list_elem_of_fmap_2. }
  destruct P1 as [A1 A2 A3 A4 A5 A6 A7 A8 A9 A10 A11 A12 A13], P2 as [B1 B2 B3 B4 B5 B6 B7 B8 B9 B10 B11 B12 B13].
  split; try done.
  - intros col. rewrite taken_app, elem_of_app. intros [Hc|Hc].
    + rewrite B3 by auto. auto.
    + rewrite B2 by done. f_equal. apply new_field_find. auto.
  - intros k. rewrite taken_app, fmap_app, not_elem_of_app. intros [H1 H2]. by rewrite B3, A3.
  - rewrite B4, A4, taken_app, filter_app, fmap_app, <- (assoc_L (++)). do 2 f_equal.
    f_equal. apply list_filter_ext_in. intros col Hc. by rewrite (changed_find fs fs1) by auto.
  - by rewrite B5, A5, taken_app, filter_app, fmap_app, <- (assoc_L (++)).
  - intros p. rewrite B6, A6, taken_app. setoid_rewrite elem_of_app.
    split.
    + intros [[?|(col & Hc & ?)]|(col & Hc & ? & ? & Hch)]; [by left|right; exists col; by split; [left|]|].
      rewrite (changed_find fs fs1) in Hch by auto. right. exists col. auto.
    + intros [?|(col & [Hc|Hc] & ? & ? & Hch)]; [auto|left; right; eauto|].
      right. exists col. by rewrite (changed_find fs fs1) by auto.
  - intros p. rewrite B7, A7, taken_app. setoid_rewrite elem_of_app.
    split.
    + intros [[?|(col & Hc & ?)]|(col & Hc & ? & ? & Hch)]; [by left|right; exists col; by split; [left|]|].
      rewrite (changed_find fs fs1) in Hch by auto. right. exists col. auto.
    + intros [?|(col & [Hc|Hc] & ? & ? & Hch)]; [auto|left; right; eauto|].
      right. exists col. by rewrite (changed_find fs fs1) by auto.
  - intros Ht. rewrite taken_app. setoid_rewrite elem_of_app.
    destruct (B8 Ht) as [Heq|(col & ? & ? & ?)]; [|right; exists col; auto].
    rewrite Heq in Ht. destruct (A8 Ht) as [?|(col & ? & ? & ?)]; [left; congruence|right; exists col; rewrite Heq; auto].
  - intros col. rewrite taken_app, elem_of_app. intros [Hc|Hc] ? ?; [by apply B10, (A9 col)|eauto].
  - auto.
  - by rewrite B11, A11, existsb_app, orb_assoc.
  - by rewrite B12, A12, draft_app, orb_assoc.
  - by rewrite B13, A13, existsb_app, orb_assoc.
Qed.

(** A name that is empty cannot be taken apart. *)
Definition named (cols : list Col) : Prop := ∀ col, col ∈ cols → c_key col = "fq_name"%string → c_value col ≠ ""%string.

Lemma note_identity_spec a c :
  (key a = "fq_name"%string → value a ≠ ""%string) →
  ∃ c1, note_identity a c = Ret c1 ∧
    list_map_properties c1 = list_map_properties c ∧
    updated_list_map_properties c1 = updated_list_map_properties c ∧
    candidate_list_map_properties c1 = candidate_list_map_properties c ∧
    ignore_object c1 = ignore_object c ∧
    parent_or_ref_fq_name_unknown c1 = parent_or_ref_fq_name_unknown c ∧
    fq_name_present c1 = fq_name_present c || bool_decide (key a = "fq_name"%string) ∧
    ctx_obj_type c1 = (if bool_decide (key a = "type"%string) && bool_decide (ctx_obj_type c = ""%string)
                       then unquote (value a) else ctx_obj_type c).
Proof.
  intros Hn. unfold note_identity.
  destruct (decide (key a = "type"%string)) as [Ht|Ht].
  - rewrite !(bool_decide_true (key a = "type"%string)) by done. rewrite Ht. eexists. split; [done|].
    case_bool_decide; simpl; repeat split; by rewrite orb_false_r.
  - rewrite !(bool_decide_false (key a = "type"%string)) by done. simpl.
    destruct (decide (key a = "fq_name"%string)) as [Hf|Hf].
    + rewrite !(bool_decide_true (key a = "fq_name"%string)) by done. specialize (Hn Hf).
      case_bool_decide; [|eexists; split; [done|]; simpl; repeat split; by rewrite orb_true_r].
      destruct (value a) as [|x v] eqn:Ev; [done|]. simpl. eexists. split; [done|]. simpl.
      repeat split; by rewrite orb_true_r.
    + rewrite !(bool_decide_false (key a = "fq_name"%string)) by done. exists c.
      repeat split; by rewrite orb_false_r.
Qed.

Lemma store_field_spec a ts fs c :
  let col := mkCol (key a) (value a) ts in
  ref_fq_name a = ref_of (key a) → Ordered fs →
  ∃ fs', store_field a ts fs c =
      (negb (is_list_map (key a)) && changed fs col, fs',
       if is_list_map (key a)
       then (if changed fs col then add_updated else add_candidate) (before_last (key a)) c else c) ∧
    Ordered fs' ∧ find (key a) fs' = Some (new_field fs col) ∧ ∀ k, k ≠ key a → find k fs' = find k fs.
Proof.
  intros col Hr Ho. unfold store_field, changed, new_field. subst col. simpl.
  destruct (find (key a) fs) as [f|] eqn:Ef.
  - fold (identity_key (key a)). destruct (identity_key (key a)) eqn:Ei; simpl.
    + assert (is_list_map (key a) = false) as ->.
      { unfold identity_key in Ei. rewrite orb_true_iff, !bool_decide_eq_true in Ei.
        by destruct Ei as [-> | ->]. }
      eexists. split; [done|]. split; [by apply ordered_assign|]. rewrite find_assign, decide_True, Ef by done.
      split; [done|]. intros k Hk. by rewrite find_assign, decide_False.
    + destruct (negb (ts =? 0) && (time_stamp f =? ts)) eqn:Ets; simpl.
      * apply andb_true_iff in Ets as [_ Ets%Z.eqb_eq]. rewrite andb_false_r. eexists. split; [by destruct (is_list_map (key a))|].
        split; [by apply ordered_assign|]. rewrite find_assign, decide_True, Ef, Ets by done.
        split; [done|]. intros k Hk. by rewrite find_assign, decide_False.
      * rewrite andb_true_r. eexists. split; [by destruct (is_list_map (key a))|].
        split; [by apply ordered_assign|]. rewrite find_assign, decide_True, Ef by done.
        split; [done|]. intros k Hk. by rewrite find_assign, decide_False.
  - rewrite andb_true_r. eexists. split; [by destruct (is_list_map (key a))|].
    split; [by apply ordered_insert_new|]. rewrite find_insert_new, decide_True, Ef by done.
    split; [simpl; by rewrite Hr|]. intros k Hk. by rewrite find_insert_new, decide_False.
Qed.

Lemma identity_accepted kn k : identity_key k = true → skipped k = false ∧ unknown_ref kn k = false.
Proof. unfold identity_key. rewrite orb_true_iff, !bool_decide_eq_true. by intros [-> | ->]. Qed.

(** A column that is not taken *)
Lemma parsed_dropped kn col fs vec c c' :
  accepted kn (c_key col) = false → Ordered fs →
  list_map_properties c' = list_map_properties c → updated_list_map_properties c' = updated_list_map_properties c →
  candidate_list_map_properties c' = candidate_list_map_properties c → ctx_obj_type c' = ctx_obj_type c →
  fq_name_present c' = fq_name_present c → ignore_object c' = ignore_object c || draft [col] →
  parent_or_ref_fq_name_unknown c' =
    parent_or_ref_fq_name_unknown c || existsb (λ col, negb (skipped (c_key col)) && unknown_ref kn (c_key col)) [col] →
  Parsed kn [col] fs vec c fs vec c'.
Proof.
  intros Hacc Ho H1 H2 H3 H4 H5 H6 H7.
  assert (taken kn [col] = []) as Ht.
  { unfold taken. rewrite filter_cons_False by congruence. done. }
  assert (c_key col ≠ "fq_name"%string) as Hn.
  { intros Hk. destruct (identity_accepted kn (c_key col)) as [E1 E2]; [by rewrite Hk|].
    unfold accepted in Hacc. by rewrite E1, E2 in Hacc. }
  split; rewrite ?Ht, ?H2, ?H3, ?H4; simpl; rewrite ?app_nil_r; try done; auto.
  - intros col' Hc. by apply elem_of_nil in Hc.
  - intros p. split; [auto|]. intros [?|(col' & Hc & _)]; [done|by apply elem_of_nil in Hc].
  - intros p. split; [auto|]. intros [?|(col' & Hc & _)]; [done|by apply elem_of_nil in Hc].
  - intros col' Hc. by apply elem_of_nil in Hc.
  - by rewrite H5, (bool_decide_false (c_key col = _)), !orb_false_r.
Qed.

Lemma store_parsed fq col fs vec c :
  fq_ok fq → Ordered fs → (c_key col = "fq_name"%string → c_value col ≠ ""%string) →
  ∃ push a fs' c', StoreKeyIfUpdated fq (mkAdapter (c_key col) (c_value col) "") (c_ts col) fs c = Ret (push, a, fs', c') ∧
    Parsed (dom fq) [col] fs vec c fs' (if (push : bool) then vec ++ [a] else vec) c'.
Proof.
  intros Hfq Ho Hn. unfold StoreKeyIfUpdated. simpl. fold (skipped (c_key col)).
  destruct (skipped (c_key col)) eqn:Esk.
  { do 4 eexists. split; [done|]. apply parsed_dropped; simpl; try done; try by destruct (_ && _).
    - unfold accepted. by rewrite Esk.
    - rewrite Esk. simpl. destruct (_ && _); simpl; by rewrite ?orb_true_r, ?orb_false_r.
    - rewrite Esk. simpl. rewrite orb_false_r. by destruct (_ && _). }
  rewrite unknown_ref_spec by done. destruct (unknown_ref (dom fq) (c_key col)) eqn:Eun.
  { do 4 eexists. split; [done|]. apply parsed_dropped; simpl; try done.
    - unfold accepted. by rewrite Esk, Eun.
    - by rewrite Esk, orb_false_r.
    - rewrite Esk, Eun. by rewrite orb_true_r. }
  set (a := adapt col).
  assert ((if is_ref (c_key col) then mkAdapter (c_key col) (c_value col) (FindFQName fq (after_last (c_key col)))
           else mkAdapter (c_key col) (c_value col) "") = a) as ->.
  { unfold a, adapt, ref_of. destruct (is_ref (c_key col)) eqn:Er; [|done]. f_equal.
    rewrite FindFQName_spec by done. unfold unknown_ref in Eun. rewrite Er in Eun. simpl in Eun.
    apply negb_false_iff, bool_decide_eq_true in Eun. by rewrite decide_True. }
  replace (key a) with (c_key col) by done.
  set (c0 := if is_list_map (c_key col) then _ else c).
  destruct (note_identity_spec a c0 Hn) as (c1 & -> & L1 & L2 & L3 & L4 & L5 & L6 & L7). simpl.
  destruct (store_field_spec a (c_ts col) fs c1 eq_refl Ho) as (fs' & -> & Ho' & Hf & Hrest).
  replace (mkCol (key a) (value a) (c_ts col)) with col in * by (by destruct col).
  replace (key a) with (c_key col) in * by done. replace (value a) with (c_value col) in * by done.
  assert (taken (dom fq) [col] = [col]) as Ht.
  { unfold taken. rewrite filter_cons_True; [done|]. unfold accepted. by rewrite Esk, Eun. }
  do 4 eexists. split; [done|].
  assert (ctx_obj_type c0 = ctx_obj_type c ∧ fq_name_present c0 = fq_name_present c ∧
          updated_list_map_properties c0 = updated_list_map_properties c ∧
          candidate_list_map_properties c0 = candidate_list_map_properties c ∧
          ignore_object c0 = ignore_object c ∧
          parent_or_ref_fq_name_unknown c0 = parent_or_ref_fq_name_unknown c) as (K1 & K2 & K3 & K4 & K5 & K6)
    by (unfold c0; by destruct (is_list_map _)).
  set (c2 := if is_list_map (c_key col) then _ else c1).
  assert (list_map_properties c2 = list_map_properties c1 ∧ ctx_obj_type c2 = ctx_obj_type c1 ∧
          fq_name_present c2 = fq_name_present c1 ∧ ignore_object c2 = ignore_object c1 ∧
          parent_or_ref_fq_name_unknown c2 = parent_or_ref_fq_name_unknown c1) as (M1 & M2 & M3 & M4 & M5)
    by (unfold c2; destruct (is_list_map _); [by destruct (changed _ _)|done]).
  assert (∀ b p, (∃ col0, col0 ∈ [col] ∧ is_list_map (c_key col0) = true ∧ before_last (c_key col0) = p ∧ changed fs col0 = b) ↔
            is_list_map (c_key col) = true ∧ before_last (c_key col) = p ∧ changed fs col = b) as Hx.
  { intros b p. split; [by intros (? & ->%list_elem_of_singleton & ?)|].
    intros ?. exists col. by rewrite list_elem_of_singleton. }
  split; rewrite ?Ht; try done.
  - intros col' ->%list_elem_of_singleton. done.
  - intros k Hk. apply Hrest. simpl in Hk. by rewrite list_elem_of_singleton in Hk.
  - rewrite filter_cons, filter_nil. destruct (negb _ && changed fs col); simpl; [done|by rewrite app_nil_r].
  - rewrite M1, L1. unfold c0. rewrite filter_cons, filter_nil.
    destruct (is_list_map (c_key col)); simpl; [done|by rewrite app_nil_r].
  - intros p. rewrite Hx, <- K3, <- L2. unfold c2.
    destruct (is_list_map (c_key col)); [destruct (changed fs col)|]; simpl; rewrite ?set_mem_insert; intuition congruence.
  - intros p. rewrite Hx, <- K4, <- L3. unfold c2.
    destruct (is_list_map (c_key col)); [destruct (changed fs col)|]; simpl; rewrite ?set_mem_insert; intuition congruence.
  - rewrite M2, L7, K1. intros Hne.
    destruct (bool_decide (c_key col = "type"%string)) eqn:E1; simpl in *; [|by left].
    case_bool_decide; [right|by left]. apply bool_decide_eq_true in E1. exists col. by rewrite list_elem_of_singleton.
  - intros col' ->%list_elem_of_singleton Hty Hne. rewrite M2, L7, K1, (bool_decide_true (c_key col = _)) by done. simpl.
    destruct (bool_decide (ctx_obj_type c = _)) eqn:E; [done|]. by apply bool_decide_eq_false in E.
  - rewrite M2, L7, K1. intros Hne. rewrite (bool_decide_false (ctx_obj_type c = _)) by done. by rewrite andb_false_r.
  - rewrite M3, L6, K2. simpl. by rewrite orb_false_r.
  - rewrite M4, L4, K5. simpl. by rewrite Esk, orb_false_r.
  - rewrite M5, L5, K6. simpl. rewrite Eun, andb_false_r. by rewrite !orb_false_r.
Qed.

Lemma parse_row fq cols : ∀ fs vec c,
  fq_ok fq → Ordered fs → NoDup (c_key <$> cols) → named cols →
  ∃ fs' vec' c', ParseObjUUIDTableEntry fq cols fs vec c = Ret (fs', vec', c') ∧
    Parsed (dom fq) cols fs vec c fs' vec' c'.
Proof.
  induction cols as [|col cols IH]; intros fs vec c Hfq Ho Hnd Hn.
  - exists fs, vec, c. split; [done|].
    split; simpl; rewrite ?app_nil_r, ?orb_false_r; try done; try set_solver.
    all: intros; set_solver.
  - simpl in Hnd. apply NoDup_cons in Hnd as [Hk Hnd].
    destruct (store_parsed fq col fs vec c Hfq Ho) as (push & a & fs1 & c1 & Hst & P1).
    { intros Hkey. apply Hn; [by left|done]. }
    cbn [ParseObjUUIDTableEntry]. rewrite Hst. simpl.
    destruct (IH fs1 (if push then vec ++ [a] else vec) c1 Hfq (ps_ordered _ _ _ _ _ _ _ _ P1) Hnd) as (fs2 & vec2 & c2 & -> & P2).
    { intros col' ? ?. apply Hn; [by right|done]. }
    exists fs2, vec2, c2. split; [done|]. apply (parsed_app _ [col] cols _ _ _ _ _ _ _ _ _ P1 P2).
    intros x Hx. simpl in Hx. apply list_elem_of_singleton in Hx as ->. done.
Qed.
End Rows.

(** ** What a row does to the consumer *)

(** The member of a key with a second colon *)
Lemma list_map_parts k :
  is_list_map k = true → find_last (after_first k) ≠ None →
  before_last k = type_field k +:+ member k ∧ ∃ i, k = type_field k +:+ (member k +:+ String ":" i).
Proof.
  assert (∀ s i, find_last s = Some i → ∃ r, s = take_str i s +:+ String ":" r) as Hcut.
  { clear. induction s as [|c s IH]; intros i H; simpl in *; [done|].
    destruct (find_last s) as [j|] eqn:E; simplify_eq/=.
    - destruct (IH j eq_refl) as [r Hr]. exists r. by rewrite <- Hr.
    - case_decide; simplify_eq/=. by exists s. }
  intros [s [-> | ->]]%list_map_key H; change (after_first _) with s in H;
    destruct (find_last s) as [i|] eqn:E; try done; destruct (Hcut s i E) as [r Hr];
    unfold before_last, member; simpl; rewrite ?E; change (after_first _) with s; unfold before_last; rewrite E;
    (split; [done|]); exists r; by rewrite <- Hr.
Qed.

Lemma prefix_no_colon m r i : find_first m = None → starts_with (r +:+ String ":" i) m = true → starts_with r m = true.
Proof.
  revert r. induction m as [|c m IH]; intros r Hc Hs; [done|]. simpl in Hc. case_decide as Hcc; [done|].
  destruct (find_first m) eqn:E; [done|].
  destruct r as [|x r]; simpl in *; apply andb_true_iff in Hs as [Hx Hs]; [by apply bool_decide_eq_true in Hx|].
  rewrite Hx. simpl. auto.
Qed.

Section Tracking.
Context (names : string → string) (written : string → string → Z → string) (schema : string → string → Prop).

(** The list and map properties of the schema: no name is the start of another one's. *)
Definition schema_ok : Prop :=
  (∀ t m t' m', schema t m → schema t' m' → starts_with m' m = true → t = t' ∧ m = m') ∧
  (∀ t m, schema t m → find_first m = None).
Context (Hschema : schema_ok).

Definition key_ok (k : string) : Prop :=
  is_list_map k = true → schema (type_field k) (member k) ∧ find_last (after_first k) ≠ None.

(** The rows the database gives for an object: a column has one value for each time stamp. *)
Record row_ok (u : string) (cols : list Col) : Prop := {
  ro_nodup : NoDup (c_key <$> cols);
  ro_named : named cols;
  ro_written : ∀ col, col ∈ cols → c_ts col ≠ 0 → c_value col = written u (c_key col) (c_ts col);
  ro_keys : ∀ col, col ∈ cols → key_ok (c_key col);
}.

(** What the cached fields and the consumer have in common *)
Record tracks (u : string) (fs : FieldDetailMap) (v : View) : Prop := {
  tr_ordered : Ordered fs;
  tr_keys : ∀ k f, find k fs = Some f → key_ok k;
  tr_none : ∀ k, find k fs = None → v !! k = None;
  tr_some : ∀ k f, element k = true → find k fs = Some f → ∃ x, v !! k = Some x ∧
              (time_stamp f ≠ 0 → x = (written u k (time_stamp f), ref_of names k));
  tr_other : ∀ k, element k = false → v !! k = None;
}.

(** Two keys of list or map properties with the same member are of the same property. *)
Lemma same_member k k' : is_list_map k = true → is_list_map k' = true → key_ok k → key_ok k' →
  member k = member k' → before_last k = before_last k'.
Proof.
  intros L L' K K' Hm. destruct (K L) as [S1 S2], (K' L') as [S1' S2'].
  destruct (list_map_parts k L S2) as [-> _], (list_map_parts k' L' S2') as [-> _]. rewrite Hm in *.
  destruct Hschema as [Hp _]. destruct (Hp _ _ _ _ S1 S1') as [-> _]; [|done].
  apply starts_with_app. exists ""%string. by rewrite app_str_nil.
Qed.

Lemma same_property k k' : is_list_map k = true → is_list_map k' = true → key_ok k → key_ok k' →
  before_last k = before_last k' → member k = member k'.
Proof.
  intros L L' K K' Hb. destruct (K L) as [S1 S2], (K' L') as [S1' S2'].
  destruct (list_map_parts k L S2) as [B _], (list_map_parts k' L' S2') as [B' _]. rewrite B, B' in Hb.
  unfold is_list_map in L, L'. rewrite orb_true_iff, !bool_decide_eq_true in L, L'.
  destruct L as [E|E], L' as [E'|E']; rewrite E, E' in Hb; try discriminate Hb; by apply app_str_inj in Hb.
Qed.

(** The answer of [IsListOrMapPropEmpty] for the member of a key *)
Lemma empty_answer m u e k :
  m !! u = Some e → Ordered (fields e) → (∀ k f, find k (fields e) = Some f → key_ok k) →
  is_list_map k = true → key_ok k →
  IsListOrMapPropEmpty m u (member k) = false ↔
  ∃ k' f, find k' (fields e) = Some f ∧ is_list_map k' = true ∧ member k' = member k.
Proof.
  intros Hm Ho Hk L K. rewrite (prop_empty_spec m u e) by done. destruct (K L) as [S1 S2]. split.
  - intros (k' & f & Hin%elem_find & Hs); [|done].
    assert (is_list_map k' = true) as L'.
    { apply list_map_key. destruct Hs as [[r ->]%starts_with_app|[r ->]%starts_with_app]; rewrite app_str_assoc; eauto. }
    exists k', f. split; [done|]. split; [done|]. destruct (Hk _ _ Hin L') as [S1' S2'].
    assert (starts_with (member k') (member k) = true) as Hst.
    { destruct (list_map_parts k' L' S2') as [_ [i Hi]]. destruct Hschema as [_ Hc].
      apply (prefix_no_colon _ _ i); [by eapply Hc|].
      destruct Hs as [[r Hr]%starts_with_app|[r Hr]%starts_with_app]; apply starts_with_app; exists r;
        pose proof Hr as Ht; rewrite app_str_assoc in Hr;
        apply (f_equal type_field) in Ht; rewrite app_str_assoc in Ht;
        [change (type_field (map_prop_prefix +:+ (member k +:+ r))) with map_prop_prefix in Ht
        |change (type_field (list_prop_prefix +:+ (member k +:+ r))) with list_prop_prefix in Ht];
        rewrite Ht in Hi; rewrite Hi in Hr; by apply app_str_inj in Hr. }
    destruct Hschema as [Hp _]. by destruct (Hp _ _ _ _ S1 S1' Hst).
  - intros (k' & f & Hf & L' & Hmm). exists k', f. split; [by apply find_in|].
    destruct (Hk _ _ Hf L') as [_ S2']. destruct (list_map_parts k' L' S2') as [_ [i Hi]].
    unfold is_list_map in L'. rewrite orb_true_iff, !bool_decide_eq_true in L'.
    destruct L' as [E|E]; rewrite E, Hmm in Hi; [right|left]; apply starts_with_app;
      exists (String ":" i); by rewrite app_str_assoc.
Qed.

(** *** The two messages of a row *)
Section Messages.
Context (u : string) (kn : gset string) (cols : list Col) (fs0 fs : FieldDetailMap) (vec : list Adapter) (c c' : Context).
Context (Hrow : row_ok u cols) (HP : Parsed names kn cols fs0 [] new_Context fs vec c).
Context (Hdirty : ∀ k f, find k fs0 = Some f → refreshed f = false).
Context (Hkeys : ∀ k f, find k fs0 = Some f → key_ok k).
Context (Hpairs : list_map_properties c' = list_map_properties c).
Context (Hup : ∀ p, set_mem p (updated_list_map_properties c) = true → set_mem p (updated_list_map_properties c') = true).
Context (Hdown : ∀ p, set_mem p (updated_list_map_properties c') = true →
                      set_mem p (updated_list_map_properties c) = true ∨ set_mem p (candidate_list_map_properties c) = true).
Context (Hstale : ∀ k f, (k, f) ∈ fs → refreshed f = false → set_mem (before_last k) (candidate_list_map_properties c) = true →
                         set_mem (before_last k) (updated_list_map_properties c') = true).

Let msg : list Adapter := vec ++ updated_pairs c'.

Lemma taken_unique col col' : col ∈ taken kn cols → col' ∈ taken kn cols → c_key col = c_key col' → col = col'.
Proof using Hrow.
  intros [H _]%elem_taken [H' _]%elem_taken Hk. pose proof (ro_nodup _ _ Hrow) as Hnd.
  apply list_elem_of_lookup in H as [i Hi], H' as [j Hj].
  assert (i = j) as ->; [|congruence].
  eapply NoDup_lookup; [exact Hnd|rewrite list_lookup_fmap, Hi; done|rewrite list_lookup_fmap, Hj; simpl; congruence].
Qed.

Lemma elem_msg a :
  a ∈ msg ↔ ∃ col, col ∈ taken kn cols ∧ a = adapt names col ∧
    (if is_list_map (c_key col) then set_mem (before_last (c_key col)) (updated_list_map_properties c')
     else changed fs0 col) = true.
Proof using HP Hpairs.
  unfold msg, updated_pairs. rewrite elem_of_app, (ps_vec _ _ _ _ _ _ _ _ _ HP), Hpairs, (ps_pairs _ _ _ _ _ _ _ _ _ HP). simpl.
  rewrite list_elem_of_fmap, (list_elem_of_In (concat _) a), in_concat. setoid_rewrite <- list_elem_of_In. split.
  - intros [(col & -> & Hf)|(l & Hl & Ha)].
    { apply list_elem_of_filter in Hf as [[El%negb_true_iff Ech]%andb_true_iff Hin]. exists col. by rewrite El. }
    apply list_elem_of_fmap in Hl as (p & -> & Hp). apply list_elem_of_fmap in Ha as ([p' a'] & -> & Hq).
    apply list_elem_of_filter in Hq as [Hpp Hq]. simpl in Hpp. subst p'.
    apply list_elem_of_fmap in Hq as (col & ? & [El Hin]%list_elem_of_filter). simplify_eq/=.
    exists col. rewrite El. split_and!; [done..|]. by apply set_mem_elem.
  - intros (col & Hin & -> & Hc). destruct (is_list_map (c_key col)) eqn:El; [right|left].
    2: { exists col. split; [done|]. apply list_elem_of_filter. by rewrite El. }
    eexists. split; [apply list_elem_of_fmap; exists (before_last (c_key col)); split; [reflexivity|by apply set_mem_elem]|].
    apply list_elem_of_fmap. exists (before_last (c_key col), adapt names col). split; [done|].
    apply list_elem_of_filter. split; [done|]. apply list_elem_of_fmap. exists col. split; [done|].
    by apply list_elem_of_filter.
Qed.

Lemma last_msg col :
  col ∈ taken kn cols →
  last_of msg (c_key col) =
  if if is_list_map (c_key col) then set_mem (before_last (c_key col)) (updated_list_map_properties c') else changed fs0 col
  then Some (adapt names col) else None.
Proof using Hrow HP Hpairs.
  intros Hin. destruct (if is_list_map _ then _ else _) eqn:E.
  - apply (last_of_unique msg (adapt names col)); [apply elem_msg; eauto|].
    intros a' (col' & Hin' & -> & _)%elem_msg Hk. simpl in Hk. by rewrite (taken_unique col' col Hin' Hin Hk).
  - apply last_of_none. intros a (col' & Hin' & -> & E')%elem_msg Hk. simpl in Hk.
    rewrite (taken_unique col' col Hin' Hin Hk) in E'. congruence.
Qed.

Lemma last_msg_none k : k ∉ c_key <$> taken kn cols → last_of msg k = None.
Proof using HP Hpairs.
  intros Hk. apply last_of_none. intros a (col & Hin & -> & _)%elem_msg <-. apply Hk.
  by apply (list_elem_of_fmap_2 c_key _ col).
Qed.

(** A field is refreshed when its column was taken. *)
Lemma refreshed_taken k f : find k fs = Some f → refreshed f = true ↔ k ∈ c_key <$> taken kn cols.
Proof using HP Hdirty.
  intros Hf. destruct (decide (k ∈ c_key <$> taken kn cols)) as [Hin|Hin].
  - split; [done|]. intros _. apply list_elem_of_fmap in Hin as (col & -> & Hin).
    rewrite (ps_taken _ _ _ _ _ _ _ _ _ HP col Hin) in Hf. simplify_eq. unfold new_field. by destruct (find _ fs0).
  - split; [|done]. rewrite (ps_rest _ _ _ _ _ _ _ _ _ HP k Hin) in Hf. rewrite (Hdirty _ _ Hf). done.
Qed.

Lemma fields_key_ok k f : find k fs = Some f → key_ok k.
Proof using Hrow HP Hkeys.
  intros Hf. destruct (decide (k ∈ c_key <$> taken kn cols)) as [Hin|Hin].
  - apply list_elem_of_fmap in Hin as (col & -> & [Hin _]%elem_taken). by apply (ro_keys _ _ Hrow).
  - rewrite (ps_rest _ _ _ _ _ _ _ _ _ HP k Hin) in Hf. eauto.
Qed.

Lemma taken_key_ok col : col ∈ taken kn cols → key_ok (c_key col).
Proof using Hrow. intros [? _]%elem_taken. by apply (ro_keys _ _ Hrow). Qed.

(** The property of a taken pair that is not pushed has not lost a pair. *)
Lemma property_kept col k f :
  col ∈ taken kn cols → is_list_map (c_key col) = true → before_last k = before_last (c_key col) →
  set_mem (before_last k) (updated_list_map_properties c') = false → find k fs = Some f → refreshed f = true.
Proof using HP Hup Hstale.
  intros Hin El Hb Hm Hf. destruct (refreshed f) eqn:Er; [done|]. rewrite <- Hm.
  destruct (changed fs0 col) eqn:Ech.
  - apply Hup. apply (ps_updated _ _ _ _ _ _ _ _ _ HP). right. by exists col.
  - apply (Hstale k f); [by apply find_in|done|].
    apply (ps_candidate _ _ _ _ _ _ _ _ _ HP). right. by exists col.
Qed.

Lemma row_view_taken col :
  col ∈ taken kn cols → element (c_key col) = true →
  row_view names kn cols !! c_key col = Some (c_value col, ref_of names (c_key col)).
Proof using Hrow.
  intros Hin He. unfold row_view. apply elem_of_list_to_map_1.
  - rewrite <- list_fmap_compose. unfold compose. simpl.
    assert (NoDup (c_key <$> filter (λ c, element (c_key c) = true) (taken kn cols))) as Hnd; [|exact Hnd].
    unfold taken. eapply sublist_NoDup; [exact (ro_nodup _ _ Hrow)|].
    apply fmap_sublist. etrans; [apply sublist_filter|apply sublist_filter].
  - apply list_elem_of_fmap. exists col. split; [done|]. by apply list_elem_of_filter.
Qed.

Lemma row_view_none k :
  k ∉ c_key <$> taken kn cols ∨ element k = false → row_view names kn cols !! k = None.
Proof.
  intros Hk. unfold row_view. apply not_elem_of_list_to_map_1. rewrite <- list_fmap_compose. unfold compose. simpl.
  intros (col & -> & [He Hin]%list_elem_of_filter)%list_elem_of_fmap.
  destruct Hk as [Hk|]; [|congruence]. apply Hk. by apply list_elem_of_fmap_2.
Qed.

Lemma element_not_identity k : element k = true → identity_key k = false.
Proof.
  intros He. destruct (identity_key k) eqn:Ei; [|done]. unfold identity_key in Ei.
  rewrite orb_true_iff, !bool_decide_eq_true in Ei. by destruct Ei as [-> | ->].
Qed.

Lemma list_map_element k : is_list_map k = true → element k = true.
Proof. by intros [s [-> | ->]]%list_map_key. Qed.

(** The message to add gives every column that was taken. *)
Lemma add_taken v col :
  tracks u fs0 v → col ∈ taken kn cols → element (c_key col) = true →
  after_add msg v (c_key col) = Some (c_value col, ref_of names (c_key col)).
Proof using All.
  intros HT Hin He. unfold after_add. rewrite He, last_msg by done.
  destruct (if is_list_map (c_key col) then _ else _) eqn:E; [done|].
  assert (changed fs0 col = false) as Hch.
  { destruct (is_list_map (c_key col)) eqn:El; [|done]. destruct (changed fs0 col) eqn:Ech; [|done].
    rewrite <- E. symmetry. apply Hup. apply (ps_updated _ _ _ _ _ _ _ _ _ HP). right. by exists col. }
  assert (is_list_map (c_key col) && names_member msg (member (c_key col)) = false) as ->.
  { destruct (is_list_map (c_key col)) eqn:El; [simpl|done]. apply not_true_iff_false.
    intros (a & (col' & Hin' & -> & E')%elem_msg & El' & Hm)%names_member_spec. simpl in El', Hm. rewrite El' in E'.
    rewrite (same_member (c_key col') (c_key col)) in E'; [congruence|done..|by apply taken_key_ok|by apply taken_key_ok|done]. }
  unfold changed in Hch. destruct (find (c_key col) fs0) as [f|] eqn:Ef; [|done].
  apply orb_false_iff in Hch as [_ Hts%negb_false_iff]. apply andb_true_iff in Hts as [Hnz%negb_true_iff%Z.eqb_neq Hts%Z.eqb_eq].
  destruct (tr_some _ _ _ HT _ _ He Ef) as (x & Hx & Hw). rewrite Hx, Hw by congruence. do 2 f_equal.
  rewrite Hts. symmetry. apply (ro_written _ _ Hrow); [by apply elem_taken in Hin as [? _]|done].
Qed.

Lemma find_kept k : find k (kept_fields fs) = (f ← find k fs; if identity_key k || refreshed f then Some f else None).
Proof using HP.
  unfold kept_fields, FieldDetailMap. rewrite find_filter by apply (ps_ordered _ _ _ _ _ _ _ _ _ HP). simpl.
  destruct (find k fs) as [f|]; [simpl|done]. case_decide as Hd; [by rewrite Hd|]. by destruct (_ || _).
Qed.

Lemma kept_taken k f : identity_key k = false → find k (kept_fields fs) = Some f ↔ k ∈ c_key <$> taken kn cols ∧ find k fs = Some f.
Proof using HP Hdirty.
  intros Hi. rewrite find_kept, Hi. simpl. destruct (find k fs) as [f'|] eqn:Ef; simpl; [|naive_solver].
  rewrite <- (refreshed_taken k f' Ef). destruct (refreshed f') eqn:Er; naive_solver.
Qed.

Lemma taken_found k : k ∈ c_key <$> taken kn cols → is_Some (find k fs).
Proof using HP. intros (col & -> & Hin)%list_elem_of_fmap. by rewrite (ps_taken _ _ _ _ _ _ _ _ _ HP col Hin). Qed.

(** Both messages *)
Lemma row_messages v v1 v2 m e :
  tracks u fs0 v → (∀ k, v1 !! k = after_add msg v k) →
  m !! u = Some e → fields e = kept_fields fs →
  (if need_notify true fs then ∀ k, v2 !! k = after_del (IsListOrMapPropEmpty m u) (deleted_vec true fs) v1 k
   else v2 = v1) →
  v2 = row_view names kn cols.
Proof using All.
  intros HT H1 Hm Hfe H2. apply map_eq. intros k.
  pose proof (ps_ordered _ _ _ _ _ _ _ _ _ HP) as Ho.
  assert (Ordered (fields e)) as Hoe by (rewrite Hfe; by apply ordered_filter).
  assert (∀ k f, find k (fields e) = Some f → key_ok k) as Hke.
  { intros k0 f0. rewrite Hfe, find_kept. destruct (find k0 fs) as [f'|] eqn:Ef; [|done]. intros _. by eapply fields_key_ok. }
  assert (v1 !! k = None → v2 !! k = None) as Hn.
  { intros Hk. destruct (need_notify true fs); [|by rewrite H2]. rewrite H2. unfold after_del. rewrite Hk.
    destruct (is_list_map k); [by destruct (_ && _)|by destruct (last_of _ k)]. }
  destruct (element k) eqn:He.
  2: { rewrite row_view_none by auto. apply Hn. rewrite H1. unfold after_add. by rewrite He. }
  pose proof (element_not_identity k He) as Hid.
  destruct (decide (k ∈ c_key <$> taken kn cols)) as [Hin|Hin].
  - pose proof Hin as Hin'. apply list_elem_of_fmap in Hin' as (col & Hk & Hcol).
    assert (v1 !! k = row_view names kn cols !! k) as Hv1.
    { rewrite H1, Hk. rewrite Hk in He. by rewrite add_taken, row_view_taken. }
    destruct (taken_found k Hin) as [f Hf].
    destruct (need_notify true fs); [|by rewrite H2]. rewrite H2. unfold after_del. rewrite Hv1.
    destruct (is_list_map k) eqn:El.
    + assert (IsListOrMapPropEmpty m u (member k) = false) as ->; [|by rewrite andb_false_r].
      apply (empty_answer m u e k); [done..| |].
      * apply (fields_key_ok k f Hf).
      * exists k, f. rewrite Hfe. split; [by apply kept_taken|done].
    + assert (last_of (deleted_vec true fs) k = None) as ->; [|done].
      apply last_of_none. intros a (k' & f' & Hin' & -> & Hor)%elem_deleted_vec Hk'. simpl in Hk'. subst k'.
      apply elem_find in Hin'; [|done]. rewrite Hf in Hin'. simplify_eq.
      apply (refreshed_taken _ _ Hf) in Hin. destruct Hor as [?|[?|?]]; congruence.
  - rewrite row_view_none by auto.
    assert (v1 !! k = if is_list_map k && names_member msg (member k) then None else v !! k) as Hv1.
    { rewrite H1. unfold after_add. by rewrite He, last_msg_none. }
    destruct (is_list_map k && names_member msg (member k)) eqn:Enm; [auto|].
    destruct (find k fs0) as [f|] eqn:Ef0.
    2: { apply Hn. rewrite Hv1. by apply (tr_none _ _ _ HT). }
    assert (find k fs = Some f) as Hf by (by rewrite (ps_rest _ _ _ _ _ _ _ _ _ HP)).
    pose proof (Hdirty _ _ Ef0) as Hr.
    assert (need_notify true fs = true) as Hnn.
    { apply existsb_elem. exists (k, f). split; [by apply find_in|]. simpl. by rewrite Hid, Hr. }
    rewrite Hnn in H2. rewrite H2. unfold after_del.
    assert (adapter_of (k, f) ∈ deleted_vec true fs) as Hdel.
    { apply elem_deleted_vec. exists k, f. split; [by apply find_in|]. auto. }
    destruct (is_list_map k) eqn:El.
    + assert (names_member (deleted_vec true fs) (member k) = true) as ->.
      { apply names_member_spec. exists (adapter_of (k, f)). auto. }
      destruct (IsListOrMapPropEmpty m u (member k)) eqn:Eem; [done|]. exfalso.
      apply (empty_answer m u e k) in Eem as (k' & f' & Hk' & El' & Hmm); [|done..|by apply (fields_key_ok k f)].
      rewrite Hfe in Hk'. apply kept_taken in Hk' as [(col' & -> & Hc')%list_elem_of_fmap Hf'];
        [|by apply element_not_identity, list_map_element].
      assert (before_last k = before_last (c_key col')) as Hb.
      { apply same_member; [done..| | |done]; [by apply (fields_key_ok k f)|by apply taken_key_ok]. }
      destruct (set_mem (before_last k) (updated_list_map_properties c')) eqn:Esm.
      * apply not_true_iff_false in Enm. apply Enm. simpl. apply names_member_spec. exists (adapt names col').
        split; [|done]. apply elem_msg. exists col'. by rewrite El', <- Hb.
      * rewrite (property_kept col' k f) in Hr; done.
    + destruct (last_of (deleted_vec true fs) k) eqn:E; [done|]. exfalso.
      rewrite last_of_none in E. by apply (E _ Hdel).
Qed.

Lemma row_tracks v : tracks u fs0 v → tracks u (kept_fields fs) (row_view names kn cols).
Proof using Hrow HP Hdirty Hkeys.
  intros HT. pose proof (ps_ordered _ _ _ _ _ _ _ _ _ HP) as Ho. split.
  - by apply ordered_filter.
  - intros k f. rewrite find_kept. destruct (find k fs) as [f'|] eqn:Ef; [|done]. intros _. by eapply fields_key_ok.
  - intros k Hk. destruct (element k) eqn:He; [|apply row_view_none; auto]. apply row_view_none. left. intros Hin.
    destruct (taken_found k Hin) as [f Hf].
    assert (find k (kept_fields fs) = Some f) by (apply kept_taken; [by apply element_not_identity|done]). congruence.
  - intros k f He Hf. apply kept_taken in Hf as [(col & -> & Hin)%list_elem_of_fmap Hf]; [|by apply element_not_identity].
    eexists. split; [by apply row_view_taken|]. rewrite (ps_taken _ _ _ _ _ _ _ _ _ HP col Hin) in Hf. simplify_eq.
    assert (time_stamp (new_field names fs0 col) = c_ts col) as ->.
    { unfold new_field. rewrite (element_not_identity _ He). by destruct (find _ fs0). }
    intros Hnz. f_equal. apply (ro_written _ _ Hrow); [by apply elem_taken in Hin as [? _]|done].
  - intros k He. apply row_view_none. auto.
Qed.
End Messages.

(** ** Reading and deleting objects *)
Section Objects.
Context {W : Type} `{!Consumer W, !ConsumerLaws W}.
Implicit Types (st : State (W := W)).

(** An object as it is between two reads *)
Definition obj_ok (u : string) (e : ObjCacheEntry) (v : View) : Prop :=
  tracks u (fields e) v ∧ (∃ ft, find "type" (fields e) = Some ft ∧ unquote (f_value ft) ≠ ""%string) ∧
  is_Some (find "fq_name" (fields e)).
Definition cache_ok (u : string) st : Prop :=
  match object_cache_map st !! u with
  | Some e => obj_ok u e (view (world st) u)
  | None => view (world st) u = ∅
  end.

Lemma push_other u t vec add st u' : u' ≠ u → view (world (GenerateAndPushJson u t vec add st)) u' = view (world st) u'.
Proof. intros Hne. simpl. by apply receive_other. Qed.

(** Deleting an object whose fields include what the consumer has *)
Lemma delete_object u st e :
  is_Some (fq_name_cache st !! u) → (∀ e, fq_name_cache st !! u = Some e → fq_fq_name e ≠ "ERROR"%string) →
  object_cache_map st !! u = Some e →
  (∀ k x, view (world st) u !! k = Some x → element k = true ∧ is_Some (find k (fields e))) →
  view (world st) u = ∅ ∨ identified (type_of_fields (fields e)) (deleted_vec false (fields e)) = true →
  ∃ st', HandleObjectDelete u false st = Ret st' ∧
    object_cache_map st' = delete u (object_cache_map st) ∧ fq_name_cache st' = delete u (fq_name_cache st) ∧
    view (world st') u = ∅ ∧ ∀ u', u' ≠ u → view (world st') u' = view (world st) u'.
Proof.
  intros [q Hq] Hne He Hv Hid. unfold HandleObjectDelete, UUIDToFQName. rewrite Hq, He. simpl.
  rewrite (bool_decide_false (_ = _)); [|by destruct (deleted q); simpl; apply Hne]. simpl.
  eexists. split; [done|]. destruct (need_notify false (fields e)) eqn:En; simpl.
  - split_and!; [done|done| |intros; by apply receive_other]. apply map_empty. intros k.
    destruct Hid as [Hem|Hid].
    + pose proof (receive_del_sub (world st) u (type_of_fields (fields e)) (deleted_vec false (fields e))
                    (IsListOrMapPropEmpty (delete u (object_cache_map st)) u)) as Hsub.
      rewrite Hem in Hsub. apply eq_None_not_Some. intros [x Hx].
      by apply (lookup_weaken _ _ _ _ Hx) in Hsub.
    + rewrite receive_del by done. destruct (view (world st) u !! k) as [x|] eqn:Ex.
      * destruct (Hv k x Ex) as [Hel [f Hf]].
        assert (adapter_of (k, f) ∈ deleted_vec false (fields e)) as Hin.
        { apply elem_deleted_vec. exists k, f. split; [by apply find_in|]. auto. }
        unfold after_del. destruct (is_list_map k) eqn:El.
        -- assert (names_member (deleted_vec false (fields e)) (member k) = true) as ->.
           { apply names_member_spec. exists (adapter_of (k, f)). auto. }
           unfold IsListOrMapPropEmpty. by rewrite lookup_delete_eq.
        -- destruct (last_of _ k) eqn:E; [done|]. rewrite last_of_none in E. by destruct (E _ Hin).
      * unfold after_del. rewrite Ex. destruct (is_list_map k); [by destruct (_ && _)|by destruct (last_of _ k)].
  - split_and!; try done. apply map_empty. intros k.
    destruct (view (world st) u !! k) as [x|] eqn:Ex; [|done]. exfalso.
    destruct (Hv k x Ex) as [Hel [f Hf]].
    assert (need_notify false (fields e) = true); [|congruence].
    apply existsb_elem. exists (k, f). split; [by apply find_in|]. simpl. by rewrite (element_not_identity k Hel).
Qed.

(** The fields when they are marked *)
Lemma mark_dirty u st :
  cache_ok u st →
  ∃ e fs0, object_cache_map (MarkCacheDirty u st) = <[u := e]> (object_cache_map st) ∧ fields e = fs0 ∧
    tracks u fs0 (view (world st) u) ∧ (∀ k f, find k fs0 = Some f → refreshed f = false) ∧
    (view (world st) u = ∅ ∨ (∃ ft, find "type" fs0 = Some ft ∧ unquote (f_value ft) ≠ ""%string) ∧ is_Some (find "fq_name" fs0)) ∧
    (∀ ft, find "type" fs0 = Some ft → unquote (f_value ft) ≠ ""%string).
Proof.
  unfold cache_ok, MarkCacheDirty. intros Hc. eexists _, _. split; [reflexivity|]. split; [reflexivity|].
  destruct (object_cache_map st !! u) as [e|]; simpl.
  - destruct Hc as (HT & (ft & Hft & Hne) & [fn Hfn]).
    set (g := λ (_ : string) f, mkField (f_value f) (f_ref f) (time_stamp f) false).
    assert (∀ k, find k ((λ p, (p.1, g p.1 p.2)) <$> fields e) = g k <$> find k (fields e)) as Hg
      by (intros k; apply find_map_values).
    split_and!.
    + split.
      * apply (ordered_map_values g), (tr_ordered _ _ _ HT).
      * intros k f. rewrite Hg. destruct (find k (fields e)) eqn:E; [|done]. intros _. by apply (tr_keys _ _ _ HT k _ E).
      * intros k. rewrite Hg. destruct (find k (fields e)) eqn:E; [done|]. intros _. by apply (tr_none _ _ _ HT).
      * intros k f He. rewrite Hg. destruct (find k (fields e)) as [f0|] eqn:E; [|done]. intros ?. simplify_eq/=.
        by apply (tr_some _ _ _ HT k f0).
      * apply (tr_other _ _ _ HT).
    + intros k f. rewrite Hg. destruct (find k (fields e)) as [f0|] eqn:E; [|done]. intros ?. by simplify_eq/=.
    + right. rewrite !Hg, Hft, Hfn. simpl. eauto.
    + intros ft'. rewrite Hg, Hft. intros ?. by simplify_eq/=.
  - rewrite Hc. split_and!; try done; [|by left]. split; try done. apply ordered_nil.
Qed.

(** A row that says the type and the name of its object *)
Definition well_formed (cols : list Col) : bool :=
  existsb (λ c, bool_decide (c_key c = "type"%string) && negb (bool_decide (unquote (c_value c) = ""%string))) cols &&
  existsb (λ c, bool_decide (c_key c = "fq_name"%string)) cols.

Lemma identity_taken kn cols col : col ∈ cols → identity_key (c_key col) = true → col ∈ taken kn cols.
Proof.
  intros Hin Hi. apply elem_taken. split; [done|]. unfold accepted.
  by destruct (identity_accepted kn _ Hi) as [-> ->].
Qed.

Lemma identity_changed fs col : identity_key (c_key col) = true → changed fs col = true.
Proof. intros Hi. unfold changed. rewrite Hi. by destruct (find _ fs). Qed.

Lemma identity_not_list k : identity_key k = true → is_list_map k = false.
Proof. unfold identity_key. rewrite orb_true_iff, !bool_decide_eq_true. by intros [-> | ->]. Qed.

Section ParsedRow.
Context (u : string) (kn : gset string) (cols : list Col) (fs0 fs : FieldDetailMap) (vec : list Adapter) (c : Context).
Context (HP : Parsed names kn cols fs0 [] new_Context fs vec c).

(** The context tells whether the row is well formed. *)
Lemma parsed_well_formed :
  bool_decide (ctx_obj_type c = ""%string) || negb (fq_name_present c) = negb (well_formed cols).
Proof using HP.
  unfold well_formed. rewrite (ps_name _ _ _ _ _ _ _ _ _ HP). simpl.
  set (typed := existsb (λ c, bool_decide (c_key c = "type"%string) && negb (bool_decide (unquote (c_value c) = ""%string))) cols).
  destruct typed eqn:Ety; unfold typed in Ety; simpl.
  - rewrite bool_decide_false; [done|]. apply existsb_elem in Ety as (col & Hin & Ht).
    apply andb_true_iff in Ht as [Hk%bool_decide_eq_true Hv%negb_true_iff%bool_decide_eq_false].
    apply (ps_type_kept _ _ _ _ _ _ _ _ _ HP col); [|done..]. apply identity_taken; [done|]. by rewrite Hk.
  - rewrite bool_decide_true; [done|]. destruct (decide (ctx_obj_type c = ""%string)) as [|Hne]; [done|]. exfalso.
    destruct (ps_type _ _ _ _ _ _ _ _ _ HP Hne) as [Heq|(col & [Hin _]%elem_taken & Hk & Hv)]; [done|].
    assert (existsb (λ c, bool_decide (c_key c = "type"%string) && negb (bool_decide (unquote (c_value c) = ""%string))) cols = true) as Hx;
      [|rewrite Hx in Ety; done].
    apply existsb_elem. exists col. split; [done|]. rewrite Hk, Hv, (bool_decide_false (_ = ""%string)) by done. done.
Qed.

Lemma parsed_keeps k f : find k fs0 = Some f → ∃ f', find k fs = Some f' ∧ f_value f' = f_value f.
Proof using HP.
  intros Hf. destruct (decide (k ∈ c_key <$> taken kn cols)) as [(col & -> & Hin)%list_elem_of_fmap|Hin].
  - exists (new_field names fs0 col). split; [by apply (ps_taken _ _ _ _ _ _ _ _ _ HP)|]. unfold new_field. by rewrite Hf.
  - exists f. split; [|done]. by rewrite (ps_rest _ _ _ _ _ _ _ _ _ HP).
Qed.

Lemma well_formed_cols :
  well_formed cols = true →
  (∃ col, col ∈ taken kn cols ∧ c_key col = "type"%string ∧ unquote (c_value col) ≠ ""%string) ∧
  ∃ col, col ∈ taken kn cols ∧ c_key col = "fq_name"%string.
Proof using Type.
  unfold well_formed. intros [H1 H2]%andb_true_iff. split.
  - apply existsb_elem in H1 as (col & Hin & Ht). exists col.
    apply andb_true_iff in Ht as [Hk%bool_decide_eq_true Hv%negb_true_iff%bool_decide_eq_false].
    split; [|done]. apply identity_taken; [done|]. by rewrite Hk.
  - apply existsb_elem in H2 as (col & Hin & Hk%bool_decide_eq_true). exists col.
    split; [|done]. apply identity_taken; [done|]. by rewrite Hk.
Qed.

(** The cached type and name after a row that has them *)
Lemma parsed_identity :
  well_formed cols = true → (∀ ft, find "type" fs0 = Some ft → unquote (f_value ft) ≠ ""%string) →
  (∃ ft, find "type" fs = Some ft ∧ unquote (f_value ft) ≠ ""%string) ∧ is_Some (find "fq_name" fs).
Proof using HP.
  intros Hwf Hty0. destruct (well_formed_cols Hwf) as [(col & Hin & Hk & Hv) (col' & Hin' & Hk')]. split.
  - pose proof (ps_taken _ _ _ _ _ _ _ _ _ HP col Hin) as Hf. rewrite Hk in Hf. eexists. split; [exact Hf|].
    unfold new_field. rewrite Hk. destruct (find "type" fs0) as [f0|] eqn:E0; simpl; [by apply Hty0|done].
  - pose proof (ps_taken _ _ _ _ _ _ _ _ _ HP col' Hin') as Hf. rewrite Hk' in Hf. eauto.
Qed.

Lemma msg_identified c' :
  well_formed cols = true → list_map_properties c' = list_map_properties c → ctx_obj_type c' = ctx_obj_type c →
  identified (ctx_obj_type c') (vec ++ updated_pairs c') = true.
Proof using HP.
  intros Hwf Hpairs Hoty. pose proof parsed_well_formed as Hne. rewrite Hwf in Hne.
  apply orb_false_iff in Hne as [Hne%bool_decide_eq_false _].
  assert (∀ col, col ∈ taken kn cols → identity_key (c_key col) = true → adapt names col ∈ vec ++ updated_pairs c') as Hmsg.
  { intros col Hin Hi. apply (elem_msg kn cols fs0 fs vec c c'); try done. exists col. split; [done|]. split; [done|].
    rewrite identity_not_list by done. by apply identity_changed. }
  unfold identified. rewrite Hoty, bool_decide_false by done. simpl. apply andb_true_iff. split; apply existsb_elem.
  - destruct (ps_type _ _ _ _ _ _ _ _ _ HP Hne) as [?|(col & Hin & Hk & Hv)]; [done|].
    exists (adapt names col). split; [apply Hmsg; [done|by rewrite Hk]|]. simpl. by rewrite Hk, Hv, !bool_decide_true.
  - destruct (well_formed_cols Hwf) as [_ (col & Hin & Hk)].
    exists (adapt names col). split; [apply Hmsg; [done|by rewrite Hk]|]. simpl. by rewrite Hk.
Qed.
End ParsedRow.

(** A row without type or name is a deletion. *)
Lemma process_malformed u cols st :
  fq_ok names (fq_name_cache st) → u ∈ dom (fq_name_cache st) → row_ok u cols → cache_ok u st →
  draft cols = false → well_formed cols = false →
  ∃ st', ProcessObjUUIDTableEntry u cols st = Ret (false, st') ∧
    object_cache_map st' = delete u (object_cache_map st) ∧ fq_name_cache st' = delete u (fq_name_cache st) ∧
    view (world st') u = ∅ ∧ ∀ u', u' ≠ u → view (world st') u' = view (world st) u'.
Proof.
  intros Hfq Hu Hrow Hc Hdr Hwf. destruct (mark_dirty u st Hc) as (e & fs0 & Hm & Hfe & HT & Hdirty & Hid & _).
  unfold ProcessObjUUIDTableEntry. rewrite Hm, lookup_insert_eq, Hfe.
  destruct (parse_row names (fq_name_cache st) cols fs0 [] new_Context) as (fs & vec & c & Hpr & HP);
    [done|by apply (tr_ordered _ _ _ HT)|by apply (ro_nodup _ _ Hrow)|by apply (ro_named _ _ Hrow)|].
  change (fq_name_cache (MarkCacheDirty u st)) with (fq_name_cache st). rewrite Hpr. cbn [mbind outcome_mbind].
  rewrite (ps_ignore _ _ _ _ _ _ _ _ _ HP), Hdr. cbn [ignore_object new_Context orb].
  rewrite (parsed_well_formed (dom (fq_name_cache st)) cols fs0 fs vec c HP), Hwf. cbn [negb].
  set (e2 := with_fields fs (DisableCassandraReadRetry e)). set (st2 := with_cache (<[u := e2]> _) _).
  destruct (delete_object u st2 e2) as (st' & -> & H1 & H2 & H3 & H4).
  - by apply elem_of_dom.
  - intros q Hq. by destruct (Hfq _ _ Hq) as [-> ?].
  - apply lookup_insert_eq.
  - intros k x Hx. change (view (world st2) u) with (view (world st) u) in Hx. split.
    + destruct (element k) eqn:He; [done|]. pose proof (tr_other _ _ _ HT k He). congruence.
    + destruct (find k fs0) as [f|] eqn:Ef; [|pose proof (tr_none _ _ _ HT k Ef); congruence].
      destruct (parsed_keeps _ _ _ _ _ _ HP k f Ef) as (f' & Hf' & _). by exists f'.
  - change (view (world st2) u) with (view (world st) u).
    destruct Hid as [?|[(ft & Ht & Hne) [fn Hn]]]; [by left|right].
    destruct (parsed_keeps _ _ _ _ _ _ HP _ _ Ht) as (ft' & Ht' & Hv).
    destruct (parsed_keeps _ _ _ _ _ _ HP _ _ Hn) as (fn' & Hn' & _).
    apply (deleted_identified false fs ft' fn'); [done|by rewrite Hv|done].
  - cbn [mbind outcome_mbind]. exists st'. split; [done|]. split; [|split; [done|split; [done|]]].
    + rewrite H1. simpl. by rewrite insert_insert_eq, delete_insert_eq.
    + done.
Qed.

(** The second part of reading a row, once its columns are parsed *)
Lemma push_row u cols st e fs0 fs vec c c' :
  let kn := dom (fq_name_cache st) in
  fq_ok names (fq_name_cache st) → row_ok u cols → well_formed cols = true →
  tracks u fs0 (view (world st) u) → (∀ k f, find k fs0 = Some f → refreshed f = false) →
  (∀ ft, find "type" fs0 = Some ft → unquote (f_value ft) ≠ ""%string) →
  Parsed names kn cols fs0 [] new_Context fs vec c →
  ListMapPropReviseUpdateList (candidate_list_map_properties c) fs c = Ret c' →
  object_cache_map st !! u = Some e → fields e = fs →
  ∃ st', HandleObjectDelete u true (GenerateAndPushJson u (ctx_obj_type c') (vec ++ updated_pairs c') true st) = Ret st' ∧
    object_cache_map st' = <[u := with_fields (kept_fields fs) e]> (object_cache_map st) ∧
    fq_name_cache st' = fq_name_cache st ∧
    obj_ok u (with_fields (kept_fields fs) e) (view (world st') u) ∧ view (world st') u = row_view names kn cols ∧
    ∀ u', u' ≠ u → view (world st') u' = view (world st) u'.
Proof using All.
  intros kn Hfq Hrow Hwf HT Hdirty Hty0 HP Hrev He Hfe.
  destruct (parsed_identity kn cols fs0 fs vec c HP Hwf Hty0) as [(ft & Hft & Hne) [fn Hfn]].
  destruct (revise_updates fs ft (ps_ordered _ _ _ _ _ _ _ _ _ HP) Hft (candidate_list_map_properties c) c)
    as (c1 & Hrev' & Hpairs & Hoty & Hup & Hdown & Hstale).
  { intros p Hp%set_mem_elem. apply (ps_candidate _ _ _ _ _ _ _ _ _ HP) in Hp as [?|(col & Hin & El & Hb & _)]; [done|].
    eexists (c_key col), _. split; [apply find_in, (ps_taken _ _ _ _ _ _ _ _ _ HP col Hin)|done]. }
  rewrite Hrev in Hrev'. simplify_eq Hrev'. intros <-. clear Hrev'.
  setoid_rewrite <- set_mem_elem in Hdown. setoid_rewrite <- set_mem_elem in Hstale.
  pose proof (msg_identified kn cols fs0 fs vec c HP c' Hwf Hpairs Hoty) as Hident.
  unfold HandleObjectDelete. cbn [andb negb]. simpl. rewrite He, Hfe. simpl.
  assert (∀ k, view (receive (world st) u (ctx_obj_type c') (vec ++ updated_pairs c') true
                 (IsListOrMapPropEmpty (object_cache_map st) u)) u !! k =
               after_add (vec ++ updated_pairs c') (view (world st) u) k) as Hadd by (intros k; by apply receive_add).
  assert (∀ v, obj_ok u (with_fields (kept_fields fs) e) (row_view names kn cols) ∧ v = row_view names kn cols →
               obj_ok u (with_fields (kept_fields fs) e) v ∧ v = row_view names kn cols) as Hgoal by (intros v [? ->]; done).
  assert (obj_ok u (with_fields (kept_fields fs) e) (row_view names kn cols)) as Hobj.
  { split; [by eapply row_tracks; try done; apply (tr_keys _ _ _ HT)|]. simpl.
    split; [exists ft|exists fn]; rewrite (find_kept kn cols fs0 fs vec c HP), ?Hft, ?Hfn; done. }
  eexists. split; [reflexivity|].
  destruct (need_notify true fs) eqn:En; simpl; (split; [done|]); (split; [done|]); rewrite (and_assoc (obj_ok _ _ _)); split.
  1, 3: apply Hgoal; split; [done|];
    eapply (row_messages u kn cols fs0 fs vec c c')
      with (m := <[u := with_fields (kept_fields fs) e]> (object_cache_map st)) (e := with_fields (kept_fields fs) e);
    try done; [by apply (tr_keys _ _ _ HT)|apply lookup_insert_eq|]; rewrite En; try done.
  - intros k. apply receive_del. by apply (deleted_identified true fs ft fn).
  - intros u' Hu'. rewrite !receive_other by done. done.
  - intros u' Hu'. rewrite !receive_other by done. done.
Qed.

(** A row of an object *)
Lemma process_row u cols st :
  fq_ok names (fq_name_cache st) → row_ok u cols → cache_ok u st →
  draft cols = false → well_formed cols = true →
  ∃ st' e', ProcessObjUUIDTableEntry u cols st = Ret (true, st') ∧
    object_cache_map st' = <[u := e']> (object_cache_map st) ∧ fq_name_cache st' = fq_name_cache st ∧
    obj_ok u e' (view (world st') u) ∧ view (world st') u = row_view names (dom (fq_name_cache st)) cols ∧
    IsRetryTimerRunning e' =
      existsb (λ col, negb (skipped (c_key col)) && unknown_ref (dom (fq_name_cache st)) (c_key col)) cols ∧
    ∀ u', u' ≠ u → view (world st') u' = view (world st) u'.
Proof using All.
  intros Hfq Hrow Hc Hdr Hwf. destruct (mark_dirty u st Hc) as (e & fs0 & Hm & Hfe & HT & Hdirty & _ & Hty0).
  unfold ProcessObjUUIDTableEntry. rewrite Hm, lookup_insert_eq, Hfe.
  destruct (parse_row names (fq_name_cache st) cols fs0 [] new_Context) as (fs & vec & c & Hpr & HP);
    [done|by apply (tr_ordered _ _ _ HT)|by apply (ro_nodup _ _ Hrow)|by apply (ro_named _ _ Hrow)|].
  change (fq_name_cache (MarkCacheDirty u st)) with (fq_name_cache st). rewrite Hpr. cbn [mbind outcome_mbind].
  rewrite (ps_ignore _ _ _ _ _ _ _ _ _ HP), Hdr. cbn [ignore_object new_Context orb].
  rewrite (parsed_well_formed (dom (fq_name_cache st)) cols fs0 fs vec c HP), Hwf. cbn [negb].
  destruct (parsed_identity _ cols fs0 fs vec c HP Hwf Hty0) as [(ft & Hft & _) _].
  destruct (revise_updates fs ft (ps_ordered _ _ _ _ _ _ _ _ _ HP) Hft (candidate_list_map_properties c) c) as (c' & Hrev & _).
  { intros p Hp%set_mem_elem. apply (ps_candidate _ _ _ _ _ _ _ _ _ HP) in Hp as [?|(col & Hin & El & Hb & _)]; [done|].
    eexists (c_key col), _. split; [apply find_in, (ps_taken _ _ _ _ _ _ _ _ _ HP col Hin)|done]. }
  rewrite Hrev. cbn [mbind outcome_mbind].
  set (e1 := if parent_or_ref_fq_name_unknown c then _ else _). set (st2 := with_cache (<[u := with_fields fs e1]> _) _).
  destruct (push_row u cols st2 (with_fields fs e1) fs0 fs vec c c') as (st' & -> & H1 & H2 & H3 & H4 & H5);
    try done; [apply lookup_insert_eq|].
  cbn [mbind outcome_mbind]. exists st', (with_fields (kept_fields fs) e1). split; [done|].
  split; [rewrite H1; simpl; by rewrite !insert_insert_eq|]. split; [done|]. split; [done|]. split; [done|]. split; [|done].
  pose proof (ps_unknown _ _ _ _ _ _ _ _ _ HP) as Hun. simpl in Hun. rewrite <- Hun. unfold e1.
  destruct (parent_or_ref_fq_name_unknown c); [done|]. unfold DisableCassandraReadRetry. simpl.
  by destruct (retry_timer e) as [[]|] eqn:Er; unfold IsRetryTimerRunning; simpl; rewrite ?Er.
Qed.

(** ** Sequences of reads and deletions *)
Context (home : string → bool).

(** What happens to a partition and to the names it shares: a row is read, an object is
    deleted or its row is missing, a name becomes known, is invalidated, or is purged by
    another partition, a retry timer fires. *)
Inductive op :=
| ORow (u : string) (cols : list Col)
| OGone (u : string)
| OName (u obj_type fq_name : string)
| OInvalidate (u : string)
| OPurge (u : string)
| ORetry (u : string).

Definition exec (o : op) st : outcome State :=
  match o with
  | ORow u cols => '(_, st) ← ProcessObjUUIDTableEntry u cols st; Ret st
  | OGone u => HandleObjectDelete u false st
  | OName u t n => Ret (with_fq (AddFQNameCache u t n (fq_name_cache st)) st)
  | OInvalidate u => Ret (with_fq (InvalidateFQNameCache u (fq_name_cache st)) st)
  | OPurge u => Ret (with_fq (PurgeFQNameCache u (fq_name_cache st)) st)
  | ORetry u =>
      Ret (match object_cache_map st !! u with
           | Some e => if IsRetryTimerRunning e
                       then with_cache (<[u := (CassReadRetryTimerExpired u e).2]> (object_cache_map st)) st else st
           | None => st
           end)
  end.
Fixpoint run (ops : list op) st : outcome State :=
  match ops with [] => Ret st | o :: ops => st ← exec o st; run ops st end.

(** The specification: the names that are known, and what each object was when it was read
    last *)
Record Spec := mkSpec { known : gset string; config : gmap string View }.
Definition config_of (a : Spec) (u : string) : View := default ∅ (config a !! u).
Definition spec_step (o : op) (a : Spec) : Spec :=
  match o with
  | ORow u cols =>
      if draft cols then mkSpec (known a ∖ {[u]}) (delete u (config a))
      else if well_formed cols then mkSpec (known a) (<[u := row_view names (known a) cols]> (config a))
      else mkSpec (known a ∖ {[u]}) (delete u (config a))
  | OGone u => if decide (u ∈ dom (config a)) then mkSpec (known a ∖ {[u]}) (delete u (config a)) else a
  | OName u _ _ => mkSpec ({[u]} ∪ known a) (config a)
  | OPurge u => mkSpec (known a ∖ {[u]}) (config a)
  | OInvalidate _ | ORetry _ => a
  end.
Definition spec_run (ops : list op) (a : Spec) : Spec := foldl (λ a o, spec_step o a) a ops.

(** What the database, the readers of names and the other partitions do: only objects whose
    name is known are read, a draft is one from the start, an object has one name, and
    another partition deletes other objects. *)
Definition op_ok (o : op) (a : Spec) : Prop :=
  match o with
  | ORow u cols => home u = true ∧ u ∈ known a ∧ row_ok u cols ∧ (draft cols = true → config_of a u = ∅)
  | OName u _ n => n = names u ∧ names u ≠ "ERROR"%string
  | OPurge u => home u = false
  | OGone _ | OInvalidate _ | ORetry _ => True
  end.
Fixpoint ops_ok (ops : list op) (a : Spec) : Prop :=
  match ops with [] => True | o :: ops => op_ok o a ∧ ops_ok ops (spec_step o a) end.

Record refines st (a : Spec) : Prop := {
  rf_fq : fq_ok names (fq_name_cache st);
  rf_known : dom (fq_name_cache st) = known a;
  rf_dom : dom (object_cache_map st) = dom (config a);
  rf_cache : ∀ u, cache_ok u st;
  rf_view : ∀ u, view (world st) u = config_of a u;
  rf_home : ∀ u, u ∈ dom (config a) → home u = true ∧ u ∈ known a;
}.

Lemma fq_ok_delete u fq : fq_ok names fq → fq_ok names (delete u fq).
Proof. intros H u' e [_ He]%lookup_delete_Some. by apply H. Qed.

Lemma cache_ok_same u st st' :
  object_cache_map st' !! u = object_cache_map st !! u → view (world st') u = view (world st) u →
  cache_ok u st → cache_ok u st'.
Proof. unfold cache_ok. by intros -> ->. Qed.

Lemma config_of_delete a u u' k : config_of (mkSpec k (delete u (config a))) u' = if decide (u' = u) then ∅ else config_of a u'.
Proof.
  unfold config_of. simpl. case_decide; [subst; by rewrite lookup_delete_eq|by rewrite lookup_delete_ne].
Qed.

(** An object that leaves the cache *)
Lemma refines_gone st st' a u :
  refines st a → object_cache_map st' = delete u (object_cache_map st) → fq_name_cache st' = delete u (fq_name_cache st) →
  view (world st') u = ∅ → (∀ u', u' ≠ u → view (world st') u' = view (world st) u') →
  refines st' (mkSpec (known a ∖ {[u]}) (delete u (config a))).
Proof.
  intros [R1 R2 R3 R4 R5 R6] Hc Hf Hv Ho. split; simpl.
  - rewrite Hf. by apply fq_ok_delete.
  - rewrite Hf, dom_delete_L. set_solver.
  - rewrite Hc, !dom_delete_L. set_solver.
  - intros u'. destruct (decide (u' = u)) as [->|Hne].
    + unfold cache_ok. by rewrite Hc, lookup_delete_eq.
    + apply (cache_ok_same u' st); [by rewrite Hc, lookup_delete_ne|auto|auto].
  - intros u'. rewrite config_of_delete. case_decide; [by subst|]. rewrite Ho by done. apply R5.
  - intros u' Hu'. rewrite dom_delete_L in Hu'. apply elem_of_difference in Hu' as [H1 H2].
    destruct (R6 u' H1). set_solver.
Qed.

Lemma refines_row st a u cols :
  refines st a → op_ok (ORow u cols) a → ∃ st', exec (ORow u cols) st = Ret st' ∧ refines st' (spec_step (ORow u cols) a).
Proof using All.
  intros HR (Hh & Hk & Hrow & Hdraft). pose proof HR as [R1 R2 R3 R4 R5 R6]. simpl.
  destruct (draft cols) eqn:Edr.
  - destruct (mark_dirty u st (R4 u)) as (e & fs0 & Hm & Hfe & HT & _).
    unfold ProcessObjUUIDTableEntry. rewrite Hm, lookup_insert_eq, Hfe.
    destruct (parse_row names (fq_name_cache st) cols fs0 [] new_Context) as (fs & vec & c & Hpr & HP);
      [done|by apply (tr_ordered _ _ _ HT)|by apply (ro_nodup _ _ Hrow)|by apply (ro_named _ _ Hrow)|].
    change (fq_name_cache (MarkCacheDirty u st)) with (fq_name_cache st). rewrite Hpr. cbn [mbind outcome_mbind].
    rewrite (ps_ignore _ _ _ _ _ _ _ _ _ HP), Edr, orb_true_r. simpl. eexists. split; [done|].
    apply (refines_gone st); simpl; auto; [by rewrite delete_insert_eq|]. rewrite R5. auto.
  - destruct (well_formed cols) eqn:Ewf.
    + destruct (process_row u cols st R1 Hrow (R4 u) Edr Ewf) as (st' & e' & -> & H1 & H2 & H3 & H4 & _ & H5).
      simpl. exists st'. split; [done|]. rewrite R2 in H4. split; simpl; try (by rewrite H2).
      * by rewrite H1, !dom_insert_L, R3.
      * intros u'. destruct (decide (u' = u)) as [->|Hne].
        -- unfold cache_ok. by rewrite H1, lookup_insert_eq.
        -- apply (cache_ok_same u' st); [by rewrite H1, lookup_insert_ne|auto|auto].
      * intros u'. unfold config_of. simpl. destruct (decide (u' = u)) as [->|Hne].
        -- by rewrite lookup_insert_eq.
        -- rewrite lookup_insert_ne by done. rewrite H5 by done. apply R5.
      * intros u'. rewrite dom_insert_L, elem_of_union, elem_of_singleton. intros [->|?]; auto.
    + destruct (process_malformed u cols st R1) as (st' & -> & H1 & H2 & H3 & H4); [by rewrite R2|done..|].
      simpl. exists st'. split; [done|]. by apply (refines_gone st).
Qed.

Lemma refines_gone_step st a u : refines st a → ∃ st', exec (OGone u) st = Ret st' ∧ refines st' (spec_step (OGone u) a).
Proof using All.
  intros HR. pose proof HR as [R1 R2 R3 R4 R5 R6]. simpl. case_decide as Hd.
  - destruct (R6 u Hd) as [_ Hk]. rewrite <- R3 in Hd. apply elem_of_dom in Hd as [e He].
    pose proof (R4 u) as Hc. unfold cache_ok in Hc. rewrite He in Hc. destruct Hc as (HT & (ft & Hft & Hne) & [fn Hfn]).
    destruct (delete_object u st e) as (st' & -> & H1 & H2 & H3 & H4); [| |done| | |].
    + apply elem_of_dom. by rewrite R2.
    + intros q Hq. by destruct (R1 _ _ Hq) as [-> ?].
    + intros k x Hx. split.
      * destruct (element k) eqn:Hel; [done|]. pose proof (tr_other _ _ _ HT k Hel). congruence.
      * destruct (find k (fields e)) eqn:Ef; [done|]. pose proof (tr_none _ _ _ HT k Ef). congruence.
    + right. by apply (deleted_identified false _ ft fn).
    + exists st'. split; [done|]. by apply (refines_gone st).
  - exists st. split; [|done]. rewrite <- R3 in Hd. apply not_elem_of_dom in Hd.
    unfold HandleObjectDelete. rewrite Hd. by destruct (_ && _).
Qed.

Lemma refines_step st a o : refines st a → op_ok o a → ∃ st', exec o st = Ret st' ∧ refines st' (spec_step o a).
Proof using All.
  intros HR Hok. destruct o as [u cols|u|u t n|u|u|u]; [by apply refines_row|by apply refines_gone_step|..];
    pose proof HR as [R1 R2 R3 R4 R5 R6]; eexists; (split; [reflexivity|]); simpl.
  - destruct Hok as [-> Hne]. unfold AddFQNameCache. destruct (fq_name_cache st !! u) as [q|] eqn:E.
    + split; simpl; auto; [rewrite R2; apply elem_of_dom_2 in E; rewrite R2 in E; set_solver|].
      intros u' Hu'. destruct (R6 u' Hu'). set_solver.
    + split; simpl; auto.
      * intros u' e'. destruct (decide (u' = u)) as [->|?].
        -- rewrite lookup_insert_eq. intros ?. by simplify_eq/=.
        -- rewrite lookup_insert_ne by done. apply R1.
      * rewrite dom_insert_L, R2. done.
      * intros u' Hu'. destruct (R6 u' Hu'). set_solver.
  - unfold InvalidateFQNameCache. destruct (fq_name_cache st !! u) as [q|] eqn:E; split; simpl; auto.
    + intros u' e'. destruct (decide (u' = u)) as [->|?].
      * rewrite lookup_insert_eq. intros ?. simplify_eq/=. by apply R1.
      * rewrite lookup_insert_ne by done. apply R1.
    + rewrite dom_insert_L, R2. apply elem_of_dom_2 in E. set_solver.
  - simpl in Hok. unfold PurgeFQNameCache. split; simpl; auto.
    + by apply fq_ok_delete.
    + rewrite dom_delete_L, R2. done.
    + intros u' Hu'. destruct (R6 u' Hu') as [Hh ?]. split; [done|].
      apply elem_of_difference. split; [done|]. intros ->%elem_of_singleton. congruence.
  - destruct (object_cache_map st !! u) as [e|] eqn:E; [|done]. destruct (IsRetryTimerRunning e); [|done].
    split; simpl; auto.
    + rewrite dom_insert_L, R3. apply elem_of_dom_2 in E. rewrite R3 in E. set_solver.
    + intros u'. pose proof (R4 u') as Hc. unfold cache_ok in *. simpl. destruct (decide (u' = u)) as [->|?].
      * rewrite lookup_insert_eq. by rewrite E in Hc.
      * by rewrite lookup_insert_ne.
Qed.

Lemma refines_run ops : ∀ st a, refines st a → ops_ok ops a → ∃ st', run ops st = Ret st' ∧ refines st' (spec_run ops a).
Proof using All.
  induction ops as [|o ops IH]; intros st a HR Hok; [by exists st|]. destruct Hok as [Ho Hok].
  destruct (refines_step st a o HR Ho) as (st1 & Hx & HR1). simpl. rewrite Hx. by apply IH.
Qed.
End Objects.
End Tracking.

(** ** A consumer *)

(** One that keeps what the laws say *)
Definition tabulate (ks : gset string) (f : string → option (string * string)) : View :=
  map_imap (λ k _, f k) (gset_to_gmap tt ks).

Lemma lookup_tabulate ks f k : (k ∉ ks → f k = None) → tabulate ks f !! k = f k.
Proof.
  intros Hn. unfold tabulate. rewrite map_lookup_imap, lookup_gset_to_gmap.
  destruct (decide (k ∈ ks)) as [Hin|Hout].
  - by rewrite option_guard_True.
  - rewrite option_guard_False by done. simpl. by rewrite Hn.
Qed.

Abbreviation Keeper := (gmap string View).
Definition keeper_view (w : Keeper) (u : string) : View := default ∅ (w !! u).
Definition keeper_receive (w : Keeper) (u t : string) (vec : list Adapter) (add : bool) (empty : string → bool) : Keeper :=
  if identified t vec then
    let v := keeper_view w u in
    <[u := tabulate (list_to_set (key <$> vec) ∪ dom v) (if add then after_add vec v else after_del empty vec v)]> w
  else w.
#[export] Instance Keeper_consumer : Consumer Keeper := {| receive := keeper_receive; view := keeper_view |}.

Lemma keeper_same w u t vec add empty k :
  identified t vec = true →
  keeper_view (keeper_receive w u t vec add empty) u !! k =
  (if add then after_add vec (keeper_view w u) else after_del empty vec (keeper_view w u)) k.
Proof.
  intros Hid. unfold keeper_receive. rewrite Hid. unfold keeper_view at 1. rewrite lookup_insert_eq. simpl.
  apply lookup_tabulate. intros Hk. rewrite elem_of_union, elem_of_list_to_set, elem_of_dom in Hk.
  assert (keeper_view w u !! k = None) as Hv by (apply eq_None_not_Some; tauto).
  assert (last_of vec k = None) as Hl.
  { apply last_of_none. intros a Ha <-. apply Hk. left. by apply (list_elem_of_fmap_2 key). }
  destruct add; [unfold after_add|unfold after_del]; rewrite ?Hl, ?Hv; repeat case_match; done.
Qed.

#[export] Instance Keeper_laws : ConsumerLaws Keeper.
Proof.
  split; simpl.
  - intros w u t vec add empty u' Hne. unfold keeper_receive. destruct (identified t vec); [|done].
    unfold keeper_view. by rewrite lookup_insert_ne.
  - intros w u t vec empty k Hid. by rewrite (keeper_same w u t vec true).
  - intros w u t vec empty k Hid. by rewrite (keeper_same w u t vec false).
  - intros w u t vec empty. destruct (identified t vec) eqn:Hid.
    + apply map_subseteq_spec. intros k x. rewrite (keeper_same w u t vec false) by done.
      unfold after_del. by repeat case_match.
    + unfold keeper_receive. by rewrite Hid.
Qed.

(** The state at the start *)
Lemma refines_init {W : Type} `{!Consumer W} names written schema home (st : State (W := W)) :
  object_cache_map st = ∅ → fq_name_cache st = ∅ → (∀ u, view (world st) u = ∅) →
  refines names written schema home st (mkSpec ∅ ∅).
Proof.
  intros Hc Hf Hv. split; simpl.
  - intros u e. by rewrite Hf.
  - by rewrite Hf, dom_empty_L.
  - by rewrite Hc, !dom_empty_L.
  - intros u. unfold cache_ok. by rewrite Hc, lookup_empty.
  - intros u. by rewrite Hv.
  - intros u Hu. by rewrite dom_empty_L in Hu.
Qed.

(** ** The theorem *)


(** An object with a reference that is not known yet and a list, read again when the
    reference is known and one pair of the list is gone *)
Definition ex_names (u : string) : string := "dom:" +:+ u.
Definition ex_written (_ k : string) (ts : Z) : string :=
  (if decide (k = "type"%string) then "vn" else if decide (k = "fq_name"%string) then "[a]" else "v")%string.
Definition ex_schema (t m : string) : Prop := t = list_prop_prefix ∧ m = "routes"%string.
Definition ex_row (two : bool) : list Col :=
  [mkCol "fq_name" "[a]" 1; mkCol "prop:x" "v" 3; mkCol "propl:routes:0" "v" 4] ++
  (if two then [mkCol "propl:routes:1" "v" 5] else []) ++ [mkCol "ref:vn:u2" "v" 6; mkCol "type" "vn" 2].
Definition ex_ops : list op :=
  [OName "u1" "vn" "dom:u1"; ORow "u1" (ex_row true); OName "u2" "vn" "dom:u2"; ORetry "u1"; ORow "u1" (ex_row false)].
Definition ex_state : State (W := Keeper) := mkState ∅ [] ∅ 0 false 0 ∅.

Lemma ex_row_ok two : row_ok ex_written ex_schema "u1" (ex_row two).
Proof.
  assert (∀ k, k ∈ c_key <$> ex_row two → key_ok ex_schema k) as Hk.
  { intros k Hk. destruct two; repeat (apply elem_of_cons in Hk as [->|Hk]; [intros H; try discriminate H; done|]);
    by apply elem_of_nil in Hk. }
  split.
  - destruct two; by apply (bool_decide_unpack _).
  - intros col Hin Hn. destruct two; repeat (apply elem_of_cons in Hin as [->|Hin]; [done|]); by apply elem_of_nil in Hin.
  - intros col Hin _. destruct two; repeat (apply elem_of_cons in Hin as [->|Hin]; [done|]); by apply elem_of_nil in Hin.
  - intros col Hin. apply Hk. by apply list_elem_of_fmap_2.
Qed.


(** ** Where the code differs from what it means to do *)

(** A property without pairs is not empty when the name of another one starts with its name. *)
Lemma empty_answer_confused :
  IsListOrMapPropEmpty {[ "u"%string := mkEntry "" "" 0 0 None [("propl:routes_v6:0"%string, mkField "v" "" 1 true)] ]}
    "u" "routes" = false.
Proof. reflexivity. Qed.

(** The deletion of an object that has only a type and a name is not pushed. *)
Lemma bare_object_not_deleted {W} `{!Consumer W} (w : W) :
  let fs := [("fq_name"%string, mkField "[a]" "" 1 true); ("type"%string, mkField "vn" "" 1 true)] in
  ∃ st', HandleObjectDelete "u" false
           (mkState {[ "u"%string := mkEntry "vn" "a" 0 0 None fs ]} [] {[ "u"%string := mkFQ "vn" "a" false ]} 0 false 0 w) = Ret st' ∧
    object_cache_map st' !! "u"%string = None ∧ world st' = w.
Proof. intros fs. eexists. split; [reflexivity|]. split; [|done]. reflexivity. Qed.

(** The name of an object that is deleted before it was read stays in the cache. *)
Lemma unread_object_keeps_name {W} `{!Consumer W} (st : State (W := W)) u :
  object_cache_map st !! u = None → HandleObjectDelete u false st = Ret st.
Proof. intros H. unfold HandleObjectDelete. rewrite H. by destruct (_ && _). Qed.

(** A row whose name is empty ends the process. *)
Lemma empty_name_aborts {W} `{!Consumer W} (st : State (W := W)) u :
  object_cache_map st !! u = None → ProcessObjUUIDTableEntry u [mkCol "fq_name" "" 1] st = Abort.
Proof.
  intros H. unfold ProcessObjUUIDTableEntry, MarkCacheDirty. rewrite H. simpl. by rewrite lookup_insert_eq.
Qed.

End CCT.
