(* ===== verification/ConfigReader.v ===== *)
(** * Requests and bulk reading: src/config-client-mgr/config_cassandra_client.cc

    A request names an object and what happened to it.  The requests for the objects of a
    partition wait in its read set, one for each object; the task [ConfigReader] handles
    them, reading rows in bunches, and gives way after a number of them.  At the start
    [FQNameReader] walks the table of names, page by page, and requests every object.

    The database and the moment at which the manager asks for a new start are arguments: the
    answer to a read by its number, and [is_reinit_triggered] by the number of the time it is
    asked in the task. *)

From Stdlib Require Import Ascii String.
From stdpp Require Import gmap list strings.
From S2P Require Import Prelude OrderedMap ConfigCassandra.
Open Scope Z_scope.

Module CR.
Import OM CC.

Section Reader.
Context {W : Type} `{!Consumer W}.
Implicit Types (st : State (W := W)).

(** What the database answers to a request for rows: [None] when the read fails *)
Definition Rows : Type := option (list (string * list Col)).

(** ** The read set *)

(** [AddUUIDToRequestList]: the state, and whether the reader is triggered *)
Definition AddUUIDToRequestList (oper obj_type u : string) st : bool * State :=
  match find u (uuid_read_set st) with
  | None => (bool_decide (uuid_read_set st = []),
             with_reads (insert_new u (mkReq oper obj_type u) (uuid_read_set st)) st)
  | Some r => (false, with_reads (assign u (mkReq oper (r_obj_type r) u) (uuid_read_set st)) st)
  end.

(** An entry that is not there would be the end of the map. *)
Definition RemoveObjReqEntry (u : string) st : outcome State :=
  match find u (uuid_read_set st) with
  | None => Abort
  | Some _ => Ret (with_reads (erase u (uuid_read_set st)) st)
  end.
Fixpoint RemoveObjReqEntries (l : list string) st : outcome State :=
  match l with
  | [] => Ret st
  | u :: l => st ← RemoveObjReqEntry u st; RemoveObjReqEntries l st
  end.

(** ** Reading rows *)

Fixpoint read_rows (rows : list (string * list Col)) (rest : sset) st : outcome (sset * State) :=
  match rows with
  | [] => Ret (rest, st)
  | (u, cols) :: rows =>
      if bool_decide (length cols = 0%nat) then read_rows rows rest st
      else
        '(_, st) ← ProcessObjUUIDTableEntry u cols st;
        read_rows rows (erase u rest) st
  end.
Fixpoint delete_rows (l : list string) st : outcome State :=
  match l with
  | [] => Ret st
  | u :: l => st ← HandleObjectDelete u false st; delete_rows l st
  end.

(** [ReadObjUUIDTable] *)
Definition ReadObjUUIDTable (answer : Rows) (req_list : sset) st : outcome (bool * State) :=
  match answer with
  | None => Ret (false, st)
  | Some rows =>
      '(rest, st) ← read_rows rows req_list st;
      st ← delete_rows rest.*1 st;
      Ret (true, st)
  end.

(** ** The end of the bulk read *)

(** [ConfigClientManager::EndOfConfig] *)
Definition EndOfConfig st : outcome State :=
  assert_that (negb (end_of_rib_computed st));; Ret (with_sync (bulk_sync_status st) true st).
Definition BulkSyncDone st : outcome State :=
  let n := bulk_sync_status st in
  let st := with_sync (n - 1) (end_of_rib_computed st) st in
  if n =? 1 then EndOfConfig st else Ret st.

(** ** The reader task *)
Context (database : nat → list string → Rows) (reinit : nat → bool) (bunch max_yield : Z).

Definition reads_row (oper : string) : bool :=
  bool_decide (oper = "CREATE"%string) || bool_decide (oper = "UPDATE"%string) || bool_decide (oper = "UPDATE-IMPLICIT"%string).

(** How the loop of [ConfigReader] ends: the task gives way, or it goes on with the objects
    that are still to be read.  The numbers are those of the next question for a new start
    and of the next read. *)
Inductive Ended :=
| Yields (st : State (W := W))
| Falls (st : State (W := W)) (bunch_req_list : sset) (i r : nat).

(** A request that is not a read *)
Definition handle_other (req : Request) st : outcome State :=
  if bool_decide (oper req = "DELETE"%string) then HandleObjectDelete (uuid req) false st
  else if bool_decide (oper req = "EndOfConfig"%string) then BulkSyncDone st
  else Ret st.

Fixpoint reader_loop (it : list (string * Request)) (bl : sset) (handled : Z) (i r : nat) st : outcome Ended :=
  match it with
  | [] => Ret (Falls st bl i r)
  | (_, req) :: it =>
      if reinit i then Ret (Falls st bl (S i) r)
      else if reads_row (oper req) then
        let bl := set_insert (uuid req) bl in
        if bool_decide (it = []) || (Z.of_nat (length bl) =? bunch) then
          '(ok, st) ← ReadObjUUIDTable (database r bl.*1) bl st;
          if negb ok then Ret (Yields st)
          else
            let handled := handled + Z.of_nat (length bl) in
            st ← RemoveObjReqEntries bl.*1 st;
            if handled >=? max_yield then Ret (Yields st) else reader_loop it [] handled (S i) (S r) st
        else reader_loop it bl handled (S i) r st
      else
        st ← handle_other req st;
        st ← RemoveObjReqEntry (uuid req) st;
        if handled + 1 =? max_yield then Ret (Yields st) else reader_loop it bl (handled + 1) (S i) r st
  end.

(** [ConfigReader]: whether the task is done *)
Definition ConfigReader st : outcome (bool * State) :=
  e ← reader_loop (uuid_read_set st) [] 0 0 0 st;
  match e with
  | Yields st => Ret (false, st)
  | Falls st bl i r =>
      let finish (i : nat) st :=
        let st := if reinit i then with_reads [] st else st in
        assert_that (bool_decide (uuid_read_set st = []));; Ret (true, st) in
      if bool_decide (bl = []) then finish i st
      else if reinit i then finish (S i) st
      else
        '(ok, st) ← ReadObjUUIDTable (database r bl.*1) bl st;
        if negb ok then Ret (false, st)
        else
          st ← RemoveObjReqEntries bl.*1 st;
          finish (S i) st
  end.
End Reader.

(** ** The names *)

Definition FetchUUIDFromFQNameEntry (key : string) : string :=
  match find_last key with Some i => drop_str (S i) key | None => "" end.

(** [UpdateFQNameCache] and the loop of [ParseFQNameRowGetUUIDList] over the columns: the
    names, the objects of the page and the last column *)
Definition UpdateFQNameCache (key obj_type : string) (fq : gmap string FQNameCacheType) (l : list (string * string)) :
    gmap string FQNameCacheType * list (string * string) :=
  let u := FetchUUIDFromFQNameEntry key in
  if bool_decide (u = ""%string) then (fq, l)
  else (AddFQNameCache u obj_type (before_last key) fq, l ++ [(obj_type, u)]).
Fixpoint ParseFQNameRowGetUUIDList (obj_type : string) (cols : list string) (fq : gmap string FQNameCacheType)
    (l : list (string * string)) (last_column : string) : gmap string FQNameCacheType * list (string * string) * string :=
  match cols with
  | [] => (fq, l, last_column)
  | key :: cols =>
      let '(fq, l) := UpdateFQNameCache key obj_type fq l in
      ParseFQNameRowGetUUIDList obj_type cols fq l key
  end.

Section Names.
(** The answer to a read by its number, the type, the column to start after, and the count *)
Context (get_row : nat → string → option string → nat → option (list string)) (reinit : nat → bool) (count : nat).

(** The loop over the pages of a type.  The result has the requests and the number of the
    next read; [None] when a new start was asked for.  The loop has no bound. *)
Fixpoint read_pages (fuel : nat) (obj_type column_name : string) (fq : gmap string FQNameCacheType)
    (reqs : list Request) (r : nat) : option (gmap string FQNameCacheType * list Request * nat * bool) :=
  match fuel with
  | O => None
  | S fuel =>
      if reinit r then Some (fq, reqs, r, false)
      else
        match get_row r obj_type (if bool_decide (column_name = ""%string) then None else Some column_name) count with
        | None => read_pages fuel obj_type column_name fq reqs (S r)
        | Some [] => Some (fq, reqs, S r, true)
        | Some cols =>
            let '(fq, l, last_column) := ParseFQNameRowGetUUIDList obj_type cols fq [] "" in
            let reqs := reqs ++ ((λ p, mkReq "CREATE" p.1 p.2) <$> l) in
            if (length cols <? count)%nat then Some (fq, reqs, S r, true)
            else read_pages fuel obj_type last_column fq reqs (S r)
        end
  end.

(** [FQNameReader], over the types to read: whether it came to the end *)
Fixpoint FQNameReader (fuel : nat) (types : list string) (fq : gmap string FQNameCacheType)
    (reqs : list Request) (r : nat) : option (gmap string FQNameCacheType * list Request * bool) :=
  match types with
  | [] => Some (fq, reqs, true)
  | t :: types =>
      match read_pages fuel t "" fq reqs r with
      | None => None
      | Some (fq, reqs, r, true) => FQNameReader fuel types fq reqs r
      | Some (fq, reqs, r, false) => Some (fq, reqs, false)
      end
  end.
End Names.

(** The requests of a partition: those the hash gives it, and the end *)
Definition requests_of (hash : string → Z) (num_workers idx : Z) (reqs : list Request) (complete : bool) : list Request :=
  filter (λ q, hash (uuid q) mod num_workers = idx) reqs ++ (if complete then [mkReq "EndOfConfig" "" ""] else []).

End CR.
