(* ===== verification/ConfigReaderThms.v ===== *)
(** * The reader serves every request, and the names are read once each

    [reader_loop_ok] follows the loop of [ConfigReader]: no assertion fails, no entry that is
    not there is removed, and a request that has left the read set has been served.  The
    reading of names in pages is that of the whole table. *)

From Stdlib Require Import Ascii String.
From stdpp Require Import gmap list strings sorting.
From S2P Require Import Prelude OrderedMap ConfigCassandra ConfigCassandraThms ConfigReader.
Open Scope Z_scope.

Module CRT.
Import OM CC CCT CR.

Section Reader.
Context {W : Type} `{!Consumer W, !ConsumerLaws W}.
Context (names : string → string) (written : string → string → Z → string) (schema : string → string → Prop).
Context (Hschema : schema_ok schema) (home : string → bool).
(** The rows of the database; an object without one has no columns. *)
Context (row : string → list Col).
Context (Hrows : ∀ u, row u ≠ [] → row_ok written schema u (row u)).
Implicit Types (st : State (W := W)) (a : Spec).

Abbreviation refines := (refines names written schema home).

(** What the consumer is to have of an object, with the names that are known *)
Definition expected (kn : gset string) (u : string) : View :=
  if bool_decide (row u = []) || draft (row u) || negb (well_formed (row u)) then ∅ else row_view names kn (row u).

(** Only the objects of a set have changed. *)
Definition evolves (U : gset string) a a' : Prop :=
  known a' ⊆ known a ∧ known a ∖ U ⊆ known a' ∧ ∀ u, u ∉ U → config a' !! u = config a !! u.

Lemma evolves_refl a : evolves ∅ a a.
Proof. unfold evolves. set_solver. Qed.

Lemma evolves_trans U1 U2 a a1 a2 : evolves U1 a a1 → evolves U2 a1 a2 → evolves (U1 ∪ U2) a a2.
Proof.
  intros (A1 & A2 & A3) (B1 & B2 & B3). split; [set_solver|]. split; [set_solver|].
  intros u Hu. rewrite B3, A3; set_solver.
Qed.

Lemma evolves_mono U U' a a' : U ⊆ U' → evolves U a a' → evolves U' a a'.
Proof. intros HU (A1 & A2 & A3). split; [done|]. split; [set_solver|]. intros u Hu. apply A3. set_solver. Qed.

(** The parts of the state that belong to the requests *)
Definition same_reads st st' : Prop :=
  uuid_read_set st' = uuid_read_set st ∧ bulk_sync_status st' = bulk_sync_status st ∧
  end_of_rib_computed st' = end_of_rib_computed st.

Lemma delete_same_reads u add st st' : HandleObjectDelete u add st = Ret st' → same_reads st st'.
Proof.
  unfold HandleObjectDelete. destruct (_ && _); [intros ?; by simplify_eq|].
  destruct (object_cache_map st !! u); [|destruct add; simpl; intros ?; by simplify_eq/=].
  intros ?. simplify_eq. destruct add, (need_notify _ _); done.
Qed.

Lemma process_same_reads u cols st b st' : ProcessObjUUIDTableEntry u cols st = Ret (b, st') → same_reads st st'.
Proof.
  unfold ProcessObjUUIDTableEntry. destruct (object_cache_map (MarkCacheDirty u st) !! u) as [e|]; [|done].
  intros ([[fs vec] c] & _ & H)%outcome_bind_ret. destruct (ignore_object c); [by simplify_eq|].
  destruct (_ || _).
  - apply outcome_bind_ret in H as (st1 & H1 & H). simplify_eq. by apply delete_same_reads in H1.
  - apply outcome_bind_ret in H as (c' & _ & H). apply outcome_bind_ret in H as (st1 & H1 & H). simplify_eq.
    by apply delete_same_reads in H1.
Qed.

Lemma same_reads_trans st st1 st2 : same_reads st st1 → same_reads st1 st2 → same_reads st st2.
Proof. unfold same_reads. intros (-> & -> & ->) (-> & -> & ->). done. Qed.

(** What a request to read needs: the object is of this partition and its name is known. *)
Definition readable a (u : string) : Prop :=
  home u = true ∧ u ∈ known a ∧ (draft (row u) = true → config_of a u = ∅).

Lemma readable_evolves U a a' u : evolves U a a' → u ∉ U → readable a u → readable a' u.
Proof.
  intros (E1 & E2 & E3) Hu (Hh & Hk & Hd). split; [done|]. split; [set_solver|]. unfold config_of. by rewrite E3.
Qed.

Lemma row_step u st a :
  refines st a → readable a u → row u ≠ [] →
  ∃ b st' a', ProcessObjUUIDTableEntry u (row u) st = Ret (b, st') ∧ refines st' a' ∧ evolves {[u]} a a' ∧
    config_of a' u = expected (known a) u ∧ same_reads st st'.
Proof using All.
  intros HR (Hh & Hk & Hd) Hne.
  destruct (refines_row names written schema Hschema home st a u (row u) HR) as (st' & Hx & HR'); [split_and!; auto|].
  cbn [exec] in Hx. apply outcome_bind_ret in Hx as ([b st1] & Hx & Heq). simplify_eq.
  exists b, st', (spec_step names (ORow u (row u)) a). split; [done|]. split; [done|].
  split; [|split; [|by apply process_same_reads in Hx]]; simpl; unfold expected;
    rewrite ?(bool_decide_false (row u = [])) by done; simpl.
  - destruct (draft (row u)), (well_formed (row u)); simpl;
      (split; [set_solver|]; split; [set_solver|]; simpl; intros u' Hu';
       rewrite ?lookup_delete_ne, ?lookup_insert_ne; set_solver).
  - destruct (draft (row u)); simpl; [by rewrite config_of_delete, decide_True|].
    destruct (well_formed (row u)); simpl; [|by rewrite config_of_delete, decide_True].
    unfold config_of. simpl. by rewrite lookup_insert_eq.
Qed.

Lemma gone_step u st a :
  refines st a →
  ∃ st' a', HandleObjectDelete u false st = Ret st' ∧ refines st' a' ∧ evolves {[u]} a a' ∧ config_of a' u = ∅ ∧ same_reads st st'.
Proof using All.
  intros HR. destruct (refines_gone_step names written schema Hschema home st a u HR) as (st' & Hx & HR').
  exists st', (spec_step names (OGone u) a). split; [done|]. split; [done|].
  split; [|split; [|by eapply delete_same_reads]]; simpl.
  - case_decide; (split; [set_solver|]; split; [set_solver|]; simpl; intros u' Hu';
       rewrite ?lookup_delete_ne; set_solver).
  - case_decide as Hd; [by rewrite config_of_delete, decide_True|].
    unfold config_of. apply not_elem_of_dom in Hd. by rewrite Hd.
Qed.

(** An object was read when these were the names between the two. *)
Definition was_read a a' (u : string) : Prop :=
  ∃ kn, known a' ⊆ kn ∧ kn ⊆ known a ∧ config_of a' u = expected kn u.

Lemma was_read_later U a a1 a2 u : was_read a a1 u → evolves U a1 a2 → u ∉ U → was_read a a2 u.
Proof.
  intros (kn & K1 & K2 & K3) (E1 & _ & E3) Hu. exists kn. split; [set_solver|]. split; [done|].
  rewrite <- K3. unfold config_of. by rewrite E3.
Qed.

Lemma was_read_earlier a a1 a2 u : known a1 ⊆ known a → was_read a1 a2 u → was_read a a2 u.
Proof. intros Hk (kn & K1 & K2 & K3). exists kn. split; [done|]. split; [set_solver|done]. Qed.

Lemma read_rows_ok rows : ∀ rest st a,
  NoDup rows.*1 → (∀ u cols, (u, cols) ∈ rows → cols = row u ∧ readable a u) → refines st a →
  ∃ rest' st' a', read_rows rows rest st = Ret (rest', st') ∧ refines st' a' ∧ evolves (list_to_set rows.*1) a a' ∧
    (∀ u, u ∈ rows.*1 → row u ≠ [] → was_read a a' u) ∧
    (∀ u, u ∈ rest'.*1 ↔ u ∈ rest.*1 ∧ ¬ (u ∈ rows.*1 ∧ row u ≠ [])) ∧ same_reads st st'.
Proof using All.
  induction rows as [|[u cols] rows IH]; intros rest st a Hnd Hrw HR.
  { exists rest, st, a. simpl. split_and!; try done; [apply evolves_refl|by intros u Hu%elem_of_nil|].
    intros u. split; [|tauto]. intros Hu. split; [done|]. intros [Hx _]. by apply elem_of_nil in Hx. }
  simpl in Hnd. apply NoDup_cons in Hnd as [Hu Hnd]. destruct (Hrw u cols) as [-> Hre]; [by left|]. simpl.
  case_bool_decide as Hlen.
  - apply nil_length_inv in Hlen.
    destruct (IH rest st a) as (rest' & st' & a' & -> & HR' & HE & HW & HI & HS); [done|intros ? ? ?; apply Hrw; by right|done|].
    clear Hrw. exists rest', st', a'. split_and!; try done.
    + by apply (evolves_mono (list_to_set rows.*1)); [simpl; apply union_subseteq_r|].
    + intros u' [->|?]%elem_of_cons ?; [done|auto].
    + intros u'. rewrite HI, elem_of_cons. naive_solver.
  - assert (row u ≠ []) as Hne by (intros Hx; by rewrite Hx in Hlen).
    destruct (row_step u st a HR Hre Hne) as (b & st1 & a1 & -> & HR1 & HE1 & HC1 & HS1). cbn [mbind outcome_mbind].
    destruct (IH (erase u rest) st1 a1) as (rest' & st' & a' & -> & HR' & HE & HW & HI & HS); [done| |done|].
    { intros u' cols' Hin. destruct (Hrw u' cols') as [-> Hre']; [by right|]. split; [done|].
      apply (readable_evolves {[u]} a); [done| |done]. apply not_elem_of_singleton. intros ->.
      apply Hu. by apply (list_elem_of_fmap_2 fst) in Hin. }
    clear Hrw. exists rest', st', a'. split_and!; try done.
    + by eapply (evolves_trans {[u]}).
    + intros u' [->|Hu']%elem_of_cons Hne'.
      * apply (was_read_later (list_to_set rows.*1) a a1); [|done|by rewrite elem_of_list_to_set].
        exists (known a). destruct HE1 as (? & _). done.
      * apply (was_read_earlier a a1); [by destruct HE1|auto].
    + intros u'. rewrite HI, elem_of_cons. unfold erase.
      assert (u' ∈ (filter (λ p, p.1 ≠ u) rest).*1 ↔ u' ∈ rest.*1 ∧ u' ≠ u) as ->.
      { rewrite !list_elem_of_fmap. setoid_rewrite list_elem_of_filter. naive_solver. }
      naive_solver.
    + by eapply same_reads_trans.
Qed.

Lemma delete_rows_ok l : ∀ st a,
  refines st a →
  ∃ st' a', delete_rows l st = Ret st' ∧ refines st' a' ∧ evolves (list_to_set l) a a' ∧
    (∀ u, u ∈ l → config_of a' u = ∅) ∧ same_reads st st'.
Proof using All.
  induction l as [|u l IH]; intros st a HR.
  { exists st, a. split_and!; try done; [apply evolves_refl|by intros u Hu%elem_of_nil]. }
  destruct (gone_step u st a HR) as (st1 & a1 & Hx & HR1 & HE1 & HC1 & HS1).
  destruct (IH st1 a1 HR1) as (st' & a' & Hd & HR' & HE & HC & HS). simpl. rewrite Hx. cbn [mbind outcome_mbind].
  exists st', a'. split_and!; try done.
  - by eapply (evolves_trans {[u]}).
  - intros u' Hu'. destruct (decide (u' ∈ l)) as [|Hn]; [auto|]. apply elem_of_cons in Hu' as [->|]; [|done].
    destruct HE as (_ & _ & HE). unfold config_of in *. rewrite HE by (by rewrite elem_of_list_to_set). done.
  - by eapply same_reads_trans.
Qed.

(** ** The database *)
Context (database : nat → list string → Rows) (reinit : nat → bool) (bunch max_yield : Z).

(** The rows of an answer are those of the objects asked for, each once, and none is missing. *)
Definition database_ok : Prop :=
  ∀ r keys rows, database r keys = Some rows →
    NoDup rows.*1 ∧ (∀ u cols, (u, cols) ∈ rows → u ∈ keys ∧ cols = row u) ∧
    (∀ u, u ∈ keys → row u ≠ [] → u ∈ rows.*1).
Context (Hdb : database_ok).
(** Once asked for, a new start stays so until this task is over. *)
Context (Hreinit : ∀ i, reinit i = true → reinit (S i) = true).

Lemma read_table_ok r (bl : sset) st a :
  refines st a → (∀ u, u ∈ bl.*1 → readable a u) →
  (database r bl.*1 = None ∧ ReadObjUUIDTable (database r bl.*1) bl st = Ret (false, st)) ∨
  ∃ st' a', ReadObjUUIDTable (database r bl.*1) bl st = Ret (true, st') ∧ refines st' a' ∧
    evolves (list_to_set bl.*1) a a' ∧ (∀ u, u ∈ bl.*1 → was_read a a' u) ∧ same_reads st st'.
Proof using All.
  intros HR Hre. destruct (database r bl.*1) as [rows|] eqn:Ed; [right|by left].
  destruct (Hdb r _ rows Ed) as (Hnd & Hin & Hall). simpl.
  destruct (read_rows_ok rows bl st a Hnd) as (rest & st1 & a1 & -> & HR1 & HE1 & HW1 & HI1 & HS1); [|done|].
  { intros u cols Hu. destruct (Hin u cols Hu) as [? ->]. auto. }
  cbn [mbind outcome_mbind].
  destruct (delete_rows_ok rest.*1 st1 a1 HR1) as (st2 & a2 & -> & HR2 & HE2 & HC2 & HS2).
  cbn [mbind outcome_mbind]. exists st2, a2. split; [done|]. split; [done|].
  assert (∀ u, u ∈ rows.*1 → u ∈ bl.*1) as Hsub.
  { intros u ([u' cols] & -> & Hu)%list_elem_of_fmap. by destruct (Hin u' cols Hu). }
  split; [|split; [|by eapply same_reads_trans]].
  - apply (evolves_mono (list_to_set rows.*1 ∪ list_to_set rest.*1)); [|by eapply evolves_trans].
    intros u. rewrite elem_of_union, !elem_of_list_to_set, HI1. naive_solver.
  - intros u Hu. destruct (decide (row u = [])) as [Hr|Hr].
    + assert (u ∈ rest.*1) as Hrest by (apply HI1; naive_solver).
      exists (known a2). split; [done|]. split.
      * destruct HE1 as (? & _), HE2 as (? & _). by transitivity (known a1).
      * rewrite (HC2 u Hrest). unfold expected. by rewrite (bool_decide_true (row u = [])).
    + apply (was_read_later (list_to_set rest.*1) a a1); [by apply HW1; [apply Hall|]|done|].
      rewrite elem_of_list_to_set, HI1. intros [_ Hn]. apply Hn. auto.
Qed.

(** ** Requests *)

Definition request_ok a (p : string * Request) : Prop :=
  uuid p.2 = p.1 ∧ (reads_row (oper p.2) = true → readable a p.1).
Definition served a a' (p : string * Request) : Prop :=
  if reads_row (oper p.2) then was_read a a' p.1
  else oper p.2 = "DELETE"%string → config_of a' p.1 = ∅.
Definition sync_ok st : Prop := end_of_rib_computed st = true → bulk_sync_status st ≤ 0.

Lemma served_later U a a1 a2 p : served a a1 p → evolves U a1 a2 → p.1 ∉ U → served a a2 p.
Proof.
  unfold served. destruct (reads_row (oper p.2)); [apply was_read_later|]. intros Hs (_ & _ & HE) Hp Hd.
  unfold config_of in *. rewrite HE by done. auto.
Qed.

Lemma served_earlier a a1 a2 p : known a1 ⊆ known a → served a1 a2 p → served a a2 p.
Proof. unfold served. destruct (reads_row (oper p.2)); [apply was_read_earlier|done]. Qed.

Lemma request_ok_evolves U a a' p : evolves U a a' → p.1 ∉ U → request_ok a p → request_ok a' p.
Proof. intros HE Hp [? Hr]. split; [done|]. intros Hx. by eapply readable_evolves; eauto. Qed.

Lemma remove_entries_ok l : ∀ st,
  Ordered (uuid_read_set st) → NoDup l → (∀ u, u ∈ l → is_Some (find u (uuid_read_set st))) →
  RemoveObjReqEntries l st = Ret (with_reads (filter (λ p, p.1 ∉ l) (uuid_read_set st)) st).
Proof.
  induction l as [|u l IH]; intros st Ho Hnd Hin; simpl.
  - f_equal. destruct st as [m rs fq n b t w]. unfold with_reads. simpl. f_equal.
    clear. induction rs as [|p rs IH]; [done|]. rewrite filter_cons_True by apply not_elem_of_nil. by rewrite <- IH.
  - apply NoDup_cons in Hnd as [Hu Hnd]. unfold RemoveObjReqEntry.
    destruct (Hin u) as [q Hq]; [by left|]. rewrite Hq. cbn [mbind outcome_mbind].
    rewrite IH; simpl; [|by apply ordered_erase|done|].
    + f_equal. destruct st. unfold with_reads. simpl. f_equal. unfold erase. rewrite list_filter_filter.
      apply list_filter_ext_in. intros p _. rewrite elem_of_cons. tauto.
    + intros u' Hu'. rewrite find_erase by done. rewrite decide_False by (intros ->; done). apply Hin. by right.
Qed.

Lemma ordered_nodup {V} (m : list (string * V)) : Ordered m → NoDup m.*1.
Proof.
  induction m as [|p m IH]; intros Ho; simpl; [constructor|]. apply ordered_cons in Ho as [Ho Hlt].
  apply NoDup_cons. split; [|auto]. intros (q & Hq & Hin)%list_elem_of_fmap. specialize (Hlt q Hin). rewrite Hq in Hlt.
  by eapply str_lt_irrefl.
Qed.

(** ** The end of the bulk read *)

(** The requests that mark the end *)
Definition ends (l : list (string * Request)) : Z := Z.of_nat (length (filter (λ p, oper p.2 = "EndOfConfig"%string) l)).
(** The count of the partitions that still read goes down by one for each mark that has left
    the read set, and the end is announced when the count comes to zero. *)
Definition sync_moves st st' : Prop :=
  bulk_sync_status st' + ends (uuid_read_set st) = bulk_sync_status st + ends (uuid_read_set st') ∧
  bulk_sync_status st' ≤ bulk_sync_status st ∧
  end_of_rib_computed st' =
    end_of_rib_computed st || ((bulk_sync_status st' <=? 0) && (0 <? bulk_sync_status st)).

Lemma sync_moves_refl st : sync_moves st st.
Proof. split; [done|]. split; [done|]. destruct (end_of_rib_computed st); simpl; lia. Qed.

Lemma sync_moves_trans st st1 st2 : sync_moves st st1 → sync_moves st1 st2 → sync_moves st st2.
Proof.
  intros (A1 & A2 & A3) (B1 & B2 & B3). split; [lia|]. split; [lia|]. rewrite B3, A3.
  destruct (end_of_rib_computed st); [done|]. simpl. lia.
Qed.

Lemma ends_filter (P : string * Request → Prop) `{!∀ p, Decision (P p)} l :
  (∀ p, p ∈ l → oper p.2 = "EndOfConfig"%string → P p) → ends (filter P l) = ends l.
Proof.
  intros HP. unfold ends. do 2 f_equal. rewrite list_filter_filter. apply list_filter_ext_in. intros p Hp. naive_solver.
Qed.

Lemma ends_perm l l' : l ≡ₚ l' → ends l = ends l'.
Proof. unfold ends. by intros ->. Qed.

Lemma ends_take_out k req l :
  Ordered l → (k, req) ∈ l →
  ends l = ends (filter (λ p, p.1 ≠ k) l) + (if bool_decide (oper req = "EndOfConfig"%string) then 1 else 0).
Proof.
  intros Ho Hin. assert (l ≡ₚ (k, req) :: filter (λ p, p.1 ≠ k) l) as Hperm.
  { apply NoDup_Permutation.
    - by apply NoDup_fmap_1 with fst, ordered_nodup.
    - apply NoDup_cons. split; [by intros [? _]%list_elem_of_filter|]. by apply NoDup_filter, NoDup_fmap_1 with fst, ordered_nodup.
    - intros [u q]. rewrite elem_of_cons, list_elem_of_filter. simpl. split; [|by intros [[= -> ->]|[_ ?]]].
      intros Hq. destruct (decide (u = k)) as [->|]; [left|by right].
      apply (elem_find _ _ _ Ho) in Hin, Hq. congruence. }
  assert (ends l = ends ((k, req) :: filter (λ p, p.1 ≠ k) l)) as -> by (apply ends_perm, Hperm).
  unfold ends. rewrite (filter_cons _ (k, req)). simpl.
  case_decide; case_bool_decide; try done; simpl; lia.
Qed.

(** The state of the loop: the requests not yet looked at, and those to be read *)
Record looping st a (it : list (string * Request)) (bl : sset) : Prop := {
  lp_refines : refines st a;
  lp_ordered : Ordered (uuid_read_set st);
  lp_ok : ∀ p, p ∈ uuid_read_set st → request_ok a p;
  lp_sync : sync_ok st;
  lp_it : ∀ p, p ∈ it → p ∈ uuid_read_set st;
  lp_it_ordered : Ordered it;
  lp_split : ∀ p, p ∈ uuid_read_set st → p ∈ it ∨ p.1 ∈ bl.*1;
  lp_bl : ∀ u, u ∈ bl.*1 → ∃ q, (u, q) ∈ uuid_read_set st ∧ ((u, q) ∉ it) ∧ reads_row (oper q) = true;
  lp_bl_ordered : Ordered bl;
}.

Lemma looping_unique st a it bl u q q' :
  looping st a it bl → (u, q) ∈ uuid_read_set st → (u, q') ∈ uuid_read_set st → q = q'.
Proof.
  intros HL H1 H2. pose proof (lp_ordered _ _ _ _ HL) as Ho.
  apply (elem_find _ _ _ Ho) in H1, H2. congruence.
Qed.

(** ** One turn of the loop *)

(** What is left of the read set *)
Lemma looping_rest st st' a a' it it' bl bl' (gone : string → Prop) `{!∀ u, Decision (gone u)} (U : gset string) :
  looping st a it bl → refines st' a' → evolves U a a' → (∀ u, u ∈ U → gone u) → sync_ok st' →
  uuid_read_set st' = filter (λ p, ¬ gone p.1) (uuid_read_set st) →
  (∀ p, p ∈ it' ↔ p ∈ it ∧ ¬ gone p.1) → Ordered it' →
  (∀ u, u ∈ bl'.*1 ↔ u ∈ bl.*1 ∧ ¬ gone u) → Ordered bl' →
  looping st' a' it' bl'.
Proof.
  intros HL HR HE HU Hsy Hset Hit Hoit Hbl Hobl. split; try done; rewrite ?Hset.
  - apply ordered_filter, (lp_ordered _ _ _ _ HL).
  - intros p [Hg Hp]%list_elem_of_filter. apply (request_ok_evolves U a); [done| |by apply (lp_ok _ _ _ _ HL)].
    intros Hx. by apply Hg, HU.
  - intros p [Hp Hg]%Hit. apply list_elem_of_filter. split; [done|]. by apply (lp_it _ _ _ _ HL).
  - intros p [Hg Hp]%list_elem_of_filter. destruct (lp_split _ _ _ _ HL p Hp); [left; by apply Hit|right; by apply Hbl].
  - intros u [Hu Hg]%Hbl. destruct (lp_bl _ _ _ _ HL u Hu) as (q & Hq & Hn & ?). exists q. split_and!; [|by intros [? ?]%Hit|done].
    by apply list_elem_of_filter.
Qed.

Lemma bunch_done st a it bl r :
  looping st a it bl →
  (database r bl.*1 = None ∧ ReadObjUUIDTable (database r bl.*1) bl st = Ret (false, st)) ∨
  ∃ st1 st2 a', ReadObjUUIDTable (database r bl.*1) bl st = Ret (true, st1) ∧ RemoveObjReqEntries bl.*1 st1 = Ret st2 ∧
    looping st2 a' it [] ∧ uuid_read_set st2 = filter (λ p, p.1 ∉ bl.*1) (uuid_read_set st) ∧
    sync_moves st st2 ∧ evolves (list_to_set bl.*1) a a' ∧ ∀ p, p ∈ uuid_read_set st → p.1 ∈ bl.*1 → served a a' p.
Proof using All.
  intros HL. pose proof (lp_ordered _ _ _ _ HL) as Ho.
  destruct (read_table_ok r bl st a (lp_refines _ _ _ _ HL)) as [?|(st1 & a' & Hrd & HR & HE & HW & (S1 & S2 & S3))]; [|by left|right].
  { intros u Hu. destruct (lp_bl _ _ _ _ HL u Hu) as (q & Hq & _ & Hrd).
    by destruct (lp_ok _ _ _ _ HL _ Hq) as [_ Hre]; apply Hre. }
  exists st1, (with_reads (filter (λ p, p.1 ∉ bl.*1) (uuid_read_set st)) st1), a'. split; [done|]. split.
  { rewrite remove_entries_ok; rewrite ?S1; [done|done|by apply ordered_nodup, (lp_bl_ordered _ _ _ _ HL)|].
    intros u Hu. destruct (lp_bl _ _ _ _ HL u Hu) as (q & Hq & _). by eapply elem_find_ne. }
  split; [|split; [done|split; [|split; [done|]]]].
  - apply (looping_rest st _ a a' it it bl [] (λ u, u ∈ bl.*1) (list_to_set bl.*1)); try done.
    + destruct HR as [R1 R2 R3 R4 R5 R6]. by split.
    + intros u. by rewrite elem_of_list_to_set.
    + unfold sync_ok. simpl. rewrite S2, S3. apply (lp_sync _ _ _ _ HL).
    + intros [u q]. split; [|by intros [? _]]. intros Hp. split; [done|]. intros Hu. simpl in Hu. destruct (lp_bl _ _ _ _ HL u Hu) as (q' & Hq' & Hn & _).
      rewrite (looping_unique _ _ _ _ u q' q HL Hq') in Hn; [done|]. by apply (lp_it _ _ _ _ HL).
    + apply (lp_it_ordered _ _ _ _ HL).
    + intros u. simpl. split; [by intros ?%elem_of_nil|tauto].
    + apply ordered_nil.
  - pose proof (sync_moves_refl st) as (_ & _ & Hm). split; [|by simpl; rewrite S2, S3]. simpl. rewrite S2, ends_filter; [done|].
    intros [u q] Hp He Hu. simpl in He, Hu. destruct (lp_bl _ _ _ _ HL u Hu) as (q' & Hq' & _ & Hrd').
    rewrite (looping_unique _ _ _ _ u q' q HL Hq' Hp), He in Hrd'. done.
  - intros [u q] Hp Hu. simpl in Hu. unfold served. destruct (lp_bl _ _ _ _ HL u Hu) as (q' & Hq' & _ & Hrd').
    rewrite (looping_unique _ _ _ _ u q' q HL Hq' Hp) in Hrd'. simpl. rewrite Hrd'. auto.
Qed.

Lemma looping_skip st a p it bl :
  looping st a (p :: it) bl → reads_row (oper p.2) = true → looping st a it (set_insert p.1 bl).
Proof.
  intros HL Hrd. pose proof (lp_it_ordered _ _ _ _ HL) as Ho. apply ordered_cons in Ho as [Ho Hlt].
  assert (p ∈ uuid_read_set st) as Hp by (apply (lp_it _ _ _ _ HL); by left).
  assert (p ∉ it) as Hn by (intros Hin; by eapply str_lt_irrefl, (Hlt p Hin)).
  split; try apply HL; try done.
  - intros q Hq. apply (lp_it _ _ _ _ HL). by right.
  - intros q Hq. unfold set_insert. rewrite keys_insert_new.
    destruct (lp_split _ _ _ _ HL q Hq) as [[->|?]%elem_of_cons|?]; auto.
  - intros u. unfold set_insert. rewrite keys_insert_new. intros [->|Hu].
    + exists p.2. by rewrite <- surjective_pairing.
    + destruct (lp_bl _ _ _ _ HL u Hu) as (q & ? & Hq & ?). exists q. split_and!; try done.
      intros ?. apply Hq. by right.
  - apply ordered_insert_new, (lp_bl_ordered _ _ _ _ HL).
Qed.

Lemma handle_other_ok req st a :
  refines st a → sync_ok st → reads_row (oper req) = false →
  ∃ st' a', handle_other req st = Ret st' ∧ refines st' a' ∧ evolves {[uuid req]} a a' ∧ sync_ok st' ∧
    uuid_read_set st' = uuid_read_set st ∧ (oper req = "DELETE"%string → config_of a' (uuid req) = ∅) ∧
    bulk_sync_status st' = bulk_sync_status st - (if bool_decide (oper req = "EndOfConfig"%string) then 1 else 0) ∧
    end_of_rib_computed st' =
      end_of_rib_computed st || ((bulk_sync_status st' <=? 0) && (0 <? bulk_sync_status st)).
Proof using All.
  intros HR Hsy Hrd. unfold handle_other. case_bool_decide as Hd.
  - destruct (gone_step (uuid req) st a HR) as (st' & a' & -> & HR' & HE & HC & (S1 & S2 & S3)).
    destruct (sync_moves_refl st) as (_ & _ & Hm). exists st', a'. split_and!; try done.
    + unfold sync_ok. rewrite S2, S3. done.
    + rewrite S2, Hd. simpl. lia.
    + by rewrite S2, S3.
  - assert (∀ st', object_cache_map st' = object_cache_map st → fq_name_cache st' = fq_name_cache st →
                   world st' = world st → refines st' a) as Hsame.
    { intros st' H1 H2 H3. destruct HR as [R1 R2 R3 R4 R5 R6]. split; rewrite ?H1, ?H2, ?H3; try done.
      intros u. apply (cache_ok_same names written schema u st); rewrite ?H1, ?H3; auto. }
    assert (evolves {[uuid req]} a a) as HE by (apply (evolves_mono ∅); [apply empty_subseteq|apply evolves_refl]).
    destruct (sync_moves_refl st) as (_ & _ & Hm).
    case_bool_decide; [|exists st, a; split_and!; try done; lia].
    unfold BulkSyncDone, EndOfConfig.
    destruct (bulk_sync_status st =? 1) eqn:En.
    + apply Z.eqb_eq in En. destruct (end_of_rib_computed st) eqn:Ec; [exfalso; specialize (Hsy Ec); lia|].
      simpl. eexists _, a. split; [done|]. split_and!; try done; [by apply Hsame| |simpl; lia].
      intros _. simpl. lia.
    + apply Z.eqb_neq in En. eexists _, a. split; [done|]. split_and!; try done; [by apply Hsame| |simpl; destruct (end_of_rib_computed st); simpl; lia].
      unfold sync_ok in *. simpl. intros Hx. specialize (Hsy Hx). lia.
Qed.

Lemma other_done st a k req it bl :
  looping st a ((k, req) :: it) bl → reads_row (oper req) = false →
  ∃ st1 st2 a', handle_other req st = Ret st1 ∧ RemoveObjReqEntry (uuid req) st1 = Ret st2 ∧ looping st2 a' it bl ∧
    uuid_read_set st2 = filter (λ p, p.1 ≠ k) (uuid_read_set st) ∧ sync_moves st st2 ∧ evolves {[k]} a a' ∧ served a a' (k, req).
Proof using All.
  intros HL Hrd. pose proof (lp_it_ordered _ _ _ _ HL) as Ho. apply ordered_cons in Ho as [Ho Hlt]. simpl in Hlt.
  assert ((k, req) ∈ uuid_read_set st) as Hp by (apply (lp_it _ _ _ _ HL); by left).
  destruct (lp_ok _ _ _ _ HL _ Hp) as [Hu _]. simpl in Hu.
  destruct (handle_other_ok req st a (lp_refines _ _ _ _ HL) (lp_sync _ _ _ _ HL) Hrd) as (st1 & a' & Hh & HR & HE & Hsy & HS & HC & HB & Hend).
  rewrite Hu in HE, HC.
  exists st1, (with_reads (erase k (uuid_read_set st)) st1), a'. split; [done|].
  split; [|split; [|split; [done|split; [|split; [done|]]]]].
  - unfold RemoveObjReqEntry. rewrite Hu, HS. destruct (elem_find_ne _ _ _ Hp) as [q ->]. done.
  - apply (looping_rest st _ a a' ((k, req) :: it) it bl bl (λ u, u = k) {[k]}); try done.
    + destruct HR as [R1 R2 R3 R4 R5 R6]. by split.
    + intros u. by rewrite elem_of_singleton.
    + intros p. rewrite elem_of_cons. split.
      * intros Hin. split; [by right|]. intros Hk. specialize (Hlt p Hin). rewrite Hk in Hlt. by eapply str_lt_irrefl.
      * intros [[->|?] Hk]; [by destruct Hk|done].
    + intros u. split; [|by intros [? _]]. intros Hin. split; [done|]. intros ->.
      destruct (lp_bl _ _ _ _ HL k Hin) as (q & Hq & Hn & _).
      rewrite (looping_unique _ _ _ _ k q req HL Hq Hp) in Hn. apply Hn. by left.
    + apply (lp_bl_ordered _ _ _ _ HL).
  - pose proof (ends_take_out k req _ (lp_ordered _ _ _ _ HL) Hp) as He. unfold sync_moves. simpl. unfold erase.
    split; [lia|]. split; [case_bool_decide; lia|done].
  - unfold served. simpl. by rewrite Hrd.
Qed.

(** ** The whole task *)

(** From one state to another: requests that have gone are served. *)
Record progress st a st' a' : Prop := {
  pg_refines : refines st' a';
  pg_ordered : Ordered (uuid_read_set st');
  pg_sync : sync_ok st';
  pg_moves : sync_moves st st';
  pg_evolves : evolves (list_to_set (uuid_read_set st).*1) a a';
  pg_left : ∀ p, p ∈ uuid_read_set st' → p ∈ uuid_read_set st ∧ request_ok a' p;
  pg_served : ∀ p, p ∈ uuid_read_set st → p ∈ uuid_read_set st' ∨ served a a' p;
}.

Lemma progress_start st a it bl : looping st a it bl → progress st a st a.
Proof.
  intros HL. split; try apply HL; try by left.
  - apply sync_moves_refl.
  - apply (evolves_mono ∅); [apply empty_subseteq|apply evolves_refl].
  - intros p Hp. split; [done|]. by apply (lp_ok _ _ _ _ HL).
Qed.

Lemma progress_then st a st1 a1 st2 a2 :
  Ordered (uuid_read_set st) → progress st a st1 a1 → progress st1 a1 st2 a2 → progress st a st2 a2.
Proof.
  intros Ho [P1 P2 P3 P0 P4 P5 P6] [Q1 Q2 Q3 Q0 Q4 Q5 Q6].
  assert (∀ u, u ∈ (uuid_read_set st1).*1 → u ∈ (uuid_read_set st).*1) as Hsub.
  { intros u (p & -> & Hp)%list_elem_of_fmap. apply list_elem_of_fmap_2. by apply P5. }
  split; try done.
  - by eapply sync_moves_trans.
  - apply (evolves_mono (list_to_set (uuid_read_set st).*1 ∪ list_to_set (uuid_read_set st1).*1)); [|by eapply evolves_trans].
    intros u. rewrite elem_of_union, !elem_of_list_to_set. naive_solver.
  - intros p Hp. destruct (Q5 p Hp) as [Hp1 ?]. split; [by apply P5|done].
  - intros p Hp. destruct (P6 p Hp) as [Hp1|Hs].
    + destruct (Q6 p Hp1); [by left|right]. eapply served_earlier; [|done]. by destruct P4.
    + destruct (decide (p.1 ∈ (uuid_read_set st1).*1)) as [Hin|Hout].
      * apply list_elem_of_fmap in Hin as (q & Hq & Hin). destruct (P5 q Hin) as [Hq0 _].
        assert (q = p) as ->; [|destruct (Q6 p Hin); [by left|right]; eapply served_earlier; [|done]; by destruct P4].
        destruct p as [u x], q as [u' y]. simpl in Hq. subst u'. apply (elem_find _ _ _ Ho) in Hp, Hq0. congruence.
      * right. eapply served_later; [done|exact Q4|]. by rewrite elem_of_list_to_set.
Qed.

(** A step that takes some requests out of the set *)
Lemma progress_step st a st' a' it it' bl bl' (gone : string → Prop) `{!∀ u, Decision (gone u)} (U : gset string) :
  looping st a it bl → looping st' a' it' bl' → sync_moves st st' → evolves U a a' → (∀ u, u ∈ U → u ∈ (uuid_read_set st).*1) →
  uuid_read_set st' = filter (λ p, ¬ gone p.1) (uuid_read_set st) →
  (∀ p, p ∈ uuid_read_set st → gone p.1 → served a a' p) →
  progress st a st' a'.
Proof.
  intros HL HL' Hm HE HU Hset Hs. split; try apply HL'; try done.
  - apply (evolves_mono U); [|done]. intros u Hu. rewrite elem_of_list_to_set. auto.
  - intros p Hp. split; [|by apply (lp_ok _ _ _ _ HL')]. rewrite Hset in Hp. by apply list_elem_of_filter in Hp as [_ ?].
  - intros p Hp. rewrite Hset. destruct (decide (gone p.1)); [right; auto|left]. by apply list_elem_of_filter.
Qed.

Definition shrinks st st' : Prop := ∃ p, p ∈ uuid_read_set st ∧ p ∉ uuid_read_set st'.

Lemma shrinks_later st a st1 st2 a1 a2 : shrinks st st1 → progress st1 a1 st2 a2 → progress st a st1 a1 → shrinks st st2.
Proof. intros (p & Hp & Hn) HP _. exists p. split; [done|]. intros Hx. apply Hn. by apply (pg_left _ _ _ _ HP). Qed.

Lemma bunch_progress st a it bl r :
  looping st a it bl → bl ≠ [] →
  (database r bl.*1 = None ∧ ReadObjUUIDTable (database r bl.*1) bl st = Ret (false, st)) ∨
  ∃ st1 st2 a', ReadObjUUIDTable (database r bl.*1) bl st = Ret (true, st1) ∧ RemoveObjReqEntries bl.*1 st1 = Ret st2 ∧
    looping st2 a' it [] ∧ progress st a st2 a' ∧ shrinks st st2.
Proof using All.
  intros HL Hne. destruct (bunch_done st a it bl r HL) as [?|(st1 & st2 & a' & Hrd & Hrm & HL2 & Hset & Hm & HE & Hs)]; [by left|right].
  assert (∀ u, u ∈ bl.*1 → u ∈ (uuid_read_set st).*1) as Hin.
  { intros u Hu. destruct (lp_bl _ _ _ _ HL u Hu) as (q & Hq & _). by apply (list_elem_of_fmap_2 fst) in Hq. }
  exists st1, st2, a'. split_and!; try done.
  - apply (progress_step st a st2 a' it it bl [] (λ u, u ∈ bl.*1) (list_to_set bl.*1)); try done.
    intros u. rewrite elem_of_list_to_set. auto.
  - destruct bl as [|[u []] bl]; [done|]. destruct (lp_bl _ _ _ _ HL u) as (q & Hq & _); [by left|].
    exists (u, q). split; [done|]. rewrite Hset. intros [Hx _]%list_elem_of_filter. apply Hx. by left.
Qed.

Lemma other_progress st a k req it bl :
  looping st a ((k, req) :: it) bl → reads_row (oper req) = false →
  ∃ st1 st2 a', handle_other req st = Ret st1 ∧ RemoveObjReqEntry (uuid req) st1 = Ret st2 ∧
    looping st2 a' it bl ∧ progress st a st2 a' ∧ shrinks st st2.
Proof using All.
  intros HL Hrd. destruct (other_done st a k req it bl HL Hrd) as (st1 & st2 & a' & Hh & Hrm & HL2 & Hset & Hm & HE & Hs).
  assert ((k, req) ∈ uuid_read_set st) as Hp by (apply (lp_it _ _ _ _ HL); by left).
  exists st1, st2, a'. split_and!; try done.
  - apply (progress_step st a st2 a' ((k, req) :: it) it bl bl (λ u, u = k) {[k]}); try done.
    + intros u ->%elem_of_singleton. by apply (list_elem_of_fmap_2 fst) in Hp.
    + intros [u q] Hin Hu. simpl in Hu. subst u. by rewrite (looping_unique _ _ _ _ k q req HL Hin Hp).
  - exists (k, req). split; [done|]. rewrite Hset. intros [Hx _]%list_elem_of_filter. by apply Hx.
Qed.

Definition ended_ok st a (e : Ended) : Prop :=
  match e with
  | Yields st' => ∃ a', progress st a st' a' ∧ (shrinks st st' ∨ ∃ r keys, database r keys = None)
  | Falls st' bl i r => ∃ a', progress st a st' a' ∧ (looping st' a' [] bl ∨ reinit i = true)
  end.

Lemma ended_later st a st1 a1 e :
  Ordered (uuid_read_set st) → progress st a st1 a1 → ended_ok st1 a1 e → shrinks st st1 → ended_ok st a e.
Proof.
  intros Ho HP He Hsh. destruct e as [st'|st' bl i r]; destruct He as (a' & HP' & Hx); exists a'.
  - split; [by eapply progress_then|]. destruct Hx as [_|?]; [left|by right]. by eapply shrinks_later.
  - split; [by eapply progress_then|done].
Qed.

Lemma reader_loop_ok it : ∀ bl handled i r st a,
  looping st a it bl → ∃ e, reader_loop database reinit bunch max_yield it bl handled i r st = Ret e ∧ ended_ok st a e.
Proof using All.
  induction it as [|[k req] it IH]; intros bl handled i r st a HL; cbn [reader_loop].
  { eexists. split; [done|]. exists a. split; [by eapply progress_start|by left]. }
  destruct (reinit i) eqn:Ei.
  { eexists. split; [done|]. exists a. split; [by eapply progress_start|right; by apply Hreinit]. }
  pose proof (lp_ordered _ _ _ _ HL) as Ho.
  destruct (reads_row (oper req)) eqn:Erd.
  - assert (uuid req = k) as Hu by (by destruct (lp_ok _ _ _ _ HL (k, req)) as [? _]; [apply (lp_it _ _ _ _ HL); left|]).
    rewrite Hu. pose proof (looping_skip st a (k, req) it bl HL Erd) as HL1. simpl in HL1.
    destruct (_ || _); [|by apply IH].
    destruct (bunch_progress st a it (set_insert k bl) r HL1) as [[Hd ->]|(st1 & st2 & a2 & -> & Hrm & HL2 & HP & Hsh)].
    { intros Hx. assert (k ∈ (set_insert k bl).*1) as Hk by (apply keys_insert_new; by left). rewrite Hx in Hk. by apply elem_of_nil in Hk. }
    + cbn [mbind outcome_mbind negb]. eexists. split; [done|]. exists a. split; [by eapply progress_start|right; eauto].
    + cbn [mbind outcome_mbind negb]. rewrite Hrm. cbn [mbind outcome_mbind].
      destruct (_ >=? _); [eexists; split; [done|]; exists a2; by split; [|left]|].
      destruct (IH [] (handled + Z.of_nat (length (set_insert k bl))) (S i) (S r) st2 a2 HL2) as (e & -> & He).
      exists e. split; [done|]. by eapply ended_later.
  - destruct (other_progress st a k req it bl HL Erd) as (st1 & st2 & a2 & -> & Hrm & HL2 & HP & Hsh).
    cbn [mbind outcome_mbind]. rewrite Hrm. cbn [mbind outcome_mbind].
    destruct (_ =? _); [eexists; split; [done|]; exists a2; by split; [|left]|].
    destruct (IH bl (handled + 1) (S i) r st2 a2 HL2) as (e & -> & He).
    exists e. split; [done|]. by eapply ended_later.
Qed.

(** The requests that wait, each for an object with a known name *)
Definition waiting st a : Prop :=
  Ordered (uuid_read_set st) ∧ (∀ p, p ∈ uuid_read_set st → request_ok a p) ∧ sync_ok st.

Lemma reader_task_ok st a :
  refines st a → waiting st a →
  ∃ b st' a', ConfigReader database reinit bunch max_yield st = Ret (b, st') ∧ refines st' a' ∧
    (b = true → uuid_read_set st' = []) ∧
    (progress st a st' a' ∨ ∃ i, reinit i = true) ∧
    (b = false → shrinks st st' ∨ ∃ r keys, database r keys = None).
Proof using All.
  intros HR (Ho & Hok & Hsy).
  assert (looping st a (uuid_read_set st) []) as HL.
  { split; try done; try by left; try apply ordered_nil. intros u Hu. by apply elem_of_nil in Hu. }
  destruct (reader_loop_ok _ [] 0 0 0 st a HL) as (e & He & Hend). unfold ConfigReader. rewrite He. cbn [mbind outcome_mbind].
  assert (∀ st1 a1, refines st1 a1 → refines (with_reads [] st1) a1) as Hclr.
  { intros st1 a1 [R1 R2 R3 R4 R5 R6]. by split. }
  destruct e as [st1|st1 bl i r]; destruct Hend as (a1 & HP & Hx).
  { exists false, st1, a1. split; [done|]. split; [apply HP|]. split_and!; [done|by left|done]. }
  assert (∀ j st2 a2, refines st2 a2 → reinit j = true ∨ uuid_read_set st2 = [] ∧ progress st a st2 a2 →
    ∃ b st' a', (assert_that (bool_decide (uuid_read_set (if reinit j then with_reads [] st2 else st2) = []));;
                 Ret (true, if reinit j then with_reads [] st2 else st2)) = Ret (b, st') ∧ refines st' a' ∧
      (b = true → uuid_read_set st' = []) ∧ (progress st a st' a' ∨ ∃ i, reinit i = true) ∧
      (b = false → shrinks st st' ∨ ∃ r keys, database r keys = None)) as Hfin.
  { intros j st2 a2 HR2 Hj. destruct (reinit j) eqn:Ej.
    - exists true, (with_reads [] st2), a2. split; [done|]. split_and!; eauto; done.
    - destruct Hj as [?|[Hnil HP2]]; [done|]. exists true, st2, a2. rewrite Hnil. split; [done|]. split_and!; eauto; done. }
  case_bool_decide as Hbl.
  - apply (Hfin i st1 a1); [apply HP|]. destruct Hx as [HL1|?]; [right|by left]. split; [|done].
    destruct (uuid_read_set st1) as [|p l] eqn:E; [done|]. exfalso.
    destruct (lp_split _ _ _ _ HL1 p) as [H|H]; [rewrite E; by left|by apply elem_of_nil in H|].
    subst bl. by apply elem_of_nil in H.
  - destruct (reinit i) eqn:Ei; [apply (Hfin (S i) st1 a1); [apply HP|left; by apply Hreinit]|].
    destruct Hx as [HL1|?]; [|congruence].
    destruct (bunch_progress st1 a1 [] bl r HL1 Hbl) as [[Hd ->]|(st2 & st3 & a3 & -> & Hrm & HL3 & HP3 & Hsh)].
    + cbn [mbind outcome_mbind negb]. exists false, st1, a1. split; [done|]. split; [apply HP|]. split_and!; [done|by left|right; eauto].
    + cbn [mbind outcome_mbind negb]. rewrite Hrm. cbn [mbind outcome_mbind].
      apply (Hfin (S i) st3 a3); [apply HP3|]. right. split; [|by eapply progress_then].
      destruct (uuid_read_set st3) as [|p l] eqn:E; [done|]. exfalso.
      destruct (lp_split _ _ _ _ HL3 p) as [H|H]; [rewrite E; by left|by apply elem_of_nil in H..].
Qed.

Lemma progress_waiting st a st' a' : progress st a st' a' → waiting st' a'.
Proof. intros HP. split; [apply HP|]. split; [|apply HP]. intros p Hp. by apply (pg_left _ _ _ _ HP). Qed.

Lemma progress_shorter st a st' a' :
  Ordered (uuid_read_set st) → progress st a st' a' → shrinks st st' →
  (length (uuid_read_set st') < length (uuid_read_set st))%nat.
Proof.
  intros Ho HP (p & Hp & Hn).
  assert (NoDup (p :: uuid_read_set st')) as Hnd.
  { apply NoDup_cons. split; [done|]. eapply NoDup_fmap_1, ordered_nodup, (pg_ordered _ _ _ _ HP). }
  assert (p :: uuid_read_set st' ⊆+ uuid_read_set st) as Hsub.
  { apply NoDup_submseteq; [done|]. intros q [->|Hq]%elem_of_cons; [done|]. by apply (pg_left _ _ _ _ HP). }
  apply submseteq_length in Hsub. simpl in Hsub. lia.
Qed.
End Reader.

(** ** Runs of the task *)

(** The task runs again when it is not done; the database answers each run. *)
Fixpoint reader_runs {W} `{!Consumer W} (dbs : nat → nat → list string → Rows) (reinit : nat → bool)
    (bunch max_yield : Z) (n : nat) (st : State (W := W)) : outcome (bool * State) :=
  match n with
  | O => Ret (false, st)
  | S n =>
      '(done, st) ← ConfigReader (dbs n) reinit bunch max_yield st;
      if (done : bool) then Ret (true, st) else reader_runs dbs reinit bunch max_yield n st
  end.

Lemma reader_runs_ok {W : Type} `{!Consumer W, !ConsumerLaws W} names written schema home row dbs bunch max_yield :
  schema_ok schema → (∀ u, row u ≠ [] → row_ok written schema u (row u)) →
  (∀ j, database_ok row (dbs j)) → (∀ j r keys, dbs j r keys ≠ None) →
  ∀ n (st : State (W := W)) a,
  refines names written schema home st a → waiting home row st a → (length (uuid_read_set st) < n)%nat →
  ∃ st' a', reader_runs dbs (λ _, false) bunch max_yield n st = Ret (true, st') ∧ uuid_read_set st' = [] ∧
    progress names written schema home row st a st' a'.
Proof.
  intros Hs Hrows Hdb Hup. induction n as [|n IH]; intros st a HR Hw Hlen; [lia|].
  destruct (reader_task_ok names written schema Hs home row Hrows (dbs n) (λ _, false) bunch max_yield (Hdb n) ltac:(done) st a HR Hw)
    as (b & st1 & a1 & Hx & HR1 & Hdone & HP & Hsh).
  destruct HP as [HP|[i ?]]; [|done]. simpl. rewrite Hx. cbn [mbind outcome_mbind]. destruct b.
  - exists st1, a1. auto.
  - destruct Hsh as [Hsh|(r & keys & Hn)]; [done| |by destruct (Hup n r keys)].
    destruct Hw as [Ho Hw]. pose proof (progress_shorter _ _ _ _ _ _ _ _ _ Ho HP Hsh) as Hlt.
    destruct (IH st1 a1 HR1) as (st' & a' & Hr & Hnil & HP'); [by eapply progress_waiting|lia|].
    exists st', a'. split; [done|]. split; [done|]. by eapply progress_then.
Qed.


(** A partition that knows two names, with an object to read, one to delete, and the mark of
    the end *)
Definition ex_reads : list (string * Request) :=
  [(""%string, mkReq "EndOfConfig" "" ""); ("u1"%string, mkReq "CREATE" "vn" "u1"); ("u9"%string, mkReq "DELETE" "vn" "u9")].
Definition ex_fq : gmap string FQNameCacheType :=
  {[ "u1"%string := mkFQ "vn" "dom:u1" false; "u2"%string := mkFQ "vn" "dom:u2" false ]}.
Definition ex_start : State (W := gmap string View) := mkState ∅ ex_reads ex_fq 1 false 0 ∅.
Definition ex_table (u : string) : list Col := if decide (u = "u1"%string) then ex_row true else [].
Definition ex_db (_ _ : nat) (keys : list string) : Rows :=
  Some (if decide ("u1"%string ∈ keys) then [("u1"%string, ex_table "u1")] else []).

Lemma ex_start_refines : refines ex_names ex_written ex_schema (λ _, true) ex_start (mkSpec (dom ex_fq) ∅).
Proof.
  split; try done.
  - intros u e. unfold ex_start, ex_fq. simpl. rewrite lookup_insert_Some, lookup_singleton_Some.
    intros [[<- <-]|[_ [<- <-]]]; done.
Qed.


(** ** Reading the names *)
Section Names.
Context (table : string → list string) (up : nat → bool) (count : nat).
Hypothesis Htable : ∀ t, StronglySorted str_lt (table t).
Hypothesis Hcount : (2 ≤ count)%nat.

(** A read that does not fail gives the columns after the one to start after. *)
Definition get_row (r : nat) (t : string) (start : option string) (n : nat) : option (list string) :=
  if up r then Some (take n (match start with None => table t | Some c => filter (str_lt c) (table t) end)) else None.

(** The whole table in one piece *)
Definition whole_table (types : list string) (fq : gmap string FQNameCacheType) (reqs : list Request) :
    gmap string FQNameCacheType * list Request :=
  foldl (λ s t, let '(fq, l, _) := ParseFQNameRowGetUUIDList t (table t) s.1 [] "" in
                (fq, s.2 ++ ((λ p, mkReq "CREATE" p.1 p.2) <$> l))) (fq, reqs) types.

Lemma parse_names_app t c1 c2 : ∀ fq l last,
  ParseFQNameRowGetUUIDList t (c1 ++ c2) fq l last =
  let '(fq1, l1, last1) := ParseFQNameRowGetUUIDList t c1 fq l last in ParseFQNameRowGetUUIDList t c2 fq1 l1 last1.
Proof.
  induction c1 as [|k c1 IH]; intros fq l last; [done|]. simpl. destruct (UpdateFQNameCache k t fq l) as [fq' l']. apply IH.
Qed.

Lemma parse_names_acc t cols : ∀ fq l last,
  ParseFQNameRowGetUUIDList t cols fq l last =
  let '(fq', l', last') := ParseFQNameRowGetUUIDList t cols fq [] last in (fq', l ++ l', last').
Proof.
  induction cols as [|k cols IH]; intros fq l last; simpl; [by rewrite app_nil_r|].
  unfold UpdateFQNameCache. case_bool_decide; [apply IH|]. rewrite (IH _ (l ++ _)), (IH _ ([] ++ _)).
  destruct (ParseFQNameRowGetUUIDList _ _ _ _ _) as [[fq' l'] last']. by rewrite <- (assoc_L (++)).
Qed.

Lemma parse_names_last t cols : ∀ fq l last,
  (ParseFQNameRowGetUUIDList t cols fq l last).2 = default last (list.last cols).
Proof.
  induction cols as [|k cols IH]; intros fq l last; simpl; [done|].
  destruct (UpdateFQNameCache k t fq l) as [fq' l']. rewrite IH. destruct cols as [|k' cols]; [done|].
  change (list.last (k :: k' :: cols)) with (list.last (k' :: cols)).
  destruct (list.last (k' :: cols)) eqn:E; [done|]. by apply last_None in E.
Qed.

Lemma parse_names_start t cols fq l last last' :
  (ParseFQNameRowGetUUIDList t cols fq l last).1 = (ParseFQNameRowGetUUIDList t cols fq l last').1.
Proof. by destruct cols. Qed.

(** What follows a column in the order is what comes after it in the list. *)
Lemma filter_after l1 x l2 : StronglySorted str_lt (l1 ++ x :: l2) → filter (str_lt x) (l1 ++ x :: l2) = l2.
Proof.
  intros Hs. rewrite filter_app, filter_cons_False by apply str_lt_irrefl.
  assert (∀ y, y ∈ l1 → str_lt y x) as Hlt.
  { intros y Hy. apply (StronglySorted_app_1_elem_of str_lt l1 (x :: l2)); [done..|by left]. }
  assert (filter (str_lt x) l1 = []) as ->.
  { clear -Hlt. induction l1 as [|y l1 IH]; [done|]. rewrite filter_cons_False; [apply IH; intros z Hz; apply Hlt; by right|].
    intros Hx. eapply str_lt_irrefl, str_lt_trans; [exact Hx|]. apply Hlt. by left. }
  apply StronglySorted_app_1_r in Hs. simpl. inversion Hs as [|? ? _ Hf]; subst.
  clear -Hf. induction l2 as [|y l2 IH]; [done|]. inversion Hf; subst. rewrite filter_cons_True by done. f_equal. auto.
Qed.

Lemma read_pages_ok N t : (∀ r, (N ≤ r)%nat → up r = true) →
  ∀ fuel before rem column fq reqs r,
  table t = before ++ rem → (if bool_decide (column = ""%string) then before = [] else list.last before = Some column) →
  ((N - r) + length rem < fuel)%nat →
  ∃ r', read_pages get_row (λ _, false) count fuel t column fq reqs r =
    Some ((ParseFQNameRowGetUUIDList t rem fq [] "").1.1,
          reqs ++ ((λ p, mkReq "CREATE" p.1 p.2) <$> (ParseFQNameRowGetUUIDList t rem fq [] "").1.2), r', true) ∧ (r ≤ r')%nat.
Proof using Htable Hcount.
  intros Hup. induction fuel as [|fuel IH]; intros before rem column fq reqs r Htb Hcol Hfuel; [lia|].
  cbn [read_pages]. unfold get_row at 1. destruct (up r) eqn:Eup.
  2: { destruct (IH before rem column fq reqs (S r)) as (r' & -> & ?); [done..| |eauto with lia].
       destruct (decide (N ≤ r)%nat) as [Hn|]; [by rewrite Hup in Eup|lia]. }
  assert ((match (if bool_decide (column = ""%string) then None else Some column) with
           | None => table t | Some c => filter (str_lt c) (table t) end) = rem) as ->.
  { case_bool_decide; [by rewrite Htb, Hcol|]. apply last_Some in Hcol as [l ->].
    rewrite Htb, <- (assoc_L (++)). simpl. apply filter_after. pose proof (Htable t) as Hs.
    by rewrite Htb, <- (assoc_L (++)) in Hs. }
  destruct (take count rem) as [|x cols] eqn:Etk.
  { assert (rem = []) as ->.
    { destruct rem; [done|]. destruct count; [lia|done]. }
    simpl. rewrite app_nil_r. eexists. split; [done|lia]. }
  rewrite <- Etk.
  assert (ParseFQNameRowGetUUIDList t rem fq [] "" = ParseFQNameRowGetUUIDList t (take count rem ++ drop count rem) fq [] "")
    as Hsplit by (by rewrite take_drop). rewrite Hsplit, parse_names_app.
  pose proof (parse_names_last t (take count rem) fq [] "") as Hlast.
  destruct (ParseFQNameRowGetUUIDList t (take count rem) fq [] "") as [[fq1 l1] last1] eqn:Epr. simpl in Hlast.
  rewrite (parse_names_acc t (drop count rem) fq1 l1). rewrite length_take.
  destruct (Nat.min count (length rem) <? count)%nat eqn:El.
  - apply Nat.ltb_lt in El. rewrite drop_ge by lia. simpl. rewrite app_nil_r. eexists. split; [done|lia].
  - apply Nat.ltb_ge in El.
    assert (last1 ≠ ""%string ∧ list.last (before ++ take count rem) = Some last1) as [Hne Hlst].
    { destruct cols as [|y cols] using rev_ind.
      { apply (f_equal length) in Etk. rewrite length_take in Etk. simpl in Etk. lia. }
      rewrite app_comm_cons in Etk. rewrite Etk, last_snoc in Hlast. simpl in Hlast. subst last1. split.
      - intros ->. assert (str_lt x "") as Hx; [|by destruct x].
        pose proof (Htable t) as Hs. rewrite Htb, <- (take_drop count rem), Etk in Hs.
        apply StronglySorted_app_1_r, StronglySorted_app_1_l in Hs.
        apply (StronglySorted_app_1_elem_of str_lt (x :: cols) [""%string]); [done|by left|by left].
      - by rewrite Etk, (assoc_L (++)), last_snoc. }
    destruct (IH (before ++ take count rem) (drop count rem) last1 fq1 (reqs ++ ((λ p, mkReq "CREATE" p.1 p.2) <$> l1)) (S r))
      as (r' & -> & ?).
    + by rewrite <- (assoc_L (++)), take_drop.
    + by rewrite (bool_decide_false (last1 = _)).
    + rewrite length_drop. lia.
    + exists r'. split; [|lia]. pose proof (parse_names_start t (drop count rem) fq1 [] last1 "") as Hst.
      destruct (ParseFQNameRowGetUUIDList t (drop count rem) fq1 [] last1) as [[fq2 l2] last2]. simpl in Hst. rewrite <- Hst. simpl.
      by rewrite fmap_app, (assoc_L (++)).
Qed.

Lemma names_in_pages N fuel types : ∀ fq reqs r,
  (∀ r, (N ≤ r)%nat → up r = true) → (∀ t, t ∈ types → (N + length (table t) < fuel)%nat) →
  FQNameReader get_row (λ _, false) count fuel types fq reqs r =
  Some ((whole_table types fq reqs).1, (whole_table types fq reqs).2, true).
Proof using Htable Hcount.
  induction types as [|t types IH]; intros fq reqs r Hup Hfuel; [done|]. cbn [FQNameReader].
  destruct (read_pages_ok N t Hup fuel [] (table t) "" fq reqs r) as (r' & -> & _); [done|done| |].
  { specialize (Hfuel t ltac:(by left)). lia. }
  rewrite IH; [|done|intros t' Ht'; apply Hfuel; by right].
  unfold whole_table. simpl. by destruct (ParseFQNameRowGetUUIDList t (table t) fq [] "") as [[fq1 l1] last1].
Qed.
End Names.

(** C16: reading the table of names in pages, with reads that fail and are tried again, comes to
    an end once the database answers, and is reading the whole table: every column of every
    type is taken once, in order, its name is kept, and its object is requested. *)
Theorem names_read_once (table : string → list string) (up : nat → bool) (count N fuel : nat) types :
  (∀ t, StronglySorted str_lt (table t)) → (2 ≤ count)%nat → (∀ r, (N ≤ r)%nat → up r = true) →
  (∀ t, t ∈ types → (N + length (table t) < fuel)%nat) →
  FQNameReader (get_row table up) (λ _, false) count fuel types ∅ [] 0 =
  Some ((whole_table table types ∅ []).1, (whole_table table types ∅ []).2, true).
Proof. intros Ht Hc Hup Hfuel. by apply (names_in_pages table up count Ht Hc N). Qed.

(** Three columns in pages of two, the first two reads failing *)
Lemma names_read_once_witness :
  let table (t : string) := if decide (t = "vn"%string) then ["a:1"; "b:2"; "c:3"]%string else [] in
  FQNameReader (get_row table (λ r, (2 <=? r)%nat)) (λ _, false) 2 6 ["vn"%string] ∅ [] 0 =
    Some ((whole_table table ["vn"%string] ∅ []).1, (whole_table table ["vn"%string] ∅ []).2, true) ∧
  (whole_table table ["vn"%string] ∅ []).2 = [mkReq "CREATE" "vn" "1"; mkReq "CREATE" "vn" "2"; mkReq "CREATE" "vn" "3"].
Proof.
  intros table. split; [|done]. apply (names_read_once table (λ r, (2 <=? r)%nat) 2 2 6 ["vn"%string]).
  - intros t. unfold table. case_decide; repeat constructor.
  - lia.
  - intros r Hr. by apply Nat.leb_le.
  - intros t ->%list_elem_of_singleton. simpl. lia.
Defined.

(** ** Where the code differs from what it means to do *)

(** The request that marks the end of the bulk read has the empty key, the first of the read
    set: the end is announced while objects that were requested before it are not read, here
    because the database does not answer. *)
Lemma end_of_config_first :
  let st := mkState ∅ [] ex_fq 1 false 0 (∅ : gmap string View) in
  let st := (AddUUIDToRequestList "CREATE" "vn" "u1" st).2 in
  let st := (AddUUIDToRequestList "EndOfConfig" "" "" st).2 in
  ∃ st', ConfigReader (λ _ _, None) (λ _, false) 4096 512 st = Ret (false, st') ∧
    end_of_rib_computed st' = true ∧ find "u1" (uuid_read_set st') = Some (mkReq "CREATE" "vn" "u1") ∧
    object_cache_map st' = ∅.
Proof. eexists. split; [reflexivity|]. split; [reflexivity|]. split; reflexivity. Qed.

End CRT.
