(* ===== verification/TaskTrigger.v ===== *)
(** * Task triggers: src/base/task_trigger.cc, task_trigger.h

    A trigger runs a function in a task: [Set] enqueues one unless there is one already, and
    the task runs again until the function says that it is done.  A task that sets the
    trigger while the function runs is not to be lost.  The code has no lock for that: it
    relies on the task policy, which keeps the tasks that set the trigger from running with
    the task of the trigger.

    The first part is the trigger in the pieces between which threads interleave, with a
    client that leaves work and sets the trigger.  The second part is the trigger of the
    reader of configuration requests, whose policy ([SetDefaultSchedulingPolicy]) excludes
    the task that adds requests. *)

From Stdlib Require Import Ascii String.
From stdpp Require Import gmap list strings.
From S2P Require Import Prelude OrderedMap ConfigCassandra ConfigCassandraThms ConfigReader.
Open Scope Z_scope.

Module TT.

(** ** The trigger *)

(** A task of the trigger: enqueued, in [func_], or between [func_] and [Reset] *)
Inductive Phase := Queued | InFunc | Returned.
#[export] Instance Phase_eq_dec : EqDecision Phase.
Proof. solve_decision. Defined.

Record TaskTrigger := mkTrigger {
  trigger_ : bool; disabled_ : bool; deferred_ : bool;
  tasks : list Phase;
}.
Definition new_TaskTrigger : TaskTrigger := mkTrigger false false false [].
Definition with_tasks (l : list Phase) (t : TaskTrigger) : TaskTrigger :=
  mkTrigger (trigger_ t) (disabled_ t) (deferred_ t) l.

Definition Set_ (t : TaskTrigger) : TaskTrigger :=
  mkTrigger true (disabled_ t) (deferred_ t) (if trigger_ t then tasks t else tasks t ++ [Queued]).
Definition Reset (t : TaskTrigger) : TaskTrigger := mkTrigger false (disabled_ t) (deferred_ t) (tasks t).
Definition IsSet (t : TaskTrigger) : bool := trigger_ t.
(** The destructor *)
Definition destroy (t : TaskTrigger) : outcome unit := assert_that (negb (trigger_ t)).

Definition set_disable (t : TaskTrigger) : outcome TaskTrigger :=
  assert_that (negb (disabled_ t));; Ret (mkTrigger (trigger_ t) true (deferred_ t) (tasks t)).
Definition set_enable (t : TaskTrigger) : outcome TaskTrigger :=
  assert_that (disabled_ t);; Ret (Set_ (mkTrigger (trigger_ t) false (deferred_ t) (tasks t))).
Definition set_deferred (t : TaskTrigger) : outcome TaskTrigger :=
  assert_that (negb (deferred_ t));; Ret (mkTrigger (trigger_ t) (disabled_ t) true (tasks t)).
Definition clear_deferred (t : TaskTrigger) : outcome TaskTrigger :=
  assert_that (deferred_ t);; Ret (mkTrigger (trigger_ t) (disabled_ t) false (tasks t)).

(** [WorkerTask::Run], up to the call of the function, after a call that returned [done], and
    the end *)
Definition Run_start (t : TaskTrigger) : option TaskTrigger :=
  match tasks t with
  | Queued :: l =>
      Some (if disabled_ t then Reset (with_tasks l t)
            else if deferred_ t then t
            else with_tasks (InFunc :: l) t)
  | _ => None
  end.
Definition Run_func (done : bool) (t : TaskTrigger) : option TaskTrigger :=
  match tasks t with
  | InFunc :: l => Some (with_tasks ((if done then Returned else Queued) :: l) t)
  | _ => None
  end.
Definition Run_end (t : TaskTrigger) : option TaskTrigger :=
  match tasks t with Returned :: l => Some (Reset (with_tasks l t)) | _ => None end.

(** ** A client that leaves work for the function *)

(** The function is done when there is no work left. *)
Inductive step (exclusive : bool) : Z * TaskTrigger → Z * TaskTrigger → Prop :=
| step_request w t : 0 ≤ w → (exclusive = true → ∀ l, tasks t ≠ InFunc :: l ∧ tasks t ≠ Returned :: l) →
    step exclusive (w, t) (w + 1, Set_ t)
| step_start w t t' : Run_start t = Some t' → step exclusive (w, t) (w, t')
| step_some w w' t t' : Run_func false t = Some t' → 0 ≤ w' ≤ w → step exclusive (w, t) (w', t')
| step_all w t t' : Run_func true t = Some t' → step exclusive (w, t) (0, t')
| step_end w t t' : Run_end t = Some t' → step exclusive (w, t) (w, t')
| step_deferred w t t' : set_deferred t = Ret t' → step exclusive (w, t) (w, t')
| step_undeferred w t t' : clear_deferred t = Ret t' → step exclusive (w, t) (w, t').
Definition reachable (exclusive : bool) (s : Z * TaskTrigger) : Prop := rtc (step exclusive) (0, new_TaskTrigger) s.

(** Without exclusion a request that comes after the function has looked for work and before
    [Reset] is left without a task. *)
Lemma unexcluded_request_lost : reachable false (1, new_TaskTrigger).
Proof.
  eapply rtc_l; [by apply step_request|].
  eapply rtc_l; [by apply step_start|].
  eapply rtc_l; [by apply step_all|].
  eapply rtc_l; [by apply step_request|].
  eapply rtc_l; [by apply step_end|]. apply rtc_refl.
Qed.

(** With it there is at most one task, the trigger is set exactly while there is one, and
    work waits for a task that has not looked for it yet. *)
Definition trigger_inv (s : Z * TaskTrigger) : Prop :=
  disabled_ s.2 = false ∧ 0 ≤ s.1 ∧
  match tasks s.2 with
  | [] => trigger_ s.2 = false ∧ s.1 = 0
  | [Returned] => trigger_ s.2 = true ∧ s.1 = 0
  | [_] => trigger_ s.2 = true
  | _ => False
  end.

Lemma trigger_step s s' : step true s s' → trigger_inv s → trigger_inv s'.
Proof.
  intros Hs (Hd & Hw & Hm). destruct Hs as [w t Hw0 Hx|w t t' H|w w' t t' H Hw'|w t t' H|w t t' H|w t t' H|w t t' H];
    destruct t as [tr di de ts]; simpl in *; subst di; unfold trigger_inv, Run_start, Run_func, Run_end, set_deferred, clear_deferred in *; simpl in *;
    destruct ts as [|[] [|]]; simpl in *; try done; destruct_and?; subst; simplify_eq/=;
    try (destruct de; simplify_eq/=); split_and?; try done; try lia.
  all: try (by destruct (Hx eq_refl [])).
Qed.

Lemma trigger_no_lost_work w t :
  reachable true (w, t) → 0 < w → trigger_ t = true ∧ (tasks t = [Queued] ∨ tasks t = [InFunc]).
Proof.
  intros Hr Hw. assert (trigger_inv (w, t)) as (_ & _ & Hm).
  { change (w, t) with ((w, t) : Z * TaskTrigger). remember (w, t) as s eqn:E. clear E Hw. revert Hr.
    apply (rtc_ind_r trigger_inv); [done|]. intros y z _ Hyz. by apply trigger_step. }
  simpl in Hm. destruct (tasks t) as [|[] [|]]; simpl in Hm; naive_solver lia.
Qed.

(** ** The reader of a partition and the task that adds requests *)
Import OM CC CCT CR.

Section Partition.
Context {W : Type} `{!Consumer W}.
Context (bunch max_yield : Z).

Record Partition := mkPartition { part : State (W := W); config_reader : TaskTrigger }.
Definition new_Partition (w : W) (now : Z) : Partition := mkPartition (mkState ∅ [] ∅ 0 false now w) new_TaskTrigger.

(** [RequestHandler] *)
Definition RequestHandler (req : Request) (p : Partition) : Partition :=
  let '(trigger, st) := AddUUIDToRequestList (oper req) (r_obj_type req) (uuid req) (part p) in
  mkPartition st (if (trigger : bool) then Set_ (config_reader p) else config_reader p).

(** One run of the worker task with [ConfigReader] for its function *)
Definition run_reader (db : nat → list string → Rows) (reinit : nat → bool) (p : Partition) : outcome (option Partition) :=
  match Run_start (config_reader p) with
  | None => Ret None
  | Some t =>
      match tasks t with
      | InFunc :: _ =>
          '(done, st) ← ConfigReader db reinit bunch max_yield (part p);
          Ret (t ← Run_func done t; t ← (if (done : bool) then Run_end t else Some t); Some (mkPartition st t))
      | _ => Ret (Some (mkPartition (part p) t))
      end
  end.

(** The policy keeps the two tasks apart, so that each runs as a whole.  The names, the clock
    and the consumer change at any time; the read set does not. *)
Inductive pstep : Partition → Partition → Prop :=
| pstep_request req p : pstep p (RequestHandler req p)
| pstep_run db reinit p p' : run_reader db reinit p = Ret (Some p') → pstep p p'
| pstep_other p st : uuid_read_set st = uuid_read_set (part p) → pstep p (mkPartition st (config_reader p)).
Definition partition_reachable (p : Partition) : Prop := ∃ w now, rtc pstep (new_Partition w now) p.

Lemma reader_done_empty db reinit st st' : ConfigReader db reinit bunch max_yield st = Ret (true, st') → uuid_read_set st' = [].
Proof.
  assert (∀ (st st' : State (W := W)), (assert_that (bool_decide (uuid_read_set st = []));; Ret (true, st)) = Ret (true, st') → uuid_read_set st' = []) as Hf.
  { intros s s'. case_bool_decide; simpl; intros ?; by simplify_eq. }
  unfold ConfigReader. intros (e & _ & H)%outcome_bind_ret. destruct e as [|s bl i r]; [done|].
  case_bool_decide; [by apply Hf in H|]. destruct (reinit i); [by apply Hf in H|].
  apply outcome_bind_ret in H as ([ok s1] & _ & H). destruct ok; simpl in H; [|done].
  apply outcome_bind_ret in H as (s2 & _ & H). by apply Hf in H.
Qed.

(** The worker task is enqueued whenever a request waits, and the trigger is set exactly
    while there is a worker task. *)
Definition partition_inv (p : Partition) : Prop :=
  disabled_ (config_reader p) = false ∧ deferred_ (config_reader p) = false ∧
  if bool_decide (uuid_read_set (part p) = []) then
    (tasks (config_reader p) = [] ∧ trigger_ (config_reader p) = false) ∨
    (tasks (config_reader p) = [Queued] ∧ trigger_ (config_reader p) = true)
  else tasks (config_reader p) = [Queued] ∧ trigger_ (config_reader p) = true.

Lemma insert_new_not_nil {V} k (v : V) m : insert_new k v m ≠ [].
Proof. destruct m as [|[k' v'] m]; simpl; [done|]. repeat case_match; done. Qed.

Lemma pstep_inv p p' : pstep p p' → partition_inv p → partition_inv p'.
Proof.
  intros Hs (Hd & Hf & Hm). destruct Hs as [req p|db reinit p p' H|p st Hst].
  - unfold RequestHandler, AddUUIDToRequestList. destruct (find (uuid req) (uuid_read_set (part p))) as [r|] eqn:Er.
    + split; [done|]. split; [done|]. simpl.
      rewrite (bool_decide_false (uuid_read_set (part p) = [])) in Hm by (intros Hn; by rewrite Hn in Er).
      rewrite bool_decide_false; [done|]. intros Hn. apply (f_equal (fmap fst)) in Hn. rewrite keys_assign in Hn.
      apply fmap_nil_inv in Hn. by rewrite Hn in Er.
    + simpl. unfold partition_inv. simpl. rewrite (bool_decide_false (insert_new _ _ _ = [])) by apply insert_new_not_nil.
      case_bool_decide as Hn; simpl; [|done]. split; [done|]. split; [done|].
      destruct Hm as [[-> ->]|[-> ->]]; done.
  - unfold run_reader, Run_start in H. rewrite Hd, Hf in H.
    assert (tasks (config_reader p) = [] ∨ tasks (config_reader p) = [Queued] ∧ trigger_ (config_reader p) = true) as Hts
      by (case_bool_decide; naive_solver).
    destruct Hts as [Hts|[Hts Htr]]; rewrite Hts in H; [by simplify_eq|]. simpl in H.
    apply outcome_bind_ret in H as ([done st'] & Hx & H). destruct done; simpl in H; simplify_eq.
    + apply reader_done_empty in Hx. split; [done|]. split; [done|]. simpl. rewrite bool_decide_true by done. by left.
    + split; [done|]. split; [done|]. simpl. destruct (bool_decide (uuid_read_set st' = [])); [right|]; done.
  - split; [done|]. split; [done|]. simpl. by rewrite Hst.
Qed.
End Partition.

(** C25: a request that waits is never forgotten: whatever the database answers and whenever
    a new start is asked for, while the read set is not empty the task of the reader is
    enqueued, once, and when there is no task the trigger can be destroyed. *)
Theorem requests_keep_reader {W : Type} `{!Consumer W} bunch max_yield (p : Partition (W := W)) :
  partition_reachable bunch max_yield p →
  (uuid_read_set (part p) ≠ [] → tasks (config_reader p) = [Queued] ∧ IsSet (config_reader p) = true) ∧
  (tasks (config_reader p) = [] → destroy (config_reader p) = Ret tt) ∧
  (length (tasks (config_reader p)) ≤ 1)%nat.
Proof.
  intros (w & t & Hr). assert (partition_inv p) as (_ & _ & Hm).
  { revert Hr. apply (rtc_ind_r partition_inv); [split; [done|]; split; [done|]; by left|].
    intros y z _ Hyz. by eapply pstep_inv. }
  unfold IsSet, destroy. case_bool_decide as Hn.
  - split; [done|]. destruct Hm as [[-> ->]|[-> ->]]; simpl; (split; [done|lia]).
  - destruct Hm as [-> ->]. simpl. split; [done|]. split; [done|lia].
Qed.

(** A request that was added while another one waits *)
Definition ex_partition : Partition (W := gmap string (gmap string (string * string))) :=
  RequestHandler (mkReq "DELETE" "vn" "u2") (RequestHandler (mkReq "CREATE" "vn" "u1") (new_Partition ∅ 0)).

Lemma requests_keep_reader_witness :
  uuid_read_set (part ex_partition) ≠ [] ∧
  (uuid_read_set (part ex_partition) ≠ [] → tasks (config_reader ex_partition) = [Queued] ∧ IsSet (config_reader ex_partition) = true) ∧
  (tasks (config_reader ex_partition) = [] → destroy (config_reader ex_partition) = Ret tt) ∧
  (length (tasks (config_reader ex_partition)) ≤ 1)%nat.
Proof.
  split; [done|]. apply (requests_keep_reader 4096 512 ex_partition). exists ∅, 0.
  eapply rtc_l; [apply pstep_request|]. eapply rtc_l; [apply pstep_request|]. apply rtc_refl.
Defined.

End TT.
