(* ===== verification/RequestPipeline.v ===== *)
(** * Request pipelines: src/sandesh/library/cpp/request_pipeline.cc, request_pipeline.h

    A pipeline has stages; a stage runs an instance of its callback in a task for each
    number of [instances_], in parallel, and the next stage begins when they are all done.
    One pipeline runs at a time; the others wait.  The last task of the last stage deletes
    its pipeline and starts the next one.

    The threads interleave between the sections of this file: a call of the callback, the
    decrement of [remainingInst_] with what follows it, the creation of one worker, and the
    sections under [mutex_], which is not recursive.  [Abort] is the use of a pipeline that
    was deleted or an index out of range. *)

From stdpp Require Import gmap list.
From S2P Require Import Prelude.
Open Scope Z_scope.

Module RP.

(** [PipeImpl]: the number of instances of each stage, [currentStage_], and [remainingInst_]
    of each stage that has begun *)
Record PipeImpl := mkPipe { stages_ : list nat; currentStage_ : Z; stageImpls_ : list Z }.

(** What a thread does next *)
Inductive Thread :=
| TRun (p i : nat)                       (* a worker: call the callback *)
| TDone (p i : nat)                      (* the callback returned true: [DoneInstance] *)
| TLaunch (p i n : nat) (lock : bool)    (* in [NextStage]: enqueue worker [i] of [n] *)
| TUnlock                                (* return, and release [mutex_] *)
| TNext                                  (* the pipeline is deleted: take [mutex_] for the next one *)
| TDeadlock.                             (* waits for a mutex that the thread itself holds *)
#[export] Instance Thread_eq_dec : EqDecision Thread.
Proof. solve_decision. Defined.

(** A call that returned true: pipeline, stage, instance *)
Definition event : Type := nat * Z * nat.

Record State := mkState {
  created : list (list nat);             (* the stages of every pipeline; its name is its position *)
  pipes : gmap nat PipeImpl;             (* those that are not deleted *)
  mutex_ : bool; activePipes_ : Z; pendPipes_ : list nat;
  threads : list Thread;
  log : list event;
}.
Definition new_State : State := mkState [] ∅ false 0 [] [] [].
Definition set_pipe (p : nat) (x : PipeImpl) (s : State) : State :=
  mkState (created s) (<[p := x]> (pipes s)) (mutex_ s) (activePipes_ s) (pendPipes_ s) (threads s) (log s).
Definition drop_pipe (p : nat) (s : State) : State :=
  mkState (created s) (delete p (pipes s)) (mutex_ s) (activePipes_ s) (pendPipes_ s) (threads s) (log s).
Definition set_global (m : bool) (a : Z) (q : list nat) (s : State) : State :=
  mkState (created s) (pipes s) m a q (threads s) (log s).
Definition set_threads (t : list Thread) (s : State) : State :=
  mkState (created s) (pipes s) (mutex_ s) (activePipes_ s) (pendPipes_ s) t (log s).
Definition add_log (e : event) (s : State) : State :=
  mkState (created s) (pipes s) (mutex_ s) (activePipes_ s) (pendPipes_ s) (threads s) (log s ++ [e]).

Definition get_pipe (p : nat) (s : State) : outcome PipeImpl :=
  match pipes s !! p with Some x => Ret x | None => Abort end.
Definition at_ {A} (l : list A) (i : Z) : outcome A :=
  if i <? 0 then Abort else match l !! Z.to_nat i with Some x => Ret x | None => Abort end.

(** What is left of [NextStage] when no worker is to be created *)
Definition unlocking (lock : bool) : list Thread := if lock then [TUnlock] else [].

(** [NextStage]: the state and what the thread does then; [lock]: the caller holds [mutex_] *)
Definition NextStage (p : nat) (lock : bool) (s : State) : outcome (State * list Thread) :=
  x ← get_pipe p s;
  let c := currentStage_ x + 1 in
  if c =? Z.of_nat (length (stages_ x)) then
    Ret (drop_pipe p s, [if lock then TDeadlock else TNext])
  else
    n ← at_ (stages_ x) c;
    let s := set_pipe p (mkPipe (stages_ x) c (stageImpls_ x ++ [Z.of_nat n])) s in
    Ret (s, if bool_decide (n = 0%nat) then unlocking lock else [TLaunch p 0 n lock]).

(** [DecrInst] of the current stage: the state and the value before *)
Definition DecrInst (p : nat) (s : State) : outcome (State * Z) :=
  x ← get_pipe p s;
  prev ← at_ (stageImpls_ x) (currentStage_ x);
  Ret (set_pipe p (mkPipe (stages_ x) (currentStage_ x) (<[Z.to_nat (currentStage_ x) := prev - 1]> (stageImpls_ x))) s, prev).

(** [RunInstance], with what the callback returns; [data_] has an element for each instance
    of the stage *)
Definition RunInstance (p i : nat) (ret : bool) (s : State) : outcome (State * list Thread) :=
  x ← get_pipe p s;
  n ← at_ (stages_ x) (currentStage_ x);
  _ ← at_ (stageImpls_ x) (currentStage_ x);
  assert_that (i <? n)%nat;;
  Ret (if ret then (add_log (p, currentStage_ x, i) s, [TDone p i]) else (s, [TRun p i])).

Definition DoneInstance (p : nat) (s : State) : outcome (State * list Thread) :=
  '(s, prev) ← DecrInst p s;
  if prev =? 1 then NextStage p false s else Ret (s, []).

(** One turn of the loop of [NextStage] that creates the workers.  After the last one the loop
    ends without a look at the pipeline. *)
Definition Launch (p i n : nat) (lock : bool) (s : State) : outcome (State * list Thread) :=
  _ ← get_pipe p s;
  Ret (s, TRun p i :: (if (S i <? n)%nat then [TLaunch p (S i) n lock] else unlocking lock)).

(** The end of [NextStage] of a pipeline that was deleted, once the thread has [mutex_] *)
Definition NextPipe (s : State) : outcome (State * list Thread) :=
  match pendPipes_ s with
  | q :: pend => NextStage q true (set_global true (activePipes_ s) pend s)
  | [] => Ret (set_global false (activePipes_ s - 1) [] s, [])
  end.

(** A thread goes on; [None]: it waits for [mutex_] *)
Definition exec (t : Thread) (ret : bool) (s : State) : outcome (option (State * list Thread)) :=
  match t with
  | TRun p i => r ← RunInstance p i ret s; Ret (Some r)
  | TDone p i => r ← DoneInstance p s; Ret (Some r)
  | TLaunch p i n lock => r ← Launch p i n lock s; Ret (Some r)
  | TUnlock => Ret (Some (set_global false (activePipes_ s) (pendPipes_ s) s, []))
  | TNext => if mutex_ s then Ret None else r ← NextPipe s; Ret (Some r)
  | TDeadlock => Ret None
  end.

(** [PipeImpl::PipeImpl], when [mutex_] is free *)
Definition new_PipeImpl (stages : list nat) (s : State) : outcome (State * list Thread) :=
  let p := length (created s) in
  let s := mkState (created s ++ [stages]) (<[p := mkPipe stages (-1) []]> (pipes s)) (mutex_ s) (activePipes_ s)
             (pendPipes_ s) (threads s) (log s) in
  if activePipes_ s <? 1 then NextStage p true (set_global true (activePipes_ s + 1) (pendPipes_ s) s)
  else Ret (set_global (mutex_ s) (activePipes_ s) (pendPipes_ s ++ [p]) s, []).

(** ** Steps *)

(** A thread goes on, or a request makes a pipeline *)
Inductive run_step (ret : bool) : State → State → Prop :=
| run_thread s t l1 l2 s' ts :
    threads s = l1 ++ t :: l2 → exec t ret s = Ret (Some (s', ts)) →
    run_step ret s (set_threads (ts ++ l1 ++ l2) s').
Inductive step : State → State → Prop :=
| step_run ret s s' : run_step ret s s' → step s s'
| step_new stages s s' ts :
    mutex_ s = false → stages ≠ [] → Forall (λ n, (1 ≤ n)%nat) stages →
    new_PipeImpl stages s = Ret (s', ts) → step s (set_threads (ts ++ threads s) s').
Definition reachable (s : State) : Prop := rtc step new_State s.

(** ** What the callbacks are to do *)

(** The calls of a stage, in any order, then those of the next one *)
Inductive Blocks : list (nat * Z * nat) → list event → Prop :=
| Blocks_nil : Blocks [] []
| Blocks_snoc bs l p c n b :
    Blocks bs l → b ≡ₚ ((λ i, (p, c, i)) <$> seq 0 n) → Blocks (bs ++ [(p, c, n)]) (l ++ b).
Definition pipe_blocks (p : nat) (stages : list nat) : list (nat * Z * nat) := imap (λ c n, (p, Z.of_nat c, n)) stages.
Definition all_blocks (l : list (list nat)) : list (nat * Z * nat) := concat (imap pipe_blocks l).

(** ** The invariant *)

Definition proper (stages : list nat) : Prop := stages ≠ [] ∧ Forall (λ n, (1 ≤ n)%nat) stages.

(** The pipelines from a number on have not begun. *)
Definition pending_from (d : nat) (s : State) : Prop :=
  pendPipes_ s = seq d (length (created s) - d) ∧
  ∀ q sp, (d ≤ q)%nat → created s !! q = Some sp → pipes s !! q = Some (mkPipe sp (-1) []).

(** A thread that creates the workers of a stage has come to one of them. *)
Definition launcher (d n : nat) (L : option (nat * bool)) : list Thread :=
  match L with Some (i, lock) => [TLaunch d i n lock] | None => [] end.
Definition to_launch (n : nat) (L : option (nat * bool)) : list nat :=
  match L with Some (i, _) => seq i (n - i) | None => [] end.
Definition holds_lock (L : option (nat * bool)) : bool := match L with Some (_, true) => true | _ => false end.

(** Stage [c] of pipeline [d] runs: the instances [E] are counted, [D] have returned, [R] are
    to be called and the others are to be created. *)
Record StageRuns (s : State) (d : nat) (sp : list nat) (c n : nat) (E D R : list nat) (L : option (nat * bool)) (u : bool)
    (l0 l1 : list event) : Prop := mkStageRuns {
  sr_proper : Forall proper (created s);
  sr_active : activePipes_ s = 1;
  sr_created : created s !! d = Some sp;
  sr_stage : sp !! c = Some n;
  sr_pending : pending_from (S d) s;
  sr_pipe : pipes s !! d = Some (mkPipe sp (Z.of_nat c) (replicate c 0 ++ [Z.of_nat (n - length E)]));
  sr_threads : threads s ≡ₚ (TRun d <$> R) ++ (TDone d <$> D) ++ launcher d n L ++ unlocking u;
  sr_instances : E ++ D ++ R ++ to_launch n L ≡ₚ seq 0 n;
  sr_launch : ∀ i lock, L = Some (i, lock) → (i < n)%nat;
  sr_left : (length E < n)%nat;
  sr_mutex : mutex_ s = holds_lock L || u;
  sr_exclusive : holds_lock L && u = false;
  sr_log : log s = l0 ++ l1;
  sr_blocks : Blocks (all_blocks (take d (created s)) ++ take c (pipe_blocks d sp)) l0;
  sr_calls : l1 ≡ₚ ((λ i, (d, Z.of_nat c, i)) <$> E ++ D);
}.

(** Nothing runs; a pipeline was deleted and the next one is to begin; or a stage runs. *)
Inductive Inv (s : State) : Prop :=
| Idle :
    Forall proper (created s) → activePipes_ s = 0 → mutex_ s = false → pendPipes_ s = [] → threads s = [] →
    Blocks (all_blocks (created s)) (log s) → Inv s
| Between d :
    Forall proper (created s) → activePipes_ s = 1 → (d ≤ length (created s))%nat → pending_from d s →
    threads s ≡ₚ TNext :: unlocking (mutex_ s) → Blocks (all_blocks (take d (created s))) (log s) → Inv s
| Running d sp c n E D R L u l0 l1 : StageRuns s d sp c n E D R L u l0 l1 → Inv s.

(** *** What is still to be done *)
Definition stage_work (n : nat) : nat := 3 * n + 1.
Definition weight (t : Thread) : nat :=
  match t with
  | TRun _ _ => 2
  | TDone _ _ => 1
  | TLaunch _ i n lock => stage_work (n - i) + (if lock then 1 else 0)
  | TUnlock | TNext => 1
  | TDeadlock => 0
  end.
Definition pipe_work (x : option PipeImpl) : nat :=
  match x with
  | None => 0
  | Some x => sum_list (stage_work <$> drop (Z.to_nat (currentStage_ x + 1)) (stages_ x)) + (if currentStage_ x <? 0 then 2 else 1)
  end.
Definition pipes_work (s : State) : nat := sum_list ((λ q, pipe_work (pipes s !! q)) <$> seq 0 (length (created s))).
Definition work (s : State) : nat := sum_list (weight <$> threads s) + pipes_work s.

Lemma sum_list_perm (l l' : list nat) : l ≡ₚ l' → sum_list l = sum_list l'.
Proof. induction 1; simpl; lia. Qed.

Lemma sum_list_app' (l l' : list nat) : sum_list (l ++ l') = (sum_list l + sum_list l')%nat.
Proof. induction l; simpl; lia. Qed.

Lemma sum_change (f g : nat → nat) q n : ∀ i,
  (i ≤ q < i + n)%nat → (∀ k, k ≠ q → f k = g k) →
  (sum_list (f <$> seq i n) + g q = sum_list (g <$> seq i n) + f q)%nat.
Proof.
  induction n as [|n IH]; intros i Hq Hne; [lia|]. cbn [seq]. rewrite !fmap_cons. cbn [sum_list_with id].
  destruct (decide (i = q)) as [->|Hi].
  - rewrite (list_fmap_ext f g (seq (S q) n)); [lia|].
    intros j k Hk. apply Hne. apply lookup_seq in Hk. lia.
  - specialize (IH (S i) ltac:(lia) Hne). rewrite (Hne i Hi). lia.
Qed.

Lemma pipes_work_set q x s : (q < length (created s))%nat →
  (pipes_work (set_pipe q x s) + pipe_work (pipes s !! q) = pipes_work s + pipe_work (Some x))%nat.
Proof.
  intros Hq. unfold pipes_work. simpl.
  rewrite (sum_change (λ k, pipe_work (<[q:=x]> (pipes s) !! k)) (λ k, pipe_work (pipes s !! k)) q); [|lia|].
  - by rewrite lookup_insert_eq.
  - intros k Hk. by rewrite lookup_insert_ne.
Qed.

Lemma pipes_work_drop q s : (q < length (created s))%nat →
  (pipes_work (drop_pipe q s) + pipe_work (pipes s !! q) = pipes_work s)%nat.
Proof.
  intros Hq. unfold pipes_work. simpl.
  rewrite (sum_change (λ k, pipe_work (delete q (pipes s) !! k)) (λ k, pipe_work (pipes s !! k)) q); [|lia|].
  - rewrite lookup_delete_eq. simpl. lia.
  - intros k Hk. by rewrite lookup_delete_ne.
Qed.

(** *** Shared facts *)

Lemma at_lookup_ret {A} (l : list A) (c : nat) x : l !! c = Some x → at_ l (Z.of_nat c) = Ret x.
Proof. intros H. unfold at_. rewrite (proj2 (Z.ltb_ge _ _)) by lia. by rewrite Nat2Z.id, H. Qed.

(** A thread is one of a list of them. *)
Lemma pick_fmap (f : nat → Thread) (l X : list Thread) (R : list nat) i :
  f i :: l ≡ₚ (f <$> R) ++ X → i ∈ R → ∃ R', R ≡ₚ i :: R' ∧ l ≡ₚ (f <$> R') ++ X.
Proof.
  intros Hp (R1 & R2 & ->)%list_elem_of_split. exists (R1 ++ R2). split; [by rewrite Permutation_middle|].
  rewrite fmap_app, fmap_cons, <- (assoc_L (++)) in Hp. simpl in Hp.
  apply Permutation_cons_app_inv in Hp. by rewrite fmap_app, <- (assoc_L (++)).
Qed.

Lemma all_blocks_snoc l sp : all_blocks (l ++ [sp]) = all_blocks l ++ pipe_blocks (length l) sp.
Proof.
  unfold all_blocks. rewrite imap_app, concat_app. simpl. by rewrite Nat.add_0_r, app_nil_r.
Qed.

Lemma all_blocks_take l d sp : l !! d = Some sp → all_blocks (take (S d) l) = all_blocks (take d l) ++ pipe_blocks d sp.
Proof.
  intros H. rewrite (take_S_r l d sp H), all_blocks_snoc. f_equal. f_equal.
  apply lookup_lt_Some in H. rewrite length_take. lia.
Qed.

Lemma pipe_blocks_take d sp c n : sp !! c = Some n →
  take (S c) (pipe_blocks d sp) = take c (pipe_blocks d sp) ++ [(d, Z.of_nat c, n)].
Proof. intros H. apply take_S_r. unfold pipe_blocks. by rewrite list_lookup_imap, H. Qed.

Lemma work_threads l s : work (set_threads l s) = (sum_list (weight <$> l) + pipes_work s)%nat.
Proof. reflexivity. Qed.

Lemma weight_perm l l' : l ≡ₚ l' → sum_list (weight <$> l) = sum_list (weight <$> l').
Proof. intros H. apply sum_list_perm. by rewrite H. Qed.

Lemma pending_from_set d q x s : (q < d)%nat → pending_from d s → pending_from d (set_pipe q x s).
Proof.
  intros Hq [Hp Hx]. split; [exact Hp|]. intros k sp Hk Hc. simpl. rewrite lookup_insert_ne by lia. by apply Hx.
Qed.

Lemma pending_from_drop d q s : (q < d)%nat → pending_from d s → pending_from d (drop_pipe q s).
Proof.
  intros Hq [Hp Hx]. split; [exact Hp|]. intros k sp Hk Hc. simpl. rewrite lookup_delete_ne by lia. by apply Hx.
Qed.

Lemma proper_positive l d sp c n : Forall proper l → l !! d = Some sp → sp !! c = Some n → (1 ≤ n)%nat.
Proof.
  intros Hall Hd Hc. pose proof (Forall_lookup_1 _ _ _ _ Hall Hd) as [_ Hsp]. exact (Forall_lookup_1 _ _ _ _ Hsp Hc).
Qed.

(** *** A stage begins *)

Lemma begin_stage d sp c n lock s :
  pipes s !! d = Some (mkPipe sp (Z.of_nat c - 1) (replicate c 0)) → sp !! c = Some n → (1 ≤ n)%nat →
  NextStage d lock s = Ret (set_pipe d (mkPipe sp (Z.of_nat c) (replicate c 0 ++ [Z.of_nat n])) s, [TLaunch d 0 n lock]).
Proof.
  intros Hp Hc Hn. unfold NextStage, get_pipe. rewrite Hp. cbn.
  replace (Z.of_nat c - 1 + 1) with (Z.of_nat c) by lia.
  pose proof (lookup_lt_Some _ _ _ Hc). rewrite (proj2 (Z.eqb_neq _ _)) by lia.
  rewrite (at_lookup_ret _ _ _ Hc). cbn. by rewrite bool_decide_eq_false_2 by lia.
Qed.

Lemma begin_inv d sp c n lock u l s :
  Forall proper (created s) → activePipes_ s = 1 → created s !! d = Some sp → sp !! c = Some n → pending_from (S d) s →
  Blocks (all_blocks (take d (created s)) ++ take c (pipe_blocks d sp)) (log s) →
  mutex_ s = lock || u → lock && u = false → l ≡ₚ unlocking u →
  Inv (set_threads (TLaunch d 0 n lock :: l) (set_pipe d (mkPipe sp (Z.of_nat c) (replicate c 0 ++ [Z.of_nat n])) s)).
Proof.
  intros Hall Ha Hd Hc Hpend Hb Hm Hlu Hl. pose proof (proper_positive _ _ _ _ _ Hall Hd Hc).
  apply (Running _ d sp c n [] [] [] (Some (0%nat, lock)) u (log s) []). constructor; simpl; try done.
  - apply (pending_from_set (S d) d); [lia|done].
  - by rewrite lookup_insert_eq, Nat.sub_0_r.
  - by rewrite Hl.
  - by rewrite Nat.sub_0_r.
  - intros i k [= <- _]. lia.
  - by rewrite Hm; destruct lock.
  - by destruct lock.
  - by rewrite app_nil_r.
Qed.

Lemma begin_work d sp c n lock s r :
  (d < length (created s))%nat → pipes s !! d = Some (mkPipe sp (Z.of_nat c - 1) r) → sp !! c = Some n →
  (weight (TLaunch d 0 n lock) + pipes_work (set_pipe d (mkPipe sp (Z.of_nat c) (replicate c 0%Z ++ [Z.of_nat n])) s)
   + (if bool_decide (c = 0) then 1 else 0) = pipes_work s + (if lock then 1 else 0))%nat.
Proof.
  intros Hd Hp Hc. pose proof (pipes_work_set d (mkPipe sp (Z.of_nat c) (replicate c 0 ++ [Z.of_nat n])) s Hd) as Hw.
  rewrite Hp in Hw. cbn [pipe_work currentStage_ stages_] in Hw.
  replace (Z.of_nat c - 1 + 1) with (Z.of_nat c) in Hw by lia. rewrite Nat2Z.id in Hw.
  replace (Z.to_nat (Z.of_nat c + 1)) with (S c) in Hw by lia.
  rewrite (drop_S sp n c Hc), fmap_cons in Hw. cbn [sum_list_with id] in Hw.
  rewrite (proj2 (Z.ltb_ge (Z.of_nat c) 0)) in Hw by lia.
  cbn [weight]. rewrite Nat.sub_0_r.
  case_bool_decide as H0; [subst c; change (Z.of_nat 0 - 1 <? 0) with true in Hw; cbn [negb] in Hw; lia|].
  rewrite (proj2 (Z.ltb_ge (Z.of_nat c - 1) 0)) in Hw by lia. lia.
Qed.

(** *** A thread goes on *)

Definition advances (ret : bool) (s s' : State) : Prop :=
  Inv s' ∧ created s' = created s ∧ (ret = true → (work s' < work s)%nat).

Lemma work_pick t l s : threads s ≡ₚ t :: l → work s = (weight t + sum_list (weight <$> l) + pipes_work s)%nat.
Proof. intros H. unfold work. rewrite (weight_perm _ _ H). reflexivity. Qed.

Lemma run_case ret s d sp c n E D R L u l0 l1 i l :
  StageRuns s d sp c n E D R L u l0 l1 → threads s ≡ₚ TRun d i :: l → i ∈ R →
  ∃ s' ts, RunInstance d i ret s = Ret (s', ts) ∧ advances ret s (set_threads (ts ++ l) s').
Proof.
  intros HS Ht Hi. pose proof (work_pick _ _ _ Ht) as Hw. destruct HS.
  assert (i < n)%nat as Hin.
  { assert (i ∈ seq 0 n) as Hs by (rewrite <- sr_instances0; rewrite !elem_of_app; auto). apply elem_of_seq in Hs. lia. }
  unfold RunInstance, get_pipe. rewrite sr_pipe0. cbn -[Nat.ltb]. rewrite (at_lookup_ret _ _ _ sr_stage0). cbn -[Nat.ltb].
  rewrite (at_lookup_ret _ c (Z.of_nat (n - length E))) by (apply list_lookup_middle; by rewrite length_replicate). cbn -[Nat.ltb].
  rewrite (proj2 (Nat.ltb_lt _ _) Hin). cbn. rewrite Ht in sr_threads0.
  destruct (pick_fmap (TRun d) _ _ R i sr_threads0 Hi) as (R' & HR & Hl).
  destruct ret; do 2 eexists; (split; [reflexivity|]); (split; [|split; [done|]]); [| |  |done].
  - apply (Running _ d sp c n E (i :: D) R' L u l0 (l1 ++ [(d, Z.of_nat c, i)])). constructor; simpl; try done.
    + rewrite Hl. apply Permutation_middle.
    + rewrite <- sr_instances0, HR. cbn. apply Permutation_app_head, Permutation_middle.
    + by rewrite sr_log0, (assoc_L (++)).
    + rewrite sr_calls0, !fmap_app, fmap_cons. rewrite <- Permutation_cons_append. apply Permutation_middle.
  - intros _. rewrite work_threads, Hw. change (pipes_work (add_log _ s)) with (pipes_work s).
    cbn [app]. rewrite fmap_cons. cbn [sum_list_with id weight]. lia.
  - apply (Running _ d sp c n E D R L u l0 l1). constructor; simpl; try done.
Qed.

Lemma launch_case ret s d sp c n E D R i lock u l0 l1 l :
  StageRuns s d sp c n E D R (Some (i, lock)) u l0 l1 → threads s ≡ₚ TLaunch d i n lock :: l →
  ∃ s' ts, Launch d i n lock s = Ret (s', ts) ∧ advances ret s (set_threads (ts ++ l) s').
Proof.
  intros HS Ht. pose proof (work_pick _ _ _ Ht) as Hw. destruct HS. pose proof (sr_launch0 i lock eq_refl) as Hi.
  unfold Launch, get_pipe. rewrite sr_pipe0. cbn -[Nat.ltb].
  assert (l ≡ₚ (TRun d <$> R) ++ (TDone d <$> D) ++ unlocking u) as Hl.
  { apply (Permutation_cons_inv (a := TLaunch d i n lock)). rewrite <- Ht, sr_threads0. cbn.
    rewrite !(assoc_L (++)). symmetry. apply Permutation_middle. }
  assert (seq i (n - i) = i :: seq (S i) (n - S i)) as Hseq by (replace (n - i)%nat with (S (n - S i)) by lia; done).
  cbn [to_launch] in sr_instances0. rewrite Hseq in sr_instances0.
  do 2 eexists; split; [reflexivity|]. split; [|split; [done|]].
  - destruct (Nat.ltb_spec (S i) n) as [Hlt|Hge].
    + apply (Running _ d sp c n E D (i :: R) (Some (S i, lock)) u l0 l1). constructor; simpl; try done.
      * rewrite Hl. constructor. rewrite !(assoc_L (++)). apply Permutation_middle.
      * rewrite <- sr_instances0. do 2 apply Permutation_app_head. apply Permutation_middle.
      * intros j k [= <- _]. exact Hlt.
    + replace (n - S i)%nat with 0%nat in sr_instances0 by lia.
      apply (Running _ d sp c n E D (i :: R) None (lock || u) l0 l1). constructor; simpl; try done.
      * rewrite Hl. constructor. destruct lock, u; try done. cbn. rewrite !(assoc_L (++)). apply Permutation_middle.
      * rewrite <- sr_instances0. do 2 apply Permutation_app_head. apply Permutation_middle.
      * rewrite sr_mutex0. by destruct lock.
  - intros _. rewrite work_threads, Hw. cbn [app].
    destruct (Nat.ltb_spec (S i) n), lock; cbn [app unlocking sum_list_with id weight]; rewrite ?fmap_cons, ?fmap_nil;
      cbn [sum_list_with id weight]; unfold stage_work; lia.
Qed.

Lemma unlock_case ret s d sp c n E D R L u l0 l1 l :
  StageRuns s d sp c n E D R L u l0 l1 → threads s ≡ₚ TUnlock :: l → u = true →
  advances ret s (set_threads l (set_global false (activePipes_ s) (pendPipes_ s) s)).
Proof.
  intros HS Ht ->. pose proof (work_pick _ _ _ Ht) as Hw. destruct HS. split; [|split; [done|]].
  - apply (Running _ d sp c n E D R L false l0 l1). constructor; simpl; try done.
    + apply (Permutation_cons_inv (a := TUnlock)). rewrite <- Ht, sr_threads0, app_nil_r. cbn.
      rewrite !(assoc_L (++)). symmetry. apply Permutation_cons_append.
    + by destruct L as [[? []]|].
  - intros _. rewrite work_threads, Hw. change (pipes_work (set_global _ _ _ s)) with (pipes_work s). cbn [weight]. lia.
Qed.

Lemma DecrInst_eq d sp (c : nat) v s :
  pipes s !! d = Some (mkPipe sp (Z.of_nat c) (replicate c 0 ++ [v])) →
  DecrInst d s = Ret (set_pipe d (mkPipe sp (Z.of_nat c) (replicate c 0 ++ [v - 1])) s, v).
Proof.
  intros Hp. unfold DecrInst, get_pipe. rewrite Hp. cbn.
  rewrite (at_lookup_ret _ c v) by (apply list_lookup_middle; by rewrite length_replicate). cbn.
  rewrite Nat2Z.id. do 5 f_equal. rewrite insert_app_r_alt by (rewrite length_replicate; lia).
  by rewrite length_replicate, Nat.sub_diag.
Qed.

Lemma pipes_work_same d sp c r r' s : (d < length (created s))%nat → pipes s !! d = Some (mkPipe sp c r) →
  pipes_work (set_pipe d (mkPipe sp c r') s) = pipes_work s.
Proof. intros Hd Hp. pose proof (pipes_work_set d (mkPipe sp c r') s Hd) as H. rewrite Hp in H. cbn [pipe_work currentStage_ stages_] in H. lia. Qed.

(** The stage is over with its last instance. *)
Lemma last_instance n (i : nat) (E D' R : list nat) L :
  E ++ (i :: D') ++ R ++ to_launch n L ≡ₚ seq 0 n → (∀ j lock, L = Some (j, lock) → (j < n)%nat) → S (length E) = n →
  D' = [] ∧ R = [] ∧ L = None.
Proof.
  intros Hp HL Hn. apply Permutation_length in Hp. rewrite !length_app, length_seq in Hp. cbn [length] in Hp.
  destruct D' as [|]; [|cbn in Hp; lia]. destruct R as [|]; [|cbn in Hp; lia]. split; [done|]. split; [done|].
  destruct L as [[j lock]|]; [|done]. specialize (HL j lock eq_refl). cbn in Hp. rewrite length_seq in Hp. lia.
Qed.

(** A stage whose calls are all in the log is a block of it. *)
Lemma stage_block s d sp c n E (i : nat) l0 l1 :
  sp !! c = Some n → Blocks (all_blocks (take d (created s)) ++ take c (pipe_blocks d sp)) l0 →
  l1 ≡ₚ ((λ i, (d, Z.of_nat c, i)) <$> E ++ [i]) → E ++ [i] ≡ₚ seq 0 n →
  Blocks (all_blocks (take d (created s)) ++ take (S c) (pipe_blocks d sp)) (l0 ++ l1).
Proof.
  intros Hc Hb Hl Hp. rewrite (pipe_blocks_take d sp c n Hc), (assoc_L (++)). constructor; [done|]. by rewrite Hl, Hp.
Qed.

(** The next stage begins, or the pipeline is deleted. *)
Lemma stage_over s d sp c l u :
  Forall proper (created s) → activePipes_ s = 1 → created s !! d = Some sp → (c < length sp)%nat → pending_from (S d) s →
  pipes s !! d = Some (mkPipe sp (Z.of_nat (S c) - 1) (replicate (S c) 0)) →
  Blocks (all_blocks (take d (created s)) ++ take (S c) (pipe_blocks d sp)) (log s) → mutex_ s = u → l ≡ₚ unlocking u →
  ∃ s' ts, NextStage d false s = Ret (s', ts) ∧ Inv (set_threads (ts ++ l) s') ∧ created s' = created s ∧
    (work (set_threads (ts ++ l) s') ≤ sum_list (weight <$> l) + pipes_work s)%nat.
Proof.
  intros Hall Ha Hd Hc Hpend Hp Hb Hm Hl. pose proof (lookup_lt_Some _ _ _ Hd) as Hlt.
  destruct (sp !! S c) as [n|] eqn:Hn.
  - pose proof (proper_positive _ _ _ _ _ Hall Hd Hn). rewrite (begin_stage d sp (S c) n false s Hp Hn) by done.
    do 2 eexists. split; [reflexivity|]. split; [by eapply begin_inv|]. split; [done|].
    rewrite work_threads. cbn [app]. rewrite fmap_cons.
    pose proof (begin_work d sp (S c) n false s _ Hlt Hp Hn) as Hw. cbn [sum_list_with id] in *. rewrite bool_decide_eq_false_2 in Hw by done. lia.
  - apply lookup_ge_None in Hn. unfold NextStage, get_pipe. rewrite Hp. cbn [mbind outcome_mbind].
    replace (_ =? _) with true by (symmetry; apply Z.eqb_eq; cbn [currentStage_ stages_]; lia).
    do 2 eexists. split; [reflexivity|]. split; [|split; [done|]].
    + apply (Between _ (S d)); cbn [set_threads drop_pipe created activePipes_ threads mutex_ log]; try done.
      * by apply (pending_from_drop (S d) d); [lia|].
      * cbn. by rewrite Hl, Hm.
      * rewrite (all_blocks_take _ _ _ Hd). rewrite (take_ge (pipe_blocks d sp)) in Hb; [done|]. unfold pipe_blocks. rewrite length_imap. lia.
    + rewrite work_threads. cbn [app]. rewrite fmap_cons. cbn [sum_list_with id weight].
      pose proof (pipes_work_drop d s Hlt) as Hw. rewrite Hp in Hw. cbn [pipe_work currentStage_ stages_] in Hw.
      rewrite (proj2 (Z.ltb_ge (Z.of_nat (S c) - 1) 0)) in Hw by lia. lia.
Qed.

Lemma done_case ret s d sp c n E D R L u l0 l1 i l :
  StageRuns s d sp c n E D R L u l0 l1 → threads s ≡ₚ TDone d i :: l → i ∈ D →
  ∃ s' ts, DoneInstance d s = Ret (s', ts) ∧ advances ret s (set_threads (ts ++ l) s').
Proof.
  intros HS Ht Hi. pose proof (work_pick _ _ _ Ht) as Hw. destruct HS.
  pose proof (lookup_lt_Some _ _ _ sr_created0) as Hd.
  rewrite Ht, Permutation_app_swap_app in sr_threads0.
  destruct (pick_fmap (TDone d) _ _ D i sr_threads0 Hi) as (D' & HD & Hl). rewrite HD in sr_instances0, sr_calls0.
  pose proof (pipes_work_same d _ _ _ (replicate c 0 ++ [Z.of_nat (n - length E) - 1]) s Hd sr_pipe0) as Hsame.
  unfold DoneInstance. rewrite (DecrInst_eq _ _ _ _ _ sr_pipe0). cbn -[Z.eqb].
  set (sd := set_pipe _ _ s) in *.
  destruct (Z.eqb_spec (Z.of_nat (n - length E)) 1) as [H1|H1].
  - destruct (last_instance n i E D' R L sr_instances0 sr_launch0) as (-> & -> & ->); [lia|].
    cbn in sr_instances0, Hl. pose proof (stage_block _ _ _ _ _ _ i _ _ sr_stage0 sr_blocks0 sr_calls0 sr_instances0) as Hb.
    rewrite <- sr_log0 in Hb.
    assert (pipes sd !! d = Some (mkPipe sp (Z.of_nat (S c) - 1) (replicate (S c) 0))) as Hpd.
    { unfold sd. cbn. rewrite lookup_insert_eq. rewrite H1, <- replicate_S_end. do 3 f_equal; lia. }
    destruct (stage_over sd d sp c l u) as (s' & ts & He & HI & Hcr & Hwk); try done.
    + by apply lookup_lt_Some in sr_stage0.
    + apply pending_from_set; [lia|done].
    + exists s', ts. split; [exact He|]. split; [exact HI|]. split; [exact Hcr|]. intros _. cbn [weight] in Hw. lia.
  - do 2 eexists. split; [reflexivity|]. split; [|split; [done|]].
    + apply (Running _ d sp c n (i :: E) D' R L u l0 l1). constructor; simpl; try done.
      * apply pending_from_set; [lia|done].
      * rewrite lookup_insert_eq. do 4 f_equal. f_equal. lia.
      * rewrite Hl. apply Permutation_app_swap_app.
      * rewrite <- sr_instances0. cbn. apply Permutation_middle.
      * lia.
      * rewrite sr_calls0. by rewrite <- Permutation_middle.
    + intros _. rewrite work_threads, Hw. cbn [app weight]. lia.
Qed.

(** A pipeline that waits begins. *)
Lemma pending_next d s : pending_from d s → (d < length (created s))%nat →
  ∃ sp n, created s !! d = Some sp ∧ pendPipes_ s = d :: seq (S d) (length (created s) - S d) ∧
    pipes s !! d = Some (mkPipe sp (Z.of_nat 0 - 1) (replicate 0 0)) ∧
    pending_from (S d) (set_global (mutex_ s) (activePipes_ s) (seq (S d) (length (created s) - S d)) s) ∧
    (Forall proper (created s) → sp !! 0%nat = Some n ∧ (1 ≤ n)%nat).
Proof.
  intros [Hp Hx] Hd. destruct (lookup_lt_is_Some_2 _ _ Hd) as [sp Hsp]. exists sp, (default 0%nat (sp !! 0%nat)).
  split; [done|]. split; [|split; [exact (Hx d sp (le_n d) Hsp)|split]].
  - rewrite Hp. by replace (length (created s) - d)%nat with (S (length (created s) - S d)) by lia.
  - split; [done|]. intros q sq Hq Hc. apply (Hx q sq); [lia|done].
  - intros Hall. pose proof (Forall_lookup_1 _ _ _ _ Hall Hsp) as [Hne Hn]. destruct sp as [|n sp]; [done|].
    split; [done|]. by apply Forall_cons in Hn as [? _].
Qed.

Lemma next_case ret s d l :
  Forall proper (created s) → activePipes_ s = 1 → (d ≤ length (created s))%nat → pending_from d s → mutex_ s = false →
  Blocks (all_blocks (take d (created s))) (log s) → threads s ≡ₚ TNext :: l → l = [] →
  ∃ s' ts, NextPipe s = Ret (s', ts) ∧ advances ret s (set_threads (ts ++ l) s').
Proof.
  intros Hall Ha Hd Hpend Hm Hb Ht ->. pose proof (work_pick _ _ _ Ht) as Hw. cbn [weight fmap list_fmap sum_list_with] in Hw.
  unfold NextPipe. destruct (decide (d = length (created s))) as [->|Hne].
  - destruct Hpend as [Hp _]. rewrite Nat.sub_diag in Hp. rewrite Hp. cbn.
    do 2 eexists. split; [reflexivity|]. split; [|split; [done|]].
    + apply Idle; cbn; try done; [lia|]. by rewrite take_ge in Hb.
    + intros _. rewrite work_threads. change (pipes_work (set_global _ _ _ s)) with (pipes_work s). cbn in *. lia.
  - destruct (pending_next d s Hpend) as (sp & n & Hsp & Hq & Hpd & Hpend' & Hn); [lia|]. destruct (Hn Hall) as [Hn0 Hn1].
    rewrite Hq. set (s1 := set_global true _ _ s).
    rewrite (begin_stage d sp 0 n true s1 Hpd Hn0 Hn1). do 2 eexists. split; [reflexivity|]. split; [|split; [done|]].
    + apply (begin_inv d sp 0 n true false [] s1); try done. cbn. by rewrite app_nil_r.
    + intros _. rewrite work_threads. pose proof (begin_work d sp 0 n true s1 _ (lookup_lt_Some _ _ _ Hsp) Hpd Hn0) as Hwb.
      change (pipes_work s1) with (pipes_work s) in Hwb. rewrite bool_decide_eq_true_2 in Hwb by done.
      cbn [app]. rewrite fmap_cons. cbn [sum_list_with id fmap list_fmap] in *. lia.
Qed.

(** *** A pipeline is made *)

Lemma pending_from_new d sp s : (d ≤ length (created s))%nat → pending_from d s →
  pending_from d (mkState (created s ++ [sp]) (<[length (created s) := mkPipe sp (-1) []]> (pipes s)) (mutex_ s)
    (activePipes_ s) (pendPipes_ s ++ [length (created s)]) (threads s) (log s)).
Proof.
  intros Hd [Hp Hx]. split; cbn.
  - rewrite Hp, length_app. cbn. replace (length (created s) + 1 - d)%nat with (S (length (created s) - d)) by lia.
    rewrite seq_S. do 2 f_equal. lia.
  - intros q sq Hq Hc. destruct (decide (q = length (created s))) as [->|Hne].
    + rewrite list_lookup_middle in Hc by done. injection Hc as <-. by rewrite lookup_insert_eq.
    + rewrite lookup_insert_ne by done. apply lookup_app_Some in Hc as [Hc|[Hge Hc]]; [by apply Hx|].
      apply list_lookup_singleton_Some in Hc as [? _]. lia.
Qed.

Lemma new_case sp s : Inv s → mutex_ s = false → proper sp →
  ∃ s' ts, new_PipeImpl sp s = Ret (s', ts) ∧ Inv (set_threads (ts ++ threads s) s').
Proof.
  intros HI Hm Hsp. unfold new_PipeImpl. cbn [activePipes_].
  destruct HI as [Hall Ha _ Hp Ht Hb|d Hall Ha Hd Hpend Ht Hb|d sq c n E D R L u l0 l1 []].
  - rewrite Ha. cbn -[NextStage]. pose proof Hsp as [Hne Hn]. destruct sp as [|n sp]; [done|]. apply Forall_cons in Hn as [Hn _].
    set (p := length (created s)). set (s1 := set_global _ _ _ _).
    assert (pipes s1 !! p = Some (mkPipe (n :: sp) (Z.of_nat 0 - 1) (replicate 0 0))) as Hp1 by apply lookup_insert_eq.
    rewrite (begin_stage p (n :: sp) 0 n true s1 Hp1 eq_refl Hn). do 2 eexists. split; [reflexivity|]. rewrite Ht.
    apply (begin_inv p (n :: sp) 0 n true false [] s1); try done; cbn.
    + apply Forall_app. split; [done|]. by apply Forall_singleton.
    + by apply list_lookup_middle.
    + split; cbn.
      * rewrite Hp, length_app. unfold p. cbn [length]. by replace (length (created s) + 1 - S (length (created s)))%nat with 0%nat by lia.
      * intros q sq Hq Hc. apply lookup_lt_Some in Hc. rewrite length_app in Hc. cbn in Hc. unfold p in Hq. lia.
    + rewrite app_nil_r. unfold p. by rewrite take_app_length.
  - rewrite Ha. cbn. do 2 eexists. split; [reflexivity|]. cbn. apply (Between _ d); cbn; try done.
    + apply Forall_app. split; [done|]. by apply Forall_singleton.
    + rewrite length_app. lia.
    + by apply (pending_from_new d sp s).
    + by rewrite take_app_le.
  - rewrite sr_active0. cbn. pose proof (lookup_lt_Some _ _ _ sr_created0). do 2 eexists. split; [reflexivity|]. cbn.
    apply (Running _ d sq c n E D R L u l0 l1). constructor; cbn; try done.
    + apply Forall_app. split; [done|]. by apply Forall_singleton.
    + by apply lookup_app_l_Some.
    + by apply (pending_from_new (S d) sp s).
    + rewrite lookup_insert_ne by lia. done.
    + by rewrite take_app_le by lia.
Qed.

(** *** Every step *)

Lemma thread_in {s t l1 l2} : threads s = l1 ++ t :: l2 → threads s ≡ₚ t :: l1 ++ l2.
Proof. intros ->. symmetry. apply Permutation_middle. Qed.

(** What thread of a stage a thread is *)
Lemma stage_thread s d sp c n E D R L u l0 l1 t l :
  StageRuns s d sp c n E D R L u l0 l1 → threads s ≡ₚ t :: l →
  (∃ i, t = TRun d i ∧ i ∈ R) ∨ (∃ i, t = TDone d i ∧ i ∈ D) ∨ (∃ i lock, t = TLaunch d i n lock ∧ L = Some (i, lock)) ∨
  (t = TUnlock ∧ u = true).
Proof.
  intros [] Ht. assert (t ∈ threads s) as Hin by (rewrite Ht; left).
  rewrite sr_threads0, !elem_of_app, !list_elem_of_fmap in Hin.
  destruct Hin as [(i & -> & Hi)|[(i & -> & Hi)|[Hin|Hin]]]; eauto.
  - destruct L as [[i lock]|]; [|by apply not_elem_of_nil in Hin]. apply list_elem_of_singleton in Hin as ->. eauto 7.
  - destruct u; [|by apply not_elem_of_nil in Hin]. apply list_elem_of_singleton in Hin as ->. auto.
Qed.

Lemma between_unlock ret s d l :
  Forall proper (created s) → activePipes_ s = 1 → (d ≤ length (created s))%nat → pending_from d s →
  Blocks (all_blocks (take d (created s))) (log s) → threads s ≡ₚ TUnlock :: l → l = [TNext] →
  advances ret s (set_threads l (set_global false (activePipes_ s) (pendPipes_ s) s)).
Proof.
  intros Hall Ha Hd Hpend Hb Ht ->. pose proof (work_pick _ _ _ Ht) as Hw. split; [|split; [done|]].
  - by apply (Between _ d).
  - intros _. rewrite work_threads, Hw. change (pipes_work (set_global _ _ _ s)) with (pipes_work s). cbn [weight]. lia.
Qed.

(** A thread goes on as long as the invariant holds, unless it waits for the thread that
    is to release [mutex_]. *)
Lemma exec_advances ret s t l : Inv s → threads s ≡ₚ t :: l →
  (∃ s' ts, exec t ret s = Ret (Some (s', ts)) ∧ advances ret s (set_threads (ts ++ l) s')) ∨
  (t = TNext ∧ exec t ret s = Ret None ∧ TUnlock ∈ threads s).
Proof.
  intros HI Ht. destruct HI as [Hall Ha Hm Hp Ht0 Hb|d Hall Ha Hd Hpend Ht0 Hb|d sp c n E D R L u l0 l1 HS].
  - rewrite Ht0 in Ht. by apply Permutation_nil_cons in Ht.
  - pose proof Ht as Ht'. rewrite Ht0 in Ht'. destruct (mutex_ s) eqn:Hm; cbn in Ht'.
    + apply Permutation_length_2_inv in Ht' as [[= -> ->]|[= -> ->]].
      * right. split; [done|]. cbn. rewrite Hm. split; [done|]. rewrite Ht. right. left.
      * left. do 2 eexists. split; [reflexivity|]. by apply (between_unlock ret s d).
    + apply Permutation_sym, Permutation_singleton_r in Ht' as [= -> ->]. left.
      destruct (next_case ret s d [] Hall Ha Hd Hpend Hm Hb Ht eq_refl) as (s' & ts & He & Hadv).
      exists s', ts. split; [|done]. cbn. by rewrite Hm, He.
  - left. destruct (stage_thread _ _ _ _ _ _ _ _ _ _ _ _ _ _ HS Ht) as
      [(i & -> & Hi)|[(i & -> & Hi)|[(i & lock & -> & ->)|[-> Hu]]]]; cbn [exec].
    + destruct (run_case ret _ _ _ _ _ _ _ _ _ _ _ _ _ _ HS Ht Hi) as (s' & ts & -> & Hadv). by exists s', ts.
    + destruct (done_case ret _ _ _ _ _ _ _ _ _ _ _ _ _ _ HS Ht Hi) as (s' & ts & -> & Hadv). by exists s', ts.
    + destruct (launch_case ret _ _ _ _ _ _ _ _ _ _ _ _ _ _ HS Ht) as (s' & ts & -> & Hadv). by exists s', ts.
    + do 2 eexists. split; [reflexivity|]. exact (unlock_case ret _ _ _ _ _ _ _ _ _ _ _ _ _ HS Ht Hu).
Qed.

Lemma run_step_advances ret s s' : Inv s → run_step ret s s' → advances ret s s'.
Proof.
  intros HI Hstep. destruct Hstep as [s t l1 l2 s' ts Ht He].
  destruct (exec_advances ret s t (l1 ++ l2) HI (thread_in Ht)) as [(s1 & ts1 & He1 & Hadv)|(_ & He1 & _)]; [|congruence].
  rewrite He in He1. by injection He1 as <- <-.
Qed.

Lemma Inv_step s s' : Inv s → step s s' → Inv s'.
Proof.
  intros HI Hstep. destruct Hstep as [ret s s' Hr|stages s s' ts Hm Hne Hn Hnew].
  - by apply (run_step_advances ret s s').
  - destruct (new_case stages s HI Hm (conj Hne Hn)) as (s1 & ts1 & He & HI'). rewrite Hnew in He. by injection He as <- <-.
Qed.

Lemma reachable_pipelines s : reachable s → Inv s.
Proof.
  assert (Inv new_State) as HI by (apply Idle; try done; constructor).
  unfold reachable. induction 1 as [s|s s1 s2 Hs _ IH]; [exact HI|]. apply IH, (Inv_step s s1 HI Hs).
Qed.

(** A thread that exists means that some thread goes on. *)
Lemma run_step_progress s : Inv s → threads s ≠ [] → ∃ s', run_step true s s'.
Proof.
  intros HI Hne. destruct (threads s) as [|t l] eqn:Ht; [done|].
  assert (threads s = [] ++ t :: l) as Ht0 by done.
  destruct (exec_advances true s t l HI (thread_in Ht0)) as [(s1 & ts1 & He1 & _)|(-> & _ & Hu)].
  - eexists. by eapply run_thread.
  - apply list_elem_of_split in Hu as (l1 & l2 & Hu). eexists. eapply run_thread; [exact Hu|reflexivity].
Qed.

Lemma Inv_quiet s : Inv s → threads s = [] →
  pendPipes_ s = [] ∧ activePipes_ s = 0 ∧ Blocks (all_blocks (created s)) (log s).
Proof.
  intros HI Ht. destruct HI as [_ Ha _ Hp _ Hb|d _ _ _ _ Ht0 _|d sp c n E D R L u l0 l1 []]; [done| |].
  - rewrite Ht in Ht0. by apply Permutation_nil_cons in Ht0.
  - exfalso. rewrite Ht in sr_threads0. apply Permutation_nil_l in sr_threads0.
    symmetry in sr_threads0. apply app_nil in sr_threads0 as [HR [HD [HL _]%app_nil]%app_nil].
    apply fmap_nil_inv in HR as ->. apply fmap_nil_inv in HD as ->. destruct L as [[]|]; [done|]. cbn in sr_instances0.
    apply Permutation_length in sr_instances0. rewrite app_nil_r, length_seq in sr_instances0. lia.
Qed.

Lemma run_steps_Inv s s' : Inv s → rtc (run_step true) s s' → Inv s' ∧ created s' = created s.
Proof.
  intros HI Hr. induction Hr as [s|s s1 s2 Hs _ IH]; [done|].
  destruct (run_step_advances _ _ _ HI Hs) as (HI1 & Hc & _). destruct (IH HI1) as [? ->]. done.
Qed.

Lemma run_steps_bounded k : ∀ s s', Inv s → nsteps (run_step true) k s s' → (k ≤ work s)%nat.
Proof.
  induction k as [|k IH]; intros s s' HI Hn; [lia|]. inversion Hn as [|? ? s1 ? Hs Hr]; subst.
  destruct (run_step_advances _ _ _ HI Hs) as (HI1 & _ & Hw). specialize (IH _ _ HI1 Hr). specialize (Hw eq_refl). lia.
Qed.

Lemma Inv_no_deadlock s : Inv s → TDeadlock ∉ threads s.
Proof.
  intros HI Hin. apply list_elem_of_split in Hin as (l1 & l2 & Ht).
  by destruct (exec_advances true s TDeadlock (l1 ++ l2) HI (thread_in Ht)) as [(s1 & ts1 & He1 & _)|(? & _)].
Qed.

Lemma Inv_no_abort s t ret : Inv s → t ∈ threads s → exec t ret s ≠ Abort.
Proof.
  intros HI Hin. apply list_elem_of_split in Hin as (l1 & l2 & Ht).
  by destruct (exec_advances ret s t (l1 ++ l2) HI (thread_in Ht)) as [(s1 & ts1 & -> & _)|(_ & -> & _)].
Qed.

(** ** The pipelines *)

(** The calls of a block *)
Definition calls (b : nat * Z * nat) : list event := (λ i, (b.1.1, b.1.2, i)) <$> seq 0 b.2.

Lemma all_blocks_app l l' : ∃ rest, all_blocks (l ++ l') = all_blocks l ++ rest.
Proof. unfold all_blocks. rewrite imap_app, concat_app. eauto. Qed.

Lemma all_blocks_at l d sp c n : l !! d = Some sp → sp !! c = Some n →
  ∃ rest, all_blocks l = (all_blocks (take d l) ++ take c (pipe_blocks d sp)) ++ (d, Z.of_nat c, n) :: rest.
Proof.
  intros Hd Hc. destruct (all_blocks_app (take (S d) l) (drop (S d) l)) as [rest Hr]. rewrite take_drop in Hr.
  rewrite Hr, (all_blocks_take l d sp Hd). exists (drop (S c) (pipe_blocks d sp) ++ rest).
  rewrite <- (take_drop_middle (pipe_blocks d sp) c (d, Z.of_nat c, n)) at 1
    by (unfold pipe_blocks; by rewrite list_lookup_imap, Hc).
  by rewrite <- !(assoc_L (++)).
Qed.

(** C22: the callbacks return in the order of the pipelines and of their stages, however the
    tasks interleave and however often they are called again: the calls that returned true
    are, for some first stages of the sequence of all the stages of all the pipelines, every
    instance of each of these stages once, stage after stage, and then some instances of the
    stage that follows, each at most once. *)
Theorem stages_in_order s : reachable s →
  ∃ bs rest l0 l1, all_blocks (created s) = bs ++ rest ∧ log s = l0 ++ l1 ∧ Blocks bs l0 ∧
    l1 ⊆+ default [] (calls <$> head rest).
Proof.
  intros HI%reachable_pipelines. destruct HI as [_ _ _ _ _ Hb|d _ _ _ _ _ Hb|d sp c n E D R L u l0 l1 []].
  - exists (all_blocks (created s)), [], (log s), []. by rewrite !app_nil_r.
  - destruct (all_blocks_app (take d (created s)) (drop d (created s))) as [rest Hr]. rewrite take_drop in Hr.
    exists (all_blocks (take d (created s))), rest, (log s), []. rewrite app_nil_r. repeat split; try done. apply submseteq_nil_l.
  - destruct (all_blocks_at _ _ _ _ _ sr_created0 sr_stage0) as [rest Hr].
    exists (all_blocks (take d (created s)) ++ take c (pipe_blocks d sp)), ((d, Z.of_nat c, n) :: rest), l0, l1.
    repeat split; try done. cbn -[calls]. rewrite sr_calls0. unfold calls. cbn. apply fmap_submseteq.
    rewrite <- sr_instances0, (assoc_L (++)). apply submseteq_inserts_r. done.
Qed.

(** C21: pipelines with stages that have instances complete: no thread touches a deleted
    pipeline or an index out of range, none waits for the mutex it holds itself, a new
    pipeline is made whenever [mutex_] is free, and once the callbacks return true every run
    of the threads comes to an end within [work] steps; there nothing waits, no pipeline is
    active, and every instance of every stage of every pipeline has returned true once, in
    the order of the pipelines and of their stages. *)
Theorem pipelines_complete s : reachable s →
  (∀ t ret, t ∈ threads s → exec t ret s ≠ Abort) ∧ (TDeadlock ∉ threads s) ∧
  (∀ stages, mutex_ s = false → proper stages → new_PipeImpl stages s ≠ Abort) ∧
  (∀ k s', nsteps (run_step true) k s s' → (k ≤ work s)%nat) ∧
  (∀ s', rtc (run_step true) s s' → (∀ s'', ¬ run_step true s' s'') →
    created s' = created s ∧ threads s' = [] ∧ pendPipes_ s' = [] ∧ activePipes_ s' = 0 ∧
    Blocks (all_blocks (created s)) (log s')).
Proof.
  intros HI%reachable_pipelines. split; [|split; [|split; [|split]]].
  - intros t ret. by apply Inv_no_abort.
  - by apply Inv_no_deadlock.
  - intros stages Hm Hp. by destruct (new_case stages s HI Hm Hp) as (? & ? & -> & _).
  - intros k s'. by apply run_steps_bounded.
  - intros s' Hr Hend. destruct (run_steps_Inv s s' HI Hr) as [HI' Hc].
    assert (threads s' = []) as Ht.
    { destruct (threads s') eqn:Ht; [done|]. destruct (run_step_progress s' HI') as [s'' Hs]; [by rewrite Ht|]. by destruct (Hend s''). }
    destruct (Inv_quiet s' HI' Ht) as (? & ? & Hb). rewrite Hc in Hb. done.
Qed.

(** A pipeline of two stages, one with two instances, just made *)
Definition demo : State :=
  match new_PipeImpl [2; 1]%nat new_State with Ret (s, ts) => set_threads (ts ++ []) s | Abort => new_State end.

Lemma demo_pipeline_reachable : reachable demo.
Proof.
  apply rtc_once. apply (step_new [2; 1]%nat new_State); [done|done|by repeat constructor|reflexivity].
Qed.

Lemma stages_in_order_witness : reachable demo ∧ ∃ bs rest l0 l1,
  all_blocks (created demo) = bs ++ rest ∧ log demo = l0 ++ l1 ∧ Blocks bs l0 ∧ l1 ⊆+ default [] (calls <$> head rest).
Proof. split; [exact demo_pipeline_reachable|]. apply (stages_in_order demo demo_pipeline_reachable). Defined.

Lemma pipelines_complete_witness : reachable demo ∧ work demo = 13%nat ∧
  (∀ k s', nsteps (run_step true) k demo s' → (k ≤ work demo)%nat) ∧
  (∀ s', rtc (run_step true) demo s' → (∀ s'', ¬ run_step true s' s'') →
    Blocks [(0%nat, 0, 2%nat); (0%nat, 1, 1%nat)] (log s')).
Proof.
  split; [exact demo_pipeline_reachable|]. split; [reflexivity|].
  destruct (pipelines_complete demo demo_pipeline_reachable) as (_ & _ & _ & Hk & Hend). split; [exact Hk|].
  intros s' Hr He. apply (Hend s' Hr He).
Defined.

(** *** What is not a proper pipeline *)

(** The constructor of a pipeline without a stage holds [mutex_] while [NextStage] takes it
    again: the thread waits for itself and nothing goes on any more. *)
Lemma empty_pipeline_deadlocks s : mutex_ s = false → activePipes_ s = 0 → threads s = [] →
  ∃ s' ts, new_PipeImpl [] s = Ret (s', ts) ∧ mutex_ s' = true ∧
    ∀ ret s'', ¬ run_step ret (set_threads (ts ++ threads s) s') s''.
Proof.
  intros Hm Ha Ht. unfold new_PipeImpl. cbn [activePipes_]. rewrite Ha. cbn. unfold NextStage, get_pipe. cbn.
  rewrite lookup_insert_eq. cbn. do 2 eexists. split; [reflexivity|]. split; [done|].
  rewrite Ht. intros ret s'' Hs. inversion Hs as [? t l1 l2 s1 ts Hl He]; subst. cbn in Hl.
  destruct l1 as [|? [|]]; cbn in Hl; try discriminate. injection Hl as <- <-. discriminate He.
Qed.

(** A stage without an instance is never over: once its constructor has returned no thread is
    left, and a pipeline that is made then waits for ever. *)
Lemma empty_stage_blocks s stages : mutex_ s = false → activePipes_ s = 0 → pendPipes_ s = [] → threads s = [] →
  ∃ s1 ts s2, new_PipeImpl [0%nat] s = Ret (s1, ts) ∧ run_step true (set_threads (ts ++ threads s) s1) s2 ∧
    threads s2 = [] ∧ activePipes_ s2 = 1 ∧
    ∃ s3, new_PipeImpl stages s2 = Ret (s3, []) ∧ threads s3 = [] ∧ pendPipes_ s3 = [length (created s2)].
Proof.
  intros Hm Ha Hp Ht. unfold new_PipeImpl at 1. cbn [activePipes_]. rewrite Ha. cbn. unfold NextStage, get_pipe. cbn.
  rewrite lookup_insert_eq. cbn. rewrite Ht. do 3 eexists. split; [reflexivity|].
  split; [apply (run_thread true _ TUnlock [] []); reflexivity|].
  cbn. split; [done|]. split; [done|]. eexists. split; [reflexivity|]. cbn. by rewrite Hp.
Qed.

End RP.
