(* ===== verification/Allocators.v ===== *)
(** * Allocators over bit sets:
      src/base/index_allocator.{h,cc}, src/base/label_block.{h,cc}

    [IndexAllocator] hands out the indices 0 .. max, [LabelBlock] the labels of a range;
    both look for the next free number after the last one they gave, then from the
    start.  They use a bit set only through the class [Bits], whose laws are those that
    [BitSet.BS] proves; the reference definition both are compared with is [rr_alloc].

    [LabelBlockManager] keeps one block per range for its users, who hold references to
    the blocks; a block is deleted with its last reference, and the manager with the
    last reference of a user or of a block. *)

From stdpp Require Import gmap sorting.
From S2P Require Import Prelude BitSet.
Open Scope Z_scope.

(** ** What the allocators ask of a bit set *)

Class Bits (B : Type) := {
  b_empty : B;
  b_set : B → Z → B;
  b_reset : B → Z → B;
  b_find_first_clear : B → Z;
  b_find_next_clear : B → Z → Z;
  b_none : B → bool;
}.

Class BitsLaws (B : Type) `{!Bits B} := {
  b_wf : B → Prop;
  b_mem : B → Z → bool;
  b_empty_law : b_wf b_empty ∧ ∀ p, 0 ≤ p → b_mem b_empty p = false;
  b_set_law b p : b_wf b → BS.valid_pos p →
    b_wf (b_set b p) ∧ ∀ q, 0 ≤ q → b_mem (b_set b p) q = (q =? p) || b_mem b q;
  b_reset_law b p : b_wf b → 0 ≤ p →
    b_wf (b_reset b p) ∧ ∀ q, 0 ≤ q → b_mem (b_reset b p) q = negb (q =? p) && b_mem b q;
  b_first_law b : b_wf b →
    0 ≤ b_find_first_clear b ∧ b_mem b (b_find_first_clear b) = false ∧
    ∀ j, 0 ≤ j < b_find_first_clear b → b_mem b j = true;
  b_next_law b p : b_wf b → 0 ≤ p < BS.npos →
    p < b_find_next_clear b p ∧ b_mem b (b_find_next_clear b p) = false ∧
    ∀ j, p < j < b_find_next_clear b p → b_mem b j = true;
  b_none_law b : b_wf b → b_none b = true ↔ ∀ p, 0 ≤ p → b_mem b p = false;
}.

#[export] Instance BitSet_bits : Bits BS.BitSet := {|
  b_empty := BS.mkBitSet []; b_set := BS.set; b_reset := BS.reset;
  b_find_first_clear := BS.find_first_clear; b_find_next_clear := BS.find_next_clear; b_none := BS.none |}.

#[export] Program Instance BitSet_bits_laws : BitsLaws BS.BitSet := {|
  b_wf := BS.wf; b_mem := λ b p, Z.testbit (BS.value b) p |}.
Next Obligation. split; [apply BS.wf_empty|]. intros p _. apply Z.testbit_0_l. Qed.
Next Obligation.
  intros b p Hw Hv. split; [by apply BS.set_wf|]. intros q Hq. pose proof (proj1 Hv).
  change (b_set b p) with (BS.set b p). destruct (BS.set_blocks b p) as (_ & _ & ->); [apply Hw|done|].
  rewrite Z.setbit_eqb by done. by rewrite Z.eqb_sym.
Qed.
Next Obligation.
  intros b p Hw Hp. change (b_reset b p) with (BS.reset b p). destruct (BS.reset_spec b p Hw Hp) as [Hr Hv]. split; [done|]. intros q Hq.
  rewrite Hv, Z.clearbit_eqb by done. by rewrite Z.eqb_sym, andb_comm.
Qed.
Next Obligation.
  intros b Hw. cbn. destruct (BS.find_first_clear_next b Hw) as (H1 & H2 & H3). split; [lia|]. split; [done|].
  intros j Hj. apply H3. lia.
Qed.
Next Obligation. intros b p Hw Hp. cbn. destruct (BS.find_next_clear_next b p Hw Hp) as (H1 & H2 & H3). done. Qed.
Next Obligation.
  intros b Hw. change (b_none b) with (BS.none b). unfold BS.none. rewrite Nat.eqb_eq. rewrite length_zero_iff_nil, <- BS.value_0_nil by done.
  split; [by intros -> p _; apply Z.testbit_0_l|]. intros Hz. apply Z.bits_inj'. intros p Hp. by rewrite Hz, Z.testbit_0_l.
Qed.

Module AL.

Section Alloc.
Context {B : Type} `{!Bits B}.

(** ** [IndexAllocator] *)

Record IndexAllocator := mkIA { bitset_ : B; max_index_ : Z; last_index_ : Z }.

Definition new_IndexAllocator (max_index : Z) : IndexAllocator := mkIA b_empty max_index BS.npos.

Definition AllocIndex (a : IndexAllocator) : Z * IndexAllocator :=
  let index :=
    if last_index_ a =? BS.npos then b_find_first_clear (bitset_ a)
    else
      let index := b_find_next_clear (bitset_ a) (last_index_ a) in
      if max_index_ a <? index then b_find_first_clear (bitset_ a) else index in
  let index := if max_index_ a <? index then BS.npos else index in
  let bits := if negb (index =? BS.npos) then b_set (bitset_ a) index else bitset_ a in
  (index, mkIA bits (max_index_ a) index).

Definition FreeIndex (index : Z) (a : IndexAllocator) : outcome IndexAllocator :=
  assert_that (index <=? max_index_ a);;
  Ret (mkIA (b_reset (bitset_ a) index) (max_index_ a) (last_index_ a)).

Definition NoneIndexSet (a : IndexAllocator) : bool := b_none (bitset_ a).
Definition AnyIndexSet (a : IndexAllocator) : bool := negb (b_none (bitset_ a)).

(** ** [LabelBlock] *)

Record LabelBlock := mkLB { first_ : Z; last_ : Z; prev_pos_ : Z; used_bitset_ : B }.

Definition new_LabelBlock (first last : Z) : LabelBlock := mkLB first last BS.npos b_empty.

(** A round of the loop of [AllocateLabel] *)
Definition AllocateLabel_try (l : LabelBlock) : option (Z * LabelBlock) :=
  let pos := if prev_pos_ l =? BS.npos then b_find_first_clear (used_bitset_ l)
             else b_find_next_clear (used_bitset_ l) (prev_pos_ l) in
  if u64 (first_ l + pos) <=? last_ l
  then Some (u32 (first_ l + pos), mkLB (first_ l) (last_ l) pos (b_set (used_bitset_ l) pos))
  else None.

(** [for (int idx = 0; idx < 2; prev_pos_ = BitSet::npos, idx++)] *)
Fixpoint AllocateLabel_loop (rounds : nat) (l : LabelBlock) : Z * LabelBlock :=
  match rounds with
  | O => (0, l)
  | S rounds =>
      match AllocateLabel_try l with
      | Some r => r
      | None => AllocateLabel_loop rounds (mkLB (first_ l) (last_ l) BS.npos (used_bitset_ l))
      end
  end.
Definition AllocateLabel (l : LabelBlock) : Z * LabelBlock := AllocateLabel_loop 2 l.

Definition ReleaseLabel (value : Z) (l : LabelBlock) : outcome LabelBlock :=
  assert_that ((first_ l <=? value) && (value <=? last_ l));;
  let pos := value - first_ l in
  Ret (mkLB (first_ l) (last_ l) (prev_pos_ l) (b_reset (used_bitset_ l) pos)).

(** ** The reference: numbers 0 .. max, round robin

    The scan begins after the last number given; after an allocation that found none it
    begins at 0. *)

Record RR := mkRR { used : list Z; lastrr : option Z }.

Definition range (from to : Z) : list Z := (λ k, from + Z.of_nat k) <$> seq 0 (Z.to_nat (to + 1 - from)).

(** The numbers in the order they are tried. *)
Definition candidates (max : Z) (last : option Z) : list Z :=
  match last with None => range 0 max | Some i => range (i + 1) max ++ range 0 max end.

Definition rr_alloc (max : Z) (s : RR) : option Z * RR :=
  match list_find (λ i, i ∉ used s) (candidates max (lastrr s)) with
  | Some (_, i) => (Some i, mkRR (i :: used s) (Some i))
  | None => (None, mkRR (used s) None)
  end.
Definition rr_free (i : Z) (s : RR) : RR := mkRR (filter (λ j, j ≠ i) (used s)) (lastrr s).

(** Allocations and releases. *)
Inductive op := Alloc | Free (i : Z).

Fixpoint rr_run (max : Z) (ops : list op) (s : RR) : list (option Z) :=
  match ops with
  | [] => []
  | Alloc :: ops => let '(r, s) := rr_alloc max s in r :: rr_run max ops s
  | Free i :: ops => rr_run max ops (rr_free i s)
  end.

(** The same on the two allocators; labels are numbered from [first_]. *)
Fixpoint ia_run (ops : list op) (a : IndexAllocator) : outcome (list Z) :=
  match ops with
  | [] => Ret []
  | Alloc :: ops => let '(r, a) := AllocIndex a in rs ← ia_run ops a; Ret (r :: rs)
  | Free i :: ops => a ← FreeIndex i a; ia_run ops a
  end.
Fixpoint lb_run (ops : list op) (l : LabelBlock) : outcome (list Z) :=
  match ops with
  | [] => Ret []
  | Alloc :: ops => let '(r, l) := AllocateLabel l in rs ← lb_run ops l; Ret (r :: rs)
  | Free i :: ops => l ← ReleaseLabel (first_ l + i) l; lb_run ops l
  end.

(** ** The search *)

Context `{!BitsLaws B}.

Lemma range_lookup from to k : (k < Z.to_nat (to + 1 - from))%nat → range from to !! k = Some (from + Z.of_nat k).
Proof. intros Hk. unfold range. rewrite list_lookup_fmap, lookup_seq_lt by done. done. Qed.

Lemma range_elem from to x : x ∈ range from to ↔ from ≤ x ≤ to.
Proof.
  unfold range. rewrite list_elem_of_fmap. split.
  - intros (k & -> & Hk%elem_of_seq). lia.
  - intros Hx. exists (Z.to_nat (x - from)). split; [lia|]. apply elem_of_seq. lia.
Qed.

(** The first number of a range that is not used. *)
Lemma find_range (l : list Z) from to r : from ≤ r → r ∉ l → (∀ j, from ≤ j < r → j ∈ l) →
  snd <$> list_find (λ i, i ∉ l) (range from to) = if r <=? to then Some r else None.
Proof.
  intros Hr Hn Hall. destruct (Z.leb_spec r to) as [Hle|Hgt].
  - destruct (list_find (λ i, i ∉ l) (range from to)) as [[k x]|] eqn:Ef.
    + apply list_find_Some in Ef as (Hk & Hx & Hmin). pose proof (lookup_lt_Some _ _ _ Hk) as Hlen.
      unfold range in Hlen. rewrite length_fmap, length_seq in Hlen. rewrite range_lookup in Hk by done.
      injection Hk as <-. cbn. f_equal. destruct (Z.lt_trichotomy (from + Z.of_nat k) r) as [Hlt|[->|Hgt]]; [|done|].
      * exfalso. apply Hx, Hall. lia.
      * exfalso. apply (Hmin (Z.to_nat (r - from)) r); [|lia|done]. rewrite range_lookup by lia. f_equal. lia.
    + apply list_find_None in Ef. rewrite Forall_forall in Ef. exfalso. apply (Ef r); [by apply range_elem|done].
  - replace (list_find (λ i, i ∉ l) (range from to)) with (@None (nat * Z)); [done|]. symmetry.
    apply list_find_None, Forall_forall. intros x Hx%range_elem Hxn. apply Hxn, Hall. lia.
Qed.

Lemma find_app (l l1 l2 : list Z) : snd <$> list_find (λ i, i ∉ l) (l1 ++ l2) =
  match snd <$> list_find (λ i, i ∉ l) l1 with Some x => Some x | None => snd <$> list_find (λ i, i ∉ l) l2 end.
Proof.
  destruct (list_find (λ i, i ∉ l) l1) as [[k x]|] eqn:E1.
  - by rewrite (list_find_app_l _ _ _ _ _ E1).
  - rewrite list_find_app_r by done. by destruct (list_find _ l2) as [[? ?]|].
Qed.

(** A bit set and the last number stand for a state of the reference. *)
Record stands (max : Z) (bits : B) (last : Z) (s : RR) : Prop := {
  sd_wf : b_wf bits;
  sd_mem : ∀ p, 0 ≤ p → b_mem bits p = bool_decide (p ∈ used s);
  sd_used : ∀ p, p ∈ used s → 0 ≤ p ≤ max;
  sd_last : match lastrr s with None => last = BS.npos | Some i => last = i ∧ 0 ≤ i ≤ max end;
}.

Lemma stands_new max : stands max b_empty BS.npos (mkRR [] None).
Proof.
  destruct b_empty_law as [Hw Hm]. constructor; cbn; [done| |by intros ? ?%elem_of_nil|done].
  intros p Hp. rewrite Hm by done. symmetry. by apply bool_decide_eq_false_2, not_elem_of_nil.
Qed.

Lemma first_used max bits last s : stands max bits last s →
  let r := b_find_first_clear bits in 0 ≤ r ≤ Z.max 0 (max + 1) ∧ (r ∉ used s) ∧ (∀ j, 0 ≤ j < r → j ∈ used s).
Proof.
  intros []. destruct (b_first_law bits sd_wf0) as (H1 & H2 & H3). cbv zeta.
  assert (Hall : ∀ j, 0 ≤ j < b_find_first_clear bits → j ∈ used s).
  { intros j Hj. specialize (H3 j Hj). rewrite sd_mem0 in H3 by lia. by apply bool_decide_eq_true in H3. }
  split_and!; [done| |by rewrite sd_mem0 in H2 by done; apply bool_decide_eq_false in H2|done].
  destruct (Z.le_gt_cases (b_find_first_clear bits) (Z.max 0 (max + 1))) as [?|Hgt]; [done|].
  pose proof (sd_used0 _ (Hall (Z.max 0 (max + 1)) ltac:(lia))). lia.
Qed.

Lemma next_used max bits last s p : stands max bits last s → 0 ≤ p ≤ max → max < BS.npos →
  let r := b_find_next_clear bits p in p + 1 ≤ r ≤ max + 1 ∧ (r ∉ used s) ∧ (∀ j, p + 1 ≤ j < r → j ∈ used s).
Proof.
  intros [] Hp Hm. destruct (b_next_law bits p sd_wf0) as (H1 & H2 & H3); [lia|]. cbv zeta.
  assert (Hall : ∀ j, p + 1 ≤ j < b_find_next_clear bits p → j ∈ used s).
  { intros j Hj. specialize (H3 j ltac:(lia)). rewrite sd_mem0 in H3 by lia. by apply bool_decide_eq_true in H3. }
  split_and!; [lia| |by rewrite sd_mem0 in H2 by lia; apply bool_decide_eq_false in H2|done].
  destruct (Z.le_gt_cases (b_find_next_clear bits p) (max + 1)) as [?|Hgt]; [done|].
  pose proof (sd_used0 _ (Hall (max + 1) ltac:(lia))). lia.
Qed.

(** What the reference finds, by the two scans. *)
Lemma rr_search max bits last s : stands max bits last s → 0 ≤ max < BS.npos →
  snd <$> list_find (λ i, i ∉ used s) (candidates max (lastrr s)) =
    let first := b_find_first_clear bits in
    let next := b_find_next_clear bits last in
    if last =? BS.npos then (if first <=? max then Some first else None)
    else if next <=? max then Some next else if first <=? max then Some first else None.
Proof.
  intros S Hm. destruct (first_used _ _ _ _ S) as (F1 & F2 & F3). pose proof (sd_last _ _ _ _ S) as Hl.
  cbv zeta. unfold candidates. destruct (lastrr s) as [i|].
  - destruct Hl as [-> Hi]. destruct (next_used _ _ _ _ i S Hi) as (N1 & N2 & N3); [lia|].
    rewrite (proj2 (Z.eqb_neq _ _)) by lia. rewrite find_app.
    rewrite (find_range _ _ _ (b_find_next_clear bits i)) by (done || lia).
    rewrite (find_range _ _ _ (b_find_first_clear bits)) by (done || lia).
    by destruct (b_find_next_clear bits i <=? max).
  - rewrite Hl, Z.eqb_refl. by rewrite (find_range _ _ _ (b_find_first_clear bits)) by (done || lia).
Qed.

Lemma stands_alloc max bits last s i : stands max bits last s → 0 ≤ i ≤ max → max < 2 ^ 63 →
  stands max (b_set bits i) i (mkRR (i :: used s) (Some i)).
Proof.
  intros [] Hi Hm. destruct (b_set_law bits i sd_wf0) as [Hw Hs]; [unfold BS.valid_pos; lia|].
  constructor; cbn; [done| |by intros p [->|?%sd_used0]%elem_of_cons|done].
  intros p Hp. rewrite Hs, sd_mem0 by done. apply eq_true_iff_eq.
  rewrite orb_true_iff, Z.eqb_eq, !bool_decide_eq_true, elem_of_cons. done.
Qed.

Lemma stands_fail max bits last s : stands max bits last s → stands max bits BS.npos (mkRR (used s) None).
Proof. intros []. by constructor. Qed.

Lemma stands_free max bits last s i : stands max bits last s → 0 ≤ i → stands max (b_reset bits i) last (rr_free i s).
Proof.
  intros [] Hi. destruct (b_reset_law bits i sd_wf0 Hi) as [Hw Hr].
  constructor; cbn; [done| |by intros p [_ ?%sd_used0]%list_elem_of_filter|done].
  intros p Hp. rewrite Hr, sd_mem0 by done. apply eq_true_iff_eq.
  rewrite andb_true_iff, negb_true_iff, Z.eqb_neq, !bool_decide_eq_true, list_elem_of_filter. done.
Qed.

(** ** The allocators agree with the reference *)

Definition ia_stands (max : Z) (a : IndexAllocator) (s : RR) : Prop :=
  max_index_ a = max ∧ stands max (bitset_ a) (last_index_ a) s.
Definition lb_stands (first last : Z) (l : LabelBlock) (s : RR) : Prop :=
  first_ l = first ∧ last_ l = last ∧ stands (last - first) (used_bitset_ l) (prev_pos_ l) s.

Lemma rr_alloc_eq max s r : snd <$> list_find (λ i, i ∉ used s) (candidates max (lastrr s)) = r →
  rr_alloc max s = match r with Some i => (Some i, mkRR (i :: used s) (Some i)) | None => (None, mkRR (used s) None) end.
Proof. intros <-. unfold rr_alloc. by destruct (list_find _ _) as [[? ?]|]. Qed.

Lemma AllocIndex_ok max a s r s' : ia_stands max a s → 0 ≤ max < 2 ^ 63 → rr_alloc max s = (r, s') →
  ∃ a', AllocIndex a = (default BS.npos r, a') ∧ ia_stands max a' s'.
Proof.
  intros [Em S] Hm Hr. assert (Hmn : max < BS.npos) by (unfold BS.npos; lia).
  rewrite (rr_alloc_eq max s _ (rr_search max _ _ s S ltac:(lia))) in Hr. cbv zeta in Hr.
  destruct (first_used _ _ _ _ S) as (F1 & _ & _). unfold AllocIndex. rewrite Em.
  set (first := b_find_first_clear (bitset_ a)) in *. set (next := b_find_next_clear (bitset_ a) (last_index_ a)) in *.
  assert (Hnext : last_index_ a ≠ BS.npos → 0 ≤ next).
  { intros Hne. pose proof (sd_last _ _ _ _ S) as Hl. destruct (lastrr s) as [i|]; [|done]. destruct Hl as [El Hi].
    destruct (next_used _ _ _ _ i S Hi Hmn) as (N1 & _ & _). unfold next. rewrite El. lia. }
  assert (Hdone : ∀ i, 0 ≤ i ≤ max → (r, s') = (Some i, mkRR (i :: used s) (Some i)) →
    ∃ a', (let index := if max <? i then BS.npos else i in
           (index, mkIA (if negb (index =? BS.npos) then b_set (bitset_ a) index else bitset_ a) max index)) =
          (default BS.npos r, a') ∧ ia_stands max a' s').
  { intros i Hi [= -> ->]. rewrite (proj2 (Z.ltb_ge _ _)) by lia. cbv zeta.
    rewrite (proj2 (Z.eqb_neq _ _)) by lia. eexists. split; [done|]. split; [done|]. cbn.
    apply (stands_alloc _ _ (last_index_ a)); [done..|lia]. }
  assert (Hfull : ∀ i, max < i → (r, s') = (None, mkRR (used s) None) →
    ∃ a', (let index := if max <? i then BS.npos else i in
           (index, mkIA (if negb (index =? BS.npos) then b_set (bitset_ a) index else bitset_ a) max index)) =
          (default BS.npos r, a') ∧ ia_stands max a' s').
  { intros i Hi [= -> ->]. rewrite (proj2 (Z.ltb_lt _ _)) by lia. cbv zeta. rewrite Z.eqb_refl. cbn.
    eexists. split; [done|]. split; [done|]. by eapply stands_fail. }
  destruct (Z.eqb_spec (last_index_ a) BS.npos) as [El|Hne].
  - destruct (Z.leb_spec first max); [apply Hdone|apply Hfull]; (done || lia).
  - specialize (Hnext Hne). destruct (Z.leb_spec next max) as [Hle|Hgt].
    + rewrite (proj2 (Z.ltb_ge max next)) by lia. apply Hdone; (done || lia).
    + rewrite (proj2 (Z.ltb_lt max next)) by lia.
      destruct (Z.leb_spec first max); [apply Hdone|apply Hfull]; (done || lia).
Qed.

Lemma AllocateLabel_ok first last l s r s' : lb_stands first last l s → 0 ≤ first ≤ last → last < 2 ^ 32 →
  rr_alloc (last - first) s = (r, s') →
  ∃ l', AllocateLabel l = (match r with Some i => first + i | None => 0 end, l') ∧ lb_stands first last l' s'.
Proof.
  intros (Ef & El & S) Hf Hl Hr. set (max := last - first) in *.
  assert (Hmn : max < BS.npos) by (unfold BS.npos; lia).
  rewrite (rr_alloc_eq max s _ (rr_search max _ _ s S ltac:(lia))) in Hr. cbv zeta in Hr.
  assert (Htry : ∀ prev pos, (if prev =? BS.npos then b_find_first_clear (used_bitset_ l)
      else b_find_next_clear (used_bitset_ l) prev) = pos → 0 ≤ pos ≤ max + 1 →
    AllocateLabel_try (mkLB first last prev (used_bitset_ l)) =
      if pos <=? max then Some (first + pos, mkLB first last pos (b_set (used_bitset_ l) pos)) else None).
  { intros prev pos Ep Hp. unfold AllocateLabel_try. cbn. rewrite Ep. rewrite (wrap_small 64) by lia.
    replace (first + pos <=? last) with (pos <=? max) by (apply eq_true_iff_eq; rewrite !Z.leb_le; lia).
    destruct (Z.leb_spec pos max); [|done]. rewrite (wrap_small 32) by lia. done. }
  destruct (first_used _ _ _ _ S) as (F1 & _ & _).
  pose proof (Htry BS.npos (b_find_first_clear (used_bitset_ l)) ltac:(by rewrite Z.eqb_refl) ltac:(lia)) as Hfirst.
  assert (Hdone : ∀ i, 0 ≤ i ≤ max → (r, s') = (Some i, mkRR (i :: used s) (Some i)) →
    ∃ l', (first + i, mkLB first last i (b_set (used_bitset_ l) i)) =
      (match r with Some i => first + i | None => 0 end, l') ∧ lb_stands first last l' s').
  { intros i Hi [= -> ->]. eexists. split; [done|]. split_and!; [done..|]. cbn.
    apply (stands_alloc _ _ (prev_pos_ l)); [done..|lia]. }
  assert (Hfull : (r, s') = (None, mkRR (used s) None) →
    ∃ l', (0, mkLB first last BS.npos (used_bitset_ l)) =
      (match r with Some i => first + i | None => 0 end, l') ∧ lb_stands first last l' s').
  { intros [= -> ->]. eexists. split; [done|]. split_and!; [done..|]. cbn. by eapply stands_fail. }
  assert (El2 : l = mkLB first last (prev_pos_ l) (used_bitset_ l)) by (destruct l; cbn in *; congruence).
  unfold AllocateLabel. rewrite El2. cbn [AllocateLabel_loop]. cbn [first_ last_ used_bitset_]. rewrite Hfirst.
  destruct (Z.eqb_spec (prev_pos_ l) BS.npos) as [Ep|Hne].
  - rewrite Ep, Hfirst. destruct (Z.leb_spec (b_find_first_clear (used_bitset_ l)) max);
      [apply Hdone; (done || lia)|by apply Hfull].
  - pose proof (sd_last _ _ _ _ S) as Hsl. destruct (lastrr s) as [i|]; [|done]. destruct Hsl as [Ei Hi].
    destruct (next_used _ _ _ _ i S Hi Hmn) as (N1 & _ & _).
    rewrite (Htry (prev_pos_ l) (b_find_next_clear (used_bitset_ l) (prev_pos_ l)));
      [|by rewrite (proj2 (Z.eqb_neq _ _))|rewrite Ei; lia].
    destruct (Z.leb_spec (b_find_next_clear (used_bitset_ l) (prev_pos_ l)) max);
      [apply Hdone; [rewrite Ei; rewrite Ei in *; lia|done]|].
    destruct (Z.leb_spec (b_find_first_clear (used_bitset_ l)) max); [apply Hdone; (done || lia)|by apply Hfull].
Qed.

(** The arguments of the releases are in the range. *)
Definition ops_ok (max : Z) (ops : list op) : Prop :=
  Forall (λ o, match o with Alloc => True | Free i => 0 ≤ i ≤ max end) ops.

Lemma ia_run_ok max ops a s : ia_stands max a s → 0 ≤ max < 2 ^ 63 → ops_ok max ops →
  ia_run ops a = Ret (default BS.npos <$> rr_run max ops s).
Proof.
  revert a s. induction ops as [|[|i] ops IH]; intros a s S Hm Hok; [done|..]; apply Forall_cons in Hok as [Ho Hok];
    cbn [ia_run rr_run].
  - destruct (rr_alloc max s) as [r s'] eqn:Er. destruct (AllocIndex_ok max a s r s' S Hm Er) as (a' & -> & S').
    by rewrite (IH a' s' S' Hm Hok).
  - unfold FreeIndex. destruct S as [Em S]. rewrite Em, (proj2 (Z.leb_le _ _)) by lia. cbn [mbind outcome_mbind assert_that].
    apply IH; [split; [done|]|done..]. cbn. apply stands_free; [done|lia].
Qed.

Lemma lb_run_ok first last ops l s : lb_stands first last l s → 0 ≤ first ≤ last → last < 2 ^ 32 →
  ops_ok (last - first) ops →
  lb_run ops l = Ret ((λ r, match r with Some i => first + i | None => 0 end) <$> rr_run (last - first) ops s).
Proof.
  revert l s. induction ops as [|[|i] ops IH]; intros l s S Hf Hl Hok; [done|..]; apply Forall_cons in Hok as [Ho Hok];
    cbn [lb_run rr_run].
  - destruct (rr_alloc (last - first) s) as [r s'] eqn:Er.
    destruct (AllocateLabel_ok first last l s r s' S Hf Hl Er) as (l' & -> & S'). by rewrite (IH l' s' S' Hf Hl Hok).
  - unfold ReleaseLabel. destruct S as (Ef & El & S). rewrite Ef, El.
    rewrite !(proj2 (Z.leb_le _ _)) by lia. cbn [mbind outcome_mbind assert_that andb].
    replace (first + i - first) with i by lia.
    apply IH; [split_and!; [done..|]|done..]. cbn. apply stands_free; [done|lia].
Qed.

End Alloc.
Arguments IndexAllocator : clear implicits.
Arguments LabelBlock : clear implicits.

(** C40: Both allocators are the round-robin allocator [rr_alloc]: for every sequence of
    allocations and of releases within the range, [IndexAllocator] gives the first unused
    index after the one the last allocation gave, or else the first unused one, and [npos]
    exactly when all indices 0 .. max are used; an allocation that found none is
    forgotten, so that the next one looks from 0.  [LabelBlock] gives the labels [first]
    .. [last], where [first] is not 0, in the same way, and 0 exactly when all are used.
    No assertion fails and no 32-bit or 64-bit sum wraps around. *)
Theorem allocators_round_robin {B} `{!Bits B, !BitsLaws B} (max first last : Z) (ops1 ops2 : list op) :
  0 ≤ max < 2 ^ 63 → 1 ≤ first ≤ last → last < 2 ^ 32 → ops_ok max ops1 → ops_ok (last - first) ops2 →
  ia_run ops1 (new_IndexAllocator max) = Ret (default BS.npos <$> rr_run max ops1 (mkRR [] None)) ∧
  lb_run ops2 (new_LabelBlock first last) =
    Ret ((λ r, match r with Some i => first + i | None => 0 end) <$> rr_run (last - first) ops2 (mkRR [] None)).
Proof.
  intros Hm Hf Hl Ho1 Ho2. split.
  - apply ia_run_ok; [split; [done|apply stands_new]|done..].
  - apply lb_run_ok; [split_and!; [done..|apply stands_new]|lia|done..].
Qed.

(** Three numbers: all are given, one is released and given again. *)
Lemma allocators_round_robin_witness :
  let ops := [Alloc; Alloc; Free 0; Alloc; Alloc; Alloc; Free 1; Alloc] in
  rr_run 2 ops (mkRR [] None) = [Some 0; Some 1; Some 2; Some 0; None; Some 1] ∧
  ia_run (B := BS.BitSet) ops (new_IndexAllocator 2) = Ret (default BS.npos <$> rr_run 2 ops (mkRR [] None)) ∧
  lb_run (B := BS.BitSet) ops (new_LabelBlock 100 102) =
    Ret ((λ r, match r with Some i => 100 + i | None => 0 end) <$> rr_run (102 - 100) ops (mkRR [] None)).
Proof.
  split; [by vm_compute|].
  apply (allocators_round_robin 2 100 102); [lia..| |]; repeat (apply Forall_cons; split); by (done || lia || apply Forall_nil).
Defined.

(** A block that starts at label 0 answers 0 for that label and when all labels are used. *)
Lemma label_zero_ambiguous :
  lb_run (B := BS.BitSet) [Alloc; Alloc] (new_LabelBlock 0 0) = Ret [0; 0].
Proof. by vm_compute. Qed.

(** ** [LabelBlockManager] *)

Section Manager.
Context {B : Type} `{!Bits B}.

(** The manager, with the blocks that exist and their reference counts. *)
Record World := mkWorld {
  refcount_ : Z;                              (* of the manager *)
  blocks_ : list nat;
  alive : bool;                               (* the manager has not been deleted *)
  heap : gmap nat (LabelBlock B * Z);
}.

(** A manager that one user refers to. *)
Definition new_LabelBlockManager : World := mkWorld 1 [] true ∅.

Definition in_range (w : World) (first last : Z) (id : nat) : bool :=
  match heap w !! id with Some (b, _) => (first_ b =? first) && (last_ b =? last) | None => false end.

(** [LocateBlock], and the [LabelBlockPtr] it returns *)
Definition LocateBlock (first last : Z) (w : World) : outcome (nat * World) :=
  assert_that (alive w);;
  match list_find (λ id, in_range w first last id = true) (blocks_ w) with
  | Some (_, id) =>
      match heap w !! id with
      | Some (b, n) => Ret (id, mkWorld (refcount_ w) (blocks_ w) (alive w) (<[id := (b, n + 1)]> (heap w)))
      | None => Abort
      end
  | None =>
      let id := fresh (dom (heap w)) in
      Ret (id, mkWorld (refcount_ w + 1) (blocks_ w ++ [id]) (alive w)
                 (<[id := (new_LabelBlock first last, 1)]> (heap w)))
  end.

(** [RemoveBlock] *)
Definition RemoveBlock (id : nat) (w : World) : outcome World :=
  match list_find (λ x, x = id) (blocks_ w) with
  | Some (i, _) => Ret (mkWorld (refcount_ w) (delete i (blocks_ w)) (alive w) (heap w))
  | None => Abort
  end.

(** [intrusive_ptr_release] of the manager, and its destructor *)
Definition release_manager (w : World) : outcome World :=
  assert_that (alive w);;
  if refcount_ w =? 1 then
    assert_that (bool_decide (blocks_ w = []));;
    Ret (mkWorld 0 (blocks_ w) false (heap w))
  else Ret (mkWorld (refcount_ w - 1) (blocks_ w) (alive w) (heap w)).

(** [~LabelBlock], with the release of its member [block_manager_] *)
Definition delete_block (id : nat) (b : LabelBlock B) (w : World) : outcome World :=
  assert_that (b_none (used_bitset_ b));;
  w ← RemoveBlock id w;
  release_manager (mkWorld (refcount_ w) (blocks_ w) (alive w) (delete id (heap w))).

(** [intrusive_ptr_release] of a block: the mutex of the manager is locked at the start
    and unlocked at the end. *)
Definition release_block (id : nat) (w : World) : outcome World :=
  assert_that (alive w);;
  match heap w !! id with
  | None => Abort
  | Some (b, n) =>
      let w := mkWorld (refcount_ w) (blocks_ w) (alive w) (<[id := (b, n - 1)]> (heap w)) in
      w ← (if n =? 1 then delete_block id b w else Ret w);
      assert_that (alive w);;
      Ret w
  end.

(** [users] references to the manager that blocks do not hold. *)
Record MInv (users : Z) (w : World) : Prop := {
  mi_alive : alive w = true;
  mi_nodup : NoDup (blocks_ w);
  mi_blocks : ∀ id, id ∈ blocks_ w ↔ is_Some (heap w !! id);
  mi_refs : refcount_ w = users + Z.of_nat (length (blocks_ w));
  mi_pos : ∀ id b n, heap w !! id = Some (b, n) → 1 ≤ n;
}.

Lemma locate_ok users w first last : MInv users w →
  ∃ id w', LocateBlock first last w = Ret (id, w') ∧ MInv users w' ∧
    ∃ b n, heap w' !! id = Some (b, n) ∧ first_ b = first ∧ last_ b = last.
Proof.
  intros []. unfold LocateBlock. rewrite mi_alive0. cbn [assert_that mbind outcome_mbind].
  destruct (list_find _ (blocks_ w)) as [[i id]|] eqn:Ef.
  - apply list_find_Some in Ef as (Hi & Hr & _). pose proof (list_elem_of_lookup_2 _ _ _ Hi) as Hin.
    apply mi_blocks0 in Hin as [[b n] Hb]. unfold in_range in Hr. rewrite Hb in *.
    apply andb_prop in Hr as [Hr1%Z.eqb_eq Hr2%Z.eqb_eq]. eexists _, _. split; [done|]. split.
    + constructor; cbn; try done.
      * intros x. rewrite mi_blocks0. destruct (decide (x = id)) as [->|Hne].
        -- rewrite lookup_insert_eq, Hb. split; intros _; by eexists.
        -- by rewrite lookup_insert_ne.
      * intros x b' n' Hx. destruct (decide (x = id)) as [->|Hne].
        -- rewrite lookup_insert_eq in Hx. injection Hx as <- <-. pose proof (mi_pos0 _ _ _ Hb). lia.
        -- rewrite lookup_insert_ne in Hx by done. by eapply mi_pos0.
    + eexists _, _. cbn. by rewrite lookup_insert_eq.
  - set (id := fresh (dom (heap w))).
    assert (Hid : heap w !! id = None) by (apply not_elem_of_dom, is_fresh).
    assert (Hnb : id ∉ blocks_ w) by (rewrite mi_blocks0, Hid; by intros [? ?]).
    eexists _, _. split; [done|]. split.
    + constructor; cbn; try done.
      * apply NoDup_app. split_and!; [done| |apply NoDup_singleton].
        by intros x Hx ->%list_elem_of_singleton.
      * intros x. rewrite elem_of_app, list_elem_of_singleton, mi_blocks0. destruct (decide (x = id)) as [->|Hne].
        -- rewrite lookup_insert_eq. split; [by eexists|by right].
        -- rewrite lookup_insert_ne by done. split; [by intros [?|?]|by left].
      * rewrite length_app. cbn. lia.
      * intros x b' n' Hx. destruct (decide (x = id)) as [->|Hne].
        -- rewrite lookup_insert_eq in Hx. by injection Hx as <- <-.
        -- rewrite lookup_insert_ne in Hx by done. by eapply mi_pos0.
    + eexists _, _. cbn. by rewrite lookup_insert_eq.
Qed.

(** A block whose labels are all released can be released while a user refers to the
    manager. *)
Lemma release_block_ok users w id b n : MInv users w → 1 ≤ users → heap w !! id = Some (b, n) →
  b_none (used_bitset_ b) = true → ∃ w', release_block id w = Ret w' ∧ MInv users w'.
Proof.
  intros [] Hu Hb Hnone. unfold release_block. rewrite mi_alive0, Hb. cbn [assert_that mbind outcome_mbind].
  destruct (Z.eqb_spec n 1) as [->|Hn].
  - unfold delete_block, RemoveBlock. rewrite Hnone. cbn [assert_that mbind outcome_mbind blocks_ refcount_ alive heap].
    assert (Hin : id ∈ blocks_ w) by (apply mi_blocks0; by eexists).
    destruct (list_find _ (blocks_ w)) as [[i x]|] eqn:Ef.
    2:{ apply list_find_None in Ef. rewrite Forall_forall in Ef. by destruct (Ef id Hin). }
    apply list_find_Some in Ef as (Hi & -> & _). cbn [assert_that mbind outcome_mbind].
    unfold release_manager. cbn [alive refcount_ blocks_ heap]. cbn [assert_that mbind outcome_mbind].
    pose proof (lookup_lt_Some _ _ _ Hi) as Hlt. pose proof (delete_Permutation _ _ _ Hi) as Hp.
    generalize dependent (delete i (blocks_ w)). intros rest Hp.
    rewrite (proj2 (Z.eqb_neq _ _)) by (rewrite mi_refs0; lia). cbn [assert_that mbind outcome_mbind alive].
    eexists. split; [done|]. rewrite Hp in mi_nodup0. apply NoDup_cons in mi_nodup0 as [Hni Hnd].
    constructor; cbn; try done.
    + intros x. destruct (decide (x = id)) as [->|Hne].
      * rewrite lookup_delete_eq. split; [done|by intros [? ?]].
      * rewrite lookup_delete_ne, lookup_insert_ne, <- mi_blocks0, Hp by done. rewrite elem_of_cons. naive_solver.
    + rewrite mi_refs0, Hp. cbn. lia.
    + intros x b' n' Hx. apply lookup_delete_Some in Hx as [Hne Hx]. rewrite lookup_insert_ne in Hx by done. by eapply mi_pos0.
  - cbn [mbind outcome_mbind alive assert_that]. eexists. split; [done|]. constructor; cbn; try done.
    + intros x. rewrite mi_blocks0. destruct (decide (x = id)) as [->|Hne].
      * rewrite lookup_insert_eq, Hb. split; intros _; by eexists.
      * by rewrite lookup_insert_ne.
    + intros x b' n' Hx. destruct (decide (x = id)) as [->|Hne].
      * rewrite lookup_insert_eq in Hx. injection Hx as <- <-. pose proof (mi_pos0 _ _ _ Hb). lia.
      * rewrite lookup_insert_ne in Hx by done. by eapply mi_pos0.
Qed.

End Manager.

(** The last reference to a block that holds the last reference to the manager deletes
    the manager whose mutex is locked. *)
Lemma release_unlocks_deleted :
  ('(id, w) ← LocateBlock (B := BS.BitSet) 1 9 new_LabelBlockManager;
   w ← release_manager w;
   release_block id w) = Abort.
Proof. by vm_compute. Qed.

End AL.
