(* ===== verification/Lifetime.v ===== *)
(** * Managed lifetimes: src/base/lifetime.{h,cc}, src/base/dependency.h

    An actor stands for a managed object.  A reference ([LifetimeRef]) belongs to a
    dependent object and points to the actor of the object it depends on, which lists
    it among its [dependents_].  Deleting an actor queues a delete event; the manager
    takes the events one by one ([DeleteExecutor]), passes the delete on to the
    dependents and destroys an object when nothing depends on it any more.

    Objects, their [ManagedDelete], [MayDelete], [Shutdown] and [Destroy] are the code of
    the users.  As the comments of lifetime.h lay down: [ManagedDelete] deletes the
    actor of the object; [Destroy] destroys the object with its actor and its
    references; an object that may not be deleted yet ([busy]) posts an event when that
    changes ([RetryDelete]); objects depend on older objects only, and on objects that
    are not being deleted when the reference is made.  What is used after it was
    destroyed is [Abort], as is a failed assertion.

    Each section under the mutex of an actor is a step; so are the three parts of
    [DeleteExecutor], between which other threads act.  [Shutdown] and [DeleteComplete]
    are those of the base class, which do nothing. *)

From stdpp Require Import gmap sets.
From S2P Require Import Prelude.
Open Scope Z_scope.

Module LT.

Record LifetimeActor := mkActor {
  deleted_ : bool;
  refcount_ : Z;
  shutdown_invoked_ : bool;
  delete_paused_ : bool;
  dependents_ : list nat;      (* the references, in the order they were added *)
}.

(** [LifetimeRef] with its [DependencyRef]: the object it belongs to, and [ptr_]. *)
Record LifetimeRef := mkRef { self_ : nat; ptr_ : option nat }.

(** Where [DeleteExecutor] is: before the test of the conditions, or before [Destroy]. *)
Inductive Exec := Idle | Testing (a : nat) | Destroying (a : nat).
#[export] Instance Exec_eq_dec : EqDecision Exec.
Proof. solve_decision. Defined.

Record LM := mkLM {
  actors : gmap nat LifetimeActor;
  refs : gmap nat LifetimeRef;
  queue_ : list nat;
  exec : Exec;
  busy : gset nat;             (* [MayDelete] is false *)
  defer_count_ : Z;
}.

Definition new_LM : LM := mkLM ∅ ∅ [] Idle ∅ 0.

Definition set_actor (a : nat) (x : LifetimeActor) (s : LM) : LM :=
  mkLM (<[a := x]> (actors s)) (refs s) (queue_ s) (exec s) (busy s) (defer_count_ s).
Definition set_ref (r : nat) (x : LifetimeRef) (s : LM) : LM :=
  mkLM (actors s) (<[r := x]> (refs s)) (queue_ s) (exec s) (busy s) (defer_count_ s).
Definition set_queue (q : list nat) (e : Exec) (s : LM) : LM :=
  mkLM (actors s) (refs s) q e (busy s) (defer_count_ s).
Definition set_busy (b : gset nat) (s : LM) : LM :=
  mkLM (actors s) (refs s) (queue_ s) (exec s) b (defer_count_ s).

Definition get_actor (a : nat) (s : LM) : outcome LifetimeActor :=
  match actors s !! a with Some x => Ret x | None => Abort end.
Definition get_ref (r : nat) (s : LM) : outcome LifetimeRef :=
  match refs s !! r with Some x => Ret x | None => Abort end.

(** ** The manager's queue *)

Definition EnqueueNoIncrement (a : nat) (s : LM) : LM := set_queue (queue_ s ++ [a]) (exec s) s.

(** [ReferenceIncrement] *)
Definition with_refcount (n : Z) (x : LifetimeActor) : LifetimeActor :=
  mkActor (deleted_ x) n (shutdown_invoked_ x) (delete_paused_ x) (dependents_ x).

(** [refcount_++; manager_->EnqueueNoIncrement(this);] *)
Definition post (a : nat) (x : LifetimeActor) (s : LM) : LM :=
  EnqueueNoIncrement a (set_actor a (with_refcount (refcount_ x + 1) x) s).

Definition Enqueue (a : nat) (s : LM) : outcome LM := x ← get_actor a s; Ret (post a x s).

(** ** [LifetimeActor] *)

Definition new_actor : LifetimeActor := mkActor false 0 false false [].

Definition Delete (a : nat) (s : LM) : outcome LM :=
  x ← get_actor a s;
  if deleted_ x then Ret s
  else Ret (post a (mkActor true (refcount_ x) (shutdown_invoked_ x) (delete_paused_ x) (dependents_ x)) s).

(** [LifetimeRef::Delete]: [ManagedDelete] of the object *)
Definition Ref_Delete (r : nat) (s : LM) : outcome LM := x ← get_ref r s; Delete (self_ x) s.

Fixpoint Delete_all (rs : list nat) (s : LM) : outcome LM :=
  match rs with [] => Ret s | r :: rs => s ← Ref_Delete r s; Delete_all rs s end.

Definition PropagateDelete (a : nat) (s : LM) : outcome LM :=
  x ← get_actor a s;
  assert_that (deleted_ x);;
  Delete_all (dependents_ x) s.

Definition RetryDelete (a : nat) (s : LM) : outcome LM :=
  x ← get_actor a s;
  assert_that (deleted_ x);;
  Enqueue a s.

Definition PauseDelete (a : nat) (s : LM) : outcome LM :=
  x ← get_actor a s;
  assert_that (negb (deleted_ x));;
  Ret (set_actor a (mkActor (deleted_ x) (refcount_ x) (shutdown_invoked_ x) true (dependents_ x)) s).

Definition ResumeDelete (a : nat) (s : LM) : outcome LM :=
  x ← get_actor a s;
  assert_that (deleted_ x);;
  Ret (post a (mkActor (deleted_ x) (refcount_ x) (shutdown_invoked_ x) false (dependents_ x)) s).

Definition with_dependents (l : list nat) (x : LifetimeActor) : LifetimeActor :=
  mkActor (deleted_ x) (refcount_ x) (shutdown_invoked_ x) (delete_paused_ x) l.

Definition DependencyAdd (a r : nat) (s : LM) : outcome LM :=
  x ← get_actor a s;
  assert_that (negb (deleted_ x));;
  Ret (set_actor a (with_dependents (dependents_ x ++ [r]) x) s).

Definition DependencyRemove (a r : nat) (s : LM) : outcome LM :=
  x ← get_actor a s;
  assert_that (bool_decide (r ∈ dependents_ x));;       (* the node is in the list *)
  let x := with_dependents (List.remove Nat.eq_dec r (dependents_ x)) x in
  Ret (if deleted_ x && bool_decide (dependents_ x = []) then post a x s else set_actor a x s).

Definition ReferenceDecrementAndTest (a : nat) (s : LM) : outcome (bool * LM) :=
  x ← get_actor a s;
  let x := with_refcount (refcount_ x - 1) x in
  Ret ((refcount_ x =? 0) && bool_decide (dependents_ x = []) && negb (delete_paused_ x) &&
       bool_decide (a ∉ busy s), set_actor a x s).

(** [~LifetimeActor] *)
Definition delete_actor (a : nat) (s : LM) : outcome LM :=
  x ← get_actor a s;
  assert_that (refcount_ x =? 0);;
  assert_that (bool_decide (dependents_ x = []));;
  Ret (mkLM (delete a (actors s)) (refs s) (queue_ s) (exec s) (busy s) (defer_count_ s)).

(** ** [DependencyRef] *)

Definition new_ref (r self a : nat) (s : LM) : outcome LM :=
  DependencyAdd a r (set_ref r (mkRef self (Some a)) s).

(** [clear], and [reset(NULL)] *)
Definition clear (r : nat) (s : LM) : outcome LM :=
  x ← get_ref r s;
  match ptr_ x with
  | None => Ret s
  | Some a => s ← DependencyRemove a r s; Ret (set_ref r (mkRef (self_ x) None) s)
  end.

(** [~DependencyRef] *)
Definition delete_ref (r : nat) (s : LM) : outcome LM :=
  s ← clear r s;
  Ret (mkLM (actors s) (delete r (refs s)) (queue_ s) (exec s) (busy s) (defer_count_ s)).

Fixpoint delete_refs (rs : list nat) (s : LM) : outcome LM :=
  match rs with [] => Ret s | r :: rs => s ← delete_ref r s; delete_refs rs s end.

(** ** [DeleteExecutor] *)

(** Up to the check of [MayDestroy] *)
Definition DeleteExecutor_shutdown (a : nat) (q : list nat) (s : LM) : outcome LM :=
  let s := set_queue q (Testing a) s in
  x ← get_actor a s;
  assert_that (deleted_ x);;
  if shutdown_invoked_ x then Ret s
  else
    s ← PropagateDelete a s;
    x ← get_actor a s;
    Ret (set_actor a (mkActor (deleted_ x) (refcount_ x) true (delete_paused_ x) (dependents_ x)) s).

(** Up to [Destroy] *)
Definition DeleteExecutor_test (a : nat) (may_destroy : bool) (s : LM) : outcome LM :=
  if negb may_destroy then
    let s := EnqueueNoIncrement a s in
    Ret (mkLM (actors s) (refs s) (queue_ s) Idle (busy s) (defer_count_ s + 1))
  else
    '(ok, s) ← ReferenceDecrementAndTest a s;
    Ret (set_queue (queue_ s) (if (ok : bool) then Destroying a else Idle) s).

(** The references of the object. *)
Definition owned (a : nat) (s : LM) : list nat :=
  (filter (λ p : nat * LifetimeRef, self_ p.2 = a) (map_to_list (refs s))).*1.

(** [DeleteComplete] and [Destroy] *)
Definition Destroy (a : nat) (s : LM) : outcome LM :=
  s ← delete_refs (owned a s) s;
  s ← delete_actor a s;
  Ret (set_queue (queue_ s) Idle s).

(** ** Executions *)

Inductive label :=
| LNew (a : nat) | LRef (r self a : nat) | LClear (r : nat) | LDelete (a : nat)
| LHold (a : nat) | LUnhold (a : nat) | LPause (a : nat) | LResume (a : nat)
| LShutdown | LTest (may_destroy : bool) | LDestroy.

(** The users hold what they use. *)
Definition is_deleted (a : nat) (s : LM) : Prop := ∃ x, actors s !! a = Some x ∧ deleted_ x = true.
Definition is_live (a : nat) (s : LM) : Prop := ∃ x, actors s !! a = Some x ∧ deleted_ x = false.

Inductive step : LM → label → outcome LM → Prop :=
| step_new s a : actors s !! a = None → (∀ b, is_Some (actors s !! b) → (b < a)%nat) →
    step s (LNew a) (Ret (set_actor a new_actor s))
| step_ref s r self a : refs s !! r = None → is_live self s → is_live a s → (a < self)%nat →
    step s (LRef r self a) (new_ref r self a s)
| step_clear s r : is_Some (refs s !! r) → step s (LClear r) (clear r s)
| step_delete s a : is_Some (actors s !! a) → step s (LDelete a) (Delete a s)
| step_hold s a : is_live a s ∨ a ∈ busy s → step s (LHold a) (Ret (set_busy ({[a]} ∪ busy s) s))
| step_unhold s a : a ∈ busy s →
    (* the last lightweight dependent goes: a delete event is posted if there is a delete *)
    step s (LUnhold a)
      (s ← Ret (set_busy (busy s ∖ {[a]}) s);
       x ← get_actor a s;
       if deleted_ x then RetryDelete a s else Ret s)
| step_pause s a : is_live a s → step s (LPause a) (PauseDelete a s)
| step_resume s a x : actors s !! a = Some x → deleted_ x = true → delete_paused_ x = true →
    step s (LResume a) (ResumeDelete a s)
| step_shutdown s a q : queue_ s = a :: q → exec s = Idle → step s LShutdown (DeleteExecutor_shutdown a q s)
| step_test s a may_destroy : exec s = Testing a → step s (LTest may_destroy) (DeleteExecutor_test a may_destroy s)
| step_destroy s a : exec s = Destroying a → step s LDestroy (Destroy a s).

Inductive reachable : LM → Prop :=
| reach_new : reachable new_LM
| reach_step s l s' : reachable s → step s l (Ret s') → reachable s'.

(** ** The invariant *)

Definition pending (a : nat) (s : LM) : Z :=
  Z.of_nat (length (filter (λ b, b = a) (queue_ s))) + (if decide (exec s = Testing a) then 1 else 0).

Record ActorOk (s : LM) (a : nat) (x : LifetimeActor) : Prop := {
  ao_refcount : refcount_ x = pending a s;
  ao_nodup : NoDup (dependents_ x);
  ao_dependents : ∀ r, r ∈ dependents_ x ↔ ∃ y, refs s !! r = Some y ∧ ptr_ y = Some a;
  ao_cascade : deleted_ x = true → shutdown_invoked_ x = true →
    ∀ r y, refs s !! r = Some y → ptr_ y = Some a → is_deleted (self_ y) s;
  ao_fresh : deleted_ x = false → shutdown_invoked_ x = false;
  ao_first : deleted_ x = true → shutdown_invoked_ x = false → 0 < refcount_ x;
  ao_last : deleted_ x = true → dependents_ x = [] → a ∉ busy s → delete_paused_ x = false →
    0 < refcount_ x ∨ exec s = Destroying a;
}.

(** What holds between the steps of other threads, also within [DeleteExecutor]; ... *)
Record Core (s : LM) : Prop := {
  co_actors : ∀ a x, actors s !! a = Some x → ActorOk s a x;
  co_queue : ∀ a, a ∈ queue_ s ∨ exec s = Testing a → is_deleted a s;
  co_destroying : ∀ a, exec s = Destroying a → ∃ x, actors s !! a = Some x ∧ deleted_ x = true ∧
    refcount_ x = 0 ∧ dependents_ x = [] ∧ shutdown_invoked_ x = true ∧ delete_paused_ x = false ∧ a ∉ busy s;
  co_refs : ∀ r y, refs s !! r = Some y → is_Some (actors s !! self_ y) ∧
    ∀ a, ptr_ y = Some a → (a < self_ y)%nat ∧ is_Some (actors s !! a);
  co_busy : ∀ a, a ∈ busy s → is_Some (actors s !! a);
}.

(** ... and at the end of its parts. *)
Definition LInv (s : LM) : Prop :=
  Core s ∧ ∀ a x, exec s = Testing a → actors s !! a = Some x → shutdown_invoked_ x = true.

Lemma lm_new_inv : LInv new_LM.
Proof. split; [constructor|]; try done. by intros a [?%elem_of_nil|?]. Qed.

Lemma is_deleted_insert a b x x' s s' : actors s !! a = Some x → actors s' = <[a := x']> (actors s) →
  (deleted_ x = true → deleted_ x' = true) → is_deleted b s → is_deleted b s'.
Proof.
  intros Hx Es Hd (z & Hz & Hdz). unfold is_deleted. rewrite Es. destruct (decide (b = a)) as [->|Hne].
  - rewrite lookup_insert_eq. exists x'. split; [done|]. apply Hd. congruence.
  - rewrite lookup_insert_ne by done. by exists z.
Qed.

Lemma pending_app b q e s s' : queue_ s' = queue_ s ++ q → exec s' = e → exec s = e →
  pending b s' = pending b s + Z.of_nat (length (filter (λ c, c = b) q)).
Proof. unfold pending. intros -> -> ->. rewrite filter_app, length_app. lia. Qed.

(** The references of [s'] are those of [s], but some that pointed to [a] are cleared. *)
Definition refs_shrink (a : nat) (s s' : LM) : Prop :=
  (∀ r y', refs s' !! r = Some y' → ∃ y, refs s !! r = Some y ∧ self_ y' = self_ y ∧
     ∀ b, ptr_ y' = Some b → ptr_ y = Some b) ∧
  (∀ r y b, refs s !! r = Some y → b ≠ a → ptr_ y = Some b →
     ∃ y', refs s' !! r = Some y' ∧ ptr_ y' = Some b).

Lemma refs_shrink_refl a s s' : refs s' = refs s → refs_shrink a s s'.
Proof. unfold refs_shrink. intros ->. split; [intros r y Hy; by exists y|intros r y b Hy _ Hb; by exists y]. Qed.

(** One actor changes, with or without a new event for it. *)
Lemma core_change (posted : bool) a x x' s s' :
  Core s → actors s !! a = Some x → exec s ≠ Destroying a →
  actors s' = <[a := x']> (actors s) → queue_ s' = queue_ s ++ (if posted then [a] else []) → exec s' = exec s →
  refs_shrink a s s' → (∀ b, b ≠ a → b ∈ busy s' ↔ b ∈ busy s) →
  refcount_ x' = refcount_ x + (if posted then 1 else 0) →
  (deleted_ x = true → deleted_ x' = true) → (posted = true → deleted_ x' = true) →
  (deleted_ x' = true → deleted_ x = true ∨ posted = true) →
  shutdown_invoked_ x' = shutdown_invoked_ x → NoDup (dependents_ x') →
  (∀ r, r ∈ dependents_ x' ↔ ∃ y, refs s' !! r = Some y ∧ ptr_ y = Some a) →
  (deleted_ x' = true → dependents_ x' = [] → a ∉ busy s' → delete_paused_ x' = false → 0 < refcount_ x') →
  Core s'.
Proof.
  intros C Hx Hnd Ea Eq Ee [Hr1 Hr2] Hbusy Hrc Hd Hpd Hdp Hsh Hnodup Hdeps Hlast.
  pose proof (co_actors s C a x Hx) as Ox.
  assert (Hdel : ∀ b, is_deleted b s → is_deleted b s') by (intros b; by eapply is_deleted_insert).
  assert (Hsome : ∀ b, is_Some (actors s !! b) → is_Some (actors s' !! b)).
  { intros b Hb. rewrite Ea. destruct (decide (b = a)) as [->|]; [rewrite lookup_insert_eq; by eexists|by rewrite lookup_insert_ne]. }
  assert (Hpend : ∀ b, pending b s' = pending b s + (if posted then if decide (a = b) then 1 else 0 else 0)).
  { intros b. erewrite pending_app by (done || reflexivity). f_equal. destruct posted; [|done].
    rewrite filter_cons. by destruct (decide (a = b)). }
  constructor.
  - intros b z Hz. rewrite Ea in Hz. destruct (decide (b = a)) as [->|Hne].
    + rewrite lookup_insert_eq in Hz. injection Hz as <-. constructor; try done.
      * rewrite Hpend, Hrc, (ao_refcount _ _ _ Ox). destruct posted; [|done]. by rewrite decide_True.
      * intros Hdz Hsz r y' Hy' Hp. destruct (Hr1 r y' Hy') as (y & Hy & Es & Hpp). rewrite Es. apply Hdel.
        eapply (ao_cascade _ _ _ Ox); [|congruence|exact Hy|by apply Hpp].
        destruct (deleted_ x) eqn:Edx; [done|]. rewrite Hsh, (ao_fresh _ _ _ Ox) in Hsz by done. done.
      * intros Hdz. rewrite Hsh. apply Ox. destruct (deleted_ x) eqn:Edx; [|done]. by rewrite Hd in Hdz.
      * intros Hdz Hsz. pose proof (ao_refcount _ _ _ Ox) as Hr0.
        destruct (Hdp Hdz) as [Hdx| ->]; [pose proof (ao_first _ _ _ Ox Hdx ltac:(congruence)); destruct posted; lia|].
        unfold pending in Hr0. destruct (decide _); lia.
      * intros. left. by apply Hlast.
    + rewrite lookup_insert_ne in Hz by done. pose proof (co_actors s C b z Hz) as Oz. constructor.
      * rewrite Hpend, (ao_refcount _ _ _ Oz). destruct posted; [rewrite decide_False by congruence|]; lia.
      * apply Oz.
      * intros r. rewrite (ao_dependents _ _ _ Oz). split.
        -- intros (y & Hy & Hp). by eapply Hr2.
        -- intros (y' & Hy' & Hp). destruct (Hr1 r y' Hy') as (y & Hy & _ & Hpp). exists y. auto.
      * intros Hdz Hsz r y' Hy' Hp. destruct (Hr1 r y' Hy') as (y & Hy & Es & Hpp). rewrite Es.
        apply Hdel. by eapply (ao_cascade _ _ _ Oz); [..|exact Hy|apply Hpp].
      * apply Oz.
      * apply Oz.
      * rewrite Ee, Hbusy by done. apply Oz.
  - intros b Hb. rewrite Eq, Ee in Hb. destruct Hb as [[Hb|Hb]%elem_of_app|Hb].
    + apply Hdel, C. by left.
    + destruct posted; [|by apply elem_of_nil in Hb]. apply list_elem_of_singleton in Hb as ->.
      exists x'. rewrite Ea, lookup_insert_eq. auto.
    + apply Hdel, C. by right.
  - intros b Hb. rewrite Ee in Hb. destruct (co_destroying s C b Hb) as (z & Hz & Hrest). exists z.
    assert (b ≠ a) by congruence. rewrite Ea, lookup_insert_ne, Hbusy by done. done.
  - intros r y' Hy'. destruct (Hr1 r y' Hy') as (y & Hy & -> & Hpp). destruct (co_refs s C r y Hy) as [H1 H2].
    split; [auto|]. intros b Hb. destruct (H2 b (Hpp b Hb)). auto.
  - intros b Hb. destruct (decide (b = a)) as [->|Hne]; [rewrite Ea, lookup_insert_eq; by eexists|].
    apply Hsome, C. by apply Hbusy.
Qed.

(** What a delete leaves as it is. *)
Record ext (s s' : LM) : Prop := {
  ex_exec : exec s' = exec s;
  ex_refs : refs s' = refs s;
  ex_busy : busy s' = busy s;
  ex_actors : ∀ b x, actors s !! b = Some x → ∃ x', actors s' !! b = Some x' ∧
    shutdown_invoked_ x' = shutdown_invoked_ x ∧ dependents_ x' = dependents_ x ∧ (deleted_ x = true → deleted_ x' = true);
}.

Lemma lext_refl s : ext s s.
Proof. constructor; try done. intros b x Hx. by exists x. Qed.

Lemma lext_trans s1 s2 s3 : ext s1 s2 → ext s2 s3 → ext s1 s3.
Proof.
  intros [] []. constructor; try congruence. intros b x Hx.
  destruct (ex_actors0 b x Hx) as (x2 & Hx2 & S2 & D2 & L2). destruct (ex_actors1 b x2 Hx2) as (x3 & Hx3 & S3 & D3 & L3).
  exists x3. split_and!; [done|congruence|congruence|auto].
Qed.

Lemma ext_deleted s s' b : ext s s' → is_deleted b s → is_deleted b s'.
Proof. intros [] (x & Hx & Hd). destruct (ex_actors0 b x Hx) as (x' & Hx' & _ & _ & H). exists x'. auto. Qed.

Lemma ext_insert s s' a x x' : actors s !! a = Some x → actors s' = <[a := x']> (actors s) →
  exec s' = exec s → refs s' = refs s → busy s' = busy s → shutdown_invoked_ x' = shutdown_invoked_ x →
  dependents_ x' = dependents_ x → (deleted_ x = true → deleted_ x' = true) → ext s s'.
Proof.
  intros Hx Ea Ee Er Eb Hs Hdep Hd. constructor; try done. intros b z Hz. rewrite Ea.
  destruct (decide (b = a)) as [->|Hne].
  - rewrite lookup_insert_eq. exists x'. assert (z = x) as -> by congruence. done.
  - rewrite lookup_insert_ne by done. by exists z.
Qed.

Lemma not_destroying s a x : Core s → actors s !! a = Some x → deleted_ x = false → exec s ≠ Destroying a.
Proof. intros C Hx Hd He. destruct (co_destroying s C a He) as (z & Hz & ? & _). congruence. Qed.

Lemma get_actor_ok s a x : actors s !! a = Some x → get_actor a s = Ret x.
Proof. unfold get_actor. by intros ->. Qed.

Lemma Delete_ok s a : Core s → is_Some (actors s !! a) →
  ∃ s', Delete a s = Ret s' ∧ Core s' ∧ ext s s' ∧ is_deleted a s'.
Proof.
  intros C [x Hx]. unfold Delete. rewrite (get_actor_ok s a x Hx). cbn [mbind outcome_mbind].
  pose proof (co_actors s C a x Hx) as Ox. destruct (deleted_ x) eqn:Ed.
  - exists s. split_and!; [done..|apply lext_refl|by exists x].
  - eexists. split; [done|]. split_and!.
    + apply (core_change true a x (with_refcount (refcount_ x + 1) (mkActor true (refcount_ x) (shutdown_invoked_ x)
        (delete_paused_ x) (dependents_ x))) s); try done.
      * by eapply not_destroying.
      * by apply refs_shrink_refl.
      * by right.
      * apply Ox.
      * apply Ox.
      * intros _ _ _ _. cbn. rewrite (ao_refcount _ _ _ Ox). unfold pending. destruct (decide _); lia.
    + eapply (ext_insert _ _ a x); try done.
    + eexists. cbn. rewrite lookup_insert_eq. done.
Qed.

Lemma Delete_all_ok rs s : Core s → (∀ r, r ∈ rs → is_Some (refs s !! r)) →
  ∃ s', Delete_all rs s = Ret s' ∧ Core s' ∧ ext s s' ∧
    ∀ r y, r ∈ rs → refs s !! r = Some y → is_deleted (self_ y) s'.
Proof.
  revert s. induction rs as [|r rs IH]; intros s C Hrs.
  { exists s. split_and!; [done..|apply lext_refl|by intros ? ? ?%elem_of_nil]. }
  destruct (Hrs r ltac:(by left)) as [y Hy]. cbn [Delete_all]. unfold Ref_Delete, get_ref. rewrite Hy.
  cbn [mbind outcome_mbind]. destruct (Delete_ok s (self_ y) C) as (s1 & -> & C1 & E1 & D1); [by apply (co_refs s C r)|].
  cbn [mbind outcome_mbind]. destruct (IH s1 C1) as (s2 & -> & C2 & E2 & D2).
  { intros r' Hr'. rewrite (ex_refs _ _ E1). apply Hrs. by right. }
  exists s2. split_and!; [done..|by eapply lext_trans|]. intros r' y' [->|Hr']%elem_of_cons Hy'.
  - assert (y' = y) as -> by congruence. by eapply ext_deleted.
  - apply (D2 r' y' Hr'). by rewrite (ex_refs _ _ E1).
Qed.

Lemma nodup_list_remove r (l : list nat) : NoDup l → NoDup (List.remove Nat.eq_dec r l).
Proof.
  induction 1 as [|x l Hx _ IH]; cbn; [constructor|]. destruct (Nat.eq_dec r x); [done|]. constructor; [|done].
  by intros [? _]%elem_of_list_remove.
Qed.

(** A reference is cleared. *)
Lemma clear_ok s r y : Core s → refs s !! r = Some y →
  ∃ s', clear r s = Ret s' ∧ Core s' ∧ exec s' = exec s ∧ busy s' = busy s ∧
    refs s' = <[r := mkRef (self_ y) None]> (refs s) ∧
    ∀ b x, actors s !! b = Some x → ∃ x', actors s' !! b = Some x' ∧ shutdown_invoked_ x' = shutdown_invoked_ x ∧
      (exec s = Destroying b → x' = x).
Proof.
  intros C Hy. unfold clear, get_ref. rewrite Hy. cbn [mbind outcome_mbind]. destruct (ptr_ y) as [a|] eqn:Ep.
  2:{ exists s. split_and!; try done.
      - rewrite insert_id; [done|]. rewrite Hy. destruct y; cbn in *; congruence.
      - intros b x Hx. by exists x. }
  destruct (co_refs s C r y Hy) as [_ Hrr]. destruct (Hrr a Ep) as [_ [x Hx]].
  pose proof (co_actors s C a x Hx) as Ox.
  assert (Hin : r ∈ dependents_ x) by (apply (ao_dependents _ _ _ Ox); by exists y).
  assert (Hnd : exec s ≠ Destroying a).
  { intros He. destruct (co_destroying s C a He) as (z & Hz & _ & _ & Hdep & _). assert (z = x) as -> by congruence.
    rewrite Hdep in Hin. by apply elem_of_nil in Hin. }
  unfold DependencyRemove. rewrite (get_actor_ok s a x Hx). cbn [mbind outcome_mbind].
  rewrite (bool_decide_eq_true_2 (r ∈ dependents_ x)) by done. cbn [mbind outcome_mbind assert_that].
  set (x1 := with_dependents (List.remove Nat.eq_dec r (dependents_ x)) x).
  set (posted := deleted_ x1 && bool_decide (dependents_ x1 = [])).
  set (x2 := with_refcount (refcount_ x + if posted then 1 else 0) x1).
  set (s' := set_ref r (mkRef (self_ y) None) (if posted then post a x1 s else set_actor a x1 s)).
  assert (Ea : actors s' = <[a := x2]> (actors s)).
  { unfold s', x2. destruct posted; cbn; [done|]. f_equal. unfold x1, with_refcount, with_dependents. cbn.
    f_equal. lia. }
  assert (Er : refs s' = <[r := mkRef (self_ y) None]> (refs s)) by (unfold s'; by destruct posted).
  assert (Eq : queue_ s' = queue_ s ++ (if posted then [a] else []))
    by (unfold s'; destruct posted; cbn; [done|by rewrite app_nil_r]).
  assert (Ee : exec s' = exec s) by (unfold s'; by destruct posted).
  assert (Eb : busy s' = busy s) by (unfold s'; by destruct posted).
  exists s'. split; [done|]. split_and!; try done.
  - apply (core_change posted a x x2 s); try done.
    + split.
      * intros r' y' Hy'. rewrite Er in Hy'. destruct (decide (r' = r)) as [->|Hne].
        -- rewrite lookup_insert_eq in Hy'. injection Hy' as <-. exists y. by split_and!.
        -- rewrite lookup_insert_ne in Hy' by done. by exists y'.
      * intros r' y' b Hy' Hb Hp. rewrite Er. destruct (decide (r' = r)) as [->|Hne]; [congruence|].
        rewrite lookup_insert_ne by done. by exists y'.
    + intros b _. by rewrite Eb.
    + unfold posted. by intros [? _]%andb_prop.
    + by left.
    + cbn. apply nodup_list_remove, Ox.
    + intros r'. rewrite Er. cbn. rewrite elem_of_list_remove, (ao_dependents _ _ _ Ox). destruct (decide (r' = r)) as [->|Hne].
      * rewrite lookup_insert_eq. split; [by intros [_ ?]|]. intros (y' & [= <-] & ?). done.
      * rewrite lookup_insert_ne by done. naive_solver.
    + intros Hd Hdep _ _. assert (posted = true) as Ep'.
      { unfold posted. cbn in Hd, Hdep |- *. rewrite Hd, Hdep. done. }
      unfold x2. rewrite Ep'. cbn. rewrite (ao_refcount _ _ _ Ox). unfold pending. destruct (decide _); lia.
  - intros b z Hz. rewrite Ea. destruct (decide (b = a)) as [->|Hne].
    + rewrite lookup_insert_eq. exists x2. assert (z = x) as -> by congruence. by split_and!.
    + rewrite lookup_insert_ne by done. by exists z.
Qed.

(** A cleared reference is destroyed. *)
Lemma core_drop_ref s r y : Core s → refs s !! r = Some y → ptr_ y = None →
  Core (mkLM (actors s) (delete r (refs s)) (queue_ s) (exec s) (busy s) (defer_count_ s)).
Proof.
  intros C Hy Hp. constructor; cbn; [|apply C..|intros r' y' [_ Hy']%lookup_delete_Some; by apply (co_refs s C r')|apply C].
  intros a x Hx. pose proof (co_actors s C a x Hx) as Ox. constructor; cbn; try apply Ox.
  - intros r'. rewrite (ao_dependents _ _ _ Ox). split; intros (y' & Hy' & Hp'); exists y'; (split; [|done]).
    + rewrite lookup_delete_ne; [done|]. congruence.
    + by apply lookup_delete_Some in Hy' as [_ ?].
  - intros Hd Hs r' y' [_ Hy']%lookup_delete_Some. by eapply (ao_cascade _ _ _ Ox).
Qed.

Lemma delete_refs_ok rs s : Core s → NoDup rs → (∀ r, r ∈ rs → is_Some (refs s !! r)) →
  ∃ s', delete_refs rs s = Ret s' ∧ Core s' ∧ exec s' = exec s ∧ busy s' = busy s ∧
    ∀ r, refs s' !! r = if decide (r ∈ rs) then None else refs s !! r.
Proof.
  revert s. induction rs as [|r rs IH]; intros s C Hnd Hrs.
  { exists s. by split_and!. }
  apply NoDup_cons in Hnd as [Hr Hnd]. destruct (Hrs r ltac:(by left)) as [y Hy].
  destruct (clear_ok s r y C Hy) as (s1 & E1 & C1 & X1 & B1 & R1 & _).
  cbn [delete_refs]. unfold delete_ref. rewrite E1. cbn [mbind outcome_mbind].
  set (s2 := mkLM (actors s1) (delete r (refs s1)) (queue_ s1) (exec s1) (busy s1) (defer_count_ s1)).
  assert (R2 : ∀ r', refs s2 !! r' = if decide (r' = r) then None else refs s !! r').
  { intros r'. cbn. rewrite R1. destruct (decide (r' = r)) as [->|]; [by rewrite lookup_delete_eq|].
    by rewrite lookup_delete_ne, lookup_insert_ne. }
  destruct (IH s2) as (s3 & -> & C3 & X3 & B3 & R3); [|done|..].
  - eapply core_drop_ref; [done|rewrite R1; apply lookup_insert_eq|done].
  - intros r' Hr'. rewrite R2, decide_False by (intros ->; done). apply Hrs. by right.
  - exists s3. split_and!; [done..|by rewrite X3|by rewrite B3|]. intros r'. rewrite R3, R2.
    destruct (decide (r' ∈ rs)), (decide (r' = r)), (decide (r' ∈ r :: rs)) as [Hi|Hi]; try done;
      [destruct Hi; set_solver..|]. set_solver.
Qed.

(** ** Every step of every thread keeps the invariant and returns *)

Lemma linv_keep s s' : LInv s → Core s' → exec s' = exec s →
  (∀ b x, actors s !! b = Some x → ∃ x', actors s' !! b = Some x' ∧ shutdown_invoked_ x' = shutdown_invoked_ x) → LInv s'.
Proof.
  intros [C I] C' Ee Hk. split; [done|]. intros a x' He Hx'. rewrite Ee in He.
  destruct (co_queue s C a ltac:(by right)) as (x & Hx & _). destruct (Hk a x Hx) as (z & Hz & Hs).
  assert (z = x') as -> by congruence. rewrite Hs. by eapply I.
Qed.

Lemma linv_insert s s' a x x' : LInv s → Core s' → exec s' = exec s → actors s !! a = Some x →
  actors s' = <[a := x']> (actors s) → shutdown_invoked_ x' = shutdown_invoked_ x → LInv s'.
Proof.
  intros I C' Ee Hx Ea Hs. apply (linv_keep s s'); try done. intros b z Hz. rewrite Ea.
  destruct (decide (b = a)) as [->|Hne]; [|rewrite lookup_insert_ne by done; by exists z].
  rewrite lookup_insert_eq. exists x'. split; [done|]. congruence.
Qed.

Definition safe (r : outcome LM) : Prop := ∃ s', r = Ret s' ∧ LInv s'.

Lemma delete_safe s a : LInv s → is_Some (actors s !! a) → safe (Delete a s).
Proof.
  intros I Ha. destruct (Delete_ok s a (proj1 I) Ha) as (s' & -> & C' & E & _). exists s'. split; [done|].
  apply (linv_keep s s' I C'); [apply E|]. intros b x Hx. destruct (ex_actors _ _ E b x Hx) as (x' & ? & ? & _). eauto.
Qed.

Lemma clear_safe s r : LInv s → is_Some (refs s !! r) → safe (clear r s).
Proof.
  intros I [y Hy]. destruct (clear_ok s r y (proj1 I) Hy) as (s' & -> & C' & Ee & _ & _ & Hk). exists s'.
  split; [done|]. apply (linv_keep s s' I C' Ee). intros b x Hx. destruct (Hk b x Hx) as (x' & ? & ? & _). eauto.
Qed.

Lemma pending_zero s a : Core s → actors s !! a = None → pending a s = 0.
Proof.
  intros C Ha. assert (Hn : ¬ is_deleted a s) by (intros (x & Hx & _); congruence). unfold pending.
  rewrite decide_False by (intros ?; apply Hn, C; by right).
  destruct (filter _ (queue_ s)) as [|b l] eqn:Ef; [done|exfalso].
  assert (b ∈ b :: l) as Hb by by left. rewrite <- Ef in Hb. apply list_elem_of_filter in Hb as [-> Hb].
  apply Hn, C. by left.
Qed.

Lemma new_safe s a : LInv s → actors s !! a = None → LInv (set_actor a new_actor s).
Proof.
  intros [C I] Ha.
  assert (Hdel : ∀ b, is_deleted b s → is_deleted b (set_actor a new_actor s)).
  { intros b (x & Hx & Hd). exists x. cbn. rewrite lookup_insert_ne by congruence. done. }
  assert (Hsome : ∀ b, is_Some (actors s !! b) → is_Some (<[a := new_actor]> (actors s) !! b)).
  { intros b [x Hx]. rewrite lookup_insert_ne by congruence. by exists x. }
  split.
  2:{ intros b x He Hx. cbn in *. destruct (decide (b = a)) as [->|Hne]; [|rewrite lookup_insert_ne in Hx by done; by eapply I].
      destruct (co_queue s C a) as (z & Hz & _); [by right|congruence]. }
  constructor; cbn.
  - intros b x Hx. destruct (decide (b = a)) as [->|Hne].
    + rewrite lookup_insert_eq in Hx. injection Hx as <-. constructor; try done; cbn.
      * by rewrite <- (pending_zero s a C Ha).
      * constructor.
      * intros r. split; [by intros ?%elem_of_nil|]. intros (y & Hy & Hp). destruct (co_refs s C r y Hy) as [_ H].
        destruct (H a Hp) as [_ [z Hz]]. congruence.
    + rewrite lookup_insert_ne in Hx by done. destruct (co_actors s C b x Hx). constructor; try done.
      intros Hd Hs r y Hy Hp. apply Hdel. eauto.
  - intros b Hb. by apply Hdel, C.
  - intros b Hb. destruct (co_destroying s C b Hb) as (z & Hz & ?). exists z. rewrite lookup_insert_ne by congruence. done.
  - intros r y Hy. destruct (co_refs s C r y Hy) as [H1 H2]. split; [auto|]. intros b Hb. destruct (H2 b Hb). auto.
  - intros b Hb. by apply Hsome, C.
Qed.

Lemma ref_safe s r self a : LInv s → refs s !! r = None → is_live self s → is_live a s → (a < self)%nat →
  safe (new_ref r self a s).
Proof.
  intros [C I] Hr (z & Hz & Hdz) (x & Hx & Hdx) Hlt. pose proof (co_actors s C a x Hx) as Ox.
  assert (Hold : ∀ r' y, refs s !! r' = Some y → <[r := mkRef self (Some a)]> (refs s) !! r' = Some y).
  { intros r' y Hy. rewrite lookup_insert_ne by congruence. done. }
  set (x1 := with_dependents (dependents_ x ++ [r]) x).
  set (s1 := set_actor a x1 (set_ref r (mkRef self (Some a)) s)).
  assert (E : new_ref r self a s = Ret s1).
  { unfold new_ref, DependencyAdd. rewrite (get_actor_ok _ a x) by done. cbn [mbind outcome_mbind]. by rewrite Hdx. }
  assert (Hdel : ∀ b, is_deleted b s → is_deleted b s1) by (intros b; by eapply is_deleted_insert).
  assert (Hsome : ∀ b, is_Some (actors s !! b) → is_Some (actors s1 !! b)).
  { intros b Hb. cbn. destruct (decide (b = a)) as [->|]; [rewrite lookup_insert_eq; by eexists|by rewrite lookup_insert_ne]. }
  exists s1. split; [done|]. eapply (linv_insert s s1 a x x1); [done| |done..]. constructor.
  - intros b w Hw. cbn in Hw. destruct (decide (b = a)) as [->|Hne].
    + rewrite lookup_insert_eq in Hw. injection Hw as <-. constructor; try (cbn; congruence).
      * apply Ox.
      * cbn. apply NoDup_app. split_and!; [apply Ox| |apply NoDup_singleton]. intros r' Hr' ->%list_elem_of_singleton.
        apply (ao_dependents _ _ _ Ox) in Hr' as (y & ? & _). congruence.
      * intros r'. cbn. rewrite elem_of_app, list_elem_of_singleton, (ao_dependents _ _ _ Ox).
        destruct (decide (r' = r)) as [->|Hne]; [rewrite lookup_insert_eq; naive_solver|]. rewrite lookup_insert_ne by done. naive_solver.
      * apply Ox.
    + rewrite lookup_insert_ne in Hw by done. destruct (co_actors s C b w Hw). constructor; try done.
      * intros r'. rewrite ao_dependents0. cbn. destruct (decide (r' = r)) as [->|Hner].
        -- rewrite lookup_insert_eq, Hr. split; [by intros (? & ? & _)|]. intros (y & [= <-] & [= ?]). congruence.
        -- by rewrite lookup_insert_ne.
      * intros Hd Hs r' y. cbn. intros [[<- <-]|[_ Hy]]%lookup_insert_Some Hp; [cbn in Hp; congruence|]. apply Hdel. eauto.
  - intros b Hb. by apply Hdel, C.
  - intros b Hb. destruct (co_destroying s C b Hb) as (w & Hw & Hdw & ?). exists w. cbn. rewrite lookup_insert_ne by congruence. done.
  - intros r' y. cbn. intros [[<- <-]|[_ Hy]]%lookup_insert_Some.
    + split; [apply Hsome; by exists z|]. cbn. intros b [= <-]. split; [done|]. apply Hsome. by exists x.
    + destruct (co_refs s C r' y Hy) as [H1 H2]. split; [by apply Hsome|]. intros b Hb. destruct (H2 b Hb). split; [done|by apply Hsome].
  - intros b Hb. by apply Hsome, C.
Qed.

Lemma hold_safe s a : LInv s → is_live a s ∨ a ∈ busy s → LInv (set_busy ({[a]} ∪ busy s) s).
Proof.
  intros [C I] Ha. split; [|done]. constructor; try apply C.
  - intros b x Hx. destruct (co_actors s C b x Hx). constructor; try done. intros ? ? Hb. cbn in Hb. set_solver.
  - intros b Hb. destruct (co_destroying s C b Hb) as (x & Hx & Hd & ? & ? & ? & ? & Hbb). exists x. split_and!; try done.
    cbn. destruct Ha as [(z & Hz & Hdz)|Ha]; [|set_solver]. assert (b ≠ a) by congruence. set_solver.
  - intros b Hb. cbn in *. apply elem_of_union in Hb as [->%elem_of_singleton|Hb]; [|by apply C].
    destruct Ha as [(z & Hz & _)|Ha]; [by exists z|by apply C].
Qed.

(** A thread changes an actor that is not on its way to [Destroy]. *)
Lemma change_safe (posted : bool) a x x' s s' :
  LInv s → actors s !! a = Some x → exec s ≠ Destroying a →
  actors s' = <[a := x']> (actors s) → queue_ s' = queue_ s ++ (if posted then [a] else []) → exec s' = exec s →
  refs s' = refs s → (∀ b, b ≠ a → b ∈ busy s' ↔ b ∈ busy s) →
  refcount_ x' = refcount_ x + (if posted then 1 else 0) → deleted_ x' = deleted_ x →
  (posted = deleted_ x) → shutdown_invoked_ x' = shutdown_invoked_ x → dependents_ x' = dependents_ x → LInv s'.
Proof.
  intros I Hx He Ea Eq Ee Er Hb Hrc Hd Hpd Hs Hdep. pose proof (co_actors s (proj1 I) a x Hx) as Ox.
  eapply (linv_insert s s' a x x'); [done| |done..].
  apply (core_change posted a x x' s); try done; try congruence.
  - apply I.
  - by apply refs_shrink_refl.
  - left. congruence.
  - rewrite Hdep. apply Ox.
  - rewrite Hdep, Er. apply Ox.
  - intros Hd'. rewrite Hd in Hd'. rewrite Hrc, Hpd, Hd', (ao_refcount _ _ _ Ox). unfold pending. destruct (decide _); lia.
Qed.

Lemma unhold_safe s a : LInv s → a ∈ busy s →
  safe (s ← Ret (set_busy (busy s ∖ {[a]}) s); x ← get_actor a s; if deleted_ x then RetryDelete a s else Ret s).
Proof.
  intros I Ha. destruct (co_busy s (proj1 I) a Ha) as [x Hx]. cbn [mbind outcome_mbind].
  set (s1 := set_busy (busy s ∖ {[a]}) s).
  rewrite (get_actor_ok s1 a x Hx). cbn [mbind outcome_mbind].
  assert (He : exec s ≠ Destroying a).
  { intros He. destruct (co_destroying s (proj1 I) a He) as (z & _ & _ & _ & _ & _ & _ & ?). done. }
  destruct (deleted_ x) eqn:Ed.
  - unfold RetryDelete. rewrite (get_actor_ok s1 a x Hx). cbn [mbind outcome_mbind]. rewrite Ed. cbn [assert_that mbind outcome_mbind].
    unfold Enqueue. rewrite (get_actor_ok s1 a x Hx). cbn [mbind outcome_mbind]. eexists. split; [done|].
    eapply (change_safe true a x (with_refcount (refcount_ x + 1) x) s); try done. cbn. set_solver.
  - exists s1. split; [done|].
    eapply (change_safe false a x x s); try done; [symmetry; by apply insert_id|by rewrite app_nil_r|cbn; set_solver|lia].
Qed.

Lemma pause_safe s a : LInv s → is_live a s → safe (PauseDelete a s).
Proof.
  intros I (x & Hx & Hd). unfold PauseDelete. rewrite (get_actor_ok s a x Hx). cbn [mbind outcome_mbind]. rewrite Hd.
  cbn [negb assert_that mbind outcome_mbind]. eexists. split; [done|].
  eapply (change_safe false a x); try done.
  - eapply not_destroying; [apply I|done..].
  - by rewrite app_nil_r.
  - cbn. lia.
Qed.

Lemma resume_safe s a x : LInv s → actors s !! a = Some x → deleted_ x = true → delete_paused_ x = true →
  safe (ResumeDelete a s).
Proof.
  intros I Hx Hd Hp. unfold ResumeDelete. rewrite (get_actor_ok s a x Hx). cbn [mbind outcome_mbind]. rewrite Hd.
  cbn [assert_that mbind outcome_mbind]. eexists. split; [done|].
  eapply (change_safe true a x); try done. intros He.
  destruct (co_destroying s (proj1 I) a He) as (z & Hz & _ & _ & _ & _ & ? & _). congruence.
Qed.

(** The counts move between the queue and the executor. *)
Lemma core_requeue s q e : Core s → (∀ a, exec s ≠ Destroying a) → (∀ a, e ≠ Destroying a) →
  (∀ a, pending a (set_queue q e s) = pending a s) →
  (∀ a, a ∈ q ∨ e = Testing a → a ∈ queue_ s ∨ exec s = Testing a) → Core (set_queue q e s).
Proof.
  intros C Hs He Hp Hq. constructor; try apply C.
  - intros a x Hx. destruct (co_actors s C a x Hx). constructor; try done; [by rewrite Hp|].
    intros. destruct ao_last0 as [?|Hx1]; try done; [by left|by apply Hs in Hx1].
  - intros a Ha. by apply (co_queue s C a), Hq.
  - intros a Ha. by apply He in Ha.
Qed.

Lemma shutdown_safe s a q : LInv s → queue_ s = a :: q → exec s = Idle → safe (DeleteExecutor_shutdown a q s).
Proof.
  intros [C I] Eq Ee. destruct (co_queue s C a) as (x & Hx & Hd); [left; rewrite Eq; by left|].
  set (s1 := set_queue q (Testing a) s).
  assert (C1 : Core s1).
  { apply core_requeue; [done|by rewrite Ee|done|..].
    - intros b. unfold pending. cbn. rewrite Eq, Ee, filter_cons.
      destruct (decide (a = b)) as [->|]; [rewrite decide_True, decide_False by done; cbn; lia|].
      rewrite !decide_False by congruence. done.
    - rewrite Eq. intros b [Hb|[= ->]]; left; [by right|by left]. }
  unfold DeleteExecutor_shutdown. fold s1. rewrite (get_actor_ok s1 a x Hx). cbn [mbind outcome_mbind]. rewrite Hd.
  cbn [assert_that mbind outcome_mbind]. destruct (shutdown_invoked_ x) eqn:Es.
  { exists s1. split; [done|]. split; [done|]. intros b z [= ->] Hz. cbn in Hz. congruence. }
  unfold PropagateDelete. rewrite (get_actor_ok s1 a x Hx). cbn [mbind outcome_mbind]. rewrite Hd. cbn [assert_that mbind outcome_mbind].
  pose proof (co_actors s1 C1 a x Hx) as Ox.
  destruct (Delete_all_ok (dependents_ x) s1 C1) as (s2 & -> & C2 & E2 & D2).
  { intros r Hr. apply (ao_dependents _ _ _ Ox) in Hr as (y & Hy & _). by exists y. }
  cbn [mbind outcome_mbind]. destruct (ex_actors _ _ E2 a x Hx) as (x2 & Hx2 & Es2 & Ed2 & Hd2). specialize (Hd2 Hd).
  rewrite (get_actor_ok s2 a x2 Hx2). cbn [mbind outcome_mbind]. eexists. split; [done|].
  assert (Hdel : ∀ b x', deleted_ x' = true → is_deleted b s2 → is_deleted b (set_actor a x' s2)).
  { intros b x' H. eapply (is_deleted_insert a b x2 x'); done. }
  pose proof (co_actors s2 C2 a x2 Hx2) as O2. pose proof (ex_exec _ _ E2) as Ee2. cbn in Ee2.
  split; [|intros b z Hb Hz; cbn in Hb, Hz; rewrite Ee2 in Hb; injection Hb as <-; rewrite lookup_insert_eq in Hz; by injection Hz as <-].
  constructor.
  - intros b z Hz. cbn in Hz. destruct (decide (b = a)) as [->|Hne].
    + rewrite lookup_insert_eq in Hz. injection Hz as <-. constructor; try apply O2; cbn; try congruence.
      intros _ _ r y Hy Hp. apply Hdel; [done|]. apply (D2 r y); [|by rewrite <- (ex_refs _ _ E2)].
      rewrite <- Ed2. apply (ao_dependents _ _ _ O2). by exists y.
    + rewrite lookup_insert_ne in Hz by done. destruct (co_actors s2 C2 b z Hz). constructor; try done.
      intros Hdz Hsz r y Hy Hp. apply Hdel; [done|]. eauto.
  - intros b Hb. apply Hdel; [done|]. by apply C2.
  - intros b Hb. cbn in Hb. congruence.
  - intros r y Hy. cbn in *. destruct (co_refs s2 C2 r y Hy) as [H1 H2].
    split; [|intros b Hb; destruct (H2 b Hb) as [? H3]; split; [done|]];
      apply lookup_insert_is_Some'; auto.
  - intros b Hb. cbn in *. apply lookup_insert_is_Some'. right. by apply C2.
Qed.

Lemma test_safe s a may_destroy : LInv s → exec s = Testing a → safe (DeleteExecutor_test a may_destroy s).
Proof.
  intros [C I] Ee. destruct (co_queue s C a) as (x & Hx & Hd); [by right|]. pose proof (I a x Ee Hx) as Hs.
  unfold DeleteExecutor_test. destruct may_destroy; cbn [negb].
  2:{ eexists. split; [done|]. assert (C' : Core (set_queue (queue_ s ++ [a]) Idle s)).
      { apply core_requeue; [done|congruence|done|..].
        - intros b. unfold pending. cbn. rewrite Ee, filter_app, length_app, filter_cons.
          repeat destruct (decide _); cbn; try lia; congruence.
        - intros b [[Hb|Hb%list_elem_of_singleton]%elem_of_app|?]; [by left| |done]. right. by subst. }
      split; [|done]. destruct C'. constructor; try done. intros b z Hz. destruct (co_actors0 b z Hz). by constructor. }
  pose proof (co_actors s C a x Hx) as Ox.
  unfold ReferenceDecrementAndTest. rewrite (get_actor_ok s a x Hx). cbn [mbind outcome_mbind].
  set (x1 := with_refcount (refcount_ x - 1) x). set (ok := _ && _ && _ && _). eexists. split; [done|].
  set (e := if ok then Destroying a else Idle). cbn [set_actor queue_].
  assert (Hdel : ∀ b q e', is_deleted b s → is_deleted b (set_queue q e' (set_actor a x1 s))).
  { intros b q e'. eapply (is_deleted_insert a b x x1); done. }
  assert (Hpend : refcount_ x1 = Z.of_nat (length (filter (λ b, b = a) (queue_ s)))).
  { cbn. rewrite (ao_refcount _ _ _ Ox). unfold pending. rewrite decide_True by done. lia. }
  assert (Het : ∀ b, e ≠ Testing b) by (unfold e; by destruct ok).
  split; [|intros b z Hb; cbn in Hb; by apply Het in Hb]. constructor.
  - intros b z Hz. cbn in Hz. destruct (decide (b = a)) as [->|Hne].
    + rewrite lookup_insert_eq in Hz. injection Hz as <-. constructor; try apply Ox.
      * rewrite Hpend. unfold pending. cbn. rewrite decide_False by apply Het. lia.
      * intros _ _ r y Hy Hp. apply Hdel. by eapply (ao_cascade _ _ _ Ox).
      * cbn. congruence.
      * intros _ Hdep Hb Hp. cbn [set_queue exec]. unfold e. destruct ok eqn:Eok; [by right|left].
        unfold ok in Eok. rewrite Hdep, Hp in Eok. cbn in Hb. rewrite (bool_decide_eq_true_2 (a ∉ _)) in Eok by done.
        rewrite bool_decide_eq_true_2 in Eok by done. cbn in Eok, Hpend |- *. lia.
    + rewrite lookup_insert_ne in Hz by done. destruct (co_actors s C b z Hz). constructor; try done.
      * rewrite ao_refcount0. unfold pending. cbn. by rewrite Ee, !decide_False by (congruence || apply Het).
      * intros Hdz Hsz r y Hy Hp. apply Hdel. eauto.
      * intros. destruct ao_last0 as [?|Hx1]; try done; [by left|congruence].
  - intros b [Hb|Hb]; [|by apply Het in Hb]. apply Hdel, C. by left.
  - intros b Hb. cbn in Hb. unfold e in Hb. destruct ok eqn:Eok; [|done]. injection Hb as <-. exists x1. cbn.
    rewrite lookup_insert_eq. unfold ok in Eok. rewrite !andb_true_iff in Eok. destruct Eok as [[[H1 H2] H3] H4].
    cbn in H1. apply bool_decide_eq_true in H2, H4. apply negb_true_iff in H3. split_and!; try done. lia.
  - intros r y Hy. cbn in *. destruct (co_refs s C r y Hy) as [H1 H2].
    split; [|intros b Hb; destruct (H2 b Hb) as [? H3]; split; [done|]];
      apply lookup_insert_is_Some'; auto.
  - intros b Hb. cbn in *. apply lookup_insert_is_Some'. right. by apply C.
Qed.

Lemma owned_iff a r s : r ∈ owned a s ↔ ∃ y, refs s !! r = Some y ∧ self_ y = a.
Proof.
  unfold owned. rewrite list_elem_of_fmap. split.
  - intros ([r' y] & -> & [Hs Hy]%list_elem_of_filter). apply elem_of_map_to_list in Hy. by exists y.
  - intros (y & Hy & Hs). exists (r, y). split; [done|]. apply list_elem_of_filter. split; [done|]. by apply elem_of_map_to_list.
Qed.

Lemma owned_nodup a s : NoDup (owned a s).
Proof.
  unfold owned. apply (sublist_NoDup _ ((map_to_list (refs s)).*1)); [apply NoDup_fst_map_to_list|].
  apply fmap_sublist, sublist_filter.
Qed.

Lemma destroy_safe s a : LInv s → exec s = Destroying a → safe (Destroy a s).
Proof.
  intros [C I] Ee. unfold Destroy.
  destruct (delete_refs_ok (owned a s) s C (owned_nodup a s)) as (s1 & -> & C1 & Ee1 & Eb1 & Er1).
  { intros r (y & Hy & _)%owned_iff. by exists y. }
  cbn [mbind outcome_mbind]. rewrite <- Ee1 in Ee.
  destruct (co_destroying s1 C1 a Ee) as (x & Hx & Hd & Hrc & Hdep & _ & _ & Hb).
  assert (Hself : ∀ r y, refs s1 !! r = Some y → self_ y ≠ a).
  { intros r y Hy Hs. rewrite Er1 in Hy. destruct (decide (r ∈ owned a s)) as [|Hn]; [done|]. apply Hn, owned_iff. by exists y. }
  pose proof (co_actors s1 C1 a x Hx) as Ox.
  assert (Hptr : ∀ r y, refs s1 !! r = Some y → ptr_ y ≠ Some a).
  { intros r y Hy Hp. assert (Hr : r ∈ dependents_ x) by (apply (ao_dependents _ _ _ Ox); by exists y).
    rewrite Hdep in Hr. by apply elem_of_nil in Hr. }
  unfold delete_actor. rewrite (get_actor_ok s1 a x Hx). cbn [mbind outcome_mbind]. rewrite Hrc, Hdep.
  cbn. eexists. split; [done|]. split; [|done].
  assert (Hne : ∀ b, is_deleted b s1 → b ≠ a → ∃ z, delete a (actors s1) !! b = Some z ∧ deleted_ z = true).
  { intros b (z & Hz & ?) Hn. exists z. by rewrite lookup_delete_ne. }
  assert (Hsome : ∀ b, is_Some (actors s1 !! b) → b ≠ a → is_Some (delete a (actors s1) !! b)).
  { intros b Hs Hn. by rewrite lookup_delete_ne. }
  constructor; cbn.
  - intros b z [Hn Hz]%lookup_delete_Some. destruct (co_actors s1 C1 b z Hz). constructor; try done; cbn.
    + rewrite ao_refcount0. unfold pending. cbn. by rewrite !decide_False by congruence.
    + intros Hdz Hsz r y Hy Hp. apply Hne; [by eapply ao_cascade0|by eapply Hself].
    + intros. destruct ao_last0 as [?|Hx1]; try done; [by left|congruence].
  - intros b [Hq|?]; [|done]. apply Hne; [apply C1; by left|]. intros ->.
    pose proof (ao_refcount _ _ _ Ox) as Hp. rewrite Hrc in Hp. unfold pending in Hp.
    assert (a ∈ filter (λ b, b = a) (queue_ s1)) as Hin by (by apply list_elem_of_filter).
    destruct (filter _ _); [by apply elem_of_nil in Hin|]. destruct (decide _); cbn in Hp; lia.
  - done.
  - intros r y Hy. destruct (co_refs s1 C1 r y Hy) as [H1 H2]. split; [apply Hsome; [done|by eapply Hself]|].
    intros b Hbb. destruct (H2 b Hbb). split; [done|]. apply Hsome; [done|]. intros ->. by apply (Hptr r y).
  - intros b Hbb. apply Hsome; [by apply C1|]. by intros ->.
Qed.

Lemma step_safe s l r : LInv s → step s l r → safe r.
Proof.
  intros I Hst. inversion Hst; subst.
  - eexists. split; [done|]. by apply new_safe.
  - by apply ref_safe.
  - by apply clear_safe.
  - by apply delete_safe.
  - eexists. split; [done|]. by apply hold_safe.
  - by apply unhold_safe.
  - by apply pause_safe.
  - by eapply resume_safe.
  - by apply shutdown_safe.
  - by apply test_safe.
  - by apply destroy_safe.
Qed.

Lemma lm_reachable_inv s : reachable s → LInv s.
Proof.
  induction 1 as [|s l s' _ IH Hst]; [apply lm_new_inv|]. destruct (step_safe s l _ IH Hst) as (? & [= ->] & ?). done.
Qed.

(** In every interleaving of the threads that create, reference, hold, pause and
    delete managed objects with the parts of [DeleteExecutor], each call returns: no
    actor or reference is used after it was destroyed, an event that is taken from the
    queue is for an actor that still exists and is being deleted, and an object is
    destroyed with a reference count of zero and without dependents. *)
Theorem lifetime_never_aborts s l r : reachable s → step s l r → ∃ s', r = Ret s'.
Proof. intros I%lm_reachable_inv Hst. destruct (step_safe s l r I Hst) as (s' & -> & _). by exists s'. Qed.

#[export] Instance is_deleted_dec a s : Decision (is_deleted a s).
Proof.
  destruct (actors s !! a) as [x|] eqn:Ex; [destruct (deleted_ x) eqn:Ed|].
  - left. by exists x.
  - right. intros (y & Hy & Hd). congruence.
  - right. intros (y & Hy & Hd). congruence.
Defined.

(** The deleted actor that was created last. *)
Lemma largest_deleted s a : is_deleted a s →
  ∃ b, is_deleted b s ∧ ∀ c, is_deleted c s → (c ≤ b)%nat.
Proof.
  intros Ha. set (m := max_list (map_to_list (actors s)).*1).
  assert (Hm : ∀ c, is_deleted c s → (c ≤ m)%nat).
  { intros c (x & Hx & _). apply max_list_elem_of_le, list_elem_of_fmap. exists (c, x). split; [done|]. by apply elem_of_map_to_list. }
  clearbody m. revert a Ha Hm. induction m as [|m IH]; intros a Ha Hm.
  { exists a. split; [done|]. intros c Hc. specialize (Hm c Hc). lia. }
  destruct (decide (is_deleted (S m) s)) as [Hd|Hn]; [by exists (S m)|].
  apply (IH a Ha). intros c Hc. specialize (Hm c Hc). destruct (decide (c = S m)) as [->|]; [done|lia].
Qed.

Lemma quiet_no_deleted s : LInv s → queue_ s = [] → exec s = Idle → busy s = ∅ →
  (∀ a x, actors s !! a = Some x → delete_paused_ x = false) → ∀ a, ¬ is_deleted a s.
Proof.
  intros [C _] Eq Ee Eb Hp a Ha. destruct (largest_deleted s a Ha) as (b & (x & Hx & Hd) & Hmax).
  pose proof (co_actors s C b x Hx) as Ox. pose proof (ao_refcount _ _ _ Ox) as Hrc.
  unfold pending in Hrc. rewrite Eq, Ee, decide_False in Hrc by done. cbn in Hrc.
  assert (Hs : shutdown_invoked_ x = true).
  { destruct (shutdown_invoked_ x) eqn:Es; [done|]. pose proof (ao_first _ _ _ Ox Hd Es). lia. }
  destruct (dependents_ x) as [|r l] eqn:Edep.
  - destruct (ao_last _ _ _ Ox Hd Edep) as [?|?]; [rewrite Eb; set_solver|by eapply Hp|lia|congruence].
  - assert (r ∈ dependents_ x) as Hr by (rewrite Edep; by left).
    apply (ao_dependents _ _ _ Ox) in Hr as (y & Hy & Hpy).
    pose proof (Hmax _ (ao_cascade _ _ _ Ox Hd Hs r y Hy Hpy)).
    destruct (co_refs s C r y Hy) as [_ H2]. destruct (H2 b Hpy). lia.
Qed.

(** ** The executor on its own *)

(** At most [n] parts of [DeleteExecutor], the conditions of [MayDestroy] met *)
Fixpoint drain (n : nat) (s : LM) : outcome LM :=
  match n with
  | O => Ret s
  | S n =>
    match exec s, queue_ s with
    | Idle, [] => Ret s
    | Idle, a :: q => s ← DeleteExecutor_shutdown a q s; drain n s
    | Testing a, _ => s ← DeleteExecutor_test a true s; drain n s
    | Destroying a, _ => s ← Destroy a s; drain n s
    end
  end.

(** The events there are, and those there still may be. *)
Definition live_count (m : gmap nat LifetimeActor) : nat := size (filter (λ p, deleted_ p.2 = false) m).
Definition linked_count (m : gmap nat LifetimeRef) : nat := size (filter (λ p, is_Some (ptr_ p.2)) m).
Definition events (s : LM) : nat := (length (queue_ s) + live_count (actors s) + linked_count (refs s))%nat.
Definition phase (e : Exec) : nat := match e with Idle => 0 | Testing _ => 2 | Destroying _ => 1 end.
Definition work (s : LM) : nat := (3 * events s + phase (exec s))%nat.

Definition unpaused (s : LM) : Prop := ∀ a x, actors s !! a = Some x → delete_paused_ x = false.

Definition progress (s s' : LM) : Prop :=
  exec s' = exec s ∧ busy s' = busy s ∧ (unpaused s → unpaused s') ∧ (events s' ≤ events s)%nat.

Lemma progress_refl s : progress s s.
Proof. done. Qed.

Lemma progress_trans s1 s2 s3 : progress s1 s2 → progress s2 s3 → progress s1 s3.
Proof. intros (? & ? & ? & ?) (? & ? & ? & ?). split_and!; [congruence..|auto|lia]. Qed.

Section Count.
  Context {A : Type} (P : nat * A → Prop) `{!∀ p, Decision (P p)}.

Lemma tally_insert_new (m : gmap nat A) a x : m !! a = None →
  size (filter P (<[a := x]> m)) = (size (filter P m) + (if decide (P (a, x)) then 1 else 0))%nat.
Proof.
  intros Ha. rewrite map_filter_insert. destruct (decide _); [|rewrite delete_id by done; lia].
  rewrite map_size_insert_None; [lia|]. rewrite map_lookup_filter, Ha. done.
Qed.

Lemma tally_insert (m : gmap nat A) a x x' : m !! a = Some x →
  (size (filter P (<[a := x']> m)) + (if decide (P (a, x)) then 1 else 0) =
   size (filter P m) + (if decide (P (a, x')) then 1 else 0))%nat.
Proof.
  intros Hx. rewrite <- (insert_id m a x Hx) at 2. rewrite <- !(insert_delete_eq m).
  rewrite !tally_insert_new by apply lookup_delete_eq. lia.
Qed.

Lemma tally_delete (m : gmap nat A) a : (size (filter P (delete a m)) ≤ size (filter P m))%nat.
Proof. rewrite map_filter_delete, map_size_delete. destruct (_ !! a); cbn; lia. Qed.
End Count.

Lemma unpaused_insert s s' a x x' : actors s !! a = Some x → actors s' = <[a := x']> (actors s) →
  (delete_paused_ x = false → delete_paused_ x' = false) → unpaused s → unpaused s'.
Proof.
  intros Hx Ea Hp Hu b z. rewrite Ea. intros [[<- <-]|[_ Hz]]%lookup_insert_Some; [|by eapply Hu].
  by eapply Hp, Hu.
Qed.

Lemma get_actor_ret a s x : get_actor a s = Ret x → actors s !! a = Some x.
Proof. unfold get_actor. destruct (actors s !! a); by intros [= ->]. Qed.

Ltac inv_ret H := repeat
  match type of H with
  | mbind _ _ = Ret _ => let x := fresh "x" in let E := fresh "E" in
      apply outcome_bind_ret in H as (x & E & H); try apply get_actor_ret in E
  end.

Lemma Delete_progress a s s' : Delete a s = Ret s' → progress s s'.
Proof.
  unfold Delete. intros H. inv_ret H. destruct (deleted_ x) eqn:Ed; injection H as <-; [done|].
  split_and!; [done..|by eapply (unpaused_insert _ _ _ _ _ E)|]. unfold events, live_count. cbn. rewrite length_app. cbn.
  pose proof (tally_insert (λ p, deleted_ p.2 = false) (actors s) a x
    (with_refcount (refcount_ x + 1) (mkActor true (refcount_ x) (shutdown_invoked_ x) (delete_paused_ x) (dependents_ x))) E) as Hc.
  cbn in Hc. rewrite Ed in Hc. rewrite decide_True in Hc by done. rewrite decide_False in Hc by done. lia.
Qed.

Lemma Delete_all_progress rs s s' : Delete_all rs s = Ret s' → progress s s'.
Proof.
  revert s. induction rs as [|r rs IH]; intros s H; [by injection H as ->|]. cbn in H. inv_ret H.
  unfold Ref_Delete in E. inv_ret E. eapply progress_trans; [by eapply Delete_progress|by apply IH].
Qed.

Lemma live_count_same m a x x' : m !! a = Some x → deleted_ x' = deleted_ x → live_count (<[a := x']> m) = live_count m.
Proof.
  intros Hx Hd. pose proof (tally_insert (λ p, deleted_ p.2 = false) m a x x' Hx) as Hc. cbn in Hc. rewrite Hd in Hc.
  unfold live_count. lia.
Qed.

Lemma clear_progress r s s' : clear r s = Ret s' → progress s s'.
Proof.
  unfold clear, get_ref. intros H. inv_ret H. destruct (refs s !! r) as [y|] eqn:Ey; [|done]. injection E as <-.
  destruct (ptr_ y) as [a|] eqn:Ep; [|by injection H as ->]. inv_ret H. injection H as <-.
  unfold DependencyRemove in E. inv_ret E. injection E as <-.
  pose proof (tally_insert (λ p, is_Some (ptr_ p.2)) (refs s) r y (mkRef (self_ y) None) Ey) as Hc. cbn in Hc. rewrite Ep in Hc.
  rewrite decide_True, decide_False in Hc by (by eexists || by intros [? [=]]).
  destruct (deleted_ _ && _); (split_and!; [done..|by eapply (unpaused_insert _ _ _ _ _ E0)|]); unfold events, linked_count; cbn;
    rewrite (live_count_same _ _ _ _ E0), ?length_app by done; cbn; lia.
Qed.

Lemma delete_refs_progress rs s s' : delete_refs rs s = Ret s' → progress s s'.
Proof.
  revert s. induction rs as [|r rs IH]; intros s H; [by injection H as ->|]. cbn in H. inv_ret H.
  unfold delete_ref in E. inv_ret E. injection E as <-. apply clear_progress in E0. apply IH in H.
  eapply progress_trans; [exact E0|]. eapply progress_trans; [|exact H]. split_and!; [done..|]. unfold events, linked_count. cbn.
  pose proof (tally_delete (λ p, is_Some (ptr_ p.2)) (refs x0) r). lia.
Qed.

(** Every part of the executor leaves less to do. *)
Definition advance (s s' : LM) : Prop := busy s' = busy s ∧ (unpaused s → unpaused s') ∧ (work s' < work s)%nat.

Lemma shutdown_advance a q s s' : queue_ s = a :: q → exec s = Idle → DeleteExecutor_shutdown a q s = Ret s' → advance s s'.
Proof.
  intros Eq Ee H. set (s1 := set_queue q (Testing a) s).
  assert (W1 : (events s1 + 1 = events s)%nat) by (unfold events; cbn; rewrite Eq; cbn; lia).
  assert (Hgoal : ∀ s2, progress s1 s2 → advance s s2).
  { intros s2 (E2 & ? & Hu & ?). split_and!; [done|exact Hu|]. unfold work. rewrite E2, Ee. cbn. lia. }
  unfold DeleteExecutor_shutdown in H. fold s1 in H. inv_ret H. destruct (shutdown_invoked_ x); [by injection H as <-; apply Hgoal|].
  inv_ret H. injection H as <-. unfold PropagateDelete in E1. inv_ret E1. apply Delete_all_progress in E1.
  apply Hgoal. eapply progress_trans; [exact E1|]. split_and!; [done..|by eapply (unpaused_insert _ _ _ _ _ E2)|].
  unfold events. cbn. by rewrite (live_count_same _ _ _ _ E2).
Qed.

Lemma test_advance a s s' : exec s = Testing a → DeleteExecutor_test a true s = Ret s' → advance s s'.
Proof.
  intros Ee H. cbn [DeleteExecutor_test negb] in H. inv_ret H. destruct x as [ok s1]. injection H as <-.
  unfold ReferenceDecrementAndTest in E. inv_ret E. injection E as <- <-.
  split_and!; [done|by eapply (unpaused_insert _ _ _ _ _ E0)|]. unfold work, events. cbn. rewrite Ee.
  rewrite (live_count_same _ _ _ _ E0) by done. destruct (_ && _); cbn; lia.
Qed.

Lemma Destroy_advance a s s' : exec s = Destroying a → Destroy a s = Ret s' → advance s s'.
Proof.
  intros Ee H. unfold Destroy in H. inv_ret H. injection H as <-. apply delete_refs_progress in E as (E1 & E2 & E3 & E4).
  unfold delete_actor in E0. inv_ret E0. injection E0 as <-. split_and!; [done| |].
  - intros Hu b z. cbn. intros [_ Hz]%lookup_delete_Some. by eapply E3.
  - unfold work. rewrite Ee. unfold events in *. cbn. pose proof (tally_delete (λ p, deleted_ p.2 = false) (actors x) a).
    unfold live_count in *. lia.
Qed.

Lemma drain_ok n s : reachable s → busy s = ∅ → unpaused s → (work s ≤ n)%nat →
  ∃ s', drain n s = Ret s' ∧ reachable s' ∧ queue_ s' = [] ∧ exec s' = Idle ∧ busy s' = ∅ ∧ unpaused s'.
Proof.
  revert s. induction n as [|n IH]; intros s R Hb Hu Hw.
  { unfold work, events in Hw. destruct (queue_ s) eqn:Eq; [|cbn in Hw; lia].
    destruct (exec s) eqn:Ee; [|cbn in Hw; lia..]. by exists s. }
  assert (Hgoal : ∀ l r, step s l r → (∀ s', r = Ret s' → advance s s') →
    ∃ s', (s1 ← r; drain n s1) = Ret s' ∧ reachable s' ∧ queue_ s' = [] ∧ exec s' = Idle ∧ busy s' = ∅ ∧ unpaused s').
  { intros l r Hst Ha. destruct (step_safe s l r (lm_reachable_inv s R) Hst) as (s1 & -> & _).
    destruct (Ha s1 eq_refl) as (A1 & A2 & A3). apply (IH s1); [by eapply reach_step|congruence|auto|lia]. }
  cbn [drain]. destruct (exec s) as [|a|a] eqn:Ee; [destruct (queue_ s) as [|a q] eqn:Eq|..].
  - by exists s.
  - apply (Hgoal LShutdown); [by constructor|]. intros s'. by apply shutdown_advance.
  - apply (Hgoal (LTest true)); [by constructor|]. intros s'. by apply test_advance.
  - apply (Hgoal LDestroy); [by constructor|]. intros s'. by apply Destroy_advance.
Qed.

(** C35: deletion completes.  From every reachable state in which no object is held and
    no delete is paused, the executor, left alone, comes to rest after at most [work s]
    of its parts, without aborting; then the queue is empty and every object that was
    being deleted, or became so by the cascade, has been destroyed. *)
Theorem cascade_completes s : reachable s → busy s = ∅ → unpaused s →
  ∃ s', drain (work s) s = Ret s' ∧ queue_ s' = [] ∧ exec s' = Idle ∧ ∀ a x, actors s' !! a = Some x → deleted_ x = false.
Proof.
  intros R Hb Hu. destruct (drain_ok (work s) s R Hb Hu) as (s' & -> & R' & Eq & Ee & Eb & Hu'); [done|].
  exists s'. split_and!; [done..|]. intros a x Hx. destruct (deleted_ x) eqn:Ed; [|done].
  destruct (quiet_no_deleted s' (lm_reachable_inv s' R') Eq Ee Eb Hu' a). by exists x.
Qed.

(** An object 1 that depends on object 0, which is deleted. *)
Definition demo0 : LM := set_actor 1 new_actor (set_actor 0 new_actor new_LM).
Definition demo1 : LM := match new_ref 7 1 0 demo0 with Ret s => s | Abort => demo0 end.
Definition demo2 : LM := match Delete 0 demo1 with Ret s => s | Abort => demo1 end.

Lemma demo_reachable : reachable demo2.
Proof.
  apply (reach_step demo1 (LDelete 0)).
  2:{ replace (Ret demo2) with (Delete 0 demo1) by (vm_compute; reflexivity). apply step_delete. by eexists. }
  apply (reach_step demo0 (LRef 7 1 0)).
  2:{ replace (Ret demo1) with (new_ref 7 1 0 demo0) by (vm_compute; reflexivity).
      apply step_ref; [done|by eexists|by eexists|lia]. }
  apply (reach_step (set_actor 0 new_actor new_LM) (LNew 1)).
  2:{ apply step_new; [done|]. intros b [x Hx]. cbn in Hx. apply lookup_insert_Some in Hx as [[<- _]|[_ ?]]; [lia|done]. }
  apply (reach_step new_LM (LNew 0)); [constructor|]. apply step_new; [done|]. by intros b [x Hx].
Qed.

Lemma lifetime_never_aborts_witness : ∃ s', DeleteExecutor_shutdown 0 [] demo2 = Ret s'.
Proof.
  apply (lifetime_never_aborts demo2 LShutdown); [exact demo_reachable|].
  apply step_shutdown; vm_compute; reflexivity.
Defined.

Lemma cascade_completes_witness : work demo2 = 9%nat ∧
  ∃ s', drain (work demo2) demo2 = Ret s' ∧ queue_ s' = [] ∧ exec s' = Idle ∧ ∀ a x, actors s' !! a = Some x → deleted_ x = false.
Proof.
  split; [vm_compute; reflexivity|]. apply cascade_completes; [exact demo_reachable|vm_compute; reflexivity|].
  change (map_Forall (λ _ x, delete_paused_ x = false) (actors demo2)). apply (bool_decide_unpack _). vm_compute. exact I.
Defined.

(** Both objects are gone. *)
Example cascade_demo : ∃ s', drain 9 demo2 = Ret s' ∧ actors s' = ∅ ∧ refs s' = ∅.
Proof. eexists. split; [vm_compute; reflexivity|]. split; reflexivity. Qed.

End LT.
